(* ===== verification/_CoqProject ===== *)
-Q . S2P
Prelude.v
GoBinary.v
Model.v
Codec.v
Readers.v
WalEncoding.v
WalRoundtrip.v
WalSafety.v
WalLog.v
WalReplay.v
WalDurability.v
SstTime.v
SstTimeProofs.v
Float64.v
SstValues.v
SstGorilla.v
SstValuesProofs.v
SstSamples.v
SstSamplesProofs.v
SstPage.v
SstPageProofs.v
Runtime.v
Versions.v
MemColumn.v
MemCompact.v
StoreSpec.v
MemTable.v
MemTheorems.v
EngineMerge.v
Tombstones.v
QueryMerge.v
SstMeta.v
MemoryBudget.v
EngineOptions.v
Planner.v
SstPlain.v
SstPack.v
SstCache.v
SstRead.v
SstScan.v
SstLayout.v
SstPlaced.v
SstReadProofs.v
SstIndexed.v
SstStream.v
SstOpened.v
SstFlush.v
SstTheorems.v
Ports.v
Shard.v
ShardCompact.v
ShardScan.v
WalTyped.v
ShardInv.v
ShardOps.v
ShardFlush.v
ShardMerge.v
ShardCycle.v
RefParts.v
ShardTheorems.v
GoStrings.v
StorageFS.v
User.v
UserManager.v
UserCodec.v
UserSystem.v
UserTheorems.v
Catalog.v
CatalogProofs.v
CatalogTheorems.v
QueryModel.v
QueryStream.v
QueryStreamProofs.v
QueryMergeRows.v
QueryAggregate.v
QueryCursor.v
QueryEngine.v
QueryRows.v
QueryAnswers.v
QueryTheorems.v
