(* ===== verification/Prelude.v ===== *)
(** * Verification of the MTS time series storage engine: root file

    MTS (github.com/openmts/mts, package paths below are under src/) stores
    points: a measurement, tags, a timestamp and typed fields.  A write goes
    through the catalog, which gives the series and the fields identifiers, to
    the shard of its time window; the shard appends it to a write-ahead log and
    applies it to a memtable; a flush turns the memtable into an immutable part
    (an SSTable); compaction merges parts and applies deletions; a query merges
    what the memtable and the parts of every shard answer and turns the columns
    into rows, filtered, ordered, paged or aggregated.  Users, permissions and tokens are
    kept by a manager of their own.  This development models these components,
    from the encodings of single values up to histories of a shard, of the
    catalog and of the user manager with failures and restarts.

    ** Conventions

    Integers are [Z] with the wrap-around of their width written out ([u8],
    [u32], [u64], [i64], [int]); bytes and strings are lists of [Z]; float64 is
    its bit pattern (Float64.v).  A computation that may fail is an [outcome]:
    a value, an error or a panic (an index out of range, a negative or too large
    allocation, a failed conversion).  Readers thread the bytes that are left
    ([reader], Readers.v); methods that change their receiver are steps on a
    state that is kept when they fail ([step], Runtime.v).  Maps are [gmap];
    where Go iterates over a map the code sorts the keys or does not depend on
    the order.  Locks make each call one step; a login, which takes its lock
    twice, is two steps.

    ** Files and the code they model

    - Foundations: Prelude.v (this file), Float64.v, GoBinary.v (encoding/binary,
      hash/crc32), GoStrings.v (strings, sort, internal/collections/maps.go),
      Runtime.v (steps on a state; capacities of append, map sizes and the order
      of iteration, sort.Slice: parameters with the laws [GoRuntimeLaws];
      container/heap), Readers.v (the cursor readers of the packages), Model.v
      (internal/model/types.go).
    - Binary codec: Codec.v (internal/codec): strings, field values, booleans,
      the checksummed envelope that every metadata file is wrapped in.
    - Files: StorageFS.v (internal/storagefs/fs.go): a disk, a script of faults
      that every call draws from, atomic replacement of a file.
    - Catalog: Catalog.v (internal/catalog, every file): the index of series and
      fields, the log, the snapshot, metadata, downsampling metadata, resolution
      of points, batches and typed batches, limits, opening and closing.
      CatalogProofs.v: keys, indexes and codecs.  CatalogTheorems.v: histories.
    - Write-ahead log: WalEncoding.v and WalTyped.v (internal/wal/encoding*.go),
      WalLog.v (wal.go: frames, segments, rolling, sync, checkpoint, replay),
      WalRoundtrip.v, WalSafety.v, WalReplay.v, WalDurability.v (proofs).
    - Memtable: MemColumn.v, MemCompact.v, MemTable.v (internal/memtable)
      with their lemmas, MemTheorems.v.
    - Parts (internal/sstable): SstTime.v, SstValues.v, SstGorilla.v,
      SstSamples.v (codecs and their query paths), SstPage.v, SstPlain.v (value
      pages, page indexes), SstMeta.v (blocks, metadata), SstPack.v (the packed
      file, the streaming and the batch writer), SstCache.v, SstRead.v,
      SstScan.v (caches, opening, queries, scans).  Proofs:
      the *Proofs files of the codecs; SstLayout.v, SstPlaced.v, SstOpened.v
      (where the writer puts the data and that it opens), SstReadProofs.v,
      SstIndexed.v, SstStream.v, SstFlush.v, SstTheorems.v (what is read back).
    - Merging: Versions.v (the abstract meaning: the newest version of each
      timestamp), StoreSpec.v (what a store promises to a reader), EngineMerge.v
      and Tombstones.v (internal/engine/shard.go, tombstone.go), QueryMerge.v
      (internal/queryexec/merge.go, and what merging answers).
    - Shard (internal/engine): MemoryBudget.v, EngineOptions.v, Planner.v
      (compaction planner), Ports.v (the interfaces [WalStore] and [PartStore]
      of ports.go, with their contracts [WalLaws] and [PartLaws]), Shard.v,
      ShardCompact.v, ShardScan.v (shard.go, lifecycle.go, flush_commit.go,
      delete.go, write_apply.go, recovery_audit.go, shard_scan.go), the proofs
      ShardInv.v, ShardOps.v, ShardFlush.v, ShardMerge.v, ShardCycle.v,
      ShardTheorems.v, and RefParts.v (the log behind the interface of the shard
      and a part store that satisfies the contract).
    - Queries: QueryModel.v (queries, rows, columns; normalization, pushdown and
      predicates: internal/engine/paths.go, query_predicates.go,
      query_boundary.go, internal/queryexec/filter.go, expression_filter.go),
      QueryStream.v (the class [StreamOps] of the interfaces RowStream and
      ColumnStream, and the operators of internal/queryexec that wrap one stream
      in another), QueryAggregate.v (aggregate*.go, group_aggregate*.go),
      QueryCursor.v (cursor.go), QueryEngine.v (internal/engine/query.go,
      query_plan.go, metadata_store.go: the plan, the stacks of operators).
      Proofs: QueryStreamProofs.v and QueryMergeRows.v (what each operator
      delivers of what its source delivers), QueryRows.v (the table a query asks
      for, the plan), QueryAnswers.v, QueryTheorems.v.
    - Users: User.v, UserManager.v (internal/user), UserCodec.v, UserSystem.v,
      UserTheorems.v.

    ** What the theorems show

    - Shard: [ShardTheorems.shard_history]: any history of writes, deletions,
      flushes, compactions, queries and reopenings refines two lists, the
      writes and the deletions; a query answers from them.
      [compaction_forgets_deletion] is the history in which it does not.
    - Catalog: [catalog_ids_stable], [catalog_reopens], [resolve_points_exact],
      [downsample_update_atomic] over histories in which calls of the disk fail
      and the process stops; [failed_append_breaks_log] and the theorems behind
      it show what the catalog cannot survive.
    - Log: [wal_sync_durability], [wal_log_refines], [wal_crash_prefix],
      [replay_torn_segment], [replaySegment_safe] and the two crashes that
      replay does not handle; round trips of the three kinds of records.
    - Parts: [part_roundtrip] refines a part to the columns it was written
      from; round trips and reference equivalences of every codec and query
      path; the invariant of the block cache; [split_series_loses_rows].
    - Memtable and merging: [memtable_refines], [typed_batch_equivalence],
      [merge_group_latest], [compaction_merge_answers], [merge_stream_answers].
    - Queries: [row_query_refines]: a row query answers the page of the ordered,
      projected and filtered table of the newest versions in the shards;
      [desc_pages_complete]: following cursors lists a descending answer once;
      [windowed_values]: windows aggregate exactly their samples.
      [asc_pages_lose_rows], [desc_limit_crashes],
      [negative_windows_depend_on_neighbours] and [windowed_difference_refused]
      are concrete inputs on which the code does not do what it means to.
    - Users: [access_safety], [user_persistence], [grant_pages_complete],
      [token_outlives_password_change]; files: [WriteFileAtomic_atomic].
    - Configuration: [memory_budget_invariant], [compaction_options_wf],
      [shard_window], [next_plan_takes_level].

    ** Fuel

    A loop that is not structural runs on a number of steps that its caller
    computes from the input: the length of the bytes left for readers, replay of
    both logs and run-length loops (every turn consumes a byte or a value), the
    total number of samples for merges, the difference of the bounds for binary
    searches and clamped windows, the number of rows or columns for scans, the
    number of elements a stream has left ([bound]) for the operators on streams.  The
    round trips and refinements are stated of the definitions with the fuel
    their callers pass, so they show that it suffices; running out never counts
    as a correct answer in them.

    ** Assumed

    Code outside src/ is a parameter with documented laws: growth of slices and
    sizes of maps ([GoRuntime]), the frame pool ([FramePool]), snappy and zstd
    ([PayloadLib]: what was compressed decompresses), key derivation and digests
    ([Crypto]).  [WalLaws] is proved of the real log (RefParts.v).  [PartLaws]
    is what a shard relies on in its parts: RefParts.v satisfies it, and the
    parts of the Sst files promise the same to a reader ([SstTheorems],
    [SstFlush]) except for the series that are split over rows
    ([split_series_loses_rows]).  The theorems about queries assume of the shards
    of the engine that they answer scans and of the catalog that it knows what
    they hold ([served]); that a shard of Shard.v answers scans is
    [shard_scan_answers].  The operating system fails by a script: any
    error at any call, any number of bytes written.  Names without the bytes
    that the catalog uses as separators, lengths below 2^63, at most 2^39 series
    and 2^30 fields are hypotheses where they matter.

    ** Not modelled

    The server (cmd/mts-server: HTTP, gRPC, line protocol), the storage tool, the
    public facade, internal/runtime, service, observability, storagecheck,
    httpjson, faultinject and bench are glue, input and output or measurement.
    The query language, analyzer, optimizer, planners and the query service sit
    above the queries of the engine.  Of internal/engine the routing of writes
    over shards, the explanation, cost and statistics of queries, the memory
    check of QueryColumns, retention, the execution of downsampling, metrics and
    health are left out; of internal/queryexec the streams that follow a context,
    profiling and the descriptions of pipelines; of internal/sstable the
    statistics counters, context cancellation and the filter of samples by field
    predicates; of internal/storagefs directory listings, walks and permissions.  The theorems about what is read
    back leave aside field predicates that prune pages and queries for the
    boundaries of a range; none is stated of grouped aggregates.  The
    interleaving of goroutines is modelled for the login;
    ordinary locking is not. *)
From stdpp Require Import prelude strings list sorting gmap.
From Stdlib Require Import ZArith Lia.

#[local] Open Scope Z_scope.

#[global] Arguments Nat.modulo : simpl never.
#[global] Arguments Nat.div : simpl never.
#[global] Arguments Z.pow : simpl never.
#[global] Arguments Z.modulo : simpl never.
#[global] Arguments Z.div : simpl never.
#[global] Arguments Z.mul : simpl never.
#[global] Arguments Z.add : simpl never.
#[global] Arguments Z.sub : simpl never.
#[global] Arguments Z.of_nat : simpl never.
#[global] Arguments Z.to_nat : simpl never.

(** ** Bytes and Go strings

    A byte is a [Z] in [0, 256); a byte slice and a Go string (an immutable
    byte sequence) are both lists of bytes. *)
Abbreviation bytes := (list Z).

Definition is_byte (b : Z) : Prop := 0 <= b < 256.
Definition bytes_ok (bs : bytes) : Prop := Forall is_byte bs.

(** [len] is Go's [len] on slices and strings, as an [int]. *)
Definition len {A : Type} (l : list A) : Z := Z.of_nat (length l).

(** Source text as bytes, for readable examples. *)
Fixpoint str (s : string) : bytes :=
  match s with
  | EmptyString => []
  | String.String a s' => Z.of_nat (Ascii.nat_of_ascii a) :: str s'
  end.

Arguments str s%_string.

(** ** Machine integers *)
Definition is_u64 (z : Z) : Prop := 0 <= z < 2 ^ 64.
Definition is_i64 (z : Z) : Prop := - 2 ^ 63 <= z < 2 ^ 63.
Definition is_u32 (z : Z) : Prop := 0 <= z < 2 ^ 32.

(** Conversions and the result of wrapping arithmetic at each width. *)
Definition u64 (z : Z) : Z := z mod 2 ^ 64.
Definition u32 (z : Z) : Z := z mod 2 ^ 32.
Definition u16 (z : Z) : Z := z mod 2 ^ 16.
Definition u8 (z : Z) : Z := z mod 2 ^ 8.
Definition i64 (z : Z) : Z := (z + 2 ^ 63) mod 2 ^ 64 - 2 ^ 63.

(** The largest value of Go's [int] on a 64-bit platform. *)
Definition maxInt : Z := 2 ^ 63 - 1.

#[export] Instance is_byte_dec b : Decision (is_byte b).
Proof. unfold is_byte. apply _. Defined.
#[export] Instance bytes_ok_dec bs : Decision (bytes_ok bs).
Proof. unfold bytes_ok. apply _. Defined.
#[export] Instance is_u64_dec z : Decision (is_u64 z).
Proof. unfold is_u64. apply _. Defined.
#[export] Instance is_i64_dec z : Decision (is_i64 z).
Proof. unfold is_i64. apply _. Defined.
#[export] Instance is_u32_dec z : Decision (is_u32 z).
Proof. unfold is_u32. apply _. Defined.

(** [wrap_lia] decides goals about wrapping arithmetic with constant moduli. *)
Ltac wrap_lia :=
  unfold is_byte, is_u64, is_i64, is_u32, u64, u32, u16, u8, i64, maxInt, len in *;
  repeat match goal with H : _ /\ _ |- _ => destruct H end;
  Z.div_mod_to_equations; lia.

(** [zb] proves the value of a boolean integer comparison. *)
Ltac zb :=
  lazymatch goal with
  | |- (_ <? _) = false => apply Z.ltb_ge
  | |- (_ <? _) = true => apply Z.ltb_lt
  | |- (_ <=? _) = false => apply Z.leb_gt
  | |- (_ <=? _) = true => apply Z.leb_le
  | |- (_ =? _) = false => apply Z.eqb_neq
  | |- (_ =? _) = true => apply Z.eqb_eq
  end; unfold len in *; rewrite ?length_app; lia.

(** [zcase e] cases on a boolean integer comparison and keeps its meaning. *)
Ltac zcase e :=
  let E := fresh "E" in
  destruct e eqn:E;
  rewrite ?Z.ltb_lt, ?Z.ltb_ge, ?Z.leb_le, ?Z.leb_gt, ?Z.eqb_eq, ?Z.eqb_neq in E.

(** [by_decide] proves a closed decidable proposition by evaluation. *)
Ltac by_decide := apply (bool_decide_unpack _); vm_compute; exact I.

Lemma u64_id z : is_u64 z -> u64 z = z.
Proof. unfold is_u64, u64. intros. by apply Z.mod_small. Qed.
Lemma i64_id z : is_i64 z -> i64 z = z.
Proof. intros. wrap_lia. Qed.
Lemma u32_id z : is_u32 z -> u32 z = z.
Proof. unfold is_u32, u32. intros. by apply Z.mod_small. Qed.
Lemma u64_range z : is_u64 (u64 z).
Proof. unfold is_u64, u64. apply Z.mod_pos_bound. lia. Qed.
Lemma i64_range z : is_i64 (i64 z).
Proof. wrap_lia. Qed.
Lemma i64_u64 z : i64 (u64 z) = i64 z.
Proof. wrap_lia. Qed.
Lemma u64_i64 z : u64 (i64 z) = u64 z.
Proof. wrap_lia. Qed.
(** Two's complement: a wrapped difference added back gives the minuend. *)
Lemma i64_add_sub p n : is_i64 n -> i64 (p + i64 (n - p)) = n.
Proof. intros. wrap_lia. Qed.
Lemma i64_u64_id z : is_i64 z -> i64 (u64 z) = z.
Proof. intros. rewrite i64_u64. by apply i64_id. Qed.

(** ** Outcomes

    A Go function returning [(T, error)] either succeeds or returns an error;
    a run-time panic (an index out of range, or [make] with a length whose
    allocation exceeds the address space) is a third outcome.  The two
    sentinel values the code compares with [==] are kept apart, [%w] wrapping
    is [ErrWrap]; operands formatted into a message are dropped. *)
Inductive goerr :=
  | EOF
  | ErrUnexpectedEOF
  | Errorf (msg : string)
  | ErrWrap (msg : string) (e : goerr).

Arguments Errorf msg%_string.
Arguments ErrWrap msg%_string e.

#[export] Instance goerr_eq_dec : EqDecision goerr.
Proof. solve_decision. Defined.

Inductive gopanic :=
  | IndexOutOfRange
  | MakesliceLen
  | NilDereference.

Inductive outcome (A : Type) :=
  | Ok (a : A)
  | Err (e : goerr)
  | Panic (p : gopanic).
Arguments Ok {A} a.
Arguments Err {A} e.
Arguments Panic {A} p.

#[export] Instance outcome_ret : MRet outcome := fun A a => Ok a.
#[export] Instance outcome_bind : MBind outcome := fun A B k m =>
  match m with Ok a => k a | Err e => Err e | Panic p => Panic p end.
#[export] Instance outcome_fmap : FMap outcome := fun A B f m =>
  match m with Ok a => Ok (f a) | Err e => Err e | Panic p => Panic p end.

(** [fmt.Errorf("msg: %w", err)] around a call. *)
Definition wrapErr {A} (msg : string) (m : outcome A) : outcome A :=
  match m with Err e => Err (ErrWrap msg e) | r => r end.

Arguments wrapErr {A} msg%_string m.

(** Slice indexing: panics when the index is out of range. *)
Definition idx {A} (l : list A) (i : Z) : outcome A :=
  if bool_decide (0 <= i) then
    match l !! Z.to_nat i with Some x => Ok x | None => Panic IndexOutOfRange end
  else Panic IndexOutOfRange.

(** Indexed store [l[i] = x]: panics when the index is out of range. *)
Definition set_idx {A} (l : list A) (i : Z) (x : A) : outcome (list A) :=
  if bool_decide (0 <= i < len l) then Ok (<[Z.to_nat i := x]> l) else Panic IndexOutOfRange.

Lemma idx_lookup {A} (l : list A) (i : nat) x : l !! i = Some x -> idx l (Z.of_nat i) = Ok x.
Proof. intros H. unfold idx. rewrite bool_decide_true by lia. by rewrite Nat2Z.id, H. Qed.
Lemma idx_Z {A} (l : list A) i x : 0 <= i -> l !! Z.to_nat i = Some x -> idx l i = Ok x.
Proof. intros Hi H. unfold idx. by rewrite bool_decide_true, H. Qed.
Lemma set_idx_ok {A} (l : list A) i x : 0 <= i < len l -> set_idx l i x = Ok (<[Z.to_nat i := x]> l).
Proof. intros Hi. unfold set_idx. by rewrite bool_decide_true. Qed.
Lemma idx_fmap {A B} (f : A -> B) l i x : l !! i = Some x -> idx (f <$> l) (Z.of_nat i) = Ok (f x).
Proof. intros H. apply idx_lookup. by rewrite list_lookup_fmap, H. Qed.
Lemma len_app {A} (l1 l2 : list A) : len (l1 ++ l2) = len l1 + len l2.
Proof. unfold len. rewrite length_app. lia. Qed.
Lemma len_snoc {A} (l : list A) x : len (l ++ [x]) = len l + 1.
Proof. apply len_app. Qed.
Lemma len_nonneg {A} (l : list A) : 0 <= len l.
Proof. unfold len. lia. Qed.
Lemma count_nat {A} (l : list A) : Z.to_nat (len l) = length l.
Proof. unfold len. lia. Qed.

Definition is_ok {A} (m : outcome A) : Prop := exists a, m = Ok a.

(** ** Cursor-style readers

    [batchReader] (internal/wal) and [blockReader] (internal/sstable) are a
    struct holding the unread [rest] of a buffer, advanced by every method.
    A method is a state-passing function on [rest]. *)
Definition reader (A : Type) : Type := bytes -> outcome (A * bytes).

#[export] Instance reader_ret : MRet reader := fun A a s => Ok (a, s).
#[export] Instance reader_bind : MBind reader := fun A B k m s =>
  match m s with
  | Ok (a, s') => k a s'
  | Err e => Err e
  | Panic p => Panic p
  end.

Definition rfail {A} (e : goerr) : reader A := fun _ => Err e.
Definition lift {A} (m : outcome A) : reader A := fun s =>
  match m with Ok a => Ok (a, s) | Err e => Err e | Panic p => Panic p end.

(** [make([]T, n)] for a [T] of [elemSize] bytes: panics when the allocation
    exceeds 2^48 bytes, the limit of the 64-bit run-time.  Slices sized by data
    already in memory stay below it. *)
Definition maxAlloc : Z := 2 ^ 48.
Definition make_slice (elemSize n : Z) : outcome unit :=
  if (n <? 0) || (maxAlloc <? elemSize * n) then Panic MakesliceLen else Ok tt.
(** A length for which slices of elements of up to 104 bytes (the size of a
    resolved point) can be made. *)
Definition fits (n : Z) : Prop := 104 * n <= maxAlloc.
#[export] Instance fits_dec n : Decision (fits n).
Proof. unfold fits. apply _. Defined.
#[global] Typeclasses Opaque fits.
Ltac alloc_lia := unfold fits, len, maxAlloc, maxInt in *; lia.
Definition rmake (elemSize n : Z) : reader unit := lift (make_slice elemSize n).

(** [for index := range count { x, err := m(); out[index] = x }] *)
Fixpoint read_n {A} (n : nat) (m : reader A) : reader (list A) :=
  match n with
  | O => mret []
  | S n' => x ← m; xs ← read_n n' m; mret (x :: xs)
  end.

(** The same loop whose body also depends on values carried between rounds. *)
Fixpoint read_fold {A S} (n : nat) (m : S -> reader (A * S)) (acc : S) : reader (list A) :=
  match n with
  | O => mret []
  | Datatypes.S n' =>
      '(x, acc') ← m acc; xs ← read_fold n' m acc'; mret (x :: xs)
  end.

(** A loop that consumes input in every round, with the length of the input as
    its fuel. *)
Definition sized {A} (m : nat -> reader A) : reader A := fun s => m (S (length s)) s.

(** [dec] reads back what [enc] wrote, whatever follows it. *)
Definition reads_back {A} (dec : reader A) (bs : bytes) (a : A) : Prop :=
  forall rest, dec (bs ++ rest) = Ok (a, rest).

Lemma reads_back_ret {A} (a : A) : reads_back (mret a) [] a.
Proof. done. Qed.

Lemma reads_back_bind {A B} (m : reader A) (k : A -> reader B) bs1 bs2 a b :
  reads_back m bs1 a -> reads_back (k a) bs2 b -> reads_back (m ≫= k) (bs1 ++ bs2) b.
Proof.
  intros Hm Hk rest. unfold mbind, reader_bind. rewrite <- (assoc_L (++)), Hm. apply Hk.
Qed.

Lemma reads_back_eq {A} (m : reader A) bs bs' a :
  reads_back m bs a -> bs' = bs -> reads_back m bs' a.
Proof. by intros ? ->. Qed.

(** Binding a reader that consumes everything [bs1], with nothing after it. *)
Lemma reads_back_bind_nil {A B} (m : reader A) (k : A -> reader B) bs a b :
  reads_back m bs a -> reads_back (k a) [] b -> reads_back (m ≫= k) bs b.
Proof. intros. rewrite <- (app_nil_r bs). by eapply reads_back_bind. Qed.

Lemma reads_back_read_n {A} (enc : A -> bytes) (m : reader A) (l : list A) :
  Forall (fun a => reads_back m (enc a) a) l ->
  reads_back (read_n (length l) m) (concat (map enc l)) l.
Proof.
  induction 1 as [|a l Ha Hl IH]; [apply reads_back_ret|]. simpl.
  eapply reads_back_bind; [exact Ha|]. eapply reads_back_bind_nil; [exact IH|].
  apply reads_back_ret.
Qed.

Lemma reads_back_run {A} (m : reader A) bs a : reads_back m bs a -> m bs = Ok (a, []).
Proof. intros H. specialize (H []). by rewrite app_nil_r in H. Qed.

(** Running a reader whose tail insists that the input ends. *)
Lemma run_bind {A B} (m : reader A) (k : A -> reader B) bs1 bs2 a r :
  reads_back m bs1 a -> k a bs2 = r -> (m ≫= k) (bs1 ++ bs2) = r.
Proof. intros Hm <-. unfold mbind, reader_bind. by rewrite Hm. Qed.
Lemma run_bind_nil {A B} (m : reader A) (k : A -> reader B) bs a r :
  reads_back m bs a -> k a [] = r -> (m ≫= k) bs = r.
Proof. intros. rewrite <- (app_nil_r bs). by eapply run_bind. Qed.

Lemma reads_back_sized {A} (m : nat -> reader A) bs a :
  (forall fuel, (length bs < fuel)%nat -> reads_back (m fuel) bs a) -> reads_back (sized m) bs a.
Proof. intros H rest. apply H. rewrite length_app. lia. Qed.

Lemma lift_ok {A} (a : A) : reads_back (lift (Ok a)) [] a.
Proof. done. Qed.

Lemma make_slice_ok elemSize n : 0 <= n -> elemSize * n <= maxAlloc -> make_slice elemSize n = Ok tt.
Proof.
  intros H1 H2. unfold make_slice. rewrite (proj2 (Z.ltb_ge _ _) H1), (proj2 (Z.ltb_ge _ _) H2). done.
Qed.
Lemma make_slice_cases elemSize n :
  make_slice elemSize n = Ok tt \/ make_slice elemSize n = Panic MakesliceLen.
Proof. unfold make_slice. case_match; auto. Qed.
Lemma reads_back_make {B} elemSize n (k : unit -> reader B) bs b :
  0 <= n -> elemSize * n <= maxAlloc -> reads_back (k tt) bs b -> reads_back (rmake elemSize n ≫= k) bs b.
Proof.
  intros ?? Hk rest. unfold rmake, mbind, reader_bind, lift. rewrite make_slice_ok by done. apply Hk.
Qed.
Lemma run_make {B} elemSize n (k : unit -> reader B) bs r :
  0 <= n -> elemSize * n <= maxAlloc -> k tt bs = r -> (rmake elemSize n ≫= k) bs = r.
Proof. intros ?? <-. unfold rmake, mbind, reader_bind, lift. by rewrite make_slice_ok. Qed.

(** ** Readers that never index out of range *)
Definition reader_safe {A} (m : reader A) : Prop := forall s, m s <> Panic IndexOutOfRange.

Lemma reader_safe_ret {A} (a : A) : reader_safe (mret a).
Proof. by intros s. Qed.
Lemma reader_safe_fail {A} e : reader_safe (rfail (A := A) e).
Proof. by intros s. Qed.
Lemma reader_safe_bind {A B} (m : reader A) (k : A -> reader B) :
  reader_safe m -> (forall a, reader_safe (k a)) -> reader_safe (m ≫= k).
Proof.
  intros Hm Hk s. unfold mbind, reader_bind. specialize (Hm s).
  destruct (m s) as [[a s']| |p]; [apply Hk|done|]. intros [= ->]. done.
Qed.
Lemma reader_safe_if {A} (b : bool) (m1 m2 : reader A) :
  reader_safe m1 -> reader_safe m2 -> reader_safe (if b then m1 else m2).
Proof. by destruct b. Qed.
Lemma reader_safe_read_n {A} n (m : reader A) : reader_safe m -> reader_safe (read_n n m).
Proof.
  intros Hm. induction n as [|n IH]; simpl; [apply reader_safe_ret|].
  apply reader_safe_bind; [done|intros a]. apply reader_safe_bind; [done|intros l].
  apply reader_safe_ret.
Qed.
Lemma reader_safe_read_fold {A S} n (m : S -> reader (A * S)) acc :
  (forall s, reader_safe (m s)) -> reader_safe (read_fold n m acc).
Proof.
  intros Hm. revert acc. induction n as [|n IH]; intros acc; simpl; [apply reader_safe_ret|].
  apply reader_safe_bind; [done|intros [a acc']]. apply reader_safe_bind; [done|intros l].
  apply reader_safe_ret.
Qed.

Create HintDb reader_safe.
#[export] Hint Resolve reader_safe_ret reader_safe_fail reader_safe_bind reader_safe_if
  reader_safe_read_n reader_safe_read_fold : reader_safe.

(** [alloc_only r]: the one panic [r] can be is a slice that is too large to
    allocate; nothing is indexed out of range or dereferenced while nil. *)
Definition alloc_only {A} (r : outcome A) : Prop :=
  match r with Panic p => p = MakesliceLen | _ => True end.

(** ** Hoare-style specifications of readers on arbitrary bytes

    [rspec m P]: on any byte string [m] does not index out of range, and a
    value it returns satisfies [P]. *)
Definition rspec {A} (m : reader A) (P : A -> Prop) : Prop := forall s, bytes_ok s ->
  match m s with Ok (a, s') => P a /\ bytes_ok s' | Err _ => True | Panic p => p = MakesliceLen end.

Lemma rspec_ret {A} (a : A) (P : A -> Prop) : P a -> rspec (mret a) P.
Proof. by intros Ha s Hs. Qed.
Lemma rspec_fail {A} e (P : A -> Prop) : rspec (rfail e) P.
Proof. by intros s Hs. Qed.
Lemma rspec_bind {A B} (m : reader A) (k : A -> reader B) P Q :
  rspec m P -> (forall a, P a -> rspec (k a) Q) -> rspec (m ≫= k) Q.
Proof.
  intros Hm Hk s Hs. unfold mbind, reader_bind. specialize (Hm s Hs).
  destruct (m s) as [[a s']| |]; [|done|done]. destruct Hm as [Ha Hs']. by apply Hk.
Qed.
Lemma rspec_weaken {A} (m : reader A) (P Q : A -> Prop) :
  rspec m P -> (forall a, P a -> Q a) -> rspec m Q.
Proof.
  intros Hm HPQ s Hs. specialize (Hm s Hs). destruct (m s) as [[a s']| |]; [|done|done].
  destruct Hm. auto.
Qed.
Lemma rspec_read_n {A} n (m : reader A) P : rspec m P ->
  rspec (read_n n m) (fun l => length l = n /\ Forall P l).
Proof.
  intros Hm. induction n as [|n IH]; simpl; [by apply rspec_ret|].
  eapply rspec_bind; [exact Hm|intros a Ha]. eapply rspec_bind; [exact IH|intros l [<- Hl]].
  apply rspec_ret. split; [done|by constructor].
Qed.
Lemma rspec_read_fold {A S} n (m : S -> reader (A * S)) (I : S -> Prop) (P : A -> Prop) acc :
  (forall st, I st -> rspec (m st) (fun r => P r.1 /\ I r.2)) -> I acc ->
  rspec (read_fold n m acc) (fun l => length l = n /\ Forall P l).
Proof.
  intros Hm. revert acc. induction n as [|n IH]; intros acc Hacc; simpl; [by apply rspec_ret|].
  eapply rspec_bind; [by apply Hm|intros [a acc'] [Ha Hacc']].
  eapply rspec_bind; [by apply IH|intros l [<- Hl]].
  apply rspec_ret. split; [done|by constructor].
Qed.
Lemma rspec_mapM {A B} (f : A -> reader B) (P : A -> B -> Prop) (l : list A) :
  (forall a, rspec (f a) (P a)) -> rspec (mapM f l) (Forall2 P l).
Proof.
  intros Hf. induction l as [|a l IH]; simpl; [by apply rspec_ret|].
  eapply rspec_bind; [apply Hf|intros b Hb]. eapply rspec_bind; [exact IH|intros bs Hbs].
  apply rspec_ret. by constructor.
Qed.
Lemma rspec_lift {A} (m : outcome A) (P : A -> Prop) :
  (forall p, m = Panic p -> p = MakesliceLen) -> (forall a, m = Ok a -> P a) -> rspec (lift m) P.
Proof. intros Hm HP s Hs. unfold lift. destruct m as [| |p]; auto. Qed.
Lemma rspec_make elemSize n : rspec (rmake elemSize n) (fun _ => 0 <= n /\ elemSize * n <= maxAlloc).
Proof.
  apply rspec_lift; unfold make_slice; zcase (n <? 0); zcase (maxAlloc <? elemSize * n); simpl;
    first [by intros p [= <-]|done].
Qed.

Lemma rspec_bind_make {B} elemSize n (k : unit -> reader B) Q :
  (0 <= n -> elemSize * n <= maxAlloc -> rspec (k tt) Q) -> rspec (rmake elemSize n ≫= k) Q.
Proof. intros Hk. eapply rspec_bind; [apply rspec_make|]. intros [] [? ?]. by apply Hk. Qed.

(** ** Go's order on strings: bytewise lexicographic *)
Fixpoint bytes_ltb (a b : bytes) : bool :=
  match a, b with
  | _, [] => false
  | [], _ :: _ => true
  | x :: a', y :: b' =>
      if x <? y then true else if y <? x then false else bytes_ltb a' b'
  end.
Definition bytes_lt (a b : bytes) : Prop := bytes_ltb a b = true.
Definition bytes_le (a b : bytes) : Prop := bytes_ltb b a = false.
#[export] Instance bytes_lt_dec : RelDecision bytes_lt.
Proof. intros a b. unfold bytes_lt. apply _. Defined.
#[export] Instance bytes_le_dec : RelDecision bytes_le.
Proof. intros a b. unfold bytes_le. apply _. Defined.

Lemma bytes_ltb_irrefl a : bytes_ltb a a = false.
Proof. induction a as [|x a IH]; simpl; [done|]. by rewrite Z.ltb_irrefl. Qed.
Lemma bytes_ltb_asym a b : bytes_ltb a b = true -> bytes_ltb b a = false.
Proof.
  revert b. induction a as [|x a IH]; intros [|y b]; simpl; try done.
  zcase (x <? y); zcase (y <? x); try done; try lia. apply IH.
Qed.
Lemma bytes_ltb_trans a b c :
  bytes_ltb a b = true -> bytes_ltb b c = true -> bytes_ltb a c = true.
Proof.
  revert b c. induction a as [|x a IH]; intros [|y b] [|z c]; simpl; try done.
  zcase (x <? y); zcase (y <? x); zcase (y <? z); zcase (z <? y); zcase (x <? z); zcase (z <? x);
    try done; try lia. apply IH.
Qed.
Lemma bytes_ltb_tricho a b : bytes_ltb a b = false -> bytes_ltb b a = false -> a = b.
Proof.
  revert b. induction a as [|x a IH]; intros [|y b]; simpl; try done.
  zcase (x <? y); zcase (y <? x); try done. intros. f_equal; [lia|by apply IH].
Qed.
#[export] Instance bytes_le_total : Total bytes_le.
Proof.
  intros a b. unfold bytes_le. destruct (bytes_ltb b a) eqn:E; [right|by left].
  by apply bytes_ltb_asym.
Qed.
#[export] Instance bytes_le_trans : Transitive bytes_le.
Proof.
  intros a b c H1 H2. unfold bytes_le in *. destruct (bytes_ltb c a) eqn:E; [|done].
  destruct (bytes_ltb a b) eqn:Eab.
  - by rewrite (bytes_ltb_trans _ _ _ E Eab) in H2.
  - pose proof (bytes_ltb_tricho _ _ Eab H1) as ->. congruence.
Qed.
#[export] Instance bytes_lt_trans : Transitive bytes_lt.
Proof. intros a b c. apply bytes_ltb_trans. Qed.
