(* ===== verification/GoBinary.v ===== *)
(** * The parts of Go's standard library the formats are built on

    [encoding/binary] (uvarint, varint, fixed little- and big-endian words),
    [hash/crc32] with the Castagnoli polynomial, and [math/bits] are modelled
    here from their documented behaviour; everything above them in the
    development is translated from the repository. *)
From S2P Require Import Prelude.
From stdpp Require Import prelude strings list.
From Stdlib Require Import ZArith Lia.
#[local] Open Scope Z_scope.

(** ** Uvarint

    [binary.AppendUvarint]: 7 bits per byte, least significant group first,
    the top bit set on every byte but the last.  Ten groups hold 64 bits. *)
Definition MaxVarintLen64 : Z := 10.

Fixpoint uvarint_groups (fuel : nat) (x : Z) : bytes :=
  match fuel with
  | O => [x]
  | S fuel' =>
      if 0x80 <=? x then Z.lor (u8 x) 0x80 :: uvarint_groups fuel' (Z.shiftr x 7)
      else [x]
  end.
Definition appendUvarint (x : Z) : bytes := uvarint_groups 9 x.

(** [binary.Uvarint]: the value and the number of bytes read; 0 when the
    buffer is too short, negative on a 64-bit overflow. *)
Fixpoint uvarint_loop (buf : bytes) (i x s : Z) : Z * Z :=
  match buf with
  | [] => (0, 0)
  | b :: buf' =>
      if i =? MaxVarintLen64 then (0, - (i + 1))
      else if b <? 0x80 then
        if (i =? MaxVarintLen64 - 1) && (1 <? b) then (0, - (i + 1))
        else (Z.lor x (u64 (Z.shiftl b s)), i + 1)
      else uvarint_loop buf' (i + 1) (Z.lor x (u64 (Z.shiftl (Z.land b 0x7f) s))) (s + 7)
  end.
Definition Uvarint (buf : bytes) : Z * Z := uvarint_loop buf 0 0 0.

(** ** Varint: zig-zag on top of uvarint *)
Definition varint_zigzag (x : Z) : Z :=
  let ux := u64 (Z.shiftl (u64 x) 1) in
  if x <? 0 then u64 (Z.lnot ux) else ux.
Definition appendVarint (x : Z) : bytes := appendUvarint (varint_zigzag x).

Definition varint_unzigzag (ux : Z) : Z :=
  let x := i64 (Z.shiftr ux 1) in
  if bool_decide (Z.land ux 1 <> 0) then Z.lnot x else x.
Definition Varint (buf : bytes) : Z * Z :=
  let '(ux, n) := Uvarint buf in (varint_unzigzag ux, n).

(** ** Fixed width words *)
Fixpoint le_bytes (n : nat) (x : Z) : bytes :=
  match n with O => [] | S n' => u8 x :: le_bytes n' (Z.shiftr x 8) end.
Fixpoint le_word (bs : bytes) : Z :=
  match bs with [] => 0 | b :: bs' => Z.lor b (Z.shiftl (le_word bs') 8) end.

Definition le_put_u64 (x : Z) : bytes := le_bytes 8 x.
Definition le_put_u32 (x : Z) : bytes := le_bytes 4 x.
Definition le_put_u16 (x : Z) : bytes := le_bytes 2 x.
Definition be_put_u32 (x : Z) : bytes := rev (le_bytes 4 x).
Definition be_word (bs : bytes) : Z := le_word (rev bs).

(** ** CRC-32, Castagnoli polynomial, reflected *)
Definition castagnoli : Z := 0x82f63b78.
Definition crc_bit (crc : Z) : Z :=
  if Z.odd crc then Z.lxor (Z.shiftr crc 1) castagnoli else Z.shiftr crc 1.
Definition crc_byte (crc b : Z) : Z :=
  Nat.iter 8 crc_bit (Z.lxor crc (u8 b)).
Definition crc32c (bs : bytes) : Z :=
  Z.lxor (fold_left crc_byte bs 0xffffffff) 0xffffffff.

(** ** [math/bits] *)
Definition LeadingZeros64 (x : Z) : Z := if x =? 0 then 64 else 63 - Z.log2 x.
Fixpoint trailing_zeros_pos (p : positive) : Z :=
  match p with xO p' => 1 + trailing_zeros_pos p' | _ => 0 end.
Definition TrailingZeros64 (x : Z) : Z :=
  match x with Z.pos p => trailing_zeros_pos p | _ => 64 end.

(** The check value of CRC-32C over "123456789". *)
Example crc32c_check : crc32c (str "123456789") = 0xe3069283.
Proof. vm_compute. reflexivity. Qed.

(** ** Bit facts shared by the codecs *)
Lemma shiftr_div x n : 0 <= n -> Z.shiftr x n = x / 2 ^ n.
Proof. intros. by apply Z.shiftr_div_pow2. Qed.
Lemma shiftl_mul x n : 0 <= n -> Z.shiftl x n = x * 2 ^ n.
Proof. intros. by apply Z.shiftl_mul_pow2. Qed.
Lemma land_ones_mod x n : 0 <= n -> Z.land x (Z.ones n) = x mod 2 ^ n.
Proof. intros. by apply Z.land_ones. Qed.
Lemma land_7f x : Z.land x 0x7f = x mod 128.
Proof. exact (Z.land_ones x 7 ltac:(lia)). Qed.
Lemma land_1 x : Z.land x 1 = x mod 2.
Proof. exact (Z.land_ones x 1 ltac:(lia)). Qed.

(** Disjoint bit fields: [lor] is addition. *)
Lemma lor_add_low a b n : 0 <= n -> 0 <= a < 2 ^ n -> Z.lor a (b * 2 ^ n) = a + b * 2 ^ n.
Proof.
  intros Hn Ha. rewrite <- Z.lxor_lor, <- Z.add_nocarry_lxor; [done| |].
  all: apply Z.bits_inj'; intros i Hi; rewrite Z.land_spec, Z.bits_0, <- Z.shiftl_mul_pow2 by done;
    rewrite Z.shiftl_spec by done;
    destruct (decide (i < n));
    [rewrite (Z.testbit_neg_r b) by lia; by rewrite andb_false_r
    |rewrite <- (Z.mod_small a (2 ^ n)) by done;
     rewrite Z.mod_pow2_bits_high by lia; done].
Qed.

Lemma lor_80 x : Z.lor (u8 x) 0x80 = x mod 128 + 128.
Proof.
  unfold u8.
  assert (x mod 2 ^ 8 = x mod 128 + (x / 128) mod 2 * 128) as -> by (Z.div_mod_to_equations; lia).
  pose proof (Z.mod_pos_bound x 128 ltac:(lia)).
  change 128 with (2 ^ 7) in *. rewrite <- lor_add_low by lia.
  replace (x mod 2 ^ 7 + 2 ^ 7) with (x mod 2 ^ 7 + 1 * 2 ^ 7) by lia.
  rewrite <- Z.lor_assoc, <- (lor_add_low (x mod 2 ^ 7) 1 7) by lia. f_equal.
  destruct (Z.mod_pos_bound (x / 2 ^ 7) 2 ltac:(lia)).
  assert ((x / 2 ^ 7) mod 2 = 0 \/ (x / 2 ^ 7) mod 2 = 1) as [-> | ->] by lia; done.
Qed.

(** ** Uvarint round trip *)
Lemma uvarint_loop_groups fuel x rest i acc s :
  0 <= x -> x < 2 ^ (7 * Z.of_nat fuel + 7) -> i = 9 - Z.of_nat fuel -> s = 7 * i ->
  0 <= acc < 2 ^ s -> acc + x * 2 ^ s < 2 ^ 64 -> 0 <= i ->
  uvarint_loop (uvarint_groups fuel x ++ rest) i acc s
  = (acc + x * 2 ^ s, i + len (uvarint_groups fuel x)).
Proof.
  revert x i acc s. induction fuel as [|fuel IH]; intros x i acc s Hx Hxb Hi Hs Ha Hb Hi0; simpl.
  - assert (i = 9) as -> by lia. subst s. simpl. unfold MaxVarintLen64. simpl.
    assert ((x <? 128) = true) as -> by lia. simpl.
    assert ((1 <? x) = false) as -> by (apply Z.ltb_ge; change (2 ^ (7 * 9)) with (2 ^ 63) in *; lia).
    rewrite shiftl_mul by lia. rewrite u64_id by (split; change (2 ^ (7 * 9)) with (2 ^ 63) in *; lia).
    rewrite lor_add_low by lia. f_equal.
  - assert (0 <= 2 ^ s) by (apply Z.pow_nonneg; lia).
    destruct (0x80 <=? x) eqn:Hge; simpl.
    + apply Z.leb_le in Hge. rewrite lor_80. unfold MaxVarintLen64.
      assert ((i =? 10) = false) as -> by lia.
      pose proof (Z.mod_pos_bound x 128 ltac:(lia)).
      assert ((x mod 128 + 128 <? 128) = false) as -> by lia.
      rewrite land_7f, shiftr_div by lia. change (2 ^ 7) with 128.
      assert ((x mod 128 + 128) mod 128 = x mod 128) as ->
        by (Z.div_mod_to_equations; lia).
      assert (x = x mod 128 + x / 128 * 128) as Hxe by (Z.div_mod_to_equations; lia).
      assert (0 <= x / 128) by (apply Z.div_pos; lia).
      rewrite shiftl_mul by lia.
      assert (2 ^ (s + 7) = 2 ^ s * 128) as Hp by (rewrite Z.pow_add_r by lia; done).
      assert (x * 2 ^ s = x mod 128 * 2 ^ s + x / 128 * (2 ^ s * 128)) as Hsplit
        by (rewrite Hxe at 1; ring).
      assert (0 <= x mod 128 * 2 ^ s <= 127 * 2 ^ s)
        by (split; [apply Z.mul_nonneg_nonneg|apply Z.mul_le_mono_nonneg_r]; lia).
      assert (0 <= x / 128 * (2 ^ s * 128)) by (apply Z.mul_nonneg_nonneg; lia).
      assert (x / 128 < 2 ^ (7 * Z.of_nat fuel + 7)).
      { apply Z.div_lt_upper_bound; [lia|].
        replace (7 * Z.of_nat (S fuel) + 7) with (7 + (7 * Z.of_nat fuel + 7)) in Hxb by lia.
        rewrite Z.pow_add_r in Hxb by lia. exact Hxb. }
      rewrite u64_id by (split; lia). rewrite lor_add_low by lia.
      rewrite IH; rewrite ?Hp; try lia.
      f_equal; [lia|]. unfold len. simpl. lia.
    + apply Z.leb_gt in Hge. unfold MaxVarintLen64.
      assert ((i =? 10) = false) as -> by lia. assert ((x <? 128) = true) as -> by lia.
      assert ((i =? 10 - 1) = false) as -> by lia. simpl.
      assert (0 <= x * 2 ^ s) by (apply Z.mul_nonneg_nonneg; lia).
      rewrite shiftl_mul by lia. rewrite u64_id by (split; lia).
      rewrite lor_add_low by lia. f_equal.
Qed.

Lemma Uvarint_append x rest : is_u64 x ->
  Uvarint (appendUvarint x ++ rest) = (x, len (appendUvarint x)).
Proof.
  intros [??]. unfold Uvarint, appendUvarint.
  change (2 ^ 64) with 18446744073709551616 in *.
  assert (x < 2 ^ (7 * Z.of_nat 9 + 7))
    by (change (2 ^ (7 * Z.of_nat 9 + 7)) with 1180591620717411303424; lia).
  rewrite (uvarint_loop_groups 9) by (done || (change (2 ^ 0) with 1; lia)).
  change (2 ^ 0) with 1. f_equal. lia.
Qed.

Lemma uvarint_groups_len fuel x : 0 < len (uvarint_groups fuel x).
Proof. destruct fuel; simpl; [|case_match]; unfold len; simpl; lia. Qed.
Lemma appendUvarint_pos x : 0 < len (appendUvarint x).
Proof. apply uvarint_groups_len. Qed.
Lemma uvarint_groups_length fuel x : (length (uvarint_groups fuel x) <= S fuel)%nat.
Proof.
  revert x. induction fuel as [|fuel IH]; intros x; simpl; [lia|].
  case_match; simpl; [specialize (IH (Z.shiftr x 7))|]; lia.
Qed.

Lemma uvarint_groups_ok fuel x : 0 <= x < 2 ^ (7 * Z.of_nat fuel + 7) -> (0 < fuel)%nat ∨ x < 256 ->
  bytes_ok (uvarint_groups fuel x).
Proof.
  revert x. induction fuel as [|fuel IH]; intros x Hx Hf; simpl.
  { constructor; [|constructor]. unfold is_byte. lia. }
  destruct (0x80 <=? x) eqn:Hge.
  - apply Z.leb_le in Hge. rewrite lor_80. constructor; [wrap_lia|].
    rewrite shiftr_div by lia.
    assert (0 <= x / 2 ^ 7 < 2 ^ (7 * Z.of_nat fuel + 7)).
    { split; [apply Z.div_pos; lia|]. apply Z.div_lt_upper_bound; [lia|].
      rewrite <- Z.pow_add_r by lia.
      replace (7 + (7 * Z.of_nat fuel + 7)) with (7 * Z.of_nat (S fuel) + 7) by lia. lia. }
    apply IH; [done|]. destruct fuel; [right|left; lia].
    change (2 ^ (7 * Z.of_nat 0 + 7)) with 128 in *. lia.
  - apply Z.leb_gt in Hge. constructor; [unfold is_byte; lia|constructor].
Qed.
Lemma appendUvarint_ok x : is_u64 x -> bytes_ok (appendUvarint x).
Proof.
  intros [??]. apply uvarint_groups_ok; [|left; lia].
  change (2 ^ (7 * Z.of_nat 9 + 7)) with (2 ^ 70). lia.
Qed.

(** ** Varint round trip *)
Lemma varint_zigzag_spec x : is_i64 x ->
  varint_zigzag x = if x <? 0 then - 2 * x - 1 else 2 * x.
Proof.
  intros Hx. unfold varint_zigzag. rewrite shiftl_mul by lia.
  destruct (x <? 0) eqn:E; [|wrap_lia].
  pose proof (Z.add_lnot_diag (u64 (u64 x * 2 ^ 1))).
  assert (Z.lnot (u64 (u64 x * 2 ^ 1)) = -1 - u64 (u64 x * 2 ^ 1)) as -> by lia. wrap_lia.
Qed.
Lemma varint_zigzag_range x : is_u64 (varint_zigzag x).
Proof.
  unfold varint_zigzag. destruct (x <? 0); apply u64_range.
Qed.
Lemma varint_unzigzag_zigzag x : is_i64 x -> varint_unzigzag (varint_zigzag x) = x.
Proof.
  intros Hx. rewrite varint_zigzag_spec by done. unfold varint_unzigzag.
  rewrite land_1, shiftr_div by lia. change (2 ^ 1) with 2.
  destruct (x <? 0) eqn:E; [apply Z.ltb_lt in E|apply Z.ltb_ge in E].
  - rewrite bool_decide_true by (Z.div_mod_to_equations; lia).
    assert ((- 2 * x - 1) / 2 = - x - 1) as -> by (Z.div_mod_to_equations; lia).
    rewrite i64_id by wrap_lia. pose proof (Z.add_lnot_diag (- x - 1)). lia.
  - rewrite bool_decide_false by (Z.div_mod_to_equations; lia).
    assert (2 * x / 2 = x) as -> by (Z.div_mod_to_equations; lia). by apply i64_id.
Qed.
Lemma varint_unzigzag_range u : is_i64 (varint_unzigzag u).
Proof.
  unfold varint_unzigzag. case_bool_decide; [|apply i64_range].
  pose proof (i64_range (Z.shiftr u 1)).
  pose proof (Z.add_lnot_diag (i64 (Z.shiftr u 1))). wrap_lia.
Qed.
Lemma Varint_append x rest : is_i64 x ->
  Varint (appendVarint x ++ rest) = (x, len (appendVarint x)).
Proof.
  intros Hx. unfold Varint, appendVarint.
  rewrite Uvarint_append by apply varint_zigzag_range. by rewrite varint_unzigzag_zigzag.
Qed.

Lemma appendVarint_pos x : 0 < len (appendVarint x).
Proof. apply appendUvarint_pos. Qed.
Lemma appendVarint_ok x : bytes_ok (appendVarint x).
Proof. apply appendUvarint_ok, varint_zigzag_range. Qed.

(** ** Fixed words round trip *)
Lemma le_bytes_length n x : length (le_bytes n x) = n.
Proof. revert x. induction n; intros; simpl; by rewrite ?IHn. Qed.
Lemma le_bytes_ok n x : bytes_ok (le_bytes n x).
Proof.
  revert x. induction n; intros; simpl; constructor; [|apply IHn].
  apply (Z.mod_pos_bound x (2 ^ 8)). lia.
Qed.
Lemma le_word_bytes n x : 0 <= x < 2 ^ (8 * Z.of_nat n) -> le_word (le_bytes n x) = x.
Proof.
  revert x. induction n as [|n IH]; intros x Hx; simpl.
  { change (2 ^ (8 * Z.of_nat 0)) with 1 in Hx. lia. }
  rewrite IH.
  - rewrite shiftl_mul, shiftr_div, lor_add_low by (lia || apply Z.mod_pos_bound; lia).
    unfold u8. change (2 ^ 8) with 256. clear. Z.div_mod_to_equations; lia.
  - rewrite shiftr_div by lia. split; [apply Z.div_pos; lia|].
    apply Z.div_lt_upper_bound; [lia|]. rewrite <- Z.pow_add_r by lia.
    replace (8 + 8 * Z.of_nat n) with (8 * Z.of_nat (S n)) by lia. apply Hx.
Qed.
Lemma be_put_u32_length x : length (be_put_u32 x) = 4%nat.
Proof. unfold be_put_u32. by rewrite length_rev, le_bytes_length. Qed.
Lemma be_word_put_u32 x : is_u32 x -> be_word (be_put_u32 x) = x.
Proof. intros. unfold be_word, be_put_u32. rewrite rev_involutive. by apply le_word_bytes. Qed.
Lemma be_put_u32_ok x : bytes_ok (be_put_u32 x).
Proof. apply Forall_rev, le_bytes_ok. Qed.

(** ** CRC range *)
Lemma lxor_range a b n : 0 <= n -> 0 <= a < 2 ^ n -> 0 <= b < 2 ^ n -> 0 <= Z.lxor a b < 2 ^ n.
Proof.
  intros Hn Ha Hb. assert (Z.lxor a b = Z.lxor a b mod 2 ^ n) as ->.
  { apply Z.bits_inj'. intros i Hi. rewrite Z.lxor_spec.
    destruct (decide (i < n)).
    - rewrite Z.mod_pow2_bits_low by lia. by rewrite Z.lxor_spec.
    - rewrite Z.mod_pow2_bits_high by lia.
      rewrite <- (Z.mod_small a (2 ^ n) Ha), <- (Z.mod_small b (2 ^ n) Hb).
      by rewrite !Z.mod_pow2_bits_high by lia. }
  apply Z.mod_pos_bound. lia.
Qed.
Lemma crc_bit_range c : is_u32 c -> is_u32 (crc_bit c).
Proof.
  unfold crc_bit, is_u32. intros. rewrite !shiftr_div by lia.
  assert (0 <= c / 2 ^ 1 < 2 ^ 32) by (Z.div_mod_to_equations; lia).
  case_match; [|done]. apply lxor_range; unfold castagnoli; lia.
Qed.
Lemma crc_byte_range c b : is_u32 c -> is_u32 (crc_byte c b).
Proof.
  intros Hc. unfold crc_byte.
  assert (is_u32 (Z.lxor c (u8 b))) by (apply lxor_range; wrap_lia).
  by do 8 apply crc_bit_range.
Qed.
Lemma crc32c_range bs : is_u32 (crc32c bs).
Proof.
  unfold crc32c.
  assert (forall c, is_u32 c -> is_u32 (fold_left crc_byte bs c)) as H.
  { induction bs as [|b bs IH]; intros c Hc; simpl; [done|]. by apply IH, crc_byte_range. }
  apply lxor_range; [lia| |lia]. apply H. unfold is_u32. lia.
Qed.

(** ** Reading from arbitrary bytes *)
Lemma uvarint_loop_range buf i x s : bytes_ok buf -> 0 <= i -> 0 <= s -> is_u64 x ->
  is_u64 (uvarint_loop buf i x s).1 /\ (uvarint_loop buf i x s).2 <= i + len buf.
Proof.
  intros Hb. revert i x s. induction Hb as [|b buf Hb0 Hb IH]; intros i x s Hi Hs Hx; simpl.
  { unfold is_u64, len. simpl. lia. }
  assert (forall y, is_u64 (Z.lor x (u64 y))) as Hlor.
  { intros y. split; [apply Z.lor_nonneg; split; [apply Hx|apply u64_range]|].
    destruct (decide (Z.lor x (u64 y) <= 0)); [lia|].
    apply Z.log2_lt_pow2; [lia|]. rewrite Z.log2_lor by (apply Hx || apply u64_range).
    apply Z.max_lub_lt.
    - destruct (decide (x <= 0)); [by rewrite Z.log2_nonpos|apply Z.log2_lt_pow2; [lia|apply Hx]].
    - destruct (decide (u64 y <= 0)); [by rewrite Z.log2_nonpos|].
      apply Z.log2_lt_pow2; [lia|apply u64_range]. }
  assert (len (b :: buf) = 1 + len buf) as -> by (unfold len; simpl; lia).
  assert (0 <= len buf) by (unfold len; lia).
  case_match; simpl; [unfold is_u64; lia|].
  case_match; [case_match; simpl; [unfold is_u64; lia|split; [apply Hlor|lia]]|].
  destruct (IH (i + 1) (Z.lor x (u64 (Z.shiftl (Z.land b 127) s))) (s + 7)) as [? ?];
    [lia|lia|apply Hlor|]. split; [done|lia].
Qed.
Lemma Uvarint_range buf : bytes_ok buf -> is_u64 (Uvarint buf).1.
Proof. intros. unfold Uvarint. apply uvarint_loop_range; try done. Qed.
Lemma le_word_nonneg bs : bytes_ok bs -> 0 <= le_word bs < 2 ^ (8 * len bs).
Proof.
  induction 1 as [|b bs Hb Hbs IH]; [done|]. cbn [le_word].
  assert (8 * len (b :: bs) = 8 + 8 * len bs) as -> by (unfold len; simpl; lia).
  rewrite Z.pow_add_r by (unfold len; lia).
  rewrite shiftl_mul, lor_add_low by (unfold is_byte in *; lia). unfold is_byte in Hb. nia.
Qed.

#[global] Opaque appendUvarint appendVarint le_bytes crc32c.
