(* ===== verification/Model.v ===== *)
(** * Shared data model (internal/model/types.go)

    The records that travel between the catalog, the WAL, the memtable, the
    SSTable codecs and the query path, with the fields the source declares, and
    the storage queries. *)
From S2P Require Import Prelude.
From stdpp Require Import prelude strings list gmap.
From Stdlib Require Import ZArith Lia.
#[local] Open Scope Z_scope.

(** [type FieldType uint8]: decoders convert any byte to it, so it is kept as
    its number; the four declared constants follow. *)
Definition FieldFloat64 : Z := 1.
Definition FieldInt64 : Z := 2.
Definition FieldString : Z := 3.
Definition FieldBool : Z := 4.

(** A [float64] is kept as its IEEE 754 bit pattern, a [uint64]. *)
Record FieldValue := mkFieldValue {
  fv_Type : Z;
  fv_Float64 : Z;
  fv_Int64 : Z;
  fv_String : bytes;
  fv_Bool : bool;
}.

Definition zeroFieldValue : FieldValue := mkFieldValue 0 0 0 [] false.
Definition Float64Value (value : Z) : FieldValue := mkFieldValue FieldFloat64 value 0 [] false.
Definition Int64Value (value : Z) : FieldValue := mkFieldValue FieldInt64 0 value [] false.
Definition StringValue (value : bytes) : FieldValue := mkFieldValue FieldString 0 0 value false.
Definition BoolValue (value : bool) : FieldValue := mkFieldValue FieldBool 0 0 [] value.

#[export] Instance FieldValue_eq_dec : EqDecision FieldValue.
Proof. solve_decision. Defined.

Record ResolvedField := mkResolvedField {
  rf_FieldID : Z;
  rf_FieldName : bytes;
  rf_Type : Z;
  rf_Value : FieldValue;
}.

(** A Go map[string]string; a nil map and an empty map read the same. *)
Record ResolvedPoint := mkResolvedPoint {
  rp_Database : bytes;
  rp_RetentionPolicy : bytes;
  rp_Measurement : bytes;
  rp_Tags : gmap bytes bytes;
  rp_SeriesID : Z;
  rp_Timestamp : Z;
  rp_WriteSeq : Z;
  rp_Fields : list ResolvedField;
}.

Record VersionedSample := mkSample {
  vs_Timestamp : Z;
  vs_WriteSeq : Z;
  vs_Value : FieldValue;
}.

Record Tombstone := mkTombstone {
  ts_SeriesIDs : list Z;
  ts_FieldIDs : list Z;
  ts_StartTime : Z;
  ts_EndTime : Z;
  ts_WriteSeq : Z;
}.

Record ColumnData := mkColumnData {
  cd_SeriesID : Z;
  cd_FieldID : Z;
  cd_FieldType : Z;
  cd_Samples : list VersionedSample;
}.

Record TagColumn := mkTagColumn {
  tc_Name : bytes;
  tc_Values : list bytes;
}.

Record ResolvedTypedFieldColumn := mkTypedField {
  tf_FieldID : Z;
  tf_Name : bytes;
  tf_Type : Z;
  tf_Float64Values : list Z;
  tf_Int64Values : list Z;
  tf_StringValues : list bytes;
  tf_BoolValues : list bool;
}.

Record ResolvedTypedBatch := mkTypedBatch {
  tb_Database : bytes;
  tb_RetentionPolicy : bytes;
  tb_Measurement : bytes;
  tb_Tags : list TagColumn;
  tb_Timestamps : list Z;
  tb_SeriesIDs : list Z;
  tb_WriteSeqs : list Z;
  tb_Fields : list ResolvedTypedFieldColumn;
}.

#[export] Instance ResolvedField_eq_dec : EqDecision ResolvedField.
Proof. solve_decision. Defined.
#[export] Instance ResolvedPoint_eq_dec : EqDecision ResolvedPoint.
Proof. solve_decision. Defined.
#[export] Instance VersionedSample_eq_dec : EqDecision VersionedSample.
Proof. solve_decision. Defined.
#[export] Instance Tombstone_eq_dec : EqDecision Tombstone.
Proof. solve_decision. Defined.
#[export] Instance ColumnData_eq_dec : EqDecision ColumnData.
Proof. solve_decision. Defined.

(** A Go string on a 64-bit platform: a byte sequence whose length is an [int]. *)
Definition string_ok (s : bytes) : Prop := bytes_ok s /\ len s <= maxInt.

(** A value built by one of the four constructors from machine-width data;
    every producer in the code builds values this way. *)
Inductive value_ok : FieldValue -> Prop :=
  | value_ok_float b : is_u64 b -> value_ok (Float64Value b)
  | value_ok_int z : is_i64 z -> value_ok (Int64Value z)
  | value_ok_string s : string_ok s -> value_ok (StringValue s)
  | value_ok_bool b : value_ok (BoolValue b).

#[export] Instance string_ok_dec s : Decision (string_ok s).
Proof. unfold string_ok. apply _. Defined.

Lemma value_ok_type v : value_ok v ->
  fv_Type v = FieldFloat64 \/ fv_Type v = FieldInt64 \/ fv_Type v = FieldString \/ fv_Type v = FieldBool.
Proof. destruct 1; auto. Qed.

Create HintDb model.
#[export] Hint Constructors value_ok : model.

(** * Storage queries (internal/model/types.go)

    What the memtable, the parts and the shard are asked.  The context and the
    statistics pointer of the source record are left out: a context that is
    cancelled ends a scan early, the statistics are only written. *)
(** [type QueryPredicateKind uint8] *)
Definition QueryPredicateTimeRange : Z := 1.
Definition QueryPredicateTagEq : Z := 2.
Definition QueryPredicateTagNe : Z := 3.
Definition QueryPredicateTagExists : Z := 4.
Definition QueryPredicateTagIn : Z := 5.
Definition QueryPredicateFieldEq : Z := 6.
Definition QueryPredicateFieldNe : Z := 7.
Definition QueryPredicateFieldGT : Z := 8.
Definition QueryPredicateFieldGTE : Z := 9.
Definition QueryPredicateFieldLT : Z := 10.
Definition QueryPredicateFieldLTE : Z := 11.

Record QueryPredicate := mkPredicate {
  qp_Kind : Z;
  qp_Name : bytes;
  qp_StringValues : list bytes;
  qp_Value : FieldValue;
  qp_Start : Z;
  qp_End : Z;
}.

(** [type QueryBoundaryMode uint8] *)
Definition QueryBoundaryNone : Z := 0.
Definition QueryBoundaryFirst : Z := 1.
Definition QueryBoundaryLast : Z := 2.
Definition QueryBoundaryBoth : Z := 3.

Record QueryBudget := mkBudget {
  qb_MaxShards : Z;
  qb_MaxParts : Z;
  qb_MaxSamples : Z;
}.

Record StorageQuery := mkStorageQuery {
  sq_Budget : QueryBudget;
  sq_Boundary : Z;
  sq_SeriesIDs : gset Z;
  sq_FieldIDs : gset Z;
  sq_FieldPredicates : gmap Z (list QueryPredicate);
  sq_Start : Z;
  sq_End : Z;
}.

(** [Query{SeriesIDs: ..., FieldIDs: ..., Start: ..., End: ...}] *)
Definition rangeQuery (seriesIDs fieldIDs : gset Z) (start end_ : Z) : StorageQuery :=
  mkStorageQuery (mkBudget 0 0 0) QueryBoundaryNone seriesIDs fieldIDs ∅ start end_.
