(* ===== verification/Codec.v ===== *)
(** * internal/codec: strings, field values, bool bitmaps, checksummed envelopes

    Functions named [Append...]/[Marshal...] return the bytes the Go function
    appends to its [dst] argument; none of them looks at what [dst] held. *)
From S2P Require Import Prelude GoBinary Model.
From stdpp Require Import prelude strings list gmap.
From Stdlib Require Import ZArith Lia.
#[local] Open Scope Z_scope.

(** ** binary.go *)
Definition AppendString (value : bytes) : bytes := appendUvarint (len value) ++ value.

Definition ReadString : reader bytes := fun src =>
  let '(length, size) := Uvarint src in
  if size <=? 0 then Err (Errorf "read string: invalid length")
  else
    let start := size in
    if len src - start <? length then Err (Errorf "read string: truncated payload")
    else
      let end_ := start + length in
      Ok (take (Z.to_nat length) (drop (Z.to_nat start) src), drop (Z.to_nat end_) src).

Definition AppendFieldValue (value : FieldValue) : bytes :=
  let dst := [u8 (fv_Type value)] in
  if fv_Type value =? FieldFloat64 then dst ++ le_put_u64 (fv_Float64 value)
  else if fv_Type value =? FieldInt64 then dst ++ appendVarint (fv_Int64 value)
  else if fv_Type value =? FieldString then dst ++ AppendString (fv_String value)
  else if fv_Type value =? FieldBool then dst ++ [if fv_Bool value then 1 else 0]
  else dst.

Definition readFloat64Value : reader FieldValue := fun src =>
  if len src <? 8 then Err (Errorf "read float64 field value: truncated payload")
  else Ok (Float64Value (le_word (take 8 src)), drop 8 src).

Definition readInt64Value : reader FieldValue := fun src =>
  let '(value, size) := Varint src in
  if size <=? 0 then Err (Errorf "read int64 field value: invalid varint")
  else Ok (Int64Value value, drop (Z.to_nat size) src).

Definition readBoolValue : reader FieldValue := fun src =>
  match src with
  | [] => Err (Errorf "read bool field value: truncated payload")
  | b :: rest =>
      if b =? 0 then Ok (BoolValue false, rest)
      else if b =? 1 then Ok (BoolValue true, rest)
      else Err (Errorf "read bool field value: invalid byte")
  end.

Definition readTypedFieldValue (fieldType : Z) : reader FieldValue :=
  if fieldType =? FieldFloat64 then readFloat64Value
  else if fieldType =? FieldInt64 then readInt64Value
  else if fieldType =? FieldString then (value ← ReadString; mret (StringValue value))
  else if fieldType =? FieldBool then readBoolValue
  else rfail (Errorf "read field value: unsupported type").

Definition ReadFieldValue : reader FieldValue := fun src =>
  match src with
  | [] => Err (Errorf "read field value: missing type")
  | t :: rest => readTypedFieldValue t rest
  end.

(** [dst[start+index/8] |= 1 << (index%8)] for every set value, into
    [(len(values)+7)/8] zero bytes. *)
Definition setBit (buf : bytes) (index : nat) : bytes :=
  alter (fun b => Z.lor b (Z.shiftl 1 (Z.of_nat (index mod 8)))) (index / 8)%nat buf.
Definition bitCount8 (n : nat) : nat := ((n + 7) / 8)%nat.
Fixpoint appendBoolBitsLoop (values : list bool) (index : nat) (buf : bytes) : bytes :=
  match values with
  | [] => buf
  | value :: values' =>
      appendBoolBitsLoop values' (S index) (if value then setBit buf index else buf)
  end.
Definition AppendBoolBits (values : list bool) : bytes :=
  appendBoolBitsLoop values 0 (replicate (bitCount8 (length values)) 0).

(** [src[index/8]&(1<<uint(index%8)) != 0] *)
Definition bitAt (src : bytes) (index : nat) : bool :=
  bool_decide (Z.land (default 0 (src !! (index / 8)%nat)) (Z.shiftl 1 (Z.of_nat (index mod 8))) <> 0).

(** For a count within 7 of the largest [int], [count + 7] wraps around: the
    truncation check passes and [make([]bool, count)] panics. *)
Definition ReadBoolBits (count : Z) : reader (list bool) := fun src =>
  if count <? 0 then Err (Errorf "read bool bits: negative count")
  else
    let byteCount := Z.quot (i64 (count + 7)) 8 in
    if len src <? byteCount then Err (Errorf "read bool bits: truncated payload")
    else
      _ ← make_slice 1 count;
      Ok (map (bitAt src) (seq 0 (Z.to_nat count)), drop (Z.to_nat byteCount) src).

(** ** envelope.go *)
Definition envelopeMagicLen : Z := 7.
Definition envelopeHeadLen : Z := envelopeMagicLen + 2.
Definition envelopeCRCLen : Z := 4.

Record Envelope := mkEnvelope {
  env_Magic : bytes;
  env_Flags : Z;
  env_Payload : bytes;
}.

(** [copy(fixed[:], magic)] into a zeroed array of seven bytes. *)
Definition appendMagic (magic : bytes) : bytes :=
  take 7 (magic ++ replicate 7 0).

Definition MarshalEnvelope (magic : bytes) (flags : Z) (payload : bytes) : bytes :=
  let dst := appendMagic magic ++ le_put_u16 flags ++ appendUvarint (len payload) ++ payload in
  dst ++ le_put_u32 (crc32c dst).

(** [data[lo:hi]] for in-range bounds. *)
Definition slice {A} (lo hi : Z) (data : list A) : list A :=
  take (Z.to_nat (hi - lo)) (drop (Z.to_nat lo) data).

Definition envelopePayload (data : bytes) : outcome bytes :=
  let wantCRC := le_word (drop (Z.to_nat (len data - envelopeCRCLen)) data) in
  let gotCRC := crc32c (take (Z.to_nat (len data - envelopeCRCLen)) data) in
  if negb (gotCRC =? wantCRC) then Err (Errorf "decode envelope: crc mismatch")
  else
    let '(payloadLen, size) := Uvarint (drop (Z.to_nat envelopeHeadLen) data) in
    if size <=? 0 then Err (Errorf "decode envelope: invalid payload length")
    else
      let payloadStart := envelopeHeadLen + size in
      let payloadLimit := len data - envelopeCRCLen in
      if (payloadLimit <? payloadStart) || (payloadLimit - payloadStart <? payloadLen)
      then Err (Errorf "decode envelope: payload truncated")
      else
        let payloadEnd := payloadStart + payloadLen in
        if negb (payloadEnd =? len data - envelopeCRCLen)
        then Err (Errorf "decode envelope: trailing bytes before crc")
        else Ok (slice payloadStart payloadEnd data).

Definition unmarshalEnvelope (data : bytes) (want : bytes) : outcome Envelope :=
  if len data <? envelopeHeadLen + envelopeCRCLen then Err (Errorf "decode envelope: data too short")
  else if negb (bool_decide (take (Z.to_nat envelopeMagicLen) data = want))
  then Err (Errorf "decode envelope: magic")
  else
    let flags := le_word (slice envelopeMagicLen (envelopeMagicLen + 2) data) in
    payload ← envelopePayload data;
    Ok (mkEnvelope want flags payload).

(** The two exported readers: the first copies the payload out of [data], the
    second aliases it; as values they are the same. *)
Definition UnmarshalEnvelope (data : bytes) (want : bytes) : outcome Envelope :=
  env ← unmarshalEnvelope data want;
  Ok (mkEnvelope (env_Magic env) (env_Flags env) (env_Payload env)).
Definition UnmarshalEnvelopeView (data : bytes) (want : bytes) : outcome Envelope :=
  unmarshalEnvelope data want.

(** ** Strings *)
Lemma ReadString_append s : string_ok s -> reads_back ReadString (AppendString s) s.
Proof.
  intros [Hb Hl] rest. unfold ReadString, AppendString. rewrite <- (assoc_L (++)).
  assert (is_u64 (len s)) by wrap_lia.
  rewrite Uvarint_append by done.
  pose proof (appendUvarint_pos (len s)) as Hpos. generalize dependent (appendUvarint (len s)).
  intros h Hpos. assert ((len h <=? 0) = false) as -> by lia.
  assert ((len (h ++ s ++ rest) - len h <? len s) = false) as ->.
  { apply Z.ltb_ge. unfold len. rewrite !length_app. lia. }
  unfold len. rewrite <- Nat2Z.inj_add, !Nat2Z.id.
  rewrite drop_app_length, take_app_length. f_equal. f_equal.
  rewrite (assoc_L (++)), <- length_app. apply drop_app_length.
Qed.

Lemma AppendString_inj s1 s2 r1 r2 : string_ok s1 -> string_ok s2 ->
  AppendString s1 ++ r1 = AppendString s2 ++ r2 -> s1 = s2 /\ r1 = r2.
Proof.
  intros H1 H2 E. pose proof (ReadString_append _ H1 r1) as E1.
  pose proof (ReadString_append _ H2 r2) as E2. rewrite E, E2 in E1. by simplify_eq.
Qed.

(** ** Bool bitmaps *)
Lemma testbit_1 k : k <> 0 -> Z.testbit 1 k = false.
Proof. by destruct k. Qed.
Lemma land_bit_testbit b k : 0 <= k ->
  bool_decide (Z.land b (Z.shiftl 1 k) <> 0) = Z.testbit b k.
Proof.
  intros Hk. destruct (Z.testbit b k) eqn:E.
  - apply bool_decide_eq_true. intros H. assert (Z.testbit (Z.land b (Z.shiftl 1 k)) k = false) as H'
      by (rewrite H; apply Z.bits_0).
    rewrite Z.land_spec, E, Z.shiftl_spec, Z.sub_diag in H' by done. done.
  - apply bool_decide_eq_false. intros H. apply H. apply Z.bits_inj'. intros i Hi.
    rewrite Z.land_spec, Z.bits_0, Z.shiftl_spec by done.
    destruct (decide (i = k)) as [->|Hne]; [by rewrite E|].
    rewrite testbit_1 by lia. apply andb_false_r.
Qed.
Lemma bitAt_testbit src i :
  bitAt src i = Z.testbit (default 0 (src !! (i / 8)%nat)) (Z.of_nat (i mod 8)).
Proof. apply land_bit_testbit. lia. Qed.

Lemma bitAt_setBit buf i j : (i / 8 < length buf)%nat ->
  bitAt (setBit buf i) j = bitAt buf j || bool_decide (i = j).
Proof.
  intros Hi. rewrite !bitAt_testbit. unfold setBit.
  destruct (decide (j / 8 = i / 8)%nat) as [E|E].
  - rewrite E. rewrite list_lookup_alter_eq.
    destruct (lookup_lt_is_Some_2 buf (i / 8) Hi) as [b ->]. simpl.
    rewrite Z.lor_spec, Z.shiftl_spec by lia. f_equal.
    destruct (decide (i = j)) as [->|Hne].
    + rewrite Z.sub_diag, bool_decide_true by done. done.
    + rewrite bool_decide_false by done.
      assert (i mod 8 <> j mod 8)%nat.
      { intros Hm. apply Hne. rewrite (Nat.div_mod_eq i 8), (Nat.div_mod_eq j 8). congruence. }
      apply testbit_1. lia.
  - rewrite list_lookup_alter_ne by done.
    rewrite bool_decide_false by (intros ->; done). by rewrite orb_false_r.
Qed.
Lemma setBit_length buf i : length (setBit buf i) = length buf.
Proof. apply length_alter. Qed.

Lemma appendBoolBitsLoop_length vs i buf : length (appendBoolBitsLoop vs i buf) = length buf.
Proof.
  revert i buf. induction vs as [|v vs IH]; intros i buf; simpl; [done|].
  rewrite IH. destruct v; [apply setBit_length|done].
Qed.
Lemma bitAt_appendLoop vs start buf j :
  (bitCount8 (start + length vs) <= length buf)%nat ->
  bitAt (appendBoolBitsLoop vs start buf) j
  = bitAt buf j || ((start <=? j)%nat && default false (vs !! (j - start)%nat)).
Proof.
  unfold bitCount8. revert start buf. induction vs as [|v vs IH]; intros start buf Hlen; simpl in *.
  { rewrite ?lookup_nil. simpl. by rewrite andb_false_r, orb_false_r. }
  assert (start / 8 < length buf)%nat.
  { eapply Nat.lt_le_trans; [|exact Hlen]. pose proof (Nat.div_mod_eq start 8).
    pose proof (Nat.mod_upper_bound start 8).
    pose proof (Nat.div_mod_eq (start + S (length vs) + 7) 8).
    pose proof (Nat.mod_upper_bound (start + S (length vs) + 7) 8). lia. }
  rewrite IH by (destruct v; rewrite ?setBit_length;
    (replace (S start + length vs)%nat with (start + S (length vs))%nat by lia); done).
  destruct (decide (j = start)) as [->|Hne].
  - assert ((S start <=? start)%nat = false) as -> by (apply Nat.leb_gt; lia).
    rewrite Nat.leb_refl, Nat.sub_diag. simpl. rewrite orb_false_r.
    destruct v; [|by rewrite orb_false_r]. by rewrite bitAt_setBit, bool_decide_true.
  - assert (bitAt (if v then setBit buf start else buf) j = bitAt buf j) as ->.
    { destruct v; [|done]. rewrite bitAt_setBit by done.
      rewrite bool_decide_false by done. by rewrite orb_false_r. }
    f_equal. destruct (decide (start < j)%nat).
    + assert ((S start <=? j)%nat = true) as -> by (apply Nat.leb_le; lia).
      assert ((start <=? j)%nat = true) as -> by (apply Nat.leb_le; lia).
      by replace (j - start)%nat with (S (j - S start)) by lia.
    + assert ((S start <=? j)%nat = false) as -> by (apply Nat.leb_gt; lia).
      assert ((start <=? j)%nat = false) as -> by (apply Nat.leb_gt; lia). done.
Qed.
Lemma bitAt_app_l a b i : (i / 8 < length a)%nat -> bitAt (a ++ b) i = bitAt a i.
Proof. intros. unfold bitAt. by rewrite lookup_app_l. Qed.
Lemma bitAt_zero n i : bitAt (replicate n 0) i = false.
Proof.
  rewrite bitAt_testbit. destruct (replicate n 0 !! (i / 8)%nat) eqn:E; simpl; [|apply Z.bits_0].
  apply lookup_replicate in E as [-> _]. apply Z.bits_0.
Qed.
Lemma AppendBoolBits_length vs : length (AppendBoolBits vs) = bitCount8 (length vs).
Proof. unfold AppendBoolBits. by rewrite appendBoolBitsLoop_length, length_replicate. Qed.
Lemma bitAt_AppendBoolBits vs j : bitAt (AppendBoolBits vs) j = default false (vs !! j).
Proof.
  unfold AppendBoolBits. rewrite bitAt_appendLoop by (rewrite length_replicate; simpl; lia).
  by rewrite bitAt_zero, Nat.sub_0_r.
Qed.
Lemma bitCount8_lt i n : (i < n)%nat -> (i / 8 < bitCount8 n)%nat.
Proof.
  intros. unfold bitCount8. pose proof (Nat.div_mod_eq i 8). pose proof (Nat.mod_upper_bound i 8).
  pose proof (Nat.div_mod_eq (n + 7) 8). pose proof (Nat.mod_upper_bound (n + 7) 8). lia.
Qed.
Lemma map_bitAt_AppendBoolBits vs rest :
  map (bitAt (AppendBoolBits vs ++ rest)) (seq 0 (length vs)) = vs.
Proof.
  apply list_eq. intros i. rewrite list_lookup_fmap.
  destruct (decide (i < length vs)%nat).
  - rewrite lookup_seq_lt by done. simpl.
    rewrite bitAt_app_l by (rewrite AppendBoolBits_length; by apply bitCount8_lt).
    rewrite bitAt_AppendBoolBits. by destruct (lookup_lt_is_Some_2 vs i ltac:(done)) as [b ->].
  - rewrite lookup_seq_ge by lia. symmetry. apply lookup_ge_None. lia.
Qed.
Lemma byteCount_bitCount8 n : Z.of_nat n + 7 <= maxInt ->
  Z.quot (i64 (Z.of_nat n + 7)) 8 = Z.of_nat (bitCount8 n).
Proof.
  intros. rewrite i64_id by wrap_lia. rewrite Z.quot_div_nonneg by lia.
  unfold bitCount8. rewrite Nat2Z.inj_div. f_equal. lia.
Qed.
Lemma ReadBoolBits_append vs : len vs <= maxAlloc ->
  reads_back (ReadBoolBits (len vs)) (AppendBoolBits vs) vs.
Proof.
  intros Hl rest. unfold ReadBoolBits.
  assert ((len vs <? 0) = false) as -> by zb.
  assert (Z.quot (i64 (len vs + 7)) 8 = Z.of_nat (bitCount8 (length vs))) as ->
    by (apply byteCount_bitCount8; unfold len, maxAlloc, maxInt in *; lia).
  pose proof (AppendBoolBits_length vs) as Hlen.
  assert ((len (AppendBoolBits vs ++ rest) <? Z.of_nat (bitCount8 (length vs))) = false) as -> by zb.
  rewrite make_slice_ok by (unfold len in *; lia). simpl.
  unfold len. rewrite !Nat2Z.id, map_bitAt_AppendBoolBits.
  by rewrite <- Hlen, drop_app_length.
Qed.

(** ** Field values *)
Lemma readFloat64Value_append b : is_u64 b ->
  reads_back readFloat64Value (le_put_u64 b) (Float64Value b).
Proof.
  intros Hb rest. unfold readFloat64Value, le_put_u64.
  pose proof (le_bytes_length 8 b) as Hlen.
  assert ((len (le_bytes 8 b ++ rest) <? 8) = false) as -> by zb.
  rewrite <- Hlen at 1 3. rewrite take_app_length, drop_app_length.
  by rewrite le_word_bytes.
Qed.
Lemma readInt64Value_append z : is_i64 z ->
  reads_back readInt64Value (appendVarint z) (Int64Value z).
Proof.
  intros Hz rest. unfold readInt64Value. rewrite Varint_append by done.
  pose proof (appendVarint_pos z). assert ((len (appendVarint z) <=? 0) = false) as -> by zb.
  unfold len. by rewrite Nat2Z.id, drop_app_length.
Qed.
Lemma readBoolValue_append (b : bool) : reads_back readBoolValue [if b then 1 else 0] (BoolValue b).
Proof. by destruct b. Qed.

(** A value without its type byte, as the WAL columns and field values store it. *)
Definition valueBody (v : FieldValue) : bytes :=
  if fv_Type v =? FieldFloat64 then le_put_u64 (fv_Float64 v)
  else if fv_Type v =? FieldInt64 then appendVarint (fv_Int64 v)
  else if fv_Type v =? FieldString then AppendString (fv_String v)
  else [if fv_Bool v then 1 else 0].

Lemma readTypedFieldValue_body v : value_ok v ->
  reads_back (readTypedFieldValue (fv_Type v)) (valueBody v) v.
Proof.
  destruct 1; unfold readTypedFieldValue, valueBody; simpl.
  - by apply readFloat64Value_append.
  - by apply readInt64Value_append.
  - eapply reads_back_bind_nil; [by apply ReadString_append|done].
  - apply readBoolValue_append.
Qed.

(** reading a field value back from what was appended for it, whatever bytes follow,
    returns the value and exactly the bytes behind it. *)
Theorem ReadFieldValue_roundtrip v rest : value_ok v ->
  ReadFieldValue (AppendFieldValue v ++ rest) = Ok (v, rest).
Proof.
  intros Hv. pose proof (readTypedFieldValue_body v Hv rest) as H.
  destruct Hv; exact H.
Qed.
Lemma ReadFieldValue_roundtrip_witness :
  ReadFieldValue (AppendFieldValue (Int64Value (-300)) ++ [7]) = Ok (Int64Value (-300), [7]).
Proof. apply ReadFieldValue_roundtrip. constructor. wrap_lia. Defined.

(** ** Safety of the readers *)
Lemma ReadString_safe : reader_safe ReadString.
Proof. intros s. unfold ReadString. destruct (Uvarint s). by repeat case_match. Qed.
Lemma readTypedFieldValue_safe t : reader_safe (readTypedFieldValue t).
Proof.
  unfold readTypedFieldValue. repeat apply reader_safe_if; auto with reader_safe.
  - intros s. unfold readFloat64Value. by case_match.
  - intros s. unfold readInt64Value. destruct (Varint s). by case_match.
  - apply reader_safe_bind; [apply ReadString_safe|intros; apply reader_safe_ret].
  - intros s. unfold readBoolValue. by repeat case_match.
Qed.
Lemma ReadFieldValue_safe : reader_safe ReadFieldValue.
Proof. intros [|t s]; [done|]. apply readTypedFieldValue_safe. Qed.
#[export] Hint Resolve ReadString_safe readTypedFieldValue_safe : reader_safe.

(** ** Envelopes *)
Lemma appendMagic_length m : length (appendMagic m) = 7%nat.
Proof. unfold appendMagic. rewrite length_take, length_app, length_replicate. lia. Qed.
Lemma appendMagic_full m : len m = envelopeMagicLen -> appendMagic m = m.
Proof.
  unfold envelopeMagicLen, len, appendMagic. intros H.
  replace 7%nat with (length m) at 1 by lia. apply take_app_length.
Qed.

(** The pieces of an envelope at their offsets. *)
Lemma envelopePayload_marshal m f p : len m = envelopeMagicLen -> len p <= maxInt ->
  envelopePayload (MarshalEnvelope m f p) = Ok p.
Proof.
  intros Hml Hpl.
  unfold envelopePayload, MarshalEnvelope. rewrite appendMagic_full in * by done.
  unfold le_put_u16 in *. pose proof (le_bytes_length 2 f) as Hf.
  generalize dependent (le_bytes 2 f). intros fl Hf.
  set (body := m ++ fl ++ appendUvarint (len p) ++ p) in *.
  pose proof (le_bytes_length 4 (crc32c body)) as Hc. unfold le_put_u32.
  assert (le_word (le_bytes 4 (crc32c body)) = crc32c body) as Hcrc
    by (by apply le_word_bytes, crc32c_range).
  generalize dependent (le_bytes 4 (crc32c body)). intros cs Hc Hcrc.
  assert (Z.to_nat (len (body ++ cs) - envelopeCRCLen) = length body) as ->
    by (unfold len, envelopeCRCLen; rewrite length_app; lia).
  rewrite drop_app_length, take_app_length, Hcrc, Z.eqb_refl. simpl.
  assert (drop (Z.to_nat envelopeHeadLen) (body ++ cs) = appendUvarint (len p) ++ p ++ cs) as Hd.
  { unfold body. rewrite <- !(assoc_L (++)). rewrite (assoc_L (++) m).
    apply drop_app_length'. unfold envelopeHeadLen, envelopeMagicLen, len in *. rewrite length_app. lia. }
  rewrite Hd, Uvarint_append by wrap_lia.
  pose proof (appendUvarint_pos (len p)) as Hup.
  assert (len body = 9 + len (appendUvarint (len p)) + len p) as Hbl.
  { unfold body, len, envelopeMagicLen in *. rewrite !length_app. lia. }
  clearbody body. generalize dependent (appendUvarint (len p)). intros up Hd Hup Hbl.
  assert ((len up <=? 0) = false) as -> by zb.
  assert (len (body ++ cs) - envelopeCRCLen = envelopeHeadLen + len up + len p) as ->.
  { unfold envelopeCRCLen, envelopeHeadLen, envelopeMagicLen, len in *. rewrite length_app. lia. }
  assert ((envelopeHeadLen + len up + len p <? envelopeHeadLen + len up) = false) as -> by zb.
  assert ((envelopeHeadLen + len up + len p - (envelopeHeadLen + len up) <? len p) = false) as -> by zb.
  rewrite Z.eqb_refl. simpl. f_equal. unfold slice.
  replace (Z.to_nat (envelopeHeadLen + len up)) with (Z.to_nat envelopeHeadLen + length up)%nat
    by (unfold envelopeHeadLen, envelopeMagicLen, len; lia).
  rewrite <- drop_drop, Hd, drop_app_length.
  apply take_app_length'. unfold len. lia.
Qed.

Lemma MarshalEnvelope_length m f p :
  len (MarshalEnvelope m f p) = 13 + len (appendUvarint (len p)) + len p.
Proof.
  unfold MarshalEnvelope, le_put_u16, le_put_u32, len.
  rewrite !length_app, !le_bytes_length, appendMagic_length. lia.
Qed.

Lemma UnmarshalEnvelope_marshal m f p :
  len m = envelopeMagicLen -> 0 <= f < 2 ^ 16 -> len p <= maxInt ->
  UnmarshalEnvelope (MarshalEnvelope m f p) m = Ok (mkEnvelope m f p).
Proof.
  intros Hml Hf Hp. unfold UnmarshalEnvelope, unmarshalEnvelope.
  pose proof (appendUvarint_pos (len p)) as Hup. pose proof (MarshalEnvelope_length m f p) as Hlen.
  assert ((len (MarshalEnvelope m f p) <? envelopeHeadLen + envelopeCRCLen) = false) as ->.
  { apply Z.ltb_ge. rewrite Hlen. unfold envelopeHeadLen, envelopeMagicLen, envelopeCRCLen, len in *. lia. }
  rewrite envelopePayload_marshal by done.
  assert (take (Z.to_nat envelopeMagicLen) (MarshalEnvelope m f p) = m) as ->.
  { unfold MarshalEnvelope. rewrite appendMagic_full, <- !(assoc_L (++)) by done.
    apply take_app_length'. unfold len in Hml. lia. }
  rewrite bool_decide_true by done. simpl. do 2 f_equal.
  unfold slice, MarshalEnvelope. rewrite appendMagic_full, <- !(assoc_L (++)) by done.
  rewrite drop_app_length' by (unfold len in Hml; lia).
  change (Z.to_nat (envelopeMagicLen + 2 - envelopeMagicLen)) with 2%nat.
  rewrite take_app_length' by (symmetry; apply le_bytes_length). by apply le_word_bytes.
Qed.

(** unmarshalling a marshalled envelope with the same magic returns its magic, flags
    and payload. *)
Theorem UnmarshalEnvelope_roundtrip m f p :
  len m = envelopeMagicLen -> bytes_ok m -> 0 <= f < 2 ^ 16 -> string_ok p ->
  UnmarshalEnvelope (MarshalEnvelope m f p) m = Ok (mkEnvelope m f p).
Proof. intros ? _ ? [_ ?]. by apply UnmarshalEnvelope_marshal. Qed.
Lemma UnmarshalEnvelope_roundtrip_witness :
  UnmarshalEnvelope (MarshalEnvelope (str "MTSMETA") 3 (str "abc")) (str "MTSMETA")
  = Ok (mkEnvelope (str "MTSMETA") 3 (str "abc")).
Proof.
  apply UnmarshalEnvelope_roundtrip; [done|by_decide|lia|by_decide].
Defined.

(** What acceptance guarantees: the buffer is exactly magic, flags, a length
    header, a payload of that length and the CRC-32C of everything before it. *)
Theorem UnmarshalEnvelope_sound data want env :
  UnmarshalEnvelope data want = Ok env ->
  exists flags_bytes len_bytes crc_bytes,
    data = want ++ flags_bytes ++ len_bytes ++ env_Payload env ++ crc_bytes
    /\ length want = 7%nat /\ length flags_bytes = 2%nat /\ length crc_bytes = 4%nat
    /\ env_Magic env = want /\ env_Flags env = le_word flags_bytes
    /\ Uvarint (len_bytes ++ env_Payload env ++ crc_bytes) = (len (env_Payload env), len len_bytes)
    /\ le_word crc_bytes = crc32c (want ++ flags_bytes ++ len_bytes ++ env_Payload env).
Proof.
  unfold UnmarshalEnvelope, unmarshalEnvelope, envelopePayload. intros H.
  zcase (len data <? envelopeHeadLen + envelopeCRCLen); [done|].
  case_bool_decide as Hm; [simpl in H|done].
  destruct (crc32c _ =? le_word _) eqn:Hcrc; [apply Z.eqb_eq in Hcrc; simpl in H|done].
  destruct (Uvarint _) as [plen size] eqn:Hu.
  zcase (size <=? 0); [done|].
  destruct (_ || _) eqn:Ho; [done|]. apply orb_false_elim in Ho as [Ho1 Ho2].
  apply Z.ltb_ge in Ho1, Ho2. destruct (_ =? _) eqn:He; [apply Z.eqb_eq in He|done].
  simpl in H. injection H as <-. simpl.
  unfold envelopeHeadLen, envelopeMagicLen, envelopeCRCLen, slice in *.
  change (7 + 2) with 9 in *. change (Z.to_nat 9) with 9%nat in *. change (Z.to_nat 7) with 7%nat in *.
  set (n := Z.to_nat size). set (k := Z.to_nat plen).
  assert (0 <= plen) by lia.
  assert (length data = 9 + n + k + 4)%nat as Hlen by (unfold len, n, k in *; lia).
  assert (Z.to_nat (9 + size + plen - (9 + size)) = k) as -> by (unfold k; lia).
  assert (Z.to_nat (9 + size) = (9 + n)%nat) as -> by (unfold n; lia).
  assert (Z.to_nat (len data - 4) = (9 + n + k)%nat) as Hc by (unfold len, n, k in *; lia).
  rewrite Hc in Hcrc. set (pay := take k (drop (9 + n) data)).
  exists (take 2 (drop 7 data)), (take n (drop 9 data)), (drop (9 + n + k) data).
  assert (take n (drop 9 data) ++ pay = take (n + k) (drop 9 data)) as H9.
  { unfold pay. rewrite <- drop_drop. apply take_take_drop. }
  assert (take 7 data ++ take 2 (drop 7 data) = take 9 data) as H7.
  { apply (take_take_drop data 7 2). }
  assert (take 9 data ++ take (n + k) (drop 9 data) = take (9 + n + k) data) as H9'.
  { rewrite <- Nat.add_assoc. apply (take_take_drop data 9 (n + k)). }
  subst want. repeat split.
  - rewrite !(assoc_L (++)), H7, <- !(assoc_L (++)), (assoc_L (++) (take n _)), H9.
    by rewrite (assoc_L (++)), H9', take_drop.
  - rewrite length_take. lia.
  - rewrite length_take, length_drop. lia.
  - rewrite length_drop. lia.
  - rewrite (assoc_L (++) (take n _)), H9.
    replace (9 + n + k)%nat with (9 + (n + k))%nat by lia. rewrite <- drop_drop, take_drop, Hu.
    f_equal; unfold pay, len; rewrite length_take, length_drop; lia.
  - rewrite <- Hcrc. by rewrite !(assoc_L (++)), H7, <- !(assoc_L (++)), H9, H9'.
Qed.
