(* ===== verification/Readers.v ===== *)
(** * The two cursor readers

    [batchReader] (internal/wal/encoding_value.go) and [blockReader]
    (internal/sstable/reader.go) have the same method bodies and differ only
    in the prefix of their error messages; the bodies are written once and
    each method instantiates them. *)
From S2P Require Import Prelude GoBinary Model Codec.
From stdpp Require Import prelude strings list.
From Stdlib Require Import ZArith Lia.
#[local] Open Scope Z_scope.

(** ** Shared bodies *)
Definition rd_uvarint (e : goerr) : reader Z := fun s =>
  let '(value, size) := Uvarint s in
  if size <=? 0 then Err e else Ok (value, drop (Z.to_nat size) s).
Definition rd_varint (e : goerr) : reader Z := fun s =>
  let '(value, size) := Varint s in
  if size <=? 0 then Err e else Ok (value, drop (Z.to_nat size) s).
Definition rd_intCount (e eover : goerr) : reader Z :=
  value ← rd_uvarint e;
  if maxInt <? value then rfail eover else mret value.
Definition rd_byte (e : goerr) : reader Z := fun s =>
  match s with [] => Err e | b :: s' => Ok (b, s') end.
Definition rd_u64 (e : goerr) : reader Z := fun s =>
  if len s <? 8 then Err e else Ok (le_word (take 8 s), drop 8 s).
Definition rd_string (msg : string) : reader bytes := fun s =>
  match ReadString s with Err e => Err (ErrWrap msg e) | r => r end.
Definition rd_done (e : goerr) : reader unit := fun s =>
  match s with [] => Ok (tt, []) | _ :: _ => Err e end.

(** ** internal/wal batchReader *)
Module BatchReader.
Definition uvarint (name : string) : reader Z :=
    rd_uvarint (Errorf ("decode wal " +:+ name +:+ ": invalid uvarint")).
Definition varint (name : string) : reader Z :=
    rd_varint (Errorf ("decode wal " +:+ name +:+ ": invalid varint")).
Definition intCount (name : string) : reader Z :=
    rd_intCount (Errorf ("decode wal " +:+ name +:+ ": invalid uvarint"))
      (Errorf ("decode wal " +:+ name +:+ ": count overflows int")).
Definition string (name : String.string) : reader bytes := rd_string ("decode wal " +:+ name).
Definition byte (name : String.string) : reader Z :=
    rd_byte (Errorf ("decode wal " +:+ name +:+ ": missing byte")).
Definition bool (name : String.string) : reader Datatypes.bool :=
    value ← byte name;
    if value =? 0 then mret false
    else if value =? 1 then mret true
    else rfail (Errorf ("decode wal " +:+ name +:+ ": invalid bool byte")).
Definition float64 : reader FieldValue :=
    bits ← rd_u64 (Errorf "decode wal float64 field value: truncated payload");
    mret (Float64Value bits).
Definition rawBytes (n : Z) (name : String.string) : reader bytes := fun s =>
    if n <? 0 then Err (Errorf ("decode wal " +:+ name +:+ ": negative length"))
    else if len s <? n then Err (Errorf ("decode wal " +:+ name +:+ ": truncated payload"))
    else Ok (take (Z.to_nat n) s, drop (Z.to_nat n) s).
Definition done (name : String.string) : reader unit :=
    rd_done (Errorf ("decode " +:+ name +:+ ": trailing bytes")).
Definition uint32Value (name : String.string) (value : Z) : outcome Z :=
    if 2 ^ 32 - 1 <? value then Err (Errorf ("decode wal " +:+ name +:+ ": value overflows uint32"))
    else Ok (u32 value).
End BatchReader.

(** ** internal/sstable blockReader *)
Module BlockReader.
Definition byte (name : string) : reader Z :=
    rd_byte (Errorf ("decode sstable " +:+ name +:+ ": missing byte")).
Definition uvarint (name : string) : reader Z :=
    rd_uvarint (Errorf ("decode sstable " +:+ name +:+ ": invalid uvarint")).
Definition varint (name : string) : reader Z :=
    rd_varint (Errorf ("decode sstable " +:+ name +:+ ": invalid varint")).
Definition uint32 (name : string) : reader Z :=
    value ← uvarint name;
    if 2 ^ 32 - 1 <? value
    then rfail (Errorf ("decode sstable " +:+ name +:+ ": value overflows uint32"))
    else mret (u32 value).
Definition intCount (name : string) : reader Z :=
    rd_intCount (Errorf ("decode sstable " +:+ name +:+ ": invalid uvarint"))
      (Errorf ("decode sstable " +:+ name +:+ ": count overflows int")).
Definition fixedInt64 (name : string) : reader Z :=
    bits ← rd_u64 (Errorf ("decode sstable " +:+ name +:+ ": truncated int64"));
    mret (i64 bits).
Definition float64 : reader Z :=
    rd_u64 (Errorf "decode sstable float64 value: truncated payload").
Definition string (name : String.string) : reader bytes := rd_string ("decode sstable " +:+ name).
Definition done (name : String.string) : reader unit :=
    rd_done (Errorf ("decode " +:+ name +:+ ": trailing bytes")).
End BlockReader.

(** ** Reading back what was appended *)
Create HintDb reads.

Lemma rd_uvarint_append e x : is_u64 x -> reads_back (rd_uvarint e) (appendUvarint x) x.
Proof.
  intros Hx rest. unfold rd_uvarint. rewrite Uvarint_append by done.
  pose proof (appendUvarint_pos x). assert ((len (appendUvarint x) <=? 0) = false) as -> by zb.
  unfold len. by rewrite Nat2Z.id, drop_app_length.
Qed.
Lemma rd_varint_append e x : is_i64 x -> reads_back (rd_varint e) (appendVarint x) x.
Proof.
  intros Hx rest. unfold rd_varint. rewrite Varint_append by done.
  pose proof (appendVarint_pos x). assert ((len (appendVarint x) <=? 0) = false) as -> by zb.
  unfold len. by rewrite Nat2Z.id, drop_app_length.
Qed.
Lemma rd_intCount_append e e' x : 0 <= x <= maxInt ->
  reads_back (rd_intCount e e') (appendUvarint x) x.
Proof.
  intros Hx. eapply reads_back_bind_nil; [apply rd_uvarint_append; wrap_lia|].
  assert ((maxInt <? x) = false) as -> by zb. apply reads_back_ret.
Qed.
Lemma rd_byte_append e b : reads_back (rd_byte e) [b] b.
Proof. by intros rest. Qed.
Lemma rd_u64_append e x : is_u64 x -> reads_back (rd_u64 e) (le_put_u64 x) x.
Proof.
  intros Hx rest. unfold rd_u64, le_put_u64. pose proof (le_bytes_length 8 x) as Hlen.
  assert ((len (le_bytes 8 x ++ rest) <? 8) = false) as -> by zb.
  rewrite take_app_length', drop_app_length' by done. by rewrite le_word_bytes.
Qed.
Lemma rd_string_append msg s : string_ok s -> reads_back (rd_string msg) (AppendString s) s.
Proof. intros Hs rest. unfold rd_string. by rewrite (ReadString_append s Hs). Qed.
Lemma rd_done_nil e : rd_done e [] = Ok (tt, []).
Proof. done. Qed.
Lemma fixedInt64_append name x : is_i64 x ->
  reads_back (BlockReader.fixedInt64 name) (le_put_u64 (u64 x)) x.
Proof.
  intros Hx. eapply reads_back_bind_nil; [apply rd_u64_append, u64_range|].
  rewrite i64_u64_id by done. apply reads_back_ret.
Qed.
Lemma uint32_append name x : is_u32 x -> reads_back (BlockReader.uint32 name) (appendUvarint x) x.
Proof.
  intros Hx. eapply reads_back_bind_nil; [apply rd_uvarint_append; wrap_lia|].
  assert ((2 ^ 32 - 1 <? x) = false) as -> by (unfold is_u32 in Hx; zb).
  rewrite u32_id by done. apply reads_back_ret.
Qed.
Lemma rawBytes_append name bs : reads_back (BatchReader.rawBytes (len bs) name) bs bs.
Proof.
  intros rest. unfold BatchReader.rawBytes. assert ((len bs <? 0) = false) as -> by zb.
  assert ((len (bs ++ rest) <? len bs) = false) as -> by zb.
  unfold len. by rewrite Nat2Z.id, take_app_length, drop_app_length.
Qed.
Lemma bool_append name (b : bool) : reads_back (BatchReader.bool name) [if b then 1 else 0] b.
Proof. by destruct b. Qed.

#[export] Hint Resolve rd_uvarint_append rd_varint_append rd_intCount_append rd_byte_append
  rd_u64_append rd_string_append fixedInt64_append uint32_append rawBytes_append bool_append
  reads_back_ret lift_ok : reads.

(** ** No reader method panics *)
Lemma rd_uvarint_safe e : reader_safe (rd_uvarint e).
Proof. intros s. unfold rd_uvarint. destruct (Uvarint s). by case_match. Qed.
Lemma rd_varint_safe e : reader_safe (rd_varint e).
Proof. intros s. unfold rd_varint. destruct (Varint s). by case_match. Qed.
Lemma rd_intCount_safe e e' : reader_safe (rd_intCount e e').
Proof. apply reader_safe_bind; [apply rd_uvarint_safe|intros a; by case_match]. Qed.
Lemma rd_byte_safe e : reader_safe (rd_byte e).
Proof. by intros [|??]. Qed.
Lemma rd_u64_safe e : reader_safe (rd_u64 e).
Proof. intros s. unfold rd_u64. by case_match. Qed.
Lemma rd_string_safe m : reader_safe (rd_string m).
Proof. intros s. unfold rd_string. pose proof (ReadString_safe s). by destruct (ReadString s) as [[??]| |]. Qed.
Lemma rd_done_safe e : reader_safe (rd_done e).
Proof. by intros [|??]. Qed.
Lemma rawBytes_safe n name : reader_safe (BatchReader.rawBytes n name).
Proof. intros s. unfold BatchReader.rawBytes. by repeat case_match. Qed.
#[export] Hint Resolve rd_uvarint_safe rd_varint_safe rd_intCount_safe rd_byte_safe rd_u64_safe
  rd_string_safe rd_done_safe rawBytes_safe : reader_safe.
Lemma bool_safe name : reader_safe (BatchReader.bool name).
Proof. apply reader_safe_bind; [apply rd_byte_safe|intros]. by repeat case_match. Qed.
Lemma float64_safe : reader_safe BatchReader.float64.
Proof. apply reader_safe_bind; auto with reader_safe. Qed.
Lemma fixedInt64_safe name : reader_safe (BlockReader.fixedInt64 name).
Proof. apply reader_safe_bind; auto with reader_safe. Qed.
Lemma uint32_safe name : reader_safe (BlockReader.uint32 name).
Proof. apply reader_safe_bind; [apply rd_uvarint_safe|intros]. by case_match. Qed.
#[export] Hint Resolve bool_safe float64_safe fixedInt64_safe uint32_safe : reader_safe.

(** ** What the methods return on arbitrary bytes *)
Create HintDb rspec.
Lemma bytes_ok_drop n s : bytes_ok s -> bytes_ok (drop n s).
Proof. apply Forall_drop. Qed.
Lemma bytes_ok_take n s : bytes_ok s -> bytes_ok (take n s).
Proof. apply Forall_take. Qed.
Lemma rd_uvarint_spec e : rspec (rd_uvarint e) is_u64.
Proof.
  intros s Hs. unfold rd_uvarint. pose proof (Uvarint_range s Hs) as Hr. destruct (Uvarint s) as [v n]. simpl in Hr.
  destruct (n <=? 0); [done|]. split; [done|by apply bytes_ok_drop].
Qed.
Lemma rd_varint_spec e : rspec (rd_varint e) is_i64.
Proof.
  intros s Hs. unfold rd_varint, Varint. destruct (Uvarint s) as [v n].
  destruct (n <=? 0); [done|]. split; [apply varint_unzigzag_range|by apply bytes_ok_drop].
Qed.
Lemma rd_intCount_spec e e' : rspec (rd_intCount e e') (fun n => 0 <= n <= maxInt).
Proof.
  eapply rspec_bind; [apply rd_uvarint_spec|intros v Hv]. zcase (maxInt <? v); [apply rspec_fail|].
  apply rspec_ret. wrap_lia.
Qed.
Lemma rd_byte_spec e : rspec (rd_byte e) is_byte.
Proof. intros [|b s] Hs; [done|]. by inversion Hs. Qed.
Lemma rd_u64_spec e : rspec (rd_u64 e) is_u64.
Proof.
  intros s Hs. unfold rd_u64. zcase (len s <? 8); [done|]. split; [|by apply bytes_ok_drop].
  pose proof (le_word_nonneg (take 8 s) (bytes_ok_take _ _ Hs)) as H.
  assert (len (take 8 s) = 8) as Hl by (unfold len in *; rewrite length_take; lia).
  rewrite Hl in H. exact H.
Qed.
Lemma rd_string_spec m : rspec (rd_string m) bytes_ok.
Proof.
  intros s Hs. unfold rd_string, ReadString. destruct (Uvarint s) as [v n]. destruct (n <=? 0); [done|].
  destruct (_ <? v); [done|]. split; [by apply bytes_ok_take, bytes_ok_drop|by apply bytes_ok_drop].
Qed.
Lemma rd_done_spec e : rspec (rd_done e) (fun _ => True).
Proof. by intros [|??] ?. Qed.
Lemma rawBytes_spec n name : rspec (BatchReader.rawBytes n name) (fun bs => len bs = n /\ 0 <= n).
Proof.
  intros s Hs. unfold BatchReader.rawBytes. zcase (n <? 0); [done|]. zcase (len s <? n); [done|].
  split; [|by apply bytes_ok_drop]. unfold len in *. rewrite length_take. lia.
Qed.
