(* ===== verification/WalEncoding.v ===== *)
(** * internal/wal: the columnar batch payload and the tombstone payload

    encoding.go, encoding_value.go, encoding_columnar.go,
    encoding_columnar_helpers.go and encoding_tombstone.go.  The size
    estimates of the source only choose a buffer capacity and have no
    counterpart here. *)
From S2P Require Import Prelude GoBinary Model Codec Readers.
From stdpp Require Import prelude strings list gmap sorting.
From Stdlib Require Import ZArith Lia.
#[local] Open Scope Z_scope.

(** ** Identities: the (database, policy, measurement, tags) of a record *)
Record batchIdentity := mkIdentity {
  bi_database : bytes;
  bi_retentionPolicy : bytes;
  bi_measurement : bytes;
  bi_tags : gmap bytes bytes;
}.
#[export] Instance batchIdentity_eq_dec : EqDecision batchIdentity.
Proof. solve_decision. Defined.

Definition newBatchIdentity (record : ResolvedPoint) : batchIdentity :=
  mkIdentity (rp_Database record) (rp_RetentionPolicy record) (rp_Measurement record) (rp_Tags record).

(** [for key, value := range point.Tags { if identity.tags[key] != value { return false } }]:
    a missing key reads as the empty string. *)
Definition identityMatches (point : ResolvedPoint) (identity : batchIdentity) : bool :=
  bool_decide (rp_Database point = bi_database identity)
  && bool_decide (rp_RetentionPolicy point = bi_retentionPolicy identity)
  && bool_decide (rp_Measurement point = bi_measurement identity)
  && bool_decide (size (rp_Tags point) = size (bi_tags identity))
  && forallb (fun kv => bool_decide (default [] (bi_tags identity !! kv.1) = kv.2))
       (map_to_list (rp_Tags point)).

Definition lastIdentityRef (point : ResolvedPoint) (identities : list batchIdentity) : option Z :=
  match last identities with
  | None => None
  | Some known => if identityMatches point known then Some (len identities - 1) else None
  end.

(** [sort.Strings(keys)] *)
Definition sortStrings (keys : list bytes) : list bytes := merge_sort bytes_le keys.

Definition tagPair (tags : gmap bytes bytes) (key : bytes) : bytes :=
  AppendString key ++ AppendString (default [] (tags !! key)).
Definition appendTags (tags : gmap bytes bytes) : bytes :=
  if bool_decide (size tags = 0%nat) then appendUvarint 0
  else
    let keys := sortStrings (map fst (map_to_list tags)) in
    appendUvarint (len keys) ++ concat (map (tagPair tags) keys).

Definition identityKeyWithScratch (point : ResolvedPoint) : bytes :=
  AppendString (rp_Database point) ++ AppendString (rp_RetentionPolicy point)
  ++ AppendString (rp_Measurement point) ++ appendTags (rp_Tags point).

Definition appendIdentity (identity : batchIdentity) : bytes :=
  AppendString (bi_database identity) ++ AppendString (bi_retentionPolicy identity)
  ++ AppendString (bi_measurement identity) ++ appendTags (bi_tags identity).

(** ** The series index: dense table when the ids are close together *)
Record seriesRefIndex := mkSeriesRefIndex {
  sri_sparse : option (gmap Z Z);
  sri_base : Z;
  sri_dense : list Z;
}.
Definition denseSeriesRefMaxSpanFactor : Z := 4.

Fixpoint seriesIDRangeLoop (ids : list Z) (minID maxID : Z) (found : bool) : Z * Z * bool :=
  match ids with
  | [] => (minID, maxID, found)
  | id :: ids' =>
      if id =? 0 then seriesIDRangeLoop ids' minID maxID found
      else
        let minID' := if negb found || (id <? minID) then id else minID in
        let maxID' := if maxID <? id then id else maxID in
        seriesIDRangeLoop ids' minID' maxID' true
  end.

(** [newSeriesRefIndex] and [newTypedSeriesRefIndex] differ in where the ids
    come from; [ids] is the id of each record in order. *)
Definition newRefIndex (ids : list Z) : seriesRefIndex :=
  let '(minID, maxID, ok) := seriesIDRangeLoop ids 0 0 false in
  if negb ok then mkSeriesRefIndex None 0 []
  else
    let span := u64 (maxID - minID + 1) in
    let maxDenseSpan := u64 (len ids * denseSeriesRefMaxSpanFactor) in
    if span <=? maxDenseSpan
    then mkSeriesRefIndex None minID (replicate (Z.to_nat span) 0)
    else mkSeriesRefIndex (Some ∅) 0 [].

Definition denseMiss (i : seriesRefIndex) (seriesID : Z) : bool :=
  (seriesID <? sri_base i) || (len (sri_dense i) <=? u64 (seriesID - sri_base i)).

Definition sri_lookup (i : seriesRefIndex) (seriesID : Z) : option Z :=
  if 0 <? len (sri_dense i) then
    if denseMiss i seriesID then None
    else
      let ref := default 0 (sri_dense i !! Z.to_nat (seriesID - sri_base i)) in
      if ref =? 0 then None else Some (ref - 1)
  else sparse ← sri_sparse i; sparse !! seriesID.

Definition sri_setIfAbsent (i : seriesRefIndex) (seriesID ref : Z) : seriesRefIndex :=
  if 0 <? len (sri_dense i) then
    if denseMiss i seriesID then i
    else
      let slot := Z.to_nat (seriesID - sri_base i) in
      if default 0 (sri_dense i !! slot) =? 0
      then mkSeriesRefIndex (sri_sparse i) (sri_base i) (<[slot := ref + 1]> (sri_dense i))
      else i
  else
    match sri_sparse i with
    | None => i
    | Some m =>
        match m !! seriesID with
        | Some _ => i
        | None => mkSeriesRefIndex (Some (<[seriesID := ref]> m)) (sri_base i) (sri_dense i)
        end
    end.

(** ** batchIdentities *)
Definition identityRefByKey (record : ResolvedPoint) (seen : gmap bytes Z)
    (identities : list batchIdentity) : Z * gmap bytes Z :=
  let key := identityKeyWithScratch record in
  match seen !! key with
  | Some ref => (ref, seen)
  | None => let ref := len identities in (ref, <[key := ref]> seen)
  end.

Record identState := mkIdentState {
  is_identities : list batchIdentity;
  is_seenSeries : seriesRefIndex;
  is_seenIdentity : gmap bytes Z;
}.

(** The tail of an iteration: find the identity by its encoded key. *)
Definition identityByKey (st : identState) (record : ResolvedPoint) : identState * Z :=
  let '(ref, seenIdentity') := identityRefByKey record (is_seenIdentity st) (is_identities st) in
  (mkIdentState
     (if ref =? len (is_identities st)
      then is_identities st ++ [newBatchIdentity record] else is_identities st)
     (if negb (rp_SeriesID record =? 0)
      then sri_setIfAbsent (is_seenSeries st) (rp_SeriesID record) ref else is_seenSeries st)
     seenIdentity', ref).

(** One iteration of the loop: the new state and [refs[index]].  A reference
    found in [seenSeries] is always in range (see [ident_inv]), so the lookup
    in [identities] cannot fail. *)
Definition batchIdentityStep (st : identState) (record : ResolvedPoint) : identState * Z :=
  match lastIdentityRef record (is_identities st) with
  | Some ref => (st, ref)
  | None =>
      if negb (rp_SeriesID record =? 0) then
        match sri_lookup (is_seenSeries st) (rp_SeriesID record) with
        | Some ref =>
            match is_identities st !! Z.to_nat ref with
            | Some known => if identityMatches record known then (st, ref) else identityByKey st record
            | None => identityByKey st record
            end
        | None =>
            let ref := len (is_identities st) in
            (mkIdentState (is_identities st ++ [newBatchIdentity record])
               (sri_setIfAbsent (is_seenSeries st) (rp_SeriesID record) ref) (is_seenIdentity st), ref)
        end
      else identityByKey st record
  end.

Fixpoint batchIdentitiesLoop (st : identState) (records : list ResolvedPoint)
    : list batchIdentity * list Z :=
  match records with
  | [] => (is_identities st, [])
  | record :: records' =>
      let '(st', ref) := batchIdentityStep st record in
      let '(identities, refs) := batchIdentitiesLoop st' records' in
      (identities, ref :: refs)
  end.

Definition batchIdentities (records : list ResolvedPoint) : list batchIdentity * list Z :=
  batchIdentitiesLoop (mkIdentState [] (newRefIndex (map rp_SeriesID records)) ∅) records.

(** ** Field schema of a batch *)
Record columnarFieldSchema := mkSchema {
  cfs_fieldID : Z;
  cfs_name : bytes;
  cfs_typ : Z;
}.
#[export] Instance columnarFieldSchema_eq_dec : EqDecision columnarFieldSchema.
Proof. solve_decision. Defined.

Definition schema_lt (a b : columnarFieldSchema) : bool :=
  if negb (cfs_fieldID a =? cfs_fieldID b) then cfs_fieldID a <? cfs_fieldID b
  else if negb (bool_decide (cfs_name a = cfs_name b)) then bytes_ltb (cfs_name a) (cfs_name b)
  else cfs_typ a <? cfs_typ b.
Definition schema_le (a b : columnarFieldSchema) : Prop := schema_lt b a = false.
#[export] Instance schema_le_dec : RelDecision schema_le.
Proof. intros a b. unfold schema_le. apply _. Defined.

Definition fieldKeyOf (field : ResolvedField) : columnarFieldSchema :=
  mkSchema (rf_FieldID field) (rf_FieldName field) (rf_Type field).

(** The two nested loops; [seen] holds the keys already in [schema]. *)
Fixpoint collectFields (fields : list ResolvedField) (schema : list columnarFieldSchema)
    : outcome (list columnarFieldSchema) :=
  match fields with
  | [] => Ok schema
  | field :: fields' =>
      if negb (rf_Type field =? fv_Type (rf_Value field))
      then Err (Errorf "field type does not match value type")
      else if bool_decide (fieldKeyOf field ∈ schema) then collectFields fields' schema
      else collectFields fields' (schema ++ [fieldKeyOf field])
  end.
Fixpoint collectSchema (records : list ResolvedPoint) (schema : list columnarFieldSchema)
    : outcome (list columnarFieldSchema) :=
  match records with
  | [] => Ok schema
  | record :: records' => schema' ← collectFields (rp_Fields record) schema; collectSchema records' schema'
  end.
Definition buildPointFieldSchema (records : list ResolvedPoint) : outcome (list columnarFieldSchema) :=
  schema ← collectSchema records []; Ok (merge_sort schema_le schema).

(** ** Field values and columns *)
Definition appendValuePayload (value : FieldValue) : outcome bytes :=
  if fv_Type value =? FieldFloat64 then Ok (le_put_u64 (fv_Float64 value))
  else if fv_Type value =? FieldInt64 then Ok (appendVarint (fv_Int64 value))
  else if fv_Type value =? FieldString then Ok (AppendString (fv_String value))
  else if fv_Type value =? FieldBool then Ok [if fv_Bool value then 1 else 0]
  else Err (Errorf "unsupported field value type").

(** A presence bitmap with the first [rowCount] bits set. *)
Definition densePresence (rowCount : nat) : bytes :=
  let byteCount := bitCount8 rowCount in
  let bits := replicate byteCount 0xff in
  let rem := (rowCount mod 8)%nat in
  if negb (Nat.eqb rem 0) && Nat.ltb 0 byteCount
  then <[(byteCount - 1)%nat := u8 (Z.shiftl 1 (Z.of_nat rem) - 1)]> bits
  else bits.

Definition denseFieldColumn (records : list ResolvedPoint) (fieldIndex : nat) : outcome bytes :=
  values ← mapM (fun record =>
    match rp_Fields record !! fieldIndex with
    | None => Err (Errorf "dense field index out of range")
    | Some field => appendValuePayload (rf_Value field)
    end) records;
  Ok (densePresence (length records) ++ concat values).
Definition appendPointFieldColumnsDense (records : list ResolvedPoint)
    (schema : list columnarFieldSchema) : outcome bytes :=
  columns ← mapM (denseFieldColumn records) (seq 0 (length schema)); Ok (concat columns).

Definition lookupPointField (record : ResolvedPoint) (field : columnarFieldSchema) : option FieldValue :=
  item ← list_find (fun item => fieldKeyOf item = field) (rp_Fields record);
  Some (rf_Value item.2).

(** The presence bits are set as the values are appended. *)
Fixpoint pointFieldColumnLoop (records : list ResolvedPoint) (field : columnarFieldSchema)
    (row : nat) (bits : bytes) : outcome (bytes * bytes) :=
  match records with
  | [] => Ok (bits, [])
  | record :: records' =>
      match lookupPointField record field with
      | None => pointFieldColumnLoop records' field (S row) bits
      | Some value =>
          payload ← appendValuePayload value;
          '(bits', values) ← pointFieldColumnLoop records' field (S row) (setBit bits row);
          Ok (bits', payload ++ values)
      end
  end.
Definition appendPointFieldColumn (records : list ResolvedPoint) (field : columnarFieldSchema)
    : outcome bytes :=
  '(bits, values) ← pointFieldColumnLoop records field 0 (replicate (bitCount8 (length records)) 0);
  Ok (bits ++ values).

(** Only the first, middle and last record are compared with the schema. *)
Definition fieldsMatchSchema (record : ResolvedPoint) (schema : list columnarFieldSchema) : bool :=
  bool_decide (length (rp_Fields record) = length schema)
  && bool_decide (map fieldKeyOf (rp_Fields record) = schema).
Definition pointFieldsMatchSchema (records : list ResolvedPoint) (schema : list columnarFieldSchema)
    : bool :=
  if bool_decide (records = []) then true
  else
    forallb (fun index =>
      match records !! index with
      | None => true
      | Some record => fieldsMatchSchema record schema
      end) [0; length records / 2; length records - 1]%nat.

Definition appendPointFieldColumns (records : list ResolvedPoint)
    (schema : list columnarFieldSchema) : outcome bytes :=
  if bool_decide (schema = []) then Ok []
  else if pointFieldsMatchSchema records schema then appendPointFieldColumnsDense records schema
  else columns ← mapM (appendPointFieldColumn records) schema; Ok (concat columns).

(** ** Row metadata columns *)
Fixpoint appendTimestampDeltas (index : Z) (prev : Z) (timestamps : list Z) : bytes :=
  match timestamps with
  | [] => []
  | timestamp :: rest =>
      let delta := if 0 <? index then i64 (timestamp - prev) else timestamp in
      appendVarint delta ++ appendTimestampDeltas (index + 1) timestamp rest
  end.
Fixpoint appendWriteSeqDeltas (index : Z) (prev : Z) (writeSeqs : list Z) : bytes :=
  match writeSeqs with
  | [] => []
  | seq :: rest =>
      (if index =? 0 then appendUvarint seq
       else if seq <? prev then appendUvarint 0 ++ appendUvarint seq
       else appendUvarint (u64 (seq - prev + 1)))
      ++ appendWriteSeqDeltas (index + 1) seq rest
  end.

Definition appendColumnarIdentities (identities : list batchIdentity) : bytes :=
  appendUvarint (len identities) ++ concat (map appendIdentity identities).
Definition schemaEntry (field : columnarFieldSchema) : bytes :=
  AppendString (cfs_name field) ++ appendUvarint (cfs_fieldID field) ++ [u8 (cfs_typ field)].
Definition appendColumnarSchema (schema : list columnarFieldSchema) : bytes :=
  appendUvarint (len schema) ++ concat (map schemaEntry schema).

(** ** encodeColumnarPointsInto *)
Definition encodeColumnarPointsInto (records : list ResolvedPoint) : outcome bytes :=
  let '(identities, identityRefs) := batchIdentities records in
  schema ← buildPointFieldSchema records;
  fields ← appendPointFieldColumns records schema;
  Ok (appendColumnarIdentities identities
      ++ appendColumnarSchema schema
      ++ appendUvarint (len records)
      ++ concat (map appendUvarint identityRefs)
      ++ concat (map (fun record => appendUvarint (rp_SeriesID record)) records)
      ++ appendTimestampDeltas 0 0 (map rp_Timestamp records)
      ++ appendWriteSeqDeltas 0 0 (map rp_WriteSeq records)
      ++ fields).
Definition encodeBatchInto (records : list ResolvedPoint) : outcome bytes :=
  encodeColumnarPointsInto records.

(** ** decodeBatch *)
Definition readTagPair : reader (bytes * bytes) :=
  key ← BatchReader.string "tag key";
  value ← BatchReader.string "tag value";
  mret (key, value).
Definition readTags : reader (gmap bytes bytes) :=
  count ← BatchReader.intCount "tag count";
  if count =? 0 then mret ∅
  else
    pairs ← read_n (Z.to_nat count) readTagPair;
    mret (fold_left (fun tags kv => <[kv.1 := kv.2]> tags) pairs ∅).

Definition readIdentity : reader batchIdentity :=
  database ← BatchReader.string "database";
  policy ← BatchReader.string "retention policy";
  measurement ← BatchReader.string "measurement";
  tags ← readTags;
  mret (mkIdentity database policy measurement tags).
Definition readBatchIdentities : reader (list batchIdentity) :=
  count ← BatchReader.intCount "identity count";
  _ ← rmake 56 count;
  read_n (Z.to_nat count) readIdentity.

Definition readSchemaEntry : reader columnarFieldSchema :=
  name ← BatchReader.string "field name";
  fieldID ← BatchReader.uvarint "field id";
  typ ← BatchReader.byte "field type";
  mret (mkSchema (u32 fieldID) name typ).
Definition readColumnarSchema : reader (list columnarFieldSchema) :=
  count ← BatchReader.intCount "field schema count";
  _ ← rmake 32 count;
  read_n (Z.to_nat count) readSchemaEntry.

Definition readPresenceBits (rowCount : Z) : reader (list bool) :=
  let byteCount := Z.quot (i64 (rowCount + 7)) 8 in
  raw ← BatchReader.rawBytes byteCount "presence bitmap";
  _ ← rmake 1 rowCount;
  mret (map (bitAt raw) (seq 0 (Z.to_nat rowCount))).

(** The accumulators are the index and [prev]. *)
Definition readDeltaVarints (count : Z) : reader (list Z) :=
  _ ← rmake 8 count;
  read_fold (Z.to_nat count) (fun '(index, prev) =>
    delta ← BatchReader.varint "timestamp delta";
    let out := if index =? 0 then delta else i64 (prev + delta) in
    mret (out, (index + 1, out))) (0, 0).
Definition readDeltaUvarints (count : Z) : reader (list Z) :=
  _ ← rmake 8 count;
  read_fold (Z.to_nat count) (fun '(index, prev) =>
    token ← BatchReader.uvarint "write seq token";
    if index =? 0 then mret (token, (index + 1, token))
    else if token =? 0 then
      absolute ← BatchReader.uvarint "write seq absolute";
      mret (absolute, (index + 1, absolute))
    else
      let out := u64 (prev + token - 1) in mret (out, (index + 1, out))) (0, 0).

Definition readValuePayload (fieldType : Z) : reader FieldValue :=
  if fieldType =? FieldFloat64 then BatchReader.float64
  else if fieldType =? FieldInt64 then
    (value ← BatchReader.varint "int64 field value"; mret (Int64Value value))
  else if fieldType =? FieldString then
    (value ← BatchReader.string "string field value"; mret (StringValue value))
  else if fieldType =? FieldBool then
    (value ← BatchReader.bool "bool field value"; mret (BoolValue value))
  else rfail (Errorf "unsupported field value type").

(** One iteration of the loop over [schema]: the presence bits, then one value
    per present row. *)
Definition readFieldColumn (rowCount : Z) (field : columnarFieldSchema)
    : reader (list bool * list FieldValue) :=
  presence ← readPresenceBits rowCount;
  _ ← rmake 48 rowCount;
  values ← read_n (length (List.filter id presence)) (readValuePayload (cfs_typ field));
  mret (presence, values).

(** One row: walk the schema, take the next value of every present field and
    advance that field's cursor. *)
Fixpoint assembleFields (row : nat) (schema : list columnarFieldSchema)
    (columns : list (list bool * list FieldValue)) (cursors : list nat)
    : outcome (list ResolvedField * list nat) :=
  match schema, columns, cursors with
  | field :: schema', (presence, values) :: columns', cursor :: cursors' =>
      present ← idx presence (Z.of_nat row);
      if negb present then
        '(fields, next) ← assembleFields row schema' columns' cursors';
        Ok (fields, cursor :: next)
      else
        value ← idx values (Z.of_nat cursor);
        '(fields, next) ← assembleFields row schema' columns' cursors';
        Ok (mkResolvedField (cfs_fieldID field) (cfs_name field) (cfs_typ field) value :: fields,
            S cursor :: next)
  | [], _, _ => Ok ([], [])
  | _, _, _ => Panic IndexOutOfRange
  end.

Fixpoint assembleRows (row : nat) (n : nat) (identities : list batchIdentity) (identityRefs : list Z)
    (seriesIDs timestamps writeSeqs : list Z) (schema : list columnarFieldSchema)
    (columns : list (list bool * list FieldValue)) (cursors : list nat)
    : outcome (list ResolvedPoint) :=
  match n with
  | O => Ok []
  | S n' =>
      ref ← idx identityRefs (Z.of_nat row);
      ident ← idx identities ref;
      _ ← make_slice 80 (len schema);
      '(fields, cursors') ← assembleFields row schema columns cursors;
      seriesID ← idx seriesIDs (Z.of_nat row);
      timestamp ← idx timestamps (Z.of_nat row);
      writeSeq ← idx writeSeqs (Z.of_nat row);
      records ← assembleRows (S row) n' identities identityRefs seriesIDs timestamps writeSeqs
                  schema columns cursors';
      Ok (mkResolvedPoint (bi_database ident) (bi_retentionPolicy ident) (bi_measurement ident)
            (bi_tags ident) seriesID timestamp writeSeq fields :: records)
  end.

Definition readIdentityRef (identities : list batchIdentity) : reader Z :=
  ref ← BatchReader.intCount "identity ref";
  if len identities <=? ref then rfail (Errorf "decode wal identity ref out of range") else mret ref.

Definition decodeBatchReader : reader (list ResolvedPoint) :=
  identities ← readBatchIdentities;
  schema ← readColumnarSchema;
  rowCount ← BatchReader.intCount "row count";
  _ ← rmake 8 rowCount;
  identityRefs ← read_n (Z.to_nat rowCount) (readIdentityRef identities);
  _ ← rmake 8 rowCount;
  seriesIDs ← read_n (Z.to_nat rowCount) (BatchReader.uvarint "series id");
  timestamps ← readDeltaVarints rowCount;
  writeSeqs ← readDeltaUvarints rowCount;
  _ ← rmake 24 (len schema);
  columns ← mapM (readFieldColumn rowCount) schema;
  _ ← BatchReader.done "wal columnar batch";
  _ ← rmake 104 rowCount;
  _ ← rmake 8 (len schema);
  lift (assembleRows 0 (Z.to_nat rowCount) identities identityRefs seriesIDs timestamps writeSeqs
          schema columns (replicate (length schema) 0%nat)).

Definition decodeBatch (payload : bytes) : outcome (list ResolvedPoint) :=
  if len payload =? 0 then Err (Errorf "empty wal batch")
  else '(records, _) ← decodeBatchReader payload; Ok records.

(** ** Tombstones *)
Definition appendTombstone (tombstone : Tombstone) : bytes :=
  appendVarint (ts_StartTime tombstone) ++ appendVarint (ts_EndTime tombstone)
  ++ appendUvarint (ts_WriteSeq tombstone)
  ++ appendUvarint (len (ts_SeriesIDs tombstone)) ++ concat (map appendUvarint (ts_SeriesIDs tombstone))
  ++ appendUvarint (len (ts_FieldIDs tombstone)) ++ concat (map appendUvarint (ts_FieldIDs tombstone)).
Definition encodeTombstones (tombstones : list Tombstone) : bytes :=
  appendUvarint (len tombstones) ++ concat (map appendTombstone tombstones).

Definition readUint64s (name : string) : reader (list Z) :=
  count ← BatchReader.intCount (name +:+ " count");
  _ ← rmake 8 count;
  read_n (Z.to_nat count) (BatchReader.uvarint (name +:+ " value")).
Definition readUint32s (name : string) : reader (list Z) :=
  count ← BatchReader.intCount (name +:+ " count");
  _ ← rmake 4 count;
  read_n (Z.to_nat count)
    (value ← BatchReader.uvarint (name +:+ " value");
     lift (BatchReader.uint32Value (name +:+ " value") value)).
Definition readTombstone : reader Tombstone :=
  start ← BatchReader.varint "tombstone start";
  end_ ← BatchReader.varint "tombstone end";
  writeSeq ← BatchReader.uvarint "tombstone write seq";
  seriesIDs ← readUint64s "tombstone series";
  fieldIDs ← readUint32s "tombstone fields";
  mret (mkTombstone seriesIDs fieldIDs start end_ writeSeq).
Definition decodeTombstones (payload : bytes) : outcome (list Tombstone) :=
  if len payload =? 0 then Err (Errorf "empty wal tombstones")
  else
    '(tombstones, _) ←
      (count ← BatchReader.intCount "tombstone count";
       _ ← rmake 72 count;
       tombstones ← read_n (Z.to_nat count) readTombstone;
       _ ← BatchReader.done "wal tombstones";
       mret tombstones : reader (list Tombstone)) payload;
    Ok tombstones.
