(* ===== verification/WalRoundtrip.v ===== *)
(** * Round trips of the WAL payloads

    What a batch or a tombstone list was encoded from is what replay decodes,
    and no input, however damaged, makes a decoder panic. *)
From S2P Require Import Prelude GoBinary Model Codec Readers WalEncoding.
From stdpp Require Import prelude strings list gmap sorting.
From Stdlib Require Import ZArith Lia.
#[local] Open Scope Z_scope.

(** ** Well-formed inputs *)
(** No tag has an empty value: [identityMatches] reads a missing tag as an
    empty one, so it would match an identity without the tag. *)
Definition tags_ok (tags : gmap bytes bytes) : Prop :=
  map_Forall (fun k v => string_ok k /\ string_ok v /\ v <> []) tags
  /\ Z.of_nat (size tags) <= maxInt.
Definition identity_ok (ident : batchIdentity) : Prop :=
  string_ok (bi_database ident) /\ string_ok (bi_retentionPolicy ident)
  /\ string_ok (bi_measurement ident) /\ tags_ok (bi_tags ident).
Definition schema_ok (f : columnarFieldSchema) : Prop :=
  is_u32 (cfs_fieldID f) /\ string_ok (cfs_name f) /\ is_byte (cfs_typ f).
(** What the catalog hands over: machine-width ids, a value of the declared
    type per field. *)
Definition field_ok (f : ResolvedField) : Prop :=
  is_u32 (rf_FieldID f) /\ string_ok (rf_FieldName f) /\ value_ok (rf_Value f)
  /\ rf_Type f = fv_Type (rf_Value f).
Definition point_ok (p : ResolvedPoint) : Prop :=
  identity_ok (newBatchIdentity p) /\ is_u64 (rp_SeriesID p) /\ is_i64 (rp_Timestamp p)
  /\ (0 <= rp_WriteSeq p < 2 ^ 64 - 1) /\ Forall field_ok (rp_Fields p).

(** ** Tags and identities *)
Lemma fold_insert_keys (tags : gmap bytes bytes) (keys : list bytes) (m : gmap bytes bytes) (x : bytes) :
  fold_left (fun t kv => <[kv.1 := kv.2]> t) (map (fun k => (k, default [] (tags !! k))) keys) m !! x
  = if bool_decide (x ∈ keys) then Some (default [] (tags !! x)) else m !! x.
Proof.
  revert m. induction keys as [|k keys IH]; intros m; cbn [map fold_left].
  { by rewrite bool_decide_false by apply not_elem_of_nil. }
  rewrite IH. cbn [fst snd]. destruct (decide (x ∈ keys)).
  - by rewrite !bool_decide_true by (rewrite ?elem_of_cons; auto).
  - rewrite (bool_decide_false (x ∈ keys)) by done. destruct (decide (k = x)) as [->|Hk].
    + rewrite lookup_insert_eq, bool_decide_true; [done|]. apply elem_of_cons. by left.
    + rewrite lookup_insert_ne, bool_decide_false; [done| |done]. rewrite elem_of_cons. naive_solver.
Qed.

Lemma tag_keys_elem (tags : gmap bytes bytes) k :
  k ∈ sortStrings (map fst (map_to_list tags)) <-> is_Some (tags !! k).
Proof.
  unfold sortStrings. rewrite merge_sort_Permutation. split.
  - intros [[k' v] [-> Hin]]%list_elem_of_fmap. apply elem_of_map_to_list in Hin. by exists v.
  - intros [v Hv]. apply list_elem_of_fmap. exists (k, v). by rewrite elem_of_map_to_list.
Qed.
Lemma tag_keys_length (tags : gmap bytes bytes) :
  length (sortStrings (map fst (map_to_list tags))) = size tags.
Proof. unfold sortStrings. by rewrite merge_sort_Permutation, length_map, length_map_to_list. Qed.

Lemma readTags_append tags : tags_ok tags -> reads_back readTags (appendTags tags) tags.
Proof.
  intros [Hall Hsz]. unfold appendTags, readTags. case_bool_decide as H0.
  { apply map_size_empty_iff in H0 as ->.
    eapply reads_back_bind_nil; [apply rd_intCount_append; wrap_lia|]. apply reads_back_ret. }
  pose proof (tag_keys_length tags) as Hlen.
  set (keys := sortStrings (map fst (map_to_list tags))) in *.
  eapply reads_back_bind; [apply rd_intCount_append; unfold len; lia|].
  assert ((len keys =? 0) = false) as -> by zb. unfold len. rewrite Nat2Z.id.
  assert (concat (map (tagPair tags) keys) = concat (map (fun kv => AppendString kv.1 ++ AppendString kv.2)
            (map (fun k => (k, default [] (tags !! k))) keys))) as ->.
  { rewrite map_map. done. }
  eapply reads_back_bind_nil.
  - rewrite <- (length_map (fun k => (k, default [] (tags !! k)))). apply reads_back_read_n.
    apply Forall_fmap, Forall_forall. intros k Hk. apply tag_keys_elem in Hk as [v Hv]. simpl.
    rewrite Hv. simpl. destruct (Hall _ _ Hv) as (? & ? & _).
    eapply reads_back_bind; [by apply rd_string_append|].
    eapply reads_back_bind_nil; [by apply rd_string_append|]. apply reads_back_ret.
  - assert (fold_left (fun t kv => <[kv.1 := kv.2]> t)
              (map (fun k => (k, default [] (tags !! k))) keys) ∅ = tags) as ->.
    { apply map_eq. intros x. rewrite fold_insert_keys. case_bool_decide as Hx.
      - apply tag_keys_elem in Hx as [v Hv]. by rewrite Hv.
      - rewrite lookup_empty. destruct (tags !! x) eqn:E; [|done]. destruct Hx.
        apply tag_keys_elem. by rewrite E. }
    apply reads_back_ret.
Qed.

Lemma readIdentity_append ident : identity_ok ident ->
  reads_back readIdentity (appendIdentity ident) ident.
Proof.
  intros (?&?&?&?). unfold readIdentity, appendIdentity.
  do 3 (eapply reads_back_bind; [by apply rd_string_append|]).
  eapply reads_back_bind_nil; [by apply readTags_append|]. destruct ident; apply reads_back_ret.
Qed.
Lemma appendIdentity_inj i1 i2 : identity_ok i1 -> identity_ok i2 ->
  appendIdentity i1 = appendIdentity i2 -> i1 = i2.
Proof.
  intros H1%readIdentity_append%reads_back_run H2%readIdentity_append%reads_back_run E.
  rewrite E, H2 in H1. congruence.
Qed.
Lemma readBatchIdentities_append ids : Forall identity_ok ids -> fits (len ids) ->
  reads_back readBatchIdentities (appendColumnarIdentities ids) ids.
Proof.
  intros Hids Hl. eapply reads_back_bind; [apply rd_intCount_append; alloc_lia|].
  apply reads_back_make; [alloc_lia|alloc_lia|].
  unfold len. rewrite Nat2Z.id. apply reads_back_read_n.
  eapply Forall_impl; [exact Hids|]. apply readIdentity_append.
Qed.

(** ** Schema *)
Lemma readColumnarSchema_append schema : Forall schema_ok schema -> fits (len schema) ->
  reads_back readColumnarSchema (appendColumnarSchema schema) schema.
Proof.
  intros Hs Hl. eapply reads_back_bind; [apply rd_intCount_append; alloc_lia|].
  apply reads_back_make; [alloc_lia|alloc_lia|].
  unfold len. rewrite Nat2Z.id. apply reads_back_read_n.
  eapply Forall_impl; [exact Hs|]. intros [id name typ] (Hid & Hname & Ht).
  unfold schemaEntry. simpl in *.
  eapply reads_back_bind; [by apply rd_string_append|].
  eapply reads_back_bind; [apply rd_uvarint_append; wrap_lia|].
  eapply reads_back_bind_nil; [apply rd_byte_append|].
  rewrite u32_id by done. unfold u8. rewrite Z.mod_small by done. apply reads_back_ret.
Qed.

(** ** Delta columns *)
Lemma readDeltaVarints_append_aux ts : Forall is_i64 ts -> forall index prev, 0 <= index ->
  reads_back (read_fold (length ts) (fun '(index, prev) =>
      delta ← BatchReader.varint "timestamp delta";
      let out := if index =? 0 then delta else i64 (prev + delta) in
      mret (out, (index + 1, out))) (index, prev))
    (appendTimestampDeltas index prev ts) ts.
Proof.
  induction 1 as [|t ts Ht Hts IH]; intros index prev Hi; [apply reads_back_ret|].
  cbn [length read_fold appendTimestampDeltas].
  eapply reads_back_bind.
  - eapply reads_back_bind_nil.
    + apply rd_varint_append. case_match; [apply i64_range|done].
    + assert ((if index =? 0 then if 0 <? index then i64 (t - prev) else t
               else i64 (prev + (if 0 <? index then i64 (t - prev) else t))) = t) as Hout.
      { zcase (index =? 0); zcase (0 <? index); try lia. by apply i64_add_sub. }
      cbv zeta. rewrite Hout. apply reads_back_ret.
  - simpl. eapply reads_back_bind_nil; [apply IH; lia|]. apply reads_back_ret.
Qed.
Lemma readDeltaVarints_append ts : Forall is_i64 ts -> fits (len ts) ->
  reads_back (readDeltaVarints (len ts)) (appendTimestampDeltas 0 0 ts) ts.
Proof.
  intros. apply reads_back_make; [alloc_lia|alloc_lia|].
  unfold len. rewrite Nat2Z.id. by apply readDeltaVarints_append_aux.
Qed.

Lemma readDeltaUvarints_append_aux seqs : Forall (fun s => 0 <= s < 2 ^ 64 - 1) seqs ->
  forall index prev, 0 <= index -> 0 <= prev ->
  reads_back (read_fold (length seqs) (fun '(index, prev) =>
      token ← BatchReader.uvarint "write seq token";
      if index =? 0 then mret (token, (index + 1, token))
      else if token =? 0 then
        absolute ← BatchReader.uvarint "write seq absolute";
        mret (absolute, (index + 1, absolute))
      else
        let out := u64 (prev + token - 1) in mret (out, (index + 1, out))) (index, prev))
    (appendWriteSeqDeltas index prev seqs) seqs.
Proof.
  induction 1 as [|s seqs Hs Hseqs IH]; intros index prev Hi Hp; [apply reads_back_ret|].
  cbn [length read_fold appendWriteSeqDeltas].
  apply reads_back_bind with (a := (s, (index + 1, s)));
    [|simpl; eapply reads_back_bind_nil; [apply IH; lia|apply reads_back_ret]].
  zcase (index =? 0).
  { eapply reads_back_bind_nil; [apply rd_uvarint_append; wrap_lia|apply reads_back_ret]. }
  zcase (s <? prev).
  - eapply reads_back_bind; [apply rd_uvarint_append; wrap_lia|]. simpl.
    eapply reads_back_bind_nil; [apply rd_uvarint_append; wrap_lia|apply reads_back_ret].
  - rewrite u64_id by wrap_lia.
    eapply reads_back_bind_nil; [apply rd_uvarint_append; wrap_lia|].
    assert ((s - prev + 1 =? 0) = false) as -> by zb.
    cbv zeta. replace (prev + (s - prev + 1) - 1) with s by lia. rewrite u64_id by wrap_lia.
    apply reads_back_ret.
Qed.
Lemma readDeltaUvarints_append seqs : Forall (fun s => 0 <= s < 2 ^ 64 - 1) seqs -> fits (len seqs) ->
  reads_back (readDeltaUvarints (len seqs)) (appendWriteSeqDeltas 0 0 seqs) seqs.
Proof.
  intros. apply reads_back_make; [alloc_lia|alloc_lia|].
  unfold len. rewrite Nat2Z.id. by apply readDeltaUvarints_append_aux.
Qed.

(** ** Field columns

    A column is, per row, the value of the field or nothing. *)
Abbreviation column := (list (option FieldValue)).
Definition isPresent (o : option FieldValue) : bool := match o with Some _ => true | None => false end.
Definition columnValues (col : column) : list FieldValue := omap id col.
Definition columnBytes (col : column) : bytes :=
  AppendBoolBits (map isPresent col) ++ concat (map valueBody (columnValues col)).
Definition column_ok (typ : Z) (col : column) : Prop :=
  Forall (fun v => value_ok v /\ fv_Type v = typ) (columnValues col).

Lemma readValuePayload_body v : value_ok v ->
  reads_back (readValuePayload (fv_Type v)) (valueBody v) v.
Proof.
  destruct 1; unfold readValuePayload, valueBody; simpl;
    (eapply reads_back_bind_nil;
     [by first [apply rd_u64_append|apply rd_varint_append|apply rd_string_append|apply bool_append]
     |apply reads_back_ret]).
Qed.
Lemma present_count (col : column) :
  length (List.filter id (map isPresent col)) = length (columnValues col).
Proof. induction col as [|[v|] col IH]; simpl; [done|by rewrite IH|done]. Qed.

(** Any [raw] whose first bits are the presence flags will do: the sparse and
    the dense encoder build it differently. *)
Lemma readFieldColumn_append field col raw : column_ok (cfs_typ field) col ->
  fits (len col) -> length raw = bitCount8 (length col) ->
  map (bitAt raw) (seq 0 (length col)) = map isPresent col ->
  reads_back (readFieldColumn (len col) field)
    (raw ++ concat (map valueBody (columnValues col))) (map isPresent col, columnValues col).
Proof.
  intros Hc Hl Hraw Hbits. unfold readFieldColumn.
  apply reads_back_bind with (a := map isPresent col).
  - apply reads_back_bind_nil with (a := raw); [|apply reads_back_make; [alloc_lia|alloc_lia|];
      rewrite <- Hbits; unfold len; rewrite Nat2Z.id; apply reads_back_ret].
    unfold len. rewrite byteCount_bitCount8, <- Hraw by alloc_lia. apply rawBytes_append.
  - apply reads_back_make; [alloc_lia|alloc_lia|]. rewrite present_count. eapply reads_back_bind_nil; [|apply reads_back_ret].
    apply reads_back_read_n. eapply Forall_impl; [exact Hc|]. intros v [Hv <-].
    by apply readValuePayload_body.
Qed.

Lemma mapM_readFieldColumn (n : Z) schema (cols : list column) (encs : list bytes) :
  Forall2 (fun field col => len col = n /\ column_ok (cfs_typ field) col) schema cols ->
  Forall2 (fun col enc => exists raw, enc = raw ++ concat (map valueBody (columnValues col))
     /\ length raw = bitCount8 (length col)
     /\ map (bitAt raw) (seq 0 (length col)) = map isPresent col) cols encs ->
  fits n ->
  reads_back (mapM (readFieldColumn n) schema) (concat encs)
    (map (fun col => (map isPresent col, columnValues col)) cols).
Proof.
  intros Hsc Hce Hn. revert encs Hce.
  induction Hsc as [|field col schema cols [Hlen Hok] Hsc IH]; intros encs Hce;
    inversion Hce as [|? enc ? encs' (raw & -> & Hraw & Hbits) Hce']; subst; simpl; [done|].
  eapply reads_back_bind; [by apply readFieldColumn_append|].
  eapply reads_back_bind_nil; [by apply IH|]. apply reads_back_ret.
Qed.

(** ** Assembling rows *)
Definition fieldAt (row : nat) (fc : columnarFieldSchema * column) : option ResolvedField :=
  match fc.2 !! row with
  | Some (Some v) => Some (mkResolvedField (cfs_fieldID fc.1) (cfs_name fc.1) (cfs_typ fc.1) v)
  | _ => None
  end.
Definition rowFields (schema : list columnarFieldSchema) (cols : list column) (row : nat)
    : list ResolvedField := omap (fieldAt row) (zip schema cols).
Definition cursorAt (row : nat) (col : column) : nat := length (columnValues (take row col)).

Lemma columnValues_lookup (col : column) row v : col !! row = Some (Some v) ->
  columnValues col !! cursorAt row col = Some v /\ cursorAt (S row) col = S (cursorAt row col).
Proof.
  intros H. unfold cursorAt, columnValues.
  assert (col = take row col ++ Some v :: drop (S row) col) as Hcol
    by (symmetry; by apply take_drop_middle).
  split.
  - assert (omap id col = omap id (take row col) ++ v :: omap id (drop (S row) col)) as ->
      by (rewrite Hcol at 1; by rewrite omap_app).
    by rewrite lookup_app_r, Nat.sub_diag by lia.
  - rewrite (take_S_r _ _ _ H), omap_app, length_app. simpl. lia.
Qed.
Lemma cursorAt_absent (col : column) row : col !! row = Some None ->
  cursorAt (S row) col = cursorAt row col.
Proof.
  intros H. unfold cursorAt, columnValues. rewrite (take_S_r _ _ _ H), omap_app, length_app. simpl. lia.
Qed.

Lemma assembleFields_spec row schema (cols : list column) n :
  Forall2 (fun _ col => length col = n) schema cols -> (row < n)%nat ->
  assembleFields row schema (map (fun col => (map isPresent col, columnValues col)) cols)
    (map (cursorAt row) cols)
  = Ok (rowFields schema cols row, map (cursorAt (S row)) cols).
Proof.
  intros HF Hrow. induction HF as [|field col schema cols Hlen HF IH]; simpl; [done|].
  destruct (lookup_lt_is_Some_2 col row ltac:(lia)) as [o Ho].
  rewrite (idx_lookup _ _ (isPresent o)) by (by rewrite list_lookup_fmap, Ho). simpl.
  destruct o as [v|]; simpl.
  - destruct (columnValues_lookup _ _ _ Ho) as [Hv Hc]. rewrite (idx_lookup _ _ _ Hv). simpl.
    rewrite IH. simpl. rewrite Hc. unfold rowFields. simpl. unfold fieldAt at 2. simpl. by rewrite Ho.
  - rewrite IH. simpl. rewrite cursorAt_absent by done.
    unfold rowFields. simpl. unfold fieldAt at 2. simpl. by rewrite Ho.
Qed.

(** The row decoded at position [row]. *)
Definition rowOf (identities : list batchIdentity) (identityRefs seriesIDs timestamps writeSeqs : list Z)
    (schema : list columnarFieldSchema) (cols : list column) (row : nat) : option ResolvedPoint :=
  ref ← identityRefs !! row;
  ident ← identities !! Z.to_nat ref;
  sid ← seriesIDs !! row;
  ts ← timestamps !! row;
  seq ← writeSeqs !! row;
  Some (mkResolvedPoint (bi_database ident) (bi_retentionPolicy ident) (bi_measurement ident)
          (bi_tags ident) sid ts seq (rowFields schema cols row)).

Lemma assembleRows_spec identities refs sids tss seqs schema (cols : list column) n records row :
  Forall2 (fun _ col => length col = n) schema cols ->
  Forall (fun ref => 0 <= ref) refs ->
  (row + length records = n)%nat -> fits (len schema) ->
  (forall i record, records !! i = Some record ->
     rowOf identities refs sids tss seqs schema cols (row + i) = Some record) ->
  assembleRows row (length records) identities refs sids tss seqs schema
    (map (fun col => (map isPresent col, columnValues col)) cols) (map (cursorAt row) cols)
  = Ok records.
Proof.
  intros HF Hrefs. revert row. induction records as [|record records IH]; intros row Hn Hfit Hrows; [done|].
  pose proof (Hrows 0%nat record eq_refl) as Hrow. rewrite Nat.add_0_r in Hrow. unfold rowOf in Hrow.
  destruct (refs !! row) as [ref|] eqn:Href; [simpl in Hrow|done].
  destruct (identities !! Z.to_nat ref) as [ident|] eqn:Hid; [simpl in Hrow|done].
  destruct (sids !! row) as [sid|] eqn:Hsid; [simpl in Hrow|done].
  destruct (tss !! row) as [ts|] eqn:Hts; [simpl in Hrow|done].
  destruct (seqs !! row) as [seq|] eqn:Hseq; [simpl in Hrow|done]. injection Hrow as <-.
  cbn [length assembleRows]. simpl in Hn. rewrite (idx_lookup _ _ _ Href). simpl.
  assert (idx identities ref = Ok ident) as ->.
  { rewrite <- (Z2Nat.id ref) by (by eapply (Forall_lookup_1 _ _ _ _ Hrefs)). by apply idx_lookup. }
  simpl. rewrite make_slice_ok by alloc_lia. simpl. rewrite (assembleFields_spec _ _ _ n) by (done || lia). simpl.
  rewrite (idx_lookup _ _ _ Hsid), (idx_lookup _ _ _ Hts), (idx_lookup _ _ _ Hseq). simpl.
  rewrite IH; [done|lia|done|]. intros i record' Hi. specialize (Hrows (S i) record' Hi).
  by replace (S row + i)%nat with (row + S i)%nat by lia.
Qed.

(** ** Decoding a whole payload laid out in the columnar order *)
Definition layout (ids : list batchIdentity) (schema : list columnarFieldSchema)
    (refs sids tss seqs : list Z) (encs : list bytes) : bytes :=
  appendColumnarIdentities ids ++ appendColumnarSchema schema ++ appendUvarint (len refs)
  ++ concat (map appendUvarint refs) ++ concat (map appendUvarint sids)
  ++ appendTimestampDeltas 0 0 tss ++ appendWriteSeqDeltas 0 0 seqs ++ concat encs.

Lemma layout_nonempty ids schema refs sids tss seqs encs :
  (len (layout ids schema refs sids tss seqs encs) =? 0) = false.
Proof.
  apply Z.eqb_neq. unfold layout, appendColumnarIdentities.
  pose proof (appendUvarint_pos (len ids)). unfold len in *. rewrite !length_app. lia.
Qed.

Lemma decodeBatch_layout ids schema refs sids tss seqs (cols : list column) encs records n :
  length records = n ->
  Forall identity_ok ids -> fits (len ids) ->
  Forall schema_ok schema -> fits (len schema) -> fits (Z.of_nat n) ->
  length refs = n -> length sids = n -> length tss = n -> length seqs = n ->
  Forall (fun ref => 0 <= ref < len ids) refs -> Forall is_u64 sids -> Forall is_i64 tss ->
  Forall (fun s => 0 <= s < 2 ^ 64 - 1) seqs ->
  Forall2 (fun field col => length col = n /\ column_ok (cfs_typ field) col) schema cols ->
  Forall2 (fun col enc => exists raw, enc = raw ++ concat (map valueBody (columnValues col))
     /\ length raw = bitCount8 (length col)
     /\ map (bitAt raw) (seq 0 (length col)) = map isPresent col) cols encs ->
  (forall i record, records !! i = Some record ->
     rowOf ids refs sids tss seqs schema cols i = Some record) ->
  decodeBatch (layout ids schema refs sids tss seqs encs) = Ok records.
Proof.
  intros Hrec Hids Hidl Hsch Hschl Hn Hrefs Hsids Htss Hseqs Hr Hs Ht Hq Hsc Hce Hrows.
  unfold decodeBatch. rewrite layout_nonempty.
  assert (decodeBatchReader (layout ids schema refs sids tss seqs encs) = Ok (records, [])) as HR;
    [|by rewrite HR].
  unfold decodeBatchReader, layout.
  eapply run_bind; [by apply readBatchIdentities_append|].
  eapply run_bind; [by apply readColumnarSchema_append|].
  eapply run_bind; [apply rd_intCount_append; alloc_lia|].
  apply run_make; [alloc_lia|alloc_lia|].
  assert (Z.to_nat (len refs) = n) as -> by (unfold len; lia).
  eapply run_bind.
  { rewrite <- Hrefs. apply reads_back_read_n. eapply Forall_impl; [exact Hr|]. intros ref Href.
    eapply reads_back_bind_nil; [apply rd_intCount_append; alloc_lia|].
    assert ((len ids <=? ref) = false) as -> by zb. apply reads_back_ret. }
  apply run_make; [alloc_lia|alloc_lia|]. eapply run_bind.
  { rewrite <- Hsids. apply reads_back_read_n. eapply Forall_impl; [exact Hs|].
    intros; by apply rd_uvarint_append. }
  assert (len refs = len tss /\ len refs = len seqs) as [Htl Hql] by (unfold len; lia).
  eapply run_bind; [rewrite Htl; apply readDeltaVarints_append; [done|alloc_lia]|].
  eapply run_bind; [rewrite Hql; apply readDeltaUvarints_append; [done|alloc_lia]|].
  apply run_make; [alloc_lia|alloc_lia|]. eapply run_bind_nil.
  { eapply mapM_readFieldColumn; [|exact Hce|alloc_lia].
    eapply Forall2_impl; [exact Hsc|]. intros ?? [??]. split; [unfold len in *; lia|done]. }
  match goal with |- (BatchReader.done _ ≫= ?k) [] = ?r => change (k tt [] = r) end.
  do 2 (apply run_make; [alloc_lia|alloc_lia|]). unfold lift.
  assert (replicate (length schema) 0%nat = map (cursorAt 0) cols) as ->.
  { rewrite (Forall2_length _ _ _ Hsc). clear. induction cols; simpl; [done|by f_equal]. }
  subst n. rewrite (assembleRows_spec _ _ _ _ _ _ _ (length records)); try done.
  - eapply Forall2_impl; [exact Hsc|]. by intros ?? [??].
  - eapply Forall_impl; [exact Hr|]. simpl; lia.
Qed.

(** ** Identity table: every record is referred to its own identity *)
Lemma identityMatches_eq point ident : tags_ok (rp_Tags point) ->
  identityMatches point ident = true -> ident = newBatchIdentity point.
Proof.
  intros [Hok _] H. unfold identityMatches in H. rewrite !andb_true_iff, !bool_decide_eq_true in H.
  destruct H as [[[[H1 H2] H3] H4] H5]. destruct ident as [db rp ms tags]. simpl in *.
  unfold newBatchIdentity. f_equal; try done.
  rewrite forallb_forall in H5. symmetry. apply map_subseteq_size_eq; [|by rewrite H4].
  apply map_subseteq_spec. intros k v Hkv. destruct (Hok _ _ Hkv) as (_ & _ & Hv).
  specialize (H5 (k, v)). simpl in H5. rewrite bool_decide_eq_true in H5.
  assert (default [] (tags !! k) = v) as E.
  { apply H5, list_elem_of_In. by apply elem_of_map_to_list. }
  destruct (tags !! k) as [v'|]; simpl in E; congruence.
Qed.

Lemma sri_lookup_set i sid ref sid' r : 0 <= ref ->
  sri_lookup (sri_setIfAbsent i sid ref) sid' = Some r -> (r = ref /\ sid' = sid) \/ sri_lookup i sid' = Some r.
Proof.
  intros Href. unfold sri_setIfAbsent. destruct (0 <? len (sri_dense i)) eqn:Hd.
  - destruct (denseMiss i sid) eqn:Hm; [by right|].
    destruct (default 0 (sri_dense i !! Z.to_nat (sid - sri_base i)) =? 0) eqn:H0; [|by right].
    unfold sri_lookup, denseMiss, len. simpl. rewrite length_insert.
    fold (len (sri_dense i)). rewrite Hd. unfold denseMiss in Hm. apply orb_false_iff in Hm as [Hm%Z.ltb_ge _].
    destruct (sid' <? sri_base i) eqn:Hm'; [done|]. apply Z.ltb_ge in Hm'. case_match; [done|].
    destruct (decide (Z.to_nat (sid - sri_base i) = Z.to_nat (sid' - sri_base i))) as [E|E].
    + rewrite E. destruct (decide (Z.to_nat (sid' - sri_base i) < length (sri_dense i))%nat).
      * rewrite list_lookup_insert_eq by done. simpl. case_match; [done|]. intros [= <-]. left. split; lia.
      * rewrite list_insert_ge by lia. by right.
    + rewrite list_lookup_insert_ne by done. by right.
  - destruct (sri_sparse i) as [m|] eqn:Hs; [|by right].
    destruct (m !! sid) eqn:Hm; [by right|].
    unfold sri_lookup. simpl. rewrite Hd, Hs. simpl.
    destruct (decide (sid = sid')) as [->|Hne].
    + rewrite lookup_insert_eq. intros [= <-]. left. done.
    + rewrite lookup_insert_ne by done. by right.
Qed.

Record ident_inv (st : identState) : Prop := {
  inv_ids : Forall identity_ok (is_identities st);
  inv_series : forall sid ref, sri_lookup (is_seenSeries st) sid = Some ref ->
    0 <= ref < len (is_identities st);
  inv_keys : forall key ref, is_seenIdentity st !! key = Some ref ->
    0 <= ref /\ exists ident, is_identities st !! Z.to_nat ref = Some ident
                              /\ appendIdentity ident = key;
}.

(** The table only grows at the end, and the reference points at the record's identity. *)
Definition ident_post (st st' : identState) (record : ResolvedPoint) (ref : Z) : Prop :=
  ident_inv st' /\ (exists more, is_identities st' = is_identities st ++ more /\ (length more <= 1)%nat)
  /\ 0 <= ref /\ is_identities st' !! Z.to_nat ref = Some (newBatchIdentity record).

Lemma lookup_len_snoc {A} (l : list A) x : (l ++ [x]) !! Z.to_nat (len l) = Some x.
Proof. unfold len. rewrite Nat2Z.id. by apply list_lookup_middle. Qed.

Lemma ident_inv_snoc st record series keys :
  ident_inv st -> identity_ok (newBatchIdentity record) ->
  (forall sid ref, sri_lookup series sid = Some ref ->
     ref = len (is_identities st) \/ sri_lookup (is_seenSeries st) sid = Some ref) ->
  (forall key ref, keys !! key = Some ref ->
     (ref = len (is_identities st) /\ key = identityKeyWithScratch record)
     \/ is_seenIdentity st !! key = Some ref) ->
  ident_post st (mkIdentState (is_identities st ++ [newBatchIdentity record]) series keys)
    record (len (is_identities st)).
Proof.
  intros [Hids Hser Hkeys] Hok Hs Hk. split_and!.
  - split; simpl.
    + apply Forall_app_2; [done|by constructor].
    + intros sid ref Hl. unfold len in *. rewrite length_app. simpl.
      destruct (Hs _ _ Hl) as [->|Hold]; [lia|]. specialize (Hser _ _ Hold). lia.
    + intros key ref Hl. destruct (Hk _ _ Hl) as [[-> ->]|Hold].
      * split; [unfold len; lia|]. exists (newBatchIdentity record). by rewrite lookup_len_snoc.
      * destruct (Hkeys _ _ Hold) as (? & ident & Hi & ?). split; [done|]. exists ident.
        by rewrite (lookup_app_l_Some _ _ _ _ Hi).
  - exists [newBatchIdentity record]. simpl. split; [done|lia].
  - unfold len. lia.
  - apply lookup_len_snoc.
Qed.

Lemma ident_post_refl st record ref : ident_inv st -> 0 <= ref ->
  is_identities st !! Z.to_nat ref = Some (newBatchIdentity record) -> ident_post st st record ref.
Proof. intros. split_and!; try done. exists []. rewrite app_nil_r. split; [done|simpl; lia]. Qed.

Lemma identityByKey_spec st record : ident_inv st -> identity_ok (newBatchIdentity record) ->
  let '(st', ref) := identityByKey st record in ident_post st st' record ref.
Proof.
  intros Hinv Hok. unfold identityByKey, identityRefByKey.
  destruct (is_seenIdentity st !! identityKeyWithScratch record) as [ref|] eqn:Hl.
  - destruct (inv_keys _ Hinv _ _ Hl) as (H0 & ident & Hi & He).
    assert (ident = newBatchIdentity record) as ->.
    { apply appendIdentity_inj; [by eapply (Forall_lookup_1 _ _ _ _ (inv_ids _ Hinv))|done|done]. }
    pose proof (lookup_lt_Some _ _ _ Hi) as Hlt.
    assert ((ref =? len (is_identities st)) = false) as -> by zb.
    split_and!; [|exists []; rewrite app_nil_r; simpl; split; [done|lia]|done|done].
    destruct Hinv as [? Hser ?].
    split; simpl in *; try done. intros sid r Hr. destruct (negb _); [|by eapply Hser].
    apply sri_lookup_set in Hr as [[-> _]|Hr]; [unfold len; lia|by eapply Hser|done].
  - rewrite Z.eqb_refl. apply ident_inv_snoc; simpl; try done.
    + intros sid r Hr. destruct (negb _); [|by right].
      apply sri_lookup_set in Hr as [[? _]|?]; [by left|by right|unfold len; lia].
    + intros key r. destruct (decide (identityKeyWithScratch record = key)) as [<-|Hne].
      * rewrite lookup_insert_eq. intros [= <-]. by left.
      * rewrite lookup_insert_ne by done. by right.
Qed.

Lemma batchIdentityStep_spec st record : ident_inv st -> identity_ok (newBatchIdentity record) ->
  let '(st', ref) := batchIdentityStep st record in ident_post st st' record ref.
Proof.
  intros Hinv Hok. unfold batchIdentityStep.
  assert (tags_ok (rp_Tags record)) as Htags by apply Hok.
  pose proof (identityByKey_spec st record Hinv Hok) as Hkey.
  destruct (lastIdentityRef record (is_identities st)) as [ref|] eqn:Hlast.
  { unfold lastIdentityRef in Hlast. destruct (last _) as [known|] eqn:Hk; [|done].
    destruct (identityMatches record known) eqn:Hm; [|done]. injection Hlast as <-.
    apply identityMatches_eq in Hm as ->; [|done]. rewrite last_lookup in Hk.
    pose proof (lookup_lt_Some _ _ _ Hk). apply ident_post_refl; [done|unfold len; lia|].
    by replace (Z.to_nat (len (is_identities st) - 1)) with (Nat.pred (length (is_identities st)))
      by (unfold len; lia). }
  destruct (negb (rp_SeriesID record =? 0)); [|done].
  destruct (sri_lookup (is_seenSeries st) (rp_SeriesID record)) as [ref|] eqn:Hl.
  - destruct (is_identities st !! Z.to_nat ref) as [known|] eqn:Hi; [|done].
    destruct (identityMatches record known) eqn:Hm; [|done].
    apply identityMatches_eq in Hm as ->; [|done].
    apply ident_post_refl; [done|by eapply inv_series|done].
  - apply ident_inv_snoc; try done; [|by right].
    intros sid r Hr. apply sri_lookup_set in Hr as [[? _]|?]; [by left|by right|unfold len; lia].
Qed.

Lemma batchIdentitiesLoop_spec st records : ident_inv st ->
  Forall (fun r => identity_ok (newBatchIdentity r)) records ->
  let '(ids, refs) := batchIdentitiesLoop st records in
  Forall identity_ok ids
  /\ (exists more, ids = is_identities st ++ more /\ (length more <= length records)%nat)
  /\ Forall2 (fun r ref => 0 <= ref /\ ids !! Z.to_nat ref = Some (newBatchIdentity r)) records refs.
Proof.
  intros Hinv Hall. revert st Hinv.
  induction Hall as [|r records Hr Hall IH]; intros st Hinv; simpl.
  { split_and!; [apply Hinv|exists []; rewrite app_nil_r; simpl; split; [done|lia]|constructor]. }
  pose proof (batchIdentityStep_spec st r Hinv Hr) as Hstep.
  destruct (batchIdentityStep st r) as [st' ref]. destruct Hstep as (Hinv' & (m1 & E1 & L1) & H0 & Href).
  specialize (IH st' Hinv'). destruct (batchIdentitiesLoop st' records) as [ids refs].
  destruct IH as (Hids & (m2 & E2 & L2) & HF). split_and!; [done| |].
  - exists (m1 ++ m2). rewrite E2, E1, length_app, (assoc_L (++)). split; [done|lia].
  - constructor; [|done]. split; [done|]. rewrite E2. by apply lookup_app_l_Some.
Qed.

Lemma newRefIndex_empty ids sid : sri_lookup (newRefIndex ids) sid = None.
Proof.
  unfold newRefIndex. destruct (seriesIDRangeLoop ids 0 0 false) as [[minID maxID] ok].
  destruct ok; simpl; [|done]. destruct (_ <=? _); unfold sri_lookup; simpl.
  - case_match; [|done]. case_match; [done|].
    destruct (replicate _ 0 !! _) as [z|] eqn:E; simpl; [|done].
    by apply lookup_replicate in E as [-> _].
  - by rewrite lookup_empty.
Qed.

Lemma batchIdentities_spec records : Forall (fun r => identity_ok (newBatchIdentity r)) records ->
  let '(ids, refs) := batchIdentities records in
  Forall identity_ok ids /\ (length ids <= length records)%nat
  /\ Forall2 (fun r ref => 0 <= ref /\ ids !! Z.to_nat ref = Some (newBatchIdentity r)) records refs.
Proof.
  intros Hall. unfold batchIdentities.
  assert (ident_inv (mkIdentState [] (newRefIndex (map rp_SeriesID records)) ∅)) as Hinv.
  { split; simpl; [constructor| |].
    - intros sid ref. by rewrite newRefIndex_empty.
    - intros key ref. by rewrite lookup_empty. }
  pose proof (batchIdentitiesLoop_spec _ _ Hinv Hall) as H.
  destruct (batchIdentitiesLoop _ _) as [ids refs]. destruct H as (? & (m & -> & ?) & ?).
  split_and!; done.
Qed.

(** ** The schema of a batch *)
#[export] Instance schema_le_total : Total schema_le.
Proof.
  intros a b. unfold schema_le, schema_lt.
  zcase (cfs_fieldID b =? cfs_fieldID a); zcase (cfs_fieldID a =? cfs_fieldID b); simpl; try lia.
  - destruct (decide (cfs_name a = cfs_name b)) as [->|Hn].
    + rewrite !bool_decide_true by done. simpl. rewrite !Z.ltb_ge. lia.
    + rewrite !bool_decide_false by done. simpl. apply bytes_le_total.
Qed.
Lemma schema_le_iff a b : schema_le a b <->
  cfs_fieldID a < cfs_fieldID b
  \/ (cfs_fieldID a = cfs_fieldID b
      /\ (bytes_lt (cfs_name a) (cfs_name b)
          \/ (cfs_name a = cfs_name b /\ cfs_typ a <= cfs_typ b))).
Proof.
  unfold schema_le, schema_lt, bytes_lt.
  zcase (cfs_fieldID b =? cfs_fieldID a); simpl; [|rewrite Z.ltb_ge; lia].
  case_bool_decide as Hn; simpl.
  - rewrite Hn, bytes_ltb_irrefl, Z.ltb_ge. naive_solver lia.
  - split.
    + intros Hlt. right. split; [done|left]. destruct (bytes_ltb (cfs_name a) (cfs_name b)) eqn:Hab; [done|].
      by rewrite (bytes_ltb_tricho _ _ Hab Hlt) in Hn.
    + intros [?|[_ [Hlt|[? _]]]]; [lia|by apply bytes_ltb_asym|congruence].
Qed.
#[export] Instance schema_le_trans : Transitive schema_le.
Proof.
  intros a b c. rewrite !schema_le_iff.
  intros [?|[E1 [N1|[N1 T1]]]] [?|[E2 [N2|[N2 T2]]]]; try (left; lia); right; (split; [lia|]).
  - left. by eapply bytes_lt_trans.
  - left. by rewrite <- N2.
  - left. by rewrite N1.
  - right. split; [congruence|lia].
Qed.

Lemma collectFields_ok fields schema : Forall field_ok fields -> NoDup schema ->
  exists schema', collectFields fields schema = Ok schema' /\ NoDup schema'
    /\ (forall k, k ∈ schema' <-> k ∈ schema \/ k ∈ map fieldKeyOf fields)
    /\ (length schema' <= length schema + length fields)%nat.
Proof.
  intros Hok. revert schema. induction Hok as [|f fields Hf Hok IH]; intros schema Hnd; simpl.
  { exists schema. split_and!; [done|done|set_solver|lia]. }
  destruct Hf as (_ & _ & _ & Ht). rewrite Ht, Z.eqb_refl. simpl. case_bool_decide as Hin.
  - destruct (IH schema Hnd) as (s' & -> & ? & Hel & ?). exists s'. split_and!; [done|done| |lia].
    intros k. rewrite Hel. set_solver.
  - destruct (IH (schema ++ [fieldKeyOf f])) as (s' & -> & ? & Hel & Hl).
    { apply NoDup_app. split_and!; [done|set_solver|apply NoDup_singleton]. }
    exists s'. split_and!; [done|done| |rewrite length_app in Hl; simpl in Hl; lia].
    intros k. rewrite Hel. set_solver.
Qed.
Lemma collectSchema_ok records schema : Forall (fun r => Forall field_ok (rp_Fields r)) records ->
  NoDup schema ->
  exists schema', collectSchema records schema = Ok schema' /\ NoDup schema'
    /\ (forall k, k ∈ schema' <-> k ∈ schema \/ exists r, r ∈ records /\ k ∈ map fieldKeyOf (rp_Fields r))
    /\ (length schema' <= length schema + length (concat (map rp_Fields records)))%nat.
Proof.
  intros Hok. revert schema. induction Hok as [|r records Hr Hok IH]; intros schema Hnd; simpl.
  { exists schema. split_and!; [done|done|set_solver|lia]. }
  destruct (collectFields_ok _ _ Hr Hnd) as (s1 & -> & Hnd1 & Hel1 & Hl1). simpl.
  destruct (IH s1 Hnd1) as (s2 & -> & Hnd2 & Hel2 & Hl2). exists s2. rewrite length_app.
  split_and!; [done|done| |lia]. intros k. rewrite Hel2, Hel1. set_solver.
Qed.
Lemma buildPointFieldSchema_ok records : Forall (fun r => Forall field_ok (rp_Fields r)) records ->
  exists schema, buildPointFieldSchema records = Ok schema /\ NoDup schema
    /\ StronglySorted schema_le schema
    /\ (forall k, k ∈ schema <-> exists r, r ∈ records /\ k ∈ map fieldKeyOf (rp_Fields r))
    /\ (length schema <= length (concat (map rp_Fields records)))%nat
    /\ Forall schema_ok schema.
Proof.
  intros Hok. destruct (collectSchema_ok records [] Hok ltac:(constructor)) as (s & Hs & Hnd & Hel & Hl).
  unfold buildPointFieldSchema. rewrite Hs. simpl. exists (merge_sort schema_le s).
  pose proof (merge_sort_Permutation schema_le s) as Hp.
  assert (forall k, k ∈ merge_sort schema_le s <-> exists r, r ∈ records /\ k ∈ map fieldKeyOf (rp_Fields r))
    as Hel' by (intros k; rewrite Hp, Hel; set_solver).
  split_and!; [done|by rewrite Hp|apply (StronglySorted_merge_sort schema_le); apply _|done|rewrite Hp; simpl in Hl; lia|].
  apply Forall_forall. intros k (r & Hr & Hk)%Hel'. apply list_elem_of_fmap in Hk as (f & -> & Hf).
  rewrite Forall_forall in Hok. specialize (Hok r Hr). rewrite Forall_forall in Hok.
  destruct (Hok f Hf) as (Hid & Hname & Hv & Ht). split_and!; simpl; [done|done|].
  rewrite Ht. destruct (value_ok_type _ Hv) as [->|[->|[->| ->]]]; unfold is_byte; done.
Qed.

(** ** Columns of a point batch *)
Definition pointColumn (records : list ResolvedPoint) (field : columnarFieldSchema) : column :=
  map (fun r => lookupPointField r field) records.

(** The catalog resolves the fields of a point in strictly increasing name order. *)
Definition fields_sorted (r : ResolvedPoint) : Prop :=
  StronglySorted bytes_lt (map rf_FieldName (rp_Fields r)).

Lemma lookupPointField_Some r field v : lookupPointField r field = Some v ->
  exists f, f ∈ rp_Fields r /\ fieldKeyOf f = field /\ rf_Value f = v.
Proof.
  unfold lookupPointField. intros H. apply bind_Some in H as ([i f] & Hf & [= <-]).
  apply list_find_Some in Hf as (Hi & Hk & _). exists f. split; [by eapply list_elem_of_lookup_2|done].
Qed.
Lemma lookupPointField_elem r f : NoDup (map fieldKeyOf (rp_Fields r)) -> f ∈ rp_Fields r ->
  lookupPointField r (fieldKeyOf f) = Some (rf_Value f).
Proof.
  intros Hnd Hf. unfold lookupPointField.
  destruct (list_find (fun item => fieldKeyOf item = fieldKeyOf f) (rp_Fields r)) as [[i g]|] eqn:E; simpl.
  - apply list_find_Some in E as (Hi & Hk & _). apply list_elem_of_lookup in Hf as [j Hj].
    assert (i = j) as ->.
    { eapply NoDup_lookup; [exact Hnd| |]; rewrite list_lookup_fmap.
      - by rewrite Hi.
      - rewrite Hj. simpl. by rewrite Hk. }
    congruence.
  - apply list_find_None in E. rewrite Forall_forall in E. by destruct (E f Hf).
Qed.

Lemma pointColumn_ok records field : Forall (fun r => Forall field_ok (rp_Fields r)) records ->
  column_ok (cfs_typ field) (pointColumn records field).
Proof.
  intros Hok. apply Forall_forall. intros v Hv. unfold columnValues in Hv.
  apply list_elem_of_omap in Hv as (o & Ho & Hov). unfold id in Hov. subst o.
  apply list_elem_of_fmap in Ho as (r & Hr & Hin). symmetry in Hr.
  apply lookupPointField_Some in Hr as (f & Hf & Hk & Hv). rewrite Forall_forall in Hok.
  specialize (Hok r Hin). rewrite Forall_forall in Hok. destruct (Hok f Hf) as (_ & _ & Hvok & Ht).
  subst. simpl. by rewrite Ht.
Qed.

Lemma appendValuePayload_body v : value_ok v -> appendValuePayload v = Ok (valueBody v).
Proof. by destruct 1. Qed.

Lemma pointFieldColumnLoop_spec records field row bits :
  column_ok (cfs_typ field) (pointColumn records field) ->
  pointFieldColumnLoop records field row bits
  = Ok (appendBoolBitsLoop (map isPresent (pointColumn records field)) row bits,
        concat (map valueBody (columnValues (pointColumn records field)))).
Proof.
  revert row bits. induction records as [|r records IH]; intros row bits Hok; [done|].
  unfold pointColumn in *. simpl in *. unfold column_ok, columnValues in Hok. simpl in Hok.
  destruct (lookupPointField r field) as [v|]; simpl in *; [|by apply IH].
  inversion_clear Hok as [|?? [Hv _] Hok']. rewrite appendValuePayload_body by done. simpl.
  by rewrite IH.
Qed.
Lemma appendPointFieldColumn_spec records field :
  column_ok (cfs_typ field) (pointColumn records field) ->
  appendPointFieldColumn records field = Ok (columnBytes (pointColumn records field)).
Proof.
  intros Hok. unfold appendPointFieldColumn. rewrite pointFieldColumnLoop_spec by done. simpl.
  unfold columnBytes, AppendBoolBits, pointColumn. by rewrite !length_map.
Qed.
Lemma mapM_ok {A B} (f : A -> outcome B) (g : A -> B) (l : list A) :
  Forall (fun a => f a = Ok (g a)) l -> mapM f l = Ok (map g l).
Proof. induction 1 as [|a l Ha Hl IH]; simpl; [done|]. by rewrite Ha, IH. Qed.
Lemma mapM_inv {A B} (f : A -> outcome B) (l : list A) bs : mapM f l = Ok bs ->
  Forall2 (fun a b => f a = Ok b) l bs.
Proof.
  revert bs. induction l as [|a l IH]; intros bs H; simpl in H; [injection H as <-; constructor|].
  destruct (f a) as [b| |] eqn:Hb; [simpl in H|done|done].
  destruct (mapM f l) as [bs'| |] eqn:Hm; [simpl in H|done|done]. injection H as <-.
  constructor; [done|by apply IH].
Qed.

Lemma columnBytes_raw (col : column) : exists raw,
  columnBytes col = raw ++ concat (map valueBody (columnValues col))
  /\ length raw = bitCount8 (length col)
  /\ map (bitAt raw) (seq 0 (length col)) = map isPresent col.
Proof.
  exists (AppendBoolBits (map isPresent col)). split; [done|]. split.
  - by rewrite AppendBoolBits_length, length_map.
  - pose proof (map_bitAt_AppendBoolBits (map isPresent col) []) as H.
    by rewrite app_nil_r, length_map in H.
Qed.

(** The dense bitmap has all its row bits set. *)
Lemma densePresence_length n : length (densePresence n) = bitCount8 n.
Proof. unfold densePresence. case_match; rewrite ?length_insert; apply length_replicate. Qed.
Lemma testbit_ff k : 0 <= k < 8 -> Z.testbit 0xff k = true.
Proof. intros. exact (Z.ones_spec_low 8 k ltac:(lia)). Qed.
Lemma bitAt_densePresence n i : (i < n)%nat -> bitAt (densePresence n) i = true.
Proof.
  intros Hi. rewrite bitAt_testbit. unfold densePresence.
  pose proof (bitCount8_lt i n Hi) as Hb. pose proof (Nat.mod_upper_bound i 8 ltac:(lia)).
  destruct (negb _ && _) eqn:Hrem.
  - apply andb_true_iff in Hrem as [Hrem _]. apply negb_true_iff, Nat.eqb_neq in Hrem.
    destruct (decide ((i / 8 = bitCount8 n - 1)%nat)) as [E|E].
    + rewrite <- E, list_lookup_insert_eq by (rewrite length_replicate; lia). simpl.
      assert (i mod 8 < n mod 8)%nat.
      { unfold bitCount8 in E. pose proof (Nat.div_mod_eq i 8). pose proof (Nat.div_mod_eq n 8).
        pose proof (Nat.div_mod_eq (n + 7) 8). pose proof (Nat.mod_upper_bound (n + 7) 8).
        pose proof (Nat.mod_upper_bound n 8). lia. }
      pose proof (Nat.mod_upper_bound n 8 ltac:(lia)).
      unfold u8. rewrite Z.mod_pow2_bits_low by lia. rewrite Z.shiftl_1_l, Z.sub_1_r, <- Z.ones_equiv.
      apply Z.ones_spec_low. lia.
    + rewrite list_lookup_insert_ne by done. rewrite lookup_replicate_2 by done. apply testbit_ff. lia.
  - rewrite lookup_replicate_2 by done. apply testbit_ff. lia.
Qed.
Lemma map_bitAt_dense n : map (bitAt (densePresence n)) (seq 0 n) = replicate n true.
Proof.
  apply list_eq. intros i. rewrite list_lookup_fmap. destruct (decide (i < n)%nat).
  - rewrite lookup_seq_lt, lookup_replicate_2 by done. simpl. by rewrite bitAt_densePresence.
  - rewrite lookup_seq_ge by lia. symmetry. apply lookup_ge_None. rewrite length_replicate. lia.
Qed.

(** ** The dense path: every record lists exactly the schema *)
Definition name_lt (a b : columnarFieldSchema) : Prop := bytes_lt (cfs_name a) (cfs_name b).
#[export] Instance name_lt_antisymm : AntiSymm (=) name_lt.
Proof. intros a b H1 H2. apply bytes_ltb_asym in H1. unfold name_lt, bytes_lt in H2. congruence. Qed.

Lemma fields_sorted_keys r : fields_sorted r -> StronglySorted name_lt (map fieldKeyOf (rp_Fields r)).
Proof.
  unfold fields_sorted. induction (rp_Fields r) as [|f fs IH]; simpl; intros H; [constructor|].
  inversion_clear H as [|?? Hs Hall]. constructor; [by apply IH|].
  rewrite Forall_forall in Hall. apply Forall_forall. intros k (g & -> & Hg)%list_elem_of_fmap.
  apply (Hall (rf_FieldName g)), list_elem_of_fmap. by exists g.
Qed.
Lemma StronglySorted_name_NoDup l : StronglySorted name_lt l -> NoDup l.
Proof.
  induction 1 as [|k l Hs IH Hall]; constructor; [|done]. intros Hin.
  rewrite Forall_forall in Hall. specialize (Hall _ Hin). unfold name_lt, bytes_lt in Hall.
  by rewrite bytes_ltb_irrefl in Hall.
Qed.
Lemma dense_keys schema r0 r : map fieldKeyOf (rp_Fields r0) = schema ->
  fields_sorted r0 -> fields_sorted r ->
  (forall k, k ∈ map fieldKeyOf (rp_Fields r) -> k ∈ schema) ->
  (length schema <= length (rp_Fields r))%nat ->
  map fieldKeyOf (rp_Fields r) = schema.
Proof.
  intros <- H0%fields_sorted_keys Hr%fields_sorted_keys Hsub Hlen.
  apply (StronglySorted_unique name_lt); try done.
  apply submseteq_length_Permutation; [|by rewrite !length_map in *].
  apply NoDup_submseteq; [by apply StronglySorted_name_NoDup|done].
Qed.

Lemma denseFieldColumn_inv records i enc : denseFieldColumn records i = Ok enc ->
  Forall (fun r => is_Some (rp_Fields r !! i)) records.
Proof.
  unfold denseFieldColumn. intros H. destruct (mapM _ records) as [vs| |] eqn:Hm; [|done|done].
  apply mapM_inv in Hm. clear H. induction Hm as [|r v records vs Hr Hm IH]; constructor; [|done].
  destruct (rp_Fields r !! i) eqn:E; [by eexists|done].
Qed.
Lemma denseFieldColumn_spec records i field :
  Forall (fun r => exists f, rp_Fields r !! i = Some f /\ lookupPointField r field = Some (rf_Value f)
            /\ value_ok (rf_Value f)) records ->
  denseFieldColumn records i
  = Ok (densePresence (length records) ++ concat (map valueBody (columnValues (pointColumn records field))))
  /\ map isPresent (pointColumn records field) = replicate (length records) true.
Proof.
  intros H. unfold denseFieldColumn.
  assert (mapM (fun record => match rp_Fields record !! i with
     | None => Err (Errorf "dense field index out of range")
     | Some field0 => appendValuePayload (rf_Value field0) end) records
     = Ok (map valueBody (columnValues (pointColumn records field)))
     /\ map isPresent (pointColumn records field) = replicate (length records) true) as [-> ?]; [|done].
  induction H as [|r records (f & Hf & Hl & Hv) H [IH1 IH2]]; [done|].
  unfold pointColumn, columnValues in *. simpl. rewrite Hf, Hl, appendValuePayload_body by done.
  rewrite IH1, IH2. done.
Qed.

(** What the field columns of a batch decode to, on both encoder paths. *)
Lemma appendPointFieldColumns_spec records schema fields :
  Forall (fun r => Forall field_ok (rp_Fields r)) records -> Forall fields_sorted records ->
  (forall r k, r ∈ records -> k ∈ map fieldKeyOf (rp_Fields r) -> k ∈ schema) ->
  appendPointFieldColumns records schema = Ok fields ->
  exists encs, fields = concat encs /\
    Forall2 (fun col enc => exists raw, enc = raw ++ concat (map valueBody (columnValues col))
      /\ length raw = bitCount8 (length col)
      /\ map (bitAt raw) (seq 0 (length col)) = map isPresent col)
    (map (pointColumn records) schema) encs.
Proof.
  intros Hok Hsorted Hsub. unfold appendPointFieldColumns. case_bool_decide as Hempty.
  { intros [= <-]. exists []. by rewrite Hempty. }
  destruct (pointFieldsMatchSchema records schema) eqn:Hmatch.
  - unfold appendPointFieldColumnsDense. intros H.
    destruct (mapM _ _) as [encs| |] eqn:Hm; [injection H as <-|done|done].
    exists encs. split; [done|]. apply mapM_inv in Hm.
    assert (Forall (fun r => map fieldKeyOf (rp_Fields r) = schema) records) as Hkeys.
    { destruct records as [|r0 records']; [constructor|].
      unfold pointFieldsMatchSchema in Hmatch. rewrite bool_decide_false in Hmatch by done.
      simpl in Hmatch. apply andb_true_iff in Hmatch as [H0 _].
      apply andb_true_iff in H0 as [_ H0]. apply bool_decide_eq_true in H0.
      assert (Forall (fun r => is_Some (rp_Fields r !! Nat.pred (length schema))) (r0 :: records')) as Hlast.
      { destruct (Forall2_lookup_l _ _ _ (Nat.pred (length schema)) (Nat.pred (length schema)) Hm)
          as (enc & _ & Henc).
        - apply (lookup_seq_lt 0). destruct schema; [done|simpl; lia].
        - by apply denseFieldColumn_inv in Henc. }
      apply Forall_forall. intros r Hr. rewrite Forall_forall in Hsorted, Hlast.
      apply (dense_keys schema r0); [done|apply Hsorted; by left|by apply Hsorted|by eauto|].
      destruct (Hlast r Hr) as [f Hf%lookup_lt_Some]. lia. }
    apply Forall2_fmap_l. apply Forall2_same_length_lookup_2.
    { rewrite <- (Forall2_length _ _ _ Hm). by rewrite length_seq. }
    intros i field enc Hfield Henc.
    destruct (Forall2_lookup_r _ _ _ _ _ Hm Henc) as (j & Hj & Hdense).
    apply lookup_seq in Hj as [-> _]. simpl in Hdense.
    destruct (denseFieldColumn_spec records i field) as [Hspec Hpres].
    { apply Forall_forall. intros r Hr. rewrite Forall_forall in Hkeys, Hok, Hsorted.
      specialize (Hkeys r Hr). rewrite <- Hkeys, list_lookup_fmap in Hfield.
      destruct (rp_Fields r !! i) as [f|] eqn:Hf; [|done]. injection Hfield as <-.
      pose proof (list_elem_of_lookup_2 _ _ _ Hf) as Hin. exists f. split_and!; [done| |].
      - apply lookupPointField_elem; [|done]. by apply StronglySorted_name_NoDup, fields_sorted_keys, Hsorted.
      - specialize (Hok r Hr). rewrite Forall_forall in Hok. by destruct (Hok f Hin) as (_ & _ & ? & _). }
    rewrite Hspec in Hdense. injection Hdense as <-.
    assert (length (pointColumn records field) = length records) as Hlen by apply length_map.
    exists (densePresence (length records)). rewrite densePresence_length, Hlen, map_bitAt_dense.
    by rewrite Hpres.
  - intros H. destruct (mapM _ _) as [encs| |] eqn:Hm; [injection H as <-|done|done].
    exists encs. split; [done|]. apply mapM_inv in Hm. apply Forall2_fmap_l.
    eapply Forall2_impl; [exact Hm|]. intros field enc Henc. simpl in Henc.
    rewrite appendPointFieldColumn_spec in Henc by (by apply pointColumn_ok). injection Henc as <-.
    apply columnBytes_raw.
Qed.

(** ** Round trip of a point batch *)
(** [r'] is [r] with its fields listed in schema order (id, name, type). *)
Definition same_point (r r' : ResolvedPoint) : Prop :=
  r' = mkResolvedPoint (rp_Database r) (rp_RetentionPolicy r) (rp_Measurement r) (rp_Tags r)
         (rp_SeriesID r) (rp_Timestamp r) (rp_WriteSeq r) (rp_Fields r')
  /\ rp_Fields r' ≡ₚ rp_Fields r
  /\ StronglySorted schema_le (map fieldKeyOf (rp_Fields r')).

(** The slices of the batch can be allocated. *)
Definition batch_fits (records : list ResolvedPoint) : Prop :=
  fits (len records) /\ fits (len (concat (map rp_Fields records))).

Definition keyedField (r : ResolvedPoint) (k : columnarFieldSchema) : option ResolvedField :=
  v ← lookupPointField r k; Some (mkResolvedField (cfs_fieldID k) (cfs_name k) (cfs_typ k) v).
Definition canonPoint (schema : list columnarFieldSchema) (r : ResolvedPoint) : ResolvedPoint :=
  mkResolvedPoint (rp_Database r) (rp_RetentionPolicy r) (rp_Measurement r) (rp_Tags r)
    (rp_SeriesID r) (rp_Timestamp r) (rp_WriteSeq r) (omap (keyedField r) schema).

Lemma keyedField_Some r k f : keyedField r k = Some f -> f ∈ rp_Fields r /\ fieldKeyOf f = k.
Proof.
  intros H. apply bind_Some in H as (v & Hv & [= <-]).
  apply lookupPointField_Some in Hv as (g & Hg & <- & <-). by destruct g.
Qed.
Lemma keyedField_elem r f : NoDup (map fieldKeyOf (rp_Fields r)) -> f ∈ rp_Fields r ->
  keyedField r (fieldKeyOf f) = Some f.
Proof. intros. unfold keyedField. rewrite lookupPointField_elem by done. by destruct f. Qed.
Lemma omap_keyed_keys r schema : map fieldKeyOf (omap (keyedField r) schema) `sublist_of` schema.
Proof.
  induction schema as [|k schema IH]; simpl; [constructor|].
  destruct (keyedField r k) as [f|] eqn:Hf; simpl; [|by constructor].
  apply keyedField_Some in Hf as [_ ->]. by constructor.
Qed.
Lemma StronglySorted_sublist {A} (R : relation A) (l k : list A) :
  l `sublist_of` k -> StronglySorted R k -> StronglySorted R l.
Proof.
  induction 1 as [|x l k Hlk IH|x l k Hlk IH]; intros Hs; [constructor| |].
  - inversion_clear Hs as [|?? Hs' Hall]. constructor; [by apply IH|].
    rewrite Forall_forall in Hall. apply Forall_forall. intros y Hy. apply Hall.
    by eapply elem_of_sublist.
  - inversion_clear Hs. by apply IH.
Qed.

Lemma canonPoint_same schema r : NoDup schema -> StronglySorted schema_le schema ->
  NoDup (map fieldKeyOf (rp_Fields r)) ->
  (forall k, k ∈ map fieldKeyOf (rp_Fields r) -> k ∈ schema) ->
  same_point r (canonPoint schema r).
Proof.
  intros Hnd Hs Hndr Hsub. split_and!; [done| |].
  - simpl. apply NoDup_Permutation.
    + apply (NoDup_fmap_1 fieldKeyOf). eapply sublist_NoDup; [exact Hnd|apply omap_keyed_keys].
    + by apply (NoDup_fmap_1 fieldKeyOf).
    + intros f. rewrite list_elem_of_omap. split.
      * intros (k & _ & Hk). by apply keyedField_Some in Hk as [? _].
      * intros Hf. exists (fieldKeyOf f). split; [|by apply keyedField_elem].
        apply Hsub, list_elem_of_fmap. by exists f.
  - eapply StronglySorted_sublist; [apply omap_keyed_keys|done].
Qed.

Lemma rowOf_point records ids refs schema i r :
  Forall2 (fun r ref => 0 <= ref /\ ids !! Z.to_nat ref = Some (newBatchIdentity r)) records refs ->
  records !! i = Some r ->
  rowOf ids refs (map rp_SeriesID records) (map rp_Timestamp records) (map rp_WriteSeq records)
    schema (map (pointColumn records) schema) i = Some (canonPoint schema r).
Proof.
  intros HF Hr. destruct (Forall2_lookup_l _ _ _ _ _ HF Hr) as (ref & Href & _ & Hid).
  unfold rowOf. rewrite Href. simpl. rewrite Hid. simpl. rewrite !list_lookup_fmap, Hr. simpl.
  unfold canonPoint. f_equal. f_equal. unfold rowFields. clear -Hr.
  induction schema as [|k schema IH]; [done|].
  assert (fieldAt i (k, pointColumn records k) = keyedField r k) as Hk.
  { unfold fieldAt, keyedField, pointColumn. simpl. rewrite list_lookup_fmap, Hr. simpl.
    by destruct (lookupPointField r k). }
  simpl. rewrite Hk. destruct (keyedField r k); [f_equal; exact IH|exact IH].
Qed.

Lemma encodeBatchInto_decode records bs :
  Forall point_ok records -> Forall fields_sorted records -> batch_fits records ->
  encodeBatchInto records = Ok bs ->
  exists schema, NoDup schema /\ StronglySorted schema_le schema
    /\ (forall r k, r ∈ records -> k ∈ map fieldKeyOf (rp_Fields r) -> k ∈ schema)
    /\ decodeBatch bs = Ok (map (canonPoint schema) records).
Proof.
  intros Hok Hsorted [Hl Hlf]. unfold encodeBatchInto, encodeColumnarPointsInto. intros H.
  assert (Forall (fun r => Forall field_ok (rp_Fields r)) records) as Hfok
    by (eapply Forall_impl; [exact Hok|]; intros ? (_ & _ & _ & _ & ?); done).
  assert (Forall (fun r => identity_ok (newBatchIdentity r)) records) as Hiok
    by (eapply Forall_impl; [exact Hok|]; intros ? (? & _); done).
  pose proof (batchIdentities_spec records Hiok) as Hids.
  destruct (batchIdentities records) as [ids refs]. destruct Hids as (Hidok & Hidl & HF).
  destruct (buildPointFieldSchema_ok records Hfok) as (schema & Hschema & Hnd & Hss & Hel & Hsl & Hsok).
  rewrite Hschema in H. simpl in H.
  destruct (appendPointFieldColumns records schema) as [fields| |] eqn:Hfields; [|done|done].
  injection H as <-. exists schema.
  assert (forall r k, r ∈ records -> k ∈ map fieldKeyOf (rp_Fields r) -> k ∈ schema) as Hsub
    by (intros r k Hr Hk; apply Hel; eauto).
  split_and!; [done|done|done|].
  destruct (appendPointFieldColumns_spec _ _ _ Hfok Hsorted Hsub Hfields) as (encs & -> & Hencs).
  pose proof (Forall2_length _ _ _ HF) as Hrl. unfold len in *.
  replace (Z.of_nat (length records)) with (len refs) by (unfold len; lia).
  rewrite <- (map_map rp_SeriesID appendUvarint).
  eapply (decodeBatch_layout ids schema refs (map rp_SeriesID records) (map rp_Timestamp records)
    (map rp_WriteSeq records) (map (pointColumn records) schema) encs _ (length records));
    rewrite ?length_map; try done; try alloc_lia.
  - eapply Forall2_Forall_r; [exact HF|]. apply Forall_forall. intros r _ ref [? Hi%lookup_lt_Some].
    unfold len. lia.
  - apply Forall_fmap. eapply Forall_impl; [exact Hok|]. by intros ? (_ & ? & _).
  - apply Forall_fmap. eapply Forall_impl; [exact Hok|]. by intros ? (_ & _ & ? & _).
  - apply Forall_fmap. eapply Forall_impl; [exact Hok|]. by intros ? (_ & _ & _ & ? & _).
  - apply Forall2_fmap_r, Forall_Forall2_diag, Forall_forall. intros k _.
    split; [apply length_map|by apply pointColumn_ok].
  - intros i record Hi. rewrite list_lookup_fmap in Hi.
    destruct (records !! i) as [r|] eqn:Hr; [|done]. injection Hi as <-. by apply rowOf_point.
Qed.

Lemma encodeBatchInto_roundtrip records bs :
  Forall point_ok records -> Forall fields_sorted records -> batch_fits records ->
  encodeBatchInto records = Ok bs ->
  exists records', decodeBatch bs = Ok records' /\ Forall2 same_point records records'.
Proof.
  intros Hok Hsorted Hfits He.
  destruct (encodeBatchInto_decode _ _ Hok Hsorted Hfits He) as (schema & Hnd & Hss & Hsub & Hd).
  exists (map (canonPoint schema) records). split; [done|].
  apply Forall2_fmap_r, Forall_Forall2_diag, Forall_forall. intros r Hr.
  rewrite Forall_forall in Hsorted. apply canonPoint_same; [done|done| |by eauto].
  by apply StronglySorted_name_NoDup, fields_sorted_keys, Hsorted.
Qed.


(** A batch of two series with two fields, one point lacking a field. *)
Definition exampleField (id : Z) (name : string) (v : Z) : ResolvedField :=
  mkResolvedField id (str name) FieldInt64 (Int64Value v).
Definition examplePoint (sid ts seq : Z) (fields : list ResolvedField) : ResolvedPoint :=
  mkResolvedPoint (str "metrics") (str "autogen") (str "cpu") {[ str "host" := str "a" ]}
    sid ts seq fields.
Definition exampleBatch : list ResolvedPoint :=
  [ examplePoint 1 100 5 [exampleField 1 "a" 7; exampleField 2 "b" (-8)];
    examplePoint 1 90 6 [exampleField 2 "b" 9];
    examplePoint 2 110 4 [exampleField 1 "a" 1; exampleField 2 "b" 2] ].
Definition exampleBytes : bytes :=
  match encodeBatchInto exampleBatch with Ok bs => bs | _ => [] end.

Lemma exampleIdentity_ok :
  identity_ok (mkIdentity (str "metrics") (str "autogen") (str "cpu") {[ str "host" := str "a" ]}).
Proof.
  split; [by_decide|]. split; [by_decide|]. split; [by_decide|]. split; [|by_decide].
  apply map_Forall_singleton. split; [by_decide|]. split; [by_decide|done].
Qed.
Lemma examplePoint_ok sid ts seq fields : is_u64 sid -> is_i64 ts -> 0 <= seq < 2 ^ 64 - 1 ->
  Forall field_ok fields -> point_ok (examplePoint sid ts seq fields).
Proof. intros. split; [apply exampleIdentity_ok|]. simpl. tauto. Qed.
Lemma exampleField_ok id name v : is_u32 id -> is_i64 v -> string_ok (str name) ->
  field_ok (exampleField id name v).
Proof. intros. split; [done|]. split; [done|]. split; [by constructor|done]. Qed.
Ltac solve_example_points :=
  repeat (apply Forall_cons_2; [apply examplePoint_ok; [by_decide|by_decide|lia|]|]);
  repeat (apply Forall_cons_2; [apply exampleField_ok; by_decide|]); try apply Forall_nil_2.


(** ** When does encoding fail? *)
Lemma mapM_denseColumn_err records i :
  Forall (fun r => Forall field_ok (rp_Fields r)) records ->
  (Forall (fun r => (i < length (rp_Fields r))%nat) records /\ is_ok (denseFieldColumn records i))
  \/ (Exists (fun r => (length (rp_Fields r) <= i)%nat) records
     /\ denseFieldColumn records i = Err (Errorf "dense field index out of range")).
Proof.
  intros Hok. unfold denseFieldColumn.
  set (f := fun record => match rp_Fields record !! i with
     | None => Err (Errorf "dense field index out of range")
     | Some field0 => appendValuePayload (rf_Value field0) end).
  assert ((Forall (fun r => (i < length (rp_Fields r))%nat) records /\ is_ok (mapM f records))
    \/ (Exists (fun r => (length (rp_Fields r) <= i)%nat) records
       /\ mapM f records = Err (Errorf "dense field index out of range"))) as [[? [vs ->]]|[? ->]].
  { induction Hok as [|r records Hr Hok IH]; [left; split; [done|by eexists]|]. simpl.
    destruct (rp_Fields r !! i) as [g|] eqn:Hg.
    - rewrite Forall_forall in Hr. destruct (Hr g (list_elem_of_lookup_2 _ _ _ Hg)) as (_ & _ & Hv & _).
      assert (f r = Ok (valueBody (rf_Value g))) as ->
        by (unfold f; rewrite Hg; by apply appendValuePayload_body).
      simpl. apply lookup_lt_Some in Hg. destruct IH as [[HF [vs ->]]|[HE ->]]; [left|right]; simpl.
      + split; [by constructor|by eexists].
      + split; [by right|done].
    - right. assert (f r = Err (Errorf "dense field index out of range")) as -> by (unfold f; by rewrite Hg).
      apply lookup_ge_None in Hg. split; [by left|done]. }
  - left. split; [done|]. by eexists.
  - by right.
Qed.

Lemma mapM_seq_dense records (idxs : list nat) :
  Forall (fun r => Forall field_ok (rp_Fields r)) records ->
  (Forall (fun i => Forall (fun r => (i < length (rp_Fields r))%nat) records) idxs
   /\ is_ok (mapM (denseFieldColumn records) idxs))
  \/ (Exists (fun i => Exists (fun r => (length (rp_Fields r) <= i)%nat) records) idxs
     /\ mapM (denseFieldColumn records) idxs = Err (Errorf "dense field index out of range")).
Proof.
  intros Hok. induction idxs as [|i idxs IH]; [left; split; [done|by eexists]|]. simpl.
  destruct (mapM_denseColumn_err records i Hok) as [[HF [enc ->]]|[HE ->]]; simpl.
  - destruct IH as [[HF' [encs ->]]|[HE' ->]]; [left|right]; simpl.
    + split; [by constructor|by eexists].
    + split; [by right|done].
  - right. split; [by left|done].
Qed.

(** Encoding valid points either succeeds or fails in exactly one situation:
    the three sampled records list the whole schema while some record does
    not have a value for every field of it. *)
Definition sampled_dense (records : list ResolvedPoint) : Prop :=
  exists schema, buildPointFieldSchema records = Ok schema /\ schema <> []
    /\ pointFieldsMatchSchema records schema = true
    /\ Exists (fun r => (length (rp_Fields r) < length schema)%nat) records.

Lemma encodeBatchInto_outcome records : Forall point_ok records ->
  (encodeBatchInto records = Err (Errorf "dense field index out of range") <-> sampled_dense records)
  /\ (~ sampled_dense records -> is_ok (encodeBatchInto records)).
Proof.
  intros Hok.
  assert (Forall (fun r => Forall field_ok (rp_Fields r)) records) as Hfok
    by (eapply Forall_impl; [exact Hok|]; intros ? (_ & _ & _ & _ & ?); done).
  destruct (buildPointFieldSchema_ok records Hfok) as (schema & Hschema & _).
  unfold sampled_dense, encodeBatchInto, encodeColumnarPointsInto. rewrite Hschema.
  destruct (batchIdentities records) as [ids refs]. simpl. unfold appendPointFieldColumns.
  case_bool_decide as Hempty; simpl.
  { split; [split; [done|intros (s & [= <-] & ? & _); done]|intros _; by eexists]. }
  destruct (pointFieldsMatchSchema records schema) eqn:Hm.
  - unfold appendPointFieldColumnsDense.
    destruct (mapM_seq_dense records (seq 0 (length schema)) Hfok) as [[HF [encs ->]]|[HE ->]]; simpl.
    + split; [|intros _; by eexists]. split; [done|]. intros (s & [= <-] & _ & _ & HE).
      apply Exists_exists in HE as (r & Hr & Hlt). rewrite Forall_forall in HF.
      specialize (HF (length (rp_Fields r)) ltac:(apply elem_of_seq; lia)).
      rewrite Forall_forall in HF. specialize (HF r Hr). lia.
    + assert (Exists (fun r => (length (rp_Fields r) < length schema)%nat) records) as HE'.
      { apply Exists_exists in HE as (i & Hi%elem_of_seq & HE). eapply Exists_impl; [exact HE|]. simpl; lia. }
      split; [split; [intros _; by exists schema|done]|]. intros Hn. destruct Hn. by exists schema.
  - assert (mapM (appendPointFieldColumn records) schema
            = Ok (map (fun field => columnBytes (pointColumn records field)) schema)) as ->.
    { apply mapM_ok, Forall_forall. intros k _. by apply appendPointFieldColumn_spec, pointColumn_ok. }
    simpl. split; [split; [done|]|intros _; by eexists]. intros (s & [= <-] & _ & ? & _). congruence.
Qed.

Lemma encodeBatchInto_no_panic records p : Forall point_ok records -> encodeBatchInto records <> Panic p.
Proof.
  intros Hok E. destruct (encodeBatchInto_outcome records Hok) as [Hiff Hn]. destruct Hn as [bs Hbs]; [|congruence].
  intros Hs%Hiff. congruence.
Qed.


(** Four points of one series; the second has no value for field b. *)
Definition sparseBatch : list ResolvedPoint :=
  [ examplePoint 1 100 5 [exampleField 1 "a" 7; exampleField 2 "b" 8];
    examplePoint 1 101 6 [exampleField 1 "a" 7];
    examplePoint 1 102 7 [exampleField 1 "a" 7; exampleField 2 "b" 8];
    examplePoint 1 103 8 [exampleField 1 "a" 7; exampleField 2 "b" 8] ].
