(* ===== verification/WalSafety.v ===== *)
(** * WAL decoders on arbitrary input

    Replay hands whatever passed the checksum to [decodeBatch] and
    [decodeTombstones]; neither can index out of range. *)
From S2P Require Import Prelude GoBinary Model Codec Readers WalEncoding WalRoundtrip.
From stdpp Require Import prelude strings list gmap.
From Stdlib Require Import ZArith Lia.
#[local] Open Scope Z_scope.

Lemma readTags_spec : rspec readTags (fun _ => True).
Proof.
  eapply rspec_bind; [apply rd_intCount_spec|intros n Hn]. case_match; [by apply rspec_ret|].
  eapply rspec_bind; [|intros; by apply rspec_ret]. apply (rspec_read_n _ _ (fun _ => True)).
  eapply rspec_bind; [apply rd_string_spec|intros k _].
  eapply rspec_bind; [apply rd_string_spec|intros; by apply rspec_ret].
Qed.
Lemma readBatchIdentities_spec : rspec readBatchIdentities (fun _ => True).
Proof.
  eapply rspec_bind; [apply rd_intCount_spec|intros n Hn]. apply rspec_bind_make; intros _ _.
  eapply rspec_weaken; [apply (rspec_read_n _ _ (fun _ => True))|done].
  do 3 (eapply rspec_bind; [apply rd_string_spec|intros ? _]).
  eapply rspec_bind; [apply readTags_spec|intros; by apply rspec_ret].
Qed.
Lemma readColumnarSchema_spec : rspec readColumnarSchema (fun _ => True).
Proof.
  eapply rspec_bind; [apply rd_intCount_spec|intros n Hn]. apply rspec_bind_make; intros _ _.
  eapply rspec_weaken; [apply (rspec_read_n _ _ (fun _ => True))|done].
  eapply rspec_bind; [apply rd_string_spec|intros ? _].
  eapply rspec_bind; [apply rd_uvarint_spec|intros ? _].
  eapply rspec_bind; [apply rd_byte_spec|intros; by apply rspec_ret].
Qed.
Lemma readValuePayload_spec t : rspec (readValuePayload t) (fun _ => True).
Proof.
  unfold readValuePayload. repeat case_match; try apply rspec_fail;
    (eapply rspec_bind; [first [apply rd_u64_spec|apply rd_varint_spec|apply rd_string_spec
      |eapply rspec_bind; [apply rd_byte_spec|intros b _; instantiate (1 := fun _ => True);
         repeat case_match; try apply rspec_fail; by apply rspec_ret]]
     |intros; by apply rspec_ret]).
Qed.

(** A decoded column: one flag per row and one value per set flag. *)
Definition col_shape (rows : nat) (c : list bool * list FieldValue) : Prop :=
  length c.1 = rows /\ length c.2 = length (List.filter id c.1).

Lemma readFieldColumn_spec n f : rspec (readFieldColumn n f) (col_shape (Z.to_nat n)).
Proof.
  unfold readFieldColumn, readPresenceBits.
  eapply rspec_bind.
  - eapply rspec_bind; [apply rawBytes_spec|intros raw _]. apply rspec_bind_make; intros _ _. 
    apply (rspec_ret _ (fun l => length l = Z.to_nat n)). by rewrite length_map, length_seq.
  - intros presence Hp. apply rspec_bind_make; intros _ _. eapply rspec_bind.
    + apply (rspec_read_n _ _ (fun _ => True)), readValuePayload_spec.
    + intros vs [Hvs _]. apply rspec_ret. by split.
Qed.

(** ** Assembling rows never leaves a column *)
Definition trueCount (row : nat) (presence : list bool) : nat := length (List.filter id (take row presence)).

Lemma trueCount_S row presence (b : bool) : presence !! row = Some b ->
  trueCount (S row) presence = (trueCount row presence + (if b then 1 else 0))%nat.
Proof.
  intros H. unfold trueCount. rewrite (take_S_r _ _ _ H), List.filter_app, length_app. simpl.
  unfold id. by destruct b; simpl; lia.
Qed.
Lemma trueCount_lt row presence : presence !! row = Some true ->
  (trueCount row presence < length (List.filter id presence))%nat.
Proof.
  intros H. rewrite <- (take_drop_middle _ _ _ H) at 2. unfold trueCount.
  rewrite List.filter_app, length_app. simpl. lia.
Qed.

Lemma assembleFields_safe row rows schema cols : (row < rows)%nat ->
  Forall2 (fun _ c => col_shape rows c) schema cols ->
  exists fields, assembleFields row schema cols (map (fun c => trueCount row c.1) cols)
    = Ok (fields, map (fun c => trueCount (S row) c.1) cols).
Proof.
  intros Hrow HF. induction HF as [|f [presence values] schema cols [Hp Hv] HF [fields IH]]; simpl in *.
  { by eexists. }
  destruct (lookup_lt_is_Some_2 presence row ltac:(lia)) as [b Hb].
  rewrite (idx_lookup _ _ _ Hb). simpl. rewrite (trueCount_S _ _ _ Hb). destruct b; simpl.
  - pose proof (trueCount_lt _ _ Hb) as Hlt. rewrite <- Hv in Hlt.
    destruct (lookup_lt_is_Some_2 values _ Hlt) as [v Hval]. rewrite (idx_lookup _ _ _ Hval). simpl.
    rewrite IH. simpl. eexists. repeat f_equal. lia.
  - rewrite IH. simpl. eexists. repeat f_equal. lia.
Qed.

Lemma assembleRows_safe rows ids refs sids tss seqs schema cols n row :
  (row + n = rows)%nat ->
  length refs = rows -> length sids = rows -> length tss = rows -> length seqs = rows ->
  Forall (fun ref => 0 <= ref < len ids) refs ->
  Forall2 (fun _ c => col_shape rows c) schema cols ->
  forall p, assembleRows row n ids refs sids tss seqs schema cols (map (fun c => trueCount row c.1) cols) = Panic p ->
    p = MakesliceLen.
Proof.
  intros Hn Hr Hs Ht Hq Href HF. revert row Hn. induction n as [|n IH]; intros row Hn p; simpl; [done|].
  destruct (lookup_lt_is_Some_2 refs row ltac:(lia)) as [ref Hrl].
  pose proof (Forall_lookup_1 _ _ _ _ Href Hrl) as Hrb. simpl in Hrb.
  destruct (lookup_lt_is_Some_2 ids (Z.to_nat ref) ltac:(unfold len in *; lia)) as [ident Hid].
  destruct (lookup_lt_is_Some_2 sids row ltac:(lia)) as [sid Hsl].
  destruct (lookup_lt_is_Some_2 tss row ltac:(lia)) as [ts Htl].
  destruct (lookup_lt_is_Some_2 seqs row ltac:(lia)) as [sq Hql].
  rewrite (idx_lookup _ _ _ Hrl). simpl.
  assert (idx ids ref = Ok ident) as ->
    by (rewrite <- (Z2Nat.id ref) by lia; by apply idx_lookup).
  simpl. destruct (make_slice_cases 80 (len schema)) as [-> | ->]; [|by intros [= <-]].
  simpl. destruct (assembleFields_safe row rows schema cols ltac:(lia) HF) as [fields ->]. simpl.
  rewrite (idx_lookup _ _ _ Hsl), (idx_lookup _ _ _ Htl), (idx_lookup _ _ _ Hql). simpl.
  specialize (IH (S row) ltac:(lia)). destruct (assembleRows _ _ _ _ _ _ _ _ _ _) as [| |p']; [done..|].
  intros [= <-]. by apply IH.
Qed.

Lemma decodeBatchReader_spec : rspec decodeBatchReader (fun _ => True).
Proof.
  eapply rspec_bind; [apply readBatchIdentities_spec|intros ids _].
  eapply rspec_bind; [apply readColumnarSchema_spec|intros schema _].
  eapply rspec_bind; [apply rd_intCount_spec|intros n Hn].
  apply rspec_bind_make; intros _ _. eapply rspec_bind.
  { apply (rspec_read_n _ _ (fun ref => 0 <= ref < len ids)).
    eapply rspec_bind; [apply rd_intCount_spec|intros ref Href].
    cbn beta in Href; zcase (len ids <=? ref); [apply rspec_fail|apply rspec_ret; lia]. }
  intros refs [Hr Href]. apply rspec_bind_make; intros _ _. 
  eapply rspec_bind; [apply rspec_read_n, rd_uvarint_spec|intros sids [Hs _]].
  eapply rspec_bind.
  { apply rspec_bind_make; intros _ _. apply (rspec_read_fold _ _ (fun _ => True) (fun _ => True)); [|done]. intros [i prev] _.
    eapply rspec_bind; [apply rd_varint_spec|intros; by apply rspec_ret]. }
  intros tss [Ht _]. eapply rspec_bind.
  { apply rspec_bind_make; intros _ _. apply (rspec_read_fold _ _ (fun _ => True) (fun _ => True)); [|done]. intros [i prev] _.
    eapply rspec_bind; [apply rd_uvarint_spec|intros tok _]. case_match; [by apply rspec_ret|].
    case_match; [|by apply rspec_ret].
    eapply rspec_bind; [apply rd_uvarint_spec|intros; by apply rspec_ret]. }
  intros seqs [Hq _]. apply rspec_bind_make; intros _ _. 
  eapply rspec_bind; [apply rspec_mapM; intros f; apply readFieldColumn_spec|].
  intros cols Hcols. eapply rspec_bind; [apply rd_done_spec|intros _ _].
  do 2 (apply rspec_bind_make; intros _ _). apply rspec_lift; [|done].
  assert (replicate (length schema) 0%nat = map (fun c : list bool * list FieldValue => trueCount 0 c.1) cols) as ->.
  { rewrite (Forall2_length _ _ _ Hcols). clear. induction cols; simpl; [done|by f_equal]. }
  by apply (assembleRows_safe (Z.to_nat n)).
Qed.

Lemma decodeBatch_no_panic payload : bytes_ok payload -> alloc_only (decodeBatch payload).
Proof.
  intros Hp. unfold decodeBatch. case_match; [done|].
  pose proof (decodeBatchReader_spec payload Hp) as Hspec.
  by destruct (decodeBatchReader payload) as [[??]| |[]].
Qed.

(** ** Tombstones *)
Definition tombstone_ok (t : Tombstone) : Prop :=
  is_i64 (ts_StartTime t) /\ is_i64 (ts_EndTime t) /\ is_u64 (ts_WriteSeq t)
  /\ Forall is_u64 (ts_SeriesIDs t) /\ fits (len (ts_SeriesIDs t))
  /\ Forall is_u32 (ts_FieldIDs t) /\ fits (len (ts_FieldIDs t)).
#[export] Instance tombstone_ok_dec t : Decision (tombstone_ok t).
Proof. unfold tombstone_ok. apply _. Defined.

Lemma readTombstone_spec : rspec readTombstone (fun _ => True).
Proof.
  unfold readTombstone, readUint64s, readUint32s.
  do 2 (eapply rspec_bind; [apply rd_varint_spec|intros ? _]).
  eapply rspec_bind; [apply rd_uvarint_spec|intros ? _].
  apply rspec_bind with (P := fun _ => True).
  { eapply rspec_bind; [apply rd_intCount_spec|intros n _]. apply rspec_bind_make; intros _ _.
    eapply rspec_weaken; [apply rspec_read_n, rd_uvarint_spec|done]. }
  intros sids _. apply rspec_bind with (P := fun _ => True); [|intros; by apply rspec_ret].
  eapply rspec_bind; [apply rd_intCount_spec|intros n _]. apply rspec_bind_make; intros _ _.
  eapply rspec_weaken; [apply (rspec_read_n _ _ (fun _ => True))|done].
  eapply rspec_bind; [apply rd_uvarint_spec|intros v _]. apply rspec_lift; [|done].
  intros p. unfold BatchReader.uint32Value. by case_match.
Qed.
Lemma decodeTombstones_no_panic payload : bytes_ok payload ->
  alloc_only (decodeTombstones payload).
Proof.
  intros Hp. unfold decodeTombstones. case_match; [done|].
  match goal with |- context [?m payload] => assert (rspec m (fun _ => True)) as Hspec end.
  { eapply rspec_bind; [apply rd_intCount_spec|intros n _]. apply rspec_bind_make; intros _ _.
    eapply rspec_bind; [apply rspec_read_n, readTombstone_spec|intros ts _].
    eapply rspec_bind; [apply rd_done_spec|intros; by apply rspec_ret]. }
  specialize (Hspec payload Hp). simpl in *. by repeat case_match; simplify_eq/=.
Qed.

Lemma readUint64s_append name ids : Forall is_u64 ids -> fits (len ids) ->
  reads_back (readUint64s name) (appendUvarint (len ids) ++ concat (map appendUvarint ids)) ids.
Proof.
  intros Hids Hl. eapply reads_back_bind; [apply rd_intCount_append; alloc_lia|].
  apply reads_back_make; [alloc_lia|alloc_lia|]. unfold len. rewrite Nat2Z.id. apply reads_back_read_n. eapply Forall_impl; [exact Hids|].
  intros; by apply rd_uvarint_append.
Qed.
Lemma readUint32s_append name ids : Forall is_u32 ids -> fits (len ids) ->
  reads_back (readUint32s name) (appendUvarint (len ids) ++ concat (map appendUvarint ids)) ids.
Proof.
  intros Hids Hl. eapply reads_back_bind; [apply rd_intCount_append; alloc_lia|].
  apply reads_back_make; [alloc_lia|alloc_lia|]. unfold len. rewrite Nat2Z.id. apply reads_back_read_n. eapply Forall_impl; [exact Hids|].
  intros id Hid. eapply reads_back_bind_nil; [apply rd_uvarint_append; wrap_lia|].
  unfold BatchReader.uint32Value. assert ((2 ^ 32 - 1 <? id) = false) as -> by (unfold is_u32 in Hid; zb).
  rewrite u32_id by done. apply lift_ok.
Qed.
Lemma readTombstone_append t : tombstone_ok t -> reads_back readTombstone (appendTombstone t) t.
Proof.
  intros (?&?&?&?&?&?&?). unfold readTombstone, appendTombstone.
  do 2 (eapply reads_back_bind; [by apply rd_varint_append|]).
  eapply reads_back_bind; [by apply rd_uvarint_append|]. rewrite (assoc_L (++) (appendUvarint _)).
  eapply reads_back_bind; [by apply readUint64s_append|].
  eapply reads_back_bind_nil; [by apply readUint32s_append|]. destruct t. apply reads_back_ret.
Qed.

Lemma decodeTombstones_encode tombstones :
  Forall tombstone_ok tombstones -> fits (len tombstones) ->
  decodeTombstones (encodeTombstones tombstones) = Ok tombstones.
Proof.
  intros Hok Hl. unfold decodeTombstones, encodeTombstones.
  pose proof (appendUvarint_pos (len tombstones)) as Hpos.
  assert ((len (appendUvarint (len tombstones) ++ concat (map appendTombstone tombstones)) =? 0) = false)
    as -> by (apply Z.eqb_neq; unfold len in *; rewrite length_app; lia).
  assert ((count ← BatchReader.intCount "tombstone count";
       _ ← rmake 72 count;
       tombstones ← read_n (Z.to_nat count) readTombstone;
       _ ← BatchReader.done "wal tombstones";
       mret tombstones : reader (list Tombstone))
     (appendUvarint (len tombstones) ++ concat (map appendTombstone tombstones)) = Ok (tombstones, []))
    as ->; [|done].
  eapply run_bind; [apply rd_intCount_append; alloc_lia|].
  apply run_make; [alloc_lia|alloc_lia|]. unfold len. rewrite Nat2Z.id. eapply run_bind_nil; [|done]. apply reads_back_read_n.
  eapply Forall_impl; [exact Hok|]. apply readTombstone_append.
Qed.

(** decoding encoded tombstones returns them. *)
Theorem wal_tombstones_roundtrip tombstones :
  Forall tombstone_ok tombstones -> fits (len tombstones) ->
  decodeTombstones (encodeTombstones tombstones) = Ok tombstones.
Proof. apply decodeTombstones_encode. Qed.
Definition exampleTombstones : list Tombstone :=
  [mkTombstone [1; 300] [] (-5) 1700000000000000000 42; mkTombstone [] [7] 0 0 0].
Lemma wal_tombstones_roundtrip_witness :
  decodeTombstones (encodeTombstones exampleTombstones) = Ok exampleTombstones.
Proof. apply wal_tombstones_roundtrip; by_decide. Defined.
