(* ===== verification/WalLog.v ===== *)
(** * internal/wal/wal.go: frames, segments and the log

    A segment file is its byte content; the log directory maps segment numbers
    to contents ([%06d.wal] names the file of a number).  File system calls do
    not fail; what a crash leaves of files that were not fsynced is described
    by [crash_of] below, for which [lg_synced] records how much of each file
    has been fsynced.  Metrics and logging have no counterpart. *)
From S2P Require Import Prelude GoBinary Model Codec Readers WalEncoding.
From stdpp Require Import prelude strings list gmap sorting.
From Stdlib Require Import ZArith Lia.
#[local] Open Scope Z_scope.

(** ** Frames *)
Definition recordWriteBatch : Z := 1.
Definition recordTombstone : Z := 2.
Definition walSegmentMagic : bytes := str "MTSWAL2".
Definition walSegmentFormatID : Z := 2.
Definition walSegmentHeaderLen : Z := 15.
Definition defaultSegmentBytes : Z := Z.shiftl 64 20.

Record WalRecord := mkRecord {
  rec_Points : list ResolvedPoint;
  rec_Tombstones : list Tombstone;
}.

Definition encodeFrame (recordType : Z) (payload : bytes) : bytes :=
  let bodyLen := 1 + len payload + 4 in
  be_put_u32 (u32 bodyLen) ++ (recordType :: payload) ++ be_put_u32 (crc32c (recordType :: payload)).

(** [io.ReadFull]: EOF when nothing could be read, ErrUnexpectedEOF when the
    stream ends early; [normalizeReadError] keeps both as they are. *)
Definition readFull (n : Z) : reader bytes := fun s =>
  if n =? 0 then Ok ([], s)
  else if len s =? 0 then Err EOF
  else if len s <? n then Err ErrUnexpectedEOF
  else Ok (take (Z.to_nat n) s, drop (Z.to_nat n) s).

Definition decodeFramePayload (recordType : Z) (payload : bytes) : outcome WalRecord :=
  if recordType =? recordWriteBatch then
    points ← decodeBatch payload; Ok (mkRecord points [])
  else if recordType =? recordTombstone then
    tombstones ← decodeTombstones payload; Ok (mkRecord [] tombstones)
  else Err (Errorf "unsupported wal record type").

Definition readFrame : reader WalRecord :=
  header ← readFull 4;
  let length_ := be_word header in
  if length_ <? 5 then rfail (Errorf "wal record length is too small")
  else
    body ← readFull length_;
    let want := be_word (drop (Z.to_nat (len body - 4)) body) in
    let got := crc32c (take (Z.to_nat (len body - 4)) body) in
    if negb (got =? want) then rfail (Errorf "wal record crc mismatch")
    else
      recordType ← lift (idx body 0);
      lift (wrapErr "decode wal payload" (decodeFramePayload recordType (slice 1 (len body - 4) body))).

(** ** Segment header *)
Definition appendSegmentHeader : bytes :=
  let dst := walSegmentMagic ++ le_put_u16 walSegmentFormatID ++ le_put_u16 walSegmentHeaderLen in
  dst ++ le_put_u32 (crc32c dst).

Definition readSegmentHeader : reader unit :=
  header ← readFull walSegmentHeaderLen;
  let magicLen := len walSegmentMagic in
  if negb (bool_decide (take (Z.to_nat magicLen) header = walSegmentMagic))
  then rfail (Errorf "wal segment magic mismatch")
  else if negb (le_word (slice magicLen (magicLen + 2) header) =? walSegmentFormatID)
  then rfail (Errorf "wal segment format id is unsupported")
  else if negb (le_word (slice (magicLen + 2) (magicLen + 4) header) =? u16 walSegmentHeaderLen)
  then rfail (Errorf "wal segment header length is invalid")
  else if negb (crc32c (take (Z.to_nat (len header - 4)) header)
                =? le_word (drop (Z.to_nat (len header - 4)) header))
  then rfail (Errorf "wal segment header crc mismatch")
  else mret tt.

(** ** Replay of one segment

    [offset] is the position of the next frame.  Every frame takes at least
    nine bytes, so the length of the unread content bounds the number of
    rounds ([replayLoop_fuel] proves that more fuel changes nothing). *)
Definition isPartial (err : goerr) : bool := bool_decide (err = ErrUnexpectedEOF).

Fixpoint replayLoop (fuel : nat) (isLast : bool) (offset : Z) (rest : bytes) (records : list WalRecord)
    : outcome (list WalRecord * Z) :=
  match fuel with
  | O => Err (Errorf "replay fuel exhausted")
  | S fuel' =>
      match readFrame rest with
      | Ok (record, rest') =>
          replayLoop fuel' isLast (offset + (len rest - len rest')) rest' (records ++ [record])
      | Err EOF => Ok (records, -1)
      | Err err => if isLast && isPartial err then Ok (records, offset) else Err err
      | Panic p => Panic p
      end
  end.

Definition replayOpenSegment (file : bytes) (isLast : bool) : outcome (list WalRecord * Z) :=
  '(_, rest) ← readSegmentHeader file;
  replayLoop (S (length rest)) isLast walSegmentHeaderLen rest [].

(** The records and the content of the file afterwards. *)
Definition replaySegment (file : bytes) (isLast : bool) : outcome (list WalRecord * bytes) :=
  '(points, truncOffset) ← replayOpenSegment file isLast;
  if 0 <=? truncOffset then Ok (points, take (Z.to_nat truncOffset) file) else Ok (points, file).

(** ** The log *)
Record Options := mkOptions {
  opt_Sync : bool;
  opt_SegmentBytes : Z;
  opt_BatchRecords : Z;
  opt_BatchBytes : Z;
}.

Record Log := mkLog {
  lg_opts : Options;
  lg_dir : gmap Z bytes;
  lg_synced : gmap Z Z;
  lg_open : bool;
  lg_segment : Z;
  lg_size : Z;
  lg_pendingRecords : Z;
  lg_pendingBytes : Z;
}.

(** [sort.Slice] by number over the directory entries. *)
Definition listSegments (dir : gmap Z bytes) : list Z := merge_sort Z.le (map fst (map_to_list dir)).

Definition openSegment (l : Log) (number : Z) : Log :=
  let content := default [] (lg_dir l !! number) in
  let content' := if len content =? 0 then appendSegmentHeader else content in
  mkLog (lg_opts l) (<[number := content']> (lg_dir l)) (lg_synced l) true number (len content')
    (lg_pendingRecords l) (lg_pendingBytes l).

Definition openLastSegment (l : Log) : Log :=
  match last (listSegments (lg_dir l)) with
  | None => openSegment l 1
  | Some number => openSegment l number
  end.

(** [Open] on a directory; interval syncing is a background [FlushPending]. *)
Definition Open (dir : gmap Z bytes) (opts : Options) : Log :=
  let opts' := if opt_SegmentBytes opts <=? 0
               then mkOptions (opt_Sync opts) defaultSegmentBytes (opt_BatchRecords opts) (opt_BatchBytes opts)
               else opts in
  openLastSegment (mkLog opts' dir ∅ false 1 0 0 0).

Definition closeFile (l : Log) : Log :=
  mkLog (lg_opts l) (lg_dir l) (lg_synced l) false (lg_segment l) (lg_size l)
    (lg_pendingRecords l) (lg_pendingBytes l).

(** [Close]; a second call finds no open file and does nothing. *)
Definition Close (l : Log) : Log := closeFile l.

(** Rolling closes the old segment; it does not fsync it.  Closing, writing or
    syncing a nil file is an error. *)
Definition rollIfNeeded (l : Log) (frameSize : Z) : outcome Log :=
  if (lg_size l =? 0) || (lg_size l + frameSize <=? opt_SegmentBytes (lg_opts l)) then Ok l
  else if negb (lg_open l) then Err (Errorf "close wal segment before roll")
  else Ok (openSegment (closeFile l) (lg_segment l + 1)).

Definition shouldSync (l : Log) (syncWrite : bool) : bool :=
  if syncWrite || opt_Sync (lg_opts l) then true
  else if (0 <? opt_BatchRecords (lg_opts l)) && (opt_BatchRecords (lg_opts l) <=? lg_pendingRecords l)
  then true
  else (0 <? opt_BatchBytes (lg_opts l)) && (opt_BatchBytes (lg_opts l) <=? lg_pendingBytes l).

(** [storagefs.Sync(l.file)] and the reset of the pending counters. *)
Definition syncFile (l : Log) : Log :=
  mkLog (lg_opts l) (lg_dir l)
    (<[lg_segment l := len (default [] (lg_dir l !! lg_segment l))]> (lg_synced l))
    (lg_open l) (lg_segment l) (lg_size l) 0 0.

Definition writeFrame (l : Log) (frame : bytes) : outcome Log :=
  if negb (lg_open l) then Err (Errorf "write wal record")
  else Ok (mkLog (lg_opts l)
    (<[lg_segment l := default [] (lg_dir l !! lg_segment l) ++ frame]> (lg_dir l))
    (lg_synced l) (lg_open l) (lg_segment l) (lg_size l + len frame)
    (lg_pendingRecords l + 1) (lg_pendingBytes l + len frame)).

Definition appendFrameLocked (l : Log) (recordType : Z) (payload : bytes) (syncWrite : bool)
    : outcome Log :=
  let frame := encodeFrame recordType payload in
  l0 ← rollIfNeeded l (len frame);
  l1 ← writeFrame l0 frame;
  Ok (if shouldSync l1 syncWrite then syncFile l1 else l1).

Definition Append (l : Log) (records : list ResolvedPoint) (syncWrite : bool) : outcome Log :=
  payload ← wrapErr "encode wal record" (encodeBatchInto records);
  appendFrameLocked l recordWriteBatch payload syncWrite.

Definition AppendTombstones (l : Log) (tombstones : list Tombstone) (syncWrite : bool) : outcome Log :=
  appendFrameLocked l recordTombstone (encodeTombstones tombstones) syncWrite.

Definition syncPendingLocked (l : Log) : Log :=
  if negb (lg_open l) || (lg_pendingRecords l =? 0) then l else syncFile l.
Definition FlushPending (l : Log) : Log := syncPendingLocked l.

(** The removal loops; a removed file takes its fsync record with it. *)
Definition removeSegment (l : Log) (number : Z) : Log :=
  mkLog (lg_opts l) (delete number (lg_dir l)) (delete number (lg_synced l)) (lg_open l)
    (lg_segment l) (lg_size l) (lg_pendingRecords l) (lg_pendingBytes l).
Definition removeSegments (keep : Z -> bool) (l : Log) : Log :=
  fold_left (fun l n => if keep n then l else removeSegment l n) (listSegments (lg_dir l)) l.

Definition Checkpoint (l : Log) : Log :=
  let l1 := syncPendingLocked l in
  let oldSegment := lg_segment l1 in
  let l2 := openSegment (closeFile l1) (oldSegment + 1) in
  removeSegments (fun n => oldSegment <? n) l2.

Definition TruncateAll (l : Log) : Log :=
  let l1 := removeSegments (fun _ => false) (closeFile l) in
  openSegment (mkLog (lg_opts l1) (lg_dir l1) (lg_synced l1) (lg_open l1) 1 0
                 (lg_pendingRecords l1) (lg_pendingBytes l1)) 1.

Definition setDir (l : Log) (dir : gmap Z bytes) : Log :=
  mkLog (lg_opts l) dir (lg_synced l) (lg_open l) (lg_segment l) (lg_size l)
    (lg_pendingRecords l) (lg_pendingBytes l).

(** [ReplayRecords]: the records of all segments in order; the last segment
    may be truncated on the way. *)
Fixpoint replaySegments (segments : list Z) (dir : gmap Z bytes) (records : list WalRecord)
    : outcome (list WalRecord * gmap Z bytes) :=
  match segments with
  | [] => Ok (records, dir)
  | number :: segments' =>
      '(replayed, file) ← replaySegment (default [] (dir !! number)) (bool_decide (segments' = []));
      replaySegments segments' (<[number := file]> dir) (records ++ replayed)
  end.
Definition ReplayRecords (l : Log) : outcome (list WalRecord * Log) :=
  '(records, dir) ← replaySegments (listSegments (lg_dir l)) (lg_dir l) [];
  Ok (records, setDir l dir).
Definition Replay (l : Log) : outcome (list ResolvedPoint * Log) :=
  '(records, l') ← ReplayRecords l; Ok (concat (map rec_Points records), l').

(** ** Crashes: of every file, a prefix that covers its fsynced part survives *)
Definition crash_of (l : Log) (dir : gmap Z bytes) : Prop :=
  forall n, match lg_dir l !! n, dir !! n with
            | Some c, Some c' => c' `prefix_of` c /\ default 0 (lg_synced l !! n) <= len c'
            | None, None => True
            | _, _ => False
            end.
