(* ===== verification/WalReplay.v ===== *)
(** * Replay of write-ahead log segments

    Frame and segment-header round trips, what replay returns for intact and
    for torn segments, and that replay of arbitrary bytes terminates without
    an index out of range. *)
From S2P Require Import Prelude GoBinary Model Codec Readers WalEncoding WalRoundtrip WalSafety WalLog.
From stdpp Require Import prelude strings list gmap sorting.
From Stdlib Require Import ZArith Lia.
#[local] Open Scope Z_scope.

(** ** Reading exactly [n] bytes *)
Lemma readFull_all n bs : len bs = n -> reads_back (readFull n) bs bs.
Proof.
  intros <- rest. unfold readFull. zcase (len bs =? 0).
  { destruct bs; [done|unfold len in *; simpl in *; lia]. }
  assert ((len (bs ++ rest) =? 0) = false) as -> by zb.
  assert ((len (bs ++ rest) <? len bs) = false) as -> by zb.
  unfold len. by rewrite Nat2Z.id, take_app_length, drop_app_length.
Qed.
Lemma readFull_nil n : 0 < n -> readFull n [] = Err EOF.
Proof. intros. unfold readFull. by rewrite (proj2 (Z.eqb_neq n 0)) by lia. Qed.
Lemma readFull_short n bs : 0 < len bs < n -> readFull n bs = Err ErrUnexpectedEOF.
Proof.
  intros. unfold readFull. rewrite (proj2 (Z.eqb_neq n 0)), (proj2 (Z.eqb_neq (len bs) 0)) by lia.
  by rewrite (proj2 (Z.ltb_lt _ _)) by lia.
Qed.
Lemma readFull_inv n s a s' : readFull n s = Ok (a, s') -> 0 <= n -> s = a ++ s' /\ len a = n.
Proof.
  unfold readFull. intros H Hn. zcase (n =? 0); [by injection H as <- <-; subst|].
  zcase (len s =? 0); [done|]. zcase (len s <? n); [done|]. injection H as <- <-.
  rewrite take_drop. split; [done|]. unfold len in *. rewrite length_take. lia.
Qed.

(** ** Frames *)
Definition frame_of (rec : WalRecord) (frame : bytes) : Prop :=
  exists recordType payload, frame = encodeFrame recordType payload
    /\ 5 + len payload < 2 ^ 32 /\ decodeFramePayload recordType payload = Ok rec.

Lemma encodeFrame_len t p : len (encodeFrame t p) = 9 + len p.
Proof.
  unfold encodeFrame, len. rewrite !length_app, !be_put_u32_length, length_cons. lia.
Qed.

(** The body of a frame, as [readFrame] slices it. *)
Lemma frame_body t p (c : bytes) : length c = 4%nat ->
  let body := (t :: p) ++ c in
  take (Z.to_nat (len body - 4)) body = t :: p /\ drop (Z.to_nat (len body - 4)) body = c
  /\ slice 1 (len body - 4) body = p.
Proof.
  intros Hc body. assert (Z.to_nat (len body - 4) = length (t :: p)) as Hn
    by (unfold body, len; rewrite length_app; lia).
  unfold slice. rewrite Hn. unfold body. split_and!; [by apply take_app_length|by apply drop_app_length|].
  assert (Z.to_nat (len ((t :: p) ++ c) - 4 - 1) = length p) as -> by (simpl in Hn; unfold body in *; lia).
  change (Z.to_nat 1) with 1%nat. change (drop 1 ((t :: p) ++ c)) with (p ++ c). apply take_app_length.
Qed.

Lemma readFrame_frame rec frame : frame_of rec frame -> reads_back readFrame frame rec.
Proof.
  intros (t & p & -> & Hp & Hd). unfold encodeFrame, readFrame.
  pose proof (crc32c_range (t :: p)) as Hcrc.
  pose proof (be_put_u32_length (crc32c (t :: p))) as Hcl.
  set (body := (t :: p) ++ be_put_u32 (crc32c (t :: p))).
  assert (len body = 1 + len p + 4) as Hbl
    by (unfold body, len; rewrite length_app, be_put_u32_length, length_cons; lia).
  eapply reads_back_bind; [apply readFull_all; unfold len; by rewrite be_put_u32_length|].
  rewrite be_word_put_u32 by (apply Z.mod_pos_bound; lia).
  rewrite u32_id by (unfold len in *; split; lia).
  assert ((1 + len p + 4 <? 5) = false) as -> by zb.
  eapply reads_back_bind_nil; [by apply readFull_all|].
  destruct (frame_body t p _ Hcl) as (Ht & Hdr & Hsl). fold body in Ht, Hdr, Hsl.
  rewrite Ht, Hdr, Hsl.
  rewrite be_word_put_u32, Z.eqb_refl by done. simpl.
  eapply reads_back_bind_nil; [apply lift_ok|]. rewrite Hd. apply lift_ok.
Qed.

Lemma frame_of_len rec frame : frame_of rec frame -> 9 <= len frame < 2 ^ 32 + 4.
Proof. intros (t & p & -> & Hp & _). rewrite encodeFrame_len. unfold len in *. lia. Qed.

(** What [readFrame] makes of the first [k] bytes of a frame. *)
Definition torn_error (k : nat) : goerr :=
  if (k =? 0)%nat || (k =? 4)%nat then EOF else ErrUnexpectedEOF.
Lemma readFrame_torn rec frame k : frame_of rec frame -> (k < length frame)%nat ->
  readFrame (take k frame) = Err (torn_error k).
Proof.
  intros (t & p & -> & Hp & _) Hk. pose proof (encodeFrame_len t p) as Hl. unfold len in Hl.
  unfold readFrame, torn_error.
  destruct (decide (k = 0)%nat) as [->|]; [done|].
  destruct (decide (k < 4)%nat).
  { unfold mbind, reader_bind. rewrite readFull_short by (unfold len; rewrite length_take; lia).
    destruct k as [|[|[|[|]]]]; try lia; done. }
  unfold encodeFrame at 1.
  rewrite take_app_ge by (rewrite be_put_u32_length; lia). rewrite be_put_u32_length.
  eapply run_bind; [apply readFull_all; unfold len; by rewrite be_put_u32_length|].
  rewrite be_word_put_u32 by (apply Z.mod_pos_bound; lia).
  rewrite u32_id by (unfold len in *; split; lia).
  assert ((1 + len p + 4 <? 5) = false) as -> by zb.
  set (body := (t :: p) ++ _). assert (length body = (5 + length p)%nat) as Hbl
    by (unfold body; rewrite length_app, be_put_u32_length, length_cons; lia).
  unfold mbind, reader_bind. destruct (decide (k = 4)%nat) as [->|].
  { rewrite take_0, readFull_nil by (unfold len; lia). done. }
  rewrite readFull_short by (unfold len; rewrite length_take, Hbl; lia).
  rewrite (proj2 (Nat.eqb_neq k 0)), (proj2 (Nat.eqb_neq k 4)) by lia. done.
Qed.

(** A successful read consumes at least nine bytes. *)
Lemma readFrame_consumes s r s' : readFrame s = Ok (r, s') -> (length s' < length s)%nat.
Proof.
  unfold readFrame, mbind, reader_bind. intros H.
  destruct (readFull 4 s) as [[h s1]| |] eqn:E1; [|done|done].
  apply readFull_inv in E1 as [-> Hh]; [|lia].
  zcase (be_word h <? 5); [done|].
  destruct (readFull (be_word h) s1) as [[b s2]| |] eqn:E2; [|done|done].
  apply readFull_inv in E2 as [-> Hb]; [|lia].
  destruct (negb _); [done|]. unfold lift in H.
  destruct (idx b 0); [|done|done]. destruct (wrapErr _ _); [|done|done].
  injection H as _ <-. unfold len in Hh. rewrite length_app, length_app. lia.
Qed.

(** ** Segment header *)
Lemma appendSegmentHeader_len : len appendSegmentHeader = walSegmentHeaderLen.
Proof. vm_compute. reflexivity. Qed.
Lemma readSegmentHeader_append : reads_back readSegmentHeader appendSegmentHeader tt.
Proof.
  unfold readSegmentHeader.
  eapply reads_back_bind_nil; [apply readFull_all, appendSegmentHeader_len|]. cbv zeta.
  repeat match goal with
    |- reads_back (if negb ?b then _ else _) _ _ =>
      let H := fresh in assert (b = true) as H by (vm_compute; reflexivity); rewrite H; clear H;
      cbn [negb]
    end.
  apply reads_back_ret.
Qed.
Lemma readSegmentHeader_inv s : alloc_only (readSegmentHeader s)
  /\ forall s', readSegmentHeader s = Ok (tt, s') -> exists h, s = h ++ s' /\ len h = walSegmentHeaderLen.
Proof.
  unfold readSegmentHeader, mbind, reader_bind.
  destruct (readFull walSegmentHeaderLen s) as [[h s1]| |p] eqn:E; [|done|].
  - apply readFull_inv in E as [-> Hh]; [|done]. repeat (destruct (negb _); [done|]).
    split; [done|]. intros s' [= <-]. by exists h.
  - exfalso. unfold readFull in E. by repeat case_match.
Qed.

(** ** The replay loop *)
Lemma readFrame_spec : rspec readFrame (fun _ => True).
Proof.
  assert (forall n, 0 <= n -> rspec (readFull n) (fun bs => len bs = n)) as Hfull.
  { intros n Hn s Hs. destruct (readFull n s) as [[a s']| |p] eqn:E; [|done|].
    - apply readFull_inv in E as [-> Ha]; [|done]. split; [done|]. by apply Forall_app in Hs as [_ ?].
    - unfold readFull in E. by repeat case_match. }
  intros s Hs. unfold readFrame, mbind, reader_bind.
  destruct (readFull 4 s) as [[h s1]| |p] eqn:E1; [|done|by specialize (Hfull 4 ltac:(lia) s Hs); rewrite E1 in Hfull].
  apply readFull_inv in E1 as [-> Hh]; [|lia]. apply Forall_app in Hs as [Hhs Hs1].
  zcase (be_word h <? 5); [done|].
  destruct (readFull (be_word h) s1) as [[b s2]| |p] eqn:E2; [|done|
    by specialize (Hfull (be_word h) ltac:(lia) s1 Hs1); rewrite E2 in Hfull].
  apply readFull_inv in E2 as [-> Hb]; [|lia]. apply Forall_app in Hs1 as [Hbs Hs2].
  destruct (negb _); [done|]. unfold lift.
  destruct b as [|t b]; [unfold len in Hb; simpl in Hb; lia|]. change (idx (t :: b) 0) with (Ok t).
  cbv beta iota. unfold decodeFramePayload.
  assert (bytes_ok (slice 1 (len (t :: b) - 4) (t :: b))) as Hsl by (by apply Forall_take, Forall_drop).
  set (payload := slice _ _ _) in *.
  pose proof (decodeBatch_no_panic payload Hsl). pose proof (decodeTombstones_no_panic payload Hsl).
  destruct (t =? recordWriteBatch); [|destruct (t =? recordTombstone); [|done]]; simpl.
  - by destruct (decodeBatch payload) as [| |[]].
  - by destruct (decodeTombstones payload) as [| |[]].
Qed.

(** More fuel than unread bytes changes nothing: the loop always ends by
    itself. *)
Lemma replayLoop_fuel isLast fuel1 fuel2 offset rest records :
  (length rest < fuel1)%nat -> (length rest < fuel2)%nat ->
  replayLoop fuel1 isLast offset rest records = replayLoop fuel2 isLast offset rest records.
Proof.
  revert fuel2 offset rest records.
  induction fuel1 as [|fuel1 IH]; intros [|fuel2] offset rest records H1 H2; try lia. simpl.
  destruct (readFrame rest) as [[record rest']| |] eqn:E; [|done|done].
  apply readFrame_consumes in E. apply IH; lia.
Qed.

Lemma replayLoop_frames isLast recs frames tail fuel offset records :
  Forall2 frame_of recs frames -> (length (concat frames ++ tail) < fuel)%nat ->
  replayLoop fuel isLast offset (concat frames ++ tail) records
  = replayLoop (S (length tail)) isLast (offset + len (concat frames)) tail (records ++ recs).
Proof.
  intros HF. revert fuel offset records.
  induction HF as [|rec frame recs frames Hf HF IH]; intros fuel offset records Hfuel.
  { cbn [concat app] in *. rewrite app_nil_r. replace (offset + len (@nil Z)) with offset by (unfold len; simpl; lia).
    apply replayLoop_fuel; lia. }
  simpl concat in *. rewrite <- (assoc_L (++)) in *. destruct fuel as [|fuel]; [lia|].
  generalize dependent (S (length tail)). intros m IH.
  cbn [replayLoop]. rewrite (readFrame_frame _ _ Hf).
  pose proof (frame_of_len _ _ Hf) as Hl. rewrite (length_app frame) in Hfuel.
  rewrite IH by (unfold len in Hl; lia). rewrite <- (assoc_L (++) records). simpl. f_equal.
  unfold len. rewrite !length_app. lia.
Qed.

(** ** Segments *)
Definition segment_of (recs : list WalRecord) (file : bytes) : Prop :=
  exists frames, Forall2 frame_of recs frames /\ file = appendSegmentHeader ++ concat frames.

Lemma segment_of_nil : segment_of [] appendSegmentHeader.
Proof. exists []. split; [constructor|by rewrite app_nil_r]. Qed.
Lemma segment_of_snoc recs file rec frame :
  segment_of recs file -> frame_of rec frame -> segment_of (recs ++ [rec]) (file ++ frame).
Proof.
  intros (frames & HF & ->) Hf. exists (frames ++ [frame]). split; [by apply Forall2_app; [|constructor]|].
  rewrite concat_app, <- (assoc_L (++)). simpl. by rewrite app_nil_r.
Qed.
Lemma segment_of_len recs file : segment_of recs file -> walSegmentHeaderLen <= len file.
Proof.
  intros (frames & _ & ->). pose proof appendSegmentHeader_len. unfold len in *. rewrite length_app. lia.
Qed.

Lemma replayOpenSegment_frames isLast recs frames tail : Forall2 frame_of recs frames ->
  replayOpenSegment (appendSegmentHeader ++ concat frames ++ tail) isLast
  = replayLoop (S (length tail)) isLast (len (appendSegmentHeader ++ concat frames)) tail recs.
Proof.
  intros HF. unfold replayOpenSegment. rewrite readSegmentHeader_append.
  unfold mbind, outcome_bind. rewrite (replayLoop_frames isLast recs frames) by (done || lia). f_equal.
  pose proof appendSegmentHeader_len. unfold len in *. rewrite length_app. lia.
Qed.

Lemma replaySegment_intact recs file isLast : segment_of recs file ->
  replaySegment file isLast = Ok (recs, file).
Proof.
  intros (frames & HF & ->). unfold replaySegment.
  rewrite <- (app_nil_r (concat frames)) at 1. by rewrite (replayOpenSegment_frames _ recs).
Qed.

(** The last segment with the first [k] bytes of one more frame behind its
    frames: the records of the complete frames are returned; the torn frame is
    cut off, unless just its length field was written. *)
Lemma replaySegment_torn recs file rec frame k :
  segment_of recs file -> frame_of rec frame -> (k < length frame)%nat ->
  replaySegment (file ++ take k frame) true
  = Ok (recs, if bool_decide (k = 4%nat) then file ++ take k frame else file).
Proof.
  intros (frames & HF & ->) Hf Hk. unfold replaySegment.
  rewrite <- (assoc_L (++)), (replayOpenSegment_frames _ recs) by done.
  cbn [replayLoop]. rewrite (readFrame_torn rec frame k Hf Hk).
  unfold torn_error, isPartial. set (file := appendSegmentHeader ++ concat frames).
  rewrite (assoc_L (++)). fold file.
  destruct (decide (k = 0)%nat) as [->|]; [by rewrite take_0, app_nil_r|].
  rewrite (proj2 (Nat.eqb_neq k 0)) by done.
  destruct (decide (k = 4)%nat) as [->|]; [reflexivity|].
  rewrite (proj2 (Nat.eqb_neq k 4)), (bool_decide_false (k = 4%nat)) by done.
  unfold mbind, outcome_bind. cbn [orb].
  change (true && bool_decide (ErrUnexpectedEOF = ErrUnexpectedEOF)) with true. cbv beta iota.
  rewrite (proj2 (Z.leb_le 0 (len file))) by (unfold len; lia).
  unfold len. by rewrite Nat2Z.id, take_app_length.
Qed.

(** ** Arbitrary content *)
Lemma replayLoop_safe isLast fuel offset rest records : bytes_ok rest ->
  alloc_only (replayLoop fuel isLast offset rest records).
Proof.
  revert offset rest records. induction fuel as [|fuel IH]; intros offset rest records Hr; [done|]. simpl.
  pose proof (readFrame_spec rest Hr) as Hspec.
  destruct (readFrame rest) as [[record rest']|e|p]; [|by destruct e; simpl; try case_match|done].
  destruct Hspec. by apply IH.
Qed.

(** C14: replaying a segment of arbitrary bytes never indexes out of range (its only panic
    is an allocation that is too large), ends by itself (more fuel than unread bytes
    changes nothing), and only ever cuts a tail off the file. *)
Theorem replaySegment_safe file isLast : bytes_ok file ->
  alloc_only (replaySegment file isLast)
  /\ (forall rest fuel, readSegmentHeader file = Ok (tt, rest) -> (length rest < fuel)%nat ->
        replayLoop fuel isLast walSegmentHeaderLen rest [] = replayOpenSegment file isLast)
  /\ (forall records file', replaySegment file isLast = Ok (records, file') -> file' `prefix_of` file).
Proof.
  intros Hf. split_and!.
  - unfold replaySegment, replayOpenSegment.
    destruct (readSegmentHeader_inv file) as [Hp Hok].
    destruct (readSegmentHeader file) as [[[] rest]| |p]; [|done|done].
    destruct (Hok rest eq_refl) as (h & -> & _). apply Forall_app in Hf as [_ Hr].
    pose proof (replayLoop_safe isLast (S (length rest)) walSegmentHeaderLen rest [] Hr).
    unfold mbind, outcome_bind. destruct (replayLoop _ _ _ _ _) as [[]| |p]; [by case_match|done..].
  - intros rest fuel Hh Hfuel. unfold replayOpenSegment. rewrite Hh. apply replayLoop_fuel; lia.
  - unfold replaySegment. intros records file'.
    destruct (replayOpenSegment file isLast) as [[recs off]| |]; [|done|done].
    unfold mbind, outcome_bind. case_match; intros [= <- <-]; [|done].
    exists (drop (Z.to_nat off) file). by rewrite take_drop.
Qed.
Lemma replaySegment_safe_witness :
  alloc_only (replaySegment (appendSegmentHeader ++ [0; 0; 0; 9; 1; 255; 255]) true).
Proof.
  assert (bytes_ok (appendSegmentHeader ++ [0; 0; 0; 9; 1; 255; 255])) as H by by_decide.
  exact (proj1 (replaySegment_safe _ true H)).
Defined.

(** A record of one batch, as [Append] writes it. *)
Definition exampleFrame : bytes := encodeFrame recordWriteBatch exampleBytes.
Definition exampleRecord : WalRecord :=
  match decodeBatch exampleBytes with Ok points => mkRecord points [] | _ => mkRecord [] [] end.
Lemma exampleFrame_of : frame_of exampleRecord exampleFrame.
Proof. exists recordWriteBatch, exampleBytes. split_and!; [done|by vm_compute|vm_compute; reflexivity]. Qed.

(** C13: replaying the last segment with the first k bytes of one more frame behind its
    intact frames returns the records of the intact frames and cuts the torn frame
    off, except that a tear right behind the length field is left in the file. *)
Theorem replay_torn_segment recs file rec frame k :
  segment_of recs file -> frame_of rec frame -> (k < length frame)%nat ->
  replaySegment (file ++ take k frame) true
  = Ok (recs, if bool_decide (k = 4%nat) then file ++ take k frame else file).
Proof. apply replaySegment_torn. Qed.
Lemma replay_torn_segment_witness :
  replaySegment ((appendSegmentHeader ++ exampleFrame) ++ take 11 exampleFrame) true
  = Ok ([exampleRecord], appendSegmentHeader ++ exampleFrame).
Proof.
  apply (replay_torn_segment [exampleRecord] (appendSegmentHeader ++ exampleFrame) exampleRecord exampleFrame 11).
  - apply (segment_of_snoc []); [apply segment_of_nil|apply exampleFrame_of].
  - apply exampleFrame_of.
  - vm_compute. lia.
Defined.
