(* ===== verification/WalDurability.v ===== *)
(** * The write-ahead log as an append-only list of records

    [log_holds] relates a log to the records appended since the last
    checkpoint.  Every operation of the log preserves it, replay returns
    exactly those records, and after a crash replay returns what was fsynced. *)
From S2P Require Import Prelude GoBinary Model Codec Readers WalEncoding WalRoundtrip WalSafety WalLog WalReplay.
From stdpp Require Import prelude strings list gmap sorting.
From Stdlib Require Import ZArith Lia.
#[local] Open Scope Z_scope.

(** ** The directory listing *)
Lemma listSegments_sorted (segs : list (Z * bytes)) : StronglySorted Z.lt segs.*1 ->
  listSegments (list_to_map segs) = segs.*1.
Proof.
  intros Hs. unfold listSegments.
  assert (NoDup segs.*1) as Hnd.
  { clear -Hs. induction Hs as [|n ns Hs IH Hall]; constructor; [|done].
    intros Hin. rewrite Forall_forall in Hall. specialize (Hall n Hin). lia. }
  apply (StronglySorted_unique Z.le).
  - apply (StronglySorted_merge_sort Z.le).
  - clear -Hs. induction Hs as [|n ns Hs IH Hall]; constructor; [done|].
    eapply Forall_impl; [exact Hall|]. simpl. lia.
  - rewrite merge_sort_Permutation. apply fmap_Permutation. by apply map_to_list_to_map.
Qed.

Lemma list_to_map_snoc (segs : list (Z * bytes)) n file : n ∉ segs.*1 ->
  list_to_map (M := gmap Z bytes) (segs ++ [(n, file)]) = <[n := file]> (list_to_map segs).
Proof.
  induction segs as [|[m f] segs IH]; [done|]. intros Hn. apply not_elem_of_cons in Hn as [Hm Hn].
  simpl. rewrite IH by done. by rewrite insert_insert_ne.
Qed.

(** ** The abstraction relation

    [old] are the closed segments, [cur] the content of the open one. *)
Record log_shape (l : Log) (old : list (Z * bytes)) (oldRecs : list (list WalRecord))
    (cur : bytes) (curRecs : list WalRecord) : Prop := mkShape {
  ls_dir : lg_dir l = list_to_map (old ++ [(lg_segment l, cur)]);
  ls_sorted : StronglySorted Z.lt old.*1;
  ls_last : Forall (fun n => n < lg_segment l) old.*1;
  ls_old : Forall2 segment_of oldRecs old.*2;
  ls_cur : segment_of curRecs cur;
  ls_size : lg_size l = len cur;
  ls_open : lg_open l = true;
}.
Definition log_holds (l : Log) (recs : list WalRecord) : Prop :=
  exists old oldRecs cur curRecs, log_shape l old oldRecs cur curRecs /\ recs = concat oldRecs ++ curRecs.

Lemma shape_fresh l old oldRecs cur curRecs : log_shape l old oldRecs cur curRecs -> lg_segment l ∉ old.*1.
Proof.
  intros H Hin. pose proof (ls_last _ _ _ _ _ H) as Hl. rewrite Forall_forall in Hl.
  specialize (Hl _ Hin). lia.
Qed.
Lemma shape_insert l old oldRecs cur curRecs : log_shape l old oldRecs cur curRecs ->
  lg_dir l = <[lg_segment l := cur]> (list_to_map old).
Proof. intros H. rewrite (ls_dir _ _ _ _ _ H). apply list_to_map_snoc. by eapply shape_fresh. Qed.
Lemma shape_all_sorted l old oldRecs cur curRecs : log_shape l old oldRecs cur curRecs ->
  StronglySorted Z.lt (old ++ [(lg_segment l, cur)]).*1.
Proof.
  intros H. pose proof (ls_last _ _ _ _ _ H) as Hl. pose proof (ls_sorted _ _ _ _ _ H) as Hs.
  rewrite fmap_app. simpl. clear H. induction Hs as [|n ns Hs IH Hall]; simpl; [repeat constructor|].
  inversion_clear Hl. constructor; [by apply IH|]. apply Forall_app. split; [done|by constructor].
Qed.

(** A new segment behind the last one. *)
Lemma openSegment_next l old oldRecs cur curRecs : log_shape l old oldRecs cur curRecs ->
  log_shape (openSegment (closeFile l) (lg_segment l + 1)) (old ++ [(lg_segment l, cur)])
    (oldRecs ++ [curRecs]) appendSegmentHeader [].
Proof.
  intros H. pose proof H as [Hd Hs Hl Ho Hc Hz Hop].
  assert (Forall (fun n => n < lg_segment l + 1) (old ++ [(lg_segment l, cur)]).*1) as Hlt.
  { rewrite fmap_app. apply Forall_app. split; [|apply Forall_singleton; simpl; lia].
    eapply Forall_impl; [exact Hl|]. simpl; lia. }
  assert (lg_segment l + 1 ∉ (old ++ [(lg_segment l, cur)]).*1) as Hni.
  { intros Hin. rewrite Forall_forall in Hlt. specialize (Hlt _ Hin). lia. }
  unfold openSegment. simpl. rewrite Hd. rewrite not_elem_of_list_to_map_1 by done. simpl.
  constructor; simpl; try done.
  - by rewrite (list_to_map_snoc (old ++ _)).
  - by eapply shape_all_sorted.
  - rewrite fmap_app. apply Forall2_app; [done|by repeat constructor].
  - apply segment_of_nil.
Qed.

(** Fsyncing changes neither content nor position. *)
Lemma shape_sync l old oldRecs cur curRecs :
  log_shape l old oldRecs cur curRecs -> log_shape (syncFile l) old oldRecs cur curRecs.
Proof. intros []. by constructor. Qed.

Lemma shape_write l old oldRecs cur curRecs rec frame l' :
  log_shape l old oldRecs cur curRecs -> frame_of rec frame -> writeFrame l frame = Ok l' ->
  log_shape l' old oldRecs (cur ++ frame) (curRecs ++ [rec]).
Proof.
  intros H Hf Hw. pose proof H as [Hd Hs Hl Ho Hc Hz Hop].
  unfold writeFrame in Hw. rewrite Hop in Hw. injection Hw as <-.
  pose proof (shape_insert _ _ _ _ _ H) as Hi.
  constructor; simpl; try done.
  - rewrite Hi, lookup_insert_eq. simpl. rewrite insert_insert_eq.
    symmetry. apply list_to_map_snoc. by eapply shape_fresh.
  - by apply segment_of_snoc.
  - rewrite Hz. unfold len. rewrite length_app. lia.
Qed.

(** ** Operations *)
Lemma appendFrameLocked_holds l recs rec t p sync : log_holds l recs ->
  5 + len p < 2 ^ 32 -> decodeFramePayload t p = Ok rec ->
  exists l', appendFrameLocked l t p sync = Ok l' /\ log_holds l' (recs ++ [rec]).
Proof.
  intros (old & oldRecs & cur & curRecs & H & ->) Hp Hd.
  assert (frame_of rec (encodeFrame t p)) as Hf by (by exists t, p).
  unfold appendFrameLocked. set (frame := encodeFrame t p) in *.
  assert (exists l0 old' oldRecs' cur' curRecs', rollIfNeeded l (len frame) = Ok l0
    /\ log_shape l0 old' oldRecs' cur' curRecs' /\ concat oldRecs' ++ curRecs' = concat oldRecs ++ curRecs)
    as (l0 & old' & oldRecs' & cur' & curRecs' & -> & H0 & <-).
  { unfold rollIfNeeded. destruct (_ || _); [by eauto 10|]. rewrite (ls_open _ _ _ _ _ H). simpl.
    eexists _, _, _, _, _. split_and!; [done|by eapply openSegment_next|].
    rewrite concat_app. simpl. by rewrite !app_nil_r. }
  unfold mbind, outcome_bind.
  destruct (writeFrame l0 frame) as [l1| |] eqn:Hw.
  2,3: unfold writeFrame in Hw; by rewrite (ls_open _ _ _ _ _ H0) in Hw.
  pose proof (shape_write _ _ _ _ _ _ _ _ H0 Hf Hw) as H1. rewrite <- (assoc_L (++)).
  eexists. split; [done|]. exists old', oldRecs', (cur' ++ frame), (curRecs' ++ [rec]). split; [|done].
  case_match; [by apply shape_sync|done].
Qed.

Lemma FlushPending_holds l recs : log_holds l recs -> log_holds (FlushPending l) recs.
Proof.
  intros (old & oldRecs & cur & curRecs & H & ->). exists old, oldRecs, cur, curRecs. split; [|done].
  unfold FlushPending, syncPendingLocked. case_match; [done|by apply shape_sync].
Qed.

Lemma listSegments_elem dir n : n ∈ listSegments dir <-> is_Some (dir !! n).
Proof.
  unfold listSegments. rewrite merge_sort_Permutation, list_elem_of_fmap. split.
  - intros ([m f] & -> & Hin%elem_of_map_to_list). by eexists.
  - intros [f Hf]. exists (n, f). split; [done|by apply elem_of_map_to_list].
Qed.
Lemma removeSegments_fold (keep : Z -> bool) (ns : list Z) l n :
  let l' := fold_left (fun l n => if keep n then l else removeSegment l n) ns l in
  lg_dir l' !! n = (if bool_decide (n ∈ ns) && negb (keep n) then None else lg_dir l !! n)
  /\ lg_segment l' = lg_segment l /\ lg_size l' = lg_size l /\ lg_open l' = lg_open l
  /\ lg_opts l' = lg_opts l.
Proof.
  revert l. induction ns as [|m ns IH]; intros l; [done|]. simpl.
  destruct (IH (if keep m then l else removeSegment l m)) as (-> & -> & -> & -> & ->).
  destruct (keep m) eqn:Hk; simpl; (split; [|by split_and!]).
  - destruct (decide (n = m)) as [->|]; [by rewrite Hk, !andb_false_r|].
    by rewrite (bool_decide_ext (n ∈ m :: ns) (n ∈ ns)) by set_solver.
  - destruct (decide (n = m)) as [->|].
    + rewrite lookup_delete_eq, Hk. rewrite (bool_decide_true (m ∈ m :: ns)) by set_solver. by destruct (bool_decide (m ∈ ns)).
    + by rewrite lookup_delete_ne, (bool_decide_ext (n ∈ m :: ns) (n ∈ ns)) by set_solver.
Qed.
Lemma removeSegments_lookup keep l n :
  lg_dir (removeSegments keep l) !! n = if keep n then lg_dir l !! n else None.
Proof.
  unfold removeSegments. destruct (removeSegments_fold keep (listSegments (lg_dir l)) l n) as [-> _].
  destruct (keep n); [by rewrite andb_false_r|]. rewrite andb_true_r. case_bool_decide as Hin; [done|].
  rewrite listSegments_elem in Hin. by apply eq_None_not_Some.
Qed.
Lemma removeSegments_rest keep l : let l' := removeSegments keep l in
  lg_segment l' = lg_segment l /\ lg_size l' = lg_size l /\ lg_open l' = lg_open l /\ lg_opts l' = lg_opts l.
Proof. exact (proj2 (removeSegments_fold keep (listSegments (lg_dir l)) l 0)). Qed.

Lemma shape_fresh_log l : lg_dir l = {[lg_segment l := appendSegmentHeader]} ->
  lg_size l = walSegmentHeaderLen -> lg_open l = true -> log_holds l [].
Proof.
  intros Hd Hz Ho. exists [], [], appendSegmentHeader, []. split; [|done].
  constructor; simpl; try done; [apply SSorted_nil|apply segment_of_nil].
Qed.

Lemma next_segment_only l1 recs : log_holds l1 recs ->
  let l' := removeSegments (fun n => lg_segment l1 <? n) (openSegment (closeFile l1) (lg_segment l1 + 1)) in
  lg_dir l' = {[lg_segment l' := appendSegmentHeader]} /\ lg_size l' = walSegmentHeaderLen /\ lg_open l' = true.
Proof.
  intros (old & oldRecs & cur & curRecs & H & _).
  pose proof (openSegment_next _ _ _ _ _ H) as H2. set (l2 := openSegment _ _) in *.
  destruct (removeSegments_rest (fun n => lg_segment l1 <? n) l2) as (Hs & Hz & Ho & _).
  split_and!; [|by rewrite Hz, (ls_size _ _ _ _ _ H2)|by rewrite Ho].
  apply map_eq. intros n. rewrite removeSegments_lookup, Hs, (shape_insert _ _ _ _ _ H2).
  change (lg_segment l2) with (lg_segment l1 + 1). zcase (lg_segment l1 <? n).
  - destruct (decide (n = lg_segment l1 + 1)) as [->|]; [by rewrite lookup_insert_eq, lookup_singleton_eq|].
    rewrite lookup_insert_ne, lookup_singleton_ne by done. apply not_elem_of_list_to_map_1.
    intros Hin. pose proof (ls_last _ _ _ _ _ H2) as Hlt. rewrite Forall_forall in Hlt.
    specialize (Hlt _ Hin). change (lg_segment l2) with (lg_segment l1 + 1) in Hlt. lia.
  - by rewrite lookup_singleton_ne by lia.
Qed.
Lemma Checkpoint_shape l recs : log_holds l recs ->
  lg_dir (Checkpoint l) = {[lg_segment (Checkpoint l) := appendSegmentHeader]}
  /\ lg_size (Checkpoint l) = walSegmentHeaderLen /\ lg_open (Checkpoint l) = true.
Proof. intros Hl%FlushPending_holds. exact (next_segment_only _ _ Hl). Qed.
Lemma Checkpoint_holds l recs : log_holds l recs -> log_holds (Checkpoint l) [].
Proof. intros (? & ? & ?)%Checkpoint_shape. by apply shape_fresh_log. Qed.

Lemma TruncateAll_dir l : lg_dir (TruncateAll l) = {[lg_segment (TruncateAll l) := appendSegmentHeader]}
  /\ lg_size (TruncateAll l) = walSegmentHeaderLen.
Proof.
  unfold TruncateAll. set (l1 := removeSegments _ _).
  assert (lg_dir l1 = ∅) as Hd by (apply map_eq; intros n; unfold l1; by rewrite removeSegments_lookup).
  simpl. rewrite Hd. split; [done|]. apply appendSegmentHeader_len.
Qed.
Lemma TruncateAll_holds l : log_holds (TruncateAll l) [].
Proof. destruct (TruncateAll_dir l). by apply shape_fresh_log. Qed.
Lemma Open_empty_holds opts : log_holds (Open ∅ opts) [].
Proof. by apply shape_fresh_log; unfold Open; case_match. Qed.

(** ** Replay *)
Lemma replaySegments_last (old : list (Z * bytes)) oldRecs n c (dir : gmap Z bytes) acc :
  Forall2 segment_of oldRecs old.*2 ->
  (forall m f, (m, f) ∈ old -> dir !! m = Some f) -> dir !! n = Some c ->
  replaySegments (old.*1 ++ [n]) dir acc
  = ('(recs, file) ← replaySegment c true;
     Ok (acc ++ concat oldRecs ++ recs, <[n := file]> dir)).
Proof.
  revert oldRecs acc. induction old as [|[m f] old IH]; intros oldRecs acc HF Hold Hn.
  { inversion HF; subst. simpl. rewrite Hn. simpl.
    destruct (replaySegment c true) as [[recs file]| |]; done. }
  inversion HF as [|rs ? rss ? Hf HF']; subst. cbn [fmap list_fmap fst app replaySegments].
  rewrite (Hold m f) by (apply list_elem_of_here). cbn [default].
  rewrite bool_decide_false by (by destruct old.*1). simpl in Hf.
  rewrite (replaySegment_intact rs f) by done. unfold mbind at 1, outcome_bind at 1.
  rewrite insert_id by (apply Hold, list_elem_of_here).
  rewrite IH with (oldRecs := rss); [|done|by intros; apply Hold, list_elem_of_further|done].
  destruct (replaySegment c true) as [[recs file]| |]; [|done|done]. simpl.
  by rewrite <- !(assoc_L (++)).
Qed.

Lemma ReplayRecords_dir l old oldRecs c : lg_dir l = list_to_map (old ++ [(lg_segment l, c)]) ->
  StronglySorted Z.lt (old ++ [(lg_segment l, c)]).*1 -> Forall2 segment_of oldRecs old.*2 ->
  ReplayRecords l = ('(recs, file) ← replaySegment c true;
    Ok (concat oldRecs ++ recs, setDir l (<[lg_segment l := file]> (lg_dir l)))).
Proof.
  intros Hd Hs HF. unfold ReplayRecords. rewrite Hd, listSegments_sorted by done.
  assert (NoDup (old ++ [(lg_segment l, c)]).*1) as Hnd.
  { clear -Hs. induction Hs as [|n ns Hs IH Hall]; constructor; [|done].
    intros Hin. rewrite Forall_forall in Hall. specialize (Hall n Hin). lia. }
  rewrite fmap_app. cbn [fmap list_fmap fst]. rewrite (replaySegments_last old oldRecs _ c); [|done| |].
  - by destruct (replaySegment c true) as [[recs file]| |].
  - intros m f Hin. apply elem_of_list_to_map_1; [done|]. apply elem_of_app. by left.
  - apply elem_of_list_to_map_1; [done|]. apply elem_of_app. right. apply list_elem_of_here.
Qed.

Lemma setDir_id l : setDir l (lg_dir l) = l.
Proof. by destruct l. Qed.

Lemma ReplayRecords_holds l recs : log_holds l recs -> ReplayRecords l = Ok (recs, l).
Proof.
  intros (old & oldRecs & cur & curRecs & H & ->).
  rewrite (ReplayRecords_dir l old oldRecs cur);
    [|apply (ls_dir _ _ _ _ _ H)|by eapply shape_all_sorted|apply (ls_old _ _ _ _ _ H)].
  rewrite (replaySegment_intact curRecs) by apply (ls_cur _ _ _ _ _ H). simpl.
  rewrite (insert_id (lg_dir l)); [by rewrite setDir_id|].
  by rewrite (shape_insert _ _ _ _ _ H), lookup_insert_eq.
Qed.

(** ** Refinement: a log is the list of its records

    A failed append returns its error and leaves the log as it was. *)
Inductive log_op :=
  | OpAppend (points : list ResolvedPoint) (syncWrite : bool)
  | OpAppendTombstones (tombstones : list Tombstone) (syncWrite : bool)
  | OpFlushPending
  | OpReplay
  | OpCheckpoint
  | OpTruncateAll.

Definition run_op (l : Log) (op : log_op) : Log :=
  match op with
  | OpAppend points sync => match Append l points sync with Ok l' => l' | _ => l end
  | OpAppendTombstones tombstones sync =>
      match AppendTombstones l tombstones sync with Ok l' => l' | _ => l end
  | OpFlushPending => FlushPending l
  | OpReplay => match ReplayRecords l with Ok (_, l') => l' | _ => l end
  | OpCheckpoint => Checkpoint l
  | OpTruncateAll => TruncateAll l
  end.
Definition run_ops (l : Log) (ops : list log_op) : Log := fold_left run_op ops l.

(** What the operations mean for the list of records. *)
Definition spec_op (recs : list WalRecord) (op : log_op) : list WalRecord :=
  match op with
  | OpAppend points _ =>
      match encodeBatchInto points with Ok _ => recs ++ [mkRecord points []] | _ => recs end
  | OpAppendTombstones tombstones _ => recs ++ [mkRecord [] tombstones]
  | OpFlushPending | OpReplay => recs
  | OpCheckpoint | OpTruncateAll => []
  end.
Definition spec_ops (ops : list log_op) : list WalRecord := fold_left spec_op ops [].

Definition same_record (r r' : WalRecord) : Prop :=
  Forall2 same_point (rec_Points r) (rec_Points r') /\ rec_Tombstones r = rec_Tombstones r'.

(** Payloads that the decoder accepts and whose length fits the frame header. *)
Definition op_ok (op : log_op) : Prop :=
  match op with
  | OpAppend points _ =>
      Forall point_ok points /\ Forall fields_sorted points /\ batch_fits points
      /\ (forall payload, encodeBatchInto points = Ok payload -> 5 + len payload < 2 ^ 32)
  | OpAppendTombstones tombstones _ =>
      Forall tombstone_ok tombstones /\ fits (len tombstones)
      /\ 5 + len (encodeTombstones tombstones) < 2 ^ 32
  | _ => True
  end.

Lemma run_op_holds l recs spec op : op_ok op -> log_holds l recs -> Forall2 same_record spec recs ->
  exists recs', log_holds (run_op l op) recs' /\ Forall2 same_record (spec_op spec op) recs'.
Proof.
  intros Hop Hl HF. destruct op as [points sync|tombstones sync| | | |]; simpl.
  - destruct Hop as (Hp & Hs & Hb & Hlen). unfold Append.
    destruct (encodeBatchInto points) as [payload| |] eqn:He; simpl; [|by exists recs|by exists recs].
    destruct (encodeBatchInto_roundtrip _ _ Hp Hs Hb He) as (points' & Hd & HF').
    destruct (appendFrameLocked_holds l recs (mkRecord points' []) recordWriteBatch payload sync)
      as (l' & -> & Hl'); [done|by apply Hlen|by unfold decodeFramePayload; simpl; rewrite Hd|].
    exists (recs ++ [mkRecord points' []]). split; [done|]. by apply Forall2_app; [|constructor].
  - destruct Hop as (Ht & Hf & Hlen). unfold AppendTombstones.
    destruct (appendFrameLocked_holds l recs (mkRecord [] tombstones) recordTombstone
      (encodeTombstones tombstones) sync) as (l' & -> & Hl'); [done|done| |].
    { unfold decodeFramePayload. simpl. by rewrite decodeTombstones_encode. }
    exists (recs ++ [mkRecord [] tombstones]). split; [done|]. apply Forall2_app; [done|].
    repeat constructor.
  - exists recs. split; [by apply FlushPending_holds|done].
  - rewrite (ReplayRecords_holds l recs) by done. by exists recs.
  - exists []. split; [by eapply Checkpoint_holds|constructor].
  - exists []. split; [apply TruncateAll_holds|constructor].
Qed.

Lemma run_ops_holds l recs spec ops : Forall op_ok ops -> log_holds l recs -> Forall2 same_record spec recs ->
  exists recs', log_holds (run_ops l ops) recs' /\ Forall2 same_record (fold_left spec_op ops spec) recs'.
Proof.
  intros Hops. revert l recs spec. induction Hops as [|op ops Hop Hops IH]; intros l recs spec Hl HF;
    simpl; [by exists recs|].
  destruct (run_op_holds l recs spec op Hop Hl HF) as (recs' & Hl' & HF'). by eapply IH.
Qed.


(** Small segments, so that the second append rolls. *)
Definition exampleOptions : Options := mkOptions true 64 0 0.
Definition exampleOps : list log_op :=
  [OpAppendTombstones exampleTombstones false; OpCheckpoint; OpAppend exampleBatch false;
   OpAppend sparseBatch true; OpAppendTombstones exampleTombstones true].
Lemma exampleOps_ok : Forall op_ok exampleOps.
Proof.
  assert (Forall op_ok [OpAppendTombstones exampleTombstones false]) as H1.
  { constructor; [|done]. split_and!; by_decide. }
  assert (op_ok (OpAppend exampleBatch false)) as H2.
  { split_and!; [solve_example_points|repeat constructor|split; by_decide|].
    intros payload He. vm_compute in He. injection He as <-. by_decide. }
  assert (op_ok (OpAppend sparseBatch true)) as H3.
  { split_and!; [solve_example_points|repeat constructor|split; by_decide|].
    intros payload He. vm_compute in He. discriminate. }
  inversion_clear H1. repeat (constructor; [done|]). done.
Qed.

(** ** Crashes *)

Lemma prefix_of_app_split {A} (a b bs : list A) : bs `prefix_of` a ++ b -> (length a <= length bs)%nat ->
  bs = a ++ drop (length a) bs /\ drop (length a) bs `prefix_of` b.
Proof.
  intros [z Hz] Hl. assert (bs = a ++ drop (length a) bs) as Hbs.
  { pose proof (f_equal (take (length a)) Hz) as Ht.
    rewrite take_app_length, take_app_le in Ht by done. rewrite Ht at 1. by rewrite take_drop. }
  split; [done|]. rewrite Hbs in Hz. rewrite <- (assoc_L (++)) in Hz. apply app_inv_head in Hz. by exists z.
Qed.

(** Every prefix of a run of frames is a number of whole frames and part of
    the next one. *)
Lemma prefix_frames (frames : list bytes) bs : bs `prefix_of` concat frames ->
  bs = concat frames
  \/ exists k j frame, frames !! k = Some frame /\ (j < length frame)%nat
       /\ bs = concat (take k frames) ++ take j frame.
Proof.
  revert bs. induction frames as [|f frames IH]; intros bs Hp; simpl in *.
  { left. by apply prefix_nil_inv in Hp. }
  destruct (decide (length f <= length bs)%nat) as [Hl|Hl].
  - destruct (prefix_of_app_split _ _ _ Hp Hl) as [Hbs Hp'].
    destruct (IH _ Hp') as [Heq|(k & j & g & Hk & Hj & Heq)].
    + left. by rewrite Hbs, Heq.
    + right. exists (S k), j, g. split_and!; [done|done|]. simpl. by rewrite <- (assoc_L (++)), <- Heq.
  - right. exists 0%nat, (length bs), f. split_and!; [done|lia|]. simpl.
    destruct Hp as [z Hz]. rewrite <- (take_app_le f (concat frames)) by lia.
    by rewrite Hz, take_app_length.
Qed.

(** The last segment cut anywhere behind its header. *)
Lemma replaySegment_prefix recs file file' : segment_of recs file -> file' `prefix_of` file ->
  walSegmentHeaderLen <= len file' ->
  exists k kept, replaySegment file' true = Ok (take k recs, kept) /\ (file' = file -> take k recs = recs).
Proof.
  intros (frames & HF & ->) Hp Hl.
  assert (exists body, file' = appendSegmentHeader ++ body /\ body `prefix_of` concat frames) as (body & -> & Hb).
  { pose proof appendSegmentHeader_len as Hh. exists (drop (length appendSegmentHeader) file').
    apply prefix_of_app_split; [done|]. unfold len in *. lia. }
  destruct (prefix_frames _ _ Hb) as [->|(k & j & frame & Hk & Hj & ->)].
  { exists (length recs). eexists. rewrite firstn_all.
    rewrite (replaySegment_intact recs) by (by exists frames). done. }
  destruct (Forall2_lookup_r _ _ _ _ _ HF Hk) as (rec & Hrec & Hfr).
  exists k. rewrite (assoc_L (++)).
  rewrite (replaySegment_torn (take k recs) _ rec frame j); [|by exists (take k frames); split; [apply Forall2_take|]|done|done].
  eexists. split; [done|]. intros Heq. exfalso.
  assert (length ((appendSegmentHeader ++ concat (take k frames)) ++ take j frame)
          = length (appendSegmentHeader ++ concat frames)) as Hlen
    by (by rewrite Heq).
  assert (concat frames = concat (take k frames) ++ frame ++ concat (drop (S k) frames)) as Hc.
  { rewrite <- (take_drop_middle _ _ _ Hk) at 1. by rewrite concat_app. }
  rewrite Hc, !length_app, length_take in Hlen. lia.
Qed.

(** What is on disk for sure: every closed segment, respectively the open one. *)
Definition old_synced (l : Log) : Prop := forall n f,
  lg_dir l !! n = Some f -> n <> lg_segment l -> len f <= default 0 (lg_synced l !! n).
Definition cur_synced (l : Log) : Prop := forall f, lg_dir l !! lg_segment l = Some f ->
  f = appendSegmentHeader \/ len f <= default 0 (lg_synced l !! lg_segment l).
(** The crash did not leave part of a segment header. *)
Definition header_whole (l : Log) (dir : gmap Z bytes) : Prop := forall f,
  dir !! lg_segment l = Some f -> f = [] \/ walSegmentHeaderLen <= len f.

Lemma prefix_full {A} (a b : list A) : a `prefix_of` b -> len b <= len a -> a = b.
Proof. intros. apply prefix_length_eq; [done|]. unfold len in *. lia. Qed.

Lemma crash_dir l old oldRecs cur curRecs dir : log_shape l old oldRecs cur curRecs ->
  old_synced l -> crash_of l dir ->
  exists c, dir = list_to_map (old ++ [(lg_segment l, c)]) /\ c `prefix_of` cur
    /\ default 0 (lg_synced l !! lg_segment l) <= len c.
Proof.
  intros H Hold Hcr. pose proof (shape_insert _ _ _ _ _ H) as Hd.
  pose proof (Hcr (lg_segment l)) as Hs. rewrite Hd, lookup_insert_eq in Hs.
  destruct (dir !! lg_segment l) as [c|] eqn:Hc; [|done]. destruct Hs as [Hp Hsync].
  exists c. split_and!; [|done|done]. rewrite list_to_map_snoc by (by eapply shape_fresh).
  apply map_eq. intros n. destruct (decide (n = lg_segment l)) as [->|Hn]; [by rewrite lookup_insert_eq|].
  rewrite lookup_insert_ne by done. specialize (Hcr n). specialize (Hold n).
  rewrite Hd, lookup_insert_ne in Hcr, Hold by done.
  destruct ((list_to_map old : gmap Z bytes) !! n) as [f|], (dir !! n) as [f'|]; try done.
  destruct Hcr as [Hp' Hl]. f_equal. apply prefix_full; [done|]. specialize (Hold f eq_refl Hn). lia.
Qed.

(** Reopening a directory whose last segment is [c]. *)
Lemma Open_dir dir opts old n c : dir = list_to_map (old ++ [(n, c)]) ->
  StronglySorted Z.lt (old ++ [(n, c)]).*1 ->
  let c' := if len c =? 0 then appendSegmentHeader else c in
  let l := Open dir opts in
  lg_dir l = list_to_map (old ++ [(n, c')]) /\ lg_segment l = n /\ lg_size l = len c' /\ lg_open l = true.
Proof.
  intros -> Hs c' l. unfold l, Open.
  generalize (if opt_SegmentBytes opts <=? 0 then mkOptions (opt_Sync opts) defaultSegmentBytes
    (opt_BatchRecords opts) (opt_BatchBytes opts) else opts). intros o. unfold openLastSegment. cbn [lg_dir].
  rewrite listSegments_sorted by done. rewrite fmap_app, last_app. cbn [fmap list_fmap last fst].
  assert (n ∉ old.*1) as Hn.
  { clear -Hs. intros Hin. rewrite fmap_app in Hs. cbn [fmap list_fmap fst] in Hs.
    induction (old.*1) as [|m ms IH]; [by apply elem_of_nil in Hin|]. inversion_clear Hs as [|?? Hs' Hall].
    apply elem_of_cons in Hin as [->|Hin]; [|by apply IH].
    rewrite Forall_forall in Hall. specialize (Hall m ltac:(set_solver)). lia. }
  rewrite !list_to_map_snoc by done. unfold openSegment. simpl. rewrite lookup_insert_eq. simpl. fold c'.
  by rewrite insert_insert_eq.
Qed.

Lemma segment_of_header recs : segment_of recs appendSegmentHeader -> recs = [].
Proof.
  intros (frames & HF & Heq). rewrite <- (app_nil_r appendSegmentHeader) in Heq at 1.
  apply app_inv_head in Heq. destruct HF as [|rec frame recs frames Hf]; [done|].
  pose proof (frame_of_len _ _ Hf) as Hl. apply (f_equal len) in Heq. unfold len in *. simpl in Heq.
  rewrite length_app in Heq. lia.
Qed.

Lemma crash_recovers l recs dir opts : log_holds l recs -> old_synced l -> crash_of l dir ->
  header_whole l dir ->
  (exists k l', ReplayRecords (Open dir opts) = Ok (take k recs, l'))
  /\ (cur_synced l -> log_holds (Open dir opts) recs).
Proof.
  intros (old & oldRecs & cur & curRecs & H & ->) Hold Hcr Hh.
  destruct (crash_dir _ _ _ _ _ _ H Hold Hcr) as (c & Hd & Hp & Hsy).
  pose proof (shape_all_sorted _ _ _ _ _ H) as Hsort.
  assert (StronglySorted Z.lt (old ++ [(lg_segment l, c)]).*1) as Hsort' by (by rewrite fmap_app in *).
  destruct (Open_dir dir opts _ _ _ Hd Hsort') as (Hod & Hos & Hoz & Hoo).
  set (c' := if len c =? 0 then appendSegmentHeader else c) in *.
  assert (c = [] \/ walSegmentHeaderLen <= len c) as Hc.
  { apply Hh. rewrite Hd, list_to_map_snoc, lookup_insert_eq by (by eapply shape_fresh). done. }
  assert (c' `prefix_of` cur /\ walSegmentHeaderLen <= len c') as [Hp' Hl'].
  { unfold c'. zcase (len c =? 0); [|destruct Hc as [->|]; done].
    destruct (ls_cur _ _ _ _ _ H) as (frames & _ & ->). split; [by exists (concat frames)|].
    by rewrite appendSegmentHeader_len. }
  rewrite <- Hos in Hod, Hsort. pose proof (ls_old _ _ _ _ _ H) as HF. split.
  - destruct (replaySegment_prefix curRecs cur c' (ls_cur _ _ _ _ _ H) Hp' Hl') as (k & kept & Hr & _).
    exists (length (concat oldRecs) + k)%nat. eexists.
    rewrite (ReplayRecords_dir _ old oldRecs c'); [|done|by rewrite fmap_app in *|done]. rewrite Hr. simpl.
    rewrite take_app_ge by lia. by replace (length (concat oldRecs) + k - length (concat oldRecs))%nat with k by lia.
  - intros Hcur. assert (c' = cur) as Hcc.
    { destruct (Hcur cur) as [->|Hfull].
      - by rewrite (shape_insert _ _ _ _ _ H), lookup_insert_eq.
      - apply prefix_full; [done|]. by rewrite appendSegmentHeader_len.
      - apply prefix_full; [done|]. pose proof (segment_of_len _ _ (ls_cur _ _ _ _ _ H)) as H15.
        unfold c' in *. zcase (len c =? 0); [unfold walSegmentHeaderLen in *; lia|lia]. }
    exists old, oldRecs, cur, curRecs. split; [|done]. rewrite Hcc in *.
    constructor; try done; [apply (ls_sorted _ _ _ _ _ H)| |apply (ls_cur _ _ _ _ _ H)].
    rewrite Hos. apply (ls_last _ _ _ _ _ H).
Qed.

(** ** Logs that fsync every append *)
Definition sync_mode (l : Log) : Prop := opt_Sync (lg_opts l) = true.
Definition durable (l : Log) : Prop := old_synced l /\ cur_synced l.
(** Any one frame fits a fresh segment, so that no empty segment is ever closed. *)
Definition frame_fits (opts : Options) (op : log_op) : Prop :=
  match op with
  | OpAppend points _ => forall payload, encodeBatchInto points = Ok payload ->
      walSegmentHeaderLen + 9 + len payload <= opt_SegmentBytes opts
  | OpAppendTombstones tombstones _ =>
      walSegmentHeaderLen + 9 + len (encodeTombstones tombstones) <= opt_SegmentBytes opts
  | _ => True
  end.

Lemma durable_fresh l : lg_dir l = {[lg_segment l := appendSegmentHeader]} -> durable l.
Proof.
  intros Hd. split.
  - intros n f Hf Hn. by rewrite Hd, lookup_singleton_ne in Hf.
  - intros f. rewrite Hd, lookup_singleton_eq. intros [= <-]. by left.
Qed.

Lemma durable_sync l : durable l -> durable (syncFile l).
Proof.
  intros [Hold _]. split.
  - intros n f Hf Hn. simpl in *. rewrite lookup_insert_ne by done. by apply Hold.
  - intros f Hf. simpl in *. right. rewrite lookup_insert_eq, Hf. simpl. lia.
Qed.

Lemma rollIfNeeded_old_synced l recs (frame : bytes) l0 : log_holds l recs -> durable l ->
  walSegmentHeaderLen + len frame <= opt_SegmentBytes (lg_opts l) ->
  rollIfNeeded l (len frame) = Ok l0 -> old_synced l0 /\ lg_opts l0 = lg_opts l.
Proof.
  intros (old & oldRecs & cur & curRecs & H & _) [Hold Hcur] Hfit. unfold rollIfNeeded.
  zcase (lg_size l =? 0); [by intros [= <-]|].
  zcase (lg_size l + len frame <=? opt_SegmentBytes (lg_opts l)); [by intros [= <-]|].
  rewrite (ls_open _ _ _ _ _ H). simpl. intros [= <-]. split; [|done].
  intros n f Hf Hn. simpl in *. rewrite lookup_insert_ne in Hf by done.
  destruct (decide (n = lg_segment l)) as [->|]; [|by apply Hold].
  destruct (Hcur f Hf) as [->|]; [|done]. exfalso.
  rewrite (shape_insert _ _ _ _ _ H), lookup_insert_eq in Hf. injection Hf as ->.
  rewrite (ls_size _ _ _ _ _ H), appendSegmentHeader_len in *. lia.
Qed.

Lemma appendFrameLocked_durable l recs t p sync l' : log_holds l recs -> durable l -> sync_mode l ->
  walSegmentHeaderLen + 9 + len p <= opt_SegmentBytes (lg_opts l) ->
  appendFrameLocked l t p sync = Ok l' -> durable l' /\ lg_opts l' = lg_opts l.
Proof.
  intros Hl Hd Hm Hfit. unfold appendFrameLocked. set (frame := encodeFrame t p).
  destruct (rollIfNeeded l (len frame)) as [l0| |] eqn:Hr; [|done|done]. unfold mbind, outcome_bind.
  destruct (rollIfNeeded_old_synced l recs frame l0 Hl Hd) as [Hold Ho];
    [unfold frame; rewrite encodeFrame_len; lia|done|].
  unfold writeFrame. destruct (lg_open l0); [|done]. simpl. unfold shouldSync. simpl. rewrite Ho.
  unfold sync_mode in Hm. rewrite Hm, orb_true_r. intros [= <-]. split; [|done]. split.
  - intros n f Hf Hn. simpl in *. rewrite lookup_insert_ne in Hf by done.
    rewrite lookup_insert_ne by done. by apply Hold.
  - intros f Hf. simpl in *. right. rewrite Hf, lookup_insert_eq. simpl. lia.
Qed.

Lemma Checkpoint_opts l : lg_opts (Checkpoint l) = lg_opts l.
Proof.
  unfold Checkpoint. destruct (removeSegments_rest (fun n => lg_segment (syncPendingLocked l) <? n)
    (openSegment (closeFile (syncPendingLocked l)) (lg_segment (syncPendingLocked l) + 1)))
    as (_ & _ & _ & ->). unfold syncPendingLocked. simpl. by case_match.
Qed.

Lemma run_op_durable l recs op : log_holds l recs -> durable l -> sync_mode l ->
  frame_fits (lg_opts l) op -> durable (run_op l op) /\ lg_opts (run_op l op) = lg_opts l.
Proof.
  intros Hl Hd Hm Hfit. destruct op as [points sync|tombstones sync| | | |]; simpl.
  - unfold Append. destruct (encodeBatchInto points) as [payload| |] eqn:He; simpl; [|done|done].
    destruct (appendFrameLocked l recordWriteBatch payload sync) as [l'| |] eqn:Ha; [|done|done].
    eapply appendFrameLocked_durable; [done|done|done| |done]. by apply Hfit.
  - unfold AppendTombstones.
    destruct (appendFrameLocked l recordTombstone _ sync) as [l'| |] eqn:Ha; [|done|done].
    by eapply appendFrameLocked_durable.
  - unfold FlushPending, syncPendingLocked. case_match; [done|]. split; [by apply durable_sync|done].
  - by rewrite (ReplayRecords_holds l recs).
  - split; [|apply Checkpoint_opts]. destruct (Checkpoint_shape l recs Hl) as [? _]. by apply durable_fresh.
  - split; [apply durable_fresh, TruncateAll_dir|]. simpl.
    by destruct (removeSegments_rest (fun _ => false) (closeFile l)) as (_ & _ & _ & ->).
Qed.

Lemma run_ops_durable l recs spec ops : Forall op_ok ops -> log_holds l recs ->
  Forall2 same_record spec recs -> durable l -> sync_mode l -> Forall (frame_fits (lg_opts l)) ops ->
  durable (run_ops l ops).
Proof.
  intros Hops. revert l recs spec. induction Hops as [|op ops Hop Hops IH]; intros l recs spec Hl HF Hd Hm Hfit;
    [done|]. inversion_clear Hfit as [|?? Hf Hfs].
  destruct (run_op_durable l recs op Hl Hd Hm Hf) as [Hd' Ho].
  destruct (run_op_holds l recs spec op Hop Hl HF) as (recs' & Hl' & HF').
  eapply IH; try done; [by unfold sync_mode; rewrite Ho|by rewrite Ho].
Qed.


(** The example run in segments of 200 bytes, and a crash that keeps every file. *)
Definition syncOptions : Options := mkOptions true 200 0 0.

(** C15: when the closed segments are fsynced and the crash left no partial segment
    header, replay after any crash succeeds and returns a prefix of the appended
    records. *)
Theorem wal_crash_prefix l recs dir opts : log_holds l recs -> old_synced l -> crash_of l dir ->
  header_whole l dir ->
  exists k l', ReplayRecords (Open dir opts) = Ok (take k recs, l').
Proof. intros Hl Hold Hcr Hh. by destruct (crash_recovers l recs dir opts Hl Hold Hcr Hh). Qed.

(** ** Crashes that replay does not repair *)
Definition lazyOptions : Options := mkOptions false 64 0 0.
Definition tombstoneOp : log_op := OpAppendTombstones exampleTombstones false.

(** Two appends, of the second just the length field reached the disk. *)
Definition strayDir : gmap Z bytes :=
  let c := default [] (lg_dir (run_ops (Open ∅ (mkOptions false 4096 0 0)) [tombstoneOp; tombstoneOp]) !! 1) in
  {[ 1 := take (Z.to_nat (walSegmentHeaderLen + (len c - walSegmentHeaderLen) / 2 + 4)) c ]}.

(** Two appends without fsync, the second of which rolled; the first segment
    lost its last byte. *)
Definition rolledDir : gmap Z bytes :=
  let dir := lg_dir (run_ops (Open ∅ lazyOptions) [tombstoneOp; tombstoneOp]) in
  <[ 1 := take (length (default [] (dir !! 1)) - 1) (default [] (dir !! 1)) ]> dir.

Lemma crash_of_check l dir :
  map_Forall (fun n c => is_Some (lg_dir l !! n) /\ c `prefix_of` default [] (lg_dir l !! n)
                /\ default 0 (lg_synced l !! n) <= len c) dir ->
  map_Forall (fun n _ => is_Some (dir !! n)) (lg_dir l) -> crash_of l dir.
Proof.
  intros H1 H2 n. destruct (dir !! n) as [c'|] eqn:Hd.
  - destruct (H1 n c' Hd) as ([c Hc] & Hp & Hs). by rewrite Hc in *.
  - destruct (lg_dir l !! n) as [c|] eqn:Hc; [|done]. destruct (H2 n c Hc). congruence.
Qed.

(** One unsynced append of which all but the last byte reached the disk. *)
Definition tornDir : gmap Z bytes :=
  let dir := lg_dir (run_ops (Open ∅ lazyOptions) [tombstoneOp]) in
  {[ 1 := take (length (default [] (dir !! 1)) - 1) (default [] (dir !! 1)) ]}.
Lemma wal_crash_prefix_witness :
  exists recs k l', log_holds (run_ops (Open ∅ lazyOptions) [tombstoneOp]) recs
    /\ ReplayRecords (Open tornDir lazyOptions) = Ok (take k recs, l').
Proof.
  destruct (run_ops_holds (Open ∅ lazyOptions) [] [] [tombstoneOp]) as (recs & Hl & _).
  { constructor; [split_and!; by_decide|done]. }
  { apply Open_empty_holds. }
  { constructor. }
  exists recs. destruct (wal_crash_prefix _ recs tornDir lazyOptions Hl) as (k & l' & Hr).
  - assert (map_Forall (fun n _ => n = lg_segment (run_ops (Open ∅ lazyOptions) [tombstoneOp]))
      (lg_dir (run_ops (Open ∅ lazyOptions) [tombstoneOp]))) as Hall by by_decide.
    intros n f Hf Hn. destruct Hn. by apply (Hall n f).
  - apply crash_of_check; by_decide.
  - assert (map_Forall (fun n c => walSegmentHeaderLen <= len c) tornDir) as Hall by by_decide.
    intros f Hf. right. by apply (Hall (lg_segment (run_ops (Open ∅ lazyOptions) [tombstoneOp]))).
  - exists k, l'. split; [exact Hl|exact Hr].
Defined.


