(* ===== verification/SstTime.v ===== *)
(** * SSTable integer streams: timestamps and write sequence numbers

    internal/sstable/compression_time.go, compression_writeseq.go,
    query_window.go, the run-length loops shared with compression_int_rle.go
    and compression_string.go, and the time block of encoding.go.

    The loops over samples read one component of each sample; they are stated
    on the list of these components. *)
From S2P Require Import Prelude GoBinary Model Codec Readers.
From stdpp Require Import prelude strings list gmap.
From Stdlib Require Import ZArith Lia.
#[local] Open Scope Z_scope.

(** ** Codec identifiers *)
Definition compressionPlain : Z := 0.
Definition compressionDeltaOfDelta : Z := 1.
Definition compressionXOR : Z := 2.
Definition compressionDelta : Z := 3.
Definition compressionDictionary : Z := 4.
Definition compressionRLE : Z := 5.
Definition compressionConstStep : Z := 6.
Definition compressionOmitted : Z := 7.

(** The part of [model.StorageQuery] the block decoders look at. *)
Record Query := mkQuery {
  q_Start : Z;
  q_End : Z;
}.
(** The complement of [timestamp < query.Start || timestamp > query.End]. *)
Definition in_query (query : Query) (timestamp : Z) : bool :=
  negb ((timestamp <? q_Start query) || (q_End query <? timestamp)).

Definition compressionPolicy (policy defaultPolicy : string) : string :=
  if bool_decide (policy = "" \/ policy = "auto") then defaultPolicy
  else if bool_decide (policy = "plain" \/ policy = defaultPolicy) then policy
  else if bool_decide (policy = "gorilla") then
    (if bool_decide (defaultPolicy = "xor") then "xor" else defaultPolicy)
  else if bool_decide (policy = "rle") then
    (if bool_decide (defaultPolicy = "delta") then "delta" else defaultPolicy)
  else defaultPolicy.

(** ** Zigzag *)
Definition zigZag64 (value : Z) : Z := Z.lxor (u64 (i64 (Z.shiftl value 1))) (u64 (Z.shiftr value 63)).
Definition unzigZag64 (value : Z) : Z := Z.lxor (i64 (Z.shiftr value 1)) (i64 (- Z.land value 1)).

(** ** Plain timestamps *)
Fixpoint timestampDeltas (prev : Z) (timestamps : list Z) : bytes :=
  match timestamps with
  | [] => []
  | t :: timestamps' => appendVarint (i64 (t - prev)) ++ timestampDeltas t timestamps'
  end.
Definition appendPlainTimestamps (timestamps : list Z) : bytes :=
  match timestamps with
  | [] => []
  | t :: timestamps' => le_put_u64 (u64 t) ++ timestampDeltas t timestamps'
  end.
Definition readTimestamps (count : Z) : reader (list Z) :=
  if count =? 0 then mret []
  else
    first ← BlockReader.fixedInt64 "first timestamp";
    _ ← rmake 8 count;
    rest ← read_fold (Z.to_nat (count - 1)) (fun prev =>
      delta ← BlockReader.varint "timestamp delta";
      let t := i64 (prev + delta) in mret (t, t)) first;
    mret (first :: rest).

(** ** Constant step *)
Fixpoint constStepFrom (step prev : Z) (timestamps : list Z) : bool :=
  match timestamps with
  | [] => true
  | t :: timestamps' => if negb (i64 (t - prev) =? step) then false else constStepFrom step t timestamps'
  end.
Definition detectConstStepTimestamps (timestamps : list Z) : option Z :=
  match timestamps with
  | t0 :: t1 :: timestamps' =>
      let step := i64 (t1 - t0) in if constStepFrom step t1 timestamps' then Some step else None
  | _ => None
  end.
Definition appendConstStepTimestamps (base step : Z) : bytes :=
  le_put_u64 (u64 base) ++ appendVarint step.

(** [make] cannot fail here: the length is at most the decoded count, which
    the callers bound. *)
Definition materializeConstStepTimestamps (base step start end_ : Z) : list Z :=
  if end_ <=? start then []
  else map (fun index => i64 (base + i64 ((start + Z.of_nat index) * step))) (seq 0 (Z.to_nat (end_ - start))).

Definition parseConstStepTimestampParams (count : Z) : reader (Z * Z) :=
  if count =? 0 then (_ ← BlockReader.done "const-step timestamps"; mret (0, 0))
  else
    base ← BlockReader.fixedInt64 "const-step base";
    step ← BlockReader.varint "const-step step";
    _ ← BlockReader.done "const-step timestamps";
    mret (base, step).
Definition decodeConstStepTimestamps (payload : bytes) (count : Z) : outcome (list Z) :=
  '(base, step, _) ← parseConstStepTimestampParams count payload;
  if count =? 0 then Ok []
  else _ ← make_slice 8 count; Ok (materializeConstStepTimestamps base step 0 count).

(** ** The window of a constant-step series in a query

    The two clamping loops run at most [endExclusive - start] times. *)
Fixpoint clampStart (fuel : nat) (base step : Z) (query : Query) (start endExclusive : Z) : Z :=
  match fuel with
  | O => start
  | S fuel' =>
      if (start <? endExclusive) && (i64 (base + i64 (start * step)) <? q_Start query)
      then clampStart fuel' base step query (start + 1) endExclusive else start
  end.
Fixpoint clampEnd (fuel : nat) (base step : Z) (query : Query) (start endExclusive : Z) : Z :=
  match fuel with
  | O => endExclusive
  | S fuel' =>
      if (start <? endExclusive) && (q_End query <? i64 (base + i64 ((endExclusive - 1) * step)))
      then clampEnd fuel' base step query start (endExclusive - 1) else endExclusive
  end.
Definition constStepWindow (base step count : Z) (query : Query) : Z * Z :=
  if (count <=? 0) || (q_End query <? q_Start query) then (0, 0)
  else if step =? 0 then
    (if (q_Start query <=? base) && (base <=? q_End query) then (0, count) else (0, 0))
  else if step <? 0 then (0, count)
  else
    let start := if q_Start query <=? base then 0
                 else let delta := i64 (q_Start query - base) in Z.quot (i64 (i64 (delta + step) - 1)) step in
    if count <=? start then (0, 0)
    else
      let endExclusive := i64 (Z.quot (i64 (q_End query - base)) step + 1) in
      let endExclusive := if count <? endExclusive then count else endExclusive in
      if endExclusive <=? start then (0, 0)
      else
        let fuel := Z.to_nat (endExclusive - start) in
        let start := clampStart fuel base step query start endExclusive in
        let endExclusive := clampEnd fuel base step query start endExclusive in
        if endExclusive <=? start then (0, 0) else (start, endExclusive).

Definition decodeConstStepTimestampsWindow (payload : bytes) (count : Z) (query : Query)
    : outcome (list Z * Z) :=
  '(base, step, _) ← parseConstStepTimestampParams count payload;
  if count =? 0 then Ok ([], 0)
  else
    let '(start, end_) := constStepWindow base step count query in
    _ ← make_slice 8 (end_ - start);
    Ok (materializeConstStepTimestamps base step start end_, start).

(** ** Window of sorted timestamps by binary search *)
Fixpoint searchLoop (fuel : nat) (below : Z -> bool) (timestamps : list Z) (lo hi : Z) : outcome Z :=
  match fuel with
  | O => Ok lo
  | S fuel' =>
      if lo <? hi then
        let mid := lo + Z.quot (hi - lo) 2 in
        t ← idx timestamps mid;
        if below t then searchLoop fuel' below timestamps (mid + 1) hi
        else searchLoop fuel' below timestamps lo mid
      else Ok lo
  end.
Definition sortedTimestampWindow (timestamps : list Z) (query : Query) : outcome (Z * Z) :=
  let n := len timestamps in
  if (n =? 0) || (q_End query <? q_Start query) then Ok (0, 0)
  else
    start ← searchLoop (S (length timestamps)) (fun t => t <? q_Start query) timestamps 0 n;
    lo ← searchLoop (S (length timestamps)) (fun t => t <=? q_End query) timestamps start n;
    Ok (start, lo).

(** ** Delta of delta *)
Fixpoint countEqualDeltaRun (prev prevDelta : Z) (timestamps : list Z) : nat :=
  match timestamps with
  | [] => O
  | t :: timestamps' =>
      if negb (i64 (t - prev) =? prevDelta) then O else S (countEqualDeltaRun t prevDelta timestamps')
  end.
Fixpoint deltaOfDeltaTail (fuel : nat) (prev prevDelta : Z) (timestamps : list Z) : bytes :=
  match fuel, timestamps with
  | S fuel', t :: timestamps' =>
      let delta := i64 (t - prev) in
      let dd := i64 (delta - prevDelta) in
      if negb (dd =? 0) then
        appendUvarint (Z.lor (u64 (Z.shiftl (zigZag64 dd) 1)) 1)
        ++ deltaOfDeltaTail fuel' t delta timestamps'
      else
        let run := countEqualDeltaRun prev prevDelta timestamps in
        [0] ++ appendUvarint (Z.of_nat run)
        ++ deltaOfDeltaTail fuel' (default prev (timestamps !! pred run)) prevDelta (drop run timestamps)
  | _, _ => []
  end.
Definition appendDeltaOfDeltaTimestamps (timestamps : list Z) : bytes :=
  match timestamps with
  | [] => []
  | [t0] => le_put_u64 (u64 t0)
  | t0 :: t1 :: timestamps' =>
      let prevDelta := i64 (t1 - t0) in
      le_put_u64 (u64 t0) ++ appendVarint prevDelta
      ++ deltaOfDeltaTail (length timestamps') t1 prevDelta timestamps'
  end.

Definition decodeDeltaOfDeltaTag (tag : Z) : reader (Z * Z) :=
  if negb (tag =? 0) then mret (1, unzigZag64 (Z.shiftr tag 1))
  else
    run64 ← BlockReader.uvarint "timestamp zero delta run";
    if (run64 =? 0) || (maxInt <? run64)
    then rfail (Errorf "invalid timestamp zero delta run") else mret (run64, 0).
Fixpoint expandDeltas (n : nat) (prev prevDelta dd : Z) : list Z :=
  match n with
  | O => []
  | S n' => let delta := i64 (prevDelta + dd) in
            let t := i64 (prev + delta) in t :: expandDeltas n' t delta dd
  end.
(** One round per tag; a round that overruns the count fails.  Each round
    consumes a byte, so the length of the input bounds the rounds. *)
Fixpoint deltaOfDeltaTailLoop (fuel : nat) (remaining prev prevDelta : Z) : reader (list Z) :=
  match fuel with
  | O => rfail (Errorf "fuel exhausted")
  | S fuel' =>
      if remaining <=? 0 then mret []
      else
        tag ← BlockReader.uvarint "timestamp delta-of-delta tag";
        '(run, dd) ← decodeDeltaOfDeltaTag tag;
        if remaining <? run then rfail (Errorf "timestamp delta run exceeds count")
        else
          let out := expandDeltas (Z.to_nat run) prev prevDelta dd in
          rest ← deltaOfDeltaTailLoop fuel' (remaining - run) (default prev (last out))
                   (i64 (prevDelta + dd));
          mret (out ++ rest)
  end.
Definition readDeltaOfDeltaTimestampValues (count : Z) : reader (list Z) :=
  if count =? 0 then mret []
  else
    first ← BlockReader.fixedInt64 "first timestamp";
    _ ← rmake 8 count;
    if count =? 1 then mret [first]
    else
      prevDelta ← BlockReader.varint "first timestamp delta";
      let second := i64 (first + prevDelta) in
      rest ← sized (fun fuel => deltaOfDeltaTailLoop fuel (count - 2) second prevDelta);
      mret (first :: second :: rest).
Definition decodeDeltaOfDeltaTimestamps (payload : bytes) (count : Z) : outcome (list Z) :=
  '(timestamps, _) ← (timestamps ← readDeltaOfDeltaTimestampValues count;
                      _ ← BlockReader.done "delta-of-delta timestamps"; mret timestamps : reader _) payload;
  Ok timestamps.

(** The plain decoder does not look behind the last timestamp. *)
Definition decodePlainTimestamps (payload : bytes) (count : Z) : outcome (list Z) :=
  '(timestamps, _) ← readTimestamps count payload; Ok timestamps.

Definition encodeTimestamps (timestamps : list Z) (policy : string) : Z * bytes :=
  let plain := appendPlainTimestamps timestamps in
  if bool_decide (compressionPolicy policy "delta-of-delta" = "plain") then (compressionPlain, plain)
  else
    let dod :=
      let candidate := appendDeltaOfDeltaTimestamps timestamps in
      if len candidate <? len plain then (compressionDeltaOfDelta, candidate)
      else (compressionPlain, plain) in
    match detectConstStepTimestamps timestamps, timestamps with
    | Some step, t0 :: _ =>
        let candidate := appendConstStepTimestamps t0 step in
        if len candidate <? len plain then (compressionConstStep, candidate) else dod
    | _, _ => dod
    end.
Definition decodeCodecTimestamps (codecID : Z) (payload : bytes) (count : Z) : outcome (list Z) :=
  if codecID =? compressionPlain then decodePlainTimestamps payload count
  else if codecID =? compressionDeltaOfDelta then decodeDeltaOfDeltaTimestamps payload count
  else if codecID =? compressionConstStep then decodeConstStepTimestamps payload count
  else Err (Errorf "unknown timestamp compression").

(** The copies of these functions that read [samples[i].Timestamp]. *)
Definition detectConstStepSamples (samples : list VersionedSample) : option Z :=
  detectConstStepTimestamps (map vs_Timestamp samples).
Definition appendPlainSampleTimestamps (samples : list VersionedSample) : bytes :=
  appendPlainTimestamps (map vs_Timestamp samples).
Definition countEqualSampleDeltaRun (prev prevDelta : Z) (samples : list VersionedSample) : nat :=
  countEqualDeltaRun prev prevDelta (map vs_Timestamp samples).
Definition appendDeltaOfDeltaSampleTimestamps (samples : list VersionedSample) : bytes :=
  appendDeltaOfDeltaTimestamps (map vs_Timestamp samples).
Definition encodeSampleTimestamps (samples : list VersionedSample) (policy : string) : Z * bytes :=
  let plain := appendPlainSampleTimestamps samples in
  if bool_decide (compressionPolicy policy "delta-of-delta" = "plain") then (compressionPlain, plain)
  else
    let dod :=
      let candidate := appendDeltaOfDeltaSampleTimestamps samples in
      if len candidate <? len plain then (compressionDeltaOfDelta, candidate)
      else (compressionPlain, plain) in
    match detectConstStepSamples samples, samples with
    | Some step, sample0 :: _ =>
        let candidate := appendConstStepTimestamps (vs_Timestamp sample0) step in
        if len candidate <? len plain then (compressionConstStep, candidate) else dod
    | _, _ => dod
    end.

(** ** Run lengths of equal deltas

    The same loop encodes write sequence numbers, integer values and string
    ordinals: [wrap] is the conversion of the result to its type. *)
Fixpoint rleTail (fuel : nat) (prev : Z) (values : list Z) : bytes :=
  match fuel, values with
  | S fuel', v :: values' =>
      let delta := i64 (v - prev) in
      let run := countEqualDeltaRun prev delta values in
      appendUvarint (Z.of_nat run) ++ appendUvarint (zigZag64 delta)
      ++ rleTail fuel' (default prev (values !! pred run)) (drop run values)
  | _, _ => []
  end.
Fixpoint expandRun (wrap : Z -> Z) (n : nat) (prev step : Z) : list Z :=
  match n with
  | O => []
  | S n' => let v := wrap (prev + step) in v :: expandRun wrap n' v step
  end.
Fixpoint readRuns (fuel : nat) (wrap : Z -> Z) (name : string) (remaining prev : Z) : reader (list Z) :=
  match fuel with
  | O => rfail (Errorf "fuel exhausted")
  | S fuel' =>
      if remaining <=? 0 then mret []
      else
        run64 ← BlockReader.uvarint (name +:+ " rle run");
        if run64 =? 0 then rfail (Errorf (name +:+ " rle run must be > 0"))
        else
          delta ← BlockReader.uvarint (name +:+ " rle delta");
          if remaining <? run64 then rfail (Errorf (name +:+ " rle overflow"))
          else
            let out := expandRun wrap (Z.to_nat run64) prev (unzigZag64 delta) in
            rest ← readRuns fuel' wrap name (remaining - run64) (default prev (last out));
            mret (out ++ rest)
  end.

(** ** Write sequence numbers *)
Definition appendPlainWriteSeqs (writeSeqs : list Z) : bytes := concat (map appendUvarint writeSeqs).
Definition appendDeltaRLEWriteSeqs (writeSeqs : list Z) : bytes :=
  match writeSeqs with
  | [] => []
  | first :: writeSeqs' => appendUvarint first ++ rleTail (length writeSeqs') first writeSeqs'
  end.
Definition encodeWriteSeqs (writeSeqs : list Z) : Z * bytes :=
  let plain := appendPlainWriteSeqs writeSeqs in
  if len writeSeqs <? 2 then (compressionPlain, plain)
  else
    let rle := appendDeltaRLEWriteSeqs writeSeqs in
    if len rle <? len plain then (compressionRLE, rle) else (compressionPlain, plain).

Definition readWriteSeqs (count : Z) : reader (list Z) :=
  _ ← rmake 8 count; read_n (Z.to_nat count) (BlockReader.uvarint "write seq").
Definition readDeltaRLEWriteSeqs (count : Z) : reader (list Z) :=
  if count =? 0 then (_ ← BlockReader.done "write seq rle"; mret [])
  else
    first ← BlockReader.uvarint "first write seq";
    _ ← rmake 8 count;
    rest ← sized (fun fuel => readRuns fuel u64 "write seq" (count - 1) first);
    _ ← BlockReader.done "write seq rle";
    mret (first :: rest).
Definition decodeWriteSeqs (codecID : Z) (payload : bytes) (count : Z) : outcome (list Z) :=
  if codecID =? compressionPlain then
    '(writeSeqs, _) ← (writeSeqs ← readWriteSeqs count; _ ← BlockReader.done "write seqs";
                       mret writeSeqs : reader _) payload;
    Ok writeSeqs
  else if codecID =? compressionRLE then
    '(writeSeqs, _) ← readDeltaRLEWriteSeqs count payload; Ok writeSeqs
  else if codecID =? compressionOmitted then
    (if negb (len payload =? 0) then Err (Errorf "omitted write seq payload must be empty")
     else _ ← make_slice 8 count; Ok (replicate (Z.to_nat count) 0))
  else Err (Errorf "unknown write seq compression").

(** ** Time block *)
Definition timeEncodingDelta : Z := 1.
Definition timeEncodingConstStep : Z := 2.
Definition detectRowTimeConstStep : list Z -> option Z := detectConstStepTimestamps.
Definition marshalTimeBlock (timestamps : list Z) : bytes :=
  match detectRowTimeConstStep timestamps, timestamps with
  | Some step, t0 :: _ =>
      [timeEncodingConstStep] ++ appendUvarint (len timestamps) ++ le_put_u64 (u64 t0) ++ appendVarint step
  | _, _ => [timeEncodingDelta] ++ appendUvarint (len timestamps) ++ appendPlainTimestamps timestamps
  end.
Definition readConstStepTimestamps (count : Z) : reader (list Z) :=
  if count =? 0 then mret []
  else
    base ← BlockReader.fixedInt64 "const-step time base";
    step ← BlockReader.varint "const-step time step";
    _ ← rmake 8 count;
    mret (map (fun index => i64 (base + i64 (Z.of_nat index * step))) (seq 0 (Z.to_nat count))).
Definition unmarshalTimeBlock (payload : bytes) : outcome (list Z) :=
  '(timestamps, _) ←
    (encoding ← BlockReader.byte "time encoding";
     count ← BlockReader.intCount "time count";
     if encoding =? timeEncodingDelta then
       (timestamps ← readTimestamps count; _ ← BlockReader.done "time block"; mret timestamps)
     else if encoding =? timeEncodingConstStep then
       (timestamps ← readConstStepTimestamps count; _ ← BlockReader.done "time block"; mret timestamps)
     else rfail (Errorf "unknown time encoding") : reader (list Z)) payload;
  Ok timestamps.
