(* ===== verification/SstTimeProofs.v ===== *)
(** * Round trips and windows of the SSTable integer streams *)
From S2P Require Import Prelude GoBinary Model Codec Readers SstTime.
From stdpp Require Import prelude strings list gmap.
From Stdlib Require Import ZArith Lia.
#[local] Open Scope Z_scope.

(** ** Zigzag *)
Lemma lxor_ones x n : 0 <= n -> 0 <= x < 2 ^ n -> Z.lxor x (2 ^ n - 1) = 2 ^ n - 1 - x.
Proof.
  intros Hn Hx. assert (2 ^ n - 1 = Z.ones n) as -> by (rewrite Z.ones_equiv; lia).
  assert (Z.ldiff x (Z.ones n) = 0) as Hl.
  { destruct (decide (x = 0)) as [->|]; [apply Z.ldiff_0_l|].
    apply Z.ldiff_ones_r_low; [lia|]. apply Z.log2_lt_pow2; lia. }
  rewrite Z.sub_nocarry_ldiff by done. apply Z.bits_inj'. intros i Hi.
  rewrite Z.lxor_spec, Z.ldiff_spec. apply (f_equal (fun z => Z.testbit z i)) in Hl.
  rewrite Z.ldiff_spec, Z.bits_0 in Hl. destruct (Z.testbit x i), (Z.testbit (Z.ones n) i); done.
Qed.
Lemma zigZag64_spec v : is_i64 v -> zigZag64 v = if v <? 0 then - 2 * v - 1 else 2 * v.
Proof.
  intros Hv. unfold zigZag64. rewrite shiftl_mul, shiftr_div by lia. rewrite u64_i64.
  zcase (v <? 0).
  - assert (v / 2 ^ 63 = -1) as -> by wrap_lia. change (u64 (-1)) with (2 ^ 64 - 1).
    rewrite lxor_ones by (lia || apply u64_range). wrap_lia.
  - assert (v / 2 ^ 63 = 0) as -> by wrap_lia. change (u64 0) with 0. rewrite Z.lxor_0_r. wrap_lia.
Qed.
Lemma zigZag64_range v : is_i64 v -> is_u64 (zigZag64 v).
Proof. intros. rewrite zigZag64_spec by done. case_match; wrap_lia. Qed.
Lemma unzigZag64_zigZag64 v : is_i64 v -> unzigZag64 (zigZag64 v) = v.
Proof.
  intros Hv. rewrite zigZag64_spec by done. unfold unzigZag64. rewrite land_1, shiftr_div by lia.
  change (2 ^ 1) with 2. zcase (v <? 0).
  - assert ((- 2 * v - 1) mod 2 = 1) as -> by (Z.div_mod_to_equations; lia).
    assert ((- 2 * v - 1) / 2 = - v - 1) as -> by (Z.div_mod_to_equations; lia).
    change (i64 (- (1))) with (-1). rewrite Z.lxor_m1_r, i64_id by wrap_lia.
    pose proof (Z.add_lnot_diag (- v - 1)). lia.
  - assert ((2 * v) mod 2 = 0) as -> by (Z.div_mod_to_equations; lia).
    assert (2 * v / 2 = v) as -> by (Z.div_mod_to_equations; lia).
    change (i64 (- 0)) with 0. by rewrite Z.lxor_0_r, i64_id.
Qed.

Lemma u64_add_sub p n : is_u64 n -> u64 (p + i64 (n - p)) = n.
Proof. intros. wrap_lia. Qed.

(** ** Runs of equal deltas *)
Lemma countEqualDeltaRun_le prev delta values : (countEqualDeltaRun prev delta values <= length values)%nat.
Proof.
  revert prev. induction values as [|v values IH]; intros prev; simpl; [lia|].
  case_match; [lia|]. specialize (IH v). lia.
Qed.
Lemma countEqualDeltaRun_pos prev v values :
  (0 < countEqualDeltaRun prev (i64 (v - prev)) (v :: values))%nat.
Proof. simpl. rewrite Z.eqb_refl. simpl. lia. Qed.
Lemma expandRun_length wrap n prev step : length (expandRun wrap n prev step) = n.
Proof. revert prev. induction n as [|n IH]; intros prev; simpl; [done|]. by rewrite IH. Qed.

Section runs.
  Context (wrap : Z -> Z) (P : Z -> Prop).
  Hypothesis wrap_back : forall p v, P v -> wrap (p + i64 (v - p)) = v.

Lemma expandRun_run prev delta values : Forall P values ->
  expandRun wrap (countEqualDeltaRun prev delta values) prev delta
  = take (countEqualDeltaRun prev delta values) values.
Proof.
  intros HP. revert prev. induction HP as [|v values Hv HP IH]; intros prev; simpl; [done|].
  zcase (i64 (v - prev) =? delta); [|done]. cbn [negb expandRun take].
  assert (wrap (prev + delta) = v) as -> by (rewrite <- E; by apply wrap_back). by rewrite IH.
Qed.

Lemma last_take_run prev (values : list Z) n : (0 < n <= length values)%nat ->
  default prev (last (take n values)) = default prev (values !! pred n).
Proof.
  intros Hn. rewrite last_lookup, length_take_le by lia. by rewrite lookup_take_lt by lia.
Qed.

Lemma readRuns_rleTail name fuel prev values fuel' : Forall P values ->
  (length values <= fuel)%nat -> (length (rleTail fuel prev values) < fuel')%nat -> len values <= maxInt ->
  reads_back (readRuns fuel' wrap name (len values) prev) (rleTail fuel prev values) values.
Proof.
  revert prev values fuel'. induction fuel as [|fuel IH]; intros prev values fuel' HP Hf Hf' Hl.
  { destruct values; [|simpl in Hf; lia]. destruct fuel'; [simpl in Hf'; lia|]. apply reads_back_ret. }
  destruct values as [|v values].
  { destruct fuel'; [simpl in Hf'; lia|]. apply reads_back_ret. }
  cbn [rleTail] in *. set (delta := i64 (v - prev)) in *.
  set (run := countEqualDeltaRun prev delta (v :: values)) in *.
  assert (0 < run <= length (v :: values))%nat as Hrun
    by (split; [apply countEqualDeltaRun_pos|apply countEqualDeltaRun_le]).
  pose proof (appendUvarint_pos (Z.of_nat run)) as Hp1.
  destruct fuel' as [|fuel']; [lia|]. cbn [readRuns].
  rewrite !length_app in Hf'.
  assert ((len (v :: values) <=? 0) = false) as -> by (apply Z.leb_gt; unfold len; simpl length; lia).
  eapply reads_back_bind; [apply rd_uvarint_append; unfold len in *; wrap_lia|].
  assert ((Z.of_nat run =? 0) = false) as -> by (apply Z.eqb_neq; lia).
  eapply reads_back_bind; [apply rd_uvarint_append, zigZag64_range, i64_range|].
  assert ((len (v :: values) <? Z.of_nat run) = false) as -> by (apply Z.ltb_ge; unfold len; lia).
  rewrite Nat2Z.id, unzigZag64_zigZag64 by apply i64_range.
  assert (expandRun wrap run prev delta = take run (v :: values)) as -> by (by apply expandRun_run).
  rewrite last_take_run by done.
  assert (len (v :: values) - Z.of_nat run = len (drop run (v :: values))) as ->
    by (unfold len; rewrite length_drop; lia).
  eapply reads_back_bind_nil.
  - apply IH; [by apply Forall_drop| | |]; unfold len in *; rewrite ?length_drop; simpl length in *; lia.
  - rewrite take_drop. apply reads_back_ret.
Qed.
End runs.

(** ** Plain timestamps *)
Lemma fixedInt64_put name t : is_i64 t -> reads_back (BlockReader.fixedInt64 name) (le_put_u64 (u64 t)) t.
Proof. intros. by apply fixedInt64_append. Qed.
Lemma read_timestampDeltas ts prev : Forall is_i64 ts ->
  reads_back (read_fold (length ts) (fun prev =>
      delta ← BlockReader.varint "timestamp delta"; let t := i64 (prev + delta) in mret (t, t)) prev)
    (timestampDeltas prev ts) ts.
Proof.
  intros Hts. revert prev. induction Hts as [|t ts Ht Hts IH]; intros prev; [apply reads_back_ret|].
  cbn [length read_fold timestampDeltas]. eapply reads_back_bind.
  - eapply reads_back_bind_nil; [apply rd_varint_append, i64_range|]. cbv zeta.
    rewrite i64_add_sub by done. apply reads_back_ret.
  - simpl. eapply reads_back_bind_nil; [apply IH|apply reads_back_ret].
Qed.
Lemma readTimestamps_append ts : Forall is_i64 ts -> fits (len ts) ->
  reads_back (readTimestamps (len ts)) (appendPlainTimestamps ts) ts.
Proof.
  intros Hts Hf. unfold readTimestamps. destruct Hts as [|t ts Ht Hts]; [apply reads_back_ret|].
  assert ((len (t :: ts) =? 0) = false) as -> by (apply Z.eqb_neq; unfold len; simpl length; lia).
  eapply reads_back_bind; [by apply fixedInt64_put|]. apply reads_back_make; [alloc_lia|alloc_lia|].
  assert (Z.to_nat (len (t :: ts) - 1) = length ts) as -> by (unfold len; simpl length; lia).
  eapply reads_back_bind_nil; [by apply read_timestampDeltas|apply reads_back_ret].
Qed.

(** ** Constant step *)
Lemma constStep_spec step ts prev (k : nat) base : is_i64 step ->
  prev = i64 (base + i64 (Z.of_nat k * step)) -> Forall is_i64 ts -> constStepFrom step prev ts = true ->
  ts = map (fun i => i64 (base + i64 (Z.of_nat i * step))) (seq (S k) (length ts)).
Proof.
  intros Hstep. revert prev k. induction ts as [|t ts IH]; intros prev k Hprev Hts H; [done|].
  inversion_clear Hts as [|?? Ht Hts']. simpl in H. zcase (i64 (t - prev) =? step); [|done]. simpl in H.
  assert (t = i64 (base + i64 (Z.of_nat (S k) * step))) as Hteq.
  { rewrite <- (i64_add_sub prev t Ht), E, Hprev. wrap_lia. }
  cbn [length seq map]. rewrite <- Hteq. f_equal. by apply (IH t).
Qed.
Lemma detectConstStep_spec ts step : Forall is_i64 ts -> detectConstStepTimestamps ts = Some step ->
  is_i64 step /\ exists base ts', ts = base :: ts'
    /\ ts = map (fun i => i64 (base + i64 (Z.of_nat i * step))) (seq 0 (length ts)).
Proof.
  intros Hts H. destruct ts as [|t0 [|t1 ts]]; [done|done|]. simpl in H.
  destruct (constStepFrom _ _ _) eqn:Hc; [|done]. injection H as <-.
  inversion_clear Hts as [|?? Ht0 Hts']. split; [apply i64_range|]. exists t0, (t1 :: ts). split; [done|].
  cbn [length seq map].
  assert (t0 = i64 (t0 + i64 (Z.of_nat 0 * i64 (t1 - t0)))) as H0.
  { change (Z.of_nat 0) with 0. rewrite Z.mul_0_l. change (i64 0) with 0. rewrite Z.add_0_r, i64_id; done. }
  assert (t1 :: ts = map (fun i => i64 (t0 + i64 (Z.of_nat i * i64 (t1 - t0)))) (seq 1 (length (t1 :: ts)))) as Hr.
  { apply (constStep_spec (i64 (t1 - t0)) _ t0); [apply i64_range|done|done|].
    simpl. by rewrite Z.eqb_refl. }
  cbn [length seq map] in Hr. by rewrite <- H0, <- Hr.
Qed.
Lemma materialize_all base step n : materializeConstStepTimestamps base step 0 (Z.of_nat n)
  = map (fun i => i64 (base + i64 (Z.of_nat i * step))) (seq 0 n).
Proof.
  unfold materializeConstStepTimestamps. zcase (Z.of_nat n <=? 0).
  { by assert (n = 0)%nat as -> by lia. }
  rewrite Z.sub_0_r, Nat2Z.id. done.
Qed.
Lemma parseConstStep_append base step count : is_i64 base -> is_i64 step -> count <> 0 ->
  parseConstStepTimestampParams count (appendConstStepTimestamps base step) = Ok (base, step, []).
Proof.
  intros Hb Hs Hc. unfold parseConstStepTimestampParams, appendConstStepTimestamps.
  rewrite (proj2 (Z.eqb_neq count 0)) by done.
  eapply run_bind; [by apply fixedInt64_put|]. eapply run_bind_nil; [by apply rd_varint_append|done].
Qed.

(** ** Delta of delta

    The tag keeps 63 bits of the zigzag code, so a second difference of 2^62
    or more does not survive. *)
Fixpoint dd_small (prev prevDelta : Z) (ts : list Z) : Prop :=
  match ts with
  | [] => True
  | t :: ts' =>
      let delta := i64 (t - prev) in - 2 ^ 62 <= i64 (delta - prevDelta) < 2 ^ 62 /\ dd_small t delta ts'
  end.
Definition dod_ok (ts : list Z) : Prop :=
  match ts with t0 :: t1 :: ts' => dd_small t1 (i64 (t1 - t0)) ts' | _ => True end.

Lemma expandDeltas_run prev prevDelta ts : is_i64 prevDelta -> Forall is_i64 ts ->
  expandDeltas (countEqualDeltaRun prev prevDelta ts) prev prevDelta 0
  = take (countEqualDeltaRun prev prevDelta ts) ts.
Proof.
  intros Hd Hts. revert prev. induction Hts as [|t ts Ht Hts IH]; intros prev; simpl; [done|].
  zcase (i64 (t - prev) =? prevDelta); [|done]. cbn [negb expandDeltas take].
  rewrite Z.add_0_r, (i64_id prevDelta) by done.
  assert (i64 (prev + prevDelta) = t) as -> by (rewrite <- E; by apply i64_add_sub). by rewrite IH.
Qed.
Lemma dd_small_drop prev prevDelta ts : is_i64 prevDelta -> dd_small prev prevDelta ts ->
  let run := countEqualDeltaRun prev prevDelta ts in
  dd_small (default prev (take run ts !! pred run)) prevDelta (drop run ts).
Proof.
  intros Hd. cbv zeta. revert prev. induction ts as [|t ts IH]; intros prev H; [done|].
  cbn [countEqualDeltaRun]. zcase (i64 (t - prev) =? prevDelta); [|exact H]. cbn [negb take drop pred].
  destruct H as [_ H]. rewrite E in H. specialize (IH t H).
  pose proof (countEqualDeltaRun_le t prevDelta ts) as Hle.
  destruct (countEqualDeltaRun t prevDelta ts) as [|n]; [done|]. cbn [pred] in *.
  change ((t :: take (S n) ts) !! S n) with (take (S n) ts !! n).
  destruct (lookup_lt_is_Some_2 (take (S n) ts) n) as [x Hx]; [rewrite length_take; lia|].
  by rewrite Hx in *.
Qed.
Lemma dod_tag dd : - 2 ^ 62 <= dd < 2 ^ 62 ->
  Z.lor (u64 (Z.shiftl (zigZag64 dd) 1)) 1 = 2 * zigZag64 dd + 1 /\ 0 <= zigZag64 dd < 2 ^ 63.
Proof.
  intros Hdd. rewrite zigZag64_spec by wrap_lia. rewrite shiftl_mul by lia.
  set (z := if dd <? 0 then _ else _). assert (0 <= z < 2 ^ 63) as Hz by (unfold z; zcase (dd <? 0); lia).
  split; [|done]. rewrite u64_id by (unfold is_u64; lia). rewrite Z.lor_comm.
  rewrite (lor_add_low 1 z 1) by lia. lia.
Qed.

Lemma deltaOfDeltaTail_read fuel prev prevDelta ts fuel' : is_i64 prevDelta -> Forall is_i64 ts ->
  dd_small prev prevDelta ts -> (length ts <= fuel)%nat ->
  (length (deltaOfDeltaTail fuel prev prevDelta ts) < fuel')%nat -> len ts <= maxInt ->
  reads_back (deltaOfDeltaTailLoop fuel' (len ts) prev prevDelta) (deltaOfDeltaTail fuel prev prevDelta ts) ts.
Proof.
  revert prev prevDelta ts fuel'.
  induction fuel as [|fuel IH]; intros prev prevDelta ts fuel' Hd Hts Hdd Hf Hf' Hl.
  { destruct ts; [|simpl in Hf; lia]. destruct fuel'; [simpl in Hf'; lia|]. apply reads_back_ret. }
  destruct ts as [|t ts].
  { destruct fuel'; [simpl in Hf'; lia|]. apply reads_back_ret. }
  destruct fuel' as [|fuel']; [lia|]. inversion_clear Hts as [|?? Ht Hts'].
  cbn [deltaOfDeltaTail deltaOfDeltaTailLoop dd_small] in *. destruct Hdd as [Hdd Hdds].
  assert ((len (t :: ts) <=? 0) = false) as -> by (apply Z.leb_gt; unfold len; simpl length; lia).
  set (delta := i64 (t - prev)) in *. set (dd := i64 (delta - prevDelta)) in *.
  zcase (dd =? 0); cbn [negb] in *.
  - set (run := countEqualDeltaRun prev prevDelta (t :: ts)) in *.
    assert (delta = prevDelta) as Hdelta by (pose proof (i64_range (t - prev)); unfold dd, delta in *; wrap_lia).
    assert (0 < run <= length (t :: ts))%nat as Hrun.
    { split; [|apply countEqualDeltaRun_le]. unfold run. rewrite <- Hdelta. apply countEqualDeltaRun_pos. }
    pose proof (appendUvarint_pos (Z.of_nat run)) as Hp1. rewrite !length_app in Hf'. simpl length in Hf'.
    eapply (reads_back_bind _ _ [0]); [change [0] with (appendUvarint 0); apply rd_uvarint_append; wrap_lia|].
    eapply reads_back_bind.
    { eapply reads_back_bind_nil; [apply rd_uvarint_append; unfold len in *; wrap_lia|].
      assert ((Z.of_nat run =? 0) || (maxInt <? Z.of_nat run) = false) as ->
        by (apply orb_false_intro; [apply Z.eqb_neq|apply Z.ltb_ge]; unfold len in *; lia).
      apply reads_back_ret. }
    cbv beta iota. assert ((len (t :: ts) <? Z.of_nat run) = false) as -> by (apply Z.ltb_ge; unfold len; lia).
    rewrite Nat2Z.id.
    assert (expandDeltas run prev prevDelta 0 = take run (t :: ts)) as ->
      by (apply expandDeltas_run; [done|by constructor]).
    rewrite last_take_run, Z.add_0_r, (i64_id prevDelta) by done.
    assert (len (t :: ts) - Z.of_nat run = len (drop run (t :: ts))) as ->
      by (unfold len; rewrite length_drop; lia).
    eapply reads_back_bind_nil; [|rewrite take_drop; apply reads_back_ret].
    apply IH; [done|by apply Forall_drop; constructor| | | |].
    + pose proof (dd_small_drop prev prevDelta (t :: ts) Hd) as Hdrop. cbn zeta in Hdrop. fold run in Hdrop.
      rewrite lookup_take_lt in Hdrop by lia. apply Hdrop. simpl. by fold delta dd.
    + rewrite length_drop. simpl length in *. lia.
    + unfold len in Hp1. lia.
    + unfold len in *. rewrite length_drop. lia.
  - destruct (dod_tag dd Hdd) as [Htag Hz]. rewrite Htag in *.
    pose proof (appendUvarint_pos (2 * zigZag64 dd + 1)) as Hp1. rewrite length_app in Hf'.
    eapply reads_back_bind; [apply rd_uvarint_append; wrap_lia|]. unfold decodeDeltaOfDeltaTag.
    assert ((2 * zigZag64 dd + 1 =? 0) = false) as -> by (apply Z.eqb_neq; lia). cbn [negb].
    rewrite shiftr_div by lia.
    assert ((2 * zigZag64 dd + 1) / 2 ^ 1 = zigZag64 dd) as -> by (Z.div_mod_to_equations; lia).
    rewrite unzigZag64_zigZag64 by (unfold dd; apply i64_range).
    eapply (reads_back_bind _ _ []); [apply reads_back_ret|]. cbv beta iota.
    assert ((len (t :: ts) <? 1) = false) as -> by (apply Z.ltb_ge; unfold len; simpl length; lia).
    change (Z.to_nat 1) with 1%nat. cbn [expandDeltas last default].
    assert (i64 (prevDelta + dd) = delta) as -> by (unfold dd; apply i64_add_sub; apply i64_range).
    assert (i64 (prev + delta) = t) as -> by (unfold delta; by apply i64_add_sub).
    assert (len (t :: ts) - 1 = len ts) as -> by (unfold len; simpl length; lia).
    eapply reads_back_bind_nil; [|apply reads_back_ret].
    apply IH; [apply i64_range|done|done|simpl in Hf; lia|unfold len in Hp1; lia|unfold len in *; simpl length in *; lia].
Qed.

Lemma readDeltaOfDelta_append ts : Forall is_i64 ts -> dod_ok ts -> fits (len ts) ->
  reads_back (readDeltaOfDeltaTimestampValues (len ts)) (appendDeltaOfDeltaTimestamps ts) ts.
Proof.
  intros Hts Hdd Hf. unfold readDeltaOfDeltaTimestampValues.
  destruct Hts as [|t0 ts Ht0 Hts]; [apply reads_back_ret|].
  assert ((len (t0 :: ts) =? 0) = false) as -> by (apply Z.eqb_neq; unfold len; simpl length; lia).
  destruct Hts as [|t1 ts Ht1 Hts].
  { eapply reads_back_bind_nil; [by apply fixedInt64_put|].
    apply reads_back_make; [alloc_lia|alloc_lia|apply reads_back_ret]. }
  cbn [appendDeltaOfDeltaTimestamps dod_ok] in *.
  eapply reads_back_bind; [by apply fixedInt64_put|]. apply reads_back_make; [alloc_lia|alloc_lia|].
  assert ((len (t0 :: t1 :: ts) =? 1) = false) as -> by (apply Z.eqb_neq; unfold len; simpl length; lia).
  eapply reads_back_bind; [apply rd_varint_append, i64_range|]. cbv zeta.
  rewrite i64_add_sub by done.
  assert (len (t0 :: t1 :: ts) - 2 = len ts) as -> by (unfold len; simpl length; lia).
  eapply reads_back_bind_nil; [|apply reads_back_ret]. apply reads_back_sized. intros fuel Hfuel.
  apply deltaOfDeltaTail_read; [apply i64_range|done|done|lia|done|].
  unfold len in *; simpl length in *; alloc_lia.
Qed.

(** ** All timestamp codecs *)
Lemma decodePlain_append ts : Forall is_i64 ts -> fits (len ts) ->
  decodePlainTimestamps (appendPlainTimestamps ts) (len ts) = Ok ts.
Proof.
  intros. unfold decodePlainTimestamps. by rewrite (reads_back_run _ _ _ (readTimestamps_append ts ltac:(done) ltac:(done))).
Qed.
Lemma decodeDoD_append ts : Forall is_i64 ts -> dod_ok ts -> fits (len ts) ->
  decodeDeltaOfDeltaTimestamps (appendDeltaOfDeltaTimestamps ts) (len ts) = Ok ts.
Proof.
  intros. unfold decodeDeltaOfDeltaTimestamps.
  rewrite (run_bind_nil _ _ _ ts (Ok (ts, []))); [done|by apply readDeltaOfDelta_append|done].
Qed.
Lemma decodeConstStep_append ts step base ts' : Forall is_i64 ts -> fits (len ts) ->
  detectConstStepTimestamps ts = Some step -> ts = base :: ts' ->
  decodeConstStepTimestamps (appendConstStepTimestamps base step) (len ts) = Ok ts.
Proof.
  intros Hts Hf Hd Heq. destruct (detectConstStep_spec _ _ Hts Hd) as (Hstep & b & ts'' & Heq' & Hmap).
  rewrite Heq in Heq'. injection Heq' as <- <-.
  assert (len ts <> 0) as Hc by (rewrite Heq; unfold len; simpl length; lia).
  unfold decodeConstStepTimestamps.
  rewrite parseConstStep_append; [|by rewrite Heq in Hts; inversion Hts|done|done].
  simpl. rewrite (proj2 (Z.eqb_neq _ _) Hc), make_slice_ok by alloc_lia. simpl.
  unfold len. by rewrite materialize_all, <- Hmap.
Qed.

Lemma encodeTimestamps_decode ts policy : Forall is_i64 ts -> dod_ok ts -> fits (len ts) ->
  let '(codecID, payload) := encodeTimestamps ts policy in
  decodeCodecTimestamps codecID payload (len ts) = Ok ts.
Proof.
  intros Hts Hdd Hf. unfold encodeTimestamps.
  set (plain := appendPlainTimestamps ts).
  assert (let '(codecID, payload) := if len (appendDeltaOfDeltaTimestamps ts) <? len plain
      then (compressionDeltaOfDelta, appendDeltaOfDeltaTimestamps ts) else (compressionPlain, plain) in
      decodeCodecTimestamps codecID payload (len ts) = Ok ts) as Hdod.
  { destruct (_ <? _); [by apply decodeDoD_append|by apply decodePlain_append]. }
  destruct (bool_decide _); [by apply decodePlain_append|].
  destruct (detectConstStepTimestamps ts) as [step|] eqn:Hd; [|exact Hdod].
  destruct ts as [|base ts'] eqn:Heq; [exact Hdod|].
  destruct (len (appendConstStepTimestamps base step) <? len plain); [|exact Hdod].
  by eapply decodeConstStep_append.
Qed.

(** C30: decoding encoded timestamps returns them under every policy when second
    differences lie in the 63-bit range. *)
Theorem timestamps_roundtrip ts policy : Forall is_i64 ts -> dod_ok ts -> fits (len ts) ->
  let '(codecID, payload) := encodeTimestamps ts policy in
  decodeCodecTimestamps codecID payload (len ts) = Ok ts.
Proof. apply encodeTimestamps_decode. Qed.
Lemma timestamps_roundtrip_witness :
  let '(codecID, payload) := encodeTimestamps [1000; 1010; 1020; 1030; 1040; 1050; 1060; -7] "auto" in
  codecID = compressionDeltaOfDelta
  /\ decodeCodecTimestamps codecID payload 8 = Ok [1000; 1010; 1020; 1030; 1040; 1050; 1060; -7].
Proof.
  split; [vm_compute; reflexivity|].
  apply (timestamps_roundtrip [1000; 1010; 1020; 1030; 1040; 1050; 1060; -7] "auto"); [by_decide| |by_decide].
  vm_compute. repeat split; discriminate.
Defined.

(** a second difference of 2^62 loses its top bit in the delta-of-delta tag, and the
    timestamp is read back wrong. *)
Theorem timestamps_lost_high_bit :
  let ts := [0; 1; 2; 3; 4; 5; 6; 7; 8; 9; 10; 2 ^ 62 + 11] in
  let '(codecID, payload) := encodeTimestamps ts "auto" in
  decodeCodecTimestamps codecID payload (len ts)
  = Ok [0; 1; 2; 3; 4; 5; 6; 7; 8; 9; 10; 11].
Proof. vm_compute. reflexivity. Qed.

(** ** Write sequence numbers *)
Lemma encodeWriteSeqs_decode seqs : Forall is_u64 seqs -> fits (len seqs) ->
  let '(codecID, payload) := encodeWriteSeqs seqs in
  decodeWriteSeqs codecID payload (len seqs) = Ok seqs.
Proof.
  intros Hs Hf. unfold encodeWriteSeqs.
  assert (decodeWriteSeqs compressionPlain (appendPlainWriteSeqs seqs) (len seqs) = Ok seqs) as Hplain.
  { unfold decodeWriteSeqs. simpl. rewrite (run_bind_nil _ _ _ seqs (Ok (seqs, []))); [done| |done].
    apply reads_back_make; [alloc_lia|alloc_lia|]. unfold len. rewrite Nat2Z.id.
    apply reads_back_read_n. eapply Forall_impl; [exact Hs|]. intros; by apply rd_uvarint_append. }
  destruct (len seqs <? 2); [done|]. destruct (_ <? _); [|done].
  destruct Hs as [|s seqs Hs0 Hs]; [done|].
  unfold decodeWriteSeqs, readDeltaRLEWriteSeqs.
  change (compressionRLE =? compressionPlain) with false.
  change (compressionRLE =? compressionRLE) with true. cbv beta iota.
  assert ((len (s :: seqs) =? 0) = false) as -> by (apply Z.eqb_neq; unfold len; simpl length; lia).
  rewrite (run_bind _ _ (appendUvarint s) (rleTail (length seqs) s seqs) s (Ok (s :: seqs, []))); [done| |].
  { by apply rd_uvarint_append. }
  apply run_make; [alloc_lia|alloc_lia|].
  assert (len (s :: seqs) - 1 = len seqs) as -> by (unfold len; simpl length; lia).
  eapply run_bind_nil; [|done]. apply reads_back_sized. intros fuel Hfuel.
  apply (readRuns_rleTail u64 is_u64); [apply u64_add_sub|done|lia|done|].
  unfold len in *; simpl length in *; alloc_lia.
Qed.

(** decoding encoded write sequence numbers returns them, also where their
    differences wrap around 64 bits. *)
Theorem writeSeqs_roundtrip seqs : Forall is_u64 seqs -> fits (len seqs) ->
  let '(codecID, payload) := encodeWriteSeqs seqs in
  decodeWriteSeqs codecID payload (len seqs) = Ok seqs.
Proof. apply encodeWriteSeqs_decode. Qed.
Lemma writeSeqs_roundtrip_witness :
  let '(codecID, payload) := encodeWriteSeqs [900; 901; 902; 903; 2 ^ 64 - 1; 0] in
  codecID = compressionRLE /\ decodeWriteSeqs codecID payload 6 = Ok [900; 901; 902; 903; 2 ^ 64 - 1; 0].
Proof.
  split; [vm_compute; reflexivity|].
  apply (writeSeqs_roundtrip [900; 901; 902; 903; 2 ^ 64 - 1; 0]); by_decide.
Defined.

(** ** Time block *)
Lemma readConstStepTimestamps_append base step n : is_i64 base -> is_i64 step -> fits (Z.of_nat n) ->
  (0 < n)%nat -> reads_back (readConstStepTimestamps (Z.of_nat n)) (le_put_u64 (u64 base) ++ appendVarint step)
    (map (fun i => i64 (base + i64 (Z.of_nat i * step))) (seq 0 n)).
Proof.
  intros Hb Hs Hf Hn. unfold readConstStepTimestamps. rewrite (proj2 (Z.eqb_neq _ 0)) by lia.
  eapply reads_back_bind; [by apply fixedInt64_put|].
  eapply reads_back_bind_nil; [by apply rd_varint_append|].
  apply reads_back_make; [alloc_lia|alloc_lia|]. rewrite Nat2Z.id. apply reads_back_ret.
Qed.

(** Unmarshalling a marshalled time block returns its timestamps. *)
Lemma timeBlock_roundtrip ts : Forall is_i64 ts -> fits (len ts) ->
  unmarshalTimeBlock (marshalTimeBlock ts) = Ok ts.
Proof.
  intros Hts Hf. unfold unmarshalTimeBlock, marshalTimeBlock, detectRowTimeConstStep.
  match goal with |- (mbind ?k (?m _)) = _ =>
    assert (forall bs, m bs = Ok (ts, []) -> mbind k (m bs) = Ok ts) as Hrun by (by intros bs ->) end.
  destruct (detectConstStepTimestamps ts) as [step|] eqn:Hd; [destruct ts as [|base ts'] eqn:Heq; [done|]|].
  - apply Hrun. rewrite <- Heq in *.
    destruct (detectConstStep_spec _ _ Hts Hd) as (Hstep & b & ts'' & Heq' & Hmap).
    assert (b = base) as -> by (rewrite Heq in Heq'; by injection Heq').
    eapply (run_bind _ _ [_]); [apply rd_byte_append|].
    eapply run_bind; [apply rd_intCount_append; alloc_lia|].
    change (timeEncodingConstStep =? timeEncodingDelta) with false.
    change (timeEncodingConstStep =? timeEncodingConstStep) with true. cbv beta iota.
    eapply run_bind_nil; [|done]. rewrite Hmap at 2. apply readConstStepTimestamps_append; try done.
    + rewrite Heq in Hts. by inversion Hts.
    + rewrite Heq. simpl. lia.
  - apply Hrun. eapply (run_bind _ _ [_]); [apply rd_byte_append|].
    eapply run_bind; [apply rd_intCount_append; alloc_lia|].
    change (timeEncodingDelta =? timeEncodingDelta) with true. cbv beta iota.
    eapply run_bind_nil; [by apply readTimestamps_append|done].
Qed.

(** ** The window of a constant-step series *)
Lemma i64_add_i64 b x : i64 (b + i64 x) = i64 (b + x).
Proof. wrap_lia. Qed.

(** The subtractions of [constStepWindow] do not overflow. *)
Definition window_fits (base step : Z) (query : Query) : Prop :=
  is_i64 (q_End query - base) /\ is_i64 (q_End query - base + 1)
  /\ is_i64 (q_Start query - base + step).
(** The series itself lies in the range of [int64]. *)
Definition series_fits (base step count : Z) : Prop :=
  is_i64 base /\ is_i64 step /\ 0 <= count <= maxInt /\ (0 < count -> is_i64 (base + (count - 1) * step)).

Lemma series_fits_at base step count i : series_fits base step count -> 0 <= i < count ->
  i64 (base + i64 (i * step)) = base + i * step.
Proof.
  intros (Hb & Hs & Hc & Hl) Hi. rewrite i64_add_i64. apply i64_id. specialize (Hl ltac:(lia)).
  unfold is_i64 in *. nia.
Qed.

Definition window_is (base step count : Z) (query : Query) (start end_ : Z) : Prop :=
  0 <= start <= end_ /\ end_ <= count
  /\ forall i, 0 <= i < count ->
       (start <= i < end_ <-> q_Start query <= base + i * step <= q_End query).

Lemma clampStart_stop fuel base step query start end_ :
  q_Start query <= i64 (base + i64 (start * step)) ->
  clampStart fuel base step query start end_ = start.
Proof.
  intros H. destruct fuel; [done|]. simpl. rewrite (proj2 (Z.ltb_ge (i64 _) _)) by done. by rewrite andb_false_r.
Qed.
Lemma clampEnd_stop fuel base step query start end_ :
  i64 (base + i64 ((end_ - 1) * step)) <= q_End query ->
  clampEnd fuel base step query start end_ = end_.
Proof.
  intros H. destruct fuel; [done|]. simpl. rewrite (proj2 (Z.ltb_ge _ (i64 _))) by done. by rewrite andb_false_r.
Qed.

(** The first index at or behind the start of the query. *)
Lemma window_start base step query : 0 < step -> is_i64 base -> is_i64 (q_Start query) ->
  is_i64 (q_Start query - base + step) ->
  let start := if q_Start query <=? base then 0
               else Z.quot (i64 (i64 (i64 (q_Start query - base) + step) - 1)) step in
  0 <= start /\ q_Start query <= base + start * step
  /\ (forall i, 0 <= i -> q_Start query <= base + i * step -> start <= i).
Proof.
  intros Hs Hb Hq Hf. cbv zeta. zcase (q_Start query <=? base); [split_and!; nia|].
  rewrite (i64_id (q_Start query - base)) by (unfold is_i64 in *; lia).
  rewrite (i64_id (_ + step)) by done.
  rewrite (i64_id (_ - 1)) by (unfold is_i64 in *; lia).
  rewrite Z.quot_div_nonneg by lia.
  set (q := (q_Start query - base + step - 1) / step).
  assert (q * step <= q_Start query - base + step - 1 < q * step + step) as Hq'.
  { unfold q. pose proof (Z.div_mod (q_Start query - base + step - 1) step ltac:(lia)).
    pose proof (Z.mod_pos_bound (q_Start query - base + step - 1) step Hs). lia. }
  split_and!; [nia|nia|]. intros i Hi Hin. nia.
Qed.

(** The index behind the last one at or before the end of the query; when the
    query ends before the series, truncated division may leave index zero in. *)
Lemma window_end base step query : 0 < step -> is_i64 (q_End query - base) ->
  is_i64 (q_End query - base + 1) ->
  let end_ := i64 (Z.quot (i64 (q_End query - base)) step + 1) in
  (base <= q_End query -> 0 < end_ /\ base + (end_ - 1) * step <= q_End query
     /\ forall i, base + i * step <= q_End query -> i < end_)
  /\ (q_End query < base -> end_ <= 1).
Proof.
  intros Hs Hf Hf1. cbv zeta. rewrite (i64_id (q_End query - base)) by done. split; intros Hb.
  - rewrite Z.quot_div_nonneg by lia. set (q := (q_End query - base) / step).
    assert (q * step <= q_End query - base < q * step + step) as Hq'.
    { unfold q. pose proof (Z.div_mod (q_End query - base) step ltac:(lia)).
      pose proof (Z.mod_pos_bound (q_End query - base) step Hs). lia. }
    rewrite i64_id by (unfold is_i64 in *; nia). split_and!; [nia|nia|]. intros i Hi. nia.
  - assert (Z.quot (q_End query - base) step = - ((base - q_End query) / step)) as ->.
    { replace (q_End query - base) with (- (base - q_End query)) by lia.
      rewrite Z.quot_opp_l, Z.quot_div_nonneg by lia. lia. }
    pose proof (Z.div_pos (base - q_End query) step ltac:(lia) Hs).
    pose proof (Z.div_le_upper_bound (base - q_End query) step (2 ^ 63) Hs ltac:(unfold is_i64 in *; nia)).
    rewrite i64_id by (unfold is_i64 in *; lia). lia.
Qed.

Lemma constStepWindow_pos base step count query : 0 < step -> series_fits base step count ->
  is_i64 (q_Start query) -> window_fits base step query ->
  let '(start, end_) := constStepWindow base step count query in
  window_is base step count query start end_.
Proof.
  intros Hs Hser Hq (Hf & Hf1 & Hf2). pose proof Hser as (Hb & Hst & Hc & Hl). unfold constStepWindow.
  zcase (count <=? 0); [split_and!; [lia|lia|lia|]; intros; lia|]. cbn [orb].
  zcase (q_End query <? q_Start query); [split_and!; [lia|lia|lia|]; intros; lia|].
  rewrite (proj2 (Z.eqb_neq step 0)), (proj2 (Z.ltb_ge step 0)) by lia.
  pose proof (window_start base step query Hs Hb Hq Hf2) as Hstart. cbv zeta in *.
  set (start := if q_Start query <=? base then 0 else _) in *.
  destruct Hstart as (Hs0 & Hs1 & Hs2).
  pose proof (window_end base step query Hs Hf Hf1) as Hend. cbv zeta in Hend.
  set (e0 := i64 (Z.quot (i64 (q_End query - base)) step + 1)) in *. destruct Hend as [Hge Hlt].
  zcase (count <=? start).
  { split_and!; [lia|lia|lia|]. intros i Hi. split; [lia|]. intros Hin. specialize (Hs2 i). lia. }
  set (e1 := if count <? e0 then count else e0).
  assert (e1 <= count /\ e1 <= e0) as [He1 He1'] by (unfold e1; zcase (count <? e0); lia).
  assert (forall i, 0 <= i < count -> base <= q_End query -> base + i * step <= q_End query -> i < e1) as Hall.
  { intros i Hi Hbe Hin. destruct (Hge Hbe) as (_ & _ & H). specialize (H i Hin). unfold e1. case_match; lia. }
  zcase (e1 <=? start).
  { split_and!; [lia|lia|lia|]. intros i Hi. split; [lia|]. intros Hin. specialize (Hs2 i). specialize (Hall i). nia. }
  rewrite clampStart_stop by (rewrite (series_fits_at base step count) by (done || lia); lia).
  destruct (decide (base <= q_End query)) as [Hbe|Hbe].
  - destruct (Hge Hbe) as (He0 & Hlast & _).
    rewrite clampEnd_stop by (rewrite (series_fits_at base step count) by (done || lia); nia).
    rewrite (proj2 (Z.leb_gt e1 start)) by lia. split_and!; [lia|lia|lia|]. intros i Hi. split.
    + intros Hi'. nia.
    + intros Hin. specialize (Hs2 i). specialize (Hall i). lia.
  - assert (start = 0) as Hst0 by (unfold start; rewrite (proj2 (Z.leb_le _ _)); lia).
    assert (e1 = 1) as He by (specialize (Hlt ltac:(lia)); lia). rewrite Hst0, He.
    assert (clampEnd (Z.to_nat (1 - 0)) base step query 0 1 = 0) as ->.
    { change (Z.to_nat (1 - 0)) with 1%nat. cbn [clampEnd].
      change (1 - 1) with 0. rewrite (series_fits_at base step count) by (done || lia).
      rewrite (proj2 (Z.ltb_lt (q_End query) _)) by lia. done. }
    split_and!; [lia|lia|lia|]. intros i Hi. nia.
Qed.

Lemma filter_none {A} (f : A -> bool) (l : list A) : Forall (fun x => f x = false) l -> List.filter f l = [].
Proof. induction 1 as [|x l Hx Hl IH]; simpl; [done|]. by rewrite Hx. Qed.
Lemma filter_all {A} (f : A -> bool) (l : list A) : Forall (fun x => f x = true) l -> List.filter f l = l.
Proof. induction 1 as [|x l Hx Hl IH]; simpl; [done|]. by rewrite Hx, IH. Qed.

(** The elements of the window of a list are the ones its predicate selects. *)
Lemma filter_window {A} (f : A -> bool) (g : nat -> A) (s e n : nat) : (s <= e <= n)%nat ->
  (forall i, (i < n)%nat -> f (g i) = true <-> (s <= i < e)%nat) ->
  List.filter f (map g (seq 0 n)) = map g (seq s (e - s)).
Proof.
  intros Hse Hf. replace n with (s + ((e - s) + (n - e)))%nat at 1 by lia.
  rewrite !seq_app, !map_app, !List.filter_app. simpl (0 + s)%nat.
  rewrite (filter_none f (map g (seq 0 s))), (filter_all f (map g (seq s (e - s)))),
    (filter_none f (map g (seq (s + (e - s)) (n - e)))); [by rewrite app_nil_r|..];
    apply Forall_fmap, Forall_forall; intros i Hi%elem_of_seq; simpl;
    specialize (Hf i ltac:(lia)); destruct (f (g i)); intuition lia.
Qed.

Lemma in_query_iff query t : in_query query t = true <-> q_Start query <= t <= q_End query.
Proof.
  unfold in_query. rewrite negb_true_iff, orb_false_iff, !Z.ltb_ge. lia.
Qed.
Lemma materialize_window base step s e : (s <= e)%nat ->
  materializeConstStepTimestamps base step (Z.of_nat s) (Z.of_nat e)
  = map (fun i => i64 (base + i64 (Z.of_nat i * step))) (seq s (e - s)).
Proof.
  intros Hse. unfold materializeConstStepTimestamps. zcase (Z.of_nat e <=? Z.of_nat s).
  { by assert (e - s = 0)%nat as -> by lia. }
  assert (Z.to_nat (Z.of_nat e - Z.of_nat s) = e - s)%nat as -> by lia.
  apply list_eq. intros i. rewrite !list_lookup_fmap.
  destruct (decide (i < e - s)%nat); [|by rewrite !lookup_seq_ge by lia].
  rewrite !lookup_seq_lt by done. simpl. do 4 f_equal. lia.
Qed.

Lemma constStepWindow_is base step count query : 0 <= step -> series_fits base step count ->
  is_i64 (q_Start query) -> window_fits base step query ->
  let '(start, end_) := constStepWindow base step count query in
  window_is base step count query start end_.
Proof.
  intros Hge Hser Hq Hf. pose proof Hser as (Hb & Hst & Hc & _).
  destruct (decide (step = 0)) as [->|]; [|apply constStepWindow_pos; [lia|done..]].
  unfold constStepWindow. zcase (count <=? 0); [split_and!; [lia|lia|lia|]; intros; lia|]. cbn [orb].
  zcase (q_End query <? q_Start query); [split_and!; [lia|lia|lia|]; intros; lia|]. cbn [Z.eqb].
  zcase (q_Start query <=? base); zcase (base <=? q_End query); cbn [andb];
    (split_and!; [lia|lia|lia|]; intros; lia).
Qed.
(** For a step that does not go back, the window holds exactly the timestamps
    in the query; for a negative step it is the whole series. *)
Lemma constStepWindow_filter base step count query : series_fits base step count ->
  is_i64 (q_Start query) -> window_fits base step query ->
  let '(start, end_) := constStepWindow base step count query in
  0 <= start <= end_ /\ end_ <= count
  /\ (if step <? 0 then start = 0 /\ (end_ = count \/ q_End query < q_Start query)
      else materializeConstStepTimestamps base step start end_
           = List.filter (in_query query) (materializeConstStepTimestamps base step 0 count)).
Proof.
  intros Hser Hq Hf. pose proof Hser as (Hb & Hst & Hc & _).
  zcase (step <? 0).
  { unfold constStepWindow. zcase (count <=? 0); cbn [orb]; [split_and!; lia|].
    zcase (q_End query <? q_Start query); [split_and!; lia|].
    rewrite (proj2 (Z.eqb_neq step 0)), (proj2 (Z.ltb_lt step 0)) by lia. split_and!; lia. }
  pose proof (constStepWindow_is base step count query ltac:(lia) Hser Hq Hf) as Hwin.
  destruct (constStepWindow base step count query) as [start end_].
  destruct Hwin as (Hse & He & Hin). split_and!; [lia|lia|lia|].
  rewrite <- (Z2Nat.id start), <- (Z2Nat.id end_), <- (Z2Nat.id count) by lia.
  rewrite materialize_all, materialize_window by lia.
  rewrite (filter_window (in_query query) _ (Z.to_nat start) (Z.to_nat end_)); [done|lia|].
  intros i Hi. rewrite in_query_iff, (series_fits_at base step count) by (done || lia).
  rewrite <- Hin by lia. lia.
Qed.

(** for a series that does not go back, the computed index window holds exactly the
    timestamps in the query, unless the differences with the bounds of the query
    overflow. *)
Theorem constStepWindow_exact base step count query : 0 <= step -> series_fits base step count ->
  is_i64 (q_Start query) -> window_fits base step query ->
  let '(start, end_) := constStepWindow base step count query in
  materializeConstStepTimestamps base step start end_
  = List.filter (in_query query) (materializeConstStepTimestamps base step 0 count).
Proof.
  intros Hs Hser Hq Hf. pose proof (constStepWindow_filter base step count query Hser Hq Hf) as H.
  destruct (constStepWindow base step count query) as [start end_]. destruct H as (_ & _ & H).
  by rewrite (proj2 (Z.ltb_ge step 0)) in H.
Qed.
Lemma constStepWindow_exact_witness :
  constStepWindow 1000 10 8 (mkQuery 1015 1042) = (2, 5)
  /\ materializeConstStepTimestamps 1000 10 2 5 = [1020; 1030; 1040].
Proof.
  split; [reflexivity|].
  assert (series_fits 1000 10 8) as Hser by (split_and!; by_decide).
  assert (window_fits 1000 10 (mkQuery 1015 1042)) as Hf by (split_and!; by_decide).
  exact (constStepWindow_exact 1000 10 8 (mkQuery 1015 1042) ltac:(lia) Hser ltac:(by_decide) Hf).
Defined.

(** A query up to the largest timestamp over a series starting below zero overflows
    the window computation, which then selects nothing. *)
Theorem constStepWindow_overflow :
  let query := mkQuery (- 2 ^ 63) (2 ^ 63 - 1) in
  constStepWindow (-1000) 10 8 query = (0, 0)
  /\ List.filter (in_query query) (materializeConstStepTimestamps (-1000) 10 0 8)
     = [-1000; -990; -980; -970; -960; -950; -940; -930].
Proof. split; vm_compute; reflexivity. Qed.
