(* ===== verification/Float64.v ===== *)
(** * Go's float64 on bit patterns

    A [float64] is its IEEE 754 bit pattern (a [uint64]).  Arithmetic goes
    through the binary64 operations of the Standard Library's [SpecFloat];
    conversions to [int64] follow the amd64 instruction, which yields the
    smallest integer for values it cannot represent.  A NaN result is the
    canonical quiet NaN. *)
From S2P Require Import Prelude GoBinary.
From stdpp Require Import prelude list.
From Stdlib Require Import ZArith Lia SpecFloat.
#[local] Open Scope Z_scope.

Definition f_prec : Z := 53.
Definition f_emax : Z := 1024.

Definition f_sign (b : Z) : bool := 2 ^ 63 <=? b.
Definition f_exp (b : Z) : Z := (b / 2 ^ 52) mod 2 ^ 11.
Definition f_frac (b : Z) : Z := b mod 2 ^ 52.

Definition of_bits (b : Z) : spec_float :=
  if f_exp b =? 2047 then (if f_frac b =? 0 then S754_infinity (f_sign b) else S754_nan)
  else if f_exp b =? 0 then
    match f_frac b with Zpos m => S754_finite (f_sign b) m (-1074) | _ => S754_zero (f_sign b) end
  else S754_finite (f_sign b) (Z.to_pos (2 ^ 52 + f_frac b)) (f_exp b - 1075).

Definition sign_bit (s : bool) : Z := if s then 2 ^ 63 else 0.
(** The bit pattern, as a [uint64]. *)
Definition to_bits (x : spec_float) : Z :=
  u64 match x with
      | S754_zero s => sign_bit s
      | S754_infinity s => sign_bit s + 2047 * 2 ^ 52
      | S754_nan => 2047 * 2 ^ 52 + 2 ^ 51
      | S754_finite s m e =>
          if Zpos m <? 2 ^ 52 then sign_bit s + Zpos m
          else sign_bit s + (e + 1075) * 2 ^ 52 + (Zpos m - 2 ^ 52)
      end.

(** ** Operators *)
Definition f_add (a b : Z) : Z := to_bits (SFadd f_prec f_emax (of_bits a) (of_bits b)).
Definition f_sub (a b : Z) : Z := to_bits (SFsub f_prec f_emax (of_bits a) (of_bits b)).
Definition f_mul (a b : Z) : Z := to_bits (SFmul f_prec f_emax (of_bits a) (of_bits b)).
Definition f_div (a b : Z) : Z := to_bits (SFdiv f_prec f_emax (of_bits a) (of_bits b)).
Definition f_eqb (a b : Z) : bool := SFeqb (of_bits a) (of_bits b).
Definition f_ltb (a b : Z) : bool := SFltb (of_bits a) (of_bits b).

(** [float64(i)] and [int64(f)]. *)
Definition f_of_int (z : Z) : Z := to_bits (binary_normalize f_prec f_emax z 0 false).
Definition f_trunc_int (b : Z) : Z :=
  match of_bits b with
  | S754_finite s m e =>
      let a := if 0 <=? e then Zpos m * 2 ^ e else Zpos m / 2 ^ (- e) in if s then - a else a
  | _ => 0
  end.
Definition f_is_nan (b : Z) : bool := match of_bits b with S754_nan => true | _ => false end.
Definition f_is_inf (b : Z) : bool := match of_bits b with S754_infinity _ => true | _ => false end.
Definition int_of_f (b : Z) : Z :=
  if f_is_nan b || f_is_inf b then - 2 ^ 63
  else let z := f_trunc_int b in if bool_decide (is_i64 z) then z else - 2 ^ 63.

(** [math.Trunc]: clear the bits of the fraction below the units. *)
Definition f_trunc (b : Z) : Z :=
  let e := f_exp b - 1023 in
  if e <? 0 then sign_bit (f_sign b)
  else if 52 <=? e then b
  else b - b mod 2 ^ (52 - e).
(** [math.Round]: half away from zero. *)
Definition f_round (b : Z) : Z :=
  let e := f_exp b - 1023 in
  if e <? -1 then sign_bit (f_sign b)
  else if e =? -1 then sign_bit (f_sign b) + 1023 * 2 ^ 52
  else if 52 <=? e then b
  else let b' := b + 2 ^ (51 - e) in b' - b' mod 2 ^ (52 - e).

Example f_of_int_check : map f_of_int [0; 1; -3; 2 ^ 53 + 1; 2 ^ 63]
  = [0; 0x3ff0000000000000; 0xc008000000000000; 0x4340000000000000; 0x43e0000000000000].
Proof. reflexivity. Qed.
Example f_ops_check :
  (f_add 0x3ff0000000000000 0x3ff0000000000000, f_div 0x3ff0000000000000 0x4008000000000000,
   int_of_f 0xc00a000000000000, f_trunc 0xc00a000000000000, f_round 0x4004000000000000)
  = (0x4000000000000000, 0x3fd5555555555555, -3, 0xc008000000000000, 0x4008000000000000).
Proof. reflexivity. Qed.

(** ** Integers survive the conversion *)
Lemma iter_xO_Z p n : Zpos (Pos.iter xO p n) = Zpos p * 2 ^ Zpos n.
Proof.
  induction n as [|n IH] using Pos.peano_ind; [change (2 ^ 1) with 2; simpl; lia|].
  rewrite Pos.iter_succ, Pos2Z.inj_succ, Z.pow_succ_r by lia. lia.
Qed.
Lemma digits_iter_xO p n : digits2_pos (Pos.iter xO p n) = (digits2_pos p + n)%positive.
Proof.
  induction n as [|n IH] using Pos.peano_ind; [simpl; lia|]. rewrite Pos.iter_succ. simpl. lia.
Qed.
Lemma iter_pos_comm {A} (f : A -> A) n x : iter_pos f n (f x) = f (iter_pos f n x).
Proof. revert x. induction n as [n IH|n IH|]; intros x; simpl; by rewrite ?IH. Qed.
Lemma iter_pos_succ {A} (f : A -> A) n x : iter_pos f (Pos.succ n) x = iter_pos f n (f x).
Proof.
  revert x. induction n as [n IH|n IH|]; intros x; simpl; [|done|done]. by rewrite !IH, !iter_pos_comm.
Qed.
Lemma shr_iter_xO m n : iter_pos shr_1 n (Build_shr_record (Zpos (Pos.iter xO m n)) false false)
  = Build_shr_record (Zpos m) false false.
Proof.
  revert m. induction n as [|n IH] using Pos.peano_ind; intros m; [done|].
  rewrite iter_pos_succ, Pos.iter_succ. simpl. apply IH.
Qed.

Lemma digits_bounds p : 2 ^ (Zpos (digits2_pos p) - 1) <= Zpos p < 2 ^ Zpos (digits2_pos p).
Proof.
  induction p as [p IH|p IH|]; [| |done]; simpl digits2_pos; rewrite Pos2Z.inj_succ;
    replace (Z.succ (Zpos (digits2_pos p)) - 1) with (Z.succ (Zpos (digits2_pos p) - 1)) by lia;
    rewrite !Z.pow_succ_r by lia; lia.
Qed.
Lemma digits_53 m : 2 ^ 52 <= Zpos m < 2 ^ 53 -> digits2_pos m = 53%positive.
Proof.
  intros Hm. pose proof (digits_bounds m) as Hd.
  assert (52 < Zpos (digits2_pos m)) by (apply (Z.pow_lt_mono_r_iff 2); lia).
  assert (Zpos (digits2_pos m) - 1 < 53) by (apply (Z.pow_lt_mono_r_iff 2); lia). lia.
Qed.

(** A normalised binary64 number. *)
Definition normal (m : positive) (e : Z) : Prop := 2 ^ 52 <= Zpos m < 2 ^ 53 /\ -1074 <= e <= 971.

Lemma fexp_53 e : -1074 <= e -> fexp f_prec f_emax (53 + e) = e.
Proof. intros. unfold fexp, emin, f_prec, f_emax. lia. Qed.

Lemma shr_fexp_normal m e : normal m e ->
  shr_fexp f_prec f_emax (Zpos m) e loc_Exact = (Build_shr_record (Zpos m) false false, e).
Proof.
  intros [Hm He]. unfold shr_fexp, Zdigits2. rewrite (digits_53 m Hm), fexp_53 by lia. by rewrite Z.sub_diag.
Qed.
Lemma shr_fexp_shift m d : normal m (Zpos d) ->
  shr_fexp f_prec f_emax (Zpos (Pos.iter xO m d)) 0 loc_Exact = (Build_shr_record (Zpos m) false false, Zpos d).
Proof.
  intros [Hm He]. unfold shr_fexp, Zdigits2. rewrite digits_iter_xO, (digits_53 m Hm), Z.add_0_r.
  change (Zpos (53 + d)) with (53 + Zpos d). rewrite fexp_53, Z.sub_0_r by lia.
  unfold shr, shr_record_of_loc. by rewrite shr_iter_xO.
Qed.
Lemma round_aux_finish s m e : normal m e ->
  match shr_m (Build_shr_record (Zpos m) false false) with
  | Z0 => S754_zero s
  | Zpos m => if e <=? f_emax - f_prec then S754_finite s m e else S754_infinity s
  | _ => S754_nan end = S754_finite s m e.
Proof.
  intros [_ He]. simpl. change (f_emax - f_prec) with 971. by rewrite (proj2 (Z.leb_le e 971)) by lia.
Qed.
Lemma round_normal s m e : normal m e -> binary_round_aux f_prec f_emax s (Zpos m) e loc_Exact = S754_finite s m e.
Proof.
  intros Hn. unfold binary_round_aux. rewrite shr_fexp_normal by done.
  cbn [shr_m loc_of_shr_record round_nearest_even]. rewrite shr_fexp_normal by done. by apply round_aux_finish.
Qed.

(** The integer [m * 2 ^ e] and the integer [m / 2 ^ d] when it is exact. *)
Lemma binary_round_pos s m d : normal m (Zpos d) ->
  binary_round f_prec f_emax s (Pos.iter xO m d) 0 = S754_finite s m (Zpos d).
Proof.
  intros Hn. pose proof Hn as [Hm He]. unfold binary_round. rewrite digits_iter_xO, (digits_53 m Hm), Z.add_0_r.
  change (Zpos (53 + d)) with (53 + Zpos d). rewrite fexp_53 by lia.
  change (shl_align (Pos.iter xO m d) 0 (Zpos d)) with (Pos.iter xO m d, 0). cbv beta iota.
  unfold binary_round_aux. rewrite shr_fexp_shift by done.
  cbn [shr_m loc_of_shr_record round_nearest_even]. rewrite shr_fexp_normal by done. by apply round_aux_finish.
Qed.
Lemma binary_round_neg s p d : normal (Pos.iter xO p d) (Zneg d) ->
  binary_round f_prec f_emax s p 0 = S754_finite s (Pos.iter xO p d) (Zneg d).
Proof.
  intros Hn. pose proof Hn as [Hm He]. unfold binary_round.
  pose proof (digits_53 _ Hm) as Hd. rewrite digits_iter_xO in Hd. rewrite Z.add_0_r.
  replace (Zpos (digits2_pos p)) with (53 + Zneg d) by lia. rewrite fexp_53 by lia.
  simpl shl_align. by apply round_normal.
Qed.
Lemma binary_round_zero s m : normal m 0 -> binary_round f_prec f_emax s m 0 = S754_finite s m 0.
Proof.
  intros Hn. pose proof Hn as [Hm He]. unfold binary_round. rewrite (digits_53 m Hm), fexp_53 by lia.
  simpl shl_align. by apply round_normal.
Qed.

Lemma of_bits_to_bits s m e : normal m e -> of_bits (to_bits (S754_finite s m e)) = S754_finite s m e.
Proof.
  intros [Hm He]. unfold to_bits. rewrite (proj2 (Z.ltb_ge (Zpos m) (2 ^ 52))) by lia.
  set (f := Zpos m - 2 ^ 52). set (E := e + 1075).
  assert (0 <= f < 2 ^ 52 /\ 1 <= E <= 2046) as [Hf HE] by (unfold f, E; lia).
  assert (f_exp (sign_bit s + E * 2 ^ 52 + f) = E) as Hexp.
  { unfold f_exp, sign_bit. destruct s; Z.div_mod_to_equations; lia. }
  assert (f_frac (sign_bit s + E * 2 ^ 52 + f) = f) as Hfrac.
  { unfold f_frac, sign_bit. destruct s; Z.div_mod_to_equations; lia. }
  assert (f_sign (sign_bit s + E * 2 ^ 52 + f) = s) as Hsign.
  { unfold f_sign, sign_bit. destruct s; [apply Z.leb_le|apply Z.leb_gt]; lia. }
  rewrite u64_id by (unfold is_u64, sign_bit; destruct s; lia).
  unfold of_bits. rewrite Hexp, Hfrac, Hsign.
  rewrite (proj2 (Z.eqb_neq E 2047)), (proj2 (Z.eqb_neq E 0)) by lia. unfold f, E.
  f_equal; [|lia]. by replace (2 ^ 52 + (Zpos m - 2 ^ 52)) with (Zpos m) by lia.
Qed.

Lemma f_eqb_refl_finite a s m e : of_bits a = S754_finite s m e -> SFeqb (S754_finite s m e) (of_bits a) = true.
Proof.
  intros ->. unfold SFeqb, SFcompare. rewrite Z.compare_refl.
  change (Pos.compare_cont Eq m m) with (Pos.compare m m). rewrite Pos.compare_refl. by destruct s.
Qed.
Lemma SFeqb_finite s1 m1 e1 s2 m2 e2 :
  SFeqb (S754_finite s1 m1 e1) (S754_finite s2 m2 e2) = true -> s1 = s2 /\ m1 = m2 /\ e1 = e2.
Proof.
  unfold SFeqb, SFcompare. change (Pos.compare_cont Eq m1 m2) with (Pos.compare m1 m2).
  destruct s1, s2; try done; destruct (Z.compare_spec e1 e2); try done;
    destruct (Pos.compare_spec m1 m2); simpl; done.
Qed.

(** The cases of a bit pattern that is neither infinite nor a NaN. *)
Lemma of_bits_cases b : is_u64 b -> f_is_nan b = false -> f_is_inf b = false ->
  (f_exp b = 0 /\ (of_bits b = S754_zero (f_sign b) \/ exists m, of_bits b = S754_finite (f_sign b) m (-1074)))
  \/ exists m, of_bits b = S754_finite (f_sign b) m (f_exp b - 1075) /\ Zpos m = 2 ^ 52 + f_frac b
       /\ normal m (f_exp b - 1075) /\ 1 <= f_exp b <= 2046.
Proof.
  intros Hb Hnan Hinf. unfold f_is_nan, f_is_inf in *. unfold of_bits in *.
  assert (0 <= f_exp b < 2048) as He by (unfold f_exp; apply Z.mod_pos_bound; lia).
  assert (0 <= f_frac b < 2 ^ 52) as Hf by (unfold f_frac; apply Z.mod_pos_bound; lia).
  zcase (f_exp b =? 2047); [by destruct (f_frac b =? 0)|]. zcase (f_exp b =? 0).
  - left. split; [done|]. destruct (f_frac b) as [|m|m]; [by left|right; by exists m|by left].
  - right. exists (Z.to_pos (2 ^ 52 + f_frac b)). split; [done|].
    rewrite Z2Pos.id by lia. split; [done|]. split; [|lia]. split; [rewrite Z2Pos.id by lia|]; lia.
Qed.

(** [value == math.Trunc(value)] says that the bits below the units are zero. *)
Lemma f_trunc_integral b m : is_u64 b -> 1023 <= f_exp b < 1075 ->
  of_bits b = S754_finite (f_sign b) m (f_exp b - 1075) -> Zpos m = 2 ^ 52 + f_frac b ->
  f_eqb b (f_trunc b) = true -> Zpos m mod 2 ^ (1075 - f_exp b) = 0.
Proof.
  intros Hb He Hof Hm Heq. unfold f_trunc in Heq. cbv zeta in Heq.
  rewrite (proj2 (Z.ltb_ge (f_exp b - 1023) 0)), (proj2 (Z.leb_gt 52 (f_exp b - 1023))) in Heq by lia.
  replace (52 - (f_exp b - 1023)) with (1075 - f_exp b) in Heq by lia.
  set (k := 1075 - f_exp b) in *. assert (1 <= k <= 52) as Hk by lia.
  assert (2 ^ 52 = 2 ^ (52 - k) * 2 ^ k) as H52 by (rewrite <- Z.pow_add_r by lia; f_equal; lia).
  assert (0 < 2 ^ k) as Hk0 by lia. assert (0 < 2 ^ (52 - k)) as Hk1 by lia.
  set (r := b mod 2 ^ k) in *. assert (0 <= r < 2 ^ k) as Hr by (apply Z.mod_pos_bound; lia).
  assert (f_frac b mod 2 ^ k = r) as Hfr.
  { unfold f_frac, r. rewrite H52. symmetry. rewrite (Z.mul_comm (2 ^ (52 - k))).
    rewrite Z.rem_mul_r by lia. rewrite Z.mul_comm, Z_mod_plus_full. by rewrite Z.mod_mod by lia. }
  assert (r <= f_frac b) as Hle by (rewrite <- Hfr; apply Z.mod_le; [unfold f_frac; apply Z.mod_pos_bound|]; lia).
  pose proof (Z.div_mod b (2 ^ 52) ltac:(lia)) as Hdm. fold (f_frac b) in Hdm.
  assert (0 <= f_frac b < 2 ^ 52) as Hf by (unfold f_frac; apply Z.mod_pos_bound; lia).
  assert ((b - r) / 2 ^ 52 = b / 2 ^ 52) as Hdiv.
  { symmetry. apply (Z.div_unique _ _ _ (f_frac b - r)); [left; lia|lia]. }
  assert (f_frac (b - r) = f_frac b - r) as Hfrac.
  { unfold f_frac at 1. symmetry. apply (Z.mod_unique _ _ (b / 2 ^ 52)); [left; lia|lia]. }
  assert (f_sign (b - r) = f_sign b) as Hsign.
  { unfold f_sign. zcase (2 ^ 63 <=? b); [apply Z.leb_le|apply Z.leb_gt]; [|lia].
    assert (2 ^ 11 <= b / 2 ^ 52) by (apply Z.div_le_lower_bound; lia).
    pose proof (Z.div_mod (b - r) (2 ^ 52) ltac:(lia)).
    pose proof (Z.mod_pos_bound (b - r) (2 ^ 52) ltac:(lia)). lia. }
  unfold f_eqb in Heq. rewrite Hof in Heq.
  assert (of_bits (b - r) = S754_finite (f_sign b) (Z.to_pos (2 ^ 52 + (f_frac b - r))) (f_exp b - 1075)) as Hof'.
  { unfold of_bits. assert (f_exp (b - r) = f_exp b) as -> by (unfold f_exp; by rewrite Hdiv).
    rewrite Hfrac, Hsign. by rewrite (proj2 (Z.eqb_neq (f_exp b) 2047)), (proj2 (Z.eqb_neq (f_exp b) 0)) by lia. }
  rewrite Hof' in Heq. apply SFeqb_finite in Heq as (_ & Hmm & _).
  apply (f_equal Zpos) in Hmm. rewrite Hm, Z2Pos.id in Hmm by lia. assert (r = 0) as Hr0 by lia.
  rewrite Hm, H52, Z.add_comm, Z_mod_plus_full. by rewrite Hfr.
Qed.

Lemma f_of_int_back s m e (p : positive) b : of_bits b = S754_finite s m e ->
  binary_round f_prec f_emax s p 0 = S754_finite s m e -> normal m e ->
  f_eqb (f_of_int (if s then - Zpos p else Zpos p)) b = true.
Proof.
  intros Hof Hr Hn. unfold f_eqb, f_of_int.
  assert (binary_normalize f_prec f_emax (if s then - Zpos p else Zpos p) 0 false = S754_finite s m e) as ->
    by (destruct s; exact Hr).
  rewrite of_bits_to_bits by done. by apply f_eqb_refl_finite.
Qed.

(** An integral float64 in the range of int64 survives the way through int64. *)
Lemma f_int_roundtrip b : is_u64 b -> f_is_nan b = false -> f_is_inf b = false ->
  f_eqb b (f_trunc b) = true -> is_i64 (f_trunc_int b) -> f_eqb (f_of_int (int_of_f b)) b = true.
Proof.
  intros Hb Hnan Hinf Htr Hi. unfold int_of_f. rewrite Hnan, Hinf. simpl. rewrite bool_decide_true by done.
  destruct (of_bits_cases b Hb Hnan Hinf) as [[He [Hz|[m Hm]]]|(m & Hof & Hm & Hn & He)].
  - unfold f_trunc_int, f_eqb. rewrite Hz. by destruct (f_sign b).
  - exfalso. unfold f_eqb, f_trunc in Htr. rewrite He, Hm in Htr. simpl in Htr.
    by destruct (f_sign b).
  - unfold f_trunc_int. rewrite Hof. destruct (decide (f_exp b < 1023)) as [Hlt|Hge].
    { exfalso. unfold f_eqb, f_trunc in Htr. rewrite Hof in Htr. cbv zeta in Htr.
      rewrite (proj2 (Z.ltb_lt (f_exp b - 1023) 0)) in Htr by lia. by destruct (f_sign b). }
    destruct (decide (f_exp b < 1075)) as [Hlt'|Hge'].
    + pose proof (f_trunc_integral b m Hb ltac:(lia) Hof Hm Htr) as Hmod.
      rewrite (proj2 (Z.leb_gt 0 (f_exp b - 1075))) by lia.
      assert (exists d, 1075 - f_exp b = Zpos d) as [d Hd] by (exists (Z.to_pos (1075 - f_exp b)); lia).
      assert (- (f_exp b - 1075) = Zpos d) as -> by lia. rewrite Hd in Hmod.
      assert (0 < 2 ^ Zpos d) as H2 by lia.
      assert (exists p, Zpos m / 2 ^ Zpos d = Zpos p) as [p Hp].
      { exists (Z.to_pos (Zpos m / 2 ^ Zpos d)). rewrite Z2Pos.id; [done|].
        pose proof (Z.div_mod (Zpos m) (2 ^ Zpos d)). nia. }
      assert (m = Pos.iter xO p d) as Hmp.
      { apply (inj Zpos). rewrite iter_xO_Z, <- Hp. pose proof (Z.div_mod (Zpos m) (2 ^ Zpos d)). lia. }
      rewrite Hp. assert (f_exp b - 1075 = Zneg d) as Hneg by lia. rewrite Hneg in *.
      apply (f_of_int_back _ m (Zneg d)); [done| |done]. subst m. by apply binary_round_neg.
    + rewrite (proj2 (Z.leb_le 0 (f_exp b - 1075))) by lia.
      destruct (f_exp b - 1075) as [|d|d] eqn:Hd; [| |lia].
      * rewrite Z.mul_1_r. apply (f_of_int_back _ m 0); [done|by apply binary_round_zero|done].
      * rewrite <- iter_xO_Z. apply (f_of_int_back _ m (Zpos d)); [done|by apply binary_round_pos|done].
Qed.

(** ** Exact operations *)
Lemma bits_split b : is_u64 b -> b = sign_bit (f_sign b) + f_exp b * 2 ^ 52 + f_frac b.
Proof.
  intros Hb. unfold f_sign, f_exp, f_frac, sign_bit, is_u64 in *.
  zcase (2 ^ 63 <=? b); Z.div_mod_to_equations; lia.
Qed.
(** The significand and exponent are those the format would choose. *)
Definition canonical (m : positive) (e : Z) : Prop :=
  fexp f_prec f_emax (Zpos (digits2_pos m) + e) = e /\ e <= 971.
Lemma of_bits_canonical b s m e : is_u64 b -> of_bits b = S754_finite s m e -> canonical m e.
Proof.
  intros Hb Hof. destruct (f_is_nan b) eqn:Hn; [by unfold f_is_nan in Hn; rewrite Hof in Hn|].
  destruct (f_is_inf b) eqn:Hi; [by unfold f_is_inf in Hi; rewrite Hof in Hi|].
  destruct (of_bits_cases b Hb Hn Hi) as [[He [Hz|[m' Hm]]]|(m' & Hm & _ & Hnm & He)].
  - congruence.
  - assert (Zpos m' < 2 ^ 52) as Hlt.
    { unfold of_bits in Hm. rewrite He in Hm. simpl in Hm. assert (f_frac b < 2 ^ 52) as Hf
        by (unfold f_frac; apply Z.mod_pos_bound; lia). destruct (f_frac b); congruence. }
    rewrite Hof in Hm. injection Hm as -> -> ->. pose proof (digits_bounds m') as Hd.
    assert (Zpos (digits2_pos m') - 1 < 52) by (apply (Z.pow_lt_mono_r_iff 2); lia).
    split; [unfold fexp, emin, f_prec, f_emax; lia|lia].
  - rewrite Hof in Hm. injection Hm as -> -> ->. destruct Hnm as [Hm He'].
    split; [|lia]. rewrite (digits_53 _ Hm). apply fexp_53; lia.
Qed.
Lemma of_to_of_bits b : is_u64 b -> f_is_nan b = false -> of_bits (to_bits (of_bits b)) = of_bits b.
Proof.
  intros Hb Hn. destruct (f_is_inf b) eqn:Hi.
  { unfold f_is_inf in Hi. destruct (of_bits b) as [| [] | |]; done. }
  destruct (of_bits_cases b Hb Hn Hi) as [[He [->|[m Hm]]]|(m & -> & _ & Hnm & _)].
  - by destruct (f_sign b).
  - assert (0 <= f_frac b < 2 ^ 52) as Hf by (unfold f_frac; apply Z.mod_pos_bound; lia).
    pose proof (bits_split b Hb) as Hbs. rewrite He in Hbs.
    enough (to_bits (of_bits b) = b) as -> by done.
    unfold of_bits. rewrite He. simpl. destruct (f_frac b) as [|p|] eqn:Hfb; [unfold to_bits; rewrite u64_id by (unfold is_u64 in *; lia); lia| |lia].
    unfold to_bits. rewrite (proj2 (Z.ltb_lt (Zpos p) _)), u64_id by (unfold is_u64 in *; lia). lia.
  - by apply of_bits_to_bits.
Qed.
Lemma f_eqb_refl b : f_is_nan b = false -> f_eqb b b = true.
Proof.
  intros Hn. unfold f_eqb. destruct (of_bits b) as [s|s| |s m e] eqn:Hof.
  - by destruct s.
  - by destruct s.
  - unfold f_is_nan in Hn. by rewrite Hof in Hn.
  - rewrite <- Hof at 2. by apply f_eqb_refl_finite.
Qed.
Lemma f_eqb_of_bits a b : of_bits a = of_bits b -> f_is_nan b = false -> f_eqb a b = true.
Proof. intros H Hn. unfold f_eqb. rewrite H. by apply f_eqb_refl. Qed.

Lemma round_shifted s m e : canonical m e ->
  binary_round_aux f_prec f_emax s (Zpos (Pos.iter xO m 52)) (e - 52) loc_Exact = S754_finite s m e.
Proof.
  intros [Hc He]. unfold binary_round_aux.
  assert (shr_fexp f_prec f_emax (Zpos (Pos.iter xO m 52)) (e - 52) loc_Exact
    = (Build_shr_record (Zpos m) false false, e)) as ->.
  { unfold shr_fexp, Zdigits2. rewrite digits_iter_xO.
    replace (Zpos (digits2_pos m + 52) + (e - 52)) with (Zpos (digits2_pos m) + e) by lia.
    rewrite Hc. replace (e - (e - 52)) with 52 by lia. unfold shr, shr_record_of_loc.
    rewrite shr_iter_xO. f_equal. lia. }
  cbn [shr_m loc_of_shr_record round_nearest_even].
  unfold shr_fexp, Zdigits2. rewrite Hc, Z.sub_diag. cbn [shr shr_record_of_loc shr_m].
  change (f_emax - f_prec) with 971. by rewrite (proj2 (Z.leb_le e 971)) by lia.
Qed.
(** Multiplying by one changes nothing, subnormal numbers included. *)
Lemma f_mul_one b : is_u64 b -> f_is_nan b = false -> f_eqb (f_mul (f_of_int 1) b) b = true.
Proof.
  intros Hb Hn. apply f_eqb_of_bits; [|done]. unfold f_mul.
  change (of_bits (f_of_int 1)) with (S754_finite false 4503599627370496 (-52)).
  rewrite <- (of_to_of_bits b Hb Hn) at 2. f_equal. f_equal.
  destruct (of_bits b) as [s|s| |s m e] eqn:Hof; [done|done|done|].
  unfold SFmul. change (4503599627370496 * m)%positive with (Pos.iter xO m 52).
  replace (-52 + e) with (e - 52) by lia. rewrite xorb_false_l.
  apply round_shifted. by eapply of_bits_canonical.
Qed.
(** Adding a zero changes nothing up to the sign of a zero. *)
Lemma of_bits_sign_bit s : of_bits (sign_bit s) = S754_zero s.
Proof. by destruct s. Qed.
Lemma f_add_zero b s : is_u64 b -> f_is_nan b = false -> f_eqb (f_add b (sign_bit s)) b = true.
Proof.
  intros Hb Hn. unfold f_add. rewrite of_bits_sign_bit.
  destruct (of_bits b) as [s'|s'| |s' m e] eqn:Hof.
  - unfold f_eqb. rewrite Hof. by destruct s', s.
  - apply f_eqb_of_bits; [|done]. simpl. rewrite Hof. by destruct s'.
  - unfold f_is_nan in Hn. by rewrite Hof in Hn.
  - apply f_eqb_of_bits; [|done]. cbn [SFadd]. rewrite <- Hof. by apply of_to_of_bits.
Qed.
Lemma f_mul_zero b : f_is_nan b = false -> f_is_inf b = false -> exists s, f_mul (f_of_int 0) b = sign_bit s.
Proof.
  intros Hn Hi. unfold f_mul, f_is_nan, f_is_inf in *. change (of_bits (f_of_int 0)) with (S754_zero false).
  destruct (of_bits b) as [s|s| |s m e]; try done; exists s; by destruct s.
Qed.
(** Only numbers compare equal. *)
Lemma f_eqb_nan a b : f_eqb a b = true -> f_is_nan a = false /\ f_is_nan b = false.
Proof.
  unfold f_eqb, f_is_nan. destruct (of_bits a) as [|[]| |[]], (of_bits b) as [|[]| |[]]; done.
Qed.
(** A finite sum has a finite step. *)
Lemma f_add_step_finite v base step : f_is_inf v = false -> f_is_inf base = false ->
  f_eqb v (f_add base (f_mul (f_of_int 1) step)) = true ->
  f_is_nan base = false /\ f_is_nan step = false /\ f_is_inf step = false.
Proof.
  unfold f_is_inf, f_is_nan, f_eqb, f_add, f_mul. change (of_bits (f_of_int 1)) with (S754_finite false 4503599627370496 (-52)).
  intros Hv Hb Heq. destruct (of_bits step) as [|s| |]; [| | |].
  - destruct (of_bits base) as [| | |]; [done|done| |done]. by destruct (of_bits v) as [| | |[]].
  - exfalso. replace (of_bits (to_bits (SFmul f_prec f_emax (S754_finite false 4503599627370496 (-52)) (S754_infinity s))))
      with (S754_infinity s) in Heq by (by destruct s).
    destruct (of_bits base) as [| | |]; [|done| |]; destruct s, (of_bits v) as [| | |[]]; done.
  - exfalso. change (of_bits (to_bits (SFmul f_prec f_emax (S754_finite false 4503599627370496 (-52)) S754_nan)))
      with S754_nan in Heq. destruct (of_bits base), (of_bits v) as [| | |[]]; done.
  - destruct (of_bits base) as [| | |]; [done|done| |done]. by destruct (of_bits v) as [| | |[]].
Qed.

Lemma of_bits_max : of_bits (f_of_int (2 ^ 63 - 1)) = S754_finite false 4503599627370496 11.
Proof. reflexivity. Qed.
Lemma of_bits_min : of_bits (f_of_int (- 2 ^ 63)) = S754_finite true 4503599627370496 11.
Proof. reflexivity. Qed.
Lemma SFltb_ge_finite s m1 e1 m2 e2 : SFltb (S754_finite s m1 e1) (S754_finite s m2 e2) = false ->
  if s then e1 < e2 \/ e1 = e2 /\ Zpos m1 <= Zpos m2 else e2 < e1 \/ e2 = e1 /\ Zpos m2 <= Zpos m1.
Proof.
  unfold SFltb, SFcompare. change (Pos.compare_cont Eq m1 m2) with (Pos.compare m1 m2).
  destruct s, (Z.compare_spec e1 e2), (Pos.compare_spec m1 m2); simpl; intros; done || lia.
Qed.
(** The bits of 2^63, the value [float64(math.MaxInt64)] rounds to. *)
Definition f_two63 : Z := 0x43e0000000000000.
(** What lies between [float64(math.MinInt64)] and [float64(math.MaxInt64)] is
    an int64 after truncation, except 2^63 itself. *)
Lemma f_trunc_int_range b : is_u64 b -> f_is_nan b = false -> f_is_inf b = false ->
  f_ltb b (f_of_int (- 2 ^ 63)) = false -> f_ltb (f_of_int (2 ^ 63 - 1)) b = false ->
  b <> f_two63 -> is_i64 (f_trunc_int b).
Proof.
  intros Hb Hn Hi Hmin Hmax Hne. unfold f_ltb in Hmin, Hmax. rewrite of_bits_min in Hmin. rewrite of_bits_max in Hmax.
  unfold f_trunc_int. destruct (of_bits_cases b Hb Hn Hi) as [[He [Hz|[m Hm]]]|(m & Hof & Hm & [Hm53 _] & He)].
  - rewrite Hz. wrap_lia.
  - rewrite Hm. assert (Zpos m / 2 ^ 1074 = 0) as Hz; [|change (0 <=? -1074) with false; change (- (-1074)) with 1074; cbv iota; rewrite Hz; by destruct (f_sign b)].
    apply Z.div_small. split; [lia|]. unfold of_bits in Hm. rewrite He in Hm. simpl in Hm.
    assert (f_frac b < 2 ^ 52) as Hf by (unfold f_frac; apply Z.mod_pos_bound; lia).
    destruct (f_frac b); [done| |done]. injection Hm as ->. etrans; [exact Hf|]. apply Z.pow_lt_mono_r; lia.
  - rewrite Hof in *. set (e := f_exp b - 1075) in *.
    assert (e < 11 \/ e = 11 /\ Zpos m = 2 ^ 52 /\ f_sign b = true) as Hcase.
    { destruct (f_sign b) eqn:Hs.
      - apply SFltb_ge_finite in Hmin. lia.
      - apply SFltb_ge_finite in Hmax. destruct (decide (e < 11)); [by left|]. exfalso.
        apply Hne. rewrite (bits_split b Hb), Hs. unfold f_two63. simpl sign_bit. unfold e in *. lia. }
    destruct Hcase as [Hlt|(He11 & Hm52 & ->)].
    + zcase (0 <=? e).
      * assert (2 ^ e <= 2 ^ 10) by (apply Z.pow_le_mono_r; lia). change (2 ^ 10) with 1024 in *.
        destruct (f_sign b); unfold is_i64; nia.
      * assert (0 <= Zpos m / 2 ^ (- e) <= Zpos m) as Hd
          by (split; [apply Z.div_pos; lia|apply Z.div_le_upper_bound; nia]).
        destruct (f_sign b); unfold is_i64; lia.
    + rewrite He11, Hm52. by_decide.
Qed.
