(* ===== verification/SstValues.v ===== *)
(** * SSTable value codecs

    internal/sstable/compression_bits.go, compression_gorilla.go,
    compression_int_rle.go, compression_string.go, compression_float_int.go,
    compression_float_scale.go, the encoders and value readers of
    compression_values.go and the plain value columns of encoding_samples.go.

    The Go loops run over samples and use one component of the value of each;
    here they run over the list of these components. *)
From S2P Require Import Prelude GoBinary Model Codec Readers SstTime Float64.
From stdpp Require Import prelude strings list gmap.
From Stdlib Require Import ZArith Lia.
#[local] Open Scope Z_scope.

(** ** Bit streams *)
Record bitWriter := mkBitWriter {
  bw_buf : bytes;
  bw_cur : Z;
  bw_nbits : Z;
}.
Definition newBitWriter (dst : bytes) : bitWriter := mkBitWriter dst 0 0.
Definition writeBit (w : bitWriter) (bit : Z) : bitWriter :=
  let cur := Z.lor (u8 (Z.shiftl (bw_cur w) 1)) (u8 (Z.land bit 1)) in
  let nbits := bw_nbits w + 1 in
  if nbits =? 8 then mkBitWriter (bw_buf w ++ [cur]) 0 0 else mkBitWriter (bw_buf w) cur nbits.
Fixpoint writeBits (w : bitWriter) (value : Z) (n : nat) : bitWriter :=
  match n with
  | O => w
  | S index => writeBits (writeBit w (Z.land (Z.shiftr value (Z.of_nat index)) 1)) value index
  end.
Definition bw_bytes (w : bitWriter) : bytes :=
  if bw_nbits w =? 0 then bw_buf w
  else bw_buf w ++ [u8 (Z.shiftl (bw_cur w) (8 - bw_nbits w))].

Record bitReader := mkBitReader {
  br_data : bytes;
  br_byte : Z;
  br_bit : Z;
}.
Definition newBitReader (data : bytes) : bitReader := mkBitReader data 0 0.
(** [r.bit += take], moving to the next byte at its end. *)
Definition br_advance (r : bitReader) (take : Z) : bitReader :=
  let bit := br_bit r + take in
  if bit =? 8 then mkBitReader (br_data r) (br_byte r + 1) 0 else mkBitReader (br_data r) (br_byte r) bit.
Definition readBit (r : bitReader) : outcome (Z * bitReader) :=
  if len (br_data r) <=? br_byte r then Err (Errorf "truncated bit stream")
  else
    b ← idx (br_data r) (br_byte r);
    Ok (Z.land (Z.shiftr b (7 - br_bit r)) 1, br_advance r 1).
(** Every round takes at least one of the [n] bits. *)
Fixpoint readBitsLoop (fuel : nat) (r : bitReader) (value n : Z) : outcome (Z * bitReader) :=
  match fuel with
  | O => Ok (value, r)
  | S fuel' =>
      if n <=? 0 then Ok (value, r)
      else if len (br_data r) <=? br_byte r then Err (Errorf "truncated bit stream")
      else
        let avail := 8 - br_bit r in
        let take := if avail <? n then avail else n in
        let shift := avail - take in
        let mask := u8 (Z.shiftl 1 take - 1) in
        b ← idx (br_data r) (br_byte r);
        let chunk := Z.land (Z.shiftr b shift) mask in
        readBitsLoop fuel' (br_advance r take) (Z.lor (u64 (Z.shiftl value take)) chunk) (n - take)
  end.
Definition readBits (r : bitReader) (n : Z) : outcome (Z * bitReader) :=
  if n <=? 0 then Ok (0, r)
  else if 64 <? n then Err (Errorf "readBits n exceeds 64")
  else readBitsLoop (Z.to_nat n) r 0 n.
Definition bitsRead (r : bitReader) : Z := br_byte r * 8 + br_bit r.
Definition consumeAligned (r : bitReader) : reader unit := fun rest =>
  let usedBytes := Z.quot (bitsRead r + 7) 8 in
  if len (br_data r) <? usedBytes then Err (Errorf "truncated bit stream payload")
  else if len rest <? usedBytes then Err (Errorf "truncated bit stream payload")
  else Ok (tt, drop (Z.to_nat usedBytes) rest).

(** ** Gorilla floats *)
Definition writeGorillaXOR (writer : bitWriter) (xor prevLeading prevTrailing : Z)
    : bitWriter * (Z * Z) :=
  if xor =? 0 then (writeBit writer 0, (prevLeading, prevTrailing))
  else
    let writer := writeBit writer 1 in
    let leading := if 31 <? LeadingZeros64 xor then 31 else LeadingZeros64 xor in
    let trailing := TrailingZeros64 xor in
    let mbits := 64 - leading - trailing in
    if (0 <=? prevLeading) && (prevLeading <=? leading) && (prevTrailing <=? trailing) then
      let writer := writeBit writer 0 in
      let window := 64 - prevLeading - prevTrailing in
      (writeBits writer (Z.shiftr xor prevTrailing) (Z.to_nat window), (prevLeading, prevTrailing))
    else
      let writer := writeBit writer 1 in
      let writer := writeBits writer leading 5 in
      let writer := writeBits writer (mbits - 1) 6 in
      (writeBits writer (Z.shiftr xor trailing) (Z.to_nat mbits), (leading, trailing)).
Fixpoint gorillaLoop (writer : bitWriter) (prev prevLeading prevTrailing : Z) (values : list Z) : bitWriter :=
  match values with
  | [] => writer
  | next :: values' =>
      let '(writer, (leading, trailing)) := writeGorillaXOR writer (Z.lxor next prev) prevLeading prevTrailing in
      gorillaLoop writer next leading trailing values'
  end.
Definition appendGorillaFloatValues (values : list Z) : bytes :=
  match values with
  | [] => []
  | [first] => le_put_u64 first
  | first :: values' => bw_bytes (gorillaLoop (newBitWriter (le_put_u64 first)) first (-1) 0 values')
  end.

Definition readGorillaNext (r : bitReader) (prev prevLeading prevTrailing : Z)
    : outcome (Z * (Z * Z) * bitReader) :=
  '(control, r) ← wrapErr "float gorilla control" (readBit r);
  if control =? 0 then Ok (prev, (prevLeading, prevTrailing), r)
  else
    '(reuse, r) ← wrapErr "float gorilla reuse" (readBit r);
    if reuse =? 0 then
      if prevLeading <? 0 then Err (Errorf "float gorilla reuse before first block")
      else
        let window := 64 - prevLeading - prevTrailing in
        '(bitsValue, r) ← wrapErr "float gorilla reused bits" (readBits r window);
        Ok (Z.lxor prev (u64 (Z.shiftl bitsValue prevTrailing)), (prevLeading, prevTrailing), r)
    else
      '(leading, r) ← wrapErr "float gorilla leading" (readBits r 5);
      '(mbitsMinus1, r) ← wrapErr "float gorilla mbits" (readBits r 6);
      let mbits := mbitsMinus1 + 1 in
      let trailing := 64 - leading - mbits in
      if trailing <? 0 then Err (Errorf "float gorilla invalid window")
      else
        '(bitsValue, r) ← wrapErr "float gorilla block bits" (readBits r mbits);
        Ok (Z.lxor prev (u64 (Z.shiftl bitsValue trailing)), (leading, trailing), r).
Fixpoint readGorillaLoop (n : nat) (r : bitReader) (prev prevLeading prevTrailing : Z)
    : outcome (list Z * bitReader) :=
  match n with
  | O => Ok ([], r)
  | S n' =>
      '(next, (leading, trailing), r) ← readGorillaNext r prev prevLeading prevTrailing;
      '(rest, r) ← readGorillaLoop n' r next leading trailing;
      Ok (next :: rest, r)
  end.
Definition readGorillaStream (count prev : Z) : reader (list FieldValue) := fun rest =>
  '(values, r) ← readGorillaLoop (Z.to_nat (count - 1)) (newBitReader rest) prev (-1) 0;
  '(_, rest) ← consumeAligned r rest;
  Ok (map Float64Value (prev :: values), rest).
Definition readGorillaFloatValues (codecID count : Z) : reader (list FieldValue) :=
  if negb (codecID =? compressionXOR) then rfail (Errorf "unknown float compression")
  else
    _ ← rmake 48 count;
    if count =? 0 then mret []
    else
      first ← BlockReader.fixedInt64 "first float bits";
      let prev := u64 first in
      if count =? 1 then mret [Float64Value prev]
      else readGorillaStream count prev.

(** ** Integers *)
Fixpoint intDeltas (prev : Z) (values : list Z) : bytes :=
  match values with
  | [] => []
  | next :: values' => appendUvarint (zigZag64 (i64 (next - prev))) ++ intDeltas next values'
  end.
Definition appendDeltaIntValues (values : list Z) : bytes :=
  match values with
  | [] => []
  | first :: values' => appendVarint first ++ intDeltas first values'
  end.
Definition appendDeltaRLEIntValues (values : list Z) : bytes :=
  match values with
  | [] => []
  | first :: values' => appendVarint first ++ rleTail (length values') first values'
  end.
Definition readDeltaInts (codecID count : Z) : reader (list Z) :=
  if negb (codecID =? compressionDelta) then rfail (Errorf "unknown int compression")
  else
    _ ← rmake 48 count;
    if count =? 0 then mret []
    else
      first ← BlockReader.varint "first int value";
      rest ← read_fold (Z.to_nat (count - 1)) (fun prev =>
        delta ← BlockReader.uvarint "int delta";
        let v := i64 (prev + unzigZag64 delta) in mret (v, v)) first;
      mret (first :: rest).
Definition readDeltaRLEInts (codecID count : Z) : reader (list Z) :=
  if negb (codecID =? compressionRLE) then rfail (Errorf "unknown int compression")
  else
    _ ← rmake 48 count;
    if count =? 0 then mret []
    else
      first ← BlockReader.varint "first int value";
      rest ← sized (fun fuel => readRuns fuel i64 "int" (count - 1) first);
      mret (first :: rest).
Definition readDeltaIntValues (codecID count : Z) : reader (list FieldValue) :=
  values ← readDeltaInts codecID count; mret (map Int64Value values).
Definition readDeltaRLEIntValues (codecID count : Z) : reader (list FieldValue) :=
  values ← readDeltaRLEInts codecID count; mret (map Int64Value values).

(** ** Strings *)
Definition stringOrdinalPlain : Z := 0.
Definition stringOrdinalRLE : Z := 1.
Definition stringOrdinalSame : Z := 2.

Record dictState := mkDictState {
  ds_ids : gmap bytes Z;
  ds_dict : list bytes;
  ds_ordinals : list Z;
}.
Definition dictStep (st : dictState) (value : bytes) : dictState :=
  match ds_ids st !! value with
  | Some id => mkDictState (ds_ids st) (ds_dict st) (ds_ordinals st ++ [id])
  | None => let id := len (ds_dict st) in
            mkDictState (<[value := id]> (ds_ids st)) (ds_dict st ++ [value]) (ds_ordinals st ++ [id])
  end.
Definition appendDictionaryPayload (dict : list bytes) (ordinalPayload : bytes) (mode : Z) : bytes :=
  appendUvarint (len dict) ++ concat (map AppendString dict) ++ [mode] ++ ordinalPayload.
Definition appendPlainOrdinals (ordinals : list Z) : bytes := concat (map appendUvarint ordinals).
Definition appendRLEOrdinals (ordinals : list Z) : bytes :=
  match ordinals with
  | [] => []
  | first :: ordinals' => appendUvarint first ++ rleTail (length ordinals') first ordinals'
  end.
Definition appendDictionaryStringValues (values : list bytes) : bytes :=
  if len values =? 0 then appendDictionaryPayload [] [] stringOrdinalPlain
  else
    let st := fold_left dictStep values (mkDictState ∅ [] []) in
    if len (ds_dict st) =? 1 then appendDictionaryPayload (ds_dict st) [] stringOrdinalSame
    else
      let plainOrds := appendPlainOrdinals (ds_ordinals st) in
      let rleOrds := appendRLEOrdinals (ds_ordinals st) in
      if len rleOrds <? len plainOrds then appendDictionaryPayload (ds_dict st) rleOrds stringOrdinalRLE
      else appendDictionaryPayload (ds_dict st) plainOrds stringOrdinalPlain.

(** A payload that ends here has no mode byte: plain ordinals. *)
Definition readOrdinalMode : reader Z := fun rest =>
  if len rest =? 0 then Ok (stringOrdinalPlain, rest) else BlockReader.byte "string ordinal mode" rest.
Definition readStringDictionary : reader (list bytes * Z) :=
  dictCount ← BlockReader.intCount "string dictionary count";
  _ ← rmake 16 dictCount;
  dict ← read_n (Z.to_nat dictCount) (BlockReader.string "string dictionary value");
  mode ← readOrdinalMode;
  mret (dict, mode).
Definition readPlainOrdinals (count : Z) : reader (list Z) :=
  _ ← rmake 8 count; read_n (Z.to_nat count) (BlockReader.intCount "string dictionary ordinal").
Definition readRLEOrdinals (count : Z) : reader (list Z) :=
  if count =? 0 then mret []
  else
    first ← BlockReader.intCount "first string ordinal";
    _ ← rmake 8 count;
    rest ← sized (fun fuel => readRuns fuel i64 "string ordinal" (count - 1) first);
    mret (first :: rest).
Definition readOrdinals (mode count : Z) : reader (list Z) :=
  if mode =? stringOrdinalSame then
    (if count =? 0 then mret [] else (_ ← rmake 8 count; mret (replicate (Z.to_nat count) 0)))
  else if mode =? stringOrdinalPlain then readPlainOrdinals count
  else if mode =? stringOrdinalRLE then readRLEOrdinals count
  else rfail (Errorf "unknown string ordinal mode").
Definition dictValue (dict : list bytes) (ordinal : Z) : outcome FieldValue :=
  if (ordinal <? 0) || (len dict <=? ordinal) then Err (Errorf "string dictionary ordinal out of range")
  else value ← idx dict ordinal; Ok (StringValue value).
Definition readStringDictionaryOrdinals (dict : list bytes) (mode count : Z) : reader (list FieldValue) :=
  ordinals ← readOrdinals mode count;
  _ ← rmake 48 count;
  lift (mapM (dictValue dict) ordinals).
Definition readDictionaryStringValues (codecID count : Z) : reader (list FieldValue) :=
  if negb (codecID =? compressionDictionary) then rfail (Errorf "unknown string compression")
  else '(dict, mode) ← readStringDictionary; readStringDictionaryOrdinals dict mode count.

(** ** Floats with a constant step or integral values *)
Definition floatConstStepKindAP : Z := 0.
Definition floatConstStepKindIndexScale : Z := 1.
Definition appendFloatConstStepAP (base step : Z) : bytes :=
  [floatConstStepKindAP] ++ le_put_u64 base ++ le_put_u64 step.
Definition appendFloatConstStepIndexScale (start scale : Z) : bytes :=
  [floatConstStepKindIndexScale] ++ le_put_u64 (u64 start) ++ le_put_u64 scale.

Definition apValue (base step : Z) (index : nat) : Z := f_add base (f_mul (f_of_int (Z.of_nat index)) step).
Definition indexScaleValue (start scale : Z) (index : nat) : Z :=
  f_mul (f_of_int (i64 (start + Z.of_nat index))) scale.

(** [for index := first; ...; { if !match(index, value) { return false } }] *)
Fixpoint allMatch (check : nat -> Z -> bool) (index : nat) (values : list Z) : bool :=
  match values with
  | [] => true
  | v :: values' => if check index v then allMatch check (S index) values' else false
  end.
Definition detectFloatConstStep (values : list Z) : option (Z * Z) :=
  match values with
  | base :: v1 :: _ =>
      let step := f_sub v1 base in
      if allMatch (fun index v => f_eqb v (apValue base step index)) 1 (tail values)
      then Some (base, step) else None
  | _ => None
  end.
Definition matchesFloatIndexScale (values : list Z) (start scale : Z) : bool :=
  allMatch (fun index v => f_eqb (indexScaleValue start scale index) v) 0 values.
(** Candidates in order, each tried once. *)
Fixpoint tryCandidates (values : list Z) (v0 v1 : Z) (seen candidates : list Z) : option (Z * Z) :=
  match candidates with
  | [] => None
  | candidate :: candidates' =>
      if bool_decide (candidate ∈ seen) then tryCandidates values v0 v1 seen candidates'
      else if (candidate =? 0) && negb (f_eqb v0 0) then tryCandidates values v0 v1 (candidate :: seen) candidates'
      else
        let candidateScale := if candidate =? 0 then v1 else f_div v0 (f_of_int candidate) in
        if matchesFloatIndexScale values candidate candidateScale then Some (candidate, candidateScale)
        else tryCandidates values v0 v1 (candidate :: seen) candidates'
  end.
Definition detectFloatIndexScale (values : list Z) : option (Z * Z) :=
  match values with
  | [] => None
  | [value] => if f_eqb value 0 then Some (0, 0) else Some (1, value)
  | v0 :: v1 :: _ =>
      let zero := if f_eqb v0 0 then [0] else [] in
      let near :=
        if negb (f_eqb v1 v0) then
          let approx := f_div v0 (f_sub v1 v0) in
          let base := int_of_f (f_round approx) in
          map (fun delta => i64 (base + delta)) [0; -1; 1; -2; 2; -3; 3]
        else [] in
      tryCandidates values v0 v1 [] (zero ++ near)
  end.
Definition encodeFloatConstStepPayload (values : list Z) : option bytes :=
  match detectFloatIndexScale values with
  | Some (start, scale) => Some (appendFloatConstStepIndexScale start scale)
  | None =>
      match detectFloatConstStep values with
      | Some (base, step) => Some (appendFloatConstStepAP base step)
      | None => None
      end
  end.

(** [float64(math.MinInt64)] and [float64(math.MaxInt64)]. *)
Definition floatMinInt64 : Z := f_of_int (- 2 ^ 63).
Definition floatMaxInt64 : Z := f_of_int (2 ^ 63 - 1).
Fixpoint floatSamplesAsIntSamples (values : list Z) : option (list Z) :=
  match values with
  | [] => Some []
  | value :: values' =>
      if f_is_nan value || f_is_inf value then None
      else if negb (f_eqb value (f_trunc value)) then None
      else if f_ltb value floatMinInt64 || f_ltb floatMaxInt64 value then None
      else rest ← floatSamplesAsIntSamples values'; Some (int_of_f value :: rest)
  end.

Inductive floatConstStepParams :=
  | paramsAP (base step : Z)
  | paramsIndexScale (start scale : Z).
Definition readFloatConstStepParams : reader floatConstStepParams := fun rest =>
  if len rest =? 16 then
    (base ← BlockReader.fixedInt64 "float const-step base";
     step ← BlockReader.fixedInt64 "float const-step step";
     mret (paramsAP (u64 base) (u64 step)) : reader _) rest
  else
    (kind ← BlockReader.byte "float const-step kind";
     if kind =? floatConstStepKindAP then
       (base ← BlockReader.fixedInt64 "float const-step base";
        step ← BlockReader.fixedInt64 "float const-step step";
        mret (paramsAP (u64 base) (u64 step)))
     else if kind =? floatConstStepKindIndexScale then
       (start ← BlockReader.fixedInt64 "float const-step start";
        scale ← BlockReader.fixedInt64 "float const-step scale";
        mret (paramsIndexScale start (u64 scale)))
     else rfail (Errorf "unknown float const-step kind") : reader _) rest.
Definition floatConstStepValue (params : floatConstStepParams) (index : nat) : Z :=
  match params with
  | paramsIndexScale start scale => indexScaleValue start scale index
  | paramsAP base step => apValue base step index
  end.
Definition readFloatConstStepValues (codecID count : Z) : reader (list FieldValue) :=
  if negb (codecID =? compressionConstStep) then rfail (Errorf "unknown float compression")
  else if count =? 0 then mret []
  else
    params ← readFloatConstStepParams;
    _ ← rmake 48 count;
    mret (map (fun index => Float64Value (floatConstStepValue params index)) (seq 0 (Z.to_nat count))).
Definition readFloatIntValues (codecID count : Z) : reader (list FieldValue) :=
  ints ← (if codecID =? compressionDelta then readDeltaInts codecID count
          else if codecID =? compressionRLE then readDeltaRLEInts codecID count
          else rfail (Errorf "unknown float-int compression"));
  mret (map (fun v => Float64Value (f_of_int v)) ints).

(** ** Plain columns *)
Definition appendFloatValues (values : list Z) : bytes := concat (map le_put_u64 values).
Definition appendIntValues (values : list Z) : bytes := concat (map appendVarint values).
Definition appendStringValues (values : list bytes) : bytes := concat (map AppendString values).
Definition appendBoolValues (values : list FieldValue) : outcome bytes :=
  bools ← mapM (fun v => if negb (fv_Type v =? FieldBool) then Err (Errorf "bool sample has value type")
                         else Ok (fv_Bool v)) values;
  Ok (AppendBoolBits bools).
Definition readFloatValues (count : Z) : reader (list FieldValue) :=
  _ ← rmake 48 count;
  values ← read_n (Z.to_nat count) BlockReader.float64; mret (map Float64Value values).
Definition readIntValues (count : Z) : reader (list FieldValue) :=
  _ ← rmake 48 count;
  values ← read_n (Z.to_nat count) (BlockReader.varint "int value"); mret (map Int64Value values).
Definition readBools (count : Z) : reader (list bool) := fun rest =>
  wrapErr "read bool values" (ReadBoolBits count rest).
Definition readBoolValues (count : Z) : reader (list FieldValue) :=
  bools ← readBools count;
  _ ← rmake 48 count;
  mret (map BoolValue bools).
Definition readStringValues (count : Z) : reader (list FieldValue) :=
  _ ← rmake 48 count;
  values ← read_n (Z.to_nat count) (BlockReader.string "string value"); mret (map StringValue values).
Definition readValues (fieldType count : Z) : reader (list FieldValue) :=
  if fieldType =? FieldFloat64 then readFloatValues count
  else if fieldType =? FieldInt64 then readIntValues count
  else if fieldType =? FieldBool then readBoolValues count
  else if fieldType =? FieldString then readStringValues count
  else rfail (Errorf "unsupported value block field type").

(** ** Choosing a codec *)
Definition encodeFloatValues (values : list Z) (policy : string) : Z * bytes :=
  if len values =? 0 then (compressionPlain, [])
  else
    let plain := appendFloatValues values in
    if bool_decide (compressionPolicy policy "xor" = "plain") then (compressionPlain, plain)
    else
      match encodeFloatConstStepPayload values with
      | Some payload => (compressionConstStep, payload)
      | None =>
          let best := (compressionPlain, plain) in
          let shorter (best : Z * bytes) (codec : Z) (payload : bytes) : Z * bytes :=
            if len payload <? len (best.2) then (codec, payload) else best in
          let best :=
            match floatSamplesAsIntSamples values with
            | Some ints => shorter (shorter best compressionDelta (appendDeltaIntValues ints))
                             compressionRLE (appendDeltaRLEIntValues ints)
            | None => best
            end in
          shorter best compressionXOR (appendGorillaFloatValues values)
      end.
Definition encodeIntValues (values : list Z) (policy : string) : Z * bytes :=
  let plain := appendIntValues values in
  if bool_decide (compressionPolicy policy "delta" = "plain") then (compressionPlain, plain)
  else
    let delta := appendDeltaIntValues values in
    let rle := appendDeltaRLEIntValues values in
    let best := if len rle <? len delta then (compressionRLE, rle) else (compressionDelta, delta) in
    if len (best.2) <? len plain then best else (compressionPlain, plain).
Definition encodeStringValues (values : list bytes) (policy : string) : Z * bytes :=
  let plain := appendStringValues values in
  if bool_decide (compressionPolicy policy "dictionary" = "plain") then (compressionPlain, plain)
  else
    let candidate := appendDictionaryStringValues values in
    if len candidate <? len plain then (compressionDictionary, candidate) else (compressionPlain, plain).

Record CompressionOptions := mkCompressionOptions {
  co_Enabled : bool;
  co_Timestamp : string;
  co_Float : string;
  co_Int : string;
  co_String : string;
  co_Algorithm : string;
  co_MinPageValues : Z;
  co_ValuePageSamples : Z;
  co_OmitWriteSeq : bool;
  co_ZstdLevel : string;
}.
Definition encodeTypedValues (fieldType : Z) (values : list FieldValue) (opts : CompressionOptions)
    : outcome (Z * bytes) :=
  if fieldType =? FieldFloat64 then Ok (encodeFloatValues (map fv_Float64 values) (co_Float opts))
  else if fieldType =? FieldInt64 then Ok (encodeIntValues (map fv_Int64 values) (co_Int opts))
  else if fieldType =? FieldBool then
    payload ← appendBoolValues values; Ok (compressionPlain, payload)
  else if fieldType =? FieldString then Ok (encodeStringValues (map fv_String values) (co_String opts))
  else Err (Errorf "unsupported value block field type").

Definition readCompressedFloatValues (codecID count : Z) : reader (list FieldValue) :=
  if codecID =? compressionXOR then readGorillaFloatValues codecID count
  else if codecID =? compressionConstStep then readFloatConstStepValues codecID count
  else if (codecID =? compressionDelta) || (codecID =? compressionRLE) then readFloatIntValues codecID count
  else rfail (Errorf "unknown float compression").
Definition readCompressedValues (fieldType codecID count : Z) : reader (list FieldValue) :=
  if codecID =? compressionPlain then readValues fieldType count
  else if fieldType =? FieldFloat64 then readCompressedFloatValues codecID count
  else if fieldType =? FieldInt64 then
    (if codecID =? compressionRLE then readDeltaRLEIntValues codecID count
     else readDeltaIntValues codecID count)
  else if fieldType =? FieldString then readDictionaryStringValues codecID count
  else rfail (Errorf "unsupported value compression").
