(* ===== verification/SstGorilla.v ===== *)
(** * Bit streams and the Gorilla float codec

    A bit writer stands for the list of bits it was given, a bit reader for a
    position in the bits of its data. *)
From S2P Require Import Prelude GoBinary Model Codec Readers SstTime SstTimeProofs Float64 SstValues.
From stdpp Require Import prelude strings list gmap.
From Stdlib Require Import ZArith Lia.
#[local] Open Scope Z_scope.

(** ** The low [n] bits of a word, most significant first *)
Fixpoint zbits (n : nat) (x : Z) : list bool :=
  match n with O => [] | S k => Z.testbit x (Z.of_nat k) :: zbits k x end.
Definition bits_of (bs : bytes) : list bool := concat (map (zbits 8) bs).
Definition b2z (b : bool) : Z := if b then 1 else 0.
Definition bits_val (acc : Z) (l : list bool) : Z := fold_left (fun v b => 2 * v + b2z b) l acc.

Lemma zbits_length n x : length (zbits n x) = n.
Proof. induction n as [|n IH]; simpl; [done|by rewrite IH]. Qed.
Lemma bits_of_length bs : length (bits_of bs) = (8 * length bs)%nat.
Proof.
  unfold bits_of. induction bs as [|b bs IH]; [done|]. cbn [map concat length].
  rewrite length_app, zbits_length. lia.
Qed.
Lemma bits_of_app a b : bits_of (a ++ b) = bits_of a ++ bits_of b.
Proof. unfold bits_of. by rewrite map_app, concat_app. Qed.
Lemma bits_of_one b : bits_of [b] = zbits 8 b.
Proof. unfold bits_of. cbn [map concat]. by rewrite app_nil_r. Qed.
Lemma drop_zbits k n x : (k <= n)%nat -> drop k (zbits n x) = zbits (n - k) x.
Proof.
  revert n. induction k as [|k IH]; intros n Hk; [by rewrite drop_0, Nat.sub_0_r|].
  destruct n; [lia|]. simpl. apply IH. lia.
Qed.
Lemma take_zbits k n x : (k <= n)%nat -> take k (zbits n x) = zbits k (Z.shiftr x (Z.of_nat (n - k))).
Proof.
  revert n. induction k as [|k IH]; intros n Hk; [done|]. destruct n as [|n]; [lia|].
  cbn [zbits take]. rewrite IH by lia. f_equal. rewrite Z.shiftr_spec by lia. f_equal. lia.
Qed.
Lemma testbit_b2z x k : 0 <= k -> b2z (Z.testbit x k) = Z.land (Z.shiftr x k) 1.
Proof.
  intros Hk. rewrite land_1, shiftr_div by done. rewrite <- Z.testbit_spec' by done. done.
Qed.
Lemma bits_val_app acc l k : bits_val acc (l ++ k) = bits_val (bits_val acc l) k.
Proof. apply fold_left_app. Qed.
Lemma bits_val_zbits n acc x : bits_val acc (zbits n x) = acc * 2 ^ Z.of_nat n + x mod 2 ^ Z.of_nat n.
Proof.
  revert acc. induction n as [|n IH]; intros acc; [change (2 ^ Z.of_nat 0) with 1; rewrite Z.mod_1_r; simpl; lia|].
  cbn [zbits]. unfold bits_val in *. cbn [fold_left]. rewrite IH, testbit_b2z, land_1, shiftr_div by lia.
  rewrite Nat2Z.inj_succ, Z.pow_succ_r by lia. rewrite (Z.mul_comm 2 (2 ^ Z.of_nat n)).
  rewrite (Z.rem_mul_r x) by lia. lia.
Qed.

(** ** The writer *)
Definition writer_ok (w : bitWriter) : Prop := 0 <= bw_nbits w < 8 /\ 0 <= bw_cur w < 2 ^ bw_nbits w.
Definition writer_bits (w : bitWriter) : list bool :=
  bits_of (bw_buf w) ++ zbits (Z.to_nat (bw_nbits w)) (bw_cur w).

Lemma writeBit_spec w b : writer_ok w -> 0 <= b < 2 ->
  writer_ok (writeBit w b) /\ writer_bits (writeBit w b) = writer_bits w ++ [Z.odd b].
Proof.
  intros [Hn Hc] Hb. unfold writeBit.
  assert (2 ^ bw_nbits w <= 128) as Hp by (change 128 with (2 ^ 7); apply Z.pow_le_mono_r; lia).
  assert (Z.lor (u8 (Z.shiftl (bw_cur w) 1)) (u8 (Z.land b 1)) = 2 * bw_cur w + b) as ->.
  { rewrite shiftl_mul, land_1 by lia. change (2 ^ 1) with 2.
    rewrite (Z.mod_small b 2) by lia. unfold u8. rewrite !Z.mod_small by lia.
    rewrite Z.lor_comm. change 2 with (2 ^ 1) at 1. rewrite (lor_add_low b (bw_cur w) 1) by lia. lia. }
  assert (zbits (S (Z.to_nat (bw_nbits w))) (2 * bw_cur w + b)
          = zbits (Z.to_nat (bw_nbits w)) (bw_cur w) ++ [Z.odd b]) as Hz.
  { assert (b = 0 \/ b = 1) as Hb' by lia. clear -Hb'.
    induction (Z.to_nat (bw_nbits w)) as [|n IH].
    - cbn [zbits app]. f_equal. change (Z.of_nat 0) with 0. rewrite Z.bit0_odd, Z.odd_add, Z.odd_mul. done.
    - change (zbits (S (S n)) (2 * bw_cur w + b))
        with (Z.testbit (2 * bw_cur w + b) (Z.of_nat (S n)) :: zbits (S n) (2 * bw_cur w + b)).
      rewrite IH. cbn [zbits app]. f_equal. rewrite Nat2Z.inj_succ.
      destruct Hb' as [-> | ->]; [rewrite Z.add_0_r, Z.testbit_even_succ by lia|rewrite Z.testbit_odd_succ by lia]; done. }
  zcase (bw_nbits w + 1 =? 8).
  - split; [split; simpl; lia|]. unfold writer_bits. cbn [bw_buf bw_nbits bw_cur]. change (zbits (Z.to_nat 0) 0) with (@nil bool).
    rewrite app_nil_r, bits_of_app, <- (assoc_L (++)).
    f_equal. rewrite bits_of_one.
    replace (Z.to_nat (bw_nbits w)) with 7%nat in * by lia. exact Hz.
  - split.
    + split; simpl; [lia|]. rewrite Z.pow_add_r by lia. change (2 ^ 1) with 2. lia.
    + unfold writer_bits. cbn [bw_buf bw_nbits bw_cur]. rewrite <- (assoc_L (++)). f_equal.
      replace (Z.to_nat (bw_nbits w + 1)) with (S (Z.to_nat (bw_nbits w))) by lia. exact Hz.
Qed.

Lemma odd_land_1 x : Z.odd (Z.land x 1) = Z.odd x.
Proof. rewrite land_1. rewrite Zmod_odd. by destruct (Z.odd x). Qed.
Lemma writeBits_spec w x n : writer_ok w ->
  writer_ok (writeBits w x n) /\ writer_bits (writeBits w x n) = writer_bits w ++ zbits n x.
Proof.
  revert w. induction n as [|n IH]; intros w Hw; simpl; [by rewrite app_nil_r|].
  assert (0 <= Z.land (Z.shiftr x (Z.of_nat n)) 1 < 2) as Hb by (rewrite land_1; apply Z.mod_pos_bound; lia).
  destruct (writeBit_spec w _ Hw Hb) as [Hw' Hbits].
  destruct (IH _ Hw') as [Hw'' ->]. split; [done|]. rewrite Hbits, <- (assoc_L (++)). simpl. f_equal. f_equal.
  by rewrite odd_land_1, <- Z.bit0_odd, Z.shiftr_spec, Z.add_0_l by lia.
Qed.

Lemma bw_bytes_spec w : writer_ok w ->
  (exists pad, bits_of (bw_bytes w) = writer_bits w ++ pad)
  /\ Z.of_nat (length (bw_bytes w)) = (Z.of_nat (length (writer_bits w)) + 7) / 8.
Proof.
  intros [Hn Hc]. unfold bw_bytes, writer_bits. zcase (bw_nbits w =? 0).
  - rewrite E. simpl. rewrite !app_nil_r. split; [exists []; by rewrite app_nil_r|].
    rewrite bits_of_length. Z.div_mod_to_equations. lia.
  - split.
    + exists (zbits (Z.to_nat (8 - bw_nbits w)) (u8 (Z.shiftl (bw_cur w) (8 - bw_nbits w)))).
      rewrite bits_of_app, <- (assoc_L (++)). f_equal. rewrite bits_of_one.
      rewrite <- (take_drop (Z.to_nat (bw_nbits w)) (zbits 8 _)).
      rewrite take_zbits, drop_zbits by lia.
      replace (8 - Z.to_nat (bw_nbits w))%nat with (Z.to_nat (8 - bw_nbits w)) by lia. f_equal.
      f_equal. rewrite shiftl_mul, shiftr_div, Z2Nat.id by lia. unfold u8.
      assert (2 ^ bw_nbits w * 2 ^ (8 - bw_nbits w) = 2 ^ 8) as Hpow by (rewrite <- Z.pow_add_r by lia; f_equal; lia).
      assert (0 < 2 ^ (8 - bw_nbits w)) by lia.
      rewrite Z.mod_small by nia. by rewrite Z.div_mul by lia.
    + rewrite !length_app, bits_of_length, zbits_length. simpl. Z.div_mod_to_equations. lia.
Qed.

(** ** The reader *)
Definition reader_at (r : bitReader) (data : bytes) (pos : nat) : Prop :=
  br_data r = data /\ 0 <= br_byte r /\ 0 <= br_bit r < 8 /\ bitsRead r = Z.of_nat pos.

Lemma bits_of_drop (data : bytes) k j x : data !! k = Some x -> (j <= 8)%nat ->
  drop (8 * k + j) (bits_of data) = drop j (zbits 8 x) ++ bits_of (drop (S k) data).
Proof.
  intros Hk Hj. rewrite <- (take_drop_middle _ _ _ Hk) at 1. rewrite bits_of_app.
  pose proof (lookup_lt_Some _ _ _ Hk) as Hlt.
  rewrite drop_app_ge by (rewrite bits_of_length, length_take; lia).
  rewrite bits_of_length, length_take.
  replace (8 * k + j - 8 * (k `min` length data))%nat with j by lia.
  change (bits_of (x :: drop (S k) data)) with (zbits 8 x ++ bits_of (drop (S k) data)).
  rewrite drop_app_le by (rewrite zbits_length; lia). done.
Qed.

(** The byte under the reader and what is left of it. *)
Lemma reader_byte r data pos : reader_at r data pos -> (pos < length (bits_of data))%nat ->
  exists x, (len (br_data r) <=? br_byte r) = false /\ idx (br_data r) (br_byte r) = Ok x
    /\ drop pos (bits_of data)
       = zbits (Z.to_nat (8 - br_bit r)) x ++ bits_of (drop (S (Z.to_nat (br_byte r))) data).
Proof.
  intros (Hd & Hb & Hbit & Hpos) Hlt. unfold bitsRead in Hpos. rewrite bits_of_length in Hlt.
  destruct (lookup_lt_is_Some_2 data (Z.to_nat (br_byte r)) ltac:(lia)) as [x Hx].
  exists x. rewrite Hd. split_and!.
  - apply Z.leb_gt. unfold len. lia.
  - unfold idx. rewrite bool_decide_true by done. by rewrite Hx.
  - replace pos with (8 * Z.to_nat (br_byte r) + Z.to_nat (br_bit r))%nat by lia.
    rewrite (bits_of_drop _ _ _ _ Hx), drop_zbits by lia.
    by replace (8 - Z.to_nat (br_bit r))%nat with (Z.to_nat (8 - br_bit r)) by lia.
Qed.
Lemma br_advance_at r data pos k : reader_at r data pos -> 0 <= k -> br_bit r + k <= 8 ->
  reader_at (br_advance r k) data (pos + Z.to_nat k).
Proof.
  intros (Hd & Hb & Hbit & Hpos) Hk Hle. unfold br_advance, bitsRead in *. unfold reader_at.
  zcase (br_bit r + k =? 8); unfold bitsRead; simpl; split_and!; (done || lia).
Qed.

Lemma readBit_spec r data pos b rest : reader_at r data pos -> drop pos (bits_of data) = b :: rest ->
  exists r', readBit r = Ok (b2z b, r') /\ reader_at r' data (pos + 1).
Proof.
  intros Hr Hd. assert (pos < length (bits_of data))%nat as Hlt.
  { apply (f_equal length) in Hd. rewrite length_drop in Hd. simpl in Hd. lia. }
  destruct (reader_byte r data pos Hr Hlt) as (x & Hle & Hidx & Hbits).
  pose proof Hr as (_ & _ & Hbit & _). unfold readBit. rewrite Hle, Hidx. simpl.
  exists (br_advance r 1). split; [|by apply (br_advance_at r data pos 1); [|lia|lia]].
  do 2 f_equal. rewrite Hd in Hbits.
  replace (Z.to_nat (8 - br_bit r)) with (S (Z.to_nat (7 - br_bit r))) in Hbits by lia.
  cbn [zbits app] in Hbits. injection Hbits as -> _. rewrite <- testbit_b2z by lia.
  by rewrite Z2Nat.id by lia.
Qed.

Lemma readBitsLoop_spec fuel r data pos value n : reader_at r data pos -> (n <= fuel)%nat ->
  (n <= length (drop pos (bits_of data)))%nat -> 0 <= value -> (value + 1) * 2 ^ Z.of_nat n <= 2 ^ 64 ->
  exists r', readBitsLoop fuel r value (Z.of_nat n) = Ok (bits_val value (take n (drop pos (bits_of data))), r')
    /\ reader_at r' data (pos + n).
Proof.
  revert r pos value n. induction fuel as [|fuel IH]; intros r pos value n Hr Hf Hn Hv Hb.
  { assert (n = 0)%nat as -> by lia. exists r. simpl. by rewrite Nat.add_0_r. }
  cbn [readBitsLoop]. zcase (Z.of_nat n <=? 0).
  { assert (n = 0)%nat as -> by lia. exists r. by rewrite Nat.add_0_r. }
  rewrite length_drop in Hn. destruct (reader_byte r data pos Hr ltac:(lia)) as (x & Hle & Hidx & Hbits).
  rewrite Hle, Hidx. pose proof Hr as (_ & _ & Hbit & _). unfold mbind, outcome_bind.
  set (t := if 8 - br_bit r <? Z.of_nat n then 8 - br_bit r else Z.of_nat n).
  assert (0 < t <= 8 - br_bit r /\ t <= Z.of_nat n) as [Ht Htn] by (unfold t; case_match; lia).
  assert (t <= 8) as Ht8 by lia.
  assert (0 < 2 ^ t <= 2 ^ 8) as Hpt by (split; [lia|apply Z.pow_le_mono_r; lia]).
  assert (2 ^ t * 2 ^ (Z.of_nat n - t) = 2 ^ Z.of_nat n) as Hpow by (rewrite <- Z.pow_add_r by lia; f_equal; lia).
  assert (0 < 2 ^ (Z.of_nat n - t)) as Hp2 by lia.
  set (m := Z.to_nat t). assert (Z.of_nat m = t) as Hm by (unfold m; lia).
  assert (take m (drop pos (bits_of data)) = zbits m (Z.shiftr x (8 - br_bit r - t))) as Htake.
  { rewrite Hbits, take_app_le by (rewrite zbits_length; lia). rewrite take_zbits by lia.
    do 2 f_equal. lia. }
  assert (Z.lor (u64 (Z.shiftl value t)) (Z.land (Z.shiftr x (8 - br_bit r - t)) (u8 (Z.shiftl 1 t - 1)))
          = bits_val value (take m (drop pos (bits_of data)))) as Hval.
  { rewrite Htake, bits_val_zbits, Hm. rewrite !shiftl_mul, Z.mul_1_l by lia.
    rewrite u64_id by (unfold is_u64; nia). unfold u8.
    assert ((2 ^ t - 1) mod 2 ^ 8 = Z.ones t) as -> by (rewrite Z.ones_equiv, Z.mod_small; lia).
    rewrite land_ones_mod by lia. rewrite Z.lor_comm, lor_add_low by (lia || apply Z.mod_pos_bound; lia). lia. }
  rewrite Hval. replace (Z.of_nat n - t) with (Z.of_nat (n - m)) by lia.
  assert (bits_val value (take m (drop pos (bits_of data))) < (value + 1) * 2 ^ t
          /\ 0 <= bits_val value (take m (drop pos (bits_of data)))) as [Hlt Hge].
  { rewrite Htake, bits_val_zbits, Hm.
    pose proof (Z.mod_pos_bound (Z.shiftr x (8 - br_bit r - t)) (2 ^ t)). nia. }
  destruct (IH (br_advance r t) (pos + m)%nat (bits_val value (take m (drop pos (bits_of data)))) (n - m)%nat)
    as (r' & Hr' & Hat).
  - apply br_advance_at; [done|lia|lia].
  - lia.
  - rewrite length_drop. lia.
  - done.
  - replace (Z.of_nat (n - m)) with (Z.of_nat n - t) by lia. nia.
  - exists r'. rewrite Hr'. split; [|by replace (pos + n)%nat with (pos + m + (n - m))%nat by lia].
    do 2 f_equal. rewrite <- bits_val_app. f_equal.
    rewrite <- drop_drop. replace n with (m + (n - m))%nat at 2 by lia. by rewrite take_take_drop.
Qed.

Lemma readBits_spec r data pos n : reader_at r data pos -> (n <= 64)%nat ->
  (n <= length (drop pos (bits_of data)))%nat ->
  exists r', readBits r (Z.of_nat n) = Ok (bits_val 0 (take n (drop pos (bits_of data))), r')
    /\ reader_at r' data (pos + n).
Proof.
  intros Hr Hn Hl. unfold readBits. zcase (Z.of_nat n <=? 0).
  { assert (n = 0)%nat as -> by lia. exists r. simpl. by rewrite Nat.add_0_r. }
  rewrite (proj2 (Z.ltb_ge 64 _)), Nat2Z.id by lia.
  apply readBitsLoop_spec; [done|lia|done|lia|].
  assert (2 ^ Z.of_nat n <= 2 ^ 64) by (apply Z.pow_le_mono_r; lia). lia.
Qed.

(** Reading back [n] bits that were written at the position of the reader. *)
Lemma readBits_zbits r data pos n x rest : reader_at r data pos -> (n <= 64)%nat ->
  0 <= x < 2 ^ Z.of_nat n -> drop pos (bits_of data) = zbits n x ++ rest ->
  exists r', readBits r (Z.of_nat n) = Ok (x, r') /\ reader_at r' data (pos + n)
    /\ drop (pos + n) (bits_of data) = rest.
Proof.
  intros Hr Hn Hx Hd. destruct (readBits_spec r data pos n Hr Hn) as (r' & Hr' & Hat).
  { rewrite Hd, length_app, zbits_length. lia. }
  exists r'. rewrite Hr'. split_and!; [|done|].
  - rewrite Hd, take_app_length' by (by rewrite zbits_length). rewrite bits_val_zbits, Z.mod_small by done. done.
  - rewrite <- drop_drop, Hd. apply drop_app_length'. by rewrite zbits_length.
Qed.
Lemma readBit_back r data pos b rest : reader_at r data pos -> drop pos (bits_of data) = b :: rest ->
  exists r', readBit r = Ok (b2z b, r') /\ reader_at r' data (pos + 1) /\ drop (pos + 1) (bits_of data) = rest.
Proof.
  intros Hr Hd. destruct (readBit_spec r data pos b rest Hr Hd) as (r' & Hr' & Hat).
  exists r'. split_and!; [done|done|]. by rewrite <- drop_drop, Hd.
Qed.

(** ** Leading and trailing zeros *)
Lemma LeadingZeros64_lt x : 0 < x < 2 ^ 64 -> 0 <= LeadingZeros64 x < 64 /\ x < 2 ^ (64 - LeadingZeros64 x).
Proof.
  intros Hx. unfold LeadingZeros64. rewrite (proj2 (Z.eqb_neq x 0)) by lia.
  pose proof (Z.log2_spec x ltac:(lia)) as [Hlo Hhi]. pose proof (Z.log2_nonneg x).
  assert (Z.log2 x < 64) by (apply Z.log2_lt_pow2; lia). split; [lia|].
  by replace (64 - (63 - Z.log2 x)) with (Z.succ (Z.log2 x)) by lia.
Qed.
Lemma trailing_zeros_pos_spec p : 0 <= trailing_zeros_pos p /\ exists q, Zpos p = q * 2 ^ trailing_zeros_pos p.
Proof.
  induction p as [p IH|p [IH [q Hq]]|]; simpl.
  - split; [lia|]. exists (Zpos p~1). change (2 ^ 0) with 1. lia.
  - split; [lia|]. exists q. rewrite Z.pow_add_r by lia. change (2 ^ 1) with 2. lia.
  - split; [lia|]. exists 1. done.
Qed.
Lemma TrailingZeros64_spec x : 0 < x -> 0 <= TrailingZeros64 x /\ exists q, 0 < q /\ x = q * 2 ^ TrailingZeros64 x.
Proof.
  intros Hx. destruct x as [|p|p]; [lia| |lia]. unfold TrailingZeros64. simpl.
  destruct (trailing_zeros_pos_spec p) as [Ht [q Hq]]. split; [done|]. exists q. split; [|done].
  assert (0 < 2 ^ trailing_zeros_pos p) by lia. nia.
Qed.

(** ** One XOR block *)
Definition window_ok (leading trailing : Z) : Prop :=
  leading = -1 \/ (0 <= leading <= 31 /\ 0 <= trailing /\ leading + trailing < 64).

(** [code] makes the reader produce [v] from the state it is read in. *)
Definition block_reads (code : list bool) (prev pl pt : Z) (v : Z * (Z * Z)) : Prop :=
  forall r data pos rest, reader_at r data pos -> drop pos (bits_of data) = code ++ rest ->
  exists r', readGorillaNext r prev pl pt = Ok (v, r') /\ reader_at r' data (pos + length code)
    /\ drop (pos + length code) (bits_of data) = rest.

Lemma shift_back x t k : 0 <= t -> 0 <= k -> (exists q, x = q * 2 ^ t) -> 0 <= x < 2 ^ (t + k) -> t + k <= 64 ->
  0 <= Z.shiftr x t < 2 ^ k /\ u64 (Z.shiftl (Z.shiftr x t) t) = x.
Proof.
  intros Ht Hk [q ->] Hx H64. rewrite shiftr_div, Z.div_mul, shiftl_mul by lia.
  rewrite Z.pow_add_r in Hx by lia. assert (0 < 2 ^ t) by lia. split; [nia|].
  apply u64_id. unfold is_u64. assert (2 ^ t * 2 ^ k <= 2 ^ 64) by (rewrite <- Z.pow_add_r by lia; apply Z.pow_le_mono_r; lia).
  nia.
Qed.

Lemma block_zero prev pl pt : block_reads [false] prev pl pt (prev, (pl, pt)).
Proof.
  intros r data pos rest Hr Hd. destruct (readBit_back r data pos false rest Hr Hd) as (r1 & H1 & Hr1 & Hd1).
  exists r1. unfold readGorillaNext. rewrite H1. by split_and!.
Qed.
Lemma block_reuse prev pl pt x : 0 <= pl <= 31 -> 0 <= pt -> pl + pt < 64 ->
  0 <= Z.shiftr x pt < 2 ^ (64 - pl - pt) -> u64 (Z.shiftl (Z.shiftr x pt) pt) = x ->
  block_reads ([true; false] ++ zbits (Z.to_nat (64 - pl - pt)) (Z.shiftr x pt)) prev pl pt
    (Z.lxor prev x, (pl, pt)).
Proof.
  intros Hpl Hpt Hsum Hx Hback r data pos rest Hr Hd. rewrite <- (assoc_L (++)) in Hd.
  destruct (readBit_back r data pos true _ Hr Hd) as (r1 & H1 & Hr1 & Hd1).
  destruct (readBit_back r1 data _ false _ Hr1 Hd1) as (r2 & H2 & Hr2 & Hd2).
  destruct (readBits_zbits r2 data _ (Z.to_nat (64 - pl - pt)) (Z.shiftr x pt) rest Hr2) as (r3 & H3 & Hr3 & Hd3);
    [lia|by rewrite Z2Nat.id by lia|exact Hd2|].
  rewrite Z2Nat.id in H3 by lia.
  exists r3. rewrite length_app, zbits_length. cbn [length].
  replace (pos + (2 + Z.to_nat (64 - pl - pt)))%nat with (pos + 1 + 1 + Z.to_nat (64 - pl - pt))%nat by lia.
  split_and!; [|done|done]. unfold readGorillaNext. rewrite H1. simpl. rewrite H2. simpl.
  rewrite (proj2 (Z.ltb_ge pl 0)) by lia. rewrite H3. simpl. by rewrite Hback.
Qed.
Lemma block_new prev pl pt l t x : 0 <= l <= 31 -> 0 <= t -> l + t < 64 ->
  0 <= Z.shiftr x t < 2 ^ (64 - l - t) -> u64 (Z.shiftl (Z.shiftr x t) t) = x ->
  block_reads ([true; true] ++ zbits 5 l ++ zbits 6 (64 - l - t - 1)
      ++ zbits (Z.to_nat (64 - l - t)) (Z.shiftr x t)) prev pl pt (Z.lxor prev x, (l, t)).
Proof.
  intros Hl Ht Hsum Hx Hback r data pos rest Hr Hd. rewrite <- !(assoc_L (++)) in Hd.
  destruct (readBit_back r data pos true _ Hr Hd) as (r1 & H1 & Hr1 & Hd1).
  destruct (readBit_back r1 data _ true _ Hr1 Hd1) as (r2 & H2 & Hr2 & Hd2).
  destruct (readBits_zbits r2 data _ 5 l _ Hr2 ltac:(lia) ltac:(lia) Hd2) as (r3 & H3 & Hr3 & Hd3).
  destruct (readBits_zbits r3 data _ 6 (64 - l - t - 1) _ Hr3 ltac:(lia) ltac:(lia) Hd3) as (r4 & H4 & Hr4 & Hd4).
  destruct (readBits_zbits r4 data _ (Z.to_nat (64 - l - t)) (Z.shiftr x t) rest Hr4) as (r5 & H5 & Hr5 & Hd5);
    [lia|by rewrite Z2Nat.id by lia|exact Hd4|].
  rewrite Z2Nat.id in H5 by lia.
  exists r5. rewrite !length_app, !zbits_length. cbn [length].
  replace (pos + (2 + (5 + (6 + Z.to_nat (64 - l - t)))))%nat
    with (pos + 1 + 1 + 5 + 6 + Z.to_nat (64 - l - t))%nat by lia.
  split_and!; [|done|done]. unfold readGorillaNext. rewrite H1. simpl. rewrite H2. simpl.
  change 5 with (Z.of_nat 5). rewrite H3. simpl. change 6 with (Z.of_nat 6). rewrite H4. simpl.
  replace (64 - l - (64 - l - t - 1 + 1)) with t by lia. rewrite (proj2 (Z.ltb_ge t 0)) by lia.
  replace (64 - l - t - 1 + 1) with (64 - l - t) by lia. rewrite H5. simpl. by rewrite Hback.
Qed.

Lemma writeGorillaXOR_spec w x pl pt : writer_ok w -> 0 <= x < 2 ^ 64 -> window_ok pl pt ->
  let '(w', (pl', pt')) := writeGorillaXOR w x pl pt in
  writer_ok w' /\ window_ok pl' pt'
  /\ exists code, writer_bits w' = writer_bits w ++ code
       /\ forall prev, block_reads code prev pl pt (Z.lxor prev x, (pl', pt')).
Proof.
  intros Hw Hx Hwin. unfold writeGorillaXOR. zcase (x =? 0).
  { destruct (writeBit_spec w 0 Hw ltac:(lia)) as [Hw1 Hb1]. split_and!; [done|done|].
    exists [false]. split; [done|]. intros prev. rewrite E, Z.lxor_0_r. apply block_zero. }
  destruct (writeBit_spec w 1 Hw ltac:(lia)) as [Hw1 Hb1].
  destruct (LeadingZeros64_lt x ltac:(lia)) as [Hlz Hxl].
  destruct (TrailingZeros64_spec x ltac:(lia)) as (Htz & q & Hq & Hxq).
  set (l := if 31 <? LeadingZeros64 x then 31 else LeadingZeros64 x). set (t := TrailingZeros64 x) in *.
  assert (0 <= l <= 31 /\ l <= LeadingZeros64 x) as [Hl Hll] by (unfold l; case_match; lia).
  assert (x < 2 ^ (64 - l)) as Hxl' by (eapply Z.lt_le_trans; [exact Hxl|]; apply Z.pow_le_mono_r; lia).
  assert (l + t < 64) as Hsum.
  { assert (2 ^ t <= x) by nia. assert (t < 64 - l) by (apply (Z.pow_lt_mono_r_iff 2); lia). lia. }
  destruct ((0 <=? pl) && (pl <=? l) && (pt <=? t)) eqn:Hre.
  - apply andb_prop in Hre as [Hre Hre3%Z.leb_le]. apply andb_prop in Hre as [Hre1%Z.leb_le Hre2%Z.leb_le].
    destruct Hwin as [->|(Hpl & Hpt & Hps)]; [lia|].
    destruct (writeBit_spec _ 0 Hw1 ltac:(lia)) as [Hw2 Hb2].
    destruct (writeBits_spec _ (Z.shiftr x pt) (Z.to_nat (64 - pl - pt)) Hw2) as [Hw3 Hb3].
    split_and!; [done|by right|]. exists ([true; false] ++ zbits (Z.to_nat (64 - pl - pt)) (Z.shiftr x pt)).
    split; [by rewrite Hb3, Hb2, Hb1, <- !(assoc_L (++))|]. intros prev.
    destruct (shift_back x pt (64 - pl - pt)) as [Hsh Hback]; [lia|lia| | |lia|by apply block_reuse].
    + exists (q * 2 ^ (t - pt)). rewrite Hxq at 1. rewrite <- Z.mul_assoc, <- Z.pow_add_r by lia. do 2 f_equal. lia.
    + split; [lia|]. replace (pt + (64 - pl - pt)) with (64 - pl) by lia.
      eapply Z.lt_le_trans; [exact Hxl'|]. apply Z.pow_le_mono_r; lia.
  - destruct (writeBit_spec _ 1 Hw1 ltac:(lia)) as [Hw2 Hb2].
    destruct (writeBits_spec _ l 5 Hw2) as [Hw3 Hb3].
    destruct (writeBits_spec _ (64 - l - t - 1) 6 Hw3) as [Hw4 Hb4].
    destruct (writeBits_spec _ (Z.shiftr x t) (Z.to_nat (64 - l - t)) Hw4) as [Hw5 Hb5].
    split_and!; [done|by right|].
    exists ([true; true] ++ zbits 5 l ++ zbits 6 (64 - l - t - 1) ++ zbits (Z.to_nat (64 - l - t)) (Z.shiftr x t)).
    split; [by rewrite Hb5, Hb4, Hb3, Hb2, Hb1, <- !(assoc_L (++))|]. intros prev.
    destruct (shift_back x t (64 - l - t)) as [Hsh Hback]; [lia|lia|by exists q| |lia|by apply block_new].
    split; [lia|]. by replace (t + (64 - l - t)) with (64 - l) by lia.
Qed.

(** ** The stream *)
Lemma lxor_twice a b : Z.lxor a (Z.lxor b a) = b.
Proof. by rewrite (Z.lxor_comm b a), <- Z.lxor_assoc, Z.lxor_nilpotent, Z.lxor_0_l. Qed.

Lemma gorillaLoop_spec values w prev pl pt : writer_ok w -> window_ok pl pt -> is_u64 prev ->
  Forall is_u64 values ->
  let w' := gorillaLoop w prev pl pt values in
  writer_ok w' /\ exists code, writer_bits w' = writer_bits w ++ code
    /\ forall r data pos rest, reader_at r data pos -> drop pos (bits_of data) = code ++ rest ->
       exists r', readGorillaLoop (length values) r prev pl pt = Ok (values, r')
         /\ reader_at r' data (pos + length code).
Proof.
  intros Hw Hwin Hprev Hvs. revert w prev pl pt Hw Hwin Hprev.
  induction Hvs as [|v values Hv Hvs IH]; intros w prev pl pt Hw Hwin Hprev.
  { split; [done|]. exists []. rewrite app_nil_r. split; [done|]. intros r data pos rest Hr _.
    exists r. by rewrite Nat.add_0_r. }
  cbn [gorillaLoop].
  pose proof (writeGorillaXOR_spec w (Z.lxor v prev) pl pt Hw (lxor_range v prev 64 ltac:(lia) Hv Hprev) Hwin) as Hx.
  destruct (writeGorillaXOR w (Z.lxor v prev) pl pt) as [w1 [pl1 pt1]].
  destruct Hx as (Hw1 & Hwin1 & code1 & Hb1 & Hread1).
  destruct (IH w1 v pl1 pt1 Hw1 Hwin1 Hv) as (Hw2 & code2 & Hb2 & Hread2).
  split; [done|]. exists (code1 ++ code2). rewrite Hb2, Hb1. split; [by rewrite (assoc_L (++))|].
  intros r data pos rest Hr Hd. rewrite <- (assoc_L (++)) in Hd.
  destruct (Hread1 prev r data pos _ Hr Hd) as (r1 & H1 & Hr1 & Hd1). rewrite lxor_twice in H1.
  destruct (Hread2 r1 data _ rest Hr1 Hd1) as (r2 & H2 & Hr2).
  exists r2. cbn [length readGorillaLoop]. rewrite H1. simpl. rewrite H2. split; [done|].
  by rewrite length_app, Nat.add_assoc.
Qed.

(** Bytes already in the buffer stay in front. *)
Definition w_prefix (p : bytes) (w : bitWriter) : bitWriter := mkBitWriter (p ++ bw_buf w) (bw_cur w) (bw_nbits w).
Lemma writeBit_prefix p w b : writeBit (w_prefix p w) b = w_prefix p (writeBit w b).
Proof. unfold writeBit, w_prefix. simpl. case_match; [|done]. simpl. by rewrite <- (assoc_L (++)). Qed.
Lemma writeBits_prefix p w x n : writeBits (w_prefix p w) x n = w_prefix p (writeBits w x n).
Proof. revert w. induction n as [|n IH]; intros w; simpl; [done|]. by rewrite writeBit_prefix, IH. Qed.
Lemma writeGorillaXOR_prefix p w x pl pt : writeGorillaXOR (w_prefix p w) x pl pt
  = (w_prefix p (writeGorillaXOR w x pl pt).1, (writeGorillaXOR w x pl pt).2).
Proof.
  unfold writeGorillaXOR. case_match; [by rewrite writeBit_prefix|].
  case_match; by rewrite !writeBit_prefix, !writeBits_prefix.
Qed.
Lemma gorillaLoop_prefix p values w prev pl pt :
  gorillaLoop (w_prefix p w) prev pl pt values = w_prefix p (gorillaLoop w prev pl pt values).
Proof.
  revert w prev pl pt. induction values as [|v values IH]; intros w prev pl pt; [done|].
  cbn [gorillaLoop]. rewrite writeGorillaXOR_prefix.
  destruct (writeGorillaXOR w (Z.lxor v prev) pl pt) as [w1 [pl1 pt1]]. apply IH.
Qed.
Lemma bw_bytes_prefix p w : bw_bytes (w_prefix p w) = p ++ bw_bytes w.
Proof. unfold bw_bytes, w_prefix. simpl. case_match; [done|by rewrite <- (assoc_L (++))]. Qed.

Lemma readGorillaStream_append prev values : is_u64 prev -> Forall is_u64 values ->
  reads_back (readGorillaStream (len values + 1) prev)
    (bw_bytes (gorillaLoop (newBitWriter []) prev (-1) 0 values)) (map Float64Value (prev :: values)).
Proof.
  intros Hp Hvs rest. unfold readGorillaStream.
  assert (writer_ok (newBitWriter [])) as Hw0 by (split; simpl; lia).
  destruct (gorillaLoop_spec values (newBitWriter []) prev (-1) 0 Hw0 ltac:(by left) Hp Hvs)
    as (Hw & code & Hb & Hread).
  destruct (bw_bytes_spec _ Hw) as [[pad Hpad] Hlen]. rewrite Hb in Hlen, Hpad.
  change (writer_bits (newBitWriter [])) with (@nil bool) in *. rewrite app_nil_l in *.
  set (S := bw_bytes _) in *.
  destruct (Hread (newBitReader (S ++ rest)) (S ++ rest) 0%nat (pad ++ bits_of rest)) as (r & Hr & Hat).
  { split_and!; try done; simpl; lia. }
  { by rewrite drop_0, bits_of_app, Hpad, <- (assoc_L (++)). }
  replace (Z.to_nat (len values + 1 - 1)) with (length values) by (unfold len; lia).
  rewrite Hr. simpl. unfold consumeAligned. destruct Hat as (Hd & _ & _ & Hpos).
  rewrite Hd, Hpos. rewrite Nat.add_0_l, Z.quot_div_nonneg by lia. rewrite <- Hlen.
  assert ((len (S ++ rest) <? Z.of_nat (length S)) = false) as -> by zb.
  rewrite Nat2Z.id, drop_app_length. done.
Qed.

Lemma readGorillaFloatValues_append values : Forall is_u64 values -> fits (len values) ->
  reads_back (readGorillaFloatValues compressionXOR (len values)) (appendGorillaFloatValues values)
    (map Float64Value values).
Proof.
  intros Hvs Hf. unfold readGorillaFloatValues. change (negb (compressionXOR =? compressionXOR)) with false.
  cbv beta iota. apply reads_back_make; [alloc_lia|alloc_lia|].
  destruct Hvs as [|first values Hfirst Hvs]; [apply reads_back_ret|].
  rewrite (proj2 (Z.eqb_neq (len (first :: values)) 0)) by (unfold len; simpl length; lia).
  assert (reads_back (BlockReader.fixedInt64 "first float bits") (le_put_u64 first) (i64 first)) as Hfix.
  { rewrite <- (u64_id first) at 1 by done. rewrite <- (u64_i64 first). apply fixedInt64_put, i64_range. }
  destruct values as [|v values].
  { eapply reads_back_bind_nil; [exact Hfix|]. rewrite u64_i64, u64_id by done. apply reads_back_ret. }
  cbn [appendGorillaFloatValues]. replace (newBitWriter (le_put_u64 first)) with (w_prefix (le_put_u64 first) (newBitWriter []))
    by (unfold w_prefix, newBitWriter; simpl; by rewrite app_nil_r).
  rewrite gorillaLoop_prefix, bw_bytes_prefix.
  eapply reads_back_bind; [exact Hfix|]. rewrite u64_i64, u64_id by done.
  rewrite (proj2 (Z.eqb_neq (len (first :: v :: values)) 1)) by (unfold len; simpl length; lia).
  replace (len (first :: v :: values)) with (len (v :: values) + 1) by (unfold len; simpl length; lia).
  by apply readGorillaStream_append.
Qed.

(** C28: the bit-packed XOR codec returns every float64 bit pattern unchanged, NaN
    payloads and signed zeros included, and leaves the bytes behind it. *)
Theorem gorilla_roundtrip values : Forall is_u64 values -> fits (len values) ->
  reads_back (readGorillaFloatValues compressionXOR (len values)) (appendGorillaFloatValues values)
    (map Float64Value values).
Proof. apply readGorillaFloatValues_append. Qed.
(** 1.5, 1.5, -0.0, a NaN with payload, the smallest subnormal. *)
Definition exampleFloats : list Z :=
  [0x3ff8000000000000; 0x3ff8000000000000; 0x8000000000000000; 0x7ff8000000000123; 1].
Lemma gorilla_roundtrip_witness :
  readGorillaFloatValues compressionXOR 5 (appendGorillaFloatValues exampleFloats ++ [7])
  = Ok (map Float64Value exampleFloats, [7]).
Proof. apply (gorilla_roundtrip exampleFloats); by_decide. Defined.
