(* ===== verification/SstValuesProofs.v ===== *)
(** * Round trips of the SSTable value codecs *)
From S2P Require Import Prelude GoBinary Model Codec Readers SstTime SstTimeProofs Float64 SstValues SstGorilla.
From stdpp Require Import prelude strings list gmap.
From Stdlib Require Import ZArith Lia SpecFloat.
#[local] Open Scope Z_scope.

(** ** Integers *)
Lemma read_intDeltas values prev : Forall is_i64 values ->
  reads_back (read_fold (length values) (fun prev =>
      delta ← BlockReader.uvarint "int delta";
      let v := i64 (prev + unzigZag64 delta) in mret (v, v)) prev) (intDeltas prev values) values.
Proof.
  intros Hvs. revert prev. induction Hvs as [|v values Hv Hvs IH]; intros prev; [apply reads_back_ret|].
  cbn [length read_fold intDeltas]. eapply reads_back_bind.
  - eapply reads_back_bind_nil; [apply rd_uvarint_append, zigZag64_range, i64_range|]. cbv zeta.
    rewrite unzigZag64_zigZag64, i64_add_sub by (done || apply i64_range). apply reads_back_ret.
  - simpl. eapply reads_back_bind_nil; [apply IH|apply reads_back_ret].
Qed.
Lemma readDeltaInts_append values : Forall is_i64 values -> fits (len values) ->
  reads_back (readDeltaInts compressionDelta (len values)) (appendDeltaIntValues values) values.
Proof.
  intros Hvs Hf. unfold readDeltaInts. change (negb (compressionDelta =? compressionDelta)) with false.
  cbv beta iota. apply reads_back_make; [alloc_lia|alloc_lia|].
  destruct Hvs as [|v values Hv Hvs]; [apply reads_back_ret|].
  rewrite (proj2 (Z.eqb_neq (len (v :: values)) 0)) by (unfold len; simpl length; lia).
  eapply reads_back_bind; [by apply rd_varint_append|].
  replace (Z.to_nat (len (v :: values) - 1)) with (length values) by (unfold len; simpl length; lia).
  eapply reads_back_bind_nil; [by apply read_intDeltas|apply reads_back_ret].
Qed.
Lemma readDeltaRLEInts_append values : Forall is_i64 values -> fits (len values) ->
  reads_back (readDeltaRLEInts compressionRLE (len values)) (appendDeltaRLEIntValues values) values.
Proof.
  intros Hvs Hf. unfold readDeltaRLEInts. change (negb (compressionRLE =? compressionRLE)) with false.
  cbv beta iota. apply reads_back_make; [alloc_lia|alloc_lia|].
  destruct Hvs as [|v values Hv Hvs]; [apply reads_back_ret|].
  rewrite (proj2 (Z.eqb_neq (len (v :: values)) 0)) by (unfold len; simpl length; lia).
  eapply reads_back_bind; [by apply rd_varint_append|].
  replace (len (v :: values) - 1) with (len values) by (unfold len; simpl length; lia).
  eapply reads_back_bind_nil; [|apply reads_back_ret]. apply reads_back_sized. intros fuel Hfuel.
  apply (readRuns_rleTail i64 is_i64); [apply i64_add_sub|done|lia|done|unfold len in *; simpl length in *; alloc_lia].
Qed.
(** Either integer codec, by its identifier. *)
Lemma int_codec_reads values rle codecID : Forall is_i64 values -> fits (len values) ->
  codecID = (if rle : bool then compressionRLE else compressionDelta) ->
  reads_back (if codecID =? compressionRLE then readDeltaRLEIntValues codecID (len values)
              else readDeltaIntValues codecID (len values))
    (if rle then appendDeltaRLEIntValues values else appendDeltaIntValues values) (map Int64Value values).
Proof.
  intros Hvs Hf ->. destruct rle.
  - eapply reads_back_bind_nil; [by apply readDeltaRLEInts_append|apply reads_back_ret].
  - eapply reads_back_bind_nil; [by apply readDeltaInts_append|apply reads_back_ret].
Qed.

(** ** Strings *)
Record dict_inv (st : dictState) (values : list bytes) : Prop := mkDictInv {
  di_ids : forall v id, ds_ids st !! v = Some id -> 0 <= id /\ ds_dict st !! Z.to_nat id = Some v;
  di_ordinals : Forall2 (fun v id => 0 <= id /\ ds_dict st !! Z.to_nat id = Some v) values (ds_ordinals st);
  di_elem : forall v, v ∈ ds_dict st -> v ∈ values;
  di_nodup : len (ds_dict st) <= len values;
}.
Lemma dictStep_inv st values v : dict_inv st values -> dict_inv (dictStep st v) (values ++ [v]).
Proof.
  intros [Hids Hord Helem Hlen]. unfold dictStep. destruct (ds_ids st !! v) as [id|] eqn:Hv.
  - constructor; simpl; [done| | |].
    + apply Forall2_app; [done|]. constructor; [by apply Hids|constructor].
    + intros w Hw. apply elem_of_app. left. by apply Helem.
    + unfold len in *. rewrite length_app. lia.
  - assert (forall w id, 0 <= id /\ ds_dict st !! Z.to_nat id = Some w ->
      0 <= id /\ (ds_dict st ++ [v]) !! Z.to_nat id = Some w) as Hext.
    { intros w id [H1 H2]. split; [done|]. by apply lookup_app_l_Some. }
    assert (0 <= len (ds_dict st) /\ (ds_dict st ++ [v]) !! Z.to_nat (len (ds_dict st)) = Some v) as Hnew.
    { unfold len. split; [lia|]. rewrite Nat2Z.id. apply list_lookup_middle. done. }
    constructor; simpl.
    + intros w id Hw. destruct (decide (w = v)) as [->|].
      * rewrite lookup_insert_eq in Hw. injection Hw as <-. exact Hnew.
      * rewrite lookup_insert_ne in Hw by done. by apply Hext, Hids.
    + apply Forall2_app; [|by constructor]. eapply Forall2_impl; [exact Hord|]. intros; by apply Hext.
    + intros w Hw. apply elem_of_app in Hw as [Hw|Hw]; apply elem_of_app; [left; by apply Helem|by right].
    + unfold len in *. rewrite !length_app. simpl. lia.
Qed.
Lemma dict_fold_inv values : dict_inv (fold_left dictStep values (mkDictState ∅ [] [])) values.
Proof.
  assert (forall values done st, dict_inv st done -> dict_inv (fold_left dictStep values st) (done ++ values)) as H.
  { clear. induction values as [|v values IH]; intros vs st Hst; simpl; [by rewrite app_nil_r|].
    replace (vs ++ v :: values) with ((vs ++ [v]) ++ values) by (by rewrite <- (assoc_L (++))).
    apply IH. by apply dictStep_inv. }
  apply (H values []). constructor; simpl; [intros v id Hv; by rewrite lookup_empty in Hv|constructor| |done].
  intros v Hv. by apply elem_of_nil in Hv.
Qed.

Lemma mapM_dictValue dict ordinals values :
  Forall2 (fun v id => 0 <= id /\ dict !! Z.to_nat id = Some v) values ordinals ->
  mapM (dictValue dict) ordinals = Ok (map StringValue values).
Proof.
  induction 1 as [|v id values ordinals [Hid Hv] HF IH]; [done|].
  assert (dictValue dict id = Ok (StringValue v)) as Hd.
  { pose proof (lookup_lt_Some _ _ _ Hv) as Hlt. unfold dictValue.
    rewrite (proj2 (Z.ltb_ge id 0)), (proj2 (Z.leb_gt (len dict) id)) by (unfold len; lia).
    simpl. unfold idx. rewrite bool_decide_true by done. by rewrite Hv. }
  cbn [mapM]. rewrite Hd. simpl. by rewrite IH.
Qed.
Lemma readStringDictionary_append dict mode rest : Forall string_ok dict -> fits (len dict) ->
  readStringDictionary (appendUvarint (len dict) ++ concat (map AppendString dict) ++ mode :: rest)
  = Ok (dict, mode, rest).
Proof.
  intros Hd Hf. unfold readStringDictionary.
  eapply run_bind; [apply rd_intCount_append; alloc_lia|]. apply run_make; [alloc_lia|alloc_lia|].
  eapply run_bind.
  { unfold len. rewrite Nat2Z.id. apply reads_back_read_n. eapply Forall_impl; [exact Hd|].
    intros s Hs. by apply rd_string_append. }
  done.
Qed.

Lemma readOrdinals_same count rest : 0 < count -> fits count ->
  readOrdinals stringOrdinalSame count rest = Ok (replicate (Z.to_nat count) 0, rest).
Proof.
  intros Hc Hf. unfold readOrdinals. change (stringOrdinalSame =? stringOrdinalSame) with true. cbv beta iota.
  rewrite (proj2 (Z.eqb_neq count 0)) by lia. apply run_make; [alloc_lia|alloc_lia|done].
Qed.
Lemma readPlainOrdinals_append ordinals : Forall (fun o => 0 <= o <= maxInt) ordinals -> fits (len ordinals) ->
  reads_back (readOrdinals stringOrdinalPlain (len ordinals)) (appendPlainOrdinals ordinals) ordinals.
Proof.
  intros Ho Hf. change (readOrdinals stringOrdinalPlain (len ordinals)) with (readPlainOrdinals (len ordinals)).
  apply reads_back_make; [alloc_lia|alloc_lia|]. unfold len. rewrite Nat2Z.id. apply reads_back_read_n.
  eapply Forall_impl; [exact Ho|]. intros o Hr. by apply rd_intCount_append.
Qed.
Lemma readRLEOrdinals_append ordinals : Forall (fun o => 0 <= o <= maxInt) ordinals -> fits (len ordinals) ->
  reads_back (readOrdinals stringOrdinalRLE (len ordinals)) (appendRLEOrdinals ordinals) ordinals.
Proof.
  intros Ho Hf. change (readOrdinals stringOrdinalRLE (len ordinals)) with (readRLEOrdinals (len ordinals)).
  unfold readRLEOrdinals. destruct Ho as [|o ordinals Ho0 Ho]; [apply reads_back_ret|].
  rewrite (proj2 (Z.eqb_neq (len (o :: ordinals)) 0)) by (unfold len; simpl length; lia).
  eapply reads_back_bind; [by apply rd_intCount_append|]. apply reads_back_make; [alloc_lia|alloc_lia|].
  replace (len (o :: ordinals) - 1) with (len ordinals) by (unfold len; simpl length; lia).
  eapply reads_back_bind_nil; [|apply reads_back_ret]. apply reads_back_sized. intros fuel Hfuel.
  apply (readRuns_rleTail i64 is_i64); [apply i64_add_sub| |lia|done|unfold len in *; simpl length in *; alloc_lia].
  eapply Forall_impl; [exact Ho|]. intros ? Hr. cbn beta in Hr. wrap_lia.
Qed.

Lemma readDictionary_append values : Forall string_ok values -> fits (len values) ->
  readDictionaryStringValues compressionDictionary (len values) (appendDictionaryStringValues values)
  = Ok (map StringValue values, []).
Proof.
  intros Hvs Hf. unfold appendDictionaryStringValues, appendDictionaryPayload, readDictionaryStringValues.
  change (negb (compressionDictionary =? compressionDictionary)) with false. cbv beta iota.
  zcase (len values =? 0).
  { destruct values; [|unfold len in E; simpl in E; lia]. vm_compute. done. }
  pose proof (dict_fold_inv values) as [Hids Hord Helem Hdl].
  set (st := fold_left dictStep values (mkDictState ∅ [] [])) in *.
  assert (Forall string_ok (ds_dict st)) as Hd.
  { apply Forall_forall. intros v Hv. rewrite Forall_forall in Hvs. by apply Hvs, Helem. }
  assert (fits (len (ds_dict st))) as Hdf by alloc_lia.
  assert (length (ds_ordinals st) = length values) as Hol by (symmetry; by eapply Forall2_length).
  assert (Forall (fun o => 0 <= o <= maxInt) (ds_ordinals st)) as Hob.
  { eapply Forall2_Forall_r; [exact Hord|]. apply Forall_forall. intros v _ o [Ho Hlt%lookup_lt_Some]. alloc_lia. }
  unfold mbind at 1, reader_bind at 1.
  assert (forall mode payload, readOrdinals mode (len values) payload = Ok (ds_ordinals st, []) ->
    match readStringDictionary (appendUvarint (len (ds_dict st)) ++ concat (map AppendString (ds_dict st)) ++ [mode] ++ payload) with
    | Ok (a, s') => (let '(dict, mode) := a in readStringDictionaryOrdinals dict mode (len values)) s'
    | Err e => Err e | Panic p => Panic p end = Ok (map StringValue values, [])) as Hfin.
  { intros mode payload Hr. change ([mode] ++ payload) with (mode :: payload).
    rewrite readStringDictionary_append by done.
    unfold readStringDictionaryOrdinals, mbind at 1, reader_bind at 1. rewrite Hr.
    apply run_make; [alloc_lia|alloc_lia|]. unfold lift. by rewrite (mapM_dictValue _ _ values). }
  zcase (len (ds_dict st) =? 1).
  - apply Hfin. rewrite readOrdinals_same by (unfold len in *; lia || done). do 2 f_equal.
    unfold len. rewrite Nat2Z.id, <- Hol. apply replicate_as_Forall. split; [done|].
    eapply Forall2_Forall_r; [exact Hord|]. apply Forall_forall. intros v _ o [Ho Hlt%lookup_lt_Some].
    unfold len in *. lia.
  - assert (len values = len (ds_ordinals st)) as Hle by (unfold len; lia). rewrite Hle in Hf.
    destruct (_ <? _); apply Hfin; rewrite Hle; apply reads_back_run;
      [by apply readRLEOrdinals_append|by apply readPlainOrdinals_append].
Qed.

(** ** Floats with a constant step or integral values *)

(** What a float64 column keeps: the value in the sense of [==] (a negative
    zero may come back as zero), and that it is a NaN. *)
Definition float_same (a b : Z) : Prop :=
  a = b \/ f_eqb b a = true \/ (f_is_nan a = true /\ f_is_nan b = true).
#[export] Instance float_same_refl : Reflexive float_same.
Proof. intros a. by left. Qed.

Lemma allMatch_lookup check i values : allMatch check i values = true ->
  forall k v, values !! k = Some v -> check (i + k)%nat v = true.
Proof.
  revert i. induction values as [|w values IH]; intros i H k v Hk; [done|].
  simpl in H. destruct (check i w) eqn:Hw; [|done]. destruct k as [|k]; simpl in Hk.
  - injection Hk as <-. by rewrite Nat.add_0_r.
  - rewrite Nat.add_succ_r. apply (IH (S i)); done.
Qed.
(** A column of which every element agrees with its index. *)
Lemma Forall2_seq_same (f : nat -> Z) values :
  (forall k v, values !! k = Some v -> float_same v (f k)) ->
  Forall2 float_same values (map f (seq 0 (length values))).
Proof.
  intros H. apply Forall2_same_length_lookup_2; [by rewrite length_map, length_seq|].
  intros k v w Hv Hw. rewrite list_lookup_fmap in Hw. apply lookup_lt_Some in Hv as Hlt.
  rewrite lookup_seq_lt in Hw by done. injection Hw as <-. by apply H.
Qed.

Definition good_params (params : floatConstStepParams) (values : list Z) : Prop :=
  Forall2 float_same values (map (floatConstStepValue params) (seq 0 (length values))).

Lemma tryCandidates_matches values v0 v1 seen candidates start scale : is_u64 v1 ->
  Forall is_i64 candidates -> tryCandidates values v0 v1 seen candidates = Some (start, scale) ->
  matchesFloatIndexScale values start scale = true /\ is_i64 start /\ is_u64 scale.
Proof.
  intros Hv1 Hc. revert seen. induction Hc as [|c candidates Hc0 Hc IH]; intros seen H; simpl in H; [done|].
  case_bool_decide; [by eapply IH|]. destruct (_ && _); [by eapply IH|].
  destruct (matchesFloatIndexScale _ c _) eqn:Hm; [|by eapply IH]. injection H as <- <-.
  split; [done|]. split; [done|]. destruct (c =? 0); [done|]. apply u64_range.
Qed.
Lemma matches_good values start scale : matchesFloatIndexScale values start scale = true ->
  good_params (paramsIndexScale start scale) values.
Proof.
  intros H. apply Forall2_seq_same. intros k v Hk. right. left. exact (allMatch_lookup _ _ _ H k v Hk).
Qed.
Lemma f_mul_one_same v : is_u64 v -> float_same v (f_mul (f_of_int 1) v).
Proof.
  intros Hv. right. destruct (f_is_nan v) eqn:Hn; [right|left; by apply f_mul_one].
  split; [done|]. unfold f_is_nan, f_mul in *. change (of_bits (f_of_int 1)) with (S754_finite false 4503599627370496 (-52)).
  by destruct (of_bits v).
Qed.
Lemma detectFloatIndexScale_good values start scale : Forall is_u64 values ->
  detectFloatIndexScale values = Some (start, scale) ->
  good_params (paramsIndexScale start scale) values /\ is_i64 start /\ is_u64 scale.
Proof.
  intros Hvs H. destruct values as [|v0 [|v1 values]]; simpl in H; [done| |].
  - apply Forall_cons in Hvs as [Hv _]. destruct (f_eqb v0 0) eqn:Hz; injection H as <- <-.
    + split; [|by_decide]. apply Forall2_seq_same. intros [|k] v Hk; [|done]. injection Hk as <-.
      right. left. unfold floatConstStepValue. change (indexScaleValue 0 0 0) with 0.
      unfold f_eqb in *. change (of_bits 0) with (S754_zero false) in *. by destruct (of_bits v0) as [|[]| |[]].
    + split; [|split; [by_decide|done]]. apply Forall2_seq_same. intros [|k] v Hk; [|done].
      injection Hk as <-. by apply f_mul_one_same.
  - apply Forall_cons in Hvs as [Hv0 Hvs]. apply Forall_cons in Hvs as [Hv1 _].
    apply tryCandidates_matches in H as (Hm & Hs & Hsc); [|done|].
    + split; [by apply matches_good|done].
    + apply Forall_app. split; [destruct (f_eqb v0 0); [apply Forall_singleton; by_decide|constructor]|].
      destruct (negb (f_eqb v1 v0)); repeat (constructor; [apply i64_range|]); constructor.
Qed.
Lemma f_eqb_sym a b : f_eqb a b = true -> f_eqb b a = true.
Proof.
  unfold f_eqb. intros H. destruct (of_bits a) as [|[]| |s m e] eqn:Ha, (of_bits b) as [|[]| |s' m' e'] eqn:Hb;
    try done; try (by destruct s); try (by destruct s').
  apply SFeqb_finite in H as (<- & <- & <-). rewrite <- Hb at 2. by apply f_eqb_refl_finite.
Qed.
(** Without infinities the first element is recovered too: the step is finite. *)
Lemma detectFloatConstStep_good values base step :
  Forall (fun v => is_u64 v /\ f_is_inf v = false) values ->
  detectFloatConstStep values = Some (base, step) ->
  good_params (paramsAP base step) values /\ is_u64 base /\ is_u64 step.
Proof.
  intros Hvs H. destruct values as [|v0 [|v1 values]]; simpl in H; [done|done|].
  pose proof Hvs as Hvs'. apply Forall_cons in Hvs as [[Hv0 Hi0] Hvs]. apply Forall_cons in Hvs as [[Hv1 Hi1] _].
  destruct (f_eqb v1 _) eqn:Hm1; [|done]. destruct (allMatch _ 2 values) eqn:Hm; [|done].
  injection H as <- <-. split; [|split; [done|apply u64_range]].
  destruct (f_add_step_finite _ _ _ Hi1 Hi0 Hm1) as (Hnb & Hns & His).
  apply Forall2_seq_same. intros [|[|k]] v Hk; simpl in Hk; right; left.
  - injection Hk as <-. unfold floatConstStepValue, apValue.
    destruct (f_mul_zero (f_sub v1 v0) Hns His) as [s Hs]. change (Z.of_nat 0) with 0. rewrite Hs.
    by apply f_add_zero.
  - injection Hk as <-. by apply f_eqb_sym.
  - apply f_eqb_sym. exact (allMatch_lookup _ _ _ Hm k v Hk).
Qed.

Lemma fixedInt64_bits name b : is_u64 b -> reads_back (BlockReader.fixedInt64 name) (le_put_u64 b) (i64 b).
Proof.
  intros Hb. rewrite <- (u64_id b Hb) at 1. rewrite <- u64_i64. apply fixedInt64_put, i64_range.
Qed.
Lemma u64_i64_id b : is_u64 b -> u64 (i64 b) = b.
Proof. intros. rewrite u64_i64. by apply u64_id. Qed.
Lemma readFloatConstStepParams_AP base step : is_u64 base -> is_u64 step ->
  reads_back readFloatConstStepParams (appendFloatConstStepAP base step) (paramsAP base step).
Proof.
  intros Hb Hs rest. unfold readFloatConstStepParams.
  assert ((len (appendFloatConstStepAP base step ++ rest) =? 16) = false) as ->.
  { apply Z.eqb_neq. unfold appendFloatConstStepAP, le_put_u64, len. rewrite !length_app, !le_bytes_length. simpl. lia. }
  unfold appendFloatConstStepAP. rewrite <- (assoc_L (++)).
  eapply run_bind; [apply rd_byte_append|]. change (floatConstStepKindAP =? floatConstStepKindAP) with true.
  cbv iota. rewrite <- (assoc_L (++)). eapply run_bind; [by apply fixedInt64_bits|].
  eapply run_bind; [by apply fixedInt64_bits|]. by rewrite !u64_i64_id.
Qed.
Lemma readFloatConstStepParams_IndexScale start scale : is_i64 start -> is_u64 scale ->
  reads_back readFloatConstStepParams (appendFloatConstStepIndexScale start scale) (paramsIndexScale start scale).
Proof.
  intros Hb Hs rest. unfold readFloatConstStepParams.
  assert ((len (appendFloatConstStepIndexScale start scale ++ rest) =? 16) = false) as ->.
  { apply Z.eqb_neq. unfold appendFloatConstStepIndexScale, le_put_u64, len. rewrite !length_app, !le_bytes_length. simpl. lia. }
  unfold appendFloatConstStepIndexScale. rewrite <- (assoc_L (++)).
  eapply run_bind; [apply rd_byte_append|]. change (floatConstStepKindIndexScale =? floatConstStepKindAP) with false.
  change (floatConstStepKindIndexScale =? floatConstStepKindIndexScale) with true. cbv iota.
  rewrite <- (assoc_L (++)). eapply run_bind; [by apply fixedInt64_put|].
  eapply run_bind; [by apply fixedInt64_bits|]. by rewrite u64_i64_id.
Qed.
Lemma encodeFloatConstStepPayload_good values payload :
  Forall (fun v => is_u64 v /\ f_is_inf v = false) values ->
  encodeFloatConstStepPayload values = Some payload ->
  exists params, reads_back readFloatConstStepParams payload params /\ good_params params values.
Proof.
  intros Hvs H. unfold encodeFloatConstStepPayload in H.
  assert (Forall is_u64 values) as Hu by (eapply Forall_impl; [exact Hvs|]; by intros ? []).
  destruct (detectFloatIndexScale values) as [[start scale]|] eqn:Hd.
  - injection H as <-. apply detectFloatIndexScale_good in Hd as (Hg & Hs & Hsc); [|done].
    eexists. split; [by apply readFloatConstStepParams_IndexScale|done].
  - destruct (detectFloatConstStep values) as [[base step]|] eqn:Hd'; [|done]. injection H as <-.
    apply detectFloatConstStep_good in Hd' as (Hg & Hs & Hsc); [|done].
    eexists. split; [by apply readFloatConstStepParams_AP|done].
Qed.

(** Integral values through the integer codecs. *)
Lemma floatSamplesAsIntSamples_good values ints :
  Forall (fun v => is_u64 v /\ v <> f_two63) values -> floatSamplesAsIntSamples values = Some ints ->
  Forall is_i64 ints /\ Forall2 float_same values (map f_of_int ints).
Proof.
  intros Hvs. revert ints. induction Hvs as [|v values [Hv Hne] Hvs IH]; intros ints H; simpl in H.
  { injection H as <-. by split; constructor. }
  destruct (f_is_nan v) eqn:Hn; [done|]. destruct (f_is_inf v) eqn:Hi; [done|]. simpl in H.
  destruct (f_eqb v (f_trunc v)) eqn:Ht; [simpl in H|done].
  destruct (f_ltb v floatMinInt64) eqn:Hmin; [done|]. destruct (f_ltb floatMaxInt64 v) eqn:Hmax; [done|].
  simpl in H. destruct (floatSamplesAsIntSamples values) as [rest|] eqn:Hr; [|done].
  injection H as <-. destruct (IH rest eq_refl) as [IH1 IH2].
  pose proof (f_trunc_int_range v Hv Hn Hi Hmin Hmax Hne) as Hrange.
  split; constructor; [|done| |done].
  - unfold int_of_f. rewrite Hn, Hi. simpl. by rewrite bool_decide_true.
  - right. left. by apply f_int_roundtrip.
Qed.

(** ** Whole columns *)
Definition value_same (v w : FieldValue) : Prop :=
  w = v \/ exists a b, v = Float64Value a /\ w = Float64Value b /\ float_same a b.
#[export] Instance value_same_refl : Reflexive value_same.
Proof. intros v. by left. Qed.
Lemma value_same_floats fs gs : Forall2 float_same fs gs ->
  Forall2 value_same (map Float64Value fs) (map Float64Value gs).
Proof.
  intros H. apply Forall2_fmap. eapply Forall2_impl; [exact H|]. intros a b Hab. right. by exists a, b.
Qed.
(** A column of one type.  A float64 column keeps its values when it holds no
    infinity and not 2^63; [float_column_infinity] and [float_column_two63]
    show why these are excluded. *)
Definition float_kept (v : FieldValue) : Prop :=
  f_is_inf (fv_Float64 v) = false /\ fv_Float64 v <> f_two63.
Definition column_ok (fieldType : Z) (values : list FieldValue) : Prop :=
  Forall (fun v => value_ok v /\ fv_Type v = fieldType /\ float_kept v) values /\ fits (len values).

Lemma column_floats values : column_ok FieldFloat64 values ->
  exists fs, values = map Float64Value fs
    /\ Forall (fun v => is_u64 v /\ f_is_inf v = false /\ v <> f_two63) fs /\ len fs = len values.
Proof.
  intros [Hvs _]. exists (map fv_Float64 values). unfold len. rewrite length_map. split; [|split; [|done]].
  - induction Hvs as [|v values (Hv & Ht & _) Hvs IH]; [done|]. simpl. rewrite <- IH. f_equal. by destruct Hv.
  - apply Forall_fmap. eapply Forall_impl; [exact Hvs|]. intros v (Hv & Ht & Hi & Hne). by destruct Hv.
Qed.
Lemma column_ints values : column_ok FieldInt64 values ->
  exists vs, values = map Int64Value vs /\ Forall is_i64 vs /\ len vs = len values.
Proof.
  intros [Hvs _]. exists (map fv_Int64 values). unfold len. rewrite length_map. split; [|split; [|done]].
  - induction Hvs as [|v values (Hv & Ht & _) Hvs IH]; [done|]. simpl. rewrite <- IH. f_equal. by destruct Hv.
  - apply Forall_fmap. eapply Forall_impl; [exact Hvs|]. intros v (Hv & Ht & _). by destruct Hv.
Qed.
Lemma column_strings values : column_ok FieldString values ->
  exists vs, values = map StringValue vs /\ Forall string_ok vs /\ len vs = len values.
Proof.
  intros [Hvs _]. exists (map fv_String values). unfold len. rewrite length_map. split; [|split; [|done]].
  - induction Hvs as [|v values (Hv & Ht & _) Hvs IH]; [done|]. simpl. rewrite <- IH. f_equal. by destruct Hv.
  - apply Forall_fmap. eapply Forall_impl; [exact Hvs|]. intros v (Hv & Ht & _). by destruct Hv.
Qed.
Lemma column_bools values : column_ok FieldBool values ->
  exists vs, values = map BoolValue vs /\ len vs = len values.
Proof.
  intros [Hvs _]. exists (map fv_Bool values). unfold len. rewrite length_map. split; [|done].
  induction Hvs as [|v values (Hv & Ht & _) Hvs IH]; [done|]. simpl. rewrite <- IH. f_equal. by destruct Hv.
Qed.

(** [decodes ft codec values payload]: the reader of the codec gives the column back. *)
Definition decodes (fieldType codecID : Z) (values : list FieldValue) (payload : bytes) : Prop :=
  exists out, readCompressedValues fieldType codecID (len values) payload = Ok (out, [])
    /\ Forall2 value_same values out.
Lemma decodes_exact fieldType codecID values payload :
  readCompressedValues fieldType codecID (len values) payload = Ok (values, []) ->
  decodes fieldType codecID values payload.
Proof. intros H. exists values. split; [done|]. reflexivity. Qed.

(** Plain columns. *)
Lemma readFloatValues_append fs : Forall is_u64 fs -> fits (len fs) ->
  reads_back (readFloatValues (len fs)) (appendFloatValues fs) (map Float64Value fs).
Proof.
  intros Hfs Hf. apply reads_back_make; [alloc_lia|alloc_lia|]. unfold len. rewrite Nat2Z.id.
  eapply reads_back_bind_nil; [|apply reads_back_ret]. apply reads_back_read_n.
  eapply Forall_impl; [exact Hfs|]. intros b Hb. by apply rd_u64_append.
Qed.
Lemma readIntValues_append vs : Forall is_i64 vs -> fits (len vs) ->
  reads_back (readIntValues (len vs)) (appendIntValues vs) (map Int64Value vs).
Proof.
  intros Hvs Hf. apply reads_back_make; [alloc_lia|alloc_lia|]. unfold len. rewrite Nat2Z.id.
  eapply reads_back_bind_nil; [|apply reads_back_ret]. apply reads_back_read_n.
  eapply Forall_impl; [exact Hvs|]. intros b Hb. by apply rd_varint_append.
Qed.
Lemma readStringValues_append vs : Forall string_ok vs -> fits (len vs) ->
  reads_back (readStringValues (len vs)) (appendStringValues vs) (map StringValue vs).
Proof.
  intros Hvs Hf. apply reads_back_make; [alloc_lia|alloc_lia|]. unfold len. rewrite Nat2Z.id.
  eapply reads_back_bind_nil; [|apply reads_back_ret]. apply reads_back_read_n.
  eapply Forall_impl; [exact Hvs|]. intros b Hb. by apply rd_string_append.
Qed.
Lemma readBoolValues_append vs : fits (len vs) ->
  reads_back (readBoolValues (len vs)) (AppendBoolBits vs) (map BoolValue vs).
Proof.
  intros Hf rest. unfold readBoolValues. eapply run_bind.
  { intros rest'. unfold readBools. rewrite ReadBoolBits_append by alloc_lia. done. }
  by apply run_make; [alloc_lia|alloc_lia|].
Qed.
Lemma appendBoolValues_bools vs : appendBoolValues (map BoolValue vs) = Ok (AppendBoolBits vs).
Proof.
  unfold appendBoolValues. enough (mapM (fun v => if negb (fv_Type v =? FieldBool)
    then Err (Errorf "bool sample has value type") else Ok (fv_Bool v)) (map BoolValue vs) = Ok vs) as -> by done.
  induction vs as [|v vs IH]; [done|]. simpl. by rewrite IH.
Qed.

(** The float column, whatever codec wins. *)
Lemma decodes_float_plain fs : Forall is_u64 fs -> fits (len fs) ->
  decodes FieldFloat64 compressionPlain (map Float64Value fs) (appendFloatValues fs).
Proof.
  intros Hfs Hf. apply decodes_exact. unfold len at 1. rewrite length_map. by apply reads_back_run, readFloatValues_append.
Qed.
Lemma decodes_float_const fs payload :
  Forall (fun v => is_u64 v /\ f_is_inf v = false) fs -> fits (len fs) -> fs <> [] ->
  encodeFloatConstStepPayload fs = Some payload ->
  decodes FieldFloat64 compressionConstStep (map Float64Value fs) payload.
Proof.
  intros Hfs Hf Hne Hp. apply encodeFloatConstStepPayload_good in Hp as (params & Hr & Hg); [|done].
  exists (map Float64Value (map (floatConstStepValue params) (seq 0 (length fs)))).
  split; [|by apply value_same_floats]. unfold len. rewrite length_map. fold (len fs).
  change (readFloatConstStepValues compressionConstStep (len fs) payload
    = Ok (map Float64Value (map (floatConstStepValue params) (seq 0 (length fs))), [])).
  unfold readFloatConstStepValues. change (negb (compressionConstStep =? compressionConstStep)) with false.
  cbv iota. rewrite (proj2 (Z.eqb_neq (len fs) 0)) by (destruct fs; [done|unfold len; simpl; lia]).
  eapply run_bind_nil; [exact Hr|]. apply run_make; [alloc_lia|alloc_lia|].
  unfold len. by rewrite Nat2Z.id, map_map.
Qed.
Lemma decodes_float_int fs ints codecID payload :
  Forall2 float_same fs (map f_of_int ints) -> Forall is_i64 ints -> fits (len fs) ->
  codecID = compressionDelta /\ payload = appendDeltaIntValues ints
  \/ codecID = compressionRLE /\ payload = appendDeltaRLEIntValues ints ->
  decodes FieldFloat64 codecID (map Float64Value fs) payload.
Proof.
  intros Hs Hi Hf Hc. exists (map Float64Value (map f_of_int ints)). split; [|by apply value_same_floats].
  assert (len fs = len ints) as Hl by (apply Forall2_length in Hs; rewrite length_map in Hs; unfold len; lia).
  unfold len at 1. rewrite length_map. fold (len fs). rewrite Hl in *.
  destruct Hc as [[-> ->]|[-> ->]].
  - change (readFloatIntValues compressionDelta (len ints) (appendDeltaIntValues ints)
      = Ok (map Float64Value (map f_of_int ints), [])).
    eapply run_bind_nil; [by apply readDeltaInts_append|]. by rewrite map_map.
  - change (readFloatIntValues compressionRLE (len ints) (appendDeltaRLEIntValues ints)
      = Ok (map Float64Value (map f_of_int ints), [])).
    eapply run_bind_nil; [by apply readDeltaRLEInts_append|]. by rewrite map_map.
Qed.
Lemma decodes_float_xor fs : Forall is_u64 fs -> fits (len fs) ->
  decodes FieldFloat64 compressionXOR (map Float64Value fs) (appendGorillaFloatValues fs).
Proof.
  intros Hfs Hf. apply decodes_exact. unfold len at 1. rewrite length_map.
  by apply reads_back_run, readGorillaFloatValues_append.
Qed.
Lemma encodeFloatValues_decodes fs policy :
  Forall (fun v => is_u64 v /\ f_is_inf v = false /\ v <> f_two63) fs -> fits (len fs) ->
  decodes FieldFloat64 (encodeFloatValues fs policy).1 (map Float64Value fs) (encodeFloatValues fs policy).2.
Proof.
  intros Hfs Hf.
  assert (Forall is_u64 fs) as Hu by (eapply Forall_impl; [exact Hfs|]; by intros ? []).
  assert (Forall (fun v => is_u64 v /\ f_is_inf v = false) fs) as Hi by (eapply Forall_impl; [exact Hfs|]; by intros ? (?&?&?)).
  assert (Forall (fun v => is_u64 v /\ v <> f_two63) fs) as Ht by (eapply Forall_impl; [exact Hfs|]; by intros ? (?&?&?)).
  unfold encodeFloatValues. zcase (len fs =? 0).
  { destruct fs; [|unfold len in E; simpl in E; lia]. by apply decodes_float_plain. }
  assert (fs <> []) as Hne by (by intros ->). pose proof (decodes_float_plain fs Hu Hf) as Hplain.
  case_bool_decide; [done|].
  destruct (encodeFloatConstStepPayload fs) as [payload|] eqn:Hc; [by apply decodes_float_const|].
  pose proof (decodes_float_xor fs Hu Hf) as Hxor.
  destruct (floatSamplesAsIntSamples fs) as [ints|] eqn:Hs.
  - destruct (floatSamplesAsIntSamples_good _ _ Ht Hs) as [Hints Hsame].
    pose proof (fun c p => decodes_float_int fs ints c p Hsame Hints Hf) as Hint.
    cbn [fst snd]. repeat case_match; cbn [fst snd]; auto.
  - cbn [fst snd]. case_match; done.
Qed.
Lemma encodeIntValues_decodes vs policy : Forall is_i64 vs -> fits (len vs) ->
  decodes FieldInt64 (encodeIntValues vs policy).1 (map Int64Value vs) (encodeIntValues vs policy).2.
Proof.
  intros Hvs Hf. assert (forall b codec, codec = (if b : bool then compressionRLE else compressionDelta) ->
    decodes FieldInt64 codec (map Int64Value vs) (if b then appendDeltaRLEIntValues vs else appendDeltaIntValues vs)) as Hcodec.
  { intros b codec Hc. apply decodes_exact. unfold len at 1. rewrite length_map. fold (len vs).
    pose proof (reads_back_run _ _ _ (int_codec_reads vs b codec Hvs Hf Hc)) as Hr. subst codec. by destruct b. }
  assert (decodes FieldInt64 compressionPlain (map Int64Value vs) (appendIntValues vs)) as Hplain.
  { apply decodes_exact. unfold len at 1. rewrite length_map. by apply reads_back_run, readIntValues_append. }
  pose proof (Hcodec true _ eq_refl) as Hrle. pose proof (Hcodec false _ eq_refl) as Hdelta.
  unfold encodeIntValues. case_bool_decide; [done|]. cbv zeta. repeat case_match; done.
Qed.
Lemma encodeStringValues_decodes vs policy : Forall string_ok vs -> fits (len vs) ->
  decodes FieldString (encodeStringValues vs policy).1 (map StringValue vs) (encodeStringValues vs policy).2.
Proof.
  intros Hvs Hf. assert (decodes FieldString compressionPlain (map StringValue vs) (appendStringValues vs)) as Hplain.
  { apply decodes_exact. unfold len at 1. rewrite length_map. by apply reads_back_run, readStringValues_append. }
  assert (decodes FieldString compressionDictionary (map StringValue vs) (appendDictionaryStringValues vs)) as Hdict.
  { apply decodes_exact. unfold len at 1. rewrite length_map. by apply readDictionary_append. }
  unfold encodeStringValues. case_bool_decide; [done|]. cbv zeta. repeat case_match; done.
Qed.

Lemma typed_values_decodes fieldType values opts codecID payload : column_ok fieldType values ->
  encodeTypedValues fieldType values opts = Ok (codecID, payload) -> decodes fieldType codecID values payload.
Proof.
  intros Hok H. pose proof Hok as [_ Hf]. unfold encodeTypedValues in H.
  zcase (fieldType =? FieldFloat64).
  { subst. apply column_floats in Hok as (fs & -> & Hfs & Hl). rewrite map_map, map_id in H.
    injection H as H. pose proof (encodeFloatValues_decodes fs (co_Float opts) Hfs ltac:(by rewrite Hl)) as Hd.
    rewrite H in Hd. exact Hd. }
  zcase (fieldType =? FieldInt64).
  { subst. apply column_ints in Hok as (vs & -> & Hvs & Hl). rewrite map_map, map_id in H.
    injection H as H. pose proof (encodeIntValues_decodes vs (co_Int opts) Hvs ltac:(by rewrite Hl)) as Hd.
    rewrite H in Hd. exact Hd. }
  zcase (fieldType =? FieldBool).
  { subst. apply column_bools in Hok as (vs & -> & Hl). rewrite appendBoolValues_bools in H.
    injection H as <- <-. apply decodes_exact. rewrite <- Hl.
    by apply reads_back_run, readBoolValues_append; rewrite Hl. }
  zcase (fieldType =? FieldString); [|done].
  subst. apply column_strings in Hok as (vs & -> & Hvs & Hl). rewrite map_map, map_id in H.
  injection H as H. pose proof (encodeStringValues_decodes vs (co_String opts) Hvs ltac:(by rewrite Hl)) as Hd.
  rewrite H in Hd. exact Hd.
Qed.

(** C27: whichever codec the encoder picks for a column, the reader of that codec uses up
    the payload and returns the values: floats up to == and NaN, everything else
    exactly; infinities and 2^63 are excluded. *)
Theorem typed_values_roundtrip fieldType values opts codecID payload : column_ok fieldType values ->
  encodeTypedValues fieldType values opts = Ok (codecID, payload) ->
  exists out, readCompressedValues fieldType codecID (len values) payload = Ok (out, [])
    /\ Forall2 value_same values out.
Proof. apply typed_values_decodes. Qed.
Definition exampleOptions : CompressionOptions := mkCompressionOptions true "" "" "" "" "" 0 0 false "".
(** 0.1, 0.2, 0.4, -0.0 and a NaN: the XOR codec wins. *)
Definition exampleFloatColumn : list FieldValue := map Float64Value
  [0x3fb999999999999a; 0x3fc999999999999a; 0x3fd999999999999a; 0x8000000000000000; 0x7ff8000000000001].
Lemma typed_values_roundtrip_witness :
  exists out, readCompressedValues FieldFloat64 compressionXOR 5
      (appendGorillaFloatValues (map fv_Float64 exampleFloatColumn)) = Ok (out, [])
    /\ Forall2 value_same exampleFloatColumn out.
Proof.
  apply (typed_values_roundtrip FieldFloat64 exampleFloatColumn exampleOptions); [|vm_compute; reflexivity].
  split; [|by_decide]. repeat constructor; vm_compute; done.
Defined.

(** a float column of 1 and positive infinity is stored with an infinite constant
    step and read back as a NaN and infinity. *)
Theorem float_column_infinity :
  let values := map Float64Value [0x3ff0000000000000; 0x7ff0000000000000] in
  encodeTypedValues FieldFloat64 values exampleOptions
  = Ok (compressionConstStep, appendFloatConstStepAP 0x3ff0000000000000 0x7ff0000000000000)
  /\ readCompressedValues FieldFloat64 compressionConstStep 2
       (appendFloatConstStepAP 0x3ff0000000000000 0x7ff0000000000000)
     = Ok (map Float64Value [0x7ff8000000000000; 0x7ff0000000000000], []).
Proof. split; vm_compute; reflexivity. Qed.

(** a float column of zeros with one value 2^63 is stored as integers and read back
    with -2^63 in its place. *)
Theorem float_column_two63 :
  let payload := appendDeltaRLEIntValues ([0; - 2 ^ 63] ++ replicate 10 0) in
  encodeTypedValues FieldFloat64 (map Float64Value ([0; f_two63] ++ replicate 10 0)) exampleOptions
  = Ok (compressionRLE, payload)
  /\ readCompressedValues FieldFloat64 compressionRLE 12 payload
     = Ok (map Float64Value ([0; f_of_int (- 2 ^ 63)] ++ replicate 10 0), []).
Proof. split; vm_compute; reflexivity. Qed.
