(* ===== verification/SstSamples.v ===== *)
(** * Query paths of the SSTable value codecs

    The sample readers of internal/sstable: compression_values.go,
    compression_window.go, compression_gorilla.go, compression_int_rle.go,
    compression_string.go, compression_float_int.go, compression_float_scale.go
    and encoding_samples.go.  A sample reader decodes the values of a page next
    to its timestamps and keeps the samples of the queried interval; the
    windowed readers keep only the rows [start, start + len(timestamps)) of a
    page of [fullCount] rows.  A [samples = append(samples, ...)] is the list
    the definition adds in front of the samples of the later rounds. *)
From S2P Require Import Prelude GoBinary Model Codec Readers SstTime Float64 SstValues.
From stdpp Require Import prelude strings list gmap.
From Stdlib Require Import ZArith Lia.
#[local] Open Scope Z_scope.

(** Size of a [VersionedSample]: two words and a value of 48 bytes. *)
Definition sampleSize : Z := 64.

Definition compressedQueryCapacity (count : Z) (query : Query) : Z :=
  if (q_End query <? q_Start query) || (count =? 0) then 0
  else
    let width := i64 (i64 (q_End query - q_Start query) + 1) in
    if (width <=? 0) || (count <? width) then count else width.

(** ** Appending a sample *)

(** The guard comes before [writeSeqs[index]] is read. *)
Definition sampleIf (query : Query) (timestamp : Z) (writeSeqs : list Z) (value : FieldValue)
    : outcome (list VersionedSample) :=
  if in_query query timestamp then writeSeq ← idx writeSeqs 0; Ok [mkSample timestamp writeSeq value]
  else Ok [].
(** appendCompressedFloatSample and appendCompressedIntSample: what they add. *)
Definition appendCompressedSample (query : Query) (timestamp writeSeq : Z) (value : FieldValue)
    : list VersionedSample :=
  if in_query query timestamp then [mkSample timestamp writeSeq value] else [].
(** [appendCompressed..Sample(samples, timestamps[i], writeSeqs[i], v, query)]
    for consecutive [i]. *)
Fixpoint appendCompressedSamples (query : Query) (timestamps writeSeqs : list Z) (values : list FieldValue)
    : outcome (list VersionedSample) :=
  match values with
  | [] => Ok []
  | value :: values' =>
      timestamp ← idx timestamps 0;
      writeSeq ← idx writeSeqs 0;
      rest ← appendCompressedSamples query (tail timestamps) (tail writeSeqs) values';
      Ok (appendCompressedSample query timestamp writeSeq value ++ rest)
  end.

(** ** Plain columns next to decoded timestamps *)
Fixpoint readSamplesLoop (read : reader FieldValue) (timestamps writeSeqs : list Z) (query : Query)
    : reader (list VersionedSample) :=
  match timestamps with
  | [] => mret []
  | timestamp :: timestamps' =>
      value ← read;
      here ← lift (sampleIf query timestamp writeSeqs value);
      rest ← readSamplesLoop read timestamps' (tail writeSeqs) query;
      mret (here ++ rest)
  end.
Definition readFloatSamples (timestamps writeSeqs : list Z) (query : Query) : reader (list VersionedSample) :=
  _ ← rmake sampleSize (len timestamps);
  readSamplesLoop (value ← BlockReader.float64; mret (Float64Value value)) timestamps writeSeqs query.
Definition readIntSamples (timestamps writeSeqs : list Z) (query : Query) : reader (list VersionedSample) :=
  _ ← rmake sampleSize (len timestamps);
  readSamplesLoop (value ← BlockReader.varint "int value"; mret (Int64Value value)) timestamps writeSeqs query.
Definition readStringSamples (timestamps writeSeqs : list Z) (query : Query) : reader (list VersionedSample) :=
  _ ← rmake sampleSize (len timestamps);
  readSamplesLoop (value ← BlockReader.string "string value"; mret (StringValue value)) timestamps writeSeqs query.
Fixpoint boolSamplesLoop (bools : list bool) (timestamps writeSeqs : list Z) (query : Query)
    : outcome (list VersionedSample) :=
  match timestamps with
  | [] => Ok []
  | timestamp :: timestamps' =>
      here ← (if in_query query timestamp then
                writeSeq ← idx writeSeqs 0; value ← idx bools 0; Ok [mkSample timestamp writeSeq (BoolValue value)]
              else Ok []);
      rest ← boolSamplesLoop (tail bools) timestamps' (tail writeSeqs) query;
      Ok (here ++ rest)
  end.
Definition readBoolSamples (timestamps writeSeqs : list Z) (query : Query) : reader (list VersionedSample) :=
  bools ← readBools (len timestamps);
  _ ← rmake sampleSize (len timestamps);
  lift (boolSamplesLoop bools timestamps writeSeqs query).
Definition readSamples (fieldType : Z) (timestamps writeSeqs : list Z) (query : Query)
    : reader (list VersionedSample) :=
  if fieldType =? FieldFloat64 then readFloatSamples timestamps writeSeqs query
  else if fieldType =? FieldInt64 then readIntSamples timestamps writeSeqs query
  else if fieldType =? FieldBool then readBoolSamples timestamps writeSeqs query
  else if fieldType =? FieldString then readStringSamples timestamps writeSeqs query
  else rfail (Errorf "unsupported value block field type").

(** ** Integers *)
Fixpoint deltaIntSamplesLoop (prev : Z) (timestamps writeSeqs : list Z) (query : Query)
    : reader (list VersionedSample) :=
  match timestamps with
  | [] => mret []
  | timestamp :: timestamps' =>
      delta ← BlockReader.uvarint "int delta";
      let prev := i64 (prev + unzigZag64 delta) in
      writeSeq ← lift (idx writeSeqs 0);
      rest ← deltaIntSamplesLoop prev timestamps' (tail writeSeqs) query;
      mret (appendCompressedSample query timestamp writeSeq (Int64Value prev) ++ rest)
  end.
Definition readDeltaIntSampleValues (codecID : Z) (timestamps writeSeqs : list Z) (query : Query)
    : reader (list VersionedSample) :=
  if negb (codecID =? compressionDelta) then rfail (Errorf "unknown int compression")
  else
    _ ← rmake sampleSize (compressedQueryCapacity (len timestamps) query);
    match timestamps with
    | [] => mret []
    | timestamp :: timestamps' =>
        prev ← BlockReader.varint "first int value";
        writeSeq ← lift (idx writeSeqs 0);
        rest ← deltaIntSamplesLoop prev timestamps' (tail writeSeqs) query;
        mret (appendCompressedSample query timestamp writeSeq (Int64Value prev) ++ rest)
    end.
(** A run that overruns the timestamps fails before anything is returned. *)
Fixpoint rleIntSamplesLoop (fuel : nat) (prev : Z) (timestamps writeSeqs : list Z) (query : Query)
    : reader (list VersionedSample) :=
  match fuel with
  | O => rfail (Errorf "fuel exhausted")
  | S fuel' =>
      if len timestamps <=? 0 then mret []
      else
        run64 ← BlockReader.uvarint "int rle run";
        if run64 =? 0 then rfail (Errorf "int rle run must be > 0")
        else
          delta ← BlockReader.uvarint "int rle delta";
          if len timestamps <? run64 then rfail (Errorf "int rle overflow")
          else
            let run := Z.to_nat run64 in
            let out := expandRun i64 run prev (unzigZag64 delta) in
            here ← lift (appendCompressedSamples query timestamps writeSeqs (map Int64Value out));
            rest ← rleIntSamplesLoop fuel' (default prev (last out)) (drop run timestamps) (drop run writeSeqs) query;
            mret (here ++ rest)
  end.
Definition readDeltaRLEIntSampleValues (codecID : Z) (timestamps writeSeqs : list Z) (query : Query)
    : reader (list VersionedSample) :=
  if negb (codecID =? compressionRLE) then rfail (Errorf "unknown int compression")
  else
    _ ← rmake sampleSize (compressedQueryCapacity (len timestamps) query);
    match timestamps with
    | [] => mret []
    | timestamp :: timestamps' =>
        prev ← BlockReader.varint "first int value";
        writeSeq ← lift (idx writeSeqs 0);
        rest ← sized (fun fuel => rleIntSamplesLoop fuel prev timestamps' (tail writeSeqs) query);
        mret (appendCompressedSample query timestamp writeSeq (Int64Value prev) ++ rest)
    end.

(** ** Floats *)
(** [intSamples[index].Value = model.Float64Value(float64(...Int64))] *)
Definition intSampleAsFloat (sample : VersionedSample) : VersionedSample :=
  mkSample (vs_Timestamp sample) (vs_WriteSeq sample) (Float64Value (f_of_int (fv_Int64 (vs_Value sample)))).
Definition readFloatIntSampleValues (codecID : Z) (timestamps writeSeqs : list Z) (query : Query)
    : reader (list VersionedSample) :=
  intSamples ← (if codecID =? compressionDelta then readDeltaIntSampleValues codecID timestamps writeSeqs query
                else if codecID =? compressionRLE then readDeltaRLEIntSampleValues codecID timestamps writeSeqs query
                else rfail (Errorf "unknown float-int compression"));
  mret (map intSampleAsFloat intSamples).
Fixpoint constStepSamplesLoop (params : floatConstStepParams) (index : nat) (timestamps writeSeqs : list Z)
    (query : Query) : outcome (list VersionedSample) :=
  match timestamps with
  | [] => Ok []
  | timestamp :: timestamps' =>
      here ← sampleIf query timestamp writeSeqs (Float64Value (floatConstStepValue params index));
      rest ← constStepSamplesLoop params (S index) timestamps' (tail writeSeqs) query;
      Ok (here ++ rest)
  end.
Definition readFloatConstStepSampleValues (codecID : Z) (timestamps writeSeqs : list Z) (query : Query)
    : reader (list VersionedSample) :=
  if negb (codecID =? compressionConstStep) then rfail (Errorf "unknown float compression")
  else if len timestamps =? 0 then mret []
  else
    params ← readFloatConstStepParams;
    _ ← rmake sampleSize (compressedQueryCapacity (len timestamps) query);
    lift (constStepSamplesLoop params 0 timestamps writeSeqs query).
Fixpoint gorillaSamplesLoop (r : bitReader) (prev prevLeading prevTrailing : Z) (timestamps writeSeqs : list Z)
    (query : Query) : outcome (list VersionedSample * bitReader) :=
  match timestamps with
  | [] => Ok ([], r)
  | timestamp :: timestamps' =>
      '(prev, (prevLeading, prevTrailing), r) ← readGorillaNext r prev prevLeading prevTrailing;
      writeSeq ← idx writeSeqs 0;
      '(rest, r) ← gorillaSamplesLoop r prev prevLeading prevTrailing timestamps' (tail writeSeqs) query;
      Ok (appendCompressedSample query timestamp writeSeq (Float64Value prev) ++ rest, r)
  end.
Definition readGorillaSampleStream (prev : Z) (timestamps writeSeqs : list Z) (query : Query)
    : reader (list VersionedSample) := fun rest =>
  '(samples, r) ← gorillaSamplesLoop (newBitReader rest) prev (-1) 0 timestamps writeSeqs query;
  '(_, rest) ← consumeAligned r rest;
  Ok (samples, rest).
Definition readGorillaFloatSampleValues (codecID : Z) (timestamps writeSeqs : list Z) (query : Query)
    : reader (list VersionedSample) :=
  if negb (codecID =? compressionXOR) then rfail (Errorf "unknown float compression")
  else
    _ ← rmake sampleSize (compressedQueryCapacity (len timestamps) query);
    match timestamps with
    | [] => mret []
    | timestamp :: timestamps' =>
        first ← BlockReader.fixedInt64 "first float bits";
        let prev := u64 first in
        writeSeq ← lift (idx writeSeqs 0);
        let here := appendCompressedSample query timestamp writeSeq (Float64Value prev) in
        if len timestamps =? 1 then mret here
        else rest ← readGorillaSampleStream prev timestamps' (tail writeSeqs) query; mret (here ++ rest)
    end.
Definition readCompressedFloatSampleValues (codecID : Z) (timestamps writeSeqs : list Z) (query : Query)
    : reader (list VersionedSample) :=
  if codecID =? compressionXOR then readGorillaFloatSampleValues codecID timestamps writeSeqs query
  else if codecID =? compressionConstStep then readFloatConstStepSampleValues codecID timestamps writeSeqs query
  else if (codecID =? compressionDelta) || (codecID =? compressionRLE)
  then readFloatIntSampleValues codecID timestamps writeSeqs query
  else rfail (Errorf "unknown float compression").

(** ** Strings *)
Fixpoint dictSamplesLoop (dict : list bytes) (ordinals timestamps writeSeqs : list Z) (query : Query)
    : outcome (list VersionedSample) :=
  match timestamps with
  | [] => Ok []
  | timestamp :: timestamps' =>
      ordinal ← idx ordinals 0;
      value ← dictValue dict ordinal;
      here ← sampleIf query timestamp writeSeqs value;
      rest ← dictSamplesLoop dict (tail ordinals) timestamps' (tail writeSeqs) query;
      Ok (here ++ rest)
  end.
Definition readDictionaryStringSampleValues (codecID : Z) (timestamps writeSeqs : list Z) (query : Query)
    : reader (list VersionedSample) :=
  if negb (codecID =? compressionDictionary) then rfail (Errorf "unknown string compression")
  else
    '(dict, mode) ← readStringDictionary;
    ordinals ← readOrdinals mode (len timestamps);
    _ ← rmake sampleSize (compressedQueryCapacity (len timestamps) query);
    lift (dictSamplesLoop dict ordinals timestamps writeSeqs query).

(** ** Any codec *)
Fixpoint buildSamples (timestamps writeSeqs : list Z) (values : list FieldValue) : list VersionedSample :=
  match timestamps, writeSeqs, values with
  | t :: timestamps', w :: writeSeqs', v :: values' => mkSample t w v :: buildSamples timestamps' writeSeqs' values'
  | _, _, _ => []
  end.
Definition filterSamplesByTime (samples : list VersionedSample) (query : Query) : list VersionedSample :=
  List.filter (fun sample => in_query query (vs_Timestamp sample)) samples.
(** The last case only serves types without compressed values, for which
    [readCompressedValues] fails. *)
Definition readCodecPayloadSamples (fieldType codecID : Z) (timestamps writeSeqs : list Z) (query : Query)
    : reader (list VersionedSample) :=
  if codecID =? compressionPlain then readSamples fieldType timestamps writeSeqs query
  else if fieldType =? FieldFloat64 then readCompressedFloatSampleValues codecID timestamps writeSeqs query
  else if fieldType =? FieldInt64 then
    (if codecID =? compressionRLE then readDeltaRLEIntSampleValues codecID timestamps writeSeqs query
     else readDeltaIntSampleValues codecID timestamps writeSeqs query)
  else if fieldType =? FieldString then readDictionaryStringSampleValues codecID timestamps writeSeqs query
  else
    values ← readCompressedValues fieldType codecID (len timestamps);
    mret (filterSamplesByTime (buildSamples timestamps writeSeqs values) query).
