(* ===== verification/SstSamplesProofs.v ===== *)
(** * The query paths agree with decoding the whole page *)
From S2P Require Import Prelude GoBinary Model Codec Readers SstTime SstTimeProofs Float64 SstValues SstValuesProofs SstSamples.
From stdpp Require Import prelude strings list gmap.
From Stdlib Require Import ZArith Lia.
#[local] Open Scope Z_scope.

(** The samples of a page that lie in the queried interval. *)
Definition collect (query : Query) (timestamps writeSeqs : list Z) (values : list FieldValue)
    : list VersionedSample := filterSamplesByTime (buildSamples timestamps writeSeqs values) query.
Lemma collect_cons query t ts w ws v vs :
  collect query (t :: ts) (w :: ws) (v :: vs) = appendCompressedSample query t w v ++ collect query ts ws vs.
Proof.
  unfold collect, filterSamplesByTime, appendCompressedSample. simpl. by destruct (in_query query t).
Qed.
Lemma sampleIf_cons query t w ws v : sampleIf query t (w :: ws) v = Ok (appendCompressedSample query t w v).
Proof. unfold sampleIf, appendCompressedSample. by destruct (in_query query t). Qed.
Lemma appendCompressedSamples_collect query ts ws vs : length ws = length ts -> (length vs <= length ts)%nat ->
  appendCompressedSamples query ts ws vs = Ok (collect query ts ws vs).
Proof.
  revert ts ws. induction vs as [|v vs IH]; intros [|t ts] [|w ws] Hl Hv; simpl in Hl, Hv; try lia; try done.
  simpl. rewrite IH by lia. simpl. by rewrite collect_cons.
Qed.
Lemma collect_app query ts ws vs1 vs2 :
  collect query ts ws (vs1 ++ vs2)
  = collect query ts ws vs1 ++ collect query (drop (length vs1) ts) (drop (length vs1) ws) vs2.
Proof.
  revert ts ws. induction vs1 as [|v vs1 IH]; intros ts ws; [by destruct ts, ws|].
  destruct ts as [|t ts]; [done|]. destruct ws as [|w ws]; [by simpl; destruct (drop (length vs1) ts)|].
  simpl app. rewrite !collect_cons, IH. by rewrite (assoc_L (++)).
Qed.
Lemma collect_map query ts ws vs (f : FieldValue -> FieldValue) :
  map (fun s => mkSample (vs_Timestamp s) (vs_WriteSeq s) (f (vs_Value s))) (collect query ts ws vs)
  = collect query ts ws (map f vs).
Proof.
  revert ts ws. induction vs as [|v vs IH]; intros [|t ts] [|w ws]; try done.
  simpl. rewrite !collect_cons, map_app, IH. f_equal. unfold appendCompressedSample. by destruct (in_query query t).
Qed.

(** Readers that agree on every input. *)
Definition req {A} (m1 m2 : reader A) : Prop := forall s, m1 s = m2 s.
#[export] Instance req_equiv {A} : Equivalence (@req A).
Proof. split; [by intros m s|by intros m1 m2 H s|]. intros m1 m2 m3 H1 H2 s. by rewrite H1. Qed.
Lemma req_bind {A B} (m : reader A) (k1 k2 : A -> reader B) :
  (forall a, req (k1 a) (k2 a)) -> req (m ≫= k1) (m ≫= k2).
Proof. intros H s. unfold mbind, reader_bind. destruct (m s) as [[a s']| |]; [apply H|done|done]. Qed.
#[export] Instance req_bind_proper {A B} :
  Proper (pointwise_relation A (@req B) ==> (@req A) ==> (@req B)) (@mbind reader _ A B).
Proof.
  intros k1 k2 Hk m1 m2 Hm s. unfold mbind, reader_bind. rewrite Hm.
  destruct (m2 s) as [[a s']| |]; [apply Hk|done|done].
Qed.
Lemma req_assoc {A B C} (m : reader A) (k1 : A -> reader B) (k2 : B -> reader C) :
  req ((m ≫= k1) ≫= k2) (m ≫= fun a => k1 a ≫= k2).
Proof. intros s. unfold mbind, reader_bind. by destruct (m s) as [[a s']| |]. Qed.
Lemma req_ret {A B} (a : A) (k : A -> reader B) : req (mret a ≫= k) (k a).
Proof. by intros s. Qed.
Lemma req_fail {A B} e (k : A -> reader B) : req (rfail e ≫= k) (rfail e).
Proof. by intros s. Qed.
Lemma req_lift_ok {A B} (a : A) (k : A -> reader B) : req (lift (Ok a) ≫= k) (k a).
Proof. by intros s. Qed.
Lemma req_make {B} elemSize n (k : unit -> reader B) : 0 <= n -> elemSize * n <= maxAlloc ->
  req (rmake elemSize n ≫= k) (k tt).
Proof. intros ?? s. unfold rmake, mbind, reader_bind, lift. by rewrite make_slice_ok. Qed.
Lemma req_if {A} (b : bool) (m1 m2 n1 n2 : reader A) :
  (b = true -> req m1 n1) -> (b = false -> req m2 n2) -> req (if b then m1 else m2) (if b then n1 else n2).
Proof. destruct b; auto. Qed.

(** [collected read ts ws q]: decode all values, then filter. *)
Definition collected (values : reader (list FieldValue)) (timestamps writeSeqs : list Z) (query : Query)
    : reader (list VersionedSample) := vs ← values; mret (collect query timestamps writeSeqs vs).
#[export] Instance collected_proper : Proper (req ==> eq ==> eq ==> eq ==> req) collected.
Proof. intros m1 m2 Hm ts ? <- ws ? <- q ? <-. unfold collected. by rewrite Hm. Qed.
(** One value in front of the others. *)
Lemma collected_step {A} (m : reader A) (f : A -> FieldValue) (g : A -> reader (list FieldValue)) t ts w ws query :
  req (collected (a ← m; rest ← g a; mret (f a :: rest)) (t :: ts) (w :: ws) query)
      (a ← m; rest ← collected (g a) ts ws query; mret (appendCompressedSample query t w (f a) ++ rest)).
Proof.
  unfold collected. rewrite req_assoc. apply req_bind. intros a. rewrite !req_assoc. apply req_bind. intros vs.
  rewrite !req_ret. by rewrite collect_cons.
Qed.

(** ** Plain columns *)
Lemma readSamplesLoop_collected {A} (read : reader A) (f : A -> FieldValue) ts ws query : length ws = length ts ->
  req (readSamplesLoop (v ← read; mret (f v)) ts ws query)
      (collected (vs ← read_n (length ts) read; mret (map f vs)) ts ws query).
Proof.
  revert ws. induction ts as [|t ts IH]; intros [|w ws] Hl; simpl in Hl; try lia; [done|].
  cbn [readSamplesLoop length read_n tail]. rewrite req_assoc.
  transitivity (collected (a ← read; rest ← (vs ← read_n (length ts) read; mret (map f vs)); mret (f a :: rest))
    (t :: ts) (w :: ws) query).
  - rewrite collected_step. apply req_bind. intros a. rewrite req_ret, sampleIf_cons, req_lift_ok.
    by rewrite IH by lia.
  - apply collected_proper; [|done|done|done]. rewrite req_assoc. apply req_bind. intros a.
    rewrite !req_assoc. apply req_bind. intros vs. by rewrite !req_ret.
Qed.
Lemma boolSamplesLoop_collect bools ts ws query : length ws = length ts -> length bools = length ts ->
  boolSamplesLoop bools ts ws query = Ok (collect query ts ws (map BoolValue bools)).
Proof.
  revert ws bools. induction ts as [|t ts IH]; intros [|w ws] [|b bools] Hl Hb; simpl in Hl, Hb; try lia; [done|].
  cbn [boolSamplesLoop tail map]. rewrite IH by lia. rewrite collect_cons.
  unfold appendCompressedSample. simpl. by destruct (in_query query t).
Qed.
Lemma readSamples_collected fieldType ts ws query : length ws = length ts -> fits (len ts) ->
  req (readSamples fieldType ts ws query) (collected (readValues fieldType (len ts)) ts ws query).
Proof.
  intros Hl Hf. unfold readSamples, readValues. repeat case_match.
  - unfold readFloatSamples, readFloatValues. rewrite !req_make by (unfold sampleSize; alloc_lia).
    unfold len. rewrite Nat2Z.id. by apply readSamplesLoop_collected.
  - unfold readIntSamples, readIntValues. rewrite !req_make by (unfold sampleSize; alloc_lia).
    unfold len. rewrite Nat2Z.id. by apply readSamplesLoop_collected.
  - unfold readBoolSamples, readBoolValues, collected. rewrite req_assoc. intros s.
    unfold readBools, mbind at 1 3, reader_bind at 1 3. destruct (ReadBoolBits (len ts) s) as [[bools s']| |] eqn:Hr; [|done|done].
    cbn [wrapErr]. assert (length bools = length ts) as Hb.
    { unfold ReadBoolBits in Hr. repeat case_match; try done. destruct (make_slice 1 (len ts)); [|done|done].
      injection Hr as <- _. rewrite length_map, length_seq. unfold len. lia. }
    clear Hr. revert s'. fold (req (rmake sampleSize (len ts) ≫= fun _ => lift (boolSamplesLoop bools ts ws query))
      ((rmake 48 (len ts) ≫= fun _ => mret (map BoolValue bools)) ≫= fun vs => mret (collect query ts ws vs))).
    rewrite !req_make by (unfold sampleSize; alloc_lia). by rewrite boolSamplesLoop_collect.
  - unfold readStringSamples, readStringValues. rewrite !req_make by (unfold sampleSize; alloc_lia).
    unfold len. rewrite Nat2Z.id. by apply readSamplesLoop_collected.
  - unfold collected. by rewrite req_fail.
Qed.

(** ** Integers *)
Lemma capacity_bounds count query : 0 <= count -> 0 <= compressedQueryCapacity count query <= count.
Proof.
  intros Hc. unfold compressedQueryCapacity. destruct (_ || _) eqn:E; [lia|]. cbv zeta.
  set (width := i64 _). zcase (width <=? 0); [simpl; lia|]. zcase (count <? width); simpl; lia.
Qed.
Lemma req_make_capacity {B} ts query (k : unit -> reader B) : fits (len (A := Z) ts) ->
  req (rmake sampleSize (compressedQueryCapacity (len ts) query) ≫= k) (k tt).
Proof.
  intros Hf. pose proof (capacity_bounds (len ts) query ltac:(alloc_lia)). unfold sampleSize.
  apply req_make; alloc_lia.
Qed.
Lemma deltaIntSamplesLoop_collected prev ts ws query : length ws = length ts ->
  req (deltaIntSamplesLoop prev ts ws query)
      (collected (vs ← read_fold (length ts) (fun prev =>
        delta ← BlockReader.uvarint "int delta";
        let v := i64 (prev + unzigZag64 delta) in mret (v, v)) prev; mret (map Int64Value vs)) ts ws query).
Proof.
  revert prev ws. induction ts as [|t ts IH]; intros prev [|w ws] Hl; simpl in Hl; try lia; [done|].
  cbn [deltaIntSamplesLoop length read_fold tail]. unfold collected. rewrite !req_assoc. apply req_bind. intros delta.
  change (idx (w :: ws) 0) with (Ok w). rewrite req_lift_ok, IH by lia. unfold collected.
  cbv zeta. rewrite !req_assoc, req_ret. cbv beta iota. rewrite !req_assoc. apply req_bind. intros vs.
  rewrite !req_ret. simpl map. by rewrite collect_cons.
Qed.
Lemma readDeltaIntSampleValues_collected codecID ts ws query : length ws = length ts -> fits (len ts) ->
  req (readDeltaIntSampleValues codecID ts ws query)
      (collected (vs ← readDeltaInts codecID (len ts); mret (map Int64Value vs)) ts ws query).
Proof.
  intros Hl Hf. unfold readDeltaIntSampleValues, readDeltaInts, collected.
  destruct (negb _); [by rewrite !req_fail|]. rewrite req_make_capacity by done.
  rewrite !req_assoc, req_make by alloc_lia.
  destruct ts as [|t ts], ws as [|w ws]; simpl in Hl; try lia; [done|].
  rewrite (proj2 (Z.eqb_neq (len (t :: ts)) 0)) by (unfold len; simpl length; lia).
  replace (Z.to_nat (len (t :: ts) - 1)) with (length ts) by (unfold len; simpl length; lia).
  rewrite !req_assoc. apply req_bind. intros prev. change (idx (w :: ws) 0) with (Ok w).
  rewrite req_lift_ok. simpl tail. rewrite deltaIntSamplesLoop_collected by lia. unfold collected.
  rewrite !req_assoc. apply req_bind. intros vs. rewrite !req_ret. simpl map. by rewrite collect_cons.
Qed.

Lemma uvarint_loop_nonneg buf i x s : 0 <= x -> 0 <= (uvarint_loop buf i x s).1.
Proof.
  revert i x s. induction buf as [|b buf IH]; intros i x s Hx; simpl; [done|].
  assert (forall z, 0 <= Z.lor x (u64 z)) as Hlor.
  { intros z. apply Z.lor_nonneg. split; [done|]. apply u64_range. }
  repeat case_match; simpl; try lia; [apply Hlor|apply IH, Hlor].
Qed.
Lemma req_bind_uvarint {B} e (k1 k2 : Z -> reader B) :
  (forall a, 0 <= a -> req (k1 a) (k2 a)) -> req (rd_uvarint e ≫= k1) (rd_uvarint e ≫= k2).
Proof.
  intros H s. unfold mbind, reader_bind, rd_uvarint. pose proof (uvarint_loop_nonneg s 0 0 0 ltac:(lia)) as Hn.
  unfold Uvarint. destruct (uvarint_loop s 0 0 0) as [value size]. destruct (size <=? 0); [done|]. by apply H.
Qed.
Lemma rleIntSamplesLoop_collected fuel prev ts ws query : length ws = length ts ->
  req (rleIntSamplesLoop fuel prev ts ws query)
      (collected (vs ← readRuns fuel i64 "int" (len ts) prev; mret (map Int64Value vs)) ts ws query).
Proof.
  revert prev ts ws. induction fuel as [|fuel IH]; intros prev ts ws Hl; [done|].
  cbn [rleIntSamplesLoop readRuns]. unfold collected.
  zcase (len ts <=? 0); [rewrite !req_ret; by destruct ts|].
  rewrite !req_assoc. apply req_bind_uvarint. intros run64 Hpos. destruct (run64 =? 0); [by rewrite !req_fail|].
  rewrite !req_assoc. apply req_bind. intros delta. zcase (len ts <? run64); [by rewrite !req_fail|].
  set (run := Z.to_nat run64). set (out := expandRun i64 run prev (unzigZag64 delta)).
  assert (length out = run) as Hout by apply expandRun_length.
  assert (run <= length ts)%nat as Hrun by (unfold run, len in *; lia).
  rewrite appendCompressedSamples_collect by (rewrite ?length_map; lia). rewrite req_lift_ok.
  rewrite IH by (rewrite !length_drop; lia). unfold collected. rewrite !req_assoc.
  replace (len (drop run ts)) with (len ts - run64) by (unfold len, run in *; rewrite length_drop; lia).
  apply req_bind. intros vs. rewrite !req_ret, map_app, collect_app, length_map, Hout. done.
Qed.
Lemma readDeltaRLEIntSampleValues_collected codecID ts ws query : length ws = length ts -> fits (len ts) ->
  req (readDeltaRLEIntSampleValues codecID ts ws query)
      (collected (vs ← readDeltaRLEInts codecID (len ts); mret (map Int64Value vs)) ts ws query).
Proof.
  intros Hl Hf. unfold readDeltaRLEIntSampleValues, readDeltaRLEInts, collected.
  destruct (negb _); [by rewrite !req_fail|]. rewrite req_make_capacity by done.
  rewrite !req_assoc, req_make by alloc_lia.
  destruct ts as [|t ts], ws as [|w ws]; simpl in Hl; try lia; [done|].
  rewrite (proj2 (Z.eqb_neq (len (t :: ts)) 0)) by (unfold len; simpl length; lia).
  replace (len (t :: ts) - 1) with (len ts) by (unfold len; simpl length; lia).
  rewrite !req_assoc. apply req_bind. intros prev. change (idx (w :: ws) 0) with (Ok w).
  rewrite req_lift_ok. simpl tail.
  assert (req (sized (fun fuel => rleIntSamplesLoop fuel prev ts ws query))
    (collected (vs ← sized (fun fuel => readRuns fuel i64 "int" (len ts) prev); mret (map Int64Value vs)) ts ws query)) as ->.
  { intros s. unfold sized at 1. rewrite rleIntSamplesLoop_collected by lia. done. }
  unfold collected. rewrite !req_assoc. apply req_bind. intros vs. rewrite !req_ret. simpl map.
  by rewrite collect_cons.
Qed.

(** ** Floats *)
Lemma readFloatIntSampleValues_collected codecID ts ws query : length ws = length ts -> fits (len ts) ->
  req (readFloatIntSampleValues codecID ts ws query) (collected (readFloatIntValues codecID (len ts)) ts ws query).
Proof.
  intros Hl Hf. unfold readFloatIntSampleValues, readFloatIntValues.
  assert (forall m ints, req m (collected (vs ← ints; mret (map Int64Value vs)) ts ws query) ->
    req (intSamples ← m; mret (map intSampleAsFloat intSamples))
        (collected (vs ← ints; mret (map (fun v => Float64Value (f_of_int v)) vs)) ts ws query)) as H.
  { intros m ints ->. unfold collected. rewrite !req_assoc. apply req_bind. intros vs. rewrite !req_ret.
    rewrite <- (map_map Int64Value (fun v => Float64Value (f_of_int (fv_Int64 v)))).
    by rewrite <- collect_map. }
  repeat case_match; apply H.
  - by apply readDeltaIntSampleValues_collected.
  - by apply readDeltaRLEIntSampleValues_collected.
  - unfold collected. by rewrite !req_fail.
Qed.
Lemma constStepSamplesLoop_collect params index ts ws query : length ws = length ts ->
  constStepSamplesLoop params index ts ws query
  = Ok (collect query ts ws (map (fun i => Float64Value (floatConstStepValue params i)) (seq index (length ts)))).
Proof.
  revert index ws. induction ts as [|t ts IH]; intros index [|w ws] Hl; simpl in Hl; try lia; [done|].
  cbn [constStepSamplesLoop tail length seq map]. rewrite sampleIf_cons, IH by lia. by rewrite collect_cons.
Qed.
Lemma readFloatConstStepSampleValues_collected codecID ts ws query : length ws = length ts -> fits (len ts) ->
  req (readFloatConstStepSampleValues codecID ts ws query)
      (collected (readFloatConstStepValues codecID (len ts)) ts ws query).
Proof.
  intros Hl Hf. unfold readFloatConstStepSampleValues, readFloatConstStepValues, collected.
  destruct (negb _); [by rewrite req_fail|]. zcase (len ts =? 0).
  { destruct ts; [by rewrite req_ret|unfold len in E; simpl in E; lia]. }
  rewrite req_assoc. apply req_bind. intros params. rewrite req_make_capacity, req_make by alloc_lia.
  rewrite constStepSamplesLoop_collect by done. unfold len. by rewrite Nat2Z.id.
Qed.
Lemma gorillaSamplesLoop_collect r prev l t ts ws query : length ws = length ts ->
  gorillaSamplesLoop r prev l t ts ws query
  = ('(vs, r) ← readGorillaLoop (length ts) r prev l t; Ok (collect query ts ws (map Float64Value vs), r)).
Proof.
  revert r prev l t ws. induction ts as [|x ts IH]; intros r prev l t [|w ws] Hl; simpl in Hl; try lia; [done|].
  cbn [gorillaSamplesLoop length readGorillaLoop tail].
  destruct (readGorillaNext r prev l t) as [[[next [l' t']] r']| |]; simpl; [|done|done].
  rewrite IH by lia. destruct (readGorillaLoop _ _ _ _ _) as [[vs r'']| |]; simpl; [|done|done].
  by rewrite collect_cons.
Qed.
Lemma readGorillaFloatSampleValues_collected codecID ts ws query : length ws = length ts -> fits (len ts) ->
  req (readGorillaFloatSampleValues codecID ts ws query)
      (collected (readGorillaFloatValues codecID (len ts)) ts ws query).
Proof.
  intros Hl Hf. unfold readGorillaFloatSampleValues, readGorillaFloatValues, collected.
  destruct (negb _); [by rewrite req_fail|]. rewrite req_make_capacity by done.
  rewrite req_assoc, req_make by alloc_lia.
  destruct ts as [|t ts], ws as [|w ws]; simpl in Hl; try lia; [done|].
  rewrite (proj2 (Z.eqb_neq (len (t :: ts)) 0)) by (unfold len; simpl length; lia).
  rewrite req_assoc. apply req_bind. intros first. cbv zeta. change (idx (w :: ws) 0) with (Ok w).
  rewrite req_lift_ok. zcase (len (t :: ts) =? 1).
  { destruct ts; [|unfold len in E; simpl in E; lia]. rewrite req_ret, collect_cons. by rewrite app_nil_r. }
  intros s. unfold readGorillaSampleStream, readGorillaStream, mbind at 1 4, reader_bind.
  replace (Z.to_nat (len (t :: ts) - 1)) with (length ts) by (unfold len; simpl length; lia). simpl tail.
  rewrite gorillaSamplesLoop_collect by lia.
  destruct (readGorillaLoop _ _ _ _ _) as [[vs r]| |]; simpl; [|done|done].
  destruct (consumeAligned r s) as [[[] rest]| |]; simpl; [|done|done]. by rewrite collect_cons.
Qed.

(** ** Strings *)
Lemma dictSamplesLoop_collect dict ordinals ts ws query : length ws = length ts -> length ordinals = length ts ->
  dictSamplesLoop dict ordinals ts ws query
  = (vs ← mapM (dictValue dict) ordinals; Ok (collect query ts ws vs)).
Proof.
  revert ordinals ws. induction ts as [|t ts IH]; intros [|o ordinals] [|w ws] Hl Ho; simpl in Hl, Ho; try lia; [done|].
  cbn [dictSamplesLoop tail mapM]. change (idx (o :: ordinals) 0) with (Ok o). cbn [mbind outcome_bind].
  destruct (dictValue dict o) as [v| |]; cbn [mbind outcome_bind]; [|done|done].
  rewrite sampleIf_cons. cbn [mbind outcome_bind]. rewrite IH by lia.
  destruct (mapM (dictValue dict) ordinals) as [vs| |]; simpl; [|done|done]. by rewrite collect_cons.
Qed.
(** Readers whose lists have a known length. *)
Definition counts {A} (m : reader (list A)) (n : nat) : Prop := forall s l s', m s = Ok (l, s') -> length l = n.
Lemma counts_bind {A B} (m : reader A) (k : A -> reader (list B)) n :
  (forall a, counts (k a) n) -> counts (m ≫= k) n.
Proof.
  intros Hk s l s' H. unfold mbind, reader_bind in H. destruct (m s) as [[a s1]| |]; [|done|done]. by eapply Hk.
Qed.
Lemma counts_ret {A} (l : list A) : counts (mret l) (length l).
Proof. intros s l' s' [= <- <-]. done. Qed.
Lemma counts_fail {A} e n : counts (rfail (A := list A) e) n.
Proof. by intros s l s'. Qed.
Lemma counts_read_n {A} n (m : reader A) : counts (read_n n m) n.
Proof.
  induction n as [|n IH]; [apply (counts_ret [])|]. simpl. apply counts_bind. intros a s l s' H.
  unfold mbind, reader_bind in H. destruct (read_n n m s) as [[l1 s1]| |] eqn:Hr; [|done|done].
  injection H as <- <-. simpl. f_equal. by eapply IH.
Qed.
Lemma counts_readRuns fuel wrap name remaining prev : 0 <= remaining ->
  counts (readRuns fuel wrap name remaining prev) (Z.to_nat remaining).
Proof.
  revert remaining prev. induction fuel as [|fuel IH]; intros remaining prev Hr; [apply counts_fail|].
  cbn [readRuns]. zcase (remaining <=? 0); [assert (remaining = 0) as -> by lia; apply (counts_ret [])|].
  intros s l s' H. unfold mbind at 1, reader_bind at 1, BlockReader.uvarint, rd_uvarint in H.
  pose proof (uvarint_loop_nonneg s 0 0 0 ltac:(lia)) as Hn. unfold Uvarint in H at 1.
  destruct (uvarint_loop s 0 0 0) as [run64 size]. destruct (size <=? 0); [done|].
  destruct (run64 =? 0); [done|]. revert H. apply counts_bind. intros delta. zcase (remaining <? run64); [apply counts_fail|].
  intros s1 l1 s1' H1. unfold mbind, reader_bind in H1.
  destruct (readRuns _ _ _ _ _ _) as [[l2 s2]| |] eqn:Hrr; [|done|done]. injection H1 as <- <-.
  apply IH in Hrr; [|lia]. rewrite length_app, expandRun_length, Hrr. simpl in Hn. lia.
Qed.
Lemma counts_readOrdinals mode count : 0 <= count -> counts (readOrdinals mode count) (Z.to_nat count).
Proof.
  intros Hc. unfold readOrdinals. repeat case_match; try apply counts_fail.
  - zcase (count =? 0); [|done]. subst. apply (counts_ret []).
  - apply counts_bind. intros _ s l s' [= <- <-]. apply length_replicate.
  - apply counts_bind. intros _. apply counts_read_n.
  - unfold readRLEOrdinals. zcase (count =? 0); [subst; apply (counts_ret [])|].
    apply counts_bind. intros first. apply counts_bind. intros _ s l s' Hs.
    unfold mbind, reader_bind, sized in Hs. destruct (readRuns _ _ _ _ _ _) as [[l2 s2]| |] eqn:Hrr; [|done|done].
    injection Hs as <- <-. apply counts_readRuns in Hrr; [|lia]. simpl. lia.
Qed.
Lemma readDictionaryStringSampleValues_collected codecID ts ws query : length ws = length ts -> fits (len ts) ->
  req (readDictionaryStringSampleValues codecID ts ws query)
      (collected (readDictionaryStringValues codecID (len ts)) ts ws query).
Proof.
  intros Hl Hf. unfold readDictionaryStringSampleValues, readDictionaryStringValues, collected.
  destruct (negb _); [by rewrite req_fail|]. rewrite req_assoc. apply req_bind. intros [dict mode].
  unfold readStringDictionaryOrdinals. rewrite req_assoc. intros s. unfold mbind at 1 3, reader_bind at 1 3.
  destruct (readOrdinals mode (len ts) s) as [[ordinals s']| |] eqn:Ho; [|done|done].
  apply counts_readOrdinals in Ho; [|alloc_lia]. unfold len in Ho. rewrite Nat2Z.id in Ho. revert s'.
  fold (req (rmake sampleSize (compressedQueryCapacity (len ts) query) ≫= fun _ => lift (dictSamplesLoop dict ordinals ts ws query))
    ((rmake 48 (len ts) ≫= fun _ => lift (mapM (dictValue dict) ordinals)) ≫= fun vs => mret (collect query ts ws vs))).
  rewrite req_make_capacity, req_make by alloc_lia. rewrite dictSamplesLoop_collect by lia. intros s'.
  unfold lift, mbind at 2, reader_bind. by destruct (mapM (dictValue dict) ordinals).
Qed.

Lemma readCodecPayloadSamples_req fieldType codecID ts ws query : length ws = length ts -> fits (len ts) ->
  req (readCodecPayloadSamples fieldType codecID ts ws query)
    (collected (readCompressedValues fieldType codecID (len ts)) ts ws query).
Proof.
  intros Hl Hf.
  unfold readCodecPayloadSamples, readCompressedValues, readCompressedFloatSampleValues, readCompressedFloatValues.
  repeat case_match; try (unfold collected; by rewrite ?req_fail).
  - by apply readSamples_collected.
  - by apply readGorillaFloatSampleValues_collected.
  - by apply readFloatConstStepSampleValues_collected.
  - by apply readFloatIntSampleValues_collected.
  - by apply readDeltaRLEIntSampleValues_collected.
  - by apply readDeltaIntSampleValues_collected.
  - by apply readDictionaryStringSampleValues_collected.
Qed.

(** C26: on arbitrary bytes, the sample reader of every codec returns what the value
    reader returns filtered by time, and fails with the same error. *)
Theorem readCodecPayloadSamples_reference fieldType codecID ts ws query payload :
  length ws = length ts -> fits (len ts) ->
  readCodecPayloadSamples fieldType codecID ts ws query payload
  = (values ← readCompressedValues fieldType codecID (len ts);
     mret (filterSamplesByTime (buildSamples ts ws values) query) : reader _) payload.
Proof. intros. by apply readCodecPayloadSamples_req. Qed.
Lemma readCodecPayloadSamples_reference_witness :
  readCodecPayloadSamples FieldInt64 compressionDelta [10; 20; 30] [1; 1; 2] (mkQuery 15 40)
    (appendDeltaIntValues [7; 9; 12])
  = Ok ([mkSample 20 1 (Int64Value 9); mkSample 30 2 (Int64Value 12)], []).
Proof. rewrite readCodecPayloadSamples_reference by by_decide. vm_compute. reflexivity. Defined.
