(* ===== verification/SstPage.v ===== *)
(** * SSTable value pages

    internal/sstable: compression.go and payload_compression.go (the compressed
    page), the windowed and the interleaved plain sample readers of
    compression_window.go and compression_values.go.  The plain page is in
    [SstPlain], the frames of blocks in [SstMeta]. *)
From S2P Require Import Prelude GoBinary Model Codec Readers SstTime Float64 SstValues SstSamples.
From stdpp Require Import prelude strings list gmap.
From Stdlib Require Import ZArith Lia.
#[local] Open Scope Z_scope.

(** ** Windows of a constant-step page *)
(** Row [index] of the page is row [index - start] of the window. *)
Definition windowSample (start : Z) (timestamps writeSeqs : list Z) (query : Query) (index value : Z)
    : outcome (list VersionedSample) :=
  let end_ := start + len timestamps in
  if (index <? start) || (end_ <=? index) then Ok []
  else
    let offset := index - start in
    timestamp ← idx timestamps offset;
    writeSeq ← idx writeSeqs offset;
    Ok (appendCompressedSample query timestamp writeSeq (Int64Value value)).
(** [if start == 0 { samples = append(..., timestamps[0], writeSeqs[0], ...) }] *)
Definition windowFirst (start : Z) (timestamps writeSeqs : list Z) (query : Query) (value : Z)
    : outcome (list VersionedSample) :=
  if start =? 0 then
    timestamp ← idx timestamps 0;
    writeSeq ← idx writeSeqs 0;
    Ok (appendCompressedSample query timestamp writeSeq (Int64Value value))
  else Ok [].
Fixpoint windowedDeltaLoop (n : nat) (index prev start : Z) (timestamps writeSeqs : list Z) (query : Query)
    : reader (list VersionedSample) :=
  match n with
  | O => mret []
  | S n' =>
      delta ← BlockReader.uvarint "int delta";
      let prev := i64 (prev + unzigZag64 delta) in
      here ← lift (windowSample start timestamps writeSeqs query index prev);
      rest ← windowedDeltaLoop n' (index + 1) prev start timestamps writeSeqs query;
      mret (here ++ rest)
  end.
Definition readWindowedDeltaInt (fullCount start : Z) (timestamps writeSeqs : list Z) (query : Query)
    : reader (list VersionedSample) :=
  if fullCount =? 0 then mret []
  else
    prev ← BlockReader.varint "first int value";
    _ ← rmake sampleSize (len timestamps);
    here ← lift (windowFirst start timestamps writeSeqs query prev);
    rest ← windowedDeltaLoop (Z.to_nat (fullCount - 1)) 1 prev start timestamps writeSeqs query;
    mret (here ++ rest).
(** The rows of one run. *)
Fixpoint windowRun (start : Z) (timestamps writeSeqs : list Z) (query : Query) (filled : Z) (out : list Z)
    : outcome (list VersionedSample) :=
  match out with
  | [] => Ok []
  | value :: out' =>
      here ← windowSample start timestamps writeSeqs query filled value;
      rest ← windowRun start timestamps writeSeqs query (filled + 1) out';
      Ok (here ++ rest)
  end.
Fixpoint windowedRLELoop (fuel : nat) (fullCount filled prev start : Z) (timestamps writeSeqs : list Z)
    (query : Query) : reader (list VersionedSample) :=
  match fuel with
  | O => rfail (Errorf "fuel exhausted")
  | S fuel' =>
      if fullCount <=? filled then mret []
      else
        run64 ← BlockReader.uvarint "int rle run";
        if run64 =? 0 then rfail (Errorf "int rle run must be > 0")
        else
          delta ← BlockReader.uvarint "int rle delta";
          if fullCount - filled <? run64 then rfail (Errorf "int rle overflow")
          else
            let out := expandRun i64 (Z.to_nat run64) prev (unzigZag64 delta) in
            here ← lift (windowRun start timestamps writeSeqs query filled out);
            rest ← windowedRLELoop fuel' fullCount (filled + run64) (default prev (last out))
                     start timestamps writeSeqs query;
            mret (here ++ rest)
  end.
Definition readWindowedDeltaRLEInt (fullCount start : Z) (timestamps writeSeqs : list Z) (query : Query)
    : reader (list VersionedSample) :=
  if fullCount =? 0 then mret []
  else
    prev ← BlockReader.varint "first int value";
    _ ← rmake sampleSize (len timestamps);
    here ← lift (windowFirst start timestamps writeSeqs query prev);
    rest ← sized (fun fuel => windowedRLELoop fuel fullCount 1 prev start timestamps writeSeqs query);
    mret (here ++ rest).
Definition readWindowedIntValues (codecID fullCount start : Z) (timestamps writeSeqs : list Z) (query : Query)
    : reader (list VersionedSample) :=
  if codecID =? compressionRLE then readWindowedDeltaRLEInt fullCount start timestamps writeSeqs query
  else if codecID =? compressionDelta then readWindowedDeltaInt fullCount start timestamps writeSeqs query
  else rfail (Errorf "unsupported windowed int codec").
Definition readWindowedFloatIntCodec (codecID fullCount start : Z) (timestamps writeSeqs : list Z) (query : Query)
    : reader (list VersionedSample) :=
  intSamples ← readWindowedIntValues codecID fullCount start timestamps writeSeqs query;
  mret (map intSampleAsFloat intSamples).
Definition readWindowedFloatConstStep (fullCount start : Z) (timestamps writeSeqs : list Z) (query : Query)
    : reader (list VersionedSample) :=
  if (fullCount =? 0) || (len timestamps =? 0) then mret []
  else
    params ← readFloatConstStepParams;
    _ ← rmake sampleSize (len timestamps);
    lift (constStepSamplesLoop params (Z.to_nat start) timestamps writeSeqs query).
Definition readWindowedFloatValues (codecID fullCount start : Z) (timestamps writeSeqs : list Z) (query : Query)
    : reader (list VersionedSample) :=
  if codecID =? compressionConstStep then readWindowedFloatConstStep fullCount start timestamps writeSeqs query
  else if (codecID =? compressionDelta) || (codecID =? compressionRLE)
  then readWindowedFloatIntCodec codecID fullCount start timestamps writeSeqs query
  else rfail (Errorf "unsupported windowed float codec").

Record codecPayload := mkCodecPayload {
  cp_codecID : Z;
  cp_payload : bytes;
}.
(** A reader on a payload of its own that has to use all of it. *)
Definition whole {A} (name : string) (m : reader A) (payload : bytes) : outcome A :=
  '(a, _) ← (a ← m; _ ← BlockReader.done name; mret a : reader A) payload; Ok a.

Definition readWindowedCodecValues (fieldType : Z) (values : codecPayload) (fullCount start : Z)
    (timestamps writeSeqs : list Z) (query : Query) : outcome (list VersionedSample) :=
  whole "values"
    (if fieldType =? FieldFloat64 then
       readWindowedFloatValues (cp_codecID values) fullCount start timestamps writeSeqs query
     else if fieldType =? FieldInt64 then
       readWindowedIntValues (cp_codecID values) fullCount start timestamps writeSeqs query
     else rfail (Errorf "unsupported windowed field type"))
    (cp_payload values).
Definition windowedCodec (fieldType codecID : Z) : bool :=
  if fieldType =? FieldFloat64 then
    (codecID =? compressionConstStep) || (codecID =? compressionDelta) || (codecID =? compressionRLE)
  else if fieldType =? FieldInt64 then (codecID =? compressionDelta) || (codecID =? compressionRLE)
  else false.
(** [None]: the window path does not apply. *)
Definition readConstStepWindowSamples (fieldType count : Z) (times writeSeqs values : codecPayload)
    (query : Query) : outcome (option (list VersionedSample)) :=
  '(timestamps, start) ← decodeConstStepTimestampsWindow (cp_payload times) count query;
  if len timestamps =? 0 then Ok (Some [])
  else if negb (cp_codecID writeSeqs =? compressionOmitted) then Ok None
  else if negb (windowedCodec fieldType (cp_codecID values)) then Ok None
  else
    _ ← make_slice 8 (len timestamps);
    let windowSeqs := replicate (length timestamps) 0 in
    samples ← readWindowedCodecValues fieldType values count start timestamps windowSeqs query;
    Ok (Some samples).

(** ** Three plain columns read in step *)
Definition nextPlainTimestamp (index : nat) (previous : Z) : reader Z :=
  match index with
  | O => BlockReader.fixedInt64 "first timestamp"
  | S _ => delta ← BlockReader.varint "timestamp delta"; mret (i64 (previous + delta))
  end.
Fixpoint plainSamplesLoop (n : nat) (index : nat) (read : reader FieldValue) (timestamp : Z) (query : Query)
    (times seqs values : bytes) : outcome (list VersionedSample * (bytes * bytes * bytes)) :=
  match n with
  | O => Ok ([], (times, seqs, values))
  | S n' =>
      '(timestamp, times) ← nextPlainTimestamp index timestamp times;
      '(writeSeq, seqs) ← BlockReader.uvarint "write seq" seqs;
      '(value, values) ← read values;
      '(rest, buffers) ← plainSamplesLoop n' (S index) read timestamp query times seqs values;
      Ok (appendCompressedSample query timestamp writeSeq value ++ rest, buffers)
  end.
(** [bits[index/8]] is only read for a row in the query. *)
Fixpoint plainBoolLoop (n : nat) (index : nat) (bits : bytes) (timestamp : Z) (query : Query)
    (times seqs : bytes) : outcome (list VersionedSample * (bytes * bytes)) :=
  match n with
  | O => Ok ([], (times, seqs))
  | S n' =>
      '(timestamp, times) ← nextPlainTimestamp index timestamp times;
      '(writeSeq, seqs) ← BlockReader.uvarint "write seq" seqs;
      here ← (if in_query query timestamp then
                _ ← idx bits (Z.of_nat index / 8); Ok [mkSample timestamp writeSeq (BoolValue (bitAt bits index))]
              else Ok []);
      '(rest, buffers) ← plainBoolLoop n' (S index) bits timestamp query times seqs;
      Ok (here ++ rest, buffers)
  end.
Definition readPlainCompressedBoolSamples (count : Z) (query : Query) (times seqs values : bytes)
    : outcome (list VersionedSample * (bytes * bytes * bytes)) :=
  let byteCount := Z.quot (i64 (count + 7)) 8 in
  if len values <? byteCount then Err (Errorf "read bool values: read bool bits: truncated payload")
  else if byteCount <? 0 then Panic IndexOutOfRange
  else
    let bits := take (Z.to_nat byteCount) values in
    _ ← make_slice sampleSize (compressedQueryCapacity count query);
    '(samples, (times, seqs)) ← plainBoolLoop (Z.to_nat count) 0 bits 0 query times seqs;
    Ok (samples, (times, seqs, drop (Z.to_nat byteCount) values)).
Definition readPlainCompressedSamplesOf (read : reader FieldValue) (count : Z) (query : Query)
    (times seqs values : bytes) : outcome (list VersionedSample * (bytes * bytes * bytes)) :=
  _ ← make_slice sampleSize (compressedQueryCapacity count query);
  plainSamplesLoop (Z.to_nat count) 0 read 0 query times seqs values.
Definition readPlainCompressedSamplesByType (fieldType count : Z) (query : Query) (times seqs values : bytes)
    : outcome (list VersionedSample * (bytes * bytes * bytes)) :=
  if fieldType =? FieldFloat64 then
    readPlainCompressedSamplesOf (value ← BlockReader.float64; mret (Float64Value value)) count query times seqs values
  else if fieldType =? FieldInt64 then
    readPlainCompressedSamplesOf (value ← BlockReader.varint "int value"; mret (Int64Value value)) count query times seqs values
  else if fieldType =? FieldBool then readPlainCompressedBoolSamples count query times seqs values
  else if fieldType =? FieldString then
    readPlainCompressedSamplesOf (value ← BlockReader.string "string value"; mret (StringValue value)) count query times seqs values
  else Err (Errorf "unsupported value block field type").
Definition readPlainCompressedSamples (fieldType count : Z) (timePayload writeSeqPayload valuePayload : bytes)
    (query : Query) : outcome (list VersionedSample) :=
  '(samples, (times, seqs, values)) ←
    readPlainCompressedSamplesByType fieldType count query timePayload writeSeqPayload valuePayload;
  _ ← BlockReader.done "timestamps" times;
  _ ← BlockReader.done "write seqs" seqs;
  _ ← BlockReader.done "values" values;
  Ok samples.

(** ** The samples of a compressed page *)
Definition readCompressedSamples (fieldType count : Z) (times writeSeqs values : codecPayload) (query : Query)
    : outcome (list VersionedSample) :=
  if (cp_codecID times =? compressionPlain) && (cp_codecID writeSeqs =? compressionPlain)
     && (cp_codecID values =? compressionPlain)
  then readPlainCompressedSamples fieldType count (cp_payload times) (cp_payload writeSeqs) (cp_payload values) query
  else
    window ← (if cp_codecID times =? compressionConstStep
              then readConstStepWindowSamples fieldType count times writeSeqs values query else Ok None);
    match window with
    | Some samples => Ok samples
    | None =>
        timestamps ← decodeCodecTimestamps (cp_codecID times) (cp_payload times) count;
        seqs ← decodeWriteSeqs (cp_codecID writeSeqs) (cp_payload writeSeqs) count;
        whole "values" (readCodecPayloadSamples fieldType (cp_codecID values) timestamps seqs query) (cp_payload values)
    end.

(** ** Payload compression

    Snappy, LZ4 and Zstandard are third-party packages: their block functions
    are operations of [PayloadLib], and [PayloadLaws] states that each
    decompressor inverts its compressor.  [lz4CompressBlock] returns the used
    part of the destination, empty when the input does not compress. *)
Class PayloadLib := {
  snappyEncode : bytes -> bytes;
  snappyDecode : bytes -> outcome bytes;
  lz4CompressBlockBound : Z -> Z;
  lz4CompressBlock : bytes -> outcome bytes;
  lz4UncompressBlock : bytes -> Z -> outcome bytes;
  zstdEncodeAll : string -> bytes -> outcome bytes;
  zstdDecodeAll : bytes -> outcome bytes;
}.
Class PayloadLaws (lib : PayloadLib) := {
  snappy_decode_encode p : snappyDecode (snappyEncode p) = Ok p;
  lz4_uncompress_compress p c : lz4CompressBlock p = Ok c -> c <> [] -> lz4UncompressBlock c (len p) = Ok p;
  zstd_decode_encode level p c : zstdEncodeAll level p = Ok c -> zstdDecodeAll c = Ok p;
}.

Definition payloadCompressionNone : Z := 0.
Definition payloadCompressionSnappy : Z := 1.
Definition payloadCompressionLZ4 : Z := 2.
Definition payloadCompressionZSTD : Z := 3.
Definition payloadCompressionAlgorithmID (algorithm : string) : outcome Z :=
  if bool_decide (algorithm = "" \/ algorithm = "none") then Ok payloadCompressionNone
  else if bool_decide (algorithm = "snappy") then Ok payloadCompressionSnappy
  else if bool_decide (algorithm = "lz4") then Ok payloadCompressionLZ4
  else if bool_decide (algorithm = "zstd") then Ok payloadCompressionZSTD
  else Err (Errorf "unknown payload compression algorithm").
(** [resolveZstdEncoderLevel]: the level by its name in the zstd package. *)
Definition resolveZstdEncoderLevel (level : string) : string :=
  if bool_decide (level = "fastest") then "SpeedFastest"
  else if bool_decide (level = "better") then "SpeedBetterCompression"
  else if bool_decide (level = "best") then "SpeedBestCompression"
  else "SpeedDefault".

Section Payload.
Context `{lib : PayloadLib}.

Definition encodeLZ4 (payload : bytes) : outcome (Z * bytes) :=
  stored ← lz4CompressBlock payload;
  if len stored =? 0 then Ok (payloadCompressionNone, payload) else Ok (payloadCompressionLZ4, stored).
Definition encodeZSTD (payload : bytes) (level : string) : outcome bytes :=
  zstdEncodeAll (resolveZstdEncoderLevel level) payload.
Definition compressPayload (algorithmID : Z) (payload : bytes) (zstdLevel : string) : outcome (Z * bytes) :=
  if algorithmID =? payloadCompressionNone then Ok (payloadCompressionNone, payload)
  else if algorithmID =? payloadCompressionSnappy then Ok (payloadCompressionSnappy, snappyEncode payload)
  else if algorithmID =? payloadCompressionLZ4 then encodeLZ4 payload
  else if algorithmID =? payloadCompressionZSTD then
    encoded ← encodeZSTD payload zstdLevel; Ok (payloadCompressionZSTD, encoded)
  else Err (Errorf "unknown payload compression id").
Definition decodeLZ4 (payload : bytes) (rawSize : Z) : outcome bytes :=
  _ ← make_slice 1 rawSize; lz4UncompressBlock payload rawSize.
Definition decodeZSTD (payload : bytes) (rawSize : Z) : outcome bytes :=
  _ ← make_slice 1 rawSize; zstdDecodeAll payload.
Definition decompressPayload (algorithmID : Z) (payload : bytes) (rawSize : Z) : outcome bytes :=
  decoded ← (if algorithmID =? payloadCompressionNone then Ok payload
             else if algorithmID =? payloadCompressionSnappy then
               (_ ← make_slice 1 rawSize; snappyDecode payload)
             else if algorithmID =? payloadCompressionLZ4 then decodeLZ4 payload rawSize
             else if algorithmID =? payloadCompressionZSTD then decodeZSTD payload rawSize
             else Err (Errorf "unknown payload compression id"));
  if negb (len decoded =? rawSize) then Err (Errorf "decoded size does not match raw size") else Ok decoded.

(** A budget is the call [ReserveCompressionBytes]; what it reserves is
    released when the payload has been written. *)
Definition estimatePayloadCompressionBytes (algorithmID payloadBytes : Z) : Z :=
  if algorithmID =? payloadCompressionSnappy then i64 (payloadBytes * 2 + 64)
  else if algorithmID =? payloadCompressionLZ4 then i64 (lz4CompressBlockBound payloadBytes + payloadBytes)
  else if algorithmID =? payloadCompressionZSTD then i64 (payloadBytes * 3 + Z.shiftl 1 20)
  else payloadBytes.
Definition reservePayloadCompressionMemory (budget : option (Z -> outcome unit)) (algorithmID payloadBytes : Z)
    : outcome unit :=
  match budget with
  | None => Ok tt
  | Some reserve =>
      if (algorithmID =? payloadCompressionNone) || (payloadBytes <=? 0) then Ok tt
      else reserve (estimatePayloadCompressionBytes algorithmID payloadBytes)
  end.
Definition appendCodecPayloadWithCompression (codec : Z) (payload : bytes) (algorithm zstdLevel : string)
    (budget : option (Z -> outcome unit)) : outcome bytes :=
  algorithmID ← payloadCompressionAlgorithmID algorithm;
  _ ← reservePayloadCompressionMemory budget algorithmID (len payload);
  '(storedAlgorithmID, stored) ← compressPayload algorithmID payload zstdLevel;
  Ok ([codec; storedAlgorithmID] ++ appendUvarint (len payload) ++ appendUvarint (len stored) ++ stored).

Definition readPayloadSize : reader Z :=
  rd_intCount (Errorf "decode sstable size: invalid uvarint") (Errorf "decode sstable size: count overflows int").
Definition takeStored (storedSize : Z) : reader bytes := fun rest =>
  if len rest <? storedSize then Err (Errorf "decode sstable: truncated payload")
  else Ok (take (Z.to_nat storedSize) rest, drop (Z.to_nat storedSize) rest).
Definition readCodecPayload : reader codecPayload :=
  codecID ← rd_byte (Errorf "decode sstable codec: missing byte");
  algorithmID ← rd_byte (Errorf "decode sstable payload compression: missing byte");
  rawSize ← readPayloadSize;
  storedSize ← readPayloadSize;
  payload ← takeStored storedSize;
  decoded ← lift (wrapErr "decode sstable payload" (decompressPayload algorithmID payload rawSize));
  mret (mkCodecPayload codecID decoded).

(** ** The compressed page *)
Definition valueEncodingPagePlain : Z := 3.
Definition valueEncodingPageIndex : Z := 4.
Definition valueEncodingPageCompressed : Z := 5.
Record valueHeader := mkValueHeader {
  vh_fieldID : Z;
  vh_fieldType : Z;
  vh_count : Z;
}.
Record valueBlock := mkValueBlock {
  vb_Encoding : string;
  vb_FieldID : Z;
  vb_FieldType : Z;
  vb_Samples : list VersionedSample;
}.
Definition appendSampleWriteSeqsPayloadWithCompression (samples : list VersionedSample)
    (algorithm zstdLevel : string) (omitWriteSeq : bool) (budget : option (Z -> outcome unit)) : outcome bytes :=
  if omitWriteSeq then appendCodecPayloadWithCompression compressionOmitted [] algorithm zstdLevel budget
  else
    let '(codecID, payload) := encodeWriteSeqs (map vs_WriteSeq samples) in
    appendCodecPayloadWithCompression codecID payload algorithm zstdLevel budget.
Definition marshalCompressedValueBlock (column : ColumnData) (opts : CompressionOptions)
    (budget : option (Z -> outcome unit)) : outcome bytes :=
  let samples := cd_Samples column in
  let '(timeCodec, timePayload) := encodeSampleTimestamps samples (co_Timestamp opts) in
  '(valueCodec, valuePayload) ← encodeTypedValues (cd_FieldType column) (map vs_Value samples) opts;
  let head := [valueEncodingPageCompressed] ++ appendUvarint (cd_FieldID column) ++ [u8 (cd_FieldType column)]
              ++ appendUvarint (len samples) in
  times ← appendCodecPayloadWithCompression timeCodec timePayload (co_Algorithm opts) (co_ZstdLevel opts) budget;
  seqs ← appendSampleWriteSeqsPayloadWithCompression samples (co_Algorithm opts) (co_ZstdLevel opts)
           (co_OmitWriteSeq opts) budget;
  values ← appendCodecPayloadWithCompression valueCodec valuePayload (co_Algorithm opts) (co_ZstdLevel opts) budget;
  Ok (head ++ times ++ seqs ++ values).

(** readValueHeader and readCompressedValueHeader differ in the page kind they expect. *)
Definition readHeaderOf (kind : Z) : reader valueHeader :=
  encoding ← BlockReader.byte "value encoding";
  if negb (encoding =? kind) then rfail (Errorf "unknown value encoding")
  else
    fieldID ← BlockReader.uint32 "field id";
    fieldType ← BlockReader.byte "field type";
    count ← BlockReader.intCount "sample count";
    mret (mkValueHeader fieldID fieldType count).
Definition readCompressedValueHeader : reader valueHeader := readHeaderOf valueEncodingPageCompressed.
Definition readValueHeader : reader valueHeader := readHeaderOf valueEncodingPagePlain.
Definition unmarshalCompressedValueBlock (payload : bytes) (query : Query) : outcome valueBlock :=
  '(header, times, writeSeqs, values) ←
    whole "compressed value page"
      (header ← readCompressedValueHeader;
       times ← readCodecPayload;
       writeSeqs ← readCodecPayload;
       values ← readCodecPayload;
       mret (header, times, writeSeqs, values)) payload;
  samples ← readCompressedSamples (vh_fieldType header) (vh_count header) times writeSeqs values query;
  Ok (mkValueBlock "compressed-values" (vh_fieldID header) (vh_fieldType header) samples).

Definition defaultCompressionMinPageValues : Z := 8.
Definition compressionEnabled (opts : CompressionOptions) (count : Z) : bool :=
  if negb (co_Enabled opts) then false
  else
    let minValues := if co_MinPageValues opts <=? 0 then defaultCompressionMinPageValues else co_MinPageValues opts in
    minValues <=? count.
End Payload.
