(* ===== verification/SstPageProofs.v ===== *)
(** * Value pages: windows, the reference decoder, round trips *)
From S2P Require Import Prelude GoBinary Model Codec Readers SstTime SstTimeProofs Float64 SstValues SstValuesProofs SstSamples SstSamplesProofs SstPage.
From stdpp Require Import prelude strings list gmap.
From Stdlib Require Import ZArith Lia.
#[local] Open Scope Z_scope.

(** ** The window readers *)
Section Window.
Context (start : nat) (timestamps writeSeqs : list Z) (query : Query).
Hypothesis Hlen : length writeSeqs = length timestamps.

(** The samples of the window that the page rows [i], [i+1], ... contribute. *)
Definition windowFrom (i : nat) (vs : list FieldValue) : list VersionedSample :=
  collect query (drop (i - start) timestamps) (drop (i - start) writeSeqs) (drop (start - i) vs).

Lemma windowFrom_nil i : windowFrom i [] = [].
Proof. unfold windowFrom. rewrite drop_nil. by destruct (drop _ timestamps), (drop _ writeSeqs). Qed.
Lemma windowSample_cons i v vs :
  exists here, windowSample (Z.of_nat start) timestamps writeSeqs query (Z.of_nat i) v = Ok here
    /\ windowFrom i (Int64Value v :: vs) = here ++ windowFrom (S i) vs.
Proof.
  unfold windowSample, windowFrom. cbv zeta. zcase (Z.of_nat i <? Z.of_nat start).
  { exists []. split; [done|]. replace (i - start)%nat with 0%nat by lia.
    replace (S i - start)%nat with 0%nat by lia. by replace (start - i)%nat with (S (start - S i)) by lia. }
  replace (start - i)%nat with 0%nat by lia. replace (start - S i)%nat with 0%nat by lia.
  replace (S i - start)%nat with (S (i - start)) by lia. rewrite !drop_0. cbn [orb].
  zcase (Z.of_nat start + len timestamps <=? Z.of_nat i).
  { exists []. split; [done|]. by rewrite !(drop_ge timestamps) by (unfold len in *; lia). }
  destruct (lookup_lt_is_Some_2 timestamps (i - start)) as [t Ht]; [unfold len in *; lia|].
  destruct (lookup_lt_is_Some_2 writeSeqs (i - start)) as [w Hw]; [unfold len in *; lia|].
  exists (appendCompressedSample query t w (Int64Value v)). split.
  - unfold idx. rewrite !bool_decide_true by lia. replace (Z.to_nat (Z.of_nat i - Z.of_nat start)) with (i - start)%nat by lia.
    by rewrite Ht, Hw.
  - rewrite (drop_S _ _ _ Ht), (drop_S _ _ _ Hw). apply collect_cons.
Qed.
Lemma windowRun_from i out :
  windowRun (Z.of_nat start) timestamps writeSeqs query (Z.of_nat i) out = Ok (windowFrom i (map Int64Value out)).
Proof.
  revert i. induction out as [|v out IH]; intros i; simpl; [by rewrite windowFrom_nil|].
  destruct (windowSample_cons i v (map Int64Value out)) as (here & -> & ->). simpl.
  replace (Z.of_nat i + 1) with (Z.of_nat (S i)) by lia. by rewrite IH.
Qed.
Lemma windowFrom_app i out vs :
  windowFrom i (map Int64Value out ++ vs) = windowFrom i (map Int64Value out) ++ windowFrom (i + length out) vs.
Proof.
  revert i. induction out as [|v out IH]; intros i; cbn [map app].
  { rewrite windowFrom_nil. by replace (i + length [])%nat with i by (simpl; lia). }
  destruct (windowSample_cons i v (map Int64Value out ++ vs)) as (here & H & ->).
  destruct (windowSample_cons i v (map Int64Value out)) as (here' & H' & ->).
  rewrite H in H'. injection H' as <-. rewrite IH, (assoc_L (++)). f_equal. f_equal. simpl. lia.
Qed.
Lemma windowFirst_from v vs : timestamps <> [] ->
  exists here, windowFirst (Z.of_nat start) timestamps writeSeqs query v = Ok here
    /\ windowFrom 0 (Int64Value v :: vs) = here ++ windowFrom 1 vs.
Proof.
  intros Hne. destruct (windowSample_cons 0 v vs) as (here & H & Heq). exists here. split; [|done].
  rewrite <- H. unfold windowFirst, windowSample. destruct start as [|s]; [|done].
  destruct timestamps; [done|]. change (Z.of_nat 0 <? Z.of_nat 0) with false. cbn [orb].
  rewrite (proj2 (Z.leb_gt _ _)) by (unfold len; simpl length; lia). done.
Qed.

Lemma windowedDeltaLoop_from n i prev :
  req (windowedDeltaLoop n (Z.of_nat i) prev (Z.of_nat start) timestamps writeSeqs query)
      (vs ← read_fold n (fun prev =>
        delta ← BlockReader.uvarint "int delta";
        let v := i64 (prev + unzigZag64 delta) in mret (v, v)) prev; mret (windowFrom i (map Int64Value vs))).
Proof.
  revert i prev. induction n as [|n IH]; intros i prev; cbn [windowedDeltaLoop read_fold].
  { rewrite req_ret. simpl. by rewrite windowFrom_nil. }
  rewrite !req_assoc. apply req_bind. intros delta. cbv zeta. rewrite ?req_assoc, req_ret. cbv beta iota.
  set (v := i64 _). destruct (windowSample_cons i v []) as (here & Hh & _). rewrite Hh, req_lift_ok.
  replace (Z.of_nat i + 1) with (Z.of_nat (S i)) by lia. rewrite IH, !req_assoc. apply req_bind. intros vs.
  rewrite !req_ret. simpl map. destruct (windowSample_cons i v (map Int64Value vs)) as (here' & Hh' & ->).
  rewrite Hh in Hh'. injection Hh' as <-. done.
Qed.
Lemma windowedRLELoop_from fuel fullCount (i : nat) prev :
  req (windowedRLELoop fuel fullCount (Z.of_nat i) prev (Z.of_nat start) timestamps writeSeqs query)
      (vs ← readRuns fuel i64 "int" (fullCount - Z.of_nat i) prev; mret (windowFrom i (map Int64Value vs))).
Proof.
  revert i prev. induction fuel as [|fuel IH]; intros i prev; [done|]. cbn [windowedRLELoop readRuns].
  assert ((fullCount <=? Z.of_nat i) = (fullCount - Z.of_nat i <=? 0)) as ->.
  { zcase (fullCount <=? Z.of_nat i); symmetry; [apply Z.leb_le|apply Z.leb_gt]; lia. }
  zcase (fullCount - Z.of_nat i <=? 0); [rewrite req_ret; simpl; by rewrite windowFrom_nil|].
  rewrite !req_assoc. apply req_bind_uvarint. intros run64 Hpos. destruct (run64 =? 0); [by rewrite !req_fail|].
  rewrite !req_assoc. apply req_bind. intros delta. destruct (_ <? run64); [by rewrite !req_fail|].
  set (out := expandRun i64 _ prev (unzigZag64 delta)).
  assert (length out = Z.to_nat run64) as Hout by apply expandRun_length.
  rewrite windowRun_from, req_lift_ok.
  replace (Z.of_nat i + run64) with (Z.of_nat (i + length out)) by lia. rewrite IH, !req_assoc.
  replace (fullCount - Z.of_nat (i + length out)) with (fullCount - Z.of_nat i - run64) by lia.
  apply req_bind. intros vs. rewrite !req_ret, map_app, windowFrom_app. done.
Qed.

Hypothesis Hne : timestamps <> [].
Hypothesis Hfit : fits (len timestamps).
Lemma readWindowedDeltaInt_from fullCount : 0 < fullCount -> fits fullCount ->
  req (readWindowedDeltaInt fullCount (Z.of_nat start) timestamps writeSeqs query)
      (vs ← readDeltaInts compressionDelta fullCount; mret (windowFrom 0 (map Int64Value vs))).
Proof.
  intros Hc Hf. unfold readWindowedDeltaInt, readDeltaInts. change (negb (compressionDelta =? compressionDelta)) with false.
  cbv iota. rewrite (proj2 (Z.eqb_neq fullCount 0)) by lia. rewrite !req_assoc.
  rewrite (req_make 48) by alloc_lia. rewrite req_assoc. apply req_bind. intros prev.
  rewrite req_make by (unfold sampleSize; alloc_lia).
  destruct (windowFirst_from prev [] Hne) as (here & Hh & _). rewrite Hh, req_lift_ok.
  change 1 with (Z.of_nat 1) at 2. rewrite windowedDeltaLoop_from, !req_assoc. apply req_bind. intros vs.
  rewrite !req_ret. simpl map. destruct (windowFirst_from prev (map Int64Value vs) Hne) as (here' & Hh' & ->).
  rewrite Hh in Hh'. injection Hh' as <-. done.
Qed.
Lemma readWindowedDeltaRLEInt_from fullCount : 0 < fullCount -> fits fullCount ->
  req (readWindowedDeltaRLEInt fullCount (Z.of_nat start) timestamps writeSeqs query)
      (vs ← readDeltaRLEInts compressionRLE fullCount; mret (windowFrom 0 (map Int64Value vs))).
Proof.
  intros Hc Hf. unfold readWindowedDeltaRLEInt, readDeltaRLEInts. change (negb (compressionRLE =? compressionRLE)) with false.
  cbv iota. rewrite (proj2 (Z.eqb_neq fullCount 0)) by lia. rewrite !req_assoc.
  rewrite (req_make 48) by alloc_lia. rewrite req_assoc. apply req_bind. intros prev.
  rewrite req_make by (unfold sampleSize; alloc_lia).
  destruct (windowFirst_from prev [] Hne) as (here & Hh & _). rewrite Hh, req_lift_ok.
  assert (req (sized (fun fuel => windowedRLELoop fuel fullCount 1 prev (Z.of_nat start) timestamps writeSeqs query))
    (vs ← sized (fun fuel => readRuns fuel i64 "int" (fullCount - 1) prev); mret (windowFrom 1 (map Int64Value vs)))) as ->.
  { intros s. unfold sized at 1. rewrite (windowedRLELoop_from _ fullCount 1). done. }
  rewrite !req_assoc. apply req_bind. intros vs.
  rewrite !req_ret. simpl map. destruct (windowFirst_from prev (map Int64Value vs) Hne) as (here' & Hh' & ->).
  rewrite Hh in Hh'. injection Hh' as <-. done.
Qed.
End Window.

(** Every windowed codec decodes all the values of the page and keeps the rows
    of the window. *)
Lemma collect_take query ts ws vs : collect query ts ws (take (length ts) vs) = collect query ts ws vs.
Proof.
  revert ws vs. induction ts as [|t ts IH]; intros [|w ws] [|v vs]; try done.
  simpl take. by rewrite !collect_cons, IH.
Qed.
Lemma readWindowed_collected fieldType codecID fullCount start ts ws query :
  windowedCodec fieldType codecID = true -> 0 <= start -> start + len ts <= fullCount ->
  length ws = length ts -> ts <> [] -> fits fullCount ->
  req (if fieldType =? FieldFloat64 then readWindowedFloatValues codecID fullCount start ts ws query
       else if fieldType =? FieldInt64 then readWindowedIntValues codecID fullCount start ts ws query
       else rfail (Errorf "unsupported windowed field type"))
      (vs ← readCompressedValues fieldType codecID fullCount;
       mret (collect query ts ws (drop (Z.to_nat start) vs))).
Proof.
  intros Hw Hs Hle Hlen Hne Hf. assert (0 < len ts) as Hpos by (destruct ts; [done|unfold len; simpl; lia]).
  assert (fits (len ts)) as Hft by alloc_lia. rewrite <- (Z2Nat.id start) by done.
  set (s := Z.to_nat start) in *. rewrite Nat2Z.id.
  assert (forall vs, collect query ts ws (drop s vs) = windowFrom s ts ws query 0 vs) as Hfrom.
  { intros vs. unfold windowFrom. rewrite Nat.sub_0_r. done. }
  assert (forall codecID, codecID = compressionDelta \/ codecID = compressionRLE ->
    req (readWindowedIntValues codecID fullCount (Z.of_nat s) ts ws query)
      (vs ← (if codecID =? compressionRLE then readDeltaRLEInts codecID fullCount else readDeltaInts codecID fullCount);
       mret (collect query ts ws (drop s (map Int64Value vs))))) as Hint.
  { intros c [->| ->]; unfold readWindowedIntValues.
    - change (compressionDelta =? compressionRLE) with false. change (compressionDelta =? compressionDelta) with true.
      cbv iota. rewrite readWindowedDeltaInt_from by (done || lia). apply req_bind. intros vs. by rewrite Hfrom.
    - change (compressionRLE =? compressionRLE) with true. cbv iota.
      rewrite readWindowedDeltaRLEInt_from by (done || lia). apply req_bind. intros vs. by rewrite Hfrom. }
  unfold windowedCodec in Hw. zcase (fieldType =? FieldFloat64); [|zcase (fieldType =? FieldInt64); [|done]].
  - subst fieldType. unfold readWindowedFloatValues. zcase (codecID =? compressionConstStep).
    + subst codecID. change (readCompressedValues FieldFloat64 compressionConstStep fullCount)
        with (readFloatConstStepValues compressionConstStep fullCount).
      unfold readWindowedFloatConstStep, readFloatConstStepValues.
      change (negb (compressionConstStep =? compressionConstStep)) with false. cbv iota.
      rewrite (proj2 (Z.eqb_neq fullCount 0)), (proj2 (Z.eqb_neq (len ts) 0)) by lia. cbn [orb].
      rewrite req_assoc. apply req_bind. intros params. rewrite !req_make by (unfold sampleSize; alloc_lia).
      rewrite req_ret, Nat2Z.id, constStepSamplesLoop_collect by done.
      rewrite <- (collect_take _ _ _ (drop s _)), skipn_map, firstn_map, drop_seq, take_seq.
      replace (length ts `min` (Z.to_nat fullCount - s))%nat with (length ts) by (unfold s, len in *; lia). done.
    + cbn [orb] in Hw. rewrite Hw. unfold readWindowedFloatIntCodec.
      assert (codecID = compressionDelta \/ codecID = compressionRLE) as Hc.
      { apply orb_true_iff in Hw as [Hw|Hw]; apply Z.eqb_eq in Hw; auto. }
      assert (readCompressedValues FieldFloat64 codecID fullCount = readFloatIntValues codecID fullCount) as ->.
      { destruct Hc as [->| ->]; done. }
      unfold readFloatIntValues.
      assert ((if codecID =? compressionDelta then readDeltaInts codecID fullCount
          else if codecID =? compressionRLE then readDeltaRLEInts codecID fullCount
          else rfail (Errorf "unknown float-int compression"))
        = (if codecID =? compressionRLE then readDeltaRLEInts codecID fullCount else readDeltaInts codecID fullCount)) as ->.
      { destruct Hc as [->| ->]; done. }
      rewrite Hint, !req_assoc by done. apply req_bind. intros vs. rewrite !req_ret.
      unfold intSampleAsFloat. rewrite (collect_map _ _ _ _ (fun v => Float64Value (f_of_int (fv_Int64 v)))).
      by rewrite <- skipn_map, map_map.
  - subst fieldType.
    assert (codecID = compressionDelta \/ codecID = compressionRLE) as Hc.
    { apply orb_true_iff in Hw as [Hw|Hw]; apply Z.eqb_eq in Hw; auto. }
    rewrite Hint by done. destruct Hc as [->| ->].
    + change (readCompressedValues FieldInt64 compressionDelta fullCount)
        with (vs ← readDeltaInts compressionDelta fullCount; mret (map Int64Value vs)).
      by rewrite req_assoc.
    + change (readCompressedValues FieldInt64 compressionRLE fullCount)
        with (vs ← readDeltaRLEInts compressionRLE fullCount; mret (map Int64Value vs)).
      by rewrite req_assoc.
Qed.

(** Rows outside a window that holds every row of the query add nothing. *)
Lemma collect_none query ts ws vs :
  (forall i t, (i < length vs)%nat -> ts !! i = Some t -> in_query query t = false) -> collect query ts ws vs = [].
Proof.
  revert ts ws. induction vs as [|v vs IH]; intros [|t ts] [|w ws] H; try done.
  rewrite collect_cons, IH.
  - unfold appendCompressedSample. by rewrite (H 0%nat t) by (simpl; lia || done).
  - intros i t' Hi Ht. apply (H (S i)); simpl; [lia|done].
Qed.
Lemma collect_take_take query k ts ws vs :
  collect query (take k ts) (take k ws) vs = collect query ts ws (take k vs).
Proof.
  revert ts ws vs. induction k as [|k IH]; intros [|t ts] [|w ws] [|v vs]; try done.
  simpl take. by rewrite !collect_cons, IH.
Qed.
Lemma collect_window query ts ws vs s e : (s <= e <= length ts)%nat -> length vs = length ts ->
  (forall i t, ts !! i = Some t -> in_query query t = true -> (s <= i < e)%nat) ->
  collect query (take (e - s) (drop s ts)) (take (e - s) (drop s ws)) (drop s vs) = collect query ts ws vs.
Proof.
  intros Hse Hl Hin.
  assert (forall i t, ts !! i = Some t -> ~ (s <= i < e)%nat -> in_query query t = false) as Hout.
  { intros i t Ht Hi. destruct (in_query query t) eqn:Hq; [|done]. destruct Hi. by eapply Hin. }
  rewrite collect_take_take. rewrite <- (take_drop s vs) at 2. rewrite collect_app.
  rewrite (collect_none query ts ws (take s vs)).
  2:{ intros i t Hi Ht. rewrite length_take in Hi. apply (Hout i t Ht). lia. }
  rewrite length_take, Nat.min_l by lia. simpl.
  rewrite <- (take_drop (e - s) (drop s vs)) at 2. rewrite collect_app.
  rewrite (collect_none query (drop _ (drop s ts))); [by rewrite app_nil_r|].
  intros i t Hi Ht. rewrite length_take, length_drop, drop_drop, lookup_drop in Ht.
  eapply Hout; [exact Ht|]. lia.
Qed.

(** ** Plain columns read in step *)
Lemma bind_ok {A B} (m : reader A) (k : A -> reader B) s b s' : (m ≫= k) s = Ok (b, s') ->
  exists a s1, m s = Ok (a, s1) /\ k a s1 = Ok (b, s').
Proof.
  unfold mbind, reader_bind. destruct (m s) as [[a s1]| |]; [|done|done]. intros H. by exists a, s1.
Qed.
Lemma bind_run {A B} (m : reader A) (k : A -> reader B) s a s1 : m s = Ok (a, s1) -> (m ≫= k) s = k a s1.
Proof. intros H. unfold mbind, reader_bind. by rewrite H. Qed.
Lemma make_ok {B} elemSize n (k : unit -> reader B) s r : (rmake elemSize n ≫= k) s = Ok r -> k tt s = Ok r.
Proof.
  unfold rmake, mbind, reader_bind, lift. destruct (make_slice elemSize n) as [[]| |]; done.
Qed.

Definition timestampStep (prev : Z) : reader (Z * Z) :=
  delta ← BlockReader.varint "timestamp delta"; let t := i64 (prev + delta) in mret (t, t).
Lemma plainSamplesLoop_rest {A} (read : reader A) (f : A -> FieldValue) query n index prev
    times times' seqs seqs' values values' ts ws vs :
  read_fold n timestampStep prev times = Ok (ts, times') ->
  read_n n (BlockReader.uvarint "write seq") seqs = Ok (ws, seqs') -> read_n n read values = Ok (vs, values') ->
  plainSamplesLoop n (S index) (v ← read; mret (f v)) prev query times seqs values
  = Ok (collect query ts ws (map f vs), (times', seqs', values')).
Proof.
  revert index prev times seqs values ts ws vs.
  induction n as [|n IH]; intros index prev times seqs values ts ws vs Ht Hs Hv.
  { injection Ht as <- <-. injection Hs as <- <-. injection Hv as <- <-. done. }
  cbn [read_fold read_n] in Ht, Hs, Hv.
  apply bind_ok in Ht as ([t acc] & times1 & Ht1 & Ht). apply bind_ok in Ht as (ts1 & times2 & Ht2 & [= <- <-]).
  apply bind_ok in Hs as (w & seqs1 & Hs1 & Hs). apply bind_ok in Hs as (ws1 & seqs2 & Hs2 & [= <- <-]).
  apply bind_ok in Hv as (v & values1 & Hv1 & Hv). apply bind_ok in Hv as (vs1 & values2 & Hv2 & [= <- <-]).
  apply bind_ok in Ht1 as (delta & times3 & Hd & [= <- <- <-]).
  cbn [plainSamplesLoop]. assert (nextPlainTimestamp (S index) prev times = Ok (i64 (prev + delta), times3)) as ->
    by (unfold nextPlainTimestamp; by rewrite (bind_run _ _ _ _ _ Hd)).
  cbn [mbind outcome_bind]. rewrite Hs1. cbn [mbind outcome_bind]. rewrite (bind_run _ _ _ _ _ Hv1). cbn [mret reader_ret mbind outcome_bind].
  rewrite (IH _ _ _ _ _ _ _ _ Ht2 Hs2 Hv2). cbn [mbind outcome_bind map]. by rewrite collect_cons.
Qed.
Lemma readTimestamps_inv count times ts : readTimestamps count times = Ok (ts, []) -> 0 < count ->
  exists first ts' times1, ts = first :: ts' /\ BlockReader.fixedInt64 "first timestamp" times = Ok (first, times1)
    /\ read_fold (Z.to_nat (count - 1)) timestampStep first times1 = Ok (ts', []).
Proof.
  intros H Hc. unfold readTimestamps in H. rewrite (proj2 (Z.eqb_neq count 0)) in H by lia.
  apply bind_ok in H as (first & times1 & H1 & H). apply make_ok in H.
  apply bind_ok in H as (ts' & times2 & H2 & [= <- ->]). by exists first, ts', times1.
Qed.
Lemma readPlainCompressedSamplesOf_collect {A} (read : reader A) (f : A -> FieldValue) count query times seqs values ts ws vs :
  0 <= count -> fits count -> readTimestamps count times = Ok (ts, []) ->
  read_n (Z.to_nat count) (BlockReader.uvarint "write seq") seqs = Ok (ws, []) ->
  read_n (Z.to_nat count) read values = Ok (vs, []) ->
  readPlainCompressedSamplesOf (v ← read; mret (f v)) count query times seqs values
  = Ok (collect query ts ws (map f vs), ([], [], [])).
Proof.
  intros Hc Hf Ht Hs Hv. unfold readPlainCompressedSamplesOf. pose proof (capacity_bounds count query Hc).
  rewrite make_slice_ok by (unfold sampleSize; alloc_lia). cbn [mbind outcome_bind].
  destruct (decide (count = 0)) as [->|].
  { injection Ht as <- ->. injection Hs as <- ->. injection Hv as <- ->. done. }
  apply readTimestamps_inv in Ht as (first & ts' & times1 & -> & Ht1 & Ht2); [|lia].
  replace (Z.to_nat count) with (S (Z.to_nat (count - 1))) in * by lia. cbn [read_n] in Hs, Hv.
  apply bind_ok in Hs as (w & seqs1 & Hs1 & Hs). apply bind_ok in Hs as (ws1 & seqs2 & Hs2 & [= <- ->]).
  apply bind_ok in Hv as (v & values1 & Hv1 & Hv). apply bind_ok in Hv as (vs1 & values2 & Hv2 & [= <- ->]).
  cbn [plainSamplesLoop nextPlainTimestamp]. rewrite Ht1. cbn [mbind outcome_bind]. rewrite Hs1.
  cbn [mbind outcome_bind]. rewrite (bind_run _ _ _ _ _ Hv1). cbn [mret reader_ret mbind outcome_bind].
  rewrite (plainSamplesLoop_rest read f query _ 0 first _ _ _ _ _ _ _ _ _ Ht2 Hs2 Hv2). cbn [mbind outcome_bind map]. by rewrite collect_cons.
Qed.
Lemma bitAt_take src n i : (i / 8 < n)%nat -> bitAt (take n src) i = bitAt src i.
Proof. intros. unfold bitAt. by rewrite lookup_take_lt. Qed.
Lemma plainBoolLoop_rest query src nb n index prev times times' seqs seqs' ts ws :
  (bitCount8 (S index + n) <= nb <= length src)%nat ->
  read_fold n timestampStep prev times = Ok (ts, times') ->
  read_n n (BlockReader.uvarint "write seq") seqs = Ok (ws, seqs') ->
  plainBoolLoop n (S index) (take nb src) prev query times seqs
  = Ok (collect query ts ws (map BoolValue (map (bitAt src) (seq (S index) n))), (times', seqs')).
Proof.
  revert index prev times seqs ts ws. induction n as [|n IH]; intros index prev times seqs ts ws Hn Ht Hs.
  { injection Ht as <- <-. by injection Hs as <- <-. }
  cbn [read_fold read_n] in Ht, Hs.
  apply bind_ok in Ht as ([t acc] & times1 & Ht1 & Ht). apply bind_ok in Ht as (ts1 & times2 & Ht2 & [= <- <-]).
  apply bind_ok in Hs as (w & seqs1 & Hs1 & Hs). apply bind_ok in Hs as (ws1 & seqs2 & Hs2 & [= <- <-]).
  apply bind_ok in Ht1 as (delta & times3 & Hd & [= <- <- <-]).
  cbn [plainBoolLoop]. assert (nextPlainTimestamp (S index) prev times = Ok (i64 (prev + delta), times3)) as ->
    by (unfold nextPlainTimestamp; by rewrite (bind_run _ _ _ _ _ Hd)).
  cbn [mbind outcome_bind]. rewrite Hs1. cbn [mbind outcome_bind].
  assert (S index / 8 < nb)%nat as Hi by (eapply Nat.lt_le_trans; [by apply (bitCount8_lt (S index) (S index + S n)); lia|lia]).
  assert (exists b, idx (take nb src) (Z.of_nat (S index) / 8) = Ok b) as [b Hb].
  { unfold idx. rewrite bool_decide_true by (apply Z.div_pos; lia).
    replace (Z.to_nat (Z.of_nat (S index) / 8)) with (S index / 8)%nat
      by (change 8 with (Z.of_nat 8); by rewrite <- Nat2Z.inj_div, Nat2Z.id).
    destruct (lookup_lt_is_Some_2 (take nb src) (S index / 8)) as [b ->]; [|by exists b].
    rewrite length_take. lia. }
  rewrite Hb, bitAt_take by done. rewrite (IH (S index) _ _ _ ts1 ws1 ltac:(replace (S (S index) + n)%nat with (S index + S n)%nat by lia; done) Ht2 Hs2).
  cbn [seq map]. rewrite collect_cons. unfold appendCompressedSample. by destruct (in_query query _).
Qed.
Lemma readPlainCompressedBoolSamples_collect count query times seqs values ts ws bools :
  0 <= count -> fits count -> readTimestamps count times = Ok (ts, []) ->
  read_n (Z.to_nat count) (BlockReader.uvarint "write seq") seqs = Ok (ws, []) ->
  ReadBoolBits count values = Ok (bools, []) ->
  readPlainCompressedBoolSamples count query times seqs values
  = Ok (collect query ts ws (map BoolValue bools), ([], [], [])).
Proof.
  intros Hc Hf Ht Hs Hv. unfold ReadBoolBits in Hv. rewrite (proj2 (Z.ltb_ge count 0)) in Hv by lia.
  unfold readPlainCompressedBoolSamples. set (byteCount := Z.quot (i64 (count + 7)) 8) in *.
  assert (byteCount = Z.of_nat (bitCount8 (Z.to_nat count))) as Hbc.
  { unfold byteCount. rewrite <- (Z2Nat.id count) at 1 by done. apply byteCount_bitCount8. alloc_lia. }
  zcase (len values <? byteCount); [done|]. rewrite (proj2 (Z.ltb_ge byteCount 0)) by lia.
  rewrite make_slice_ok in Hv by alloc_lia. cbn [mbind outcome_bind] in Hv. injection Hv as <- Hd. rewrite Hd.
  pose proof (capacity_bounds count query Hc). rewrite make_slice_ok by (unfold sampleSize; alloc_lia).
  cbn [mbind outcome_bind]. rewrite Hbc, Nat2Z.id.
  destruct (decide (count = 0)) as [->|]; [injection Ht as <- ->; by injection Hs as <- ->|].
  apply readTimestamps_inv in Ht as (first & ts' & times1 & -> & Ht1 & Ht2); [|lia].
  assert (bitCount8 (Z.to_nat count) <= length values)%nat as Hnb by (unfold len in *; lia).
  replace (Z.to_nat count) with (S (Z.to_nat (count - 1))) in * by lia. cbn [read_n] in Hs.
  apply bind_ok in Hs as (w & seqs1 & Hs1 & Hs). apply bind_ok in Hs as (ws1 & seqs2 & Hs2 & [= <- ->]).
  cbn [plainBoolLoop nextPlainTimestamp]. rewrite Ht1. cbn [mbind outcome_bind]. rewrite Hs1. cbn [mbind outcome_bind].
  pose proof (bitCount8_lt 0 (S (Z.to_nat (count - 1))) ltac:(lia)) as H0. change (0 / 8)%nat with 0%nat in H0.
  rewrite (plainBoolLoop_rest query values (bitCount8 (S (Z.to_nat (count - 1)))) _ 0 first _ _ _ _ _ _ (conj (le_n _) Hnb) Ht2 Hs2).
  cbn [seq map]. rewrite collect_cons, bitAt_take by (change (0 / 8)%nat with 0%nat; lia).
  unfold appendCompressedSample. destruct (in_query query first); [|done].
  assert (exists b, idx (take (bitCount8 (S (Z.to_nat (count - 1)))) values) (Z.of_nat 0 / 8) = Ok b) as [b Hb].
  { unfold idx. change (Z.of_nat 0 / 8) with 0. rewrite bool_decide_true by lia. change (Z.to_nat 0) with 0%nat.
    destruct (lookup_lt_is_Some_2 (take (bitCount8 (S (Z.to_nat (count - 1)))) values) 0) as [b ->];
      [rewrite length_take; lia|by exists b]. }
  by rewrite Hb.
Qed.

(** A page whose three columns the reference decoders accept and use up. *)
Record page_decodes (fieldType count : Z) (times writeSeqs values : codecPayload)
    (ts ws : list Z) (vs : list FieldValue) : Prop := {
  pd_count : 0 <= count;
  pd_fits : fits count;
  pd_times : decodeCodecTimestamps (cp_codecID times) (cp_payload times) count = Ok ts;
  pd_times_done : cp_codecID times = compressionPlain -> readTimestamps count (cp_payload times) = Ok (ts, []);
  pd_seqs : decodeWriteSeqs (cp_codecID writeSeqs) (cp_payload writeSeqs) count = Ok ws;
  pd_values : readCompressedValues fieldType (cp_codecID values) count (cp_payload values) = Ok (vs, []);
  pd_ts_len : length ts = Z.to_nat count;
  pd_ws_len : length ws = Z.to_nat count;
  pd_vs_len : length vs = Z.to_nat count;
}.
Lemma page_plain fieldType count times writeSeqs values ts ws vs query :
  page_decodes fieldType count times writeSeqs values ts ws vs ->
  cp_codecID times = compressionPlain -> cp_codecID writeSeqs = compressionPlain -> cp_codecID values = compressionPlain ->
  readPlainCompressedSamples fieldType count (cp_payload times) (cp_payload writeSeqs) (cp_payload values) query
  = Ok (collect query ts ws vs).
Proof.
  intros [Hc Hf Ht Htd Hs Hv _ _ _] Hct Hcs Hcv. specialize (Htd Hct). rewrite Hcs in Hs. rewrite Hcv in Hv.
  change (readCompressedValues fieldType compressionPlain count) with (readValues fieldType count) in Hv.
  assert (read_n (Z.to_nat count) (BlockReader.uvarint "write seq") (cp_payload writeSeqs) = Ok (ws, [])) as Hseqs.
  { unfold decodeWriteSeqs in Hs. change (compressionPlain =? compressionPlain) with true in Hs. cbv iota in Hs.
    destruct ((_ : reader (list Z)) (cp_payload writeSeqs)) as [[ws' rest]| |] eqn:He; [|done|done].
    injection Hs as ->. apply bind_ok in He as (ws1 & s1 & H1 & He). apply bind_ok in He as ([] & s2 & H2 & [= -> ->]).
    unfold readWriteSeqs in H1. apply make_ok in H1. rewrite H1. unfold BlockReader.done, rd_done in H2.
    destruct s1; [done|]. by repeat case_match. }
  unfold readPlainCompressedSamples, readPlainCompressedSamplesByType, readValues in *.
  repeat case_match; try done.
  - apply make_ok in Hv. apply bind_ok in Hv as (raw & s1 & Hv & [= <- ->]).
    by rewrite (readPlainCompressedSamplesOf_collect _ Float64Value _ _ _ _ _ ts ws raw).
  - apply make_ok in Hv. apply bind_ok in Hv as (raw & s1 & Hv & [= <- ->]).
    by rewrite (readPlainCompressedSamplesOf_collect _ Int64Value _ _ _ _ _ ts ws raw).
  - apply bind_ok in Hv as (bools & s1 & Hv & Hv'). apply make_ok in Hv'. injection Hv' as <- ->.
    unfold readBools in Hv. destruct (ReadBoolBits count (cp_payload values)) as [[bs r]| |] eqn:Hb; [|done|done].
    injection Hv as -> ->. by rewrite (readPlainCompressedBoolSamples_collect _ _ _ _ _ ts ws bools).
  - apply make_ok in Hv. apply bind_ok in Hv as (raw & s1 & Hv & [= <- ->]).
    by rewrite (readPlainCompressedSamplesOf_collect _ StringValue _ _ _ _ _ ts ws raw).
Qed.

(** The arithmetic of the window of a constant-step page does not overflow. *)
Definition window_safe (times : codecPayload) (count : Z) (query : Query) : Prop :=
  cp_codecID times = compressionConstStep -> forall base step rest,
  parseConstStepTimestampParams count (cp_payload times) = Ok (base, step, rest) ->
  series_fits base step count /\ is_i64 (q_Start query) /\ window_fits base step query.

Lemma whole_ok {A} name (m : reader A) payload a : m payload = Ok (a, []) -> whole name m payload = Ok a.
Proof. intros H. unfold whole. by rewrite (bind_run _ _ _ _ _ H). Qed.

Lemma materialize_slice base step count s e : (s <= e <= count)%nat ->
  materializeConstStepTimestamps base step (Z.of_nat s) (Z.of_nat e)
  = take (e - s) (drop s (materializeConstStepTimestamps base step 0 (Z.of_nat count))).
Proof.
  intros H. rewrite materialize_window, materialize_all by lia. rewrite skipn_map, firstn_map, drop_seq, take_seq.
  replace ((e - s) `min` (count - s))%nat with (e - s)%nat by lia. done.
Qed.
(** Which rows the window leaves out. *)
Lemma constStepWindow_rows base step count query : series_fits base step count ->
  is_i64 (q_Start query) -> window_fits base step query ->
  exists s e : nat, constStepWindow base step count query = (Z.of_nat s, Z.of_nat e)
    /\ (s <= e <= Z.to_nat count)%nat
    /\ forall i t, materializeConstStepTimestamps base step 0 count !! i = Some t ->
         in_query query t = true -> (s <= i < e)%nat.
Proof.
  intros Hser Hq Hf. pose proof Hser as (_ & _ & Hc & _).
  assert (forall i t, materializeConstStepTimestamps base step 0 count !! i = Some t ->
    (i < Z.to_nat count)%nat /\ t = base + Z.of_nat i * step) as Hat.
  { intros i t. rewrite <- (Z2Nat.id count) at 1 by lia. rewrite materialize_all, list_lookup_fmap. intros Ht.
    destruct (seq 0 (Z.to_nat count) !! i) as [j|] eqn:Hj; [|done]. apply lookup_seq in Hj as [-> Hj].
    injection Ht as <-. split; [done|]. apply (series_fits_at base step count); [done|lia]. }
  destruct (decide (0 <= step)) as [Hs|Hs].
  - pose proof (constStepWindow_is base step count query Hs Hser Hq Hf) as Hw.
    destruct (constStepWindow base step count query) as [s e]. destruct Hw as (Hse & He & Hin).
    exists (Z.to_nat s), (Z.to_nat e). rewrite !Z2Nat.id by lia. split; [done|]. split; [lia|].
    intros i t Ht Hi. apply Hat in Ht as [Hlt ->]. apply in_query_iff in Hi.
    specialize (Hin (Z.of_nat i) ltac:(lia)). lia.
  - pose proof (constStepWindow_filter base step count query Hser Hq Hf) as Hw.
    destruct (constStepWindow base step count query) as [s e]. destruct Hw as (Hse & He & Hin).
    rewrite (proj2 (Z.ltb_lt step 0)) in Hin by lia. destruct Hin as [-> Hin].
    exists 0%nat, (Z.to_nat e). rewrite !Z2Nat.id by lia. split; [done|]. split; [lia|].
    intros i t Ht Hi. apply Hat in Ht as [Hlt ->]. apply in_query_iff in Hi. lia.
Qed.

Lemma page_window fieldType count times writeSeqs values ts ws vs query :
  page_decodes fieldType count times writeSeqs values ts ws vs -> window_safe times count query ->
  cp_codecID times = compressionConstStep ->
  readConstStepWindowSamples fieldType count times writeSeqs values query = Ok None
  \/ readConstStepWindowSamples fieldType count times writeSeqs values query = Ok (Some (collect query ts ws vs)).
Proof.
  intros [Hc Hf Ht _ Hs Hv Htl Hwl Hvl] Hsafe Hct. specialize (Hsafe Hct). rewrite Hct in Ht.
  change (decodeCodecTimestamps compressionConstStep) with decodeConstStepTimestamps in Ht.
  unfold readConstStepWindowSamples, decodeConstStepTimestampsWindow, decodeConstStepTimestamps in *.
  destruct (parseConstStepTimestampParams count (cp_payload times)) as [[[base step] rest]| |]; [|done|done].
  cbn [mbind outcome_bind] in *. zcase (count =? 0).
  { injection Ht as <-. right. done. }
  rewrite make_slice_ok in Ht by alloc_lia. cbn [mbind outcome_bind] in Ht. injection Ht as <-.
  destruct (Hsafe base step rest eq_refl) as (Hser & Hq & Hwf).
  destruct (constStepWindow_rows base step count query Hser Hq Hwf) as (s & e & -> & Hse & Hrows).
  rewrite make_slice_ok by alloc_lia. cbn [mbind outcome_bind].
  assert (materializeConstStepTimestamps base step (Z.of_nat s) (Z.of_nat e)
    = take (e - s) (drop s (materializeConstStepTimestamps base step 0 count))) as Hmat
    by (rewrite <- (Z2Nat.id count) at 1 by lia; by apply materialize_slice).
  set (full := materializeConstStepTimestamps base step 0 count) in *. rewrite Hmat.
  assert (length (take (e - s) (drop s full)) = (e - s)%nat) as Hwlen by (rewrite length_take, length_drop; lia).
  pose proof (collect_window query full ws vs s e ltac:(lia) ltac:(lia) Hrows) as Hcw.
  zcase (len (take (e - s) (drop s full)) =? 0).
  { right. rewrite <- Hcw. destruct (take (e - s) (drop s full)); [done|unfold len in E0; simpl in E0; lia]. }
  zcase (cp_codecID writeSeqs =? compressionOmitted); [|by left].
  destruct (windowedCodec fieldType (cp_codecID values)) eqn:Hwc; [|by left]. cbn [negb].
  rewrite make_slice_ok by alloc_lia. cbn [mbind outcome_bind]. right.
  assert (ws = replicate (Z.to_nat count) 0) as Hws.
  { rewrite E1 in Hs. change (decodeWriteSeqs compressionOmitted (cp_payload writeSeqs) count)
      with (if negb (len (cp_payload writeSeqs) =? 0) then Err (Errorf "omitted write seq payload must be empty")
            else _ ← make_slice 8 count; Ok (replicate (Z.to_nat count) 0)) in Hs.
    destruct (negb _); [done|]. rewrite make_slice_ok in Hs by alloc_lia. by injection Hs as <-. }
  assert (readWindowedCodecValues fieldType values count (Z.of_nat s) (take (e - s) (drop s full))
    (replicate (length (take (e - s) (drop s full))) 0) query = Ok (collect query full ws vs)) as ->; [|done].
  unfold readWindowedCodecValues. apply whole_ok.
  rewrite readWindowed_collected; [|done|lia|unfold len; lia|by rewrite length_replicate| |done].
  2:{ intros Hn. rewrite Hn in E0. done. }
  rewrite (bind_run _ _ _ _ _ Hv), Nat2Z.id, <- Hcw. unfold mret, reader_ret. do 3 f_equal.
  rewrite Hwlen, Hws, drop_replicate, take_replicate. f_equal. lia.
Qed.

Lemma readCompressedSamples_collect fieldType count times writeSeqs values ts ws vs query :
  page_decodes fieldType count times writeSeqs values ts ws vs -> window_safe times count query ->
  readCompressedSamples fieldType count times writeSeqs values query = Ok (collect query ts ws vs).
Proof.
  intros Hp Hsafe. unfold readCompressedSamples.
  destruct ((cp_codecID times =? compressionPlain) && _ && _) eqn:Hplain.
  { apply andb_true_iff in Hplain as [[H1 H2]%andb_true_iff H3]. apply Z.eqb_eq in H1, H2, H3. by apply page_plain. }
  assert (whole "values" (readCodecPayloadSamples fieldType (cp_codecID values) ts ws query) (cp_payload values)
    = Ok (collect query ts ws vs)) as Hgen.
  { apply whole_ok. destruct Hp as [Hc Hf _ _ _ Hv Htl Hwl Hvl].
    rewrite readCodecPayloadSamples_req by (unfold len; rewrite ?Htl, ?Z2Nat.id; done || lia).
    unfold collected. unfold len. rewrite Htl, Z2Nat.id by lia. by rewrite (bind_run _ _ _ _ _ Hv). }
  pose proof (pd_times _ _ _ _ _ _ _ _ Hp) as Ht. pose proof (pd_seqs _ _ _ _ _ _ _ _ Hp) as Hs.
  zcase (cp_codecID times =? compressionConstStep).
  - destruct (page_window _ _ _ _ _ _ _ _ query Hp Hsafe E) as [-> | ->]; [|done].
    cbn [mbind outcome_bind]. by rewrite Ht, Hs.
  - cbn [mbind outcome_bind]. by rewrite Ht, Hs.
Qed.

(** 1000, 1010, ..., 1070 with integers 5, 6, ..., 12: a page the window path serves. *)
Definition exampleTimes : codecPayload := mkCodecPayload compressionConstStep (appendConstStepTimestamps 1000 10).
Definition exampleSeqs : codecPayload := mkCodecPayload compressionOmitted [].
Definition exampleInts : codecPayload := mkCodecPayload compressionRLE (appendDeltaRLEIntValues [5; 6; 7; 8; 9; 10; 11; 12]).

(** ** Round trip of a compressed page *)
Section PageRoundtrip.
Context `{lib : PayloadLib} `{!PayloadLaws lib}.

Lemma decompress_compress algorithmID payload level id stored :
  compressPayload algorithmID payload level = Ok (id, stored) -> len payload <= maxAlloc ->
  decompressPayload id stored (len payload) = Ok payload.
Proof.
  intros H Hl. assert (0 <= len payload) as H0 by (unfold len; lia).
  assert (make_slice 1 (len payload) = Ok tt) as Hmk by (apply make_slice_ok; lia).
  unfold decompressPayload. assert ((len payload =? len payload) = true) as Heq by apply Z.eqb_refl.
  unfold compressPayload, encodeLZ4, encodeZSTD in H.
  destruct (algorithmID =? payloadCompressionNone);
    [|destruct (algorithmID =? payloadCompressionSnappy);
      [|destruct (algorithmID =? payloadCompressionLZ4);
        [|destruct (algorithmID =? payloadCompressionZSTD); [|done]]]].
  - injection H as <- <-. simpl. by rewrite Heq.
  - injection H as <- <-. simpl. rewrite Hmk. simpl. rewrite snappy_decode_encode. simpl. by rewrite Heq.
  - destruct (lz4CompressBlock payload) as [c| |] eqn:Hc; [|done|done]. cbn [mbind outcome_bind] in H.
    zcase (len c =? 0); injection H as <- <-; simpl.
    + by rewrite Heq.
    + unfold decodeLZ4. rewrite Hmk. simpl. rewrite (lz4_uncompress_compress _ _ Hc); [simpl; by rewrite Heq|].
      by intros ->.
  - destruct (zstdEncodeAll _ payload) as [c| |] eqn:Hc; [|done|done]. injection H as <- <-. simpl.
    unfold decodeZSTD. rewrite Hmk. simpl. rewrite (zstd_decode_encode _ _ _ Hc). simpl. by rewrite Heq.
Qed.
Lemma readCodecPayload_append codec payload algorithm level budget bs :
  appendCodecPayloadWithCompression codec payload algorithm level budget = Ok bs ->
  len payload <= maxAlloc -> len bs <= maxAlloc -> reads_back readCodecPayload bs (mkCodecPayload codec payload).
Proof.
  intros H Hl Hb. unfold appendCodecPayloadWithCompression in H.
  destruct (payloadCompressionAlgorithmID algorithm) as [id| |]; [|done|done]. cbn [mbind outcome_bind] in H.
  destruct (reservePayloadCompressionMemory _ _ _); [|done|done]. cbn [mbind outcome_bind] in H.
  destruct (compressPayload id payload level) as [[sid stored]| |] eqn:Hc; [|done|done].
  cbn [mbind outcome_bind] in H. injection H as <-. unfold readCodecPayload.
  assert (len stored <= maxAlloc) as Hs.
  { unfold len in *. simpl length in Hb. rewrite !length_app in Hb. lia. }
  change (codec :: sid :: ?x) with ([codec] ++ [sid] ++ x).
  eapply reads_back_bind; [apply rd_byte_append|]. eapply reads_back_bind; [apply rd_byte_append|].
  eapply reads_back_bind; [apply rd_intCount_append; alloc_lia|].
  eapply reads_back_bind; [apply rd_intCount_append; alloc_lia|].
  eapply reads_back_bind_nil.
  - intros rest. unfold takeStored. rewrite (proj2 (Z.ltb_ge _ _)) by (unfold len; rewrite length_app; lia).
    unfold len. by rewrite Nat2Z.id, take_app_length, drop_app_length.
  - rewrite (decompress_compress _ _ _ _ _ Hc Hl). apply reads_back_ret.
Qed.

(** A page the engine writes: one type, machine-width data, second differences
    of the timestamps within 63 bits, raw payloads that fit in memory. *)
Definition samples_ok (fieldType : Z) (samples : list VersionedSample) : Prop :=
  column_ok fieldType (map vs_Value samples) /\ Forall is_i64 (map vs_Timestamp samples)
  /\ Forall is_u64 (map vs_WriteSeq samples) /\ dod_ok (map vs_Timestamp samples).
Definition payloads_fit (column : ColumnData) (opts : CompressionOptions) : Prop :=
  len (encodeTimestamps (map vs_Timestamp (cd_Samples column)) (co_Timestamp opts)).2 <= maxAlloc
  /\ len (encodeWriteSeqs (map vs_WriteSeq (cd_Samples column))).2 <= maxAlloc
  /\ forall codecID payload, encodeTypedValues (cd_FieldType column) (map vs_Value (cd_Samples column)) opts
       = Ok (codecID, payload) -> len payload <= maxAlloc.
(** The window arithmetic of a query on a constant-step page stays in range. *)
Definition times_queryable (ts : list Z) (query : Query) : Prop :=
  match detectConstStepTimestamps ts, ts with
  | Some step, t0 :: _ => series_fits t0 step (len ts) /\ is_i64 (q_Start query) /\ window_fits t0 step query
  | _, _ => True
  end.
(** The write sequence numbers a page keeps. *)
Definition kept_seqs (opts : CompressionOptions) (samples : list VersionedSample) : list Z :=
  if co_OmitWriteSeq opts then replicate (length samples) 0 else map vs_WriteSeq samples.

Lemma encodeTimestamps_codecs ts policy codecID payload : encodeTimestamps ts policy = (codecID, payload) ->
  (codecID = compressionPlain -> payload = appendPlainTimestamps ts)
  /\ (codecID = compressionConstStep -> exists t0 ts' step, ts = t0 :: ts' /\ detectConstStepTimestamps ts = Some step
        /\ payload = appendConstStepTimestamps t0 step).
Proof.
  unfold encodeTimestamps. intros H.
  destruct (detectConstStepTimestamps ts) as [step|] eqn:Hd; [destruct ts as [|t0 ts']|];
    repeat case_match; injection H as <- <-; (split; [done|]); try done. intros _. by exists t0, ts', step.
Qed.

Lemma page_times samples policy codecID payload query :
  encodeTimestamps (map vs_Timestamp samples) policy = (codecID, payload) ->
  Forall is_i64 (map vs_Timestamp samples) -> dod_ok (map vs_Timestamp samples) -> fits (len samples) ->
  times_queryable (map vs_Timestamp samples) query ->
  decodeCodecTimestamps codecID payload (len samples) = Ok (map vs_Timestamp samples)
  /\ (codecID = compressionPlain -> readTimestamps (len samples) payload = Ok (map vs_Timestamp samples, []))
  /\ window_safe (mkCodecPayload codecID payload) (len samples) query.
Proof.
  intros He Hts Hdod Hf Hq. assert (len (map vs_Timestamp samples) = len samples) as Hl by (unfold len; by rewrite length_map).
  rewrite <- Hl in Hf |- *. pose proof (encodeTimestamps_decode _ policy Hts Hdod Hf) as Hd. rewrite He in Hd.
  destruct (encodeTimestamps_codecs _ _ _ _ He) as [Hplain Hconst]. split_and!; [done| |].
  - intros ->. rewrite Hplain by done. by apply reads_back_run, readTimestamps_append.
  - intros Hc base step rest Hp. simpl in Hc, Hp. destruct (Hconst Hc) as (t0 & ts' & st & Heq & Hdet & ->).
    destruct (detectConstStep_spec _ _ Hts Hdet) as [Hst _].
    unfold times_queryable in Hq. rewrite Hdet, Heq in Hq. rewrite Heq in Hts.
    rewrite parseConstStep_append in Hp; [|by inversion Hts|done|rewrite Heq; unfold len; simpl; lia].
    injection Hp as <- <- <-. by rewrite Heq.
Qed.

Lemma page_seqs samples (opts : CompressionOptions) budget bs :
  appendSampleWriteSeqsPayloadWithCompression samples (co_Algorithm opts) (co_ZstdLevel opts)
    (co_OmitWriteSeq opts) budget = Ok bs ->
  Forall is_u64 (map vs_WriteSeq samples) -> fits (len samples) -> len bs <= maxAlloc ->
  len (encodeWriteSeqs (map vs_WriteSeq samples)).2 <= maxAlloc ->
  exists payload, reads_back readCodecPayload bs payload
    /\ decodeWriteSeqs (cp_codecID payload) (cp_payload payload) (len samples) = Ok (kept_seqs opts samples).
Proof.
  intros H Hs Hf Hb Hp. unfold appendSampleWriteSeqsPayloadWithCompression, kept_seqs in *.
  destruct (co_OmitWriteSeq opts).
  - eexists. split; [by eapply readCodecPayload_append|]. cbn [cp_codecID cp_payload].
    change (decodeWriteSeqs compressionOmitted [] (len samples))
      with (_ ← make_slice 8 (len samples); Ok (replicate (Z.to_nat (len samples)) 0)).
    rewrite make_slice_ok by alloc_lia. unfold len. by rewrite Nat2Z.id.
  - pose proof (encodeWriteSeqs_decode (map vs_WriteSeq samples) Hs) as Hd.
    destruct (encodeWriteSeqs (map vs_WriteSeq samples)) as [codecID payload].
    eexists. split; [by eapply readCodecPayload_append|]. simpl. unfold len in *. rewrite length_map in Hd. by apply Hd.
Qed.

Lemma readHeader_append kind fieldID fieldType count : is_u32 fieldID -> is_byte fieldType -> 0 <= count <= maxInt ->
  reads_back (readHeaderOf kind)
    ([kind] ++ appendUvarint fieldID ++ [u8 fieldType] ++ appendUvarint count) (mkValueHeader fieldID fieldType count).
Proof.
  intros Hi Ht Hc. eapply reads_back_bind; [apply rd_byte_append|]. rewrite Z.eqb_refl. cbn [negb].
  eapply reads_back_bind; [by apply uint32_append|].
  replace (u8 fieldType) with fieldType by wrap_lia.
  eapply reads_back_bind; [apply rd_byte_append|].
  eapply reads_back_bind_nil; [by apply rd_intCount_append|apply reads_back_ret].
Qed.
Lemma encodeTypedValues_type fieldType values opts r : encodeTypedValues fieldType values opts = Ok r -> is_byte fieldType.
Proof.
  unfold encodeTypedValues. intros H. zcase (fieldType =? FieldFloat64); [subst; by_decide|].
  zcase (fieldType =? FieldInt64); [subst; by_decide|]. zcase (fieldType =? FieldBool); [subst; by_decide|].
  zcase (fieldType =? FieldString); [subst; by_decide|done].
Qed.

Lemma encodeSampleTimestamps_map samples policy :
  encodeSampleTimestamps samples policy = encodeTimestamps (map vs_Timestamp samples) policy.
Proof. by destruct samples. Qed.
(** The values a page stores do not depend on the query that reads it. *)
Lemma page_stores (column : ColumnData) opts budget page :
  is_u32 (cd_FieldID column) -> samples_ok (cd_FieldType column) (cd_Samples column) ->
  payloads_fit column opts -> marshalCompressedValueBlock column opts budget = Ok page -> len page <= maxAlloc ->
  exists values, Forall2 value_same (map vs_Value (cd_Samples column)) values
    /\ forall query, times_queryable (map vs_Timestamp (cd_Samples column)) query ->
       unmarshalCompressedValueBlock page query = Ok (mkValueBlock "compressed-values" (cd_FieldID column) (cd_FieldType column)
         (filterSamplesByTime (buildSamples (map vs_Timestamp (cd_Samples column)) (kept_seqs opts (cd_Samples column)) values) query)).
Proof.
  destruct column as [sid fid ft samples]. cbn [cd_FieldID cd_FieldType cd_Samples].
  intros Hid (Hcol & Hts & Hws & Hdod) (Hpt & Hps & Hpv) H Hl. unfold marshalCompressedValueBlock in H.
  cbn [cd_FieldID cd_FieldType cd_Samples] in *. rewrite encodeSampleTimestamps_map in H.
  assert (fits (len samples)) as Hf by (destruct Hcol as [_ Hf]; unfold len in *; by rewrite length_map in Hf).
  destruct (encodeTimestamps (map vs_Timestamp samples) (co_Timestamp opts)) as [tc tp] eqn:Het.
  destruct (encodeTypedValues ft (map vs_Value samples) opts) as [[vc vp]| |] eqn:Hev; [|done|done].
  cbn [mbind outcome_bind] in H.
  destruct (appendCodecPayloadWithCompression tc tp _ _ _) as [tb| |] eqn:Htb; [|done|done]. cbn [mbind outcome_bind] in H.
  destruct (appendSampleWriteSeqsPayloadWithCompression _ _ _ _ _) as [sb| |] eqn:Hsb; [|done|done]. cbn [mbind outcome_bind] in H.
  destruct (appendCodecPayloadWithCompression vc vp _ _ _) as [vb| |] eqn:Hvb; [|done|done]. cbn [mbind outcome_bind] in H.
  injection H as <-. assert (len tb <= maxAlloc /\ len sb <= maxAlloc /\ len vb <= maxAlloc) as (Hlt & Hls & Hlv).
  { unfold len in *. simpl length in Hl. rewrite !length_app in Hl. lia. }
  destruct (page_seqs samples opts budget sb Hsb Hws Hf Hls Hps) as (sp & Hrs & Hds).
  destruct (typed_values_decodes _ _ _ _ _ Hcol Hev) as (values & Hdv & Hsame).
  unfold len in Hdv. rewrite length_map in Hdv. fold (len samples) in Hdv.
  exists values. split; [done|]. intros query Hq. unfold unmarshalCompressedValueBlock.
  destruct (page_times _ _ _ _ query Het Hts Hdod Hf Hq) as (Hdt & Hdt' & Hsafe).
  rewrite (whole_ok _ _ _ (mkValueHeader fid ft (len samples), mkCodecPayload tc tp, sp, mkCodecPayload vc vp)).
  - cbn [mbind outcome_bind vh_fieldType vh_count vh_fieldID].
    rewrite (readCompressedSamples_collect _ _ _ _ _ (map vs_Timestamp samples) (kept_seqs opts samples) values); [done| |done].
    assert (length values = length samples) as Hvl by (apply Forall2_length in Hsame; by rewrite length_map in Hsame).
    constructor; cbn [cp_codecID cp_payload]; try done; try (unfold len; rewrite Nat2Z.id); [unfold len; lia|by rewrite length_map| |done].
    unfold kept_seqs. destruct (co_OmitWriteSeq opts); [apply length_replicate|apply length_map].
  - change (valueEncodingPageCompressed :: (appendUvarint fid ++ u8 ft :: appendUvarint (len samples)) ++ tb ++ sb ++ vb)
      with (([valueEncodingPageCompressed] ++ appendUvarint fid ++ [u8 ft] ++ appendUvarint (len samples)) ++ tb ++ sb ++ vb).
    eapply run_bind; [by apply (readHeader_append _ fid ft (len samples)); [done|apply (encodeTypedValues_type _ _ _ _ Hev)|alloc_lia]|].
    eapply run_bind; [by apply (readCodecPayload_append _ _ _ _ _ _ Htb)|]. eapply run_bind; [exact Hrs|].
    eapply run_bind_nil; [apply (readCodecPayload_append _ _ _ _ _ _ Hvb); [by eapply Hpv|done]|done].
Qed.

End PageRoundtrip.
(** A library that stores its input behind one marker byte. *)
Definition storeDecode (bs : bytes) : outcome bytes :=
  match bs with b :: p => if b =? 0 then Ok p else Err (Errorf "bad marker") | [] => Err (Errorf "empty") end.
#[local] Instance storeLib : PayloadLib := {|
  snappyEncode p := 0 :: p;
  snappyDecode := storeDecode;
  lz4CompressBlockBound n := n + 1;
  lz4CompressBlock p := Ok (0 :: p);
  lz4UncompressBlock bs _ := storeDecode bs;
  zstdEncodeAll _ p := Ok (0 :: p);
  zstdDecodeAll := storeDecode;
|}.
#[local] Instance storeLaws : PayloadLaws storeLib.
Proof.
  constructor; [done| |].
  - intros p c H _. cbn in H. injection H as <-. done.
  - intros level p c H. cbn in H. injection H as <-. done.
Qed.
Definition exampleColumn : ColumnData := mkColumnData 9 3 FieldInt64
  [mkSample 1000 5 (Int64Value 5); mkSample 1010 6 (Int64Value 6); mkSample 1020 7 (Int64Value 8)].
Definition snappyOptions : CompressionOptions := mkCompressionOptions true "" "" "" "" "snappy" 0 0 false "".
Definition examplePage : bytes :=
  match marshalCompressedValueBlock exampleColumn snappyOptions None with Ok page => page | _ => [] end.
