(* ===== verification/Runtime.v ===== *)
(** * The Go run-time and library calls the in-memory components rely on

    The language leaves three choices open: the order in which [range] visits
    a map, the capacity [append] gives a slice it reallocates, and the order in
    which [sort.Slice] and [slices.SortFunc] (neither is stable) leave elements
    that compare equal.  The definitions take these choices from [GoRuntime];
    the theorems assume only the documented [GoRuntimeLaws]. *)
From S2P Require Import Prelude.
From stdpp Require Import prelude list.
From Stdlib Require Import Lia.
From stdpp Require Import prelude strings list.
From stdpp Require Import prelude strings list sorting gmap.
From Stdlib Require Import ZArith Lia.
#[local] Open Scope Z_scope.

Class GoRuntime := {
  growslice : Z -> Z;
  map_range {K} `{Countable K} {V} : gmap K V -> list (K * V);
  sort_Slice {A} : (A -> A -> bool) -> list A -> list A;
  sort_less {A} : (A -> A -> bool) -> list A -> list A;
}.

(** [slices.SortFunc(s, cmp)] and [cmp.Compare] on integers. *)
Definition cmp_Compare (x y : Z) : Z := if x <? y then -1 else if y <? x then 1 else 0.
Definition SortFunc `{GoRuntime} {A} (compare : A -> A -> Z) (l : list A) : list A :=
  sort_less (fun x y => compare x y <? 0) l.

(** The order behind a [less] function: a strict weak order, stated through
    its complement. *)
Record weak_order {A} (less : A -> A -> bool) : Prop := {
  wo_asym x y : less x y = true -> less y x = false;
  wo_trans x y z : less y x = false -> less z y = false -> less z x = false;
}.

Definition not_after {A} (less : A -> A -> bool) (x y : A) : Prop := less y x = false.
#[export] Instance not_after_dec {A} (less : A -> A -> bool) : RelDecision (not_after less).
Proof. intros x y. unfold not_after. apply _. Defined.

Class GoRuntimeLaws `{GoRuntime} : Prop := {
  growslice_grows c : 0 <= c -> c < growslice c;
  map_range_perm {K} `{Countable K} {V} (m : gmap K V) : map_range m ≡ₚ map_to_list m;
  sort_Slice_perm {A} (less : A -> A -> bool) l : sort_Slice less l ≡ₚ l;
  sort_Slice_sorted {A} (less : A -> A -> bool) l :
    weak_order less -> StronglySorted (not_after less) (sort_Slice less l);
  sort_less_perm {A} (less : A -> A -> bool) l : sort_less less l ≡ₚ l;
  sort_less_sorted {A} (less : A -> A -> bool) l :
    weak_order less -> StronglySorted (not_after less) (sort_less less l);
}.

(** ** A run-time that satisfies the laws *)
Definition mergeSort {A} (less : A -> A -> bool) (l : list A) : list A :=
  merge_sort (not_after less) l.

Lemma mergeSort_perm {A} (less : A -> A -> bool) l : mergeSort less l ≡ₚ l.
Proof. apply merge_sort_Permutation. Qed.
Lemma mergeSort_sorted {A} (less : A -> A -> bool) l :
  weak_order less -> StronglySorted (not_after less) (mergeSort less l).
Proof.
  intros [Hasym Htrans].
  assert (Transitive (not_after less)) by (intros x y z; apply Htrans).
  assert (Total (not_after less)).
  { intros x y. unfold not_after. destruct (less y x) eqn:E; [right; by apply Hasym|by left]. }
  by apply StronglySorted_merge_sort.
Qed.

#[local] Instance refRuntime : GoRuntime := {|
  growslice c := 2 * c + 1;
  map_range K _ _ V m := map_to_list m;
  sort_Slice A := mergeSort;
  sort_less A := mergeSort;
|}.
#[local] Instance refRuntimeLaws : GoRuntimeLaws.
Proof.
  split; intros; simpl; [lia|done|apply mergeSort_perm|by apply mergeSort_sorted
    |apply mergeSort_perm|by apply mergeSort_sorted].
Qed.

(** ** Lexicographic integer orders are weak orders *)
Lemma weak_order_key {A} (f : A -> Z) : weak_order (fun x y => f x <? f y).
Proof. split; intros *; rewrite ?Z.ltb_lt, ?Z.ltb_ge; lia. Qed.

Lemma weak_order_lex {A} (f g : A -> Z) :
  weak_order (fun x y => if negb (f x =? f y) then f x <? f y else g x <? g y).
Proof.
  split; intros *; repeat (case_match; rewrite ?negb_true_iff, ?negb_false_iff in * );
    rewrite ?Z.eqb_eq, ?Z.eqb_neq, ?Z.ltb_lt, ?Z.ltb_ge in *; lia.
Qed.

Lemma weak_order_ext {A} (less less' : A -> A -> bool) :
  (forall x y, less x y = less' x y) -> weak_order less' -> weak_order less.
Proof. intros E [H1 H2]. split; intros *; rewrite !E; eauto. Qed.

Lemma cmp_Compare_neg x y : (cmp_Compare x y <? 0) = (x <? y).
Proof. unfold cmp_Compare. zcase (x <? y); zcase (y <? x); done. Qed.

(** A strictly sorted permutation is determined by its elements. *)
Lemma sorted_perm_unique {A} (R : relation A) `{!Irreflexive R, !Transitive R} l1 l2 :
  StronglySorted R l1 -> StronglySorted R l2 -> l1 ≡ₚ l2 -> l1 = l2.
Proof.
  intros H1. revert l2. induction H1 as [|x l1 H1 IH Hx]; intros l2 H2 Hp.
  - by apply Permutation_nil_l in Hp.
  - destruct H2 as [|y l2 H2 Hy]; [by apply Permutation_nil_r in Hp|].
    rewrite Forall_forall in Hx, Hy.
    assert (x = y) as ->.
    { assert (x ∈ y :: l2) as Hxin by (rewrite <- Hp; left).
      assert (y ∈ x :: l1) as Hyin by (rewrite Hp; left).
      apply elem_of_cons in Hxin as [->|Hxin]; [done|].
      apply elem_of_cons in Hyin as [->|Hyin]; [done|].
      exfalso. apply (irreflexivity R x). etrans; [by apply Hx|by apply Hy]. }
    f_equal. apply IH; [done|by apply Permutation_cons_inv in Hp].
Qed.

Lemma StronglySorted_impl_in {A} (R S : relation A) l :
  (forall x y, x ∈ l -> y ∈ l -> R x y -> S x y) -> StronglySorted R l -> StronglySorted S l.
Proof.
  intros HRS H. induction H as [|x l H IH Hx]; constructor.
  - apply IH. intros y z Hy Hz. apply HRS; by right.
  - rewrite Forall_forall in *. intros y Hy. apply HRS; [left|by right|by apply Hx].
Qed.

(** * Steps on a shared state that may fail

    A method that changes its receiver and returns [(T, error)]: the state
    after the call is kept also when the call fails, as the receiver is.
    [yields] is the total-correctness judgement of such steps for an invariant
    of the state: from every state that satisfies it the step succeeds with a
    known value and re-establishes it. *)
Definition step (S A : Type) : Type := S -> outcome A * S.

#[export] Instance step_ret {S} : MRet (step S) := fun A a s => (Ok a, s).
#[export] Instance step_bind {S} : MBind (step S) := fun A B k m s =>
  match m s with
  | (Ok a, s') => k a s'
  | (Err e, s') => (Err e, s')
  | (Panic p, s') => (Panic p, s')
  end.
(** A computation that does not touch the state. *)
Definition pure_step {S A} (m : outcome A) : step S A := fun s => (m, s).
Definition fail_step {S A} (e : goerr) : step S A := pure_step (Err e).
Definition get_step {S} : step S S := fun s => (Ok s, s).
Definition put_step {S} (s : S) : step S unit := fun _ => (Ok tt, s).
(** [if err != nil { ... }]: the error as a value. *)
Definition try_step {S A} (m : step S A) : step S (goerr + A) := fun s =>
  match m s with
  | (Ok a, s') => (Ok (inr a), s')
  | (Err e, s') => (Ok (inl e), s')
  | (Panic p, s') => (Panic p, s')
  end.
Definition wrap_step {S A} (msg : string) (m : step S A) : step S A := fun s =>
  let '(r, s') := m s in (wrapErr msg r, s').
Arguments wrap_step {S A} msg%_string m.

Fixpoint step_list {S A B} (f : A -> step S B) (l : list A) : step S (list B) :=
  match l with
  | [] => mret []
  | a :: l' => b ← f a; bs ← step_list f l'; mret (b :: bs)
  end.

Lemma step_bind_ok {S A B} (m : step S A) (k : A -> step S B) s b s' : (m ≫= k) s = (Ok b, s') ->
  exists a s1, m s = (Ok a, s1) /\ k a s1 = (Ok b, s').
Proof. unfold mbind, step_bind. destruct (m s) as [[a| |] s1]; [|done..]. intros E. by exists a, s1. Qed.
Lemma pure_step_ok {S A} (m : outcome A) (s s' : S) a : pure_step m s = (Ok a, s') -> m = Ok a /\ s' = s.
Proof. unfold pure_step. by intros [= -> ->]. Qed.
Lemma wrap_step_ok {S A} msg (m : step S A) s a s' : wrap_step msg m s = (Ok a, s') -> m s = (Ok a, s').
Proof. unfold wrap_step. destruct (m s) as [[| |] ?]; simpl; by intros [= -> ->]. Qed.
Lemma step_list_ok {S A B} (f : A -> step S B) l : forall s bs s', step_list f l s = (Ok bs, s') -> length bs = length l.
Proof.
  induction l as [|a l IH]; intros s bs s' E; [by injection E as <- _|]. cbn [step_list] in E.
  apply step_bind_ok in E as (b & s1 & _ & E). apply step_bind_ok in E as (bs' & s2 & E & E').
  injection E' as <- _. simpl. f_equal. by eapply IH.
Qed.
(** Peels one call off a run that succeeded. *)
Ltac step_inv H x s E := apply step_bind_ok in H as (x & s & E & H).

Section yields.
  Context {S : Type} (inv : S -> Prop).

Definition yields {A} (m : step S A) (a : A) : Prop :=
  forall s, inv s -> exists s', m s = (Ok a, s') /\ inv s'.

Lemma yields_ret {A} (a : A) : yields (mret a) a.
Proof. intros s Hs. by exists s. Qed.
Lemma yields_bind {A B} (m : step S A) (k : A -> step S B) a b : yields m a -> yields (k a) b -> yields (m ≫= k) b.
Proof.
  intros Hm Hk s Hs. destruct (Hm s Hs) as (s' & E & Hs'). unfold mbind, step_bind. rewrite E. by apply Hk.
Qed.
Lemma yields_pure {A} (m : outcome A) a : m = Ok a -> yields (pure_step m) a.
Proof. intros -> s Hs. by exists s. Qed.
Lemma yields_try {A} (m : step S A) a : yields m a -> yields (try_step m) (inr a).
Proof. intros Hm s Hs. destruct (Hm s Hs) as (s' & E & Hs'). exists s'. unfold try_step. by rewrite E. Qed.
Lemma yields_wrap {A} msg (m : step S A) a : yields m a -> yields (wrap_step msg m) a.
Proof. intros Hm s Hs. destruct (Hm s Hs) as (s' & E & Hs'). exists s'. unfold wrap_step. by rewrite E. Qed.
Lemma yields_list {A B} (f : A -> step S B) l bs : Forall2 (fun a b => yields (f a) b) l bs -> yields (step_list f l) bs.
Proof.
  induction 1 as [|a b l bs Hab HF IH]; [apply yields_ret|]. simpl.
  eapply yields_bind; [exact Hab|]. eapply yields_bind; [exact IH|]. apply yields_ret.
Qed.
End yields.

(** ** Steps that may fail

    [ends Q E] of a run: it does not panic, on success its value and final
    state satisfy [Q], on failure its error and final state satisfy [E]. *)
Section ends.
  Context {S : Type}.
Definition ends {A} (Q : A -> S -> Prop) (E : goerr -> S -> Prop) (r : outcome A * S) : Prop :=
  match r with (Ok a, s) => Q a s | (Err e, s) => E e s | (Panic _, _) => False end.

Lemma ends_weaken {A} (Q Q' : A -> S -> Prop) (E E' : goerr -> S -> Prop) r :
  ends Q E r -> (forall a s, Q a s -> Q' a s) -> (forall e s, E e s -> E' e s) -> ends Q' E' r.
Proof. destruct r as [[| |] ?]; simpl; auto. Qed.
Lemma ends_bind {A B} (Q : B -> S -> Prop) (E : goerr -> S -> Prop) (m : step S A) (k : A -> step S B) s :
  ends (fun a s' => ends Q E (k a s')) E (m s) -> ends Q E ((m ≫= k) s).
Proof. unfold mbind, step_bind. by destruct (m s) as [[| |] ?]. Qed.
Lemma ends_ret {A} (Q : A -> S -> Prop) (E : goerr -> S -> Prop) a s : Q a s -> ends Q E (mret (M := step S) a s).
Proof. done. Qed.
Lemma ends_fail {A} (Q : A -> S -> Prop) (E : goerr -> S -> Prop) e s : E e s -> ends Q E (fail_step e s).
Proof. done. Qed.
Lemma ends_pure {A} (Q : A -> S -> Prop) (E : goerr -> S -> Prop) (a : A) m s :
  m = Ok a -> Q a s -> ends Q E (pure_step m s).
Proof. by intros ->. Qed.
Lemma ends_try {A} (Q : goerr + A -> S -> Prop) (E : goerr -> S -> Prop) (m : step S A) s :
  ends (fun a => Q (inr a)) (fun e => Q (inl e)) (m s) -> ends Q E (try_step m s).
Proof. unfold try_step. by destruct (m s) as [[| |] ?]. Qed.
Lemma ends_wrap {A} (Q : A -> S -> Prop) (E E' : goerr -> S -> Prop) msg (m : step S A) s :
  ends Q E (m s) -> (forall e s', E e s' -> E' (ErrWrap msg e) s') -> ends Q E' (wrap_step msg m s).
Proof. unfold wrap_step. destruct (m s) as [[| |] ?]; simpl; auto. Qed.
End ends.

(** * container/heap

    The functions of the standard package on a slice, with the [Less] of the
    code as a parameter, and the contract the callers rely on: they rearrange
    the slice so that no element is less than its parent, so the first one is a
    least one.  An index that the package computes is in range. *)
#[local] Open Scope nat_scope.
Section heap.
  Context {A : Type} (less : A -> A -> bool).

Definition LessAt (h : list A) (i j : nat) : bool :=
  match h !! i, h !! j with Some x, Some y => less x y | _, _ => false end.
Definition Swap (h : list A) (i j : nat) : list A :=
  match h !! i, h !! j with Some x, Some y => <[i := y]> (<[j := x]> h) | _, _ => h end.

Fixpoint up (fuel : nat) (h : list A) (j : nat) : list A :=
  match fuel with
  | O => h
  | S fuel' =>
      let i := (j - 1) / 2 in
      if (i =? j) || negb (LessAt h j i) then h else up fuel' (Swap h i j) i
  end.
Fixpoint down (fuel : nat) (h : list A) (i n : nat) : list A * nat :=
  match fuel with
  | O => (h, i)
  | S fuel' =>
      let j1 := 2 * i + 1 in
      if n <=? j1 then (h, i)
      else
        let j2 := j1 + 1 in
        let j := if (j2 <? n) && LessAt h j2 j1 then j2 else j1 in
        if negb (LessAt h j i) then (h, i) else down fuel' (Swap h i j) j n
  end.
Fixpoint initLoop (i : nat) (h : list A) : list A :=
  match i with
  | O => h
  | S i' => initLoop i' (down (length h) h i' (length h)).1
  end.
Definition heap_Init (h : list A) : list A := initLoop (length h / 2) h.
Definition heap_Push (h : list A) (x : A) : list A := up (S (length h)) (h ++ [x]) (length h).
Definition heap_Fix (h : list A) (i : nat) : list A :=
  let '(h', i') := down (length h) h i (length h) in
  if i <? i' then h' else up (S i) h' i.

(** ** The heap property *)
Definition parent (i : nat) : nat := (i - 1) / 2.
Definition ordered_at (h : list A) (i p : nat) : Prop :=
  forall x y, h !! i = Some x -> h !! p = Some y -> less x y = false.
Definition heap_ordered (h : list A) : Prop := forall i, 0 < i -> ordered_at h i (parent i).

Lemma parent_lt i : 0 < i -> parent i < i.
Proof. intros Hi. unfold parent. apply Nat.Div0.div_lt_upper_bound; lia. Qed.
Lemma parent_child c i : 0 < c -> parent c = i <-> c = 2 * i + 1 \/ c = 2 * i + 2.
Proof.
  intros Hc. unfold parent. pose proof (Nat.div_mod_eq (c - 1) 2). pose proof (Nat.mod_upper_bound (c - 1) 2).
  lia.
Qed.

Lemma Swap_perm h i j : Swap h i j ≡ₚ h.
Proof.
  unfold Swap. destruct (h !! i) as [x|] eqn:Ei; [|done]. destruct (h !! j) as [y|] eqn:Ej; [|done].
  destruct (decide (i = j)) as [->|Hne].
  { rewrite list_insert_insert_eq, Ei in *. simplify_eq. by rewrite list_insert_id. }
  apply Permutation_inj. split; [by rewrite !length_insert|].
  exists (fun k => if decide (k = i) then j else if decide (k = j) then i else k). split.
  - intros a b. repeat case_decide; lia.
  - intros k. pose proof (lookup_lt_Some _ _ _ Ei). pose proof (lookup_lt_Some _ _ _ Ej).
    repeat case_decide; subst.
    + by rewrite list_lookup_insert_eq by (rewrite length_insert; done).
    + rewrite list_lookup_insert_ne by done. by rewrite list_lookup_insert_eq.
    + by rewrite !list_lookup_insert_ne.
Qed.
Lemma Swap_lookup h i j k x y : h !! i = Some x -> h !! j = Some y -> i <> j ->
  Swap h i j !! k = if decide (k = i) then Some y else if decide (k = j) then Some x else h !! k.
Proof.
  intros Ei Ej Hne. unfold Swap. rewrite Ei, Ej. pose proof (lookup_lt_Some _ _ _ Ei). pose proof (lookup_lt_Some _ _ _ Ej).
  repeat case_decide; subst.
  - by rewrite list_lookup_insert_eq by (rewrite length_insert; done).
  - rewrite list_lookup_insert_ne by done. by rewrite list_lookup_insert_eq.
  - by rewrite !list_lookup_insert_ne.
Qed.
Lemma up_perm fuel : forall h j, up fuel h j ≡ₚ h.
Proof.
  induction fuel as [|fuel IH]; intros h j; [done|]. cbn [up]. destruct (_ || _); [done|].
  by rewrite IH, Swap_perm.
Qed.
Lemma down_perm fuel : forall h i n, (down fuel h i n).1 ≡ₚ h.
Proof.
  induction fuel as [|fuel IH]; intros h i n; [done|]. cbn [down]. destruct (n <=? _); [done|].
  destruct (negb _); [done|]. by rewrite IH, Swap_perm.
Qed.
Lemma heap_Push_perm h x : heap_Push h x ≡ₚ x :: h.
Proof. unfold heap_Push. rewrite up_perm. by rewrite (comm (++)). Qed.
Lemma heap_Fix_perm h i : heap_Fix h i ≡ₚ h.
Proof.
  unfold heap_Fix. pose proof (down_perm (length h) h i (length h)) as E.
  destruct (down _ _ _ _) as [h' i']. simpl in E. destruct (_ <? _); [done|]. by rewrite up_perm.
Qed.

  Context (Hless : weak_order less).

Lemma less_irrefl x : less x x = false.
Proof. destruct (less x x) eqn:E; [by rewrite (wo_asym _ Hless _ _ E) in E|done]. Qed.
Lemma less_trans_le x y z : less y x = false -> less z y = false -> less z x = false.
Proof. apply Hless. Qed.

(** Everything is in order except the element at [j] against its parent. *)
Definition above_open (h : list A) (j : nat) : Prop :=
  (forall i, 0 < i -> i <> j -> ordered_at h i (parent i)) /\
  (forall c, 0 < c -> 0 < j -> parent c = j -> ordered_at h c (parent j)).
Lemma up_ordered fuel : forall h j, j < fuel -> j < length h -> above_open h j -> heap_ordered (up fuel h j).
Proof.
  induction fuel as [|fuel IH]; intros h j Hf Hj [H1 H2]; [lia|]. cbn [up]. fold (parent j).
  destruct (decide (j = 0)) as [->|Hj0].
  { cbn. intros i Hi. apply H1; lia. }
  pose proof (parent_lt j ltac:(lia)) as Hp. destruct (parent j =? j) eqn:E; [apply Nat.eqb_eq in E; lia|]. cbn [orb].
  destruct (lookup_lt_is_Some_2 h j Hj) as [x Ex]. destruct (lookup_lt_is_Some_2 h (parent j) ltac:(lia)) as [y Ey].
  unfold LessAt. rewrite Ex, Ey. destruct (less x y) eqn:El; cbn [negb].
  - apply IH; [lia|rewrite (Permutation_length (Swap_perm h (parent j) j)); lia|].
    assert (forall k, Swap h (parent j) j !! k = if decide (k = parent j) then Some x else if decide (k = j) then Some y else h !! k) as Hs
      by (intros k; by apply Swap_lookup; [..|lia]).
    split.
    + intros i Hi Hne a b. rewrite !Hs. destruct (decide (i = parent j)); [done|]. destruct (decide (i = j)) as [->|Hij].
      * intros [= <-]. destruct (decide (parent j = parent j)) as [_|]; [|done]. intros [= <-]. by apply (wo_asym _ Hless).
      * intros Ha. destruct (decide (parent i = parent j)) as [Epp|Npp].
        -- intros [= <-]. specialize (H1 i Hi Hij). rewrite Epp in H1. eapply (less_trans_le x y); [by apply (wo_asym _ Hless)|].
           by apply H1.
        -- destruct (decide (parent i = j)) as [Epj|Npj]; [|by apply H1].
           intros [= <-]. by apply (H2 i Hi ltac:(lia) Epj).
    + intros c Hc Hpj Epc a b. rewrite !Hs. pose proof (parent_lt (parent j) Hpj) as Hpp.
      destruct (decide (c = parent j)) as [->|]; [pose proof (parent_lt _ Hc); lia|].
      destruct (decide (parent (parent j) = parent j)); [lia|]. destruct (decide (parent (parent j) = j)); [lia|].
      destruct (decide (c = j)) as [->|Hcj].
      * intros [= <-] Hb. by apply (H1 (parent j) Hpj ltac:(lia)).
      * intros Ha Hb. eapply (less_trans_le b y); [by apply (H1 (parent j) Hpj ltac:(lia))|].
        specialize (H1 c Hc Hcj). rewrite Epc in H1. by apply H1.
  - intros i Hi. destruct (decide (i = j)) as [->|Hne]; [|by apply H1]. intros a b Ha Hb. by simplify_eq.
Qed.

(** Everything is in order except the children of [i] against it. *)
Definition below_open (h : list A) (i : nat) : Prop :=
  (forall k, 0 < k -> parent k <> i -> ordered_at h k (parent k)) /\
  (forall c, 0 < c -> 0 < i -> parent c = i -> ordered_at h c (parent i)).
Lemma down_ordered fuel : forall h i, length h <= fuel + i -> below_open h i -> heap_ordered (down fuel h i (length h)).1.
Proof.
  induction fuel as [|fuel IH]; intros h i Hf [H1 H2].
  { cbn [down fst]. intros k Hk a b Ha Hb. pose proof (lookup_lt_Some _ _ _ Ha). pose proof (parent_lt k Hk).
    assert (parent k <> i) as Hne by lia. exact (H1 k Hk Hne a b Ha Hb). }
  cbn [down]. destruct (length h <=? 2 * i + 1) eqn:E1; [apply Nat.leb_le in E1|apply Nat.leb_gt in E1].
  { cbn [fst]. intros k Hk a b Ha Hb. pose proof (lookup_lt_Some _ _ _ Ha).
    assert (parent k <> i) as Hne by (intros Ep; apply parent_child in Ep as [->| ->]; lia). exact (H1 k Hk Hne a b Ha Hb). }
  set (j := if (2 * i + 1 + 1 <? length h) && LessAt h (2 * i + 1 + 1) (2 * i + 1) then 2 * i + 1 + 1 else 2 * i + 1).
  assert (j < length h /\ i < j /\ parent j = i /\ forall c y z, 0 < c -> parent c = i -> h !! c = Some y -> h !! j = Some z -> less y z = false)
    as (Hj & Hij & Hpj & Hleast).
  { destruct (lookup_lt_is_Some_2 h (2 * i + 1) E1) as [u Eu]. unfold j.
    destruct (2 * i + 1 + 1 <? length h) eqn:E2; [apply Nat.ltb_lt in E2|apply Nat.ltb_ge in E2]; cbn [andb].
    - destruct (lookup_lt_is_Some_2 h (2 * i + 1 + 1) E2) as [v Ev]. unfold LessAt. rewrite Ev, Eu.
      destruct (less v u) eqn:Evu; (split_and!; [lia|lia|apply parent_child; lia|]);
        intros c y z Hc Ec Ey Ez; apply parent_child in Ec as [->|Ec]; try done;
        [|replace c with (2 * i + 1 + 1) in Ey by lia| |replace c with (2 * i + 1 + 1) in Ey by lia];
        simplify_eq; auto using less_irrefl. by apply (wo_asym _ Hless).
    - split_and!; [lia|lia|apply parent_child; lia|]. intros c y z Hc Ec Ey Ez. pose proof (lookup_lt_Some _ _ _ Ey).
      apply parent_child in Ec as [->|Ec]; [|lia|done]. simplify_eq. apply less_irrefl. }
  clearbody j. destruct (lookup_lt_is_Some_2 h j Hj) as [x Ex]. destruct (lookup_lt_is_Some_2 h i ltac:(lia)) as [y Ey].
  unfold LessAt at 1. rewrite Ex, Ey. destruct (less x y) eqn:El; cbn [negb].
  - pose proof (Permutation_length (Swap_perm h i j)) as El'. rewrite <- El'. apply IH; [lia|].
    assert (forall k, Swap h i j !! k = if decide (k = i) then Some x else if decide (k = j) then Some y else h !! k) as Hs
      by (intros k; by apply Swap_lookup; [..|lia]).
    split.
    + intros k Hk Hne a b. rewrite !Hs. destruct (decide (k = i)) as [->|Hki].
      * intros [= <-]. pose proof (parent_lt i Hk). destruct (decide (parent i = i)); [lia|]. destruct (decide (parent i = j)); [lia|].
        by apply (H2 j ltac:(lia) Hk Hpj).
      * destruct (decide (k = j)) as [->|Hkj].
        -- intros [= <-]. rewrite Hpj. destruct (decide (i = i)) as [_|]; [|done]. intros [= <-]. by apply (wo_asym _ Hless).
        -- intros Ha. destruct (decide (parent k = i)) as [Epi|Npi]; [intros [= <-]; by eapply Hleast|].
           destruct (decide (parent k = j)); [done|]. by apply H1.
    + intros c Hc _ Epc a b. rewrite !Hs. pose proof (parent_lt c Hc). rewrite Hpj.
      destruct (decide (c = i)); [lia|]. destruct (decide (c = j)); [lia|]. destruct (decide (i = i)) as [_|]; [|done].
      intros Ha [= <-]. specialize (H1 c Hc ltac:(lia)). rewrite Epc in H1. by apply H1.
  - cbn [fst]. intros k Hk a b Ha Hb. destruct (decide (parent k = i)) as [Epi|Npi]; [|by apply (H1 k Hk Npi a b)].
    rewrite Epi, Ey in Hb. injection Hb as <-. apply (less_trans_le y x a); [exact El|by apply (Hleast k)].
Qed.

Lemma heap_ordered_nil : heap_ordered [].
Proof. intros i _ x y Hx. by rewrite lookup_nil in Hx. Qed.
Lemma heap_Push_ordered h x : heap_ordered h -> heap_ordered (heap_Push h x).
Proof.
  intros Hh. apply up_ordered; [lia|rewrite length_app; simpl; lia|]. split.
  - intros i Hi Hne a b Ha Hb. pose proof (lookup_lt_Some _ _ _ Ha) as Hl. rewrite length_app in Hl. simpl in Hl.
    pose proof (parent_lt i Hi). rewrite lookup_app_l in Ha, Hb by lia. by eapply (Hh i Hi).
  - intros c Hc Hl Epc a b Ha. pose proof (lookup_lt_Some _ _ _ Ha) as Hl'. rewrite length_app in Hl'. simpl in Hl'.
    pose proof (parent_lt c Hc). lia.
Qed.
(** The least element was replaced. *)
Lemma heap_Fix_root x h y : heap_ordered (x :: h) -> heap_ordered (heap_Fix (y :: h) 0).
Proof.
  intros Hh. unfold heap_Fix.
  assert (heap_ordered (down (length (y :: h)) (y :: h) 0 (length (y :: h))).1) as Hd.
  { apply down_ordered; [lia|]. split; [|lia]. intros k Hk Hp a b Ha Hb. eapply (Hh k Hk).
    - by destruct k.
    - by destruct (parent k). }
  destruct (down _ _ _ _) as [h' i']. simpl in Hd. destruct (0 <? i'); [done|]. cbn. done.
Qed.
(** The first element of a heap is a least one. *)
Lemma heap_root_least x h y : heap_ordered (x :: h) -> y ∈ x :: h -> less y x = false.
Proof.
  intros Hh. assert (forall i z, (x :: h) !! i = Some z -> less z x = false) as H.
  { induction i as [i IH] using (well_founded_induction lt_wf). intros z Hz. destruct (decide (i = 0)) as [->|Hi].
    - simpl in Hz. simplify_eq. apply less_irrefl.
    - pose proof (parent_lt i ltac:(lia)) as Hp. pose proof (lookup_lt_Some _ _ _ Hz).
      destruct (lookup_lt_is_Some_2 (x :: h) (parent i) ltac:(lia)) as [w Hw].
      eapply (less_trans_le x w); [by eapply IH|]. by apply (Hh i ltac:(lia)). }
  intros [i Hi]%list_elem_of_lookup. by apply (H i).
Qed.
End heap.
