(* ===== verification/Versions.v ===== *)
(** * Versions of a sample: the abstract meaning of merging

    Every sample carries the sequence number of the write that produced it.
    The memtable, the part reader, compaction and the query operators all
    reduce a bag of versions to one sample per timestamp.  This file says what
    they must return: [resolves versions out].  [latest] is an executable
    reference, and the closure lemmas are what the composition of the
    components needs: merging merged results, selecting a time range, and
    dropping deleted versions all commute with [resolves]. *)
From S2P Require Import Prelude Model Runtime.
From stdpp Require Import prelude strings list sorting gmap.
From Stdlib Require Import ZArith Lia.
#[local] Open Scope Z_scope.

Definition ts_lt (x y : VersionedSample) : Prop := vs_Timestamp x < vs_Timestamp y.
Definition ts_le (x y : VersionedSample) : Prop := vs_Timestamp x <= vs_Timestamp y.
#[export] Instance ts_lt_irrefl : Irreflexive ts_lt.
Proof. intros x. unfold complement, ts_lt. lia. Qed.
#[export] Instance ts_lt_trans : Transitive ts_lt.
Proof. intros x y z. unfold ts_lt. lia. Qed.
#[export] Instance ts_le_trans : Transitive ts_le.
Proof. intros x y z. unfold ts_le. lia. Qed.

(** [y] is a version of the same instant at least as new as [x]. *)
Definition supersedes (y x : VersionedSample) : Prop :=
  vs_Timestamp y = vs_Timestamp x /\ vs_WriteSeq x <= vs_WriteSeq y.

Lemma supersedes_refl x : supersedes x x.
Proof. split; lia. Qed.

(** [out] has the versions' timestamps, each once and in increasing order,
    and for each one a newest version. *)
Record resolves (versions out : list VersionedSample) : Prop := {
  rs_sorted : StronglySorted ts_lt out;
  rs_sound x : x ∈ out -> x ∈ versions;
  rs_newest x : x ∈ versions -> exists y, y ∈ out /\ supersedes y x;
}.

(** Versions of one instant are told apart by their sequence number. *)
Definition versioned (xs : list VersionedSample) : Prop := forall x y, x ∈ xs -> y ∈ xs ->
  vs_Timestamp x = vs_Timestamp y -> vs_WriteSeq x = vs_WriteSeq y -> x = y.

Lemma ts_sorted_inj out x y :
  StronglySorted ts_lt out -> x ∈ out -> y ∈ out -> vs_Timestamp x = vs_Timestamp y -> x = y.
Proof.
  induction 1 as [|z out Hs IH Hz]; intros Hx Hy E; [by apply elem_of_nil in Hx|].
  rewrite Forall_forall in Hz.
  apply elem_of_cons in Hx as [->|Hx]; apply elem_of_cons in Hy as [->|Hy]; auto.
  - specialize (Hz _ Hy). unfold ts_lt in Hz. lia.
  - specialize (Hz _ Hx). unfold ts_lt in Hz. lia.
Qed.

Lemma ts_sorted_NoDup out : StronglySorted ts_lt out -> NoDup out.
Proof.
  induction 1 as [|z out Hs IH Hz]; constructor; [|done].
  intros Hin. rewrite Forall_forall in Hz. by apply (irreflexivity ts_lt z), Hz.
Qed.

(** The promise determines the result. *)
Lemma resolves_unique xs ys zs :
  versioned xs -> resolves xs ys -> resolves xs zs -> ys = zs.
Proof.
  intros Hv Hy Hz. apply (sorted_perm_unique ts_lt); [apply Hy|apply Hz|].
  assert (forall ys zs, resolves xs ys -> resolves xs zs -> forall x, x ∈ ys -> x ∈ zs) as Hsub.
  { clear ys zs Hy Hz. intros ys zs Hy Hz x Hx.
    destruct (rs_newest _ _ Hz x) as (y & Hyin & Et & Es); [by apply (rs_sound _ _ Hy)|].
    destruct (rs_newest _ _ Hy y) as (x' & Hx' & Et' & Es'); [by apply (rs_sound _ _ Hz)|].
    assert (x' = x) as -> by (eapply ts_sorted_inj; [apply Hy|done|done|congruence]).
    assert (x = y) as ->; [|done].
    apply Hv; [by apply (rs_sound _ _ Hy)|by apply (rs_sound _ _ Hz)|congruence|lia]. }
  apply NoDup_Permutation; [eapply ts_sorted_NoDup, Hy|eapply ts_sorted_NoDup, Hz|].
  intros x. split; [by apply Hsub|by apply Hsub].
Qed.

(** A list that is strictly increasing already is its own result. *)
Lemma resolves_self xs : StronglySorted ts_lt xs -> resolves xs xs.
Proof. intros Hs. split; [done|done|]. intros x Hx. exists x. by repeat split. Qed.

Lemma resolves_nil : resolves [] [].
Proof. apply resolves_self. constructor. Qed.

Lemma resolves_nil_inv ys : resolves [] ys -> ys = [].
Proof.
  intros H. destruct ys as [|y ys]; [done|].
  exfalso. apply (not_elem_of_nil y), (rs_sound _ _ H). left.
Qed.

(** Only the set of versions matters. *)
Lemma resolves_ext xs xs' ys : (forall x, x ∈ xs <-> x ∈ xs') -> resolves xs ys -> resolves xs' ys.
Proof.
  intros E H. split; [apply H|..].
  - intros x Hx. by apply E, (rs_sound _ _ H).
  - intros x Hx. apply (rs_newest _ _ H). by apply E.
Qed.
#[export] Instance resolves_perm : Proper ((≡ₚ) ==> (=) ==> iff) resolves.
Proof. intros xs xs' E ys _ <-. split; apply resolves_ext; intros x; by rewrite E. Qed.

(** Merging what was merged before equals merging all versions at once. *)
Lemma resolves_trans xs1 xs2 ys1 ys2 zs :
  resolves xs1 ys1 -> resolves xs2 ys2 -> resolves (ys1 ++ ys2) zs -> resolves (xs1 ++ xs2) zs.
Proof.
  intros H1 H2 H. split; [apply H|..].
  - intros x Hx. apply (rs_sound _ _ H) in Hx. rewrite !elem_of_app in *.
    destruct Hx as [Hx|Hx]; [left; by apply (rs_sound _ _ H1)|right; by apply (rs_sound _ _ H2)].
  - intros x Hx. assert (exists y, y ∈ ys1 ++ ys2 /\ supersedes y x) as (y & Hy & Et & Es).
    { apply elem_of_app in Hx as [Hx|Hx];
        [apply (rs_newest _ _ H1) in Hx|apply (rs_newest _ _ H2) in Hx];
        destruct Hx as (y & Hy & ?); exists y; rewrite elem_of_app; auto. }
    destruct (rs_newest _ _ H y Hy) as (z & Hz & Et' & Es'). exists z. split; [done|].
    split; [congruence|lia].
Qed.

(** The same for any number of sources. *)
Lemma resolves_concat xss yss zs :
  Forall2 resolves xss yss -> resolves (concat yss) zs -> resolves (concat xss) zs.
Proof.
  intros HF H. split; [apply H|..].
  - intros x Hx. apply (rs_sound _ _ H) in Hx. clear H. induction HF as [|xs ys xss yss Hr HF IH]; [done|].
    simpl in *. rewrite elem_of_app in *. destruct Hx as [Hx|Hx]; [left; by apply (rs_sound _ _ Hr)|auto].
  - intros x Hx. assert (exists y, y ∈ concat yss /\ supersedes y x) as (y & Hy & Et & Es).
    { clear H. induction HF as [|xs ys xss yss Hr HF IH]; [by apply elem_of_nil in Hx|].
      simpl in *. apply elem_of_app in Hx as [Hx|Hx];
        [apply (rs_newest _ _ Hr) in Hx|apply IH in Hx]; destruct Hx as (y & Hy & ?);
        exists y; rewrite elem_of_app; auto. }
    destruct (rs_newest _ _ H y Hy) as (z & Hz & Et' & Es'). exists z. split; [done|].
    split; [congruence|lia].
Qed.

(** Selections that keep a newer version whenever they keep an older one. *)
Definition up_closed (P : VersionedSample -> bool) : Prop :=
  forall x y, P x = true -> supersedes y x -> P y = true.

Lemma StronglySorted_filter {A} (R : relation A) (P : A -> bool) l :
  StronglySorted R l -> StronglySorted R (filter P l).
Proof.
  induction 1 as [|x l Hs IH Hx]; [constructor|].
  rewrite filter_cons. case_decide; [|done]. constructor; [done|].
  rewrite Forall_forall in *. intros y [_ Hy]%list_elem_of_filter. by apply Hx.
Qed.

Lemma resolves_filter P xs ys :
  up_closed P -> resolves xs ys -> resolves (filter P xs) (filter P ys).
Proof.
  intros HP H. split.
  - apply StronglySorted_filter, H.
  - intros x. rewrite !list_elem_of_filter. intros [? ?]. split; [done|by apply (rs_sound _ _ H)].
  - intros x [HPx Hx]%list_elem_of_filter. destruct (rs_newest _ _ H x Hx) as (y & Hy & Hsup).
    exists y. split; [|done]. apply list_elem_of_filter. split; [|done].
    apply Is_true_true in HPx. apply Is_true_true. by eapply HP.
Qed.

(** Selecting by time, the bounds included. *)
Definition in_range (start end_ : Z) (x : VersionedSample) : bool :=
  (start <=? vs_Timestamp x) && (vs_Timestamp x <=? end_).
Lemma in_range_up_closed s e : up_closed (in_range s e).
Proof. intros x y Hx [E _]. unfold in_range. by rewrite E. Qed.

(** ** An executable reference: keep a sorted list of newest versions, a later
    element winning a tie. *)
Fixpoint put (s : VersionedSample) (l : list VersionedSample) : list VersionedSample :=
  match l with
  | [] => [s]
  | x :: l' =>
      if vs_Timestamp s <? vs_Timestamp x then s :: l
      else if vs_Timestamp x <? vs_Timestamp s then x :: put s l'
      else if vs_WriteSeq x <=? vs_WriteSeq s then s :: l' else l
  end.
Definition latest_from (acc xs : list VersionedSample) : list VersionedSample := foldl (fun l s => put s l) acc xs.
Definition latest (xs : list VersionedSample) : list VersionedSample := latest_from [] xs.

Lemma elem_of_put x s l : x ∈ put s l -> x = s \/ x ∈ l.
Proof.
  induction l as [|y l IH]; simpl; [set_solver|].
  repeat case_match; set_solver.
Qed.

Lemma put_sorted s l : StronglySorted ts_lt l -> StronglySorted ts_lt (put s l).
Proof.
  induction 1 as [|y l Hs IH Hy]; simpl; [repeat constructor|].
  rewrite Forall_forall in Hy.
  zcase (vs_Timestamp s <? vs_Timestamp y).
  { constructor; [by constructor; [|apply Forall_forall]|].
    constructor; [done|]. apply Forall_forall. intros z Hz. specialize (Hy z Hz). unfold ts_lt in *. lia. }
  zcase (vs_Timestamp y <? vs_Timestamp s).
  { constructor; [done|]. apply Forall_forall. intros z [->|Hz]%elem_of_put; [done|by apply Hy]. }
  case_match; constructor; try done; apply Forall_forall; [|done].
  intros z Hz. specialize (Hy z Hz). unfold ts_lt in *. lia.
Qed.

Lemma put_newest s l x : StronglySorted ts_lt l -> (x = s \/ x ∈ l) ->
  exists y, y ∈ put s l /\ supersedes y x.
Proof.
  unfold supersedes. induction 1 as [|z l Hs IH Hz]; simpl; intros Hx.
  { destruct Hx as [->|Hx]; [exists s|]; set_solver. }
  zcase (vs_Timestamp s <? vs_Timestamp z). { exists x. set_solver by lia. }
  zcase (vs_Timestamp z <? vs_Timestamp s).
  { destruct (decide (x = z)) as [->|]; [exists z; set_solver by lia|].
    destruct IH as (y & ? & ?); [set_solver|]. exists y. set_solver. }
  destruct (vs_WriteSeq z <=? vs_WriteSeq s) eqn:E1; [apply Z.leb_le in E1|apply Z.leb_gt in E1].
  - destruct (decide (x = z)) as [->|]; [exists s; split; [left|lia]|]. exists x. set_solver by lia.
  - destruct (decide (x = s)) as [->|]; [exists z; split; [left|lia]|]. exists x. set_solver by lia.
Qed.

Lemma latest_from_resolves xs : forall acc vs, resolves vs acc -> resolves (vs ++ xs) (latest_from acc xs).
Proof.
  unfold latest_from. induction xs as [|x xs IH]; intros acc vs H; simpl; [by rewrite app_nil_r|].
  replace (vs ++ x :: xs) with ((vs ++ [x]) ++ xs) by by rewrite <- (assoc_L (++)).
  apply IH. split.
  - apply put_sorted, H.
  - intros y Hy. apply elem_of_put in Hy as [->|Hy]; rewrite elem_of_app; [right; left|left; by apply (rs_sound _ _ H)].
  - intros y Hy. rewrite elem_of_app, list_elem_of_singleton in Hy.
    destruct Hy as [Hy| ->].
    + destruct (rs_newest _ _ H y Hy) as (z & Hz & Et & Es).
      destruct (put_newest x acc z) as (w & Hw & Et' & Es'); [apply H|by right|].
      exists w. split; [done|]. split; [congruence|lia].
    + apply put_newest; [apply H|by left].
Qed.

Lemma latest_resolves xs : resolves xs (latest xs).
Proof. apply (latest_from_resolves xs [] []), resolves_nil. Qed.

Lemma latest_unique xs ys : versioned xs -> resolves xs ys -> ys = latest xs.
Proof. intros Hv H. eapply resolves_unique; [done|done|apply latest_resolves]. Qed.

(** ** The reference picks the last of the newest versions

    [newest] folds over the versions of one instant the way the code does,
    [>=] letting a later element win a tie; [picks] characterises [latest]
    exactly, and so any routine with the same tie-breaking. *)
Definition newer (best : option VersionedSample) (s : VersionedSample) : option VersionedSample :=
  match best with
  | None => Some s
  | Some b => if vs_WriteSeq b <=? vs_WriteSeq s then Some s else best
  end.
Definition newest (l : list VersionedSample) : option VersionedSample := foldl newer None l.
Definition at_time (t : Z) (xs : list VersionedSample) : list VersionedSample :=
  filter (fun x => vs_Timestamp x = t) xs.

Record picks (xs ys : list VersionedSample) : Prop := {
  pk_sorted : StronglySorted ts_lt ys;
  pk_newest x : x ∈ ys <-> newest (at_time (vs_Timestamp x) xs) = Some x;
}.

Lemma picks_unique xs ys zs : picks xs ys -> picks xs zs -> ys = zs.
Proof.
  intros Hy Hz. apply (sorted_perm_unique ts_lt); [apply Hy|apply Hz|].
  apply NoDup_Permutation; [eapply ts_sorted_NoDup, Hy|eapply ts_sorted_NoDup, Hz|].
  intros x. by rewrite (pk_newest _ _ Hy), (pk_newest _ _ Hz).
Qed.

Lemma newest_snoc l s : newest (l ++ [s]) = newer (newest l) s.
Proof. unfold newest. by rewrite foldl_app. Qed.
Lemma at_time_app t l1 l2 : at_time t (l1 ++ l2) = at_time t l1 ++ at_time t l2.
Proof. apply filter_app. Qed.
Lemma at_time_elem t l x : x ∈ at_time t l -> vs_Timestamp x = t.
Proof. by intros [? _]%list_elem_of_filter. Qed.
Lemma foldl_newer_elem l : forall b x, foldl newer b l = Some x -> x ∈ l \/ b = Some x.
Proof.
  induction l as [|y l IH]; intros b x; simpl; [auto|]. intros [Hx|Hx]%IH; [left; by right|].
  unfold newer in Hx. repeat case_match; simplify_eq; auto; left; left.
Qed.
Lemma newest_elem l x : newest l = Some x -> x ∈ l.
Proof. intros [?|?]%foldl_newer_elem; done. Qed.
Lemma newest_time t xs x : newest (at_time t xs) = Some x -> vs_Timestamp x = t.
Proof. intros H%newest_elem. by apply at_time_elem in H. Qed.

Lemma put_picks xs ys s : picks xs ys -> picks (xs ++ [s]) (put s ys).
Proof.
  intros [Hs Hp]. split; [by apply put_sorted|]. intros x. rewrite at_time_app.
  unfold at_time at 2. rewrite filter_cons, filter_nil. simpl.
  assert (x ∈ put s ys <-> if decide (vs_Timestamp s = vs_Timestamp x)
    then newer (newest (at_time (vs_Timestamp x) xs)) s = Some x else x ∈ ys) as E.
  { clear - Hs Hp. case_decide as Ht.
    - assert (forall y, y ∈ ys -> vs_Timestamp y = vs_Timestamp x -> newest (at_time (vs_Timestamp x) xs) = Some y) as Hin.
      { intros y Hy <-. by apply Hp. }
      assert ((forall y, y ∈ ys -> vs_Timestamp y <> vs_Timestamp x) -> newest (at_time (vs_Timestamp x) xs) = None) as Hout.
      { intros Hno. destruct (newest _) as [y|] eqn:Ey; [|done]. pose proof (newest_time _ _ _ Ey) as Et.
        exfalso. apply (Hno y); [|done]. apply Hp. by rewrite Et. }
      clear Hp. revert Hin Hout. generalize (newest (at_time (vs_Timestamp x) xs)). intros b Hin Hout.
      induction Hs as [|y ys Hs IH Hy]; simpl.
      + rewrite Hout by (by intros y ?%elem_of_nil). simpl. rewrite list_elem_of_singleton. naive_solver.
      + rewrite Forall_forall in Hy. unfold ts_lt in Hy.
        zcase (vs_Timestamp s <? vs_Timestamp y).
        * rewrite Hout; [|intros z [->|Hz]%elem_of_cons; [lia|specialize (Hy z Hz); lia]]. simpl.
          rewrite elem_of_cons. split; [intros [->|[->|Hx]%elem_of_cons]; [done|lia|specialize (Hy x Hx); lia]|].
          intros [= ->]. by left.
        * zcase (vs_Timestamp y <? vs_Timestamp s).
          { rewrite elem_of_cons, IH; [|intros z Hz; apply Hin; by right|].
            - split; [intros [->|?]; [lia|done]|auto].
            - intros Hno. apply Hout. intros z [->|Hz]%elem_of_cons; [lia|by apply Hno]. }
          assert (b = Some y) as -> by (apply Hin; [left|lia]). simpl.
          case_match; rewrite elem_of_cons; (split; [intros [->|Hx]; [done|specialize (Hy x Hx); lia]|]);
            intros [= ->]; by left.
    - clear Hp. induction Hs as [|y ys Hs IH Hy]; simpl; [rewrite list_elem_of_singleton, elem_of_nil; naive_solver|].
      zcase (vs_Timestamp s <? vs_Timestamp y); [rewrite elem_of_cons; naive_solver|].
      zcase (vs_Timestamp y <? vs_Timestamp s); [rewrite !elem_of_cons, IH; done|].
      assert (x <> s) by congruence. assert (x <> y) by (intros ->; apply Ht; lia).
      case_match; rewrite !elem_of_cons; naive_solver. }
  rewrite E. case_decide; [by rewrite newest_snoc|]. by rewrite app_nil_r, Hp.
Qed.

Lemma latest_picks xs : picks xs (latest xs).
Proof.
  unfold latest, latest_from. induction xs as [|x xs IH] using rev_ind.
  - split; [constructor|]. intros x. simpl. by rewrite elem_of_nil.
  - rewrite foldl_app. simpl. by apply put_picks.
Qed.
Lemma picks_latest xs ys : picks xs ys -> ys = latest xs.
Proof. intros H. by eapply picks_unique, latest_picks. Qed.
