(* ===== verification/MemColumn.v ===== *)
(** * Column buffers of the memtable (internal/memtable/column_buffer.go, pool.go)

    One [columnBuffer] holds the samples of one field of one series in the
    order they were written: parallel slices for timestamps, sequence numbers
    and the values of the column's type, booleans packed 64 to a word.  A slice
    is its elements and its capacity; bytes are accounted from capacities, so
    they are part of the model.  Buffers come from and return to a free list
    shared by all memtables.  Byte counts and lengths stay below 2^63 because
    they are sums over memory in use, so they are unbounded [Z] here, except in
    [nextSliceCapacity], which tests for overflow. *)
From S2P Require Import Prelude Model Runtime.
From stdpp Require Import prelude strings list gmap.
From Stdlib Require Import ZArith Lia.
#[local] Open Scope Z_scope.

(** ** Go slices *)
Record slice (A : Type) := mkSlice { sl_elems : list A; sl_cap : Z }.
Arguments mkSlice {A}.
Arguments sl_elems {A}.
Arguments sl_cap {A}.

Definition nilSlice {A} : slice A := mkSlice [] 0.
(** [s[:0]] *)
Definition sl_reset {A} (s : slice A) : slice A := mkSlice [] (sl_cap s).
(** [append(s, x)]: in place within the capacity, else reallocated. *)
Definition sl_append `{GoRuntime} {A} (s : slice A) (x : A) : slice A :=
  mkSlice (sl_elems s ++ [x])
    (if len (sl_elems s) <? sl_cap s then sl_cap s else growslice (sl_cap s)).

(** ** The buffer *)
Record columnBuffer := mkColumn {
  cb_seriesID : Z;
  cb_fieldID : Z;
  cb_fieldType : Z;
  cb_times : slice Z;
  cb_writeSeqs : slice Z;
  cb_floats : slice Z;
  cb_ints : slice Z;
  cb_strings : slice bytes;
  cb_boolBits : slice Z;
  cb_count : Z;
  cb_memBytes : Z;
  cb_lastTimestamp : Z;
  cb_hasLast : bool;
}.

Definition zeroColumn : columnBuffer :=
  mkColumn 0 0 0 nilSlice nilSlice nilSlice nilSlice nilSlice nilSlice 0 0 0 false.

(** Assignments to single fields. *)
Definition set_fieldType ft c := mkColumn (cb_seriesID c) (cb_fieldID c) ft (cb_times c)
  (cb_writeSeqs c) (cb_floats c) (cb_ints c) (cb_strings c) (cb_boolBits c) (cb_count c)
  (cb_memBytes c) (cb_lastTimestamp c) (cb_hasLast c).
Definition set_slices ts ws fs ns ss bs c := mkColumn (cb_seriesID c) (cb_fieldID c)
  (cb_fieldType c) ts ws fs ns ss bs (cb_count c) (cb_memBytes c) (cb_lastTimestamp c) (cb_hasLast c).
Definition set_values fs ns ss bs c := set_slices (cb_times c) (cb_writeSeqs c) fs ns ss bs c.
Definition set_count n mb c := mkColumn (cb_seriesID c) (cb_fieldID c) (cb_fieldType c)
  (cb_times c) (cb_writeSeqs c) (cb_floats c) (cb_ints c) (cb_strings c) (cb_boolBits c) n
  mb (cb_lastTimestamp c) (cb_hasLast c).
Definition set_ids sid fid ft c := mkColumn sid fid ft
  (cb_times c) (cb_writeSeqs c) (cb_floats c) (cb_ints c) (cb_strings c) (cb_boolBits c)
  (cb_count c) (cb_memBytes c) (cb_lastTimestamp c) (cb_hasLast c).
Definition set_last t h c := mkColumn (cb_seriesID c) (cb_fieldID c) (cb_fieldType c)
  (cb_times c) (cb_writeSeqs c) (cb_floats c) (cb_ints c) (cb_strings c) (cb_boolBits c)
  (cb_count c) (cb_memBytes c) t h.

(** [unsafe.Sizeof] on a 64-bit platform. *)
Definition columnBufferBaseBytes : Z := 192.
Definition int64Bytes : Z := 8.
Definition uint64Bytes : Z := 8.
Definition float64Bytes : Z := 8.
Definition stringHeaderBytes : Z := 16.

Definition boolWords (count : Z) : Z := if count <=? 0 then 0 else (count + 63) ÷ 64.

Definition capacityBytes (c : columnBuffer) : Z :=
  sl_cap (cb_times c) * int64Bytes + sl_cap (cb_writeSeqs c) * uint64Bytes
  + sl_cap (cb_floats c) * float64Bytes + sl_cap (cb_ints c) * int64Bytes
  + sl_cap (cb_strings c) * stringHeaderBytes + sl_cap (cb_boolBits c) * uint64Bytes.

(** [for _, value := range values { total += int64(len(value)) }] *)
Definition stringBytes (values : list bytes) : Z := foldr (fun v n => len v + n) 0 values.

Definition approxMemoryBytes (c : columnBuffer) : Z :=
  columnBufferBaseBytes + capacityBytes c
  + stringBytes (take (Z.to_nat (Z.min (cb_count c) (len (sl_elems (cb_strings c)))))
                      (sl_elems (cb_strings c))).

(** ** Growth *)
Definition nextSliceCapacity (current target additional : Z) : Z :=
  if (current =? 0) || (current <? additional) then target
  else
    let slack := current ÷ 4 in
    let slack := if slack <? additional then additional else slack in
    let slack := if 8 <? slack then 8 else slack in
    let next := i64 (target + slack) in
    if next <? target then target else next.

Definition growSlice {A} (values : slice A) (target additional : Z) : slice A :=
  if target <=? sl_cap values then values
  else mkSlice (sl_elems values) (nextSliceCapacity (sl_cap values) target additional).

Definition reserveValues (c : columnBuffer) (target additional : Z) : columnBuffer :=
  if cb_fieldType c =? FieldFloat64 then
    set_values (growSlice (cb_floats c) target additional) (cb_ints c) (cb_strings c) (cb_boolBits c) c
  else if cb_fieldType c =? FieldInt64 then
    set_values (cb_floats c) (growSlice (cb_ints c) target additional) (cb_strings c) (cb_boolBits c) c
  else if cb_fieldType c =? FieldString then
    set_values (cb_floats c) (cb_ints c) (growSlice (cb_strings c) target additional) (cb_boolBits c) c
  else if cb_fieldType c =? FieldBool then
    set_values (cb_floats c) (cb_ints c) (cb_strings c)
      (growSlice (cb_boolBits c) (boolWords target) (boolWords additional)) c
  else c.

Definition reserve (c : columnBuffer) (additional : Z) : columnBuffer * Z :=
  if additional <=? 0 then (c, 0)
  else
    let before := capacityBytes c in
    let target := cb_count c + additional in
    let c1 := set_slices (growSlice (cb_times c) target additional)
                (growSlice (cb_writeSeqs c) target additional)
                (cb_floats c) (cb_ints c) (cb_strings c) (cb_boolBits c) c in
    let c2 := reserveValues c1 target additional in
    let delta := capacityBytes c2 - before in
    (set_count (cb_count c2) (cb_memBytes c2 + delta) c2, delta).

Definition hasCapacityFor (c : columnBuffer) (additional : Z) : bool :=
  if additional <=? 0 then true
  else
    let target := cb_count c + additional in
    if (sl_cap (cb_times c) <? target) || (sl_cap (cb_writeSeqs c) <? target) then false
    else if cb_fieldType c =? FieldFloat64 then target <=? sl_cap (cb_floats c)
    else if cb_fieldType c =? FieldInt64 then target <=? sl_cap (cb_ints c)
    else if cb_fieldType c =? FieldString then target <=? sl_cap (cb_strings c)
    else if cb_fieldType c =? FieldBool then boolWords target <=? sl_cap (cb_boolBits c)
    else true.

(** ** Appending and reading a sample *)
Definition appendBool `{GoRuntime} (c : columnBuffer) (value : bool) : outcome (columnBuffer * Z) :=
  let word := cb_count c ÷ 64 in
  let oldCap := sl_cap (cb_boolBits c) in
  let bits := if len (sl_elems (cb_boolBits c)) <=? word then sl_append (cb_boolBits c) 0 else cb_boolBits c in
  bits ← (if value then
            w ← idx (sl_elems bits) word;
            ws ← set_idx (sl_elems bits) word (Z.lor w (u64 (Z.shiftl 1 (Z.rem (cb_count c) 64))));
            mret (mkSlice ws (sl_cap bits))
          else mret bits);
  mret (set_values (cb_floats c) (cb_ints c) (cb_strings c) bits c,
        (sl_cap bits - oldCap) * uint64Bytes).

Definition appendValue `{GoRuntime} (c : columnBuffer) (value : FieldValue) : outcome (columnBuffer * Z) :=
  if cb_fieldType c =? FieldFloat64 then
    let s := sl_append (cb_floats c) (fv_Float64 value) in
    mret (set_values s (cb_ints c) (cb_strings c) (cb_boolBits c) c,
          (sl_cap s - sl_cap (cb_floats c)) * float64Bytes)
  else if cb_fieldType c =? FieldInt64 then
    let s := sl_append (cb_ints c) (fv_Int64 value) in
    mret (set_values (cb_floats c) s (cb_strings c) (cb_boolBits c) c,
          (sl_cap s - sl_cap (cb_ints c)) * int64Bytes)
  else if cb_fieldType c =? FieldString then
    let s := sl_append (cb_strings c) (fv_String value) in
    mret (set_values (cb_floats c) (cb_ints c) s (cb_boolBits c) c,
          (sl_cap s - sl_cap (cb_strings c)) * stringHeaderBytes + len (fv_String value))
  else if cb_fieldType c =? FieldBool then appendBool c (fv_Bool value)
  else mret (c, 0).

Definition appendSample `{GoRuntime} (c : columnBuffer) (sample : VersionedSample)
    : outcome (columnBuffer * Z) :=
  let c := if cb_fieldType c =? 0 then set_fieldType (fv_Type (vs_Value sample)) c else c in
  let '(c, delta) := if negb (hasCapacityFor c 1) then reserve c 1 else (c, 0) in
  let times := sl_append (cb_times c) (vs_Timestamp sample) in
  let seqs := sl_append (cb_writeSeqs c) (vs_WriteSeq sample) in
  let appendDelta := (sl_cap times - sl_cap (cb_times c)) * int64Bytes
                     + (sl_cap seqs - sl_cap (cb_writeSeqs c)) * uint64Bytes in
  let c := set_slices times seqs (cb_floats c) (cb_ints c) (cb_strings c) (cb_boolBits c) c in
  '(c, valueDelta) ← appendValue c (vs_Value sample);
  let appendDelta := appendDelta + valueDelta in
  mret (set_count (cb_count c + 1) (cb_memBytes c + appendDelta) c, delta + appendDelta).

Definition valueAt (c : columnBuffer) (index : Z) : outcome FieldValue :=
  if cb_fieldType c =? FieldFloat64 then v ← idx (sl_elems (cb_floats c)) index; mret (Float64Value v)
  else if cb_fieldType c =? FieldInt64 then v ← idx (sl_elems (cb_ints c)) index; mret (Int64Value v)
  else if cb_fieldType c =? FieldString then v ← idx (sl_elems (cb_strings c)) index; mret (StringValue v)
  else if cb_fieldType c =? FieldBool then
    let word := index ÷ 64 in
    let bit := Z.rem index 64 in
    if word <? len (sl_elems (cb_boolBits c)) then
      w ← idx (sl_elems (cb_boolBits c)) word;
      mret (BoolValue (negb (Z.land w (u64 (Z.shiftl 1 bit)) =? 0)))
    else mret (BoolValue false)
  else mret (mkFieldValue (cb_fieldType c) 0 0 [] false).

Definition sampleAt (c : columnBuffer) (index : Z) : outcome VersionedSample :=
  t ← idx (sl_elems (cb_times c)) index;
  seq ← idx (sl_elems (cb_writeSeqs c)) index;
  v ← valueAt c index;
  mret (mkSample t seq v).

(** [for index := range src.count { delta += c.appendSample(src.sampleAt(index)) }] *)
Fixpoint appendLoop `{GoRuntime} (src : columnBuffer) (n : nat) (index : Z) (c : columnBuffer) (delta : Z)
    : outcome (columnBuffer * Z) :=
  match n with
  | O => mret (c, delta)
  | S n' =>
      sample ← sampleAt src index;
      '(c, d) ← appendSample c sample;
      appendLoop src n' (index + 1) c (delta + d)
  end.

(** The tail that [appendColumn] and [restoreColumnLocked] share. *)
Definition copyLast (src dst : columnBuffer) : outcome columnBuffer :=
  if cb_hasLast src then mret (set_last (cb_lastTimestamp src) true dst)
  else if 0 <? cb_count src then
    t ← idx (sl_elems (cb_times src)) (cb_count src - 1);
    mret (set_last t true dst)
  else mret dst.

Definition appendColumn `{GoRuntime} (c src : columnBuffer) : outcome (columnBuffer * Z) :=
  if cb_count src =? 0 then mret (c, 0)
  else
    let c := if cb_fieldType c =? 0 then set_fieldType (cb_fieldType src) c else c in
    let '(c, delta) := reserve c (cb_count src) in
    '(c, delta) ← appendLoop src (Z.to_nat (cb_count src)) 0 c delta;
    c ← copyLast src c;
    mret (c, delta).

(** [clear] *)
Definition clear_column (c : columnBuffer) : columnBuffer :=
  mkColumn (cb_seriesID c) (cb_fieldID c) (cb_fieldType c) nilSlice nilSlice nilSlice nilSlice
    nilSlice nilSlice 0 0 0 false.

(** [clone*]: [make([]T, len(src))] and [copy]. *)
Definition cloneSlice {A} (s : slice A) : slice A := mkSlice (sl_elems s) (len (sl_elems s)).
Definition cloneColumn (src : columnBuffer) : columnBuffer :=
  let clone := mkColumn (cb_seriesID src) (cb_fieldID src) (cb_fieldType src)
    (cloneSlice (cb_times src)) (cloneSlice (cb_writeSeqs src)) (cloneSlice (cb_floats src))
    (cloneSlice (cb_ints src)) (cloneSlice (cb_strings src)) (cloneSlice (cb_boolBits src))
    (cb_count src) 0 0 false in
  set_count (cb_count clone) (approxMemoryBytes clone) clone.

(** ** The free list of buffers *)
Definition maxPooledColumnCapacity : Z := 16.
Definition maxPooledColumnBuffers : Z := 65536.

Definition columnRetainsLargeBacking (c : columnBuffer) : bool :=
  (maxPooledColumnCapacity <? sl_cap (cb_times c)) || (maxPooledColumnCapacity <? sl_cap (cb_writeSeqs c))
  || (maxPooledColumnCapacity <? sl_cap (cb_floats c)) || (maxPooledColumnCapacity <? sl_cap (cb_ints c))
  || (maxPooledColumnCapacity <? sl_cap (cb_strings c))
  || (boolWords maxPooledColumnCapacity <? sl_cap (cb_boolBits c)).

(** [items], the last one on top. *)
Definition columnPool := list columnBuffer.

Definition pool_get (items : columnPool) : option columnBuffer * columnPool :=
  match last items with
  | None => (None, items)
  | Some column => (Some column, take (length items - 1) items)
  end.
Definition pool_put (items : columnPool) (column : columnBuffer) : columnPool :=
  if maxPooledColumnBuffers <=? len items then items else items ++ [column].

Definition borrowColumnBuffer (pool : columnPool) (seriesID fieldID fieldType : Z)
    : columnBuffer * columnPool :=
  let '(got, pool) := pool_get pool in
  let column := default zeroColumn got in
  let column := set_ids seriesID fieldID fieldType column in
  (set_count 0 (columnBufferBaseBytes + capacityBytes column) column, pool).

Definition releaseColumnBuffer (pool : columnPool) (column : columnBuffer) : columnPool :=
  let column :=
    if columnRetainsLargeBacking column then clear_column column
    else set_slices (sl_reset (cb_times column)) (sl_reset (cb_writeSeqs column))
           (sl_reset (cb_floats column)) (sl_reset (cb_ints column))
           (sl_reset (cb_strings column)) (sl_reset (cb_boolBits column)) column in
  let column := set_ids 0 0 0 column in
  pool_put pool (set_count 0 (columnBufferBaseBytes + capacityBytes column) column).

(** * Column buffers: what they hold and what they account for

    [column_inv c xs] ties a buffer to the list of samples appended to it: the
    parallel slices hold their timestamps, sequence numbers and values, and
    the byte counter equals a recount from the capacities.  Every operation
    preserves it, and [sampleAt] reads the samples back. *)
(** The part of a value that a column of type [ft] keeps. *)
Definition canonical (ft : Z) (v : FieldValue) : FieldValue :=
  if ft =? FieldFloat64 then Float64Value (fv_Float64 v)
  else if ft =? FieldInt64 then Int64Value (fv_Int64 v)
  else if ft =? FieldString then StringValue (fv_String v)
  else if ft =? FieldBool then BoolValue (fv_Bool v)
  else mkFieldValue ft 0 0 [] false.
Definition stored (ft : Z) (s : VersionedSample) : VersionedSample :=
  mkSample (vs_Timestamp s) (vs_WriteSeq s) (canonical ft (vs_Value s)).

Lemma canonical_typed v : value_ok v -> canonical (fv_Type v) v = v.
Proof. by destruct 1. Qed.
Lemma stored_typed s ft : value_ok (vs_Value s) -> fv_Type (vs_Value s) = ft -> stored ft s = s.
Proof. destruct s as [t q v]. unfold stored. simpl. intros Hv <-. by rewrite canonical_typed. Qed.

(** Bit [i] of a packed array of booleans; bits beyond the array read as false. *)
Definition bool_at (ws : list Z) (i : Z) : bool :=
  match ws !! Z.to_nat (i / 64) with Some w => Z.testbit w (i mod 64) | None => false end.

Definition values_repr (c : columnBuffer) (xs : list VersionedSample) : Prop :=
  if cb_fieldType c =? FieldFloat64 then sl_elems (cb_floats c) = fv_Float64 ∘ vs_Value <$> xs
  else if cb_fieldType c =? FieldInt64 then sl_elems (cb_ints c) = fv_Int64 ∘ vs_Value <$> xs
  else if cb_fieldType c =? FieldString then sl_elems (cb_strings c) = fv_String ∘ vs_Value <$> xs
  else if cb_fieldType c =? FieldBool then
    len (sl_elems (cb_boolBits c)) = boolWords (len xs) /\
    forall i, 0 <= i -> bool_at (sl_elems (cb_boolBits c)) i =
      match xs !! Z.to_nat i with Some x => fv_Bool (vs_Value x) | None => false end
  else True.

Definition slice_ok {A} (s : slice A) : Prop := len (sl_elems s) <= sl_cap s.

Record column_inv (c : columnBuffer) (xs : list VersionedSample) : Prop := {
  ci_count : cb_count c = len xs;
  ci_times : sl_elems (cb_times c) = vs_Timestamp <$> xs;
  ci_seqs : sl_elems (cb_writeSeqs c) = vs_WriteSeq <$> xs;
  ci_values : values_repr c xs;
  ci_bytes : cb_memBytes c = approxMemoryBytes c;
  ci_strings : len (sl_elems (cb_strings c)) <= cb_count c;
  ci_caps : slice_ok (cb_times c) /\ slice_ok (cb_writeSeqs c) /\ slice_ok (cb_floats c) /\
            slice_ok (cb_ints c) /\ slice_ok (cb_strings c) /\ slice_ok (cb_boolBits c);
}.

(** [ft_cases] splits on the declared field types, the unknown ones last. *)
Ltac ft_cases c :=
  destruct (cb_fieldType c =? FieldFloat64) eqn:?;
  [|destruct (cb_fieldType c =? FieldInt64) eqn:?;
  [|destruct (cb_fieldType c =? FieldString) eqn:?;
  [|destruct (cb_fieldType c =? FieldBool) eqn:?]]].

Lemma boolWords_div n : 0 <= n -> boolWords n = (n + 63) / 64.
Proof.
  intros H. unfold boolWords. zcase (n <=? 0); [|by rewrite Z.quot_div_nonneg by lia].
  replace n with 0 by lia. done.
Qed.

(** ** The bit arithmetic of packed booleans *)
Lemma u64_shiftl_1 b : 0 <= b < 64 -> u64 (Z.shiftl 1 b) = Z.shiftl 1 b.
Proof.
  intros H. rewrite Z.shiftl_1_l. apply u64_id. unfold is_u64. split; [lia|].
  apply Z.pow_lt_mono_r; lia.
Qed.
Lemma land_bit w b : 0 <= b -> negb (Z.land w (Z.shiftl 1 b) =? 0) = Z.testbit w b.
Proof.
  intros Hb. destruct (Z.land w (Z.shiftl 1 b) =? 0) eqn:E; simpl.
  - apply Z.eqb_eq in E. assert (Z.testbit (Z.land w (Z.shiftl 1 b)) b = false) as H
      by by rewrite E, Z.bits_0.
    rewrite Z.land_spec, Z.shiftl_spec, Z.sub_diag in H by done. simpl in H.
    by rewrite andb_true_r in H.
  - apply Z.eqb_neq in E. destruct (Z.testbit w b) eqn:Hw; [done|]. exfalso. apply E.
    apply Z.bits_inj'. intros k Hk. rewrite Z.land_spec, Z.bits_0, Z.shiftl_1_l, Z.pow2_bits_eqb by lia.
    zcase (b =? k); [subst; by rewrite Hw|by rewrite andb_false_r].
Qed.
Lemma testbit_lor_bit w b k :
  0 <= b -> Z.testbit (Z.lor w (Z.shiftl 1 b)) k = Z.testbit w k || (b =? k).
Proof.
  intros Hb. rewrite Z.lor_spec, Z.shiftl_1_l. by rewrite Z.pow2_bits_eqb.
Qed.

(** ** Readers *)
Lemma valueAt_inv c xs i x :
  column_inv c xs -> xs !! i = Some x ->
  valueAt c (Z.of_nat i) = Ok (canonical (cb_fieldType c) (vs_Value x)).
Proof.
  intros H Hx. pose proof (ci_values _ _ H) as Hv. unfold values_repr in Hv.
  unfold valueAt, canonical. ft_cases c.
  - by rewrite Hv, (idx_fmap _ _ _ _ Hx).
  - by rewrite Hv, (idx_fmap _ _ _ _ Hx).
  - by rewrite Hv, (idx_fmap _ _ _ _ Hx).
  - destruct Hv as [Hlen Hbits]. rewrite Z.quot_div_nonneg, Z.rem_mod_nonneg by lia.
    assert (Z.of_nat i < len xs) as Hi by (apply lookup_lt_Some in Hx; unfold len; lia).
    assert (Z.of_nat i / 64 < len (sl_elems (cb_boolBits c))) as Hw.
    { rewrite Hlen, boolWords_div by apply len_nonneg. Z.div_mod_to_equations; lia. }
    rewrite (proj2 (Z.ltb_lt _ _) Hw).
    specialize (Hbits (Z.of_nat i) ltac:(lia)). unfold bool_at in Hbits.
    rewrite Nat2Z.id, Hx in Hbits. unfold idx. rewrite bool_decide_true by (apply Z.div_pos; lia).
    destruct (sl_elems (cb_boolBits c) !! Z.to_nat (Z.of_nat i / 64)) as [w|] eqn:Ew.
    + simpl. rewrite u64_shiftl_1, land_bit, Hbits by (pose proof (Z.mod_pos_bound (Z.of_nat i) 64); lia).
      done.
    + apply lookup_ge_None in Ew. unfold len in *.
      pose proof (Z.div_pos (Z.of_nat i) 64). lia.
  - done.
Qed.

(** Reading a sample back gives the one appended there. *)
Lemma sampleAt_inv c xs i x :
  column_inv c xs -> xs !! i = Some x ->
  sampleAt c (Z.of_nat i) = Ok (stored (cb_fieldType c) x).
Proof.
  intros H Hx. unfold sampleAt.
  rewrite (ci_times _ _ H), (ci_seqs _ _ H), !(idx_fmap _ _ _ _ Hx). simpl.
  by rewrite (valueAt_inv _ _ _ _ H Hx).
Qed.

(** ** Reservation *)
Lemma nextSliceCapacity_bounds current target additional :
  0 <= current -> 0 < additional -> 0 <= target <= maxInt ->
  target <= nextSliceCapacity current target additional <= target + 8.
Proof.
  intros Hc Ha Ht. unfold nextSliceCapacity. case_match; [lia|].
  repeat match goal with |- context [if ?b then _ else _] => zcase b end; try lia;
  wrap_lia.
Qed.

Lemma nextSliceCapacity_ge current target additional :
  target <= nextSliceCapacity current target additional.
Proof.
  unfold nextSliceCapacity. case_match; [lia|]. simpl.
  match goal with |- context [if ?n <? target then _ else _] => zcase (n <? target) end; lia.
Qed.

Lemma growSlice_elems {A} (s : slice A) t a : sl_elems (growSlice s t a) = sl_elems s.
Proof. unfold growSlice. by case_match. Qed.
Lemma growSlice_cap {A} (s : slice A) t a :
  sl_cap s <= sl_cap (growSlice s t a) /\ t <= sl_cap (growSlice s t a).
Proof.
  unfold growSlice. pose proof (nextSliceCapacity_ge (sl_cap s) t a).
  zcase (t <=? sl_cap s); simpl; lia.
Qed.
Lemma growSlice_ok {A} (s : slice A) t a : slice_ok s -> slice_ok (growSlice s t a).
Proof. unfold slice_ok. rewrite growSlice_elems. pose proof (growSlice_cap s t a). lia. Qed.

(** [col_simpl] computes projections of updated buffers. *)
Ltac col_simpl :=
  cbn [set_fieldType set_slices set_values set_count set_ids set_last cb_seriesID cb_fieldID
    cb_fieldType cb_times cb_writeSeqs cb_floats cb_ints cb_strings cb_boolBits cb_count cb_memBytes
    cb_lastTimestamp cb_hasLast sl_elems sl_cap fst snd] in *.

(** Two buffers with the same contents, up to capacities and byte counts. *)
Record same_content (c c' : columnBuffer) : Prop := {
  sc_ids : cb_seriesID c' = cb_seriesID c /\ cb_fieldID c' = cb_fieldID c /\ cb_fieldType c' = cb_fieldType c;
  sc_count : cb_count c' = cb_count c;
  sc_last : cb_lastTimestamp c' = cb_lastTimestamp c /\ cb_hasLast c' = cb_hasLast c;
  sc_times : sl_elems (cb_times c') = sl_elems (cb_times c);
  sc_seqs : sl_elems (cb_writeSeqs c') = sl_elems (cb_writeSeqs c);
  sc_floats : sl_elems (cb_floats c') = sl_elems (cb_floats c);
  sc_ints : sl_elems (cb_ints c') = sl_elems (cb_ints c);
  sc_strings : sl_elems (cb_strings c') = sl_elems (cb_strings c);
  sc_bools : sl_elems (cb_boolBits c') = sl_elems (cb_boolBits c);
}.

Lemma same_content_refl c : same_content c c.
Proof. by split. Qed.

Lemma values_repr_same c c' xs : same_content c c' -> values_repr c xs -> values_repr c' xs.
Proof.
  intros [(_ & _ & Eft) _ _ _ _ Ef Ei Es Eb]. unfold values_repr. rewrite Eft, Ef, Ei, Es, Eb. done.
Qed.

Lemma reserve_content c n : same_content c (reserve c n).1.
Proof.
  unfold reserve. case_match; [apply same_content_refl|]. unfold reserveValues. simpl.
  ft_cases c; col_simpl; split; col_simpl; rewrite ?growSlice_elems; done.
Qed.

Lemma reserve_caps c n :
  let c' := (reserve c n).1 in
  slice_ok (cb_times c) /\ slice_ok (cb_writeSeqs c) /\ slice_ok (cb_floats c) /\
    slice_ok (cb_ints c) /\ slice_ok (cb_strings c) /\ slice_ok (cb_boolBits c) ->
  slice_ok (cb_times c') /\ slice_ok (cb_writeSeqs c') /\ slice_ok (cb_floats c') /\
    slice_ok (cb_ints c') /\ slice_ok (cb_strings c') /\ slice_ok (cb_boolBits c').
Proof.
  unfold reserve. case_match; [done|]. unfold reserveValues. simpl.
  ft_cases c; col_simpl; intros (?&?&?&?&?&?); repeat split; auto using growSlice_ok.
Qed.

(** The bytes a reservation reports are the bytes the counter grows by. *)
Lemma reserve_bytes c n :
  cb_memBytes (reserve c n).1 = cb_memBytes c + (reserve c n).2 /\
  capacityBytes (reserve c n).1 = capacityBytes c + (reserve c n).2.
Proof.
  unfold reserve. case_match; [simpl; lia|]. unfold reserveValues. simpl.
  ft_cases c; col_simpl; unfold capacityBytes; col_simpl; lia.
Qed.

Lemma reserve_inv c xs n : column_inv c xs -> column_inv (reserve c n).1 xs.
Proof.
  intros H. pose proof (reserve_content c n) as Hs. pose proof (reserve_bytes c n) as [Hb1 Hb2].
  pose proof (reserve_caps c n (ci_caps _ _ H)) as Hc. destruct H. split.
  - by rewrite (sc_count _ _ Hs).
  - by rewrite (sc_times _ _ Hs).
  - by rewrite (sc_seqs _ _ Hs).
  - by eapply values_repr_same.
  - rewrite Hb1, ci_bytes0. unfold approxMemoryBytes. rewrite (sc_strings _ _ Hs), (sc_count _ _ Hs), Hb2. lia.
  - by rewrite (sc_strings _ _ Hs), (sc_count _ _ Hs).
  - done.
Qed.

(** ** Appending *)
Section append.
  Context `{GoRuntimeLaws}.

Lemma sl_append_ok {A} (s : slice A) x : slice_ok s -> slice_ok (sl_append s x).
Proof.
  unfold slice_ok, sl_append. simpl. rewrite len_snoc.
  pose proof (len_nonneg (sl_elems s)). intros Hs. zcase (len (sl_elems s) <? sl_cap s); [lia|].
  pose proof (growslice_grows (sl_cap s) ltac:(lia)). lia.
Qed.

(** The word a new boolean falls in exists or is the next one. *)
Lemma boolWords_step n : 0 <= n ->
  (n / 64 < boolWords n /\ boolWords (n + 1) = boolWords n) \/
  (n / 64 = boolWords n /\ boolWords (n + 1) = boolWords n + 1).
Proof.
  intros Hn. rewrite !boolWords_div by lia. destruct (decide (n mod 64 = 0)); [right|left];
    split; Z.div_mod_to_equations; lia.
Qed.

Lemma bool_at_append0 ws i : bool_at (ws ++ [0]) i = bool_at ws i.
Proof.
  unfold bool_at. destruct (decide (Z.to_nat (i / 64) < length ws)%nat) as [Hlt|Hge].
  - by rewrite lookup_app_l.
  - rewrite lookup_app_r by lia. rewrite (lookup_ge_None_2 ws) by lia.
    destruct (Z.to_nat (i / 64) - length ws)%nat as [|[|]]; simpl; by rewrite ?Z.bits_0.
Qed.

Lemma bool_at_set ws n w :
  0 <= n -> ws !! Z.to_nat (n / 64) = Some w -> forall i, 0 <= i ->
  bool_at (<[Z.to_nat (n / 64) := Z.lor w (Z.shiftl 1 (n mod 64))]> ws) i =
    bool_at ws i || (i =? n).
Proof.
  intros Hn Hw i Hi. unfold bool_at.
  pose proof (Z.mod_pos_bound n 64 ltac:(lia)) as Hb. pose proof (Z.mod_pos_bound i 64 ltac:(lia)).
  pose proof (Z.div_pos n 64 Hn ltac:(lia)). pose proof (Z.div_pos i 64 Hi ltac:(lia)).
  destruct (decide (i / 64 = n / 64)) as [E|E].
  - rewrite E, list_lookup_insert_eq, Hw by (by eapply lookup_lt_Some).
    rewrite testbit_lor_bit by lia. f_equal.
    zcase (n mod 64 =? i mod 64); zcase (i =? n); try done; Z.div_mod_to_equations; lia.
  - rewrite list_lookup_insert_ne by lia. zcase (i =? n); [congruence|by rewrite orb_false_r].
Qed.

Lemma appendBool_inv c (xs : list VersionedSample) v (Hn : cb_count c = len xs)
  (Hlen : len (sl_elems (cb_boolBits c)) = boolWords (len xs))
  (Hfresh : bool_at (sl_elems (cb_boolBits c)) (len xs) = false)
  (Hok : slice_ok (cb_boolBits c)) :
  exists bits : slice Z, appendBool c v = Ok (set_values (cb_floats c) (cb_ints c) (cb_strings c) bits c,
                                    (sl_cap bits - sl_cap (cb_boolBits c)) * uint64Bytes) /\
    slice_ok bits /\ len (sl_elems bits) = boolWords (len xs + 1) /\
    forall i, 0 <= i -> bool_at (sl_elems bits) i = if i =? len xs then v else bool_at (sl_elems (cb_boolBits c)) i.
Proof.
  pose proof (len_nonneg xs) as Hpos. unfold appendBool. rewrite Hn.
  rewrite Z.quot_div_nonneg, Z.rem_mod_nonneg by lia.
  set (bits := if len (sl_elems (cb_boolBits c)) <=? len xs / 64 then sl_append (cb_boolBits c) 0
               else cb_boolBits c).
  assert (slice_ok bits /\ len (sl_elems bits) = boolWords (len xs + 1) /\
    forall i, bool_at (sl_elems bits) i = bool_at (sl_elems (cb_boolBits c)) i) as (Hb1 & Hb2 & Hb3).
  { unfold bits. destruct (boolWords_step (len xs) Hpos) as [[? ?]|[? ?]];
      zcase (len (sl_elems (cb_boolBits c)) <=? len xs / 64); try lia; [split_and!; [done|congruence|done]|].
    split; [by apply sl_append_ok|]. simpl. rewrite len_snoc.
    split; [lia|]. intros i. apply bool_at_append0. }
  clearbody bits. pose proof (Z.div_pos (len xs) 64 Hpos ltac:(lia)).
  destruct v; simpl.
  - assert (len xs / 64 < len (sl_elems bits)) as Hlt
      by (rewrite Hb2; destruct (boolWords_step (len xs) Hpos); lia).
    destruct (sl_elems bits !! Z.to_nat (len xs / 64)) as [w|] eqn:Ew;
      [|apply lookup_ge_None in Ew; unfold len in *; lia].
    pose proof (Z.mod_pos_bound (len xs) 64 ltac:(lia)).
    rewrite (idx_Z _ _ w), u64_shiftl_1 by (done || lia). simpl. rewrite set_idx_ok by lia. simpl.
    eexists (mkSlice _ (sl_cap bits)). split; [reflexivity|]. unfold slice_ok in *. simpl. unfold len in *. rewrite length_insert.
    split; [done|]. split; [done|]. intros i Hi. rewrite bool_at_set by done. rewrite Hb3.
    destruct (i =? _); [by rewrite orb_true_r|by rewrite orb_false_r].
  - exists bits. split; [done|]. split; [done|]. split; [done|]. intros i Hi. rewrite Hb3.
    zcase (i =? len xs); [by subst|done].
Qed.

Lemma stringBytes_app (l1 l2 : list bytes) : stringBytes (l1 ++ l2) = stringBytes l1 + stringBytes l2.
Proof. induction l1 as [|s l1 IH]; simpl; [done|]. unfold stringBytes in *. simpl. lia. Qed.

Lemma stringBytes_snoc l s : stringBytes (l ++ [s]) = stringBytes l + len s.
Proof. rewrite stringBytes_app. unfold stringBytes. simpl. lia. Qed.

Lemma approx_all c : len (sl_elems (cb_strings c)) <= cb_count c ->
  approxMemoryBytes c = columnBufferBaseBytes + capacityBytes c + stringBytes (sl_elems (cb_strings c)).
Proof.
  intros Hs. unfold approxMemoryBytes. rewrite take_ge; [done|]. unfold len in *. lia.
Qed.

(** What appending does to a buffer whose capacity is settled: the value slice
    grows by one, and the byte delta is that of its capacity and string. *)
Lemma appendValue_inv c xs s
  (Hn : cb_count c = len xs) (Hv : values_repr c xs)
  (Hs : len (sl_elems (cb_strings c)) <= cb_count c)
  (Hok : slice_ok (cb_floats c) /\ slice_ok (cb_ints c) /\ slice_ok (cb_strings c) /\ slice_ok (cb_boolBits c)) :
  exists c' d, appendValue c (vs_Value s) = Ok (c', d) /\ values_repr c' (xs ++ [s]) /\
    cb_times c' = cb_times c /\ cb_writeSeqs c' = cb_writeSeqs c /\ cb_count c' = cb_count c /\
    cb_memBytes c' = cb_memBytes c /\
    (cb_seriesID c' = cb_seriesID c /\ cb_fieldID c' = cb_fieldID c /\ cb_fieldType c' = cb_fieldType c) /\
    (cb_lastTimestamp c' = cb_lastTimestamp c /\ cb_hasLast c' = cb_hasLast c) /\
    len (sl_elems (cb_strings c')) <= cb_count c + 1 /\
    capacityBytes c' + stringBytes (sl_elems (cb_strings c')) =
      capacityBytes c + stringBytes (sl_elems (cb_strings c)) + d /\
    (slice_ok (cb_floats c') /\ slice_ok (cb_ints c') /\ slice_ok (cb_strings c') /\ slice_ok (cb_boolBits c')).
Proof.
  destruct Hok as (Ho1 & Ho2 & Ho3 & Ho4). unfold values_repr in Hv. unfold appendValue.
  ft_cases c.
  4: { destruct Hv as [Hlen Hbits].
    destruct (appendBool_inv c xs (fv_Bool (vs_Value s)) Hn Hlen) as (bits & -> & Hb1 & Hb2 & Hb3).
    { rewrite Hbits by apply len_nonneg. unfold len. by rewrite Nat2Z.id, lookup_ge_None_2. }
    { done. }
    do 2 eexists. split; [done|]. unfold values_repr, capacityBytes. col_simpl.
    rewrite Heqb, Heqb0, Heqb1, Heqb2. repeat split; try done; try lia.
    - rewrite len_snoc. exact Hb2.
    - intros i Hi. rewrite Hb3, Hbits by done. zcase (i =? len xs).
      + subst i. unfold len. by rewrite Nat2Z.id, list_lookup_middle.
      + destruct (decide (Z.to_nat i < length xs)%nat); [by rewrite lookup_app_l|].
        rewrite !lookup_ge_None_2; [done|..]; rewrite ?length_app; simpl; unfold len in *; lia. }
  all: do 2 eexists; split; [done|]; unfold values_repr, capacityBytes; col_simpl;
    rewrite ?Heqb, ?Heqb0, ?Heqb1, ?Heqb2; repeat split; try done; try lia; try (by apply sl_append_ok);
    cbn [sl_append sl_elems]; rewrite ?len_snoc, ?stringBytes_snoc; try lia;
    by rewrite fmap_app, Hv.
Qed.

Lemma appendSample_inv c xs s :
  column_inv c xs -> cb_fieldType c <> 0 ->
  exists c' d, appendSample c s = Ok (c', d) /\ column_inv c' (xs ++ [s]) /\
    (cb_seriesID c' = cb_seriesID c /\ cb_fieldID c' = cb_fieldID c /\ cb_fieldType c' = cb_fieldType c) /\
    (cb_lastTimestamp c' = cb_lastTimestamp c /\ cb_hasLast c' = cb_hasLast c) /\
    cb_memBytes c' = cb_memBytes c + d.
Proof.
  intros HI Hft. unfold appendSample. rewrite (proj2 (Z.eqb_neq _ _) Hft).
  set (p := if negb (hasCapacityFor c 1) then reserve c 1 else (c, 0)).
  assert (column_inv p.1 xs /\ same_content c p.1 /\ cb_memBytes p.1 = cb_memBytes c + p.2)
    as (HI1 & Hsc & Hmem).
  { unfold p. case_match; [|split_and!; [done|apply same_content_refl|simpl; lia]].
    split_and!; [by apply reserve_inv|apply reserve_content|apply reserve_bytes]. }
  clearbody p. destruct p as [c1 delta]. simpl in HI1, Hsc, Hmem.
  destruct HI1 as [Hn Ht Hq Hv Hb Hs (Ho1 & Ho2 & Ho3 & Ho4 & Ho5 & Ho6)].
  set (c2 := set_slices _ _ _ _ _ _ c1).
  destruct (appendValue_inv c2 xs s) as
    (c3 & d & Hap & Hv3 & Et & Eq & En & Em & Eids & Elast & Hs3 & Hcap & Ho').
  { done. } { done. } { done. } { done. }
  simpl. rewrite Hap. simpl. do 2 eexists. split; [done|]. col_simpl.
  destruct Hsc as [(? & ? & ?) ? (? & ?) ???? ??]. destruct Eids as (? & ? & ?), Elast as (? & ?).
  unfold c2 in *. col_simpl. split; [|repeat split; try congruence; lia].
  split; col_simpl.
  - rewrite len_snoc. lia.
  - rewrite Et. simpl. by rewrite Ht, fmap_app.
  - rewrite Eq. simpl. by rewrite Hq, fmap_app.
  - exact Hv3.
  - rewrite approx_all by (col_simpl; lia). rewrite approx_all in Hb by lia.
    unfold capacityBytes in *. col_simpl. rewrite Et, Eq in Hcap |- *.
    unfold sl_append in *. col_simpl. lia.
  - lia.
  - destruct Ho' as (? & ? & ? & ?). rewrite Et, Eq. repeat split; try done; by apply sl_append_ok.
Qed.

(** A buffer stands equally for any samples its type stores the same way. *)
Lemma column_inv_stored c xs ys :
  column_inv c xs -> stored (cb_fieldType c) <$> xs = stored (cb_fieldType c) <$> ys -> column_inv c ys.
Proof.
  intros HI E.
  assert (forall B (f g : VersionedSample -> B), (forall s, f s = g (stored (cb_fieldType c) s)) ->
    f <$> xs = f <$> ys) as Hf.
  { intros B f g Hfg. rewrite !(list_fmap_ext _ _ _ (fun _ s _ => Hfg s)).
    change (fun s => g (stored (cb_fieldType c) s)) with (g ∘ stored (cb_fieldType c)).
    by rewrite !list_fmap_compose, E. }
  assert (len xs = len ys) as El.
  { apply (f_equal length) in E. rewrite !length_fmap in E. unfold len. lia. }
  destruct HI as [Hn Ht Hq Hv Hb Hs Ho]. split; try done.
  - by rewrite Hn.
  - rewrite Ht. by apply (Hf _ _ vs_Timestamp).
  - rewrite Hq. by apply (Hf _ _ vs_WriteSeq).
  - unfold values_repr in *. unfold stored, canonical in *. ft_cases c.
    + rewrite Hv. by apply (Hf _ _ (fv_Float64 ∘ vs_Value)).
    + rewrite Hv. by apply (Hf _ _ (fv_Int64 ∘ vs_Value)).
    + rewrite Hv. by apply (Hf _ _ (fv_String ∘ vs_Value)).
    + rewrite <- El. destruct Hv as [Hl Hv]. split; [done|]. intros i Hi. rewrite Hv by done.
      pose proof (Hf _ (fv_Bool ∘ vs_Value) (fv_Bool ∘ vs_Value) (fun s => eq_refl)) as Hbool.
      apply (f_equal (fun l => l !! Z.to_nat i)) in Hbool. rewrite !list_lookup_fmap in Hbool.
      destruct (xs !! Z.to_nat i), (ys !! Z.to_nat i); simpl in Hbool; congruence.
    + done.
Qed.

Lemma stored_idem ft s : stored ft (stored ft s) = stored ft s.
Proof. unfold stored, canonical. simpl. by repeat case_match. Qed.

(** The part of a buffer that appending leaves alone. *)
Definition same_head (c c' : columnBuffer) : Prop :=
  (cb_seriesID c' = cb_seriesID c /\ cb_fieldID c' = cb_fieldID c /\ cb_fieldType c' = cb_fieldType c) /\
  (cb_lastTimestamp c' = cb_lastTimestamp c /\ cb_hasLast c' = cb_hasLast c).
#[local] Instance same_head_trans : Transitive same_head.
Proof. intros a b c ((?&?&?)&?&?) ((?&?&?)&?&?). repeat split; congruence. Qed.

Lemma appendLoop_inv src ys n : forall c xs index delta,
  column_inv src ys -> cb_fieldType c <> 0 -> column_inv c xs ->
  (index + n = length ys)%nat ->
  exists c' d, appendLoop src n (Z.of_nat index) c delta = Ok (c', delta + d) /\
    column_inv c' (xs ++ (stored (cb_fieldType src) <$> drop index ys)) /\
    same_head c c' /\ cb_memBytes c' = cb_memBytes c + d.
Proof.
  induction n as [|n IH]; intros c xs index delta Hsrc Hft Hc Hlen; cbn [appendLoop].
  { rewrite drop_ge, app_nil_r by lia. exists c, 0. rewrite Z.add_0_r.
    repeat split; try done; try lia; apply Hc. }
  destruct (lookup_lt_is_Some_2 ys index ltac:(lia)) as [y Hy].
  rewrite (sampleAt_inv _ _ _ _ Hsrc Hy). simpl.
  destruct (appendSample_inv c xs (stored (cb_fieldType src) y) Hc Hft)
    as (c1 & d1 & -> & Hc1 & Hids1 & Hlast1 & Hmem1). simpl.
  destruct (IH c1 (xs ++ [stored (cb_fieldType src) y]) (S index) (delta + d1) Hsrc) as (c2 & d2 & E & Hc2 & Hh & Hmem);
    [destruct Hids1 as (_ & _ & ->); done|exact Hc1|lia|].
  replace (Z.of_nat index + 1) with (Z.of_nat (S index)) by lia. rewrite E.
  exists c2, (d1 + d2). split; [f_equal; f_equal; lia|]. split; [|split; [|lia]].
  - erewrite (drop_S ys); [|exact Hy]. rewrite fmap_cons. by rewrite cons_middle, (assoc_L (++)).
  - etrans; [|exact Hh]. by split.
Qed.

Lemma copyLast_ok src ys c : column_inv src ys -> exists t h, copyLast src c = Ok (set_last t h c).
Proof.
  intros H1. unfold copyLast. case_match; [by eexists _, _|]. zcase (0 <? cb_count src).
  - rewrite (ci_count _ _ H1) in *. rewrite (ci_times _ _ H1).
    destruct (lookup_lt_is_Some_2 ys (length ys - 1)) as [y Hy]; [unfold len in *; lia|].
    rewrite (idx_Z _ _ (vs_Timestamp y)); [by eexists _, _|unfold len in *; lia|].
    rewrite list_lookup_fmap. replace (Z.to_nat (len ys - 1)) with (length ys - 1)%nat by (unfold len; lia).
    by rewrite Hy.
  - exists (cb_lastTimestamp c), (cb_hasLast c). by destruct c.
Qed.

Lemma set_last_inv t h c xs : column_inv c xs -> column_inv (set_last t h c) xs.
Proof. by intros []. Qed.

(** Appending a whole column appends its samples, whatever else is in the buffer. *)
Lemma appendColumn_inv c xs src ys :
  column_inv c xs -> column_inv src ys -> cb_fieldType c = cb_fieldType src -> cb_fieldType c <> 0 ->
  exists c' d, appendColumn c src = Ok (c', d) /\ column_inv c' (xs ++ ys) /\
    (cb_seriesID c' = cb_seriesID c /\ cb_fieldID c' = cb_fieldID c /\ cb_fieldType c' = cb_fieldType c) /\
    cb_memBytes c' = cb_memBytes c + d.
Proof.
  intros Hc Hsrc Hft Hnz. unfold appendColumn. pose proof (ci_count _ _ Hsrc) as Hn.
  zcase (cb_count src =? 0).
  { exists c, 0. destruct ys; [|unfold len in *; simpl in *; lia]. rewrite app_nil_r.
    split_and!; try done; lia. }
  rewrite (proj2 (Z.eqb_neq _ _) Hnz). pose proof (reserve_inv c xs (cb_count src) Hc) as Hr.
  pose proof (reserve_content c (cb_count src)) as Hsc. pose proof (reserve_bytes c (cb_count src)) as [Hb _].
  destruct (reserve c (cb_count src)) as [c1 d1]. simpl in *.
  destruct (sc_ids _ _ Hsc) as (? & ? & Hft1).
  destruct (appendLoop_inv src ys (Z.to_nat (cb_count src)) c1 xs 0%nat d1 Hsrc)
    as (c2 & d2 & Ea & Hc2 & ((? & ? & ?) & ?) & Hmem); [congruence|done|unfold len in *; lia|].
  change (Z.of_nat 0) with 0 in Ea. rewrite Ea. simpl.
  destruct (copyLast_ok src ys c2 Hsrc) as (t & h & ->). simpl.
  do 2 eexists. split; [done|]. simpl. split; [|split_and!; try congruence; lia].
  apply set_last_inv. eapply column_inv_stored; [exact Hc2|].
  rewrite drop_0, !fmap_app, <- list_fmap_compose. f_equal.
  apply list_fmap_ext. intros _ s _. replace (cb_fieldType c2) with (cb_fieldType src) by congruence.
  apply stored_idem.
Qed.
End append.

(** ** The free list *)
Definition pooled (c : columnBuffer) : Prop :=
  sl_elems (cb_times c) = [] /\ sl_elems (cb_writeSeqs c) = [] /\ sl_elems (cb_floats c) = [] /\
  sl_elems (cb_ints c) = [] /\ sl_elems (cb_strings c) = [] /\ sl_elems (cb_boolBits c) = [] /\
  (slice_ok (cb_times c) /\ slice_ok (cb_writeSeqs c) /\ slice_ok (cb_floats c) /\
   slice_ok (cb_ints c) /\ slice_ok (cb_strings c) /\ slice_ok (cb_boolBits c)).
Definition pool_ok (pool : columnPool) : Prop := Forall pooled pool.

Lemma pooled_zero : pooled zeroColumn.
Proof. repeat split; unfold slice_ok; simpl; unfold len; simpl; lia. Qed.

Lemma pool_get_ok pool : pool_ok pool ->
  pooled (default zeroColumn (pool_get pool).1) /\ pool_ok (pool_get pool).2.
Proof.
  intros Hp. unfold pool_get. destruct (last pool) as [c|] eqn:E; simpl; [|by split; [apply pooled_zero|]].
  split; [|by apply Forall_take]. rewrite last_lookup in E.
  by eapply (Forall_lookup_1 _ _ _ _ Hp).
Qed.

(** A borrowed buffer is empty, whatever it held before. *)
Lemma borrowColumnBuffer_inv pool sid fid ft : pool_ok pool ->
  let '(c, pool') := borrowColumnBuffer pool sid fid ft in
  column_inv c [] /\ cb_seriesID c = sid /\ cb_fieldID c = fid /\ cb_fieldType c = ft /\ pool_ok pool'.
Proof.
  intros Hp. unfold borrowColumnBuffer. pose proof (pool_get_ok pool Hp) as [Hc Hp'].
  destruct (pool_get pool) as [got pool']. simpl in *. set (c := default zeroColumn got) in *.
  destruct Hc as (E1 & E2 & E3 & E4 & E5 & E6 & Ho). split_and!; try done.
  split; col_simpl; try done.
  - unfold values_repr. simpl. repeat case_match; try done. rewrite E6. split; [done|].
    intros i Hi. by unfold bool_at.
  - rewrite approx_all by (col_simpl; rewrite E5; done). col_simpl. rewrite E5.
    unfold capacityBytes. col_simpl. unfold stringBytes. simpl. lia.
  - by rewrite E5.
Qed.

Lemma sl_reset_ok {A} (s : slice A) : slice_ok s -> slice_ok (sl_reset s).
Proof. unfold slice_ok, sl_reset, len. simpl. lia. Qed.

Lemma releaseColumnBuffer_ok pool c xs : pool_ok pool -> column_inv c xs -> pool_ok (releaseColumnBuffer pool c).
Proof.
  intros Hp Hc. unfold releaseColumnBuffer, pool_put. case_match; [done|].
  apply Forall_app. split; [done|]. apply Forall_singleton. destruct (ci_caps _ _ Hc) as (?&?&?&?&?&?).
  case_match; repeat split; col_simpl; try done; try (by apply sl_reset_ok);
    unfold slice_ok, len; simpl; lia.
Qed.

(** A copy holds the same samples, is accounted at its own size, and forgets
    the last timestamp. *)
Lemma cloneColumn_inv c xs : column_inv c xs ->
  column_inv (cloneColumn c) xs /\ cb_hasLast (cloneColumn c) = false /\
  cb_seriesID (cloneColumn c) = cb_seriesID c /\ cb_fieldID (cloneColumn c) = cb_fieldID c /\
  cb_fieldType (cloneColumn c) = cb_fieldType c.
Proof.
  intros [Hn Ht Hq Hv Hb Hs Ho]. split; [|done]. split; try done.
  unfold slice_ok. simpl. unfold len. repeat split; lia.
Qed.
