(* ===== verification/MemCompact.v ===== *)
(** * Reading a column buffer under a query (internal/memtable/compact.go)

    [compactSamples] takes one of two paths: a buffer whose timestamps were
    written in strictly increasing order is cut by binary search, any other
    one is filtered, sorted by time and newest version first, and compacted in
    place.  Both return what [resolves] the samples in the queried interval. *)
From S2P Require Import Prelude Model Runtime Versions MemColumn.
From stdpp Require Import prelude strings list sorting gmap.
From Stdlib Require Import ZArith Lia.
#[local] Open Scope Z_scope.

Definition containsSeries (filter : gset Z) (seriesID : Z) : bool :=
  if bool_decide (filter = ∅) then true else bool_decide (seriesID ∈ filter).
Definition containsField (filter : gset Z) (fieldID : Z) : bool :=
  if bool_decide (filter = ∅) then true else bool_decide (fieldID ∈ filter).

(** [sort.Search(n, f)]: the loop of the standard library, with [n] as the
    bound on its rounds. *)
Fixpoint searchLoop (fuel : nat) (f : Z -> outcome bool) (i j : Z) : outcome Z :=
  match fuel with
  | O => mret i
  | S fuel' =>
      if i <? j then
        let h := (i + j) / 2 in
        b ← f h;
        if b : bool then searchLoop fuel' f i h else searchLoop fuel' f (h + 1) j
      else mret i
  end.
Definition sort_Search (n : Z) (f : Z -> outcome bool) : outcome Z := searchLoop (Z.to_nat n) f 0 n.

(** ** The sorted path *)
Fixpoint sortedUniqueLoop (times : list Z) (n : nat) (index previous : Z) : outcome bool :=
  match n with
  | O => mret true
  | S n' =>
      timestamp ← idx times index;
      if (0 <? index) && (timestamp <=? previous) then mret false
      else sortedUniqueLoop times n' (index + 1) timestamp
  end.
Definition columnTimesSortedUnique (column : columnBuffer) : outcome bool :=
  sortedUniqueLoop (sl_elems (cb_times column)) (Z.to_nat (cb_count column)) 0 0.

Definition sortedRangeBounds (times : list Z) (query : StorageQuery) : outcome (Z * Z) :=
  start ← sort_Search (len times) (fun index => t ← idx times index; mret (sq_Start query <=? t));
  end_ ← sort_Search (len times) (fun index => t ← idx times index; mret (sq_End query <? t));
  if end_ <? start then mret (start, start) else mret (start, end_).

(** [for index := start; index < end; index++ { out[index-start] = column.sampleAt(index) }] *)
Fixpoint samplesFrom (column : columnBuffer) (n : nat) (index : Z) : outcome (list VersionedSample) :=
  match n with
  | O => mret []
  | S n' => s ← sampleAt column index; rest ← samplesFrom column n' (index + 1); mret (s :: rest)
  end.

Definition materializeSortedColumnSamples (column : columnBuffer) (query : StorageQuery)
    : outcome (list VersionedSample) :=
  '(start, end_) ← sortedRangeBounds (take (Z.to_nat (cb_count column)) (sl_elems (cb_times column))) query;
  samplesFrom column (Z.to_nat (end_ - start)) start.

(** ** The general path *)
Fixpoint countLoop (times : list Z) (query : StorageQuery) (n : nat) (index count : Z) : outcome Z :=
  match n with
  | O => mret count
  | S n' =>
      timestamp ← idx times index;
      countLoop times query n' (index + 1)
        (if (sq_Start query <=? timestamp) && (timestamp <=? sq_End query) then count + 1 else count)
  end.
Definition countMatchingSamples (column : columnBuffer) (query : StorageQuery) : outcome Z :=
  countLoop (sl_elems (cb_times column)) query (Z.to_nat (cb_count column)) 0 0.

Definition appendMatchingSample (dst : list VersionedSample) (sample : VersionedSample)
    (query : StorageQuery) : list VersionedSample :=
  if (vs_Timestamp sample <? sq_Start query) || (sq_End query <? vs_Timestamp sample) then dst
  else dst ++ [sample].

(** [write := 0; for _, sample := range samples { ... samples[write] = sample; write++ }]:
    the range reads the array that the body overwrites. *)
Fixpoint dedupeLoop {A} (same : A -> A -> bool) (n read write : nat) (arr : list A) : list A :=
  match n with
  | O => take write arr
  | S n' =>
      match arr !! read with
      | None => take write arr
      | Some x =>
          match write, arr !! (write - 1)%nat with
          | S _, Some y =>
              if same y x then dedupeLoop same n' (S read) write arr
              else dedupeLoop same n' (S read) (S write) (<[write := x]> arr)
          | _, _ => dedupeLoop same n' (S read) (S write) (<[write := x]> arr)
          end
      end
  end.
Definition sameTimestamp (x y : VersionedSample) : bool := vs_Timestamp x =? vs_Timestamp y.
Definition compactSortedSamples (samples : list VersionedSample) : list VersionedSample :=
  dedupeLoop sameTimestamp (length samples) 0 0 samples.

(** Time first, then the newest version. *)
Definition compareSamples (left right : VersionedSample) : Z :=
  if negb (vs_Timestamp left =? vs_Timestamp right) then
    cmp_Compare (vs_Timestamp left) (vs_Timestamp right)
  else cmp_Compare (vs_WriteSeq right) (vs_WriteSeq left).

Definition compactMaterializedSamples `{GoRuntime} (samples : list VersionedSample) : list VersionedSample :=
  if len samples <=? 1 then samples
  else compactSortedSamples (SortFunc compareSamples samples).

Fixpoint matchingLoop (column : columnBuffer) (query : StorageQuery) (n : nat) (index : Z)
    (samples : list VersionedSample) : outcome (list VersionedSample) :=
  match n with
  | O => mret samples
  | S n' =>
      sample ← sampleAt column index;
      matchingLoop column query n' (index + 1) (appendMatchingSample samples sample query)
  end.

(** [compactSamplesInto] is the same with the result placed in a reused
    slice. *)
Definition compactSamples `{GoRuntime} (column : columnBuffer) (query : StorageQuery)
    : outcome (list VersionedSample) :=
  if cb_count column =? 0 then mret []
  else
    sorted ← columnTimesSortedUnique column;
    if sorted : bool then materializeSortedColumnSamples column query
    else
      matches ← countMatchingSamples column query;
      if matches =? 0 then mret []
      else
        samples ← matchingLoop column query (Z.to_nat (cb_count column)) 0 [];
        mret (compactMaterializedSamples samples).

Definition columnDataFromBuffer `{GoRuntime} (column : columnBuffer) (query : StorageQuery)
    : outcome ColumnData :=
  samples ← compactSamples column query;
  mret (mkColumnData (cb_seriesID column) (cb_fieldID column) (cb_fieldType column) samples).

(** * Proofs *)

(** ** Binary search *)
Definition monotone (n : Z) (P : Z -> bool) : Prop :=
  forall i j, 0 <= i -> i <= j -> j < n -> P i = true -> P j = true.

Lemma searchLoop_spec fuel f P n i j :
  (forall h, 0 <= h < n -> f h = Ok (P h)) -> monotone n P ->
  0 <= i <= j -> j <= n -> j - i <= Z.of_nat fuel ->
  (forall h, 0 <= h < i -> P h = false) -> (forall h, j <= h < n -> P h = true) ->
  exists r, searchLoop fuel f i j = Ok r /\ 0 <= r <= n /\
    (forall h, 0 <= h < r -> P h = false) /\ (forall h, r <= h < n -> P h = true).
Proof.
  intros Hf Hm. revert i j. induction fuel as [|fuel IH]; intros i j Hij Hjn Hfuel Hlo Hhi; simpl.
  { assert (i = j) as <- by lia. by exists i; split_and!; try lia. }
  zcase (i <? j); [|assert (i = j) as <- by lia; by exists i; split_and!; try lia].
  assert (i <= (i + j) / 2 < j) by (Z.div_mod_to_equations; lia).
  set (h := (i + j) / 2) in *. rewrite Hf by lia. simpl. destruct (P h) eqn:EP.
  - apply IH; try lia; [done|]. intros k Hk. apply (Hm h); [lia..|done].
  - apply IH; try lia; [|done]. intros k Hk. destruct (P k) eqn:Ek; [|done].
    by rewrite (Hm k h) in EP by (lia || done).
Qed.

Lemma sort_Search_spec f P n :
  0 <= n -> (forall h, 0 <= h < n -> f h = Ok (P h)) -> monotone n P ->
  exists r, sort_Search n f = Ok r /\ 0 <= r <= n /\
    (forall h, 0 <= h < r -> P h = false) /\ (forall h, r <= h < n -> P h = true).
Proof. intros Hn Hf Hm. apply (searchLoop_spec _ _ P); try done; lia. Qed.

(** ** The in-place compaction keeps the first of every run *)
Fixpoint firsts {A} (same : A -> A -> bool) (prev : option A) (l : list A) : list A :=
  match l with
  | [] => []
  | x :: l' =>
      match prev with
      | Some y => if same y x then firsts same prev l' else x :: firsts same (Some x) l'
      | None => x :: firsts same (Some x) l'
      end
  end.

Lemma dedupeLoop_firsts {A} (same : A -> A -> bool) l : forall out junk,
  dedupeLoop same (length l) (length out + length junk) (length out) (out ++ junk ++ l) =
  out ++ firsts same (last out) l.
Proof.
  induction l as [|x l IH]; intros out junk.
  { simpl. by rewrite !app_nil_r, take_app_length. }
  assert (dedupeLoop same (length l) (S (length out + length junk)) (S (length out))
            (<[length out := x]> (out ++ junk ++ x :: l)) = out ++ x :: firsts same (Some x) l) as Hpush.
  { destruct junk as [|z junk].
    - specialize (IH (out ++ [x]) []). rewrite last_snoc in IH.
      rewrite length_app in IH. simpl in IH. rewrite <- !(assoc_L (++)) in IH. cbn [app] in IH |- *.
      rewrite list_insert_id by by rewrite list_lookup_middle.
      replace (length out + 1 + 0)%nat with (S (length out + 0)) in IH by lia.
      replace (length out + 1)%nat with (S (length out)) in IH by lia.
      simpl. rewrite IH. done.
    - specialize (IH (out ++ [x]) (junk ++ [x])). rewrite last_snoc in IH.
      rewrite !length_app in IH. simpl in IH. rewrite <- !(assoc_L (++)) in IH. simpl in IH |- *.
      rewrite insert_app_r_alt, Nat.sub_diag by lia. simpl.
      replace (length out + 1 + (length junk + 1))%nat with (S (length out + S (length junk))) in IH by lia.
      replace (length out + 1)%nat with (S (length out)) in IH by lia. exact IH. }
  cbn [length dedupeLoop firsts].
  rewrite lookup_app_r, lookup_app_r by lia.
  replace (length out + length junk - length out - length junk)%nat with 0%nat by lia.
  cbn [lookup list_lookup].
  destruct (length out) as [|w] eqn:Ew.
  { apply nil_length_inv in Ew as ->. exact Hpush. }
  rewrite lookup_app_l by lia. rewrite last_lookup, Ew.
  replace (pred (S w)) with (S w - 1)%nat by lia.
  destruct (out !! (S w - 1)%nat) as [y|] eqn:Ey; [|by apply lookup_ge_None in Ey; lia].
  destruct (same y x); [|exact Hpush].
  specialize (IH out (junk ++ [x])). rewrite Ew, length_app in IH. simpl in IH.
  rewrite <- (assoc_L (++)) in IH. rewrite last_lookup, Ew in IH.
  replace (pred (S w)) with (S w - 1)%nat in IH by lia. rewrite Ey in IH.
  by replace (S (S w + length junk)) with (S (w + (length junk + 1))) by lia.
Qed.

Lemma compactSortedSamples_firsts l : compactSortedSamples l = firsts sameTimestamp None l.
Proof. apply (dedupeLoop_firsts sameTimestamp l [] []). Qed.

(** In the order of [compareSamples] the first of a run is its newest version. *)
Definition sample_le (x y : VersionedSample) : Prop :=
  vs_Timestamp x < vs_Timestamp y \/
  (vs_Timestamp x = vs_Timestamp y /\ vs_WriteSeq y <= vs_WriteSeq x).

Lemma firsts_elem {A} (same : A -> A -> bool) l : forall prev x, x ∈ firsts same prev l -> x ∈ l.
Proof.
  induction l as [|y l IH]; intros prev x; simpl; [done|]. repeat case_match; rewrite ?elem_of_cons;
    naive_solver.
Qed.

Lemma firsts_spec l : forall p, StronglySorted sample_le (p :: l) ->
  StronglySorted ts_lt (p :: firsts sameTimestamp (Some p) l) /\
  forall x, x ∈ l -> exists y, y ∈ p :: firsts sameTimestamp (Some p) l /\ supersedes y x.
Proof.
  induction l as [|x l IH]; intros p Hs; simpl; [split; [repeat constructor|set_solver]|].
  apply StronglySorted_inv in Hs as [Hs Hp]. apply Forall_cons in Hp as [Hpx Hp].
  destruct (sameTimestamp p x) eqn:E; unfold sameTimestamp in E; [apply Z.eqb_eq in E|apply Z.eqb_neq in E].
  - destruct (IH p) as [IH1 IH2].
    { apply StronglySorted_inv in Hs as [? _]. by constructor. }
    split; [done|]. intros y [->|Hy]%elem_of_cons; [|by apply IH2].
    exists p. split; [left|]. unfold supersedes, sample_le in *. lia.
  - destruct (IH x Hs) as [IH1 IH2].
    assert (vs_Timestamp p < vs_Timestamp x) by (unfold sample_le in Hpx; lia). split.
    + constructor; [done|]. apply Forall_forall. intros y Hy.
      apply StronglySorted_inv in IH1 as [_ IH1]. rewrite Forall_forall in IH1.
      apply elem_of_cons in Hy as [->|Hy]; [done|]. specialize (IH1 y Hy). unfold ts_lt in *. lia.
    + intros y [->|Hy]%elem_of_cons; [exists x; split; [set_solver|apply supersedes_refl]|].
      destruct (IH2 y Hy) as (z & Hz & ?). exists z. split; [set_solver|done].
Qed.

Lemma firsts_resolves l : StronglySorted sample_le l -> resolves l (firsts sameTimestamp None l).
Proof.
  destruct l as [|x l]; [intros _; apply resolves_nil|]. intros Hs. simpl.
  destruct (firsts_spec l x Hs) as [H1 H2]. split; [done|..].
  - intros y [->|Hy%firsts_elem]%elem_of_cons; set_solver.
  - intros y [->|Hy]%elem_of_cons; [exists x; split; [left|apply supersedes_refl]|by apply H2].
Qed.

Lemma compareSamples_neg x y :
  (compareSamples x y <? 0) =
  if negb (vs_Timestamp x =? vs_Timestamp y) then vs_Timestamp x <? vs_Timestamp y
  else - vs_WriteSeq x <? - vs_WriteSeq y.
Proof.
  unfold compareSamples. case_match; rewrite cmp_Compare_neg; [done|].
  zcase (vs_WriteSeq y <? vs_WriteSeq x); zcase (- vs_WriteSeq x <? - vs_WriteSeq y); lia || done.
Qed.

Lemma weak_order_samples (less : VersionedSample -> VersionedSample -> bool) :
  (forall x y, less x y = if negb (vs_Timestamp x =? vs_Timestamp y) then vs_Timestamp x <? vs_Timestamp y
                          else - vs_WriteSeq x <? - vs_WriteSeq y) ->
  weak_order less /\ forall x y, not_after less x y -> sample_le x y.
Proof.
  intros E. split.
  - eapply weak_order_ext; [exact E|]. apply weak_order_lex.
  - intros x y. unfold not_after, sample_le. rewrite E. case_match; rewrite ?negb_true_iff, ?negb_false_iff in *;
      rewrite ?Z.eqb_eq, ?Z.eqb_neq, ?Z.ltb_ge in *; lia.
Qed.

Lemma keep_none {A} (P : A -> bool) l : Forall (fun x => P x = false) l -> filter P l = [].
Proof. induction 1 as [|x l Hx Hl IH]; [done|]. by rewrite filter_cons, Hx, decide_False by auto. Qed.
Lemma keep_all {A} (P : A -> bool) l : Forall (fun x => P x = true) l -> filter P l = l.
Proof. induction 1 as [|x l Hx Hl IH]; [done|]. by rewrite filter_cons, Hx, decide_True, IH by done. Qed.

(** ** The loops over a buffer *)
Section loops.
  Context (column : columnBuffer) (xs : list VersionedSample) (query : StorageQuery).
  Hypothesis Hinv : column_inv column xs.
Let content := stored (cb_fieldType column) <$> xs.
Let keep := in_range (sq_Start query) (sq_End query).

Lemma content_lookup i x : content !! i = Some x ->
  sampleAt column (Z.of_nat i) = Ok x /\ sl_elems (cb_times column) !! i = Some (vs_Timestamp x).
Proof.
  unfold content. rewrite list_lookup_fmap. destruct (xs !! i) as [y|] eqn:Ey; [|done].
  intros [= <-]. split; [by apply sampleAt_inv with xs|].
  by rewrite (ci_times _ _ Hinv), list_lookup_fmap, Ey.
Qed.
Lemma content_length : length content = Z.to_nat (cb_count column).
Proof. unfold content. rewrite length_fmap, (ci_count _ _ Hinv). unfold len. lia. Qed.
Lemma content_times : vs_Timestamp <$> content = sl_elems (cb_times column).
Proof. unfold content. rewrite (ci_times _ _ Hinv), <- list_fmap_compose. done. Qed.

Lemma samplesFrom_content n i : (i + n <= length content)%nat ->
  samplesFrom column n (Z.of_nat i) = Ok (take n (drop i content)).
Proof.
  revert i. induction n as [|n IH]; intros i Hi; simpl; [done|].
  destruct (lookup_lt_is_Some_2 content i ltac:(lia)) as [x Hx].
  destruct (content_lookup i x Hx) as [-> _]. simpl.
  replace (Z.of_nat i + 1) with (Z.of_nat (S i)) by lia. rewrite IH by lia. simpl.
  by rewrite (drop_S content x i Hx).
Qed.

Lemma matchingLoop_content n i acc : (i + n = length content)%nat ->
  matchingLoop column query n (Z.of_nat i) acc = Ok (acc ++ filter keep (drop i content)).
Proof.
  revert i acc. induction n as [|n IH]; intros i acc Hi; simpl.
  { by rewrite drop_ge, app_nil_r by lia. }
  destruct (lookup_lt_is_Some_2 content i ltac:(lia)) as [x Hx].
  destruct (content_lookup i x Hx) as [-> _]. simpl.
  replace (Z.of_nat i + 1) with (Z.of_nat (S i)) by lia. rewrite IH by lia.
  rewrite (drop_S content x i Hx), filter_cons. unfold appendMatchingSample, keep, in_range.
  zcase (vs_Timestamp x <? sq_Start query); zcase (sq_End query <? vs_Timestamp x); simpl;
    case_decide as Hd; rewrite ?andb_True, ?Is_true_true, ?Z.leb_le in Hd; try lia; try done.
  by rewrite <- (assoc_L (++)).
Qed.

Lemma countLoop_content n i count : (i + n = length content)%nat ->
  countLoop (sl_elems (cb_times column)) query n (Z.of_nat i) count =
    Ok (count + len (filter keep (drop i content))).
Proof.
  revert i count. induction n as [|n IH]; intros i count Hi; simpl.
  { rewrite drop_ge by lia. unfold len. simpl. by rewrite Z.add_0_r. }
  destruct (lookup_lt_is_Some_2 content i ltac:(lia)) as [x Hx].
  destruct (content_lookup i x Hx) as [_ Ht]. rewrite (idx_lookup _ _ _ Ht). simpl.
  replace (Z.of_nat i + 1) with (Z.of_nat (S i)) by lia. rewrite IH by lia.
  rewrite (drop_S content x i Hx), filter_cons. unfold keep, in_range.
  destruct ((sq_Start query <=? vs_Timestamp x) && (vs_Timestamp x <=? sq_End query)); simpl; [|done].
  unfold len. simpl. f_equal. lia.
Qed.

Lemma sortedUniqueLoop_spec n : forall i prev, (i + n = length content)%nat ->
  exists b, sortedUniqueLoop (sl_elems (cb_times column)) n (Z.of_nat i) prev = Ok b /\
    (b = true -> StronglySorted ts_lt (drop i content) /\
      (i <> 0%nat -> Forall (fun x => prev < vs_Timestamp x) (drop i content))).
Proof.
  induction n as [|n IH]; intros i prev Hi; simpl.
  { exists true. rewrite drop_ge by lia. split; [done|]. intros _. split; constructor. }
  destruct (lookup_lt_is_Some_2 content i ltac:(lia)) as [x Hx].
  destruct (content_lookup i x Hx) as [_ Ht]. rewrite (idx_lookup _ _ _ Ht). simpl.
  zcase (0 <? Z.of_nat i); [zcase (vs_Timestamp x <=? prev)|]; simpl; [by exists false| |].
  all: replace (Z.of_nat i + 1) with (Z.of_nat (S i)) by lia;
    destruct (IH (S i) (vs_Timestamp x)) as (b & -> & Hb); [lia|]; exists b; (split; [done|]);
    intros ->; destruct Hb as [Hs Hf]; [done|]; specialize (Hf ltac:(lia));
    rewrite (drop_S content x i Hx); (split; [by constructor|]); intros Hi0; try lia.
  constructor; [lia|]. eapply Forall_impl; [exact Hf|]. simpl. lia.
Qed.

(** ** The sorted path *)
Lemma sorted_lookup_mono i j x y : StronglySorted ts_lt content ->
  (i <= j)%nat -> content !! i = Some x -> content !! j = Some y -> vs_Timestamp x <= vs_Timestamp y.
Proof.
  intros Hs Hij Hx Hy. destruct (decide (i = j)) as [->|]; [simplify_eq; lia|].
  assert (ts_lt x y); [|unfold ts_lt in *; lia].
  eapply (StronglySorted_app_1_elem_of ts_lt (take j content) (drop j content)).
  - by rewrite take_drop.
  - apply list_elem_of_lookup. exists i. rewrite lookup_take_lt by lia. done.
  - apply list_elem_of_lookup. exists 0%nat. by rewrite lookup_drop, Nat.add_0_r.
Qed.

Lemma window_filter lo hi :
  (lo <= length content)%nat -> (hi <= length content)%nat ->
  (forall i x, content !! i = Some x ->
     bool_decide (lo <= i)%nat = (sq_Start query <=? vs_Timestamp x) /\
     bool_decide (i < hi)%nat = (vs_Timestamp x <=? sq_End query)) ->
  filter keep content = take (hi - lo) (drop lo content).
Proof.
  intros Hlo Hhi Hw.
  assert (forall i x, content !! i = Some x -> keep x = bool_decide (lo <= i)%nat && bool_decide (i < hi)%nat) as Hk.
  { intros i x Hx. destruct (Hw i x Hx) as [-> ->]. done. }
  rewrite <- (take_drop lo content) at 1. rewrite filter_app.
  rewrite <- (take_drop (hi - lo) (drop lo content)) at 1. rewrite filter_app.
  rewrite (keep_none keep (take lo content)), (keep_none keep (drop (hi - lo) (drop lo content))),
    keep_all, app_nil_r; [done|..]; apply Forall_lookup; intros i x; rewrite ?lookup_drop.
  - intros [Hx Hi]%lookup_take_Some. rewrite lookup_drop in Hx. rewrite (Hk _ _ Hx).
    by rewrite !bool_decide_true by lia.
  - intros Hx. rewrite (Hk _ _ Hx). rewrite (bool_decide_false (_ < hi)%nat) by lia. by rewrite andb_false_r.
  - intros [Hx Hi]%lookup_take_Some. rewrite (Hk _ _ Hx). by rewrite bool_decide_false by lia.
Qed.

(** A binary search in the sorted timestamps ends at the first element the
    (monotone) test accepts. *)
Lemma search_times (P : Z -> bool) :
  StronglySorted ts_lt content -> (forall s t, s <= t -> P s = true -> P t = true) ->
  let times := take (Z.to_nat (cb_count column)) (sl_elems (cb_times column)) in
  exists r, sort_Search (len times) (fun index => t ← idx times index; mret (P t)) = Ok (Z.of_nat r) /\
    (r <= length content)%nat /\
    forall i x, content !! i = Some x -> bool_decide (r <= i)%nat = P (vs_Timestamp x).
Proof.
  intros Hs HP. rewrite <- content_times, take_ge by (rewrite length_fmap, content_length; lia). simpl.
  set (Q := fun i => match content !! Z.to_nat i with Some x => P (vs_Timestamp x) | None => true end).
  destruct (sort_Search_spec (fun index => t ← idx (vs_Timestamp <$> content) index; mret (P t)) Q
    (len (vs_Timestamp <$> content))) as (r & Hr & Hb & Hlo & Hhi).
  - apply len_nonneg.
  - unfold len. rewrite length_fmap. intros h Hh. unfold Q.
    destruct (lookup_lt_is_Some_2 content (Z.to_nat h) ltac:(lia)) as [x Hx]. rewrite Hx.
    rewrite (idx_Z _ _ (vs_Timestamp x)) by (lia || by rewrite list_lookup_fmap, Hx). done.
  - unfold len. rewrite length_fmap. intros i j Hi Hij Hj. unfold Q.
    destruct (lookup_lt_is_Some_2 content (Z.to_nat i) ltac:(lia)) as [x Hx].
    destruct (lookup_lt_is_Some_2 content (Z.to_nat j) ltac:(lia)) as [y Hy]. rewrite Hx, Hy.
    apply HP. apply (sorted_lookup_mono (Z.to_nat i) (Z.to_nat j)); [done|lia|done|done].
  - unfold len in *. rewrite length_fmap in *. exists (Z.to_nat r). rewrite Z2Nat.id by lia.
    split; [done|]. split; [lia|]. intros i x Hx. pose proof (lookup_lt_Some _ _ _ Hx).
    assert (Q (Z.of_nat i) = P (vs_Timestamp x)) as <- by (unfold Q; by rewrite Nat2Z.id, Hx).
    case_bool_decide; symmetry; [apply Hhi|apply Hlo]; lia.
Qed.

Lemma materializeSorted_content : StronglySorted ts_lt content ->
  materializeSortedColumnSamples column query = Ok (filter keep content).
Proof.
  intros Hs. unfold materializeSortedColumnSamples, sortedRangeBounds.
  destruct (search_times (fun t => sq_Start query <=? t) Hs) as (lo & Elo & Hlo & Plo);
    [intros ???; rewrite !Z.leb_le; lia|].
  destruct (search_times (fun t => sq_End query <? t) Hs) as (hi & Ehi & Hhi & Phi);
    [intros ???; rewrite !Z.ltb_lt; lia|].
  cbv zeta in Elo, Ehi. rewrite Elo. simpl. rewrite Ehi. simpl.
  rewrite (window_filter lo hi Hlo Hhi).
  - zcase (Z.of_nat hi <? Z.of_nat lo); simpl.
    + by rewrite Z.sub_diag, (proj2 (Nat.sub_0_le hi lo)) by lia.
    + replace (Z.to_nat (Z.of_nat hi - Z.of_nat lo)) with (hi - lo)%nat by lia.
      apply samplesFrom_content. lia.
  - intros i x Hx. split; [by apply Plo|]. specialize (Phi i x Hx).
    zcase (sq_End query <? vs_Timestamp x); zcase (vs_Timestamp x <=? sq_End query); try lia;
      case_bool_decide; case_bool_decide; try done; lia.
Qed.
End loops.

Section compact.
  Context `{GoRuntimeLaws}.

Lemma compactMaterialized_resolves samples : resolves samples (compactMaterializedSamples samples).
Proof.
  unfold compactMaterializedSamples. zcase (len samples <=? 1).
  - destruct samples as [|x [|y l]]; [apply resolves_nil|apply resolves_self; repeat constructor|].
    unfold len in *. simpl in *. lia.
  - rewrite compactSortedSamples_firsts. unfold SortFunc.
    set (less := fun x y => compareSamples x y <? 0).
    destruct (weak_order_samples less) as [Hw Hle]; [intros; apply compareSamples_neg|].
    rewrite <- (sort_less_perm less samples) at 1. apply firsts_resolves.
    eapply StronglySorted_impl_in; [|by apply sort_less_sorted]. intros x y _ _. apply Hle.
Qed.

(** Whichever path is taken, a query on a buffer returns for every timestamp of
    the interval one newest version of what was appended. *)
Lemma compactSamples_resolves column xs query : column_inv column xs ->
  exists out, compactSamples column query = Ok out /\
    resolves (filter (in_range (sq_Start query) (sq_End query)) (stored (cb_fieldType column) <$> xs)) out.
Proof.
  intros HI. unfold compactSamples. pose proof (content_length column xs HI) as Hlen.
  zcase (cb_count column =? 0).
  { exists []. split; [done|]. destruct xs; [apply resolves_nil|]. rewrite length_fmap in Hlen.
    simpl in *. lia. }
  unfold columnTimesSortedUnique.
  destruct (sortedUniqueLoop_spec column xs HI (Z.to_nat (cb_count column)) 0 0) as (b & Eb & Hb); [lia|].
  change (Z.of_nat 0) with 0 in Eb. rewrite Eb. simpl. destruct b.
  - destruct (Hb eq_refl) as [Hs _]. rewrite drop_0 in Hs.
    rewrite (materializeSorted_content column xs query HI Hs). eexists. split; [done|].
    by apply resolves_self, StronglySorted_filter.
  - unfold countMatchingSamples.
    pose proof (countLoop_content column xs query HI (Z.to_nat (cb_count column)) 0 0) as Ec.
    change (Z.of_nat 0) with 0 in Ec. rewrite Ec, drop_0 by lia. simpl.
    set (kept := filter _ _). zcase (0 + len kept =? 0).
    + exists []. split; [done|]. destruct kept; [apply resolves_nil|unfold len in *; simpl in *; lia].
    + pose proof (matchingLoop_content column xs query HI (Z.to_nat (cb_count column)) 0 []) as Em.
      change (Z.of_nat 0) with 0 in Em. rewrite Em, drop_0 by lia. simpl. eexists. split; [done|].
      apply compactMaterialized_resolves.
Qed.
End compact.
