(* ===== verification/StoreSpec.v ===== *)
(** * What a store of samples promises to its readers

    The memtable, a part, the merged streams of a shard and the shard itself
    all answer a query with a list of columns.  [answers] is the contract they
    share: given the versions a store holds per series and field, the columns
    come in key order, each one selected, nonempty and resolved.  The lemmas
    compose answers: of several stores, and through deletions. *)
From S2P Require Import Prelude Model Runtime Versions MemCompact.
From stdpp Require Import prelude strings list sorting gmap.
From Stdlib Require Import ZArith Lia.
#[local] Open Scope Z_scope.

(** All versions a store holds, per series and field. *)
Definition contents : Type := (Z * Z) -> list VersionedSample.

Definition keyOf (c : ColumnData) : Z * Z := (cd_SeriesID c, cd_FieldID c).
Definition key_lt (k l : Z * Z) : Prop := k.1 < l.1 \/ (k.1 = l.1 /\ k.2 < l.2).
Definition column_lt (c d : ColumnData) : Prop := key_lt (keyOf c) (keyOf d).
#[export] Instance key_lt_irrefl : Irreflexive key_lt.
Proof. intros [x y]. unfold complement, key_lt. simpl. lia. Qed.
#[export] Instance key_lt_trans : Transitive key_lt.
Proof. intros [] [] []. unfold key_lt. simpl. lia. Qed.
#[export] Instance column_lt_irrefl : Irreflexive column_lt.
Proof. intros c. apply (irreflexivity key_lt). Qed.
#[export] Instance column_lt_trans : Transitive column_lt.
Proof. intros a b c. apply (transitivity (R := key_lt)). Qed.
Lemma key_lt_tricho k l : key_lt k l \/ k = l \/ key_lt l k.
Proof.
  destruct k as [a b], l as [c d]. unfold key_lt. simpl.
  destruct (decide (a = c)), (decide (b = d)); subst; auto; lia.
Qed.

Definition selects (query : StorageQuery) (k : Z * Z) : bool :=
  containsSeries (sq_SeriesIDs query) k.1 && containsField (sq_FieldIDs query) k.2.
Definition in_window (query : StorageQuery) : VersionedSample -> bool :=
  in_range (sq_Start query) (sq_End query).

Record answers (schema : Z * Z -> Z) (query : StorageQuery) (V : contents) (out : list ColumnData)
    : Prop := {
  an_sorted : StronglySorted column_lt out;
  an_column c : c ∈ out ->
    selects query (keyOf c) = true /\ cd_FieldType c = schema (keyOf c) /\ cd_Samples c <> [] /\
    resolves (filter (in_window query) (V (keyOf c))) (cd_Samples c);
  an_complete k s : selects query k = true -> s ∈ filter (in_window query) (V k) ->
    exists c, c ∈ out /\ keyOf c = k;
}.

Lemma column_sorted_inj out c d :
  StronglySorted column_lt out -> c ∈ out -> d ∈ out -> keyOf c = keyOf d -> c = d.
Proof.
  induction 1 as [|z out Hs IH Hz]; intros Hc Hd E; [by apply elem_of_nil in Hc|].
  rewrite Forall_forall in Hz.
  apply elem_of_cons in Hc as [->|Hc]; apply elem_of_cons in Hd as [->|Hd]; auto; exfalso.
  - specialize (Hz _ Hd). unfold column_lt in Hz. rewrite E in Hz. by apply (irreflexivity key_lt) in Hz.
  - specialize (Hz _ Hc). unfold column_lt in Hz. rewrite E in Hz. by apply (irreflexivity key_lt) in Hz.
Qed.
Lemma column_sorted_NoDup out : StronglySorted column_lt out -> NoDup out.
Proof.
  induction 1 as [|z out Hs IH Hz]; constructor; [|done].
  intros Hin. rewrite Forall_forall in Hz. by apply (irreflexivity column_lt z), Hz.
Qed.

Definition all_versioned (V : contents) : Prop := forall k, versioned (V k).
Lemma versioned_filter (P : VersionedSample -> bool) xs : versioned xs -> versioned (filter P xs).
Proof. intros Hv x y [_ Hx]%list_elem_of_filter [_ Hy]%list_elem_of_filter. by apply Hv. Qed.

(** A resolution is empty exactly when there is nothing to resolve. *)
Lemma resolves_empty xs : resolves xs [] -> xs = [].
Proof.
  intros H. destruct xs as [|x xs]; [done|].
  destruct (rs_newest _ _ H x) as (y & Hy & _); [left|]. by apply elem_of_nil in Hy.
Qed.
Lemma resolves_nonempty xs ys x : resolves xs ys -> x ∈ xs -> ys <> [].
Proof. intros H Hx ->. apply resolves_empty in H as ->. by apply elem_of_nil in Hx. Qed.

Section answers.
  Context (schema : Z * Z -> Z) (query : StorageQuery).

(** The contract determines the answer. *)
Lemma answers_unique V out out' : all_versioned V ->
  answers schema query V out -> answers schema query V out' -> out = out'.
Proof.
  intros Hv H1 H2. apply (sorted_perm_unique column_lt); [apply H1|apply H2|].
  assert (forall o o', answers schema query V o -> answers schema query V o' ->
            forall c, c ∈ o -> c ∈ o') as Hsub.
  { clear H1 H2. intros o o' H1 H2 c Hc. destruct (an_column _ _ _ _ H1 c Hc) as (Hsel & Ht & Hne & Hr).
    destruct (cd_Samples c) as [|s l] eqn:El; [done|].
    destruct (an_complete _ _ _ _ H2 (keyOf c) s Hsel) as (d & Hd & Ek);
      [apply (rs_sound _ _ Hr); left|].
    destruct (an_column _ _ _ _ H2 d Hd) as (_ & Ht' & _ & Hr'). rewrite Ek in Hr', Ht'.
    assert (cd_Samples d = cd_Samples c) as E.
    { eapply resolves_unique; [by apply versioned_filter, Hv|exact Hr'|by rewrite El]. }
    replace c with d; [done|]. destruct c, d. unfold keyOf in *. simpl in *. congruence. }
  apply NoDup_Permutation; [eapply column_sorted_NoDup, H1|eapply column_sorted_NoDup, H2|].
  intros c. split; [by apply Hsub|by apply Hsub].
Qed.

Lemma answers_ext V V' out :
  (forall k s, selects query k = true -> in_window query s = true -> (s ∈ V k <-> s ∈ V' k)) ->
  answers schema query V out -> answers schema query V' out.
Proof.
  intros E H.
  assert (forall k s, selects query k = true ->
    s ∈ filter (in_window query) (V k) <-> s ∈ filter (in_window query) (V' k)) as E'.
  { intros k s Hk. rewrite !list_elem_of_filter, !Is_true_true. split; intros [? ?];
      (split; [done|]); by apply E. }
  split; [apply H|..].
  - intros c Hc. destruct (an_column _ _ _ _ H c Hc) as (? & ? & ? & Hr). split_and!; try done.
    eapply resolves_ext; [|exact Hr]. intros x. by apply E'.
  - intros k s Hk Hs. apply (an_complete _ _ _ _ H k s Hk). by apply E'.
Qed.

Lemma answers_empty : answers schema query (fun _ => []) [].
Proof.
  split; [constructor|intros c Hc; by apply elem_of_nil in Hc|].
  intros k s _ Hs. by apply elem_of_nil in Hs.
Qed.

(** Dropping versions by an upward closed test, column by column. *)
Definition restrict (keep : Z * Z -> VersionedSample -> bool) (c : ColumnData) : ColumnData :=
  mkColumnData (cd_SeriesID c) (cd_FieldID c) (cd_FieldType c) (filter (keep (keyOf c)) (cd_Samples c)).
Definition restrict_all keep (out : list ColumnData) : list ColumnData :=
  filter (fun c => negb (len (cd_Samples c) =? 0)) (restrict keep <$> out).

Lemma restrict_nonempty c : Is_true (negb (len (cd_Samples c) =? 0)) <-> cd_Samples c <> [].
Proof.
  rewrite Is_true_true, negb_true_iff, Z.eqb_neq. unfold len. destruct (cd_Samples c); simpl; [|split; [done|lia]].
  split; [lia|done].
Qed.

Lemma elem_of_restrict_all keep out c : c ∈ restrict_all keep out <->
  exists d, d ∈ out /\ c = restrict keep d /\ cd_Samples c <> [].
Proof.
  unfold restrict_all. rewrite list_elem_of_filter, restrict_nonempty, list_elem_of_fmap. naive_solver.
Qed.

Lemma restrict_all_sorted keep out :
  StronglySorted column_lt out -> StronglySorted column_lt (restrict_all keep out).
Proof.
  intros Hs. apply StronglySorted_filter. induction Hs as [|c out Hs IH Hc]; simpl; constructor; [done|].
  rewrite Forall_fmap. eapply Forall_impl; [exact Hc|]. done.
Qed.

Lemma filter_comm {A} (P Q : A -> bool) (l : list A) : filter P (filter Q l) = filter Q (filter P l).
Proof.
  induction l as [|x l IH]; [done|]. rewrite !filter_cons. repeat case_decide; rewrite ?filter_cons;
    repeat case_decide; try done; by rewrite IH.
Qed.

Lemma answers_restrict keep V out : (forall k, up_closed (keep k)) ->
  answers schema query V out ->
  answers schema query (fun k => filter (keep k) (V k)) (restrict_all keep out).
Proof.
  intros Hup H. split; [apply restrict_all_sorted, H|..].
  - intros c (d & Hd & -> & Hne)%elem_of_restrict_all.
    destruct (an_column _ _ _ _ H d Hd) as (? & ? & _ & Hr). split_and!; try done.
    rewrite filter_comm. by apply resolves_filter.
  - intros k s Hk. rewrite filter_comm. intros [Hkeep Hs]%list_elem_of_filter.
    destruct (an_complete _ _ _ _ H k s Hk Hs) as (d & Hd & <-).
    exists (restrict keep d). split; [|done]. apply elem_of_restrict_all. exists d. split_and!; [done..|].
    destruct (an_column _ _ _ _ H d Hd) as (_ & _ & _ & Hr).
    simpl. apply (resolves_nonempty (filter (keep (keyOf d)) (filter (in_window query) (V (keyOf d)))) _ s).
    + by apply resolves_filter.
    + by apply list_elem_of_filter.
Qed.
End answers.

(** ** Merging columns by key *)
Definition of_column (k : Z * Z) (cols : list ColumnData) : list VersionedSample :=
  concat (cd_Samples <$> filter (fun c => keyOf c = k) cols).

(** [out] has one column per key of [cols], which resolves all their samples. *)
Record merged (cols out : list ColumnData) : Prop := {
  mg_sorted : StronglySorted column_lt out;
  mg_column c : c ∈ out ->
    (exists d, d ∈ cols /\ keyOf d = keyOf c /\ cd_FieldType d = cd_FieldType c) /\
    resolves (of_column (keyOf c) cols) (cd_Samples c);
  mg_complete d : d ∈ cols -> exists c, c ∈ out /\ keyOf c = keyOf d;
}.

Lemma of_column_app k l1 l2 : of_column k (l1 ++ l2) = of_column k l1 ++ of_column k l2.
Proof. unfold of_column. by rewrite filter_app, fmap_app, concat_app. Qed.
Lemma of_column_none k l : (forall c, c ∈ l -> keyOf c <> k) -> of_column k l = [].
Proof.
  intros Hn. unfold of_column. replace (filter (fun c => keyOf c = k) l) with ([] : list ColumnData); [done|].
  symmetry. induction l as [|c l IH]; [done|]. rewrite filter_cons, decide_False by (apply Hn; left).
  apply IH. intros d Hd. apply Hn. by right.
Qed.
Lemma of_column_all k l : (forall c, c ∈ l -> keyOf c = k) -> of_column k l = concat (cd_Samples <$> l).
Proof.
  intros Ha. unfold of_column. f_equal. f_equal. induction l as [|c l IH]; [done|].
  rewrite filter_cons, decide_True by (apply Ha; left). f_equal. apply IH. intros d Hd. apply Ha. by right.
Qed.

Lemma merged_nil : merged [] [].
Proof. split; [constructor|by intros ? ?%elem_of_nil|by intros ? ?%elem_of_nil]. Qed.

(** Adding the merge of a first key in front of the merge of later keys. *)
Lemma merged_step k group rest c out cols :
  (forall d, d ∈ group -> keyOf d = k) -> group <> [] -> (forall d, d ∈ rest -> key_lt k (keyOf d)) ->
  keyOf c = k -> (exists d, d ∈ group /\ cd_FieldType d = cd_FieldType c) ->
  resolves (concat (cd_Samples <$> group)) (cd_Samples c) -> merged rest out ->
  cols ≡ₚ group ++ rest -> merged cols (c :: out).
Proof.
  intros Hg Hne Hr Ek (d0 & Hd0 & Et) Hres Hm Hp.
  assert (forall e, e ∈ out -> key_lt k (keyOf e)) as Hout.
  { intros e He. destruct (mg_column _ _ Hm e He) as [(d & Hd & <- & _) _]. by apply Hr. }
  assert (forall k' x, x ∈ of_column k' cols <-> x ∈ of_column k' group ++ of_column k' rest) as Hof.
  { intros k' x. rewrite <- of_column_app. unfold of_column. by rewrite Hp. }
  split.
  - constructor; [apply Hm|]. apply Forall_forall. intros e He. unfold column_lt. rewrite Ek. by apply Hout.
  - intros e [->|He]%elem_of_cons.
    + split; [exists d0; rewrite Hp, elem_of_app; split; [by left|split; [rewrite Ek; by apply Hg|done]]|].
      eapply resolves_ext; [symmetry; apply Hof|]. rewrite Ek, (of_column_all k group) by done.
      rewrite of_column_none, app_nil_r; [done|]. intros d Hd E. specialize (Hr d Hd). rewrite E in Hr.
      by apply (irreflexivity key_lt) in Hr.
    + destruct (mg_column _ _ Hm e He) as [(d & Hd & ? & ?) Hre].
      split; [exists d; rewrite Hp, elem_of_app; auto|].
      eapply resolves_ext; [symmetry; apply Hof|]. rewrite of_column_none; [done|].
      intros d' Hd' E. specialize (Hout e He). rewrite <- E, (Hg d' Hd') in Hout.
      by apply (irreflexivity key_lt) in Hout.
  - intros d. rewrite Hp, elem_of_app. intros [Hd|Hd].
    + exists c. split; [left|]. by rewrite Ek, Hg.
    + destruct (mg_complete _ _ Hm d Hd) as (e & ? & ?). exists e. split; [by right|done].
Qed.

Lemma elem_of_concat {A} (x : A) ls : x ∈ concat ls <-> exists l, x ∈ l /\ l ∈ ls.
Proof.
  induction ls as [|l ls IH]; simpl; [split; [by intros ?%elem_of_nil|by intros (? & _ & ?%elem_of_nil)]|].
  rewrite elem_of_app, IH. setoid_rewrite elem_of_cons. naive_solver.
Qed.

(** In the answer of one store the samples of a key resolve its versions, also
    where the answer has no column for it. *)
Lemma of_column_unique k c l1 l2 : StronglySorted column_lt (l1 ++ c :: l2) -> keyOf c = k ->
  of_column k (l1 ++ c :: l2) = cd_Samples c.
Proof.
  intros Hs Ek. change (c :: l2) with ([c] ++ l2). rewrite !of_column_app.
  assert (forall d, d ∈ l1 \/ d ∈ l2 -> keyOf d <> k) as Hne.
  { intros d Hd E. assert (c = d) as <-.
    { eapply column_sorted_inj; [exact Hs|set_solver|set_solver|congruence]. }
    apply (irreflexivity column_lt c). destruct Hd as [Hd|Hd].
    - eapply (StronglySorted_app_1_elem_of column_lt); [exact Hs|done|left].
    - apply StronglySorted_app_1_r, StronglySorted_inv in Hs as [_ Hs]. rewrite Forall_forall in Hs. by apply Hs. }
  rewrite (of_column_none k l1) by (intros d Hd; apply Hne; by left).
  rewrite (of_column_none k l2) by (intros d Hd; apply Hne; by right).
  rewrite (of_column_all k [c]) by by intros d ->%list_elem_of_singleton.
  simpl. by rewrite !app_nil_r.
Qed.

Lemma of_column_answer schema query V items k : answers schema query V items -> selects query k = true ->
  resolves (filter (in_window query) (V k)) (of_column k items).
Proof.
  intros Ha Hk. destruct (decide (Exists (fun c => keyOf c = k) items)) as [He|Hno].
  - apply Exists_exists in He as (c & Hc & Ek). destruct (an_column _ _ _ _ Ha c Hc) as (_ & _ & _ & Hr).
    apply list_elem_of_split in Hc as (l1 & l2 & ->).
    rewrite of_column_unique by (done || apply Ha). by rewrite Ek in Hr.
  - rewrite of_column_none; [|intros c Hc E; apply Hno, Exists_exists; by exists c].
    destruct (filter (in_window query) (V k)) as [|s l] eqn:El; [apply resolves_nil|].
    destruct (an_complete _ _ _ _ Ha k s Hk) as (c & Hc & Ek); [rewrite El; left|].
    exfalso. apply Hno, Exists_exists. by exists c.
Qed.

Lemma of_column_concat k itemss : of_column k (concat itemss) = concat (of_column k <$> itemss).
Proof. induction itemss as [|i l IH]; simpl; [done|]. by rewrite of_column_app, IH. Qed.

(** All versions of several stores. *)
Definition union_contents (Vs : list contents) : contents := fun k => concat ((fun V : contents => V k) <$> Vs).
Lemma filter_union query Vs k : filter (in_window query) (union_contents Vs k) =
  concat ((fun V : contents => filter (in_window query) (V k)) <$> Vs).
Proof.
  unfold union_contents. induction Vs as [|V Vs IH]; [done|]. rewrite !fmap_cons. cbn [concat].
  by rewrite filter_app, IH.
Qed.

(** Answers of several stores merge into the answer of all of them. *)
Lemma answers_merge schema query (Vs : list contents) itemss out :
  Forall2 (answers schema query) Vs itemss -> merged (concat itemss) out ->
  answers schema query (union_contents Vs) out.
Proof.
  intros HF Hm. split; [apply Hm|..].
  - intros c Hc. destruct (mg_column _ _ Hm c Hc) as [(d & Hd & Ek & Et) Hr].
    assert (selects query (keyOf d) = true /\ cd_FieldType d = schema (keyOf d) /\ cd_Samples d <> [])
      as (Hsel & Hty & Hne).
    { clear - HF Hd. induction HF as [|V items Vs itemss Ha HF IH]; [by apply elem_of_nil in Hd|].
      simpl in Hd. apply elem_of_app in Hd as [Hd|Hd]; [|by apply IH].
      by destruct (an_column _ _ _ _ Ha d Hd) as (? & ? & ? & _). }
    rewrite Ek in *. split_and!; [done|congruence|..].
    + destruct (cd_Samples d) as [|s l] eqn:El; [done|]. apply (resolves_nonempty _ _ s Hr).
      unfold of_column. apply elem_of_concat. exists (cd_Samples d). rewrite El. split; [left|].
      rewrite <- El. apply list_elem_of_fmap_2, list_elem_of_filter. by split.
    + rewrite filter_union. rewrite of_column_concat in Hr. eapply resolves_concat; [|exact Hr].
      clear - HF Hsel. induction HF; simpl; constructor; [by eapply of_column_answer|done].
  - intros k s Hk. rewrite filter_union. intros Hs.
    assert (exists d, d ∈ concat itemss /\ keyOf d = k) as (d & Hd & Ek).
    { clear - HF Hs Hk. induction HF as [|V items Vs itemss Ha HF IH]; simpl in *; [by apply elem_of_nil in Hs|].
      apply elem_of_app in Hs as [Hs|Hs].
      - destruct (an_complete _ _ _ _ Ha k s Hk Hs) as (c & ? & ?). exists c. rewrite elem_of_app. auto.
      - destruct (IH Hs) as (d & ? & ?). exists d. rewrite elem_of_app. auto. }
    destruct (mg_complete _ _ Hm d Hd) as (c & ? & ?). exists c. split; [done|congruence].
Qed.
