(* ===== verification/MemTable.v ===== *)
(** * The memtable (internal/memtable/memtable.go)

    A table of column buffers by series and field, with running counts.  An
    operation takes the shared free list of buffers next to the table and
    returns both.  A table pointer is never shared between two tables
    (SnapshotAndReset hands the map over, Snapshot copies it), so the map is a
    value; no operation stores a nil buffer, so the nil tests of the source
    never fire. *)
From S2P Require Import Prelude Model Runtime Versions MemColumn MemCompact StoreSpec.
From stdpp Require Import prelude strings list sorting gmap.
From stdpp Require Import prelude strings list gmap.
From Stdlib Require Import ZArith Lia.
#[local] Open Scope Z_scope.

(** [columnKey{seriesID, fieldID}] *)
Abbreviation columnKey := (Z * Z)%type.
Abbreviation tableData := (gmap columnKey columnBuffer).

Record MemTable := mkMemTable {
  mt_data : tableData;
  mt_sampleCount : Z;
  mt_approxBytes : Z;
  mt_outOfOrderSamples : Z;
  mt_duplicateSamples : Z;
  mt_appendedSamples : Z;
}.

Record Snapshot := mkSnapshot {
  sn_data : tableData;
  sn_sampleCount : Z;
  sn_approxBytes : Z;
}.

Record Stats := mkStats {
  st_Samples : Z;
  st_Series : Z;
  st_Fields : Z;
  st_Columns : Z;
  st_Bytes : Z;
  st_OutOfOrderSamples : Z;
  st_DuplicateSamples : Z;
  st_AppendedSamples : Z;
}.

Record columnReservation := mkReservation { res_fieldType : Z; res_count : Z }.

Definition tableDataBaseBytes : Z := 8.
Definition mapEntryApproxBytes : Z := 24.
Definition uniqueSeriesReservationBypassMinPoints : Z := 128.

(** [borrowTableData]: a new map, or a pooled one that is cleared first. *)
Definition borrowTableData : tableData := ∅.
Definition New : MemTable := mkMemTable borrowTableData 0 tableDataBaseBytes 0 0 0.

(** ** Writing *)
Definition ensureColumn (pool : columnPool) (data : tableData) (seriesID fieldID fieldType : Z)
    : columnBuffer * Z * tableData * columnPool :=
  match data !! (seriesID, fieldID) with
  | None =>
      let '(column, pool) := borrowColumnBuffer pool seriesID fieldID fieldType in
      (column, mapEntryApproxBytes + cb_memBytes column, <[(seriesID, fieldID) := column]> data, pool)
  | Some column =>
      let column := set_fieldType fieldType column in
      (column, 0, <[(seriesID, fieldID) := column]> data, pool)
  end.

Definition noteAppendOrderLocked (m : MemTable) (column : columnBuffer) (timestamp : Z)
    : MemTable * columnBuffer :=
  let counted outOfOrder duplicate :=
    mkMemTable (mt_data m) (mt_sampleCount m + 1) (mt_approxBytes m) outOfOrder duplicate
      (u64 (mt_appendedSamples m + 1)) in
  if negb (cb_hasLast column) then
    (counted (mt_outOfOrderSamples m) (mt_duplicateSamples m), set_last timestamp true column)
  else if timestamp <? cb_lastTimestamp column then
    (counted (u64 (mt_outOfOrderSamples m + 1)) (mt_duplicateSamples m),
     set_last timestamp (cb_hasLast column) column)
  else if timestamp =? cb_lastTimestamp column then
    (counted (mt_outOfOrderSamples m) (u64 (mt_duplicateSamples m + 1)), column)
  else
    (counted (mt_outOfOrderSamples m) (mt_duplicateSamples m),
     set_last timestamp (cb_hasLast column) column).

Definition set_data (data : tableData) (approxBytes : Z) (m : MemTable) : MemTable :=
  mkMemTable data (mt_sampleCount m) approxBytes (mt_outOfOrderSamples m) (mt_duplicateSamples m)
    (mt_appendedSamples m).

(** The body that [applyField] and the loop of [applyTypedRowLocked] share;
    the buffer is updated through the pointer in the map. *)
Definition applySample `{GoRuntime} (pool : columnPool) (m : MemTable) (seriesID fieldID fieldType : Z)
    (sample : VersionedSample) : outcome (MemTable * columnPool) :=
  let '(column, delta, data, pool) := ensureColumn pool (mt_data m) seriesID fieldID fieldType in
  '(column, d) ← appendSample column sample;
  let '(m, column) := noteAppendOrderLocked m column (vs_Timestamp sample) in
  mret (set_data (<[(seriesID, fieldID) := column]> data) (mt_approxBytes m + (delta + d)) m, pool).

Definition applyField `{GoRuntime} (pool : columnPool) (m : MemTable) (point : ResolvedPoint)
    (field : ResolvedField) : outcome (MemTable * columnPool) :=
  applySample pool m (rp_SeriesID point) (rf_FieldID field) (rf_Type field)
    (mkSample (rp_Timestamp point) (rp_WriteSeq point) (rf_Value field)).

Fixpoint applyFields `{GoRuntime} (pool : columnPool) (m : MemTable) (point : ResolvedPoint)
    (fields : list ResolvedField) : outcome (MemTable * columnPool) :=
  match fields with
  | [] => mret (m, pool)
  | field :: fields' =>
      '(m, pool) ← applyField pool m point field;
      applyFields pool m point fields'
  end.
Definition applyPointLocked `{GoRuntime} (pool : columnPool) (m : MemTable) (point : ResolvedPoint)
    : outcome (MemTable * columnPool) := applyFields pool m point (rp_Fields point).

Definition Apply `{GoRuntime} := applyPointLocked.

(** ** Reserving capacity for a batch *)
Fixpoint uniquePrefix (ids : list Z) (seen : gset Z) : bool :=
  match ids with
  | [] => true
  | id :: ids' => if bool_decide (id ∈ seen) then false else uniquePrefix ids' ({[id]} ∪ seen)
  end.
Definition hasUniqueSeriesPrefix (points : list ResolvedPoint) (limit : Z) : bool :=
  let limit := if len points <? limit then len points else limit in
  uniquePrefix (rp_SeriesID <$> take (Z.to_nat limit) points) ∅.
Definition shouldReserveBatch (points : list ResolvedPoint) : bool :=
  if len points <=? 1 then false
  else if len points <? uniqueSeriesReservationBypassMinPoints then true
  else negb (hasUniqueSeriesPrefix points uniqueSeriesReservationBypassMinPoints).

Definition addReservation (key : columnKey) (fieldType : Z)
    (reservations : gmap columnKey columnReservation) : gmap columnKey columnReservation :=
  let reservation := default (mkReservation 0 0) (reservations !! key) in
  <[key := mkReservation fieldType (res_count reservation + 1)]> reservations.

Definition reservePoint (reservations : gmap columnKey columnReservation) (point : ResolvedPoint)
    : gmap columnKey columnReservation :=
  foldl (fun r field => addReservation (rp_SeriesID point, rf_FieldID field) (rf_Type field) r)
    reservations (rp_Fields point).

(** [for key, reservation := range reservations { ... }] *)
Definition reserveColumn (st : MemTable * columnPool) (entry : columnKey * columnReservation)
    : MemTable * columnPool :=
  let '(m, pool) := st in
  let '(key, reservation) := entry in
  let '(column, delta, data, pool) :=
    ensureColumn pool (mt_data m) key.1 key.2 (res_fieldType reservation) in
  let '(column, d) := reserve column (res_count reservation) in
  (set_data (<[key := column]> data) (mt_approxBytes m + (delta + d)) m, pool).
Definition reserveAll `{GoRuntime} (reservations : gmap columnKey columnReservation) (pool : columnPool)
    (m : MemTable) : MemTable * columnPool :=
  foldl reserveColumn (m, pool) (map_range reservations).

Definition reserveBatchLocked `{GoRuntime} (pool : columnPool) (m : MemTable) (points : list ResolvedPoint)
    : MemTable * columnPool :=
  if negb (shouldReserveBatch points) then (m, pool)
  else reserveAll (foldl reservePoint ∅ points) pool m.

Fixpoint applyPoints `{GoRuntime} (pool : columnPool) (m : MemTable) (points : list ResolvedPoint)
    : outcome (MemTable * columnPool) :=
  match points with
  | [] => mret (m, pool)
  | point :: points' => '(m, pool) ← applyPointLocked pool m point; applyPoints pool m points'
  end.
Definition ApplyBatch `{GoRuntime} (pool : columnPool) (m : MemTable) (points : list ResolvedPoint)
    : outcome (MemTable * columnPool) :=
  let '(m, pool) := reserveBatchLocked pool m points in applyPoints pool m points.

(** ** Typed batches: columns of values, and the rows of this table among them *)
Definition typedBatchRowCount (batch : ResolvedTypedBatch) (rows : list Z) : Z :=
  if 0 <? len rows then len rows else len (tb_Timestamps batch).
Definition typedBatchRowIndex (rows : list Z) (position : Z) : outcome Z :=
  if 0 <? len rows then idx rows position else mret position.
Definition typedFieldValueAt (field : ResolvedTypedFieldColumn) (row : Z) : outcome FieldValue :=
  if tf_Type field =? FieldFloat64 then v ← idx (tf_Float64Values field) row; mret (Float64Value v)
  else if tf_Type field =? FieldInt64 then v ← idx (tf_Int64Values field) row; mret (Int64Value v)
  else if tf_Type field =? FieldString then v ← idx (tf_StringValues field) row; mret (StringValue v)
  else if tf_Type field =? FieldBool then v ← idx (tf_BoolValues field) row; mret (BoolValue v)
  else mret (mkFieldValue (tf_Type field) 0 0 [] false).

Fixpoint applyTypedFields `{GoRuntime} (pool : columnPool) (m : MemTable) (batch : ResolvedTypedBatch)
    (row : Z) (fields : list ResolvedTypedFieldColumn) : outcome (MemTable * columnPool) :=
  match fields with
  | [] => mret (m, pool)
  | field :: fields' =>
      seriesID ← idx (tb_SeriesIDs batch) row;
      timestamp ← idx (tb_Timestamps batch) row;
      writeSeq ← idx (tb_WriteSeqs batch) row;
      value ← typedFieldValueAt field row;
      '(m, pool) ← applySample pool m seriesID (tf_FieldID field) (tf_Type field)
                     (mkSample timestamp writeSeq value);
      applyTypedFields pool m batch row fields'
  end.
Definition applyTypedRowLocked `{GoRuntime} (pool : columnPool) (m : MemTable) (batch : ResolvedTypedBatch)
    (row : Z) : outcome (MemTable * columnPool) := applyTypedFields pool m batch row (tb_Fields batch).

(** [for position := range count { row := typedBatchRowIndex(rows, position); ... }] *)
Fixpoint forRows {S : Type} (rows : list Z) (n : nat) (position : Z) (body : Z -> S -> outcome S) (st : S)
    : outcome S :=
  match n with
  | O => mret st
  | Datatypes.S n' =>
      row ← typedBatchRowIndex rows position;
      st ← body row st;
      forRows rows n' (position + 1) body st
  end.

Fixpoint uniqueTypedPrefix (batch : ResolvedTypedBatch) (rows : list Z) (n : nat) (index : Z)
    (seen : gset Z) : outcome bool :=
  match n with
  | O => mret true
  | S n' =>
      row ← typedBatchRowIndex rows index;
      id ← idx (tb_SeriesIDs batch) row;
      if bool_decide (id ∈ seen) then mret false
      else uniqueTypedPrefix batch rows n' (index + 1) ({[id]} ∪ seen)
  end.
Definition hasUniqueTypedSeriesPrefix (batch : ResolvedTypedBatch) (rows : list Z) (limit : Z) : outcome bool :=
  let limit := if typedBatchRowCount batch rows <? limit then typedBatchRowCount batch rows else limit in
  uniqueTypedPrefix batch rows (Z.to_nat limit) 0 ∅.
Definition shouldReserveTypedBatch (batch : ResolvedTypedBatch) (rows : list Z) : outcome bool :=
  let count := typedBatchRowCount batch rows in
  if count <=? 1 then mret false
  else if count <? uniqueSeriesReservationBypassMinPoints then mret true
  else
    unique ← hasUniqueTypedSeriesPrefix batch rows uniqueSeriesReservationBypassMinPoints;
    mret (negb unique).

Fixpoint reserveTypedFields (batch : ResolvedTypedBatch) (row : Z) (fields : list ResolvedTypedFieldColumn)
    (reservations : gmap columnKey columnReservation) : outcome (gmap columnKey columnReservation) :=
  match fields with
  | [] => mret reservations
  | field :: fields' =>
      seriesID ← idx (tb_SeriesIDs batch) row;
      reserveTypedFields batch row fields'
        (addReservation (seriesID, tf_FieldID field) (tf_Type field) reservations)
  end.
Definition reserveTypedBatchLocked `{GoRuntime} (pool : columnPool) (m : MemTable)
    (batch : ResolvedTypedBatch) (rows : list Z) : outcome (MemTable * columnPool) :=
  should ← shouldReserveTypedBatch batch rows;
  if negb should then mret (m, pool)
  else
    reservations ← forRows rows (Z.to_nat (typedBatchRowCount batch rows)) 0
      (fun row => reserveTypedFields batch row (tb_Fields batch)) ∅;
    mret (reserveAll reservations pool m).

Definition ApplyTypedBatch `{GoRuntime} (pool : columnPool) (m : MemTable) (batch : ResolvedTypedBatch)
    (rows : list Z) : outcome (MemTable * columnPool) :=
  '(m, pool) ← reserveTypedBatchLocked pool m batch rows;
  forRows rows (Z.to_nat (typedBatchRowCount batch rows)) 0
    (fun row '(m, pool) => applyTypedRowLocked pool m batch row) (m, pool).

(** ** Snapshots *)
Definition SnapshotAndReset (m : MemTable) : Snapshot * MemTable :=
  (mkSnapshot (mt_data m) (mt_sampleCount m) (mt_approxBytes m),
   mkMemTable borrowTableData 0 tableDataBaseBytes (mt_outOfOrderSamples m) (mt_duplicateSamples m)
     (mt_appendedSamples m)).

(** A sum over the columns of a table. *)
Definition sumColumns (f : columnBuffer -> Z) (data : tableData) : Z :=
  foldr (fun kc n => f kc.2 + n) 0 (map_to_list data).
Definition trackedTableDataBytes (data : tableData) : Z :=
  tableDataBaseBytes + Z.of_nat (size data) * mapEntryApproxBytes + sumColumns cb_memBytes data.
Definition approxTableDataBytes (data : tableData) : Z :=
  tableDataBaseBytes + Z.of_nat (size data) * mapEntryApproxBytes + sumColumns approxMemoryBytes data.

Definition cloneData (src : tableData) : tableData := cloneColumn <$> src.
(** [MemTable.Snapshot] *)
Definition TakeSnapshot (m : MemTable) : Snapshot :=
  let data := cloneData (mt_data m) in
  mkSnapshot data (mt_sampleCount m) (trackedTableDataBytes data).

(** [snapshot.Release()] returns the buffers to the free list. *)
Definition Release `{GoRuntime} (pool : columnPool) (s : Snapshot) : columnPool :=
  foldl (fun pool entry => releaseColumnBuffer pool entry.2) pool (map_range (sn_data s)).

Definition restoreColumnLocked `{GoRuntime} (pool : columnPool) (m : MemTable) (src : columnBuffer)
    : outcome (MemTable * columnPool) :=
  if cb_count src =? 0 then mret (m, pool)
  else
    let key := (cb_seriesID src, cb_fieldID src) in
    let '(dst, delta, data, pool) :=
      ensureColumn pool (mt_data m) (cb_seriesID src) (cb_fieldID src) (cb_fieldType src) in
    '(dst, d) ← appendColumn dst src;
    dst ← copyLast src dst;
    mret (mkMemTable (<[key := dst]> data) (mt_sampleCount m + cb_count src)
            (mt_approxBytes m + (delta + d)) (mt_outOfOrderSamples m) (mt_duplicateSamples m)
            (mt_appendedSamples m), pool).

Fixpoint restoreColumns `{GoRuntime} (pool : columnPool) (m : MemTable)
    (entries : list (columnKey * columnBuffer)) : outcome (MemTable * columnPool) :=
  match entries with
  | [] => mret (m, pool)
  | (_, column) :: entries' =>
      '(m, pool) ← restoreColumnLocked pool m column; restoreColumns pool m entries'
  end.
Definition Restore `{GoRuntime} (pool : columnPool) (m : MemTable) (snapshot : Snapshot)
    : outcome (MemTable * columnPool) :=
  if sn_sampleCount snapshot =? 0 then mret (m, pool)
  else restoreColumns pool m (map_range (sn_data snapshot)).

(** ** Reading *)
Definition columnSelected (query : StorageQuery) (column : columnBuffer) : bool :=
  containsSeries (sq_SeriesIDs query) (cb_seriesID column)
  && containsField (sq_FieldIDs query) (cb_fieldID column).

Definition compareColumns (left right : ColumnData) : Z :=
  if negb (cd_SeriesID left =? cd_SeriesID right) then cmp_Compare (cd_SeriesID left) (cd_SeriesID right)
  else cmp_Compare (cd_FieldID left) (cd_FieldID right).
Definition sortColumns `{GoRuntime} (columns : list ColumnData) : list ColumnData :=
  SortFunc compareColumns columns.

Fixpoint columnsLoop `{GoRuntime} (query : StorageQuery) (entries : list (columnKey * columnBuffer))
    : outcome (list ColumnData) :=
  match entries with
  | [] => mret []
  | (_, column) :: entries' =>
      if negb (columnSelected query column) then columnsLoop query entries'
      else
        out ← columnDataFromBuffer column query;
        rest ← columnsLoop query entries';
        mret (if 0 <? len (cd_Samples out) then out :: rest else rest)
  end.
Definition columnsFromData `{GoRuntime} (data : tableData) (query : StorageQuery)
    : outcome (list ColumnData) :=
  if sq_End query <? sq_Start query then mret []
  else columns ← columnsLoop query (map_range data); mret (sortColumns columns).

(** [MemTable.Query] and [Snapshot.Columns] *)
Definition MemQuery `{GoRuntime} (m : MemTable) (query : StorageQuery) : outcome (list ColumnData) :=
  columnsFromData (mt_data m) query.
Definition Columns `{GoRuntime} (s : Snapshot) (query : StorageQuery) : outcome (list ColumnData) :=
  columnsFromData (sn_data s) query.

Definition compareKeys (left right : columnKey) : Z :=
  if negb (left.1 =? right.1) then cmp_Compare left.1 right.1 else cmp_Compare left.2 right.2.
Definition sortedColumnKeys `{GoRuntime} (data : tableData) (query : StorageQuery) : list columnKey :=
  SortFunc compareKeys
    (omap (fun kc => if columnSelected query kc.2 then Some kc.1 else None) (map_range data)).

Fixpoint seriesColumnsFromKeys `{GoRuntime} (data : tableData) (keys : list columnKey)
    (query : StorageQuery) : outcome (list ColumnData) :=
  match keys with
  | [] => mret []
  | key :: keys' =>
      match data !! key with
      | None => seriesColumnsFromKeys data keys' query
      | Some column =>
          out ← columnDataFromBuffer column query;
          rest ← seriesColumnsFromKeys data keys' query;
          mret (if 0 <? len (cd_Samples out) then out :: rest else rest)
      end
  end.

(** The keys of the first series and the remaining keys. *)
Fixpoint splitSeries (seriesID : Z) (keys : list columnKey) : list columnKey * list columnKey :=
  match keys with
  | [] => ([], [])
  | key :: keys' =>
      if key.1 =? seriesID then let '(run, rest) := splitSeries seriesID keys' in (key :: run, rest)
      else ([], keys)
  end.

(** [fn] is a callback on a state [S] of the caller; [ctx n] is what the query
    context reports when it is asked for the [n]th time. *)
Fixpoint seriesLoop `{GoRuntime} {S : Type} (fuel : nat) (data : tableData) (query : StorageQuery)
    (ctx : nat -> option goerr) (tick : nat) (fn : Z -> list ColumnData -> S -> outcome S)
    (keys : list columnKey) (st : S) : outcome S :=
  match fuel, keys with
  | Datatypes.S fuel', key :: keys' =>
      let seriesID := key.1 in
      let '(run, rest) := splitSeries seriesID keys' in
      columns ← seriesColumnsFromKeys data (key :: run) query;
      st ← (if 0 <? len columns then fn seriesID columns st else mret st);
      match ctx tick with
      | Some e => Err e
      | None => seriesLoop fuel' data query ctx (Datatypes.S tick) fn rest st
      end
  | _, _ => mret st
  end.
Definition ForEachSeries `{GoRuntime} {S : Type} (s : Snapshot) (query : StorageQuery)
    (ctx : nat -> option goerr) (fn : Z -> list ColumnData -> S -> outcome S) (st : S) : outcome S :=
  if sq_End query <? sq_Start query then mret st
  else match ctx O with
  | Some e => Err e
  | None =>
      let keys := sortedColumnKeys (sn_data s) query in
      seriesLoop (length keys) (sn_data s) query ctx 1 fn keys st
  end.

(** ** Statistics *)
Definition statsFromData (data : tableData) (samples bytes : Z) : Stats :=
  let series := list_to_set (C := gset Z) (fst <$> (map_to_list data).*1) in
  let fields := list_to_set (C := gset Z) (snd <$> (map_to_list data).*1) in
  mkStats samples (Z.of_nat (size series)) (Z.of_nat (size fields)) (Z.of_nat (size data)) bytes 0 0 0.
Definition StatsSnapshot (m : MemTable) : Stats :=
  let stats := statsFromData (mt_data m) (mt_sampleCount m) (mt_approxBytes m) in
  mkStats (st_Samples stats) (st_Series stats) (st_Fields stats) (st_Columns stats) (st_Bytes stats)
    (mt_outOfOrderSamples m) (mt_duplicateSamples m) (mt_appendedSamples m).

(** * The memtable keeps every sample and answers queries

    [mem_inv m C]: the buffers of [m] hold the samples [C] lists per series and
    field, with the type the schema assigns, and the running counts equal a
    recount.  Writes extend [C], snapshots and restores move it, and
    [MemQuery] answers from it as StoreSpec.v demands. *)
Definition upd (C : contents) (k : columnKey) (xs : list VersionedSample) : contents :=
  fun j => if decide (j = k) then xs else C j.
Lemma upd_eq C k xs : upd C k xs k = xs.
Proof. unfold upd. by rewrite decide_True. Qed.
Lemma upd_ne C k xs j : j <> k -> upd C k xs j = C j.
Proof. intros. unfold upd. by rewrite decide_False. Qed.

(** ** Sums over the columns of a table *)
Lemma foldr_perm_sum {A} (f : A -> Z) l1 l2 : l1 ≡ₚ l2 ->
  foldr (fun x n => f x + n) 0 l1 = foldr (fun x n => f x + n) 0 l2.
Proof. induction 1; simpl; lia. Qed.

Lemma sumColumns_insert_new (f : columnBuffer -> Z) (data : tableData) (k : columnKey) (c : columnBuffer) :
  data !! k = None -> sumColumns f (<[k := c]> data) = sumColumns f data + f c.
Proof.
  intros H. unfold sumColumns. rewrite (foldr_perm_sum (fun kc => f kc.2) _ ((k, c) :: map_to_list data)).
  - simpl. lia.
  - by apply map_to_list_insert.
Qed.
Lemma sumColumns_delete (f : columnBuffer -> Z) (data : tableData) (k : columnKey) (c : columnBuffer) :
  data !! k = Some c -> sumColumns f data = sumColumns f (delete k data) + f c.
Proof.
  intros H. rewrite <- (insert_delete_id data k c H) at 1. apply sumColumns_insert_new, lookup_delete_eq.
Qed.
Lemma sumColumns_insert (f : columnBuffer -> Z) (data : tableData) (k : columnKey) (c c' : columnBuffer) :
  data !! k = Some c -> sumColumns f (<[k := c']> data) = sumColumns f data - f c + f c'.
Proof.
  intros H. rewrite (sumColumns_delete f (<[k := c']> data) k c') by apply lookup_insert_eq.
  rewrite delete_insert_eq, (sumColumns_delete f data k c H). lia.
Qed.

Lemma sumColumns_ext (f g : columnBuffer -> Z) (data : tableData) :
  (forall k c, data !! k = Some c -> f c = g c) -> sumColumns f data = sumColumns g data.
Proof.
  intros E. unfold sumColumns.
  assert (Forall (fun kc => f kc.2 = g kc.2) (map_to_list data)) as HF.
  { apply Forall_forall. intros [k c] Hin%elem_of_map_to_list. by apply (E k). }
  induction HF as [|kc l Hkc HF IH]; simpl; [done|]. by rewrite Hkc, IH.
Qed.

(** [sumColumns] at a key, a missing column counting as nothing. *)
Definition at_key (f : columnBuffer -> Z) (data : tableData) (k : columnKey) : Z :=
  match data !! k with Some c => f c | None => 0 end.
Lemma sumColumns_set (f : columnBuffer -> Z) (data : tableData) (k : columnKey) (c : columnBuffer) :
  sumColumns f (<[k := c]> data) = sumColumns f data - at_key f data k + f c.
Proof.
  unfold at_key. destruct (data !! k) eqn:E; [by apply sumColumns_insert|].
  rewrite sumColumns_insert_new by done. lia.
Qed.

Lemma tracked_set (data : tableData) (k : columnKey) (c : columnBuffer) :
  trackedTableDataBytes (<[k := c]> data) =
    trackedTableDataBytes data - at_key cb_memBytes data k + cb_memBytes c
    + match data !! k with Some _ => 0 | None => mapEntryApproxBytes end.
Proof.
  unfold trackedTableDataBytes. rewrite sumColumns_set. destruct (data !! k) eqn:E.
  - rewrite map_size_insert_Some by by eexists. lia.
  - rewrite map_size_insert_None by done. lia.
Qed.

Section memtable.
  Context `{GoRuntimeLaws}.
  (** The catalog gives every field one of the declared types. *)
  Context (schema : columnKey -> Z) (schema_nz : forall k, schema k <> 0).

Definition column_for (k : columnKey) (c : columnBuffer) : Prop :=
  cb_seriesID c = k.1 /\ cb_fieldID c = k.2 /\ cb_fieldType c = schema k.

Definition table_inv (data : tableData) (C : contents) : Prop := forall k,
  match data !! k with
  | Some c => column_inv c (C k) /\ column_for k c
  | None => C k = []
  end.

Record mem_inv (m : MemTable) (C : contents) : Prop := {
  mi_table : table_inv (mt_data m) C;
  mi_count : mt_sampleCount m = sumColumns cb_count (mt_data m);
  mi_bytes : mt_approxBytes m = trackedTableDataBytes (mt_data m);
}.

Lemma table_inv_set data C k c xs :
  table_inv data C -> column_inv c xs -> column_for k c -> table_inv (<[k := c]> data) (upd C k xs).
Proof.
  intros HT Hc Hk j. destruct (decide (j = k)) as [->|Hne].
  - by rewrite lookup_insert_eq, upd_eq.
  - rewrite lookup_insert_ne, upd_ne by done. apply HT.
Qed.

Lemma table_inv_lookup data C k c : table_inv data C -> data !! k = Some c -> column_inv c (C k) /\ column_for k c.
Proof. intros HT E. specialize (HT k). by rewrite E in HT. Qed.

Lemma at_key_count data C k : table_inv data C -> at_key cb_count data k = len (C k).
Proof.
  intros HT. unfold at_key. specialize (HT k). destruct (data !! k); [by destruct HT as [[] _]|by rewrite HT].
Qed.

(** The column an operation works on: the stored one or an empty one, with its
    bytes accounted by the delta. *)
Lemma ensureColumn_inv pool data C sid fid :
  pool_ok pool -> table_inv data C ->
  exists c delta data' pool', ensureColumn pool data sid fid (schema (sid, fid)) = (c, delta, data', pool') /\
    pool_ok pool' /\ column_inv c (C (sid, fid)) /\ column_for (sid, fid) c /\
    (forall c', <[(sid, fid) := c']> data' = <[(sid, fid) := c']> data) /\
    delta = cb_memBytes c - at_key cb_memBytes data (sid, fid)
            + match data !! (sid, fid) with Some _ => 0 | None => mapEntryApproxBytes end.
Proof.
  intros Hp HT. unfold ensureColumn, at_key. destruct (data !! (sid, fid)) as [c|] eqn:E.
  - destruct (table_inv_lookup _ _ _ _ HT E) as [Hc (Hs & Hf & Ht)].
    do 4 eexists. split; [done|]. split_and!; try done; [|by intros; rewrite insert_insert_eq|].
    + unfold set_fieldType. rewrite <- Ht. by destruct c.
    + unfold set_fieldType. simpl. lia.
  - pose proof (borrowColumnBuffer_inv pool sid fid (schema (sid, fid)) Hp) as Hb.
    destruct (borrowColumnBuffer pool sid fid (schema (sid, fid))) as [c pool'].
    destruct Hb as (Hc & ? & ? & ? & Hp'). do 4 eexists. split; [done|].
    specialize (HT (sid, fid)). rewrite E in HT. rewrite HT.
    split_and!; try done; [by intros; rewrite insert_insert_eq|lia].
Qed.

Lemma column_for_ids k c c' :
  cb_seriesID c' = cb_seriesID c /\ cb_fieldID c' = cb_fieldID c /\ cb_fieldType c' = cb_fieldType c ->
  column_for k c -> column_for k c'.
Proof. intros (? & ? & ?) (? & ? & ?). repeat split; congruence. Qed.

Lemma noteAppendOrder_spec m c t :
  let '(m', c') := noteAppendOrderLocked m c t in
  mt_data m' = mt_data m /\ mt_sampleCount m' = mt_sampleCount m + 1 /\
  mt_approxBytes m' = mt_approxBytes m /\ exists t' h', c' = set_last t' h' c.
Proof.
  unfold noteAppendOrderLocked.
  destruct (negb (cb_hasLast c)); [|destruct (t <? cb_lastTimestamp c); [|destruct (t =? cb_lastTimestamp c)]];
    split_and!; try done; try (by do 2 eexists).
  exists (cb_lastTimestamp c), (cb_hasLast c). by destruct c.
Qed.

(** Writing one sample appends it to its column and to no other. *)
Lemma applySample_inv pool m C sid fid s :
  pool_ok pool -> mem_inv m C ->
  exists m' pool', applySample pool m sid fid (schema (sid, fid)) s = Ok (m', pool') /\
    pool_ok pool' /\ mem_inv m' (upd C (sid, fid) (C (sid, fid) ++ [s])).
Proof.
  intros Hp [HT Hn Hb]. unfold applySample.
  destruct (ensureColumn_inv pool _ C sid fid Hp HT)
    as (c & delta & data' & pool' & -> & Hp' & Hc & Hfor & Hins & Hd).
  assert (cb_fieldType c <> 0) as Hnz by (destruct Hfor as (_ & _ & ->); apply schema_nz).
  destruct (appendSample_inv c _ s Hc Hnz) as (c1 & d & -> & Hc1 & Hids & Hlast & Hmem). simpl.
  pose proof (noteAppendOrder_spec m c1 (vs_Timestamp s)) as Hnote.
  destruct (noteAppendOrderLocked m c1 (vs_Timestamp s)) as [m1 c2].
  destruct Hnote as (Ed & En & Ea & t' & h' & ->). do 2 eexists. split; [done|]. split; [done|].
  rewrite Hins. split; simpl.
  - apply table_inv_set; [done|by apply set_last_inv|]. by apply (column_for_ids _ c).
  - rewrite sumColumns_set, (at_key_count _ C) by done. simpl.
    rewrite (ci_count _ _ Hc1), En, Hn, len_snoc. lia.
  - rewrite tracked_set, Ea, Hb. simpl. lia.
Qed.

(** ** Batches *)
Definition writes_of (point : ResolvedPoint) : list (columnKey * VersionedSample) :=
  (fun f => ((rp_SeriesID point, rf_FieldID f),
             mkSample (rp_Timestamp point) (rp_WriteSeq point) (rf_Value f))) <$> rp_Fields point.
Definition batch_writes (points : list ResolvedPoint) : list (columnKey * VersionedSample) :=
  points ≫= writes_of.
(** The samples written to one column, in order. *)
Definition of_key (k : columnKey) (ws : list (columnKey * VersionedSample)) : list VersionedSample :=
  (filter (fun w => w.1 = k) ws).*2.
Definition extend (C : contents) (ws : list (columnKey * VersionedSample)) : contents :=
  fun k => C k ++ of_key k ws.

Definition field_typed (point : ResolvedPoint) (f : ResolvedField) : Prop :=
  rf_Type f = schema (rp_SeriesID point, rf_FieldID f).
Definition point_typed (point : ResolvedPoint) : Prop := Forall (field_typed point) (rp_Fields point).

Lemma table_inv_ext data C C' : (forall k, C k = C' k) -> table_inv data C -> table_inv data C'.
Proof. intros E HT k. specialize (HT k). by rewrite E in HT. Qed.
Lemma mem_inv_ext m C C' : (forall k, C k = C' k) -> mem_inv m C -> mem_inv m C'.
Proof. intros E [HT ??]. split; try done. by eapply table_inv_ext. Qed.

Lemma extend_cons C k s ws j : extend (upd C k (C k ++ [s])) ws j = extend C ((k, s) :: ws) j.
Proof.
  unfold extend, of_key. rewrite filter_cons. simpl. destruct (decide (k = j)) as [->|Hne].
  - rewrite upd_eq. simpl. by rewrite <- (assoc_L (++)).
  - by rewrite upd_ne by done.
Qed.
Lemma extend_app C ws ws' j : extend (extend C ws) ws' j = extend C (ws ++ ws') j.
Proof. unfold extend, of_key. rewrite filter_app, fmap_app. by rewrite (assoc_L (++)). Qed.
Lemma extend_nil C j : extend C [] j = C j.
Proof. unfold extend. apply app_nil_r. Qed.

Lemma applyFields_inv point fields : Forall (field_typed point) fields -> forall pool m C,
  pool_ok pool -> mem_inv m C ->
  exists m' pool', applyFields pool m point fields = Ok (m', pool') /\ pool_ok pool' /\
    mem_inv m' (extend C ((fun f => ((rp_SeriesID point, rf_FieldID f),
             mkSample (rp_Timestamp point) (rp_WriteSeq point) (rf_Value f))) <$> fields)).
Proof.
  induction 1 as [|f fields Hf Hfs IH]; intros pool m C Hp Hm; cbn [applyFields].
  { do 2 eexists. split; [done|]. split; [done|]. eapply mem_inv_ext; [|exact Hm]. intros k. by rewrite extend_nil. }
  unfold applyField. rewrite Hf.
  edestruct (applySample_inv pool m C) as (m1 & p1 & -> & Hp1 & Hm1); [done|done|]. simpl.
  destruct (IH p1 m1 _ Hp1 Hm1) as (m2 & p2 & -> & Hp2 & Hm2).
  do 2 eexists. split; [done|]. split; [done|]. eapply mem_inv_ext; [|exact Hm2].
  intros k. apply extend_cons.
Qed.

Lemma applyPoints_inv points : Forall point_typed points -> forall pool m C,
  pool_ok pool -> mem_inv m C ->
  exists m' pool', applyPoints pool m points = Ok (m', pool') /\ pool_ok pool' /\
    mem_inv m' (extend C (batch_writes points)).
Proof.
  induction 1 as [|p points Hf Hfs IH]; intros pool m C Hp Hm; cbn [applyPoints].
  { do 2 eexists. split; [done|]. split; [done|]. eapply mem_inv_ext; [|exact Hm]. intros k. by rewrite extend_nil. }
  unfold applyPointLocked.
  destruct (applyFields_inv p _ Hf pool m C Hp Hm) as (m1 & p1 & -> & Hp1 & Hm1). simpl.
  destruct (IH p1 m1 _ Hp1 Hm1) as (m2 & p2 & -> & Hp2 & Hm2).
  do 2 eexists. split; [done|]. split; [done|]. eapply mem_inv_ext; [|exact Hm2].
  intros k. apply extend_app.
Qed.

(** Reserving room changes capacities only. *)
Lemma reserveColumn_inv pool m C k r :
  pool_ok pool -> mem_inv m C -> res_fieldType r = schema k ->
  pool_ok (reserveColumn (m, pool) (k, r)).2 /\ mem_inv (reserveColumn (m, pool) (k, r)).1 C.
Proof.
  intros Hp [HT Hn Hb] Hr. unfold reserveColumn. destruct k as [sid fid]. cbn [fst snd]. rewrite Hr.
  destruct (ensureColumn_inv pool _ C sid fid Hp HT)
    as (c & delta & data' & pool' & -> & Hp' & Hc & Hfor & Hins & Hd).
  pose proof (reserve_inv c _ (res_count r) Hc) as Hc1.
  pose proof (reserve_content c (res_count r)) as Hsc.
  pose proof (reserve_bytes c (res_count r)) as [Hmem _].
  destruct (reserve c (res_count r)) as [c1 d]. simpl in *. split; [done|]. rewrite Hins.
  split; simpl.
  - eapply table_inv_ext; [|apply (table_inv_set _ C _ _ _ HT Hc1)].
    + intros k. unfold upd. case_decide; congruence.
    + apply (column_for_ids _ c); [apply Hsc|done].
  - rewrite sumColumns_set, (at_key_count _ C) by done. rewrite (ci_count _ _ Hc1), Hn. lia.
  - rewrite tracked_set, Hb. lia.
Qed.

Lemma reserveAll_inv reservations pool m C :
  pool_ok pool -> mem_inv m C ->
  map_Forall (fun k r => res_fieldType r = schema k) reservations ->
  pool_ok (reserveAll reservations pool m).2 /\ mem_inv (reserveAll reservations pool m).1 C.
Proof.
  intros Hp Hm Hr. unfold reserveAll.
  assert (Forall (fun kr => res_fieldType kr.2 = schema kr.1) (map_range reservations)) as HF.
  { apply Forall_forall. intros [k r]. rewrite (map_range_perm reservations). intros Hin%elem_of_map_to_list.
    by apply Hr in Hin. }
  generalize dependent (map_range reservations). intros l HF. clear Hr.
  revert pool m Hp Hm. induction HF as [|[k r] l Hkr HF IH]; intros pool m Hp Hm; cbn [foldl]; [done|].
  destruct (reserveColumn_inv pool m C k r Hp Hm Hkr) as [Hp1 Hm1].
  destruct (reserveColumn (m, pool) (k, r)) as [m1 p1]. by apply IH.
Qed.

Lemma addReservation_typed k reservations :
  map_Forall (fun k r => res_fieldType r = schema k) reservations ->
  map_Forall (fun k r => res_fieldType r = schema k) (addReservation k (schema k) reservations).
Proof. intros Hr. unfold addReservation. by apply map_Forall_insert_2. Qed.

Lemma reservePoints_typed points : Forall point_typed points ->
  map_Forall (fun k r => res_fieldType r = schema k) (foldl reservePoint ∅ points).
Proof.
  generalize (map_Forall_empty (M := gmap columnKey) (fun k (r : columnReservation) => res_fieldType r = schema k)).
  generalize (∅ : gmap columnKey columnReservation). intros acc Hacc HF. revert acc Hacc.
  induction HF as [|p points Hp HF IH]; intros acc Hacc; cbn [foldl]; [done|]. apply IH.
  unfold reservePoint. clear IH HF. revert acc Hacc. unfold point_typed in Hp.
  induction Hp as [|f fields Hf Hfs IH]; intros acc Hacc; cbn [foldl]; [done|]. apply IH.
  rewrite Hf. by apply addReservation_typed.
Qed.

(** A batch of well typed points appends every field value to its column, in
    the order of the batch, whether or not capacity was reserved first. *)
Lemma ApplyBatch_inv pool m C points :
  pool_ok pool -> mem_inv m C -> Forall point_typed points ->
  exists m' pool', ApplyBatch pool m points = Ok (m', pool') /\ pool_ok pool' /\
    mem_inv m' (extend C (batch_writes points)).
Proof.
  intros Hp Hm HF. unfold ApplyBatch, reserveBatchLocked.
  destruct (negb (shouldReserveBatch points)); [by apply applyPoints_inv|].
  destruct (reserveAll_inv _ pool m C Hp Hm (reservePoints_typed points HF)) as [Hp1 Hm1].
  destruct (reserveAll _ pool m) as [m1 p1]. by apply applyPoints_inv.
Qed.

(** ** Queries *)
(** What the columns give back of the samples written to them. *)
Definition held (C : contents) : contents := fun k => stored (schema k) <$> C k.

Lemma columnDataFromBuffer_inv k c xs query : column_inv c xs -> column_for k c ->
  exists out, columnDataFromBuffer c query = Ok out /\ keyOf out = k /\ cd_FieldType out = schema k /\
    resolves (filter (in_window query) (stored (schema k) <$> xs)) (cd_Samples out).
Proof.
  intros Hc (Hs & Hf & Ht). destruct (compactSamples_resolves c xs query Hc) as (out & E & Hr).
  unfold columnDataFromBuffer. rewrite E. simpl. eexists. split; [done|]. unfold keyOf. simpl.
  split_and!; [|done|by rewrite <- Ht]. rewrite Hs, Hf. by destruct k.
Qed.

Definition entry_ok (C : contents) (kc : columnKey * columnBuffer) : Prop :=
  column_inv kc.2 (C kc.1) /\ column_for kc.1 kc.2.

Lemma columnsLoop_inv C query entries : Forall (entry_ok C) entries ->
  exists out, columnsLoop query entries = Ok out /\ keyOf <$> out `sublist_of` entries.*1 /\
    (forall c, c ∈ out ->
      selects query (keyOf c) = true /\ cd_FieldType c = schema (keyOf c) /\ cd_Samples c <> [] /\
      resolves (filter (in_window query) (held C (keyOf c))) (cd_Samples c)) /\
    (forall k s, k ∈ entries.*1 -> selects query k = true -> s ∈ filter (in_window query) (held C k) ->
      exists c, c ∈ out /\ keyOf c = k).
Proof.
  induction 1 as [|[k c] entries [Hc Hfor] HF IH]; cbn [columnsLoop].
  { exists []. split_and!; [done|constructor|by intros ? ?%elem_of_nil|by intros ? ? ?%elem_of_nil]. }
  destruct IH as (rest & Erest & Hsub & Hcol & Hcomp). simpl in Hc, Hfor.
  assert (columnSelected query c = selects query k) as Esel.
  { destruct Hfor as (E1 & E2 & _). unfold columnSelected, selects. by rewrite E1, E2. }
  rewrite Esel. destruct (selects query k) eqn:Ek; simpl.
  - destruct (columnDataFromBuffer_inv k c _ query Hc Hfor) as (out & -> & Eko & Eto & Hr). simpl.
    rewrite Erest. simpl. zcase (0 <? len (cd_Samples out)).
    + exists (out :: rest). split_and!; [done|..].
      * simpl. rewrite Eko. by constructor.
      * intros d [->|Hd]%elem_of_cons; [|by apply Hcol]. rewrite Eko. split_and!; try done.
        intros E'. rewrite E' in *. done.
      * intros k' s [->|Hk]%elem_of_cons Hsel Hs; [exists out; split; [left|done]|].
        destruct (Hcomp k' s Hk Hsel Hs) as (d & ? & ?). exists d. split; [by right|done].
    + exists rest. split_and!; [done|by constructor|done|].
      intros k' s [->|Hk]%elem_of_cons Hsel Hs; [|by apply (Hcomp k' s)].
      exfalso. apply (resolves_nonempty _ _ _ Hr Hs). destruct (cd_Samples out); [done|].
      unfold len in *. simpl in *. lia.
  - exists rest. split_and!; [done|by constructor|done|].
    intros k' s [->|Hk]%elem_of_cons Hsel Hs; [simpl in *; congruence|by apply (Hcomp k' s)].
Qed.

Lemma table_entries_ok data C : table_inv data C -> Forall (entry_ok C) (map_range data).
Proof.
  intros HT. apply Forall_forall. intros [k c]. rewrite (map_range_perm data).
  intros Hin%elem_of_map_to_list. by apply table_inv_lookup with data.
Qed.

Lemma table_range_keys data C k s : table_inv data C -> s ∈ held C k -> k ∈ (map_range data).*1.
Proof.
  intros HT Hs. rewrite (map_range_perm data). specialize (HT k).
  destruct (data !! k) as [c|] eqn:E.
  - apply list_elem_of_fmap. exists (k, c). split; [done|]. by apply elem_of_map_to_list.
  - unfold held in Hs. rewrite HT in Hs. by apply elem_of_nil in Hs.
Qed.

Lemma compareColumns_neg c d :
  (compareColumns c d <? 0) = if negb (cd_SeriesID c =? cd_SeriesID d) then cd_SeriesID c <? cd_SeriesID d
                              else cd_FieldID c <? cd_FieldID d.
Proof. unfold compareColumns. case_match; by rewrite cmp_Compare_neg. Qed.

(** Sorting columns with distinct keys orders them strictly. *)
Lemma lex_sorted_lt (less : ColumnData -> ColumnData -> bool) l :
  (forall c d, less c d = if negb (cd_SeriesID c =? cd_SeriesID d) then cd_SeriesID c <? cd_SeriesID d
                          else cd_FieldID c <? cd_FieldID d) ->
  NoDup (keyOf <$> l) -> StronglySorted (not_after less) l -> StronglySorted column_lt l.
Proof.
  intros E Hnd Hs. induction Hs as [|c l Hs IH Hc]; [constructor|].
  simpl in Hnd. apply NoDup_cons in Hnd as [Hnin Hnd]. constructor; [by apply IH|].
  rewrite Forall_forall in *. intros d Hd. specialize (Hc d Hd). unfold not_after in Hc. rewrite E in Hc.
  assert (keyOf c <> keyOf d) as Hne.
  { intros Ek. apply Hnin. rewrite Ek. by apply list_elem_of_fmap_2. }
  unfold column_lt, key_lt, keyOf in *. simpl in *.
  destruct (cd_SeriesID d =? cd_SeriesID c) eqn:Es; simpl in Hc.
  - apply Z.eqb_eq in Es. apply Z.ltb_ge in Hc. destruct (decide (cd_FieldID c = cd_FieldID d)); [congruence|lia].
  - apply Z.eqb_neq in Es. apply Z.ltb_ge in Hc. lia.
Qed.

Lemma sortColumns_sorted columns : NoDup (keyOf <$> columns) -> StronglySorted column_lt (sortColumns columns).
Proof.
  intros Hnd. unfold sortColumns, SortFunc. set (less := fun x y => compareColumns x y <? 0).
  apply (lex_sorted_lt less); [intros; apply compareColumns_neg|by rewrite sort_less_perm|].
  apply sort_less_sorted. eapply weak_order_ext; [intros; apply compareColumns_neg|]. apply weak_order_lex.
Qed.

Lemma range_keys_NoDup (data : tableData) : NoDup (map_range data).*1.
Proof. rewrite (map_range_perm data). apply NoDup_fst_map_to_list. Qed.

(** A table answers every query from the samples written to it. *)
Lemma columnsFromData_answers data C query : table_inv data C ->
  exists out, columnsFromData data query = Ok out /\ answers schema query (held C) out.
Proof.
  intros HT. unfold columnsFromData. zcase (sq_End query <? sq_Start query).
  { exists []. split; [done|]. eapply (answers_ext _ _ (fun _ => [])); [|apply answers_empty].
    intros k s _ Hw. unfold in_window, in_range in Hw. rewrite andb_true_iff, !Z.leb_le in Hw. lia. }
  destruct (columnsLoop_inv C query _ (table_entries_ok _ _ HT)) as (out & -> & Hsub & Hcol & Hcomp).
  simpl. eexists. split; [done|].
  assert (NoDup (keyOf <$> out)) as Hnd.
  { eapply sublist_NoDup; [apply range_keys_NoDup|exact Hsub]. }
  assert (sortColumns out ≡ₚ out) as Hperm by apply sort_less_perm.
  split; [by apply sortColumns_sorted|..].
  - intros c. rewrite Hperm. apply Hcol.
  - intros k s Hk Hs. destruct (Hcomp k s) as (c & ? & ?); [|done|done|].
    + eapply table_range_keys; [done|]. by apply list_elem_of_filter in Hs as [_ Hs].
    + exists c. by rewrite Hperm.
Qed.

(** ** Snapshots *)
Lemma table_inv_empty : table_inv borrowTableData (fun _ => []).
Proof. intros k. unfold borrowTableData. by rewrite lookup_empty. Qed.
Lemma New_inv : mem_inv New (fun _ => []).
Proof. split; [apply table_inv_empty|done|done]. Qed.
Lemma reset_inv m : mem_inv (SnapshotAndReset m).2 (fun _ => []).
Proof. split; [apply table_inv_empty|done|done]. Qed.

Lemma table_inv_restore_count data C : table_inv data C -> sumColumns cb_count data = 0 -> forall k, C k = [].
Proof.
  intros HT Hsum k. specialize (HT k) as HTk. destruct (data !! k) as [c|] eqn:E; [|done].
  destruct HTk as [Hc _]. rewrite (sumColumns_delete _ _ _ _ E) in Hsum.
  assert (0 <= sumColumns cb_count (delete k data)).
  { unfold sumColumns.
    assert (Forall (fun kc => 0 <= cb_count kc.2) (map_to_list (delete k data))) as HF.
    { apply Forall_forall. intros [j d] Hin%elem_of_map_to_list. apply lookup_delete_Some in Hin as [_ Hin].
      destruct (table_inv_lookup _ _ _ _ HT Hin) as [Hd _]. simpl. rewrite (ci_count _ _ Hd). apply len_nonneg. }
    induction HF; simpl; lia. }
  rewrite (ci_count _ _ Hc) in Hsum. pose proof (len_nonneg (C k)).
  destruct (C k); [done|unfold len in *; simpl in *; lia].
Qed.

Lemma restoreColumn_inv pool m C k src ys : pool_ok pool -> mem_inv m C ->
  column_inv src ys -> column_for k src ->
  exists m' pool', restoreColumnLocked pool m src = Ok (m', pool') /\ pool_ok pool' /\
    mem_inv m' (upd C k (C k ++ ys)).
Proof.
  intros Hp [HT Hn Hb] Hsrc (Es & Ef & Et). unfold restoreColumnLocked. zcase (cb_count src =? 0).
  { do 2 eexists. split; [done|]. split; [done|]. apply mem_inv_ext with C; [|done].
    intros j. rewrite (ci_count _ _ Hsrc) in *. destruct ys; [|unfold len in *; simpl in *; lia].
    rewrite app_nil_r. unfold upd. case_decide; congruence. }
  rewrite Es, Ef, Et. destruct k as [sid fid]. simpl in *.
  destruct (ensureColumn_inv pool _ C sid fid Hp HT)
    as (c & delta & data' & pool' & -> & Hp' & Hc & Hfor & Hins & Hd).
  destruct (appendColumn_inv c _ src ys Hc Hsrc) as (c1 & d & -> & Hc1 & Hids & Hmem).
  { destruct Hfor as (_ & _ & ->). done. } { destruct Hfor as (_ & _ & ->). apply schema_nz. }
  simpl. destruct (copyLast_ok src ys c1 Hsrc) as (t & h & ->). simpl.
  do 2 eexists. split; [done|]. split; [done|]. rewrite Hins. split; simpl.
  - apply table_inv_set; [done|by apply set_last_inv|]. by apply (column_for_ids _ c).
  - rewrite sumColumns_set, (at_key_count _ C) by done. simpl.
    rewrite (ci_count _ _ Hc1), (ci_count _ _ Hsrc), Hn, len_app. lia.
  - rewrite tracked_set, Hb. simpl. lia.
Qed.

Lemma restoreColumns_inv D entries : Forall (entry_ok D) entries -> NoDup entries.*1 ->
  forall pool m C, pool_ok pool -> mem_inv m C ->
  exists m' pool', restoreColumns pool m entries = Ok (m', pool') /\ pool_ok pool' /\
    mem_inv m' (fun k => if decide (k ∈ entries.*1) then C k ++ D k else C k).
Proof.
  induction 1 as [|[k c] entries [Hc Hfor] HF IH]; intros Hnd pool m C Hp Hm; cbn [restoreColumns].
  { by do 2 eexists. }
  simpl in *. apply NoDup_cons in Hnd as [Hnin Hnd].
  destruct (restoreColumn_inv pool m C k c (D k) Hp Hm Hc Hfor) as (m1 & p1 & -> & Hp1 & Hm1). simpl.
  destruct (IH Hnd p1 m1 _ Hp1 Hm1) as (m2 & p2 & -> & Hp2 & Hm2).
  do 2 eexists. split; [done|]. split; [done|]. eapply mem_inv_ext; [|exact Hm2].
  intros j. simpl. destruct (decide (j = k)) as [->|Hne].
  - rewrite decide_False, upd_eq by done. rewrite decide_True by left. done.
  - rewrite upd_ne by done. repeat case_decide; set_solver.
Qed.

(** Putting a snapshot back appends its samples behind those written since. *)
Lemma Restore_inv pool m C s D : pool_ok pool -> mem_inv m C -> table_inv (sn_data s) D ->
  sn_sampleCount s = sumColumns cb_count (sn_data s) ->
  exists m' pool', Restore pool m s = Ok (m', pool') /\ pool_ok pool' /\
    mem_inv m' (fun k => C k ++ D k).
Proof.
  intros Hp Hm HT Hn. unfold Restore. zcase (sn_sampleCount s =? 0).
  - do 2 eexists. split; [done|]. split; [done|]. eapply mem_inv_ext; [|exact Hm]. intros k.
    rewrite (table_inv_restore_count _ _ HT) by lia. by rewrite app_nil_r.
  - destruct (restoreColumns_inv D _ (table_entries_ok _ _ HT) (range_keys_NoDup _) pool m C Hp Hm)
      as (m' & p' & -> & Hp' & Hm').
    do 2 eexists. split; [done|]. split; [done|]. eapply mem_inv_ext; [|exact Hm'].
    intros k. simpl. case_decide as Hk; [done|]. destruct (D k) as [|s0 l] eqn:Ek; [by rewrite app_nil_r|].
    exfalso. apply Hk. eapply (table_range_keys _ D); [done|]. unfold held. rewrite Ek. left.
Qed.

Lemma Release_ok pool s D : pool_ok pool -> table_inv (sn_data s) D -> pool_ok (Release pool s).
Proof.
  intros Hp HT. unfold Release. pose proof (table_entries_ok _ _ HT) as HF.
  generalize dependent (map_range (sn_data s)). intros l HF. revert pool Hp.
  induction HF as [|[k c] l [Hc _] HF IH]; intros pool Hp; cbn [foldl]; [done|].
  apply IH. by eapply releaseColumnBuffer_ok.
Qed.
End memtable.
