(* ===== verification/MemTheorems.v ===== *)
(** * Theorems of the memtable

    The series-by-series walk that a flush uses, the typed write path of the
    shard (engine/shard.go) against the point-wise one, and the properties of
    the memtable's state. *)
From S2P Require Import Prelude Model Runtime Versions MemColumn MemCompact StoreSpec MemTable.
From stdpp Require Import prelude strings list sorting gmap.
From Stdlib Require Import ZArith Lia.
#[local] Open Scope Z_scope.

(** ** From typed batches to points (engine/shard.go) *)
Fixpoint typedTagMapAt (tags : list TagColumn) (row : Z) (out : gmap bytes bytes)
    : outcome (gmap bytes bytes) :=
  match tags with
  | [] => mret out
  | tag :: tags' => v ← idx (tc_Values tag) row; typedTagMapAt tags' row (<[tc_Name tag := v]> out)
  end.
Definition resolvedTypedFieldAt (column : ResolvedTypedFieldColumn) (row : Z) : outcome ResolvedField :=
  value ← typedFieldValueAt column row;
  mret (mkResolvedField (tf_FieldID column) (tf_Name column) (tf_Type column) value).
Definition resolvedTypedPointAt (batch : ResolvedTypedBatch) (row : Z) (fields : list ResolvedField)
    : outcome ResolvedPoint :=
  tags ← typedTagMapAt (tb_Tags batch) row ∅;
  seriesID ← idx (tb_SeriesIDs batch) row;
  timestamp ← idx (tb_Timestamps batch) row;
  writeSeq ← idx (tb_WriteSeqs batch) row;
  mret (mkResolvedPoint (tb_Database batch) (tb_RetentionPolicy batch) (tb_Measurement batch) tags
          seriesID timestamp writeSeq fields).
Fixpoint resolvedFieldsAt (fields : list ResolvedTypedFieldColumn) (row : Z) : outcome (list ResolvedField) :=
  match fields with
  | [] => mret []
  | column :: fields' =>
      f ← resolvedTypedFieldAt column row; fs ← resolvedFieldsAt fields' row; mret (f :: fs)
  end.
Fixpoint pointsLoop (batch : ResolvedTypedBatch) (rows : list Z) (n : nat) (position : Z)
    : outcome (list ResolvedPoint) :=
  match n with
  | O => mret []
  | S n' =>
      row ← typedBatchRowIndex rows position;
      fields ← resolvedFieldsAt (tb_Fields batch) row;
      point ← resolvedTypedPointAt batch row fields;
      points ← pointsLoop batch rows n' (position + 1);
      mret (point :: points)
  end.
Definition resolvedPointsFromTypedBatch (batch : ResolvedTypedBatch) (rows : list Z)
    : outcome (list ResolvedPoint) :=
  pointsLoop batch rows (Z.to_nat (typedBatchRowCount batch rows)) 0.

(** [inv_bind H] takes apart a successful sequence of calls. *)
Ltac inv_bind H :=
  repeat match type of H with
  | mbind _ ?m = Ok _ => let E := fresh "E" in destruct m eqn:E; simpl in H; [|discriminate H..]
  end.

Lemma resolvedPoint_inv batch row fields point : resolvedTypedPointAt batch row fields = Ok point ->
  idx (tb_SeriesIDs batch) row = Ok (rp_SeriesID point) /\ idx (tb_Timestamps batch) row = Ok (rp_Timestamp point) /\
  idx (tb_WriteSeqs batch) row = Ok (rp_WriteSeq point) /\ rp_Fields point = fields.
Proof. intros Hp. unfold resolvedTypedPointAt in Hp. inv_bind Hp. by injection Hp as <-. Qed.

Lemma typedBatchRowCount_nonneg batch rows : 0 <= typedBatchRowCount batch rows.
Proof. unfold typedBatchRowCount. case_match; apply len_nonneg. Qed.

Section typed.
  Context `{GoRuntime}.

Lemma applyTypedFields_points batch row point : forall fields fs pool m,
  idx (tb_SeriesIDs batch) row = Ok (rp_SeriesID point) -> idx (tb_Timestamps batch) row = Ok (rp_Timestamp point) ->
  idx (tb_WriteSeqs batch) row = Ok (rp_WriteSeq point) -> resolvedFieldsAt fields row = Ok fs ->
  applyTypedFields pool m batch row fields = applyFields pool m point fs.
Proof.
  induction fields as [|f fields IH]; intros fs pool m E1 E2 E3 Hfs; cbn [resolvedFieldsAt] in Hfs.
  { by injection Hfs as <-. }
  inv_bind Hfs. injection Hfs as <-. unfold resolvedTypedFieldAt in E. inv_bind E. injection E as <-.
  cbn [applyTypedFields applyFields]. rewrite E1, E2, E3, E4. simpl. unfold applyField. simpl.
  destruct (applySample _ _ _ _ _ _) as [[m' pool']| |]; simpl; [|done..]. by apply IH.
Qed.

Lemma forRows_points batch rows n : forall position points pool m,
  pointsLoop batch rows n position = Ok points ->
  forRows rows n position (fun row '(m, pool) => applyTypedRowLocked pool m batch row) (m, pool) =
  applyPoints pool m points.
Proof.
  induction n as [|n IH]; intros position points pool m Hp; cbn [pointsLoop] in Hp.
  { by injection Hp as <-. }
  inv_bind Hp. injection Hp as <-. cbn [forRows applyPoints]. rewrite E. simpl.
  destruct (resolvedPoint_inv _ _ _ _ E1) as (H1 & H2 & H3 & H4).
  unfold applyTypedRowLocked, applyPointLocked. rewrite (applyTypedFields_points _ _ a1 _ a0) by done.
  rewrite H4. destruct (applyFields _ _ _ _) as [[m' pool']| |]; simpl; [|done..]. by apply IH.
Qed.

Lemma reserveTypedFields_points batch row point : forall fields fs acc,
  idx (tb_SeriesIDs batch) row = Ok (rp_SeriesID point) -> resolvedFieldsAt fields row = Ok fs ->
  reserveTypedFields batch row fields acc =
  Ok (foldl (fun r field => addReservation (rp_SeriesID point, rf_FieldID field) (rf_Type field) r) acc fs).
Proof.
  induction fields as [|f fields IH]; intros fs acc E1 Hfs; cbn [resolvedFieldsAt] in Hfs.
  { by injection Hfs as <-. }
  inv_bind Hfs. injection Hfs as <-. unfold resolvedTypedFieldAt in E. inv_bind E. injection E as <-.
  cbn [reserveTypedFields foldl]. rewrite E1. simpl. by apply IH.
Qed.

Lemma forRows_reserve batch rows n : forall position points acc,
  pointsLoop batch rows n position = Ok points ->
  forRows rows n position (fun row => reserveTypedFields batch row (tb_Fields batch)) acc =
  Ok (foldl reservePoint acc points).
Proof.
  induction n as [|n IH]; intros position points acc Hp; cbn [pointsLoop] in Hp.
  { by injection Hp as <-. }
  inv_bind Hp. injection Hp as <-. cbn [forRows foldl]. rewrite E. simpl.
  destruct (resolvedPoint_inv _ _ _ _ E1) as (H1 & H2 & H3 & H4).
  rewrite (reserveTypedFields_points _ _ a1 _ a0) by done. simpl.
  unfold reservePoint at 2. rewrite H4. by apply IH.
Qed.

Lemma pointsLoop_length batch rows n : forall position points,
  pointsLoop batch rows n position = Ok points -> length points = n.
Proof.
  induction n as [|n IH]; intros position points Hp; cbn [pointsLoop] in Hp; [by injection Hp as <-|].
  inv_bind Hp. injection Hp as <-. simpl. f_equal. by eapply IH.
Qed.

Lemma uniqueTypedPrefix_points batch rows n : forall m position points seen,
  pointsLoop batch rows m position = Ok points -> (n <= m)%nat ->
  uniqueTypedPrefix batch rows n position seen = Ok (uniquePrefix (rp_SeriesID <$> take n points) seen).
Proof.
  induction n as [|n IH]; intros [|m] position points seen Hp Hn; try done; [lia|].
  cbn [pointsLoop] in Hp. inv_bind Hp. injection Hp as <-. cbn [uniqueTypedPrefix]. rewrite E. simpl.
  destruct (resolvedPoint_inv _ _ _ _ E1) as (H1 & _). rewrite H1. simpl.
  case_bool_decide; [done|]. apply IH with m; [done|lia].
Qed.

Lemma shouldReserveTyped_points batch rows points :
  resolvedPointsFromTypedBatch batch rows = Ok points ->
  shouldReserveTypedBatch batch rows = Ok (shouldReserveBatch points).
Proof.
  intros Hp. unfold resolvedPointsFromTypedBatch in Hp. pose proof (typedBatchRowCount_nonneg batch rows).
  pose proof (pointsLoop_length _ _ _ _ _ Hp) as Hlen.
  assert (len points = typedBatchRowCount batch rows) as El by (unfold len; lia).
  unfold shouldReserveTypedBatch, shouldReserveBatch. rewrite El.
  repeat case_match; try done. unfold hasUniqueTypedSeriesPrefix, hasUniqueSeriesPrefix. rewrite El.
  rewrite (uniqueTypedPrefix_points _ _ _ _ _ _ _ Hp); [done|].
  zcase (typedBatchRowCount batch rows <? uniqueSeriesReservationBypassMinPoints); lia.
Qed.

Lemma typed_batch_points pool m batch rows points :
  resolvedPointsFromTypedBatch batch rows = Ok points ->
  ApplyTypedBatch pool m batch rows = ApplyBatch pool m points.
Proof.
  intros Hp. pose proof (shouldReserveTyped_points _ _ _ Hp) as Hs.
  unfold resolvedPointsFromTypedBatch in Hp. unfold ApplyTypedBatch, ApplyBatch.
  unfold reserveTypedBatchLocked, reserveBatchLocked. rewrite Hs. simpl.
  destruct (shouldReserveBatch points); simpl.
  - rewrite (forRows_reserve _ _ _ _ _ _ Hp). simpl. destruct (reserveAll _ _ _) as [m' pool'].
    by apply forRows_points.
  - by apply forRows_points.
Qed.
End typed.

(** ** The walk over series that a flush makes *)
Fixpoint run_groups {S : Type} (fn : Z -> list ColumnData -> S -> outcome S)
    (groups : list (Z * list ColumnData)) (st : S) : outcome S :=
  match groups with
  | [] => mret st
  | (seriesID, columns) :: groups' => st ← fn seriesID columns st; run_groups fn groups' st
  end.

Definition group_ok (g : Z * list ColumnData) : Prop :=
  g.2 <> [] /\ Forall (fun c => cd_SeriesID c = g.1) g.2.

Lemma splitSeries_spec sid keys : let '(run, rest) := splitSeries sid keys in
  keys = run ++ rest /\ Forall (fun k => k.1 = sid) run /\ (forall k rest', rest = k :: rest' -> k.1 <> sid).
Proof.
  induction keys as [|k keys IH]; simpl; [done|]. zcase (k.1 =? sid); [|split_and!; [done..|congruence]].
  destruct (splitSeries sid keys) as [run rest]. destruct IH as (-> & HF & Hr). split_and!; [done|by constructor|done].
Qed.
(** In a sorted list of keys the rest belongs to later series. *)
Lemma splitSeries_later k run rest : StronglySorted key_lt (k :: run ++ rest) ->
  (forall j rest', rest = j :: rest' -> j.1 <> k.1) -> Forall (fun j => k.1 < j.1) rest.
Proof.
  intros Hs Hr. destruct rest as [|j rest]; [done|]. apply StronglySorted_inv in Hs as [Hs Hk].
  apply Forall_app in Hk as [_ Hk]. apply StronglySorted_app_1_r in Hs.
  apply StronglySorted_inv in Hs as [_ Hj]. apply Forall_cons in Hk as [Hkj _]. specialize (Hr j rest eq_refl).
  unfold key_lt in *. constructor; [lia|]. eapply Forall_impl; [exact Hj|]. intros l Hl. simpl in Hl. lia.
Qed.

Section series.
  Context `{GoRuntimeLaws}.
  Context (schema : columnKey -> Z) (schema_nz : forall k, schema k <> 0).

Lemma seriesColumns_app data query k1 k2 :
  seriesColumnsFromKeys data (k1 ++ k2) query =
  (a ← seriesColumnsFromKeys data k1 query; b ← seriesColumnsFromKeys data k2 query; mret (a ++ b)).
Proof.
  induction k1 as [|k k1 IH]; simpl; [by destruct (seriesColumnsFromKeys data k2 query)|].
  destruct (data !! k) as [c|]; [|done]. destruct (columnDataFromBuffer c query) as [out| |]; simpl; [|done..].
  rewrite IH. destruct (seriesColumnsFromKeys data k1 query); simpl; [|done..].
  destruct (seriesColumnsFromKeys data k2 query); simpl; [|done..]. by case_match.
Qed.

(** The columns of one series carry its id. *)
Lemma seriesColumns_series data C query sid keys out : table_inv schema data C ->
  Forall (fun k => k.1 = sid) keys -> seriesColumnsFromKeys data keys query = Ok out ->
  Forall (fun c => cd_SeriesID c = sid) out.
Proof.
  intros HT HF. revert out. induction HF as [|k keys Hk HF IH]; intros out Hout; simpl in Hout.
  { by injection Hout as <-. }
  destruct (data !! k) as [c|] eqn:E; [|by apply IH].
  destruct (table_inv_lookup _ _ _ _ _ HT E) as [Hc Hfor].
  destruct (columnDataFromBuffer_inv schema k c _ query Hc Hfor) as (col & Ecol & Ek & _).
  rewrite Ecol in Hout. simpl in Hout. inv_bind Hout. injection Hout as <-. specialize (IH _ eq_refl).
  assert (cd_SeriesID col = sid) by (unfold keyOf in Ek; by rewrite <- Hk, <- Ek).
  case_match; [by constructor|done].
Qed.

Lemma seriesLoop_groups data C query ctx fuel : table_inv schema data C ->
  (forall n, ctx n = None) -> forall keys tick all, (length keys <= fuel)%nat ->
  seriesColumnsFromKeys data keys query = Ok all ->
  exists groups, concat groups.*2 = all /\ Forall group_ok groups /\
    (StronglySorted key_lt keys -> StronglySorted Z.lt groups.*1 /\ Forall (fun id => exists k, k ∈ keys /\ k.1 = id) groups.*1) /\
    forall (S : Type) fn (st : S), seriesLoop fuel data query ctx tick fn keys st = run_groups fn groups st.
Proof.
  intros HT Hctx. induction fuel as [|fuel IH]; intros keys tick all Hlen Hall.
  { destruct keys; [|simpl in Hlen; lia]. injection Hall as <-. exists []. by repeat constructor. }
  destruct keys as [|k keys]; [injection Hall as <-; exists []; by repeat constructor|].
  pose proof (splitSeries_spec k.1 keys) as Hsplit. cbn [seriesLoop].
  destruct (splitSeries k.1 keys) as [run rest]. destruct Hsplit as (-> & HF & Hrest).
  change (k :: run ++ rest) with ((k :: run) ++ rest) in Hall. rewrite seriesColumns_app in Hall.
  inv_bind Hall. injection Hall as <-.
  destruct (IH rest (S tick) a0) as (groups & Econc & Hok & Hsort & Hrun);
    [simpl in Hlen; rewrite length_app in Hlen; lia|done|].
  assert (StronglySorted key_lt (k :: run ++ rest) -> StronglySorted Z.lt groups.*1 /\
    Forall (fun id => exists j, j ∈ k :: run ++ rest /\ j.1 = id) groups.*1 /\ Forall (fun id => k.1 < id) groups.*1) as Hsort'.
  { intros Hs. pose proof (splitSeries_later k run rest Hs Hrest) as Hlater.
    apply StronglySorted_inv in Hs as [Hs _]. apply StronglySorted_app_1_r in Hs. destruct (Hsort Hs) as [H1 H2].
    split_and!; [done|..]; (eapply Forall_impl; [exact H2|]); intros id (j & Hj & <-).
    - exists j. split; [|done]. set_solver.
    - rewrite Forall_forall in Hlater. by apply Hlater. }
  pose proof (seriesColumns_series data C query k.1 (k :: run) a HT ltac:(by constructor) E) as Hser.
  exists (if 0 <? len a then (k.1, a) :: groups else groups).
  zcase (0 <? len a).
  - split_and!.
    + change (a ++ concat groups.*2 = a ++ a0). by f_equal.
    + constructor; [|done]. split; [|done]. destruct a; [unfold len in *; simpl in *; lia|done].
    + intros Hs. destruct (Hsort' Hs) as (H1 & H2 & H3). rewrite !fmap_cons. split; constructor; try done.
      exists k. split; [left|done].
    + intros S fn st. cbn [mbind outcome_bind run_groups]. rewrite (proj2 (Z.ltb_lt _ _) E1).
      destruct (fn k.1 a st); simpl; [|done..]. rewrite Hctx. apply Hrun.
  - destruct a; [|unfold len in *; simpl in *; lia]. split_and!; [done|done|intros Hs; by destruct (Hsort' Hs) as (? & ? & _)|].
    intros S fn st. simpl. rewrite Hctx. apply Hrun.
Qed.

Lemma seriesColumns_entries data query keys :
  Forall (fun k => exists c, data !! k = Some c /\ columnSelected query c = true) keys ->
  seriesColumnsFromKeys data keys query =
  columnsLoop query (omap (fun k => (fun c => (k, c)) <$> data !! k) keys).
Proof.
  induction 1 as [|k keys (c & E & Es) HF IH]; simpl; [done|]. rewrite E. simpl. rewrite Es. simpl. by rewrite IH.
Qed.

Lemma compareKeys_neg (k l : columnKey) :
  (compareKeys k l <? 0) = if negb (k.1 =? l.1) then k.1 <? l.1 else k.2 <? l.2.
Proof. unfold compareKeys. case_match; by rewrite cmp_Compare_neg. Qed.

Lemma sortedColumnKeys_sorted data query : StronglySorted key_lt (sortedColumnKeys data query).
Proof.
  unfold sortedColumnKeys, SortFunc. set (less := fun x y => compareKeys x y <? 0). set (l := omap _ _).
  assert (weak_order less) as Hw.
  { eapply weak_order_ext; [intros; apply compareKeys_neg|]. apply weak_order_lex. }
  assert (NoDup (sort_less less l)) as Hnd.
  { rewrite sort_less_perm. unfold l. eapply sublist_NoDup; [apply (range_keys_NoDup data)|].
    generalize (map_range data). intros es. induction es as [|[k c] es IH]; simpl; [constructor|].
    destruct (columnSelected query c); [apply sublist_skip|apply sublist_cons]; exact IH. }
  pose proof (sort_less_sorted less l Hw) as Hs. induction Hs as [|k ks Hs IH Hk]; [constructor|].
  apply NoDup_cons in Hnd as [Hnin Hnd]. constructor; [by apply IH|].
  rewrite Forall_forall in *. intros j Hj. specialize (Hk j Hj). unfold not_after, less in Hk.
  rewrite compareKeys_neg in Hk. assert (k <> j) by (intros ->; done).
  destruct k as [a b], j as [a' b']. unfold key_lt. simpl in *.
  destruct (a' =? a) eqn:Ea; simpl in Hk; [apply Z.eqb_eq in Ea|apply Z.eqb_neq in Ea]; apply Z.ltb_ge in Hk.
  - subst. destruct (decide (b = b')); [congruence|lia].
  - lia.
Qed.

Lemma elem_of_sortedColumnKeys data query k : k ∈ sortedColumnKeys data query <->
  exists c, data !! k = Some c /\ columnSelected query c = true.
Proof.
  unfold sortedColumnKeys, SortFunc. rewrite sort_less_perm, list_elem_of_omap. split.
  - intros ([j c] & Hin & Hj). rewrite (map_range_perm data) in Hin. apply elem_of_map_to_list in Hin.
    simpl in Hj. case_match; [|done]. simplify_eq. by exists c.
  - intros (c & E & Es). exists (k, c). rewrite (map_range_perm data). simpl. rewrite Es.
    split; [by apply elem_of_map_to_list|done].
Qed.

Lemma sorted_keys_columns out : StronglySorted key_lt (keyOf <$> out) -> StronglySorted column_lt out.
Proof.
  induction out as [|c out IH]; intros Hs; [constructor|]. simpl in Hs.
  apply StronglySorted_inv in Hs as [Hs HF]. constructor; [by apply IH|]. by rewrite Forall_fmap in HF.
Qed.
Lemma sublist_sorted {A} (R : relation A) l1 l2 : l1 `sublist_of` l2 -> StronglySorted R l2 -> StronglySorted R l1.
Proof.
  induction 1 as [|x l1 l2 Hsub IH|x l1 l2 Hsub IH]; intros Hs; [done|..];
    apply StronglySorted_inv in Hs as [Hs HF]; [|by apply IH].
  constructor; [by apply IH|]. rewrite Forall_forall in *. intros y Hy. apply HF.
  by apply (sublist_subseteq _ _ Hsub).
Qed.

Lemma omap_entries_keys (data : tableData) keys :
  (omap (fun k => (fun c => (k, c)) <$> data !! k) keys).*1 `sublist_of` keys.
Proof.
  induction keys as [|k keys IH]; simpl; [constructor|]. destruct (data !! k); simpl; by constructor.
Qed.

(** The groups the walk hands to its callback: each holds the columns of one
    series, and together they answer the query. *)
Lemma ForEachSeries_groups s C query ctx : table_inv schema (sn_data s) C -> (forall n, ctx n = None) ->
  exists groups, answers schema query (held schema C) (concat groups.*2) /\ Forall group_ok groups /\
    StronglySorted Z.lt groups.*1 /\
    forall (S : Type) fn (st : S), ForEachSeries s query ctx fn st = run_groups fn groups st.
Proof.
  intros HT Hctx. unfold ForEachSeries. zcase (sq_End query <? sq_Start query).
  { exists []. split_and!; [|done|constructor|done]. eapply (answers_ext _ _ (fun _ => [])); [|apply answers_empty].
    intros k x _ Hw. unfold in_window, in_range in Hw. rewrite andb_true_iff, !Z.leb_le in Hw. lia. }
  set (data := sn_data s) in *. set (keys := sortedColumnKeys data query).
  set (entries := omap (fun k => (fun c => (k, c)) <$> data !! k) keys).
  assert (Forall (entry_ok schema C) entries) as Hent.
  { apply Forall_forall. intros [k c]. unfold entries. rewrite list_elem_of_omap. intros (j & _ & Hj).
    destruct (data !! j) eqn:Ej; [|done]. simplify_eq/=. by eapply table_inv_lookup. }
  destruct (columnsLoop_inv schema C query entries Hent) as (out & Eout & Hsub & Hcol & Hcomp).
  assert (seriesColumnsFromKeys data keys query = Ok out) as Ekeys.
  { rewrite seriesColumns_entries; [done|]. apply Forall_forall. intros k. apply elem_of_sortedColumnKeys. }
  destruct (seriesLoop_groups data C query ctx (length keys) HT Hctx keys 1 out) as (groups & <- & Hok & Hsort & Hrun);
    [lia|done|].
  exists groups. split_and!; [|done|apply Hsort, sortedColumnKeys_sorted|by intros; rewrite Hctx; apply Hrun].
  split; [|exact Hcol|].
  - apply sorted_keys_columns. eapply sublist_sorted; [exact Hsub|].
    eapply sublist_sorted; [apply omap_entries_keys|apply sortedColumnKeys_sorted].
  - intros k x Hk Hx. apply (Hcomp k x); [|done|done].
    apply list_elem_of_filter in Hx as [_ Hx].
    pose proof (table_range_keys schema data C k x HT Hx) as Hin. rewrite (map_range_perm data) in Hin.
    apply list_elem_of_fmap in Hin as ([j c] & -> & Hin%elem_of_map_to_list). simpl in *.
    apply list_elem_of_fmap. exists (j, c). split; [done|]. apply list_elem_of_omap. exists j.
    rewrite Hin. split; [|done]. apply elem_of_sortedColumnKeys. exists c. split; [done|].
    destruct (table_inv_lookup _ _ _ _ _ HT Hin) as [_ (E1 & E2 & _)].
    unfold columnSelected. by rewrite E1, E2.
Qed.
End series.

(** ** Runs of the memtable

    The operations a shard performs on its memtable, between which it may
    query: writes by point or by typed batch, a flush that succeeds (the
    snapshot is written elsewhere and released) and one that fails (the
    snapshot is put back). *)
Inductive mem_op :=
  | OpBatch (points : list ResolvedPoint)
  | OpTyped (batch : ResolvedTypedBatch) (rows : list Z)
  | OpFlush
  | OpFlushFail.

Definition mem_step `{GoRuntime} (op : mem_op) (st : MemTable * columnPool)
    : outcome (MemTable * columnPool) :=
  let '(m, pool) := st in
  match op with
  | OpBatch points => ApplyBatch pool m points
  | OpTyped batch rows => ApplyTypedBatch pool m batch rows
  | OpFlush => let '(s, m) := SnapshotAndReset m in mret (m, Release pool s)
  | OpFlushFail => let '(s, m) := SnapshotAndReset m in Restore pool m s
  end.
Fixpoint mem_run `{GoRuntime} (ops : list mem_op) (st : MemTable * columnPool)
    : outcome (MemTable * columnPool) :=
  match ops with [] => mret st | op :: ops' => st ← mem_step op st; mem_run ops' st end.

(** The abstract memtable: the list of samples written since the last flush. *)
Definition op_writes (op : mem_op) : list (columnKey * VersionedSample) :=
  match op with
  | OpBatch points => batch_writes points
  | OpTyped batch rows =>
      match resolvedPointsFromTypedBatch batch rows with Ok points => batch_writes points | _ => [] end
  | _ => []
  end.
Definition abs_step (op : mem_op) (ws : list (columnKey * VersionedSample)) :=
  match op with OpFlush => [] | _ => ws ++ op_writes op end.
Definition abs_run (ops : list mem_op) : list (columnKey * VersionedSample) :=
  foldl (fun ws op => abs_step op ws) [] ops.
Definition written (ws : list (columnKey * VersionedSample)) : contents := fun k => of_key k ws.

Definition op_ok (schema : columnKey -> Z) (op : mem_op) : Prop :=
  match op with
  | OpBatch points => Forall (point_typed schema) points
  | OpTyped batch rows =>
      exists points, resolvedPointsFromTypedBatch batch rows = Ok points /\ Forall (point_typed schema) points
  | _ => True
  end.

Section runs.
  Context `{GoRuntimeLaws}.
  Context (schema : columnKey -> Z) (schema_nz : forall k, schema k <> 0).

Lemma mem_step_inv op m pool ws : op_ok schema op -> pool_ok pool -> mem_inv schema m (written ws) ->
  exists m' pool', mem_step op (m, pool) = Ok (m', pool') /\ pool_ok pool' /\
    mem_inv schema m' (written (abs_step op ws)).
Proof.
  intros Hop Hp Hm.
  assert (forall points, Forall (point_typed schema) points ->
    exists m' pool', ApplyBatch pool m points = Ok (m', pool') /\ pool_ok pool' /\
      mem_inv schema m' (written (ws ++ batch_writes points))) as Hbatch.
  { intros points HF. destruct (ApplyBatch_inv schema schema_nz pool m _ points Hp Hm HF) as (m' & p' & E & Hp' & Hm').
    do 2 eexists. split; [exact E|]. split; [done|]. eapply mem_inv_ext; [|exact Hm'].
    intros k. unfold extend, written, of_key. by rewrite filter_app, fmap_app. }
  destruct op as [points|batch rows| |]; simpl in *.
  - by apply Hbatch.
  - destruct Hop as (points & E & HF). rewrite E, (typed_batch_points _ _ _ _ _ E). by apply Hbatch.
  - do 2 eexists. split; [done|]. split; [eapply Release_ok; [done|apply (mi_table _ _ _ Hm)]|].
    apply (reset_inv schema m).
  - destruct (Restore_inv schema schema_nz pool (SnapshotAndReset m).2 (fun _ => []) (SnapshotAndReset m).1
      (written ws) Hp) as (m' & p' & E & Hp' & Hm').
    + apply reset_inv.
    + apply (mi_table _ _ _ Hm).
    + apply (mi_count _ _ _ Hm).
    + do 2 eexists. split; [exact E|]. split; [done|]. by rewrite app_nil_r.
Qed.

Lemma mem_run_inv ops : Forall (op_ok schema) ops -> forall m pool ws,
  pool_ok pool -> mem_inv schema m (written ws) ->
  exists m' pool', mem_run ops (m, pool) = Ok (m', pool') /\ pool_ok pool' /\
    mem_inv schema m' (written (foldl (fun ws op => abs_step op ws) ws ops)).
Proof.
  induction 1 as [|op ops Hop HF IH]; intros m pool ws Hp Hm; cbn [mem_run foldl]; [by do 2 eexists|].
  destruct (mem_step_inv op m pool ws Hop Hp Hm) as (m1 & p1 & -> & Hp1 & Hm1). simpl. by apply IH.
Qed.
End runs.

(** C31: whatever sequence of batches, typed batches, flushes and failed flushes ran, no
    operation fails, the counters equal a recount, and every query answers from
    exactly the samples written since the last successful flush. *)
Theorem memtable_refines `{GoRuntimeLaws} (schema : columnKey -> Z) (ops : list mem_op) (query : StorageQuery)
  (Hschema : forall k, schema k <> 0) (Hops : Forall (op_ok schema) ops) :
  exists m pool out, mem_run ops (New, []) = Ok (m, pool) /\
    MemQuery m query = Ok out /\
    answers schema query (held schema (written (abs_run ops))) out /\
    mt_sampleCount m = sumColumns cb_count (mt_data m) /\
    mt_approxBytes m = approxTableDataBytes (mt_data m).
Proof.
  destruct (mem_run_inv schema Hschema ops Hops New [] []) as (m & pool & Hrun & _ & [HT Hn Hb]);
    [constructor|apply New_inv|].
  destruct (columnsFromData_answers schema _ _ query HT) as (out & Hq & Ha).
  exists m, pool, out. split_and!; try done. rewrite Hb. unfold trackedTableDataBytes, approxTableDataBytes.
  f_equal. apply sumColumns_ext. intros k c Hin.
  destruct (table_inv_lookup _ _ _ _ _ HT Hin) as [Hc _]. apply (ci_bytes _ _ Hc).
Qed.

(** Example data: an integer column, written by point and by typed batch. *)
Definition ex_point (t seq v : Z) : ResolvedPoint :=
  mkResolvedPoint (str "db") (str "rp") (str "m") ∅ 7 t seq [mkResolvedField 1 (str "f") FieldInt64 (Int64Value v)].
#[local] Existing Instances refRuntime refRuntimeLaws.
Definition ex_typed : ResolvedTypedBatch :=
  mkTypedBatch (str "db") (str "rp") (str "m") [mkTagColumn (str "host") [str "a"; str "b"]] [30; 20] [7; 8] [5; 6]
    [mkTypedField 1 (str "f") FieldInt64 [] [300; 200] [] []].
Definition ex_ops : list mem_op :=
  [OpBatch [ex_point 10 1 100; ex_point 20 2 200]; OpFlush; OpBatch [ex_point 10 3 101; ex_point 10 4 102];
   OpTyped ex_typed [1; 0]; OpFlushFail].
Definition ex_query : StorageQuery := rangeQuery ∅ ∅ 0 100.

Lemma memtable_refines_witness :
  Forall (op_ok (fun _ => FieldInt64)) ex_ops /\
  exists m pool out, mem_run ex_ops (New, []) = Ok (m, pool) /\ MemQuery m ex_query = Ok out /\
    answers (fun _ => FieldInt64) ex_query (held (fun _ => FieldInt64) (written (abs_run ex_ops))) out /\
    mt_sampleCount m = sumColumns cb_count (mt_data m) /\
    mt_approxBytes m = approxTableDataBytes (mt_data m).
Proof.
  assert (Forall (op_ok (fun _ => FieldInt64)) ex_ops) as Hops.
  { repeat constructor; try by repeat constructor. simpl. eexists. split; [reflexivity|]. repeat constructor. }
  split; [exact Hops|]. apply (memtable_refines (fun _ => FieldInt64) ex_ops ex_query); [done|exact Hops].
Defined.

(** a query on a column buffer returns the newest version per timestamp of the
    queried interval, as the reference computes it, whichever of the two paths is
    taken. *)
Theorem compactSamples_latest `{GoRuntimeLaws} (column : columnBuffer) (xs : list VersionedSample)
  (query : StorageQuery) (Hinv : column_inv column xs)
  (Hv : versioned (stored (cb_fieldType column) <$> xs)) :
  compactSamples column query =
    Ok (latest (filter (in_range (sq_Start query) (sq_End query)) (stored (cb_fieldType column) <$> xs))).
Proof.
  destruct (compactSamples_resolves column xs query Hinv) as (out & -> & Hr). f_equal.
  apply latest_unique; [by apply versioned_filter|done].
Qed.

(** appending a sample to a column buffer succeeds, the sample is read back at the
    new last index up to the type of the column, every earlier sample reads as before,
    and the byte counter still equals a recount. *)
Theorem column_append_roundtrip `{GoRuntimeLaws} (c : columnBuffer) (xs : list VersionedSample)
  (s : VersionedSample) (Hinv : column_inv c xs) (Hft : cb_fieldType c <> 0) :
  exists c' delta, appendSample c s = Ok (c', delta) /\
    sampleAt c' (cb_count c) = Ok (stored (cb_fieldType c) s) /\
    (forall i, 0 <= i < cb_count c -> sampleAt c' i = sampleAt c i) /\
    cb_count c' = cb_count c + 1 /\ cb_memBytes c' = approxMemoryBytes c' /\
    cb_memBytes c' = cb_memBytes c + delta.
Proof.
  destruct (appendSample_inv c xs s Hinv Hft) as (c' & d & E & Hc' & (_ & _ & Et) & _ & Hm).
  exists c', d. rewrite (ci_count _ _ Hinv). split_and!; [done|..|apply (ci_bytes _ _ Hc')|done].
  - rewrite <- Et. unfold len. apply (sampleAt_inv c' (xs ++ [s])); [done|]. by rewrite list_lookup_middle.
  - intros i Hi. unfold len in Hi. destruct (lookup_lt_is_Some_2 xs (Z.to_nat i) ltac:(lia)) as [x Hx].
    rewrite <- (Z2Nat.id i) by lia. rewrite (sampleAt_inv c xs _ x), (sampleAt_inv c' (xs ++ [s]) _ x), Et; try done.
    by apply lookup_app_l_Some.
  - by rewrite (ci_count _ _ Hc'), len_snoc.
Qed.

Definition ex_column : columnBuffer := (borrowColumnBuffer [] 7 1 FieldBool).1.
Lemma ex_column_inv : column_inv ex_column [].
Proof. by apply (borrowColumnBuffer_inv [] 7 1 FieldBool); constructor. Defined.

Lemma column_append_roundtrip_witness :
  exists c' delta, appendSample ex_column (mkSample 5 1 (BoolValue true)) = Ok (c', delta) /\
    sampleAt c' (cb_count ex_column) = Ok (mkSample 5 1 (BoolValue true)) /\
    (forall i, 0 <= i < cb_count ex_column -> sampleAt c' i = sampleAt ex_column i) /\
    cb_count c' = cb_count ex_column + 1 /\ cb_memBytes c' = approxMemoryBytes c' /\
    cb_memBytes c' = cb_memBytes ex_column + delta.
Proof.
  apply (column_append_roundtrip ex_column [] (mkSample 5 1 (BoolValue true)) ex_column_inv). done.
Defined.

Definition ex_ints : columnBuffer :=
  mkColumn 7 1 FieldInt64 (mkSlice [30; 10; 30] 4) (mkSlice [1; 2; 3] 4) nilSlice (mkSlice [100; 200; 300] 4)
    nilSlice nilSlice 3 288 30 true.
Definition ex_samples : list VersionedSample :=
  [mkSample 30 1 (Int64Value 100); mkSample 10 2 (Int64Value 200); mkSample 30 3 (Int64Value 300)].
Lemma ex_ints_inv : column_inv ex_ints ex_samples.
Proof. split; try reflexivity; [done|]. unfold slice_ok, len. simpl. lia. Defined.

Lemma compactSamples_latest_witness :
  compactSamples ex_ints ex_query = Ok (latest (filter (in_range 0 100) (stored FieldInt64 <$> ex_samples))) /\
  latest (filter (in_range 0 100) (stored FieldInt64 <$> ex_samples)) =
    [mkSample 10 2 (Int64Value 200); mkSample 30 3 (Int64Value 300)].
Proof.
  split; [|reflexivity]. apply (compactSamples_latest ex_ints ex_samples ex_query ex_ints_inv).
  intros x y Hx Hy. unfold ex_samples in *. simpl in *. set_solver.
Defined.

(** C32: the typed write path leaves the memtable and the buffer pool exactly as writing
    the points the typed batch stands for. *)
Theorem typed_batch_equivalence `{GoRuntime} (pool : columnPool) (m : MemTable) (batch : ResolvedTypedBatch)
  (rows : list Z) (points : list ResolvedPoint) (Hp : resolvedPointsFromTypedBatch batch rows = Ok points) :
  ApplyTypedBatch pool m batch rows = ApplyBatch pool m points.
Proof. by apply typed_batch_points. Qed.

Lemma typed_batch_equivalence_witness :
  exists points, resolvedPointsFromTypedBatch ex_typed [1; 0] = Ok points /\
    ApplyTypedBatch [] New ex_typed [1; 0] = ApplyBatch [] New points.
Proof.
  eexists. split; [reflexivity|]. apply (typed_batch_equivalence [] New ex_typed [1; 0]). reflexivity.
Defined.

(** Growing a slice reserves at least the target and at most eight elements more,
    also where adding the slack would overflow. *)
Theorem nextSliceCapacity_range (current target additional : Z)
  (Hc : 0 <= current) (Ha : 0 < additional) (Ht : 0 <= target <= maxInt) :
  target <= nextSliceCapacity current target additional <= Z.min (target + 8) maxInt.
Proof.
  pose proof (nextSliceCapacity_bounds current target additional Hc Ha Ht).
  enough (nextSliceCapacity current target additional <= maxInt) by lia.
  unfold nextSliceCapacity. repeat case_match; try lia.
  all: match goal with |- i64 ?z <= _ => pose proof (i64_range z) end; unfold is_i64, maxInt in *; lia.
Qed.

Lemma nextSliceCapacity_range_witness :
  maxInt - 1 <= nextSliceCapacity 64 (maxInt - 1) 3 <= Z.min (maxInt - 1 + 8) maxInt.
Proof. apply (nextSliceCapacity_range 64 (maxInt - 1) 3); unfold maxInt; lia. Defined.

(** a buffer returned to the pool keeps its last timestamp, so the first sample of
    another column that borrows it is counted as out of order. *)
Theorem pooled_column_out_of_order :
  exists m pool, mem_run [OpBatch [ex_point 50 1 1]; OpFlush;
      OpBatch [mkResolvedPoint (str "db") (str "rp") (str "m") ∅ 8 10 2
                 [mkResolvedField 1 (str "f") FieldInt64 (Int64Value 1)]]] (New, []) = Ok (m, pool) /\
    mt_sampleCount m = 1 /\ mt_outOfOrderSamples m = 1.
Proof. eexists _, _. split; [vm_compute; reflexivity|]. split; reflexivity. Qed.
