(* ===== verification/EngineMerge.v ===== *)
(** * Merging columns in the engine (internal/engine/shard.go)

    Compaction reads the same column from several parts and merges the
    versions.  [mergeColumnGroup] has four routines: one column as it is, one
    ordered column, two ordered columns, any number of ordered columns, and a
    map-based fallback.  All of them compute [latest] of the concatenated
    samples, ties included. *)
From S2P Require Import Prelude Model Runtime Versions MemColumn MemCompact StoreSpec.
From stdpp Require Import prelude strings list sorting gmap.
From Stdlib Require Import ZArith Lia.
#[local] Open Scope Z_scope.

Definition zeroSample : VersionedSample := mkSample 0 0 zeroFieldValue.

(** ** Orderings *)
Fixpoint samplesOrderedFrom (prev : Z) (samples : list VersionedSample) : bool :=
  match samples with
  | [] => true
  | s :: rest => if vs_Timestamp s <? prev then false else samplesOrderedFrom (vs_Timestamp s) rest
  end.
Definition samplesOrdered (samples : list VersionedSample) : bool :=
  match samples with [] => true | s :: rest => samplesOrderedFrom (vs_Timestamp s) rest end.
Fixpoint strictlyIncreasingFrom (prev : Z) (samples : list VersionedSample) : bool :=
  match samples with
  | [] => true
  | s :: rest => if vs_Timestamp s <=? prev then false else strictlyIncreasingFrom (vs_Timestamp s) rest
  end.
Definition samplesStrictlyIncreasing (samples : list VersionedSample) : bool :=
  match samples with [] => true | s :: rest => strictlyIncreasingFrom (vs_Timestamp s) rest end.
Definition columnsSamplesOrdered (columns : list ColumnData) : bool :=
  forallb (fun c => samplesOrdered (cd_Samples c)) columns.

(** ** One timestamp at a time

    [for index < len(samples) && samples[index].Timestamp == timestamp { ... }];
    [latest] and [hasLatest] are an option. *)
Fixpoint consumeLoop (fuel : nat) (samples : list VersionedSample) (index : nat) (timestamp : Z)
    (best : option VersionedSample) : nat * option VersionedSample :=
  match fuel with
  | O => (index, best)
  | S fuel' =>
      match samples !! index with
      | None => (index, best)
      | Some s =>
          if vs_Timestamp s =? timestamp then
            consumeLoop fuel' samples (S index) timestamp
              (match best with
               | None => Some s
               | Some b => if vs_WriteSeq b <=? vs_WriteSeq s then Some s else best
               end)
          else (index, best)
      end
  end.
Definition consumeTimestamp (samples : list VersionedSample) (index : nat) (timestamp : Z)
    (best : option VersionedSample) : nat * option VersionedSample :=
  consumeLoop (length samples) samples index timestamp best.

Fixpoint dedupeOrderedLoop (fuel : nat) (samples : list VersionedSample) (index : nat)
    : list VersionedSample :=
  match fuel with
  | O => []
  | S fuel' =>
      match samples !! index with
      | None => []
      | Some s =>
          let '(index, best) := consumeLoop (length samples) samples (S index) (vs_Timestamp s) (Some s) in
          default zeroSample best :: dedupeOrderedLoop fuel' samples index
      end
  end.
Definition dedupeOrderedSamples (samples : list VersionedSample) : list VersionedSample :=
  dedupeOrderedLoop (length samples) samples 0.

Definition nextTwoTimestamp (left : list VersionedSample) (leftIndex : nat)
    (right : list VersionedSample) (rightIndex : nat) : outcome Z :=
  match left !! leftIndex, right !! rightIndex with
  | None, None => Panic IndexOutOfRange
  | None, Some r => mret (vs_Timestamp r)
  | Some l, None => mret (vs_Timestamp l)
  | Some l, Some r =>
      if vs_Timestamp l <? vs_Timestamp r then mret (vs_Timestamp l) else mret (vs_Timestamp r)
  end.

Fixpoint mergeTwoLoop (fuel : nat) (left right : list VersionedSample) (leftIndex rightIndex : nat)
    : outcome (list VersionedSample) :=
  match fuel with
  | O => mret []
  | S fuel' =>
      if bool_decide (leftIndex < length left \/ rightIndex < length right)%nat then
        timestamp ← nextTwoTimestamp left leftIndex right rightIndex;
        let '(leftIndex, best) := consumeTimestamp left leftIndex timestamp None in
        let '(rightIndex, best) := consumeTimestamp right rightIndex timestamp best in
        rest ← mergeTwoLoop fuel' left right leftIndex rightIndex;
        mret (default zeroSample best :: rest)
      else mret []
  end.
Definition mergeTwoOrderedSamples (left right : list VersionedSample) : outcome (list VersionedSample) :=
  mergeTwoLoop (length left + length right) left right 0 0.

(** ** Any number of ordered columns, with a read position in each *)
Definition minStep (acc : option Z) (cp : ColumnData * nat) : option Z :=
  match cd_Samples cp.1 !! cp.2 with
  | None => acc
  | Some s =>
      match acc with
      | None => Some (vs_Timestamp s)
      | Some m => if vs_Timestamp s <? m then Some (vs_Timestamp s) else acc
      end
  end.
Definition nextMinTimestamp (columns : list ColumnData) (positions : list nat) : option Z :=
  foldl minStep None (zip columns positions).

Fixpoint consumeAll (columns : list ColumnData) (positions : list nat) (timestamp : Z)
    (best : option VersionedSample) : list nat * option VersionedSample :=
  match columns, positions with
  | c :: columns', p :: positions' =>
      let '(p, best) := consumeLoop (length (cd_Samples c)) (cd_Samples c) p timestamp best in
      let '(ps, best) := consumeAll columns' positions' timestamp best in
      (p :: ps, best)
  | _, _ => (positions, best)
  end.

Definition totalSampleCount (columns : list ColumnData) : nat :=
  foldr (fun c n => (length (cd_Samples c) + n)%nat) 0%nat columns.

Fixpoint mergeLoop (fuel : nat) (columns : list ColumnData) (positions : list nat)
    : list VersionedSample :=
  match fuel with
  | O => []
  | S fuel' =>
      match nextMinTimestamp columns positions with
      | None => []
      | Some minTime =>
          let '(positions, best) := consumeAll columns positions minTime None in
          default zeroSample best :: mergeLoop fuel' columns positions
      end
  end.

Definition mergeOrderedSamples (columns : list ColumnData) : outcome (list VersionedSample) :=
  match columns with
  | [c] => mret (dedupeOrderedSamples (cd_Samples c))
  | [c; d] => mergeTwoOrderedSamples (cd_Samples c) (cd_Samples d)
  | _ => mret (mergeLoop (totalSampleCount columns) columns (replicate (length columns) 0%nat))
  end.

(** ** The fallback through a map *)
Definition byTimeStep (byTime : gmap Z VersionedSample) (s : VersionedSample) : gmap Z VersionedSample :=
  match byTime !! vs_Timestamp s with
  | None => <[vs_Timestamp s := s]> byTime
  | Some current =>
      if vs_WriteSeq current <=? vs_WriteSeq s then <[vs_Timestamp s := s]> byTime else byTime
  end.
Definition mergeSamples `{GoRuntime} (seriesID fieldID fieldType : Z) (samples : list VersionedSample)
    : ColumnData :=
  let byTime := foldl byTimeStep ∅ samples in
  mkColumnData seriesID fieldID fieldType
    (sort_Slice (fun x y => vs_Timestamp x <? vs_Timestamp y) (map_range byTime).*2).
Definition mergeSamplesFallback `{GoRuntime} (seriesID fieldID fieldType : Z) (columns : list ColumnData)
    : ColumnData := mergeSamples seriesID fieldID fieldType (concat (cd_Samples <$> columns)).

(** ** Groups of columns *)
Definition sameColumn (left right : ColumnData) : bool :=
  (cd_SeriesID left =? cd_SeriesID right) && (cd_FieldID left =? cd_FieldID right).

Definition mergeColumnGroup `{GoRuntime} (columns : list ColumnData) : outcome ColumnData :=
  first ← idx columns 0;
  if (len columns =? 1) && samplesStrictlyIncreasing (cd_Samples first) then mret first
  else if columnsSamplesOrdered columns then
    samples ← mergeOrderedSamples columns;
    mret (mkColumnData (cd_SeriesID first) (cd_FieldID first) (cd_FieldType first) samples)
  else mret (mergeSamplesFallback (cd_SeriesID first) (cd_FieldID first) (cd_FieldType first) columns).

Definition columnDataLess (left right : ColumnData) : bool :=
  if negb (cd_SeriesID left =? cd_SeriesID right) then cd_SeriesID left <? cd_SeriesID right
  else cd_FieldID left <? cd_FieldID right.
Definition sortColumnData `{GoRuntime} (columns : list ColumnData) : list ColumnData :=
  sort_Slice columnDataLess columns.

(** The columns up to the first one of another key, and the rest. *)
Fixpoint takeSame (first : ColumnData) (columns : list ColumnData) : list ColumnData * list ColumnData :=
  match columns with
  | [] => ([], [])
  | c :: columns' =>
      if sameColumn first c then let '(run, rest) := takeSame first columns' in (c :: run, rest)
      else ([], columns)
  end.
Fixpoint mergeGroups `{GoRuntime} (fuel : nat) (columns : list ColumnData) : outcome (list ColumnData) :=
  match fuel, columns with
  | S fuel', c :: columns' =>
      let '(run, rest) := takeSame c columns' in
      merged ← mergeColumnGroup (c :: run);
      out ← mergeGroups fuel' rest;
      mret (merged :: out)
  | _, _ => mret []
  end.
Definition mergeColumnData `{GoRuntime} (columns : list ColumnData) : outcome (list ColumnData) :=
  mergeGroups (length columns) (sortColumnData columns).

(** * Proofs *)

(** ** Ordered samples *)
Lemma samplesOrderedFrom_sorted l : forall p, samplesOrderedFrom p l = true ->
  StronglySorted ts_le l /\ Forall (fun x => p <= vs_Timestamp x) l.
Proof.
  induction l as [|s l IH]; intros p; simpl; [repeat constructor|].
  zcase (vs_Timestamp s <? p); [done|]. intros [Hs HF]%IH. split; [by constructor|].
  constructor; [done|]. eapply Forall_impl; [exact HF|]. simpl. lia.
Qed.
Lemma samplesOrdered_sorted l : samplesOrdered l = true -> StronglySorted ts_le l.
Proof.
  destruct l as [|s l]; simpl; [constructor|]. intros [Hs HF]%samplesOrderedFrom_sorted. by constructor.
Qed.
Lemma strictlyIncreasing_sorted l : samplesStrictlyIncreasing l = true -> StronglySorted ts_lt l.
Proof.
  destruct l as [|s l]; simpl; [constructor|].
  assert (forall p, strictlyIncreasingFrom p l = true ->
    StronglySorted ts_lt l /\ Forall (fun x => p < vs_Timestamp x) l) as Hl.
  { induction l as [|x l IH]; intros p; simpl; [repeat constructor|].
    zcase (vs_Timestamp x <=? p); [done|]. intros [Hs HF]%IH. split; [by constructor|].
    constructor; [done|]. eapply Forall_impl; [exact HF|]. simpl. lia. }
  intros [Hs HF]%Hl. by constructor.
Qed.

(** ** Consuming one timestamp *)
Lemma newer_eq best s :
  match best with None => Some s | Some b => if vs_WriteSeq b <=? vs_WriteSeq s then Some s else best end =
  newer best s.
Proof. done. Qed.

Lemma consumeLoop_spec samples t fuel : forall index best,
  (length samples <= index + fuel)%nat ->
  exists pre, drop index samples = pre ++ drop (consumeLoop fuel samples index t best).1 samples /\
    Forall (fun x => vs_Timestamp x = t) pre /\
    (consumeLoop fuel samples index t best).2 = foldl newer best pre /\
    (forall s, head (drop (consumeLoop fuel samples index t best).1 samples) = Some s -> vs_Timestamp s <> t).
Proof.
  induction fuel as [|fuel IH]; intros index best Hf; simpl.
  { exists []. split_and!; try done. rewrite drop_ge by lia. done. }
  destruct (samples !! index) as [s|] eqn:Es.
  - zcase (vs_Timestamp s =? t).
    + destruct (IH (S index) (newer best s)) as (pre & E1 & E2 & E3 & E4); [lia|]. rewrite newer_eq.
      exists (s :: pre). rewrite (drop_S _ _ _ Es). split_and!; [simpl; by rewrite E1|by constructor|done|done].
    + exists []. split_and!; try done. intros s' Hs'. cbn [fst] in Hs'. rewrite (drop_S _ _ _ Es) in Hs'. by simplify_eq/=.
  - exists []. split_and!; try done. rewrite drop_ge by (by apply lookup_ge_None). done.
Qed.

(** The suffix of an ordered list behind the elements of its first instant
    comes strictly later. *)
Lemma sorted_suffix_gt (l pre rest : list VersionedSample) t :
  StronglySorted ts_le l -> l = pre ++ rest -> Forall (fun x => t <= vs_Timestamp x) l ->
  (forall s, head rest = Some s -> vs_Timestamp s <> t) -> Forall (fun x => t < vs_Timestamp x) rest.
Proof.
  intros Hs -> HF Hh. apply StronglySorted_app_1_r in Hs. apply Forall_app in HF as [_ HF].
  destruct rest as [|s rest]; [constructor|]. specialize (Hh s eq_refl).
  apply Forall_cons in HF as [Hst _]. apply StronglySorted_inv in Hs as [_ Hs].
  constructor; [lia|]. eapply Forall_impl; [exact Hs|]. unfold ts_le. simpl. lia.
Qed.

(** ** One round of a merge *)
Lemma at_time_none t l : Forall (fun x => vs_Timestamp x <> t) l -> at_time t l = [].
Proof. unfold at_time. induction 1; [done|]. rewrite filter_cons. by rewrite decide_False. Qed.
Lemma at_time_all t l : Forall (fun x => vs_Timestamp x = t) l -> at_time t l = l.
Proof. unfold at_time. induction 1 as [|x l Hx Hl IH]; [done|]. rewrite filter_cons, decide_True by done. by f_equal. Qed.

(** [cut t l pre rest]: the elements of [l] at [t] are its prefix [pre]. *)
Definition cut (t : Z) (l pre rest : list VersionedSample) : Prop :=
  l = pre ++ rest /\ Forall (fun x => vs_Timestamp x = t) pre /\ Forall (fun x => t < vs_Timestamp x) rest.

Lemma at_time_cuts t ls pres rests : Forall3 (cut t) ls pres rests ->
  at_time t (concat ls) = concat pres /\
  (forall t', t' <> t -> at_time t' (concat ls) = at_time t' (concat rests)) /\
  Forall (fun x => t < vs_Timestamp x) (concat rests).
Proof.
  induction 1 as [|l pre rest ls pres rests (-> & Hpre & Hrest) HF (IH1 & IH2 & IH3)]; simpl; [by repeat constructor|].
  split_and!.
  - rewrite !at_time_app, IH1, (at_time_all t pre) by done. rewrite (at_time_none t rest), app_nil_r; [done|].
    eapply Forall_impl; [exact Hrest|]. simpl. lia.
  - intros t' Ht. rewrite !at_time_app, IH2 by done. rewrite (at_time_none t' pre); [done|].
    eapply Forall_impl; [exact Hpre|]. simpl. lia.
  - by apply Forall_app.
Qed.

Lemma picks_step t ls pres rests s out : Forall3 (cut t) ls pres rests ->
  newest (concat pres) = Some s -> picks (concat rests) out -> picks (concat ls) (s :: out).
Proof.
  intros HF Hs [Ho Hp]. destruct (at_time_cuts t ls pres rests HF) as (E1 & E2 & E3).
  assert (vs_Timestamp s = t) as Et by (rewrite <- E1 in Hs; by apply newest_time in Hs).
  assert (forall x, x ∈ out -> t < vs_Timestamp x) as Hgt.
  { intros x Hx%Hp. apply newest_elem in Hx. apply list_elem_of_filter in Hx as [_ Hx].
    rewrite Forall_forall in E3. by apply E3. }
  split.
  - constructor; [done|]. apply Forall_forall. intros x Hx. unfold ts_lt. rewrite Et. by apply Hgt.
  - intros x. rewrite elem_of_cons. destruct (decide (vs_Timestamp x = t)) as [Ex|Hne].
    + rewrite Ex, E1, Hs. split; [intros [->|Hx]; [done|apply Hgt in Hx; lia]|intros [= ->]; by left].
    + rewrite E2 by done. rewrite <- Hp. split; [intros [->|?]; [done|done]|auto].
Qed.

Lemma picks_nil : picks [] [].
Proof. apply (latest_picks []). Qed.

(** ** One column *)
Lemma dedupeOrdered_picks samples fuel : StronglySorted ts_le samples -> forall index,
  (length samples <= index + fuel)%nat ->
  picks (drop index samples) (dedupeOrderedLoop fuel samples index).
Proof.
  intros Hs. induction fuel as [|fuel IH]; intros index Hf; simpl.
  { rewrite drop_ge by lia. apply picks_nil. }
  destruct (samples !! index) as [s|] eqn:Es;
    [|rewrite drop_ge by (by apply lookup_ge_None); apply picks_nil].
  destruct (consumeLoop_spec samples (vs_Timestamp s) (length samples) (S index) (Some s))
    as (pre & E1 & E2 & E3 & E4); [lia|].
  destruct (consumeLoop (length samples) samples (S index) (vs_Timestamp s) (Some s)) as [index' best].
  simpl in *. subst best.
  assert (StronglySorted ts_le (drop index samples)) as Hd.
  { rewrite <- (take_drop index samples) in Hs. by apply StronglySorted_app_1_r in Hs. }
  rewrite (drop_S _ _ _ Es) in *.
  assert (cut (vs_Timestamp s) (s :: drop (S index) samples) (s :: pre) (drop index' samples)) as Hcut.
  { split; [simpl; by rewrite <- E1|]. split; [by constructor|].
    eapply (sorted_suffix_gt _ (s :: pre)); [exact Hd|simpl; by rewrite <- E1| |done].
    apply StronglySorted_inv in Hd as [_ Hd]. by constructor. }
  destruct (foldl newer (Some s) pre) as [b|] eqn:Eb.
  - simpl. rewrite <- (app_nil_r (s :: drop (S index) samples)).
    apply (picks_step (vs_Timestamp s) [_] [_] [_] _ _ (Forall3_cons _ _ _ _ _ _ _ Hcut (Forall3_nil _))).
    + simpl. rewrite app_nil_r. exact Eb.
    + simpl. rewrite app_nil_r. apply IH.
      pose proof (f_equal length E1) as El. rewrite length_app, !length_drop in El.
      apply lookup_lt_Some in Es. destruct (decide (index' <= length samples)%nat); lia.
  - exfalso. clear - Eb. revert s Eb. induction pre as [|x pre IH]; intros s; simpl; [done|].
    case_match; apply IH.
Qed.

(** ** Any number of columns *)
Definition remaining (columns : list ColumnData) (positions : list nat) : list (list VersionedSample) :=
  zip_with (fun c p => drop p (cd_Samples c)) columns positions.
Definition ordered_column (c : ColumnData) : Prop := StronglySorted ts_le (cd_Samples c).

Lemma sorted_drop (R : relation VersionedSample) n l : StronglySorted R l -> StronglySorted R (drop n l).
Proof. intros Hs. rewrite <- (take_drop n l) in Hs. by apply StronglySorted_app_1_r in Hs. Qed.

Lemma consumeAll_spec columns t : Forall ordered_column columns -> forall positions best,
  Forall (Forall (fun x => t <= vs_Timestamp x)) (remaining columns positions) ->
  length positions = length columns ->
  exists pres, Forall3 (cut t) (remaining columns positions) pres
      (remaining columns (consumeAll columns positions t best).1) /\
    (consumeAll columns positions t best).2 = foldl newer best (concat pres) /\
    length (consumeAll columns positions t best).1 = length columns.
Proof.
  induction 1 as [|c columns Hc HF IH]; intros [|p positions] best Hge Hlen; try done.
  { exists []. split; [constructor|done]. }
  simpl in *. apply Forall_cons in Hge as [Hge1 Hge2].
  destruct (consumeLoop_spec (cd_Samples c) t (length (cd_Samples c)) p best) as (pre & E1 & E2 & E3 & E4); [lia|].
  destruct (consumeLoop (length (cd_Samples c)) (cd_Samples c) p t best) as [p' best']. simpl in *. subst best'.
  destruct (IH positions (foldl newer best pre) Hge2 ltac:(lia)) as (pres & H1 & H2 & H3).
  destruct (consumeAll columns positions t (foldl newer best pre)) as [ps best']. simpl in *.
  exists (pre :: pres). split_and!; [|by rewrite H2; simpl; rewrite foldl_app|lia].
  constructor; [|done]. split; [done|]. split; [done|].
  by eapply sorted_suffix_gt; [apply sorted_drop, Hc|exact E1|..].
Qed.

Lemma minStep_spec columns positions : forall acc,
  match foldl minStep acc (zip columns positions) with
  | None => acc = None /\ concat (remaining columns positions) = []
  | Some t => (acc = Some t \/ exists s, s ∈ (remaining columns positions ≫= fun l => option_list (head l)) /\ vs_Timestamp s = t) /\
      match acc with Some m => t <= m | None => True end /\
      Forall (fun l => forall s, head l = Some s -> t <= vs_Timestamp s) (remaining columns positions)
  end.
Proof.
  revert positions. induction columns as [|c columns IH]; intros [|p positions] acc; simpl;
    try (by destruct acc; simpl; auto with lia).
  specialize (IH positions (minStep acc (c, p))).
  assert (forall s, head (drop p (cd_Samples c)) = Some s <-> cd_Samples c !! p = Some s) as Hhead.
  { intros s. rewrite head_lookup, lookup_drop, Nat.add_0_r. done. }
  destruct (foldl minStep (minStep acc (c, p)) (zip columns positions)) as [t|] eqn:E.
  - destruct IH as (H1 & H2 & H3). unfold minStep in *. simpl in *.
    destruct (cd_Samples c !! p) as [s|] eqn:Es.
    + rewrite (proj2 (Hhead s) eq_refl). simpl. split_and!.
      * destruct acc as [m|]; [zcase (vs_Timestamp s <? m)|]; destruct H1 as [[= <-]|(s' & ? & ?)]; auto;
          right; eexists; (split; [|done]); by constructor.
      * destruct acc as [m|]; [|done]. zcase (vs_Timestamp s <? m); simpl in *; lia.
      * constructor; [|done]. intros s' Hs'. apply Hhead in Hs'. simplify_eq.
        destruct acc as [m|]; [|done]. zcase (vs_Timestamp s' <? m); simpl in *; lia.
    + assert (head (drop p (cd_Samples c)) = None) as ->.
      { destruct (head _) as [v|]; [|done]. by pose proof (proj1 (Hhead v) eq_refl). }
      simpl. split_and!; [done|done|]. constructor; [|done]. intros s Hs. by apply Hhead in Hs.
  - destruct IH as [H1 H2]. unfold minStep in H1. simpl in H1.
    destruct (cd_Samples c !! p) as [s|] eqn:Es; [destruct acc as [m|]; [zcase (vs_Timestamp s <? m)|]; done|].
    split; [done|]. rewrite H2, app_nil_r. apply drop_ge. by apply lookup_ge_None.
Qed.

Lemma nextMin_spec columns positions : Forall ordered_column columns ->
  match nextMinTimestamp columns positions with
  | None => concat (remaining columns positions) = []
  | Some t => Forall (Forall (fun x => t <= vs_Timestamp x)) (remaining columns positions) /\
      exists s, s ∈ concat (remaining columns positions) /\ vs_Timestamp s = t
  end.
Proof.
  intros Ho. unfold nextMinTimestamp. pose proof (minStep_spec columns positions None) as H.
  destruct (foldl minStep None (zip columns positions)) as [t|]; [|by destruct H].
  destruct H as ([H1|(s & Hs & Ht)] & _ & H3); [done|]. split.
  - assert (Forall (StronglySorted ts_le) (remaining columns positions)) as Hso.
    { clear - Ho. revert positions. induction Ho; intros [|p ps]; simpl; constructor; [by apply sorted_drop|done]. }
    clear - H3 Hso. induction Hso as [|l ls Hl HF IH]; [constructor|]. apply Forall_cons in H3 as [Hh H3].
    constructor; [|by apply IH]. destruct l as [|x l]; [constructor|].
    apply StronglySorted_inv in Hl as [_ Hl]. specialize (Hh x eq_refl). constructor; [done|].
    eapply Forall_impl; [exact Hl|]. unfold ts_le. simpl. lia.
  - exists s. split; [|done]. clear - Hs. induction (remaining columns positions) as [|l ls IH]; [done|].
    simpl in *. rewrite elem_of_app in *. destruct Hs as [Hs|Hs]; [left|by right; apply IH].
    destruct l; simpl in *; [by apply elem_of_nil in Hs|]. apply list_elem_of_singleton in Hs as ->. left.
Qed.

Lemma foldl_newer_some l : forall b, l <> [] \/ is_Some b -> is_Some (foldl newer b l).
Proof.
  induction l as [|x l IH]; intros b Hb; simpl; [by destruct Hb|]. apply IH. right.
  unfold newer. destruct b; [case_match|]; by eexists.
Qed.

(** A round of the merge: everything at the least timestamp is consumed. *)
Lemma merge_round columns positions t : Forall ordered_column columns ->
  length positions = length columns -> nextMinTimestamp columns positions = Some t ->
  exists pres s positions', consumeAll columns positions t None = (positions', Some s) /\
    Forall3 (cut t) (remaining columns positions) pres (remaining columns positions') /\
    newest (concat pres) = Some s /\ length positions' = length columns /\
    (length (concat (remaining columns positions')) < length (concat (remaining columns positions)))%nat.
Proof.
  intros Ho Hlen Ht. pose proof (nextMin_spec columns positions Ho) as Hm. rewrite Ht in Hm.
  destruct Hm as (Hge & s0 & Hs0 & Et).
  destruct (consumeAll_spec columns t Ho positions None Hge Hlen) as (pres & H3 & Hbest & Hlen').
  destruct (consumeAll columns positions t None) as [positions' best]. simpl in *.
  destruct (at_time_cuts t _ _ _ H3) as (E1 & _ & _).
  assert (concat pres <> []) as Hne.
  { rewrite <- E1. intros E. apply (not_elem_of_nil s0). rewrite <- E. by apply list_elem_of_filter. }
  destruct (foldl_newer_some (concat pres) None) as [s Es]; [by left|]. rewrite Es in Hbest. subst best.
  exists pres, s, positions'. split_and!; try done.
  assert (length (concat (remaining columns positions)) =
    length (concat pres) + length (concat (remaining columns positions')))%nat as El.
  { clear - H3. induction H3 as [|???? ? ? (-> & _)]; simpl; [done|]. rewrite !length_app. lia. }
  destruct (concat pres); [done|]. simpl in El. lia.
Qed.

Lemma mergeLoop_picks fuel columns : Forall ordered_column columns -> forall positions,
  length positions = length columns ->
  (length (concat (remaining columns positions)) <= fuel)%nat ->
  picks (concat (remaining columns positions)) (mergeLoop fuel columns positions).
Proof.
  intros Ho. induction fuel as [|fuel IH]; intros positions Hlen Hf; simpl.
  { destruct (concat _) eqn:E; [|simpl in Hf; lia]. apply picks_nil. }
  destruct (nextMinTimestamp columns positions) as [t|] eqn:Et.
  - destruct (merge_round columns positions t Ho Hlen Et) as (pres & s & ps & -> & H3 & Hs & Hl & Hlt).
    simpl. eapply picks_step; [exact H3|exact Hs|]. apply IH; [done|lia].
  - pose proof (nextMin_spec columns positions Ho) as Hm. rewrite Et in Hm. rewrite Hm. apply picks_nil.
Qed.

Lemma remaining_start columns : remaining columns (replicate (length columns) 0%nat) = cd_Samples <$> columns.
Proof.
  induction columns as [|c columns IH]; simpl; [done|].
  change (cd_Samples c :: remaining columns (replicate (length columns) 0%nat) = cd_Samples c :: (cd_Samples <$> columns)).
  by rewrite IH.
Qed.
Lemma totalSampleCount_concat columns : totalSampleCount columns = length (concat (cd_Samples <$> columns)).
Proof. induction columns as [|c columns IH]; simpl; [done|]. by rewrite length_app, IH. Qed.

(** Two columns are the general case with two positions. *)
Lemma mergeTwoLoop_mergeLoop c d fuel : forall i j,
  mergeTwoLoop fuel (cd_Samples c) (cd_Samples d) i j = Ok (mergeLoop fuel [c; d] [i; j]).
Proof.
  induction fuel as [|fuel IH]; intros i j; simpl; [done|].
  assert (nextMinTimestamp [c; d] [i; j] =
    match cd_Samples c !! i, cd_Samples d !! j with
    | None, None => None
    | None, Some r => Some (vs_Timestamp r)
    | Some l, None => Some (vs_Timestamp l)
    | Some l, Some r => Some (if vs_Timestamp l <? vs_Timestamp r then vs_Timestamp l else vs_Timestamp r)
    end) as ->.
  { unfold nextMinTimestamp, minStep. simpl. destruct (cd_Samples c !! i), (cd_Samples d !! j); try done.
    zcase (vs_Timestamp v0 <? vs_Timestamp v); zcase (vs_Timestamp v <? vs_Timestamp v0); try done; try lia.
    f_equal. lia. }
  unfold nextTwoTimestamp, consumeTimestamp.
  destruct (cd_Samples c !! i) as [l|] eqn:El, (cd_Samples d !! j) as [r|] eqn:Er.
  - apply lookup_lt_Some in El as Hi. rewrite bool_decide_true by auto.
    destruct (vs_Timestamp l <? vs_Timestamp r); simpl;
      repeat (destruct (consumeLoop _ _ _ _ _) as [? ?]; simpl); by rewrite IH.
  - apply lookup_lt_Some in El as Hi. rewrite bool_decide_true by auto. simpl.
    repeat (destruct (consumeLoop _ _ _ _ _) as [? ?]; simpl); by rewrite IH.
  - apply lookup_lt_Some in Er as Hi. rewrite bool_decide_true by auto. simpl.
    repeat (destruct (consumeLoop _ _ _ _ _) as [? ?]; simpl); by rewrite IH.
  - apply lookup_ge_None in El, Er. rewrite bool_decide_false by lia. done.
Qed.

Lemma mergeOrderedSamples_latest columns : columns <> [] -> Forall ordered_column columns ->
  mergeOrderedSamples columns = Ok (latest (concat (cd_Samples <$> columns))).
Proof.
  intros Hne Ho.
  assert (mergeLoop (totalSampleCount columns) columns (replicate (length columns) 0%nat) =
    latest (concat (cd_Samples <$> columns))) as Hk.
  { apply picks_latest. rewrite <- remaining_start. apply mergeLoop_picks; [done|by rewrite length_replicate|].
    rewrite remaining_start, totalSampleCount_concat. lia. }
  unfold mergeOrderedSamples. destruct columns as [|c [|d [|e columns]]]; [done|..].
  - f_equal. apply picks_latest. simpl. rewrite app_nil_r.
    rewrite <- (drop_0 (cd_Samples c)) at 1. apply (dedupeOrdered_picks (cd_Samples c)); [by apply Forall_inv in Ho|lia].
  - unfold mergeTwoOrderedSamples. rewrite mergeTwoLoop_mergeLoop. f_equal. rewrite <- Hk. simpl.
    by rewrite Nat.add_0_r.
  - by rewrite Hk.
Qed.

(** ** The fallback *)
Lemma byTimeStep_lookup m x t :
  byTimeStep m x !! t = if decide (vs_Timestamp x = t) then newer (m !! t) x else m !! t.
Proof.
  unfold byTimeStep, newer. case_decide as Ht; [subst t|];
    destruct (m !! vs_Timestamp x) as [b|] eqn:Eb; repeat case_match;
    rewrite ?lookup_insert_eq, ?lookup_insert_ne by done; congruence.
Qed.
Lemma byTime_newest xs t : foldl byTimeStep ∅ xs !! t = newest (at_time t xs).
Proof.
  induction xs as [|x xs IH] using rev_ind; [done|].
  rewrite foldl_app, at_time_app. simpl. unfold at_time at 2. rewrite filter_cons, filter_nil.
  rewrite byTimeStep_lookup, IH. case_decide; [by rewrite newest_snoc|by rewrite app_nil_r].
Qed.

Section merge.
  Context `{GoRuntimeLaws}.

Lemma mergeSamples_latest sid fid ft xs :
  mergeSamples sid fid ft xs = mkColumnData sid fid ft (latest xs).
Proof.
  unfold mergeSamples. f_equal. apply picks_latest. set (byTime := foldl byTimeStep ∅ xs).
  set (less := fun x y => vs_Timestamp x <? vs_Timestamp y).
  assert (forall x, x ∈ (map_range byTime).*2 <-> newest (at_time (vs_Timestamp x) xs) = Some x) as Hin.
  { intros x. rewrite (map_range_perm byTime), list_elem_of_fmap. split.
    - intros ([t y] & -> & Hy%elem_of_map_to_list). unfold byTime in Hy. rewrite byTime_newest in Hy.
      simpl. by rewrite (newest_time _ _ _ Hy).
    - intros Hx. exists (vs_Timestamp x, x). split; [done|]. apply elem_of_map_to_list.
      unfold byTime. by rewrite byTime_newest. }
  split; [|intros x; by rewrite sort_Slice_perm].
  assert (NoDup (sort_Slice less (map_range byTime).*2)) as Hnd.
  { rewrite sort_Slice_perm, (map_range_perm byTime). apply NoDup_fmap_2_strong; [|apply NoDup_map_to_list].
    intros [t x] [t' y] Hx%elem_of_map_to_list Hy%elem_of_map_to_list. simpl. intros ->.
    unfold byTime in *. rewrite byTime_newest in Hx, Hy. by rewrite <- (newest_time _ _ _ Hx), <- (newest_time _ _ _ Hy). }
  assert (StronglySorted (not_after less) (sort_Slice less (map_range byTime).*2)) as Hs
    by apply sort_Slice_sorted, weak_order_key.
  assert (forall x, x ∈ sort_Slice less (map_range byTime).*2 -> newest (at_time (vs_Timestamp x) xs) = Some x) as Hn
    by (intros x; rewrite sort_Slice_perm; apply Hin).
  clear Hin. induction Hs as [|x l Hs IH Hx]; [constructor|]. apply NoDup_cons in Hnd as [Hnin Hnd].
  constructor; [apply IH; [done|intros y Hy; apply Hn; by right]|].
  rewrite Forall_forall in *. intros y Hy. specialize (Hx y Hy). unfold not_after, less in Hx.
  apply Z.ltb_ge in Hx. unfold ts_lt. destruct (decide (vs_Timestamp x = vs_Timestamp y)) as [E|]; [|lia].
  pose proof (Hn x ltac:(left)) as Hnx. pose proof (Hn y ltac:(by right)) as Hny. rewrite E in Hnx.
  simplify_eq. done.
Qed.

Lemma latest_sorted_id xs : StronglySorted ts_lt xs -> latest xs = xs.
Proof.
  intros Hs. symmetry. apply picks_latest. split; [done|]. intros x.
  assert (forall y, y ∈ xs -> newest (at_time (vs_Timestamp y) xs) = Some y) as Hy.
  { intros y Hin. destruct (newest (at_time (vs_Timestamp y) xs)) as [z|] eqn:Ez.
    - f_equal. pose proof (newest_time _ _ _ Ez). apply newest_elem in Ez.
      apply list_elem_of_filter in Ez as [_ Ez]. by eapply ts_sorted_inj.
    - destruct (foldl_newer_some (at_time (vs_Timestamp y) xs) None) as [z Hz]; [|unfold newest in Ez; congruence].
      left. intros E. apply (not_elem_of_nil y). rewrite <- E. by apply list_elem_of_filter. }
  split; [apply Hy|]. intros Hx%newest_elem. by apply list_elem_of_filter in Hx as [_ Hx].
Qed.

(** Every routine computes the newest version per timestamp of all samples. *)
Lemma mergeColumnGroup_latest c columns :
  mergeColumnGroup (c :: columns) =
    Ok (mkColumnData (cd_SeriesID c) (cd_FieldID c) (cd_FieldType c)
          (latest (concat (cd_Samples <$> (c :: columns))))).
Proof.
  unfold mergeColumnGroup. rewrite (idx_Z (c :: columns) 0 c) by done. cbn [mbind outcome_bind].
  destruct ((len (c :: columns) =? 1) && samplesStrictlyIncreasing (cd_Samples c)) eqn:E.
  - apply andb_true_iff in E as [El Es]. apply Z.eqb_eq in El.
    destruct columns; [|unfold len in El; simpl in El; lia]. simpl. rewrite app_nil_r.
    rewrite latest_sorted_id by by apply strictlyIncreasing_sorted. by destruct c.
  - destruct (columnsSamplesOrdered (c :: columns)) eqn:Eo.
    + rewrite mergeOrderedSamples_latest; [done|done|]. unfold columnsSamplesOrdered in Eo.
      rewrite forallb_forall in Eo. apply Forall_forall. intros d Hd. apply samplesOrdered_sorted, Eo.
      by apply list_elem_of_In.
    + unfold mergeSamplesFallback. by rewrite mergeSamples_latest.
Qed.

(** ** All columns *)
Lemma sameColumn_key c d : sameColumn c d = true <-> keyOf d = keyOf c.
Proof.
  unfold sameColumn, keyOf. rewrite andb_true_iff, !Z.eqb_eq.
  split; [intros [-> ->]; done|intros [= -> ->]; done].
Qed.

Lemma takeSame_spec c l : let '(run, rest) := takeSame c l in
  l = run ++ rest /\ (forall d, d ∈ run -> keyOf d = keyOf c) /\
  (forall d, head rest = Some d -> keyOf d <> keyOf c).
Proof.
  induction l as [|d l IH]; simpl; [by split_and!; [|intros ? ?%elem_of_nil|]|].
  destruct (sameColumn c d) eqn:E.
  - destruct (takeSame c l) as [run rest]. destruct IH as (-> & H1 & H2). split_and!; [done| |done].
    intros e [->|He]%elem_of_cons; [by apply sameColumn_key|by apply H1].
  - split_and!; [done|by intros ? ?%elem_of_nil|]. intros e [= <-] Hk. apply sameColumn_key in Hk. congruence.
Qed.

Lemma columnDataLess_false c d : columnDataLess d c = false -> keyOf c = keyOf d \/ column_lt c d.
Proof.
  unfold columnDataLess, column_lt, key_lt, keyOf. simpl.
  destruct (cd_SeriesID d =? cd_SeriesID c) eqn:Es; simpl; [apply Z.eqb_eq in Es|apply Z.eqb_neq in Es];
    intros Hl; apply Z.ltb_ge in Hl; [|right; lia]. rewrite Es.
  destruct (decide (cd_FieldID c = cd_FieldID d)) as [->|]; [by left|right; lia].
Qed.

Lemma mergeGroups_merged fuel : forall columns, (length columns <= fuel)%nat ->
  StronglySorted (not_after columnDataLess) columns ->
  exists out, mergeGroups fuel columns = Ok out /\ merged columns out.
Proof.
  induction fuel as [|fuel IH]; intros columns Hlen Hs.
  { destruct columns; [|simpl in Hlen; lia]. exists []. split; [done|apply merged_nil]. }
  destruct columns as [|c columns]; [exists []; split; [done|apply merged_nil]|].
  cbn [mergeGroups]. pose proof (takeSame_spec c columns) as Ht.
  destruct (takeSame c columns) as [run rest]. destruct Ht as (-> & Hrun & Hrest).
  rewrite mergeColumnGroup_latest. cbn [mbind outcome_bind].
  apply StronglySorted_inv in Hs as [Hs Hc]. apply Forall_app in Hc as [_ Hc].
  assert (forall d, d ∈ rest -> key_lt (keyOf c) (keyOf d)) as Hgt.
  { apply StronglySorted_app_1_r in Hs. destruct rest as [|e rest]; [by intros ? ?%elem_of_nil|].
    specialize (Hrest e eq_refl). apply Forall_cons in Hc as [Hce _].
    destruct (columnDataLess_false c e Hce) as [E|Hlt]; [congruence|].
    apply StronglySorted_inv in Hs as [_ Hs]. rewrite Forall_forall in Hs.
    intros d [->|Hd]%elem_of_cons; [done|]. destruct (columnDataLess_false e d (Hs d Hd)) as [E|Hlt'].
    - by rewrite <- E.
    - by etrans. }
  destruct (IH rest) as (out & -> & Hm); [simpl in Hlen; rewrite length_app in Hlen; lia|
    by apply StronglySorted_app_1_r in Hs|].
  simpl. eexists. split; [done|].
  apply (merged_step (keyOf c) (c :: run) rest); try done.
  - intros d [->|Hd]%elem_of_cons; [done|by apply Hrun].
  - exists c. split; [left|done].
  - simpl. apply latest_resolves.
Qed.

(** Merging columns succeeds and returns one resolved column per key. *)
Lemma mergeColumnData_merged columns :
  exists out, mergeColumnData columns = Ok out /\ merged columns out.
Proof.
  unfold mergeColumnData, sortColumnData.
  destruct (mergeGroups_merged (length columns) (sort_Slice columnDataLess columns)) as (out & E & Hm).
  - by rewrite sort_Slice_perm.
  - apply sort_Slice_sorted, (weak_order_lex cd_SeriesID cd_FieldID).
  - exists out. split; [done|]. pose proof (sort_Slice_perm columnDataLess columns) as Hp. split; [apply Hm|..].
    + intros c Hc. destruct (mg_column _ _ Hm c Hc) as [(d & Hd & ?) Hr]. split; [exists d; by rewrite <- Hp|].
      unfold of_column in *. eapply resolves_ext; [|exact Hr]. intros x. by rewrite Hp.
    + intros d. rewrite <- Hp. apply Hm.
Qed.
End merge.
