(* ===== verification/Tombstones.v ===== *)
(** * Deletions (internal/engine/tombstone.go)

    A tombstone hides the versions of a time range, of some series and fields,
    that were written up to its own sequence number.  Hiding is upward closed
    in the sequence number, so it commutes with merging versions.  The last
    part relates stores that answer alike. *)
From S2P Require Import Prelude Model Runtime Versions MemCompact StoreSpec.
From stdpp Require Import prelude strings list sorting.
From stdpp Require Import prelude strings list sorting gmap.
From Stdlib Require Import ZArith Lia.
#[local] Open Scope Z_scope.

(** [idMatches], [id32Matches] *)
Definition idMatches (filter : list Z) (id : Z) : bool :=
  if len filter =? 0 then true else existsb (fun value => value =? id) filter.

Definition tombstoneWriteSeq (tombstone : Tombstone) : Z :=
  if ts_WriteSeq tombstone =? 0 then 2 ^ 64 - 1 else ts_WriteSeq tombstone.

Definition tombstoneMatches (column : ColumnData) (sample : VersionedSample) (tombstone : Tombstone) : bool :=
  if (vs_Timestamp sample <? ts_StartTime tombstone) || (ts_EndTime tombstone <? vs_Timestamp sample) then false
  else if tombstoneWriteSeq tombstone <? vs_WriteSeq sample then false
  else idMatches (ts_SeriesIDs tombstone) (cd_SeriesID column) && idMatches (ts_FieldIDs tombstone) (cd_FieldID column).

Definition sampleDeleted (column : ColumnData) (sample : VersionedSample) (tombstones : list Tombstone) : bool :=
  existsb (tombstoneMatches column sample) tombstones.

(** [samples := column.Samples[:0]; ... append(samples, sample)]: the kept
    samples overwrite a prefix of the array that the loop has already read. *)
Fixpoint filterInPlace {A} (keep : A -> bool) (n read write : nat) (arr : list A) : list A :=
  match n with
  | O => take write arr
  | S n' =>
      match arr !! read with
      | None => take write arr
      | Some x =>
          if keep x then filterInPlace keep n' (S read) (S write) (<[write := x]> arr)
          else filterInPlace keep n' (S read) write arr
      end
  end.

Definition filterTombstonedSamples (column : ColumnData) (tombstones : list Tombstone) : list VersionedSample :=
  filterInPlace (fun s => negb (sampleDeleted column s tombstones)) (length (cd_Samples column)) 0 0
    (cd_Samples column).

Definition withSamples (column : ColumnData) (samples : list VersionedSample) : ColumnData :=
  mkColumnData (cd_SeriesID column) (cd_FieldID column) (cd_FieldType column) samples.

Definition applyTombstones (columns : list ColumnData) (tombstones : list Tombstone) : list ColumnData :=
  if (len columns =? 0) || (len tombstones =? 0) then columns
  else
    foldl (fun out column =>
             let column := withSamples column (filterTombstonedSamples column tombstones) in
             if 0 <? len (cd_Samples column) then out ++ [column] else out) [] columns.

(** * Proofs *)
Lemma filterInPlace_filter {A} (keep : A -> bool) l : forall out junk,
  filterInPlace keep (length l) (length out + length junk) (length out) (out ++ junk ++ l) =
  out ++ filter keep l.
Proof.
  induction l as [|x l IH]; intros out junk.
  { simpl. by rewrite !app_nil_r, take_app_length. }
  cbn [length filterInPlace]. rewrite lookup_app_r, lookup_app_r by lia.
  replace (length out + length junk - length out - length junk)%nat with 0%nat by lia.
  cbn [lookup list_lookup]. rewrite filter_cons. destruct (keep x); simpl.
  - rewrite insert_app_r_alt, Nat.sub_diag by lia. destruct junk as [|z junk]; simpl.
    + specialize (IH (out ++ [x]) []). rewrite length_app in IH. simpl in IH. rewrite <- !(assoc_L (++)) in IH.
      by replace (length out + 1 + 0)%nat with (S (length out + 0)) in IH by lia;
        replace (length out + 1)%nat with (S (length out)) in IH by lia.
    + specialize (IH (out ++ [x]) (junk ++ [x])). rewrite !length_app in IH. simpl in IH.
      rewrite <- !(assoc_L (++)) in IH. simpl in IH.
      by replace (length out + 1 + (length junk + 1))%nat with (S (length out + S (length junk))) in IH by lia;
        replace (length out + 1)%nat with (S (length out)) in IH by lia.
  - specialize (IH out (junk ++ [x])). rewrite length_app in IH. simpl in IH. rewrite <- (assoc_L (++)) in IH.
    by replace (length out + (length junk + 1))%nat with (S (length out + length junk)) in IH by lia.
Qed.

(** The versions of a column that survive. *)
Definition alive (tombstones : list Tombstone) (k : Z * Z) (s : VersionedSample) : bool :=
  negb (sampleDeleted (mkColumnData k.1 k.2 0 []) s tombstones).

Lemma alive_key tombstones c s : alive tombstones (keyOf c) s = negb (sampleDeleted c s tombstones).
Proof. done. Qed.

Lemma filterTombstoned_filter c tombstones :
  filterTombstonedSamples c tombstones = filter (alive tombstones (keyOf c)) (cd_Samples c).
Proof.
  unfold filterTombstonedSamples. rewrite <- (app_nil_l (filter _ _)).
  exact (filterInPlace_filter (alive tombstones (keyOf c)) (cd_Samples c) [] []).
Qed.

Lemma withSamples_restrict c tombstones :
  withSamples c (filterTombstonedSamples c tombstones) = restrict (alive tombstones) c.
Proof. unfold withSamples, restrict. by rewrite filterTombstoned_filter. Qed.

(** A newer version of a surviving sample survives. *)
Lemma alive_up_closed tombstones k : up_closed (alive tombstones k).
Proof.
  intros x y Hx [Et Es]. unfold alive in *. apply negb_true_iff. apply negb_true_iff in Hx.
  unfold sampleDeleted in *. induction tombstones as [|t ts IH]; [done|]. simpl in *.
  apply orb_false_iff in Hx as [Hm Hx]. apply orb_false_iff. split; [|by apply IH].
  unfold tombstoneMatches in *. rewrite Et. destruct (_ || _); [done|].
  zcase (tombstoneWriteSeq t <? vs_WriteSeq y); [done|]. zcase (tombstoneWriteSeq t <? vs_WriteSeq x); [lia|done].
Qed.

(** What a tombstone promises to hide: the versions, of the series and fields it
    names (all of them when it names none), inside its closed time range, whose
    write sequence number is not above its own; a tombstone without a number
    stands above all of them. *)
Record hides (t : Tombstone) (k : Z * Z) (s : VersionedSample) : Prop := {
  hd_time : ts_StartTime t <= vs_Timestamp s <= ts_EndTime t;
  hd_seq : vs_WriteSeq s <= (if decide (ts_WriteSeq t = 0) then 2 ^ 64 - 1 else ts_WriteSeq t);
  hd_series : ts_SeriesIDs t = [] \/ k.1 ∈ ts_SeriesIDs t;
  hd_field : ts_FieldIDs t = [] \/ k.2 ∈ ts_FieldIDs t }.

Lemma idMatches_spec ids id : idMatches ids id = true <-> ids = [] \/ id ∈ ids.
Proof.
  unfold idMatches. destruct ids as [|x ids]; [by split; auto|].
  replace (len (x :: ids) =? 0) with false by (symmetry; apply Z.eqb_neq; unfold len; simpl; lia).
  rewrite existsb_exists. split.
  - intros (y & Hy & E%Z.eqb_eq). right. subst. by apply list_elem_of_In.
  - intros [?|Hy]; [done|]. exists id. split; [by apply list_elem_of_In|apply Z.eqb_refl].
Qed.

Lemma tombstoneMatches_spec c s t : tombstoneMatches c s t = true <-> hides t (keyOf c) s.
Proof.
  unfold tombstoneMatches, tombstoneWriteSeq. split.
  - zcase (vs_Timestamp s <? ts_StartTime t); [done|]. zcase (ts_EndTime t <? vs_Timestamp s); [done|]. simpl.
    match goal with |- context [if ?b then false else _] => destruct b eqn:Eq; [done|] end.
    intros [?%idMatches_spec ?%idMatches_spec]%andb_true_iff. apply Z.ltb_ge in Eq.
    split; [lia| |done..]. case_decide as Hz; [by rewrite Hz in Eq|].
    revert Eq. zcase (ts_WriteSeq t =? 0); [lia|done].
  - intros [Ht Hs Hi Hf]. zcase (vs_Timestamp s <? ts_StartTime t); [lia|].
    zcase (ts_EndTime t <? vs_Timestamp s); [lia|]. simpl.
    match goal with |- context [if ?b then false else _] => destruct b eqn:Eq end.
    + apply Z.ltb_lt in Eq. exfalso. revert Eq. case_decide as Hz; [rewrite Hz; simpl; lia|].
      zcase (ts_WriteSeq t =? 0); lia.
    + apply andb_true_iff. by split; apply idMatches_spec.
Qed.

#[global] Instance hides_dec t k s : Decision (hides t k s).
Proof.
  refine (cast_if (decide (tombstoneMatches (mkColumnData k.1 k.2 0 []) s t = true)));
    rewrite tombstoneMatches_spec in *; by destruct k.
Defined.

(** The versions of a store that no tombstone hides. *)
Definition survivors (tombstones : list Tombstone) (V : contents) : contents :=
  fun k => filter (fun s => ~ Exists (fun t => hides t k s) tombstones) (V k).

Lemma survivors_alive tombstones V k : survivors tombstones V k = filter (alive tombstones k) (V k).
Proof.
  unfold survivors. apply list_filter_iff. intros s. unfold alive, sampleDeleted.
  rewrite Is_true_true, negb_true_iff, <- not_true_iff_false, existsb_exists, Exists_exists.
  apply not_iff_compat. setoid_rewrite tombstoneMatches_spec. setoid_rewrite list_elem_of_In. by destruct k.
Qed.

Lemma applyTombstones_restrict columns tombstones : (forall c, c ∈ columns -> cd_Samples c <> []) ->
  applyTombstones columns tombstones = restrict_all (alive tombstones) columns.
Proof.
  intros Hne. unfold applyTombstones. destruct ((len columns =? 0) || (len tombstones =? 0)) eqn:E.
  - apply orb_true_iff in E as [E%Z.eqb_eq|E%Z.eqb_eq].
    { destruct columns; [done|unfold len in E; simpl in E; lia]. }
    destruct tombstones; [|unfold len in E; simpl in E; lia].
    assert (restrict (alive []) <$> columns = columns) as Er.
    { clear Hne. induction columns as [|c columns IH]; [done|]. rewrite fmap_cons, IH. f_equal.
      unfold restrict. rewrite keep_all; [by destruct c|]. by apply Forall_forall. }
    unfold restrict_all. rewrite Er. symmetry. apply keep_all. apply Forall_forall.
    intros c Hc. apply Is_true_true, restrict_nonempty. by apply Hne.
  - clear E Hne. rewrite <- (app_nil_l (restrict_all _ _)). generalize (@nil ColumnData) at 2 3.
    unfold restrict_all. induction columns as [|c columns IH]; intros out; cbn [foldl]; [by rewrite app_nil_r|].
    rewrite IH, fmap_cons, filter_cons, withSamples_restrict. unfold len at 2.
    destruct (cd_Samples (restrict (alive tombstones) c)) as [|s l'] eqn:El; [done|].
    rewrite decide_True by done. simpl.
    zcase (0 <? len (s :: l')); [by rewrite <- (assoc_L (++))|unfold len in *; simpl in *; lia].
Qed.

(** * Stores that answer alike

    Two lists of versions agree when each one holds, for every version of the
    other, a version of the same instant that is at least as new.  Agreement is
    an equivalence that merging, windows and deletions respect; among versions
    told apart by their sequence numbers, stores that agree give the same
    answers.  This is what flushes and compactions preserve. *)
Definition covered (xs ys : list VersionedSample) : Prop := forall x, x ∈ xs -> exists y, y ∈ ys /\ supersedes y x.
Definition agree (xs ys : list VersionedSample) : Prop := covered xs ys /\ covered ys xs.

#[export] Instance covered_preorder : PreOrder covered.
Proof.
  split; [intros xs x Hx; exists x; split; [done|apply supersedes_refl]|].
  intros xs ys zs H1 H2 x Hx. destruct (H1 x Hx) as (y & Hy & E1 & L1). destruct (H2 y Hy) as (z & Hz & E2 & L2).
  exists z. split; [done|]. split; [congruence|lia].
Qed.
#[export] Instance agree_equivalence : Equivalence agree.
Proof.
  split; [by split|by intros ?? []|]. intros xs ys zs [] []. split; by etrans.
Qed.
Lemma covered_subset xs ys : xs ⊆ ys -> covered xs ys.
Proof. intros Hs x Hx. exists x. split; [by apply Hs|apply supersedes_refl]. Qed.
#[export] Instance covered_app : Proper (covered ==> covered ==> covered) (++).
Proof.
  intros xs xs' Hx ys ys' Hy z [Hz|Hz]%elem_of_app; [destruct (Hx z Hz) as (y & ? & ?)|destruct (Hy z Hz) as (y & ? & ?)];
    exists y; rewrite elem_of_app; auto.
Qed.
#[export] Instance agree_app : Proper (agree ==> agree ==> agree) (++).
Proof. intros xs xs' [] ys ys' []. split; by apply covered_app. Qed.
Lemma agree_same xs ys : (forall x, x ∈ xs <-> x ∈ ys) -> agree xs ys.
Proof. intros E. split; apply covered_subset; intros x; apply E. Qed.
(** Versions that are already covered add nothing. *)
Lemma agree_absorb xs ys : covered xs ys -> agree (xs ++ ys) ys.
Proof.
  intros Hc. split; [|apply covered_subset; set_solver]. intros x [Hx|Hx]%elem_of_app; [by apply Hc|].
  exists x. split; [done|apply supersedes_refl].
Qed.
Lemma covered_filter P xs ys : up_closed P -> covered xs ys -> covered (filter P xs) (filter P ys).
Proof.
  intros HP Hc x [HPx Hx]%list_elem_of_filter. destruct (Hc x Hx) as (y & Hy & Hs). exists y. split; [|done].
  apply list_elem_of_filter. split; [|done]. apply Is_true_true in HPx. apply Is_true_true. by eapply HP.
Qed.
Lemma agree_filter P xs ys : up_closed P -> agree xs ys -> agree (filter P xs) (filter P ys).
Proof. intros HP []. split; by apply covered_filter. Qed.
Lemma resolves_agree xs out : resolves xs out -> agree out xs.
Proof. intros Hr. split; [apply covered_subset; intros x; apply Hr|]. intros x. apply Hr. Qed.

(** Agreement determines what a reader sees. *)
Lemma agree_resolves xs ys out : versioned (xs ++ ys) -> agree xs ys -> resolves xs out -> resolves ys out.
Proof.
  intros Hv [H1 H2] Hr. split; [apply Hr|..].
  - intros x Hx. pose proof (rs_sound _ _ Hr x Hx) as Hxs. destruct (H1 x Hxs) as (y & Hy & E1 & L1).
    destruct (H2 y Hy) as (x' & Hx' & E2 & L2). destruct (rs_newest _ _ Hr x' Hx') as (z & Hz & E3 & L3).
    assert (z = x) as -> by (eapply ts_sorted_inj; [apply Hr|done|done|congruence]).
    assert (y = x) as <-; [|done]. apply Hv; [set_solver|set_solver|congruence|lia].
  - intros y Hy. destruct (H2 y Hy) as (x & Hx & E1 & L1). destruct (rs_newest _ _ Hr x Hx) as (z & Hz & E2 & L2).
    exists z. split; [done|]. split; [congruence|lia].
Qed.

(** ** Contents *)
Definition agrees (V V' : contents) : Prop := forall k, agree (V k) (V' k).
#[export] Instance agrees_equivalence : Equivalence agrees.
Proof.
  split; [intros V k; reflexivity|intros V V' H k; by symmetry|]. intros V1 V2 V3 H1 H2 k. etrans; [apply H1|apply H2].
Qed.
Definition both (V V' : contents) : contents := fun k => V k ++ V' k.
#[export] Instance plus_agrees : Proper (agrees ==> agrees ==> agrees) both.
Proof. intros V V' H1 U U' H2 k. by apply agree_app. Qed.
#[export] Instance survivors_agrees ts : Proper (agrees ==> agrees) (survivors ts).
Proof. intros V V' HV k. rewrite !survivors_alive. apply agree_filter; [apply alive_up_closed|done]. Qed.

Lemma elem_of_survivors ts V k s : s ∈ survivors ts V k <-> s ∈ V k /\ forall t, t ∈ ts -> ~ hides t k s.
Proof.
  unfold survivors. rewrite list_elem_of_filter, Exists_exists. naive_solver.
Qed.
Lemma survivors_plus ts V V' : agrees (survivors ts (both V V')) (both (survivors ts V) (survivors ts V')).
Proof.
  intros k. apply agree_same. intros x. unfold both. rewrite elem_of_app, !elem_of_survivors, elem_of_app. tauto.
Qed.
Lemma survivors_app ts ts' V : agrees (survivors (ts ++ ts') V) (survivors ts' (survivors ts V)).
Proof.
  intros k. apply agree_same. intros x. rewrite !elem_of_survivors. setoid_rewrite elem_of_app. naive_solver.
Qed.
Lemma survivors_nil V : agrees (survivors [] V) V.
Proof. intros k. apply agree_same. intros x. rewrite elem_of_survivors. set_solver. Qed.
(** Deleting again what the stronger deletions removed changes nothing. *)
Lemma survivors_weaker ts ts' V : ts ⊆ ts' -> agrees (survivors ts (survivors ts' V)) (survivors ts' V).
Proof. intros Hs k. apply agree_same. intros x. rewrite !elem_of_survivors. set_solver. Qed.
(** Versions newer than every tombstone survive. *)
Lemma survivors_fresh ts V : (forall k s t, s ∈ V k -> t ∈ ts -> ~ hides t k s) -> agrees (survivors ts V) V.
Proof. intros Hf k. apply agree_same. intros x. rewrite elem_of_survivors. naive_solver. Qed.
Lemma plus_empty V : agrees (both V (fun _ => [])) V.
Proof. intros k. unfold both. by rewrite app_nil_r. Qed.
Lemma plus_assoc V1 V2 V3 : agrees (both (both V1 V2) V3) (both V1 (both V2 V3)).
Proof. intros k. unfold both. by rewrite (assoc_L (++)). Qed.
Lemma plus_absorb V V' : (forall k s, s ∈ V' k -> s ∈ V k) -> agrees (both V V') V.
Proof. intros Hs k. apply agree_same. intros x. unfold both. rewrite elem_of_app. naive_solver. Qed.
Lemma agrees_same V V' : (forall k s, s ∈ V k <-> s ∈ V' k) -> agrees V V'.
Proof. intros E k. by apply agree_same. Qed.

Lemma agrees_answers schema query V V' out : all_versioned (both V V') -> agrees V V' ->
  answers schema query V out -> answers schema query V' out.
Proof.
  intros Hv Hag Ha.
  assert (forall k, versioned (filter (in_window query) (V k) ++ filter (in_window query) (V' k))) as Hv'.
  { intros k x y Hx Hy. rewrite <- filter_app in Hx, Hy. apply list_elem_of_filter in Hx as [_ Hx], Hy as [_ Hy]. by apply (Hv k). }
  assert (forall k, agree (filter (in_window query) (V k)) (filter (in_window query) (V' k))) as Hag'.
  { intros k. apply agree_filter; [apply in_range_up_closed|done]. }
  split; [apply Ha|..].
  - intros c Hc. destruct (an_column _ _ _ _ Ha c Hc) as (? & ? & ? & Hr). split_and!; try done.
    by eapply agree_resolves.
  - intros k s Hk Hs. destruct (proj2 (Hag' k) s Hs) as (x & Hx & _). by apply (an_complete _ _ _ _ Ha k x).
Qed.
(** What a store answers with agrees with what it holds, on the columns selected. *)
Lemma answers_agree schema query V out k : answers schema query V out -> selects query k = true ->
  agree (of_column k out) (filter (in_window query) (V k)).
Proof.
  intros Ha Hk. destruct (filter (in_window query) (V k)) as [|s l] eqn:Ef.
  - assert (of_column k out = []) as ->; [|reflexivity]. apply of_column_none. intros c Hc Ec.
    destruct (an_column _ _ _ _ Ha c Hc) as (_ & _ & Hne & Hr). rewrite Ec, Ef in Hr. by apply resolves_nil_inv in Hr.
  - destruct (an_complete _ _ _ _ Ha k s Hk) as (c & Hc & Ec); [rewrite Ef; left|].
    destruct (an_column _ _ _ _ Ha c Hc) as (_ & _ & _ & Hr). rewrite Ec, Ef in Hr. etrans; [|by apply resolves_agree].
    apply agree_same. intros x. unfold of_column. rewrite elem_of_concat. split.
    + intros (l' & Hx & Hl'). apply list_elem_of_fmap in Hl' as (d & -> & Hd). apply list_elem_of_filter in Hd as [Ed Hd].
      assert (d = c) as -> by (eapply column_sorted_inj; [apply Ha|done|done|congruence]). done.
    + intros Hx. exists (cd_Samples c). split; [done|]. apply list_elem_of_fmap. exists c. split; [done|].
      by apply list_elem_of_filter.
Qed.
