(* ===== verification/QueryMerge.v ===== *)
(** * Merging column streams at query time (internal/queryexec/merge.go)

    A shard opens one stream on its memtable and one per part, each in key
    order, and merges them column by column.  A stream is what its calls of
    Next deliver and the error it reports at the end; the merging stream keeps
    the current column of every source.  [collect] drains it, as
    collectColumnDataStream (internal/engine/shard_scan.go) does. *)
From S2P Require Import Prelude Model Runtime Versions MemCompact StoreSpec EngineMerge Tombstones.
From stdpp Require Import prelude strings list sorting.
From stdpp Require Import prelude strings list sorting gmap.
From Stdlib Require Import ZArith Lia.
#[local] Open Scope Z_scope.

Record ColumnStream := mkStream { cs_items : list ColumnData; cs_err : option goerr }.

Record mergeSource := mkSource { ms_stream : ColumnStream; ms_column : ColumnData; ms_valid : bool }.

Definition zeroColumnData : ColumnData := mkColumnData 0 0 0 [].

Record mergeColumnDataStream := mkMergeStream {
  mm_sources : list mergeSource;
  mm_current : ColumnData;
  mm_err : option goerr;
  mm_initialized : bool;
  mm_closed : bool;
}.

Definition MergeColumnDataStreams (streams : list ColumnStream) : mergeColumnDataStream :=
  mkMergeStream ((fun s => mkSource s zeroColumnData false) <$> streams) zeroColumnData None false false.

(** [columnKeyOf(l).less(columnKeyOf(r))] *)
Definition columnLess (left right : ColumnData) : bool :=
  if negb (cd_SeriesID left =? cd_SeriesID right) then cd_SeriesID left <? cd_SeriesID right
  else cd_FieldID left <? cd_FieldID right.

(** [s.advance(index)] on the error of the stream and the source at the index. *)
Definition advance (err : option goerr) (source : mergeSource) : option goerr * mergeSource :=
  match err with
  | Some _ => (err, source)
  | None =>
      match cs_items (ms_stream source) with
      | [] => (cs_err (ms_stream source), mkSource (ms_stream source) (ms_column source) false)
      | c :: items => (None, mkSource (mkStream items (cs_err (ms_stream source))) c true)
      end
  end.

Fixpoint initialize (err : option goerr) (sources : list mergeSource) : option goerr * list mergeSource :=
  match sources with
  | [] => (err, [])
  | source :: sources' =>
      let '(err, source) := advance err source in
      let '(err, sources') := initialize err sources' in
      (err, source :: sources')
  end.

(** The source with the least current column, the first one of several. *)
Definition minSourceStep (best : option ColumnData) (source : mergeSource) : option ColumnData :=
  if negb (ms_valid source) then best
  else match best with
  | None => Some (ms_column source)
  | Some c => if columnLess (ms_column source) c then Some (ms_column source) else best
  end.
Definition minSource (sources : list mergeSource) : option ColumnData := foldl minSourceStep None sources.

Fixpoint takeGroup (key : Z * Z) (err : option goerr) (sources : list mergeSource)
    : list ColumnData * option goerr * list mergeSource :=
  match sources with
  | [] => ([], err, [])
  | source :: sources' =>
      if negb (ms_valid source) || negb (bool_decide (keyOf (ms_column source) = key)) then
        let '(group, err, sources') := takeGroup key err sources' in (group, err, source :: sources')
      else
        let column := ms_column source in
        let '(err, source) := advance err source in
        let '(group, err, sources') := takeGroup key err sources' in
        (column :: group, err, source :: sources')
  end.

(** [mergeSamples], [mergeColumnGroup] of this package. *)
Definition sampleLess (left right : VersionedSample) : bool :=
  if negb (vs_Timestamp left =? vs_Timestamp right) then vs_Timestamp left <? vs_Timestamp right
  else vs_WriteSeq right <? vs_WriteSeq left.
Definition mergeGroupSamples `{GoRuntime} (columns : list ColumnData) : list VersionedSample :=
  compactSortedSamples (sort_Slice sampleLess (concat (cd_Samples <$> columns))).
Definition mergeStreamGroup `{GoRuntime} (columns : list ColumnData) : ColumnData :=
  match columns with
  | [] => zeroColumnData
  | c :: _ => mkColumnData (cd_SeriesID c) (cd_FieldID c) (cd_FieldType c) (mergeGroupSamples columns)
  end.

(** [Next]: whether there is a column, and the stream after the call. *)
Definition Next `{GoRuntime} (s : mergeColumnDataStream) : bool * mergeColumnDataStream :=
  if mm_closed s || bool_decide (is_Some (mm_err s)) then (false, s)
  else
    let '(err, sources) :=
      if mm_initialized s then (mm_err s, mm_sources s) else initialize (mm_err s) (mm_sources s) in
    let s := mkMergeStream sources (mm_current s) err true (mm_closed s) in
    if bool_decide (is_Some err) then (false, s)
    else match minSource sources with
    | None => (false, s)
    | Some c =>
        let '(group, err, sources) := takeGroup (keyOf c) err sources in
        let s := mkMergeStream sources (mm_current s) err true (mm_closed s) in
        if bool_decide (is_Some err) then (false, s)
        else (true, mkMergeStream sources (mergeStreamGroup group) err true (mm_closed s))
    end.

Fixpoint collectLoop `{GoRuntime} (fuel : nat) (s : mergeColumnDataStream)
    : list ColumnData * option goerr :=
  match fuel with
  | O => ([], mm_err s)
  | S fuel' =>
      let '(more, s) := Next s in
      if more : bool then let '(columns, err) := collectLoop fuel' s in (mm_current s :: columns, err)
      else ([], mm_err s)
  end.
Definition streamsSize (streams : list ColumnStream) : nat := length (concat (cs_items <$> streams)).
(** [collectColumnDataStream]; every column delivered comes from an item of a
    stream, so one round more than there are items is enough. *)
Definition collect `{GoRuntime} (streams : list ColumnStream) : list ColumnData * option goerr :=
  collectLoop (S (streamsSize streams)) (MergeColumnDataStreams streams).

(** * Proofs *)

(** The columns a source has still to deliver. *)
Definition pending (s : mergeSource) : list ColumnData :=
  if ms_valid s then ms_column s :: cs_items (ms_stream s) else [].
Record source_ok (s : mergeSource) : Prop := {
  so_sorted : StronglySorted column_lt (pending s);
  so_noerr : cs_err (ms_stream s) = None;
  so_done : ms_valid s = false -> cs_items (ms_stream s) = [];
}.

Lemma columnLess_lt c d : columnLess c d = true <-> column_lt c d.
Proof.
  unfold columnLess, column_lt, key_lt, keyOf. simpl.
  destruct (cd_SeriesID c =? cd_SeriesID d) eqn:Es; simpl; [apply Z.eqb_eq in Es|apply Z.eqb_neq in Es];
    rewrite Z.ltb_lt; lia.
Qed.

Lemma initialize_spec streams : Forall (fun s => StronglySorted column_lt (cs_items s) /\ cs_err s = None) streams ->
  exists sources, initialize None ((fun s => mkSource s zeroColumnData false) <$> streams) = (None, sources) /\
    Forall source_ok sources /\ pending <$> sources = cs_items <$> streams.
Proof.
  induction 1 as [|[items err] streams [Hs He] HF (sources & IH & Hok & Hp)]; [by exists []|].
  simpl in Hs, He. subst err. rewrite !fmap_cons. cbn [initialize]. unfold advance. cbn [ms_stream cs_items cs_err].
  destruct items as [|c items]; rewrite IH.
  - eexists. split; [done|]. split; [constructor; [|done]|by rewrite fmap_cons, Hp]. split; [constructor|done|done].
  - eexists. split; [done|]. split; [constructor; [|done]|by rewrite fmap_cons, Hp]. split; done.
Qed.

Lemma minSource_spec sources : forall best,
  match foldl minSourceStep best sources with
  | None => best = None /\ concat (pending <$> sources) = []
  | Some c => (best = Some c \/ exists s, s ∈ sources /\ ms_valid s = true /\ ms_column s = c) /\
      (forall b, best = Some b -> ~ column_lt b c) /\
      (forall s, s ∈ sources -> ms_valid s = true -> ~ column_lt (ms_column s) c)
  end.
Proof.
  induction sources as [|s sources IH]; intros best; simpl.
  { destruct best; [|done]. split_and!; [by left| |by intros ? ?%elem_of_nil].
    intros b [= ->]. apply (irreflexivity column_lt). }
  specialize (IH (minSourceStep best s)).
  destruct (foldl minSourceStep (minSourceStep best s) sources) as [c|] eqn:E.
  - destruct IH as (H1 & H2 & H3). unfold minSourceStep in H1, H2. destruct (ms_valid s) eqn:Ev; cbn [negb] in H1, H2.
    + assert (~ column_lt (ms_column s) c /\ (forall b, best = Some b -> ~ column_lt b c)) as [Hs Hb].
      { destruct best as [b|]; [|split; [by apply H2|done]].
        destruct (columnLess (ms_column s) b) eqn:El; specialize (H2 _ eq_refl).
        - split; [done|]. intros b' [= <-] Hlt. apply columnLess_lt in El. apply H2. by etrans.
        - split; [|by intros b' [= <-]]. intros Hlt.
          destruct (key_lt_tricho (keyOf (ms_column s)) (keyOf b)) as [Hk|[Hk|Hk]].
          + apply (columnLess_lt (ms_column s) b) in Hk. congruence.
          + apply H2. unfold column_lt in *. by rewrite <- Hk.
          + apply H2. etrans; [exact Hk|exact Hlt]. }
      split_and!; [|done|].
      * destruct H1 as [H1|(s' & ? & ? & ?)]; [|right; exists s'; set_solver].
        destruct best as [b|]; [case_match|]; simplify_eq; auto; right; exists s; set_solver.
      * intros s' [->|Hs']%elem_of_cons ?; [done|by apply H3].
    + split_and!.
      * destruct H1 as [?|(s' & ? & ? & ?)]; [by left|right; exists s'; set_solver].
      * done.
      * intros s' [->|Hs']%elem_of_cons ?; [congruence|by apply H3].
  - destruct IH as [H1 H2]. unfold minSourceStep in H1. unfold pending at 1. destruct (ms_valid s); simpl in *; [|done].
    destruct best as [b|]; [case_match|]; done.
Qed.

Lemma takeGroup_spec k sources : Forall source_ok sources ->
  (forall c, c ∈ concat (pending <$> sources) -> k = keyOf c \/ key_lt k (keyOf c)) ->
  exists group sources', takeGroup k None sources = (group, None, sources') /\ Forall source_ok sources' /\
    (forall c, c ∈ group -> keyOf c = k) /\
    (forall c, c ∈ concat (pending <$> sources') -> key_lt k (keyOf c)) /\
    concat (pending <$> sources) ≡ₚ group ++ concat (pending <$> sources').
Proof.
  induction 1 as [|s sources [Hs He Hd] HF IH]; intros Hmin.
  { exists [], []. split_and!; [done|constructor|by intros ? ?%elem_of_nil|by intros ? ?%elem_of_nil|done]. }
  rewrite fmap_cons in Hmin. cbn [concat] in Hmin. setoid_rewrite elem_of_app in Hmin.
  destruct IH as (group & sources' & IH & Hok & Hg & Hlt & Hp); [intros c Hc; apply Hmin; by right|].
  cbn [takeGroup]. destruct (negb (ms_valid s) || negb (bool_decide (keyOf (ms_column s) = k))) eqn:E.
  - rewrite IH. exists group, (s :: sources'). rewrite !fmap_cons. cbn [concat].
    split_and!; [done|by constructor|done| |].
    + intros c [Hc|Hc]%elem_of_app; [|by apply Hlt].
      destruct (Hmin c (or_introl Hc)) as [->|?]; [|done]. exfalso.
      unfold pending in Hc, Hs. destruct (ms_valid s) eqn:Ev; [|by apply elem_of_nil in Hc]. simpl in E.
      apply negb_true_iff, bool_decide_eq_false in E. apply elem_of_cons in Hc as [->|Hc]; [done|].
      apply StronglySorted_inv in Hs as [_ Hs]. rewrite Forall_forall in Hs. specialize (Hs c Hc).
      destruct (Hmin (ms_column s)) as [Ek|Hk]; [left; unfold pending; rewrite Ev; left|done|].
      apply (irreflexivity key_lt (keyOf c)). etrans; [exact Hk|exact Hs].
    + rewrite Hp. rewrite !(assoc_L (++)). f_equiv. apply (comm (++)).
  - apply orb_false_iff in E as [Ev%negb_false_iff Ek%negb_false_iff]. apply bool_decide_eq_true in Ek.
    unfold advance. rewrite He. unfold pending in Hs. rewrite Ev in Hs. apply StronglySorted_inv in Hs as [Hs Hh].
    rewrite Forall_forall in Hh.
    rewrite fmap_cons. assert (pending s = ms_column s :: cs_items (ms_stream s)) as -> by (unfold pending; by rewrite Ev).
    destruct (cs_items (ms_stream s)) as [|d items] eqn:Ei; rewrite IH.
    + eexists _, (_ :: sources'). split; [done|]. rewrite fmap_cons. cbn [concat pending ms_valid].
      split_and!; [constructor; [|done]; split; [constructor|done|done]| |done|by rewrite Hp].
      intros c [->|Hc]%elem_of_cons; [done|by apply Hg].
    + eexists _, (_ :: sources'). split; [done|]. rewrite fmap_cons. cbn [concat pending ms_valid ms_column ms_stream cs_items].
      split_and!; [constructor; [|done]; by split| | |].
      * intros c [->|Hc]%elem_of_cons; [done|by apply Hg].
      * intros c [Hc|Hc]%elem_of_app; [|by apply Hlt]. rewrite <- Ek. by apply Hh.
      * rewrite Hp. simpl. f_equiv. rewrite !app_comm_cons, !(assoc_L (++)). f_equiv. apply (comm (++)).
Qed.

Section stream.
  Context `{GoRuntimeLaws}.

Lemma mergeGroupSamples_resolves columns :
  resolves (concat (cd_Samples <$> columns)) (mergeGroupSamples columns).
Proof.
  unfold mergeGroupSamples. rewrite compactSortedSamples_firsts.
  destruct (weak_order_samples sampleLess) as [Hw Hle].
  { intros x y. unfold sampleLess. case_match; [done|].
    zcase (vs_WriteSeq y <? vs_WriteSeq x); zcase (- vs_WriteSeq x <? - vs_WriteSeq y); lia || done. }
  rewrite <- (sort_Slice_perm sampleLess (concat (cd_Samples <$> columns))) at 1. apply firsts_resolves.
  eapply StronglySorted_impl_in; [|by apply sort_Slice_sorted]. intros x y _ _. apply Hle.
Qed.

(** One call of Next on an initialised stream without errors. *)
Lemma Next_spec sources current : Forall source_ok sources ->
  let s := mkMergeStream sources current None true false in
  match (Next s).1 with
  | false => concat (pending <$> sources) = [] /\ mm_err (Next s).2 = None
  | true => exists sources' c group, (Next s).2 = mkMergeStream sources' c None true false /\
      Forall source_ok sources' /\ group <> [] /\ keyOf c = keyOf (mergeStreamGroup group) /\ c = mergeStreamGroup group /\
      (forall d, d ∈ group -> keyOf d = keyOf c) /\
      (forall d, d ∈ concat (pending <$> sources') -> key_lt (keyOf c) (keyOf d)) /\
      concat (pending <$> sources) ≡ₚ group ++ concat (pending <$> sources')
  end.
Proof.
  intros Hok. unfold Next. simpl. pose proof (minSource_spec sources None) as Hm. unfold minSource.
  destruct (foldl minSourceStep None sources) as [c|]; [|simpl; by destruct Hm].
  destruct Hm as ([?|(s0 & Hs0 & Hv0 & Hc0)] & _ & Hmin); [done|].
  destruct (takeGroup_spec (keyOf c) sources Hok) as (group & sources' & -> & Hok' & Hg & Hlt & Hp).
  { intros d Hd. apply elem_of_concat in Hd as (l & Hd & Hl). apply list_elem_of_fmap in Hl as (s & -> & Hs).
    unfold pending in Hd. destruct (ms_valid s) eqn:Ev; [|by apply elem_of_nil in Hd].
    specialize (Hmin s Hs Ev). rewrite Forall_forall in Hok. destruct (Hok s Hs) as [Hso _ _].
    unfold pending in Hso. rewrite Ev in Hso. apply StronglySorted_inv in Hso as [_ Hso].
    rewrite Forall_forall in Hso.
    assert (keyOf c = keyOf (ms_column s) \/ key_lt (keyOf c) (keyOf (ms_column s))) as Hsc.
    { destruct (key_lt_tricho (keyOf c) (keyOf (ms_column s))) as [?|[?|?]]; auto; done. }
    apply elem_of_cons in Hd as [->|Hd]; [done|]. right. specialize (Hso d Hd). unfold column_lt in Hso.
    destruct Hsc as [->|?]; [done|by etrans]. }
  simpl. assert (group <> []) as Hne.
  { intros ->. simpl in Hp. apply (irreflexivity key_lt (keyOf c)), Hlt. rewrite <- Hp.
    apply elem_of_concat. exists (pending s0). split; [unfold pending; rewrite Hv0, Hc0; left|].
    by apply list_elem_of_fmap_2. }
  destruct group as [|d group]; [done|]. pose proof (Hg d ltac:(left)) as Ed.
  eexists _, _, (d :: group). split; [done|]. unfold keyOf in *. simpl in *. rewrite Ed. split_and!; try done.
Qed.

Lemma collectLoop_merged fuel : forall sources current, Forall source_ok sources ->
  (length (concat (pending <$> sources)) < fuel)%nat ->
  exists out, collectLoop fuel (mkMergeStream sources current None true false) = (out, None) /\
    merged (concat (pending <$> sources)) out.
Proof.
  induction fuel as [|fuel IH]; intros sources current Hok Hf; [lia|]. cbn [collectLoop].
  pose proof (Next_spec sources current Hok) as Hn. cbv zeta in Hn.
  destruct (Next (mkMergeStream sources current None true false)) as [[] s]; simpl in Hn.
  - destruct Hn as (sources' & c & group & -> & Hok' & Hne & Ek & Ec & Hg & Hlt & Hp).
    destruct (IH sources' c Hok') as (out & -> & Hm).
    { apply Permutation_length in Hp. rewrite length_app in Hp. destruct group; [done|]. simpl in Hp. lia. }
    eexists. split; [done|]. simpl.
    eapply (merged_step (keyOf c) group _ c); [exact Hg|done|exact Hlt|done| | |exact Hm|exact Hp].
    + rewrite Ec. destruct group as [|d group]; [done|]. exists d. split; [left|done].
    + rewrite Ec. destruct group as [|d group]; [done|]. apply mergeGroupSamples_resolves.
  - destruct Hn as [E ->]. exists []. split; [done|]. rewrite E. apply merged_nil.
Qed.

(** Streams in key order, none of which fails, merge into one column per key. *)
Lemma collect_merged streams :
  Forall (fun s => StronglySorted column_lt (cs_items s) /\ cs_err s = None) streams ->
  exists out, collect streams = (out, None) /\ merged (concat (cs_items <$> streams)) out.
Proof.
  intros HF. destruct (initialize_spec streams HF) as (sources & Ei & Hok & Hp).
  destruct (collectLoop_merged (S (streamsSize streams)) sources zeroColumnData Hok) as (out & E & Hm).
  { rewrite Hp. unfold streamsSize. lia. }
  exists out. split; [|by rewrite <- Hp]. rewrite <- E. unfold collect, MergeColumnDataStreams.
  cbn [collectLoop]. f_equal. unfold Next. simpl. rewrite Ei. done.
Qed.
End stream.

(** * Theorems about merging columns and deleting samples

    The merge of the engine, which compaction uses, and the merge stream of the
    query executor, which scans use, against the specifications of
    [Versions] and [StoreSpec]. *)
(** The streams of several stores that answer a query. *)
Definition answering (schema : Z * Z -> Z) (query : StorageQuery) (V : contents) (s : ColumnStream) : Prop :=
  answers schema query V (cs_items s) /\ cs_err s = None.

Lemma answering_items schema query Vs streams : Forall2 (answering schema query) Vs streams ->
  Forall2 (answers schema query) Vs (cs_items <$> streams) /\
  Forall (fun s => StronglySorted column_lt (cs_items s) /\ cs_err s = None) streams.
Proof.
  induction 1 as [|V s Vs streams [Ha He] HF [IH1 IH2]]; split; constructor; try done.
  split; [apply Ha|done].
Qed.

Lemma answers_nonempty schema query V out c : answers schema query V out -> c ∈ out -> cd_Samples c <> [].
Proof. intros Ha Hc. by destruct (an_column _ _ _ _ Ha c Hc) as (_ & _ & ? & _). Qed.

Section theorems.
  Context `{GoRuntimeLaws}.

Lemma collect_answers schema query Vs streams : Forall2 (answering schema query) Vs streams ->
  exists out, collect streams = (out, None) /\ answers schema query (union_contents Vs) out.
Proof.
  intros [HF Hs]%answering_items. destruct (collect_merged streams Hs) as (out & E & Hm).
  exists out. split; [done|]. by eapply answers_merge.
Qed.

Lemma merge_delete_answers schema query Vs colss tombstones : Forall2 (answers schema query) Vs colss ->
  exists out, mergeColumnData (concat colss) = Ok out /\
    answers schema query (survivors tombstones (union_contents Vs))
      (applyTombstones out tombstones).
Proof.
  intros HF. destruct (mergeColumnData_merged (concat colss)) as (out & E & Hm).
  exists out. split; [done|]. assert (answers schema query (union_contents Vs) out) as Ha by by eapply answers_merge.
  rewrite applyTombstones_restrict by (intros c; by eapply answers_nonempty).
  eapply answers_ext; [|apply answers_restrict; [apply alive_up_closed|exact Ha]].
  intros k s _ _. by rewrite survivors_alive.
Qed.

(** Merging the columns of one series and field, by whichever of the four routines is
    taken, returns the newest version per timestamp of the concatenated samples, the
    later one of equal write sequence numbers. *)
Theorem merge_group_latest c columns :
  mergeColumnGroup (c :: columns) =
    Ok (mkColumnData (cd_SeriesID c) (cd_FieldID c) (cd_FieldType c)
          (latest (concat (cd_Samples <$> (c :: columns))))).
Proof. apply mergeColumnGroup_latest. Qed.

(** Merging the columns that several stores answer a query with and then dropping the
    deleted samples succeeds and answers the query over the surviving versions of all
    of them. *)
Theorem compaction_merge_answers schema query Vs colss tombstones : Forall2 (answers schema query) Vs colss ->
  exists out, mergeColumnData (concat colss) = Ok out /\
    answers schema query (survivors tombstones (union_contents Vs))
      (applyTombstones out tombstones).
Proof. apply merge_delete_answers. Qed.

(** Draining the merge stream over streams that each answer a query comes to an end
    without an error, and what it yields answers the query over the versions of all
    stores. *)
Theorem merge_stream_answers schema query Vs streams : Forall2 (answering schema query) Vs streams ->
  exists out, collect streams = (out, None) /\ answers schema query (union_contents Vs) out.
Proof. apply collect_answers. Qed.
End theorems.
#[local] Existing Instances refRuntime refRuntimeLaws.

(** ** Witnesses *)
Definition sample_at (t seq v : Z) : VersionedSample := mkSample t seq (Int64Value v).
Definition full_query : StorageQuery := rangeQuery ∅ ∅ (-100) 100.
Definition one_column (s : VersionedSample) : list ColumnData := [mkColumnData 1 2 FieldInt64 [s]].
Definition one_store (s : VersionedSample) : contents := fun k => if decide (k = (1, 2)) then [s] else [].

Lemma resolves_singleton s : resolves [s] [s].
Proof. apply resolves_self. repeat constructor. Qed.

Lemma one_store_answers s : in_window full_query s = true ->
  answers (fun _ => FieldInt64) full_query (one_store s) (one_column s).
Proof.
  intros Hw. split.
  - repeat constructor.
  - intros c ->%list_elem_of_singleton. split_and!; [done..|].
    unfold one_store. simpl. rewrite filter_cons, decide_True by by rewrite Hw.
    apply resolves_singleton.
  - intros k x _. unfold one_store. case_decide as Ek; [|by intros ?%elem_of_nil].
    intros _. exists (mkColumnData 1 2 FieldInt64 [s]). subst. by split; [left|].
Qed.

Lemma merge_group_latest_witness :
  @mergeColumnGroup refRuntime [mkColumnData 1 2 FieldInt64 [sample_at 1 5 7; sample_at 2 5 8];
                                mkColumnData 1 2 FieldInt64 [sample_at 2 6 9]] =
    Ok (mkColumnData 1 2 FieldInt64 [sample_at 1 5 7; sample_at 2 6 9]).
Proof. exact (merge_group_latest (mkColumnData 1 2 FieldInt64 [sample_at 1 5 7; sample_at 2 5 8])
                [mkColumnData 1 2 FieldInt64 [sample_at 2 6 9]]). Defined.

Lemma compaction_merge_answers_witness :
  exists out, @mergeColumnData refRuntime (concat [one_column (sample_at 1 5 7); one_column (sample_at 1 6 8)]) = Ok out /\
    answers (fun _ => FieldInt64) full_query
      (survivors [mkTombstone [] [] 0 0 3]
         (union_contents [one_store (sample_at 1 5 7); one_store (sample_at 1 6 8)]))
      (applyTombstones out [mkTombstone [] [] 0 0 3]).
Proof. apply compaction_merge_answers. repeat (apply Forall2_cons; split; [by apply one_store_answers|]). constructor. Defined.

Lemma merge_stream_answers_witness :
  exists out, @collect refRuntime [mkStream (one_column (sample_at 1 5 7)) None; mkStream (one_column (sample_at 1 6 8)) None]
      = (out, None) /\
    answers (fun _ => FieldInt64) full_query
      (union_contents [one_store (sample_at 1 5 7); one_store (sample_at 1 6 8)]) out.
Proof. apply merge_stream_answers. repeat (apply Forall2_cons; split; [split; [by apply one_store_answers|done]|]). constructor. Defined.
