(* ===== verification/SstMeta.v ===== *)
(** * Checksummed blocks of the component files (internal/sstable/block.go)

    A component file is a sequence of frames: the length of the payload, the
    payload and its CRC-32C.  A frame is addressed by its offset and size, the
    writer only ever appends, and the reader checks length and checksum.  The
    second half is the metadata of a part and its binary form. *)
From S2P Require Import Prelude GoBinary Model Codec Readers Runtime MemCompact.
From stdpp Require Import prelude strings list gmap.
From stdpp Require Import prelude strings list.
From Stdlib Require Import ZArith Lia.
#[local] Open Scope Z_scope.

Record blockRef := mkBlockRef { br_Offset : Z; br_Size : Z }.
#[export] Instance blockRef_eq_dec : EqDecision blockRef.
Proof. solve_decision. Defined.

(** The file and the offset kept beside it; files are opened truncated. *)
Record blockWriter := mkBlockWriter { bw_file : bytes; bw_offset : Z }.
(** [file.Seek(0, io.SeekEnd)] *)
Definition newBlockWriter (file : bytes) : blockWriter := mkBlockWriter file (len file).

Definition blockFrame (payload : bytes) : bytes :=
  be_put_u32 (u32 (len payload)) ++ payload ++ be_put_u32 (crc32c payload).

Definition writeBlockAt (file : bytes) (offset : Z) (payload : bytes) : outcome (blockRef * bytes) :=
  if 2 ^ 32 - 1 <? len payload then Err (Errorf "block payload too large")
  else Ok (mkBlockRef offset (len payload + 8), file ++ blockFrame payload).

Definition writeBlock (file : bytes) (payload : bytes) : outcome (blockRef * bytes) :=
  writeBlockAt file (len file) payload.

(** [blockWriter.write] *)
Definition bw_write (w : blockWriter) (payload : bytes) : outcome (blockRef * blockWriter) :=
  '(ref, file) ← writeBlockAt (bw_file w) (bw_offset w) payload;
  Ok (ref, mkBlockWriter file (bw_offset w + br_Size ref)).

(** ** Reading

    [ReadAt(buf, offset)] fills a buffer the caller provides.  Frames come
    from a [sync.Pool], so a borrowed buffer holds arbitrary bytes:
    [FramePool] is that choice. *)
Definition ReaderAt : Type := bytes -> Z -> outcome bytes.
Class FramePool := { borrowBlockFrame : Z -> bytes }.
Class FramePoolLaws `{FramePool} : Prop := { borrowed_len n : 0 <= n -> len (borrowBlockFrame n) = n }.

(** [os.File.ReadAt] *)
Definition file_ReadAt (file : bytes) : ReaderAt := fun buf offset =>
  if offset <? 0 then Err (Errorf "negative offset")
  else if len file <? offset + len buf then Err EOF
  else Ok (take (length buf) (drop (Z.to_nat offset) file)).

(** [sectionReader] (part_pack.go): a read that runs past the section is
    clipped, the rest of the buffer keeps what it held. *)
Record sectionReader := mkSectionReader { sr_file : bytes; sr_base : Z; sr_size : Z }.
Definition section_ReadAt (r : sectionReader) : ReaderAt := fun buf off =>
  if off <? 0 then Err (Errorf "negative section offset")
  else if sr_size r <=? off then Err EOF
  else
    let max := sr_size r - off in
    if max <? len buf then
      p ← file_ReadAt (sr_file r) (take (Z.to_nat max) buf) (sr_base r + off);
      Ok (p ++ drop (Z.to_nat max) buf)
    else file_ReadAt (sr_file r) buf (sr_base r + off).

Definition readBlockPayloadFrom `{FramePool} (file : ReaderAt) (ref : blockRef) : outcome bytes :=
  if br_Size ref <? 8 then Err (Errorf "block frame is too small")
  else
    _ ← make_slice 1 (br_Size ref);
    buf ← wrapErr "read block" (file (borrowBlockFrame (br_Size ref)) (br_Offset ref));
    let length := be_word (take 4 buf) in
    if negb (length =? len buf - 8) then Err (Errorf "block length mismatch")
    else
      let payload := take (Z.to_nat (len buf - 8)) (drop 4 buf) in
      let want := be_word (drop (Z.to_nat (len buf - 4)) buf) in
      let got := crc32c payload in
      if negb (got =? want) then Err (Errorf "block crc mismatch") else Ok payload.
(** [readBlockFrom] copies the payload, [readBlock] opens the file. *)
Definition readBlockFrom `{FramePool} (file : ReaderAt) (ref : blockRef) : outcome bytes := readBlockPayloadFrom file ref.
Definition readBlock `{FramePool} (file : bytes) (ref : blockRef) : outcome bytes := readBlockFrom (file_ReadAt file) ref.

(** ** What a block reference stands for *)
Record block_at (file : bytes) (ref : blockRef) (payload : bytes) : Prop := {
  ba_size : br_Size ref = len payload + 8;
  ba_place : exists before after, file = before ++ blockFrame payload ++ after /\ br_Offset ref = len before;
  ba_bound : len payload <= 2 ^ 32 - 1;
}.

Lemma block_at_app file more ref payload : block_at file ref payload -> block_at (file ++ more) ref payload.
Proof.
  intros [Hs (before & after & -> & Ho) Hb]. split; [done| |done]. exists before, (after ++ more).
  split; [|done]. by rewrite <- !(assoc_L (++)).
Qed.

Definition writer_ok (w : blockWriter) : Prop := bw_offset w = len (bw_file w).
Lemma newBlockWriter_ok file : writer_ok (newBlockWriter file).
Proof. done. Qed.

Lemma blockFrame_len payload : len (blockFrame payload) = len payload + 8.
Proof. unfold blockFrame, len. rewrite !length_app, !be_put_u32_length. lia. Qed.

Lemma writeBlockAt_ok file payload ref file' : writeBlockAt file (len file) payload = Ok (ref, file') ->
  block_at file' ref payload /\ exists more, file' = file ++ more.
Proof.
  unfold writeBlockAt. zcase (2 ^ 32 - 1 <? len payload); [done|]. intros [= <- <-]. split; [|by eexists].
  split; [done| |lia]. exists file, []. by rewrite app_nil_r.
Qed.

Lemma bw_write_ok w payload ref w' : writer_ok w -> bw_write w payload = Ok (ref, w') ->
  writer_ok w' /\ block_at (bw_file w') ref payload /\ exists more, bw_file w' = bw_file w ++ more.
Proof.
  unfold bw_write. intros Hw. rewrite Hw. destruct (writeBlockAt _ _ _) as [[r f]| |] eqn:E; [|done|done].
  intros [= <- <-]. destruct (writeBlockAt_ok _ _ _ _ E) as [Hb Hm]. simpl. split; [|done].
  unfold writeBlockAt in E. zcase (2 ^ 32 - 1 <? len payload); [done|]. injection E as <- <-.
  unfold writer_ok. simpl. unfold len at 3. rewrite length_app, Nat2Z.inj_add. fold (len (blockFrame payload)).
  rewrite blockFrame_len. unfold len. lia.
Qed.

(** A reader that shows the bytes of [file]. *)
Definition shows (r : ReaderAt) (file : bytes) : Prop := forall buf offset,
  0 <= offset -> offset + len buf <= len file -> 0 < len buf ->
  r buf offset = Ok (take (length buf) (drop (Z.to_nat offset) file)).
Lemma file_shows file : shows (file_ReadAt file) file.
Proof.
  intros buf offset H0 Hl _. unfold file_ReadAt. assert ((offset <? 0) = false) as -> by zb.
  by assert ((len file <? offset + len buf) = false) as -> by zb.
Qed.
Lemma section_shows before file after :
  shows (section_ReadAt (mkSectionReader (before ++ file ++ after) (len before) (len file))) file.
Proof.
  intros buf offset H0 Hl Hb. unfold section_ReadAt. simpl. assert ((offset <? 0) = false) as -> by zb.
  assert ((len file <=? offset) = false) as -> by zb. assert ((len file - offset <? len buf) = false) as -> by zb.
  rewrite (file_shows (before ++ file ++ after)) by (rewrite ?len_app; pose proof (len_nonneg before); pose proof (len_nonneg after); lia).
  replace (Z.to_nat (len before + offset)) with (length before + Z.to_nat offset)%nat by (unfold len; lia).
  rewrite <- drop_drop, drop_app_length, drop_app_le by (unfold len in *; lia).
  rewrite take_app_le; [done|]. rewrite length_drop. unfold len in *. lia.
Qed.

Section read.
  Context `{FramePoolLaws}.

(** Reading a block that was written returns its payload. *)
Lemma readBlock_at r file ref payload : shows r file -> block_at file ref payload ->
  readBlockPayloadFrom r ref = Ok payload.
Proof.
  intros Hr [Hs (before & after & -> & Ho) Hb]. unfold readBlockPayloadFrom. rewrite Hs, Ho.
  pose proof (blockFrame_len payload) as Hl. pose proof (len_nonneg payload) as Hpl. pose proof (len_nonneg before) as Hbl.
  assert ((len payload + 8 <? 8) = false) as -> by zb.
  rewrite make_slice_ok by (unfold maxAlloc, len in *; lia). cbn [mbind outcome_bind].
  assert (len (borrowBlockFrame (len payload + 8)) = len payload + 8) as Hn by (apply borrowed_len; lia).
  rewrite Hr by (rewrite ?len_app, ?Hn, ?Hl; pose proof (len_nonneg after); lia).
  replace (Z.to_nat (len before)) with (length before) by (unfold len; lia). rewrite drop_app_length.
  replace (length (borrowBlockFrame (len payload + 8))) with (length (blockFrame payload)) by (unfold len in *; lia).
  rewrite take_app_length. simpl. rewrite Hl.
  replace (len payload + 8 - 8) with (len payload) by lia.
  replace (len payload + 8 - 4) with (len payload + 4) by lia.
  unfold blockFrame. set (h := be_put_u32 (u32 (len payload))).
  assert (length h = 4%nat) as Hh by apply be_put_u32_length.
  rewrite (take_app_length' h), (drop_app_length' h) by done. subst h.
  rewrite be_word_put_u32 by (unfold is_u32, u32; apply Z.mod_pos_bound; lia).
  rewrite u32_id by (unfold is_u32, len in *; lia). rewrite Z.eqb_refl. simpl.
  replace (Z.to_nat (len payload)) with (length payload) by (unfold len; lia). rewrite take_app_length.
  assert (drop (Z.to_nat (len payload + 4)) (be_put_u32 (len payload) ++ payload ++ be_put_u32 (crc32c payload))
    = be_put_u32 (crc32c payload)) as ->.
  { rewrite (assoc_L (++)). apply drop_app_length'. rewrite length_app, be_put_u32_length. unfold len. lia. }
  rewrite be_word_put_u32 by apply crc32c_range. by rewrite Z.eqb_refl.
Qed.
End read.

(** A pool of zeroed frames. *)
#[local] Instance zeroPool : FramePool := {| borrowBlockFrame n := replicate (Z.to_nat n) 0 |}.
#[local] Instance zeroPoolLaws : FramePoolLaws.
Proof. split. intros n Hn. simpl. unfold len. rewrite length_replicate. lia. Qed.

(** * Part metadata and its binary form (internal/sstable/metadata_encoding.go, manifest.go)

    The index of a part (one row per series), its series index and meta index,
    the part metadata and the manifest: records, encoders and decoders. *)
(** ** Records (types.go) *)
Record PartMeta := mkPartMeta {
  pm_ID : bytes;
  pm_Level : Z;
  pm_MinTime : Z;
  pm_MaxTime : Z;
  pm_MinSeriesID : Z;
  pm_MaxSeriesID : Z;
  pm_RowsCount : Z;
  pm_SeriesCount : Z;
  pm_BlockCount : Z;
  pm_MaxWriteSeq : Z;
  pm_Path : bytes;
}.
Record Manifest := mkManifest { mf_Sequence : Z; mf_Parts : list PartMeta }.
Record columnRef := mkColumnRef { cr_FieldID : Z; cr_FieldType : Z; cr_ValueRef : blockRef }.
Record indexRow := mkIndexRow {
  ir_SeriesID : Z;
  ir_MinTime : Z;
  ir_MaxTime : Z;
  ir_TimeRef : blockRef;
  ir_Columns : list columnRef;
}.
Record metaIndexRow := mkMetaIndexRow {
  mi_MinSeriesID : Z;
  mi_MaxSeriesID : Z;
  mi_MinTime : Z;
  mi_MaxTime : Z;
  mi_FieldIDs : list Z;
  mi_IndexRef : blockRef;
}.
Record seriesIndexRow := mkSeriesIndexRow {
  si_SeriesID : Z;
  si_MinTime : Z;
  si_MaxTime : Z;
  si_FieldIDs : list Z;
  si_IndexRef : blockRef;
}.
(** The component names and sizes travel as lists of names and a map. *)
Record metadata := mkMetadata {
  md_Part : PartMeta;
  md_IndexRef : blockRef;
  md_MetaIndexRef : blockRef;
  md_SeriesIndexRef : blockRef;
  md_Components : list bytes;
  md_ComponentSizes : gmap bytes Z;
  md_CreatedUnix : Z;
}.
#[export] Instance PartMeta_eq_dec : EqDecision PartMeta.
Proof. solve_decision. Defined.
#[export] Instance columnRef_eq_dec : EqDecision columnRef.
Proof. solve_decision. Defined.
#[export] Instance indexRow_eq_dec : EqDecision indexRow.
Proof. solve_decision. Defined.

Definition partMagic : bytes := str "MTSPRT2".
Definition indexMagic : bytes := str "MTSIDX2".
Definition metaIndexMagic : bytes := str "MTSMIX2".
Definition seriesIndexMagic : bytes := str "MTSSIX2".
Definition manifestMagic : bytes := str "MTSMAN2".
Definition partMetadataFlagComponents : Z := 1.
Definition partMetadataFlagComponentSizes : Z := 2.
Definition manifestFlagSequence : Z := 1.
Definition envelopeReservedLenBytes : Z := MaxVarintLen64.
Definition metadataFile : bytes := str "metadata.bin".
Definition metaindexFile : bytes := str "metaindex.bin".
Definition indexFile : bytes := str "index.bin".
Definition seriesIndexFile : bytes := str "series_index.bin".
Definition timestampsFile : bytes := str "timestamps.bin".
Definition valuesFile : bytes := str "values.bin".
Definition stringsFile : bytes := str "strings.bin".
Definition defaultPartComponents : list bytes :=
  [metadataFile; metaindexFile; indexFile; seriesIndexFile; timestampsFile; valuesFile; stringsFile].

(** ** An envelope built in place: room for the length, the payload moved down
    when the length is known *)
Definition appendEnvelopePrefix (magic : bytes) : bytes :=
  take 7 (magic ++ replicate 7 0) ++ le_put_u16 0 ++ replicate (Z.to_nat envelopeReservedLenBytes) 0.
(** [copy(dst[at:], src)] *)
Definition copy_at (at_ : nat) (src dst : bytes) : bytes :=
  let n := Nat.min (length dst - at_) (length src) in
  take at_ dst ++ take n src ++ drop (at_ + n) dst.
Definition finishEnvelope (dst : bytes) (payloadStart : Z) : bytes :=
  let payloadLen := len dst - payloadStart in
  let length_ := appendUvarint (u64 payloadLen) in
  let size := len length_ in
  let lengthStart := payloadStart - envelopeReservedLenBytes in
  let finalPayloadStart := lengthStart + size in
  let moved := copy_at (Z.to_nat finalPayloadStart) (drop (Z.to_nat payloadStart) dst) dst in
  let cut := take (Z.to_nat (len dst - (envelopeReservedLenBytes - size))) moved in
  let out := copy_at (Z.to_nat lengthStart) length_ cut in
  out ++ le_put_u32 (crc32c out).

(** ** Block references *)
Definition appendBlockRef (ref : blockRef) : outcome bytes :=
  if (br_Offset ref <? 0) || (br_Size ref <? 0) then Err (Errorf "block ref contains negative values")
  else Ok (appendUvarint (br_Offset ref) ++ appendUvarint (br_Size ref)).
Definition readBlockRef : reader blockRef :=
  offset ← BlockReader.uvarint "block offset";
  size ← BlockReader.uvarint "block size";
  if (maxInt <? offset) || (maxInt <? size) then rfail (Errorf "block ref overflows int64")
  else mret (mkBlockRef offset size).

(** ** Slices *)
Definition appendUint32Slice (values : list Z) : bytes :=
  appendUvarint (len values) ++ concat (map appendUvarint values).
Definition readUint32Slice (name : string) : reader (list Z) :=
  count ← BlockReader.intCount name;
  _ ← rmake 4 count;
  read_n (Z.to_nat count) (BlockReader.uint32 "uint32 slice value").
Definition appendStringSlice (values : list bytes) : bytes :=
  appendUvarint (len values) ++ concat (map AppendString values).
Definition readStringSlice (name : string) : reader (list bytes) :=
  count ← BlockReader.intCount name;
  _ ← rmake 16 count;
  read_n (Z.to_nat count) (BlockReader.string "string slice value").
Definition metadataComponents (values : list bytes) : list bytes :=
  if len values =? 0 then defaultPartComponents else values.

(** A loop that appends the encodings of all elements, or fails. *)
Fixpoint appendEach {A} (enc : A -> outcome bytes) (l : list A) : outcome bytes :=
  match l with
  | [] => Ok []
  | a :: l' => b ← enc a; bs ← appendEach enc l'; Ok (b ++ bs)
  end.

(** ** Part metadata *)
Definition appendPartMetaCounts (meta : PartMeta) : outcome bytes :=
  if (pm_RowsCount meta <? 0) || (pm_SeriesCount meta <? 0) || (pm_BlockCount meta <? 0)
  then Err (Errorf "part metadata contains negative count")
  else Ok (appendUvarint (pm_RowsCount meta) ++ appendUvarint (pm_SeriesCount meta)
           ++ appendUvarint (pm_BlockCount meta) ++ appendUvarint (pm_MaxWriteSeq meta)
           ++ AppendString (pm_Path meta)).
Definition appendPartMeta (meta : PartMeta) : outcome bytes :=
  counts ← appendPartMetaCounts meta;
  Ok (AppendString (pm_ID meta) ++ appendVarint (pm_Level meta) ++ appendVarint (pm_MinTime meta)
      ++ appendVarint (pm_MaxTime meta) ++ appendUvarint (pm_MinSeriesID meta)
      ++ appendUvarint (pm_MaxSeriesID meta) ++ counts).

Definition readPartTimes : reader (Z * Z) :=
  minTime ← BlockReader.varint "part min time";
  maxTime ← BlockReader.varint "part max time";
  mret (minTime, maxTime).
Definition readPartSeries : reader (Z * Z) :=
  minSeries ← BlockReader.uvarint "part min series";
  maxSeries ← BlockReader.uvarint "part max series";
  mret (minSeries, maxSeries).
Record partCounts := mkPartCounts { pc_rows : Z; pc_series : Z; pc_blocks : Z; pc_writeSeq : Z }.
Definition readPartCounts : reader partCounts :=
  rows ← BlockReader.intCount "part rows count";
  series ← BlockReader.intCount "part series count";
  blocks ← BlockReader.intCount "part block count";
  writeSeq ← BlockReader.uvarint "part max write seq";
  mret (mkPartCounts rows series blocks writeSeq).
Definition buildPartMeta (id : bytes) (level : Z) (times series : Z * Z) (counts : partCounts) (path : bytes)
    : PartMeta :=
  mkPartMeta id level times.1 times.2 series.1 series.2 (pc_rows counts) (pc_series counts)
    (pc_blocks counts) (pc_writeSeq counts) path.
Definition readPartMeta : reader PartMeta :=
  id ← BlockReader.string "part id";
  level ← BlockReader.varint "part level";
  times ← readPartTimes;
  series ← readPartSeries;
  counts ← readPartCounts;
  path ← BlockReader.string "part path";
  mret (buildPartMeta id level times series counts path).

Definition appendComponentSizes (components : list bytes) (sizes : gmap bytes Z) : bytes :=
  appendUvarint (len components) ++ concat (map (fun name => appendVarint (default 0 (sizes !! name))) components).
Fixpoint readSizes (components : list bytes) (sizes : gmap bytes Z) : reader (gmap bytes Z) :=
  match components with
  | [] => mret sizes
  | name :: components' =>
      size ← BlockReader.varint "component size";
      if size <? 0 then rfail (Errorf "component size is negative")
      else readSizes components' (<[name := size]> sizes)
  end.
Definition readComponentSizes (components : list bytes) : reader (gmap bytes Z) :=
  count ← BlockReader.intCount "component size count";
  if negb (count =? len components) then rfail (Errorf "component size count does not match components")
  else readSizes components ∅.

Definition encodeMetadata (meta : metadata) : outcome bytes :=
  part ← appendPartMeta (md_Part meta);
  indexRef ← appendBlockRef (md_IndexRef meta);
  metaIndexRef ← appendBlockRef (md_MetaIndexRef meta);
  seriesIndexRef ← appendBlockRef (md_SeriesIndexRef meta);
  let components := metadataComponents (md_Components meta) in
  let payload := part ++ indexRef ++ metaIndexRef ++ seriesIndexRef ++ appendVarint (md_CreatedUnix meta)
                 ++ appendStringSlice components in
  if bool_decide (md_ComponentSizes meta = ∅)
  then Ok (MarshalEnvelope partMagic partMetadataFlagComponents payload)
  else Ok (MarshalEnvelope partMagic (Z.lor partMetadataFlagComponents partMetadataFlagComponentSizes)
             (payload ++ appendComponentSizes components (md_ComponentSizes meta))).

(** [reader.rest] *)
Definition restOf : reader bytes := fun s => Ok (s, s).
Definition readMetadataTail (flags : Z) : reader (blockRef * blockRef * blockRef * Z * list bytes * gmap bytes Z) :=
  indexRef ← readBlockRef;
  metaIndexRef ← readBlockRef;
  seriesIndexRef ← readBlockRef;
  createdUnix ← BlockReader.varint "created unix";
  rest ← restOf;
  if (Z.land flags partMetadataFlagComponents =? 0) && (len rest =? 0)
  then mret (indexRef, metaIndexRef, seriesIndexRef, createdUnix, [], ∅)
  else
    components ← readStringSlice "part component count";
    sizes ← (if negb (Z.land flags partMetadataFlagComponentSizes =? 0)
             then readComponentSizes (metadataComponents components) else mret ∅);
    mret (indexRef, metaIndexRef, seriesIndexRef, createdUnix, components, sizes).
Definition decodeMetadata (data : bytes) : outcome metadata :=
  env ← UnmarshalEnvelope data partMagic;
  '(meta, _) ← (part ← readPartMeta;
     '(indexRef, metaIndexRef, seriesIndexRef, createdUnix, components, sizes) ← readMetadataTail (env_Flags env);
     _ ← BlockReader.done "part metadata";
     mret (mkMetadata part indexRef metaIndexRef seriesIndexRef (metadataComponents components) sizes createdUnix))
    (env_Payload env);
  Ok meta.

(** ** Index rows *)
Definition appendColumnRef (column : columnRef) : outcome bytes :=
  ref ← appendBlockRef (cr_ValueRef column);
  Ok (appendUvarint (cr_FieldID column) ++ [u8 (cr_FieldType column)] ++ ref).
Definition readColumnRef : reader columnRef :=
  fieldID ← BlockReader.uint32 "column field id";
  fieldType ← BlockReader.byte "column field type";
  valueRef ← readBlockRef;
  mret (mkColumnRef fieldID fieldType valueRef).
(** The slice that is reused for the refs is made for the smaller of the two
    counts when it is too short; a nil destination stands for all of them. *)
Definition readFilteredColumnRefsInto (filter_ : gset Z) : reader (list columnRef) :=
  count ← BlockReader.intCount "column ref count";
  let capacity := if (0 <? Z.of_nat (size filter_)) && (Z.of_nat (size filter_) <? count)
                  then Z.of_nat (size filter_) else count in
  _ ← rmake 24 capacity;
  columns ← read_n (Z.to_nat count) readColumnRef;
  mret (filter (fun column => containsField filter_ (cr_FieldID column)) columns).
Definition readColumnRefs : reader (list columnRef) := readFilteredColumnRefsInto ∅.
Definition skipColumnRefs : reader unit :=
  count ← BlockReader.intCount "column ref count";
  _ ← read_n (Z.to_nat count) readColumnRef;
  mret tt.

Definition appendIndexRow (row : indexRow) : outcome bytes :=
  timeRef ← appendBlockRef (ir_TimeRef row);
  columns ← appendEach appendColumnRef (ir_Columns row);
  Ok (appendUvarint (ir_SeriesID row) ++ appendVarint (ir_MinTime row) ++ appendVarint (ir_MaxTime row)
      ++ timeRef ++ appendUvarint (len (ir_Columns row)) ++ columns).
Record indexRowHeader := mkIndexRowHeader { ih_seriesID : Z; ih_minTime : Z; ih_maxTime : Z; ih_timeRef : blockRef }.
Definition header_row (h : indexRowHeader) (columns : list columnRef) : indexRow :=
  mkIndexRow (ih_seriesID h) (ih_minTime h) (ih_maxTime h) (ih_timeRef h) columns.
Definition readIndexRowCore : reader (Z * Z * blockRef) :=
  minTime ← BlockReader.varint "index min time";
  maxTime ← BlockReader.varint "index max time";
  timeRef ← readBlockRef;
  mret (minTime, maxTime, timeRef).
Definition readIndexRow : reader indexRow :=
  seriesID ← BlockReader.uvarint "index series id";
  '(minTime, maxTime, timeRef) ← readIndexRowCore;
  columns ← readColumnRefs;
  mret (mkIndexRow seriesID minTime maxTime timeRef columns).

Definition encodeIndexRowsInto (rows : list indexRow) : outcome bytes :=
  let prefix := appendEnvelopePrefix indexMagic in
  body ← appendEach appendIndexRow rows;
  Ok (finishEnvelope (prefix ++ appendUvarint (len rows) ++ body) (len prefix)).
Definition decodeIndexRows (data : bytes) : outcome (list indexRow) :=
  env ← UnmarshalEnvelope data indexMagic;
  '(rows, _) ← (count ← BlockReader.intCount "index row count";
     _ ← rmake 64 count;
     rows ← read_n (Z.to_nat count) readIndexRow;
     _ ← BlockReader.done "index rows";
     mret rows) (env_Payload env);
  Ok rows.

(** ** The stream over index rows that skips the columns of unwanted rows *)
Record indexRowStream := mkIndexRowStream { rs_rest : bytes; rs_remaining : Z }.
Definition newIndexRowStream (data : bytes) : outcome indexRowStream :=
  env ← UnmarshalEnvelopeView data indexMagic;
  '(count, rest) ← BlockReader.intCount "index row count" (env_Payload env);
  Ok (mkIndexRowStream rest count).
Definition nextHeader (s : indexRowStream) : outcome (option indexRowHeader * indexRowStream) :=
  if rs_remaining s =? 0 then Ok (None, s)
  else
    '(h, rest) ← (seriesID ← BlockReader.uvarint "index series id";
       '(minTime, maxTime, timeRef) ← readIndexRowCore;
       mret (mkIndexRowHeader seriesID minTime maxTime timeRef)) (rs_rest s);
    Ok (Some h, mkIndexRowStream rest (rs_remaining s - 1)).
Definition stream_done (s : indexRowStream) : outcome unit :=
  if negb (rs_remaining s =? 0) then Err (Errorf "decode index rows: rows remaining")
  else '(_, _) ← BlockReader.done "index rows" (rs_rest s); Ok tt.
Definition appendFilteredColumnRefs (s : indexRowStream) (filter_ : gset Z)
    : outcome (list columnRef * indexRowStream) :=
  '(columns, rest) ← readFilteredColumnRefsInto filter_ (rs_rest s);
  Ok (columns, mkIndexRowStream rest (rs_remaining s)).
Definition stream_skipColumnRefs (s : indexRowStream) : outcome indexRowStream :=
  '(_, rest) ← skipColumnRefs (rs_rest s);
  Ok (mkIndexRowStream rest (rs_remaining s)).

(** ** Meta index and series index *)
Definition appendMetaIndexRow (row : metaIndexRow) : outcome bytes :=
  ref ← appendBlockRef (mi_IndexRef row);
  Ok (appendUvarint (mi_MinSeriesID row) ++ appendUvarint (mi_MaxSeriesID row) ++ appendVarint (mi_MinTime row)
      ++ appendVarint (mi_MaxTime row) ++ appendUint32Slice (mi_FieldIDs row) ++ ref).
Definition readMetaIndexBounds : reader (Z * Z * Z * Z) :=
  minSeries ← BlockReader.uvarint "metaindex min series";
  maxSeries ← BlockReader.uvarint "metaindex max series";
  minTime ← BlockReader.varint "metaindex min time";
  maxTime ← BlockReader.varint "metaindex max time";
  mret (minSeries, maxSeries, minTime, maxTime).
Definition readMetaIndexRow : reader metaIndexRow :=
  '(minSeries, maxSeries, minTime, maxTime) ← readMetaIndexBounds;
  fieldIDs ← readUint32Slice "metaindex field id count";
  indexRef ← readBlockRef;
  mret (mkMetaIndexRow minSeries maxSeries minTime maxTime fieldIDs indexRef).
Definition appendSeriesIndexRow (row : seriesIndexRow) : outcome bytes :=
  ref ← appendBlockRef (si_IndexRef row);
  Ok (appendUvarint (si_SeriesID row) ++ appendVarint (si_MinTime row) ++ appendVarint (si_MaxTime row)
      ++ appendUint32Slice (si_FieldIDs row) ++ ref).
Definition readSeriesIndexRow : reader seriesIndexRow :=
  seriesID ← BlockReader.uvarint "series index series id";
  minTime ← BlockReader.varint "series index min time";
  maxTime ← BlockReader.varint "series index max time";
  fieldIDs ← readUint32Slice "series index field id count";
  indexRef ← readBlockRef;
  mret (mkSeriesIndexRow seriesID minTime maxTime fieldIDs indexRef).

(** A counted list of rows in an envelope. *)
Definition encodeRows {A} (magic : bytes) (enc : A -> outcome bytes) (rows : list A) : outcome bytes :=
  body ← appendEach enc rows;
  Ok (MarshalEnvelope magic 0 (appendUvarint (len rows) ++ body)).
Definition decodeRows {A} (magic : bytes) (name done : string) (elemSize : Z) (dec : reader A) (data : bytes)
    : outcome (list A) :=
  env ← UnmarshalEnvelope data magic;
  '(rows, _) ← (count ← BlockReader.intCount name;
     _ ← rmake elemSize count;
     rows ← read_n (Z.to_nat count) dec;
     _ ← BlockReader.done done;
     mret rows) (env_Payload env);
  Ok rows.
Definition encodeMetaIndexRows : list metaIndexRow -> outcome bytes := encodeRows metaIndexMagic appendMetaIndexRow.
Definition decodeMetaIndexRows : bytes -> outcome (list metaIndexRow) :=
  decodeRows metaIndexMagic "metaindex row count" "metaindex rows" 72 readMetaIndexRow.
Definition encodeSeriesIndexRows : list seriesIndexRow -> outcome bytes :=
  encodeRows seriesIndexMagic appendSeriesIndexRow.
Definition decodeSeriesIndexRows : bytes -> outcome (list seriesIndexRow) :=
  decodeRows seriesIndexMagic "series index row count" "series index rows" 64 readSeriesIndexRow.

(** ** Manifest *)
Definition encodeManifest (manifest : Manifest) : outcome bytes :=
  parts ← appendEach appendPartMeta (mf_Parts manifest);
  Ok (MarshalEnvelope manifestMagic manifestFlagSequence
        (appendUvarint (mf_Sequence manifest) ++ appendUvarint (len (mf_Parts manifest)) ++ parts)).
Definition decodeManifest (data : bytes) : outcome Manifest :=
  env ← UnmarshalEnvelope data manifestMagic;
  '(manifest, _) ← (sequence ← (if negb (Z.land (env_Flags env) manifestFlagSequence =? 0)
                                then BlockReader.uvarint "manifest sequence" else mret 0);
     count ← BlockReader.intCount "manifest part count";
     _ ← rmake 104 count;
     parts ← read_n (Z.to_nat count) readPartMeta;
     _ ← BlockReader.done "manifest";
     mret (mkManifest sequence parts)) (env_Payload env);
  Ok manifest.
Definition partMetaLess (left right : PartMeta) : bool :=
  if negb (pm_Level left =? pm_Level right) then pm_Level left <? pm_Level right
  else bytes_ltb (pm_ID left) (pm_ID right).
Definition normalizeManifest `{GoRuntime} (manifest : Manifest) : Manifest :=
  mkManifest (mf_Sequence manifest) (sort_Slice partMetaLess (mf_Parts manifest)).

(** * Round trips of the part metadata

    The envelope built in place is the one of the codec package, and every
    decoder returns what its encoder was given. *)
(** ** The envelope *)
Lemma copy_at_same (a b c src : bytes) : length src = length b ->
  copy_at (length a) src (a ++ b ++ c) = a ++ src ++ c.
Proof.
  intros Hl. unfold copy_at. rewrite !length_app.
  replace (Nat.min (length a + (length b + length c) - length a) (length src)) with (length src) by lia.
  rewrite take_app_length, firstn_all, drop_app_add. by rewrite drop_app_length'.
Qed.

Lemma finishEnvelope_marshal magic payload : len payload <= maxInt ->
  finishEnvelope (appendEnvelopePrefix magic ++ payload) (len (appendEnvelopePrefix magic))
  = MarshalEnvelope magic 0 payload.
Proof.
  intros Hp. unfold finishEnvelope, MarshalEnvelope, appendEnvelopePrefix.
  set (m := take 7 (magic ++ replicate 7 0)). change (appendMagic magic) with m.
  replace (len ((m ++ le_put_u16 0 ++ replicate (Z.to_nat envelopeReservedLenBytes) 0) ++ payload)
           - len (m ++ le_put_u16 0 ++ replicate (Z.to_nat envelopeReservedLenBytes) 0)) with (len payload)
    by (unfold len; rewrite !length_app; lia).
  rewrite u64_id by (unfold is_u64, maxInt, len in *; lia).
  set (u := appendUvarint (len payload)).
  assert (length u <= 10)%nat as Hu by apply (uvarint_groups_length 9).
  set (head := m ++ le_put_u16 0).
  assert (m ++ le_put_u16 0 ++ replicate (Z.to_nat envelopeReservedLenBytes) 0
    = head ++ replicate (length u) 0 ++ replicate (10 - length u) 0) as ->.
  { unfold head. rewrite <- (assoc_L (++)). f_equal. f_equal. rewrite <- replicate_add. f_equal.
    change (Z.to_nat envelopeReservedLenBytes) with 10%nat. lia. }
  set (z1 := replicate (length u) 0). set (z2 := replicate (10 - length u) 0).
  assert (length z1 = length u) as Hz1 by apply length_replicate.
  assert (length z2 = (10 - length u)%nat) as Hz2 by apply length_replicate.
  assert (len (head ++ z1 ++ z2) = len head + 10) as -> by (unfold len; rewrite !length_app; lia).
  change envelopeReservedLenBytes with 10.
  replace (Z.to_nat (len head + 10)) with (length (head ++ z1 ++ z2)) by (unfold len; rewrite !length_app; lia).
  rewrite drop_app_length.
  replace (Z.to_nat (len head + 10 - 10)) with (length head) by (unfold len; lia).
  replace (Z.to_nat (len head + 10 - 10 + len u)) with (length (head ++ z1)) by (unfold len; rewrite length_app; lia).
  replace (Z.to_nat (len ((head ++ z1 ++ z2) ++ payload) - (10 - len u)))
    with (length (head ++ z1 ++ payload)) by (unfold len; rewrite !length_app; lia).
  assert (take (length (head ++ z1 ++ payload))
            (copy_at (length (head ++ z1)) payload ((head ++ z1 ++ z2) ++ payload)) = head ++ z1 ++ payload) as ->.
  { unfold copy_at. replace (Nat.min _ (length payload)) with (length payload) by (rewrite !length_app; lia).
    rewrite firstn_all.
    replace ((head ++ z1 ++ z2) ++ payload) with ((head ++ z1) ++ z2 ++ payload) by by rewrite <- !(assoc_L (++)).
    rewrite take_app_length, (assoc_L (++) (head ++ z1)), <- (assoc_L (++) head), take_app_length'; [done|].
    by rewrite !length_app. }
  assert (copy_at (length head) u (head ++ z1 ++ payload) = head ++ u ++ payload) as -> by by apply copy_at_same.
  unfold head. by rewrite <- !(assoc_L (++)).
Qed.

(** ** Well-formed metadata: machine-width fields, lengths that fit *)
Definition ref_ok (ref : blockRef) : Prop := 0 <= br_Offset ref <= maxInt /\ 0 <= br_Size ref <= maxInt.
Definition columnRef_ok (c : columnRef) : Prop := is_u32 (cr_FieldID c) /\ is_byte (cr_FieldType c) /\ ref_ok (cr_ValueRef c).
Record indexRow_ok (row : indexRow) : Prop := {
  io_series : is_u64 (ir_SeriesID row);
  io_min : is_i64 (ir_MinTime row);
  io_max : is_i64 (ir_MaxTime row);
  io_time : ref_ok (ir_TimeRef row);
  io_columns : Forall columnRef_ok (ir_Columns row);
  io_fits : fits (len (ir_Columns row));
}.
Definition u32s_ok (l : list Z) : Prop := Forall is_u32 l /\ fits (len l).
Record metaIndexRow_ok (row : metaIndexRow) : Prop := {
  mo_minSeries : is_u64 (mi_MinSeriesID row);
  mo_maxSeries : is_u64 (mi_MaxSeriesID row);
  mo_min : is_i64 (mi_MinTime row);
  mo_max : is_i64 (mi_MaxTime row);
  mo_fields : u32s_ok (mi_FieldIDs row);
  mo_ref : ref_ok (mi_IndexRef row);
}.
Record seriesIndexRow_ok (row : seriesIndexRow) : Prop := {
  so_series : is_u64 (si_SeriesID row);
  so_min : is_i64 (si_MinTime row);
  so_max : is_i64 (si_MaxTime row);
  so_fields : u32s_ok (si_FieldIDs row);
  so_ref : ref_ok (si_IndexRef row);
}.
Record partMeta_ok (m : PartMeta) : Prop := {
  po_id : string_ok (pm_ID m);
  po_level : is_i64 (pm_Level m);
  po_min : is_i64 (pm_MinTime m);
  po_max : is_i64 (pm_MaxTime m);
  po_minSeries : is_u64 (pm_MinSeriesID m);
  po_maxSeries : is_u64 (pm_MaxSeriesID m);
  po_rows : 0 <= pm_RowsCount m <= maxInt;
  po_seriesCount : 0 <= pm_SeriesCount m <= maxInt;
  po_blocks : 0 <= pm_BlockCount m <= maxInt;
  po_seq : is_u64 (pm_MaxWriteSeq m);
  po_path : string_ok (pm_Path m);
}.

(** [decodes dec enc a]: encoding succeeds and the decoder reads it back. *)
Definition decodes {A} (dec : reader A) (enc : A -> outcome bytes) (a : A) : Prop :=
  exists bs, enc a = Ok bs /\ reads_back dec bs a.

(** [rd] reads one element after the other with the lemmas of the readers. *)
Ltac rd :=
  first
  [ apply reads_back_ret
  | eapply reads_back_bind; [solve [eauto with reads]|]
  | eapply reads_back_bind_nil; [solve [eauto with reads]|] ].

Lemma maxInt_u64 x : 0 <= x <= maxInt -> is_u64 x.
Proof. wrap_lia. Qed.
#[export] Hint Resolve maxInt_u64 : reads.

Lemma blockRef_decodes ref : ref_ok ref -> decodes readBlockRef appendBlockRef ref.
Proof.
  intros [Ho Hs]. unfold decodes, appendBlockRef. destruct ref as [o s]. simpl in *.
  assert ((o <? 0) = false) as -> by zb. assert ((s <? 0) = false) as -> by zb.
  eexists. split; [done|]. unfold readBlockRef. do 2 rd.
  assert ((maxInt <? o) = false) as -> by zb. assert ((maxInt <? s) = false) as -> by zb. rd.
Qed.

Lemma appendEach_decodes {A} (dec : reader A) enc l : Forall (decodes dec enc) l ->
  exists bs, appendEach enc l = Ok bs /\ reads_back (read_n (length l) dec) bs l.
Proof.
  induction 1 as [|a l (b & Eb & Hb) HF (bs & E & Hr)]; [by exists []; split; [|apply reads_back_ret]|].
  exists (b ++ bs). simpl. rewrite Eb, E. split; [done|].
  eapply reads_back_bind; [exact Hb|]. eapply reads_back_bind_nil; [exact Hr|]. apply reads_back_ret.
Qed.

Lemma fits_count n : 0 <= n -> fits n -> 0 <= n <= maxInt.
Proof. intros. alloc_lia. Qed.
#[export] Hint Resolve fits_count len_nonneg : reads.

Lemma uint32Slice_reads name l : u32s_ok l -> reads_back (readUint32Slice name) (appendUint32Slice l) l.
Proof.
  intros [HF Hf]. unfold readUint32Slice, appendUint32Slice. rd. apply reads_back_make; [apply len_nonneg|alloc_lia|].
  rewrite count_nat. apply reads_back_read_n. eapply Forall_impl; [exact HF|]. intros x Hx. eauto with reads.
Qed.
Lemma stringSlice_reads name l : Forall string_ok l -> fits (len l) ->
  reads_back (readStringSlice name) (appendStringSlice l) l.
Proof.
  intros HF Hf. unfold readStringSlice, appendStringSlice. rd. apply reads_back_make; [apply len_nonneg|alloc_lia|].
  rewrite count_nat. apply reads_back_read_n. eapply Forall_impl; [exact HF|]. intros x Hx. unfold BlockReader.string. eauto with reads.
Qed.

Lemma u8_byte b : is_byte b -> u8 b = b.
Proof. wrap_lia. Qed.

Lemma columnRef_decodes c : columnRef_ok c -> decodes readColumnRef appendColumnRef c.
Proof.
  intros (Hf & Ht & Hr). destruct (blockRef_decodes _ Hr) as (bs & E & Hb).
  unfold decodes, appendColumnRef. rewrite E. eexists. split; [done|]. rewrite u8_byte by done.
  unfold readColumnRef. do 2 rd. eapply reads_back_bind_nil; [exact Hb|]. by destruct c.
Qed.

Lemma containsField_empty x : containsField ∅ x = true.
Proof. unfold containsField. by rewrite bool_decide_true. Qed.

Lemma columnRefs_reads filter_ l : Forall columnRef_ok l -> fits (len l) ->
  exists bs, appendEach appendColumnRef l = Ok bs /\
    reads_back (readFilteredColumnRefsInto filter_) (appendUvarint (len l) ++ bs)
      (filter (fun c => containsField filter_ (cr_FieldID c)) l) /\
    reads_back skipColumnRefs (appendUvarint (len l) ++ bs) tt.
Proof.
  intros HF Hf. destruct (appendEach_decodes readColumnRef appendColumnRef l) as (bs & E & Hr).
  { eapply Forall_impl; [exact HF|apply columnRef_decodes]. }
  exists bs. split; [done|]. rewrite <- count_nat in Hr. split.
  - unfold readFilteredColumnRefsInto. rd. apply reads_back_make; [pose proof (len_nonneg l); case_match; lia| |].
    { destruct (0 <? Z.of_nat (size filter_)), (Z.of_nat (size filter_) <? len l) eqn:E2; simpl; alloc_lia. }
    eapply reads_back_bind_nil; [exact Hr|]. rd.
  - unfold skipColumnRefs. rd. eapply reads_back_bind_nil; [exact Hr|]. rd.
Qed.

Lemma indexRowCore_reads minTime maxTime ref bs : is_i64 minTime -> is_i64 maxTime -> reads_back readBlockRef bs ref ->
  reads_back readIndexRowCore (appendVarint minTime ++ appendVarint maxTime ++ bs) (minTime, maxTime, ref).
Proof. intros ?? Hr. unfold readIndexRowCore. do 2 rd. eapply reads_back_bind_nil; [exact Hr|]. rd. Qed.

Lemma filter_containsField_empty (l : list columnRef) : filter (fun c => containsField ∅ (cr_FieldID c)) l = l.
Proof. apply keep_all, Forall_forall. intros. apply containsField_empty. Qed.

Lemma indexRow_decodes row : indexRow_ok row -> decodes readIndexRow appendIndexRow row.
Proof.
  intros Hok. destruct (blockRef_decodes _ (io_time _ Hok)) as (tb & Et & Ht).
  destruct (columnRefs_reads ∅ (ir_Columns row)) as (cb & Ec & Hc & _); [apply Hok..|].
  rewrite filter_containsField_empty in Hc.
  unfold decodes, appendIndexRow. rewrite Et. simpl. rewrite Ec. eexists. split; [done|].
  unfold readIndexRow. eapply reads_back_bind; [apply rd_uvarint_append, Hok|].
  eapply reads_back_eq; [|by rewrite !(assoc_L (++)), <- (assoc_L (++) _ (appendUvarint _)), <- (assoc_L (++) (appendVarint _))].
  eapply reads_back_bind; [apply indexRowCore_reads; [apply Hok..|exact Ht]|].
  eapply reads_back_bind_nil; [exact Hc|]. by destruct row.
Qed.

(** ** Rows in an envelope *)
Lemma decodeRows_encode {A} magic name done_ elemSize (dec : reader A) enc l data :
  len magic = envelopeMagicLen -> Forall (decodes dec enc) l -> fits (len l) -> 0 <= elemSize <= 104 ->
  encodeRows magic enc l = Ok data -> len data <= maxInt ->
  decodeRows magic name done_ elemSize dec data = Ok l.
Proof.
  intros Hm HF Hf He. unfold encodeRows. destruct (appendEach_decodes dec enc l HF) as (bs & -> & Hr).
  intros [= <-] Hlen. rewrite MarshalEnvelope_length in Hlen. pose proof (appendUvarint_pos (len (appendUvarint (len l) ++ bs))).
  unfold decodeRows. rewrite UnmarshalEnvelope_marshal by (done || lia). simpl.
  rewrite (run_bind _ _ (appendUvarint (len l)) bs (len l) (Ok (l, []))); [done|eauto with reads|].
  apply run_make; [apply len_nonneg|pose proof (len_nonneg l); unfold fits, maxAlloc in *; nia|].
  rewrite count_nat. by rewrite (run_bind_nil _ _ bs l (Ok (l, []))).
Qed.

Lemma metaIndexRow_decodes row : metaIndexRow_ok row -> decodes readMetaIndexRow appendMetaIndexRow row.
Proof.
  intros Hok. destruct (blockRef_decodes _ (mo_ref _ Hok)) as (rb & Er & Hr).
  unfold decodes, appendMetaIndexRow. rewrite Er. eexists. split; [done|].
  unfold readMetaIndexRow, readMetaIndexBounds.
  eapply reads_back_eq; [|by rewrite !(assoc_L (++)), <- (assoc_L (++) _ (appendUint32Slice _))].
  eapply reads_back_bind.
  { rewrite <- !(assoc_L (++)). destruct Hok. repeat rd. }
  eapply reads_back_bind; [apply uint32Slice_reads, Hok|]. eapply reads_back_bind_nil; [exact Hr|]. by destruct row.
Qed.

Lemma seriesIndexRow_decodes row : seriesIndexRow_ok row -> decodes readSeriesIndexRow appendSeriesIndexRow row.
Proof.
  intros Hok. destruct (blockRef_decodes _ (so_ref _ Hok)) as (rb & Er & Hr).
  unfold decodes, appendSeriesIndexRow. rewrite Er. eexists. split; [done|].
  unfold readSeriesIndexRow. destruct Hok. do 3 rd.
  eapply reads_back_bind; [by apply uint32Slice_reads|]. eapply reads_back_bind_nil; [exact Hr|]. by destruct row.
Qed.

Lemma metaIndexRows_roundtrip rows data : Forall metaIndexRow_ok rows -> fits (len rows) ->
  encodeMetaIndexRows rows = Ok data -> len data <= maxInt -> decodeMetaIndexRows data = Ok rows.
Proof.
  intros HF Hf E Hl. eapply decodeRows_encode; [done| |done|lia|exact E|done].
  eapply Forall_impl; [exact HF|apply metaIndexRow_decodes].
Qed.
Lemma seriesIndexRows_roundtrip rows data : Forall seriesIndexRow_ok rows -> fits (len rows) ->
  encodeSeriesIndexRows rows = Ok data -> len data <= maxInt -> decodeSeriesIndexRows data = Ok rows.
Proof.
  intros HF Hf E Hl. eapply decodeRows_encode; [done| |done|lia|exact E|done].
  eapply Forall_impl; [exact HF|apply seriesIndexRow_decodes].
Qed.

(** ** Index rows, decoded at once and as a stream *)
Lemma encodeIndexRowsInto_marshal rows bs : appendEach appendIndexRow rows = Ok bs ->
  len (appendUvarint (len rows) ++ bs) <= maxInt ->
  encodeIndexRowsInto rows = Ok (MarshalEnvelope indexMagic 0 (appendUvarint (len rows) ++ bs)).
Proof. intros E Hl. unfold encodeIndexRowsInto. rewrite E. cbn [mbind outcome_bind].
  by rewrite finishEnvelope_marshal. Qed.

Definition rows_len (rows : list indexRow) : Z :=
  match appendEach appendIndexRow rows with Ok bs => len (appendUvarint (len rows) ++ bs) | _ => 0 end.

Lemma indexRows_encode rows : Forall indexRow_ok rows -> rows_len rows <= maxInt ->
  exists bs, appendEach appendIndexRow rows = Ok bs /\ reads_back (read_n (length rows) readIndexRow) bs rows /\
    encodeIndexRowsInto rows = Ok (MarshalEnvelope indexMagic 0 (appendUvarint (len rows) ++ bs)).
Proof.
  intros HF. destruct (appendEach_decodes readIndexRow appendIndexRow rows) as (bs & E & Hr).
  { eapply Forall_impl; [exact HF|apply indexRow_decodes]. }
  unfold rows_len. rewrite E. intros Hl. exists bs. split_and!; [done..|]. by apply encodeIndexRowsInto_marshal.
Qed.

Lemma indexRows_roundtrip rows data : Forall indexRow_ok rows -> fits (len rows) -> rows_len rows <= maxInt ->
  encodeIndexRowsInto rows = Ok data -> decodeIndexRows data = Ok rows.
Proof.
  intros HF Hf Hl. destruct (indexRows_encode rows HF Hl) as (bs & Ea & Hr & ->). intros [= <-].
  unfold rows_len in Hl. rewrite Ea in Hl.
  unfold decodeIndexRows. rewrite UnmarshalEnvelope_marshal by (done || lia). simpl.
  rewrite (run_bind _ _ (appendUvarint (len rows)) bs (len rows) (Ok (rows, []))); [done|eauto with reads|].
  apply run_make; [apply len_nonneg|alloc_lia|].
  rewrite count_nat. by rewrite (run_bind_nil _ _ bs rows (Ok (rows, []))).
Qed.

(** A stream that has [rows] in front of it. *)
Definition stream_at (s : indexRowStream) (rows : list indexRow) : Prop :=
  rs_remaining s = len rows /\ appendEach appendIndexRow rows = Ok (rs_rest s).

Lemma newIndexRowStream_at rows data : Forall indexRow_ok rows -> fits (len rows) -> rows_len rows <= maxInt ->
  encodeIndexRowsInto rows = Ok data -> exists s, newIndexRowStream data = Ok s /\ stream_at s rows.
Proof.
  intros HF Hf Hl. destruct (indexRows_encode rows HF Hl) as (bs & Ea & Hr & ->). intros [= <-].
  unfold rows_len in Hl. rewrite Ea in Hl. exists (mkIndexRowStream bs (len rows)). split; [|done].
  unfold newIndexRowStream, UnmarshalEnvelopeView.
  assert (unmarshalEnvelope (MarshalEnvelope indexMagic 0 (appendUvarint (len rows) ++ bs)) indexMagic
    = Ok (mkEnvelope indexMagic 0 (appendUvarint (len rows) ++ bs))) as ->.
  { pose proof (UnmarshalEnvelope_marshal indexMagic 0 (appendUvarint (len rows) ++ bs)) as Hu.
    unfold UnmarshalEnvelope in Hu. destruct (unmarshalEnvelope _ _) as [[]| |]; simpl in Hu;
      rewrite <- Hu by (done || lia); done. }
  simpl. unfold BlockReader.intCount. by rewrite (rd_intCount_append _ _ (len rows) ltac:(eauto with reads) bs).
Qed.

Definition row_header (row : indexRow) : indexRowHeader :=
  mkIndexRowHeader (ir_SeriesID row) (ir_MinTime row) (ir_MaxTime row) (ir_TimeRef row).

Lemma nextHeader_end s : stream_at s [] -> nextHeader s = Ok (None, s) /\ stream_done s = Ok tt.
Proof.
  intros [Hr Hb]. destruct s as [rest n]. simpl in *. injection Hb as <-. subst n. done.
Qed.

(** One row: its header, then its columns, filtered or skipped. *)
Lemma nextHeader_row s row rows : stream_at s (row :: rows) -> indexRow_ok row ->
  exists s1, nextHeader s = Ok (Some (row_header row), s1) /\
    (forall filter_, exists s2, appendFilteredColumnRefs s1 filter_ =
        Ok (filter (fun c => containsField filter_ (cr_FieldID c)) (ir_Columns row), s2) /\ stream_at s2 rows) /\
    (exists s2, stream_skipColumnRefs s1 = Ok s2 /\ stream_at s2 rows).
Proof.
  intros [Hr Hb] Hok. destruct s as [rest n]. simpl in *.
  destruct (blockRef_decodes _ (io_time _ Hok)) as (tb & Et & Ht).
  destruct (columnRefs_reads ∅ (ir_Columns row)) as (cb & Ec & _ & _); [apply Hok..|].
  assert (exists b, appendIndexRow row = Ok b /\ b = appendUvarint (ir_SeriesID row) ++ (appendVarint (ir_MinTime row)
    ++ appendVarint (ir_MaxTime row) ++ tb) ++ appendUvarint (len (ir_Columns row)) ++ cb) as (b & Er & ->).
  { unfold appendIndexRow. rewrite Et. simpl. rewrite Ec. eexists. split; [done|]. by rewrite <- !(assoc_L (++)). }
  rewrite Er in Hb. simpl in Hb.
  destruct (appendEach appendIndexRow rows) as [more| |] eqn:Em; [|done|done]. injection Hb as <-.
  exists (mkIndexRowStream ((appendUvarint (len (ir_Columns row)) ++ cb) ++ more) (len rows)). split_and!.
  - unfold nextHeader. simpl. subst n. assert ((len (row :: rows) =? 0) = false) as -> by (apply Z.eqb_neq; unfold len; simpl; lia).
    rewrite <- (assoc_L (++) (appendUvarint _)), <- (assoc_L (++) (_ ++ _ ++ _)).
    rewrite (run_bind _ _ _ _ (ir_SeriesID row)
      (Ok (row_header row, (appendUvarint (len (ir_Columns row)) ++ cb) ++ more)));
      [|apply rd_uvarint_append, Hok|].
    { simpl. repeat f_equal. unfold len. simpl. lia. }
    eapply run_bind; [apply indexRowCore_reads; [apply Hok..|exact Ht]|done].
  - intros filter_. destruct (columnRefs_reads filter_ (ir_Columns row)) as (cb' & Ec' & Hc & _); [apply Hok..|].
    rewrite Ec in Ec'. injection Ec' as <-. exists (mkIndexRowStream more (len rows)). split; [|done].
    unfold appendFilteredColumnRefs. simpl. by rewrite Hc.
  - destruct (columnRefs_reads ∅ (ir_Columns row)) as (cb' & Ec' & _ & Hc); [apply Hok..|].
    rewrite Ec in Ec'. injection Ec' as <-. exists (mkIndexRowStream more (len rows)). split; [|done].
    unfold stream_skipColumnRefs. simpl. by rewrite Hc.
Qed.

(** ** Part metadata and manifest *)
Lemma partMeta_build m : buildPartMeta (pm_ID m) (pm_Level m) (pm_MinTime m, pm_MaxTime m)
  (pm_MinSeriesID m, pm_MaxSeriesID m) (mkPartCounts (pm_RowsCount m) (pm_SeriesCount m) (pm_BlockCount m) (pm_MaxWriteSeq m))
  (pm_Path m) = m.
Proof. by destruct m. Qed.

Lemma partMeta_decodes m : partMeta_ok m -> decodes readPartMeta appendPartMeta m.
Proof.
  intros []. unfold decodes, appendPartMeta, appendPartMetaCounts.
  assert ((pm_RowsCount m <? 0) = false) as -> by zb. assert ((pm_SeriesCount m <? 0) = false) as -> by zb.
  assert ((pm_BlockCount m <? 0) = false) as -> by zb. eexists. split; [done|].
  assert (reads_back readPartTimes (appendVarint (pm_MinTime m) ++ appendVarint (pm_MaxTime m))
            (pm_MinTime m, pm_MaxTime m)) as Ht by (unfold readPartTimes; repeat rd).
  assert (reads_back readPartSeries (appendUvarint (pm_MinSeriesID m) ++ appendUvarint (pm_MaxSeriesID m))
            (pm_MinSeriesID m, pm_MaxSeriesID m)) as Hs by (unfold readPartSeries; repeat rd).
  assert (reads_back readPartCounts (appendUvarint (pm_RowsCount m) ++ appendUvarint (pm_SeriesCount m)
            ++ appendUvarint (pm_BlockCount m) ++ appendUvarint (pm_MaxWriteSeq m))
            (mkPartCounts (pm_RowsCount m) (pm_SeriesCount m) (pm_BlockCount m) (pm_MaxWriteSeq m))) as Hc
    by (unfold readPartCounts; repeat rd).
  unfold readPartMeta. eapply reads_back_bind; [by apply rd_string_append|].
  eapply reads_back_bind; [by apply rd_varint_append|].
  eapply reads_back_eq.
  - eapply reads_back_bind; [exact Ht|]. eapply reads_back_bind; [exact Hs|]. eapply reads_back_bind; [exact Hc|].
    eapply reads_back_bind_nil; [by apply (rd_string_append _ (pm_Path m))|].
    rewrite partMeta_build. apply reads_back_ret.
  - by rewrite <- !(assoc_L (++)).
Qed.

Definition manifest_ok (manifest : Manifest) : Prop :=
  is_u64 (mf_Sequence manifest) /\ Forall partMeta_ok (mf_Parts manifest) /\ fits (len (mf_Parts manifest)).
Lemma manifest_decodes manifest data : manifest_ok manifest ->
  encodeManifest manifest = Ok data -> len data <= maxInt -> decodeManifest data = Ok manifest.
Proof.
  intros (Hs & HF & Hf). unfold encodeManifest.
  destruct (appendEach_decodes readPartMeta appendPartMeta (mf_Parts manifest)) as (bs & -> & Hr).
  { eapply Forall_impl; [exact HF|apply partMeta_decodes]. }
  intros [= <-] Hl. rewrite MarshalEnvelope_length in Hl.
  pose proof (appendUvarint_pos (len (appendUvarint (mf_Sequence manifest) ++ appendUvarint (len (mf_Parts manifest)) ++ bs))).
  unfold decodeManifest. rewrite UnmarshalEnvelope_marshal by (done || lia). simpl.
  erewrite run_bind; [|by apply rd_uvarint_append|reflexivity].
  erewrite run_bind; [|by apply rd_intCount_append, fits_count; [apply len_nonneg|]|reflexivity].
  erewrite run_make; [|apply len_nonneg|alloc_lia|reflexivity].
  rewrite count_nat. erewrite run_bind_nil; [|exact Hr|reflexivity]. by destruct manifest.
Qed.

Record metadata_ok (m : metadata) : Prop := {
  do_part : partMeta_ok (md_Part m);
  do_index : ref_ok (md_IndexRef m);
  do_metaindex : ref_ok (md_MetaIndexRef m);
  do_series : ref_ok (md_SeriesIndexRef m);
  do_components : Forall string_ok (md_Components m) /\ md_Components m <> [];
  do_fits : fits (len (md_Components m));
  do_sizes : md_ComponentSizes m = ∅ \/
    (dom (md_ComponentSizes m) = list_to_set (md_Components m) /\ map_Forall (fun _ n => 0 <= n <= maxInt) (md_ComponentSizes m));
  do_created : is_i64 (md_CreatedUnix m);
}.

Lemma metadataComponents_id l : l <> [] -> metadataComponents l = l.
Proof.
  intros Hl. unfold metadataComponents. assert ((len l =? 0) = false) as ->; [|done].
  apply Z.eqb_neq. destruct l; [done|]. unfold len. simpl. lia.
Qed.

(** Sizes are read back in the order of the names. *)
Definition sizesFrom (sizes : gmap bytes Z) (acc : gmap bytes Z) (components : list bytes) : gmap bytes Z :=
  foldl (fun m name => <[name := default 0 (sizes !! name)]> m) acc components.
Lemma readSizes_reads sizes components :
  (forall name, name ∈ components -> 0 <= default 0 (sizes !! name) <= maxInt) -> forall acc,
  reads_back (readSizes components acc)
    (concat (map (fun name => appendVarint (default 0 (sizes !! name))) components)) (sizesFrom sizes acc components).
Proof.
  induction components as [|name l IH]; intros Hs acc; [apply reads_back_ret|]. simpl.
  assert (0 <= default 0 (sizes !! name) <= maxInt) as Hn by (apply Hs; left).
  eapply reads_back_bind; [apply rd_varint_append; wrap_lia|].
  assert ((default 0 (sizes !! name) <? 0) = false) as -> by zb.
  apply IH. intros x Hx. apply Hs. by right.
Qed.
Lemma sizesFrom_lookup sizes components : forall acc name, sizesFrom sizes acc components !! name =
  if decide (name ∈ components) then Some (default 0 (sizes !! name)) else acc !! name.
Proof.
  induction components as [|x l IH]; intros acc name.
  { rewrite decide_False; [done|apply not_elem_of_nil]. }
  change (sizesFrom sizes acc (x :: l)) with (sizesFrom sizes (<[x := default 0 (sizes !! x)]> acc) l). rewrite IH. destruct (decide (name ∈ l)); [by rewrite decide_True by (by right)|].
  destruct (decide (name = x)) as [->|Hne].
  - rewrite decide_True by left. apply lookup_insert_eq.
  - rewrite decide_False by (intros [->|?]%elem_of_cons; done). by rewrite lookup_insert_ne.
Qed.
Lemma sizesFrom_id sizes components : dom sizes = list_to_set components -> sizesFrom sizes ∅ components = sizes.
Proof.
  intros Hd. apply map_eq. intros name. rewrite sizesFrom_lookup. case_decide as Hin.
  - assert (name ∈ dom sizes) as [n ->]%elem_of_dom; [|done]. rewrite Hd. by apply elem_of_list_to_set.
  - rewrite lookup_empty. symmetry. apply not_elem_of_dom. rewrite Hd. by rewrite elem_of_list_to_set.
Qed.
Lemma componentSizes_reads components sizes : fits (len components) -> dom sizes = list_to_set components ->
  map_Forall (fun _ n => 0 <= n <= maxInt) sizes ->
  reads_back (readComponentSizes components) (appendComponentSizes components sizes) sizes.
Proof.
  intros Hf Hd Hs. unfold readComponentSizes, appendComponentSizes. rd. rewrite Z.eqb_refl. simpl.
  enough (forall name, name ∈ components -> 0 <= default 0 (sizes !! name) <= maxInt) as Hn.
  { pose proof (readSizes_reads sizes components Hn ∅) as Hr. by rewrite (sizesFrom_id sizes components Hd) in Hr. }
  intros name Hn. assert (name ∈ dom sizes) as [n E]%elem_of_dom by (rewrite Hd; by apply elem_of_list_to_set).
  rewrite E. by apply (Hs name).
Qed.

Lemma restOf_bind {B} (k : bytes -> reader B) s : (restOf ≫= k) s = k s s.
Proof. done. Qed.

(** The tail, whose decoder looks whether anything is left. *)
Lemma metadataTail_reads m flags rb1 rb2 rb3 sb : metadata_ok m ->
  reads_back readBlockRef rb1 (md_IndexRef m) -> reads_back readBlockRef rb2 (md_MetaIndexRef m) ->
  reads_back readBlockRef rb3 (md_SeriesIndexRef m) -> (Z.land flags partMetadataFlagComponents =? 0) = false ->
  reads_back (if negb (Z.land flags partMetadataFlagComponentSizes =? 0)
              then readComponentSizes (metadataComponents (md_Components m)) else mret ∅) sb (md_ComponentSizes m) ->
  reads_back (readMetadataTail flags)
    (rb1 ++ rb2 ++ rb3 ++ appendVarint (md_CreatedUnix m) ++ appendStringSlice (md_Components m) ++ sb)
    (md_IndexRef m, md_MetaIndexRef m, md_SeriesIndexRef m, md_CreatedUnix m, md_Components m, md_ComponentSizes m).
Proof.
  intros [] H1 H2 H3 Hf Hs. unfold readMetadataTail. do 3 (eapply reads_back_bind; [eassumption|]). rd.
  intros rest. rewrite restOf_bind, Hf. simpl. revert rest.
  eapply reads_back_bind; [apply stringSlice_reads; [apply do_components0|done]|].
  eapply reads_back_bind_nil; [exact Hs|]. rd.
Qed.

Lemma metadata_decodes m data : metadata_ok m -> encodeMetadata m = Ok data -> len data <= maxInt ->
  decodeMetadata data = Ok m.
Proof.
  intros Hok. pose proof Hok as []. unfold encodeMetadata.
  destruct (partMeta_decodes _ do_part0) as (pb & -> & Hp). simpl.
  destruct (blockRef_decodes _ do_index0) as (rb1 & -> & H1). simpl.
  destruct (blockRef_decodes _ do_metaindex0) as (rb2 & -> & H2). simpl.
  destruct (blockRef_decodes _ do_series0) as (rb3 & -> & H3). cbn [mbind outcome_bind].
  rewrite metadataComponents_id by apply do_components0.
  assert (forall flags sb, 0 <= flags < 2 ^ 16 -> (Z.land flags partMetadataFlagComponents =? 0) = false ->
    reads_back (if negb (Z.land flags partMetadataFlagComponentSizes =? 0)
      then readComponentSizes (metadataComponents (md_Components m)) else mret ∅) sb (md_ComponentSizes m) ->
    len (MarshalEnvelope partMagic flags (pb ++ rb1 ++ rb2 ++ rb3 ++ appendVarint (md_CreatedUnix m)
      ++ appendStringSlice (md_Components m) ++ sb)) <= maxInt ->
    decodeMetadata (MarshalEnvelope partMagic flags (pb ++ rb1 ++ rb2 ++ rb3 ++ appendVarint (md_CreatedUnix m)
      ++ appendStringSlice (md_Components m) ++ sb)) = Ok m) as Hdec.
  { intros flags sb Hfl Hf Hs Hl. rewrite MarshalEnvelope_length in Hl.
    match type of Hl with 13 + len (appendUvarint ?n) + _ <= _ => pose proof (appendUvarint_pos n) end.
    unfold decodeMetadata. rewrite UnmarshalEnvelope_marshal by (done || lia). cbn [mbind outcome_bind env_Payload env_Flags].
    erewrite run_bind; [|exact Hp|reflexivity].
    erewrite run_bind_nil; [|exact (metadataTail_reads m flags rb1 rb2 rb3 sb Hok H1 H2 H3 Hf Hs)|reflexivity]. cbn [mbind].
    rewrite metadataComponents_id by apply do_components0. by destruct m. }
  case_bool_decide as He; intros [= <-] Hl.
  - specialize (Hdec partMetadataFlagComponents []). rewrite !app_nil_r in Hdec.
    refine (Hdec _ _ _ Hl); [by split|done|]. rewrite He. apply reads_back_ret.
  - destruct do_sizes0 as [?|[Hd Hs]]; [done|].
    specialize (Hdec (Z.lor partMetadataFlagComponents partMetadataFlagComponentSizes)
      (appendComponentSizes (md_Components m) (md_ComponentSizes m))).
    rewrite <- !(assoc_L (++)) in Hl. rewrite <- !(assoc_L (++)).
    refine (Hdec _ _ _ Hl); [by split|done|].
    rewrite metadataComponents_id by apply do_components0. by apply componentSizes_reads.
Qed.
