(* ===== verification/MemoryBudget.v ===== *)
(** * The storage memory budget (internal/engine/memory_budget.go, write_memory.go)

    Writes, flushes, compactions and compressions reserve bytes before they
    start and release them when they end.  The limiter is shared by all shards;
    its mutex makes every call one step.  A reservation is the pair of kind and
    bytes that the returned closure remembers; [None] is the closure that does
    nothing. *)
From S2P Require Import Prelude Model Runtime MemTable.
From stdpp Require Import prelude strings list gmap.
From Stdlib Require Import ZArith Lia.
#[local] Open Scope Z_scope.

Inductive storageMemoryKind :=
  | storageMemoryWrite | storageMemoryFlush | storageMemoryQuery
  | storageMemoryCompaction | storageMemoryCompression.
#[export] Instance storageMemoryKind_eq_dec : EqDecision storageMemoryKind.
Proof. solve_decision. Defined.
#[export] Instance storageMemoryKind_countable : Countable storageMemoryKind.
Proof.
  refine (inj_countable' (fun k => match k with
      | storageMemoryWrite => 0 | storageMemoryFlush => 1 | storageMemoryQuery => 2
      | storageMemoryCompaction => 3 | storageMemoryCompression => 4 end)%nat
    (fun n => match n with
      | 0 => storageMemoryWrite | 1 => storageMemoryFlush | 2 => storageMemoryQuery
      | 3 => storageMemoryCompaction | _ => storageMemoryCompression end)%nat _).
  by intros [].
Defined.

Record StorageMemoryOptions := mkMemoryOptions {
  so_SoftSampleLimit : Z;
  so_HardSampleLimit : Z;
  so_SoftBytesLimit : Z;
  so_HardBytesLimit : Z;
  so_QueryBytesLimit : Z;
  so_FlushBytesLimit : Z;
  so_CompactionBytesLimit : Z;
  so_CompressionBytesLimit : Z;
}.

Record storageMemoryLimiter := mkLimiter {
  ml_opts : StorageMemoryOptions;
  ml_reservations : gmap storageMemoryKind Z;
  ml_totalReserved : Z;
  ml_peakBytes : Z;
  ml_rejected : Z;
  ml_rejectedReservations : Z;
  ml_flushTriggered : Z;
}.
Definition newStorageMemoryLimiter (opts : StorageMemoryOptions) : storageMemoryLimiter :=
  mkLimiter opts ∅ 0 0 0 0 0.

(** [l.reservations[kind]]: a missing key reads as zero. *)
Definition reservedFor (l : storageMemoryLimiter) (kind : storageMemoryKind) : Z :=
  default 0 (ml_reservations l !! kind).

Definition operationLimit (opts : StorageMemoryOptions) (kind : storageMemoryKind) : Z :=
  match kind with
  | storageMemoryQuery => so_QueryBytesLimit opts
  | storageMemoryFlush => so_FlushBytesLimit opts
  | storageMemoryCompaction => so_CompactionBytesLimit opts
  | storageMemoryCompression => so_CompressionBytesLimit opts
  | storageMemoryWrite => 0
  end.

Definition ErrStorageMemoryLimitExceeded : goerr := Errorf "storage memory limit exceeded".

Definition checkLocked (l : storageMemoryLimiter) (kind : storageMemoryKind) (activeBytes bytes : Z) : option goerr :=
  let limit := operationLimit (ml_opts l) kind in
  if (0 <? limit) && (limit <? i64 (reservedFor l kind + bytes)) then Some ErrStorageMemoryLimitExceeded
  else
    let hard := so_HardBytesLimit (ml_opts l) in
    if (0 <? hard) && (hard <? i64 (activeBytes + ml_totalReserved l + bytes)) then Some ErrStorageMemoryLimitExceeded
    else None.

Definition recordRejectLocked (l : storageMemoryLimiter) (kind : storageMemoryKind) : storageMemoryLimiter :=
  if bool_decide (kind = storageMemoryWrite)
  then mkLimiter (ml_opts l) (ml_reservations l) (ml_totalReserved l) (ml_peakBytes l) (u64 (ml_rejected l + 1))
         (ml_rejectedReservations l) (ml_flushTriggered l)
  else mkLimiter (ml_opts l) (ml_reservations l) (ml_totalReserved l) (ml_peakBytes l) (ml_rejected l)
         (u64 (ml_rejectedReservations l + 1)) (ml_flushTriggered l).

Definition updatePeakLocked (l : storageMemoryLimiter) (activeBytes : Z) : storageMemoryLimiter :=
  let current := i64 (activeBytes + ml_totalReserved l) in
  if ml_peakBytes l <? current
  then mkLimiter (ml_opts l) (ml_reservations l) (ml_totalReserved l) current (ml_rejected l)
         (ml_rejectedReservations l) (ml_flushTriggered l)
  else l.

Definition withReserved (l : storageMemoryLimiter) (reservations : gmap storageMemoryKind Z) (total : Z)
    : storageMemoryLimiter :=
  mkLimiter (ml_opts l) reservations total (ml_peakBytes l) (ml_rejected l) (ml_rejectedReservations l)
    (ml_flushTriggered l).

Definition reservation : Type := option (storageMemoryKind * Z).

Definition Reserve (kind : storageMemoryKind) (activeBytes bytes : Z) : step storageMemoryLimiter reservation := fun l =>
  if bytes <=? 0 then (Ok None, l)
  else
    match checkLocked l kind activeBytes bytes with
    | Some err => (Err err, recordRejectLocked l kind)
    | None =>
        let l := withReserved l (<[kind := i64 (reservedFor l kind + bytes)]> (ml_reservations l))
                   (i64 (ml_totalReserved l + bytes)) in
        (Ok (Some (kind, bytes)), updatePeakLocked l activeBytes)
    end.

(** [storageMemoryReservation.Release]; [sync.Once] makes the second call of a
    closure do nothing, so a caller releases each reservation once. *)
Definition ReleaseBytes (r : reservation) (l : storageMemoryLimiter) : storageMemoryLimiter :=
  match r with
  | None => l
  | Some (kind, bytes) =>
      let current := reservedFor l kind in
      withReserved l
        (if current <=? bytes then delete kind (ml_reservations l)
         else <[kind := current - bytes]> (ml_reservations l))
        (if ml_totalReserved l <=? bytes then 0 else ml_totalReserved l - bytes)
  end.

Definition RecordFlushTriggered (l : storageMemoryLimiter) : storageMemoryLimiter :=
  mkLimiter (ml_opts l) (ml_reservations l) (ml_totalReserved l) (ml_peakBytes l) (ml_rejected l)
    (ml_rejectedReservations l) (u64 (ml_flushTriggered l + 1)).

(** ** Estimates of a batch before it is written (write_memory.go) *)
Definition sampleBaseBytes : Z := 32.
Definition estimateResolvedFieldBytes (field : ResolvedField) : Z :=
  if (rf_Type field =? FieldFloat64) || (rf_Type field =? FieldInt64) then sampleBaseBytes + 8
  else if rf_Type field =? FieldString then i64 (sampleBaseBytes + 16 + len (fv_String (rf_Value field)))
  else if rf_Type field =? FieldBool then sampleBaseBytes + 1
  else sampleBaseBytes.
(** The sum over the tag map does not depend on its iteration order. *)
Definition estimateTagBytes (tags : gmap bytes bytes) : Z :=
  foldr (fun kv total => len kv.1 + len kv.2 + 32 + total) 0 (map_to_list tags).
Definition estimateResolvedPointBytes (point : ResolvedPoint) : Z :=
  32 + len (rp_Measurement point) + estimateTagBytes (rp_Tags point)
  + foldr (fun f total => estimateResolvedFieldBytes f + total) 0 (rp_Fields point).
Definition estimateResolvedPointsBytes (points : list ResolvedPoint) : Z :=
  i64 (foldr (fun p total => estimateResolvedPointBytes p + total) 0 points).
Definition estimateWALFrameBytes (points : list ResolvedPoint) : Z :=
  i64 (estimateResolvedPointsBytes points + 64 + len points * 16).

Definition estimateResolvedTypedFieldBytes (field : ResolvedTypedFieldColumn) (row : Z) : outcome Z :=
  if (tf_Type field =? FieldFloat64) || (tf_Type field =? FieldInt64) then Ok (sampleBaseBytes + 8)
  else if tf_Type field =? FieldString
  then s ← idx (tf_StringValues field) row; Ok (sampleBaseBytes + 16 + len s)
  else if tf_Type field =? FieldBool then Ok (sampleBaseBytes + 1)
  else Ok sampleBaseBytes.
Fixpoint sum_outcome {A} (f : A -> outcome Z) (l : list A) : outcome Z :=
  match l with
  | [] => Ok 0
  | a :: l' => x ← f a; rest ← sum_outcome f l'; Ok (x + rest)
  end.
Definition estimateTypedRowBytes (batch : ResolvedTypedBatch) (rows : list Z) (position : Z) : outcome Z :=
  row ← typedBatchRowIndex rows position;
  tags ← sum_outcome (fun tag => v ← idx (tc_Values tag) row; Ok (len (tc_Name tag) + len v + 32)) (tb_Tags batch);
  fields ← sum_outcome (fun field => estimateResolvedTypedFieldBytes field row) (tb_Fields batch);
  Ok (32 + len (tb_Measurement batch) + tags + fields).
Definition estimateResolvedTypedBatchBytes (batch : ResolvedTypedBatch) (rows : list Z) : outcome Z :=
  total ← sum_outcome (fun position => estimateTypedRowBytes batch rows (Z.of_nat position))
            (seq 0 (Z.to_nat (typedBatchRowCount batch rows)));
  Ok (i64 total).
Definition estimateTypedWALFrameBytes (batch : ResolvedTypedBatch) (rows : list Z) : outcome Z :=
  total ← estimateResolvedTypedBatchBytes batch rows;
  Ok (i64 (total + 64 + typedBatchRowCount batch rows * 16)).

(** ** When a write flushes first *)
Definition shouldFlushBeforeWrite (memory : StorageMemoryOptions)
    (currentSamples incomingSamples currentBytes incomingBytes : Z) : bool :=
  if (incomingSamples =? 0) && (incomingBytes =? 0) then false
  else if (0 <? so_HardSampleLimit memory) && (so_HardSampleLimit memory <? i64 (currentSamples + incomingSamples)) then true
  else if (0 <? so_HardBytesLimit memory) && (so_HardBytesLimit memory <? i64 (currentBytes + incomingBytes)) then true
  else if (0 <? so_SoftSampleLimit memory) && (so_SoftSampleLimit memory <=? i64 (currentSamples + incomingSamples))
          && (0 <? currentSamples) then true
  else (0 <? so_SoftBytesLimit memory) && (so_SoftBytesLimit memory <=? i64 (currentBytes + incomingBytes))
       && (0 <? currentBytes).
Definition shouldFlushAfterWrite (memory : StorageMemoryOptions) (currentSamples currentBytes : Z) : bool :=
  if (0 <? so_SoftSampleLimit memory) && (so_SoftSampleLimit memory <=? currentSamples) then true
  else (0 <? so_SoftBytesLimit memory) && (so_SoftBytesLimit memory <=? currentBytes).

(** * Proofs *)
Definition bytesOf (kind : storageMemoryKind) (outs : list (storageMemoryKind * Z)) : Z :=
  foldr (fun r total => (if decide (r.1 = kind) then r.2 else 0) + total) 0 outs.
Definition allBytes (outs : list (storageMemoryKind * Z)) : Z := foldr (fun r total => r.2 + total) 0 outs.

(** The limiter accounts for exactly the outstanding reservations. *)
Record accounts (l : storageMemoryLimiter) (outs : list (storageMemoryKind * Z)) : Prop := {
  ac_positive : Forall (fun r => 0 < r.2) outs;
  ac_kind kind : reservedFor l kind = bytesOf kind outs;
  ac_total : ml_totalReserved l = allBytes outs;
  ac_limit kind : 0 < operationLimit (ml_opts l) kind -> bytesOf kind outs <= operationLimit (ml_opts l) kind;
  ac_hard : 0 < so_HardBytesLimit (ml_opts l) -> allBytes outs <= so_HardBytesLimit (ml_opts l);
  ac_peak : allBytes outs <= ml_peakBytes l;
}.

(** What callers do: reserve, and release a reservation they hold.  The bytes
    in use stay in the range of an [int64]. *)
Inductive budget_step (l : storageMemoryLimiter) (outs : list (storageMemoryKind * Z))
    : storageMemoryLimiter -> list (storageMemoryKind * Z) -> Prop :=
  | step_reserve kind activeBytes bytes r l' :
      0 <= activeBytes -> activeBytes + allBytes outs + bytes < 2 ^ 63 ->
      Reserve kind activeBytes bytes l = (Ok r, l') ->
      budget_step l outs l' (match r with Some k => k :: outs | None => outs end)
  | step_reject kind activeBytes bytes e l' :
      Reserve kind activeBytes bytes l = (Err e, l') -> budget_step l outs l' outs
  | step_release before r after : outs = before ++ r :: after ->
      budget_step l outs (ReleaseBytes (Some r) l) (before ++ after)
  | step_flush : budget_step l outs (RecordFlushTriggered l) outs.
Inductive budget_run (opts : StorageMemoryOptions) : storageMemoryLimiter -> list (storageMemoryKind * Z) -> Prop :=
  | run_start : budget_run opts (newStorageMemoryLimiter opts) []
  | run_step l outs l' outs' : budget_run opts l outs -> budget_step l outs l' outs' -> budget_run opts l' outs'.

Lemma bytesOf_app kind l1 l2 : bytesOf kind (l1 ++ l2) = bytesOf kind l1 + bytesOf kind l2.
Proof. induction l1 as [|r l1 IH]; simpl; [lia|]. rewrite IH. lia. Qed.
Lemma allBytes_app l1 l2 : allBytes (l1 ++ l2) = allBytes l1 + allBytes l2.
Proof. induction l1 as [|r l1 IH]; simpl; [lia|]. rewrite IH. lia. Qed.
Lemma bytesOf_bounds kind outs : Forall (fun r => 0 < r.2) outs -> 0 <= bytesOf kind outs <= allBytes outs.
Proof. induction 1 as [|r outs Hr HF IH]; simpl; [lia|]. case_decide; lia. Qed.

Lemma accounts_new opts : accounts (newStorageMemoryLimiter opts) [].
Proof. split; try done; simpl; intros; lia. Qed.

Lemma i64_small z : 0 <= z < 2 ^ 63 -> i64 z = z.
Proof. intros Hz. unfold i64. rewrite Z.mod_small; lia. Qed.

Lemma accounts_reserve l outs kind activeBytes bytes r l' : accounts l outs ->
  0 <= activeBytes -> activeBytes + allBytes outs + bytes < 2 ^ 63 ->
  Reserve kind activeBytes bytes l = (Ok r, l') ->
  accounts l' (match r with Some k => k :: outs | None => outs end).
Proof.
  intros [Hp Hk Ht Hl Hh Hpk] Ha Hfit. unfold Reserve. destruct (bytes <=? 0) eqn:Eb; [by intros [= <- <-]|].
  apply Z.leb_gt in Eb. destruct (checkLocked l kind activeBytes bytes) eqn:Ec; [done|]. intros [= <- <-].
  pose proof (bytesOf_bounds kind outs Hp) as Hb. unfold checkLocked in Ec. rewrite Hk, Ht in Ec.
  rewrite !i64_small in Ec by lia. rewrite Hk, Ht, !i64_small by lia.
  assert (forall l0 : storageMemoryLimiter, ml_opts l0 = ml_opts l ->
    ml_reservations l0 = <[kind:=bytesOf kind outs + bytes]> (ml_reservations l) ->
    ml_totalReserved l0 = allBytes outs + bytes -> allBytes outs + bytes <= ml_peakBytes l0 ->
    accounts l0 ((kind, bytes) :: outs)) as Hacc.
  { intros l0 Eo Er Et Epk. split.
    - by constructor.
    - intros k. unfold reservedFor. rewrite Er. simpl. case_decide as Ek; [subst k|].
      + rewrite lookup_insert_eq. simpl. lia.
      + rewrite lookup_insert_ne by done. pose proof (Hk k) as Hkk. unfold reservedFor in Hkk. rewrite Hkk. lia.
    - rewrite Et. simpl. lia.
    - intros k. rewrite Eo. simpl. intros Hlim. specialize (Hl k Hlim). case_decide as Ek; [subst k|lia].
      rewrite (proj2 (Z.ltb_lt _ _) Hlim) in Ec. simpl in Ec. revert Ec.
      destruct (operationLimit (ml_opts l) kind <? bytesOf kind outs + bytes) eqn:E; [done|]. apply Z.ltb_ge in E. lia.
    - rewrite Eo. intros Hlim. simpl. rewrite (proj2 (Z.ltb_lt _ _) Hlim) in Ec. simpl in Ec. revert Ec.
      destruct ((0 <? operationLimit (ml_opts l) kind) && _); [done|].
      destruct (so_HardBytesLimit (ml_opts l) <? activeBytes + allBytes outs + bytes) eqn:E; [done|]. apply Z.ltb_ge in E. lia.
    - simpl. lia. }
  unfold updatePeakLocked. simpl. rewrite i64_small by lia.
  destruct (ml_peakBytes l <? _) eqn:Epk; apply Hacc; try done; simpl; [lia|]. apply Z.ltb_ge in Epk. lia.
Qed.

Lemma accounts_same l l' outs : ml_opts l' = ml_opts l -> ml_reservations l' = ml_reservations l ->
  ml_totalReserved l' = ml_totalReserved l -> ml_peakBytes l' = ml_peakBytes l -> accounts l outs -> accounts l' outs.
Proof.
  intros Eo Er Et Ep [Hp Hk Ht Hl Hh Hpk].
  split; [done| |by rewrite Et|intros kind; rewrite Eo; apply Hl|by rewrite Eo|by rewrite Ep].
  intros kind. rewrite <- Hk. unfold reservedFor. by rewrite Er.
Qed.

Lemma accounts_release l before r after : accounts l (before ++ r :: after) ->
  accounts (ReleaseBytes (Some r) l) (before ++ after).
Proof.
  destruct r as [kind bytes]. intros [Hp Hk Ht Hl Hh Hpk].
  assert (forall k, bytesOf k (before ++ (kind, bytes) :: after) =
    bytesOf k (before ++ after) + (if decide (kind = k) then bytes else 0)) as Eb.
  { intros k. rewrite !bytesOf_app. simpl. case_decide; lia. }
  assert (allBytes (before ++ (kind, bytes) :: after) = allBytes (before ++ after) + bytes) as Ea.
  { rewrite !allBytes_app. simpl. lia. }
  assert (Forall (fun r => 0 < r.2) (before ++ after)) as Hp'.
  { rewrite Forall_app, Forall_cons in Hp. rewrite Forall_app. tauto. }
  assert (0 < bytes) as Hpos. { rewrite Forall_app, Forall_cons in Hp. apply Hp. }
  pose proof (bytesOf_bounds kind _ Hp') as Hb. split; simpl; [done|..].
  - intros k. unfold reservedFor at 1. simpl. pose proof (Hk k) as Hkk. pose proof (Hk kind) as Hkind. rewrite Eb in Hkk, Hkind.
    rewrite Hkind, decide_True by done. destruct (decide (kind = k)) as [->|Hne].
    + destruct (_ <=? bytes) eqn:E; [apply Z.leb_le in E; rewrite lookup_delete_eq; simpl; lia|].
      rewrite lookup_insert_eq. simpl. lia.
    + destruct (_ <=? bytes); [rewrite lookup_delete_ne by done|rewrite lookup_insert_ne by done];
        fold (reservedFor l k); lia.
  - rewrite Ht, Ea. destruct (_ <=? bytes) eqn:E; [apply Z.leb_le in E|]; lia.
  - intros k Hlim. specialize (Hl k Hlim). rewrite Eb in Hl. case_decide; lia.
  - intros Hlim. specialize (Hh Hlim). lia.
  - lia.
Qed.

Lemma budget_run_accounts opts l outs : budget_run opts l outs -> accounts l outs /\ ml_opts l = opts.
Proof.
  induction 1 as [|l outs l' outs' _ [IH Eo] Hs]; [split; [apply accounts_new|done]|].
  destruct Hs as [kind activeBytes bytes r l' Ha Hf E|kind activeBytes bytes e l' E|before r after ->|].
  - split; [by eapply accounts_reserve|]. revert E. unfold Reserve. destruct (bytes <=? 0); [by intros [= <- <-]|].
    destruct (checkLocked _ _ _ _); [done|]. intros [= <- <-]. unfold updatePeakLocked. by case_match.
  - revert E. unfold Reserve. destruct (bytes <=? 0); [done|]. destruct (checkLocked _ _ _ _); [|done]. intros [= <- <-].
    unfold recordRejectLocked. case_bool_decide; (split; [by eapply accounts_same; [..|exact IH]|done]).
  - split; [by apply accounts_release|]. by destruct r.
  - split; [by eapply accounts_same; [..|exact IH]|done].
Qed.

(** C33: whatever reservations are made, refused and released, the limiter counts exactly
    the bytes that are out per kind and in total, no kind and no total exceeds its
    configured limit, and the recorded peak is never below what is out. *)
Theorem memory_budget_invariant opts l outs : budget_run opts l outs ->
  (forall kind, reservedFor l kind = bytesOf kind outs) /\ ml_totalReserved l = allBytes outs /\
  (forall kind, 0 < operationLimit opts kind -> bytesOf kind outs <= operationLimit opts kind) /\
  (0 < so_HardBytesLimit opts -> allBytes outs <= so_HardBytesLimit opts) /\
  allBytes outs <= ml_peakBytes l.
Proof. by intros [[Hp Hk Ht Hl Hh Hpk] <-]%budget_run_accounts. Qed.

(** Two flushes within a limit of 100 bytes: the second one is refused until
    the first is released. *)
Definition exampleBudget : StorageMemoryOptions := mkMemoryOptions 0 0 0 0 0 100 0 0.
Definition exampleReserve (bytes : Z) (l : storageMemoryLimiter) : outcome reservation * storageMemoryLimiter :=
  Reserve storageMemoryFlush 0 bytes l.
Definition exampleRefused : storageMemoryLimiter :=
  (exampleReserve 60 (exampleReserve 60 (newStorageMemoryLimiter exampleBudget)).2).2.
Lemma exampleRefused_run : budget_run exampleBudget exampleRefused [(storageMemoryFlush, 60)].
Proof.
  eapply run_step; [eapply run_step; [apply run_start|]|].
  - eapply (step_reserve _ _ storageMemoryFlush 0 60 (Some (storageMemoryFlush, 60))); [lia|simpl; lia|reflexivity].
  - eapply (step_reject _ _ storageMemoryFlush 0 60). reflexivity.
Qed.
Lemma memory_budget_invariant_witness :
  reservedFor exampleRefused storageMemoryFlush = 60 /\
  bytesOf storageMemoryFlush [(storageMemoryFlush, 60)] <= 100.
Proof.
  destruct (memory_budget_invariant exampleBudget exampleRefused [(storageMemoryFlush, 60)] exampleRefused_run)
    as (Hk & _ & Hl & _). split; [exact (Hk storageMemoryFlush)|exact (Hl storageMemoryFlush ltac:(simpl; lia))].
Defined.
