(* ===== verification/EngineOptions.v ===== *)
(** * Options of the storage engine and the time windows of shards
    (internal/engine/paths.go)

    The defaults that fill in what the caller left open, per level of
    compaction too, and the alignment of timestamps to shard windows. *)
From S2P Require Import Prelude Model SstValues Runtime MemoryBudget.
From stdpp Require Import prelude strings list sorting.
From Stdlib Require Import ZArith Lia.
#[local] Open Scope Z_scope.

Definition defaultLevelPartLimit : Z := 4.
Definition defaultCascadeSteps : Z := 8.
Definition defaultColdTierValuePageSamples : Z := 4096.

Record CompactionLevelOptions := mkLevelOptions {
  lo_Level : Z;
  lo_PartLimit : Z;
  lo_SizeLimit : Z;
  lo_MaxOutputPartBytes : Z;
  lo_Compression : CompressionOptions;
}.
Record CompactionOptions := mkCompactionOptions {
  cp_Enabled : bool;
  cp_Level0PartLimit : Z;
  cp_Level0SizeLimit : Z;
  cp_MaxOutputPartBytes : Z;
  cp_MaxConcurrent : Z;
  cp_Levels : list CompactionLevelOptions;
  cp_MaxCascadeSteps : Z;
  cp_BackgroundInterval : Z;
  cp_ReadAmplificationPartLimit : Z;
  cp_BacklogDegradedThreshold : Z;
  cp_DiskSpaceReserveBytes : Z;
  cp_MinFreeBytes : Z;
}.
Definition zeroCompression : CompressionOptions := mkCompressionOptions false "" "" "" "" "" 0 0 false "".

(** ** Memory limits *)
Definition nonnegative (z : Z) : Z := if z <? 0 then 0 else z.
Definition normalizeStorageMemoryOptions (opts : StorageMemoryOptions) : StorageMemoryOptions :=
  let softSamples := nonnegative (so_SoftSampleLimit opts) in
  let hardSamples := nonnegative (so_HardSampleLimit opts) in
  let softSamples := if (0 <? hardSamples) && (hardSamples <? softSamples) then hardSamples else softSamples in
  let softBytes := nonnegative (so_SoftBytesLimit opts) in
  let hardBytes := nonnegative (so_HardBytesLimit opts) in
  let queryBytes := nonnegative (so_QueryBytesLimit opts) in
  let flushBytes := nonnegative (so_FlushBytesLimit opts) in
  let compactionBytes := nonnegative (so_CompactionBytesLimit opts) in
  let compressionBytes := nonnegative (so_CompressionBytesLimit opts) in
  let softBytes := if (0 <? hardBytes) && (hardBytes <? softBytes) then hardBytes else softBytes in
  mkMemoryOptions softSamples hardSamples softBytes hardBytes queryBytes flushBytes compactionBytes compressionBytes.

(** ** Compression *)
Definition orElse (s d : string) : string := if bool_decide (s = ""%string) then d else s.
Arguments orElse s%_string d%_string.
Definition normalizeCompressionOptions (opts : CompressionOptions) : CompressionOptions :=
  mkCompressionOptions (co_Enabled opts) (orElse (co_Timestamp opts) "delta-of-delta") (orElse (co_Float opts) "xor")
    (orElse (co_Int opts) "delta") (orElse (co_String opts) "dictionary") (co_Algorithm opts)
    (nonnegative (co_MinPageValues opts)) (nonnegative (co_ValuePageSamples opts)) (co_OmitWriteSeq opts) (co_ZstdLevel opts).
Definition compressionConfigured (opts : CompressionOptions) : bool :=
  co_Enabled opts || negb (bool_decide (co_Timestamp opts = ""%string)) || negb (bool_decide (co_Float opts = ""%string))
  || negb (bool_decide (co_Int opts = ""%string)) || negb (bool_decide (co_String opts = ""%string))
  || negb (bool_decide (co_Algorithm opts = ""%string)) || (0 <? co_MinPageValues opts) || (0 <? co_ValuePageSamples opts).
Definition coldTierValuePageSamples (configured : Z) : Z :=
  if configured <=? 0 then defaultColdTierValuePageSamples else configured.
(** [strings.TrimSpace(s) == ""] for text of single-byte characters. *)
Fixpoint blank (s : string) : bool :=
  match s with
  | EmptyString => true
  | String.String a s' =>
      let n := Z.of_nat (Ascii.nat_of_ascii a) in ((n =? 32) || ((9 <=? n) && (n <=? 13))) && blank s'
  end.
Definition withAlgorithm (opts : CompressionOptions) (algorithm : string) : CompressionOptions :=
  mkCompressionOptions (co_Enabled opts) (co_Timestamp opts) (co_Float opts) (co_Int opts) (co_String opts) algorithm
    (co_MinPageValues opts) (co_ValuePageSamples opts) (co_OmitWriteSeq opts) (co_ZstdLevel opts).
Arguments withAlgorithm opts algorithm%_string.
Definition withPageSamples (opts : CompressionOptions) (samples : Z) : CompressionOptions :=
  mkCompressionOptions (co_Enabled opts) (co_Timestamp opts) (co_Float opts) (co_Int opts) (co_String opts)
    (co_Algorithm opts) (co_MinPageValues opts) samples (co_OmitWriteSeq opts) (co_ZstdLevel opts).
Definition defaultLevelCompression (level : Z) (global : CompressionOptions) : CompressionOptions :=
  let out := normalizeCompressionOptions global in
  if negb (co_Enabled out) then out
  else
    let out := if blank (co_Algorithm global)
               then withAlgorithm out (if level <=? 0 then "snappy" else "zstd") else out in
    if 1 <=? level then withPageSamples out (coldTierValuePageSamples (co_ValuePageSamples out)) else out.

(** ** Compaction levels *)
Definition legacyLevel0Options (opts : CompactionOptions) : CompactionLevelOptions :=
  mkLevelOptions 0 (cp_Level0PartLimit opts) (cp_Level0SizeLimit opts) (cp_MaxOutputPartBytes opts) zeroCompression.
Definition hasCompactionLevel (levels : list CompactionLevelOptions) (level : Z) : bool :=
  existsb (fun candidate => lo_Level candidate =? level) levels.
Definition normalizeLevelCompression (level : CompactionLevelOptions) (globalCompression : CompressionOptions)
    : CompressionOptions :=
  if negb (compressionConfigured (lo_Compression level)) then defaultLevelCompression (lo_Level level) globalCompression
  else
    let compression := normalizeCompressionOptions (lo_Compression level) in
    let compression :=
      if (co_ValuePageSamples compression <=? 0) && (0 <? co_ValuePageSamples globalCompression)
      then withPageSamples compression (co_ValuePageSamples globalCompression) else compression in
    if 1 <=? lo_Level level
    then withPageSamples compression (coldTierValuePageSamples (co_ValuePageSamples compression)) else compression.
Definition normalizeCompactionLevel (level : CompactionLevelOptions) (opts : CompactionOptions)
    (globalCompression : CompressionOptions) : CompactionLevelOptions :=
  mkLevelOptions (lo_Level level)
    (if lo_PartLimit level <=? 0 then defaultLevelPartLimit else lo_PartLimit level)
    (lo_SizeLimit level)
    (if lo_MaxOutputPartBytes level <=? 0 then cp_MaxOutputPartBytes opts else lo_MaxOutputPartBytes level)
    (normalizeLevelCompression level globalCompression).

Definition withLevels (opts : CompactionOptions) (level0PartLimit maxCascadeSteps : Z) (levels : list CompactionLevelOptions)
    : CompactionOptions :=
  mkCompactionOptions (cp_Enabled opts) level0PartLimit (cp_Level0SizeLimit opts) (cp_MaxOutputPartBytes opts)
    (cp_MaxConcurrent opts) levels maxCascadeSteps (cp_BackgroundInterval opts) (cp_ReadAmplificationPartLimit opts)
    (cp_BacklogDegradedThreshold opts) (cp_DiskSpaceReserveBytes opts) (cp_MinFreeBytes opts).
Definition defaultSteps (opts : CompactionOptions) : CompactionOptions :=
  withLevels opts
    (if cp_Level0PartLimit opts <=? 0 then defaultLevelPartLimit else cp_Level0PartLimit opts)
    (if cp_MaxCascadeSteps opts <=? 0 then defaultCascadeSteps else cp_MaxCascadeSteps opts) (cp_Levels opts).
Definition levelLess (left right : CompactionLevelOptions) : bool := lo_Level left <? lo_Level right.
Definition normalizeCompactionOptions `{GoRuntime} (opts : CompactionOptions) (globalCompression : CompressionOptions)
    : CompactionOptions :=
  let opts := defaultSteps opts in
  let levels := cp_Levels opts in
  let levels := if len levels =? 0 then [legacyLevel0Options opts] else levels in
  let levels := if negb (hasCompactionLevel levels 0) then levels ++ [legacyLevel0Options opts] else levels in
  let levels := map (fun level => normalizeCompactionLevel level opts globalCompression) levels in
  withLevels opts (cp_Level0PartLimit opts) (cp_MaxCascadeSteps opts) (sort_Slice levelLess levels).

(** ** Shard windows *)
Definition shardStart (timestamp size : Z) : Z :=
  if 0 <=? timestamp then i64 (i64 (Z.quot timestamp size) * size)
  else i64 (i64 (Z.quot (i64 (timestamp + 1)) size - 1) * size).
(** The last timestamp of a shard's window (shardForStartLocked, openShardDir). *)
Definition shardEnd (start size : Z) : Z := i64 (i64 (start + size) - 1).

(** * Proofs *)
(** What the rest of the engine takes for granted of its options. *)
Record compaction_wf (opts : CompactionOptions) : Prop := {
  cw_limit : 0 < cp_Level0PartLimit opts;
  cw_steps : 0 < cp_MaxCascadeSteps opts;
  cw_level0 : exists level, level ∈ cp_Levels opts /\ lo_Level level = 0;
  cw_sorted : StronglySorted (fun a b => lo_Level a <= lo_Level b) (cp_Levels opts);
  cw_levels level : level ∈ cp_Levels opts -> 0 < lo_PartLimit level /\
    co_Timestamp (lo_Compression level) <> ""%string /\ co_Float (lo_Compression level) <> ""%string /\
    co_Int (lo_Compression level) <> ""%string /\ co_String (lo_Compression level) <> ""%string /\
    0 <= co_MinPageValues (lo_Compression level) /\ 0 <= co_ValuePageSamples (lo_Compression level) /\
    (1 <= lo_Level level -> co_Enabled (lo_Compression level) = true -> 0 < co_ValuePageSamples (lo_Compression level));
}.

Definition codecs_named (opts : CompressionOptions) : Prop :=
  co_Timestamp opts <> ""%string /\ co_Float opts <> ""%string /\ co_Int opts <> ""%string /\ co_String opts <> ""%string /\
  0 <= co_MinPageValues opts /\ 0 <= co_ValuePageSamples opts.

Lemma orElse_named s d : d <> ""%string -> orElse s d <> ""%string.
Proof. intros Hd. unfold orElse. by case_bool_decide. Qed.
Lemma nonnegative_ge z : 0 <= nonnegative z.
Proof. unfold nonnegative. zcase (z <? 0); lia. Qed.
Lemma coldTier_pos z : 0 < coldTierValuePageSamples z.
Proof. unfold coldTierValuePageSamples. zcase (z <=? 0); [done|lia]. Qed.

Lemma normalized_named opts : codecs_named (normalizeCompressionOptions opts).
Proof. repeat split; simpl; try apply nonnegative_ge; by apply orElse_named. Qed.
Lemma named_page opts samples : 0 <= samples -> codecs_named opts -> codecs_named (withPageSamples opts samples).
Proof. intros Hs (?&?&?&?&?&?). by repeat split. Qed.
Lemma named_algorithm opts a : codecs_named opts -> codecs_named (withAlgorithm opts a).
Proof. intros (?&?&?&?&?&?). by repeat split. Qed.

Lemma defaultLevel_named level global : codecs_named (defaultLevelCompression level global) /\
  (1 <= level -> co_Enabled (defaultLevelCompression level global) = true ->
   0 < co_ValuePageSamples (defaultLevelCompression level global)).
Proof.
  unfold defaultLevelCompression. set (out := normalizeCompressionOptions global). pose proof (normalized_named global) as Hn.
  fold out in Hn. destruct (co_Enabled out) eqn:Ee; cbn [negb]; [|split; [done|]; intros _ He; by rewrite Ee in He].
  set (out2 := if blank _ then _ else _). assert (codecs_named out2) as Hn2.
  { unfold out2. destruct (blank _); [by apply named_algorithm|done]. }
  destruct (1 <=? level) eqn:El; [|apply Z.leb_gt in El; split; [done|lia]].
  split; [apply named_page; [pose proof (coldTier_pos (co_ValuePageSamples out2)); lia|done]|]. intros _ _. apply coldTier_pos.
Qed.

Lemma levelCompression_named level global : codecs_named (normalizeLevelCompression level global) /\
  (1 <= lo_Level level -> co_Enabled (normalizeLevelCompression level global) = true ->
   0 < co_ValuePageSamples (normalizeLevelCompression level global)).
Proof.
  unfold normalizeLevelCompression. destruct (negb _); [apply defaultLevel_named|].
  set (c := normalizeCompressionOptions _). set (c2 := if (_ <=? 0) && _ then _ else _). assert (codecs_named c2) as Hn2.
  { unfold c2. pose proof (normalized_named (lo_Compression level)) as Hn. fold c in Hn.
    destruct (co_ValuePageSamples c <=? 0); simpl; [|done]. zcase (0 <? co_ValuePageSamples global); [|done].
    apply named_page; [lia|done]. }
  destruct (1 <=? lo_Level level) eqn:El; [|apply Z.leb_gt in El; split; [done|lia]].
  split; [apply named_page; [pose proof (coldTier_pos (co_ValuePageSamples c2)); lia|done]|]. intros _ _. apply coldTier_pos.
Qed.

Lemma levelLess_order : weak_order levelLess.
Proof. split; unfold levelLess; intros *; rewrite ?Z.ltb_lt, ?Z.ltb_ge; lia. Qed.

Lemma hasCompactionLevel_spec levels level : hasCompactionLevel levels level = true <->
  exists l, l ∈ levels /\ lo_Level l = level.
Proof.
  unfold hasCompactionLevel. rewrite existsb_exists. split; intros (l & Hl & E); exists l; rewrite <- list_elem_of_In in *.
  - by apply Z.eqb_eq in E.
  - split; [done|by apply Z.eqb_eq].
Qed.

Lemma normalizeCompaction_wf `{GoRuntimeLaws} opts global : compaction_wf (normalizeCompactionOptions opts global).
Proof.
  unfold normalizeCompactionOptions. set (opts1 := defaultSteps opts). set (levels2 := if negb _ then _ else _).
  set (norm := fun level => normalizeCompactionLevel level opts1 global).
  assert (0 < cp_Level0PartLimit opts1) as Hlim. { simpl. zcase (cp_Level0PartLimit opts <=? 0); [done|lia]. }
  assert (0 < cp_MaxCascadeSteps opts1) as Hsteps. { simpl. zcase (cp_MaxCascadeSteps opts <=? 0); [done|lia]. }
  assert (exists l, l ∈ levels2 /\ lo_Level l = 0) as (l0 & Hl0 & E0).
  { unfold levels2. destruct (hasCompactionLevel _ 0) eqn:Eh; simpl; [by apply hasCompactionLevel_spec|].
    exists (legacyLevel0Options opts1). split; [|done]. apply elem_of_app. right. by left. }
  split; simpl; [done|done|..].
  - exists (norm l0). split; [|done]. rewrite sort_Slice_perm. apply list_elem_of_fmap. by exists l0.
  - eapply StronglySorted_impl_in; [|apply sort_Slice_sorted, levelLess_order]. intros a b _ _. unfold not_after, levelLess.
    by rewrite Z.ltb_ge.
  - intros level. rewrite sort_Slice_perm. intros (l & -> & Hl)%list_elem_of_fmap. simpl.
    destruct (levelCompression_named l global) as [(?&?&?&?&?&?) Hp]. split_and!; try done.
    zcase (lo_PartLimit l <=? 0); [done|lia].
Qed.

(** C34: normalized compaction options are well formed: limits and steps are positive, the
    levels are sorted, the lowest level is configured and every level names its
    codecs. *)
Theorem compaction_options_wf `{GoRuntimeLaws} opts global : compaction_wf (normalizeCompactionOptions opts global).
Proof. apply normalizeCompaction_wf. Qed.
Section options_witness.
#[local] Existing Instances refRuntime refRuntimeLaws.
Lemma compaction_options_wf_witness :
  compaction_wf (normalizeCompactionOptions (mkCompactionOptions true 0 0 0 0 [] 0 0 0 0 0 0) zeroCompression).
Proof. apply compaction_options_wf. Defined.
End options_witness.

(** ** Windows *)
Lemma i64_in z : is_i64 z -> i64 z = z.
Proof. unfold is_i64, i64. intros Hz. rewrite Z.mod_small; lia. Qed.

Lemma shardStart_floor timestamp size : 0 < size -> is_i64 timestamp -> - 2 ^ 63 <= (timestamp / size) * size ->
  shardStart timestamp size = timestamp / size * size.
Proof.
  intros Hs Ht Hlow. unfold is_i64 in Ht. unfold shardStart. pose proof (Z.div_mod timestamp size ltac:(lia)) as Hdm.
  pose proof (Z.mod_pos_bound timestamp size Hs). destruct (0 <=? timestamp) eqn:E; [apply Z.leb_le in E|apply Z.leb_gt in E].
  - rewrite Z.quot_div_nonneg by lia. rewrite (i64_in (timestamp / size)), i64_in; [done|unfold is_i64; nia|unfold is_i64; nia].
  - assert (Z.quot (timestamp + 1) size - 1 = timestamp / size) as Eq.
    { rewrite <- (Z.opp_involutive (timestamp + 1)), Z.quot_opp_l, Z.quot_div_nonneg by lia.
      assert (- (timestamp + 1) / size = - (timestamp / size) - 1); [|lia].
      symmetry. apply (Z.div_unique_pos _ _ _ (size - 1 - timestamp mod size)); nia. }
    rewrite (i64_in (timestamp + 1)) by (unfold is_i64; lia). rewrite Eq.
    rewrite (i64_in (timestamp / size)), i64_in; [done|unfold is_i64; nia|unfold is_i64; nia].
Qed.

