(* ===== verification/Planner.v ===== *)
(** * Choosing what to compact
    (internal/engine/compaction_planner.go, read_amplification.go, compaction_scheduler.go)

    For every level that holds parts, a trigger decides whether the parts of
    the level should be merged into the next one and with which score; the plan
    with the greatest score is taken.  Scores are [float64] values, as bit
    patterns.  The size of a part's directory is an argument. *)
From S2P Require Import Prelude Model Float64 SstValues Runtime SstMeta MemoryBudget EngineOptions.
From stdpp Require Import prelude strings list sorting gmap pretty.
From Stdlib Require Import ZArith Lia.
#[local] Open Scope Z_scope.

Definition compactionReasonTombstone : string := "tombstone".
Definition compactionReasonPartLimit : string := "part_limit".
Definition compactionReasonSizeLimit : string := "size_limit".
Definition compactionReasonOverlap : string := "overlap".
Definition compactionReasonReadAmplification : string := "read_amplification".
Definition compactionReasonFull : string := "full".
Definition compactionReadAmplificationBoost : Z := 1000.
Definition compactionOverlapBoost : Z := 100.

Record compactionOutputOptions := mkOutputOptions { oo_maxOutputPartBytes : Z; oo_compression : CompressionOptions }.
Record compactionPlan := mkPlan {
  pl_level : Z;
  pl_outputLevel : Z;
  pl_candidates : list PartMeta;
  pl_output : compactionOutputOptions;
  pl_reason : string;
  pl_score : Z;
  pl_inputBytes : Z;
  pl_outputEstimateBytes : Z;
  pl_candidateSignature : bytes;
}.
Record compactionLevelBacklog := mkLevelBacklog {
  lb_Level : Z;
  lb_PartCount : Z;
  lb_CandidateCount : Z;
  lb_OverlapCount : Z;
  lb_InputBytes : Z;
  lb_OutputEstimateBytes : Z;
  lb_Score : Z;
  lb_Reason : string;
}.
Record compactionBacklogSnapshot := mkBacklog {
  bs_Levels : gmap Z compactionLevelBacklog;
  bs_PendingPlans : Z;
  bs_OverlapCount : Z;
  bs_MaxScore : Z;
  bs_InputBytes : Z;
  bs_OutputEstimateBytes : Z;
  bs_Degraded : bool;
  bs_Best : option compactionPlan;
}.
Definition emptyBacklog : compactionBacklogSnapshot := mkBacklog ∅ 0 0 0 0 0 false None.

(** ** Health of a level (read_amplification.go) *)
Record LevelHealth := mkHealth {
  lh_Level : Z;
  lh_PartCount : Z;
  lh_Bytes : Z;
  lh_OverlapCount : Z;
  lh_Score : Z;
}.
Definition partHasHealthRange (part : PartMeta) : bool :=
  (0 <? pm_RowsCount part) || (0 <? pm_SeriesCount part) || (0 <? pm_BlockCount part).
Definition partsOverlap (left right : PartMeta) : bool :=
  if negb (partHasHealthRange left) || negb (partHasHealthRange right) then false
  else (pm_MinSeriesID right <=? pm_MaxSeriesID left) && (pm_MinSeriesID left <=? pm_MaxSeriesID right)
       && ((pm_MinTime right <=? pm_MaxTime left) && (pm_MinTime left <=? pm_MaxTime right)).
Definition healthLess (left right : PartMeta) : bool :=
  if negb (pm_MinSeriesID left =? pm_MinSeriesID right) then pm_MinSeriesID left <? pm_MinSeriesID right
  else pm_MinTime left <? pm_MinTime right.
Fixpoint overlapLoop (previous : option PartMeta) (parts : list PartMeta) : Z :=
  match parts with
  | [] => 0
  | part :: parts' =>
      (match previous with Some p => if partsOverlap p part then 1 else 0 | None => 0 end) + overlapLoop (Some part) parts'
  end.
Definition partMetaBytes (parts : list PartMeta) : Z := i64 (foldr (fun p total => pm_BlockCount p + total) 0 parts).
Definition computeSingleLevelHealth `{GoRuntime} (level : Z) (parts : list PartMeta) : LevelHealth :=
  let parts := sort_Slice healthLess parts in
  let overlap := overlapLoop None parts in
  mkHealth level (len parts) (partMetaBytes parts) overlap
    (if 0 <? len parts then f_div (f_of_int (len parts + overlap)) (f_of_int (len parts)) else 0).

(** ** Scores and sizes *)
Definition scoreFromRatio (value limit : Z) : Z :=
  if limit <=? 0 then f_of_int value else f_div (f_of_int value) (f_of_int limit).
Definition compactionPartsSize (dirSize : bytes -> outcome Z) (parts : list PartMeta) : outcome Z :=
  foldl (fun acc part =>
    total ← acc;
    if bool_decide (pm_Path part = []) then Ok (i64 (total + pm_BlockCount part))
    else size ← dirSize (pm_Path part); Ok (i64 (total + size))) (Ok 0) parts.
(** The bit pattern of the [float64] nearest to 0.8, and [int64(math.Ceil(x))]
    for a positive [x]. *)
Definition keepRatio : Z := 0x3fe999999999999a.
Definition ceil_int (x : Z) : Z :=
  let z := f_trunc_int x in
  let c := if f_eqb (f_of_int z) x then z else z + 1 in
  if bool_decide (is_i64 c) then c else - 2 ^ 63.
Definition estimateCompactionOutputBytes (inputBytes : Z) (tombstones : list Tombstone) : Z :=
  if inputBytes <=? 0 then 0
  else if len tombstones =? 0 then inputBytes
  else
    let estimate := ceil_int (f_mul (f_of_int inputBytes) keepRatio) in
    if estimate <=? 0 then inputBytes else estimate.

(** ** Options per level *)
Definition maxCompactionLevel (parts : list PartMeta) (levels : list CompactionLevelOptions) : Z :=
  foldl (fun m level => if m <? lo_Level level then lo_Level level else m)
    (foldl (fun m part => if m <? pm_Level part then pm_Level part else m) 0 parts) levels.
Definition candidateLess (left right : PartMeta) : bool :=
  if pm_MinTime left =? pm_MinTime right then bytes_ltb (pm_ID left) (pm_ID right)
  else pm_MinTime left <? pm_MinTime right.
Definition partsAtLevel `{GoRuntime} (parts : list PartMeta) (level : Z) : list PartMeta :=
  sort_Slice candidateLess (filter (fun part => pm_Level part = level) parts).
Definition compactionLevelOptions (opts : CompactionOptions) (level : Z) : CompactionLevelOptions :=
  match list_find (fun candidate => lo_Level candidate = level) (cp_Levels opts) with
  | Some (_, candidate) => candidate
  | None => mkLevelOptions level defaultLevelPartLimit 0 (cp_MaxOutputPartBytes opts) zeroCompression
  end.
Definition outputOptionsForLevel (opts : CompactionOptions) (level : Z) : compactionOutputOptions :=
  let levelOpts := compactionLevelOptions opts level in
  mkOutputOptions (lo_MaxOutputPartBytes levelOpts) (lo_Compression levelOpts).
Definition sortIDs `{GoRuntime} (ids : list bytes) : list bytes := sort_Slice bytes_ltb ids.
Definition compactionCandidateSignature `{GoRuntime} (level : Z) (parts : list PartMeta) : bytes :=
  str "level:" ++ str (pretty level) ++ concat (map (fun id => str "|" ++ id) (sortIDs (map pm_ID parts))).

(** ** The trigger *)
Record compactionTriggerDecision := mkDecision {
  td_triggered : bool;
  td_reason : string;
  td_score : Z;
  td_overlapCount : Z;
}.
Definition notTriggered : compactionTriggerDecision := mkDecision false "" 0 0.
Section planner.
  Context `{GoRuntime} (dirSize : bytes -> outcome Z).

Definition compactionTrigger (parts : list PartMeta) (tombstones : list Tombstone) (opts : CompactionLevelOptions)
    (global : CompactionOptions) : outcome compactionTriggerDecision :=
  let overlap := lh_OverlapCount (computeSingleLevelHealth (lo_Level opts) parts) in
  if (0 <? len tombstones) && (0 <? len parts) then
    Ok (mkDecision true compactionReasonTombstone (scoreFromRatio (len tombstones + len parts) 1) overlap)
  else if (0 <? cp_ReadAmplificationPartLimit global) && (cp_ReadAmplificationPartLimit global <? len parts) then
    Ok (mkDecision true compactionReasonReadAmplification
          (f_add (f_add (f_of_int compactionReadAmplificationBoost)
                        (scoreFromRatio (len parts) (cp_ReadAmplificationPartLimit global)))
                 (f_mul (f_of_int overlap) (f_of_int compactionOverlapBoost))) overlap)
  else if lo_PartLimit opts <? len parts then
    Ok (mkDecision true compactionReasonPartLimit (scoreFromRatio (len parts) (lo_PartLimit opts)) overlap)
  else if 0 <? overlap then
    Ok (mkDecision true compactionReasonOverlap (f_add (f_of_int compactionOverlapBoost) (f_of_int overlap)) overlap)
  else if lo_SizeLimit opts <=? 0 then Ok notTriggered
  else
    size ← compactionPartsSize dirSize parts;
    if size <=? lo_SizeLimit opts then Ok notTriggered
    else Ok (mkDecision true compactionReasonSizeLimit (scoreFromRatio size (lo_SizeLimit opts)) overlap).

(** ** The backlog and the best plan *)
Definition betterPlan (plan : compactionPlan) (best : option compactionPlan) : bool :=
  match best with
  | None => true
  | Some b => f_ltb (pl_score b) (pl_score plan)
              || (f_eqb (pl_score plan) (pl_score b) && (pl_level plan <? pl_level b))
  end.
Definition planForLevel (parts : list PartMeta) (tombstones : list Tombstone) (opts : CompactionOptions) (level : Z)
    : outcome (option (compactionPlan * Z)) :=
  let candidates := partsAtLevel parts level in
  if len candidates =? 0 then Ok None
  else
    trigger ← compactionTrigger candidates tombstones (compactionLevelOptions opts level) opts;
    if negb (td_triggered trigger) then Ok None
    else
      inputBytes ← compactionPartsSize dirSize candidates;
      Ok (Some (mkPlan level (level + 1) candidates (outputOptionsForLevel opts (level + 1)) (td_reason trigger)
                  (td_score trigger) inputBytes (estimateCompactionOutputBytes inputBytes tombstones)
                  (compactionCandidateSignature level candidates), td_overlapCount trigger)).
Definition addPlan (snapshot : compactionBacklogSnapshot) (plan : compactionPlan) (overlap : Z) : compactionBacklogSnapshot :=
  mkBacklog
    (<[pl_level plan := mkLevelBacklog (pl_level plan) (len (pl_candidates plan)) (len (pl_candidates plan)) overlap
         (pl_inputBytes plan) (pl_outputEstimateBytes plan) (pl_score plan) (pl_reason plan)]> (bs_Levels snapshot))
    (bs_PendingPlans snapshot + 1)
    (bs_OverlapCount snapshot + overlap)
    (if f_ltb (bs_MaxScore snapshot) (pl_score plan) then pl_score plan else bs_MaxScore snapshot)
    (i64 (bs_InputBytes snapshot + pl_inputBytes plan))
    (i64 (bs_OutputEstimateBytes snapshot + pl_outputEstimateBytes plan))
    (bs_Degraded snapshot)
    (if betterPlan plan (bs_Best snapshot) then Some plan else bs_Best snapshot).
Fixpoint backlogLoop (parts : list PartMeta) (tombstones : list Tombstone) (opts : CompactionOptions) (levels : list Z)
    (snapshot : compactionBacklogSnapshot) : outcome compactionBacklogSnapshot :=
  match levels with
  | [] => Ok snapshot
  | level :: levels' =>
      found ← planForLevel parts tombstones opts level;
      backlogLoop parts tombstones opts levels'
        (match found with Some (plan, overlap) => addPlan snapshot plan overlap | None => snapshot end)
  end.
Definition compactionBacklogDegraded (snapshot : compactionBacklogSnapshot) (opts : CompactionOptions) : bool :=
  if 0 <? bs_OverlapCount snapshot then true
  else (0 <? cp_BacklogDegradedThreshold opts) && (cp_BacklogDegradedThreshold opts <=? bs_PendingPlans snapshot).
(** [for level := 0; level <= maxLevel; level++] *)
Definition levelsUpTo (maxLevel : Z) : list Z := Z.of_nat <$> seq 0 (S (Z.to_nat maxLevel)).
Definition buildCompactionBacklog (parts : list PartMeta) (tombstones : list Tombstone) (opts : CompactionOptions)
    : outcome compactionBacklogSnapshot :=
  snapshot ← backlogLoop parts tombstones opts (levelsUpTo (maxCompactionLevel parts (cp_Levels opts))) emptyBacklog;
  Ok (mkBacklog (bs_Levels snapshot) (bs_PendingPlans snapshot) (bs_OverlapCount snapshot) (bs_MaxScore snapshot)
        (bs_InputBytes snapshot) (bs_OutputEstimateBytes snapshot) (compactionBacklogDegraded snapshot opts) (bs_Best snapshot)).
Definition nextCompactionPlan (parts : list PartMeta) (tombstones : list Tombstone) (opts : CompactionOptions)
    : outcome (option compactionPlan) :=
  backlog ← buildCompactionBacklog parts tombstones opts; Ok (bs_Best backlog).

Definition fullCompactionPlan (parts : list PartMeta) (tombstones : list Tombstone) (opts : CompactionOptions)
    : option compactionPlan :=
  if (len parts =? 0) || ((len parts =? 1) && (len tombstones =? 0)) then None
  else
    let outputLevel := maxCompactionLevel parts [] + 1 in
    Some (mkPlan (-1) outputLevel parts (outputOptionsForLevel opts outputLevel) compactionReasonFull (f_of_int (len parts))
            (partMetaBytes parts) (estimateCompactionOutputBytes (partMetaBytes parts) tombstones)
            (compactionCandidateSignature (-1) parts)).
End planner.

(** ** The scheduler that shards share *)
Record compactionScheduler := mkScheduler {
  cs_maxConcurrent : Z;
  cs_inFlight : gset bytes;
  cs_TotalSkips : Z;
  cs_DuplicateSkips : Z;
  cs_MemorySkips : Z;
  cs_ConcurrencySkips : Z;
  cs_LastSkipReason : string;
}.
Definition compactionSkipDuplicateCandidate : string := "duplicate_candidate".
Definition compactionSkipMemoryBusy : string := "memory_busy".
Definition compactionSkipConcurrencyLimit : string := "concurrency_limit".
Definition defaultMaxConcurrentCompaction : Z := 1.
Definition newCompactionScheduler (maxConcurrent : Z) : compactionScheduler :=
  mkScheduler (if maxConcurrent <=? 0 then defaultMaxConcurrentCompaction else maxConcurrent) ∅ 0 0 0 0 "".
Definition recordSkipLocked (s : compactionScheduler) (reason : string) : compactionScheduler :=
  mkScheduler (cs_maxConcurrent s) (cs_inFlight s) (cs_TotalSkips s + 1)
    (if bool_decide (reason = compactionSkipDuplicateCandidate) then cs_DuplicateSkips s + 1 else cs_DuplicateSkips s)
    (if bool_decide (reason = compactionSkipMemoryBusy) then cs_MemorySkips s + 1 else cs_MemorySkips s)
    (if bool_decide (reason = compactionSkipConcurrencyLimit) then cs_ConcurrencySkips s + 1 else cs_ConcurrencySkips s)
    reason.
Definition withInFlight (s : compactionScheduler) (inFlight : gset bytes) : compactionScheduler :=
  mkScheduler (cs_maxConcurrent s) inFlight (cs_TotalSkips s) (cs_DuplicateSkips s) (cs_MemorySkips s)
    (cs_ConcurrencySkips s) (cs_LastSkipReason s).
Definition sched_start (signature : bytes) (s : compactionScheduler) : bool * compactionScheduler :=
  if bool_decide (signature = []) then (true, s)
  else if bool_decide (signature ∈ cs_inFlight s) then (false, recordSkipLocked s compactionSkipDuplicateCandidate)
  else if (0 <? cs_maxConcurrent s) && (cs_maxConcurrent s <=? Z.of_nat (size (cs_inFlight s)))
  then (false, recordSkipLocked s compactionSkipConcurrencyLimit)
  else (true, withInFlight s ({[ signature ]} ∪ cs_inFlight s)).
Definition sched_finish (signature : bytes) (s : compactionScheduler) : compactionScheduler :=
  if bool_decide (signature = []) then s else withInFlight s (cs_inFlight s ∖ {[ signature ]}).

(** * Proofs *)
Section plans.
  Context `{GoRuntimeLaws} (dirSize : bytes -> outcome Z) (parts : list PartMeta) (tombstones : list Tombstone)
    (opts : CompactionOptions).

(** A plan for a level: it takes all parts of the level, and nothing else, to
    the next one. *)
Record plan_for (level : Z) (plan : compactionPlan) : Prop := {
  pf_level : pl_level plan = level;
  pf_output : pl_outputLevel plan = level + 1;
  pf_candidates : pl_candidates plan ≡ₚ filter (fun part => pm_Level part = level) parts;
  pf_some : pl_candidates plan <> [];
  pf_options : pl_output plan = outputOptionsForLevel opts (level + 1);
}.

Lemma planForLevel_ok level found : planForLevel dirSize parts tombstones opts level = Ok found ->
  match found with
  | Some (plan, _) => plan_for level plan
  | None => (forall part, part ∈ parts -> pm_Level part <> level) \/ tombstones = []
  end.
Proof.
  unfold planForLevel. destruct (len (partsAtLevel parts level) =? 0) eqn:El.
  { intros [= <-]. left. intros part Hp Elv. apply Z.eqb_eq in El. unfold len in El.
    assert (part ∈ partsAtLevel parts level) as Hin by (unfold partsAtLevel; rewrite sort_Slice_perm; by apply list_elem_of_filter).
    destruct (partsAtLevel parts level); [by apply elem_of_nil in Hin|simpl in El; lia]. }
  apply Z.eqb_neq in El. destruct (compactionTrigger _ _ _ _ _) as [trigger| |] eqn:Et; simpl; [|done..].
  destruct (td_triggered trigger) eqn:Ett; simpl.
  - destruct (compactionPartsSize dirSize _); simpl; [|done..]. intros [= <-]. split; simpl; [done|done|apply sort_Slice_perm| |done].
    intros E. rewrite E in El. done.
  - intros [= <-]. right. destruct tombstones as [|t ts]; [done|]. exfalso. revert Et. unfold compactionTrigger.
    replace (0 <? len (t :: ts)) with true by (symmetry; apply Z.ltb_lt; unfold len; simpl; lia).
    replace (0 <? len (partsAtLevel parts level)) with true by (symmetry; apply Z.ltb_lt; unfold len in *; lia).
    simpl. intros [= <-]. done.
Qed.

Lemma backlogLoop_ok levels : forall snapshot snapshot',
  backlogLoop dirSize parts tombstones opts levels snapshot = Ok snapshot' ->
  (forall plan, bs_Best snapshot' = Some plan -> bs_Best snapshot = Some plan \/ exists level, level ∈ levels /\ plan_for level plan) /\
  (bs_Best snapshot' = None -> bs_Best snapshot = None /\
     forall level, level ∈ levels -> (forall part, part ∈ parts -> pm_Level part <> level) \/ tombstones = []).
Proof.
  induction levels as [|level levels IH]; intros snapshot snapshot' E; cbn [backlogLoop] in E.
  { injection E as <-. split; [by left|]. intros Hn. split; [done|]. by intros level ?%elem_of_nil. }
  destruct (planForLevel dirSize parts tombstones opts level) as [found| |] eqn:Ef; simpl in E; [|done..].
  apply planForLevel_ok in Ef. destruct (IH _ _ E) as [IH1 IH2]. split.
  - intros plan Hb. destruct (IH1 plan Hb) as [Hs|(l & Hl & Hp)]; [|right; exists l; split; [by right|done]].
    destruct found as [[p overlap]|]; [|by left]. simpl in Hs. destruct (betterPlan p (bs_Best snapshot)); [|by left].
    injection Hs as <-. right. exists level. by split; [left|].
  - intros Hn. destruct (IH2 Hn) as [Hs Hl]. destruct found as [[p overlap]|].
    + simpl in Hs. destruct (bs_Best snapshot) eqn:Eb; simpl in Hs; [|done]. by destruct (_ || _).
    + split; [done|]. intros l [->|?]%elem_of_cons; [done|by apply Hl].
Qed.

Lemma maxLevel_parts l m : m <= foldl (fun m part => if m <? pm_Level part then pm_Level part else m) m l /\
  forall part, part ∈ l -> pm_Level part <= foldl (fun m part => if m <? pm_Level part then pm_Level part else m) m l.
Proof.
  revert m. induction l as [|p l IH]; intros m; cbn [foldl]; [split; [lia|by intros ? ?%elem_of_nil]|].
  destruct (IH (if m <? pm_Level p then pm_Level p else m)) as [IH1 IH2].
  assert (m <= (if m <? pm_Level p then pm_Level p else m) /\ pm_Level p <= (if m <? pm_Level p then pm_Level p else m)) as [??]
    by (zcase (m <? pm_Level p); lia).
  split; [lia|]. intros part [->|Hp]%elem_of_cons; [lia|by apply IH2].
Qed.
Lemma maxLevel_levels levels m : m <= foldl (fun m level => if m <? lo_Level level then lo_Level level else m) m levels.
Proof.
  revert m. induction levels as [|l levels IH]; intros m; cbn [foldl]; [lia|].
  specialize (IH (if m <? lo_Level l then lo_Level l else m)). zcase (m <? lo_Level l); lia.
Qed.
Lemma maxCompactionLevel_ge levels part : part ∈ parts -> pm_Level part <= maxCompactionLevel parts levels.
Proof.
  intros Hp. unfold maxCompactionLevel. pose proof (maxLevel_levels levels (foldl (fun m part => if m <? pm_Level part then pm_Level part else m) 0 parts)).
  destruct (maxLevel_parts parts 0) as [_ Hall]. specialize (Hall part Hp). lia.
Qed.
Lemma elem_of_levelsUpTo m level : 0 <= level <= m -> level ∈ levelsUpTo m.
Proof.
  intros Hl. unfold levelsUpTo. apply list_elem_of_fmap. exists (Z.to_nat level). split; [lia|]. apply elem_of_seq. lia.
Qed.

Lemma nextCompactionPlan_ok found : nextCompactionPlan dirSize parts tombstones opts = Ok found ->
  match found with
  | Some plan => exists level, plan_for level plan
  | None => tombstones <> [] -> forall part, part ∈ parts -> pm_Level part < 0
  end.
Proof.
  unfold nextCompactionPlan, buildCompactionBacklog. destruct (backlogLoop _ _ _ _ _ _) as [snapshot| |] eqn:Eb; simpl; [|done..].
  intros [= <-]. destruct (backlogLoop_ok _ _ _ Eb) as [H1 H2]. simpl in *. destruct (bs_Best snapshot) as [plan|].
  - destruct (H1 plan eq_refl) as [?|(level & _ & Hp)]; [done|]. by exists level.
  - intros Hne part Hp. destruct (H2 eq_refl) as [_ Hl]. destruct (decide (pm_Level part < 0)); [done|].
    destruct (Hl (pm_Level part)) as [Hno|?]; [|exfalso; by apply (Hno part)|done].
    apply elem_of_levelsUpTo. split; [lia|by apply maxCompactionLevel_ge].
Qed.

(** Planning never panics when measuring a directory does not. *)
Context (Hsize : forall path p, dirSize path <> Panic p).
Lemma partsSize_total metas p : compactionPartsSize dirSize metas <> Panic p.
Proof.
  unfold compactionPartsSize. assert (forall acc, (forall p, acc <> Panic p) -> forall p, foldl (fun acc part =>
    total ← acc;
    if bool_decide (pm_Path part = []) then Ok (i64 (total + pm_BlockCount part))
    else size ← dirSize (pm_Path part); Ok (i64 (total + size))) acc metas <> Panic p) as Hf; [|by apply Hf].
  induction metas as [|meta metas IH]; intros acc Hacc q; simpl; [done|]. apply IH. intros r.
  destruct acc as [total| |]; simpl; [|done|by apply Hacc]. case_bool_decide; [done|].
  pose proof (Hsize (pm_Path meta) r). by destruct (dirSize (pm_Path meta)).
Qed.
Lemma planForLevel_total level p : planForLevel dirSize parts tombstones opts level <> Panic p.
Proof.
  unfold planForLevel. destruct (len _ =? 0); [done|]. pose proof (partsSize_total (partsAtLevel parts level)) as Hs.
  assert (forall q, compactionTrigger dirSize (partsAtLevel parts level) tombstones (compactionLevelOptions opts level) opts <> Panic q) as Ht.
  { intros q. unfold compactionTrigger. repeat (match goal with |- (if ?b then _ else _) <> _ => destruct b; [done|] end).
    destruct (compactionPartsSize _ _) as [size| |r] eqn:Er; simpl; [by case_match|done|]. by destruct (Hs r). }
  destruct (compactionTrigger _ _ _ _ _) as [trigger| |q] eqn:Eq; simpl; [|done|by destruct (Ht q)].
  case_match; [done|]. destruct (compactionPartsSize _ _) as [| |r] eqn:Er; simpl; [done|done|]. by destruct (Hs r).
Qed.
Lemma nextCompactionPlan_total p : nextCompactionPlan dirSize parts tombstones opts <> Panic p.
Proof.
  unfold nextCompactionPlan, buildCompactionBacklog.
  assert (forall levels snapshot q, backlogLoop dirSize parts tombstones opts levels snapshot <> Panic q) as Hb.
  { induction levels as [|level levels IH]; intros snapshot q; cbn [backlogLoop]; [done|].
    destruct (planForLevel _ _ _ _ _) as [[[]|]| |r] eqn:Er; simpl; [apply IH|apply IH|done|]. by destruct (planForLevel_total level r). }
  match goal with |- context [backlogLoop ?d ?p ?t ?o ?l ?s] => pose proof (Hb l s) as Hl; destruct (backlogLoop d p t o l s) as [b| |q] eqn:Eq end;
    simpl; [done|done|]. by destruct (Hl q).
Qed.
End plans.

(** C36: the compaction plan that is taken moves all parts of one level, and no other
    part, to the next level; with tombstones there is always a plan as long as a level
    holds parts. *)
Theorem next_plan_takes_level `{GoRuntimeLaws} dirSize parts tombstones opts found :
  nextCompactionPlan dirSize parts tombstones opts = Ok found ->
  match found with
  | Some plan => exists level, plan_for parts opts level plan
  | None => tombstones <> [] -> forall part, part ∈ parts -> pm_Level part < 0
  end.
Proof. apply nextCompactionPlan_ok. Qed.
Section plan_witness.
#[local] Existing Instances refRuntime refRuntimeLaws.
Definition examplePart : PartMeta := mkPartMeta (str "sst-000001") 0 10 20 1 1 2 1 100 5 [].
Definition exampleDeletion : Tombstone := mkTombstone [] [] 0 100 6.
Definition exampleOptions : CompactionOptions := normalizeCompactionOptions (mkCompactionOptions true 0 0 0 0 [] 0 0 0 0 0 0) zeroCompression.
Lemma next_plan_takes_level_witness : exists plan,
  nextCompactionPlan (fun _ => Ok 0) [examplePart] [exampleDeletion] exampleOptions = Ok (Some plan)
  /\ exists level, plan_for [examplePart] exampleOptions level plan.
Proof.
  assert (exists plan, nextCompactionPlan (fun _ => Ok 0) [examplePart] [exampleDeletion] exampleOptions = Ok (Some plan))
    as [plan Hplan] by (eexists; vm_compute; reflexivity).
  exists plan. split; [exact Hplan|]. exact (next_plan_takes_level _ _ _ _ _ Hplan).
Defined.
End plan_witness.

(** ** The scheduler keeps its limit *)
Lemma sched_start_limit signature s : 0 < cs_maxConcurrent s -> Z.of_nat (size (cs_inFlight s)) <= cs_maxConcurrent s ->
  Z.of_nat (size (cs_inFlight (sched_start signature s).2)) <= cs_maxConcurrent (sched_start signature s).2.
Proof.
  intros Hpos Hs. unfold sched_start. case_bool_decide; [done|]. case_bool_decide as Hin; [done|].
  rewrite (proj2 (Z.ltb_lt _ _) Hpos). simpl. destruct (cs_maxConcurrent s <=? _) eqn:E; [done|]. apply Z.leb_gt in E.
  simpl. rewrite size_union by set_solver. rewrite size_singleton. lia.
Qed.
Lemma sched_finish_limit signature s : Z.of_nat (size (cs_inFlight s)) <= cs_maxConcurrent s ->
  Z.of_nat (size (cs_inFlight (sched_finish signature s))) <= cs_maxConcurrent (sched_finish signature s).
Proof.
  intros Hs. unfold sched_finish. case_bool_decide; [done|]. simpl.
  assert (size (cs_inFlight s ∖ {[signature]}) <= size (cs_inFlight s))%nat by (apply subseteq_size; set_solver). lia.
Qed.
