(* ===== verification/SstPlain.v ===== *)
(** * Plain value pages and the page index (internal/sstable)

    encoding.go (the plain page: values of a column with references into the
    time block of its row), encoding_samples.go (the references) and
    encoding_page_index.go (the index of a column's pages with their bounds). *)
From S2P Require Import Prelude GoBinary Model Codec Readers SstTime SstValues SstValuesProofs SstSamples SstPage SstPageProofs SstMeta.
From stdpp Require Import prelude strings list.
From Stdlib Require Import ZArith Lia.
#[local] Open Scope Z_scope.

Definition timeRefModeAligned : Z := 0.
Definition timeRefModeIndexed : Z := 1.
Definition valuePageStatsNumeric : Z := 1.

(** ** Time references *)
Fixpoint sameTimes (samples : list VersionedSample) (rowTimestamps : list Z) : bool :=
  match samples, rowTimestamps with
  | sample :: samples', t :: rowTimestamps' => if negb (vs_Timestamp sample =? t) then false else sameTimes samples' rowTimestamps'
  | _, _ => true
  end.
Definition samplesAligned (samples : list VersionedSample) (rowTimestamps : list Z) : bool :=
  if negb (len samples =? len rowTimestamps) then false else sameTimes samples rowTimestamps.

(** [for rowIndex < len(rowTimestamps) && rowTimestamps[rowIndex] < timestamp { rowIndex++ }]
    on the timestamps from [rowIndex] on. *)
Fixpoint skipBefore (timestamp rowIndex : Z) (rest : list Z) : Z * list Z :=
  match rest with
  | [] => (rowIndex, [])
  | t :: rest' => if t <? timestamp then skipBefore timestamp (rowIndex + 1) rest' else (rowIndex, rest)
  end.
Fixpoint ordinalsFrom (samples : list VersionedSample) (rowIndex : Z) (rest : list Z) : outcome (list Z) :=
  match samples with
  | [] => Ok []
  | sample :: samples' =>
      match skipBefore (vs_Timestamp sample) rowIndex rest with
      | (rowIndex, t :: rest') =>
          if negb (t =? vs_Timestamp sample) then Err (Errorf "sample timestamp is missing from row time block")
          else ordinals ← ordinalsFrom samples' (rowIndex + 1) rest'; Ok (rowIndex :: ordinals)
      | (_, []) => Err (Errorf "sample timestamp is missing from row time block")
      end
  end.
Definition encodeTimeRefs (samples : list VersionedSample) (rowTimestamps : list Z) : outcome (Z * list Z) :=
  if len samples =? 0 then Ok (timeRefModeAligned, [])
  else if len rowTimestamps =? 0 then Err (Errorf "row timestamps are empty")
  else if samplesAligned samples rowTimestamps then Ok (timeRefModeAligned, [])
  else ordinals ← ordinalsFrom samples 0 rowTimestamps; Ok (timeRefModeIndexed, ordinals).

Fixpoint ordinalDeltas (prev : Z) (ordinals : list Z) : bytes :=
  match ordinals with
  | [] => []
  | o :: ordinals' => appendUvarint (u64 (o - prev)) ++ ordinalDeltas o ordinals'
  end.
Definition appendOrdinals (ordinals : list Z) : bytes :=
  match ordinals with [] => [] | o :: ordinals' => appendUvarint o ++ ordinalDeltas o ordinals' end.

Definition appendSampleWriteSeqs (samples : list VersionedSample) : bytes :=
  concat (map (fun sample => appendUvarint (vs_WriteSeq sample)) samples).
Definition appendSampleValues (column : ColumnData) : outcome bytes :=
  let values := map vs_Value (cd_Samples column) in
  if cd_FieldType column =? FieldFloat64 then Ok (appendFloatValues (map fv_Float64 values))
  else if cd_FieldType column =? FieldInt64 then Ok (appendIntValues (map fv_Int64 values))
  else if cd_FieldType column =? FieldBool then appendBoolValues values
  else if cd_FieldType column =? FieldString then Ok (appendStringValues (map fv_String values))
  else Err (Errorf "unsupported value block field type").

Definition marshalValueBlockWithTimestamps (column : ColumnData) (rowTimestamps : list Z) : outcome bytes :=
  let head := [valueEncodingPagePlain] ++ appendUvarint (cd_FieldID column) ++ [u8 (cd_FieldType column)]
              ++ appendUvarint (len (cd_Samples column)) in
  if len (cd_Samples column) =? 0 then Ok (head ++ [timeRefModeAligned])
  else
    '(mode, ordinals) ← encodeTimeRefs (cd_Samples column) rowTimestamps;
    values ← appendSampleValues column;
    Ok (head ++ [mode] ++ (if mode =? timeRefModeIndexed then appendOrdinals ordinals else [])
        ++ appendSampleWriteSeqs (cd_Samples column) ++ values).

(** ** Reading an aligned page: row by row, only the samples of the interval kept *)
Definition supportedValueFieldType (fieldType : Z) : bool :=
  (fieldType =? FieldFloat64) || (fieldType =? FieldInt64) || (fieldType =? FieldBool) || (fieldType =? FieldString).
Definition matchingTimestampCount (timestamps : list Z) (query : Query) : outcome Z :=
  if (len timestamps =? 0) || (q_End query <? q_Start query) then Ok 0
  else '(lo, hi) ← sortedTimestampWindow timestamps query; Ok (hi - lo).

Definition setValue (value : FieldValue) (sample : VersionedSample) : VersionedSample :=
  mkSample (vs_Timestamp sample) (vs_WriteSeq sample) value.
Definition setWriteSeq (seq : Z) (sample : VersionedSample) : VersionedSample :=
  mkSample (vs_Timestamp sample) seq (vs_Value sample).
(** [samples[i].Field = x] *)
Definition updateAt (samples : list VersionedSample) (i : Z) (f : VersionedSample -> VersionedSample)
    : outcome (list VersionedSample) :=
  sample ← idx samples i; set_idx samples i (f sample).

Fixpoint alignedSeqs (timestamps : list Z) (query : Query) : reader (list VersionedSample) :=
  match timestamps with
  | [] => mret []
  | timestamp :: timestamps' =>
      writeSeq ← BlockReader.uvarint "write seq";
      samples ← alignedSeqs timestamps' query;
      mret (if in_query query timestamp then mkSample timestamp writeSeq zeroFieldValue :: samples else samples)
  end.
(** The three loops that read one value per row. *)
Fixpoint fillAlignedLoop (read : reader FieldValue) (timestamps : list Z) (query : Query) (outIndex : Z)
    (samples : list VersionedSample) : reader (list VersionedSample) :=
  match timestamps with
  | [] => mret samples
  | timestamp :: timestamps' =>
      value ← read;
      if in_query query timestamp then
        samples ← lift (updateAt samples outIndex (setValue value));
        fillAlignedLoop read timestamps' query (outIndex + 1) samples
      else fillAlignedLoop read timestamps' query outIndex samples
  end.
Fixpoint fillAlignedBits (bits : bytes) (index : nat) (timestamps : list Z) (query : Query) (outIndex : Z)
    (samples : list VersionedSample) : outcome (list VersionedSample) :=
  match timestamps with
  | [] => Ok samples
  | timestamp :: timestamps' =>
      if in_query query timestamp then
        samples ← updateAt samples outIndex (setValue (BoolValue (bitAt bits index)));
        fillAlignedBits bits (S index) timestamps' query (outIndex + 1) samples
      else fillAlignedBits bits (S index) timestamps' query outIndex samples
  end.
(** The packed bits of [count] values. *)
Definition takeBits (count : nat) : reader bytes := fun rest =>
  if (length rest <? bitCount8 count)%nat then Err (Errorf "read bool values: read bool bits: truncated payload")
  else Ok (take (bitCount8 count) rest, drop (bitCount8 count) rest).

Definition readFloat : reader FieldValue := v ← BlockReader.float64; mret (Float64Value v).
Definition readInt : reader FieldValue := v ← BlockReader.varint "int value"; mret (Int64Value v).
Definition readStr : reader FieldValue := v ← BlockReader.string "string value"; mret (StringValue v).

Definition fillAlignedSampleValues (fieldType : Z) (timestamps : list Z) (query : Query)
    (samples : list VersionedSample) : reader (list VersionedSample) :=
  if fieldType =? FieldFloat64 then fillAlignedLoop readFloat timestamps query 0 samples
  else if fieldType =? FieldInt64 then fillAlignedLoop readInt timestamps query 0 samples
  else if fieldType =? FieldBool then
    bits ← takeBits (length timestamps); lift (fillAlignedBits bits 0 timestamps query 0 samples)
  else if fieldType =? FieldString then fillAlignedLoop readStr timestamps query 0 samples
  else rfail (Errorf "unsupported value block field type").
Definition readAlignedSamples (fieldType count : Z) (rowTimestamps : list Z) (query : Query)
    : reader (list VersionedSample) :=
  if negb (count =? len rowTimestamps) then rfail (Errorf "aligned value count does not match row timestamp count")
  else
    _ ← lift (matchingTimestampCount rowTimestamps query);
    samples ← alignedSeqs rowTimestamps query;
    fillAlignedSampleValues fieldType rowTimestamps query samples.

(** ** Reading an indexed page: ordinals into the row's timestamps *)
Fixpoint indexedTimes (n : nat) (index ordinal : Z) (rowTimestamps : list Z) (query : Query)
    : reader (list (VersionedSample * Z)) :=
  match n with
  | O => mret []
  | S n' =>
      delta ← BlockReader.intCount "time ordinal";
      if negb (index =? 0) && (delta =? 0) then rfail (Errorf "time ordinal delta must be positive")
      else
        let ordinal := if index =? 0 then delta else i64 (ordinal + delta) in
        if len rowTimestamps <=? ordinal then rfail (Errorf "time ordinal out of range")
        else
          timestamp ← lift (idx rowTimestamps ordinal);
          rest ← indexedTimes n' (index + 1) ordinal rowTimestamps query;
          mret (if in_query query timestamp then (mkSample timestamp 0 zeroFieldValue, index) :: rest else rest)
  end.
(** The two loops that read one entry per stored sample and keep it when the
    sample is wanted. *)
Fixpoint fillIndexedLoop {A : Type} (read : reader A) (set : A -> VersionedSample -> VersionedSample) (n : nat)
    (index match_ : Z) (samples : list VersionedSample) (sourceIndexes : list Z) : reader (list VersionedSample) :=
  match n with
  | O => mret samples
  | S n' =>
      value ← read;
      if match_ <? len sourceIndexes then
        source ← lift (idx sourceIndexes match_);
        if source =? index then
          samples ← lift (updateAt samples match_ (set value));
          fillIndexedLoop read set n' (index + 1) (match_ + 1) samples sourceIndexes
        else fillIndexedLoop read set n' (index + 1) match_ samples sourceIndexes
      else fillIndexedLoop read set n' (index + 1) match_ samples sourceIndexes
  end.
Fixpoint fillIndexedBits (bits : bytes) (index : Z) (samples : list VersionedSample) (sourceIndexes : list Z)
    : outcome (list VersionedSample) :=
  match sourceIndexes with
  | [] => Ok samples
  | sourceIndex :: sourceIndexes' =>
      samples ← updateAt samples index (setValue (BoolValue (bitAt bits (Z.to_nat sourceIndex))));
      fillIndexedBits bits (index + 1) samples sourceIndexes'
  end.
Definition fillIndexedSampleValues (fieldType count : Z) (samples : list VersionedSample) (sourceIndexes : list Z)
    : reader (list VersionedSample) :=
  let n := Z.to_nat count in
  if fieldType =? FieldFloat64 then fillIndexedLoop readFloat setValue n 0 0 samples sourceIndexes
  else if fieldType =? FieldInt64 then fillIndexedLoop readInt setValue n 0 0 samples sourceIndexes
  else if fieldType =? FieldBool then
    bits ← takeBits n; lift (fillIndexedBits bits 0 samples sourceIndexes)
  else if fieldType =? FieldString then fillIndexedLoop readStr setValue n 0 0 samples sourceIndexes
  else rfail (Errorf "unsupported value block field type").
Definition readIndexedSamples (fieldType count : Z) (rowTimestamps : list Z) (query : Query)
    : reader (list VersionedSample) :=
  _ ← lift (matchingTimestampCount rowTimestamps query);
  selected ← indexedTimes (Z.to_nat count) 0 0 rowTimestamps query;
  let samples := selected.*1 in
  let sourceIndexes := selected.*2 in
  samples ← fillIndexedLoop (BlockReader.uvarint "write seq") setWriteSeq (Z.to_nat count) 0 0 samples sourceIndexes;
  fillIndexedSampleValues fieldType count samples sourceIndexes.

Section Page.
Context `{lib : PayloadLib}.
Definition unmarshalPlainBlock (rowTimestamps : list Z) (query : Query) : reader valueBlock :=
  header ← readValueHeader;
  mode ← BlockReader.byte "time ref mode";
  if negb (supportedValueFieldType (vh_fieldType header)) then rfail (Errorf "unsupported value block field type")
  else if vh_count header =? 0 then
    _ ← BlockReader.done "value block";
    mret (mkValueBlock "binary-page" (vh_fieldID header) (vh_fieldType header) [])
  else if len rowTimestamps =? 0 then rfail (Errorf "row timestamps are required for value page")
  else
    samples ← (if mode =? timeRefModeAligned
               then readAlignedSamples (vh_fieldType header) (vh_count header) rowTimestamps query
               else if negb (mode =? timeRefModeIndexed) then rfail (Errorf "unknown time ref mode")
               else readIndexedSamples (vh_fieldType header) (vh_count header) rowTimestamps query);
    _ ← BlockReader.done "value block";
    mret (mkValueBlock "binary-page" (vh_fieldID header) (vh_fieldType header) samples).
Definition unmarshalValueBlockWithTimestamps (payload : bytes) (rowTimestamps : list Z) (query : Query)
    : outcome valueBlock :=
  match payload with
  | [] => Err (Errorf "decode sstable value encoding: missing byte")
  | encoding :: _ =>
      if encoding =? valueEncodingPageIndex then Err (Errorf "value page index must be decoded by readValueColumn")
      else if encoding =? valueEncodingPageCompressed then unmarshalCompressedValueBlock payload query
      else '(block, _) ← unmarshalPlainBlock rowTimestamps query payload; Ok block
  end.

Definition marshalValuePage (column : ColumnData) (rowTimestamps : list Z) (opts : CompressionOptions)
    (budget : option (Z -> outcome unit)) : outcome bytes :=
  if negb (compressionEnabled opts (len (cd_Samples column))) then marshalValueBlockWithTimestamps column rowTimestamps
  else marshalCompressedValueBlock column opts budget.
End Page.

(** ** The page index of a column *)
Record valuePageStats := mkPageStats {
  ps_HasNumeric : bool;
  ps_MinFloat64 : Z;
  ps_MaxFloat64 : Z;
  ps_MinInt64 : Z;
  ps_MaxInt64 : Z;
}.
Definition noStats : valuePageStats := mkPageStats false 0 0 0 0.
Record valuePageRef := mkPageRef {
  pr_MinTime : Z;
  pr_MaxTime : Z;
  pr_Ref : blockRef;
  pr_Stats : valuePageStats;
}.
Record valuePageIndex := mkPageIndex {
  pi_FieldID : Z;
  pi_FieldType : Z;
  pi_Count : Z;
  pi_Pages : list valuePageRef;
}.
Record valuePageIndexHeader := mkPageIndexHeader {
  ph_fieldID : Z;
  ph_fieldType : Z;
  ph_count : Z;
  ph_pageCount : Z;
}.

Definition appendValuePageStats (fieldType : Z) (stats : valuePageStats) : bytes :=
  if negb (ps_HasNumeric stats) then [0]
  else if fieldType =? FieldFloat64 then
    [valuePageStatsNumeric] ++ le_put_u64 (ps_MinFloat64 stats) ++ le_put_u64 (ps_MaxFloat64 stats)
  else if fieldType =? FieldInt64 then
    [valuePageStatsNumeric] ++ appendVarint (ps_MinInt64 stats) ++ appendVarint (ps_MaxInt64 stats)
  else [0].
Definition appendPageRef (fieldType : Z) (page : valuePageRef) : outcome bytes :=
  ref ← appendBlockRef (pr_Ref page);
  Ok (appendVarint (pr_MinTime page) ++ appendVarint (pr_MaxTime page) ++ ref
      ++ appendValuePageStats fieldType (pr_Stats page)).
Definition marshalValuePageIndex (index : valuePageIndex) : outcome bytes :=
  pages ← appendEach (appendPageRef (pi_FieldType index)) (pi_Pages index);
  Ok ([valueEncodingPageIndex] ++ appendUvarint (pi_FieldID index) ++ [u8 (pi_FieldType index)]
      ++ appendUvarint (pi_Count index) ++ appendUvarint (len (pi_Pages index)) ++ pages).

Definition readValuePageStats (fieldType : Z) : reader valuePageStats :=
  flags ← BlockReader.byte "value page stats flags";
  if Z.land flags valuePageStatsNumeric =? 0 then mret noStats
  else if fieldType =? FieldFloat64 then
    minValue ← BlockReader.float64; maxValue ← BlockReader.float64;
    mret (mkPageStats true minValue maxValue 0 0)
  else if fieldType =? FieldInt64 then
    minValue ← BlockReader.varint "value page min int"; maxValue ← BlockReader.varint "value page max int";
    mret (mkPageStats true 0 0 minValue maxValue)
  else rfail (Errorf "numeric stats unsupported for field type").
Definition readValuePageRef (fieldType : Z) : reader valuePageRef :=
  minTime ← BlockReader.varint "value page min time";
  maxTime ← BlockReader.varint "value page max time";
  ref ← readBlockRef;
  stats ← readValuePageStats fieldType;
  mret (mkPageRef minTime maxTime ref stats).
Definition uint32Value (value : Z) : outcome Z :=
  if 2 ^ 32 - 1 <? value then Err (Errorf "value page index field id overflows uint32") else Ok value.
Definition readValuePageIndexHeader : reader valuePageIndexHeader :=
  encoding ← BlockReader.byte "value page index encoding";
  if negb (encoding =? valueEncodingPageIndex) then rfail (Errorf "unknown value page index encoding")
  else
    fieldID64 ← BlockReader.uvarint "value page index field id";
    fieldID ← lift (uint32Value fieldID64);
    fieldType ← BlockReader.byte "value page index field type";
    count ← BlockReader.intCount "value page index sample count";
    pageCount ← BlockReader.intCount "value page index page count";
    mret (mkPageIndexHeader fieldID fieldType count pageCount).
Definition unmarshalValuePageIndex (payload : bytes) : outcome valuePageIndex :=
  '(index, _) ← (header ← readValuePageIndexHeader;
     _ ← rmake 72 (ph_pageCount header);
     pages ← read_n (Z.to_nat (ph_pageCount header)) (readValuePageRef (ph_fieldType header));
     _ ← BlockReader.done "value page index";
     mret (mkPageIndex (ph_fieldID header) (ph_fieldType header) (ph_count header) pages)) payload;
  Ok index.

(** * Round trips of the plain page and of the page index *)
(** Samples of one column: values of its type, machine-width numbers. *)
Definition plain_ok (fieldType : Z) (samples : list VersionedSample) : Prop :=
  Forall (fun s => value_ok (vs_Value s) /\ fv_Type (vs_Value s) = fieldType /\ is_u64 (vs_WriteSeq s)) samples
  /\ fits (len samples).

(** The wanted samples with their positions. *)
Fixpoint selectFrom (query : Query) (index : Z) (samples : list VersionedSample) : list (VersionedSample * Z) :=
  match samples with
  | [] => []
  | s :: samples' =>
      if in_query query (vs_Timestamp s) then (s, index) :: selectFrom query (index + 1) samples'
      else selectFrom query (index + 1) samples'
  end.
Lemma selectFrom_filter query samples : forall index,
  (selectFrom query index samples).*1 = filterSamplesByTime samples query.
Proof.
  induction samples as [|s l IH]; intros index; [done|]. simpl. unfold filterSamplesByTime. simpl.
  destruct (in_query _ _); simpl; by rewrite IH.
Qed.
Lemma selectFrom_index query samples : forall index s i, (s, i) ∈ selectFrom query index samples -> index <= i.
Proof.
  induction samples as [|x l IH]; intros index s i; simpl; [by intros ?%elem_of_nil|].
  destruct (in_query _ _); [rewrite elem_of_cons; intros [[= -> ->]|H]; [lia|]|intros H]; apply IH in H; lia.
Qed.

Lemma updateAt_app acc s todo f : updateAt (acc ++ s :: todo) (len acc) f = Ok (acc ++ f s :: todo).
Proof.
  unfold updateAt, len. rewrite (idx_lookup _ _ s) by by rewrite list_lookup_middle. cbn [mbind outcome_bind].
  rewrite set_idx_ok by (unfold len; rewrite length_app; simpl; lia).
  rewrite Nat2Z.id. f_equal. by rewrite insert_app_r_alt, Nat.sub_diag.
Qed.

(** ** Aligned pages *)
Lemma alignedSeqs_reads query samples : Forall (fun s => is_u64 (vs_WriteSeq s)) samples ->
  reads_back (alignedSeqs (map vs_Timestamp samples) query) (appendSampleWriteSeqs samples)
    (map (fun s => mkSample (vs_Timestamp s) (vs_WriteSeq s) zeroFieldValue) (filterSamplesByTime samples query)).
Proof.
  unfold appendSampleWriteSeqs, filterSamplesByTime.
  induction 1 as [|s l Hs Hl IH]; [apply reads_back_ret|]. simpl.
  eapply reads_back_bind; [by apply rd_uvarint_append|]. eapply reads_back_bind_nil; [exact IH|].
  destruct (in_query _ _); apply reads_back_ret.
Qed.

Lemma fillAligned_reads (read : reader FieldValue) (enc : FieldValue -> bytes) query (f : VersionedSample -> VersionedSample)
    samples : Forall (fun s => reads_back read (enc (vs_Value s)) (vs_Value s)) samples -> forall acc,
  reads_back (fillAlignedLoop read (map vs_Timestamp samples) query (len acc)
      (acc ++ map f (filterSamplesByTime samples query)))
    (concat (map enc (map vs_Value samples)))
    (acc ++ map (fun s => setValue (vs_Value s) (f s)) (filterSamplesByTime samples query)).
Proof.
  unfold filterSamplesByTime. induction 1 as [|s l Hs Hl IH]; intros acc; [apply reads_back_ret|]. simpl.
  eapply reads_back_bind; [exact Hs|]. destruct (in_query _ _); simpl; [|apply IH].
  rewrite updateAt_app. intros rest. specialize (IH (acc ++ [setValue (vs_Value s) (f s)]) rest).
  rewrite len_snoc, <- !(assoc_L (++)) in IH. exact IH.
Qed.

Lemma fillAlignedBits_run bits query (f : VersionedSample -> VersionedSample) samples : forall index acc,
  (forall i s, samples !! i = Some s -> vs_Value s = BoolValue (bitAt bits (index + i))) ->
  fillAlignedBits bits index (map vs_Timestamp samples) query (len acc)
      (acc ++ map f (filterSamplesByTime samples query))
  = Ok (acc ++ map (fun s => setValue (vs_Value s) (f s)) (filterSamplesByTime samples query)).
Proof.
  unfold filterSamplesByTime. induction samples as [|s l IH]; intros index acc Hv; [done|]. simpl.
  pose proof (Hv 0%nat s eq_refl) as Hs. rewrite Nat.add_0_r in Hs.
  assert (forall i x, l !! i = Some x -> vs_Value x = BoolValue (bitAt bits (S index + i))) as Hl.
  { intros i x Hx. rewrite (Hv (S i) x Hx). by rewrite Nat.add_succ_r. }
  destruct (in_query _ _); simpl; [|by apply IH]. rewrite updateAt_app. cbn [mbind outcome_bind].
  rewrite <- Hs. specialize (IH (S index) (acc ++ [setValue (vs_Value s) (f s)]) Hl).
  rewrite len_snoc, <- !(assoc_L (++)) in IH. exact IH.
Qed.

(** The encodings of one value and their readers. *)
Definition encValue (v : FieldValue) : bytes :=
  if fv_Type v =? FieldFloat64 then le_put_u64 (fv_Float64 v)
  else if fv_Type v =? FieldInt64 then appendVarint (fv_Int64 v) else AppendString (fv_String v).
Definition valueReader (fieldType : Z) : reader FieldValue :=
  if fieldType =? FieldFloat64 then readFloat else if fieldType =? FieldInt64 then readInt else readStr.
Lemma value_reads v : value_ok v -> fv_Type v <> FieldBool ->
  reads_back (valueReader (fv_Type v)) (encValue v) v.
Proof.
  destruct 1; intros Ht; simpl; unfold valueReader, encValue; simpl; [..|done];
    (eapply reads_back_bind_nil; [|apply reads_back_ret]); unfold BlockReader.string; eauto with reads.
Qed.

Lemma map_encValue ft values : Forall (fun v => fv_Type v = ft) values ->
  (ft = FieldFloat64 -> appendFloatValues (map fv_Float64 values) = concat (map encValue values)) /\
  (ft = FieldInt64 -> appendIntValues (map fv_Int64 values) = concat (map encValue values)) /\
  (ft = FieldString -> appendStringValues (map fv_String values) = concat (map encValue values)).
Proof.
  unfold appendFloatValues, appendIntValues, appendStringValues. rewrite !map_map.
  intros HF. split_and!; intros ->; f_equal; apply map_ext_Forall; (eapply Forall_impl; [exact HF|]);
    intros v Hv; unfold encValue; by rewrite Hv.
Qed.

Lemma appendBoolValues_ok values : Forall (fun v => fv_Type v = FieldBool) values ->
  appendBoolValues values = Ok (AppendBoolBits (map fv_Bool values)).
Proof.
  intros HF. unfold appendBoolValues.
  assert (mapM (fun v => if negb (fv_Type v =? FieldBool) then Err (Errorf "bool sample has value type") else Ok (fv_Bool v))
    values = Ok (map fv_Bool values)) as ->; [|done].
  induction HF as [|v l Hv Hl IH]; [done|]. simpl. rewrite Hv. simpl. by rewrite IH.
Qed.
Lemma takeBits_reads values : reads_back (takeBits (length values)) (AppendBoolBits values) (AppendBoolBits values).
Proof.
  intros rest. unfold takeBits. pose proof (AppendBoolBits_length values) as Hl.
  replace (length (AppendBoolBits values ++ rest) <? bitCount8 (length values))%nat with false
    by (symmetry; apply Nat.ltb_ge; rewrite length_app; lia).
  by rewrite take_app_length', drop_app_length'.
Qed.

Lemma plain_types ft samples : plain_ok ft samples -> Forall (fun v => fv_Type v = ft) (map vs_Value samples).
Proof. intros [HF _]. apply Forall_fmap. eapply Forall_impl; [exact HF|]. by intros s (_ & ? & _). Qed.
Lemma plain_seqs ft samples : plain_ok ft samples -> Forall (fun s => is_u64 (vs_WriteSeq s)) samples.
Proof. intros [HF _]. eapply Forall_impl; [exact HF|]. by intros s (_ & _ & ?). Qed.
Lemma plain_reads ft samples : plain_ok ft samples -> ft <> FieldBool ->
  Forall (fun s => reads_back (valueReader ft) (encValue (vs_Value s)) (vs_Value s)) samples.
Proof.
  intros [HF _] Hb. eapply Forall_impl; [exact HF|]. intros s (Hv & <- & _). by apply value_reads.
Qed.
Lemma plain_bools samples i s : plain_ok FieldBool samples -> samples !! i = Some s ->
  vs_Value s = BoolValue (bitAt (AppendBoolBits (map fv_Bool (map vs_Value samples))) i).
Proof.
  intros [HF _] Hs. rewrite bitAt_AppendBoolBits, !list_lookup_fmap, Hs. simpl.
  rewrite Forall_lookup in HF. destruct (HF i s Hs) as (Hv & Ht & _). by destruct Hv.
Qed.

(** The binary search for the capacity stays in range, whatever the order. *)
Lemma searchLoop_range fuel below ts : forall lo hi, 0 <= lo <= hi -> hi <= len ts ->
  exists r, SstTime.searchLoop fuel below ts lo hi = Ok r /\ lo <= r <= hi.
Proof.
  induction fuel as [|fuel IH]; intros lo hi Hr Hh; simpl; [exists lo; split; [done|lia]|].
  zcase (lo <? hi); [|exists lo; split; [done|lia]].
  assert (lo <= lo + Z.quot (hi - lo) 2 < hi) as Hm by (rewrite Z.quot_div_nonneg by lia; Z.div_mod_to_equations; lia).
  destruct (lookup_lt_is_Some_2 ts (Z.to_nat (lo + Z.quot (hi - lo) 2))) as [t Ht]; [unfold len in *; lia|].
  rewrite (idx_Z _ _ t) by (done || lia). cbn [mbind outcome_bind]. destruct (below t).
  - destruct (IH (lo + Z.quot (hi - lo) 2 + 1) hi) as (r & -> & ?); [lia..|]. exists r. split; [done|lia].
  - destruct (IH lo (lo + Z.quot (hi - lo) 2)) as (r & -> & ?); [lia..|]. exists r. split; [done|lia].
Qed.
Lemma matchingTimestampCount_ok ts query : exists n, matchingTimestampCount ts query = Ok n /\ 0 <= n <= len ts.
Proof.
  unfold matchingTimestampCount, sortedTimestampWindow. pose proof (len_nonneg ts).
  destruct (_ || _); [exists 0; split; [done|lia]|].
  destruct (searchLoop_range (S (length ts)) (fun t => t <? q_Start query) ts 0 (len ts)) as (a & -> & Ha); [lia..|].
  cbn [mbind outcome_bind].
  destruct (searchLoop_range (S (length ts)) (fun t => t <=? q_End query) ts a (len ts)) as (b & -> & Hb); [lia..|].
  simpl. exists (b - a). split; [done|lia].
Qed.
Lemma reads_back_capacity {B} ts query (k : Z -> reader B) bs b : (forall n, reads_back (k n) bs b) ->
  reads_back (lift (matchingTimestampCount ts query) ≫= k) bs b.
Proof.
  intros Hk. destruct (matchingTimestampCount_ok ts query) as (n & -> & _). intros rest. apply Hk.
Qed.

(** What the values of a page are written as. *)
Lemma appendSampleValues_cases column vb : plain_ok (cd_FieldType column) (cd_Samples column) ->
  appendSampleValues column = Ok vb ->
  let values := map vs_Value (cd_Samples column) in
  supportedValueFieldType (cd_FieldType column) = true /\ is_byte (cd_FieldType column) /\
  ((cd_FieldType column <> FieldBool /\ vb = concat (map encValue values)) \/
   (cd_FieldType column = FieldBool /\ vb = AppendBoolBits (map fv_Bool values))).
Proof.
  intros Hok. pose proof (plain_types _ _ Hok) as Ht. destruct (map_encValue _ _ Ht) as (Hf & Hi & Hs).
  destruct column as [sid fid ft samples]. simpl in *. unfold appendSampleValues. simpl.
  zcase (ft =? FieldFloat64); [intros [= <-]; subst; rewrite Hf by done; split; [done|split; [by_decide|by left]]|].
  zcase (ft =? FieldInt64); [intros [= <-]; subst; rewrite Hi by done; split; [done|split; [by_decide|by left]]|].
  zcase (ft =? FieldBool); [subst; rewrite appendBoolValues_ok by done; intros [= <-]; split; [done|split; [by_decide|by right]]|].
  zcase (ft =? FieldString); [intros [= <-]; subst; rewrite Hs by done; split; [done|split; [by_decide|by left]]|done].
Qed.

Lemma fillAlignedSampleValues_reads column vb query (f : VersionedSample -> VersionedSample) :
  plain_ok (cd_FieldType column) (cd_Samples column) -> appendSampleValues column = Ok vb ->
  reads_back (fillAlignedSampleValues (cd_FieldType column) (map vs_Timestamp (cd_Samples column)) query
      (map f (filterSamplesByTime (cd_Samples column) query))) vb
    (map (fun s => setValue (vs_Value s) (f s)) (filterSamplesByTime (cd_Samples column) query)).
Proof.
  intros Hok Hv. destruct (appendSampleValues_cases _ _ Hok Hv) as (Hsup & _ & Hc).
  destruct column as [sid fid ft samples]. simpl in *. unfold fillAlignedSampleValues, supportedValueFieldType in *.
  destruct Hc as [[Hb ->]|[-> ->]].
  - pose proof (fillAligned_reads (valueReader ft) encValue query f samples (plain_reads _ _ Hok Hb) []) as Hr.
    simpl in Hr. unfold valueReader in Hr. revert Hsup Hr. zcase (ft =? FieldFloat64); [done|].
    zcase (ft =? FieldInt64); [done|]. zcase (ft =? FieldBool); [done|]. by zcase (ft =? FieldString).
  - replace (length (map vs_Timestamp samples)) with (length (map fv_Bool (map vs_Value samples)))
      by by rewrite !length_map.
    eapply reads_back_bind_nil; [apply takeBits_reads|].
    pose proof (fillAlignedBits_run (AppendBoolBits (map fv_Bool (map vs_Value samples))) query f samples 0 []) as Hr.
    cbn [app] in Hr. change (len (@nil VersionedSample)) with 0 in Hr. cbn beta.
    rewrite Hr by (intros i s; by apply plain_bools). apply lift_ok.
Qed.

Lemma filtered_values samples query (g : VersionedSample -> VersionedSample) : (forall s, g s = s) ->
  map g (filterSamplesByTime samples query) = filterSamplesByTime samples query.
Proof. intros Hg. rewrite <- (map_id (filterSamplesByTime samples query)) at 2. by apply map_ext. Qed.
Lemma sample_eta s : mkSample (vs_Timestamp s) (vs_WriteSeq s) (vs_Value s) = s.
Proof. by destruct s. Qed.

Lemma readAlignedSamples_reads column vb query : plain_ok (cd_FieldType column) (cd_Samples column) ->
  appendSampleValues column = Ok vb ->
  reads_back (readAlignedSamples (cd_FieldType column) (len (cd_Samples column)) (map vs_Timestamp (cd_Samples column)) query)
    (appendSampleWriteSeqs (cd_Samples column) ++ vb) (filterSamplesByTime (cd_Samples column) query).
Proof.
  intros Hok Hv. unfold readAlignedSamples.
  replace (len (map vs_Timestamp (cd_Samples column))) with (len (cd_Samples column)) by (unfold len; by rewrite length_map).
  rewrite Z.eqb_refl. cbn [negb]. apply reads_back_capacity. intros _.
  eapply reads_back_bind; [by eapply alignedSeqs_reads, plain_seqs|].
  eapply reads_back_eq; [|done].
  pose proof (fillAlignedSampleValues_reads column vb query
    (fun s => mkSample (vs_Timestamp s) (vs_WriteSeq s) zeroFieldValue) Hok Hv) as Hr.
  rewrite (filtered_values _ _ (fun s => setValue _ _)) in Hr; [exact Hr|]. by intros [].
Qed.

(** ** Indexed pages *)
Lemma skipBefore_drop t row : forall i rest, rest = drop i row -> forall j rest', skipBefore t (Z.of_nat i) rest = (j, rest') ->
  exists k, j = Z.of_nat k /\ (i <= k)%nat /\ rest' = drop k row.
Proof.
  intros i rest. revert i. induction rest as [|x rest IH]; intros i Hd j rest' H; simpl in H.
  { injection H as <- <-. exists i. split_and!; [done|lia|done]. }
  zcase (x <? t).
  - replace (Z.of_nat i + 1) with (Z.of_nat (S i)) in H by lia.
    assert (rest = drop (S i) row) as Hd'.
    { replace (S i) with (i + 1)%nat by lia. rewrite <- drop_drop, <- Hd. done. }
    destruct (IH (S i) Hd' j rest' H) as (k & ? & ? & ?). exists k. split_and!; [done|lia|done].
  - injection H as <- <-. exists i. split_and!; [done|lia|done].
Qed.

(** Positions of the samples among the row's timestamps, increasing. *)
Inductive ordinals_of (row : list Z) : nat -> list VersionedSample -> list Z -> Prop :=
  | ordinals_nil i : ordinals_of row i [] []
  | ordinals_cons i k s samples ords : (i <= k)%nat -> row !! k = Some (vs_Timestamp s) ->
      ordinals_of row (S k) samples ords -> ordinals_of row i (s :: samples) (Z.of_nat k :: ords).
Lemma ordinalsFrom_of row samples : forall i ords,
  ordinalsFrom samples (Z.of_nat i) (drop i row) = Ok ords -> ordinals_of row i samples ords.
Proof.
  induction samples as [|s l IH]; intros i ords H; simpl in H; [injection H as <-; constructor|].
  destruct (skipBefore (vs_Timestamp s) (Z.of_nat i) (drop i row)) as [j [|t rest]] eqn:E; [done|].
  destruct (skipBefore_drop _ row i _ eq_refl _ _ E) as (k & -> & Hk & Hd).
  destruct (negb (t =? vs_Timestamp s)) eqn:Et; [done|]. apply negb_false_iff, Z.eqb_eq in Et. subst t.
  replace (Z.of_nat k + 1) with (Z.of_nat (S k)) in H by lia.
  assert (rest = drop (S k) row) as ->.
  { replace (S k) with (k + 1)%nat by lia. rewrite <- drop_drop, <- Hd. done. }
  destruct (ordinalsFrom l (Z.of_nat (S k)) (drop (S k) row)) as [o| |] eqn:Eo; [|done|done].
  injection H as <-. econstructor; [done| |by apply IH].
  rewrite <- (Nat.add_0_r k), <- lookup_drop, <- Hd. done.
Qed.

Definition blank (p : VersionedSample * Z) : VersionedSample * Z := (mkSample (vs_Timestamp p.1) 0 zeroFieldValue, p.2).

Lemma indexedTimes_reads row query samples : len row <= maxInt -> forall i prev index ords,
  ordinals_of row i samples ords -> 0 < index -> 0 <= prev < Z.of_nat i ->
  reads_back (indexedTimes (length samples) index prev row query) (ordinalDeltas prev ords)
    (map blank (selectFrom query index samples)).
Proof.
  intros Hrow. induction samples as [|s l IH]; intros i prev index ords Ho Hi Hp; inversion Ho as [|? k ? ? o Hk Hl Ho']; subst;
    [apply reads_back_ret|]. cbn [indexedTimes length ordinalDeltas].
  pose proof (lookup_lt_Some _ _ _ Hl) as Hkl.
  assert (u64 (Z.of_nat k - prev) = Z.of_nat k - prev) as -> by (apply u64_id; unfold is_u64, maxInt, len in *; lia).
  eapply reads_back_bind; [apply rd_intCount_append; unfold maxInt, len in *; lia|].
  assert ((index =? 0) = false) as -> by zb. assert ((Z.of_nat k - prev =? 0) = false) as -> by zb. cbn [negb andb].
  replace (i64 (prev + (Z.of_nat k - prev))) with (Z.of_nat k)
    by (rewrite i64_id; [lia|unfold is_i64, maxInt, len in *; lia]).
  assert ((len row <=? Z.of_nat k) = false) as -> by zb.
  rewrite (idx_lookup _ _ _ Hl). intros rest. cbn [lift]. unfold mbind at 1, reader_bind at 1. cbn [lift].
  revert rest. eapply reads_back_bind_nil; [apply (IH (S k) (Z.of_nat k) (index + 1) o); [done|lia|lia]|].
  simpl. destruct (in_query _ _); apply reads_back_ret.
Qed.
Lemma indexedTimes_start row query samples ords : len row <= maxInt -> ordinals_of row 0 samples ords ->
  reads_back (indexedTimes (length samples) 0 0 row query) (appendOrdinals ords) (map blank (selectFrom query 0 samples)).
Proof.
  intros Hrow Ho. inversion Ho as [|? k s l o Hk Hl Ho']; subst; [apply reads_back_ret|].
  cbn [indexedTimes length appendOrdinals]. pose proof (lookup_lt_Some _ _ _ Hl) as Hkl.
  eapply reads_back_bind; [apply rd_intCount_append; unfold maxInt, len in *; lia|]. cbn [Z.eqb negb andb].
  assert ((len row <=? Z.of_nat k) = false) as -> by zb.
  rewrite (idx_lookup _ _ _ Hl). intros rest. unfold mbind at 1, reader_bind at 1. cbn [lift].
  revert rest. eapply reads_back_bind_nil; [apply (indexedTimes_reads row query l Hrow (S k) (Z.of_nat k) (0 + 1) o); [done|lia|lia]|].
  simpl. destruct (in_query _ _); apply reads_back_ret.
Qed.

Lemma fillIndexed_reads {A} (read : reader A) set (enc : VersionedSample -> bytes) (g : VersionedSample -> A)
    (f : VersionedSample -> VersionedSample) query samples :
  Forall (fun s => reads_back read (enc s) (g s)) samples -> forall index pre acc, len pre = len acc ->
  reads_back (fillIndexedLoop read set (length samples) index (len acc)
      (acc ++ map f (selectFrom query index samples).*1) (pre ++ (selectFrom query index samples).*2))
    (concat (map enc samples)) (acc ++ map (fun s => set (g s) (f s)) (selectFrom query index samples).*1).
Proof.
  induction 1 as [|s l Hs Hl IH]; intros index pre acc Hp; [apply reads_back_ret|].
  cbn [length fillIndexedLoop map concat]. eapply reads_back_bind; [exact Hs|]. cbn [selectFrom].
  destruct (in_query query (vs_Timestamp s)) eqn:Eq; rewrite ?fmap_cons; cbn [map fst snd].
  - assert ((len acc <? len (pre ++ index :: (selectFrom query (index + 1) l).*2)) = true) as ->
      by (apply Z.ltb_lt; unfold len in *; rewrite length_app; simpl; lia).
    rewrite (idx_Z _ _ index) by (apply len_nonneg || rewrite <- Hp, count_nat; by apply list_lookup_middle).
    intros rest. unfold mbind at 1, reader_bind at 1. cbn [lift]. rewrite Z.eqb_refl, updateAt_app.
    unfold mbind at 1, reader_bind at 1. cbn [lift].
    specialize (IH (index + 1) (pre ++ [index]) (acc ++ [set (g s) (f s)])).
    rewrite !len_snoc, <- !(assoc_L (++)) in IH. apply IH. lia.
  - destruct (len acc <? len (pre ++ (selectFrom query (index + 1) l).*2)) eqn:El; [|by apply IH].
    apply Z.ltb_lt in El. destruct (selectFrom query (index + 1) l) as [|[s' i'] sel] eqn:Esel.
    { unfold len in *. rewrite length_app in El. simpl in El. lia. }
    rewrite (idx_Z _ _ i') by (apply len_nonneg || rewrite <- Hp, count_nat; by apply list_lookup_middle).
    intros rest. unfold mbind at 1, reader_bind at 1. cbn [lift].
    assert ((i' =? index) = false) as ->.
    { apply Z.eqb_neq. pose proof (selectFrom_index query l (index + 1) s' i'). rewrite Esel in *.
      assert (index + 1 <= i') by (apply H; left). lia. }
    specialize (IH (index + 1) pre acc Hp). rewrite Esel in IH. apply IH.
Qed.

Lemma fillIndexedBits_run bits query (f : VersionedSample -> VersionedSample) samples : forall index acc, 0 <= index ->
  (forall i s, samples !! i = Some s -> vs_Value s = BoolValue (bitAt bits (Z.to_nat index + i))) ->
  fillIndexedBits bits (len acc) (acc ++ map f (selectFrom query index samples).*1) (selectFrom query index samples).*2
  = Ok (acc ++ map (fun s => setValue (vs_Value s) (f s)) (selectFrom query index samples).*1).
Proof.
  induction samples as [|s l IH]; intros index acc Hi Hv; [done|]. cbn [selectFrom].
  pose proof (Hv 0%nat s eq_refl) as Hs. rewrite Nat.add_0_r in Hs.
  assert (forall i x, l !! i = Some x -> vs_Value x = BoolValue (bitAt bits (Z.to_nat (index + 1) + i))) as Hl.
  { intros i x Hx. rewrite (Hv (S i) x Hx). do 2 f_equal. lia. }
  destruct (in_query _ _); [|apply IH; [lia|done]]. rewrite !fmap_cons. cbn [map fst snd fillIndexedBits]. rewrite updateAt_app. cbn [mbind outcome_bind].
  rewrite <- Hs. specialize (IH (index + 1) (acc ++ [setValue (vs_Value s) (f s)]) ltac:(lia) Hl).
  rewrite len_snoc, <- !(assoc_L (++)) in IH. exact IH.
Qed.

Lemma fillIndexedSampleValues_reads column vb query (f : VersionedSample -> VersionedSample) :
  plain_ok (cd_FieldType column) (cd_Samples column) -> appendSampleValues column = Ok vb ->
  reads_back (fillIndexedSampleValues (cd_FieldType column) (len (cd_Samples column))
      (map f (selectFrom query 0 (cd_Samples column)).*1) (selectFrom query 0 (cd_Samples column)).*2) vb
    (map (fun s => setValue (vs_Value s) (f s)) (selectFrom query 0 (cd_Samples column)).*1).
Proof.
  intros Hok Hv. destruct (appendSampleValues_cases _ _ Hok Hv) as (Hsup & _ & Hc).
  destruct column as [sid fid ft samples]. simpl in *. unfold fillIndexedSampleValues, supportedValueFieldType in *.
  rewrite count_nat. destruct Hc as [[Hb ->]|[-> ->]].
  - pose proof (fillIndexed_reads (valueReader ft) setValue (fun s => encValue (vs_Value s)) vs_Value f query samples
      (plain_reads _ _ Hok Hb) 0 [] [] eq_refl) as Hr.
    rewrite (map_map vs_Value encValue). cbn [app] in Hr. change (len (@nil VersionedSample)) with 0 in Hr. unfold valueReader in Hr. revert Hsup Hr. zcase (ft =? FieldFloat64); [done|].
    zcase (ft =? FieldInt64); [done|]. zcase (ft =? FieldBool); [done|]. by zcase (ft =? FieldString).
  - replace (length samples) with (length (map fv_Bool (map vs_Value samples))) by by rewrite !length_map.
    eapply reads_back_bind_nil; [apply takeBits_reads|].
    pose proof (fillIndexedBits_run (AppendBoolBits (map fv_Bool (map vs_Value samples))) query f samples 0 [] ltac:(lia)) as Hr.
    cbn [app] in Hr. change (len (@nil VersionedSample)) with 0 in Hr. cbn beta.
    rewrite Hr by (intros i s; by apply plain_bools). apply lift_ok.
Qed.

Lemma readIndexedSamples_reads column row ords vb query : plain_ok (cd_FieldType column) (cd_Samples column) ->
  len row <= maxInt -> ordinals_of row 0 (cd_Samples column) ords -> appendSampleValues column = Ok vb ->
  reads_back (readIndexedSamples (cd_FieldType column) (len (cd_Samples column)) row query)
    (appendOrdinals ords ++ appendSampleWriteSeqs (cd_Samples column) ++ vb) (filterSamplesByTime (cd_Samples column) query).
Proof.
  intros Hok Hrow Ho Hv. unfold readIndexedSamples. apply reads_back_capacity. intros _. rewrite count_nat.
  eapply reads_back_bind; [by apply indexedTimes_start|]. cbn beta zeta.
  assert ((map blank (selectFrom query 0 (cd_Samples column))).*1
    = map (fun s => mkSample (vs_Timestamp s) 0 zeroFieldValue) (selectFrom query 0 (cd_Samples column)).*1) as ->.
  { induction (selectFrom query 0 (cd_Samples column)) as [|[] ? IH]; [done|]. cbn. by f_equal. }
  assert ((map blank (selectFrom query 0 (cd_Samples column))).*2 = (selectFrom query 0 (cd_Samples column)).*2) as ->.
  { induction (selectFrom query 0 (cd_Samples column)) as [|[] ? IH]; [done|]. cbn. by f_equal. }
  eapply reads_back_bind.
  { apply (fillIndexed_reads (BlockReader.uvarint "write seq") setWriteSeq (fun s => appendUvarint (vs_WriteSeq s)) vs_WriteSeq
      (fun s => mkSample (vs_Timestamp s) 0 zeroFieldValue) query (cd_Samples column)) with (index := 0) (pre := []) (acc := []);
      [|done]. eapply Forall_impl; [by eapply plain_seqs|]. intros s Hs. by apply rd_uvarint_append. }
  pose proof (fillIndexedSampleValues_reads column vb query
    (fun s => setWriteSeq (vs_WriteSeq s) (mkSample (vs_Timestamp s) 0 zeroFieldValue)) Hok Hv) as Hr.
  rewrite selectFrom_filter, (filtered_values _ _ (fun s => setValue _ _)) in Hr; [by rewrite selectFrom_filter|]. by intros [].
Qed.

(** ** The whole page *)
Lemma samplesAligned_times samples row : samplesAligned samples row = true -> row = map vs_Timestamp samples.
Proof.
  unfold samplesAligned. destruct (len samples =? len row) eqn:El; [|done]. apply Z.eqb_eq in El. cbn [negb].
  assert (length row = length samples) as Hl by (unfold len in El; lia). clear El. revert row Hl.
  induction samples as [|s l IH]; intros [|t row] Hl; try done. simpl.
  zcase (vs_Timestamp s =? t); simpl; [|done]. intros H. subst t. f_equal. apply IH; [simpl in Hl; lia|done].
Qed.

Lemma plain_page_reads column row page query : is_u32 (cd_FieldID column) -> cd_Samples column <> [] ->
  plain_ok (cd_FieldType column) (cd_Samples column) -> len row <= maxInt ->
  marshalValueBlockWithTimestamps column row = Ok page ->
  exists rest, page = valueEncodingPagePlain :: rest /\
  unmarshalPlainBlock row query page
  = Ok (mkValueBlock "binary-page" (cd_FieldID column) (cd_FieldType column) (filterSamplesByTime (cd_Samples column) query), []).
Proof.
  intros Hf Hne Hok Hrow. unfold marshalValueBlockWithTimestamps.
  assert (len (cd_Samples column) <> 0) as Hl by (destruct (cd_Samples column); [done|unfold len; simpl; lia]).
  assert ((len (cd_Samples column) =? 0) = false) as E0 by zb. rewrite E0.
  destruct (encodeTimeRefs (cd_Samples column) row) as [[mode ords]| |] eqn:Et; [|done|done]. cbn [mbind outcome_bind].
  destruct (appendSampleValues column) as [vb| |] eqn:Ev; [|done|done]. cbn [mbind outcome_bind].
  destruct (appendSampleValues_cases _ _ Hok Ev) as (Hsup & Hbyte & _).
  intros [= <-]. eexists. split; [done|].
  match goal with |- unmarshalPlainBlock _ _ ?p = _ =>
    replace p with (([valueEncodingPagePlain] ++ appendUvarint (cd_FieldID column) ++ [u8 (cd_FieldType column)]
      ++ appendUvarint (len (cd_Samples column))) ++ [mode] ++ (if mode =? timeRefModeIndexed then appendOrdinals ords else [])
      ++ appendSampleWriteSeqs (cd_Samples column) ++ vb) by (by rewrite <- !(assoc_L (++))) end.
  unfold unmarshalPlainBlock. destruct Hok as [HF Hfit].
  eapply run_bind; [apply (readHeader_append valueEncodingPagePlain (cd_FieldID column) (cd_FieldType column)); [done..|alloc_lia]|].
  eapply run_bind; [apply rd_byte_append|]. cbn [vh_fieldType vh_count vh_fieldID]. rewrite Hsup, E0. cbn [negb].
  unfold encodeTimeRefs in Et. rewrite E0 in Et. destruct (len row =? 0); [done|].
  destruct (samplesAligned (cd_Samples column) row) eqn:Ea.
  - injection Et as <- <-. apply samplesAligned_times in Ea as ->. simpl.
    eapply run_bind_nil; [by apply readAlignedSamples_reads|done].
  - destruct (ordinalsFrom (cd_Samples column) 0 row) as [o| |] eqn:Eo; [|done|done]. injection Et as <- <-. simpl.
    eapply run_bind_nil; [|done]. apply readIndexedSamples_reads; [done..| |done]. by apply (ordinalsFrom_of row _ 0).
Qed.

Lemma plain_page_roundtrip `{lib : PayloadLib} column row page query : is_u32 (cd_FieldID column) -> cd_Samples column <> [] ->
  plain_ok (cd_FieldType column) (cd_Samples column) -> len row <= maxInt ->
  marshalValueBlockWithTimestamps column row = Ok page ->
  unmarshalValueBlockWithTimestamps page row query
  = Ok (mkValueBlock "binary-page" (cd_FieldID column) (cd_FieldType column) (filterSamplesByTime (cd_Samples column) query)).
Proof.
  intros Hf Hne Hok Hrow Hm. destruct (plain_page_reads column row page query Hf Hne Hok Hrow Hm) as (rest & E & Hr).
  unfold unmarshalValueBlockWithTimestamps. subst page. simpl. by rewrite Hr.
Qed.

(** ** The page index *)
Definition stats_ok (fieldType : Z) (stats : valuePageStats) : Prop :=
  stats = noStats \/
  (fieldType = FieldFloat64 /\ exists a b, stats = mkPageStats true a b 0 0 /\ is_u64 a /\ is_u64 b) \/
  (fieldType = FieldInt64 /\ exists a b, stats = mkPageStats true 0 0 a b /\ is_i64 a /\ is_i64 b).
Record pageRef_ok (fieldType : Z) (page : valuePageRef) : Prop := {
  go_min : is_i64 (pr_MinTime page);
  go_max : is_i64 (pr_MaxTime page);
  go_ref : ref_ok (pr_Ref page);
  go_stats : stats_ok fieldType (pr_Stats page);
}.
Lemma stats_reads ft stats : stats_ok ft stats -> reads_back (readValuePageStats ft) (appendValuePageStats ft stats) stats.
Proof.
  intros [->|[(-> & a & b & -> & Ha & Hb)|(-> & a & b & -> & Ha & Hb)]]; unfold readValuePageStats, appendValuePageStats; simpl.
  - eapply (reads_back_bind_nil _ _ [0]); [apply rd_byte_append|]. apply reads_back_ret.
  - eapply (reads_back_bind _ _ [1]); [apply rd_byte_append|]. simpl.
    eapply reads_back_bind; [by apply rd_u64_append|]. eapply reads_back_bind_nil; [by apply rd_u64_append|]. apply reads_back_ret.
  - eapply (reads_back_bind _ _ [1]); [apply rd_byte_append|]. simpl.
    eapply reads_back_bind; [by apply rd_varint_append|]. eapply reads_back_bind_nil; [by apply rd_varint_append|]. apply reads_back_ret.
Qed.
Lemma pageRef_decodes ft page : pageRef_ok ft page -> decodes (readValuePageRef ft) (appendPageRef ft) page.
Proof.
  intros []. destruct (blockRef_decodes _ go_ref0) as (rb & Er & Hr). unfold decodes, appendPageRef. rewrite Er.
  eexists. split; [done|]. unfold readValuePageRef. eapply reads_back_bind; [by apply rd_varint_append|].
  eapply reads_back_bind; [by apply rd_varint_append|]. eapply reads_back_bind; [exact Hr|].
  eapply reads_back_bind_nil; [by apply stats_reads|]. by destruct page.
Qed.

Record pageIndex_ok (index : valuePageIndex) : Prop := {
  xo_field : is_u32 (pi_FieldID index);
  xo_type : is_byte (pi_FieldType index);
  xo_count : 0 <= pi_Count index <= maxInt;
  xo_pages : Forall (pageRef_ok (pi_FieldType index)) (pi_Pages index);
  xo_fits : fits (len (pi_Pages index));
}.
Definition index_header (index : valuePageIndex) : valuePageIndexHeader :=
  mkPageIndexHeader (pi_FieldID index) (pi_FieldType index) (pi_Count index) (len (pi_Pages index)).
(** The index block is its header followed by the page entries. *)
Lemma pageIndex_reads index : pageIndex_ok index -> exists head pages,
  marshalValuePageIndex index = Ok (valueEncodingPageIndex :: head ++ pages) /\
  reads_back readValuePageIndexHeader (valueEncodingPageIndex :: head) (index_header index) /\
  appendEach (appendPageRef (pi_FieldType index)) (pi_Pages index) = Ok pages.
Proof.
  intros []. destruct (appendEach_decodes (readValuePageRef (pi_FieldType index)) (appendPageRef (pi_FieldType index)) (pi_Pages index))
    as (pages & E & Hr); [eapply Forall_impl; [exact xo_pages0|apply pageRef_decodes]|].
  exists (appendUvarint (pi_FieldID index) ++ [u8 (pi_FieldType index)] ++ appendUvarint (pi_Count index)
          ++ appendUvarint (len (pi_Pages index))), pages.
  unfold marshalValuePageIndex. rewrite E. split_and!; [|clear Hr|done].
  { cbn [mbind outcome_bind]. rewrite <- !(assoc_L (++)). reflexivity. }
  unfold readValuePageIndexHeader. change (valueEncodingPageIndex :: ?l) with ([valueEncodingPageIndex] ++ l).
  eapply reads_back_bind; [apply rd_byte_append|]. rewrite Z.eqb_refl. cbn [negb].
  eapply reads_back_bind; [apply rd_uvarint_append; wrap_lia|].
  unfold uint32Value. assert ((2 ^ 32 - 1 <? pi_FieldID index) = false) as -> by (unfold is_u32 in *; zb).
  intros rest. unfold mbind at 1, reader_bind at 1. cbn [lift]. revert rest.
  rewrite u8_byte by done. eapply reads_back_bind; [apply rd_byte_append|].
  eapply reads_back_bind; [by apply rd_intCount_append|].
  eapply reads_back_bind_nil; [apply rd_intCount_append, fits_count; [apply len_nonneg|done]|]. apply reads_back_ret.
Qed.
(** The index of a column read back whole. *)
Lemma pageIndex_roundtrip index payload : pageIndex_ok index -> marshalValuePageIndex index = Ok payload ->
  unmarshalValuePageIndex payload = Ok index.
Proof.
  intros Hok Hm. destruct (pageIndex_reads index Hok) as (head & pages & Em & Hh & Ea). rewrite Em in Hm. injection Hm as <-.
  change (valueEncodingPageIndex :: head ++ pages) with ((valueEncodingPageIndex :: head) ++ pages).
  unfold unmarshalValuePageIndex. destruct Hok as [_ _ _ HF Hf].
  destruct (appendEach_decodes (readValuePageRef (pi_FieldType index)) (appendPageRef (pi_FieldType index)) (pi_Pages index))
    as (bs & Eb & Hr); [eapply Forall_impl; [exact HF|apply pageRef_decodes]|]. rewrite Ea in Eb. injection Eb as ->.
  erewrite run_bind; [|exact Hh|reflexivity]. cbn [ph_pageCount ph_fieldType ph_fieldID ph_count index_header].
  erewrite run_make; [|apply len_nonneg|alloc_lia|reflexivity]. rewrite count_nat.
  erewrite run_bind_nil; [|exact Hr|reflexivity]. by destruct index.
Qed.
