(* ===== verification/SstPack.v ===== *)
(** * The packed part file (internal/sstable/part_pack.go)

    A part directory holds two files: the metadata and a pack of the other
    components, whose header lists the name and the size of every section.  A
    directory is a map from file names to contents. *)
From S2P Require Import Prelude GoBinary Model Codec Readers SstTime Float64 SstValues SstSamples SstPage Runtime EngineMerge SstMeta SstPlain.
From stdpp Require Import prelude strings list gmap.
From Stdlib Require Import ZArith Lia.
#[local] Open Scope Z_scope.

Definition directory : Type := gmap bytes bytes.

Definition packMagic : bytes := str "MTSPAK1".
Definition packMagicSize : Z := 7.
Definition packFile : bytes := str "pack.bin".
Definition packSectionOrder : list bytes :=
  [metaindexFile; indexFile; seriesIndexFile; timestampsFile; valuesFile; stringsFile].

Record packSection := mkPackSection { sc_Name : bytes; sc_Offset : Z; sc_Size : Z }.

Definition packHeader (sections : list packSection) : bytes :=
  packMagic ++ appendUvarint (len sections)
  ++ concat (map (fun s => appendUvarint (len (sc_Name s)) ++ sc_Name s ++ appendUvarint (u64 (sc_Size s))) sections).
Definition encodePartPack (sections : list packSection) (payloads : list bytes) : outcome bytes :=
  if negb (len sections =? len payloads) then Err (Errorf "pack section count mismatch")
  else Ok (packHeader sections ++ concat payloads).

(** Reads every component, writes the pack and removes the components. *)
Fixpoint packSections (dir : directory) (names : list bytes) : outcome (list packSection * list bytes * gmap bytes Z) :=
  match names with
  | [] => Ok ([], [], {[ metadataFile := 0 ]})
  | name :: names' =>
      match dir !! name with
      | None => Err (Errorf "read pack section")
      | Some data =>
          '(sections, payloads, sizes) ← packSections dir names';
          Ok (mkPackSection name 0 (len data) :: sections, data :: payloads, <[name := len data]> sizes)
      end
  end.
Definition writePartPack (dir : directory) : outcome (gmap bytes Z * directory) :=
  '(sections, payloads, sizes) ← packSections dir packSectionOrder;
  encoded ← encodePartPack sections payloads;
  let dir := <[packFile := encoded]> dir in
  Ok (sizes, foldr delete dir packSectionOrder).

Fixpoint packHeaderLoop (count : nat) (rest : bytes) (consumed : Z) : outcome (list packSection * Z) :=
  match count with
  | O => Ok ([], consumed)
  | S count' =>
      let '(nameLen, n) := Uvarint rest in
      if n <=? 0 then Err (Errorf "invalid pack section name length")
      else
        let rest := drop (Z.to_nat n) rest in
        let consumed := consumed + n in
        if len rest <? nameLen then Err (Errorf "pack section name truncated")
        else
          let name := take (Z.to_nat nameLen) rest in
          let rest := drop (Z.to_nat nameLen) rest in
          let consumed := consumed + nameLen in
          let '(size, n) := Uvarint rest in
          if n <=? 0 then Err (Errorf "invalid pack section size")
          else
            let rest := drop (Z.to_nat n) rest in
            let consumed := consumed + n in
            if 2 ^ 63 - 1 <? size then Err (Errorf "pack section size overflows int64")
            else
              '(sections, consumed) ← packHeaderLoop count' rest consumed;
              Ok (mkPackSection name 0 size :: sections, consumed)
  end.
Definition decodePartPackHeader (data : bytes) : outcome (list packSection * Z) :=
  if len data <? packMagicSize then Err (Errorf "pack header too short")
  else if negb (bool_decide (take 7 data = packMagic)) then Err (Errorf "invalid pack magic")
  else
    let rest := drop 7 data in
    let '(count, n) := Uvarint rest in
    if n <=? 0 then Err (Errorf "invalid pack section count")
    else
      _ ← make_slice 32 count;
      packHeaderLoop (Z.to_nat count) (drop (Z.to_nat n) rest) (packMagicSize + n).

Definition maxHeaderProbe : Z := Z.shiftl 64 10.
Fixpoint placeSections (fileSize offset : Z) (sections : list packSection) (out : gmap bytes packSection)
    : outcome (gmap bytes packSection * Z) :=
  match sections with
  | [] => Ok (out, offset)
  | section :: sections' =>
      if sc_Size section <? 0 then Err (Errorf "pack section has negative size")
      else if fileSize <? i64 (offset + sc_Size section) then Err (Errorf "pack section exceeds file size")
      else placeSections fileSize (i64 (offset + sc_Size section)) sections'
             (<[sc_Name section := mkPackSection (sc_Name section) offset (sc_Size section)]> out)
  end.
Definition readPartPackSections (file : bytes) : outcome (gmap bytes packSection) :=
  if len file <? packMagicSize then Err (Errorf "pack.bin too small")
  else
    let probe := if len file <? maxHeaderProbe then len file else maxHeaderProbe in
    '(sections, headerSize) ← decodePartPackHeader (take (Z.to_nat probe) file);
    '(out, offset) ← placeSections (len file) headerSize sections ∅;
    if negb (offset =? len file) then Err (Errorf "pack payload size mismatch") else Ok out.

(** The pack file and its sections. *)
Definition openPartPack (dir : directory) : outcome (bytes * gmap bytes packSection) :=
  match dir !! packFile with
  | None => Err (Errorf "open pack.bin")
  | Some file => sections ← readPartPackSections file; Ok (file, sections)
  end.
Definition sectionOf (file : bytes) (section : packSection) : sectionReader :=
  mkSectionReader file (sc_Offset section) (sc_Size section).
Definition packSectionFile (file : bytes) (sections : gmap bytes packSection) (name : bytes) : outcome sectionReader :=
  match sections !! name with
  | None => Err (Errorf "pack section missing")
  | Some section => Ok (sectionOf file section)
  end.

(** ** Proofs *)
Definition sectionsOf (files : list (bytes * bytes)) : list packSection :=
  map (fun f => mkPackSection f.1 0 (len f.2)) files.

Record files_ok (files : list (bytes * bytes)) : Prop := {
  fo_names : NoDup files.*1;
  fo_sizes : Forall (fun f => len f.1 <= maxInt /\ len f.2 <= maxInt) files;
  fo_count : fits (len files);
  fo_header : len (packHeader (sectionsOf files)) <= maxHeaderProbe;
  fo_total : len (packHeader (sectionsOf files) ++ concat files.*2) <= maxInt;
}.

Lemma packHeaderLoop_reads files : Forall (fun f => len f.1 <= maxInt /\ len f.2 <= maxInt) files ->
  forall rest consumed,
  let body := concat (map (fun s => appendUvarint (len (sc_Name s)) ++ sc_Name s ++ appendUvarint (u64 (sc_Size s)))
    (sectionsOf files)) in
  packHeaderLoop (length files) (body ++ rest) consumed = Ok (sectionsOf files, consumed + len body).
Proof.
  induction 1 as [|[name data] files [Hn Hd] HF IH]; intros rest consumed body; [by rewrite Z.add_0_r|].
  subst body. simpl in Hn, Hd. cbn [length sectionsOf map concat packHeaderLoop sc_Name sc_Size fst snd].
  set (body := concat _). pose proof (len_nonneg name) as Hn0. pose proof (len_nonneg data) as Hd0.
  rewrite <- !(assoc_L (++)), Uvarint_append by (unfold is_u64, maxInt in *; lia).
  pose proof (appendUvarint_pos (len name)) as Hp1.
  assert ((len (appendUvarint (len name)) <=? 0) = false) as -> by zb.
  rewrite count_nat, drop_app_length.
  assert ((len (name ++ appendUvarint (u64 (len data)) ++ body ++ rest) <? len name) = false) as ->.
  { apply Z.ltb_ge. rewrite len_app. pose proof (len_nonneg (appendUvarint (u64 (len data)) ++ body ++ rest)). lia. }
  rewrite count_nat, take_app_length, drop_app_length.
  assert (u64 (len data) = len data) as -> by (apply u64_id; unfold is_u64, maxInt in *; lia).
  rewrite Uvarint_append by (unfold is_u64, maxInt in *; lia).
  pose proof (appendUvarint_pos (len data)) as Hp2.
  assert ((len (appendUvarint (len data)) <=? 0) = false) as -> by zb.
  rewrite count_nat, drop_app_length.
  assert ((2 ^ 63 - 1 <? len data) = false) as -> by (apply Z.ltb_ge; unfold maxInt in Hd; lia).
  specialize (IH rest (consumed + len (appendUvarint (len name)) + len name + len (appendUvarint (len data)))).
  cbn zeta in IH. unfold sectionsOf in IH. fold body in IH. rewrite IH. cbn [mbind outcome_bind].
  f_equal. f_equal. rewrite !len_app. lia.
Qed.

Lemma decodePartPackHeader_reads files rest : files_ok files ->
  decodePartPackHeader (packHeader (sectionsOf files) ++ rest) = Ok (sectionsOf files, len (packHeader (sectionsOf files))).
Proof.
  intros [_ HF Hc Hh _]. unfold decodePartPackHeader, packHeader. rewrite <- !(assoc_L (++)).
  set (body := concat _).
  assert (len (sectionsOf files) = len files) as Hl by (unfold len, sectionsOf; by rewrite length_map).
  assert ((len (packMagic ++ appendUvarint (len (sectionsOf files)) ++ body ++ rest) <? packMagicSize) = false) as ->.
  { apply Z.ltb_ge. rewrite len_app. unfold packMagicSize. pose proof (len_nonneg (appendUvarint (len (sectionsOf files)) ++ body ++ rest)).
    change (len packMagic) with 7. lia. }
  change (take 7 (packMagic ++ ?l)) with packMagic. rewrite bool_decide_true by done. cbn [negb].
  change (drop 7 (packMagic ++ ?l)) with l. pose proof (len_nonneg files) as Hf0.
  rewrite Hl, Uvarint_append by (unfold is_u64; alloc_lia).
  pose proof (appendUvarint_pos (len files)) as Hp.
  assert ((len (appendUvarint (len files)) <=? 0) = false) as -> by zb.
  rewrite make_slice_ok by alloc_lia. cbn [mbind outcome_bind]. rewrite !count_nat, drop_app_length.
  pose proof (packHeaderLoop_reads files HF rest (packMagicSize + len (appendUvarint (len files)))) as Hr.
  cbn zeta in Hr. fold body in Hr. rewrite Hr. f_equal. f_equal. rewrite !len_app.
  change (len packMagic) with packMagicSize. lia.
Qed.

Lemma placeSections_run files : Forall (fun f => len f.1 <= maxInt /\ len f.2 <= maxInt) files -> NoDup files.*1 ->
  forall fileSize offset out, 0 <= offset -> offset + len (concat files.*2) <= fileSize -> fileSize <= maxInt ->
  exists out', placeSections fileSize offset (sectionsOf files) out = Ok (out', offset + len (concat files.*2)) /\
    (forall name, name ∉ files.*1 -> out' !! name = out !! name) /\
    (forall l1 name data l2, files = l1 ++ (name, data) :: l2 ->
       out' !! name = Some (mkPackSection name (offset + len (concat l1.*2)) (len data))).
Proof.
  induction 1 as [|[name data] files [Hn Hd] HF IH]; intros Hnd fileSize offset out H0 Hs Hm.
  { exists out. split_and!; [simpl; by rewrite Z.add_0_r|done|]. by intros []. }
  rewrite !fmap_cons in Hnd, Hs |- *. cbn [fst snd concat] in *. apply NoDup_cons in Hnd as [Hnin Hnd].
  rewrite len_app in Hs. pose proof (len_nonneg data). pose proof (len_nonneg (concat files.*2)).
  cbn [sectionsOf map placeSections sc_Size sc_Name fst snd].
  assert ((len data <? 0) = false) as -> by zb.
  rewrite i64_id by (unfold is_i64, maxInt in *; lia).
  assert ((fileSize <? offset + len data) = false) as -> by zb.
  destruct (IH Hnd fileSize (offset + len data) (<[name := mkPackSection name offset (len data)]> out)) as (out' & E & Hout & Hin);
    [lia..|]. exists out'. split_and!.
  - fold (sectionsOf files). rewrite E, len_app. do 2 f_equal. lia.
  - intros name' [Hne Hn']%not_elem_of_cons. rewrite Hout by done. by rewrite lookup_insert_ne.
  - intros [|x l1] name' data' l2 Ef; cbn [app] in Ef.
    + injection Ef as -> -> ->. rewrite Hout by done. rewrite lookup_insert. simpl.
      case_decide; [|done]. by rewrite Z.add_0_r.
    + injection Ef as <- ->. rewrite (Hin l1 name' data' l2) by done. rewrite fmap_cons. cbn [concat fst snd].
      rewrite len_app. do 2 f_equal. lia.
Qed.

(** A section of the pack is one of the files that were packed. *)
Definition packs (file : bytes) (sections : gmap bytes packSection) (files : list (bytes * bytes)) : Prop :=
  forall name data, (name, data) ∈ files -> exists section,
    sections !! name = Some section /\ sc_Size section = len data /\
    exists before after, file = before ++ data ++ after /\ sc_Offset section = len before.

Lemma pack_reads files file : files_ok files -> encodePartPack (sectionsOf files) files.*2 = Ok file ->
  exists sections, readPartPackSections file = Ok sections /\ packs file sections files /\
    (forall name, name ∉ files.*1 -> sections !! name = None).
Proof.
  intros Hok E. pose proof Hok as [Hnd HF Hc Hh Ht]. unfold encodePartPack in E.
  destruct (negb _); [done|]. set (header := packHeader (sectionsOf files)) in *.
  assert (header ++ concat files.*2 = file) as <- by congruence. clear E.
  set (probe := if len (header ++ concat files.*2) <? maxHeaderProbe then len (header ++ concat files.*2) else maxHeaderProbe).
  pose proof (len_nonneg header) as Hh0. pose proof (len_nonneg (concat files.*2)) as Hb0.
  assert (exists rest, take (Z.to_nat probe) (header ++ concat files.*2) = header ++ rest) as [rest Hrest].
  { exists (take (Z.to_nat probe - length header) (concat files.*2)). rewrite take_app, take_ge; [done|].
    subst probe. rewrite len_app in *. zcase (len header + len (concat files.*2) <? maxHeaderProbe); unfold len in *; lia. }
  unfold readPartPackSections. fold probe.
  assert (7 <= len header) as H7.
  { unfold header, packHeader. rewrite len_app. change (len packMagic) with 7.
    match goal with |- context [len ?l] => pose proof (len_nonneg l) end. lia. }
  assert ((len (header ++ concat files.*2) <? packMagicSize) = false) as ->
    by (apply Z.ltb_ge; rewrite len_app; unfold packMagicSize; lia).
  pose proof (decodePartPackHeader_reads files rest Hok) as Hdec. fold header in Hdec. rewrite Hrest, Hdec. cbn [mbind outcome_bind]. fold header.
  destruct (placeSections_run files HF Hnd (len (header ++ concat files.*2)) (len header) ∅) as (out & E & Hout & Hin);
    [done|rewrite len_app; lia|done|].
  rewrite E. cbn [mbind outcome_bind]. rewrite <- len_app, Z.eqb_refl. cbn [negb]. exists out. split_and!; [done| |].
  - intros name data Hnd'. apply list_elem_of_split in Hnd' as (l1 & l2 & Ef).
    exists (mkPackSection name (len header + len (concat l1.*2)) (len data)). split; [by eapply Hin|]. split; [done|].
    exists (header ++ concat l1.*2), (concat l2.*2). rewrite len_app. split; [|done].
    rewrite Ef, fmap_app, fmap_cons, concat_app. cbn [concat fst snd]. by rewrite <- !(assoc_L (++)).
  - intros name Hn. rewrite Hout by done. apply lookup_empty.
Qed.

(** * Writing a part (internal/sstable: convert.go, write.go, stream_write.go)

    One row per series: its timestamps in a block of the timestamps file, the
    pages of each column and their index in blocks of the values file.  Closing
    the writer writes the index files, packs the components and writes the
    metadata.  File operations succeed; the errors are the code's own.  The
    path [filepath.Join(root, id)] and the clock are arguments. *)
(** ** Timestamps of a row (convert.go) *)
Fixpoint samplesSortedFrom (prev : Z) (samples : list VersionedSample) : bool :=
  match samples with
  | [] => true
  | s :: samples' => if vs_Timestamp s <? prev then false else samplesSortedFrom (vs_Timestamp s) samples'
  end.
Definition samplesSorted (samples : list VersionedSample) : bool :=
  match samples with [] => true | s :: samples' => samplesSortedFrom (vs_Timestamp s) samples' end.
Definition sortSamples `{GoRuntime} (samples : list VersionedSample) : list VersionedSample :=
  sort_Slice (fun x y => vs_Timestamp x <? vs_Timestamp y) samples.
Definition columnsSamplesSorted (columns : list ColumnData) : bool :=
  forallb (fun column => samplesSorted (cd_Samples column)) columns.

(** [for index, sample := range column.Samples { if sample.Timestamp != first[index].Timestamp ... }] *)
Definition sameTimestamps (samples first : list VersionedSample) : bool :=
  forallb (fun p => vs_Timestamp p.1 =? vs_Timestamp p.2) (zip samples first).
Definition alignedTimestamps (columns : list ColumnData) : option (list Z) :=
  match columns with
  | [] => Some []
  | column :: columns' =>
      let first := cd_Samples column in
      if forallb (fun c => (len (cd_Samples c) =? len first) && sameTimestamps (cd_Samples c) first) columns'
      then Some (map vs_Timestamp first) else None
  end.

Definition nextTimestampStep (acc : option Z) (cp : ColumnData * nat) : option Z :=
  match cd_Samples cp.1 !! cp.2 with
  | None => acc
  | Some s =>
      match acc with
      | None => Some (vs_Timestamp s)
      | Some timestamp => if vs_Timestamp s <? timestamp then Some (vs_Timestamp s) else acc
      end
  end.
Definition nextTimestamp (columns : list ColumnData) (positions : list nat) : option Z :=
  foldl nextTimestampStep None (zip columns positions).
(** [for positions[i] < len(column.Samples) && column.Samples[positions[i]].Timestamp == timestamp { positions[i]++ }] *)
Fixpoint skipTimestamp (fuel : nat) (samples : list VersionedSample) (position : nat) (timestamp : Z) : nat :=
  match fuel with
  | O => position
  | S fuel' =>
      match samples !! position with
      | Some s => if vs_Timestamp s =? timestamp then skipTimestamp fuel' samples (S position) timestamp else position
      | None => position
      end
  end.
Definition totalSamples (columns : list ColumnData) : nat :=
  foldr (fun c n => (length (cd_Samples c) + n)%nat) 0%nat columns.
(** Every round consumes a sample of the column with the least timestamp. *)
Fixpoint mergeTimestampsLoop (fuel : nat) (columns : list ColumnData) (positions : list nat) : list Z :=
  match fuel with
  | O => []
  | S fuel' =>
      match nextTimestamp columns positions with
      | None => []
      | Some timestamp =>
          timestamp :: mergeTimestampsLoop fuel' columns
            (zip_with (fun c p => skipTimestamp (length (cd_Samples c)) (cd_Samples c) p timestamp) columns positions)
      end
  end.
Definition mergeColumnTimestamps (columns : list ColumnData) : list Z :=
  mergeTimestampsLoop (totalSamples columns) columns (replicate (length columns) 0%nat).
Definition collectTimestampsFallback `{GoRuntime} (columns : list ColumnData) : list Z :=
  let seen : gmap Z unit :=
    foldl (fun seen s => <[vs_Timestamp s := tt]> seen) ∅ (concat (cd_Samples <$> columns)) in
  sort_Slice Z.ltb (map_range seen).*1.
Definition collectTimestamps `{GoRuntime} (columns : list ColumnData) : list Z :=
  match alignedTimestamps columns with
  | Some timestamps => timestamps
  | None => if columnsSamplesSorted columns then mergeColumnTimestamps columns else collectTimestampsFallback columns
  end.

(** ** Pages of a column (write.go) *)
Record WriteOptions := mkWriteOptions {
  wo_Compression : CompressionOptions;
  wo_MemoryBudget : option (Z -> outcome unit);
  wo_Sync : bool;
}.
Definition defaultValueBlockPageSamples : Z := 1024.
Definition minValueBlockPageSamples : Z := 64.
Definition maxValueBlockPageSamples : Z := 65536.
Definition resolveValuePageSamples (configured : Z) : Z :=
  if configured <=? 0 then defaultValueBlockPageSamples
  else if configured <? minValueBlockPageSamples then minValueBlockPageSamples
  else if maxValueBlockPageSamples <? configured then maxValueBlockPageSamples
  else configured.

Definition floatValuePageStats (samples : list VersionedSample) : outcome valuePageStats :=
  match samples with
  | [] => Panic IndexOutOfRange
  | s :: samples' =>
      let '(minValue, maxValue) :=
        foldl (fun '(minValue, maxValue) sample =>
                 let value := fv_Float64 (vs_Value sample) in
                 (if f_ltb value minValue then value else minValue, if f_ltb maxValue value then value else maxValue))
          (fv_Float64 (vs_Value s), fv_Float64 (vs_Value s)) samples' in
      Ok (mkPageStats true minValue maxValue 0 0)
  end.
Definition intValuePageStats (samples : list VersionedSample) : outcome valuePageStats :=
  match samples with
  | [] => Panic IndexOutOfRange
  | s :: samples' =>
      let '(minValue, maxValue) :=
        foldl (fun '(minValue, maxValue) sample =>
                 let value := fv_Int64 (vs_Value sample) in
                 (if value <? minValue then value else minValue, if maxValue <? value then value else maxValue))
          (fv_Int64 (vs_Value s), fv_Int64 (vs_Value s)) samples' in
      Ok (mkPageStats true 0 0 minValue maxValue)
  end.
Definition valuePageStatsFromSamples (fieldType : Z) (samples : list VersionedSample) : outcome valuePageStats :=
  if len samples =? 0 then Ok noStats
  else if fieldType =? FieldFloat64 then floatValuePageStats samples
  else if fieldType =? FieldInt64 then intValuePageStats samples
  else Ok noStats.

Record partFiles := mkPartFiles { pf_timeBlocks : blockWriter; pf_valueBlocks : blockWriter }.
Definition openPartFiles : partFiles := mkPartFiles (newBlockWriter []) (newBlockWriter []).
Definition writeTimes (payload : bytes) : step partFiles blockRef := fun files =>
  match bw_write (pf_timeBlocks files) payload with
  | Ok (ref, w) => (Ok ref, mkPartFiles w (pf_valueBlocks files))
  | Err e => (Err e, files)
  | Panic p => (Panic p, files)
  end.
Definition writeValues (payload : bytes) : step partFiles blockRef := fun files =>
  match bw_write (pf_valueBlocks files) payload with
  | Ok (ref, w) => (Ok ref, mkPartFiles (pf_timeBlocks files) w)
  | Err e => (Err e, files)
  | Panic p => (Panic p, files)
  end.

Section Write.
Context `{lib : PayloadLib} `{GoRuntime}.

Definition withPage (column : ColumnData) (start end_ : nat) : ColumnData :=
  mkColumnData (cd_SeriesID column) (cd_FieldID column) (cd_FieldType column)
    (take (end_ - start) (drop start (cd_Samples column))).
Fixpoint writePagesLoop (fuel : nat) (column : ColumnData) (rowTimestamps : list Z) (opts : WriteOptions)
    (pageSamples start : nat) : step partFiles (list valuePageRef) :=
  match fuel with
  | O => mret []
  | S fuel' =>
      if (length (cd_Samples column) <=? start)%nat then mret []
      else
        let end_ := Nat.min (start + pageSamples) (length (cd_Samples column)) in
        let pageColumn := withPage column start end_ in
        payload ← wrap_step "encode value page"
          (pure_step (marshalValuePage pageColumn rowTimestamps (wo_Compression opts) (wo_MemoryBudget opts)));
        ref ← writeValues payload;
        first ← pure_step (idx (cd_Samples pageColumn) 0);
        last ← pure_step (idx (cd_Samples pageColumn) (len (cd_Samples pageColumn) - 1));
        stats ← pure_step (valuePageStatsFromSamples (cd_FieldType pageColumn) (cd_Samples pageColumn));
        pages ← writePagesLoop fuel' column rowTimestamps opts pageSamples (start + pageSamples);
        mret (mkPageRef (vs_Timestamp first) (vs_Timestamp last) ref stats :: pages)
  end.
Definition writeValuePages (column : ColumnData) (rowTimestamps : list Z) (opts : WriteOptions)
    : step partFiles valuePageIndex :=
  let pageSamples := resolveValuePageSamples (co_ValuePageSamples (wo_Compression opts)) in
  pages ← writePagesLoop (length (cd_Samples column)) column rowTimestamps opts (Z.to_nat pageSamples) 0;
  mret (mkPageIndex (cd_FieldID column) (cd_FieldType column) (len (cd_Samples column)) pages).
Definition writeValueBlock (rowTimestamps : list Z) (opts : WriteOptions) (column : ColumnData)
    : step partFiles columnRef :=
  index ← writeValuePages column rowTimestamps opts;
  payload ← wrap_step "encode value page index" (pure_step (marshalValuePageIndex index));
  ref ← writeValues payload;
  mret (mkColumnRef (cd_FieldID column) (cd_FieldType column) ref).

(** The sort permutes the caller's slice; the callers use it as a set. *)
Definition sortByField (columns : list ColumnData) : list ColumnData :=
  SortFunc (fun left right => cmp_Compare (cd_FieldID left) (cd_FieldID right)) columns.
Definition writeSeries (seriesID : Z) (columns : list ColumnData) (opts : WriteOptions) : step partFiles indexRow :=
  let columns := sortByField columns in
  let timestamps := collectTimestamps columns in
  timeRef ← writeTimes (marshalTimeBlock timestamps);
  minTime ← pure_step (idx timestamps 0);
  maxTime ← pure_step (idx timestamps (len timestamps - 1));
  refs ← step_list (writeValueBlock timestamps opts) columns;
  mret (mkIndexRow seriesID minTime maxTime timeRef refs).

(** ** Part metadata of the rows *)
Definition updateMeta (meta : PartMeta) (row : indexRow) (columns : list ColumnData) : PartMeta :=
  mkPartMeta (pm_ID meta) (pm_Level meta)
    (if (pm_RowsCount meta =? 0) || (ir_MinTime row <? pm_MinTime meta) then ir_MinTime row else pm_MinTime meta)
    (if pm_MaxTime meta <? ir_MaxTime row then ir_MaxTime row else pm_MaxTime meta)
    (if (pm_SeriesCount meta =? 0) || (ir_SeriesID row <? pm_MinSeriesID meta) then ir_SeriesID row else pm_MinSeriesID meta)
    (if pm_MaxSeriesID meta <? ir_SeriesID row then ir_SeriesID row else pm_MaxSeriesID meta)
    (foldl (fun n c => n + len (cd_Samples c)) (pm_RowsCount meta) columns)
    (pm_SeriesCount meta + 1)
    (pm_BlockCount meta + 1)
    (foldl (fun m s => if m <? vs_WriteSeq s then vs_WriteSeq s else m) (pm_MaxWriteSeq meta)
       (concat (cd_Samples <$> columns)))
    (pm_Path meta).
Definition newMetadata (level : Z) (id : bytes) (now : Z) : metadata :=
  mkMetadata (mkPartMeta id level 0 0 0 0 0 0 0 0 []) (mkBlockRef 0 0) (mkBlockRef 0 0) (mkBlockRef 0 0) [] ∅ now.

Definition collectRowFieldIDs (row : indexRow) : list Z := sort_Slice Z.ltb (map cr_FieldID (ir_Columns row)).
Definition collectFieldIDs (rows : list indexRow) : list Z :=
  let seen : gmap Z unit :=
    foldl (fun seen c => <[cr_FieldID c := tt]> seen) ∅ (concat (map ir_Columns rows)) in
  sort_Slice Z.ltb (map_range seen).*1.
Definition metaIndexFromRows (meta : PartMeta) (ref : blockRef) (rows : list indexRow) : metaIndexRow :=
  mkMetaIndexRow (pm_MinSeriesID meta) (pm_MaxSeriesID meta) (pm_MinTime meta) (pm_MaxTime meta)
    (collectFieldIDs rows) ref.
(** [refs[index]] panics when there are fewer refs than rows. *)
Fixpoint seriesIndexFromRows (rows : list indexRow) (refs : list blockRef) : outcome (list seriesIndexRow) :=
  match rows, refs with
  | [], _ => Ok []
  | _ :: _, [] => Panic IndexOutOfRange
  | row :: rows', ref :: refs' =>
      out ← seriesIndexFromRows rows' refs';
      Ok (mkSeriesIndexRow (ir_SeriesID row) (ir_MinTime row) (ir_MaxTime row) (collectRowFieldIDs row) ref :: out)
  end.

(** The index of all rows, then one block per row. *)
Fixpoint writeRowBlocks (w : blockWriter) (rows : list indexRow) : outcome (list blockRef * blockWriter) :=
  match rows with
  | [] => Ok ([], w)
  | row :: rows' =>
      payload ← encodeIndexRowsInto [row];
      '(ref, w) ← bw_write w payload;
      '(refs, w) ← writeRowBlocks w rows';
      Ok (ref :: refs, w)
  end.
Definition writeIndexBlocks (rows : list indexRow) : outcome (blockRef * list blockRef * bytes) :=
  let w := newBlockWriter [] in
  payload ← encodeIndexRowsInto rows;
  '(indexRef, w) ← bw_write w payload;
  '(rowRefs, w) ← writeRowBlocks w rows;
  Ok (indexRef, rowRefs, bw_file w).
Definition writeBinaryBlock (payload : bytes) : outcome (blockRef * bytes) := writeBlock [] payload.

Definition setRefs (meta : metadata) (indexRef metaIndexRef seriesIndexRef : blockRef) : metadata :=
  mkMetadata (md_Part meta) indexRef metaIndexRef seriesIndexRef (md_Components meta) (md_ComponentSizes meta)
    (md_CreatedUnix meta).
Definition writePartIndexes (dir : directory) (meta : metadata) (rows : list indexRow) : outcome (metadata * directory) :=
  '(indexRef, rowRefs, index) ← writeIndexBlocks rows;
  metaIndexPayload ← encodeMetaIndexRows [metaIndexFromRows (md_Part meta) indexRef rows];
  '(metaIndexRef, metaIndex) ← writeBinaryBlock metaIndexPayload;
  seriesRows ← seriesIndexFromRows rows rowRefs;
  seriesIndexPayload ← encodeSeriesIndexRows seriesRows;
  '(seriesIndexRef, seriesIndex) ← writeBinaryBlock seriesIndexPayload;
  Ok (setRefs meta indexRef metaIndexRef seriesIndexRef,
      <[seriesIndexFile := seriesIndex]> (<[metaindexFile := metaIndex]> (<[indexFile := index]> dir))).

(** [writeMetadata] with the sizes known. *)
Definition finalizePartLayout (dir : directory) (meta : metadata) : outcome (metadata * directory) :=
  let dir := <[stringsFile := []]> dir in
  '(sizes, dir) ← writePartPack dir;
  let meta := mkMetadata (md_Part meta) (md_IndexRef meta) (md_MetaIndexRef meta) (md_SeriesIndexRef meta)
                (metadataComponents (md_Components meta)) sizes (md_CreatedUnix meta) in
  data ← wrapErr "encode part metadata" (encodeMetadata meta);
  Ok (meta, <[metadataFile := data]> dir).
Definition withPath (meta : PartMeta) (path : bytes) : PartMeta :=
  mkPartMeta (pm_ID meta) (pm_Level meta) (pm_MinTime meta) (pm_MaxTime meta) (pm_MinSeriesID meta)
    (pm_MaxSeriesID meta) (pm_RowsCount meta) (pm_SeriesCount meta) (pm_BlockCount meta) (pm_MaxWriteSeq meta) path.
(** The files of the data blocks as closing them leaves them. *)
Definition closedFiles (files : partFiles) : directory :=
  <[valuesFile := bw_file (pf_valueBlocks files)]> {[ timestampsFile := bw_file (pf_timeBlocks files) ]}.
Definition finishPart (files : partFiles) (meta : metadata) (rows : list indexRow) (path : bytes)
    : outcome (PartMeta * directory) :=
  '(meta, dir) ← writePartIndexes (closedFiles files) meta rows;
  '(meta, dir) ← finalizePartLayout dir meta;
  Ok (withPath (md_Part meta) path, dir).

(** ** The streaming writer (stream_write.go) *)
Record PartWriter := mkPartWriter {
  pw_path : bytes;
  pw_files : partFiles;
  pw_opts : WriteOptions;
  pw_rows : list indexRow;
  pw_meta : metadata;
  pw_closed : bool;
}.
Definition NewPartWriter (path : bytes) (level : Z) (id : bytes) (opts : WriteOptions) (now : Z) : PartWriter :=
  mkPartWriter path openPartFiles opts [] (newMetadata level id now) false.
Definition set_md_Part (meta : metadata) (part : PartMeta) : metadata :=
  mkMetadata part (md_IndexRef meta) (md_MetaIndexRef meta) (md_SeriesIndexRef meta) (md_Components meta)
    (md_ComponentSizes meta) (md_CreatedUnix meta).
Fixpoint checkSeriesColumns (seriesID : Z) (columns : list ColumnData) : outcome unit :=
  match columns with
  | [] => Ok tt
  | column :: columns' =>
      if negb (cd_SeriesID column =? seriesID) then Err (Errorf "mixed series in streaming part writer")
      else if len (cd_Samples column) =? 0 then Err (Errorf "empty column in streaming part writer")
      else checkSeriesColumns seriesID columns'
  end.
Definition AddSeries (columns : list ColumnData) : step PartWriter unit := fun w =>
  if pw_closed w then (Err (Errorf "part writer is closed"), w)
  else match columns with
  | [] => (Ok tt, w)
  | column :: _ =>
      let seriesID := cd_SeriesID column in
      match checkSeriesColumns seriesID columns with
      | Err e => (Err e, w)
      | Panic p => (Panic p, w)
      | Ok _ =>
          let '(r, files) := writeSeries seriesID columns (pw_opts w) (pw_files w) in
          match r with
          | Ok row =>
              (Ok tt, mkPartWriter (pw_path w) files (pw_opts w) (pw_rows w ++ [row])
                        (set_md_Part (pw_meta w) (updateMeta (md_Part (pw_meta w)) row (sortByField columns))) false)
          | Err e => (Err e, mkPartWriter (pw_path w) files (pw_opts w) (pw_rows w) (pw_meta w) false)
          | Panic p => (Panic p, mkPartWriter (pw_path w) files (pw_opts w) (pw_rows w) (pw_meta w) false)
          end
      end
  end.
(** The metadata and the directory that is left; an error removes the directory. *)
Definition Close : step PartWriter (PartMeta * directory) := fun w =>
  if pw_closed w then (Err (Errorf "part writer is closed"), w)
  else
    let w' := mkPartWriter (pw_path w) (pw_files w) (pw_opts w) (pw_rows w) (pw_meta w) true in
    if len (pw_rows w) =? 0 then (Err (Errorf "part writer has no rows"), w')
    else (finishPart (pw_files w) (pw_meta w) (pw_rows w) (pw_path w), w').
Definition Abort_ (w : PartWriter) : PartWriter :=
  mkPartWriter (pw_path w) (pw_files w) (pw_opts w) (pw_rows w) (pw_meta w) true.

(** ** Writing all columns at once *)
Record columnGroup := mkColumnGroup { cg_seriesID : Z; cg_columns : list ColumnData }.
Definition sortColumnsForWrite (columns : list ColumnData) : list ColumnData := sort_Slice columnDataLess columns.
Definition orderedColumn (column : ColumnData) : ColumnData :=
  if negb (samplesSorted (cd_Samples column))
  then mkColumnData (cd_SeriesID column) (cd_FieldID column) (cd_FieldType column) (sortSamples (cd_Samples column))
  else column.
Fixpoint takeSeries (seriesID : Z) (columns : list ColumnData) : list ColumnData * list ColumnData :=
  match columns with
  | [] => ([], [])
  | c :: columns' =>
      if cd_SeriesID c =? seriesID then let '(run, rest) := takeSeries seriesID columns' in (c :: run, rest)
      else ([], columns)
  end.
Fixpoint seriesRuns (fuel : nat) (columns : list ColumnData) : list columnGroup :=
  match fuel, columns with
  | S fuel', c :: columns' =>
      let '(run, rest) := takeSeries (cd_SeriesID c) columns' in
      mkColumnGroup (cd_SeriesID c) (c :: run) :: seriesRuns fuel' rest
  | _, _ => []
  end.
Definition groupColumnRuns (columns : list ColumnData) : list columnGroup :=
  let columns := map orderedColumn (sortColumnsForWrite columns) in
  seriesRuns (length columns) columns.
Fixpoint writeGroups (groups : list columnGroup) (opts : WriteOptions) (rows : list indexRow) (meta : metadata)
    : step partFiles (list indexRow * metadata) :=
  match groups with
  | [] => mret (rows, meta)
  | group :: groups' =>
      row ← writeSeries (cg_seriesID group) (cg_columns group) opts;
      writeGroups groups' opts (rows ++ [row])
        (set_md_Part meta (updateMeta (md_Part meta) row (sortByField (cg_columns group))))
  end.
Definition writeColumns (level : Z) (id : bytes) (now : Z) (columns : list ColumnData) (opts : WriteOptions)
    : step partFiles (list indexRow * metadata) :=
  writeGroups (groupColumnRuns columns) opts [] (newMetadata level id now).
Definition WritePartWithOptions (path : bytes) (level : Z) (id : bytes) (now : Z) (columns : list ColumnData)
    (opts : WriteOptions) : outcome (PartMeta * directory) :=
  if len columns =? 0 then Err (Errorf "columns are empty")
  else
    let '(r, files) := writeColumns level id now columns opts openPartFiles in
    '(rows, meta) ← r;
    finishPart files meta rows path.
End Write.
