(* ===== verification/SstCache.v ===== *)
(** * Read caches of a part (internal/sstable: page_decode_cache.go, block_payload_cache.go)

    The decoded samples of a page, per block and queried interval, and the
    payloads of blocks; both evict the oldest entry first.  A nil cache stands
    for a disabled one.  Every call holds the mutex of the cache, so a call is
    one step. *)
From S2P Require Import Prelude Model.
From stdpp Require Import prelude strings list gmap.
From Stdlib Require Import ZArith Lia.
#[local] Open Scope Z_scope.

(** ** Decoded pages *)
Record pageDecodeKey := mkPageKey { pk_offset : Z; pk_size : Z; pk_start : Z; pk_end : Z }.
#[export] Instance pageDecodeKey_eq_dec : EqDecision pageDecodeKey.
Proof. solve_decision. Defined.
#[export] Instance pageDecodeKey_countable : Countable pageDecodeKey.
Proof.
  by apply (inj_countable' (fun k => (pk_offset k, pk_size k, pk_start k, pk_end k))
    (fun '(a, b, c, d) => mkPageKey a b c d)); intros [].
Defined.

Record pageDecodeCacheConfig := mkPageConfig { pgc_limit : Z; pgc_maxSamples : Z }.
Definition defaultPageDecodeCacheLimit : Z := 256.
Definition defaultPageDecodeCacheMaxSamples : Z := 512.
Definition ConfigurePageDecodeCache (limit maxSamples : Z) : pageDecodeCacheConfig :=
  mkPageConfig (if limit <? 0 then 0 else if limit =? 0 then defaultPageDecodeCacheLimit else limit)
    (if maxSamples <=? 0 then defaultPageDecodeCacheMaxSamples else maxSamples).

Record pageDecodeCache := mkPageCache {
  pc_items : gmap pageDecodeKey (list VersionedSample);
  pc_order : list pageDecodeKey;
  pc_limit : Z;
  pc_maxSamples : Z;
}.
Definition newPageDecodeCache (cfg : pageDecodeCacheConfig) (limit : Z) : option pageDecodeCache :=
  if limit <? 0 then None
  else
    let limit := if limit =? 0 then pgc_limit cfg else limit in
    if limit <=? 0 then None
    else Some (mkPageCache ∅ [] limit
                (if pgc_maxSamples cfg <=? 0 then defaultPageDecodeCacheMaxSamples else pgc_maxSamples cfg)).
Definition newPageCacheIfEnabled (cfg : pageDecodeCacheConfig) (enable : bool) : option pageDecodeCache :=
  if enable then newPageDecodeCache cfg 0 else None.

(** The samples are cloned on the way in and on the way out. *)
Definition page_get (c : option pageDecodeCache) (key : pageDecodeKey) : option (list VersionedSample) :=
  c ← c; pc_items c !! key.
Definition page_put (c : option pageDecodeCache) (key : pageDecodeKey) (samples : list VersionedSample)
    : option pageDecodeCache :=
  match c with
  | None => None
  | Some c =>
      if (len samples =? 0) || (pc_maxSamples c <? len samples) then Some c
      else match pc_items c !! key with
      | Some _ => Some (mkPageCache (<[key := samples]> (pc_items c)) (pc_order c) (pc_limit c) (pc_maxSamples c))
      | None =>
          let '(items, order) :=
            if pc_limit c <=? len (pc_order c) then
              match pc_order c with
              | evict :: order => (delete evict (pc_items c), order)
              | [] => (pc_items c, [])
              end
            else (pc_items c, pc_order c) in
          Some (mkPageCache (<[key := samples]> items) (order ++ [key]) (pc_limit c) (pc_maxSamples c))
      end
  end.

(** ** Block payloads *)
Record blockPayloadKey := mkBlockKey { bk_name : bytes; bk_offset : Z; bk_size : Z }.
#[export] Instance blockPayloadKey_eq_dec : EqDecision blockPayloadKey.
Proof. solve_decision. Defined.
#[export] Instance blockPayloadKey_countable : Countable blockPayloadKey.
Proof.
  by apply (inj_countable' (fun k => (bk_name k, bk_offset k, bk_size k)) (fun '(a, b, c) => mkBlockKey a b c)); intros [].
Defined.

Record blockPayloadCacheConfig := mkBlockConfig { bkc_limit : Z; bkc_maxBytes : Z }.
Definition defaultBlockPayloadCacheLimit : Z := 512.
Definition defaultBlockPayloadCacheMaxBytes : Z := Z.shiftl 64 20.
Definition maxCachedBlockPayloadBytes : Z := Z.shiftl 1 20.
Definition ConfigureBlockPayloadCache (limit maxBytes : Z) : blockPayloadCacheConfig :=
  mkBlockConfig (if limit <? 0 then 0 else if limit =? 0 then defaultBlockPayloadCacheLimit else limit)
    (if maxBytes <=? 0 then defaultBlockPayloadCacheMaxBytes else maxBytes).

Record blockPayloadCache := mkBlockCache {
  bc_items : gmap blockPayloadKey bytes;
  bc_order : list blockPayloadKey;
  bc_limit : Z;
  bc_maxBytes : Z;
  bc_totalBytes : Z;
}.
Definition newBlockPayloadCacheIfEnabled (cfg : blockPayloadCacheConfig) (enable : bool) : option blockPayloadCache :=
  if negb enable then None
  else if bkc_limit cfg <=? 0 then None
  else Some (mkBlockCache ∅ [] (bkc_limit cfg) (bkc_maxBytes cfg) 0).

Definition block_get (c : option blockPayloadCache) (key : blockPayloadKey) : option bytes :=
  c ← c; bc_items c !! key.
(** [for (len(c.order) >= c.limit || c.maxBytes > 0 && c.totalBytes+size > c.maxBytes) && len(c.order) > 0] *)
Fixpoint evictLoop (limit maxBytes size : Z) (order : list blockPayloadKey) (items : gmap blockPayloadKey bytes)
    (totalBytes : Z) : list blockPayloadKey * gmap blockPayloadKey bytes * Z :=
  match order with
  | [] => ([], items, totalBytes)
  | evict :: order' =>
      if (limit <=? len order) || ((0 <? maxBytes) && (maxBytes <? totalBytes + size)) then
        match items !! evict with
        | Some old => evictLoop limit maxBytes size order' (delete evict items) (totalBytes - len old)
        | None => evictLoop limit maxBytes size order' items totalBytes
        end
      else (order, items, totalBytes)
  end.
Definition block_put (c : option blockPayloadCache) (key : blockPayloadKey) (payload : bytes)
    : option blockPayloadCache :=
  match c with
  | None => None
  | Some c =>
      if (len payload =? 0) || (maxCachedBlockPayloadBytes <? len payload) then Some c
      else
        let size := len payload in
        match bc_items c !! key with
        | Some old =>
            Some (mkBlockCache (<[key := payload]> (bc_items c)) (bc_order c) (bc_limit c) (bc_maxBytes c)
                    (bc_totalBytes c + (size - len old)))
        | None =>
            let '(order, items, totalBytes) :=
              evictLoop (bc_limit c) (bc_maxBytes c) size (bc_order c) (bc_items c) (bc_totalBytes c) in
            Some (mkBlockCache (<[key := payload]> items) (order ++ [key]) (bc_limit c) (bc_maxBytes c) (totalBytes + size))
        end
  end.
Definition block_clear (c : option blockPayloadCache) : option blockPayloadCache :=
  c ← c; Some (mkBlockCache ∅ [] (bc_limit c) (bc_maxBytes c) 0).

(** ** What the caches hold *)
Lemma page_put_get c key samples key' got : page_get (page_put c key samples) key' = Some got ->
  (key' = key /\ got = samples) \/ page_get c key' = Some got.
Proof.
  destruct c as [c|]; [|done]. unfold page_put. destruct (_ || _); [by right|].
  assert (forall items order, page_get (Some (mkPageCache (<[key := samples]> items) order (pc_limit c) (pc_maxSamples c))) key'
    = Some got -> (key' = key /\ got = samples) \/ items !! key' = Some got) as Hi.
  { intros items order. unfold page_get. simpl. rewrite lookup_insert. case_decide; [intros [= <-]; by left|by right]. }
  destruct (pc_items c !! key) eqn:Ek; [apply Hi|].
  destruct (pc_limit c <=? len (pc_order c)); [destruct (pc_order c) as [|evict order]|];
    intros [?|Hg]%Hi; (by left) || right; try done.
  rewrite lookup_delete_Some in Hg. by destruct Hg.
Qed.

Lemma evictLoop_sub limit maxBytes size order : forall items totalBytes key payload,
  (evictLoop limit maxBytes size order items totalBytes).1.2 !! key = Some payload -> items !! key = Some payload.
Proof.
  induction order as [|evict order IH]; intros items totalBytes key payload; [done|]. simpl.
  destruct (_ || _); [|done]. destruct (items !! evict); intros Hg%IH; [|done].
  rewrite lookup_delete_Some in Hg. by destruct Hg.
Qed.
Lemma block_put_get c key payload key' got : block_get (block_put c key payload) key' = Some got ->
  (key' = key /\ got = payload) \/ block_get c key' = Some got.
Proof.
  destruct c as [c|]; [|done]. unfold block_put. destruct (_ || _); [by right|].
  destruct (bc_items c !! key) eqn:Ek.
  - unfold block_get. simpl. rewrite lookup_insert. case_decide; [intros [= <-]; by left|by right].
  - pose proof (evictLoop_sub (bc_limit c) (bc_maxBytes c) (len payload) (bc_order c) (bc_items c) (bc_totalBytes c) key' got) as Hs.
    destruct (evictLoop _ _ _ _ _ _) as [[order items] total]. simpl in Hs. unfold block_get. simpl.
    rewrite lookup_insert. case_decide; [intros [= <-]; by left|]. intros Hg. right. by apply Hs.
Qed.

(** ** The size of the caches stays bounded *)
Record page_inv (c : pageDecodeCache) : Prop := {
  pv_dom : dom (pc_items c) = list_to_set (pc_order c);
  pv_nodup : NoDup (pc_order c);
  pv_limit : 0 < pc_limit c;
  pv_bound : len (pc_order c) <= pc_limit c;
  pv_samples key samples : pc_items c !! key = Some samples -> len samples <= pc_maxSamples c;
}.
Lemma newPageDecodeCache_inv cfg limit c : newPageDecodeCache cfg limit = Some c -> page_inv c.
Proof.
  unfold newPageDecodeCache. zcase (limit <? 0); [done|].
  set (l := if limit =? 0 then _ else limit). zcase (l <=? 0); [done|]. intros [= <-].
  split; simpl; [by rewrite dom_empty_L|constructor|lia|unfold len; simpl; lia|]. intros key samples. by rewrite lookup_empty.
Qed.
Lemma page_put_inv c key samples c' : page_inv c -> page_put (Some c) key samples = Some c' -> page_inv c'.
Proof.
  intros [Hd Hn Hl Hb Hs]. unfold page_put. destruct (_ || _) eqn:Eg; [by intros [= <-]|].
  apply orb_false_iff in Eg as [_ Hm%Z.ltb_ge].
  assert (forall (items : gmap pageDecodeKey (list VersionedSample)) k x, (forall k y, items !! k = Some y -> len y <= pc_maxSamples c) ->
    <[key := samples]> items !! k = Some x -> len x <= pc_maxSamples c) as Hins.
  { intros items k x Hi. rewrite lookup_insert. case_decide; [intros [= <-]; lia|apply Hi]. }
  destruct (pc_items c !! key) eqn:Ek.
  { intros [= <-]. split; simpl; [|done..|intros k x; by apply Hins]. rewrite dom_insert_L, <- Hd.
    assert (key ∈ dom (pc_items c)) by (by apply elem_of_dom_2 in Ek). set_solver. }
  assert (key ∉ pc_order c) as Hk.
  { intros Hin. apply not_elem_of_dom in Ek. rewrite Hd in Ek. set_solver. }
  zcase (pc_limit c <=? len (pc_order c)).
  - destruct (pc_order c) as [|evict order] eqn:Eo; [unfold len in *; simpl in *; lia|]. intros [= <-].
    apply NoDup_cons in Hn as [Hne Hn]. split; simpl.
    + rewrite dom_insert_L, dom_delete_L, Hd, list_to_set_app_L. set_solver.
    + apply NoDup_app. split_and!; [done| |apply NoDup_singleton]. set_solver.
    + done.
    + rewrite len_snoc. unfold len in *. simpl in *. lia.
    + intros k x. apply Hins. intros k' y [_ Hy]%lookup_delete_Some. by eapply Hs.
  - intros [= <-]. split; simpl.
    + rewrite dom_insert_L, Hd, list_to_set_app_L. set_solver.
    + apply NoDup_app. split_and!; [done| |apply NoDup_singleton]. set_solver.
    + done.
    + rewrite len_snoc. lia.
    + intros k x. by apply Hins.
Qed.

(** Total size of the payloads. *)
Definition bytes_held (items : gmap blockPayloadKey bytes) : Z := map_fold (fun _ p n => len p + n) 0 items.
Lemma bytes_held_insert items k p : items !! k = None -> bytes_held (<[k := p]> items) = len p + bytes_held items.
Proof. intros Hk. unfold bytes_held. rewrite map_fold_insert_L; [done| |done]. intros. lia. Qed.
Lemma bytes_held_delete items k p : items !! k = Some p -> bytes_held items = len p + bytes_held (delete k items).
Proof.
  intros Hk. rewrite <- (insert_delete_id items k p Hk) at 1. rewrite bytes_held_insert; [done|]. by rewrite lookup_delete_eq.
Qed.

Record block_inv (c : blockPayloadCache) : Prop := {
  bv_dom : dom (bc_items c) = list_to_set (bc_order c);
  bv_nodup : NoDup (bc_order c);
  bv_limit : 0 < bc_limit c;
  bv_count : len (bc_order c) <= bc_limit c;
  bv_total : bc_totalBytes c = bytes_held (bc_items c);
  bv_size key payload : bc_items c !! key = Some payload -> len payload <= maxCachedBlockPayloadBytes;
}.
Lemma evictLoop_inv limit maxBytes size order : forall items totalBytes order' items' totalBytes',
  dom items = list_to_set order -> NoDup order -> totalBytes = bytes_held items ->
  len order <= limit -> 0 < limit ->
  evictLoop limit maxBytes size order items totalBytes = (order', items', totalBytes') ->
  dom items' = list_to_set order' /\ NoDup order' /\ totalBytes' = bytes_held items' /\ len order' < limit /\
  (order' = [] \/ maxBytes <= 0 \/ totalBytes' + size <= maxBytes) /\ (forall k, k ∈ order' -> k ∈ order).
Proof.
  induction order as [|evict order IH]; intros items totalBytes order' items' totalBytes' Hd Hn Ht Hl H0; simpl.
  { intros [= <- <- <-]. split_and!; try done. by left. }
  destruct (_ || _) eqn:Eg.
  - assert (is_Some (items !! evict)) as [old Ho] by (apply elem_of_dom; rewrite Hd; set_solver). rewrite Ho.
    apply NoDup_cons in Hn as [Hne Hn]. intros E.
    destruct (IH (delete evict items) (totalBytes - len old) order' items' totalBytes') as (?&?&?&?&?&Hsub); try done.
    + rewrite dom_delete_L, Hd. set_solver.
    + rewrite Ht, (bytes_held_delete items evict old Ho). lia.
    + unfold len in *. simpl in *. lia.
    + split_and!; try done. intros k Hk. right. by apply Hsub.
  - intros [= <- <- <-]. apply orb_false_iff in Eg as [Hc%Z.leb_gt Hm]. split_and!; try done.
    right. apply andb_false_iff in Hm as [Hm%Z.ltb_ge|Hm%Z.ltb_ge]; [by left|by right].
Qed.
Lemma block_put_inv c key payload c' : block_inv c -> block_put (Some c) key payload = Some c' -> block_inv c'.
Proof.
  intros [Hd Hn Hl Hc Ht Hs]. unfold block_put. destruct (_ || _) eqn:Eg; [by intros [= <-]|].
  apply orb_false_iff in Eg as [_ Hm%Z.ltb_ge]. destruct (bc_items c !! key) as [old|] eqn:Ek.
  { intros [= <-]. split; simpl; [|done..| |].
    - rewrite dom_insert_L, <- Hd. assert (key ∈ dom (bc_items c)) by (by apply elem_of_dom_2 in Ek). set_solver.
    - rewrite Ht, (bytes_held_delete _ _ _ Ek), <- insert_delete_eq, bytes_held_insert; [lia|]. by rewrite lookup_delete_eq.
    - intros k x. rewrite lookup_insert. case_decide; [intros [= <-]; lia|apply Hs]. }
  destruct (evictLoop _ _ _ _ _ _) as [[order items] total] eqn:Ev. intros [= <-].
  destruct (evictLoop_inv _ _ _ _ _ _ _ _ _ Hd Hn Ht Hc Hl Ev) as (Hd' & Hn' & Ht' & Hl' & _ & Hsub).
  assert (key ∉ order) as Hk.
  { intros Hin%Hsub. apply not_elem_of_dom in Ek. rewrite Hd in Ek. set_solver. }
  assert (items !! key = None) as Hnone by (apply not_elem_of_dom; rewrite Hd'; set_solver).
  split; simpl.
  - rewrite dom_insert_L, Hd', list_to_set_app_L. set_solver.
  - apply NoDup_app. split_and!; [done| |apply NoDup_singleton]. set_solver.
  - done.
  - rewrite len_snoc. lia.
  - rewrite bytes_held_insert by done. lia.
  - intros k x. rewrite lookup_insert. case_decide; [intros [= <-]; lia|]. intros Hx. apply (Hs k).
    pose proof (evictLoop_sub (bc_limit c) (bc_maxBytes c) (len payload) (bc_order c) (bc_items c) (bc_totalBytes c) k x) as Hx'.
    rewrite Ev in Hx'. by apply Hx'.
Qed.

(** ** Any use of the block cache *)
Inductive block_op :=
  | BlockPut (key : blockPayloadKey) (payload : bytes)
  | BlockClear.
Definition block_run (c : option blockPayloadCache) (op : block_op) : option blockPayloadCache :=
  match op with
  | BlockPut key payload => block_put c key payload
  | BlockClear => block_clear c
  end.
(** The payload the operations put last under a key since the last clearing. *)
Definition last_put (key : blockPayloadKey) (known : option bytes) (op : block_op) : option bytes :=
  match op with
  | BlockPut key' payload => if decide (key' = key) then Some payload else known
  | BlockClear => None
  end.
Lemma block_clear_inv c c' : block_inv c -> block_clear (Some c) = Some c' -> block_inv c'.
Proof.
  intros [_ _ Hl _ _ _] [= <-]. split; simpl; [by rewrite dom_empty_L|constructor|done|unfold len; simpl; lia|done|].
  intros key payload. by rewrite lookup_empty.
Qed.
Lemma block_run_some c op : exists c', block_run (Some c) op = Some c'.
Proof.
  destruct op as [key payload|]; simpl; [|by eexists]. unfold block_put. destruct (_ || _); [by eexists|].
  destruct (bc_items c !! key); [by eexists|]. destruct (evictLoop _ _ _ _ _ _) as [[? ?] ?]. by eexists.
Qed.
Lemma block_run_inv c op c' : block_inv c -> block_run (Some c) op = Some c' -> block_inv c'.
Proof. destruct op; [apply block_put_inv|apply block_clear_inv]. Qed.
Lemma block_put_same c key payload got : len payload <= maxCachedBlockPayloadBytes -> payload <> [] ->
  block_get (block_put (Some c) key payload) key = Some got -> got = payload.
Proof.
  intros Hl Hne. unfold block_put. destruct (_ || _) eqn:Eg.
  { apply orb_true_iff in Eg as [E|E]; [|apply Z.ltb_lt in E; lia]. apply Z.eqb_eq in E. destruct payload; [done|]. unfold len in E. simpl in E. lia. }
  destruct (bc_items c !! key).
  - unfold block_get. simpl. rewrite lookup_insert, decide_True by done. by intros [= <-].
  - destruct (evictLoop _ _ _ _ _ _) as [[? ?] ?]. unfold block_get. simpl. rewrite lookup_insert, decide_True by done. by intros [= <-].
Qed.
Definition cacheable_op (op : block_op) : Prop :=
  match op with BlockPut _ payload => payload <> [] /\ len payload <= maxCachedBlockPayloadBytes | BlockClear => True end.
Lemma block_run_known c op key known : cacheable_op op ->
  (forall got, block_get (Some c) key = Some got -> known = Some got) ->
  forall got, block_get (block_run (Some c) op) key = Some got -> last_put key known op = Some got.
Proof.
  intros Hop Hk got. destruct op as [key' payload|]; cbn [block_run last_put].
  - destruct Hop as [Hne Hl]. case_decide as E.
    + subst key'. intros Hg. by rewrite (block_put_same c key payload got Hl Hne Hg).
    + intros [[? _]|Hg]%block_put_get; [congruence|by apply Hk].
  - unfold block_get. simpl. by rewrite lookup_empty.
Qed.
Lemma block_runs ops : forall c, block_inv c -> Forall cacheable_op ops ->
  forall known : blockPayloadKey -> option bytes, (forall key got, block_get (Some c) key = Some got -> known key = Some got) ->
  exists c', foldl block_run (Some c) ops = Some c' /\ block_inv c' /\
    forall key got, block_get (Some c') key = Some got -> foldl (last_put key) (known key) ops = Some got.
Proof.
  induction ops as [|op ops IH]; intros c Hc Hops known Hk; [by exists c|]. apply Forall_cons in Hops as [Hop Hops].
  destruct (block_run_some c op) as [c1 E1]. destruct (IH c1 (block_run_inv _ _ _ Hc E1) Hops (fun key => last_put key (known key) op)) as (c' & E' & Hc' & Hg).
  { intros key got. rewrite <- E1. apply block_run_known; [done|]. intros g. apply Hk. }
  exists c'. cbn [foldl]. rewrite E1. by split_and!.
Qed.

Definition ex_key (n : Z) : blockPayloadKey := mkBlockKey [] n 8.
