(* ===== verification/SstRead.v ===== *)
(** * Opening and querying a part (internal/sstable: read.go, read_index.go, read_page_match.go)

    A part keeps its metadata, its meta index and its series index in memory
    and reads blocks of the packed (or, for old parts, separate) component
    files on demand, through the caches of [SstCache].  A read is a step on
    the caches.  The statistics counters and the context are left out. *)
From S2P Require Import Prelude GoBinary Model Codec Readers SstTime Float64 SstValues SstSamples SstPage Runtime MemCompact EngineMerge SstMeta SstPlain SstPack SstCache.
From stdpp Require Import prelude strings list gmap.
From Stdlib Require Import ZArith Lia.
#[local] Open Scope Z_scope.

Record partReadFiles := mkReadFiles {
  rf_pack : option bytes;
  rf_sections : gmap bytes packSection;
  rf_index : sectionReader;
  rf_timestamps : sectionReader;
  rf_values : sectionReader;
}.
(** [pt_dir] is what the file system holds under the part's path. *)
Record Part := mkPart {
  pt_dir : directory;
  pt_metadata : metadata;
  pt_metaRows : list metaIndexRow;
  pt_seriesRows : list seriesIndexRow;
  pt_files : option partReadFiles;
  pt_componentSizes : gmap bytes Z;
}.
Record partCaches := mkCaches { pageCache : option pageDecodeCache; blockCache : option blockPayloadCache }.
Definition Meta (p : Part) : PartMeta := md_Part (pt_metadata p).

(** ** Which parts, rows and pages a query can match *)
Definition partSeriesMatches (meta : PartMeta) (filter : gset Z) : bool :=
  if bool_decide (filter = ∅) then true
  else existsb (fun seriesID => (pm_MinSeriesID meta <=? seriesID) && (seriesID <=? pm_MaxSeriesID meta)) (elements filter).
Definition partFieldsMatch (rows : list metaIndexRow) (filter : gset Z) : bool :=
  if bool_decide (filter = ∅) || (len rows =? 0) then true
  else existsb (fun row => existsb (fun fieldID => bool_decide (fieldID ∈ filter)) (mi_FieldIDs row)) rows.
Definition partMatches (meta : PartMeta) (rows : list metaIndexRow) (query : StorageQuery) : bool :=
  if (pm_MaxTime meta <? sq_Start query) || (sq_End query <? pm_MinTime meta) then false
  else if negb (partSeriesMatches meta (sq_SeriesIDs query)) then false
  else partFieldsMatch rows (sq_FieldIDs query).
Definition rowMatches (row : indexRow) (query : StorageQuery) : bool :=
  if negb (containsSeries (sq_SeriesIDs query) (ir_SeriesID row)) then false
  else (sq_Start query <=? ir_MaxTime row) && (ir_MinTime row <=? sq_End query).
Definition rowHeaderMatches (header : indexRowHeader) (query : StorageQuery) : bool :=
  if negb (containsSeries (sq_SeriesIDs query) (ih_seriesID header)) then false
  else (sq_Start query <=? ih_maxTime header) && (ih_minTime header <=? sq_End query).
Definition seriesIndexRowMatches (row : seriesIndexRow) (query : StorageQuery) : bool :=
  if (si_MaxTime row <? sq_Start query) || (sq_End query <? si_MinTime row) then false
  else if bool_decide (sq_FieldIDs query = ∅) then true
  else existsb (fun fieldID => bool_decide (fieldID ∈ sq_FieldIDs query)) (si_FieldIDs row).

(** [x <= y] on float64: false when either is a NaN. *)
Definition f_leb (x y : Z) : bool := f_ltb x y || f_eqb x y.
Definition queryPredicateFloatValue (predicate : QueryPredicate) : Z :=
  if fv_Type (qp_Value predicate) =? FieldFloat64 then fv_Float64 (qp_Value predicate)
  else f_of_int (fv_Int64 (qp_Value predicate)).
Definition queryPredicateIntValue (predicate : QueryPredicate) : Z :=
  if fv_Type (qp_Value predicate) =? FieldInt64 then fv_Int64 (qp_Value predicate)
  else int_of_f (fv_Float64 (qp_Value predicate)).
Definition floatPageMayMatchPredicate (minValue maxValue : Z) (predicate : QueryPredicate) : bool :=
  let value := queryPredicateFloatValue predicate in
  let kind := qp_Kind predicate in
  if kind =? QueryPredicateFieldEq then f_leb minValue value && f_leb value maxValue
  else if kind =? QueryPredicateFieldNe then negb (f_eqb minValue maxValue) || negb (f_eqb value minValue)
  else if kind =? QueryPredicateFieldGT then f_ltb value maxValue
  else if kind =? QueryPredicateFieldGTE then f_leb value maxValue
  else if kind =? QueryPredicateFieldLT then f_ltb minValue value
  else if kind =? QueryPredicateFieldLTE then f_leb minValue value
  else true.
Definition intPageMayMatchPredicate (minValue maxValue : Z) (predicate : QueryPredicate) : bool :=
  let value := queryPredicateIntValue predicate in
  let kind := qp_Kind predicate in
  if kind =? QueryPredicateFieldEq then (minValue <=? value) && (value <=? maxValue)
  else if kind =? QueryPredicateFieldNe then negb (minValue =? maxValue) || negb (value =? minValue)
  else if kind =? QueryPredicateFieldGT then value <? maxValue
  else if kind =? QueryPredicateFieldGTE then value <=? maxValue
  else if kind =? QueryPredicateFieldLT then minValue <? value
  else if kind =? QueryPredicateFieldLTE then minValue <=? value
  else true.
Definition numericPageMayMatchPredicate (stats : valuePageStats) (fieldType : Z) (predicate : QueryPredicate) : bool :=
  if fieldType =? FieldFloat64 then floatPageMayMatchPredicate (ps_MinFloat64 stats) (ps_MaxFloat64 stats) predicate
  else if fieldType =? FieldInt64 then intPageMayMatchPredicate (ps_MinInt64 stats) (ps_MaxInt64 stats) predicate
  else true.
Definition valuePageMatchesQuery (page : valuePageRef) (fieldID fieldType : Z) (query : StorageQuery) : bool :=
  if (pr_MaxTime page <? sq_Start query) || (sq_End query <? pr_MinTime page) then false
  else
    let predicates := default [] (sq_FieldPredicates query !! fieldID) in
    if (len predicates =? 0) || negb (ps_HasNumeric (pr_Stats page)) then true
    else forallb (numericPageMayMatchPredicate (pr_Stats page) fieldType) predicates.

(** The pages of the index when all of them match, and how many match. *)
Definition coverage (pages : list valuePageRef) (fieldID fieldType : Z) (query : StorageQuery)
    : list valuePageRef * bool * Z :=
  let matching := filter (fun page => valuePageMatchesQuery page fieldID fieldType query) pages in
  let fullRange := (0 <? len pages) && forallb (fun page => valuePageMatchesQuery page fieldID fieldType query) pages in
  (if fullRange then pages else [], fullRange, len matching).
Definition readValuePageRefs : reader (valuePageIndexHeader * list valuePageRef) :=
  header ← readValuePageIndexHeader;
  _ ← rmake 72 (ph_pageCount header);
  pages ← read_n (Z.to_nat (ph_pageCount header)) (readValuePageRef (ph_fieldType header));
  _ ← BlockReader.done "value page index";
  mret (header, pages).
Definition scanValuePageIndexCoverage (payload : bytes) (query : StorageQuery)
    : outcome (valuePageIndexHeader * list valuePageRef * bool * Z) :=
  '((header, pages), _) ← readValuePageRefs payload;
  let '(fullPages, fullRange, matches) := coverage pages (ph_fieldID header) (ph_fieldType header) query in
  Ok (header, fullPages, fullRange, matches).
Definition matchingValuePageRefs (payload : bytes) (query : StorageQuery) : outcome (list valuePageRef) :=
  '((header, pages), _) ← readValuePageRefs payload;
  Ok (filter (fun page => valuePageMatchesQuery page (ph_fieldID header) (ph_fieldType header) query) pages).
Definition matchingBoundaryPageRefs (payload : bytes) (fullPages : list valuePageRef) (fullRange : bool)
    (query : StorageQuery) : outcome (list valuePageRef) :=
  if fullRange then Ok fullPages else matchingValuePageRefs payload query.
Definition boundaryModeEnabled (mode : Z) : bool :=
  (mode =? QueryBoundaryFirst) || (mode =? QueryBoundaryLast) || (mode =? QueryBoundaryBoth).
Definition firstAndLastPageRefs (pages : list valuePageRef) : list valuePageRef :=
  if len pages =? 1 then take 1 pages else take 1 pages ++ drop (length pages - 1) pages.
Definition selectBoundaryPageRefs (pages : list valuePageRef) (mode : Z) : list valuePageRef :=
  if len pages =? 0 then []
  else if mode =? QueryBoundaryFirst then take 1 pages
  else if mode =? QueryBoundaryLast then drop (length pages - 1) pages
  else if mode =? QueryBoundaryBoth then firstAndLastPageRefs pages
  else pages.
Definition matchingValuePageCapacity (header : valuePageIndexHeader) (matches : Z) : Z :=
  if (ph_pageCount header =? 0) || (ph_count header =? 0) || (matches =? 0) then 0
  else
    let pageAverage := Z.quot (i64 (ph_count header + ph_pageCount header - 1)) (ph_pageCount header) in
    let capacity := i64 (matches * pageAverage) in
    if ph_count header <? capacity then ph_count header else capacity.

(** ** Blocks of the component files *)
Section Read.
Context `{lib : PayloadLib} `{GoRuntime} `{FramePool}.

Definition readLogicalComponentBlock (dir : directory) (files : option partReadFiles) (name : bytes) (ref : blockRef)
    : outcome bytes :=
  let packed (pack : bytes) (sections : gmap bytes packSection) :=
    match sections !! name with
    | None => Err (Errorf "pack section missing")
    | Some section => readBlockFrom (section_ReadAt (sectionOf pack section)) ref
    end in
  match files with
  | Some (mkReadFiles (Some pack) sections _ _ _) => packed pack sections
  | _ =>
      match dir !! packFile with
      | Some _ => '(pack, sections) ← openPartPack dir; packed pack sections
      | None =>
          match dir !! name with
          | Some file => readBlock file ref
          | None => Err (Errorf "open block file")
          end
      end
  end.
Definition componentBlock (files : partReadFiles) (name : bytes) (ref : blockRef) : outcome bytes :=
  if bool_decide (name = indexFile) then readBlockPayloadFrom (section_ReadAt (rf_index files)) ref
  else if bool_decide (name = timestampsFile) then readBlockPayloadFrom (section_ReadAt (rf_timestamps files)) ref
  else if bool_decide (name = valuesFile) then readBlockPayloadFrom (section_ReadAt (rf_values files)) ref
  else Err (Errorf "unsupported part block file").
Definition readBlockPayload (p : Part) (name : bytes) (ref : blockRef) : step partCaches bytes :=
  let cacheable := bool_decide (name = timestampsFile) || bool_decide (name = valuesFile) in
  let key := mkBlockKey name (br_Offset ref) (br_Size ref) in
  caches ← get_step;
  match (if cacheable then block_get (blockCache caches) key else None) with
  | Some data => mret data
  | None =>
      data ← pure_step match pt_files p with
                       | None => readLogicalComponentBlock (pt_dir p) None name ref
                       | Some files => componentBlock files name ref
                       end;
      _ ← (if cacheable
           then put_step (mkCaches (pageCache caches) (block_put (blockCache caches) key data))
           else mret tt);
      mret data
  end.

Definition readTimeBlock (p : Part) (ref : blockRef) : step partCaches (list Z) :=
  payload ← readBlockPayload p timestampsFile ref;
  wrap_step "decode time block" (pure_step (unmarshalTimeBlock payload)).

(** ** Pages *)
Definition timeRange (query : StorageQuery) : Query := mkQuery (sq_Start query) (sq_End query).
Definition pageKey (ref : blockRef) (query : StorageQuery) : pageDecodeKey :=
  mkPageKey (br_Offset ref) (br_Size ref) (sq_Start query) (sq_End query).
Definition putPage (key : pageDecodeKey) (samples : list VersionedSample) : step partCaches unit :=
  caches ← get_step; put_step (mkCaches (page_put (pageCache caches) key samples) (blockCache caches)).
(** A hit fills in the samples only. *)
Definition readValuePage (p : Part) (ref : blockRef) (rowTimestamps : list Z) (query : StorageQuery)
    : step partCaches (list VersionedSample) :=
  caches ← get_step;
  match page_get (pageCache caches) (pageKey ref query) with
  | Some samples => mret samples
  | None =>
      payload ← readBlockPayload p valuesFile ref;
      block ← wrap_step "decode value page"
        (pure_step (unmarshalValueBlockWithTimestamps payload rowTimestamps (timeRange query)));
      _ ← putPage (pageKey ref query) (vb_Samples block);
      mret (vb_Samples block)
  end.
Definition orderSamples (samples : list VersionedSample) : list VersionedSample :=
  if negb (samplesSorted samples) then sortSamples samples else samples.
Definition columnWith (seriesID : Z) (header : valuePageIndexHeader) (samples : list VersionedSample) : ColumnData :=
  mkColumnData seriesID (ph_fieldID header) (ph_fieldType header) samples.
Definition readValuePagesFromRefs (p : Part) (pages : list valuePageRef) (rowTimestamps : list Z) (query : StorageQuery)
    : step partCaches (list VersionedSample) :=
  blocks ← step_list (fun page => readValuePage p (pr_Ref page) rowTimestamps query) pages;
  mret (orderSamples (concat blocks)).
(** The loop over the index that decodes matching pages as it goes. *)
Fixpoint readMatchingPages (p : Part) (n : nat) (header : valuePageIndexHeader) (rowTimestamps : list Z)
    (query : StorageQuery) (rest : bytes) : step partCaches (list VersionedSample * bytes) :=
  match n with
  | O => mret ([], rest)
  | S n' =>
      '(page, rest) ← pure_step (readValuePageRef (ph_fieldType header) rest);
      if negb (valuePageMatchesQuery page (ph_fieldID header) (ph_fieldType header) query)
      then readMatchingPages p n' header rowTimestamps query rest
      else
        samples ← readValuePage p (pr_Ref page) rowTimestamps query;
        '(more, rest) ← readMatchingPages p n' header rowTimestamps query rest;
        mret (samples ++ more, rest)
  end.
(** [readValuePagesFromIndexPayload] once the index has been scanned. *)
Definition readScannedPages (p : Part) (seriesID : Z) (payload : bytes) (rowTimestamps : list Z) (query : StorageQuery)
    (header : valuePageIndexHeader) (fullPages : list valuePageRef) (fullRange : bool) (matches : Z)
    : step partCaches ColumnData :=
  let capacity := if fullRange then ph_count header else matchingValuePageCapacity header matches in
  _ ← pure_step (make_slice sampleSize capacity);
  if matches =? 0 then mret (columnWith seriesID header [])
  else if boundaryModeEnabled (sq_Boundary query) then
    pages ← pure_step (matchingBoundaryPageRefs payload fullPages fullRange query);
    let selected := selectBoundaryPageRefs pages (sq_Boundary query) in
    _ ← pure_step (make_slice sampleSize (matchingValuePageCapacity header (len selected)));
    samples ← readValuePagesFromRefs p selected rowTimestamps query;
    mret (columnWith seriesID header samples)
  else if fullRange then
    samples ← readValuePagesFromRefs p fullPages rowTimestamps query;
    mret (columnWith seriesID header samples)
  else
    '(_, rest) ← pure_step (readValuePageIndexHeader payload);
    '(samples, rest) ← readMatchingPages p (Z.to_nat (ph_pageCount header)) header rowTimestamps query rest;
    _ ← pure_step (BlockReader.done "value page index" rest);
    mret (columnWith seriesID header (orderSamples samples)).
Definition readValuePagesFromIndexPayload (p : Part) (seriesID : Z) (payload : bytes) (rowTimestamps : list Z)
    (query : StorageQuery) : step partCaches ColumnData :=
  '(header, fullPages, fullRange, matches) ← pure_step (scanValuePageIndexCoverage payload query);
  readScannedPages p seriesID payload rowTimestamps query header fullPages fullRange matches.

(** ** Columns of a row; the row's timestamps are read when first needed *)
Definition ensureRowTimestamps (p : Part) (timeRef : blockRef) (rowTimestamps : option (list Z))
    : step partCaches (list Z) :=
  match rowTimestamps with Some timestamps => mret timestamps | None => readTimeBlock p timeRef end.
Definition columnFromBlock (seriesID : Z) (block : valueBlock) : ColumnData :=
  mkColumnData seriesID (vb_FieldID block) (vb_FieldType block) (orderSamples (vb_Samples block)).
Definition emptyBlockWith (samples : list VersionedSample) : valueBlock := mkValueBlock "" 0 0 samples.
Definition readValueColumnLazyTime (p : Part) (seriesID : Z) (ref : columnRef) (timeRef : blockRef)
    (rowTimestamps : option (list Z)) (query : StorageQuery) : step partCaches (ColumnData * option (list Z)) :=
  data ← readBlockPayload p valuesFile (cr_ValueRef ref);
  let encoding := head data in
  if bool_decide (encoding = Some valueEncodingPageIndex) then
    timestamps ← ensureRowTimestamps p timeRef rowTimestamps;
    column ← wrap_step "decode value page index" (readValuePagesFromIndexPayload p seriesID data timestamps query);
    mret (column, Some timestamps)
  else if bool_decide (encoding = Some valueEncodingPageCompressed) then
    caches ← get_step;
    match page_get (pageCache caches) (pageKey (cr_ValueRef ref) query) with
    | Some samples => mret (columnFromBlock seriesID (emptyBlockWith samples), rowTimestamps)
    | None =>
        block ← wrap_step "decode value block" (pure_step (unmarshalCompressedValueBlock data (timeRange query)));
        _ ← putPage (pageKey (cr_ValueRef ref) query) (vb_Samples block);
        mret (columnFromBlock seriesID block, rowTimestamps)
    end
  else
    timestamps ← ensureRowTimestamps p timeRef rowTimestamps;
    block ← wrap_step "decode value block"
      (pure_step (unmarshalValueBlockWithTimestamps data timestamps (timeRange query)));
    mret (columnFromBlock seriesID block, Some timestamps).
Fixpoint queryColumns (p : Part) (seriesID : Z) (timeRef : blockRef) (refs : list columnRef)
    (rowTimestamps : option (list Z)) (query : StorageQuery) : step partCaches (list ColumnData) :=
  match refs with
  | [] => mret []
  | ref :: refs' =>
      if negb (containsField (sq_FieldIDs query) (cr_FieldID ref))
      then queryColumns p seriesID timeRef refs' rowTimestamps query
      else
        '(column, rowTimestamps) ← readValueColumnLazyTime p seriesID ref timeRef rowTimestamps query;
        columns ← queryColumns p seriesID timeRef refs' rowTimestamps query;
        mret (if 0 <? len (cd_Samples column) then column :: columns else columns)
  end.
Definition queryRow (p : Part) (row : indexRow) (query : StorageQuery) : step partCaches (list ColumnData) :=
  queryColumns p (ir_SeriesID row) (ir_TimeRef row) (ir_Columns row) None query.
(** [Query{FieldIDs: ..., Start: ..., End: ...}]: the predicates and the
    boundary mode are dropped on the way through the index stream. *)
Definition streamQuery (query : StorageQuery) : StorageQuery :=
  rangeQuery ∅ (sq_FieldIDs query) (sq_Start query) (sq_End query).

(** ** Index rows *)
Definition readIndexRowBlock (p : Part) (ref : blockRef) : step partCaches indexRow :=
  payload ← readBlockPayload p indexFile ref;
  rows ← wrap_step "decode part index row" (pure_step (decodeIndexRows payload));
  match rows with
  | [row] => mret row
  | _ => fail_step (Errorf "decode part index row: want 1 row")
  end.
Definition openIndexRowStream (p : Part) : step partCaches indexRowStream :=
  payload ← readBlockPayload p indexFile (md_IndexRef (pt_metadata p));
  wrap_step "decode part index" (pure_step (newIndexRowStream payload)).
Definition loadIndexRows (p : Part) : step partCaches (list indexRow) :=
  payload ← readBlockPayload p indexFile (md_IndexRef (pt_metadata p));
  wrap_step "decode part index" (pure_step (decodeIndexRows payload)).

(** [sort.Search] for [id] in [n] ascending ids. *)
Definition searchID (n : Z) (at_ : Z -> outcome Z) (id : Z) : outcome (option Z) :=
  index ← sort_Search n (fun index => v ← at_ index; Ok (id <=? v));
  if n <=? index then Ok None
  else v ← at_ index; Ok (if v =? id then Some index else None).
Definition containsSortedSeriesID (ids : list Z) (id : Z) : outcome bool :=
  found ← searchID (len ids) (idx ids) id; Ok (bool_decide (is_Some found)).
Definition containsSortedSeriesIDOrAll (ids : list Z) (id : Z) : outcome bool :=
  if len ids =? 0 then Ok true else containsSortedSeriesID ids id.

Fixpoint matchingSeriesRows (rows : list seriesIndexRow) (query : StorageQuery) (seriesIDs : list Z)
    : outcome (list seriesIndexRow) :=
  match seriesIDs with
  | [] => Ok []
  | seriesID :: seriesIDs' =>
      found ← searchID (len rows) (fun index => row ← idx rows index; Ok (si_SeriesID row)) seriesID;
      here ← (match found with
              | None => Ok []
              | Some index => row ← idx rows index; Ok (if seriesIndexRowMatches row query then [row] else [])
              end);
      more ← matchingSeriesRows rows query seriesIDs';
      Ok (here ++ more)
  end.
Definition matchingSeriesIndexRows (p : Part) (query : StorageQuery) (seriesIDs : list Z)
    : outcome (list seriesIndexRow) :=
  if (len seriesIDs =? 0) || (len (pt_seriesRows p) =? 0) then Ok []
  else matchingSeriesRows (pt_seriesRows p) query seriesIDs.
Definition sortColumns (columns : list ColumnData) : list ColumnData := sort_Slice columnDataLess columns.
Definition querySeriesRow (p : Part) (query : StorageQuery) (row : seriesIndexRow) : step partCaches (list ColumnData) :=
  indexRow ← readIndexRowBlock p (si_IndexRef row);
  if negb (rowMatches indexRow query) then mret [] else queryRow p indexRow query.
Definition querySeriesIndexRows (p : Part) (query : StorageQuery) (seriesIDs : list Z) : step partCaches (list ColumnData) :=
  rows ← pure_step (matchingSeriesIndexRows p query seriesIDs);
  if len rows =? 0 then mret []
  else columns ← step_list (querySeriesRow p query) rows; mret (sortColumns (concat columns)).

Definition queryIndexRowFromStream (p : Part) (stream : indexRowStream) (header : indexRowHeader) (query : StorageQuery)
    : step partCaches (list ColumnData * indexRowStream) :=
  '(refs, stream) ← wrap_step "decode part index" (pure_step (appendFilteredColumnRefs stream (sq_FieldIDs query)));
  if len refs =? 0 then mret ([], stream)
  else columns ← queryRow p (header_row header refs) (streamQuery query); mret (columns, stream).
(** A round per row, and one to see the end. *)
Fixpoint queryIndexRowStream (fuel : nat) (p : Part) (stream : indexRowStream) (query : StorageQuery) (seriesIDs : list Z)
    : step partCaches (list ColumnData) :=
  match fuel with
  | O => fail_step (Errorf "fuel exhausted")
  | S fuel' =>
      '(header, stream) ← wrap_step "decode part index" (pure_step (nextHeader stream));
      match header with
      | None => _ ← wrap_step "decode part index" (pure_step (stream_done stream)); mret []
      | Some header =>
          wanted ← pure_step (if rowHeaderMatches header query
                              then containsSortedSeriesIDOrAll seriesIDs (ih_seriesID header) else Ok false);
          if negb wanted then
            stream ← wrap_step "decode part index" (pure_step (stream_skipColumnRefs stream));
            queryIndexRowStream fuel' p stream query seriesIDs
          else
            '(got, stream) ← queryIndexRowFromStream p stream header query;
            columns ← queryIndexRowStream fuel' p stream query seriesIDs;
            mret (got ++ columns)
      end
  end.
Definition rowsFuel (stream : indexRowStream) : nat := S (Z.to_nat (rs_remaining stream)).
Definition queryIndexRows (p : Part) (query : StorageQuery) (seriesIDs : list Z) : step partCaches (list ColumnData) :=
  stream ← openIndexRowStream p;
  columns ← queryIndexRowStream (rowsFuel stream) p stream query seriesIDs;
  mret (sortColumns columns).

Fixpoint collectSeriesIDsFromStream (fuel : nat) (stream : indexRowStream) (query : StorageQuery) : outcome (list Z) :=
  match fuel with
  | O => Err (Errorf "fuel exhausted")
  | S fuel' =>
      '(header, stream) ← wrapErr "decode part index" (nextHeader stream);
      match header with
      | None => _ ← wrapErr "decode part index" (stream_done stream); Ok []
      | Some header =>
          stream ← wrapErr "decode part index" (stream_skipColumnRefs stream);
          ids ← collectSeriesIDsFromStream fuel' stream query;
          Ok (if rowHeaderMatches header query then ih_seriesID header :: ids else ids)
      end
  end.
Definition SeriesIDs (p : Part) (query : StorageQuery) : step partCaches (list Z) :=
  if sq_End query <? sq_Start query then mret []
  else if negb (partMatches (Meta p) (pt_metaRows p) query) then mret []
  else
    stream ← openIndexRowStream p;
    pure_step (collectSeriesIDsFromStream (rowsFuel stream) stream query).

(** The keys of the series filter in the order of [range], sorted. *)
Definition sortedQuerySeriesIDs (seriesSet : gset Z) : list Z := sort_Slice Z.ltb (elements seriesSet).
Definition PartQuery (p : Part) (query : StorageQuery) : step partCaches (list ColumnData) :=
  if sq_End query <? sq_Start query then mret []
  else if negb (partMatches (Meta p) (pt_metaRows p) query) then mret []
  else if negb (bool_decide (sq_SeriesIDs query = ∅))
  then querySeriesIndexRows p query (sortedQuerySeriesIDs (sq_SeriesIDs query))
  else queryIndexRows p query [].
Definition QuerySeriesIDs (p : Part) (query : StorageQuery) (seriesIDs : list Z) : step partCaches (list ColumnData) :=
  if (sq_End query <? sq_Start query) || (len seriesIDs =? 0) then mret []
  else if negb (partMatches (Meta p) (pt_metaRows p) query) then mret []
  else querySeriesIndexRows p query seriesIDs.
End Read.

(** * Opening a part and validating it (internal/sstable: read.go, validate.go)

    Opening loads the metadata and the two small indexes and checks every
    reference against the sizes of the components; the deep validation also
    reads and decodes the blocks behind them. *)
(** ** Component files *)
Definition openPartReadFilesFromPack (dir : directory) : outcome partReadFiles :=
  '(pack, sections) ← openPartPack dir;
  index ← packSectionFile pack sections indexFile;
  timestamps ← packSectionFile pack sections timestampsFile;
  values ← packSectionFile pack sections valuesFile;
  Ok (mkReadFiles (Some pack) sections index timestamps values).
Definition openComponent (dir : directory) (name : bytes) (msg : string) : outcome bytes :=
  match dir !! name with Some file => Ok file | None => Err (Errorf msg) end.
Definition openPartReadFilesLegacy (dir : directory) : outcome partReadFiles :=
  index ← openComponent dir indexFile "open part index";
  timestamps ← openComponent dir timestampsFile "open part timestamps";
  values ← openComponent dir valuesFile "open part values";
  let section (name file : bytes) := mkPackSection name 0 (len file) in
  Ok (mkReadFiles None
        (<[indexFile := section indexFile index]> (<[timestampsFile := section timestampsFile timestamps]>
           {[ valuesFile := section valuesFile values ]}))
        (mkSectionReader index 0 (len index)) (mkSectionReader timestamps 0 (len timestamps))
        (mkSectionReader values 0 (len values))).
Definition openPartReadFiles (dir : directory) : outcome partReadFiles :=
  match dir !! packFile with
  | Some _ => openPartReadFilesFromPack dir
  | None => openPartReadFilesLegacy dir
  end.

Definition logicalComponentSize (files : partReadFiles) (name : bytes) : option Z :=
  match rf_sections files !! name with
  | Some section => Some (sc_Size section)
  | None =>
      if bool_decide (name = indexFile) then Some (sr_size (rf_index files))
      else if bool_decide (name = timestampsFile) then Some (sr_size (rf_timestamps files))
      else if bool_decide (name = valuesFile) then Some (sr_size (rf_values files))
      else None
  end.
(** [storagefs.Stat]; the entries of a part directory are files. *)
Definition statSize (dir : directory) (name : bytes) : outcome Z :=
  match dir !! name with Some file => Ok (len file) | None => Err (Errorf "stat component") end.
Definition ensurePartComponentPresent (dir : directory) (name : bytes) (files : partReadFiles) : outcome unit :=
  if bool_decide (name = metadataFile) then _ ← statSize dir metadataFile; Ok tt
  else match logicalComponentSize files name with
  | Some size => if size <? 0 then Err (Errorf "component is directory") else Ok tt
  | None => _ ← statSize dir name; Ok tt
  end.
Definition partComponentSize (dir : directory) (name : bytes) (files : partReadFiles) : outcome Z :=
  if bool_decide (name = metadataFile) then statSize dir metadataFile
  else match logicalComponentSize files name with
  | Some size => Ok size
  | None => statSize dir name
  end.
Definition knownComponentSize (dir : directory) (meta : metadata) (files : partReadFiles) (verifyMissing : bool)
    (name : bytes) : outcome Z :=
  if bool_decide (name = metadataFile) then Ok (default 0 (md_ComponentSizes meta !! name))
  else match md_ComponentSizes meta !! name with
  | Some size =>
      _ ← (if verifyMissing then wrapErr "validate part component" (ensurePartComponentPresent dir name files) else Ok tt);
      Ok size
  | None => wrapErr "validate part component" (partComponentSize dir name files)
  end.
Fixpoint collectSizes (sizeOf : bytes -> outcome Z) (names : list bytes) (sizes : gmap bytes Z) : outcome (gmap bytes Z) :=
  match names with
  | [] => Ok sizes
  | name :: names' => size ← sizeOf name; collectSizes sizeOf names' (<[name := size]> sizes)
  end.
Definition loadPartComponentSizes (dir : directory) (meta : metadata) (files : partReadFiles) (verifyMissing : bool)
    : outcome (gmap bytes Z) :=
  let names := metadataComponents (md_Components meta) in
  if negb (bool_decide (md_ComponentSizes meta = ∅))
  then collectSizes (knownComponentSize dir meta files verifyMissing) names ∅
  else collectSizes (fun name => wrapErr "validate part component" (partComponentSize dir name files)) names ∅.

(** ** Validation *)
Definition validatePartComponents (components : list bytes) (sizes : gmap bytes Z) : outcome unit :=
  if forallb (fun name => bool_decide (is_Some (sizes !! name))) (metadataComponents components)
  then Ok tt else Err (Errorf "validate part component: missing cached size").
Definition validateBlockRefWithinSize (size : Z) (ref : blockRef) : outcome unit :=
  if (br_Offset ref <? 0) || (br_Size ref <? 0) then Err (Errorf "block ref contains negative values")
  else if br_Size ref =? 0 then Err (Errorf "block ref size is zero")
  else if (size <? br_Offset ref) || (size - br_Offset ref <? br_Size ref) then Err (Errorf "block ref exceeds file size")
  else Ok tt.
Definition validatePartBlockRef (part : Part) (name : bytes) (ref : blockRef) : outcome unit :=
  match pt_componentSizes part !! name with
  | None => Err (Errorf "component size is not cached")
  | Some size => validateBlockRefWithinSize size ref
  end.
Definition validateMetadataRefs (part : Part) (meta : metadata) : outcome unit :=
  _ ← wrapErr "validate metadata ref" (validatePartBlockRef part indexFile (md_IndexRef meta));
  _ ← wrapErr "validate metadata ref" (validatePartBlockRef part metaindexFile (md_MetaIndexRef meta));
  wrapErr "validate metadata ref" (validatePartBlockRef part seriesIndexFile (md_SeriesIndexRef meta)).
Definition validateSeriesIndexRef (part : Part) (row : seriesIndexRow) : outcome unit :=
  wrapErr "validate series index ref" (validatePartBlockRef part indexFile (si_IndexRef row)).
Fixpoint validateSeriesIndexRefBounds (part : Part) (rows : list seriesIndexRow) : outcome unit :=
  match rows with
  | [] => Ok tt
  | row :: rows' => _ ← validateSeriesIndexRef part row; validateSeriesIndexRefBounds part rows'
  end.

Section Open.
Context `{lib : PayloadLib} `{GoRuntime} `{FramePool}.

(** A loop whose body only checks. *)
Fixpoint check_each {A} (check : A -> step partCaches unit) (l : list A) : step partCaches unit :=
  match l with [] => mret tt | a :: l' => _ ← check a; check_each check l' end.

Definition validateSeriesIndexRefs (part : Part) : list seriesIndexRow -> step partCaches unit :=
  check_each (fun row =>
    _ ← pure_step (validateSeriesIndexRef part row);
    _ ← wrap_step "validate series index block" (readIndexRowBlock part (si_IndexRef row));
    mret tt).
Definition validateTimeRef (part : Part) (row : indexRow) : step partCaches unit :=
  _ ← wrap_step "validate time ref" (pure_step (validatePartBlockRef part timestampsFile (ir_TimeRef row)));
  payload ← wrap_step "validate time block" (readBlockPayload part timestampsFile (ir_TimeRef row));
  _ ← wrap_step "validate time block" (pure_step (unmarshalTimeBlock payload));
  mret tt.
Definition validateValuePages (part : Part) : list valuePageRef -> step partCaches unit :=
  check_each (fun page =>
    _ ← wrap_step "validate value page ref" (pure_step (validatePartBlockRef part valuesFile (pr_Ref page)));
    _ ← wrap_step "validate value page" (readBlockPayload part valuesFile (pr_Ref page));
    mret tt).
Definition validateValueIndex (part : Part) (column : columnRef) : step partCaches unit :=
  payload ← wrap_step "validate value index" (readBlockPayload part valuesFile (cr_ValueRef column));
  index ← wrap_step "validate value index" (pure_step (unmarshalValuePageIndex payload));
  validateValuePages part (pi_Pages index).
Definition validateColumnRefs (part : Part) (row : indexRow) : step partCaches unit :=
  check_each (fun column =>
    _ ← wrap_step "validate value index ref" (pure_step (validatePartBlockRef part valuesFile (cr_ValueRef column)));
    validateValueIndex part column) (ir_Columns row).
Definition validateIndexRows (part : Part) : list indexRow -> step partCaches unit :=
  check_each (fun row => _ ← validateTimeRef part row; validateColumnRefs part row).
Definition validateOpenedPart (part : Part) (validateDeep : bool) : step partCaches unit :=
  _ ← pure_step (validatePartComponents (md_Components (pt_metadata part)) (pt_componentSizes part));
  _ ← pure_step (validateMetadataRefs part (pt_metadata part));
  if negb validateDeep then pure_step (validateSeriesIndexRefBounds part (pt_seriesRows part))
  else
    rows ← wrap_step "validate part index" (loadIndexRows part);
    _ ← validateSeriesIndexRefs part (pt_seriesRows part);
    validateIndexRows part rows.

(** ** Opening *)
Definition loadPartMetadata (dir : directory) : outcome metadata :=
  match dir !! metadataFile with
  | None => Err (Errorf "read part metadata")
  | Some data => wrapErr "decode part metadata" (decodeMetadata data)
  end.
Definition loadPartMetaIndex (dir : directory) (files : partReadFiles) (ref : blockRef) : outcome (list metaIndexRow) :=
  payload ← readLogicalComponentBlock dir (Some files) metaindexFile ref;
  wrapErr "decode part metaindex" (decodeMetaIndexRows payload).
Definition loadPartSeriesIndex (dir : directory) (files : partReadFiles) (ref : blockRef) : outcome (list seriesIndexRow) :=
  payload ← readLogicalComponentBlock dir (Some files) seriesIndexFile ref;
  wrapErr "decode part series index" (decodeSeriesIndexRows payload).
Definition openPart (pageConfig : pageDecodeCacheConfig) (blockConfig : blockPayloadCacheConfig) (dir : directory)
    (validateDeep enablePageCache : bool) : outcome (Part * partCaches) :=
  meta ← loadPartMetadata dir;
  files ← openPartReadFiles dir;
  metaRows ← loadPartMetaIndex dir files (md_MetaIndexRef meta);
  seriesRows ← loadPartSeriesIndex dir files (md_SeriesIndexRef meta);
  componentSizes ← loadPartComponentSizes dir meta files validateDeep;
  let part := mkPart dir meta metaRows seriesRows (Some files) componentSizes in
  let caches := mkCaches (newPageCacheIfEnabled pageConfig enablePageCache)
                  (newBlockPayloadCacheIfEnabled blockConfig enablePageCache) in
  match validateOpenedPart part validateDeep caches with
  | (Ok _, caches) => Ok (part, mkCaches (pageCache caches) (block_clear (blockCache caches)))
  | (Err e, _) => Err e
  | (Panic p, _) => Panic p
  end.
Definition OpenPart (pageConfig : pageDecodeCacheConfig) (blockConfig : blockPayloadCacheConfig) (dir : directory) :=
  openPart pageConfig blockConfig dir true true.
Definition OpenPartTrusted (pageConfig : pageDecodeCacheConfig) (blockConfig : blockPayloadCacheConfig) (dir : directory) :=
  openPart pageConfig blockConfig dir false false.
(** [Part.Close] *)
Definition closePart (p : Part) : Part :=
  mkPart (pt_dir p) (pt_metadata p) (pt_metaRows p) (pt_seriesRows p) None (pt_componentSizes p).
End Open.
