(* ===== verification/SstScan.v ===== *)
(** * Streams over a part (internal/sstable: scan.go, series_reader.go)

    The column stream of a scan, which loads one index row at a time, and the
    reader that compaction batches series with. *)
From S2P Require Import Prelude GoBinary Model Codec Readers SstTime SstValues SstPage Runtime MemCompact EngineMerge Tombstones QueryMerge SstMeta SstPlain SstPack SstCache SstRead.
From stdpp Require Import prelude strings list gmap.
From Stdlib Require Import ZArith Lia.
#[local] Open Scope Z_scope.

(** ** The scan *)
(** [st_rows] is nil when the scan goes through the series index. *)
Record partColumnDataStream := mkPartStream {
  st_part : Part;
  st_query : StorageQuery;
  st_rows : option indexRowStream;
  st_seriesIDs : list Z;
  st_pending : list ColumnData;
  st_current : ColumnData;
  st_err : option goerr;
  st_pendingAt : nat;
  st_seriesAt : nat;
  st_rowAt : nat;
  st_closed : bool;
}.
Definition set_rows (s : partColumnDataStream) (rows : indexRowStream) : partColumnDataStream :=
  mkPartStream (st_part s) (st_query s) (Some rows) (st_seriesIDs s) (st_pending s) (st_current s) (st_err s)
    (st_pendingAt s) (st_seriesAt s) (st_rowAt s) (st_closed s).
Definition set_err (s : partColumnDataStream) (err : option goerr) : partColumnDataStream :=
  mkPartStream (st_part s) (st_query s) (st_rows s) (st_seriesIDs s) (st_pending s) (st_current s) err
    (st_pendingAt s) (st_seriesAt s) (st_rowAt s) (st_closed s).
Definition set_pending (s : partColumnDataStream) (pending : list ColumnData) : partColumnDataStream :=
  mkPartStream (st_part s) (st_query s) (st_rows s) (st_seriesIDs s) pending (st_current s) (st_err s)
    0 (st_seriesAt s) (st_rowAt s) (st_closed s).
Definition set_cursor (s : partColumnDataStream) (seriesAt rowAt : nat) : partColumnDataStream :=
  mkPartStream (st_part s) (st_query s) (st_rows s) (st_seriesIDs s) (st_pending s) (st_current s) (st_err s)
    (st_pendingAt s) seriesAt rowAt (st_closed s).
(** [Close]: the pending columns are dropped. *)
Definition closeStream (s : partColumnDataStream) : partColumnDataStream :=
  if st_closed s then s
  else mkPartStream (st_part s) (st_query s) (st_rows s) (st_seriesIDs s) [] (st_current s) (st_err s)
    (st_pendingAt s) (st_seriesAt s) (st_rowAt s) true.

Section Scan.
Context `{lib : PayloadLib} `{GoRuntime} `{FramePool}.

(** [None] is the empty slice stream. *)
Definition newPartColumnDataStream (part : Part) (query : StorageQuery)
    : step partCaches (option partColumnDataStream) :=
  if (sq_End query <? sq_Start query) || negb (partMatches (Meta part) (pt_metaRows part) query) then mret None
  else if negb (bool_decide (sq_SeriesIDs query = ∅)) then
    let seriesIDs := sortedQuerySeriesIDs (sq_SeriesIDs query) in
    if (len seriesIDs =? 0) || (len (pt_seriesRows part) =? 0) then mret None
    else mret (Some (mkPartStream part query None seriesIDs [] zeroColumnData None 0 0 0 false))
  else
    rows ← openIndexRowStream part;
    mret (Some (mkPartStream part query (Some rows) [] [] zeroColumnData None 0 0 0 false)).

Definition nextPending (s : partColumnDataStream) : option partColumnDataStream :=
  column ← st_pending s !! st_pendingAt s;
  Some (mkPartStream (st_part s) (st_query s) (st_rows s) (st_seriesIDs s) (st_pending s) column (st_err s)
          (S (st_pendingAt s)) (st_seriesAt s) (st_rowAt s) (st_closed s)).

(** [for rowAt < len(seriesRows) && seriesRows[rowAt].SeriesID < seriesID { rowAt++ }] *)
Fixpoint skipRows (fuel : nat) (rows : list seriesIndexRow) (seriesID : Z) (rowAt : nat) : nat :=
  match fuel with
  | O => rowAt
  | S fuel' =>
      match rows !! rowAt with
      | Some row => if si_SeriesID row <? seriesID then skipRows fuel' rows seriesID (S rowAt) else rowAt
      | None => rowAt
      end
  end.
Fixpoint nextSeriesIndexRow (fuel : nat) (s : partColumnDataStream) : option seriesIndexRow * partColumnDataStream :=
  match fuel with
  | O => (None, s)
  | S fuel' =>
      match st_seriesIDs s !! st_seriesAt s with
      | None => (None, s)
      | Some seriesID =>
          let rows := pt_seriesRows (st_part s) in
          let rowAt := skipRows (length rows) rows seriesID (st_rowAt s) in
          let s := set_cursor s (S (st_seriesAt s)) rowAt in
          match rows !! rowAt with
          | None => (None, s)
          | Some row =>
              if negb (si_SeriesID row =? seriesID) || negb (seriesIndexRowMatches row (st_query s))
              then nextSeriesIndexRow fuel' s else (Some row, s)
          end
      end
  end.
(** The loops stop by themselves: one round per queried series. *)
Fixpoint loadNextSeriesRow (fuel : nat) (s : partColumnDataStream) : step partCaches (bool * partColumnDataStream) :=
  match fuel with
  | O => mret (false, s)
  | S fuel' =>
      match nextSeriesIndexRow (S (length (st_seriesIDs s))) s with
      | (None, s) => mret (false, s)
      | (Some row, s) =>
          row ← try_step (readIndexRowBlock (st_part s) (si_IndexRef row));
          match row with
          | inl e => mret (false, set_err s (Some e))
          | inr indexRow =>
              if negb (rowMatches indexRow (st_query s)) then loadNextSeriesRow fuel' s
              else
                columns ← try_step (queryRow (st_part s) indexRow (st_query s));
                match columns with
                | inl e => mret (false, set_err s (Some e))
                | inr columns =>
                    let s := set_pending s columns in
                    if 0 <? len columns then mret (true, s) else loadNextSeriesRow fuel' s
                end
          end
      end
  end.

Definition finishRows (s : partColumnDataStream) (rows : indexRowStream) : partColumnDataStream :=
  let s := match wrapErr "decode part index" (stream_done rows) with Err e => set_err s (Some e) | _ => s end in
  closeStream s.
Definition loadRowColumns (s : partColumnDataStream) (rows : indexRowStream) (header : indexRowHeader)
    : step partCaches (bool * partColumnDataStream) :=
  if negb (rowHeaderMatches header (st_query s)) then
    skipped ← try_step (wrap_step "decode part index" (pure_step (stream_skipColumnRefs rows)));
    match skipped with
    | inl e => mret (false, set_err s (Some e))
    | inr rows => mret (false, set_rows s rows)
    end
  else
    got ← try_step (wrap_step "decode part index" (pure_step (appendFilteredColumnRefs rows (sq_FieldIDs (st_query s)))));
    match got with
    | inl e => mret (false, set_err s (Some e))
    | inr (refs, rows) =>
        let s := set_rows s rows in
        if len refs =? 0 then mret (false, s)
        else
          columns ← try_step (queryRow (st_part s) (header_row header refs) (streamQuery (st_query s)));
          match columns with
          | inl e => mret (false, set_err s (Some e))
          | inr columns => mret (0 <? len columns, set_pending s columns)
          end
    end.
(** One round per row of the index, and one to see its end. *)
Fixpoint loadNextIndexRow (fuel : nat) (s : partColumnDataStream) (rows : indexRowStream)
    : step partCaches (bool * partColumnDataStream) :=
  match fuel with
  | O => mret (false, s)
  | S fuel' =>
      next ← try_step (wrap_step "decode part index" (pure_step (nextHeader rows)));
      match next with
      | inl e => mret (false, set_err s (Some e))
      | inr (None, rows) => mret (false, finishRows (set_rows s rows) rows)
      | inr (Some header, rows) =>
          '(loaded, s) ← loadRowColumns (set_rows s rows) rows header;
          if loaded : bool then mret (true, s)
          else match st_err s, st_rows s with
          | None, Some rows => loadNextIndexRow fuel' s rows
          | _, _ => mret (false, s)
          end
      end
  end.
Definition loadNextRow (s : partColumnDataStream) : step partCaches (bool * partColumnDataStream) :=
  if 0 <? len (st_seriesIDs s) then loadNextSeriesRow (S (length (st_seriesIDs s))) s
  else match st_rows s with
  | Some rows => loadNextIndexRow (rowsFuel rows) s rows
  | None => pure_step (Panic IndexOutOfRange)
  end.
(** [Next]: a row that has been loaded has a pending column, so the second
    round returns. *)
Definition NextColumn (s : partColumnDataStream) : step partCaches (bool * partColumnDataStream) :=
  if st_closed s || bool_decide (is_Some (st_err s)) then mret (false, s)
  else match nextPending s with
  | Some s => mret (true, s)
  | None =>
      '(loaded, s) ← loadNextRow s;
      if negb loaded then mret (false, s)
      else match nextPending s with
      | Some s => mret (true, s)
      | None => mret (false, s)
      end
  end.
(** Drains a stream: its columns and its error. *)
Fixpoint drain (fuel : nat) (s : partColumnDataStream) : step partCaches ColumnStream :=
  match fuel with
  | O => mret (mkStream [] (st_err s))
  | S fuel' =>
      '(more, s) ← NextColumn s;
      if more : bool then
        rest ← drain fuel' s;
        mret (mkStream (st_current s :: cs_items rest) (cs_err rest))
      else mret (mkStream [] (st_err s))
  end.
End Scan.

(** ** Batches of series for compaction *)
Record SeriesBatchReader := mkBatchReader {
  sb_part : Part;
  sb_query : StorageQuery;
  sb_rows : list indexRow;
  sb_ids : list Z;
}.
Section Batch.
Context `{lib : PayloadLib} `{GoRuntime} `{FramePool}.

Fixpoint batchIDs (query : StorageQuery) (previous : option Z) (rows : list indexRow) : list Z :=
  match rows with
  | [] => []
  | row :: rows' =>
      if negb (rowMatches row query) || bool_decide (previous = Some (ir_SeriesID row))
      then batchIDs query previous rows'
      else ir_SeriesID row :: batchIDs query (Some (ir_SeriesID row)) rows'
  end.
Definition NewSeriesBatchReader (part : Part) (query : StorageQuery) : step partCaches SeriesBatchReader :=
  if (sq_End query <? sq_Start query) || negb (partMatches (Meta part) (pt_metaRows part) query)
  then mret (mkBatchReader part query [] [])
  else
    rows ← loadIndexRows part;
    mret (mkBatchReader part query rows (batchIDs query None rows)).
Definition SeriesCount (r : SeriesBatchReader) : Z := len (sb_ids r).
Definition AppendSeriesIDs (r : SeriesBatchReader) (dst : list Z) : list Z := dst ++ sb_ids r.
Fixpoint queryBatch (r : SeriesBatchReader) (wanted : Z -> outcome bool) (rows : list indexRow)
    : step partCaches (list ColumnData) :=
  match rows with
  | [] => mret []
  | row :: rows' =>
      take_ ← pure_step (if rowMatches row (sb_query r) then wanted (ir_SeriesID row) else Ok false);
      if negb take_ then queryBatch r wanted rows'
      else
        got ← queryRow (sb_part r) row (streamQuery (sb_query r));
        columns ← queryBatch r wanted rows';
        mret (got ++ columns)
  end.
(** [SeriesBatchReader.QuerySeriesIDs] *)
Definition batch_QuerySeriesIDs (r : SeriesBatchReader) (seriesIDs : list Z) : step partCaches (list ColumnData) :=
  if (len seriesIDs =? 0) || (len (sb_rows r) =? 0) then mret []
  else columns ← queryBatch r (containsSortedSeriesID seriesIDs) (sb_rows r); mret (sortColumns columns).
(** The rows of one series: those before it are skipped, those after it end the loop. *)
Fixpoint queryOneSeries (r : SeriesBatchReader) (seriesID : Z) (rows : list indexRow) : step partCaches (list ColumnData) :=
  match rows with
  | [] => mret []
  | row :: rows' =>
      if ir_SeriesID row <? seriesID then queryOneSeries r seriesID rows'
      else if seriesID <? ir_SeriesID row then mret []
      else if negb (rowMatches row (sb_query r)) then queryOneSeries r seriesID rows'
      else
        got ← queryRow (sb_part r) row (streamQuery (sb_query r));
        columns ← queryOneSeries r seriesID rows';
        mret (got ++ columns)
  end.
Definition QuerySeriesID (r : SeriesBatchReader) (seriesID : Z) : step partCaches (list ColumnData) :=
  if len (sb_rows r) =? 0 then mret []
  else columns ← queryOneSeries r seriesID (sb_rows r); mret (sortColumns columns).
End Batch.
