(* ===== verification/SstLayout.v ===== *)
(** * The timestamps of a row

    Three routines collect them: a copy when the columns are aligned, a merge
    when they are ordered, a set otherwise.  For ordered columns without
    duplicates the result is the increasing list of all their timestamps.  Then
    the layout: where the writer puts pages, indexes and rows. *)
From S2P Require Import Prelude GoBinary Model Codec Readers SstTime SstTimeProofs SstValues SstValuesProofs SstSamples SstPage SstPageProofs Runtime Versions StoreSpec EngineMerge SstMeta SstPlain SstPack.
From stdpp Require Import prelude strings list sorting gmap.
From Stdlib Require Import ZArith Lia.
#[local] Open Scope Z_scope.

Definition strict_column (c : ColumnData) : Prop := StronglySorted ts_lt (cd_Samples c).
Lemma strict_ordered c : strict_column c -> ordered_column c.
Proof. unfold strict_column, ordered_column. induction 1 as [|s l Hs IH HF]; constructor; [done|]. eapply Forall_impl; [exact HF|]. unfold ts_lt, ts_le. intros. lia. Qed.

Lemma times_sorted l : StronglySorted ts_lt l -> StronglySorted Z.lt (map vs_Timestamp l).
Proof.
  induction 1 as [|s l Hs IH HF]; simpl; constructor; [done|]. apply Forall_fmap. eapply Forall_impl; [exact HF|]. done.
Qed.

(** ** Aligned columns *)
Lemma sameTimestamps_map samples first : length samples = length first -> sameTimestamps samples first = true ->
  map vs_Timestamp samples = map vs_Timestamp first.
Proof.
  revert first. induction samples as [|s l IH]; intros [|f first] Hl; try done. unfold sameTimestamps. simpl.
  rewrite andb_true_iff, Z.eqb_eq. intros [-> H]. f_equal. apply IH; [simpl in Hl; lia|done].
Qed.
Lemma alignedTimestamps_map c columns ts : alignedTimestamps (c :: columns) = Some ts ->
  forall d, d ∈ c :: columns -> map vs_Timestamp (cd_Samples d) = ts.
Proof.
  unfold alignedTimestamps. destruct (forallb _ _) eqn:E; [|done]. intros [= <-] d [->|Hd]%elem_of_cons; [done|].
  rewrite forallb_forall in E. apply list_elem_of_In in Hd. apply E in Hd.
  apply andb_true_iff in Hd as [Hl%Z.eqb_eq Hs]. apply sameTimestamps_map; [unfold len in *; lia|done].
Qed.

(** ** Merged columns *)
Lemma skipTimestamp_consume fuel samples t : forall p best, skipTimestamp fuel samples p t = (consumeLoop fuel samples p t best).1.
Proof.
  induction fuel as [|fuel IH]; intros p best; simpl; [done|].
  destruct (samples !! p) as [s|]; [|done]. destruct (vs_Timestamp s =? t); [apply IH|done].
Qed.
Lemma skip_consumeAll columns t : forall positions best,
  length positions = length columns ->
  zip_with (fun c p => skipTimestamp (length (cd_Samples c)) (cd_Samples c) p t) columns positions
  = (consumeAll columns positions t best).1.
Proof.
  induction columns as [|c columns IH]; intros [|p positions] best Hl; try done. simpl.
  rewrite (skipTimestamp_consume _ _ _ p best). destruct (consumeLoop _ _ _ _ best) as [p' best'].
  simpl in Hl. rewrite (IH positions best') by lia. by destruct (consumeAll _ _ _ _).
Qed.
Lemma mergeTimestampsLoop_samples columns fuel : Forall ordered_column columns -> forall positions,
  length positions = length columns ->
  mergeTimestampsLoop fuel columns positions = map vs_Timestamp (mergeLoop fuel columns positions).
Proof.
  intros Ho. induction fuel as [|fuel IH]; intros positions Hl; simpl; [done|].
  change (nextTimestamp columns positions) with (nextMinTimestamp columns positions).
  destruct (nextMinTimestamp columns positions) as [t|] eqn:Et; [|done].
  rewrite (skip_consumeAll columns t positions None Hl).
  destruct (merge_round columns positions t Ho Hl Et) as (pres & s & ps & -> & H3 & Hs & Hlen & _). simpl.
  destruct (at_time_cuts t _ _ _ H3) as (E1 & _ & _). rewrite <- E1 in Hs. rewrite (newest_time _ _ _ Hs).
  f_equal. by apply IH.
Qed.
Lemma mergeColumnTimestamps_latest columns : Forall ordered_column columns ->
  mergeColumnTimestamps columns = map vs_Timestamp (latest (concat (cd_Samples <$> columns))).
Proof.
  intros Ho. unfold mergeColumnTimestamps. rewrite mergeTimestampsLoop_samples by (done || by rewrite length_replicate).
  f_equal. apply picks_latest. rewrite <- remaining_start. apply mergeLoop_picks; [done|by rewrite length_replicate|].
  rewrite remaining_start, <- totalSampleCount_concat. done.
Qed.

Lemma columnsSamplesSorted_ordered columns : Forall strict_column columns -> columnsSamplesSorted columns = true.
Proof.
  intros HF. apply forallb_forall. intros c Hc. apply list_elem_of_In in Hc. rewrite Forall_forall in HF.
  specialize (HF c Hc). unfold strict_column in HF. unfold samplesSorted.
  assert (forall l p, StronglySorted ts_lt l -> Forall (fun s => p <= vs_Timestamp s) l -> samplesSortedFrom p l = true) as Hl.
  { clear. induction l as [|s l IH]; intros p Hs Hp; [done|]. simpl. apply Forall_cons in Hp as [Hp _].
    zcase (vs_Timestamp s <? p); [lia|]. apply StronglySorted_inv in Hs as [Hs HF]. apply IH; [done|].
    eapply Forall_impl; [exact HF|]. unfold ts_lt. intros. lia. }
  destruct HF as [|s l Hs HF]; [done|]. apply Hl; [done|]. eapply Forall_impl; [exact HF|]. unfold ts_lt. intros. lia.
Qed.

Definition has_time (columns : list ColumnData) (t : Z) : Prop :=
  exists c s, c ∈ columns /\ s ∈ cd_Samples c /\ vs_Timestamp s = t.

Section collect.
  Context `{GoRuntime}.
Lemma collectTimestamps_exact columns : Forall strict_column columns ->
  StronglySorted Z.lt (collectTimestamps columns) /\ forall t, t ∈ collectTimestamps columns <-> has_time columns t.
Proof.
  intros HF. unfold collectTimestamps. destruct (alignedTimestamps columns) as [ts|] eqn:Ea.
  - destruct columns as [|c columns].
    { injection Ea as <-. split; [constructor|]. intros t. split; [by intros ?%elem_of_nil|by intros (? & ? & ?%elem_of_nil & _)]. }
    pose proof (alignedTimestamps_map _ _ _ Ea) as Hm. pose proof (Hm c ltac:(left)) as Hc. split.
    + rewrite <- Hc. apply times_sorted. by apply Forall_inv in HF.
    + intros t. split.
      * rewrite <- Hc. intros (s & -> & Hs)%list_elem_of_fmap. exists c, s. split; [left|done].
      * intros (d & s & Hd & Hs & <-). rewrite <- (Hm d Hd). apply list_elem_of_fmap. by exists s.
  - rewrite columnsSamplesSorted_ordered by done.
    rewrite mergeColumnTimestamps_latest by (eapply Forall_impl; [exact HF|apply strict_ordered]).
    pose proof (latest_resolves (concat (cd_Samples <$> columns))) as Hr. split; [apply times_sorted, Hr|].
    intros t. split.
    + intros (s & -> & Hs)%list_elem_of_fmap. apply (rs_sound _ _ Hr) in Hs.
      apply elem_of_concat in Hs as (l & Hs & Hl). apply list_elem_of_fmap in Hl as (c & -> & Hc). by exists c, s.
    + intros (c & s & Hc & Hs & <-). destruct (rs_newest _ _ Hr s) as (y & Hy & Hsup).
      { apply elem_of_concat. exists (cd_Samples c). split; [done|]. apply list_elem_of_fmap. by exists c. }
      apply list_elem_of_fmap. exists y. split; [|done]. destruct Hsup. congruence.
Qed.
End collect.

(** ** Columns of a series in field order *)
Definition field_lt (c d : ColumnData) : Prop := cd_FieldID c < cd_FieldID d.
#[export] Instance field_lt_irrefl : Irreflexive field_lt.
Proof. intros c. unfold complement, field_lt. lia. Qed.
#[export] Instance field_lt_trans : Transitive field_lt.
Proof. intros a b c. unfold field_lt. lia. Qed.
Section order.
  Context `{GoRuntimeLaws}.
Lemma sortByField_perm columns : sortByField columns ≡ₚ columns.
Proof. apply sort_less_perm. Qed.
Lemma sortByField_sorted columns : NoDup (cd_FieldID <$> columns) -> StronglySorted field_lt (sortByField columns).
Proof.
  intros Hn.
  assert (weak_order (fun l r => cmp_Compare (cd_FieldID l) (cd_FieldID r) <? 0)) as Hw.
  { eapply weak_order_ext; [|apply (weak_order_key cd_FieldID)]. intros x y. apply cmp_Compare_neg. }
  pose proof (sort_less_sorted _ columns Hw) as Hs. fold (SortFunc (fun l r => cmp_Compare (cd_FieldID l) (cd_FieldID r)) columns) in Hs.
  fold (sortByField columns) in Hs.
  assert (NoDup (cd_FieldID <$> sortByField columns)) as Hn' by by rewrite sortByField_perm.
  induction Hs as [|c l Hs IH HF]; constructor.
  - apply IH. rewrite fmap_cons in Hn'. by apply NoDup_cons in Hn' as [_ ?].
  - rewrite fmap_cons in Hn'. apply NoDup_cons in Hn' as [Hc _]. rewrite Forall_forall in HF |- *. intros d Hd.
    specialize (HF d Hd). unfold not_after in HF. rewrite cmp_Compare_neg in HF. apply Z.ltb_ge in HF. unfold field_lt.
    assert (cd_FieldID d <> cd_FieldID c); [|lia]. intros E. apply Hc. apply list_elem_of_fmap. by exists d.
Qed.
End order.

(** * Where the writer puts the data of a part

    [page_at], [column_at] and [placed_ok] say what the component files hold
    for a page, a column and a row of the part; the lemmas show that writing a
    series establishes them and that later writes keep them. *)
(** ** Timestamps and queries away from the ends of [int64]

    Nanoseconds between 1970 and 2043: the differences the page codecs and the
    window arithmetic form stay in range. *)
Definition sane_time (t : Z) : Prop := 0 <= t < 2 ^ 61.
Definition sane_range (query : Query) : Prop :=
  - 2 ^ 62 <= q_Start query <= 2 ^ 62 /\ - 2 ^ 62 <= q_End query <= 2 ^ 62.

Lemma sane_i64 t : sane_time t -> is_i64 t.
Proof. unfold sane_time, is_i64. lia. Qed.
Lemma sane_dd_small ts : Forall sane_time ts -> forall t0 t1, sane_time t0 -> sane_time t1 ->
  dd_small t1 (i64 (t1 - t0)) ts.
Proof.
  induction 1 as [|t ts Ht Hts IH]; intros t0 t1 H0 H1; [done|]. cbn [dd_small]. split; [|by apply IH].
  unfold sane_time in *. rewrite !i64_id; unfold is_i64; rewrite ?i64_id; unfold is_i64; lia.
Qed.
Lemma sane_dod_ok ts : Forall sane_time ts -> dod_ok ts.
Proof. intros H. destruct H as [|t0 ts H0 [|t1 ts' H1 H]]; [done..|]. by apply sane_dd_small. Qed.
Lemma sane_last step ts : Forall sane_time ts -> forall prev, sane_time prev -> constStepFrom step prev ts = true ->
  sane_time (prev + len ts * step).
Proof.
  induction 1 as [|t ts Ht Hts IH]; intros prev Hp; simpl; [by rewrite Z.add_0_r|].
  rewrite i64_id by (unfold sane_time, is_i64 in *; lia). zcase (t - prev =? step); [|done]. cbn [negb].
  intros Hc. specialize (IH t Ht Hc). replace (prev + len (t :: ts) * step) with (t + len ts * step); [done|].
  unfold len in *. simpl length. lia.
Qed.
Lemma sane_queryable ts query : Forall sane_time ts -> fits (len ts) -> sane_range query -> times_queryable ts query.
Proof.
  intros Hts Hf [Hs He]. unfold times_queryable. destruct ts as [|t0 [|t1 ts]]; [done..|].
  cbn [detectConstStepTimestamps]. destruct (constStepFrom _ t1 ts) eqn:Hc; [|done].
  apply Forall_cons in Hts as [H0 Hts]. pose proof Hts as [H1 _]%Forall_cons.
  assert (i64 (t1 - t0) = t1 - t0) as Es by (apply i64_id; unfold sane_time, is_i64 in *; lia).
  assert (sane_time (t0 + len (t1 :: ts) * (t1 - t0))) as Hl.
  { apply (sane_last (t1 - t0) (t1 :: ts) Hts t0 H0). rewrite Es in Hc. simpl. rewrite Es, Z.eqb_refl. done. }
  rewrite Es. unfold sane_time in *.
  assert (len (t0 :: t1 :: ts) - 1 = len (t1 :: ts)) as El by (unfold len; simpl length; lia).
  split_and!; [|unfold is_i64; lia|unfold window_fits, is_i64; lia].
  unfold series_fits. rewrite El. split_and!; [unfold is_i64; lia..|apply len_nonneg|alloc_lia|unfold is_i64; lia].
Qed.

(** ** What is stored for a sample

    A compressed page that omits write sequence numbers gives back 0; a float
    keeps its value up to the sign of zero and the payload of a NaN. *)
Definition stored_as (s s' : VersionedSample) : Prop :=
  vs_Timestamp s' = vs_Timestamp s /\ (vs_WriteSeq s' = vs_WriteSeq s \/ vs_WriteSeq s' = 0)
  /\ value_same (vs_Value s) (vs_Value s').
Lemma stored_as_refl s : stored_as s s.
Proof. split_and!; [done|by left|reflexivity]. Qed.

Lemma stored_as_all l : Forall2 stored_as l l.
Proof. induction l; constructor; auto using stored_as_refl. Qed.

Record sample_storable (fieldType : Z) (s : VersionedSample) : Prop := {
  ss_value : value_ok (vs_Value s) /\ fv_Type (vs_Value s) = fieldType /\ float_kept (vs_Value s);
  ss_time : sane_time (vs_Timestamp s);
  ss_seq : is_u64 (vs_WriteSeq s);
}.
Record page_storable (opts : CompressionOptions) (page : ColumnData) : Prop := {
  pg_field : is_u32 (cd_FieldID page);
  pg_samples : Forall (sample_storable (cd_FieldType page)) (cd_Samples page);
  pg_some : cd_Samples page <> [];
  pg_fits : fits (len (cd_Samples page));
  pg_payloads : payloads_fit page opts;
}.

Section pages.
Context `{lib : PayloadLib} `{!PayloadLaws lib}.

Definition stores (payload : bytes) (row : list Z) (samples : list VersionedSample) : Prop :=
  forall query, sane_range query -> exists block,
    unmarshalValueBlockWithTimestamps payload row query = Ok block /\ vb_Samples block = filterSamplesByTime samples query.

Lemma buildSamples_stored_as samples seqs values :
  Forall2 (fun s q => q = vs_WriteSeq s \/ q = 0) samples seqs ->
  Forall2 value_same (map vs_Value samples) values ->
  Forall2 stored_as samples (buildSamples (map vs_Timestamp samples) seqs values).
Proof.
  intros Hs. revert values. induction Hs as [|s q samples seqs Hq Hs IH]; intros values Hv.
  { inversion Hv. constructor. }
  inversion Hv as [|? v ? values' Hsv Hvs]; subst. simpl. constructor; [|by apply IH]. by split_and!.
Qed.
Lemma kept_seqs_stored opts samples : Forall2 (fun s q => q = vs_WriteSeq s \/ q = 0) samples (kept_seqs opts samples).
Proof.
  unfold kept_seqs. destruct (co_OmitWriteSeq opts); induction samples as [|s l IH]; simpl; constructor; auto.
Qed.
Lemma storable_samples_ok ft samples : Forall (sample_storable ft) samples -> fits (len samples) -> samples_ok ft samples.
Proof.
  intros HF Hf. split_and!.
  - split; [|unfold len in *; by rewrite length_map]. apply Forall_fmap. eapply Forall_impl; [exact HF|]. by intros s [].
  - apply Forall_fmap. eapply Forall_impl; [exact HF|]. intros s []. by apply sane_i64.
  - apply Forall_fmap. eapply Forall_impl; [exact HF|]. by intros s [].
  - apply sane_dod_ok, Forall_fmap. eapply Forall_impl; [exact HF|]. by intros s [].
Qed.
Lemma storable_plain_ok ft samples : Forall (sample_storable ft) samples -> fits (len samples) -> plain_ok ft samples.
Proof. intros HF Hf. split; [|done]. eapply Forall_impl; [exact HF|]. by intros s [(? & ? & _) _ ?]. Qed.

Lemma unmarshal_compressed payload rest row query : payload = valueEncodingPageCompressed :: rest ->
  unmarshalValueBlockWithTimestamps payload row query = unmarshalCompressedValueBlock payload query.
Proof. by intros ->. Qed.
Lemma marshalCompressed_head page opts budget payload : marshalCompressedValueBlock page opts budget = Ok payload ->
  exists rest, payload = valueEncodingPageCompressed :: rest.
Proof.
  unfold marshalCompressedValueBlock. destruct (encodeSampleTimestamps _ _) as [tc tp].
  destruct (encodeTypedValues _ _ _) as [[vc vp]| |]; [|done|done]. cbn [mbind outcome_bind].
  destruct (appendCodecPayloadWithCompression tc _ _ _ _); [|done|done]. cbn [mbind outcome_bind].
  destruct (appendSampleWriteSeqsPayloadWithCompression _ _ _ _ _); [|done|done]. cbn [mbind outcome_bind].
  destruct (appendCodecPayloadWithCompression vc _ _ _ _); [|done|done]. intros [= <-]. by eexists.
Qed.

Lemma page_stored page row opts budget payload : page_storable opts page -> len row <= maxInt ->
  marshalValuePage page row opts budget = Ok payload -> len payload <= maxAlloc ->
  exists samples, Forall2 stored_as (cd_Samples page) samples /\ stores payload row samples.
Proof.
  intros [Hid HF Hne Hf Hp] Hrow Hm Hl. unfold marshalValuePage in Hm. destruct (negb _).
  - exists (cd_Samples page). split; [apply stored_as_all|].
    intros query _. eexists. split; [by apply plain_page_roundtrip; [| |apply storable_plain_ok| |]|done].
  - destruct (page_stores page opts budget payload Hid) as (values & Hv & Hr); [by apply storable_samples_ok|done..|].
    eexists. split; [apply buildSamples_stored_as; [apply (kept_seqs_stored opts)|exact Hv]|].
    intros query Hq. destruct (marshalCompressed_head _ _ _ _ Hm) as [rest Eh].
    eexists. rewrite (unmarshal_compressed _ _ _ _ Eh). split; [apply Hr|done].
    apply sane_queryable; [|unfold len in *; by rewrite length_map|done].
    apply Forall_fmap. eapply Forall_impl; [exact HF|]. by intros s [].
Qed.
End pages.

(** ** Writing to the values file *)
Definition values_of (files : partFiles) : bytes := bw_file (pf_valueBlocks files).
Definition times_of (files : partFiles) : bytes := bw_file (pf_timeBlocks files).
Definition offset_of (files : partFiles) : Z := bw_offset (pf_valueBlocks files).
Record files_sound (files : partFiles) : Prop := {
  fs_times : writer_ok (pf_timeBlocks files);
  fs_values : writer_ok (pf_valueBlocks files);
}.
(** The files after some writes: what was there is a prefix. *)
Record grown (files files' : partFiles) : Prop := {
  gr_sound : files_sound files';
  gr_values : exists more, values_of files' = values_of files ++ more;
  gr_times : exists more, times_of files' = times_of files ++ more;
  gr_offset : offset_of files <= offset_of files';
}.
Lemma grown_refl files : files_sound files -> grown files files.
Proof. intros H. split; [done|exists []; by rewrite app_nil_r|exists []; by rewrite app_nil_r|done]. Qed.
Lemma grown_trans f1 f2 f3 : grown f1 f2 -> grown f2 f3 -> grown f1 f3.
Proof.
  intros [_ [m1 Ev1] [n1 Et1] Ho1] [Hs [m2 Ev2] [n2 Et2] Ho2]. split; [done|..|lia].
  - exists (m1 ++ m2). by rewrite Ev2, Ev1, (assoc_L (++)).
  - exists (n1 ++ n2). by rewrite Et2, Et1, (assoc_L (++)).
Qed.
Lemma grown_block f1 f2 ref payload : grown f1 f2 -> block_at (values_of f1) ref payload -> block_at (values_of f2) ref payload.
Proof. intros [_ [m ->] _ _]. apply block_at_app. Qed.
Lemma grown_time_block f1 f2 ref payload : grown f1 f2 -> block_at (times_of f1) ref payload -> block_at (times_of f2) ref payload.
Proof. intros [_ _ [m ->] _]. apply block_at_app. Qed.

Lemma bw_write_place w payload ref w' : bw_write w payload = Ok (ref, w') ->
  br_Offset ref = bw_offset w /\ bw_offset w' = bw_offset w + len payload + 8 /\ len payload <= 2 ^ 32 - 1.
Proof.
  unfold bw_write, writeBlockAt. zcase (2 ^ 32 - 1 <? len payload); [done|]. intros [= <- <-]. simpl. split_and!; lia.
Qed.
Lemma writeValues_grown payload files ref files' : files_sound files -> writeValues payload files = (Ok ref, files') ->
  grown files files' /\ block_at (values_of files') ref payload /\ br_Offset ref = offset_of files /\
  offset_of files < offset_of files' /\ len payload <= 2 ^ 32 - 1.
Proof.
  intros [Ht Hv]. unfold writeValues. destruct (bw_write _ _) as [[r w]| |] eqn:E; [|done..]. intros [= <- <-].
  destruct (bw_write_ok _ _ _ _ Hv E) as (Hw & Hb & Hm). destruct (bw_write_place _ _ _ _ E) as (Ho & Hn & Hl).
  pose proof (len_nonneg payload). unfold offset_of. simpl. split; [|split_and!; [done|done|lia|done]].
  split; [by split|done|exists []; by rewrite app_nil_r|unfold offset_of; simpl; lia].
Qed.
Lemma writeTimes_grown payload files ref files' : files_sound files -> writeTimes payload files = (Ok ref, files') ->
  grown files files' /\ block_at (times_of files') ref payload.
Proof.
  intros [Ht Hv]. unfold writeTimes. destruct (bw_write _ _) as [[r w]| |] eqn:E; [|done..]. intros [= <- <-].
  destruct (bw_write_ok _ _ _ _ Ht E) as (Hw & Hb & Hm). split; [|done].
  split; [by split|exists []; by rewrite app_nil_r|done|done].
Qed.

(** ** Page statistics are machine numbers *)
Lemma pageStats_ok ft samples stats : Forall (sample_storable ft) samples ->
  valuePageStatsFromSamples ft samples = Ok stats -> stats_ok ft stats.
Proof.
  intros HF. unfold valuePageStatsFromSamples. destruct (len samples =? 0); [intros [= <-]; by left|].
  zcase (ft =? FieldFloat64).
  - subst ft. destruct HF as [|s samples Hs HF]; [done|]. cbn [floatValuePageStats].
    assert (forall s, sample_storable FieldFloat64 s -> is_u64 (fv_Float64 (vs_Value s))) as Hu.
    { intros x [(Hv & Ht & _) _ _]. by destruct Hv. }
    assert (forall l a b, Forall (sample_storable FieldFloat64) l -> is_u64 a -> is_u64 b ->
      let '(x, y) := foldl (fun '(minValue, maxValue) sample =>
        let value := fv_Float64 (vs_Value sample) in
        (if Float64.f_ltb value minValue then value else minValue, if Float64.f_ltb maxValue value then value else maxValue)) (a, b) l in
      is_u64 x /\ is_u64 y) as Hl.
    { clear -Hu. induction l as [|x l IH]; intros a b HF Ha Hb; [done|]. apply Forall_cons in HF as [Hx HF].
      cbn [foldl]. apply IH; [done|destruct (Float64.f_ltb _ a)|destruct (Float64.f_ltb b _)]; auto. }
    specialize (Hl samples (fv_Float64 (vs_Value s)) (fv_Float64 (vs_Value s)) HF (Hu s Hs) (Hu s Hs)).
    destruct (foldl _ _ _) as [x y]. destruct Hl. intros [= <-]. right. left. split; [done|]. by exists x, y.
  - zcase (ft =? FieldInt64); [|intros [= <-]; by left].
    subst ft. destruct HF as [|s samples Hs HF]; [done|]. cbn [intValuePageStats].
    assert (forall s, sample_storable FieldInt64 s -> is_i64 (fv_Int64 (vs_Value s))) as Hu.
    { intros x [(Hv & Ht & _) _ _]. by destruct Hv. }
    assert (forall l a b, Forall (sample_storable FieldInt64) l -> is_i64 a -> is_i64 b ->
      let '(x, y) := foldl (fun '(minValue, maxValue) sample =>
        let value := fv_Int64 (vs_Value sample) in
        (if value <? minValue then value else minValue, if maxValue <? value then value else maxValue)) (a, b) l in
      is_i64 x /\ is_i64 y) as Hl.
    { clear -Hu. induction l as [|x l IH]; intros a b HF Ha Hb; [done|]. apply Forall_cons in HF as [Hx HF].
      cbn [foldl]. apply IH; [done|destruct (_ <? a)|destruct (b <? _)]; auto. }
    specialize (Hl samples (fv_Int64 (vs_Value s)) (fv_Int64 (vs_Value s)) HF (Hu s Hs) (Hu s Hs)).
    destruct (foldl _ _ _) as [x y]. destruct Hl. intros [= <-]. right. right. split; [done|]. by exists x, y.
Qed.

(** ** Pages of a column *)
Fixpoint pageColumns (fuel : nat) (column : ColumnData) (pageSamples start : nat) : list ColumnData :=
  match fuel with
  | O => []
  | S fuel' =>
      if (length (cd_Samples column) <=? start)%nat then []
      else withPage column start (Nat.min (start + pageSamples) (length (cd_Samples column)))
           :: pageColumns fuel' column pageSamples (start + pageSamples)
  end.

Section layout.
Context `{lib : PayloadLib} `{!PayloadLaws lib}.

Record page_at (values : bytes) (row : list Z) (lo hi fieldType : Z) (page : valuePageRef) (samples : list VersionedSample)
    : Prop := {
  pa_block : exists payload, block_at values (pr_Ref page) payload /\ stores payload row samples;
  pa_place : lo <= br_Offset (pr_Ref page) < hi;
  pa_min : head (map vs_Timestamp samples) = Some (pr_MinTime page);
  pa_max : last (map vs_Timestamp samples) = Some (pr_MaxTime page);
  pa_times : Forall sane_time (map vs_Timestamp samples);
  pa_stats : stats_ok fieldType (pr_Stats page);
}.
Lemma page_at_grown f1 f2 row lo hi lo' hi' ft page samples : grown f1 f2 -> lo' <= lo -> hi <= hi' ->
  page_at (values_of f1) row lo hi ft page samples -> page_at (values_of f2) row lo' hi' ft page samples.
Proof.
  intros Hg Hlo Hhi [(payload & Hb & Hs) Hp Hmin Hmax Ht Hst]. split; [|lia|done..].
  exists payload. split; [by eapply grown_block|done].
Qed.

Lemma stored_times samples samples' : Forall2 stored_as samples samples' ->
  map vs_Timestamp samples' = map vs_Timestamp samples.
Proof. induction 1 as [|s s' l l' (Ht & _) HF IH]; [done|]. simpl. by rewrite Ht, IH. Qed.

(** One page: its first and last timestamps. *)
Lemma idx_first {A} (l : list A) x : idx l 0 = Ok x -> head l = Some x.
Proof. unfold idx. rewrite bool_decide_true by lia. simpl. by destruct l; intros [= ->]. Qed.
Lemma idx_last {A} (l : list A) x : idx l (len l - 1) = Ok x -> last l = Some x.
Proof.
  unfold idx. case_bool_decide; [|done]. rewrite last_lookup.
  replace (Z.to_nat (len l - 1)) with (pred (length l)) by (unfold len; lia).
  destruct (l !! _); by intros [= ->].
Qed.

Lemma withPage_samples column start n :
  cd_Samples (withPage column start (Nat.min (start + n) (length (cd_Samples column)))) = take n (drop start (cd_Samples column)).
Proof.
  unfold withPage. simpl. destruct (Nat.le_gt_cases (start + n) (length (cd_Samples column))).
  - rewrite Nat.min_l by lia. f_equal. lia.
  - rewrite Nat.min_r by lia. rewrite !take_ge; [done|rewrite length_drop; lia..].
Qed.

Lemma writePagesLoop_placed fuel column row opts n : (0 < n)%nat -> len row <= maxInt ->
  forall start files pages files', files_sound files ->
  Forall (page_storable (wo_Compression opts)) (pageColumns fuel column n start) ->
  (length (cd_Samples column) - start <= fuel)%nat ->
  writePagesLoop fuel column row opts n start files = (Ok pages, files') ->
  grown files files' /\ exists chunks,
    Forall2 (page_at (values_of files') row (offset_of files) (offset_of files') (cd_FieldType column)) pages chunks /\
    Forall2 stored_as (drop start (cd_Samples column)) (concat chunks).
Proof.
  intros Hn Hrow. induction fuel as [|fuel IH]; intros start files pages files' Hs HP Hf E.
  { injection E as <- <-. split; [by apply grown_refl|]. exists []. split; [constructor|].
    rewrite drop_ge by lia. constructor. }
  cbn [writePagesLoop pageColumns] in *. destruct (length (cd_Samples column) <=? start)%nat eqn:El.
  { apply Nat.leb_le in El. injection E as <- <-. split; [by apply grown_refl|]. exists []. split; [constructor|].
    rewrite drop_ge by lia. constructor. }
  apply Nat.leb_gt in El. apply Forall_cons in HP as [HP1 HP]. pose proof (withPage_samples column start n) as Epage.
  set (page := withPage _ _ _) in *.
  step_inv E payload s1 E1. apply wrap_step_ok, pure_step_ok in E1 as [E1 ->].
  step_inv E ref s2 E2. destruct (writeValues_grown _ _ _ _ Hs E2) as (Hg & Hb & Ho & Hlt & Hl).
  step_inv E first_ s3 E3. apply pure_step_ok in E3 as [Hfirst%idx_first ->].
  step_inv E last_ s4 E4. apply pure_step_ok in E4 as [Hlast%idx_last ->].
  step_inv E stats s5 E5. apply pure_step_ok in E5 as [Hstats ->].
  step_inv E rest s6 E6. injection E as <- <-.
  destruct (IH (start + n)%nat s2 rest s6 (gr_sound _ _ Hg) HP ltac:(lia) E6) as (Hg' & chunks & Hc & Hst).
  split; [by eapply grown_trans|].
  destruct (page_stored page row _ _ payload HP1 Hrow E1) as (samples & Hss & Hstore); [unfold maxAlloc; lia|].
  exists (samples :: chunks). split.
  - constructor.
    + eapply (page_at_grown s2); [exact Hg'|reflexivity| |].
      * apply Z.le_refl.
      * pose proof (stored_times _ _ Hss) as Et. pose proof (gr_offset _ _ Hg'). split; simpl.
        -- by exists payload.
        -- rewrite Ho. lia.
        -- rewrite Et. by destruct (cd_Samples page); simplify_eq/=.
        -- rewrite Et. etrans; [apply (fmap_last vs_Timestamp)|]. by rewrite Hlast.
        -- rewrite Et. apply Forall_fmap. eapply Forall_impl; [apply (pg_samples _ _ HP1)|]. by intros s [].
        -- eapply pageStats_ok; [apply (pg_samples _ _ HP1)|done].
    + eapply Forall2_impl; [exact Hc|]. intros p c Hp. eapply page_at_grown; [apply grown_refl, Hg'| |reflexivity|exact Hp].
      lia.
  - simpl. rewrite <- (take_drop n (drop start (cd_Samples column))), drop_drop. apply Forall2_app; [|done]. by rewrite <- Epage.
Qed.
End layout.
