(* ===== verification/SstPlaced.v ===== *)
(** * The rows of a written part

    Writing a series places its timestamps, pages and page indexes; a writer
    that has accepted several series has placed all of them, each in a range
    of the values file of its own.  The second half shows what closing the
    writer leaves in the directory. *)
From S2P Require Import Prelude GoBinary Model Codec Readers SstTime SstTimeProofs SstValues SstValuesProofs SstSamples SstPage SstPageProofs Runtime Versions StoreSpec EngineMerge SstMeta SstPlain SstPack SstLayout.
From stdpp Require Import prelude strings list sorting gmap.
From Stdlib Require Import ZArith Lia.
#[local] Open Scope Z_scope.

Definition pageSize (opts : WriteOptions) : nat :=
  Z.to_nat (resolveValuePageSamples (co_ValuePageSamples (wo_Compression opts))).
Lemma pageSize_pos opts : (0 < pageSize opts)%nat.
Proof.
  unfold pageSize, resolveValuePageSamples, defaultValueBlockPageSamples, minValueBlockPageSamples, maxValueBlockPageSamples.
  repeat case_match; rewrite ?Z.leb_gt, ?Z.leb_le, ?Z.ltb_lt, ?Z.ltb_ge in *; lia.
Qed.

(** A column the writer can store. *)
Record column_storable (opts : WriteOptions) (c : ColumnData) : Prop := {
  cl_pages : Forall (page_storable (wo_Compression opts)) (pageColumns (length (cd_Samples c)) c (pageSize opts) 0);
  cl_samples : Forall (sample_storable (cd_FieldType c)) (cd_Samples c);
  cl_some : cd_Samples c <> [];
  cl_sorted : strict_column c;
  cl_fits : fits (len (cd_Samples c));
  cl_field : is_u32 (cd_FieldID c);
}.
Lemma value_type_byte v : value_ok v -> is_byte (fv_Type v).
Proof. destruct 1; by_decide. Qed.
Lemma storable_type opts c : column_storable opts c -> is_byte (cd_FieldType c).
Proof.
  intros [_ HF Hne _ _ _]. destruct HF as [|s l [(Hv & <- & _) _ _] _]; [done|]. by apply value_type_byte.
Qed.

(** The stored column: same key, type and timestamps. *)
Record stored_column (c c' : ColumnData) : Prop := {
  sv_key : keyOf c' = keyOf c;
  sv_type : cd_FieldType c' = cd_FieldType c;
  sv_samples : Forall2 stored_as (cd_Samples c) (cd_Samples c');
}.

Section placed.
Context `{lib : PayloadLib} `{!PayloadLaws lib} `{GoRuntimeLaws}.

Record column_at (values : bytes) (row : list Z) (lo hi : Z) (c : ColumnData) (ref : columnRef) : Prop := {
  ca_index : exists index payload chunks,
    block_at values (cr_ValueRef ref) payload /\ marshalValuePageIndex index = Ok payload /\
    pi_FieldID index = cd_FieldID c /\ pi_FieldType index = cd_FieldType c /\ pi_Count index = len (cd_Samples c) /\
    Forall2 (page_at values row lo hi (cd_FieldType c)) (pi_Pages index) chunks /\ concat chunks = cd_Samples c;
  ca_id : cr_FieldID ref = cd_FieldID c;
  ca_type : cr_FieldType ref = cd_FieldType c;
  ca_u32 : is_u32 (cd_FieldID c);
  ca_byte : is_byte (cd_FieldType c);
  ca_sorted : strict_column c;
  ca_some : cd_Samples c <> [];
  ca_fits : fits (len (cd_Samples c));
}.
Lemma column_at_grown f1 f2 row lo hi lo' hi' c ref : grown f1 f2 -> lo' <= lo -> hi <= hi' ->
  column_at (values_of f1) row lo hi c ref -> column_at (values_of f2) row lo' hi' c ref.
Proof.
  intros Hg Hlo Hhi [(index & payload & chunks & Hb & Hm & Hi & Ht & Hn & HF & Hc)]. split; try done.
  exists index, payload, chunks. split_and!; try done; [by eapply grown_block|].
  eapply Forall2_impl; [exact HF|]. intros page samples. by apply page_at_grown.
Qed.

Lemma stored_sorted l l' : Forall2 stored_as l l' -> StronglySorted ts_lt l -> StronglySorted ts_lt l'.
Proof.
  induction 1 as [|s s' l l' (Ht & _) HF IH]; intros Hs; constructor; apply StronglySorted_inv in Hs as [Hs Hlt]; [by apply IH|].
  clear IH Hs. induction HF as [|x x' l l' (Hx & _) HF IH]; constructor; apply Forall_cons in Hlt as [Hlt1 Hlt2]; [|by apply IH].
  unfold ts_lt in *. lia.
Qed.

Lemma writeValueBlock_placed row opts c files ref files' : files_sound files -> column_storable opts c ->
  len row <= maxInt -> writeValueBlock row opts c files = (Ok ref, files') ->
  grown files files' /\ exists c', stored_column c c' /\
    column_at (values_of files') row (offset_of files) (offset_of files') c' ref.
Proof.
  intros Hs Hc Hrow E. pose proof (storable_type _ _ Hc) as Hbyte. destruct Hc as [HP HF Hne Hsort Hf Hid].
  unfold writeValueBlock in E. step_inv E index s1 E1. unfold writeValuePages in E1.
  step_inv E1 pages s1' E1'. injection E1 as <- <-.
  destruct (writePagesLoop_placed _ c row opts (pageSize opts) (pageSize_pos opts) Hrow 0 files pages s1' Hs HP ltac:(lia) E1')
    as (Hg1 & chunks & Hpages & Hst).
  step_inv E payload s2 E2. apply wrap_step_ok, pure_step_ok in E2 as [E2 ->].
  step_inv E ref' s3 E3. injection E as <- <-.
  destruct (writeValues_grown _ _ _ _ (gr_sound _ _ Hg1) E3) as (Hg2 & Hb & Ho & Hlt & Hl).
  split; [by eapply grown_trans|].
  exists (mkColumnData (cd_SeriesID c) (cd_FieldID c) (cd_FieldType c) (concat chunks)). split; [by split|].
  assert (length (concat chunks) = length (cd_Samples c)) as Hlen by (symmetry; by apply Forall2_length in Hst).
  split; simpl; try done.
  - exists (mkPageIndex (cd_FieldID c) (cd_FieldType c) (len (cd_Samples c)) pages), payload, chunks. simpl.
    split_and!; try done; [unfold len; by rewrite Hlen|].
    eapply Forall2_impl; [exact Hpages|]. intros page samples. apply page_at_grown; [done|lia|]. apply Hg2.
  - by eapply stored_sorted.
  - intros En. apply Hne. rewrite En in Hlen. by destruct (cd_Samples c).
  - unfold len. rewrite Hlen. done.
Qed.

Lemma writeColumns_placed row opts columns : len row <= maxInt -> Forall (column_storable opts) columns ->
  forall files refs files', files_sound files ->
  step_list (writeValueBlock row opts) columns files = (Ok refs, files') ->
  grown files files' /\ exists columns', Forall2 stored_column columns columns' /\
    Forall2 (column_at (values_of files') row (offset_of files) (offset_of files')) columns' refs.
Proof.
  intros Hrow. induction 1 as [|c columns Hc HF IH]; intros files refs files' Hs E.
  { injection E as <- <-. split; [by apply grown_refl|]. exists []. by split; constructor. }
  cbn [step_list] in E. step_inv E ref s1 E1. step_inv E refs' s2 E2. injection E as <- <-.
  destruct (writeValueBlock_placed _ _ _ _ _ _ Hs Hc Hrow E1) as (Hg1 & c' & Hsc & Hat).
  destruct (IH _ _ _ (gr_sound _ _ Hg1) E2) as (Hg2 & columns' & Hss & Hats).
  split; [by eapply grown_trans|]. exists (c' :: columns'). split; [by constructor|]. constructor.
  - eapply column_at_grown; [exact Hg2|reflexivity|apply Hg2|done].
  - eapply Forall2_impl; [exact Hats|]. intros d r. apply column_at_grown; [apply grown_refl, Hg2|apply Hg1|reflexivity].
Qed.

(** ** A row *)
Record placed := mkPlaced {
  pl_lo : Z;
  pl_hi : Z;
  pl_times : list Z;
  pl_row : indexRow;
  pl_columns : list ColumnData;
}.
Record placed_ok (times values : bytes) (p : placed) : Prop := {
  pd_block : block_at times (ir_TimeRef (pl_row p)) (marshalTimeBlock (pl_times p));
  pd_times : Forall is_i64 (pl_times p) /\ fits (len (pl_times p));
  pd_columns : Forall2 (column_at values (pl_times p) (pl_lo p) (pl_hi p)) (pl_columns p) (ir_Columns (pl_row p));
  pd_bounds c s : c ∈ pl_columns p -> s ∈ cd_Samples c -> ir_MinTime (pl_row p) <= vs_Timestamp s <= ir_MaxTime (pl_row p);
  pd_range : sane_time (ir_MinTime (pl_row p)) /\ sane_time (ir_MaxTime (pl_row p));
  pd_series : Forall (fun c => cd_SeriesID c = ir_SeriesID (pl_row p)) (pl_columns p);
  pd_fields : StronglySorted field_lt (pl_columns p);
  pd_fits : fits (len (pl_columns p));
  pd_id : is_u64 (ir_SeriesID (pl_row p));
}.
Lemma placed_ok_grown f1 f2 p : grown f1 f2 -> placed_ok (times_of f1) (values_of f1) p -> placed_ok (times_of f2) (values_of f2) p.
Proof.
  intros Hg []. split; try done; [by eapply grown_time_block|].
  eapply Forall2_impl; [exact pd_columns0|]. intros c ref. by apply column_at_grown.
Qed.

(** A series the writer can store. *)
Record series_storable (opts : WriteOptions) (columns : list ColumnData) : Prop := {
  sr_columns : Forall (column_storable opts) columns;
  sr_fields : NoDup (cd_FieldID <$> columns);
  sr_some : columns <> [];
  sr_fits : fits (len columns);
  sr_times : fits (len (collectTimestamps (sortByField columns)));
  sr_id : Forall (fun c => is_u64 (cd_SeriesID c)) columns;
}.

Lemma sorted_first (l : list Z) a : StronglySorted Z.lt l -> head l = Some a -> forall x, x ∈ l -> a <= x.
Proof.
  intros Hs Hh x Hx. destruct Hs as [|y l Hs HF]; [done|]. injection Hh as ->. rewrite Forall_forall in HF.
  apply elem_of_cons in Hx as [->|Hx]; [lia|]. specialize (HF x Hx). lia.
Qed.
Lemma sorted_last (l : list Z) b : StronglySorted Z.lt l -> last l = Some b -> forall x, x ∈ l -> x <= b.
Proof.
  intros Hs Hl x Hx. apply last_Some in Hl as [l' ->]. apply elem_of_app in Hx as [Hx|Hx].
  - assert (x < b); [|lia]. eapply (StronglySorted_app_1_elem_of Z.lt l' [b]); [done|done|left].
  - apply list_elem_of_singleton in Hx. lia.
Qed.
Lemma Forall2_series columns columns' id : Forall2 stored_column columns columns' ->
  Forall (fun c => cd_SeriesID c = id) columns -> Forall (fun c => cd_SeriesID c = id) columns'.
Proof.
  induction 1 as [|c c' l l' [Hk _ _] HF IH]; intros Hid; constructor; apply Forall_cons in Hid as [Hi Hid]; [|by apply IH].
  unfold keyOf in Hk. injection Hk. congruence.
Qed.
Lemma Forall2_fields columns columns' : Forall2 stored_column columns columns' ->
  StronglySorted field_lt columns -> StronglySorted field_lt columns'.
Proof.
  assert (forall c c', stored_column c c' -> cd_FieldID c' = cd_FieldID c) as Hf.
  { intros c c' [Hk _ _]. unfold keyOf in Hk. by injection Hk. }
  induction 1 as [|c c' l l' Hc HF IH]; intros Hs; constructor; apply StronglySorted_inv in Hs as [Hs Hlt]; [by apply IH|].
  clear IH Hs. induction HF as [|d d' l l' Hd HF IH]; constructor; apply Forall_cons in Hlt as [Hlt1 Hlt2]; [|by apply IH].
  unfold field_lt in *. rewrite (Hf _ _ Hc), (Hf _ _ Hd). done.
Qed.
Lemma stored_times_in columns columns' c' s' : Forall2 stored_column columns columns' -> c' ∈ columns' -> s' ∈ cd_Samples c' ->
  has_time columns (vs_Timestamp s').
Proof.
  intros HF Hc' Hs'. apply list_elem_of_lookup in Hc' as [i Hi]. destruct (Forall2_lookup_r _ _ _ _ _ HF Hi) as (c & Hc & Hsc).
  apply list_elem_of_lookup in Hs' as [j Hj]. destruct (Forall2_lookup_r _ _ _ _ _ (sv_samples _ _ Hsc) Hj) as (s & Hs & Ht & _).
  exists c, s. split_and!; [by eapply list_elem_of_lookup_2|by eapply list_elem_of_lookup_2|done].
Qed.

Lemma writeSeries_placed opts id columns files row files' : files_sound files -> series_storable opts columns ->
  Forall (fun c => cd_SeriesID c = id) columns ->
  writeSeries id columns opts files = (Ok row, files') ->
  grown files files' /\ exists p, pl_row p = row /\ pl_lo p = offset_of files /\ pl_hi p = offset_of files' /\
    ir_SeriesID row = id /\ Forall2 stored_column (sortByField columns) (pl_columns p) /\
    placed_ok (times_of files') (values_of files') p.
Proof.
  intros Hs [Hcols Hnd Hne Hfc Hft Hids] Hid E. unfold writeSeries in E.
  set (sorted := sortByField columns) in *. set (ts := collectTimestamps sorted) in *.
  assert (forall c, c ∈ sorted -> c ∈ columns) as Hin by (intros c; unfold sorted; by rewrite sortByField_perm).
  assert (Forall (column_storable opts) sorted) as Hcols'.
  { apply Forall_forall. intros c Hc%Hin. rewrite Forall_forall in Hcols. by apply Hcols. }
  assert (Forall strict_column sorted) as Hstrict by (eapply Forall_impl; [exact Hcols'|]; by intros c []).
  destruct (collectTimestamps_exact sorted Hstrict) as [Hsort Hmem]. fold ts in Hsort, Hmem.
  assert (Forall sane_time ts) as Hsane.
  { apply Forall_forall. intros t (c & s & Hc & Hs' & <-)%Hmem. rewrite Forall_forall in Hcols'.
    destruct (Hcols' c Hc) as [_ HF _ _ _ _]. rewrite Forall_forall in HF. by destruct (HF s Hs'). }
  step_inv E timeRef s1 E1. destruct (writeTimes_grown _ _ _ _ Hs E1) as [Hg1 Hb].
  step_inv E minTime s2 E2. apply pure_step_ok in E2 as [Hmin%idx_first ->].
  step_inv E maxTime s3 E3. apply pure_step_ok in E3 as [Hmax%idx_last ->].
  step_inv E refs s4 E4. injection E as <- <-.
  assert (len ts <= maxInt) as Hlt by alloc_lia.
  destruct (writeColumns_placed ts opts sorted Hlt Hcols' _ _ _ (gr_sound _ _ Hg1) E4) as (Hg2 & columns' & Hst & Hat).
  split; [by eapply grown_trans|].
  exists (mkPlaced (offset_of files) (offset_of s4) ts (mkIndexRow id minTime maxTime timeRef refs) columns').
  assert (minTime ∈ ts) as Hmint by (destruct ts; simplify_eq/=; left).
  assert (maxTime ∈ ts) as Hmaxt by (apply last_Some in Hmax as [l ->]; set_solver).
  split_and!; try done. split; simpl.
  - by eapply grown_time_block.
  - split; [eapply Forall_impl; [exact Hsane|apply sane_i64]|done].
  - eapply Forall2_impl; [exact Hat|]. intros c r. apply column_at_grown; [apply grown_refl, Hg2|apply Hg1|reflexivity].
  - intros c s Hc Hs'. assert (vs_Timestamp s ∈ ts) as Ht by (apply Hmem; by eapply stored_times_in).
    split; [by eapply sorted_first|by eapply sorted_last].
  - rewrite Forall_forall in Hsane. split; by apply Hsane.
  - eapply Forall2_series; [exact Hst|]. apply Forall_forall. intros c Hc%Hin. rewrite Forall_forall in Hid. by apply Hid.
  - eapply Forall2_fields; [exact Hst|]. by apply sortByField_sorted.
  - assert (length columns' = length columns) as El.
    { apply Forall2_length in Hst. rewrite <- Hst. unfold sorted. by rewrite sortByField_perm. }
    unfold len. rewrite El. done.
  - destruct columns as [|c columns]; [done|]. apply Forall_cons in Hid as [<- _]. by apply Forall_cons in Hids as [? _].
Qed.
End placed.

(** * What closing a part writer leaves in the directory *)
Lemma outcome_bind_ok {A B} (m : outcome A) (k : A -> outcome B) b : (m ≫= k) = Ok b -> exists a, m = Ok a /\ k a = Ok b.
Proof. destruct m as [a| |]; [|done..]. intros E. by exists a. Qed.
Ltac ok_inv H x E := apply outcome_bind_ok in H as (x & E & H).

(** ** The index file *)
Lemma writeRowBlocks_blocks rows : forall w refs w', writer_ok w -> writeRowBlocks w rows = Ok (refs, w') ->
  writer_ok w' /\ (exists more, bw_file w' = bw_file w ++ more) /\
  Forall2 (fun row ref => exists payload, encodeIndexRowsInto [row] = Ok payload /\ block_at (bw_file w') ref payload) rows refs.
Proof.
  induction rows as [|row rows IH]; intros w refs w' Hw E; cbn [writeRowBlocks] in E.
  { injection E as <- <-. split_and!; [done|exists []; by rewrite app_nil_r|constructor]. }
  ok_inv E payload E1. ok_inv E rw E2. destruct rw as [ref w1]. ok_inv E rw E3. destruct rw as [refs' w2].
  injection E as <- <-. destruct (bw_write_ok _ _ _ _ Hw E2) as (Hw1 & Hb & m1 & Em1).
  destruct (IH _ _ _ Hw1 E3) as (Hw2 & [m2 Em2] & HF). split_and!; [done|exists (m1 ++ m2); by rewrite Em2, Em1, (assoc_L (++))|].
  constructor; [|done]. exists payload. split; [done|]. rewrite Em2. by apply block_at_app.
Qed.

Record index_files (rows : list indexRow) (index : bytes) (indexRef : blockRef) (rowRefs : list blockRef) : Prop := {
  xf_all : exists payload, encodeIndexRowsInto rows = Ok payload /\ block_at index indexRef payload;
  xf_rows : Forall2 (fun row ref => exists payload, encodeIndexRowsInto [row] = Ok payload /\ block_at index ref payload) rows rowRefs;
}.
Lemma writeIndexBlocks_files rows indexRef rowRefs index : writeIndexBlocks rows = Ok (indexRef, rowRefs, index) ->
  index_files rows index indexRef rowRefs.
Proof.
  unfold writeIndexBlocks. intros E. ok_inv E payload E1. ok_inv E rw E2. destruct rw as [ref w1].
  ok_inv E rw E3. destruct rw as [refs w2]. injection E as <- <- <-.
  destruct (bw_write_ok _ _ _ _ (newBlockWriter_ok []) E2) as (Hw1 & Hb & _).
  destruct (writeRowBlocks_blocks _ _ _ _ Hw1 E3) as (_ & [more Em] & HF). split; [|done].
  exists payload. split; [done|]. rewrite Em. by apply block_at_app.
Qed.

(** ** The directory *)
Definition component_files (metaIndex index seriesIndex times values : bytes) : list (bytes * bytes) :=
  [(metaindexFile, metaIndex); (indexFile, index); (seriesIndexFile, seriesIndex);
   (timestampsFile, times); (valuesFile, values); (stringsFile, [])].
Definition component_sizes (metaIndex index seriesIndex times values : bytes) : gmap bytes Z :=
  <[metaindexFile := len metaIndex]> (<[indexFile := len index]> (<[seriesIndexFile := len seriesIndex]>
    (<[timestampsFile := len times]> (<[valuesFile := len values]> (<[stringsFile := 0]> {[ metadataFile := 0 ]}))))).

Section finish.
Context `{GoRuntime}.

Record finished (times values : bytes) (meta : metadata) (rows : list indexRow) (dir : directory) (final : metadata)
    (metaIndex index seriesIndex pack : bytes) (rowRefs : list blockRef) : Prop := {
  fd_index : index_files rows index (md_IndexRef final) rowRefs;
  fd_meta : exists payload, encodeMetaIndexRows [metaIndexFromRows (md_Part meta) (md_IndexRef final) rows] = Ok payload /\
    block_at metaIndex (md_MetaIndexRef final) payload;
  fd_series : exists seriesRows payload, seriesIndexFromRows rows rowRefs = Ok seriesRows /\
    encodeSeriesIndexRows seriesRows = Ok payload /\ block_at seriesIndex (md_SeriesIndexRef final) payload;
  fd_pack : encodePartPack (sectionsOf (component_files metaIndex index seriesIndex times values))
    (component_files metaIndex index seriesIndex times values).*2 = Ok pack;
  fd_packFile : dir !! packFile = Some pack;
  fd_metadata : exists data, dir !! metadataFile = Some data /\ encodeMetadata final = Ok data;
  fd_part : md_Part final = md_Part meta;
  fd_components : md_Components final = metadataComponents (md_Components meta);
  fd_sizes : md_ComponentSizes final = component_sizes metaIndex index seriesIndex times values;
  fd_created : md_CreatedUnix final = md_CreatedUnix meta;
}.

Lemma finishPart_finished files meta rows path pm dir : finishPart files meta rows path = Ok (pm, dir) ->
  exists final metaIndex index seriesIndex pack rowRefs,
    finished (times_of files) (values_of files) meta rows dir final metaIndex index seriesIndex pack rowRefs /\
    pm = withPath (md_Part meta) path.
Proof.
  unfold finishPart. intros E. ok_inv E md E1. destruct md as [meta1 dir1]. ok_inv E md E2. destruct md as [meta2 dir2].
  injection E as <- <-. unfold writePartIndexes in E1.
  ok_inv E1 x Ei. destruct x as [[indexRef rowRefs] index]. ok_inv E1 mp Em. ok_inv E1 x Emb. destruct x as [metaIndexRef metaIndex].
  ok_inv E1 seriesRows Es. ok_inv E1 sp Esp. ok_inv E1 x Esb. destruct x as [seriesIndexRef seriesIndex]. injection E1 as <- <-.
  unfold finalizePartLayout, writePartPack in E2. ok_inv E2 x Ep. destruct x as [sizes dir3].
  ok_inv Ep x Eps. destruct x as [[sections payloads] sizes'].
  set (d0 := <[stringsFile := []]> _) in Eps.
  assert (packSections d0 packSectionOrder = Ok (sectionsOf (component_files metaIndex index seriesIndex (times_of files) (values_of files)),
    (component_files metaIndex index seriesIndex (times_of files) (values_of files)).*2,
    component_sizes metaIndex index seriesIndex (times_of files) (values_of files))) as Hps by reflexivity.
  rewrite Hps in Eps. injection Eps as <- <- <-. ok_inv Ep pack Epk. injection Ep as <- <-.
  ok_inv E2 data Ed. injection E2 as <- <-.
  destruct (writeBlockAt_ok _ _ _ _ Emb) as [Hmb _]. destruct (writeBlockAt_ok _ _ _ _ Esb) as [Hsb _].
  exists (mkMetadata (md_Part meta) indexRef metaIndexRef seriesIndexRef (metadataComponents (md_Components meta))
    (component_sizes metaIndex index seriesIndex (times_of files) (values_of files)) (md_CreatedUnix meta)),
    metaIndex, index, seriesIndex, pack, rowRefs. split; [|reflexivity]. split; simpl; try reflexivity.
  - by apply writeIndexBlocks_files.
  - by exists mp.
  - by exists seriesRows, sp.
  - exact Epk.
  - exists data. split; [reflexivity|].
    destruct (encodeMetadata _) as [d| |]; [|done..]. by injection Ed as ->.
Qed.
End finish.
