(* ===== verification/SstReadProofs.v ===== *)
(** * Reading what was written, through the caches

    For the rows of a part placed as [SstPlaced] describes, every read yields
    the samples of the queried interval whatever the caches hold, and keeps the
    caches coherent with the files.  Then whole rows and queries of a part, and
    that every part answers its queries. *)
From S2P Require Import Prelude GoBinary Model Codec Readers SstTime SstTimeProofs SstValues SstValuesProofs SstSamples SstPage SstPageProofs Runtime Versions MemCompact StoreSpec EngineMerge SstMeta SstPlain SstPack SstCache SstRead SstLayout SstPlaced.
From stdpp Require Import prelude strings list sorting gmap.
From Stdlib Require Import ZArith Lia.
#[local] Open Scope Z_scope.

(** ** Queries without predicates on values and without a boundary mode *)
Record plain_query (query : StorageQuery) : Prop := {
  pq_boundary : sq_Boundary query = QueryBoundaryNone;
  pq_predicates : sq_FieldPredicates query = ∅;
  pq_range : sane_range (timeRange query);
}.
Lemma streamQuery_plain query : plain_query query -> plain_query (streamQuery query).
Proof. by intros []. Qed.

Definition windowed (query : StorageQuery) (c : ColumnData) : ColumnData :=
  mkColumnData (cd_SeriesID c) (cd_FieldID c) (cd_FieldType c) (filter (in_window query) (cd_Samples c)).
Definition rowExpected (query : StorageQuery) (columns : list ColumnData) : list ColumnData :=
  filter (fun c => 0 <? len (cd_Samples c))
    (windowed query <$> filter (fun c => containsField (sq_FieldIDs query) (cd_FieldID c)) columns).
Definition placedExpected (query : StorageQuery) (p : placed) : list ColumnData :=
  if containsSeries (sq_SeriesIDs query) (ir_SeriesID (pl_row p)) then rowExpected query (pl_columns p) else [].

Lemma filterSamplesByTime_window query samples :
  filterSamplesByTime samples (timeRange query) = filter (in_window query) samples.
Proof.
  unfold filterSamplesByTime. induction samples as [|s l IH]; [done|]. simpl. rewrite filter_cons, IH.
  assert (in_query (timeRange query) (vs_Timestamp s) = in_window query s) as ->.
  { unfold in_query, in_window, in_range. simpl. by rewrite negb_orb, <- !Z.leb_antisym. }
  by destruct (in_window query s).
Qed.

(** ** Samples of a page outside its bounds *)
Lemma sorted_between l a b : StronglySorted ts_lt l -> head (map vs_Timestamp l) = Some a ->
  last (map vs_Timestamp l) = Some b -> forall s, s ∈ l -> a <= vs_Timestamp s <= b.
Proof.
  intros Hs Ha Hb s Hin. pose proof (times_sorted l Hs) as Ht.
  assert (vs_Timestamp s ∈ map vs_Timestamp l) as Hm by (apply list_elem_of_fmap; by exists s).
  split; [by eapply sorted_first|by eapply sorted_last].
Qed.
Lemma window_none query samples a b : (forall s, s ∈ samples -> a <= vs_Timestamp s <= b) ->
  b < sq_Start query \/ sq_End query < a -> filter (in_window query) samples = [].
Proof.
  intros Hb Ho. apply keep_none. apply Forall_forall. intros s Hs%Hb. unfold in_window, in_range.
  apply andb_false_iff. destruct Ho; [left|right]; apply Z.leb_gt; lia.
Qed.
Lemma sorted_chunks (chunks : list (list VersionedSample)) : StronglySorted ts_lt (concat chunks) -> Forall (StronglySorted ts_lt) chunks.
Proof.
  induction chunks as [|c chunks IH]; intros Hs; constructor; simpl in Hs.
  - by apply StronglySorted_app_1_l in Hs.
  - apply IH. by apply StronglySorted_app_1_r in Hs.
Qed.
Lemma samplesSorted_strict l : StronglySorted ts_lt l -> samplesSorted l = true.
Proof.
  intros Hs. pose proof (columnsSamplesSorted_ordered [mkColumnData 0 0 0 l]) as H.
  unfold columnsSamplesSorted in H. simpl in H. rewrite andb_true_r in H. apply H. by repeat constructor.
Qed.

Section read.
Context `{lib : PayloadLib} `{!PayloadLaws lib} `{GoRuntimeLaws} `{FramePoolLaws}.
Context (p : Part) (files : partReadFiles) (index times values : bytes) (layout : list placed).

Record readable : Prop := {
  rb_files : pt_files p = Some files;
  rb_index : shows (section_ReadAt (rf_index files)) index;
  rb_times : shows (section_ReadAt (rf_timestamps files)) times;
  rb_values : shows (section_ReadAt (rf_values files)) values;
  rb_layout : Forall (placed_ok times values) layout;
  rb_ranges : StronglySorted (fun a b => pl_hi a <= pl_lo b) layout;
  rb_sizes : len values <= maxInt /\ len times <= maxInt /\ len index <= maxInt;
}.
Context (Hp : readable).

(** The caches agree with the files. *)
Record coherent (caches : partCaches) : Prop := {
  co_pages key got : page_get (pageCache caches) key = Some got ->
    forall pl, pl ∈ layout -> pl_lo pl <= pk_offset key < pl_hi pl ->
    forall payload, block_at values (mkBlockRef (pk_offset key) (pk_size key)) payload ->
    exists block, unmarshalValueBlockWithTimestamps payload (pl_times pl) (mkQuery (pk_start key) (pk_end key)) = Ok block
      /\ vb_Samples block = got;
  co_blocks key got : block_get (blockCache caches) key = Some got ->
    componentBlock files (bk_name key) (mkBlockRef (bk_offset key) (bk_size key)) = Ok got;
}.

Lemma ref_eta ref : mkBlockRef (br_Offset ref) (br_Size ref) = ref.
Proof. by destruct ref. Qed.

Lemma readBlockPayload_yields name ref data : componentBlock files name ref = Ok data ->
  yields coherent (readBlockPayload p name ref) data.
Proof.
  intros Hd s Hs. unfold readBlockPayload, mbind, step_bind, get_step, pure_step, put_step, mret, step_ret.
  set (cacheable := bool_decide _ || bool_decide _). destruct (if cacheable then _ else None) as [got|] eqn:Eg.
  - exists s. split; [|done]. destruct cacheable; [|done]. apply (co_blocks _ Hs) in Eg. simpl in Eg.
    rewrite ref_eta in Eg. congruence.
  - rewrite (rb_files Hp), Hd. destruct cacheable; [|by exists s]. eexists. split; [done|]. split; simpl; [apply Hs|].
    intros key got [[-> ->]|Hg]%block_put_get; [simpl; by rewrite ref_eta|by apply (co_blocks _ Hs)].
Qed.
Lemma values_block ref payload : block_at values ref payload -> componentBlock files valuesFile ref = Ok payload.
Proof. intros Hb. apply (readBlock_at _ values); [apply Hp|done]. Qed.
Lemma times_block ref payload : block_at times ref payload -> componentBlock files timestampsFile ref = Ok payload.
Proof. intros Hb. apply (readBlock_at _ times); [apply Hp|done]. Qed.
Lemma index_block ref payload : block_at index ref payload -> componentBlock files indexFile ref = Ok payload.
Proof. intros Hb. apply (readBlock_at _ index); [apply Hp|done]. Qed.

Lemma block_at_unique file ref p1 p2 : block_at file ref p1 -> block_at file ref p2 -> p1 = p2.
Proof.
  intros Hb1%(readBlock_at _ file _ _ (file_shows file)) Hb2%(readBlock_at _ file _ _ (file_shows file)). congruence.
Qed.
Lemma range_unique o pl pl' : pl ∈ layout -> pl' ∈ layout -> pl_lo pl <= o < pl_hi pl -> pl_lo pl' <= o < pl_hi pl' -> pl = pl'.
Proof.
  intros Hl1 Hl2 Ho Ho'. pose proof (rb_ranges Hp) as Hs. induction Hs as [|q l Hs IH HF]; [by apply elem_of_nil in Hl1|].
  rewrite Forall_forall in HF. apply elem_of_cons in Hl1 as [->|Hl1], Hl2 as [->|Hl2]; [done|..].
  - specialize (HF _ Hl2). lia.
  - specialize (HF _ Hl1). lia.
  - by apply IH.
Qed.

Lemma readTimeBlock_yields pl : pl ∈ layout -> yields coherent (readTimeBlock p (ir_TimeRef (pl_row pl))) (pl_times pl).
Proof.
  intros Hpl. pose proof (rb_layout Hp) as HF. rewrite Forall_forall in HF. destruct (HF pl Hpl) as [Hb [Ht Hf] _ _ _ _ _ _ _].
  eapply yields_bind; [apply readBlockPayload_yields, times_block, Hb|].
  apply yields_wrap, yields_pure. by apply timeBlock_roundtrip.
Qed.

(** ** A page *)
Lemma readValuePage_yields pl ft page samples query : pl ∈ layout -> plain_query query ->
  page_at values (pl_times pl) (pl_lo pl) (pl_hi pl) ft page samples ->
  yields coherent (readValuePage p (pr_Ref page) (pl_times pl) query) (filter (in_window query) samples).
Proof.
  intros Hpl [_ _ Hq] [(payload & Hb & Hst) Hplace _ _ _ _] s Hs. rewrite <- filterSamplesByTime_window.
  destruct (Hst _ Hq) as (block & Eb & Ev).
  unfold readValuePage. unfold mbind at 1, step_bind at 1. cbn [get_step].
  destruct (page_get (pageCache s) (pageKey (pr_Ref page) query)) as [got|] eqn:Eg.
  - exists s. split; [|done]. destruct (co_pages _ Hs _ _ Eg pl Hpl Hplace payload) as (block' & Eb' & Ev').
    { simpl. by rewrite ref_eta. }
    change (mkQuery (pk_start (pageKey (pr_Ref page) query)) (pk_end (pageKey (pr_Ref page) query))) with (timeRange query) in Eb'.
    unfold mret, step_ret. congruence.
  - revert s Hs Eg. intros s Hs _. revert s Hs. change (yields coherent (readBlockPayload p valuesFile (pr_Ref page) ≫= (fun payload =>
      block ← wrap_step "decode value page" (pure_step (unmarshalValueBlockWithTimestamps payload (pl_times pl) (timeRange query)));
      _ ← putPage (pageKey (pr_Ref page) query) (vb_Samples block); mret (vb_Samples block)))
      (filterSamplesByTime samples (timeRange query))).
    eapply yields_bind; [by apply readBlockPayload_yields, values_block|].
    eapply yields_bind; [by apply yields_wrap, yields_pure|]. rewrite <- Ev.
    eapply yields_bind; [|apply yields_ret]. instantiate (1 := tt).
    intros s Hs. eexists. split; [done|]. split; simpl; [|apply Hs].
    intros key got [[-> ->]|Hg]%page_put_get; [|by apply (co_pages _ Hs)].
    intros pl' Hpl' Hplace' payload'. simpl. rewrite ref_eta. intros Hb'. exists block. split; [|done].
    rewrite (block_at_unique _ _ _ _ Hb' Hb). by rewrite (range_unique _ _ _ Hpl' Hpl Hplace' Hplace).
Qed.

Lemma readPages_yields pl ft pages chunks query : pl ∈ layout -> plain_query query ->
  Forall2 (page_at values (pl_times pl) (pl_lo pl) (pl_hi pl) ft) pages chunks -> StronglySorted ts_lt (concat chunks) ->
  yields coherent (readValuePagesFromRefs p pages (pl_times pl) query) (filter (in_window query) (concat chunks)).
Proof.
  intros Hpl Hq HF Hs. eapply yields_bind.
  { apply (yields_list _ _ _ ((fun c : list VersionedSample => filter (in_window query) c) <$> chunks)). rewrite Forall2_fmap_r.
    eapply Forall2_impl; [exact HF|]. intros page c Hc. by eapply readValuePage_yields. }
  assert (concat ((fun c : list VersionedSample => filter (in_window query) c) <$> chunks) = filter (in_window query) (concat chunks)) as ->.
  { clear. induction chunks as [|c chunks IH]; [done|]. rewrite fmap_cons. simpl. by rewrite filter_app, IH. }
  unfold orderSamples. rewrite samplesSorted_strict; [apply yields_ret|]. by apply StronglySorted_filter.
Qed.

(** ** The loop over the index *)
Lemma page_matches page ft fid query : plain_query query ->
  valuePageMatchesQuery page fid ft query = negb ((pr_MaxTime page <? sq_Start query) || (sq_End query <? pr_MinTime page)).
Proof. intros [_ Hp' _]. unfold valuePageMatchesQuery. rewrite Hp', lookup_empty. simpl. by destruct (_ || _). Qed.
Lemma page_skipped pl ft page samples query fid : plain_query query ->
  page_at values (pl_times pl) (pl_lo pl) (pl_hi pl) ft page samples -> StronglySorted ts_lt samples ->
  valuePageMatchesQuery page fid ft query = false -> filter (in_window query) samples = [].
Proof.
  intros Hq [_ _ Hmin Hmax _ _] Hs. rewrite page_matches by done. rewrite negb_false_iff, orb_true_iff, !Z.ltb_lt. intros Ho.
  eapply window_none; [|exact Ho]. by apply sorted_between.
Qed.
Lemma pageRef_of pl ft page samples : page_at values (pl_times pl) (pl_lo pl) (pl_hi pl) ft page samples -> pageRef_ok ft page.
Proof.
  intros [(payload & Hb & _) _ Hmin Hmax Ht Hst]. pose proof (rb_sizes Hp) as (Hv & _ & _).
  assert (forall t, t ∈ map vs_Timestamp samples -> is_i64 t) as Hi.
  { intros t Hin. rewrite Forall_forall in Ht. by apply sane_i64, Ht. }
  split; [..|done].
  - apply Hi. destruct samples; simplify_eq/=. rewrite <- Hmin. left.
  - apply Hi. apply last_Some in Hmax as [l ->]. set_solver.
  - destruct Hb as [Hsz (before & after & Ef & Ho) Hl]. pose proof (len_nonneg before). pose proof (len_nonneg payload).
    pose proof (len_nonneg after). rewrite Ef, !len_app, blockFrame_len in Hv. unfold ref_ok. rewrite Hsz, Ho. lia.
Qed.
Lemma readMatchingPages_yields pl header pages chunks query : pl ∈ layout -> plain_query query ->
  Forall2 (page_at values (pl_times pl) (pl_lo pl) (pl_hi pl) (ph_fieldType header)) pages chunks ->
  StronglySorted ts_lt (concat chunks) -> forall bs, appendEach (appendPageRef (ph_fieldType header)) pages = Ok bs ->
  yields coherent (readMatchingPages p (length pages) header (pl_times pl) query bs) (filter (in_window query) (concat chunks), []).
Proof.
  intros Hpl Hq HF Hs. apply sorted_chunks in Hs as Hsc. clear Hs.
  induction HF as [|page samples pages chunks Hpage HF IH]; intros bs E.
  { injection E as <-. apply yields_ret. }
  apply Forall_cons in Hsc as [Hs1 Hsc]. cbn [appendEach] in E.
  destruct (pageRef_decodes _ _ (pageRef_of _ _ _ _ Hpage)) as (b & Eb & Hr). rewrite Eb in E. cbn [mbind outcome_bind] in E.
  destruct (appendEach _ pages) as [bs'| |] eqn:Ea; [|done..]. injection E as <-.
  cbn [length readMatchingPages]. eapply yields_bind; [apply yields_pure, Hr|]. simpl.
  rewrite filter_app. destruct (valuePageMatchesQuery _ _ _ _) eqn:Em; simpl.
  - eapply yields_bind; [by eapply readValuePage_yields|]. eapply yields_bind; [by apply IH|]. apply yields_ret.
  - rewrite (page_skipped _ _ _ _ _ _ Hq Hpage Hs1 Em). by apply IH.
Qed.

(** ** A column *)
Lemma chunks_count pl ft pages chunks : Forall2 (page_at values (pl_times pl) (pl_lo pl) (pl_hi pl) ft) pages chunks ->
  (length pages <= length (concat chunks))%nat.
Proof.
  induction 1 as [|page samples pages chunks [_ _ Hmin _ _ _] HF IH]; [done|]. simpl. rewrite length_app.
  destruct samples; [done|]. simpl. lia.
Qed.
Lemma pageRefs_of pl ft pages chunks : Forall2 (page_at values (pl_times pl) (pl_lo pl) (pl_hi pl) ft) pages chunks ->
  Forall (pageRef_ok ft) pages.
Proof. induction 1 as [|page samples pages chunks Hpage HF IH]; constructor; [by eapply pageRef_of|done]. Qed.
Lemma pageIndex_of pl c index_ chunks : pi_FieldID index_ = cd_FieldID c -> pi_FieldType index_ = cd_FieldType c ->
  pi_Count index_ = len (cd_Samples c) -> is_u32 (cd_FieldID c) -> is_byte (cd_FieldType c) -> fits (len (cd_Samples c)) ->
  Forall2 (page_at values (pl_times pl) (pl_lo pl) (pl_hi pl) (cd_FieldType c)) (pi_Pages index_) chunks ->
  concat chunks = cd_Samples c -> pageIndex_ok index_.
Proof.
  intros Ei Et En Hu Hb Hf HF Hc. split; rewrite ?Ei, ?Et, ?En; [done|done|apply fits_count; [apply len_nonneg|done]|..].
  - by eapply pageRefs_of.
  - pose proof (chunks_count _ _ _ _ HF) as Hn. rewrite Hc in Hn. alloc_lia.
Qed.
Lemma readValuePageRefs_ok index_ payload : pageIndex_ok index_ -> marshalValuePageIndex index_ = Ok payload ->
  readValuePageRefs payload = Ok ((index_header index_, pi_Pages index_), []) /\
  exists bs, readValuePageIndexHeader payload = Ok (index_header index_, bs) /\
    appendEach (appendPageRef (pi_FieldType index_)) (pi_Pages index_) = Ok bs.
Proof.
  intros Hok Hm. destruct (pageIndex_reads index_ Hok) as (head & pages & Em & Hh & Ea). rewrite Em in Hm. injection Hm as <-.
  change (valueEncodingPageIndex :: head ++ pages) with ((valueEncodingPageIndex :: head) ++ pages). split; [|exists pages; by split].
  unfold readValuePageRefs. eapply run_bind; [exact Hh|]. destruct Hok as [_ _ _ HF Hf].
  apply run_make; [apply len_nonneg|cbn [ph_pageCount index_header]; alloc_lia|]. cbn [ph_pageCount ph_fieldType index_header].
  destruct (appendEach_decodes (readValuePageRef (pi_FieldType index_)) (appendPageRef (pi_FieldType index_)) (pi_Pages index_))
    as (bs & Eb & Hr); [eapply Forall_impl; [exact HF|apply pageRef_decodes]|]. rewrite Ea in Eb. injection Eb as ->.
  rewrite count_nat. eapply run_bind_nil; [exact Hr|done].
Qed.

Lemma pages_skipped pl ft fid pages chunks query : plain_query query ->
  Forall2 (page_at values (pl_times pl) (pl_lo pl) (pl_hi pl) ft) pages chunks -> Forall (StronglySorted ts_lt) chunks ->
  filter (fun page => valuePageMatchesQuery page fid ft query) pages = [] -> filter (in_window query) (concat chunks) = [].
Proof.
  intros Hq HF Hs. induction HF as [|page samples pages chunks Hpage HF IH]; [done|]. apply Forall_cons in Hs as [Hs1 Hs].
  rewrite filter_cons. destruct (valuePageMatchesQuery page fid ft query) eqn:Em; [done|]. simpl. intros E.
  rewrite filter_app, (page_skipped _ _ _ _ _ _ Hq Hpage Hs1 Em). by apply IH.
Qed.

Lemma readIndexPages_yields pl c ref seriesID payload query : pl ∈ layout -> plain_query query ->
  column_at values (pl_times pl) (pl_lo pl) (pl_hi pl) c ref -> block_at values (cr_ValueRef ref) payload ->
  (exists rest, payload = valueEncodingPageIndex :: rest) /\
  yields coherent (readValuePagesFromIndexPayload p seriesID payload (pl_times pl) query)
    (mkColumnData seriesID (cd_FieldID c) (cd_FieldType c) (filter (in_window query) (cd_Samples c))).
Proof.
  intros Hpl Hq [(index_ & payload' & chunks & Hb & Hm & Ei & Et & En & HF & Hc) _ _ Hu Hbyte Hsort Hne Hf] Hb'.
  rewrite (block_at_unique _ _ _ _ Hb' Hb). clear payload Hb'.
  assert (pageIndex_ok index_) as Hok by by eapply pageIndex_of.
  destruct (readValuePageRefs_ok index_ payload' Hok Hm) as (Er & bs & Eh & Ea). split.
  { destruct (pageIndex_reads index_ Hok) as (head & pages & Em & _). rewrite Em in Hm. injection Hm as <-. by eexists. }
  unfold readValuePagesFromIndexPayload. eapply yields_bind.
  { apply yields_pure. unfold scanValuePageIndexCoverage. rewrite Er. cbn [mbind outcome_bind]. unfold coverage. reflexivity. }
  cbn beta iota. unfold readScannedPages. cbn [ph_fieldID ph_fieldType ph_count ph_pageCount index_header].
  rewrite Ei, Et, En. set (fullRange := (0 <? len (pi_Pages index_)) && _).
  set (matching := filter _ (pi_Pages index_)). unfold strict_column in Hsort. rewrite <- Hc in Hsort, Hf |- *.
  pose proof (len_nonneg (concat chunks)) as Hn0. pose proof (len_nonneg matching) as Hm0.
  assert (0 <= (if fullRange then len (concat chunks) else matchingValuePageCapacity (index_header index_) (len matching))
    <= len (concat chunks)) as Hcap.
  { destruct fullRange; [lia|]. unfold matchingValuePageCapacity. cbn [ph_pageCount ph_count index_header]. rewrite En, <- Hc.
    destruct (_ || _ || _) eqn:Eor; [lia|]. apply orb_false_iff in Eor as [[Hp0 _]%orb_false_iff _]. apply Z.eqb_neq in Hp0.
    pose proof (len_nonneg (pi_Pages index_)) as Hpg.
    pose proof (chunks_count _ _ _ _ HF) as Hcount.
    assert (len matching <= len (pi_Pages index_)) as Hml by (unfold matching, len; pose proof (length_filter (fun page => valuePageMatchesQuery page (cd_FieldID c) (cd_FieldType c) query) (pi_Pages index_)); lia).
    rewrite (i64_id (len (concat chunks) + len (pi_Pages index_) - 1)) by (unfold is_i64; alloc_lia).
    rewrite Z.quot_div_nonneg by lia.
    set (avg := (len (concat chunks) + len (pi_Pages index_) - 1) / len (pi_Pages index_)).
    assert (0 <= avg <= len (concat chunks)) as Havg.
    { unfold avg. split; [apply Z.div_pos; lia|]. apply Z.div_le_upper_bound; [lia|]. unfold len in *. nia. }
    assert (0 <= len matching * avg <= 2 * len (concat chunks)) as Hprod.
    { split; [nia|]. transitivity (len (pi_Pages index_) * avg); [nia|].
      etransitivity; [apply Z.mul_div_le; lia|]. unfold len in *. lia. }
    rewrite i64_id by (unfold is_i64; alloc_lia).
    destruct (_ <? _) eqn:El; [lia|]. apply Z.ltb_ge in El. lia. }
  eapply yields_bind; [apply yields_pure, make_slice_ok; [lia|unfold sampleSize; alloc_lia]|].
  zcase (len matching =? 0).
  { rewrite (pages_skipped pl (cd_FieldType c) (cd_FieldID c) _ _ _ Hq HF (sorted_chunks _ Hsort)).
    { unfold columnWith. cbn [ph_fieldID ph_fieldType index_header]. rewrite Ei, Et. apply yields_ret. }
    fold matching. destruct matching; [done|]. unfold len in *. simpl in *. lia. }
  destruct Hq as [Hq1 Hq2 Hq3]. pose proof (Build_plain_query _ Hq1 Hq2 Hq3) as Hq. rewrite Hq1. cbn [boundaryModeEnabled].
  destruct fullRange eqn:Efr.
  - eapply yields_bind; [by eapply readPages_yields|]. unfold columnWith. cbn [ph_fieldID ph_fieldType index_header].
    rewrite Ei, Et. apply yields_ret.
  - eapply yields_bind; [apply yields_pure, Eh|]. cbn beta iota. rewrite count_nat.
    eapply yields_bind.
    { apply (readMatchingPages_yields pl (index_header index_) (pi_Pages index_) chunks); try done.
      cbn [ph_fieldType index_header]. by rewrite Et. }
    cbn beta iota. eapply yields_bind; [by apply yields_pure|]. unfold orderSamples.
    rewrite samplesSorted_strict by by apply StronglySorted_filter. unfold columnWith. cbn [ph_fieldID ph_fieldType index_header negb].
    rewrite Ei, Et. apply yields_ret.
Qed.
End read.

(** * Rows and queries of a written part *)
(** ** What is expected of a row *)
Lemma rowExpected_cons query c columns : rowExpected query (c :: columns) =
  if containsField (sq_FieldIDs query) (cd_FieldID c) then
    if 0 <? len (filter (in_window query) (cd_Samples c)) then windowed query c :: rowExpected query columns
    else rowExpected query columns
  else rowExpected query columns.
Proof.
  unfold rowExpected. rewrite filter_cons. destruct (containsField _ _); simpl; [|done].
  rewrite filter_cons. simpl. by destruct (0 <? _).
Qed.
Lemma rowExpected_filter query columns :
  rowExpected query (filter (fun c => containsField (sq_FieldIDs query) (cd_FieldID c)) columns) = rowExpected query columns.
Proof.
  unfold rowExpected. do 2 f_equal. induction columns as [|c l IH]; [done|]. rewrite !filter_cons.
  destruct (containsField _ _) eqn:E; simpl; [|done]. rewrite filter_cons, E. simpl. by f_equal.
Qed.
Lemma rowExpected_none query columns : (forall c s, c ∈ columns -> s ∈ cd_Samples c -> in_window query s = false) ->
  rowExpected query columns = [].
Proof.
  intros Hn. induction columns as [|c l IH]; [done|]. rewrite rowExpected_cons, IH by (intros d s Hd; apply Hn; by right).
  rewrite keep_none; [by destruct (containsField _ _)|]. apply Forall_forall. intros s. apply Hn. left.
Qed.
Lemma placedExpected_skipped `{lib : PayloadLib} times values query pl : placed_ok times values pl ->
  rowMatches (pl_row pl) query = false -> placedExpected query pl = [].
Proof.
  intros [_ _ _ Hb _ _ _ _ _]. unfold rowMatches, placedExpected. destruct (containsSeries _ _); simpl; [|done].
  intros Hm. apply rowExpected_none. intros c s Hc Hs. specialize (Hb c s Hc Hs). unfold in_window, in_range.
  apply andb_false_iff in Hm. apply andb_false_iff. rewrite !Z.leb_gt in *. destruct Hm; [left|right]; lia.
Qed.
Lemma rowMatches_expected query pl : rowMatches (pl_row pl) query = true -> placedExpected query pl = rowExpected query (pl_columns pl).
Proof. unfold rowMatches, placedExpected. by destruct (containsSeries _ _). Qed.

Section rows.
Context `{lib : PayloadLib} `{!PayloadLaws lib} `{GoRuntimeLaws} `{FramePoolLaws}.
Context (p : Part) (files : partReadFiles) (index times values : bytes) (layout : list placed).
Context (Hp : readable p files index times values layout).
Notation inv := (coherent files values layout).

Lemma layout_ok pl : pl ∈ layout -> placed_ok times values pl.
Proof. intros Hpl. pose proof (rb_layout _ _ _ _ _ _ Hp) as HF. rewrite Forall_forall in HF. by apply HF. Qed.

(** ** Columns of a row *)
Lemma ensureRow_yields pl rowTimestamps : pl ∈ layout -> rowTimestamps = None \/ rowTimestamps = Some (pl_times pl) ->
  yields inv (ensureRowTimestamps p (ir_TimeRef (pl_row pl)) rowTimestamps) (pl_times pl).
Proof. intros Hpl [->| ->]; [by eapply readTimeBlock_yields|apply yields_ret]. Qed.
Lemma readColumn_yields pl c ref seriesID rowTimestamps query : pl ∈ layout -> plain_query query ->
  column_at values (pl_times pl) (pl_lo pl) (pl_hi pl) c ref ->
  rowTimestamps = None \/ rowTimestamps = Some (pl_times pl) ->
  yields inv (readValueColumnLazyTime p seriesID ref (ir_TimeRef (pl_row pl)) rowTimestamps query)
    (mkColumnData seriesID (cd_FieldID c) (cd_FieldType c) (filter (in_window query) (cd_Samples c)), Some (pl_times pl)).
Proof.
  intros Hpl Hq Hc Hr. pose proof (ca_index _ _ _ _ _ _ Hc) as (index_ & payload & chunks & Hb & _).
  destruct (readIndexPages_yields _ _ _ _ _ _ Hp pl c ref seriesID payload query Hpl Hq Hc Hb) as [[rest Eh] Hy].
  unfold readValueColumnLazyTime. eapply yields_bind; [by eapply readBlockPayload_yields, values_block|]. cbn zeta.
  subst payload. cbn [head]. rewrite bool_decide_true by done.
  eapply yields_bind; [by apply ensureRow_yields|]. eapply yields_bind; [by apply yields_wrap|]. apply yields_ret.
Qed.
Lemma queryColumns_yields pl columns refs query : pl ∈ layout -> plain_query query ->
  Forall2 (column_at values (pl_times pl) (pl_lo pl) (pl_hi pl)) columns refs ->
  Forall (fun c => cd_SeriesID c = ir_SeriesID (pl_row pl)) columns -> forall rowTimestamps,
  rowTimestamps = None \/ rowTimestamps = Some (pl_times pl) ->
  yields inv (queryColumns p (ir_SeriesID (pl_row pl)) (ir_TimeRef (pl_row pl)) refs rowTimestamps query) (rowExpected query columns).
Proof.
  intros Hpl Hq HF. induction HF as [|c ref columns refs Hc HF IH]; intros Hid rowTimestamps Hr; [apply yields_ret|].
  apply Forall_cons in Hid as [Hid1 Hid]. cbn [queryColumns]. rewrite (ca_id _ _ _ _ _ _ Hc), rowExpected_cons.
  destruct (containsField _ _); cbn [negb]; [|by apply IH].
  eapply yields_bind; [by apply readColumn_yields|]. cbn beta iota. eapply yields_bind; [by apply IH; [|right]|].
  cbn [cd_Samples]. unfold windowed. rewrite Hid1. destruct (0 <? _); apply yields_ret.
Qed.
Lemma queryRow_yields pl query : pl ∈ layout -> plain_query query ->
  yields inv (queryRow p (pl_row pl) query) (rowExpected query (pl_columns pl)).
Proof. intros Hpl Hq. apply queryColumns_yields; try done; [apply layout_ok, Hpl..|by left]. Qed.
(** Only the columns the field filter lets through are looked at. *)
Lemma Forall2_filter_columns lo hi row (f : Z -> bool) columns refs : Forall2 (column_at values row lo hi) columns refs ->
  Forall2 (column_at values row lo hi) (filter (fun c => f (cd_FieldID c)) columns) (filter (fun r => f (cr_FieldID r)) refs).
Proof.
  induction 1 as [|c r columns refs Hc HF IH]; [constructor|]. rewrite !filter_cons, (ca_id _ _ _ _ _ _ Hc).
  destruct (f (cd_FieldID c)); simpl; [by constructor|done].
Qed.
Lemma queryFilteredRow_yields pl query : pl ∈ layout -> plain_query query ->
  let refs := filter (fun r => containsField (sq_FieldIDs query) (cr_FieldID r)) (ir_Columns (pl_row pl)) in
  yields inv (queryRow p (header_row (row_header (pl_row pl)) refs) (streamQuery query)) (rowExpected query (pl_columns pl)).
Proof.
  intros Hpl Hq refs. pose proof (layout_ok pl Hpl) as []. rewrite <- rowExpected_filter.
  change (rowExpected query ?l) with (rowExpected (streamQuery query) l).
  apply queryColumns_yields; [done|by apply streamQuery_plain|by apply Forall2_filter_columns| |by left].
  rewrite Forall_forall in pd_series |- *. intros c [_ Hc]%list_elem_of_filter. by apply pd_series.
Qed.

(** ** Index rows *)
Lemma block_ref_ok file ref payload : len file <= maxInt -> block_at file ref payload -> ref_ok ref.
Proof.
  intros Hv [Hsz (before & after & Ef & Ho) Hl]. pose proof (len_nonneg before). pose proof (len_nonneg payload).
  pose proof (len_nonneg after). rewrite Ef, !len_app, blockFrame_len in Hv. unfold ref_ok. rewrite Hsz, Ho. lia.
Qed.
Lemma placed_row_ok pl : pl ∈ layout -> indexRow_ok (pl_row pl).
Proof.
  intros Hpl. destruct (layout_ok pl Hpl) as []. destruct (rb_sizes _ _ _ _ _ _ Hp) as (Hv & Ht & _).
  split; [done|apply sane_i64, pd_range|apply sane_i64, pd_range|by eapply block_ref_ok| |].
  - clear -pd_columns Hv. induction pd_columns as [|c r cs rs [(index_ & payload & _ & Hb & _) Hi Hty Hu Hby _ _ _] HF IH]; constructor; [|done].
    split_and!; [by rewrite Hi|by rewrite Hty|by eapply block_ref_ok].
  - apply Forall2_length in pd_columns. unfold len in *. by rewrite <- pd_columns.
Qed.
End rows.

(** * A part answers queries

    Through the index stream and through the series index, the columns of a
    query are the expected ones in key order, and they answer the query for the
    versions the part stores ([StoreSpec.answers]). *)
Definition seriesOf (pl : placed) : Z := ir_SeriesID (pl_row pl).
Definition allExpected (query : StorageQuery) (layout : list placed) : list ColumnData :=
  concat (placedExpected query <$> layout).
Definition storedColumns (layout : list placed) : list ColumnData := concat (pl_columns <$> layout).
Definition series_lt (a b : placed) : Prop := seriesOf a < seriesOf b.
Lemma allExpected_cons query pl layout : allExpected query (pl :: layout) = placedExpected query pl ++ allExpected query layout.
Proof. done. Qed.

(** ** Order *)
Lemma rowExpected_elem query columns c : c ∈ rowExpected query columns <->
  exists d, d ∈ columns /\ containsField (sq_FieldIDs query) (cd_FieldID d) = true /\ c = windowed query d /\ cd_Samples c <> [].
Proof.
  unfold rowExpected. rewrite list_elem_of_filter, list_elem_of_fmap. setoid_rewrite list_elem_of_filter.
  assert (Is_true (0 <? len (cd_Samples c)) <-> cd_Samples c <> []) as ->.
  { rewrite Is_true_true, Z.ltb_lt. unfold len. destruct (cd_Samples c); simpl; split; [lia|congruence|done|lia]. }
  setoid_rewrite Is_true_true. naive_solver.
Qed.
Lemma rowExpected_sorted query columns : StronglySorted field_lt columns -> StronglySorted field_lt (rowExpected query columns).
Proof.
  induction 1 as [|c l Hs IH HF]; [constructor|]. rewrite rowExpected_cons.
  destruct (containsField _ _); [|done]. destruct (0 <? _); [|done]. constructor; [done|].
  rewrite Forall_forall in HF |- *. intros d (e & He & _ & -> & _)%rowExpected_elem. exact (HF e He).
Qed.
Lemma placedExpected_key `{lib : PayloadLib} times values query pl c : placed_ok times values pl -> c ∈ placedExpected query pl -> cd_SeriesID c = seriesOf pl.
Proof.
  intros [_ _ _ _ _ Hid _ _ _]. unfold placedExpected. destruct (containsSeries _ _); [|by intros ?%elem_of_nil].
  intros (d & Hd & _ & -> & _)%rowExpected_elem. rewrite Forall_forall in Hid. exact (Hid d Hd).
Qed.
Lemma field_column_sorted id l : Forall (fun c => cd_SeriesID c = id) l -> StronglySorted field_lt l -> StronglySorted column_lt l.
Proof.
  intros Hid Hs. eapply StronglySorted_impl_in; [|exact Hs]. intros x y Hx Hy Hf. rewrite Forall_forall in Hid.
  right. simpl. by rewrite (Hid x Hx), (Hid y Hy).
Qed.
Lemma placedExpected_sorted `{lib : PayloadLib} times values query pl : placed_ok times values pl -> StronglySorted column_lt (placedExpected query pl).
Proof.
  intros Hok. apply (field_column_sorted (seriesOf pl)).
  - apply Forall_forall. intros c. by eapply placedExpected_key.
  - unfold placedExpected. destruct (containsSeries _ _); [|constructor]. by apply rowExpected_sorted, Hok.
Qed.
Lemma StronglySorted_app_2' {A} (R : relation A) l1 l2 : StronglySorted R l1 -> StronglySorted R l2 ->
  (forall x y, x ∈ l1 -> y ∈ l2 -> R x y) -> StronglySorted R (l1 ++ l2).
Proof.
  induction 1 as [|x l1 Hs IH HF]; intros H2 Hxy; [done|]. simpl. constructor.
  - apply IH; [done|]. intros a b Ha. apply Hxy. by right.
  - apply Forall_app. split; [done|]. apply Forall_forall. intros y. apply Hxy. left.
Qed.
Lemma allExpected_sorted `{lib : PayloadLib} times values query layout : Forall (placed_ok times values) layout ->
  StronglySorted series_lt layout -> StronglySorted column_lt (allExpected query layout).
Proof.
  intros HF Hs. induction Hs as [|pl layout Hs IH Hlt]; [constructor|]. apply Forall_cons in HF as [Hok HF].
  rewrite allExpected_cons. apply StronglySorted_app_2'; [by eapply placedExpected_sorted|by apply IH|].
  intros x y Hx Hy. apply elem_of_concat in Hy as (l & Hy & Hl). apply list_elem_of_fmap in Hl as (pl' & -> & Hpl').
  rewrite Forall_forall in HF, Hlt. left. simpl. rewrite (placedExpected_key _ _ _ _ _ Hok Hx), (placedExpected_key _ _ _ _ _ (HF pl' Hpl') Hy).
  by apply Hlt.
Qed.

Section sort.
  Context `{GoRuntimeLaws}.
Lemma sortColumns_id l : StronglySorted column_lt l -> sortColumns l = l.
Proof.
  intros Hs. apply (sorted_perm_unique column_lt); [|done|apply sort_Slice_perm].
  assert (sortColumns l ≡ₚ l) as Hp by apply sort_Slice_perm.
  assert (NoDup (keyOf <$> l)) as Hn.
  { clear -Hs. induction Hs as [|c l Hs IH HF]; [constructor|]. rewrite fmap_cons. constructor; [|done].
    intros (d & E & Hd)%list_elem_of_fmap. rewrite Forall_forall in HF. specialize (HF d Hd). unfold column_lt in HF.
    rewrite E in HF. by apply (irreflexivity key_lt) in HF. }
  pose proof (sort_Slice_sorted columnDataLess l (weak_order_lex cd_SeriesID cd_FieldID)) as Hso. fold (sortColumns l) in Hso.
  rewrite <- Hp in Hn. clear Hp Hs. induction Hso as [|c m Hso IH HF]; [constructor|].
  rewrite fmap_cons in Hn. apply NoDup_cons in Hn as [Hc Hn]. constructor; [by apply IH|].
  rewrite Forall_forall in HF |- *. intros d Hd. specialize (HF d Hd). unfold not_after, columnDataLess in HF.
  assert (keyOf c <> keyOf d) as Hne by (intros E; apply Hc; rewrite E; apply list_elem_of_fmap; by exists d).
  unfold column_lt, key_lt, keyOf in *. simpl in *.
  zcase (cd_SeriesID d =? cd_SeriesID c); simpl in HF; apply Z.ltb_ge in HF; [|lia].
  destruct (decide (cd_FieldID c = cd_FieldID d)); [exfalso; apply Hne; congruence|lia].
Qed.
End sort.

(** ** The expected columns answer the query *)
Lemma allExpected_answers `{lib : PayloadLib} times values schema query layout : Forall (placed_ok times values) layout ->
  StronglySorted series_lt layout -> (forall c, c ∈ storedColumns layout -> cd_FieldType c = schema (keyOf c)) ->
  (forall c, c ∈ storedColumns layout -> strict_column c) ->
  answers schema query (fun k => of_column k (storedColumns layout)) (allExpected query layout).
Proof.
  intros HF Hs Hsch Hstrict. pose proof HF as HF'. rewrite Forall_forall in HF'.
  assert (StronglySorted column_lt (storedColumns layout)) as Hsort.
  { clear Hsch Hstrict HF'. induction Hs as [|pl layout Hs IH Hlt]; [constructor|]. apply Forall_cons in HF as [Hok HF].
    unfold storedColumns. rewrite fmap_cons. simpl. apply StronglySorted_app_2'; [|by apply IH|].
    - by apply (field_column_sorted (seriesOf pl)); apply Hok.
    - intros x y Hx Hy. apply elem_of_concat in Hy as (l & Hy & Hl). apply list_elem_of_fmap in Hl as (pl' & -> & Hpl').
      rewrite Forall_forall in HF, Hlt. left. simpl. destruct Hok as [_ _ _ _ _ Hid _ _ _]. destruct (HF pl' Hpl') as [_ _ _ _ _ Hid' _ _ _].
      rewrite Forall_forall in Hid, Hid'. rewrite (Hid x Hx), (Hid' y Hy). by apply Hlt. }
  assert (forall c, c ∈ storedColumns layout -> of_column (keyOf c) (storedColumns layout) = cd_Samples c) as Hof.
  { intros c Hc. apply list_elem_of_split in Hc as (l1 & l2 & E). rewrite E in Hsort |- *. by apply of_column_unique. }
  assert (forall c, c ∈ allExpected query layout <->
    exists d, d ∈ storedColumns layout /\ selects query (keyOf d) = true /\ c = windowed query d /\ cd_Samples c <> []) as Hel.
  { intros c. unfold allExpected, storedColumns. rewrite elem_of_concat. setoid_rewrite elem_of_concat.
    setoid_rewrite list_elem_of_fmap. split.
    - intros (l & Hc & pl & -> & Hpl). unfold placedExpected in Hc. destruct (containsSeries _ _) eqn:Ec; [|by apply elem_of_nil in Hc].
      apply rowExpected_elem in Hc as (d & Hd & Hf & -> & Hne). exists d. split_and!; [by eauto| |done|done].
      destruct (HF' pl Hpl) as [_ _ _ _ _ Hid _ _ _]. rewrite Forall_forall in Hid. unfold selects. simpl. by rewrite (Hid d Hd), Ec.
    - intros (d & (l & Hd & pl & -> & Hpl) & Hsel & -> & Hne). exists (placedExpected query pl). split; [|by eauto].
      destruct (HF' pl Hpl) as [_ _ _ _ _ Hid _ _ _]. rewrite Forall_forall in Hid. unfold selects in Hsel. simpl in Hsel.
      rewrite (Hid d Hd) in Hsel. apply andb_true_iff in Hsel as [Hc Hf]. unfold placedExpected. rewrite Hc.
      apply rowExpected_elem. by exists d. }
  split; [by eapply allExpected_sorted|..].
  - intros c (d & Hd & Hsel & -> & Hne)%Hel. split_and!; [done|exact (Hsch d Hd)|done|].
    change (keyOf (windowed query d)) with (keyOf d). rewrite Hof by done. apply resolves_self. apply StronglySorted_filter. by apply Hstrict.
  - intros k s Hsel [Hw Hin]%list_elem_of_filter. unfold of_column in Hin. apply elem_of_concat in Hin as (l & Hin & Hl).
    apply list_elem_of_fmap in Hl as (d & -> & Hd). apply list_elem_of_filter in Hd as [Hk Hd].
    exists (windowed query d). split; [|done]. apply Hel. exists d. rewrite Hk. split_and!; try done. simpl.
    intros E. apply (not_elem_of_nil s). rewrite <- E. by apply list_elem_of_filter.
Qed.

(** ** Binary search for an id *)
Lemma sorted_lookup_lt (ids : list Z) i j x y : StronglySorted Z.lt ids -> ids !! i = Some x -> ids !! j = Some y -> (i < j)%nat -> x < y.
Proof.
  intros Hs Hi Hj Hij. apply (StronglySorted_app_1_elem_of Z.lt (take j ids) (drop j ids)).
  - by rewrite take_drop.
  - apply list_elem_of_lookup. exists i. by rewrite lookup_take_lt by lia.
  - apply list_elem_of_lookup. exists 0%nat. by rewrite lookup_drop, Nat.add_0_r.
Qed.
Lemma searchID_found (ids : list Z) at_ id : (forall i, at_ i = idx ids i) -> StronglySorted Z.lt ids ->
  (exists i, ids !! i = Some id /\ searchID (len ids) at_ id = Ok (Some (Z.of_nat i))) \/
  (id ∉ ids /\ searchID (len ids) at_ id = Ok None).
Proof.
  intros Hat Hs. unfold searchID.
  assert (forall h, 0 <= h < len ids -> exists v, ids !! Z.to_nat h = Some v /\ at_ h = Ok v) as Hget.
  { intros h Hh. destruct (lookup_lt_is_Some_2 ids (Z.to_nat h)) as [v Hv]; [unfold len in *; lia|].
    exists v. split; [done|]. rewrite Hat. by apply idx_Z; [lia|]. }
  destruct (sort_Search_spec (fun index => v ← at_ index; Ok (id <=? v))
    (fun h => match ids !! Z.to_nat h with Some v => id <=? v | None => true end) (len ids)) as (r & Er & Hr & Hlo & Hhi).
  - apply len_nonneg.
  - intros h Hh. destruct (Hget h Hh) as (v & Hv & ->). simpl. by rewrite Hv.
  - intros i j H0 Hij Hj. destruct (Hget i) as (x & Hx & _); [lia|]. destruct (Hget j) as (y & Hy & _); [lia|]. rewrite Hx, Hy.
    rewrite !Z.leb_le. intros Hle. destruct (decide (i = j)) as [->|]; [congruence|].
    pose proof (sorted_lookup_lt ids _ _ _ _ Hs Hx Hy ltac:(lia)). lia.
  - rewrite Er. cbn [mbind outcome_bind].
    assert (forall i, ids !! i = Some id -> Z.of_nat i = r) as Hat_id.
    { intros i Hi. apply lookup_lt_Some in Hi as Hil. destruct (Z.lt_trichotomy (Z.of_nat i) r) as [Hlt|[->|Hgt]]; [|done|].
      - specialize (Hlo (Z.of_nat i) ltac:(lia)). simpl in Hlo. rewrite Nat2Z.id, Hi in Hlo. apply Z.leb_gt in Hlo. lia.
      - destruct (Hget r ltac:(unfold len; lia)) as (x & Hx & _).
        specialize (Hhi r ltac:(unfold len in *; lia)). simpl in Hhi. rewrite Hx in Hhi. apply Z.leb_le in Hhi.
        pose proof (sorted_lookup_lt ids _ _ _ _ Hs Hx Hi ltac:(lia)). lia. }
    zcase (len ids <=? r).
    + right. split; [|done]. intros (i & Hi)%list_elem_of_lookup. pose proof (Hat_id i Hi). apply lookup_lt_Some in Hi. unfold len in *. lia.
    + destruct (Hget r ltac:(lia)) as (v & Hv & ->). cbn [mbind outcome_bind]. zcase (v =? id).
      * subst v. left. exists (Z.to_nat r). split; [done|]. by rewrite Z2Nat.id by lia.
      * right. split; [|done]. intros (i & Hi)%list_elem_of_lookup. pose proof (Hat_id i Hi) as <-. rewrite Nat2Z.id in Hv. congruence.
Qed.

(** ** Selecting rows by a sorted list of ids *)
Lemma filter_ids_cons {A} (f : A -> Z) (l : list A) id ids : StronglySorted (fun a b => f a < f b) l -> Forall (fun i => id < i) ids ->
  filter (fun a => f a ∈ id :: ids) l = filter (fun a => f a = id) l ++ filter (fun a => f a ∈ ids) l.
Proof.
  intros Hs Hid. rewrite Forall_forall in Hid. induction Hs as [|a l Hs IH HF]; [done|]. rewrite !filter_cons, IH. clear IH.
  destruct (decide (f a = id)) as [E|Hne].
  - rewrite decide_True by (rewrite E; left). rewrite decide_False; [done|]. intros Hin%Hid. lia.
  - destruct (decide (f a ∈ ids)) as [Hin|Hnin].
    + rewrite decide_True by by right. replace (filter (fun x => f x = id) l) with (@nil A); [done|].
      symmetry. rewrite Forall_forall in HF. assert (forall x, x ∈ l -> f x <> id) as Hn.
      { intros x Hx E. specialize (HF x Hx). specialize (Hid _ Hin). lia. }
      clear -Hn. induction l as [|x l IH]; [done|]. rewrite filter_cons, decide_False by (apply Hn; left).
      apply IH. intros y Hy. apply Hn. by right.
    + by rewrite decide_False by (intros [E|?]%elem_of_cons; done).
Qed.
Lemma filter_ids_concat {A} (f : A -> Z) (l : list A) ids : StronglySorted (fun a b => f a < f b) l -> StronglySorted Z.lt ids ->
  concat ((fun id => filter (fun a => f a = id) l) <$> ids) = filter (fun a => f a ∈ ids) l.
Proof.
  intros Hs. induction 1 as [|id ids Hids IH HF]; simpl.
  - symmetry. induction l as [|a l IHl]; [done|]. rewrite filter_cons, decide_False by apply not_elem_of_nil. apply IHl. by inversion Hs.
  - by rewrite (filter_ids_cons f l id ids Hs HF), <- IH.
Qed.
Lemma filter_id_lookup {A} (f : A -> Z) (l : list A) i a : StronglySorted (fun a b => f a < f b) l -> l !! i = Some a ->
  filter (fun b => f b = f a) l = [a].
Proof.
  intros Hs Hi. apply list_elem_of_split_length in Hi as (l1 & l2 & -> & _).
  assert (forall m, (forall b, b ∈ m -> f b <> f a) -> filter (fun b => f b = f a) m = []) as Hnone.
  { induction m as [|x m IH]; intros Hm; [done|]. rewrite filter_cons, decide_False by (apply Hm; left). apply IH. intros b Hb. apply Hm. by right. }
  rewrite filter_app, filter_cons, decide_True by done. rewrite !Hnone; [done|..].
  - apply StronglySorted_app_1_r, StronglySorted_inv in Hs as [_ HF]. rewrite Forall_forall in HF. intros b Hb. specialize (HF b Hb). lia.
  - intros b Hb. assert (f b < f a); [|lia]. by apply (StronglySorted_app_1_elem_of (fun a b => f a < f b) l1 (a :: l2)); [done|done|left].
Qed.
