(* ===== verification/SstIndexed.v ===== *)
(** * Queries over the indexes of a part

    The index stream and the series index lead to the same rows, so a query
    yields the expected columns whichever way it takes; a scan yields the same
    columns one at a time. *)
From S2P Require Import Prelude GoBinary Model Codec Readers SstTime SstTimeProofs SstValues SstValuesProofs SstSamples SstPage SstPageProofs Runtime Versions MemCompact StoreSpec EngineMerge Tombstones QueryMerge SstMeta SstPlain SstPack SstCache SstRead SstScan SstLayout SstPlaced SstReadProofs.
From stdpp Require Import prelude strings list sorting gmap.
From Stdlib Require Import ZArith Lia.
#[local] Open Scope Z_scope.

(** ** The envelope holds its payload *)
Lemma copy_at_length at_ src dst : (at_ <= length dst)%nat -> length (copy_at at_ src dst) = length dst.
Proof. intros Hl. unfold copy_at. rewrite !length_app, !length_take, length_drop. lia. Qed.
Lemma finishEnvelope_length magic payload :
  len payload <= len (finishEnvelope (appendEnvelopePrefix magic ++ payload) (len (appendEnvelopePrefix magic))).
Proof.
  unfold finishEnvelope. set (prefix := appendEnvelopePrefix magic). set (u := appendUvarint _).
  assert (length u <= 10)%nat as Hu by apply (uvarint_groups_length 9).
  assert (10 <= len prefix) as Hp.
  { unfold prefix, appendEnvelopePrefix, len. rewrite !length_app, length_replicate. change (Z.to_nat envelopeReservedLenBytes) with 10%nat. lia. }
  change envelopeReservedLenBytes with 10. rewrite len_app. set (cut := take _ _).
  assert (length cut = Z.to_nat (len (prefix ++ payload) - (10 - len u))) as Hc.
  { unfold cut. rewrite length_take, copy_at_length by (unfold len in *; rewrite length_app; lia). unfold len in *. rewrite length_app. lia. }
  unfold len at 2. rewrite copy_at_length by (rewrite Hc; unfold len in *; rewrite length_app; lia).
  rewrite Hc. unfold len in *. rewrite !length_app. lia.
Qed.
Lemma rows_len_payload rows payload : encodeIndexRowsInto rows = Ok payload -> rows_len rows <= len payload.
Proof.
  unfold encodeIndexRowsInto, rows_len. destruct (appendEach _ rows) as [bs| |]; [|done..]. intros [= <-]. apply finishEnvelope_length.
Qed.
Lemma block_at_len file ref payload : block_at file ref payload -> len payload <= len file.
Proof.
  intros [_ (before & after & -> & _) _]. rewrite !len_app, blockFrame_len.
  pose proof (len_nonneg before). pose proof (len_nonneg after). lia.
Qed.

(** ** What the field filter skips *)
Lemma StronglySorted_keep {A} (R : relation A) (P : A -> Prop) `{!forall a, Decision (P a)} l :
  StronglySorted R l -> StronglySorted R (filter P l).
Proof.
  induction 1 as [|x l Hs IH HF]; [constructor|]. rewrite filter_cons. case_decide; [|done]. constructor; [done|].
  rewrite Forall_forall in HF |- *. intros y [_ Hy]%list_elem_of_filter. by apply HF.
Qed.
Lemma len_none {A} (l : list A) : (len l =? 0) = true -> l = [].
Proof. rewrite Z.eqb_eq. destruct l; [done|]. unfold len. simpl. lia. Qed.
Lemma rowExpected_fields query columns : sq_FieldIDs query <> ∅ ->
  (forall c, c ∈ columns -> cd_FieldID c ∉ sq_FieldIDs query) -> rowExpected query columns = [].
Proof.
  intros Hne Hn. induction columns as [|c l IH]; [done|]. rewrite rowExpected_cons, IH by (intros d Hd; apply Hn; by right).
  assert (containsField (sq_FieldIDs query) (cd_FieldID c) = false) as ->; [|done].
  unfold containsField. rewrite bool_decide_false by done. apply bool_decide_false, Hn. left.
Qed.
Lemma existsb_none (ids : list Z) (filter : gset Z) : existsb (fun id => bool_decide (id ∈ filter)) ids = false ->
  forall id, id ∈ ids -> id ∉ filter.
Proof.
  intros He id Hid Hin. assert (existsb (fun id => bool_decide (id ∈ filter)) ids = true); [|congruence].
  apply existsb_exists. exists id. split; [by apply list_elem_of_In|by apply bool_decide_true].
Qed.

Section indexed.
Context `{lib : PayloadLib} `{!PayloadLaws lib} `{GoRuntimeLaws} `{FramePoolLaws}.
Context (p : Part) (files : partReadFiles) (index times values : bytes) (layout : list placed).

(** A row of the series index leads to a row of the layout. *)
Record index_of (pl : placed) (row : seriesIndexRow) : Prop := {
  io_id : si_SeriesID row = seriesOf pl;
  io_minTime : si_MinTime row = ir_MinTime (pl_row pl);
  io_maxTime : si_MaxTime row = ir_MaxTime (pl_row pl);
  io_fields : forall c, c ∈ pl_columns pl -> cd_FieldID c ∈ si_FieldIDs row;
  io_block : exists payload, encodeIndexRowsInto [pl_row pl] = Ok payload /\ block_at index (si_IndexRef row) payload;
}.
(** The metadata covers a row. *)
Record meta_covers (meta : PartMeta) (metaRows : list metaIndexRow) (pl : placed) : Prop := {
  mc_minTime : pm_MinTime meta <= ir_MinTime (pl_row pl);
  mc_maxTime : ir_MaxTime (pl_row pl) <= pm_MaxTime meta;
  mc_series : pm_MinSeriesID meta <= seriesOf pl <= pm_MaxSeriesID meta;
  mc_fields : forall c, c ∈ pl_columns pl -> exists row, row ∈ metaRows /\ cd_FieldID c ∈ mi_FieldIDs row;
}.
Record indexed : Prop := {
  ix_readable : readable p files index times values layout;
  ix_all : exists payload, encodeIndexRowsInto (pl_row <$> layout) = Ok payload /\
    block_at index (md_IndexRef (pt_metadata p)) payload;
  ix_rows : Forall2 index_of layout (pt_seriesRows p);
  ix_sorted : StronglySorted series_lt layout;
  ix_fits : fits (len layout);
  ix_meta : Forall (meta_covers (Meta p) (pt_metaRows p)) layout;
}.
Context (Hix : indexed).
Notation inv := (coherent files values layout).
Let Hp : readable p files index times values layout := ix_readable Hix.

Lemma rows_encoded rows ref payload : encodeIndexRowsInto rows = Ok payload -> block_at index ref payload -> rows_len rows <= maxInt.
Proof.
  intros He%rows_len_payload Hb%block_at_len. destruct (rb_sizes _ _ _ _ _ _ Hp) as (_ & _ & Hi). lia.
Qed.
Lemma layout_rows_ok todo : todo ⊆ layout -> Forall indexRow_ok (pl_row <$> todo).
Proof.
  intros Hsub. apply Forall_forall. intros row (pl & -> & Hpl%Hsub)%list_elem_of_fmap. by eapply placed_row_ok.
Qed.

(** ** Through the index stream *)
Lemma openIndexRowStream_yields : exists s, yields inv (openIndexRowStream p) s /\ stream_at s (pl_row <$> layout).
Proof.
  destruct (ix_all Hix) as (payload & He & Hb).
  destruct (newIndexRowStream_at (pl_row <$> layout) payload) as (s & Es & Hs); [by apply layout_rows_ok| |by eapply rows_encoded|done|].
  { unfold len. rewrite length_fmap. apply (ix_fits Hix). }
  exists s. split; [|done]. unfold openIndexRowStream.
  eapply yields_bind; [by eapply readBlockPayload_yields, index_block|]. by apply yields_wrap, yields_pure.
Qed.
Lemma filtered_none pl query : pl ∈ layout ->
  filter (fun c => containsField (sq_FieldIDs query) (cr_FieldID c)) (ir_Columns (pl_row pl)) = [] ->
  rowExpected query (pl_columns pl) = [].
Proof.
  intros Hpl E. pose proof (layout_ok _ _ _ _ _ _ Hp pl Hpl) as Hok.
  pose proof (Forall2_filter_columns values _ _ _ (containsField (sq_FieldIDs query)) _ _ (pd_columns _ _ _ Hok)) as HF.
  rewrite E in HF. rewrite <- rowExpected_filter. by rewrite (Forall2_nil_inv_r _ _ HF).
Qed.
Lemma queryStream_yields query : plain_query query -> forall todo s, todo ⊆ layout -> stream_at s (pl_row <$> todo) ->
  yields inv (queryIndexRowStream (S (length todo)) p s query []) (allExpected query todo).
Proof.
  intros Hq. induction todo as [|pl todo IH]; intros s Hsub Hs; cbn [length queryIndexRowStream].
  { destruct (nextHeader_end s Hs) as [E1 E2]. eapply yields_bind; [by apply yields_wrap, yields_pure|]. cbn beta iota.
    eapply yields_bind; [by apply yields_wrap, yields_pure|]. apply yields_ret. }
  rewrite fmap_cons in Hs. assert (pl ∈ layout) as Hpl by (apply Hsub; left). assert (todo ⊆ layout) as Hsub' by (intros x Hx; apply Hsub; by right).
  destruct (nextHeader_row s _ _ Hs) as (s1 & E1 & Hcols & s3 & E3 & Hs3); [by eapply placed_row_ok|].
  eapply yields_bind; [by apply yields_wrap, yields_pure|]. cbn beta iota.
  change (rowHeaderMatches (row_header (pl_row pl)) query) with (rowMatches (pl_row pl) query).
  change (containsSortedSeriesIDOrAll [] _) with (@Ok bool true). rewrite allExpected_cons.
  destruct (rowMatches (pl_row pl) query) eqn:Em.
  - eapply yields_bind; [by apply yields_pure|]. cbn [negb]. destruct (Hcols (sq_FieldIDs query)) as (s2 & E2 & Hs2).
    rewrite (rowMatches_expected query pl Em).
    eapply (yields_bind _ _ _ (rowExpected query (pl_columns pl), s2)).
    { unfold queryIndexRowFromStream. eapply yields_bind; [by apply yields_wrap, yields_pure|]. cbn beta iota.
      destruct (len _ =? 0) eqn:El.
      - rewrite (filtered_none pl query Hpl) by by apply len_none. apply yields_ret.
      - eapply yields_bind; [by eapply queryFilteredRow_yields|]. apply yields_ret. }
    cbn beta iota. eapply yields_bind; [by apply IH|]. apply yields_ret.
  - eapply yields_bind; [by apply yields_pure|]. cbn [negb]. eapply yields_bind; [by apply yields_wrap, yields_pure|].
    rewrite (placedExpected_skipped times values query pl (layout_ok _ _ _ _ _ _ Hp pl Hpl) Em). by apply IH.
Qed.
Lemma queryIndexRows_yields query : plain_query query -> yields inv (queryIndexRows p query []) (allExpected query layout).
Proof.
  intros Hq. destruct openIndexRowStream_yields as (s & Ho & Hs). eapply yields_bind; [exact Ho|].
  eapply yields_bind.
  { replace (rowsFuel s) with (S (length layout)); [by apply queryStream_yields|].
    destruct Hs as [Hr _]. unfold rowsFuel. rewrite Hr. unfold len. rewrite length_fmap. lia. }
  rewrite (sortColumns_id _ (allExpected_sorted _ _ query layout (rb_layout _ _ _ _ _ _ Hp) (ix_sorted Hix))). apply yields_ret.
Qed.

(** ** Through the series index *)
Lemma readIndexRowBlock_yields pl row : pl ∈ layout -> index_of pl row ->
  yields inv (readIndexRowBlock p (si_IndexRef row)) (pl_row pl).
Proof.
  intros Hpl [_ _ _ _ (payload & He & Hb)]. unfold readIndexRowBlock.
  eapply yields_bind; [by eapply readBlockPayload_yields, index_block|].
  eapply (yields_bind _ _ _ [pl_row pl]); [|cbn beta iota; apply yields_ret]. apply yields_wrap, yields_pure.
  apply (indexRows_roundtrip [pl_row pl]); [|by_decide|by eapply rows_encoded|done].
  apply Forall_singleton. by eapply placed_row_ok.
Qed.
Lemma querySeriesRow_yields query pl row : plain_query query -> pl ∈ layout -> index_of pl row ->
  yields inv (querySeriesRow p query row) (placedExpected query pl).
Proof.
  intros Hq Hpl Hrow. eapply yields_bind; [by apply readIndexRowBlock_yields|].
  destruct (rowMatches (pl_row pl) query) eqn:Em; cbn [negb].
  - rewrite (rowMatches_expected _ _ Em). by eapply queryRow_yields.
  - rewrite (placedExpected_skipped times values query pl (layout_ok _ _ _ _ _ _ Hp pl Hpl) Em). apply yields_ret.
Qed.
Lemma seriesRow_skipped query pl row : pl ∈ layout -> index_of pl row -> seriesIndexRowMatches row query = false ->
  placedExpected query pl = [].
Proof.
  intros Hpl [_ Hmin Hmax Hf _]. unfold seriesIndexRowMatches. rewrite Hmin, Hmax.
  destruct (_ || _) eqn:Et.
  - intros _. apply (placedExpected_skipped times values query pl (layout_ok _ _ _ _ _ _ Hp pl Hpl)).
    unfold rowMatches. destruct (negb _); [done|]. rewrite orb_true_iff, !Z.ltb_lt in Et. apply andb_false_iff. rewrite !Z.leb_gt. lia.
  - case_bool_decide as He; [done|]. intros Hnone. unfold placedExpected. destruct (containsSeries _ _); [|done].
    apply rowExpected_fields; [done|]. intros c Hc%Hf. by eapply existsb_none.
Qed.

Lemma ids_sorted : StronglySorted Z.lt (map si_SeriesID (pt_seriesRows p)).
Proof.
  pose proof (ix_sorted Hix) as Hs. pose proof (ix_rows Hix) as HF'. revert Hs. clear Hp Hix. induction HF' as [|pl row l rows Hr HF IH]; intros Hs; [constructor|].
  apply StronglySorted_inv in Hs as [Hs Hlt]. simpl. constructor; [by apply IH|]. clear IH Hs.
  induction HF as [|pl' row' l rows Hr' HF IH]; constructor; apply Forall_cons in Hlt as [H1' H2']; [|by apply IH].
  rewrite (io_id _ _ Hr), (io_id _ _ Hr'). done.
Qed.
Lemma ids_layout id : id ∈ map si_SeriesID (pt_seriesRows p) <-> id ∈ seriesOf <$> layout.
Proof.
  pose proof (ix_rows Hix) as HF. clear Hp Hix. induction HF as [|pl row l rows Hr HF IH]; [done|]. simpl. rewrite !elem_of_cons, IH. by rewrite (io_id _ _ Hr).
Qed.
Lemma filter_id_none {A} (f : A -> Z) (l : list A) id : id ∉ f <$> l -> filter (fun a => f a = id) l = [].
Proof.
  intros Hn. induction l as [|a l IH]; [done|]. rewrite fmap_cons in Hn. apply not_elem_of_cons in Hn as [Hne Hn].
  rewrite filter_cons, decide_False by done. by apply IH.
Qed.
Lemma idx_seriesID (rows : list seriesIndexRow) i : (row ← idx rows i; Ok (si_SeriesID row)) = idx (map si_SeriesID rows) i.
Proof.
  unfold idx. case_bool_decide; [|done]. change (map si_SeriesID rows) with (si_SeriesID <$> rows). rewrite list_lookup_fmap.
  by destruct (rows !! _).
Qed.
(** The rows found for a list of ids, and the columns they lead to. *)
Lemma matchingRows_yields query : plain_query query -> forall ids, exists rows got,
  matchingSeriesRows (pt_seriesRows p) query ids = Ok rows /\ yields inv (step_list (querySeriesRow p query) rows) got /\
  concat got = concat ((fun id => allExpected query (filter (fun pl => seriesOf pl = id) layout)) <$> ids).
Proof.
  intros Hq. induction ids as [|id ids (rows & got & Er & Hy & Hc)].
  { exists [], []. split_and!; [done|apply yields_ret|done]. }
  cbn [matchingSeriesRows]. rewrite fmap_cons. cbn [concat].
  destruct (searchID_found (map si_SeriesID (pt_seriesRows p)) (fun i => row ← idx (pt_seriesRows p) i; Ok (si_SeriesID row)) id
    (idx_seriesID _) ids_sorted) as [(i & Hi & E)|[Hn E]];
    (assert (len (map si_SeriesID (pt_seriesRows p)) = len (pt_seriesRows p)) as El by (unfold len; by rewrite length_map));
    rewrite El in E; rewrite E; cbn [mbind outcome_bind]; rewrite Er.
  - change (map si_SeriesID (pt_seriesRows p)) with (si_SeriesID <$> pt_seriesRows p) in Hi.
    apply list_lookup_fmap_Some in Hi as (row & -> & Hrow).
    destruct (Forall2_lookup_r _ _ _ _ _ (ix_rows Hix) Hrow) as (pl & Hpl & Hof).
    assert (pl ∈ layout) as Hin by by eapply list_elem_of_lookup_2.
    rewrite (idx_Z _ _ row) by (lia || by rewrite Nat2Z.id). cbn [mbind outcome_bind].
    assert (allExpected query (filter (fun x => seriesOf x = si_SeriesID row) layout) = placedExpected query pl) as ->.
    { rewrite (io_id _ _ Hof), (filter_id_lookup seriesOf layout i pl) by (done || apply (ix_sorted Hix)).
      unfold allExpected. simpl. apply app_nil_r. }
    destruct (seriesIndexRowMatches row query) eqn:Em.
    + exists (row :: rows), (placedExpected query pl :: got). split_and!; [done| |simpl; by rewrite Hc].
      cbn [step_list]. eapply yields_bind; [by apply querySeriesRow_yields|]. eapply yields_bind; [exact Hy|]. apply yields_ret.
    + exists rows, got. split_and!; [done..|]. by rewrite (seriesRow_skipped query pl row) by done.
  - exists rows, got. split_and!; [done..|]. rewrite filter_id_none; [done|]. by rewrite <- ids_layout.
Qed.
Lemma allExpected_concat query {A} (l : list A) (f : A -> list placed) :
  concat ((fun a => allExpected query (f a)) <$> l) = allExpected query (concat (f <$> l)).
Proof.
  induction l as [|a l IH]; [done|]. rewrite !fmap_cons. cbn [concat]. rewrite IH. unfold allExpected. by rewrite fmap_app, concat_app.
Qed.
(** Rows the series filter leaves out contribute nothing. *)
Lemma allExpected_filter query (P : placed -> Prop) `{!forall pl, Decision (P pl)} l :
  (forall pl, pl ∈ l -> ~ P pl -> placedExpected query pl = []) -> allExpected query (filter P l) = allExpected query l.
Proof.
  induction l as [|pl l IH]; intros Hn; [done|]. rewrite allExpected_cons, filter_cons.
  assert (allExpected query (filter P l) = allExpected query l) as Hl by (apply IH; intros x Hx; apply Hn; by right).
  destruct (decide (P pl)) as [HP|HP]; [by rewrite allExpected_cons, Hl|]. by rewrite (Hn pl ltac:(left) HP).
Qed.
Lemma querySeriesIndexRows_yields query ids : plain_query query -> StronglySorted Z.lt ids -> ids <> [] ->
  yields inv (querySeriesIndexRows p query ids) (allExpected query (filter (fun pl => seriesOf pl ∈ ids) layout)).
Proof.
  intros Hq Hids Hne. destruct (matchingRows_yields query Hq ids) as (rows & got & Er & Hy & Hc).
  rewrite allExpected_concat, (filter_ids_concat seriesOf) in Hc by (done || apply (ix_sorted Hix)).
  unfold querySeriesIndexRows, matchingSeriesIndexRows.
  assert ((len ids =? 0) = false) as -> by (apply Z.eqb_neq; destruct ids; [done|]; unfold len; simpl; lia). cbn [orb].
  destruct (len (pt_seriesRows p) =? 0) eqn:Ez.
  - pose proof (ix_rows Hix) as HF. rewrite (len_none _ Ez) in HF. rewrite (Forall2_nil_inv_r _ _ HF). apply yields_ret.
  - eapply yields_bind; [apply yields_pure, Er|]. destruct (len rows =? 0) eqn:Ern.
    + rewrite (len_none _ Ern) in Hy. rewrite <- Hc. intros s Hs. destruct (Hy s Hs) as (s' & E & _). injection E as <- _.
      exists s. by split.
    + eapply yields_bind; [exact Hy|]. rewrite Hc.
      rewrite sortColumns_id; [apply yields_ret|]. apply (allExpected_sorted times values); [|by apply StronglySorted_keep, (ix_sorted Hix)].
      apply Forall_forall. intros pl [_ Hpl]%list_elem_of_filter. by eapply layout_ok.
Qed.

(** ** The part as a whole *)
Lemma partMatches_expected query pl : pl ∈ layout -> partMatches (Meta p) (pt_metaRows p) query = false -> placedExpected query pl = [].
Proof.
  intros Hpl. pose proof (ix_meta Hix) as HF. rewrite Forall_forall in HF. destruct (HF pl Hpl) as [Hmin Hmax Hser Hfld].
  unfold partMatches. destruct (_ || _) eqn:Et.
  { intros _. apply (placedExpected_skipped times values query pl (layout_ok _ _ _ _ _ _ Hp pl Hpl)).
    unfold rowMatches. destruct (negb _); [done|]. rewrite orb_true_iff, !Z.ltb_lt in Et. apply andb_false_iff. rewrite !Z.leb_gt. lia. }
  unfold placedExpected. destruct (partSeriesMatches _ _) eqn:Es; cbn [negb].
  - unfold partFieldsMatch. case_bool_decide as He; [done|]. cbn [orb]. destruct (len _ =? 0); [done|]. intros Hnone.
    destruct (containsSeries _ _); [|done]. apply rowExpected_fields; [done|]. intros c Hc Hin.
    destruct (Hfld c Hc) as (row & Hrow & Hid). apply not_true_iff_false in Hnone. apply Hnone. apply existsb_exists. exists row.
    split; [by apply list_elem_of_In|]. apply existsb_exists. exists (cd_FieldID c). split; [by apply list_elem_of_In|by apply bool_decide_true].
  - intros _. unfold partSeriesMatches in Es. case_bool_decide as He; [done|]. apply not_true_iff_false in Es.
    unfold containsSeries. rewrite bool_decide_false by done. case_bool_decide as Hin; [|done]. exfalso. apply Es.
    apply existsb_exists. exists (seriesOf pl). split; [by apply list_elem_of_In, elem_of_elements|]. by rewrite andb_true_iff, !Z.leb_le.
Qed.
Lemma allExpected_none query l : (forall pl, pl ∈ l -> placedExpected query pl = []) -> allExpected query l = [].
Proof.
  induction l as [|pl l IH]; intros Hn; [done|]. rewrite allExpected_cons, (Hn pl ltac:(left)). apply IH. intros x Hx. apply Hn. by right.
Qed.
Lemma empty_window query l : sq_End query < sq_Start query -> allExpected query l = [].
Proof.
  intros Hlt. apply allExpected_none. intros pl _. unfold placedExpected. destruct (containsSeries _ _); [|done].
  apply rowExpected_none. intros c s _ _. unfold in_window, in_range. apply andb_false_iff. rewrite !Z.leb_gt. lia.
Qed.
Lemma sort_ints_strict (l : list Z) : NoDup l -> StronglySorted Z.lt (sort_Slice Z.ltb l).
Proof.
  intros Hnd. rewrite <- (sort_Slice_perm Z.ltb l) in Hnd.
  induction (sort_Slice_sorted Z.ltb l (weak_order_key (fun x => x))) as [|x m Hs IH HF]; [constructor|].
  apply NoDup_cons in Hnd as [Hx Hnd]. constructor; [by apply IH|]. rewrite Forall_forall in HF |- *. intros y Hy.
  specialize (HF y Hy). unfold not_after in HF. apply Z.ltb_ge in HF. assert (x <> y) by congruence. lia.
Qed.
Lemma sortedQuerySeriesIDs_spec (ids : gset Z) : StronglySorted Z.lt (sortedQuerySeriesIDs ids) /\
  forall id, id ∈ sortedQuerySeriesIDs ids <-> id ∈ ids.
Proof.
  unfold sortedQuerySeriesIDs. split; [apply sort_ints_strict, NoDup_elements|]. intros id.
  rewrite sort_Slice_perm. apply elem_of_elements.
Qed.
Lemma containsSeries_in query id : sq_SeriesIDs query <> ∅ -> containsSeries (sq_SeriesIDs query) id = true <-> id ∈ sq_SeriesIDs query.
Proof. intros Hne. unfold containsSeries. rewrite bool_decide_false by done. by rewrite bool_decide_eq_true. Qed.
Lemma selected_rows query (ids : list Z) : sq_SeriesIDs query <> ∅ -> (forall id, id ∈ ids <-> id ∈ sq_SeriesIDs query) ->
  allExpected query (filter (fun pl => seriesOf pl ∈ ids) layout) = allExpected query layout.
Proof.
  intros Hne Hids. apply allExpected_filter. intros pl _ Hn. unfold placedExpected.
  destruct (containsSeries _ _) eqn:Ec; [|done]. apply (containsSeries_in query) in Ec; [|done]. by apply Hids in Ec.
Qed.
Lemma PartQuery_yields query : plain_query query -> yields inv (PartQuery p query) (allExpected query layout).
Proof.
  intros Hq. unfold PartQuery. zcase (sq_End query <? sq_Start query); [by rewrite empty_window by lia; apply yields_ret|].
  destruct (partMatches _ _ _) eqn:Em; cbn [negb].
  - case_bool_decide as He; cbn [negb]; [by apply queryIndexRows_yields|].
    destruct (sortedQuerySeriesIDs_spec (sq_SeriesIDs query)) as [Hs Hids].
    rewrite <- (selected_rows query _ He Hids). apply querySeriesIndexRows_yields; [done..|].
    intros En. apply He. apply elem_of_equiv_empty_L. intros id Hid%Hids. rewrite En in Hid. by apply elem_of_nil in Hid.
  - rewrite allExpected_none by (intros pl Hpl; by apply partMatches_expected). apply yields_ret.
Qed.
End indexed.
