(* ===== verification/SstStream.v ===== *)
(** * A scan yields the columns of the query

    The column stream loads one row at a time, through the index stream or
    through the series index; drained, it gives the expected columns in order
    and no error. *)
From S2P Require Import Prelude GoBinary Model Codec Readers SstTime SstTimeProofs SstValues SstValuesProofs SstSamples SstPage SstPageProofs Runtime Versions MemCompact StoreSpec EngineMerge Tombstones QueryMerge SstMeta SstPlain SstPack SstCache SstRead SstScan SstLayout SstPlaced SstReadProofs SstIndexed.
From stdpp Require Import prelude strings list sorting gmap.
From Stdlib Require Import ZArith Lia.
#[local] Open Scope Z_scope.

Lemma skipRows_spec (rows : list seriesIndexRow) id : forall fuel at_, (length rows <= fuel + at_)%nat ->
  let r := skipRows fuel rows id at_ in
  (at_ <= r)%nat /\ (forall i row, (at_ <= i < r)%nat -> rows !! i = Some row -> si_SeriesID row < id) /\
  (forall row, rows !! r = Some row -> id <= si_SeriesID row).
Proof.
  induction fuel as [|fuel IH]; intros at_ Hf; cbn [skipRows].
  { split_and!; [lia|lia|]. intros row Hr%lookup_lt_Some. lia. }
  destruct (rows !! at_) as [row|] eqn:Er; [|split_and!; [lia|lia|congruence]].
  zcase (si_SeriesID row <? id).
  - destruct (IH (S at_) ltac:(lia)) as (Hle & Hlt & Hge). split_and!; [lia| |done].
    intros i row' Hi Hrow. destruct (decide (i = at_)) as [->|]; [congruence|]. apply (Hlt i); [lia|done].
  - split_and!; [lia|lia|]. intros row' Hrow. congruence.
Qed.

Section scan.
Context `{lib : PayloadLib} `{!PayloadLaws lib} `{GoRuntimeLaws} `{FramePoolLaws}.
Context (p : Part) (files : partReadFiles) (index times values : bytes) (layout : list placed).
Context (Hix : indexed p files index times values layout) (query : StorageQuery) (Hq : plain_query query).
Notation inv := (coherent files values layout).
Let Hp : readable p files index times values layout := ix_readable _ _ _ _ _ _ Hix.

Definition rowsOf (id : Z) : list placed := filter (fun pl => seriesOf pl = id) layout.
Definition seriesFuture (ids : list Z) : list ColumnData := concat ((fun id => allExpected query (rowsOf id)) <$> ids).

(** ** The cursor over the series index *)
Record cursor_ok (ids : list Z) (s : partColumnDataStream) : Prop := {
  cu_part : st_part s = p;
  cu_query : st_query s = query;
  cu_ids : st_seriesIDs s = ids;
  cu_err : st_err s = None;
  cu_closed : st_closed s = false;
  cu_passed i row id : (i < st_rowAt s)%nat -> pt_seriesRows p !! i = Some row -> id ∈ drop (st_seriesAt s) ids -> si_SeriesID row < id;
}.
Lemma rowsOf_none id : (forall row, row ∈ pt_seriesRows p -> si_SeriesID row <> id) -> rowsOf id = [].
Proof.
  intros Hn. apply filter_id_none. rewrite <- (ids_layout _ _ _ _ _ _ Hix). intros (row & E & Hrow)%list_elem_of_fmap. by apply (Hn row).
Qed.
Lemma rowsOf_found i row : pt_seriesRows p !! i = Some row -> exists pl, pl ∈ layout /\ index_of index pl row /\ rowsOf (si_SeriesID row) = [pl].
Proof.
  intros Hrow. destruct (Forall2_lookup_r _ _ _ _ _ (ix_rows _ _ _ _ _ _ Hix) Hrow) as (pl & Hpl & Hof). exists pl.
  split_and!; [by eapply list_elem_of_lookup_2|done|]. unfold rowsOf.
  rewrite (io_id _ _ _ Hof). by apply (filter_id_lookup seriesOf layout i pl); [apply (ix_sorted _ _ _ _ _ _ Hix)|].
Qed.
Lemma rows_increase i j a b : pt_seriesRows p !! i = Some a -> pt_seriesRows p !! j = Some b -> (i < j)%nat -> si_SeriesID a < si_SeriesID b.
Proof.
  intros Ha Hb Hij. pose proof (ids_sorted _ _ _ _ _ _ Hix) as Hs.
  apply (sorted_lookup_lt _ i j (si_SeriesID a) (si_SeriesID b) Hs); [..|done];
    change (map si_SeriesID (pt_seriesRows p)) with (si_SeriesID <$> pt_seriesRows p); rewrite list_lookup_fmap, ?Ha, ?Hb; done.
Qed.

(** The next row that matches: what is skipped contributes nothing. *)
Lemma nextSeries_spec ids : StronglySorted Z.lt ids -> forall fuel s, cursor_ok ids s ->
  (length (drop (st_seriesAt s) ids) < fuel)%nat ->
  exists a b, match nextSeriesIndexRow fuel s with
  | (None, s') => s' = set_cursor s a b /\ seriesFuture (drop (st_seriesAt s) ids) = []
  | (Some row, s') => s' = set_cursor s a b /\ cursor_ok ids s' /\ (st_seriesAt s < a <= length ids)%nat /\
      exists pl, pl ∈ layout /\ index_of index pl row /\
        seriesFuture (drop (st_seriesAt s) ids) = placedExpected query pl ++ seriesFuture (drop a ids)
  end.
Proof.
  intros Hids. induction fuel as [|fuel IH]; intros s Hc Hf; [lia|]. pose proof Hc as [Ep Eq Ei Ee Ecl Hpass]. cbn [nextSeriesIndexRow].
  rewrite Ei. destruct (ids !! st_seriesAt s) as [id|] eqn:Eid.
  2:{ exists (st_seriesAt s), (st_rowAt s). split; [by destruct s|]. apply lookup_ge_None in Eid. by rewrite drop_ge by lia. }
  assert (drop (st_seriesAt s) ids = id :: drop (S (st_seriesAt s)) ids) as Ed by by apply drop_S.
  assert (forall id', id' ∈ drop (S (st_seriesAt s)) ids -> id < id') as Hlater.
  { intros id' Hin. pose proof Hids as Hs. rewrite <- (take_drop (st_seriesAt s) ids), Ed in Hs. apply StronglySorted_app_1_r, StronglySorted_inv in Hs as [_ HF].
    rewrite Forall_forall in HF. by apply HF. }
  rewrite Ep. set (rows := pt_seriesRows p) in *. set (r := skipRows _ _ _ _).
  destruct (skipRows_spec rows id (length rows) (st_rowAt s) ltac:(lia)) as (Hle & Hlt & Hge). fold r in Hle, Hlt, Hge.
  assert (forall i row, (i < r)%nat -> rows !! i = Some row -> si_SeriesID row < id) as Hbefore.
  { intros i row Hi Hrow. destruct (decide (i < st_rowAt s)%nat); [|apply (Hlt i); [lia|done]]. apply (Hpass i row id); [done..|]. rewrite Ed. left. }
  assert (cursor_ok ids (set_cursor s (S (st_seriesAt s)) r)) as Hc'.
  { split; try done. simpl. intros i row id' Hi Hrow Hin. specialize (Hbefore i row Hi Hrow). specialize (Hlater id' Hin). lia. }
  rewrite Ed. unfold seriesFuture. rewrite fmap_cons. cbn [concat]. fold (seriesFuture (drop (S (st_seriesAt s)) ids)).
  destruct (rows !! r) as [row|] eqn:Er.
  2:{ exists (S (st_seriesAt s)), r. split; [done|].
    assert (forall id', id <= id' -> rowsOf id' = []) as Hnone.
    { intros id' Hid'. apply rowsOf_none. intros row [i Hi]%list_elem_of_lookup. apply lookup_ge_None in Er. apply lookup_lt_Some in Hi as Hil.
      specialize (Hbefore i row ltac:(unfold rows in *; lia) Hi). lia. }
    rewrite (Hnone id ltac:(lia)). cbn [app allExpected fmap list_fmap concat]. unfold seriesFuture. apply concat_nil_Forall.
    apply Forall_forall. intros l (id' & -> & Hin%Hlater)%list_elem_of_fmap. by rewrite Hnone by lia. }
  specialize (Hge row eq_refl). destruct (negb (si_SeriesID row =? id) || _) eqn:Eskip.
  - destruct (IH _ Hc') as (a & b & Hn). { simpl. rewrite Ed in Hf. simpl in Hf. lia. }
    exists a, b. cbn [st_seriesAt set_cursor] in Hn.
    assert (allExpected query (rowsOf id) = []) as ->.
    { rewrite (cu_query _ _ Hc') in Eskip. zcase (si_SeriesID row =? id); cbn [negb orb] in Eskip.
      - subst id. destruct (rowsOf_found r row Er) as (pl & Hpl & Hof & ->). rewrite allExpected_cons. apply negb_true_iff in Eskip.
        by rewrite (seriesRow_skipped _ _ _ _ _ _ Hix query pl row Hpl Hof Eskip).
      - rewrite rowsOf_none; [done|]. intros row' [i Hi]%list_elem_of_lookup Eid'. destruct (Nat.lt_trichotomy i r) as [Hi'|[->|Hi']].
        + specialize (Hbefore i row' Hi' Hi). lia.
        + change (rows !! r = Some row') in Hi. assert (row' = row) by congruence. subst. lia.
        + pose proof (rows_increase _ _ _ _ Er Hi Hi'). lia. }
    cbn [app]. destruct (nextSeriesIndexRow fuel _) as [[row'|] s']; [|done].
    destruct Hn as (Es & Hc2 & Ha & Hpl). split_and!; [done|done|lia|lia|done].
  - apply orb_false_iff in Eskip as [E1%negb_false_iff%Z.eqb_eq E2]. subst id.
    destruct (rowsOf_found r row Er) as (pl & Hpl & Hof & E3). rewrite E3, allExpected_cons, app_nil_r.
    exists (S (st_seriesAt s)), r. apply lookup_lt_Some in Eid. split_and!; [done|done|lia|lia|]. by exists pl.
Qed.

(** ** Loading a row *)
Lemma set_cursor_ok ids s cols a b : cursor_ok ids (set_cursor s a b) -> cursor_ok ids (set_pending (set_cursor s a b) cols).
Proof. by intros []. Qed.
Lemma loadSeries_spec ids : StronglySorted Z.lt ids -> forall fuel s, cursor_ok ids s ->
  (length (drop (st_seriesAt s) ids) < fuel)%nat ->
  exists loaded s', yields inv (loadNextSeriesRow fuel s) (loaded, s') /\
    if loaded : bool then cursor_ok ids s' /\ st_pendingAt s' = 0%nat /\ st_pending s' <> [] /\
      seriesFuture (drop (st_seriesAt s) ids) = st_pending s' ++ seriesFuture (drop (st_seriesAt s') ids)
    else st_err s' = None /\ seriesFuture (drop (st_seriesAt s) ids) = [].
Proof.
  intros Hids. induction fuel as [|fuel IH]; intros s Hc Hf; [lia|]. cbn [loadNextSeriesRow].
  destruct (nextSeries_spec ids Hids (S (length (st_seriesIDs s))) s Hc) as (a & b & Hn).
  { rewrite (cu_ids _ _ Hc), length_drop. lia. }
  destruct (nextSeriesIndexRow _ s) as [[row|] s1].
  2:{ destruct Hn as [-> Hn]. exists false, (set_cursor s a b). split; [apply yields_ret|]. split; [apply Hc|done]. }
  destruct Hn as (-> & Hc1 & Ha & pl & Hpl & Hof & Efut). set (s1 := set_cursor s a b) in *.
  pose proof (layout_ok _ _ _ _ _ _ Hp pl Hpl) as Hok.
  assert (yields inv (try_step (readIndexRowBlock (st_part s1) (si_IndexRef row))) (inr (pl_row pl))) as Hread.
  { rewrite (cu_part _ _ Hc1). by apply yields_try, (readIndexRowBlock_yields _ _ _ _ _ _ Hix). }
  rewrite (cu_query _ _ Hc1), (cu_part _ _ Hc1) in *.
  assert (forall s2, cursor_ok ids s2 -> st_seriesAt s2 = a -> placedExpected query pl = [] ->
    exists loaded s', yields inv (loadNextSeriesRow fuel s2) (loaded, s') /\
      if loaded : bool then cursor_ok ids s' /\ st_pendingAt s' = 0%nat /\ st_pending s' <> [] /\
        seriesFuture (drop (st_seriesAt s) ids) = st_pending s' ++ seriesFuture (drop (st_seriesAt s') ids)
      else st_err s' = None /\ seriesFuture (drop (st_seriesAt s) ids) = []) as Hnext.
  { intros s2 Hc2 Ea Enone. destruct (IH s2 Hc2) as (loaded & s' & Hy & Hr); [rewrite length_drop in *; lia|].
    exists loaded, s'. split; [done|]. rewrite Efut, Enone, <- Ea. done. }
  destruct (rowMatches (pl_row pl) query) eqn:Em.
  - pose proof (queryRow_yields _ _ _ _ _ _ Hp pl query Hpl Hq) as Hrow. rewrite <- (rowMatches_expected _ _ Em) in Hrow.
    set (cols := placedExpected query pl) in *. destruct (0 <? len cols) eqn:El.
    + exists true, (set_pending s1 cols). split.
      { eapply yields_bind; [exact Hread|]. cbn beta iota. rewrite Em. cbn [negb].
        eapply yields_bind; [apply yields_try, Hrow|]. cbn beta iota. rewrite El. apply yields_ret. }
      split_and!; [by apply set_cursor_ok|done| |done]. cbn [st_pending set_pending]. intros E. by rewrite E in El.
    + destruct (Hnext (set_pending s1 cols)) as (loaded & s' & Hy & Hr); [by apply set_cursor_ok|done| |].
      { apply Z.ltb_ge in El. destruct cols; [done|]. unfold len in El. simpl in El. lia. }
      exists loaded, s'. split; [|done]. eapply yields_bind; [exact Hread|]. cbn beta iota. rewrite Em. cbn [negb].
      eapply yields_bind; [apply yields_try, Hrow|]. cbn beta iota. by rewrite El.
  - destruct (Hnext s1) as (loaded & s' & Hy & Hr); [done|done|by apply (placedExpected_skipped times values)|].
    exists loaded, s'. split; [|done]. eapply yields_bind; [exact Hread|]. cbn beta iota. by rewrite Em.
Qed.

Record stream_ok (s : partColumnDataStream) (todo : list placed) : Prop := {
  sm_part : st_part s = p;
  sm_query : st_query s = query;
  sm_ids : st_seriesIDs s = [];
  sm_err : st_err s = None;
  sm_closed : st_closed s = false;
  sm_todo : todo ⊆ layout;
  sm_rows : exists rows, st_rows s = Some rows /\ stream_at rows (pl_row <$> todo);
}.
Lemma loadRow_spec pl todo s s1 s3 : stream_ok s (pl :: todo) ->
  (forall filter_, exists s2, appendFilteredColumnRefs s1 filter_ =
     Ok (filter (fun c => containsField filter_ (cr_FieldID c)) (ir_Columns (pl_row pl)), s2) /\ stream_at s2 (pl_row <$> todo)) ->
  stream_skipColumnRefs s1 = Ok s3 -> stream_at s3 (pl_row <$> todo) ->
  exists loaded s', yields inv (loadRowColumns (set_rows s s1) s1 (row_header (pl_row pl))) (loaded, s') /\ stream_ok s' todo /\
    if loaded : bool then st_pendingAt s' = 0%nat /\ st_pending s' <> [] /\ placedExpected query pl = st_pending s'
    else placedExpected query pl = [].
Proof.
  intros [Ep Eq Ei Ee Ec Hsub _] Hcols E3 Hs3. assert (pl ∈ layout) as Hpl by (apply Hsub; left).
  assert (forall r, stream_at r (pl_row <$> todo) -> stream_ok (set_rows (set_rows s s1) r) todo) as Hset.
  { intros r Hr. split; try done; [|by exists r]. intros x Hx. apply Hsub. by right. }
  pose proof (layout_ok _ _ _ _ _ _ Hp pl Hpl) as Hok. unfold loadRowColumns.
  change (rowHeaderMatches (row_header (pl_row pl)) (st_query (set_rows s s1))) with (rowMatches (pl_row pl) (st_query s)).
  change (st_query (set_rows s s1)) with (st_query s). rewrite Eq.
  destruct (rowMatches (pl_row pl) query) eqn:Em; cbn [negb].
  2:{ exists false, (set_rows (set_rows s s1) s3). split; [|split; [by apply Hset|by apply (placedExpected_skipped times values)]].
    eapply yields_bind; [by apply yields_try, yields_wrap, yields_pure|]. apply yields_ret. }
  rewrite (rowMatches_expected _ _ Em). destruct (Hcols (sq_FieldIDs query)) as (s2 & E2 & Hs2). specialize (Hset s2 Hs2).
  set (refs := filter _ _) in E2. destruct (len refs =? 0) eqn:El.
  - exists false, (set_rows (set_rows s s1) s2). split; [|split; [done|]].
    + eapply yields_bind; [by apply yields_try, yields_wrap, yields_pure|]. cbn beta iota. rewrite El. apply yields_ret.
    + apply (filtered_none _ _ _ _ _ _ Hix pl query Hpl). by apply len_none.
  - set (cols := rowExpected query (pl_columns pl)).
    exists (0 <? len cols), (set_pending (set_rows (set_rows s s1) s2) cols). split; [|split].
    + eapply yields_bind; [by apply yields_try, yields_wrap, yields_pure|]. cbn beta iota. rewrite El.
      eapply (yields_bind _ _ _ (inr cols)); [|apply yields_ret]. apply yields_try. cbn [st_part st_query set_rows]. rewrite Ep, Eq.
      exact (queryFilteredRow_yields _ _ _ _ _ _ Hp pl query Hpl Hq).
    + by destruct Hset.
    + destruct cols; [done|]. done.
Qed.
Lemma loadIndex_spec : forall todo s rows, stream_ok s todo -> st_rows s = Some rows ->
  exists loaded s', yields inv (loadNextIndexRow (S (length todo)) s rows) (loaded, s') /\
    if loaded : bool then exists todo', stream_ok s' todo' /\ st_pendingAt s' = 0%nat /\ st_pending s' <> [] /\
      allExpected query todo = st_pending s' ++ allExpected query todo'
    else st_err s' = None /\ allExpected query todo = [].
Proof.
  induction todo as [|pl todo IH]; intros s rows Hs Er; pose proof (sm_rows _ _ Hs) as (rows' & Er' & Hat);
    rewrite Er in Er'; injection Er' as <-; cbn [length loadNextIndexRow].
  { destruct (nextHeader_end rows Hat) as [E1 E2]. exists false, (finishRows (set_rows s rows) rows). split.
    - eapply yields_bind; [by apply yields_try, yields_wrap, yields_pure|]. apply yields_ret.
    - split; [|done]. unfold finishRows. rewrite E2. cbn [wrapErr]. unfold closeStream. destruct (st_closed _); apply Hs. }
  rewrite fmap_cons in Hat. assert (pl ∈ layout) as Hpl by (apply (sm_todo _ _ Hs); left).
  destruct (nextHeader_row rows _ _ Hat) as (s1 & E1 & Hcols & s3 & E3 & Hs3); [by eapply placed_row_ok|].
  destruct (loadRow_spec pl todo s s1 s3 Hs Hcols E3 Hs3) as ([] & s2 & Hload & Hs2 & Hr).
  - exists true, s2. destruct Hr as (Ha & Hne & Epl). split; [|exists todo; by rewrite allExpected_cons, Epl].
    eapply yields_bind; [by apply yields_try, yields_wrap, yields_pure|]. cbn beta iota.
    eapply yields_bind; [exact Hload|]. apply yields_ret.
  - pose proof (sm_rows _ _ Hs2) as (rows2 & Er2 & _). destruct (IH s2 rows2 Hs2 Er2) as (loaded & s' & Hy & Hr').
    exists loaded, s'. rewrite allExpected_cons, Hr. split; [|done].
    eapply yields_bind; [by apply yields_try, yields_wrap, yields_pure|]. cbn beta iota.
    eapply yields_bind; [exact Hload|]. cbn beta iota. by rewrite (sm_err _ _ Hs2), Er2.
Qed.

(** ** Draining the stream *)
(** What is still to come from a stream. *)
Definition remains (s : partColumnDataStream) (rest : list ColumnData) : Prop :=
  exists future, rest = drop (st_pendingAt s) (st_pending s) ++ future /\
    ((exists todo, stream_ok s todo /\ future = allExpected query todo) \/
     (exists ids, StronglySorted Z.lt ids /\ ids <> [] /\ cursor_ok ids s /\ future = seriesFuture (drop (st_seriesAt s) ids))).
Lemma remains_open s rest : remains s rest -> st_closed s = false /\ st_err s = None.
Proof. by intros (future & _ & [(todo & [] & _)|(ids & _ & _ & [] & _)]). Qed.
Lemma nextPending_some s c rest : remains s rest -> st_pending s !! st_pendingAt s = Some c ->
  exists s' rest', nextPending s = Some s' /\ st_current s' = c /\ rest = c :: rest' /\ remains s' rest'.
Proof.
  intros (future & -> & Hf) Hc. unfold nextPending. rewrite Hc. cbn [mbind option_bind]. eexists _, _. split; [done|]. split; [done|].
  rewrite (drop_S _ _ _ Hc). split; [done|]. exists future. split; [done|].
  destruct Hf as [(todo & [] & ->)|(ids & Hs & Hne & [] & ->)]; [left; exists todo; by split|right; exists ids; by split_and!].
Qed.
Lemma loadNextRow_spec s rest : remains s rest -> st_pending s !! st_pendingAt s = None ->
  exists loaded s', yields inv (loadNextRow s) (loaded, s') /\
    if loaded : bool then remains s' rest /\ is_Some (st_pending s' !! st_pendingAt s') else st_err s' = None /\ rest = [].
Proof.
  intros (future & -> & Hf) Hn. apply lookup_ge_None in Hn. rewrite drop_ge by lia. cbn [app].
  assert (forall l : list ColumnData, l <> [] -> is_Some (l !! 0%nat)) as Hhead by (intros [|c l] Hl; [done|by exists c]).
  unfold loadNextRow. destruct Hf as [(todo & Hs & ->)|(ids & Hsort & Hne & Hc & ->)].
  - rewrite (sm_ids _ _ Hs). cbn [len length Z.of_nat Z.ltb Z.compare]. pose proof (sm_rows _ _ Hs) as (rows & Er & Hat). rewrite Er.
    assert (rowsFuel rows = S (length todo)) as ->.
    { destruct Hat as [Hr _]. unfold rowsFuel. rewrite Hr. unfold len. rewrite length_fmap. lia. }
    destruct (loadIndex_spec todo s rows Hs Er) as (loaded & s' & Hy & Hr). exists loaded, s'. split; [done|]. destruct loaded; [|done].
    destruct Hr as (todo' & Hs' & Ha & Hpn & E). rewrite Ha. split; [|by apply Hhead].
    exists (allExpected query todo'). rewrite Ha, drop_0. split; [done|]. left. by exists todo'.
  - rewrite (cu_ids _ _ Hc). assert ((0 <? len ids) = true) as ->.
    { apply Z.ltb_lt. destruct ids; [done|]. unfold len. simpl. lia. }
    destruct (loadSeries_spec ids Hsort (S (length ids)) s Hc) as (loaded & s' & Hy & Hr); [rewrite length_drop; lia|].
    exists loaded, s'. split; [done|]. destruct loaded; [|done]. destruct Hr as (Hc' & Ha & Hpn & E).
    rewrite Ha. split; [|by apply Hhead]. eexists. rewrite Ha, drop_0. split; [exact E|]. right. by exists ids.
Qed.
Lemma NextColumn_spec s rest : remains s rest ->
  exists more s', yields inv (NextColumn s) (more, s') /\
    if more : bool then exists rest', rest = st_current s' :: rest' /\ remains s' rest' else st_err s' = None /\ rest = [].
Proof.
  intros Hr. destruct (remains_open _ _ Hr) as [Ec Ee]. unfold NextColumn. rewrite Ec, Ee. cbn [orb].
  rewrite bool_decide_false by by intros [].
  destruct (st_pending s !! st_pendingAt s) as [c|] eqn:Ep.
  - destruct (nextPending_some s c rest Hr Ep) as (s' & rest' & -> & Ecur & -> & Hr'). exists true, s'. split; [apply yields_ret|].
    exists rest'. by rewrite Ecur.
  - assert (nextPending s = None) as -> by (unfold nextPending; by rewrite Ep).
    destruct (loadNextRow_spec s rest Hr Ep) as ([] & s1 & Hy & Hs1).
    + destruct Hs1 as [Hr1 [c Hc]]. destruct (nextPending_some s1 c rest Hr1 Hc) as (s' & rest' & En & Ecur & -> & Hr').
      exists true, s'. split; [|exists rest'; by rewrite Ecur]. eapply yields_bind; [exact Hy|]. cbn beta iota. cbn [negb].
      rewrite En. apply yields_ret.
    + exists false, s1. split; [|done]. eapply yields_bind; [exact Hy|]. apply yields_ret.
Qed.
Lemma drain_yields : forall fuel rest s, remains s rest -> (length rest < fuel)%nat -> yields inv (drain fuel s) (mkStream rest None).
Proof.
  induction fuel as [|fuel IH]; intros rest s Hr Hf; [lia|]. cbn [drain].
  destruct (NextColumn_spec s _ Hr) as ([] & s' & Hy & Hs'); (eapply yields_bind; [exact Hy|]); cbn beta iota.
  - destruct Hs' as (rest' & -> & Hr'). eapply yields_bind; [apply (IH rest'); [done|simpl in Hf; lia]|]. apply yields_ret.
  - destruct Hs' as [-> ->]. apply yields_ret.
Qed.
Definition scanned (fuel : nat) : step partCaches ColumnStream :=
  s ← newPartColumnDataStream p query;
  match s with None => mret (mkStream [] None) | Some s => drain fuel s end.
Lemma scan_yields fuel : (length (allExpected query layout) < fuel)%nat ->
  yields inv (scanned fuel) (mkStream (allExpected query layout) None).
Proof.
  intros Hfuel. unfold scanned, newPartColumnDataStream. zcase (sq_End query <? sq_Start query); cbn [orb].
  { eapply yields_bind; [apply yields_ret|]. rewrite empty_window by lia. apply yields_ret. }
  destruct (partMatches _ _ _) eqn:Em; cbn [negb].
  2:{ eapply yields_bind; [apply yields_ret|]. rewrite allExpected_none; [apply yields_ret|]. intros pl Hpl.
      by apply (partMatches_expected _ _ _ _ _ _ Hix). }
  case_bool_decide as He; cbn [negb].
  - destruct (openIndexRowStream_yields _ _ _ _ _ _ Hix) as (rows & Ho & Hat).
    eapply yields_bind; [eapply yields_bind; [exact Ho|apply yields_ret]|]. cbn beta iota. apply drain_yields; [|done].
    eexists. split; [reflexivity|]. left. exists layout. split; [|done]. split; try done. by exists rows.
  - destruct (sortedQuerySeriesIDs_spec (sq_SeriesIDs query)) as [Hs Hids].
    assert (sortedQuerySeriesIDs (sq_SeriesIDs query) <> []) as Hne.
    { intros En. apply He. apply elem_of_equiv_empty_L. intros id Hid%Hids. rewrite En in Hid. by apply elem_of_nil in Hid. }
    destruct (len _ =? 0) eqn:E0; [by apply len_none in E0|]. cbn [orb]. clear E0.
    destruct (len _ =? 0) eqn:E0.
    + pose proof (ix_rows _ _ _ _ _ _ Hix) as HF. rewrite (len_none _ E0) in HF. rewrite (Forall2_nil_inv_r _ _ HF).
      eapply yields_bind; [apply yields_ret|]. apply yields_ret.
    + eapply yields_bind; [apply yields_ret|]. cbn beta iota.
      rewrite <- (selected_rows layout query _ He Hids), <- (filter_ids_concat seriesOf), <- allExpected_concat in Hfuel |- *
        by (done || apply (ix_sorted _ _ _ _ _ _ Hix)).
      apply drain_yields; [|done]. eexists. split; [reflexivity|]. right. eexists. split_and!; [exact Hs|done| |done].
      split; try done. simpl. lia.
Qed.
End scan.
