(* ===== verification/SstOpened.v ===== *)
(** * The streaming writer keeps track of what it has placed

    After any sequence of accepted series the rows of the writer are those of
    the layout, each in a range of its own, and the metadata covers them;
    a part that was closed can be opened. *)
From S2P Require Import Prelude GoBinary Model Codec Readers SstTime SstTimeProofs SstValues SstValuesProofs SstSamples SstPage SstPageProofs Runtime Versions MemCompact StoreSpec EngineMerge SstMeta SstPlain SstPack SstCache SstRead SstLayout SstPlaced SstReadProofs SstIndexed.
From stdpp Require Import prelude strings list sorting gmap.
From Stdlib Require Import ZArith Lia.
#[local] Open Scope Z_scope.

(** ** The metadata of the part *)
Definition samplesOf (columns : list ColumnData) : nat := sum_list_with (fun c => length (cd_Samples c)) columns.
Lemma countRows columns : forall n, foldl (fun n c => n + len (cd_Samples c)) n columns = n + Z.of_nat (samplesOf columns).
Proof.
  induction columns as [|c l IH]; intros n; simpl; [unfold samplesOf; simpl; lia|]. rewrite IH. unfold samplesOf, len. simpl. lia.
Qed.
Definition maxSeq (m : Z) (samples : list VersionedSample) : Z := foldl (fun m s => if m <? vs_WriteSeq s then vs_WriteSeq s else m) m samples.
Lemma maxSeq_u64 samples : Forall (fun s => is_u64 (vs_WriteSeq s)) samples -> forall m, is_u64 m -> is_u64 (maxSeq m samples).
Proof.
  induction 1 as [|s l Hs HF IH]; intros m Hm; [done|]. simpl. apply IH. by destruct (m <? _).
Qed.

(** What the metadata of a writer with the given rows says. *)
Record meta_sound (meta : PartMeta) (rows : list indexRow) (total : Z) : Prop := {
  ms_counts : pm_RowsCount meta = total /\ pm_SeriesCount meta = len rows /\ pm_BlockCount meta = len rows;
  ms_some : rows <> [] -> 0 < total;
  ms_times : sane_time (pm_MinTime meta) /\ sane_time (pm_MaxTime meta);
  ms_series : is_u64 (pm_MinSeriesID meta) /\ is_u64 (pm_MaxSeriesID meta);
  ms_seq : is_u64 (pm_MaxWriteSeq meta);
  ms_rows row : row ∈ rows -> pm_MinTime meta <= ir_MinTime row /\ ir_MaxTime row <= pm_MaxTime meta /\
    pm_MinSeriesID meta <= ir_SeriesID row <= pm_MaxSeriesID meta;
}.
Lemma newMetadata_sound level id now : meta_sound (md_Part (newMetadata level id now)) [] 0.
Proof.
  split; simpl; try done; unfold sane_time, is_u64; try lia. intros row Hr. by apply elem_of_nil in Hr.
Qed.
Lemma updateMeta_sound meta rows total row columns : meta_sound meta rows total ->
  (rows = [] -> total = 0) -> sane_time (ir_MinTime row) -> sane_time (ir_MaxTime row) -> is_u64 (ir_SeriesID row) ->
  (0 < samplesOf columns)%nat -> Forall (fun c => Forall (fun s => is_u64 (vs_WriteSeq s)) (cd_Samples c)) columns ->
  meta_sound (updateMeta meta row columns) (rows ++ [row]) (total + Z.of_nat (samplesOf columns)).
Proof.
  intros [(Hn & Hc & Hb) Hs [Ht1 Ht2] [Hs1 Hs2] Hq Hr] H0 Hmin Hmax Hid Hpos HF.
  assert ((rows = [] /\ pm_RowsCount meta = 0 /\ pm_SeriesCount meta = 0) \/ (rows <> [] /\ 0 < pm_RowsCount meta /\ 0 < pm_SeriesCount meta)) as Hcase.
  { destruct rows as [|r l]; [left; split_and!; [done|rewrite Hn; auto|done]|right].
    split_and!; [done|rewrite Hn; by apply Hs|rewrite Hc; unfold len; simpl; lia]. }
  unfold sane_time, is_u64 in *. split; cbn [updateMeta pm_RowsCount pm_SeriesCount pm_BlockCount pm_MinTime pm_MaxTime pm_MinSeriesID pm_MaxSeriesID pm_MaxWriteSeq].
  - rewrite countRows, Hn, len_snoc. split_and!; lia.
  - intros _. destruct Hcase as [(E & _)|(_ & ? & _)]; [rewrite (H0 E)|]; lia.
  - unfold sane_time. split; [destruct (_ || _)|destruct (_ <? _)]; lia.
  - unfold is_u64. split; [destruct (_ || _)|destruct (_ <? _)]; lia.
  - apply maxSeq_u64; [|done]. apply Forall_concat, Forall_fmap. done.
  - intros row' [Hin|Hin]%elem_of_app; [|apply list_elem_of_singleton in Hin as ->].
    + destruct (Hr row' Hin) as (Hr1 & Hr2 & Hr3). destruct Hcase as [(-> & _)|(_ & Hp1 & Hp2)]; [by apply elem_of_nil in Hin|].
      zcase (pm_RowsCount meta =? 0); [lia|]. zcase (pm_SeriesCount meta =? 0); [lia|]. cbn [orb].
      zcase (ir_MinTime row <? pm_MinTime meta); zcase (pm_MaxTime meta <? ir_MaxTime row);
      zcase (ir_SeriesID row <? pm_MinSeriesID meta); zcase (pm_MaxSeriesID meta <? ir_SeriesID row); lia.
    + zcase (pm_RowsCount meta =? 0); zcase (pm_SeriesCount meta =? 0); cbn [orb];
      zcase (pm_MaxTime meta <? ir_MaxTime row); zcase (pm_MaxSeriesID meta <? ir_SeriesID row); try lia;
      zcase (ir_MinTime row <? pm_MinTime meta); try lia; zcase (ir_SeriesID row <? pm_MinSeriesID meta); lia.
Qed.

Section writer.
Context `{lib : PayloadLib} `{!PayloadLaws lib} `{GoRuntimeLaws}.

(** ** A sequence of series *)
Definition stored_series (columns : list ColumnData) (pl : placed) : Prop :=
  Forall2 stored_column (sortByField columns) (pl_columns pl).
Record writer_inv (w : PartWriter) (groups : list (list ColumnData)) (layout : list placed) : Prop := {
  wi_open : pw_closed w = false;
  wi_rows : pw_rows w = pl_row <$> layout;
  wi_sound : files_sound (pw_files w);
  wi_placed : Forall (placed_ok (times_of (pw_files w)) (values_of (pw_files w))) layout;
  wi_ranges : StronglySorted (fun a b => pl_hi a <= pl_lo b) layout;
  wi_ends : Forall (fun pl => pl_hi pl <= offset_of (pw_files w)) layout;
  wi_stored : Forall2 stored_series groups layout;
  wi_ids : Forall2 (fun columns pl => Forall (fun c => cd_SeriesID c = seriesOf pl) columns) groups layout;
  wi_meta : meta_sound (md_Part (pw_meta w)) (pw_rows w) (Z.of_nat (sum_list_with samplesOf groups));
}.
Lemma NewPartWriter_inv path level id opts now : writer_inv (NewPartWriter path level id opts now) [] [].
Proof. split; try done; [constructor|apply newMetadata_sound]. Qed.
Lemma checkSeriesColumns_ok id columns u : checkSeriesColumns id columns = Ok u -> Forall (fun c => cd_SeriesID c = id) columns.
Proof.
  revert u. induction columns as [|c l IH]; intros u; [constructor|]. simpl. zcase (cd_SeriesID c =? id); [|done]. cbn [negb].
  destruct (len _ =? 0); [done|]. intros Hc. constructor; [done|by eapply IH].
Qed.
Lemma samplesOf_pos columns : columns <> [] -> Forall (fun c => cd_Samples c <> []) columns -> (0 < samplesOf columns)%nat.
Proof. intros Hne HF. destruct HF as [|c l Hc HF]; [done|]. unfold samplesOf. simpl. destruct (cd_Samples c); [done|]. simpl. lia. Qed.
Lemma samplesOf_perm l l' : l ≡ₚ l' -> samplesOf l = samplesOf l'.
Proof. intros Hp. unfold samplesOf. by rewrite Hp. Qed.
Lemma sum_list_with_snoc {A} (f : A -> nat) l x : sum_list_with f (l ++ [x]) = (sum_list_with f l + f x)%nat.
Proof. rewrite sum_list_with_app. simpl. lia. Qed.
Lemma AddSeries_inv w groups layout columns u w' : writer_inv w groups layout -> columns <> [] ->
  series_storable (pw_opts w) columns -> AddSeries columns w = (Ok u, w') ->
  exists pl, writer_inv w' (groups ++ [columns]) (layout ++ [pl]) /\ pw_opts w' = pw_opts w /\
    pw_path w' = pw_path w /\ exists part, pw_meta w' = set_md_Part (pw_meta w) part /\
      pm_ID part = pm_ID (md_Part (pw_meta w)) /\ pm_Level part = pm_Level (md_Part (pw_meta w)) /\
      pm_Path part = pm_Path (md_Part (pw_meta w)).
Proof.
  intros [Ho Hrows Hs Hpl Hrng Hend Hst Hids Hm] Hne Hstor. unfold AddSeries. rewrite Ho.
  destruct columns as [|c cs]; [done|]. set (columns := c :: cs) in *.
  destruct (checkSeriesColumns _ _) as [[]| |] eqn:Ec; [|done..]. apply checkSeriesColumns_ok in Ec.
  destruct (writeSeries _ _ _ _) as [[row| |] files'] eqn:Ew; [|done..]. intros [= <- <-].
  destruct (writeSeries_placed _ _ _ _ _ _ Hs Hstor Ec Ew) as (Hg & pl & Erow & Elo & Ehi & Eid & Hss & Hok).
  exists pl. split; [|split_and!; [done|done|]; by eexists]. pose proof Hstor as [Hcols _ _ _ _ _].
  assert (forall f : ColumnData -> Prop, Forall f columns -> Forall f (sortByField columns)) as Hperm.
  { intros f HF. by rewrite sortByField_perm. }
  assert (samplesOf (sortByField columns) = samplesOf columns) as Esum by (apply samplesOf_perm, sortByField_perm).
  assert ((0 < samplesOf columns)%nat) as Hpos.
  { apply samplesOf_pos; [done|]. eapply Forall_impl; [exact Hcols|]. by intros x []. }
  split; simpl; try done.
  - by rewrite Hrows, fmap_app, <- Erow.
  - apply Hg.
  - apply Forall_app. split; [|by apply Forall_singleton]. eapply Forall_impl; [exact Hpl|]. intros x. by apply placed_ok_grown.
  - apply StronglySorted_app_2'; [done|by repeat constructor|]. intros a b Ha ->%list_elem_of_singleton.
    rewrite Forall_forall in Hend. rewrite Elo. by apply Hend.
  - apply Forall_app. split; [|constructor; [by rewrite Ehi|constructor]]. eapply Forall_impl; [exact Hend|]. intros x Hx. simpl in Hx.
    pose proof (gr_offset _ _ Hg). lia.
  - apply Forall2_app; [done|]. constructor; [done|constructor].
  - apply Forall2_app; [done|]. constructor; [|constructor]. unfold seriesOf. by rewrite Erow, Eid.
  - rewrite sum_list_with_snoc, Nat2Z.inj_add, <- Esum.
    destruct Hok as []. rewrite Erow in *. apply updateMeta_sound; try done; [|apply pd_range|apply pd_range|lia|].
    + intros E0. rewrite Hrows in E0. destruct layout; [|done]. by rewrite (Forall2_nil_inv_r _ _ Hst).
    + apply Hperm. eapply Forall_impl; [exact Hcols|]. intros x [_ HF _ _ _ _]. eapply Forall_impl; [exact HF|]. by intros s [].
Qed.

(** All of them, in the order given. *)
Fixpoint addAll (groups : list (list ColumnData)) : step PartWriter unit :=
  match groups with
  | [] => mret tt
  | columns :: groups' => _ ← AddSeries columns; addAll groups'
  end.
Definition same_writer (w w' : PartWriter) : Prop :=
  pw_opts w' = pw_opts w /\ pw_path w' = pw_path w /\ exists part, pw_meta w' = set_md_Part (pw_meta w) part /\
    pm_ID part = pm_ID (md_Part (pw_meta w)) /\ pm_Level part = pm_Level (md_Part (pw_meta w)) /\
    pm_Path part = pm_Path (md_Part (pw_meta w)).
Lemma addAll_inv groups : forall w before layout u w', writer_inv w before layout ->
  Forall (fun g => g <> [] /\ series_storable (pw_opts w) g) groups -> addAll groups w = (Ok u, w') ->
  exists layout', writer_inv w' (before ++ groups) layout' /\ same_writer w w'.
Proof.
  induction groups as [|g groups IH]; intros w before layout u w' Hw HF E.
  { injection E as <- <-. exists layout. rewrite app_nil_r. split; [done|]. split_and!; [done..|]. exists (md_Part (pw_meta w)).
    split_and!; [by destruct (pw_meta w)|done..]. }
  apply Forall_cons in HF as [[Hne Hg] HF]. cbn [addAll] in E. step_inv E u1 w1 E1.
  destruct (AddSeries_inv _ _ _ _ _ _ Hw Hne Hg E1) as (pl & Hw1 & Eo & Ep & part & Em & Hid & Hlv & Hpath).
  destruct (IH w1 (before ++ [g]) (layout ++ [pl]) u w' Hw1) as (layout' & Hw' & Eo' & Ep' & part' & Em' & Hid' & Hlv' & Hpath');
    [by rewrite Eo|done|].
  exists layout'. rewrite <- (assoc_L (++)) in Hw'. split; [done|]. split_and!; [congruence|congruence|]. exists part'.
  rewrite Em in Em', Hid', Hlv', Hpath'. simpl in *. split_and!; [done|congruence..].
Qed.
End writer.

(** * A part that was closed can be opened

    The directory a writer leaves opens, with the deep validation of every
    block, to a part whose indexes describe the layout of the writer, so the
    theorems of [SstIndexed] and [SstStream] apply to it. *)
(** ** The pack *)
Section pack.
Context (metaIndex index seriesIndex times values pack : bytes).
Let comps := component_files metaIndex index seriesIndex times values.
Context (Hpack : encodePartPack (sectionsOf comps) comps.*2 = Ok pack) (Hlen : len pack <= maxInt).

Lemma pack_is : pack = packHeader (sectionsOf comps) ++ concat comps.*2.
Proof. unfold encodePartPack in Hpack. destruct (negb _); [done|]. by injection Hpack as <-. Qed.
Lemma component_len name data : (name, data) ∈ comps -> len data <= maxInt.
Proof.
  intros Hin. rewrite pack_is in Hlen. transitivity (len (packHeader (sectionsOf comps) ++ concat comps.*2)); [|done].
  apply list_elem_of_split in Hin as (l1 & l2 & ->). rewrite fmap_app, concat_app, fmap_cons. cbn [concat snd]. rewrite !len_app.
  pose proof (len_nonneg (packHeader (sectionsOf (l1 ++ (name, data) :: l2)))). pose proof (len_nonneg (concat l1.*2)).
  pose proof (len_nonneg (concat l2.*2)). lia.
Qed.
Lemma uvarint_short x : len (appendUvarint x) <= 10.
Proof. assert (length (appendUvarint x) <= 10)%nat by apply (uvarint_groups_length 9). unfold len. lia. Qed.
Lemma header_short : len (packHeader (sectionsOf comps)) <= maxHeaderProbe.
Proof.
  unfold packHeader, comps, component_files, sectionsOf. cbn [map concat sc_Name sc_Size fst snd]. rewrite !len_app.
  repeat match goal with |- context [len (appendUvarint ?x)] =>
    let H := fresh in pose proof (uvarint_short x) as H; revert H; generalize (len (appendUvarint x)); intros ? H end.
  change (len packMagic) with 7. change maxHeaderProbe with 65536. change (@len Z []) with 0.
  change (len metaindexFile) with 13. change (len indexFile) with 9. change (len seriesIndexFile) with 16.
  change (len timestampsFile) with 14. change (len valuesFile) with 10. change (len stringsFile) with 11. lia.
Qed.
Lemma pack_files_ok : files_ok comps.
Proof.
  split.
  - apply (bool_decide_unpack _). by vm_compute.
  - apply Forall_forall. intros [name data] Hin. split; [|by eapply component_len].
    assert (Forall (fun n => len n <= 16) comps.*1) as HF by by repeat constructor.
    rewrite Forall_forall in HF. specialize (HF name). unfold maxInt.
    assert (len name <= 16); [|simpl; lia]. apply HF. apply list_elem_of_fmap. by exists (name, data).
  - by_decide.
  - apply header_short.
  - by rewrite <- pack_is.
Qed.
(** A section shows the component. *)
Definition shown (sections : gmap bytes packSection) (name data : bytes) : Prop := exists section,
  sections !! name = Some section /\ sc_Size section = len data /\ shows (section_ReadAt (sectionOf pack section)) data.
Lemma pack_opens : exists sections, readPartPackSections pack = Ok sections /\
  forall name data, (name, data) ∈ comps -> shown sections name data.
Proof.
  destruct (pack_reads comps pack pack_files_ok Hpack) as (sections & Er & Hp & _). exists sections. split; [done|].
  intros name data Hin. destruct (Hp name data Hin) as (section & Es & Hsz & before & after & Ep & Ho). exists section.
  split_and!; [done..|]. unfold sectionOf. rewrite Hsz, Ho, Ep. apply section_shows.
Qed.
End pack.

(** ** Field ids of the indexes *)
Lemma u32s_bounded (l : list Z) : NoDup l -> Forall is_u32 l -> fits (len l).
Proof.
  intros Hnd HF. assert (length l <= length (seqZ 0 (2 ^ 32)))%nat as Hl.
  { apply NoDup_incl_length; [by apply NoDup_ListNoDup|]. intros x Hx. apply list_elem_of_In, elem_of_seqZ.
    rewrite Forall_forall in HF. apply list_elem_of_In in Hx. specialize (HF x Hx). unfold is_u32 in HF. lia. }
  rewrite length_seqZ in Hl. unfold fits, maxAlloc, len. lia.
Qed.
Section fields.
Context `{GoRuntimeLaws}.
Lemma seenFields (l : list columnRef) : forall (m : gmap Z unit) id,
  is_Some (foldl (fun seen c => <[cr_FieldID c := tt]> seen) m l !! id) <-> is_Some (m !! id) \/ id ∈ cr_FieldID <$> l.
Proof.
  induction l as [|c l IH]; intros m id; simpl; [rewrite elem_of_nil; naive_solver|].
  rewrite IH, elem_of_cons, lookup_insert. case_decide as E; subst; naive_solver.
Qed.
Lemma collectFieldIDs_spec rows : NoDup (collectFieldIDs rows) /\
  forall id, id ∈ collectFieldIDs rows <-> exists row c, row ∈ rows /\ c ∈ ir_Columns row /\ id = cr_FieldID c.
Proof.
  unfold collectFieldIDs. set (seen := foldl _ _ _). split.
  - rewrite sort_Slice_perm, map_range_perm. apply NoDup_fst_map_to_list.
  - intros id. rewrite sort_Slice_perm, map_range_perm.
    assert (id ∈ (map_to_list seen).*1 <-> is_Some (seen !! id)) as ->.
    { rewrite list_elem_of_fmap. split.
      - intros ([k u] & -> & Hin%elem_of_map_to_list). by exists u.
      - intros [u Hu]. exists (id, u). split; [done|]. by apply elem_of_map_to_list. }
    unfold seen. rewrite seenFields, lookup_empty, list_elem_of_fmap. setoid_rewrite elem_of_concat. split.
    + intros [[u Hu]|(c & -> & cs & Hc & Hcs)]; [done|]. apply list_elem_of_In, in_map_iff in Hcs as (row & <- & Hrow%list_elem_of_In). by exists row, c.
    + intros (row & c & Hrow & Hc & ->). right. exists c. split; [done|]. exists (ir_Columns row). split; [done|].
      apply list_elem_of_fmap. by exists row.
Qed.
Lemma collectRowFieldIDs_spec row : collectRowFieldIDs row ≡ₚ cr_FieldID <$> ir_Columns row.
Proof. apply sort_Slice_perm. Qed.

Lemma seriesIndex_rows (index : bytes) rows : forall refs out,
  Forall2 (fun row ref => exists payload, encodeIndexRowsInto [row] = Ok payload /\ block_at index ref payload) rows refs ->
  seriesIndexFromRows rows refs = Ok out ->
  Forall2 (fun row si => si_SeriesID si = ir_SeriesID row /\ si_MinTime si = ir_MinTime row /\ si_MaxTime si = ir_MaxTime row /\
    si_FieldIDs si = collectRowFieldIDs row /\
    exists payload, encodeIndexRowsInto [row] = Ok payload /\ block_at index (si_IndexRef si) payload) rows out.
Proof.
  induction rows as [|row rows IH]; intros refs out HF E; inversion HF as [|? ref ? refs' Hr HF']; subst; cbn [seriesIndexFromRows] in E.
  { injection E as <-. constructor. }
  ok_inv E rest E'. injection E as <-. constructor; [by split_and!|by eapply IH].
Qed.
End fields.

(** ** Opening *)
Ltac component := unfold component_files; repeat (apply list_elem_of_here || apply list_elem_of_further).
Section opened.
Context `{lib : PayloadLib} `{!PayloadLaws lib} `{GoRuntimeLaws} `{FramePoolLaws}.
Context (times values : bytes) (meta : metadata) (dir : directory) (final : metadata)
  (metaIndex index seriesIndex pack data : bytes) (rowRefs : list blockRef) (layout : list placed) (total : Z).

(** What the writer of a finished part has established. *)
Record closed_part : Prop := {
  cp_finished : finished times values meta (pl_row <$> layout) dir final metaIndex index seriesIndex pack rowRefs;
  cp_data : dir !! metadataFile = Some data;
  cp_placed : Forall (placed_ok times values) layout;
  cp_ranges : StronglySorted (fun a b => pl_hi a <= pl_lo b) layout;
  cp_sorted : StronglySorted series_lt layout;
  cp_fits : fits (len layout);
  cp_meta : meta_sound (md_Part meta) (pl_row <$> layout) total;
  cp_total : 0 <= total <= maxInt;
  cp_components : md_Components meta = [];
  cp_created : is_i64 (md_CreatedUnix meta);
  cp_id : string_ok (pm_ID (md_Part meta));
  cp_level : is_i64 (pm_Level (md_Part meta));
  cp_path : pm_Path (md_Part meta) = [];
  cp_sizes : len pack <= maxInt /\ len data <= maxInt;
}.
Context (Hc : closed_part).
Let Hf := cp_finished Hc.
Let comps := component_files metaIndex index seriesIndex times values.

Lemma comp_len name file : (name, file) ∈ comps -> len file <= maxInt.
Proof. apply (component_len metaIndex index seriesIndex times values pack); [apply (fd_pack _ _ _ _ _ _ _ _ _ _ _ Hf)|apply (cp_sizes Hc)]. Qed.
Lemma comp_lens : len metaIndex <= maxInt /\ len index <= maxInt /\ len seriesIndex <= maxInt /\ len times <= maxInt /\ len values <= maxInt.
Proof.
  split_and!; [apply (comp_len metaindexFile)|apply (comp_len indexFile)|apply (comp_len seriesIndexFile)|apply (comp_len timestampsFile)
    |apply (comp_len valuesFile)]; component.
Qed.

Lemma final_metadata_ok : metadata_ok final.
Proof.
  pose proof comp_lens as (Hl1 & Hl2 & Hl3 & Hl4 & Hl5). destruct (cp_meta Hc) as [(Hn & Hs & Hb) Hsome [Ht1 Ht2] [Hs1 Hs2] Hq _].
  pose proof (cp_total Hc) as Htot. pose proof (cp_fits Hc) as Hfits.
  destruct Hf as [Hxf (mp & _ & Hmb) (sr & sp & _ & _ & Hsb) _ _ _ Hpart Hcomp Hsz Hcr].
  destruct (xf_all _ _ _ _ Hxf) as (ip & _ & Hib).
  assert (md_Components final = defaultPartComponents) as Ecomp by by rewrite Hcomp, (cp_components Hc).
  split.
  - rewrite Hpart. split; try done; [apply (cp_id Hc)|apply (cp_level Hc)|by apply sane_i64|by apply sane_i64|rewrite Hn; lia| | |rewrite (cp_path Hc); by_decide].
    + rewrite Hs. unfold len in *. rewrite length_fmap. alloc_lia.
    + rewrite Hb. unfold len in *. rewrite length_fmap. alloc_lia.
  - by eapply block_ref_ok; [|exact Hib].
  - by eapply block_ref_ok; [|exact Hmb].
  - by eapply block_ref_ok; [|exact Hsb].
  - rewrite Ecomp. split; [|done]. unfold defaultPartComponents. by_decide.
  - rewrite Ecomp. by_decide.
  - right. rewrite Hsz, Ecomp. split; [apply (bool_decide_unpack _); by vm_compute|].
    unfold component_sizes. pose proof (len_nonneg metaIndex). pose proof (len_nonneg index). pose proof (len_nonneg seriesIndex).
    pose proof (len_nonneg times). pose proof (len_nonneg values).
    repeat (apply map_Forall_insert_2; [unfold maxInt in *; lia|]). apply map_Forall_empty.
  - rewrite Hcr. apply (cp_created Hc).
Qed.

(** *** The files *)
Record opened_files (files : partReadFiles) : Prop := {
  of_pack : rf_pack files = Some pack;
  of_shown name file : (name, file) ∈ comps -> shown pack (rf_sections files) name file;
  of_index : shows (section_ReadAt (rf_index files)) index;
  of_times : shows (section_ReadAt (rf_timestamps files)) times;
  of_values : shows (section_ReadAt (rf_values files)) values;
}.
Lemma open_files : exists files, openPartReadFiles dir = Ok files /\ opened_files files.
Proof.
  destruct (pack_opens metaIndex index seriesIndex times values pack (fd_pack _ _ _ _ _ _ _ _ _ _ _ Hf) (proj1 (cp_sizes Hc))) as (sections & Er & Hsh).
  fold comps in Hsh.
  destruct (Hsh indexFile index) as (si & Ei & _ & Hi); [component|].
  destruct (Hsh timestampsFile times) as (st & Et & _ & Ht); [component|].
  destruct (Hsh valuesFile values) as (sv & Ev & _ & Hv); [component|].
  exists (mkReadFiles (Some pack) sections (sectionOf pack si) (sectionOf pack st) (sectionOf pack sv)). split; [|by split].
  unfold openPartReadFiles, openPartReadFilesFromPack, openPartPack. rewrite (fd_packFile _ _ _ _ _ _ _ _ _ _ _ Hf), Er.
  cbn [mbind outcome_bind]. unfold packSectionFile. by rewrite Ei, Et, Ev.
Qed.
Lemma open_metadata : loadPartMetadata dir = Ok final.
Proof.
  unfold loadPartMetadata. rewrite (cp_data Hc). destruct (fd_metadata _ _ _ _ _ _ _ _ _ _ _ Hf) as (data' & Hd & He).
  rewrite (cp_data Hc) in Hd. injection Hd as <-. by rewrite (metadata_decodes final data final_metadata_ok He (proj2 (cp_sizes Hc))).
Qed.
Lemma read_logical files name file ref payload : opened_files files -> (name, file) ∈ comps -> block_at file ref payload ->
  readLogicalComponentBlock dir (Some files) name ref = Ok payload.
Proof.
  intros Ho Hin Hb. destruct (of_shown _ Ho name file Hin) as (section & Es & _ & Hsh). unfold readLogicalComponentBlock.
  destruct files as [pk sections ? ? ?]. pose proof (of_pack _ Ho) as Ep. simpl in *. subst pk. rewrite Es. by apply (readBlock_at _ file).
Qed.

(** *** The indexes *)
Definition theMetaRow : metaIndexRow := metaIndexFromRows (md_Part meta) (md_IndexRef final) (pl_row <$> layout).
Lemma row_refs pl : pl ∈ layout -> cr_FieldID <$> ir_Columns (pl_row pl) = cd_FieldID <$> pl_columns pl.
Proof.
  intros Hpl. pose proof (cp_placed Hc) as HF. rewrite Forall_forall in HF. destruct (HF pl Hpl) as [_ _ Hcs _ _ _ _ _ _].
  clear -Hcs. induction Hcs as [|c r cs rs Hcr HF IH]; [done|]. rewrite !fmap_cons, IH. by rewrite (ca_id _ _ _ _ _ _ Hcr).
Qed.
Lemma row_ids pl id : pl ∈ layout -> id ∈ cr_FieldID <$> ir_Columns (pl_row pl) -> is_u32 id.
Proof.
  intros Hpl. rewrite (row_refs pl Hpl). intros (c & -> & Hcc)%list_elem_of_fmap. pose proof (cp_placed Hc) as HF. rewrite Forall_forall in HF.
  destruct (HF pl Hpl) as [_ _ Hcs _ _ _ _ _ _]. apply list_elem_of_lookup in Hcc as [i Hi].
  destruct (Forall2_lookup_l _ _ _ _ _ Hcs Hi) as (r & _ & Hcr). apply Hcr.
Qed.
Lemma metaRow_ok : metaIndexRow_ok theMetaRow.
Proof.
  destruct (cp_meta Hc) as [_ _ [Ht1 Ht2] [Hs1 Hs2] _ _]. destruct (collectFieldIDs_spec (pl_row <$> layout)) as [Hnd Hin].
  assert (Forall is_u32 (collectFieldIDs (pl_row <$> layout))) as Hu.
  { apply Forall_forall. intros id (row & c & Hrow & Hcc & ->)%Hin. apply list_elem_of_fmap in Hrow as (pl & -> & Hpl).
    apply (row_ids pl); [done|]. apply list_elem_of_fmap. by exists c. }
  split; simpl; [done|done|by apply sane_i64|by apply sane_i64|split; [done|by apply u32s_bounded]|apply final_metadata_ok].
Qed.
Lemma open_metaIndex files : opened_files files -> loadPartMetaIndex dir files (md_MetaIndexRef final) = Ok [theMetaRow].
Proof.
  intros Ho. destruct (fd_meta _ _ _ _ _ _ _ _ _ _ _ Hf) as (payload & He & Hb). unfold loadPartMetaIndex.
  rewrite (read_logical files metaindexFile metaIndex _ payload Ho) by (component || done). cbn [mbind outcome_bind].
  rewrite (metaIndexRows_roundtrip [theMetaRow] payload); [done| |by_decide|done|].
  - apply Forall_singleton, metaRow_ok.
  - apply block_at_len in Hb. pose proof comp_lens. lia.
Qed.
Lemma open_seriesIndex : exists seriesRows, Forall2 (index_of index) layout seriesRows /\
  forall files, opened_files files -> loadPartSeriesIndex dir files (md_SeriesIndexRef final) = Ok seriesRows.
Proof.
  destruct (fd_series _ _ _ _ _ _ _ _ _ _ _ Hf) as (seriesRows & payload & Es & He & Hb). exists seriesRows.
  pose proof (seriesIndex_rows index _ _ _ (xf_rows _ _ _ _ (fd_index _ _ _ _ _ _ _ _ _ _ _ Hf)) Es) as HF. rewrite Forall2_fmap_l in HF.
  pose proof comp_lens as (_ & Hli & Hls & _ & _).
  assert (Forall2 (index_of index) layout seriesRows) as Hof.
  { apply Forall2_same_length_lookup. split; [by apply Forall2_length in HF|]. intros i pl si Hpl Hsi.
    destruct (proj1 (Forall2_same_length_lookup _ _ _) HF) as [_ Hl]. destruct (Hl i pl si Hpl Hsi) as (Eid & Emin & Emax & Ef & Hblk).
    apply list_elem_of_lookup_2 in Hpl. split; [done..| |done]. intros c Hcc. rewrite Ef, collectRowFieldIDs_spec, (row_refs pl Hpl).
    apply list_elem_of_fmap. by exists c. }
  split; [done|]. intros files Ho. unfold loadPartSeriesIndex.
  rewrite (read_logical files seriesIndexFile seriesIndex _ payload Ho) by (component || done). cbn [mbind outcome_bind].
  rewrite (seriesIndexRows_roundtrip seriesRows payload); [done| | |done|apply block_at_len in Hb; lia].
  - apply Forall_forall. intros si Hsi. apply list_elem_of_lookup in Hsi as [i Hsi].
    destruct (Forall2_lookup_r _ _ _ _ _ HF Hsi) as (pl & Hpl & Eid & Emin & Emax & Ef & ip & _ & Hblk). apply list_elem_of_lookup_2 in Hpl.
    pose proof (cp_placed Hc) as HP. rewrite Forall_forall in HP. destruct (HP pl Hpl) as [_ _ Hcols _ [Hr1 Hr2] _ _ Hfc Hid].
    split; rewrite ?Eid, ?Emin, ?Emax; [done|by apply sane_i64|by apply sane_i64| |by eapply block_ref_ok; [|exact Hblk]].
    rewrite Ef. split.
    + rewrite collectRowFieldIDs_spec. apply Forall_forall. intros id. by apply row_ids.
    + unfold len in *. rewrite collectRowFieldIDs_spec, length_fmap, <- (Forall2_length _ _ _ Hcols). done.
  - apply Forall2_length in Hof. unfold len. rewrite <- Hof. apply (cp_fits Hc).
Qed.

(** *** Component sizes *)
Definition theSizes : gmap bytes Z := component_sizes metaIndex index seriesIndex times values.
Lemma component_size name file : (name, file) ∈ comps -> theSizes !! name = Some (len file).
Proof.
  intros Hin. unfold comps, component_files in Hin. unfold theSizes, component_sizes.
  repeat (apply elem_of_cons in Hin as [[= -> ->]|Hin]; [by vm_compute|]). by apply elem_of_nil in Hin.
Qed.
Lemma collectSizes_run sizeOf names : (forall name, name ∈ names -> sizeOf name = Ok (default 0 (theSizes !! name))) ->
  forall acc, collectSizes sizeOf names acc = Ok (sizesFrom theSizes acc names).
Proof.
  induction names as [|name names IH]; intros Hs acc; [done|]. cbn [collectSizes]. rewrite Hs by left. cbn [mbind outcome_bind].
  apply IH. intros n Hn. apply Hs. by right.
Qed.
Lemma theSizes_dom : dom theSizes = list_to_set defaultPartComponents.
Proof. apply (bool_decide_unpack _). by vm_compute. Qed.
Lemma final_components : md_Components final = defaultPartComponents.
Proof. by rewrite (fd_components _ _ _ _ _ _ _ _ _ _ _ Hf), (cp_components Hc). Qed.
Lemma open_sizes files verify : opened_files files -> loadPartComponentSizes dir final files verify = Ok theSizes.
Proof.
  intros Ho. unfold loadPartComponentSizes. rewrite (fd_sizes _ _ _ _ _ _ _ _ _ _ _ Hf). fold theSizes.
  assert (theSizes <> ∅) as Hne.
  { intros E. pose proof (component_size indexFile index ltac:(component)) as Hl. rewrite E in Hl. by rewrite lookup_empty in Hl. }
  rewrite bool_decide_false by done. cbn [negb]. rewrite final_components.
  change (metadataComponents defaultPartComponents) with defaultPartComponents.
  rewrite (collectSizes_run _ _), sizesFrom_id; [done|apply theSizes_dom|].
  intros name Hn. unfold knownComponentSize. rewrite (fd_sizes _ _ _ _ _ _ _ _ _ _ _ Hf). fold theSizes.
  case_bool_decide as Hm; [done|]. assert (exists file, (name, file) ∈ comps) as [file Hin].
  { unfold defaultPartComponents in Hn. apply elem_of_cons in Hn as [->|Hn]; [done|].
    repeat (apply elem_of_cons in Hn as [->|Hn]; [eexists; component|]). by apply elem_of_nil in Hn. }
  rewrite (component_size name file Hin). simpl. destruct verify; [|done].
  destruct (of_shown _ Ho name file Hin) as (section & Es & Hsz & _).
  unfold ensurePartComponentPresent, logicalComponentSize. rewrite bool_decide_false by done. rewrite Es, Hsz.
  assert ((len file <? 0) = false) as -> by (apply Z.ltb_ge, len_nonneg). done.
Qed.

(** *** The part *)
Section part.
Context (files : partReadFiles) (seriesRows : list seriesIndexRow) (Ho : opened_files files)
  (Hrows : Forall2 (index_of index) layout seriesRows).
Definition thePart : Part := mkPart dir final [theMetaRow] seriesRows (Some files) theSizes.

Lemma part_readable : readable thePart files index times values layout.
Proof.
  pose proof comp_lens as (_ & Hli & _ & Hlt & Hlv). split; try done; [apply Ho..|apply (cp_placed Hc)|apply (cp_ranges Hc)].
Qed.
Lemma part_indexed : indexed thePart files index times values layout.
Proof.
  destruct (cp_meta Hc) as [_ _ _ _ _ Hcov].
  split; [apply part_readable|apply (fd_index _ _ _ _ _ _ _ _ _ _ _ Hf)|done|apply (cp_sorted Hc)|apply (cp_fits Hc)|].
  unfold Meta. simpl. rewrite (fd_part _ _ _ _ _ _ _ _ _ _ _ Hf). apply Forall_forall. intros pl Hpl.
  destruct (Hcov (pl_row pl)) as (Hmin & Hmax & Hser); [apply list_elem_of_fmap; by exists pl|]. split; try done.
  intros c Hcc. exists theMetaRow. split; [left|]. simpl. apply collectFieldIDs_spec.
  assert (cd_FieldID c ∈ cr_FieldID <$> ir_Columns (pl_row pl)) as (r & Er & Hr)%list_elem_of_fmap.
  { rewrite (row_refs pl Hpl). apply list_elem_of_fmap. by exists c. }
  exists (pl_row pl), r. split_and!; [|done|done]. apply list_elem_of_fmap. by exists pl.
Qed.

(** *** Validation *)
Lemma ref_within name file ref payload : (name, file) ∈ comps -> block_at file ref payload ->
  validatePartBlockRef thePart name ref = Ok tt.
Proof.
  intros Hin [Hsz (before & after & Ef & Hoff) _]. unfold validatePartBlockRef. simpl. rewrite (component_size name file Hin).
  unfold validateBlockRefWithinSize. rewrite Hsz, Hoff, Ef, !len_app, blockFrame_len.
  pose proof (len_nonneg before). pose proof (len_nonneg payload). pose proof (len_nonneg after).
  repeat match goal with |- context [?a <? ?b] => destruct (Z.ltb_spec a b); [lia|] end.
  destruct (Z.eqb_spec (len payload + 8) 0); [lia|]. cbn [orb].
  repeat match goal with |- context [?a <? ?b] => destruct (Z.ltb_spec a b); [lia|] end. done.
Qed.
Notation inv := (coherent files values layout).
Lemma yields_check {A} (check : A -> step partCaches unit) l : (forall a, a ∈ l -> yields inv (check a) tt) -> yields inv (check_each check l) tt.
Proof.
  induction l as [|a l IH]; intros Hl; [apply yields_ret|]. cbn [check_each]. eapply yields_bind; [apply Hl; left|].
  apply IH. intros b Hb. apply Hl. by right.
Qed.
Lemma validateSeriesRefs_yields : yields inv (validateSeriesIndexRefs thePart seriesRows) tt.
Proof.
  apply yields_check. intros si [i Hsi]%list_elem_of_lookup. destruct (Forall2_lookup_r _ _ _ _ _ Hrows Hsi) as (pl & Hpl & Hof).
  apply list_elem_of_lookup_2 in Hpl. pose proof (io_block _ _ _ Hof) as (payload & _ & Hb).
  eapply yields_bind; [apply yields_pure; unfold validateSeriesIndexRef; by rewrite (ref_within indexFile index _ payload) by (component || done)|].
  eapply yields_bind; [|apply yields_ret]. apply yields_wrap. by eapply (readIndexRowBlock_yields _ _ _ _ _ _ part_indexed pl).
Qed.
Lemma validateTimeRef_yields pl : pl ∈ layout -> yields inv (validateTimeRef thePart (pl_row pl)) tt.
Proof.
  intros Hpl. pose proof (layout_ok _ _ _ _ _ _ part_readable pl Hpl) as [Hb [Ht Hfit] _ _ _ _ _ _ _]. unfold validateTimeRef.
  eapply yields_bind; [apply yields_wrap, yields_pure; eapply (ref_within timestampsFile times); [component|exact Hb]|].
  eapply yields_bind; [apply yields_wrap; eapply readBlockPayload_yields, times_block; [apply part_readable|apply part_readable|exact Hb]|].
  eapply yields_bind; [|apply yields_ret]. apply yields_wrap, yields_pure. by apply timeBlock_roundtrip.
Qed.
Lemma validateColumn_yields pl c ref : pl ∈ layout -> column_at values (pl_times pl) (pl_lo pl) (pl_hi pl) c ref ->
  yields inv (validateValueIndex thePart ref) tt.
Proof.
  intros Hpl [(index_ & payload & chunks & Hb & Hm & Ei & Et & En & HF & Hcc) _ _ Hu Hbyte Hsort Hne Hfit].
  assert (pageIndex_ok index_) as Hok by by eapply (pageIndex_of _ _ _ _ _ _ part_readable).
  eapply yields_bind; [apply yields_wrap; eapply readBlockPayload_yields, values_block; [apply part_readable|apply part_readable|exact Hb]|].
  eapply yields_bind; [by apply yields_wrap, yields_pure, pageIndex_roundtrip|].
  apply yields_check. intros page [i Hi]%list_elem_of_lookup. destruct (Forall2_lookup_l _ _ _ _ _ HF Hi) as (samples & _ & Hpage).
  pose proof (pa_block _ _ _ _ _ _ _ Hpage) as (pp & Hpb & _).
  eapply yields_bind; [apply yields_wrap, yields_pure; eapply (ref_within valuesFile values); [component|exact Hpb]|].
  eapply yields_bind; [apply yields_wrap; eapply readBlockPayload_yields, values_block; [apply part_readable|apply part_readable|exact Hpb]|].
  apply yields_ret.
Qed.
Lemma loadIndexRows_yields : yields inv (loadIndexRows thePart) (pl_row <$> layout).
Proof.
  destruct (ix_all _ _ _ _ _ _ part_indexed) as (payload & He & Hb). unfold loadIndexRows.
  eapply yields_bind; [eapply readBlockPayload_yields, index_block; [apply part_readable|apply part_readable|exact Hb]|].
  apply yields_wrap, yields_pure. apply indexRows_roundtrip; [by apply (layout_rows_ok _ _ _ _ _ _ part_indexed)| | |done].
  - unfold len. rewrite length_fmap. apply (cp_fits Hc).
  - by eapply (rows_encoded _ _ _ _ _ _ part_indexed).
Qed.
Lemma validateRow_yields pl : pl ∈ layout -> yields inv (_ ← validateTimeRef thePart (pl_row pl); validateColumnRefs thePart (pl_row pl)) tt.
Proof.
  intros Hpl. eapply yields_bind; [by apply validateTimeRef_yields|]. pose proof (layout_ok _ _ _ _ _ _ part_readable pl Hpl) as Hok.
  apply yields_check. intros ref [i Hi]%list_elem_of_lookup. destruct (Forall2_lookup_r _ _ _ _ _ (pd_columns _ _ _ Hok) Hi) as (c & _ & Hcol).
  pose proof (ca_index _ _ _ _ _ _ Hcol) as (index_ & payload & _ & Hb & _).
  eapply yields_bind; [apply yields_wrap, yields_pure; eapply (ref_within valuesFile values); [component|exact Hb]|].
  by eapply validateColumn_yields.
Qed.
Lemma validateMetadata_ok : validateMetadataRefs thePart final = Ok tt.
Proof.
  destruct Hf as [Hxf (mp & _ & Hmb) (sr & sp & _ & _ & Hsb) _ _ _ _ _ _ _]. destruct (xf_all _ _ _ _ Hxf) as (ip & _ & Hib).
  unfold validateMetadataRefs. rewrite (ref_within indexFile index _ ip) by (component || done). cbn [mbind outcome_bind wrapErr].
  rewrite (ref_within metaindexFile metaIndex _ mp) by (component || done). cbn [mbind outcome_bind wrapErr].
  by rewrite (ref_within seriesIndexFile seriesIndex _ sp) by (component || done).
Qed.
Lemma validateComponents_ok : validatePartComponents (md_Components final) theSizes = Ok tt.
Proof.
  unfold validatePartComponents. rewrite final_components. change (metadataComponents defaultPartComponents) with defaultPartComponents.
  assert (forallb (fun name => bool_decide (is_Some (theSizes !! name))) defaultPartComponents = true) as ->; [|done].
  apply forallb_forall. intros name Hn%list_elem_of_In. apply bool_decide_true. apply elem_of_dom. rewrite theSizes_dom.
  by apply elem_of_list_to_set.
Qed.
Lemma validateBounds_ok : forall rows, (forall si, si ∈ rows -> si ∈ seriesRows) -> validateSeriesIndexRefBounds thePart rows = Ok tt.
Proof.
  induction rows as [|si rows IH]; intros Hsub; [done|]. cbn [validateSeriesIndexRefBounds].
  destruct (proj1 (list_elem_of_lookup _ _) (Hsub si ltac:(left))) as [i Hsi].
  destruct (Forall2_lookup_r _ _ _ _ _ Hrows Hsi) as (pl & _ & Hof). pose proof (io_block _ _ _ Hof) as (payload & _ & Hb).
  unfold validateSeriesIndexRef. rewrite (ref_within indexFile index _ payload) by (component || done). apply IH. intros x Hx. apply Hsub. by right.
Qed.
Lemma validateOpened_yields deep : yields inv (validateOpenedPart thePart deep) tt.
Proof.
  unfold validateOpenedPart. eapply yields_bind; [apply yields_pure, validateComponents_ok|].
  eapply yields_bind; [apply yields_pure, validateMetadata_ok|]. destruct deep; cbn [negb].
  - eapply yields_bind; [apply yields_wrap, loadIndexRows_yields|]. eapply yields_bind; [apply validateSeriesRefs_yields|].
    apply yields_check. intros row (pl & -> & Hpl)%list_elem_of_fmap. by apply validateRow_yields.
  - apply yields_pure, validateBounds_ok. done.
Qed.
End part.

Lemma fresh_coherent files pageConfig blockConfig enable :
  coherent files values layout (mkCaches (newPageCacheIfEnabled pageConfig enable) (newBlockPayloadCacheIfEnabled blockConfig enable)).
Proof.
  split; simpl.
  - intros key got. unfold newPageCacheIfEnabled, newPageDecodeCache. destruct enable; [|done].
    destruct (0 <? 0); [done|]. destruct (_ <=? 0); [done|]. unfold page_get. simpl. by rewrite lookup_empty.
  - intros key got. unfold newBlockPayloadCacheIfEnabled. destruct (negb enable); [done|]. destruct (_ <=? 0); [done|].
    unfold block_get. simpl. by rewrite lookup_empty.
Qed.
Lemma cleared_coherent files caches : coherent files values layout caches ->
  coherent files values layout (mkCaches (pageCache caches) (block_clear (blockCache caches))).
Proof.
  intros [Hpg _]. split; [done|]. intros key got Hg. simpl in Hg. destruct (blockCache caches); [|done].
  unfold block_get in Hg. simpl in Hg. by rewrite lookup_empty in Hg.
Qed.
(** Opening succeeds. *)
Lemma openPart_opens pageConfig blockConfig deep enable : exists files seriesRows caches,
  openPart pageConfig blockConfig dir deep enable = Ok (thePart files seriesRows, caches) /\
  indexed (thePart files seriesRows) files index times values layout /\ coherent files values layout caches.
Proof.
  destruct open_files as (files & Ef & Ho). destruct open_seriesIndex as (seriesRows & Hrows & Hser).
  exists files, seriesRows.
  destruct (validateOpened_yields files seriesRows Ho Hrows deep _ (fresh_coherent files pageConfig blockConfig enable)) as (s' & Ev & Hs').
  eexists. split; [|split; [by apply part_indexed|by apply cleared_coherent]].
  unfold openPart. rewrite open_metadata. cbn [mbind outcome_bind]. rewrite Ef. cbn [mbind outcome_bind].
  rewrite (open_metaIndex files Ho). cbn [mbind outcome_bind]. rewrite (Hser files Ho). cbn [mbind outcome_bind].
  rewrite (open_sizes files deep Ho). cbn [mbind outcome_bind]. fold (thePart files seriesRows). by rewrite Ev.
Qed.
End opened.
