(* ===== verification/SstFlush.v ===== *)
(** * What a written part serves

    What a streaming writer accepted and closed is what every query and every
    scan of the opened part gives back; and the batch writer, which writes all
    columns of a snapshot at once. *)
From S2P Require Import Prelude GoBinary Model Codec Readers SstTime SstTimeProofs SstValues SstValuesProofs SstSamples SstPage SstPageProofs Runtime Versions MemCompact StoreSpec EngineMerge Tombstones QueryMerge SstMeta SstPlain SstPack SstCache SstRead SstScan SstLayout SstPlaced SstReadProofs SstIndexed SstStream SstOpened.
From stdpp Require Import prelude strings list sorting gmap.
From Stdlib Require Import ZArith Lia.
#[local] Open Scope Z_scope.

Definition groupID (columns : list ColumnData) : Z := match columns with [] => 0 | c :: _ => cd_SeriesID c end.

(** What the caller gives a writer. *)
Record writable `{GoRuntime} (schema : Z * Z -> Z) (opts : WriteOptions) (groups : list (list ColumnData)) : Prop := {
  wr_storable : Forall (fun g => g <> [] /\ series_storable opts g) groups;
  wr_sorted : StronglySorted Z.lt (groupID <$> groups);
  wr_schema g c : g ∈ groups -> c ∈ g -> cd_FieldType c = schema (keyOf c);
  wr_fits : fits (len groups);
  wr_total : Z.of_nat (sum_list_with samplesOf groups) <= maxInt;
}.
(** The identity of the part and the clock. *)
Definition part_named (level : Z) (id : bytes) (now : Z) : Prop := is_i64 level /\ string_ok id /\ is_i64 now.
(** The file system holds files an [int] can index. *)
Definition files_small (dir : directory) : Prop := map_Forall (fun _ file => len file <= maxInt) dir.

Section part.
Context `{lib : PayloadLib} `{!PayloadLaws lib} `{GoRuntimeLaws} `{FramePoolLaws}.

Lemma stored_series_ids groups layout : Forall2 (fun columns pl => Forall (fun c => cd_SeriesID c = seriesOf pl) columns) groups layout ->
  Forall (fun g => g <> []) groups -> groupID <$> groups = seriesOf <$> layout.
Proof.
  induction 1 as [|g pl groups layout Hg HF IH]; intros Hne; [done|]. apply Forall_cons in Hne as [Hg' Hne]. rewrite !fmap_cons, IH by done.
  f_equal. destruct Hg as [|c g Hcc _]; [done|]. simpl. exact Hcc.
Qed.
Lemma sorted_fmap {A} (f : A -> Z) l : StronglySorted Z.lt (f <$> l) -> StronglySorted (fun a b => f a < f b) l.
Proof.
  induction l as [|a l IH]; [constructor|]. rewrite fmap_cons. intros [Hs HF]%StronglySorted_inv. constructor; [by apply IH|].
  by rewrite Forall_fmap in HF.
Qed.
Lemma stored_concat groups layout : Forall2 stored_series groups layout ->
  Forall2 stored_column (concat (sortByField <$> groups)) (storedColumns layout).
Proof.
  induction 1 as [|g pl groups layout Hg HF IH]; [constructor|]. unfold storedColumns. rewrite !fmap_cons. cbn [concat]. by apply Forall2_app.
Qed.

(** The part a closed writer leaves. *)
Lemma written_closed schema opts groups path level id now u w pm dir w' : writable schema opts groups -> part_named level id now ->
  addAll groups (NewPartWriter path level id opts now) = (Ok u, w) -> Close w = (Ok (pm, dir), w') -> files_small dir ->
  exists times values meta final metaIndex index seriesIndex pack data rowRefs layout total,
    closed_part times values meta dir final metaIndex index seriesIndex pack data rowRefs layout total /\
    Forall2 stored_series groups layout.
Proof.
  intros [Hst Hsort Hsch Hfit Htot] (Hlv & Hid & Hnow) Ha Hcl Hsmall.
  destruct (addAll_inv groups _ [] [] u w (NewPartWriter_inv path level id opts now) Hst Ha) as (layout & Hw & Eo & _ & part & Em & Epid & Eplv & Eppath).
  rewrite app_nil_l in Hw. destruct Hw as [Hopen Hrows Hsound Hpl Hrng Hend Hss Hids Hm].
  unfold Close in Hcl. rewrite Hopen in Hcl. destruct (len (pw_rows w) =? 0); [done|].
  injection Hcl as Hfin _. destruct (finishPart_finished _ _ _ _ _ _ Hfin) as (final & metaIndex & index & seriesIndex & pack & rowRefs & Hf & _).
  destruct (fd_metadata _ _ _ _ _ _ _ _ _ _ _ Hf) as (data & Hd & _).
  exists (times_of (pw_files w)), (values_of (pw_files w)), (pw_meta w), final, metaIndex, index, seriesIndex, pack, data, rowRefs, layout,
    (Z.of_nat (sum_list_with samplesOf groups)). split; [|done].
  assert (groupID <$> groups = seriesOf <$> layout) as Eids.
  { eapply stored_series_ids; [exact Hids|]. eapply Forall_impl; [exact Hst|]. by intros g []. }
  rewrite Hrows in Hf, Hm. split; try done.
  - apply sorted_fmap. by rewrite <- Eids.
  - unfold len. by rewrite <- (Forall2_length _ _ _ Hss).
  - lia.
  - by rewrite Em.
  - by rewrite Em.
  - rewrite Em. simpl. by rewrite Epid.
  - rewrite Em. simpl. by rewrite Eplv.
  - rewrite Em. simpl. by rewrite Eppath.
  - split; [apply (Hsmall packFile), (fd_packFile _ _ _ _ _ _ _ _ _ _ _ Hf)|by apply (Hsmall metadataFile)].
Qed.

(** What an open part promises: for every query without value predicates, the
    query and the scan return the versions of [stored], and the caches stay
    in a state from which they do. *)
Record serves (schema : Z * Z -> Z) (stored : list ColumnData) (part : Part) (caches : partCaches) : Prop := {
  sv_answers : exists inv : partCaches -> Prop, inv caches /\ forall query, plain_query query -> exists out,
    yields inv (PartQuery part query) out /\
    (forall fuel, (length out < fuel)%nat -> yields inv (scanned part query fuel) (mkStream out None)) /\
    answers schema query (fun k => of_column k stored) out;
}.
Lemma written_serves schema opts groups path level id now u w pm dir w' : writable schema opts groups -> part_named level id now ->
  addAll groups (NewPartWriter path level id opts now) = (Ok u, w) -> Close w = (Ok (pm, dir), w') -> files_small dir ->
  exists stored, Forall2 stored_column (concat (sortByField <$> groups)) stored /\
  forall pageConfig blockConfig deep enable, exists part caches,
    openPart pageConfig blockConfig dir deep enable = Ok (part, caches) /\ serves schema stored part caches.
Proof.
  intros Hw Hn Ha Hcl Hsmall.
  destruct (written_closed _ _ _ _ _ _ _ _ _ _ _ _ Hw Hn Ha Hcl Hsmall) as (times & values & meta & final & metaIndex & index & seriesIndex & pack
    & data & rowRefs & layout & total & Hc & Hss).
  exists (storedColumns layout). pose proof (stored_concat _ _ Hss) as Hst. split; [done|]. intros pageConfig blockConfig deep enable.
  destruct (openPart_opens _ _ _ _ _ _ _ _ _ _ _ _ _ Hc pageConfig blockConfig deep enable) as (files & seriesRows & caches & Eo & Hix & Hco).
  eexists _, caches. split; [exact Eo|]. split. exists (coherent files values layout). split; [done|]. intros query Hq.
  exists (allExpected query layout). split_and!.
  - by eapply PartQuery_yields.
  - intros fuel Hf. by eapply scan_yields.
  - apply (allExpected_answers times values); [apply (cp_placed _ _ _ _ _ _ _ _ _ _ _ _ _ Hc)|apply (cp_sorted _ _ _ _ _ _ _ _ _ _ _ _ _ Hc)|..].
    + intros c Hcc. apply list_elem_of_lookup in Hcc as [i Hi]. destruct (Forall2_lookup_r _ _ _ _ _ Hst Hi) as (c0 & Hc0 & [Hk Hty _]).
      rewrite Hty, Hk. apply list_elem_of_lookup_2, elem_of_concat in Hc0 as (g & Hg & Hgs). apply list_elem_of_fmap in Hgs as (g0 & -> & Hg0).
      rewrite sortByField_perm in Hg. by eapply (wr_schema _ _ _ Hw).
    + intros c Hcc. apply elem_of_concat in Hcc as (l & Hcl' & Hl). apply list_elem_of_fmap in Hl as (pl & -> & Hpl).
      pose proof (cp_placed _ _ _ _ _ _ _ _ _ _ _ _ _ Hc) as HF. rewrite Forall_forall in HF.
      destruct (HF pl Hpl) as [_ _ Hcols _ _ _ _ _ _]. apply list_elem_of_lookup in Hcl' as [i Hi].
      destruct (Forall2_lookup_l _ _ _ _ _ Hcols Hi) as (r & _ & Hcol). apply Hcol.
Qed.
End part.

(** * Writing all columns of a snapshot at once

    [WritePartWithOptions] is the streaming writer fed with the runs of
    columns of the same series, and the runs of a sorted snapshot are its
    series in order. *)
Section flush.
Context `{lib : PayloadLib} `{!PayloadLaws lib} `{GoRuntimeLaws} `{FramePoolLaws}.

(** ** The loop over the groups is the streaming writer *)
Definition group_ok (g : columnGroup) : Prop :=
  cg_columns g <> [] /\ Forall (fun c => cd_SeriesID c = cg_seriesID g /\ cd_Samples c <> []) (cg_columns g).
Lemma checkSeriesColumns_run id columns : Forall (fun c => cd_SeriesID c = id /\ cd_Samples c <> []) columns ->
  checkSeriesColumns id columns = Ok tt.
Proof.
  induction 1 as [|c l [Hid Hne] HF IH]; [done|]. simpl. rewrite Hid, Z.eqb_refl. cbn [negb].
  destruct (len (cd_Samples c) =? 0) eqn:E; [by apply len_none in E|done].
Qed.
Definition withRows (w : PartWriter) (files : partFiles) (rows : list indexRow) (meta : metadata) : PartWriter :=
  mkPartWriter (pw_path w) files (pw_opts w) rows meta false.
Lemma AddSeries_run g w : group_ok g -> pw_closed w = false -> AddSeries (cg_columns g) w =
  match writeSeries (cg_seriesID g) (cg_columns g) (pw_opts w) (pw_files w) with
  | (Ok row, files) => (Ok tt, withRows w files (pw_rows w ++ [row])
      (set_md_Part (pw_meta w) (updateMeta (md_Part (pw_meta w)) row (sortByField (cg_columns g)))))
  | (Err e, files) => (Err e, withRows w files (pw_rows w) (pw_meta w))
  | (Panic p, files) => (Panic p, withRows w files (pw_rows w) (pw_meta w))
  end.
Proof.
  intros [Hne HF] Ho. unfold AddSeries. rewrite Ho. destruct (cg_columns g) as [|c cs]; [done|].
  pose proof HF as [[Hid _] _]%Forall_cons. rewrite Hid, checkSeriesColumns_run by done.
  by destruct (writeSeries _ _ _ _) as [[] ?].
Qed.
Lemma writeGroups_addAll groups : forall w, pw_closed w = false -> Forall group_ok groups ->
  match writeGroups groups (pw_opts w) (pw_rows w) (pw_meta w) (pw_files w) with
  | (Ok (rows, meta), files) => addAll (cg_columns <$> groups) w = (Ok tt, withRows w files rows meta)
  | (Err e, _) => (addAll (cg_columns <$> groups) w).1 = Err e
  | (Panic p, _) => (addAll (cg_columns <$> groups) w).1 = Panic p
  end.
Proof.
  induction groups as [|g groups IH]; intros w Ho HF.
  { simpl. f_equal. destruct w. simpl in *. unfold withRows. simpl. by rewrite Ho. }
  apply Forall_cons in HF as [Hg HF]. rewrite fmap_cons. cbn [writeGroups addAll]. unfold mbind, step_bind. rewrite (AddSeries_run g w Hg Ho).
  destruct (writeSeries _ _ _ _) as [[row|e|pn] files]; [|done..].
  exact (IH (withRows w files _ _) eq_refl HF).
Qed.
(** The batch writer and the streaming writer leave the same part. *)
Lemma WritePart_streams path level id now columns opts : columns <> [] -> Forall group_ok (groupColumnRuns columns) ->
  groupColumnRuns columns <> [] ->
  match WritePartWithOptions path level id now columns opts with
  | Ok out => exists w w', addAll (cg_columns <$> groupColumnRuns columns) (NewPartWriter path level id opts now) = (Ok tt, w) /\
      Close w = (Ok out, w')
  | _ => True
  end.
Proof.
  intros Hne HF Hg. unfold WritePartWithOptions.
  assert ((len columns =? 0) = false) as ->. { destruct (len columns =? 0) eqn:E; [by apply len_none in E|done]. }
  pose proof (writeGroups_addAll (groupColumnRuns columns) (NewPartWriter path level id opts now) eq_refl HF) as Hrun.
  unfold writeColumns. simpl in Hrun. destruct (writeGroups _ _ _ _ _) as [[[rows meta]|e|pn] files] eqn:Ew; [|done..].
  cbn [mbind outcome_bind]. destruct (finishPart files meta rows path) as [out| |] eqn:Ef; [|done..].
  eexists _, _. split; [exact Hrun|]. unfold Close. simpl.
  assert ((len rows =? 0) = false) as ->; [|by rewrite Ef].
  destruct (len rows =? 0) eqn:E; [|done]. apply len_none in E. subst rows. exfalso. clear -Ew Hg.
  assert (forall groups rows meta files rows' meta' files', groups <> [] \/ rows <> [] ->
    writeGroups groups opts rows meta files = (Ok (rows', meta'), files') -> rows' <> []) as Hsome.
  { clear. induction groups as [|g groups IH]; intros rows meta files rows' meta' files' Hor E.
    - injection E as <- _ _. destruct Hor; done.
    - cbn [writeGroups] in E. step_inv E row s1 E1. eapply IH; [|exact E]. right. by destruct rows. }
  by eapply Hsome; [left; exact Hg|exact Ew|].
Qed.

(** ** The runs of a sorted snapshot *)
Lemma takeSeries_spec id columns : let '(run, rest) := takeSeries id columns in
  columns = run ++ rest /\ Forall (fun c => cd_SeriesID c = id) run /\ (forall c rest', rest = c :: rest' -> cd_SeriesID c <> id).
Proof.
  induction columns as [|c l IH]; simpl; [done|]. zcase (cd_SeriesID c =? id).
  - destruct (takeSeries id l) as [run rest]. destruct IH as (-> & HF & Hr). split_and!; [done|by constructor|done].
  - split_and!; [done|constructor|]. by intros ? ? [= <- <-].
Qed.
Lemma seriesRuns_spec : forall fuel columns, (length columns <= fuel)%nat -> StronglySorted column_lt columns ->
  let groups := seriesRuns fuel columns in
  concat (cg_columns <$> groups) = columns /\ Forall (fun g => cg_columns g <> [] /\ Forall (fun c => cd_SeriesID c = cg_seriesID g) (cg_columns g)) groups /\
  StronglySorted Z.lt (cg_seriesID <$> groups) /\ (forall id, id ∈ cg_seriesID <$> groups -> exists c, c ∈ columns /\ cd_SeriesID c = id).
Proof.
  induction fuel as [|fuel IH]; intros columns Hf Hs; cbn [seriesRuns].
  { destruct columns; [|simpl in Hf; lia]. split_and!; [done|constructor|constructor|]. by intros id ?%elem_of_nil. }
  destruct columns as [|c columns]. { split_and!; [done|constructor|constructor|]. by intros id ?%elem_of_nil. }
  pose proof (takeSeries_spec (cd_SeriesID c) columns) as Ht. destruct (takeSeries _ _) as [run rest]. destruct Ht as (-> & Hrun & Hrest).
  apply StronglySorted_inv in Hs as [Hs HF]. pose proof (StronglySorted_app_1_r _ _ _ Hs) as Hsr.
  destruct (IH rest) as (Hcat & Hok & Hsort & Hin); [simpl in Hf; rewrite length_app in Hf; lia|done|]. rewrite !fmap_cons.
  cbn [cg_columns cg_seriesID concat]. rewrite Hcat. split_and!; [done|constructor; [split; [done|by constructor]|done]| |].
  - constructor; [done|]. apply Forall_forall. intros id (d & Hd & <-)%Hin. destruct rest as [|d0 rest]; [by apply elem_of_nil in Hd|].
    specialize (Hrest d0 rest eq_refl). rewrite Forall_forall in HF.
    assert (cd_SeriesID c < cd_SeriesID d0) as Hlt.
    { assert (column_lt c d0) as [Hl|[He _]] by (apply HF; set_solver); simpl in *; [done|]. congruence. }
    apply elem_of_cons in Hd as [->|Hd]; [done|]. apply StronglySorted_inv in Hsr as [_ HF0]. rewrite Forall_forall in HF0.
    destruct (HF0 d Hd) as [Hl|[He _]]; simpl in *; lia.
  - intros id [->|Hid]%elem_of_cons; [exists c; split; [left|done]|]. destruct (Hin id Hid) as (d & Hd & <-). exists d. split; [|done]. set_solver.
Qed.

(** A snapshot the batch writer can store. *)
Record flushable (schema : Z * Z -> Z) (opts : WriteOptions) (columns : list ColumnData) : Prop := {
  fl_some : columns <> [];
  fl_sorted : StronglySorted column_lt columns;
  fl_columns : Forall (column_storable opts) columns;
  fl_ids : Forall (fun c => is_u64 (cd_SeriesID c)) columns;
  fl_schema c : c ∈ columns -> cd_FieldType c = schema (keyOf c);
  fl_fits : fits (len columns);
  fl_total : fits (Z.of_nat (samplesOf columns));
}.
Lemma orderedColumn_id c : strict_column c -> orderedColumn c = c.
Proof. intros Hs. unfold orderedColumn. by rewrite samplesSorted_strict. Qed.
Lemma groupColumnRuns_sorted opts columns : StronglySorted column_lt columns -> Forall (column_storable opts) columns ->
  groupColumnRuns columns = seriesRuns (length columns) columns.
Proof.
  intros Hs HF. unfold groupColumnRuns. change (sortColumnsForWrite columns) with (sortColumns columns). rewrite (sortColumns_id columns Hs).
  assert (map orderedColumn columns = columns) as ->; [|done]. clear Hs.
  induction HF as [|c l [_ _ _ Hc _ _] HF IH]; [done|]. simpl. by rewrite orderedColumn_id, IH.
Qed.
Lemma collectTimestamps_length columns : Forall strict_column columns -> (length (collectTimestamps columns) <= samplesOf columns)%nat.
Proof.
  intros HF. destruct (collectTimestamps_exact columns HF) as [Hs Hin].
  assert (samplesOf columns = length (concat ((fun c => map vs_Timestamp (cd_Samples c)) <$> columns))) as ->.
  { clear. induction columns as [|c l IH]; [done|]. unfold samplesOf in *. rewrite fmap_cons. cbn [concat sum_list_with]. rewrite length_app, length_map. lia. }
  apply NoDup_incl_length.
  - apply NoDup_ListNoDup. clear -Hs. induction Hs as [|x l Hs IH HF]; [constructor|]. constructor; [|done]. intros Hx.
    rewrite Forall_forall in HF. specialize (HF x Hx). lia.
  - intros t Ht%list_elem_of_In. apply Hin in Ht as (c & s & Hc & Hs' & <-). apply list_elem_of_In, elem_of_concat.
    exists (map vs_Timestamp (cd_Samples c)). split; [apply list_elem_of_fmap; by exists s|]. apply list_elem_of_fmap. by exists c.
Qed.
Lemma sorted_fields id g : StronglySorted column_lt g -> Forall (fun c => cd_SeriesID c = id) g -> StronglySorted field_lt g.
Proof.
  intros Hs Hid. eapply StronglySorted_impl_in; [|exact Hs]. intros x y Hx Hy Hlt. rewrite Forall_forall in Hid.
  destruct Hlt as [Hl|[_ Hl]]; simpl in *; [rewrite (Hid x Hx), (Hid y Hy) in Hl; lia|done].
Qed.
Lemma sortByField_id g : StronglySorted field_lt g -> sortByField g = g.
Proof.
  intros Hs. apply (sorted_perm_unique field_lt); [|done|apply sortByField_perm]. apply sortByField_sorted.
  clear -Hs. induction Hs as [|c l Hs IH HF]; [constructor|]. rewrite fmap_cons. constructor; [|done].
  intros (d & E & Hd)%list_elem_of_fmap. rewrite Forall_forall in HF. specialize (HF d Hd). unfold field_lt in HF. lia.
Qed.
Lemma samplesOf_app l1 l2 : samplesOf (l1 ++ l2) = (samplesOf l1 + samplesOf l2)%nat.
Proof. unfold samplesOf. apply sum_list_with_app. Qed.
Lemma samplesOf_concat gs : sum_list_with samplesOf gs = samplesOf (concat gs).
Proof. induction gs as [|g gs IH]; [done|]. simpl. by rewrite IH, samplesOf_app. Qed.
Lemma in_group (gs : list (list ColumnData)) g : g ∈ gs -> exists l1 l2, concat gs = l1 ++ g ++ l2.
Proof.
  intros (a & b & ->)%list_elem_of_split. exists (concat a), (concat b). by rewrite concat_app.
Qed.

(** A group of a sorted snapshot is a series the writer can store. *)
Lemma group_storable schema opts columns l1 g l2 id : flushable schema opts columns -> columns = l1 ++ g ++ l2 -> g <> [] ->
  Forall (fun c => cd_SeriesID c = id) g -> series_storable opts g /\ sortByField g = g.
Proof.
  intros [_ Hs Hcols Hids _ Hfit Htot] E Hne Hid.
  assert (forall P, Forall P columns -> Forall P g) as Hsub by (intros P; rewrite E, !Forall_app; naive_solver).
  assert (StronglySorted field_lt g) as Hfld.
  { apply (sorted_fields id); [|done]. rewrite E in Hs. by apply StronglySorted_app_1_r, StronglySorted_app_1_l in Hs. }
  pose proof (sortByField_id g Hfld) as Esort. split; [|done].
  assert (length g <= length columns)%nat as Hlen by (rewrite E, !length_app; lia).
  assert (samplesOf g <= samplesOf columns)%nat as Hsum by (rewrite E, !samplesOf_app; lia).
  assert (Forall strict_column g) as Hst by (eapply Forall_impl; [exact (Hsub _ Hcols)|]; by intros c []).
  split; [by apply Hsub| |done|alloc_lia| |by apply Hsub].
  - clear -Hfld. induction Hfld as [|c l Hs IH HF]; [constructor|]. rewrite fmap_cons. constructor; [|done].
    intros (d & E & Hd)%list_elem_of_fmap. rewrite Forall_forall in HF. specialize (HF d Hd). unfold field_lt in HF. lia.
  - rewrite Esort. pose proof (collectTimestamps_length g Hst). alloc_lia.
Qed.
Lemma flush_writable schema opts columns : flushable schema opts columns ->
  writable schema opts (cg_columns <$> groupColumnRuns columns) /\ Forall group_ok (groupColumnRuns columns) /\
  groupColumnRuns columns <> [] /\ concat (sortByField <$> (cg_columns <$> groupColumnRuns columns)) = columns.
Proof.
  intros Hfl. pose proof Hfl as [Hne Hs Hcols Hids Hsch Hfit Htot].
  rewrite (groupColumnRuns_sorted opts columns Hs Hcols). destruct (seriesRuns_spec (length columns) columns ltac:(lia) Hs) as (Hcat & Hok & Hsort & _).
  set (groups := seriesRuns (length columns) columns) in *.
  assert (forall g, g ∈ groups -> exists l1 l2, columns = l1 ++ cg_columns g ++ l2) as Hin.
  { intros g Hg. rewrite <- Hcat. apply in_group, list_elem_of_fmap. by exists g. }
  assert (forall g, g ∈ groups -> series_storable opts (cg_columns g) /\ sortByField (cg_columns g) = cg_columns g) as Hst.
  { intros g Hg. destruct (Hin g Hg) as (l1 & l2 & E). rewrite Forall_forall in Hok. destruct (Hok g Hg) as [Hgne Hid]. by eapply group_storable. }
  split_and!.
  - split.
    + apply Forall_fmap, Forall_forall. intros g Hg. split; [|by apply Hst]. rewrite Forall_forall in Hok. by apply Hok.
    + assert (groupID <$> (cg_columns <$> groups) = cg_seriesID <$> groups) as ->; [|done]. rewrite <- list_fmap_compose.
      apply list_fmap_ext. intros i g Hg%list_elem_of_lookup_2. rewrite Forall_forall in Hok. destruct (Hok g Hg) as [Hgne Hid]. simpl.
      destruct Hid; [done|]. simpl. done.
    + intros g c (g0 & -> & Hg)%list_elem_of_fmap Hc. destruct (Hin g0 Hg) as (l1 & l2 & E). apply Hsch. rewrite E. set_solver.
    + assert (length groups <= length columns)%nat as Hl; [|unfold len; rewrite length_fmap; alloc_lia].
      rewrite <- Hcat. clear -Hok. induction Hok as [|g l [Hg _] HF IH]; [done|]. rewrite fmap_cons. simpl. rewrite length_app.
      destruct (cg_columns g); [done|]. simpl. lia.
    + rewrite samplesOf_concat, Hcat. alloc_lia.
  - rewrite Forall_forall in Hok |- *. intros g Hg. destruct (Hok g Hg) as [Hgne Hid]. split; [done|]. destruct (Hin g Hg) as (l1 & l2 & E).
    rewrite Forall_forall in Hid |- *. intros c Hc. split; [by apply Hid|]. rewrite Forall_forall in Hcols.
    destruct (Hcols c) as [_ _ ? _ _ _]; [rewrite E; set_solver|done].
  - intros E. apply Hne. rewrite <- Hcat, E. done.
  - rewrite <- Hcat. f_equal. rewrite <- list_fmap_compose. apply list_fmap_ext. intros i g Hg%list_elem_of_lookup_2. simpl. by apply Hst.
Qed.
Lemma flushed_serves schema opts columns path level id now pm dir : flushable schema opts columns -> part_named level id now ->
  WritePartWithOptions path level id now columns opts = Ok (pm, dir) -> files_small dir ->
  exists stored, Forall2 stored_column columns stored /\
  forall pageConfig blockConfig deep enable, exists part caches,
    openPart pageConfig blockConfig dir deep enable = Ok (part, caches) /\ serves schema stored part caches.
Proof.
  intros Hfl Hn Hw Hsmall. destruct (flush_writable schema opts columns Hfl) as (Hwr & Hok & Hgne & Ecat).
  pose proof (WritePart_streams path level id now columns opts (fl_some _ _ _ Hfl) Hok Hgne) as Hstream. rewrite Hw in Hstream.
  destruct Hstream as (w & w' & Ha & Hcl).
  destruct (written_serves schema opts _ path level id now tt w pm dir w' Hwr Hn Ha Hcl Hsmall) as (stored & Hst & Hopen).
  rewrite Ecat in Hst. by exists stored.
Qed.
End flush.
