(* ===== verification/SstTheorems.v ===== *)
(** * Theorems about SSTable parts

    A part written from a snapshot, opened and queried, answers like the
    snapshot; a series written in two rows does not. *)
From S2P Require Import Prelude GoBinary Model Codec Readers SstTime SstTimeProofs SstValues SstValuesProofs SstSamples SstPage SstPageProofs Runtime Versions MemCompact StoreSpec EngineMerge Tombstones QueryMerge SstMeta SstPlain SstPack SstCache SstRead SstScan SstLayout SstPlaced SstReadProofs SstIndexed SstStream SstOpened SstFlush.
From stdpp Require Import prelude strings list sorting gmap.
From Stdlib Require Import ZArith Lia.
#[local] Open Scope Z_scope.


(** ** An example *)
#[local] Existing Instances refRuntime refRuntimeLaws zeroPool zeroPoolLaws storeLib storeLaws.
Definition ex_opts : WriteOptions := mkWriteOptions snappyOptions None false.
Definition ex_int (t seq v : Z) : VersionedSample := mkSample t seq (Int64Value v).
Definition ex_columns : list ColumnData :=
  [mkColumnData 7 1 FieldInt64 [ex_int 1000 1 10; ex_int 1010 2 20]; mkColumnData 7 2 FieldInt64 [ex_int 1010 2 5];
   mkColumnData 9 1 FieldInt64 [ex_int 1005 3 7]].
Definition ex_written : outcome (PartMeta * directory) := WritePartWithOptions [] 0 (str "p1") 5 ex_columns ex_opts.
Definition ex_meta : PartMeta := match ex_written with Ok (meta, _) => meta | _ => mkPartMeta [] 0 0 0 0 0 0 0 0 0 [] end.
Definition ex_dir : directory := match ex_written with Ok (_, dir) => dir | _ => ∅ end.
Definition ex_pages : pageDecodeCacheConfig := ConfigurePageDecodeCache 0 0.
Definition ex_blocks : blockPayloadCacheConfig := ConfigureBlockPayloadCache 0 0.
Definition ex_query : StorageQuery := rangeQuery {[ 7 ]} ∅ 1005 2000.

Ltac ex_page := split; [by_decide|repeat constructor; vm_compute; done|done|by_decide|
  split_and!; [by_decide|by_decide|]; intros codecID payload Hev; vm_compute in Hev; injection Hev as <- <-; by_decide].
Lemma ex_column_storable c : c ∈ ex_columns -> column_storable ex_opts c.
Proof.
  unfold ex_columns. intros Hc. repeat (apply elem_of_cons in Hc as [->|Hc]; [|]); [..|by apply elem_of_nil in Hc];
    (split; [vm_compute (pageColumns _ _ _ _); repeat (apply Forall_cons; split); [..|constructor]; ex_page
            |repeat constructor; vm_compute; done|done| |by_decide|by_decide]).
  all: unfold strict_column; repeat constructor.
Qed.
Lemma ex_flushable : flushable (fun _ => FieldInt64) ex_opts ex_columns.
Proof.
  split; [done|by_decide|apply Forall_forall, ex_column_storable|by_decide| |by_decide|by_decide].
  intros c Hc. unfold ex_columns in Hc. set_solver.
Qed.
Lemma ex_plain : plain_query ex_query.
Proof. split; [done|done|]. unfold sane_range. cbn. lia. Qed.


(** ** A series in two rows *)
Definition opened_query (dir : directory) (query : StorageQuery) : outcome (list ColumnData) :=
  '(part, caches) ← openPart ex_pages ex_blocks dir true true; (PartQuery part query caches).1.
Definition split_dir : directory :=
  match (_ ← addAll [[mkColumnData 7 1 FieldInt64 [ex_int 1000 1 10]]; [mkColumnData 7 1 FieldInt64 [ex_int 2000 2 20]]]; Close)
          (NewPartWriter [] 0 (str "p1") ex_opts 5) with
  | (Ok (_, dir), _) => dir
  | _ => ∅
  end.
