(* ===== verification/Ports.v ===== *)
(** * What a shard asks of its log and of its parts (internal/engine/ports.go)

    The shard is written against interfaces: the write-ahead log, the part
    manager with its writers, readers and batch readers, and the files of the
    shard directory.  [WalStore] and [PartStore] are these interfaces.  Every
    call is a step on the state of the store, kept also when it fails: [W] is
    the log with its directory, [D] the shard directory with the caches of the
    open parts; [P], [X] and [B] are the handles of an open part, of a writer
    and of a batch reader. *)
From S2P Require Import Prelude Model WalRoundtrip WalLog Runtime Versions StoreSpec MemTheorems EngineMerge QueryMerge SstMeta SstPack.
From stdpp Require Import prelude strings list.
From Stdlib Require Import ZArith Lia.
#[local] Open Scope Z_scope.

(** [walStore] and [typedWalStore]; [wal_Open] is [deps.openWAL] on the
    directory the closed log left. *)
Class WalStore (W : Type) := {
  wal_Open : step W unit;
  wal_Append : list ResolvedPoint -> bool -> step W unit;
  wal_AppendTyped : ResolvedTypedBatch -> list Z -> bool -> step W unit;
  wal_AppendTombstones : list Tombstone -> bool -> step W unit;
  wal_ReplayRecords : step W (list WalRecord);
  wal_Checkpoint : step W unit;
  wal_Close : step W unit;
}.

(** [partManager], [partReader], [partWriter], [seriesBatchReader] and
    [fileOps]; [fs_ReadDir] lists the shard directory: names, and whether they
    are directories. *)
Class PartStore (D P X B : Type) := {
  pt_LoadManifest : step D Manifest;
  pt_WriteManifest : Manifest -> step D unit;
  pt_OpenPart : bytes -> step D P;
  pt_OpenPartTrusted : bytes -> step D P;
  pt_NewWriter : Z -> bytes -> WriteOptions -> step D X;
  pw_AddSeries : X -> list ColumnData -> step D X;
  pw_Close : X -> step D PartMeta;
  pw_Abort : X -> step D unit;
  pr_Meta : P -> PartMeta;
  pr_Close : P -> step D unit;
  pr_ScanColumns : P -> StorageQuery -> step D ColumnStream;
  pr_SeriesIDs : P -> StorageQuery -> step D (list Z);
  pr_QuerySeriesIDs : P -> StorageQuery -> list Z -> step D (list ColumnData);
  pt_NewSeriesBatchReader : P -> StorageQuery -> step D B;
  br_SeriesCount : B -> Z;
  br_AppendSeriesIDs : B -> list Z -> list Z;
  br_QuerySeriesID : B -> Z -> step D (list ColumnData);
  fs_RemoveAll : bytes -> step D unit;
  fs_AvailableBytes : step D Z;
  fs_directorySize : D -> bytes -> outcome Z;
  fs_ReadDir : step D (list (bytes * bool));
}.

(** [filepath.Base] of a path: what follows the last separator. *)
Definition baseName (path : bytes) : bytes :=
  foldl (fun base b => if b =? 47 then [] else base ++ [b]) [] path.

(** ** The contract of the log

    [wal_holds w points tombstones]: replaying the log returns these points
    (their fields possibly in another order) and these tombstones.  A call that
    fails may still have taken effect: the record may have been written before
    its fsync failed.  Opening and replaying can fail only when the store is not
    [wal_healthy]. *)
Definition replayed_as (p p' : ResolvedPoint) : Prop :=
  p' = mkResolvedPoint (rp_Database p) (rp_RetentionPolicy p) (rp_Measurement p) (rp_Tags p)
         (rp_SeriesID p) (rp_Timestamp p) (rp_WriteSeq p) (rp_Fields p') /\ rp_Fields p' ≡ₚ rp_Fields p.
Class WalLaws (W : Type) `{WalStore W} := {
  wal_holds : W -> list ResolvedPoint -> list Tombstone -> Prop;
  wal_accepts : list ResolvedPoint -> Prop;
  wal_accepts_typed : ResolvedTypedBatch -> list Z -> Prop;
  wal_accepts_tombstone : Tombstone -> Prop;
  wal_healthy : W -> Prop;
  wal_Open_spec w points ts : wal_holds w points ts ->
    ends (fun _ w' => wal_holds w' points ts /\ (wal_healthy w -> wal_healthy w'))
         (fun _ w' => wal_holds w' points ts /\ ~ wal_healthy w) (wal_Open w);
  wal_Append_spec w points ts batch sync : wal_holds w points ts -> wal_accepts batch ->
    ends (fun _ w' => wal_holds w' (points ++ batch) ts /\ (wal_healthy w -> wal_healthy w'))
         (fun _ w' => (wal_holds w' points ts \/ wal_holds w' (points ++ batch) ts) /\ (wal_healthy w -> wal_healthy w')) (wal_Append batch sync w);
  wal_AppendTyped_spec w points ts batch rows rowPoints sync : wal_holds w points ts ->
    resolvedPointsFromTypedBatch batch rows = Ok rowPoints -> wal_accepts_typed batch rows ->
    ends (fun _ w' => wal_holds w' (points ++ rowPoints) ts /\ (wal_healthy w -> wal_healthy w'))
         (fun _ w' => (wal_holds w' points ts \/ wal_holds w' (points ++ rowPoints) ts) /\ (wal_healthy w -> wal_healthy w')) (wal_AppendTyped batch rows sync w);
  wal_AppendTombstones_spec w points ts t sync : wal_holds w points ts -> wal_accepts_tombstone t ->
    ends (fun _ w' => wal_holds w' points (ts ++ [t]) /\ (wal_healthy w -> wal_healthy w'))
         (fun _ w' => (wal_holds w' points ts \/ wal_holds w' points (ts ++ [t])) /\ (wal_healthy w -> wal_healthy w')) (wal_AppendTombstones [t] sync w);
  wal_ReplayRecords_spec w points ts : wal_holds w points ts ->
    ends (fun records w' => wal_holds w' points ts /\ (wal_healthy w -> wal_healthy w') /\
            Forall2 replayed_as points (concat (rec_Points <$> records)) /\ ts = concat (rec_Tombstones <$> records))
         (fun _ w' => wal_holds w' points ts /\ ~ wal_healthy w) (wal_ReplayRecords w);
  wal_Checkpoint_spec w points ts : wal_holds w points ts ->
    ends (fun _ w' => wal_holds w' [] [] /\ (wal_healthy w -> wal_healthy w'))
         (fun _ w' => (wal_holds w' points ts \/ wal_holds w' [] []) /\ (wal_healthy w -> wal_healthy w')) (wal_Checkpoint w);
  wal_Close_spec w points ts : wal_holds w points ts ->
    ends (fun _ w' => wal_holds w' points ts /\ (wal_healthy w -> wal_healthy w'))
         (fun _ w' => wal_holds w' points ts /\ (wal_healthy w -> wal_healthy w')) (wal_Close w);
}.

(** ** The contract of the parts

    [pd_part d path meta columns]: the directory holds at [path] a complete
    part that stores [columns]; [pd_open d p columns]: the handle [p] serves
    them.  Calls keep everything they are not about ([keeps]); reading can fail
    only when the store is not [pd_healthy], writing can always fail.  A writer
    stores what it was given when the columns are [pd_storable]. *)
Definition windowed_by (start end_ : Z) (id : Z) : StorageQuery := rangeQuery {[ id ]} ∅ start end_.
(** A list of series ids that misses no stored series. *)
Definition covers_series (columns : list ColumnData) (start end_ : Z) (ids : list Z) : Prop :=
  forall c s, c ∈ columns -> s ∈ cd_Samples c -> in_range start end_ s = true -> cd_SeriesID c ∈ ids.

Class PartView (D P X B : Type) := {
  pd_manifest : D -> Manifest;
  pd_part : D -> bytes -> PartMeta -> list ColumnData -> Prop;
  pd_open : D -> P -> list ColumnData -> Prop;
  pd_writing : D -> X -> Z -> bytes -> WriteOptions -> list (list ColumnData) -> Prop;
  pd_reader : D -> B -> Z -> Z -> list ColumnData -> Prop;
  pd_healthy : D -> Prop;
  pd_storable : WriteOptions -> list (list ColumnData) -> Prop;
  pd_query : StorageQuery -> Prop;
  pd_path : bytes -> bytes;
}.
Section frames.
  Context {D P X B : Type} `{PartView D P X B}.
(** What survives a call: the handles that [alive] selects and the parts at
    the paths that [here] selects. *)
Record keeps (alive : P -> Prop) (here : bytes -> Prop) (d d' : D) : Prop := {
  kp_healthy : pd_healthy d -> pd_healthy d';
  kp_part path meta cols : here path -> pd_part d path meta cols -> pd_part d' path meta cols;
  kp_open p cols : alive p -> pd_open d p cols -> pd_open d' p cols;
  kp_writing x level id opts gs : pd_writing d x level id opts gs -> pd_writing d' x level id opts gs;
  kp_reader b start end_ cols : pd_reader d b start end_ cols -> pd_reader d' b start end_ cols;
}.
Definition all {A} (_ : A) : Prop := True.
(** A call that changes nothing visible. *)
Definition unchanged (d d' : D) : Prop := keeps all all d d' /\ pd_manifest d' = pd_manifest d.
(** A reading call: it fails only when the store is not healthy. *)
Definition reads {A} (Q : A -> D -> Prop) (d : D) : outcome A * D -> Prop :=
  ends (fun a d' => unchanged d d' /\ Q a d') (fun _ d' => unchanged d d' /\ ~ pd_healthy d).
Lemma unchanged_refl d : unchanged d d.
Proof. repeat split; auto. Qed.
Lemma unchanged_trans d1 d2 d3 : unchanged d1 d2 -> unchanged d2 d3 -> unchanged d1 d3.
Proof.
  intros [[h1 p1 o1 w1 r1] m1] [[h2 p2 o2 w2 r2] m2].
  split; [split; [by eauto|..]|congruence]; intros; [apply p2, p1|apply o2, o1|apply w2, w1|apply r2, r1]; done.
Qed.
End frames.

Class PartLaws (schema : Z * Z -> Z) (D P X B : Type) `{PartStore D P X B} `{PartView D P X B} : Prop := {
  pd_path_base id : 47 ∉ id -> baseName (pd_path id) = id;
  pt_LoadManifest_spec d :
    reads (fun m _ => mf_Sequence m = mf_Sequence (pd_manifest d) /\ mf_Parts m ≡ₚ mf_Parts (pd_manifest d)) d
      (pt_LoadManifest d);
  pt_WriteManifest_spec d m :
    ends (fun _ d' => keeps all all d d' /\ pd_manifest d' = m) (fun _ d' => unchanged d d') (pt_WriteManifest m d);
  pt_OpenPart_spec d path meta cols : pd_part d path meta cols ->
    reads (fun p d' => pd_open d' p cols /\ pr_Meta p = meta) d (pt_OpenPart path d);
  pt_OpenPartTrusted_spec d path meta cols : pd_part d path meta cols ->
    reads (fun p d' => pd_open d' p cols /\ pr_Meta p = meta) d (pt_OpenPartTrusted path d);
  pt_NewWriter_spec d level id opts :
    ends (fun x d' => unchanged d d' /\ pd_writing d' x level id opts []) (fun _ d' => unchanged d d')
      (pt_NewWriter level id opts d);
  pw_AddSeries_spec d x level id opts gs g : pd_writing d x level id opts gs ->
    ends (fun x' d' => unchanged d d' /\ pd_writing d' x' level id opts (gs ++ [g])) (fun _ d' => unchanged d d')
      (pw_AddSeries x g d);
  pw_Close_spec d x level id opts gs : pd_writing d x level id opts gs -> pd_storable opts gs ->
    ends (fun meta d' => keeps all (fun path => path <> pd_path id) d d' /\ pd_manifest d' = pd_manifest d /\
            pm_ID meta = id /\ pm_Level meta = level /\ pm_Path meta = pd_path id /\
            pd_part d' (pd_path id) meta (concat gs))
         (fun _ d' => keeps all (fun path => path <> pd_path id) d d' /\ pd_manifest d' = pd_manifest d) (pw_Close x d);
  pw_Abort_spec d x : ends (fun _ d' => unchanged d d') (fun _ d' => unchanged d d') (pw_Abort x d);
  pr_Close_spec d p :
    ends (fun _ d' => keeps (fun p' => pm_ID (pr_Meta p') <> pm_ID (pr_Meta p)) all d d' /\ pd_manifest d' = pd_manifest d)
         (fun _ d' => keeps (fun p' => pm_ID (pr_Meta p') <> pm_ID (pr_Meta p)) all d d' /\ pd_manifest d' = pd_manifest d)
         (pr_Close p d);
  pr_ScanColumns_spec d p cols query : pd_open d p cols -> pd_query query ->
    reads (fun stream _ => cs_err stream = None /\ answers schema query (fun k => of_column k cols) (cs_items stream)) d
      (pr_ScanColumns p query d);
  pr_SeriesIDs_spec d p cols start end_ : pd_open d p cols -> pd_query (rangeQuery ∅ ∅ start end_) ->
    reads (fun ids _ => covers_series cols start end_ ids) d (pr_SeriesIDs p (rangeQuery ∅ ∅ start end_) d);
  pr_QuerySeriesIDs_spec d p cols start end_ id : pd_open d p cols -> pd_query (rangeQuery ∅ ∅ start end_) ->
    reads (fun out _ => answers schema (windowed_by start end_ id) (fun k => of_column k cols) out) d
      (pr_QuerySeriesIDs p (rangeQuery ∅ ∅ start end_) [id] d);
  pt_NewSeriesBatchReader_spec d p cols start end_ : pd_open d p cols -> pd_query (rangeQuery ∅ ∅ start end_) ->
    reads (fun b d' => pd_reader d' b start end_ cols) d (pt_NewSeriesBatchReader p (rangeQuery ∅ ∅ start end_) d);
  br_AppendSeriesIDs_spec d b cols start end_ ids : pd_reader d b start end_ cols ->
    exists own, br_AppendSeriesIDs b ids = ids ++ own /\ covers_series cols start end_ own;
  br_QuerySeriesID_spec d b cols start end_ id : pd_reader d b start end_ cols ->
    reads (fun out _ => answers schema (windowed_by start end_ id) (fun k => of_column k cols) out) d
      (br_QuerySeriesID b id d);
  fs_RemoveAll_spec d path :
    ends (fun _ d' => keeps (fun p => baseName (pm_Path (pr_Meta p)) <> baseName path)
                            (fun path' => baseName path' <> baseName path) d d' /\ pd_manifest d' = pd_manifest d)
         (fun _ d' => keeps (fun p => baseName (pm_Path (pr_Meta p)) <> baseName path)
                            (fun path' => baseName path' <> baseName path) d d' /\ pd_manifest d' = pd_manifest d)
         (fs_RemoveAll path d);
  fs_AvailableBytes_spec d : ends (fun _ d' => unchanged d d') (fun _ d' => unchanged d d') (fs_AvailableBytes d);
  fs_ReadDir_spec d : ends (fun entries d' => unchanged d d' /\ Forall (fun e => baseName e.1 = e.1) entries)
                           (fun _ d' => unchanged d d') (fs_ReadDir d);
  fs_directorySize_spec d path p : fs_directorySize d path <> Panic p;
}.
