(* ===== verification/Shard.v ===== *)
(** * A shard: its state, recovery, queries and flushes
    (internal/engine/shard.go, shard_scan.go, flush_commit.go, write_apply.go, recovery_audit.go)

    A shard owns the samples of one time window: a log, a memtable, the parts
    its manifest lists and the tombstones not yet compacted away.  Methods are
    steps on the shard with the directories behind it.  The locks make every
    method one step; the hooks of the tests are absent; logging and the
    counters of compaction statistics have no counterpart. *)
From S2P Require Import Prelude Model WalLog Float64 SstValues Runtime MemColumn MemTable EngineMerge Tombstones QueryMerge SstMeta MemoryBudget EngineOptions Planner SstPack Ports.
From stdpp Require Import prelude strings list gmap.
From Stdlib Require Import ZArith Lia.
#[local] Open Scope Z_scope.

Record ShardOptions := mkShardOptions {
  so_Start : Z;
  so_End : Z;
  so_FlushSync : bool;
  so_MemTableMaxSamples : Z;
  so_MemTableDisorderFlushRatio : Z;
  so_MemTableDisorderFlushMinSamples : Z;
  so_Compaction : CompactionOptions;
  so_Compression : CompressionOptions;
}.

(** ** Recovery reports *)
Inductive RecoveryIssueKind :=
  | RecoveryIssueMissingPart | RecoveryIssuePartOpenFailed | RecoveryIssueMetadataMismatch
  | RecoveryIssueOrphanPartRemoved | RecoveryIssueOrphanRemoveFailed
  | RecoveryIssueTempRemoved | RecoveryIssueTempRemoveFailed
  | RecoveryIssueCleanupScanFailed | RecoveryIssueWALCheckpointFailed | RecoveryIssueMemApplyFailed.
Record RecoveryIssue := mkIssue {
  ri_Kind : RecoveryIssueKind;
  ri_Path : bytes;
  ri_Message : string;
  ri_Err : option goerr;
  ri_Fatal : bool;
}.
Definition ErrRecoveryFatal : goerr := Errorf "recovery fatal".
Definition issueError (issue : RecoveryIssue) : goerr :=
  if ri_Fatal issue then ErrWrap (ri_Message issue) ErrRecoveryFatal
  else match ri_Err issue with Some e => ErrWrap (ri_Message issue) e | None => Errorf (ri_Message issue) end.
(** [errors.Join] keeps the first error here: callers only test for an error. *)
Definition joinErr (a b : option goerr) : option goerr := match a with Some _ => a | None => b end.
Definition joinIssues (fatal : bool) (issues : list RecoveryIssue) : option goerr :=
  foldl (fun joined issue => if Bool.eqb (ri_Fatal issue) fatal then joinErr joined (Some (issueError issue)) else joined)
    None issues.
Definition MaintenanceError (issues : list RecoveryIssue) : option goerr := joinIssues false issues.
Definition FatalError (issues : list RecoveryIssue) : option goerr := joinIssues true issues.
(** [errors.Is(err, os.ErrNotExist)] distinguishes a message only: [missing]. *)
Definition ErrNotExist : goerr := Errorf "file does not exist".
Fixpoint isNotExist (e : goerr) : bool :=
  bool_decide (e = ErrNotExist) || match e with ErrWrap _ e' => isNotExist e' | _ => false end.
Definition partOpenRecoveryIssue (meta : PartMeta) (err : goerr) : RecoveryIssue :=
  if isNotExist err
  then mkIssue RecoveryIssueMissingPart (pm_Path meta) "manifest references missing part" (Some err) true
  else mkIssue RecoveryIssuePartOpenFailed (pm_Path meta) "open manifest part failed" (Some err) true.
Definition partMetaMismatches (expected actual : PartMeta) : list string :=
  let differs (name : string) (b : bool) := if b then [] else [name] in
  differs "id" (bool_decide (pm_ID expected = pm_ID actual)) ++
  differs "level" (pm_Level expected =? pm_Level actual) ++
  differs "min_time" (pm_MinTime expected =? pm_MinTime actual) ++
  differs "max_time" (pm_MaxTime expected =? pm_MaxTime actual) ++
  differs "min_series_id" (pm_MinSeriesID expected =? pm_MinSeriesID actual) ++
  differs "max_series_id" (pm_MaxSeriesID expected =? pm_MaxSeriesID actual) ++
  differs "rows_count" (pm_RowsCount expected =? pm_RowsCount actual) ++
  differs "series_count" (pm_SeriesCount expected =? pm_SeriesCount actual) ++
  differs "block_count" (pm_BlockCount expected =? pm_BlockCount actual) ++
  differs "max_write_seq" (pm_MaxWriteSeq expected =? pm_MaxWriteSeq actual).
Definition partMetadataMismatchIssue (expected actual : PartMeta) : option RecoveryIssue :=
  match partMetaMismatches expected actual with
  | [] => None
  | _ => Some (mkIssue RecoveryIssueMetadataMismatch (pm_Path expected) "part metadata mismatch" None true)
  end.

(** ** Names of part directories *)
(** [fmt.Sprintf("%06d", n)] of an int that is not negative. *)
Fixpoint digitsLoop (fuel : nat) (n : Z) (acc : bytes) : bytes :=
  match fuel with
  | O => acc
  | S fuel' =>
      let acc := (48 + n mod 10) :: acc in
      if n <? 10 then acc else digitsLoop fuel' (n / 10) acc
  end.
Definition digits (n : Z) : bytes := digitsLoop (S (Z.to_nat (Z.log2 n))) n [].
Definition padded (n : Z) : bytes := replicate (6 - length (digits n)) 48 ++ digits n.
Definition partID (n : Z) : bytes := str "sst-" ++ padded n.
(** [fmt.Sscanf(id, "sst-%06d", &number)]: at most six characters are read. *)
Definition isDigit (b : Z) : bool := (48 <=? b) && (b <=? 57).
Fixpoint takeDigits (n : nat) (bs : bytes) : bytes :=
  match n, bs with
  | S n', b :: bs' => if isDigit b then b :: takeDigits n' bs' else []
  | _, _ => []
  end.
Definition decimal (digits : bytes) : Z := foldl (fun v b => v * 10 + (b - 48)) 0 digits.
Definition stripPrefix (prefix bs : bytes) : option bytes :=
  if bool_decide (take (length prefix) bs = prefix) then Some (drop (length prefix) bs) else None.
Fixpoint skipSpaces (bs : bytes) : bytes :=
  match bs with 32 :: bs' => skipSpaces bs' | _ => bs end.
Definition partNumber (id : bytes) : Z :=
  match stripPrefix (str "sst-") id with
  | None => 0
  | Some rest =>
      let rest := skipSpaces rest in
      let '(sign, width, rest) :=
        match rest with 45 :: r => (-1, 5%nat, r) | 43 :: r => (1, 5%nat, r) | _ => (1, 6%nat, rest) end in
      match takeDigits width rest with [] => 0 | digits => sign * decimal digits end
  end.
Definition isPartDirName (name : bytes) : bool :=
  bool_decide (length name = 10%nat) && bool_decide (take 4 name = str "sst-").

(** ** The state of a shard *)
Section shard.
  Context {W D P X B : Type} `{GoRuntime} `{WalStore W} `{PartStore D P X B}.

Record Shard := mkShard {
  sh_opts : ShardOptions;
  sh_wal : W;
  sh_walOpen : bool;
  sh_mem : MemTable;
  sh_pool : columnPool;
  sh_parts : list P;
  sh_manifest : Manifest;
  sh_tombstones : list Tombstone;
  sh_nextPart : Z;
  sh_readRefs : Z;
  sh_report : list RecoveryIssue;
  sh_memory : option storageMemoryLimiter;
  sh_scheduler : option compactionScheduler;
  sh_disk : D;
}.
Definition set_wal (w : W) (isOpen : bool) (s : Shard) : Shard :=
  mkShard (sh_opts s) w isOpen (sh_mem s) (sh_pool s) (sh_parts s) (sh_manifest s) (sh_tombstones s) (sh_nextPart s)
    (sh_readRefs s) (sh_report s) (sh_memory s) (sh_scheduler s) (sh_disk s).
Definition set_mem (m : MemTable) (pool : columnPool) (s : Shard) : Shard :=
  mkShard (sh_opts s) (sh_wal s) (sh_walOpen s) m pool (sh_parts s) (sh_manifest s) (sh_tombstones s) (sh_nextPart s)
    (sh_readRefs s) (sh_report s) (sh_memory s) (sh_scheduler s) (sh_disk s).
Definition set_parts (parts : list P) (manifest : Manifest) (s : Shard) : Shard :=
  mkShard (sh_opts s) (sh_wal s) (sh_walOpen s) (sh_mem s) (sh_pool s) parts manifest (sh_tombstones s) (sh_nextPart s)
    (sh_readRefs s) (sh_report s) (sh_memory s) (sh_scheduler s) (sh_disk s).
Definition set_tombstones (tombstones : list Tombstone) (s : Shard) : Shard :=
  mkShard (sh_opts s) (sh_wal s) (sh_walOpen s) (sh_mem s) (sh_pool s) (sh_parts s) (sh_manifest s) tombstones
    (sh_nextPart s) (sh_readRefs s) (sh_report s) (sh_memory s) (sh_scheduler s) (sh_disk s).
Definition set_nextPart (n : Z) (s : Shard) : Shard :=
  mkShard (sh_opts s) (sh_wal s) (sh_walOpen s) (sh_mem s) (sh_pool s) (sh_parts s) (sh_manifest s) (sh_tombstones s) n
    (sh_readRefs s) (sh_report s) (sh_memory s) (sh_scheduler s) (sh_disk s).
Definition set_readRefs (n : Z) (s : Shard) : Shard :=
  mkShard (sh_opts s) (sh_wal s) (sh_walOpen s) (sh_mem s) (sh_pool s) (sh_parts s) (sh_manifest s) (sh_tombstones s)
    (sh_nextPart s) n (sh_report s) (sh_memory s) (sh_scheduler s) (sh_disk s).
Definition set_report (report : list RecoveryIssue) (s : Shard) : Shard :=
  mkShard (sh_opts s) (sh_wal s) (sh_walOpen s) (sh_mem s) (sh_pool s) (sh_parts s) (sh_manifest s) (sh_tombstones s)
    (sh_nextPart s) (sh_readRefs s) report (sh_memory s) (sh_scheduler s) (sh_disk s).
Definition set_memory (memory : option storageMemoryLimiter) (s : Shard) : Shard :=
  mkShard (sh_opts s) (sh_wal s) (sh_walOpen s) (sh_mem s) (sh_pool s) (sh_parts s) (sh_manifest s) (sh_tombstones s)
    (sh_nextPart s) (sh_readRefs s) (sh_report s) memory (sh_scheduler s) (sh_disk s).
Definition set_scheduler (scheduler : option compactionScheduler) (s : Shard) : Shard :=
  mkShard (sh_opts s) (sh_wal s) (sh_walOpen s) (sh_mem s) (sh_pool s) (sh_parts s) (sh_manifest s) (sh_tombstones s)
    (sh_nextPart s) (sh_readRefs s) (sh_report s) (sh_memory s) scheduler (sh_disk s).
Definition set_disk (d : D) (s : Shard) : Shard :=
  mkShard (sh_opts s) (sh_wal s) (sh_walOpen s) (sh_mem s) (sh_pool s) (sh_parts s) (sh_manifest s) (sh_tombstones s)
    (sh_nextPart s) (sh_readRefs s) (sh_report s) (sh_memory s) (sh_scheduler s) d.

(** ** Calls of the stores *)
Definition modify (f : Shard -> Shard) : step Shard unit := fun s => (Ok tt, f s).
Definition gets {A} (f : Shard -> A) : step Shard A := fun s => (Ok (f s), s).
Definition on_disk {A} (m : step D A) : step Shard A := fun s =>
  let '(r, d) := m (sh_disk s) in (r, set_disk d s).
(** A method of [s.wal], which is nil once the shard is closed. *)
Definition on_wal {A} (m : step W A) : step Shard A := fun s =>
  if sh_walOpen s then let '(r, w) := m (sh_wal s) in (r, set_wal w true s) else (Panic NilDereference, s).
Definition on_mem (f : columnPool -> MemTable -> outcome (MemTable * columnPool)) : step Shard unit := fun s =>
  match f (sh_pool s) (sh_mem s) with
  | Ok (m, pool) => (Ok tt, set_mem m pool s)
  | Err e => (Err e, s)
  | Panic p => (Panic p, s)
  end.
Definition reserveMemory (kind : storageMemoryKind) (bytes : Z) : step Shard reservation := fun s =>
  match sh_memory s with
  | None => (Ok None, s)
  | Some l => let '(r, l) := Reserve kind 0 bytes l in (r, set_memory (Some l) s)
  end.
Definition releaseMemory (r : reservation) : step Shard unit :=
  modify (fun s => set_memory (ReleaseBytes r <$> sh_memory s) s).
(** [if err != nil { cleanup; return err }] *)
Definition orCleanup {A} (m : step Shard A) (cleanup : step Shard unit) : step Shard A :=
  r ← try_step m;
  match r with inr a => mret a | inl e => _ ← cleanup; fail_step e end.
(** The error of a call whose result is only joined to another error. *)
Definition errOf {A} (m : step Shard A) : step Shard (option goerr) :=
  r ← try_step m; mret (match r with inl e => Some e | inr _ => None end).
Definition failIf (e : option goerr) : step Shard unit := match e with Some e => fail_step e | None => mret tt end.

Definition recordRecoveryIssue (issue : RecoveryIssue) : step Shard unit :=
  modify (fun s => set_report (sh_report s ++ [issue]) s).

(** ** Closing *)
Fixpoint closeParts (parts : list P) : step Shard (option goerr) :=
  match parts with
  | [] => mret None
  | part :: parts' => e ← errOf (on_disk (pr_Close part)); rest ← closeParts parts'; mret (joinErr e rest)
  end.
Definition closeLocked : step Shard unit :=
  parts ← gets sh_parts;
  partErr ← closeParts parts;
  isOpen ← gets sh_walOpen;
  if negb isOpen then failIf partErr
  else
    walErr ← errOf (on_wal wal_Close);
    _ ← modify (fun s => set_wal (sh_wal s) false s);
    failIf (joinErr partErr walErr).
Definition ErrShardBusy : goerr := Errorf "shard busy".
Definition hasActiveReadersLocked (s : Shard) : bool := 0 <? sh_readRefs s.
Definition acquireReadLocked : step Shard unit := modify (fun s => set_readRefs (sh_readRefs s + 1) s).
Definition releaseRead : step Shard unit :=
  modify (fun s => if 0 <? sh_readRefs s then set_readRefs (sh_readRefs s - 1) s else s).
Definition closeWithBusyCheck (rejectBusy : bool) : step Shard unit :=
  busy ← gets hasActiveReadersLocked;
  if rejectBusy && busy then fail_step ErrShardBusy else closeLocked.

(** ** Opening *)
Definition removeUnreferencedPart (path : bytes) (message : string) : step Shard unit :=
  if bool_decide (path = []) then mret tt
  else
    r ← try_step (on_disk (fs_RemoveAll path));
    match r with
    | inl err =>
        _ ← recordRecoveryIssue (mkIssue RecoveryIssueOrphanRemoveFailed path message (Some err) false);
        fail_step err
    | inr _ => mret tt
    end.

Fixpoint openPartsLoop (metas : list PartMeta) (maxSeq : Z) : step Shard Z :=
  match metas with
  | [] => mret maxSeq
  | meta :: metas' =>
      r ← try_step (on_disk (pt_OpenPart (pm_Path meta)));
      match r with
      | inl err =>
          _ ← recordRecoveryIssue (partOpenRecoveryIssue meta err);
          report ← gets sh_report;
          _ ← failIf (FatalError report); mret 0
      | inr part =>
          match partMetadataMismatchIssue meta (pr_Meta part) with
          | Some issue =>
              closeErr ← errOf (on_disk (pr_Close part));
              _ ← recordRecoveryIssue issue;
              report ← gets sh_report;
              _ ← failIf (joinErr (FatalError report) closeErr); mret 0
          | None =>
              _ ← modify (fun s => set_parts (sh_parts s ++ [part]) (sh_manifest s) s);
              _ ← modify (fun s => if sh_nextPart s <=? partNumber (pm_ID meta)
                                   then set_nextPart (partNumber (pm_ID meta) + 1) s else s);
              openPartsLoop metas' (if maxSeq <? pm_MaxWriteSeq meta then pm_MaxWriteSeq meta else maxSeq)
          end
      end
  end.
Definition openParts : step Shard Z := metas ← gets (fun s => mf_Parts (sh_manifest s)); openPartsLoop metas 0.

Definition isCleanupCandidate (entry : bytes * bool) (referenced : gset bytes) : bool :=
  let '(name, isDir) := entry in
  if isDir && isPartDirName name then negb (bool_decide (name ∈ referenced))
  else negb isDir && bool_decide (take 5 name = str ".tmp-").
Definition removeCleanupCandidate (entry : bytes * bool) : step Shard RecoveryIssue :=
  let '(name, isDir) := entry in
  let message := (if isDir : bool then "removed orphan part" else "removed temp file")%string in
  r ← try_step (on_disk (fs_RemoveAll name));
  mret (match r with
        | inl err => mkIssue (if isDir : bool then RecoveryIssueOrphanRemoveFailed else RecoveryIssueTempRemoveFailed)
                       name (message +:+ " failed") (Some err) false
        | inr _ => mkIssue (if isDir : bool then RecoveryIssueOrphanPartRemoved else RecoveryIssueTempRemoved)
                     name message None false
        end).
Fixpoint cleanupLoop (entries : list (bytes * bool)) (referenced : gset bytes) : step Shard (list RecoveryIssue) :=
  match entries with
  | [] => mret []
  | entry :: entries' =>
      if negb (isCleanupCandidate entry referenced) then cleanupLoop entries' referenced
      else issue ← removeCleanupCandidate entry; rest ← cleanupLoop entries' referenced; mret (issue :: rest)
  end.
Definition cleanupOrphanParts : step Shard (list RecoveryIssue) :=
  metas ← gets (fun s => mf_Parts (sh_manifest s));
  let referenced := list_to_set (map (fun meta => baseName (pm_Path meta)) metas ++ map pm_ID metas) in
  r ← try_step (on_disk fs_ReadDir);
  match r with
  | inl err => mret [mkIssue RecoveryIssueCleanupScanFailed [] "scan shard dir for cleanup failed" (Some err) false]
  | inr entries => cleanupLoop entries referenced
  end.

Fixpoint replayPoints (points : list ResolvedPoint) (maxSeq : Z) : step Shard Z :=
  match points with
  | [] => mret maxSeq
  | point :: points' =>
      _ ← orCleanup (on_mem (fun pool m => Apply pool m point)) closeLocked;
      replayPoints points' (if maxSeq <? rp_WriteSeq point then rp_WriteSeq point else maxSeq)
  end.
Fixpoint replayTombstones (tombstones : list Tombstone) (maxSeq : Z) : step Shard Z :=
  match tombstones with
  | [] => mret maxSeq
  | tombstone :: tombstones' =>
      _ ← modify (fun s => set_tombstones (sh_tombstones s ++ [tombstone]) s);
      replayTombstones tombstones' (if maxSeq <? ts_WriteSeq tombstone then ts_WriteSeq tombstone else maxSeq)
  end.
Fixpoint replayAll (records : list WalRecord) (maxSeq : Z) : step Shard Z :=
  match records with
  | [] => mret maxSeq
  | record :: records' =>
      maxSeq ← replayPoints (rec_Points record) maxSeq;
      maxSeq ← replayTombstones (rec_Tombstones record) maxSeq;
      replayAll records' maxSeq
  end.
(** A shard object before anything is opened, over the given directories. *)
Definition freshShard (opts : ShardOptions) (s : Shard) : Shard :=
  mkShard opts (sh_wal s) false New (sh_pool s) [] (mkManifest 0 []) [] 0 0 [] (sh_memory s) (sh_scheduler s) (sh_disk s).
(** [OpenShard] on the directories that the state holds; the directory itself
    exists. *)
Definition OpenShard (opts : ShardOptions) : step Shard Z :=
  _ ← modify (freshShard opts);
  manifest ← on_disk pt_LoadManifest;
  _ ← modify (set_parts [] manifest);
  maxSeq ← orCleanup openParts (parts ← gets sh_parts; _ ← closeParts parts; mret tt);
  issues ← cleanupOrphanParts;
  _ ← modify (fun s => set_report (sh_report s ++ issues) s);
  _ ← orCleanup (fun s => let '(r, w) := wal_Open (sh_wal s) in (r, set_wal w true s))
        (parts ← gets sh_parts; _ ← closeParts parts; modify (fun s => set_wal (sh_wal s) false s));
  records ← orCleanup (on_wal wal_ReplayRecords) closeLocked;
  replayAll records maxSeq.

(** ** Queries (shard_scan.go) *)
Record shardColumnDataStream := mkShardStream {
  ss_inner : mergeColumnDataStream;
  ss_tombstones : list Tombstone;
  ss_current : ColumnData;
  ss_err : option goerr;
  ss_closed : bool;
}.
Fixpoint openPartStreams (parts : list P) (query : StorageQuery) : step Shard (list ColumnStream) :=
  match parts with
  | [] => mret []
  | part :: parts' =>
      stream ← on_disk (pr_ScanColumns part query);
      streams ← openPartStreams parts' query;
      mret (stream :: streams)
  end.
Definition memScanColumns (m : MemTable) (query : StorageQuery) : outcome ColumnStream :=
  columns ← MemQuery m query; Ok (mkStream columns None).
Definition ReadBudgetError : goerr := Errorf "read budget exceeded".
Definition openColumnStreamsLocked (query : StorageQuery) : step Shard (list ColumnStream) :=
  parts ← gets sh_parts;
  if (0 <? qb_MaxParts (sq_Budget query)) && (qb_MaxParts (sq_Budget query) <? len parts) then fail_step ReadBudgetError
  else
    m ← gets sh_mem;
    memStream ← pure_step (memScanColumns m query);
    streams ← openPartStreams parts query;
    mret (memStream :: streams).
Definition ScanColumns (query : StorageQuery) : step Shard shardColumnDataStream :=
  streams ← openColumnStreamsLocked query;
  tombstones ← gets sh_tombstones;
  _ ← acquireReadLocked;
  mret (mkShardStream (MergeColumnDataStreams streams) tombstones zeroColumnData None false).

(** [Next]: at most [fuel] columns of the inner stream are looked at. *)
Fixpoint shardNext (fuel : nat) (s : shardColumnDataStream) : bool * shardColumnDataStream :=
  if ss_closed s || bool_decide (is_Some (ss_err s)) then (false, s)
  else
    match fuel with
    | O => (false, s)
    | S fuel' =>
        let '(more, inner) := Next (ss_inner s) in
        if more : bool then
          let column := withSamples (mm_current inner) (filterTombstonedSamples (mm_current inner) (ss_tombstones s)) in
          let s := mkShardStream inner (ss_tombstones s) (ss_current s) (ss_err s) (ss_closed s) in
          if len (cd_Samples column) =? 0 then shardNext fuel' s
          else (true, mkShardStream inner (ss_tombstones s) column (ss_err s) (ss_closed s))
        else (false, mkShardStream inner (ss_tombstones s) (ss_current s) (mm_err inner) true)
    end.
(** The columns the inner stream can still deliver. *)
Definition streamLeft (s : shardColumnDataStream) : nat :=
  length (concat (map (fun src => ms_column src :: cs_items (ms_stream src)) (mm_sources (ss_inner s)))).
Fixpoint collectShardLoop (fuel : nat) (s : shardColumnDataStream) : list ColumnData * option goerr :=
  match fuel with
  | O => ([], ss_err s)
  | S fuel' =>
      let '(more, s) := shardNext (S (streamLeft s)) s in
      if more : bool then let '(columns, err) := collectShardLoop fuel' s in (ss_current s :: columns, err)
      else ([], ss_err s)
  end.
(** [collectColumnDataStream]; closing the stream drops the read reference. *)
Definition collectShardStream (s : shardColumnDataStream) : step Shard (list ColumnData) :=
  let '(columns, err) := collectShardLoop (S (streamLeft s)) s in
  _ ← releaseRead;
  _ ← failIf err; mret columns.
Definition ShardQuery (query : StorageQuery) : step Shard (list ColumnData) :=
  stream ← ScanColumns query; collectShardStream stream.

(** ** Flushing the memtable into a part *)
Definition compressionBudget (memory : option storageMemoryLimiter) : option (Z -> outcome unit) :=
  Some (fun bytes => match memory with
                     | None => Ok tt
                     | Some l => _ ← (Reserve storageMemoryCompression 0 bytes l).1; Ok tt
                     end).
Definition flushWriteOptions (s : Shard) : WriteOptions :=
  mkWriteOptions (defaultLevelCompression 0 (so_Compression (sh_opts s))) (compressionBudget (sh_memory s))
    (so_FlushSync (sh_opts s)).
Definition nextPartID : step Shard bytes := fun s =>
  let n := if sh_nextPart s =? 0 then 1 else sh_nextPart s in (Ok (partID n), set_nextPart (n + 1) s).
Definition abortPartWriter (writer : option X) : step Shard (option goerr) :=
  match writer with None => mret None | Some x => errOf (on_disk (pw_Abort x)) end.

(** The callback of [ForEachSeries]: the walk stops at its first error, which
    is kept here, with the writer, for the caller to clean up. *)
Record snapshotWrite := mkSnapshotWrite { sw_err : option goerr; sw_writer : option X; sw_wrote : bool; sw_shard : Shard }.
Definition writeSnapshotSeries (columns : list ColumnData) (st : snapshotWrite) : outcome snapshotWrite :=
  match sw_err st with
  | Some _ => Ok st
  | None =>
      if len columns =? 0 then Ok st
      else
        let '(r, s) :=
          match sw_writer st with
          | Some x => (Ok x, sw_shard st)
          | None => (id ← nextPartID; opts ← gets flushWriteOptions; on_disk (pt_NewWriter 0 id opts)) (sw_shard st)
          end in
        match r with
        | Err e => Ok (mkSnapshotWrite (Some e) (sw_writer st) (sw_wrote st) s)
        | Panic p => Panic p
        | Ok x =>
            match on_disk (pw_AddSeries x columns) s with
            | (Ok x', s') => Ok (mkSnapshotWrite None (Some x') true s')
            | (Err e, s') => Ok (mkSnapshotWrite (Some e) (Some x) (sw_wrote st) s')
            | (Panic p, _) => Panic p
            end
        end
  end.
(** [None] is the sentinel error [errFlushSnapshotEmpty]. *)
Definition writeSnapshotPart (snapshot : Snapshot) : step Shard (option PartMeta) := fun s =>
  let query := rangeQuery ∅ ∅ (so_Start (sh_opts s)) (so_End (sh_opts s)) in
  match ForEachSeries snapshot query (fun _ => None) (fun _ columns => writeSnapshotSeries columns)
          (mkSnapshotWrite None None false s) with
  | Err e => (Err e, s)
  | Panic p => (Panic p, s)
  | Ok (mkSnapshotWrite (Some e) writer _ s) => (_ ← abortPartWriter writer; fail_step e) s
  | Ok (mkSnapshotWrite None writer wrote s) =>
      match writer with
      | Some x =>
          if wrote
          then (meta ← orCleanup (on_disk (pw_Close x)) (_ ← abortPartWriter (Some x); mret tt); mret (Some meta)) s
          else (Ok None, s)
      | None => (Ok None, s)
      end
  end.

Definition nextManifest (s : Shard) (parts : list PartMeta) : Manifest :=
  mkManifest (u64 (mf_Sequence (sh_manifest s) + 1)) parts.
Definition cleanupUncommittedPart (meta : PartMeta) (part : option P) : step Shard (option goerr) :=
  closeErr ← match part with None => mret None | Some p => errOf (on_disk (pr_Close p)) end;
  removeErr ← errOf (removeUnreferencedPart (pm_Path meta) "remove uncommitted part failed");
  mret (joinErr closeErr removeErr).
Definition restoreSnapshot (snapshot : Snapshot) : step Shard unit := on_mem (fun pool m => Restore pool m snapshot).
Definition reserveFlushMemory (snapshot : Snapshot) : step Shard reservation :=
  reserveMemory storageMemoryFlush (sn_approxBytes snapshot).

Definition completeCommittedFlush (snapshot : Snapshot) (release : reservation) : step Shard unit :=
  tombstones ← gets sh_tombstones;
  checkpointErr ← (if len tombstones =? 0 then errOf (on_wal wal_Checkpoint) else mret None);
  _ ← modify (fun s => set_mem (sh_mem s) (Release (sh_pool s) snapshot) s);
  _ ← releaseMemory release;
  match checkpointErr with
  | None => mret tt
  | Some e =>
      _ ← recordRecoveryIssue (mkIssue RecoveryIssueWALCheckpointFailed [] "manifest committed but wal checkpoint failed"
                                 (Some e) false);
      fail_step e
  end.

Definition flushLocked : step Shard unit :=
  m ← gets sh_mem;
  if mt_sampleCount m =? 0 then mret tt
  else
    let '(snapshot, m) := SnapshotAndReset m in
    _ ← modify (fun s => set_mem m (sh_pool s) s);
    release ← orCleanup (reserveFlushMemory snapshot) (restoreSnapshot snapshot);
    let undo := _ ← releaseMemory release; restoreSnapshot snapshot in
    written ← try_step (writeSnapshotPart snapshot);
    match written with
    | inl e => _ ← undo; fail_step e
    | inr None => undo
    | inr (Some meta) =>
        part ← orCleanup (on_disk (pt_OpenPartTrusted (pm_Path meta)))
                 (_ ← cleanupUncommittedPart meta None; undo);
        next ← gets (fun s => nextManifest s (mf_Parts (sh_manifest s) ++ [meta]));
        _ ← orCleanup (on_disk (pt_WriteManifest next)) (_ ← cleanupUncommittedPart meta (Some part); undo);
        _ ← modify (fun s => set_parts (sh_parts s ++ [part]) next s);
        completeCommittedFlush snapshot release
    end.

(** ** Writes (write_apply.go) *)
Definition recordMemApplyFailed (e : goerr) (message : string) : step Shard unit :=
  _ ← recordRecoveryIssue (mkIssue RecoveryIssueMemApplyFailed [] message (Some e) false);
  fail_step (ErrWrap "memtable apply after wal" e).
(** One retry, then the failure is recorded: the log keeps the batch. *)
Definition applyRetrying (apply : step Shard unit) (message : string) : step Shard unit :=
  r ← try_step apply;
  match r with
  | inr _ => mret tt
  | inl _ =>
      r ← try_step apply;
      match r with inr _ => mret tt | inl e => recordMemApplyFailed e message end
  end.
Definition applyMemAfterWAL (points : list ResolvedPoint) : step Shard unit :=
  applyRetrying (on_mem (fun pool m => ApplyBatch pool m points)) "wal durable but memtable apply failed".
Definition applyTypedMemAfterWAL (batch : ResolvedTypedBatch) (rows : list Z) : step Shard unit :=
  applyRetrying (on_mem (fun pool m => ApplyTypedBatch pool m batch rows)) "wal durable but typed memtable apply failed".

Definition DisorderRatio (m : MemTable) : Z :=
  if mt_appendedSamples m =? 0 then 0
  else f_div (f_of_int (mt_outOfOrderSamples m)) (f_of_int (mt_appendedSamples m)).
(** [f <= 0] and [f >= g] on float64 values. *)
Definition f_geb (x y : Z) : bool := f_ltb y x || f_eqb x y.
Definition shouldFlushMemTable (s : Shard) : bool :=
  let opts := sh_opts s in
  let m := sh_mem s in
  if (0 <? so_MemTableMaxSamples opts) && (so_MemTableMaxSamples opts <=? mt_sampleCount m) then true
  else
    let ratio := so_MemTableDisorderFlushRatio opts in
    if f_geb 0 ratio then false
    else
      let minSamples := if so_MemTableDisorderFlushMinSamples opts <=? 0 then 1024
                        else so_MemTableDisorderFlushMinSamples opts in
      if mt_appendedSamples m <? minSamples then false
      else f_geb (DisorderRatio m) ratio.

Definition DeleteRange (tombstone : Tombstone) (syncWrite : bool) : step Shard unit :=
  if ts_EndTime tombstone <? ts_StartTime tombstone then mret tt
  else
    _ ← on_wal (wal_AppendTombstones [tombstone] syncWrite);
    modify (fun s => set_tombstones (sh_tombstones s ++ [tombstone]) s).
End shard.
Arguments Shard : clear implicits.
Arguments snapshotWrite : clear implicits.
