(* ===== verification/ShardCompact.v ===== *)
(** * Compaction of a shard and its public operations
    (internal/engine/lifecycle.go, shard.go)

    A compaction reads the selected parts series by series, merges the versions
    of every column, drops what the tombstones hide and writes the rest into
    parts of the next level; then the manifest is replaced, the inputs are
    removed and, when there were tombstones, they are forgotten and the log is
    cut.  A flush may start a cascade of compactions. *)
From S2P Require Import Prelude Model WalLog SstValues Runtime MemTable EngineMerge Tombstones QueryMerge SstMeta MemoryBudget EngineOptions Planner SstPack Ports Shard.
From stdpp Require Import prelude strings list gmap.
From Stdlib Require Import ZArith Lia.
#[local] Open Scope Z_scope.

Definition maxCompactionSeriesSamples : Z := 65536.
Definition maxCachedCompactionIndexRows : Z := 65536.

(** ** Sizes *)
Definition estimateSampleBytes (s : VersionedSample) : Z :=
  let t := fv_Type (vs_Value s) in
  16 + (if t =? FieldFloat64 then 8 else if t =? FieldInt64 then 8 else if t =? FieldBool then 1
        else if t =? FieldString then len (fv_String (vs_Value s)) + 4 else 0).
Definition estimateColumnBytes (column : ColumnData) : Z :=
  i64 (foldr (fun s total => estimateSampleBytes s + total) 32 (cd_Samples column)).
Definition estimateColumnsBytes (columns : list ColumnData) : Z :=
  i64 (foldr (fun c total => estimateColumnBytes c + total) 0 columns).

(** ** Splitting one series into several rows *)
Fixpoint splitLargeLoop (targetBytes : Z) (columns : list ColumnData) (group : list ColumnData) (size : Z)
    : list (list ColumnData) :=
  match columns with
  | [] => [group]
  | column :: columns' =>
      let columnBytes := estimateColumnBytes column in
      if (0 <? len group) && (targetBytes <? i64 (size + columnBytes))
      then group :: splitLargeLoop targetBytes columns' [column] (i64 (0 + columnBytes))
      else splitLargeLoop targetBytes columns' (group ++ [column]) (i64 (size + columnBytes))
  end.
Definition splitLargeSeriesColumns (columns : list ColumnData) (targetBytes : Z) : list (list ColumnData) :=
  if (targetBytes <=? 0) || (len columns <=? 1) || (estimateColumnsBytes columns <=? targetBytes) then [columns]
  else splitLargeLoop targetBytes columns [] 0.

Definition sliceColumn (start end_ : Z) (column : ColumnData) : ColumnData :=
  withSamples column (take (Z.to_nat (end_ - start)) (drop (Z.to_nat start) (cd_Samples column))).
Definition windowColumn (start end_ : Z) (column : ColumnData) : option ColumnData :=
  if len (cd_Samples column) <=? start then None
  else
    let columnEnd := if len (cd_Samples column) <? end_ then len (cd_Samples column) else end_ in
    let part := sliceColumn start columnEnd column in
    if len (cd_Samples part) =? 0 then None else Some part.
Fixpoint windowsLoop (fuel : nat) (columns : list ColumnData) (maxSamples count start : Z) : list (list ColumnData) :=
  match fuel with
  | O => []
  | S fuel' =>
      if count <=? start then []
      else
        let end_ := if count <? start + maxSamples then count else start + maxSamples in
        let window := omap (windowColumn start end_) columns in
        let rest := windowsLoop fuel' columns maxSamples count (start + maxSamples) in
        if 0 <? len window then window :: rest else rest
  end.
Definition longestColumn (columns : list ColumnData) : Z :=
  foldl (fun count column => if count <? len (cd_Samples column) then len (cd_Samples column) else count) 0 columns.
(** A window takes at least one sample of the longest column. *)
Definition splitSeriesSampleWindows (columns : list ColumnData) (maxSamples : Z) : list (list ColumnData) :=
  if (maxSamples <=? 0) || (len columns =? 0) then [columns]
  else
    let count := longestColumn columns in
    if count <=? maxSamples then [columns]
    else windowsLoop (Z.to_nat count) columns maxSamples count 0.

(** [ids[:write]] after keeping the first of each run, in place. *)
Fixpoint compactIDsLoop (n read write : nat) (ids : list Z) : list Z :=
  match n with
  | O => take write ids
  | S n' =>
      match ids !! read, ids !! (write - 1)%nat with
      | Some x, Some last => if x =? last then compactIDsLoop n' (S read) write ids
                             else compactIDsLoop n' (S read) (S write) (<[write := x]> ids)
      | _, _ => take write ids
      end
  end.
Definition compactSortedSeriesIDs (ids : list Z) : list Z :=
  if len ids <=? 1 then ids else compactIDsLoop (length ids - 1) 1 1 ids.

Definition partIDSet (parts : list PartMeta) : gset bytes := list_to_set (map pm_ID parts).

Section compaction.
  Context {W D P X B : Type} `{GoRuntime} `{WalStore W} `{PartStore D P X B}.
  Abbreviation Shard := (Shard W D P).

(** ** Inputs *)
Record compactionInput := mkInput { ci_part : P; ci_query : StorageQuery; ci_reader : option B }.
Definition shouldCacheCompactionReaders (parts : list P) : bool :=
  forallb (fun total => total <=? maxCachedCompactionIndexRows)
    (snd (foldl (fun '(total, seen) part => let total := total + pm_SeriesCount (pr_Meta part) in (total, seen ++ [total]))
            (0, []) parts)).
Fixpoint newInputs (cacheReaders : bool) (parts : list P) (query : StorageQuery) : step D (list compactionInput) :=
  match parts with
  | [] => mret []
  | part :: parts' =>
      reader ← (if cacheReaders then r ← pt_NewSeriesBatchReader part query; mret (Some r) else mret None);
      rest ← newInputs cacheReaders parts' query;
      mret (mkInput part query reader :: rest)
  end.
Definition newCompactionInputs (parts : list P) (start end_ : Z) : step D (list compactionInput) :=
  newInputs (shouldCacheCompactionReaders parts) parts (rangeQuery ∅ ∅ start end_).
Fixpoint collectSeriesIDs (inputs : list compactionInput) (ids : list Z) : step D (list Z) :=
  match inputs with
  | [] => mret ids
  | input :: inputs' =>
      ids ← match ci_reader input with
            | Some reader => mret (br_AppendSeriesIDs reader ids)
            | None => partIDs ← pr_SeriesIDs (ci_part input) (ci_query input); mret (ids ++ partIDs)
            end;
      collectSeriesIDs inputs' ids
  end.
Definition compactionSeriesIDs (inputs : list compactionInput) : step D (list Z) :=
  ids ← collectSeriesIDs inputs [];
  mret (compactSortedSeriesIDs (sort_Slice Z.ltb ids)).

Fixpoint queryInputs (inputs : list compactionInput) (seriesID : Z) : step D (list ColumnData) :=
  match inputs with
  | [] => mret []
  | input :: inputs' =>
      got ← match ci_reader input with
            | Some reader => br_QuerySeriesID reader seriesID
            | None => pr_QuerySeriesIDs (ci_part input) (ci_query input) [seriesID]
            end;
      rest ← queryInputs inputs' seriesID;
      mret (got ++ rest)
  end.
(** [queryCompactionSeries]: the counts of rows it also returns feed statistics. *)
Definition queryCompactionSeries (inputs : list compactionInput) (seriesID : Z) : step Shard (list ColumnData) :=
  columns ← on_disk (queryInputs inputs seriesID);
  merged ← pure_step (mergeColumnData columns);
  tombstones ← gets sh_tombstones;
  mret (applyTombstones merged tombstones).

(** ** Outputs *)
Record compactionOutput := mkOutput {
  out_level : Z;
  out_opts : compactionOutputOptions;
  out_writer : option X;
  out_currentBytes : Z;
  out_parts : list P;
  out_metas : list PartMeta;
}.
Definition newCompactionOutput (level : Z) (opts : compactionOutputOptions) : compactionOutput :=
  mkOutput level opts None 0 [] [].
Definition outState : Type := Shard * compactionOutput.
Definition on_shard {A} (m : step Shard A) : step outState A := fun st =>
  let '(r, s) := m st.1 in (r, (s, st.2)).
Definition out_gets {A} (f : compactionOutput -> A) : step outState A := fun st => (Ok (f st.2), st).
Definition set_writer (x : option X) (currentBytes : Z) : step outState unit := fun st =>
  let o := st.2 in (Ok tt, (st.1, mkOutput (out_level o) (out_opts o) x currentBytes (out_parts o) (out_metas o))).
Definition add_output (part : P) (meta : PartMeta) : step outState unit := fun st =>
  let o := st.2 in (Ok tt, (st.1, mkOutput (out_level o) (out_opts o) (out_writer o) (out_currentBytes o)
                                    (out_parts o ++ [part]) (out_metas o ++ [meta]))).

Definition shouldRoll (o : compactionOutput) (seriesBytes : Z) : bool :=
  let target := oo_maxOutputPartBytes (out_opts o) in
  (0 <? target) && bool_decide (is_Some (out_writer o)) && (0 <? out_currentBytes o)
  && (target <? i64 (out_currentBytes o + seriesBytes)).
Definition closeCurrent : step outState unit :=
  writer ← out_gets out_writer;
  match writer with
  | None => mret tt
  | Some x =>
      closed ← try_step (on_shard (on_disk (pw_Close x)));
      _ ← set_writer None 0;
      match closed with
      | inl e => fail_step e
      | inr meta =>
          part ← on_shard (on_disk (pt_OpenPartTrusted (pm_Path meta)));
          add_output part meta
      end
  end.
Definition compactWriteOptions (opts : compactionOutputOptions) (s : Shard) : WriteOptions :=
  mkWriteOptions (oo_compression opts) (compressionBudget (sh_memory s)) false.
Definition writeGroup (columns : list ColumnData) (columnsBytes : Z) : step outState unit :=
  roll ← out_gets (fun o => shouldRoll o columnsBytes);
  _ ← (if roll : bool then closeCurrent else mret tt);
  current ← out_gets (fun o => o);
  x ← match out_writer current with
      | Some x => mret x
      | None =>
          id ← on_shard nextPartID;
          opts ← on_shard (gets (compactWriteOptions (out_opts current)));
          x ← on_shard (on_disk (pt_NewWriter (out_level current) id opts));
          _ ← set_writer (Some x) (out_currentBytes current);
          mret x
      end;
  x ← on_shard (on_disk (pw_AddSeries x columns));
  set_writer (Some x) (i64 (out_currentBytes current + columnsBytes)).
(** [defer release()] *)
Definition addSeriesGroup (columns : list ColumnData) : step outState unit :=
  let columnsBytes := estimateColumnsBytes columns in
  release ← on_shard (reserveMemory storageMemoryCompaction columnsBytes);
  r ← try_step (writeGroup columns columnsBytes);
  _ ← on_shard (releaseMemory release);
  match r with inl e => fail_step e | inr _ => mret tt end.
Fixpoint addGroups (groups : list (list ColumnData)) : step outState unit :=
  match groups with [] => mret tt | g :: groups' => _ ← addSeriesGroup g; addGroups groups' end.
Definition addSeries (columns : list ColumnData) : step outState unit :=
  if len columns =? 0 then mret tt
  else
    opts ← out_gets out_opts;
    addGroups (concat (map (fun group => splitSeriesSampleWindows group maxCompactionSeriesSamples)
                         (splitLargeSeriesColumns columns (oo_maxOutputPartBytes opts)))).
Fixpoint removeAll (metas : list PartMeta) : step Shard unit :=
  match metas with
  | [] => mret tt
  | meta :: metas' => _ ← errOf (on_disk (fs_RemoveAll (pm_Path meta))); removeAll metas'
  end.
(** Errors of the cleanup are only joined to the one that caused it. *)
Definition abortOutput : step outState unit :=
  o ← out_gets (fun o => o);
  _ ← on_shard (abortPartWriter (out_writer o));
  _ ← on_shard (closeParts (out_parts o));
  on_shard (removeAll (out_metas o)).

Fixpoint compactSeriesLoop (inputs : list compactionInput) (seriesIDs : list Z) : step outState unit :=
  match seriesIDs with
  | [] => mret tt
  | seriesID :: seriesIDs' =>
      columns ← on_shard (queryCompactionSeries inputs seriesID);
      _ ← addSeries columns;
      compactSeriesLoop inputs seriesIDs'
  end.
Definition writeOutputs (inputs : list compactionInput) (seriesIDs : list Z) : step outState (list P * list PartMeta) :=
  r ← try_step (_ ← compactSeriesLoop inputs seriesIDs; closeCurrent);
  match r with
  | inl e => _ ← abortOutput; fail_step e
  | inr _ => out_gets (fun o => (out_parts o, out_metas o))
  end.
Definition writeStreamingCompactionOutputsLocked (outputLevel : Z) (opts : compactionOutputOptions) (candidates : list P)
    : step Shard (list P * list PartMeta) :=
  sopts ← gets sh_opts;
  inputs ← on_disk (newCompactionInputs candidates (so_Start sopts) (so_End sopts));
  seriesIDs ← on_disk (compactionSeriesIDs inputs);
  if len seriesIDs =? 0 then mret ([], [])
  else fun s =>
    let '(r, (s, _)) := writeOutputs inputs seriesIDs (s, newCompactionOutput outputLevel opts) in (r, s).

(** ** Committing a compaction *)
Definition selectedParts (candidates : list PartMeta) (parts : list P) : list P :=
  filter (fun part => pm_ID (pr_Meta part) ∈ partIDSet candidates) parts.
Definition keptParts (candidates : list PartMeta) (parts : list P) : list P :=
  filter (fun part => pm_ID (pr_Meta part) ∉ partIDSet candidates) parts.
Definition keptMetas (candidates : list PartMeta) (metas : list PartMeta) : list PartMeta :=
  filter (fun meta => pm_ID meta ∉ partIDSet candidates) metas.
Definition resolveCompactionOutputOptions (s : Shard) (output : compactionOutputOptions) : compactionOutputOptions :=
  mkOutputOptions
    (if oo_maxOutputPartBytes output <=? 0 then cp_MaxOutputPartBytes (so_Compaction (sh_opts s)) else oo_maxOutputPartBytes output)
    (if negb (compressionConfigured (oo_compression output)) then so_Compression (sh_opts s) else oo_compression output).
Definition ErrCompactionDiskSpaceExceeded : goerr := Errorf "compaction disk space exceeded".
Definition preflightCompactionDiskSpace (plan : compactionPlan) : step Shard unit :=
  copts ← gets (fun s => so_Compaction (sh_opts s));
  let required := i64 (pl_outputEstimateBytes plan + cp_DiskSpaceReserveBytes copts + cp_MinFreeBytes copts) in
  if required <=? 0 then mret tt
  else
    available ← wrap_step "check compaction disk space" (on_disk fs_AvailableBytes);
    if required <=? available then mret tt else fail_step ErrCompactionDiskSpaceExceeded.
Fixpoint cleanupOutputMetas (metas : list PartMeta) : step Shard unit :=
  match metas with
  | [] => mret tt
  | meta :: metas' =>
      _ ← errOf (removeUnreferencedPart (pm_Path meta) "remove compaction output failed"); cleanupOutputMetas metas'
  end.
Definition cleanupCompactionOutputs (parts : list P) (metas : list PartMeta) : step Shard unit :=
  _ ← closeParts parts; cleanupOutputMetas metas.
(** Inputs that cannot be removed are recorded; the error is not returned. *)
Fixpoint removeOldParts (metas : list PartMeta) : step Shard unit :=
  match metas with
  | [] => mret tt
  | meta :: metas' =>
      r ← try_step (on_disk (fs_RemoveAll (pm_Path meta)));
      _ ← match r with
          | inl err => recordRecoveryIssue (mkIssue RecoveryIssueOrphanRemoveFailed (pm_Path meta)
                         "remove compacted input part failed" (Some err) false)
          | inr _ => mret tt
          end;
      removeOldParts metas'
  end.
Definition compactPartsLocked (plan : compactionPlan) : step Shard unit :=
  output ← gets (fun s => resolveCompactionOutputOptions s (pl_output plan));
  hadTombstones ← gets (fun s => 0 <? len (sh_tombstones s));
  candidateParts ← gets (fun s => selectedParts (pl_candidates plan) (sh_parts s));
  if len candidateParts =? 0 then mret tt
  else
    _ ← preflightCompactionDiskSpace plan;
    '(newParts, newMeta) ← writeStreamingCompactionOutputsLocked (pl_outputLevel plan) output candidateParts;
    kept ← gets (fun s => (keptParts (pl_candidates plan) (sh_parts s), keptMetas (pl_candidates plan) (mf_Parts (sh_manifest s))));
    next ← gets (fun s => nextManifest s (kept.2 ++ newMeta));
    _ ← orCleanup (on_disk (pt_WriteManifest next)) (cleanupCompactionOutputs newParts newMeta);
    oldParts ← gets sh_parts;
    _ ← modify (set_parts (kept.1 ++ newParts) next);
    closeErr ← closeParts (selectedParts (pl_candidates plan) oldParts);
    _ ← failIf closeErr;
    _ ← removeOldParts (pl_candidates plan);
    if hadTombstones : bool then
      _ ← modify (set_tombstones []);
      on_wal wal_Checkpoint
    else mret tt.

(** ** The cascade *)
Definition startCompactionPlan (signature : bytes) : step Shard bool := fun s =>
  match sh_scheduler s with
  | None => (Ok true, s)
  | Some c => let '(started, c) := sched_start signature c in (Ok started, set_scheduler (Some c) s)
  end.
Definition finishCompactionPlan (signature : bytes) : step Shard unit :=
  modify (fun s => set_scheduler (sched_finish signature <$> sh_scheduler s) s).
Fixpoint cascadeLoop (steps : nat) : step Shard unit :=
  match steps with
  | O => mret tt
  | S steps' =>
      found ← (fun s => (nextCompactionPlan (fs_directorySize (sh_disk s)) (mf_Parts (sh_manifest s)) (sh_tombstones s)
                           (so_Compaction (sh_opts s)), s));
      match found with
      | None => mret tt
      | Some plan =>
          started ← startCompactionPlan (pl_candidateSignature plan);
          if negb started then mret tt
          else
            _ ← orCleanup (compactPartsLocked plan) (finishCompactionPlan (pl_candidateSignature plan));
            _ ← finishCompactionPlan (pl_candidateSignature plan);
            cascadeLoop steps'
      end
  end.
Definition runCompactionCascadeLocked : step Shard unit :=
  steps ← gets (fun s => cp_MaxCascadeSteps (so_Compaction (sh_opts s)));
  cascadeLoop (Z.to_nat steps).
Definition maybeCompactLocked : step Shard unit :=
  enabled ← gets (fun s => cp_Enabled (so_Compaction (sh_opts s)));
  busy ← gets hasActiveReadersLocked;
  if negb enabled then mret tt else if busy : bool then mret tt else runCompactionCascadeLocked.

(** ** Public operations *)
Definition Flush : step Shard unit := _ ← flushLocked; maybeCompactLocked.

Definition finishWrite (release : reservation) : step Shard unit :=
  needFlush ← gets shouldFlushMemTable;
  _ ← releaseMemory release;
  if needFlush : bool then Flush else mret tt.
Definition WriteBatch (points : list ResolvedPoint) (syncWrite : bool) : step Shard unit :=
  if len points =? 0 then mret tt
  else
    release ← reserveMemory storageMemoryWrite (estimateWALFrameBytes points);
    _ ← orCleanup (_ ← on_wal (wal_Append points syncWrite); applyMemAfterWAL points) (releaseMemory release);
    finishWrite release.
Definition reserveTypedWriteMemory (batch : ResolvedTypedBatch) (rows : list Z) : step Shard reservation :=
  limited ← gets (fun s => bool_decide (is_Some (sh_memory s)));
  if negb limited then mret None
  else
    estimate ← pure_step (estimateTypedWALFrameBytes batch rows);
    reserveMemory storageMemoryWrite estimate.
Definition WriteTypedBatch (batch : ResolvedTypedBatch) (rows : list Z) (syncWrite : bool) : step Shard unit :=
  if typedBatchRowCount batch rows =? 0 then mret tt
  else
    release ← reserveTypedWriteMemory batch rows;
    _ ← orCleanup (_ ← on_wal (wal_AppendTyped batch rows syncWrite); applyTypedMemAfterWAL batch rows) (releaseMemory release);
    finishWrite release.

(** [CompactWithResult]; its counters are not kept. *)
Definition Compact : step Shard unit :=
  _ ← flushLocked;
  noop ← gets (fun s => (len (sh_parts s) <=? 1) && (len (sh_tombstones s) =? 0));
  if noop : bool then mret tt
  else
    enabled ← gets (fun s => cp_Enabled (so_Compaction (sh_opts s)));
    _ ← (if enabled : bool then runCompactionCascadeLocked else mret tt);
    plan ← gets (fun s => fullCompactionPlan (mf_Parts (sh_manifest s)) (sh_tombstones s) (so_Compaction (sh_opts s)));
    match plan with
    | None => mret tt
    | Some plan => compactPartsLocked plan
    end.
End compaction.
