(* ===== verification/ShardScan.v ===== *)
(** * Draining the stream of a shard

    The stream of a shard delivers the columns of the merging stream without
    the deleted samples, skips columns that become empty and comes to an end;
    what it delivers answers the query over the surviving versions. *)
From S2P Require Import Prelude Model Runtime Versions MemCompact StoreSpec EngineMerge Tombstones QueryMerge Ports Shard.
From stdpp Require Import prelude strings list sorting.
From Stdlib Require Import ZArith Lia.
#[local] Open Scope Z_scope.

Definition left_in (sources : list mergeSource) : nat :=
  length (concat (map (fun src => ms_column src :: cs_items (ms_stream src)) sources)).

Section scan.
  Context `{GoRuntimeLaws}.

(** The columns a merging stream delivers before it ends without an error. *)
Inductive delivers : mergeColumnDataStream -> list ColumnData -> Prop :=
  | dl_done m m' : Next m = (false, m') -> mm_err m' = None -> delivers m []
  | dl_more m m' out : Next m = (true, m') -> delivers m' out -> (S (length out) <= left_in (mm_sources m))%nat ->
      delivers m (mm_current m' :: out).

Lemma pending_left sources : (length (concat (pending <$> sources)) <= left_in sources)%nat.
Proof.
  unfold left_in. induction sources as [|s sources IH]; [done|]. rewrite fmap_cons. cbn [map concat]. rewrite !length_app.
  unfold pending at 1. destruct (ms_valid s); simpl in *; lia.
Qed.

Lemma sources_deliver n : forall sources current, Forall source_ok sources -> (length (concat (pending <$> sources)) <= n)%nat ->
  exists out, delivers (mkMergeStream sources current None true false) out /\ merged (concat (pending <$> sources)) out /\
    (length out <= length (concat (pending <$> sources)))%nat.
Proof.
  induction n as [|n IH]; intros sources current Hok Hn; pose proof (Next_spec sources current Hok) as Hs; cbv zeta in Hs;
    destruct (Next (mkMergeStream sources current None true false)) as [[] m] eqn:En; simpl in Hs.
  2, 4: destruct Hs as [E Em]; exists []; split_and!; [by eapply dl_done|rewrite E; apply merged_nil|simpl; lia].
  - destruct Hs as (sources' & c & group & _ & _ & Hne & _ & _ & _ & _ & Hp). apply Permutation_length in Hp.
    rewrite length_app in Hp. destruct group; [done|]. simpl in Hp. lia.
  - destruct Hs as (sources' & c & group & -> & Hok' & Hne & Ek & Ec & Hg & Hlt & Hp).
    pose proof (Permutation_length Hp) as Hl. rewrite length_app in Hl.
    assert (1 <= length group)%nat by (destruct group; [done|simpl; lia]).
    destruct (IH sources' c Hok' ltac:(lia)) as (out & Hd & Hm & Hlo). exists (c :: out). split_and!.
    + apply (dl_more _ (mkMergeStream sources' c None true false)); [done|done|]. simpl.
      pose proof (pending_left sources). lia.
    + eapply (merged_step (keyOf c) group _ c); [exact Hg|done|exact Hlt|done| | |exact Hm|exact Hp].
      * rewrite Ec. destruct group as [|d group]; [done|]. exists d. split; [left|done].
      * rewrite Ec. destruct group as [|d group]; [done|]. apply mergeGroupSamples_resolves.
    + simpl. lia.
Qed.

Lemma streams_deliver streams :
  Forall (fun s => StronglySorted column_lt (cs_items s) /\ cs_err s = None) streams ->
  exists out, delivers (MergeColumnDataStreams streams) out /\ merged (concat (cs_items <$> streams)) out.
Proof.
  intros HF. destruct (initialize_spec streams HF) as (sources & Ei & Hok & Hp).
  destruct (sources_deliver _ sources zeroColumnData Hok (le_n _)) as (out & Hd & Hm & Hl). rewrite Hp in Hm, Hl.
  exists out. split; [|done].
  assert (Next (MergeColumnDataStreams streams) = Next (mkMergeStream sources zeroColumnData None true false)) as En.
  { unfold Next, MergeColumnDataStreams. simpl. by rewrite Ei. }
  assert (length (concat (cs_items <$> streams)) <= left_in (mm_sources (MergeColumnDataStreams streams)))%nat as Hleft.
  { clear. unfold left_in. simpl. induction streams as [|s streams IH]; [done|]. unfold fmap in *. simpl in *.
    rewrite !length_app. lia. }
  inversion Hd as [m m' E1 E2|m m' out' E1 E2 E3]; subst.
  - eapply dl_done; [by rewrite En|done].
  - eapply dl_more; [by rewrite En|done|]. simpl in Hl. lia.
Qed.

Lemma restrict_all_cons keep c out : restrict_all keep (c :: out) =
  (if len (cd_Samples (restrict keep c)) =? 0 then [] else [restrict keep c]) ++ restrict_all keep out.
Proof.
  unfold restrict_all. rewrite fmap_cons, filter_cons. case_decide as E; destruct (_ =? 0); by simpl in *.
Qed.

(** One call of [Next] on the shard's stream. *)
Lemma shardNext_spec inner out tombstones : delivers inner out -> forall fuel current, (length out < fuel)%nat ->
  match shardNext fuel (mkShardStream inner tombstones current None false) with
  | (false, s) => restrict_all (alive tombstones) out = [] /\ ss_err s = None
  | (true, s) => exists inner' out', s = mkShardStream inner' tombstones (ss_current s) None false /\ delivers inner' out' /\
      restrict_all (alive tombstones) out = ss_current s :: restrict_all (alive tombstones) out' /\
      (length out' < length out)%nat
  end.
Proof.
  induction 1 as [m m' En Ee|m m' out En Hd IH Hleft]; intros fuel current Hf; (destruct fuel as [|fuel]; [simpl in Hf; lia|]);
    cbn [shardNext ss_closed ss_err orb ss_inner ss_tombstones]; rewrite bool_decide_false by (by intros [? ?]);
    cbn [orb]; rewrite En; [done|].
  simpl in Hf. rewrite withSamples_restrict, restrict_all_cons.
  destruct (len (cd_Samples (restrict (alive tombstones) (mm_current m'))) =? 0) eqn:El; cbn [app].
  - specialize (IH fuel current ltac:(lia)). cbn [ss_current]. destruct (shardNext fuel _) as [[] s]; [|done].
    destruct IH as (inner' & out' & E1 & E2 & E3 & E4). exists inner', out'. split_and!; [done..|]. simpl. lia.
  - exists m', out. split_and!; [done..|]. simpl. lia.
Qed.

Lemma delivers_left inner out tombstones current : delivers inner out ->
  (length out <= streamLeft (mkShardStream inner tombstones current None false))%nat.
Proof.
  intros Hd. change (length out <= left_in (mm_sources inner))%nat. destruct Hd; simpl in *; lia.
Qed.
Lemma collectShard_spec tombstones : forall fuel inner out current, delivers inner out -> (length out < fuel)%nat ->
  collectShardLoop fuel (mkShardStream inner tombstones current None false) = (restrict_all (alive tombstones) out, None).
Proof.
  induction fuel as [|fuel IH]; intros inner out current Hd Hf; [lia|]. cbn [collectShardLoop].
  pose proof (delivers_left inner out tombstones current Hd) as Hl.
  pose proof (shardNext_spec inner out tombstones Hd (S (streamLeft (mkShardStream inner tombstones current None false))) current ltac:(lia)) as Hn.
  destruct (shardNext _ _) as [[] s]; [|by destruct Hn as [-> ->]].
  destruct Hn as (inner' & out' & -> & Hd' & -> & Hlt). simpl. by rewrite (IH inner' out' _ Hd') by lia.
Qed.

Lemma scan_answers schema query Vs streams tombstones : Forall2 (answering schema query) Vs streams ->
  let st := mkShardStream (MergeColumnDataStreams streams) tombstones zeroColumnData None false in
  exists out, collectShardLoop (S (streamLeft st)) st = (out, None) /\
    answers schema query (survivors tombstones (union_contents Vs)) out.
Proof.
  intros HF. apply answering_items in HF as [HF Hs]. destruct (streams_deliver streams Hs) as (out & Hd & Hm). intros st.
  exists (restrict_all (alive tombstones) out). split.
  - apply collectShard_spec; [done|]. pose proof (delivers_left _ out tombstones zeroColumnData Hd). unfold st. lia.
  - eapply answers_ext; [|apply answers_restrict; [apply alive_up_closed|by eapply answers_merge]].
    intros k s _ _. by rewrite survivors_alive.
Qed.
End scan.
