(* ===== verification/WalTyped.v ===== *)
(** * internal/wal: records of typed batches
    (encoding.go, encoding_columnar.go, encoding_value.go, wal.go)

    A typed batch is a table of columns and a choice of its rows.  Its record
    has the layout of a batch of points, but is written from the columns: the
    tags of a series come from its first row, the fields keep the order of the
    batch.  The file shows that replay returns the points the batch stands for. *)
From S2P Require Import Prelude GoBinary Model Codec Readers WalEncoding WalRoundtrip WalLog Runtime MemTable MemTheorems.
From stdpp Require Import prelude strings list sorting gmap.
From Stdlib Require Import ZArith Lia.
#[local] Open Scope Z_scope.

(** ** Rows of a batch *)
Definition typedResolvedFieldLen (field : ResolvedTypedFieldColumn) : Z :=
  if tf_Type field =? FieldFloat64 then len (tf_Float64Values field)
  else if tf_Type field =? FieldInt64 then len (tf_Int64Values field)
  else if tf_Type field =? FieldString then len (tf_StringValues field)
  else if tf_Type field =? FieldBool then len (tf_BoolValues field)
  else -1.
Definition typedRowCount (batch : ResolvedTypedBatch) (rows : list Z) : Z :=
  if 0 <? len rows then len rows else len (tb_Timestamps batch).
Definition typedRowIndex (rows : list Z) (position : Z) : outcome Z :=
  if 0 <? len rows then idx rows position else Ok position.
(** [for position := range n { row := typedRowIndex(rows, position); ... }]: the rows visited. *)
Fixpoint typedRows (rows : list Z) (n : nat) (position : Z) : outcome (list Z) :=
  match n with
  | O => Ok []
  | S n' => row ← typedRowIndex rows position; rest ← typedRows rows n' (position + 1); Ok (row :: rest)
  end.
Definition visitedRows (batch : ResolvedTypedBatch) (rows : list Z) : outcome (list Z) :=
  typedRows rows (Z.to_nat (typedRowCount batch rows)) 0.

Fixpoint validateRows (rows : list Z) (count : Z) : outcome unit :=
  match rows with
  | [] => Ok tt
  | row :: rows' =>
      if (row <? 0) || (count <=? row) then Err (Errorf "resolved typed row index out of range") else validateRows rows' count
  end.
Fixpoint validateFields (fields : list ResolvedTypedFieldColumn) (count : Z) : outcome unit :=
  match fields with
  | [] => Ok tt
  | field :: fields' =>
      if negb (typedResolvedFieldLen field =? count) then Err (Errorf "resolved typed field length mismatch")
      else validateFields fields' count
  end.
Definition validateResolvedTypedBatch (batch : ResolvedTypedBatch) (rows : list Z) : outcome unit :=
  let count := len (tb_Timestamps batch) in
  if negb (len (tb_SeriesIDs batch) =? count) || negb (len (tb_WriteSeqs batch) =? count)
  then Err (Errorf "resolved typed batch row metadata length mismatch")
  else _ ← validateRows rows count; validateFields (tb_Fields batch) count.

(** ** Identities: the first row of every series *)
Fixpoint typedIdentitiesLoop (batch : ResolvedTypedBatch) (visited : list Z) (seen : seriesRefIndex) (identityRows : list Z)
    : outcome (list Z * list Z) :=
  match visited with
  | [] => Ok (identityRows, [])
  | row :: visited' =>
      seriesID ← idx (tb_SeriesIDs batch) row;
      match sri_lookup seen seriesID with
      | Some ref => '(identityRows, refs) ← typedIdentitiesLoop batch visited' seen identityRows; Ok (identityRows, ref :: refs)
      | None =>
          let ref := len identityRows in
          '(identityRows, refs) ← typedIdentitiesLoop batch visited' (sri_setIfAbsent seen seriesID ref) (identityRows ++ [row]);
          Ok (identityRows, ref :: refs)
      end
  end.
Definition typedBatchIdentities (batch : ResolvedTypedBatch) (rows : list Z) : outcome (list Z * list Z) :=
  visited ← visitedRows batch rows;
  seriesIDs ← mapM (idx (tb_SeriesIDs batch)) visited;
  typedIdentitiesLoop batch visited (newRefIndex seriesIDs) [].

Section encode.
  Context `{GoRuntime}.

(** The indices of the tags in the order of their names; [nil] up to one tag. *)
Definition tagName (tags : list TagColumn) (index : Z) : bytes :=
  match tags !! Z.to_nat index with Some tag => tc_Name tag | None => [] end.
Definition typedTagOrder (tags : list TagColumn) : list Z :=
  if len tags <=? 1 then []
  else sort_Slice (fun i j => bytes_ltb (tagName tags i) (tagName tags j)) (seqZ 0 (len tags)).
Definition appendTag (tag : TagColumn) (row : Z) : outcome bytes :=
  value ← idx (tc_Values tag) row; Ok (AppendString (tc_Name tag) ++ AppendString value).
Definition appendTypedTags (tags : list TagColumn) (row : Z) (order : list Z) : outcome bytes :=
  match tags with
  | [] => Ok (appendUvarint 0)
  | [tag] => pair ← appendTag tag row; Ok (appendUvarint 1 ++ pair)
  | _ =>
      pairs ← mapM (fun index => tag ← idx tags index; appendTag tag row) order;
      Ok (appendUvarint (len tags) ++ concat pairs)
  end.
Definition appendTypedIdentity (batch : ResolvedTypedBatch) (row : Z) (tagOrder : list Z) : outcome bytes :=
  tags ← appendTypedTags (tb_Tags batch) row tagOrder;
  Ok (AppendString (tb_Database batch) ++ AppendString (tb_RetentionPolicy batch) ++ AppendString (tb_Measurement batch) ++ tags).

(** ** Columns *)
Definition appendTypedScalar (field : ResolvedTypedFieldColumn) (row : Z) : outcome bytes :=
  if tf_Type field =? FieldFloat64 then v ← idx (tf_Float64Values field) row; Ok (le_put_u64 v)
  else if tf_Type field =? FieldInt64 then v ← idx (tf_Int64Values field) row; Ok (appendVarint v)
  else if tf_Type field =? FieldString then v ← idx (tf_StringValues field) row; Ok (AppendString v)
  else if tf_Type field =? FieldBool then v ← idx (tf_BoolValues field) row; Ok [if v : bool then 1 else 0]
  else Err (Errorf "unsupported typed field value type").
Definition appendTypedFieldColumnDense (field : ResolvedTypedFieldColumn) (visited : list Z) : outcome bytes :=
  values ← mapM (appendTypedScalar field) visited;
  Ok (densePresence (length visited) ++ concat values).
Definition typedSchema (field : ResolvedTypedFieldColumn) : columnarFieldSchema :=
  mkSchema (tf_FieldID field) (tf_Name field) (tf_Type field).

Definition encodeColumnarTypedInto (batch : ResolvedTypedBatch) (rows : list Z) : outcome bytes :=
  '(identityRows, identityRefs) ← typedBatchIdentities batch rows;
  let schema := map typedSchema (tb_Fields batch) in
  let tagOrder := typedTagOrder (tb_Tags batch) in
  identities ← mapM (fun row => appendTypedIdentity batch row tagOrder) identityRows;
  visited ← visitedRows batch rows;
  seriesIDs ← mapM (idx (tb_SeriesIDs batch)) visited;
  timestamps ← mapM (idx (tb_Timestamps batch)) visited;
  writeSeqs ← mapM (idx (tb_WriteSeqs batch)) visited;
  columns ← mapM (fun field => appendTypedFieldColumnDense field visited) (tb_Fields batch);
  Ok (appendUvarint (len identityRows) ++ concat identities
      ++ appendColumnarSchema schema
      ++ appendUvarint (typedRowCount batch rows)
      ++ concat (map appendUvarint identityRefs)
      ++ concat (map appendUvarint seriesIDs)
      ++ appendTimestampDeltas 0 0 timestamps
      ++ appendWriteSeqDeltas 0 0 writeSeqs
      ++ concat columns).
Definition encodeTypedBatchInto (batch : ResolvedTypedBatch) (rows : list Z) : outcome bytes :=
  _ ← validateResolvedTypedBatch batch rows; encodeColumnarTypedInto batch rows.
Definition AppendTyped (l : Log) (batch : ResolvedTypedBatch) (rows : list Z) (syncWrite : bool) : outcome Log :=
  payload ← wrapErr "encode typed wal record" (encodeTypedBatchInto batch rows);
  appendFrameLocked l recordWriteBatch payload syncWrite.
End encode.

(** ** What the rows stand for *)
Record stands (batch : ResolvedTypedBatch) (row : Z) (p : ResolvedPoint) : Prop := {
  sd_fields : resolvedFieldsAt (tb_Fields batch) row = Ok (rp_Fields p);
  sd_point : resolvedTypedPointAt batch row (rp_Fields p) = Ok p;
}.
Lemma mapM_Forall2 {A B} (f : A -> outcome B) l bs : Forall2 (fun a b => f a = Ok b) l bs -> mapM f l = Ok bs.
Proof. induction 1 as [|a b l bs Hab HF IH]; simpl; [done|]. by rewrite Hab, IH. Qed.
Lemma visited_points batch rows n : forall position points, pointsLoop batch rows n position = Ok points ->
  exists visited, typedRows rows n position = Ok visited /\ Forall2 (stands batch) visited points.
Proof.
  induction n as [|n IH]; intros position points Hp; cbn [pointsLoop typedRows] in *; [injection Hp as <-; by exists []|].
  change (typedBatchRowIndex rows position) with (typedRowIndex rows position) in Hp.
  inv_bind Hp. injection Hp as <-. destruct (IH _ _ E2) as (visited & -> & HF). simpl. eexists. split; [done|].
  constructor; [|done]. destruct (resolvedPoint_inv _ _ _ _ E1) as (_ & _ & _ & Hf). split; by rewrite Hf.
Qed.
Lemma stands_meta batch row p : stands batch row p ->
  idx (tb_SeriesIDs batch) row = Ok (rp_SeriesID p) /\ idx (tb_Timestamps batch) row = Ok (rp_Timestamp p) /\
  idx (tb_WriteSeqs batch) row = Ok (rp_WriteSeq p).
Proof. intros [_ Hp]. by destruct (resolvedPoint_inv _ _ _ _ Hp) as (? & ? & ? & _). Qed.
Lemma stands_tags batch row p : stands batch row p -> typedTagMapAt (tb_Tags batch) row ∅ = Ok (rp_Tags p) /\
  rp_Database p = tb_Database batch /\ rp_RetentionPolicy p = tb_RetentionPolicy batch /\ rp_Measurement p = tb_Measurement batch.
Proof. intros [_ Hp]. unfold resolvedTypedPointAt in Hp. inv_bind Hp. by injection Hp as <-. Qed.

(** ** Tags *)
Lemma tag_map_list tags row : forall out m, typedTagMapAt tags row out = Ok m -> NoDup (tc_Name <$> tags) ->
  (forall tag, tag ∈ tags -> out !! tc_Name tag = None) ->
  exists kvs, Forall2 (fun tag kv => kv.1 = tc_Name tag /\ idx (tc_Values tag) row = Ok kv.2) tags kvs /\
    map_to_list m ≡ₚ kvs ++ map_to_list out.
Proof.
  induction tags as [|tag tags IH]; intros out m Hm Hnd Hout; cbn [typedTagMapAt] in Hm.
  { injection Hm as <-. by exists []. }
  inv_bind Hm. apply NoDup_cons in Hnd as [Hn Hnd]. destruct (IH _ _ Hm Hnd) as (kvs & HF & Hp).
  - intros t Ht. rewrite lookup_insert_ne; [apply Hout; by right|]. intros Ht'. apply Hn. rewrite Ht'. apply list_elem_of_fmap. by exists t.
  - exists ((tc_Name tag, a) :: kvs). split; [by constructor|]. rewrite Hp, map_to_list_insert; [|apply Hout; left].
    by rewrite <- Permutation_middle.
Qed.
#[export] Instance bytes_le_antisymm : AntiSymm (=) bytes_le.
Proof. intros a b Hab Hba. by apply bytes_ltb_tricho. Qed.
Lemma weak_order_name {A} (f : A -> bytes) : weak_order (fun x y => bytes_ltb (f x) (f y)).
Proof.
  split; [intros x y; apply bytes_ltb_asym|]. intros x y z Hxy Hyz. exact (transitivity (R := bytes_le) Hxy Hyz).
Qed.
Lemma sorted_names {A} (f : A -> bytes) l : StronglySorted (not_after (fun x y => bytes_ltb (f x) (f y))) l ->
  StronglySorted bytes_le (f <$> l).
Proof. induction 1 as [|x l Hs IH Hx]; [constructor|]. rewrite fmap_cons. constructor; [done|]. by apply Forall_fmap. Qed.
Lemma sorted_keys names keys : StronglySorted bytes_le names -> names ≡ₚ keys -> sortStrings keys = names.
Proof.
  intros Hs Hp. apply (StronglySorted_unique bytes_le); [apply (StronglySorted_merge_sort bytes_le)|done|].
  unfold sortStrings. by rewrite merge_sort_Permutation.
Qed.
Lemma tag_names tags : tagName tags <$> seqZ 0 (len tags) = tc_Name <$> tags.
Proof.
  apply list_eq. intros i. rewrite !list_lookup_fmap. unfold len. destruct (decide (i < length tags)%nat) as [Hi|Hi].
  - rewrite lookup_seqZ_lt by lia. cbn [fmap option_fmap option_map]. unfold tagName. replace (Z.to_nat (0 + Z.of_nat i)) with i by lia. destruct (lookup_lt_is_Some_2 _ _ Hi) as [t ->]. done.
  - rewrite lookup_seqZ_ge by lia. by rewrite (lookup_ge_None_2 tags) by lia.
Qed.

Section tags.
  Context `{GoRuntimeLaws}.
Lemma appendTypedTags_spec tags row m : typedTagMapAt tags row ∅ = Ok m -> NoDup (tc_Name <$> tags) ->
  appendTypedTags tags row (typedTagOrder tags) = Ok (appendTags m).
Proof.
  intros Hm Hnd. destruct (tag_map_list tags row ∅ m Hm Hnd) as (kvs & HF & Hp); [intros; apply lookup_empty|].
  rewrite map_to_list_empty, app_nil_r in Hp.
  assert (map fst (map_to_list m) ≡ₚ tc_Name <$> tags) as Hk.
  { rewrite Hp. clear -HF. induction HF as [|t kv tags kvs [E _] HF IH]; [done|]. rewrite fmap_cons. simpl. by rewrite E, IH. }
  assert (size m = length tags) as Hsz by (rewrite <- length_map_to_list, Hp; symmetry; by eapply Forall2_length).
  assert (forall tag, tag ∈ tags -> exists v, idx (tc_Values tag) row = Ok v /\ tagPair m (tc_Name tag) = AppendString (tc_Name tag) ++ AppendString v) as Hpair.
  { intros tag (i & Hi)%list_elem_of_lookup. destruct (Forall2_lookup_l _ _ _ _ _ HF Hi) as ([k v] & Hkv & Ek & Hv). simpl in *. subst k.
    exists v. split; [done|]. unfold tagPair. assert (m !! tc_Name tag = Some v) as ->; [|done].
    apply elem_of_map_to_list. rewrite Hp. by eapply list_elem_of_lookup_2. }
  unfold appendTags. destruct tags as [|tag tags'].
  { by rewrite bool_decide_true. }
  rewrite bool_decide_false by (rewrite Hsz; done). destruct tags' as [|tag' tags'].
  - destruct (Hpair tag ltac:(left)) as (v & Hv & Et). cbn [appendTypedTags]. unfold appendTag. rewrite Hv. simpl.
    assert (sortStrings (map fst (map_to_list m)) = [tc_Name tag]) as ->.
    { apply sorted_keys; [repeat constructor|]. by rewrite Hk. }
    simpl. by rewrite Et, app_nil_r.
  - set (tags := tag :: tag' :: tags') in *. set (order := typedTagOrder tags).
    assert (order = sort_Slice (fun i j => bytes_ltb (tagName tags i) (tagName tags j)) (seqZ 0 (len tags))) as Eo.
    { unfold order, typedTagOrder. assert (len tags <=? 1 = false) as -> by (unfold tags, len; simpl length; apply Z.leb_gt; lia). done. }
    assert (order ≡ₚ seqZ 0 (len tags)) as Hperm by (rewrite Eo; apply sort_Slice_perm).
    assert (sortStrings (map fst (map_to_list m)) = tagName tags <$> order) as Ekeys.
    { apply sorted_keys; [rewrite Eo; apply sorted_names, sort_Slice_sorted, weak_order_name|]. by rewrite Hk, Hperm, tag_names. }
    assert (len (tagName tags <$> order) = len tags) as El.
    { unfold len. rewrite length_fmap, (Permutation_length Hperm), length_seqZ. unfold len. lia. }
    rewrite Ekeys, El.
    assert (mapM (fun index => tag ← idx tags index; appendTag tag row) order = Ok (tagPair m <$> (tagName tags <$> order))) as Em.
    { rewrite <- list_fmap_compose. apply mapM_ok, Forall_forall. intros i Hi. rewrite Hperm in Hi. apply elem_of_seqZ in Hi.
      unfold idx. rewrite bool_decide_true by lia. destruct (lookup_lt_is_Some_2 tags (Z.to_nat i)) as [t Ht]; [unfold len in Hi; lia|].
      rewrite Ht. simpl. destruct (Hpair t) as (v & Hv & Et); [by eapply list_elem_of_lookup_2|]. unfold appendTag. rewrite Hv. simpl.
      unfold tagName. by rewrite Ht, Et. }
    change (appendTypedTags tags row order) with
      (pairs ← mapM (fun index => tag ← idx tags index; appendTag tag row) order; Ok (appendUvarint (len tags) ++ concat pairs)).
    by rewrite Em.
Qed.
Lemma appendTypedIdentity_spec batch row p : stands batch row p -> NoDup (tc_Name <$> tb_Tags batch) ->
  appendTypedIdentity batch row (typedTagOrder (tb_Tags batch)) = Ok (appendIdentity (newBatchIdentity p)).
Proof.
  intros Hs Hnd. destruct (stands_tags _ _ _ Hs) as (Ht & Ed & Er & Em). unfold appendTypedIdentity.
  rewrite (appendTypedTags_spec _ _ _ Ht Hnd). simpl. unfold appendIdentity, newBatchIdentity. simpl. by rewrite Ed, Er, Em.
Qed.
End tags.

(** ** Identities *)
Lemma typedIdentitiesLoop_spec batch visited : forall seen irs,
  (forall sid ref, sri_lookup seen sid = Some ref ->
     0 <= ref /\ exists row, irs !! Z.to_nat ref = Some row /\ idx (tb_SeriesIDs batch) row = Ok sid) ->
  Forall (fun row => exists sid, idx (tb_SeriesIDs batch) row = Ok sid) visited ->
  exists more refs, typedIdentitiesLoop batch visited seen irs = Ok (irs ++ more, refs) /\ more ⊆ visited /\
    (length more <= length visited)%nat /\
    Forall2 (fun row ref => 0 <= ref /\ exists first, (irs ++ more) !! Z.to_nat ref = Some first /\
               idx (tb_SeriesIDs batch) first = idx (tb_SeriesIDs batch) row) visited refs.
Proof.
  induction visited as [|row visited IH]; intros seen irs Hseen Hv; cbn [typedIdentitiesLoop].
  { exists [], []. rewrite app_nil_r. split_and!; [done|set_solver|done|constructor]. }
  apply Forall_cons in Hv as [[sid Hsid] Hv]. rewrite Hsid. simpl. destruct (sri_lookup seen sid) as [ref|] eqn:El.
  - destruct (IH seen irs Hseen Hv) as (more & refs & -> & Hsub & Hle & HF). simpl. exists more, (ref :: refs).
    destruct (Hseen _ _ El) as (H0 & first & Hf & Hfs). split_and!; [done|set_solver|lia|]. constructor; [|done].
    split; [done|]. exists first. split; [by apply lookup_app_l_Some|by rewrite Hfs, Hsid].
  - destruct (IH (sri_setIfAbsent seen sid (len irs)) (irs ++ [row])) as (more & refs & -> & Hsub & Hle & HF); [|done|].
    { intros sid' ref Hr. apply sri_lookup_set in Hr as [[-> ->]|Hr]; [| |apply len_nonneg].
      - split; [apply len_nonneg|]. exists row. by rewrite lookup_len_snoc.
      - destruct (Hseen _ _ Hr) as (H0 & first & Hf & Hfs). split; [done|]. exists first. split; [by apply lookup_app_l_Some|done]. }
    simpl. exists (row :: more), (len irs :: refs). rewrite <- (app_assoc irs [row] more) in *. simpl in *.
    split_and!; [done|set_solver|simpl; lia|]. constructor; [|done]. split; [apply len_nonneg|]. exists row. split; [|done].
    unfold len. rewrite Nat2Z.id, lookup_app_r, Nat.sub_diag by lia. done.
Qed.

(** ** Columns *)
Lemma appendTypedScalar_spec field row f : resolvedTypedFieldAt field row = Ok f -> value_ok (rf_Value f) ->
  appendTypedScalar field row = Ok (valueBody (rf_Value f)).
Proof.
  unfold resolvedTypedFieldAt. intros Hf Hv. inv_bind Hf. injection Hf as <-. simpl in Hv |- *.
  unfold typedFieldValueAt in E. unfold appendTypedScalar.
  destruct (tf_Type field =? FieldFloat64) eqn:E1; [inv_bind E; by injection E as <-|].
  destruct (tf_Type field =? FieldInt64) eqn:E2; [inv_bind E; by injection E as <-|].
  destruct (tf_Type field =? FieldString) eqn:E3; [inv_bind E; by injection E as <-|].
  destruct (tf_Type field =? FieldBool) eqn:E4; [inv_bind E; by injection E as <-|].
  injection E as <-. exfalso. inversion Hv as [? ? Ht|? ? Ht|? ? Ht|? Ht]; by rewrite <- Ht in *.
Qed.
Lemma resolvedFieldsAt_inv fields row : forall fs, resolvedFieldsAt fields row = Ok fs ->
  Forall2 (fun field f => resolvedTypedFieldAt field row = Ok f) fields fs.
Proof.
  induction fields as [|field fields IH]; intros fs Hf; cbn [resolvedFieldsAt] in Hf; [injection Hf as <-; constructor|].
  inv_bind Hf. injection Hf as <-. constructor; [done|by apply IH].
Qed.
Lemma resolvedField_schema field row f : resolvedTypedFieldAt field row = Ok f -> fieldKeyOf f = typedSchema field.
Proof. unfold resolvedTypedFieldAt. intros Hf. inv_bind Hf. by injection Hf as <-. Qed.

(** The column of the [j]th field. *)
Definition typedColumnAt (points : list ResolvedPoint) (j : nat) : column := (fun p => rf_Value <$> rp_Fields p !! j) <$> points.

Section columns.
  Context (batch : ResolvedTypedBatch) (visited : list Z) (points : list ResolvedPoint).
  Context (HF : Forall2 (stands batch) visited points) (Hok : Forall point_ok points).

Lemma stands_field j field : tb_Fields batch !! j = Some field ->
  Forall2 (fun row p => exists f, rp_Fields p !! j = Some f /\ resolvedTypedFieldAt field row = Ok f /\ field_ok f) visited points.
Proof.
  intros Hj. apply Forall2_same_length_lookup_2; [by eapply Forall2_length|]. intros i row p Hr Hp.
  destruct (Forall2_lookup_lr _ _ _ _ _ _ HF Hr Hp) as [Hf _].
  destruct (Forall2_lookup_l _ _ _ _ _ (resolvedFieldsAt_inv _ _ _ Hf) Hj) as (f & Hfj & Hres). exists f. split_and!; [done|done|].
  destruct (proj1 (Forall_forall _ _) Hok p) as (_ & _ & _ & _ & Hfs); [by eapply list_elem_of_lookup_2|].
  apply (proj1 (Forall_forall _ _) Hfs). by eapply list_elem_of_lookup_2.
Qed.
Lemma column_values j field : tb_Fields batch !! j = Some field -> exists vs,
  typedColumnAt points j = Some <$> vs /\ mapM (appendTypedScalar field) visited = Ok (map valueBody vs) /\
  Forall (fun v => value_ok v /\ fv_Type v = tf_Type field) vs.
Proof.
  intros Hj. pose proof (stands_field j field Hj) as Hst. clear HF Hok. unfold typedColumnAt.
  induction Hst as [|row p vis ps (f & Hf & Hres & (_ & _ & Hv & Ht)) _ (vs & E1 & E2 & E3)]; [by exists []|].
  exists (rf_Value f :: vs). rewrite !fmap_cons, Hf, E1. split_and!; [done| |constructor; [|done]].
  - simpl. by rewrite (appendTypedScalar_spec _ _ _ Hres Hv), E2.
  - split; [done|]. pose proof (resolvedField_schema _ _ _ Hres) as Ek. injection Ek as _ _ <-. done.
Qed.
Lemma columnValues_full vs : columnValues (Some <$> vs) = vs.
Proof. induction vs as [|v vs IH]; [done|]. change (v :: columnValues (Some <$> vs) = v :: vs). by rewrite IH. Qed.
Definition typedColumns : list column := typedColumnAt points <$> seq 0 (length (tb_Fields batch)).

Lemma fields_encoded : exists encs, mapM (fun field => appendTypedFieldColumnDense field visited) (tb_Fields batch) = Ok encs /\
  Forall2 (fun col enc => exists raw, enc = raw ++ concat (map valueBody (columnValues col)) /\
     length raw = bitCount8 (length col) /\ map (bitAt raw) (seq 0 (length col)) = map isPresent col) typedColumns encs /\
  Forall2 (fun field col => length col = length points /\ column_ok (cfs_typ field) col) (map typedSchema (tb_Fields batch)) typedColumns.
Proof.
  set (enc j := densePresence (length visited) ++ concat (map valueBody (columnValues (typedColumnAt points j)))).
  assert (forall j field, tb_Fields batch !! j = Some field -> appendTypedFieldColumnDense field visited = Ok (enc j)) as Henc.
  { intros j field Hj. destruct (column_values j field Hj) as (vs & E1 & E2 & _). unfold appendTypedFieldColumnDense, enc.
    by rewrite E2, E1, columnValues_full. }
  pose proof (Forall2_length _ _ _ HF) as Hl.
  exists (enc <$> seq 0 (length (tb_Fields batch))). split_and!.
  - apply mapM_Forall2, Forall2_fmap_r, Forall2_same_length_lookup_2; [by rewrite length_seq|]. intros j field j' Hj Hj'.
    apply lookup_seq in Hj' as [-> _]. by apply Henc.
  - unfold typedColumns. apply Forall2_fmap_l, Forall2_fmap_r, Forall_Forall2_diag, Forall_forall. intros j Hj.
    apply elem_of_seq in Hj. destruct (lookup_lt_is_Some_2 (tb_Fields batch) j) as [field Hfj]; [lia|].
    destruct (column_values j field Hfj) as (vs & E1 & _). exists (densePresence (length visited)). split_and!; [done|..].
    + rewrite densePresence_length. unfold typedColumnAt. by rewrite length_fmap, Hl.
    + unfold typedColumnAt at 1. rewrite length_fmap, <- Hl, map_bitAt_dense, E1, Hl.
      assert (length vs = length points) as <- by (pose proof (f_equal length E1) as E; unfold typedColumnAt in E; rewrite !length_fmap in E; done).
      clear. induction vs as [|v vs IH]; [done|]. simpl. by rewrite IH.
  - unfold typedColumns. apply Forall2_same_length_lookup_2; [by rewrite length_map, length_fmap, length_seq|].
    intros j sch col Hs Hc. rewrite list_lookup_fmap in Hs. rewrite list_lookup_fmap in Hc. destruct (tb_Fields batch !! j) as [field|] eqn:Hj; [|done]. injection Hs as <-.
    destruct (seq 0 _ !! j) as [j'|] eqn:Ej; [|done]. injection Hc as <-. apply lookup_seq in Ej as [-> _]. simpl.
    split; [apply length_fmap|]. destruct (column_values j field Hj) as (vs & E1 & _ & Hv). unfold column_ok. by rewrite E1, columnValues_full.
Qed.

Lemma rowFields_spec i p : points !! i = Some p -> rowFields (map typedSchema (tb_Fields batch)) typedColumns i = rp_Fields p.
Proof.
  intros Hp. destruct (Forall2_lookup_r _ _ _ _ _ HF Hp) as (row & _ & Hf & _). apply resolvedFieldsAt_inv in Hf.
  unfold rowFields, typedColumns.
  assert (forall fields fs k, Forall2 (fun field f => resolvedTypedFieldAt field row = Ok f) fields fs ->
    (forall j f, fs !! j = Some f -> rp_Fields p !! (k + j)%nat = Some f) ->
    omap (fieldAt i) (zip (map typedSchema fields) (typedColumnAt points <$> seq k (length fields))) = fs) as Hg.
  { clear Hf. intros fields fs k HR. revert k. induction HR as [|field f fields fs Hres HR IH]; intros k Hk; [done|].
    pose proof (Hk 0%nat f eq_refl) as Hkf. rewrite Nat.add_0_r in Hkf.
    pose proof (resolvedField_schema _ _ _ Hres) as Ekey.
    assert (fieldAt i (typedSchema field, typedColumnAt points k) = Some f) as Ef.
    { rewrite <- Ekey. unfold fieldAt, typedColumnAt. simpl. rewrite list_lookup_fmap, Hp. simpl. rewrite Hkf. simpl. by destruct f. }
    cbn [length seq map]. rewrite fmap_cons. cbn [zip zip_with omap list_omap]. rewrite Ef. f_equal. apply (IH (S k)).
    intros j g Hg. rewrite <- (Hk (S j) g) by done. f_equal. lia. }
  by apply Hg.
Qed.
End columns.

(** ** Round trip *)
(** What the engine hands over: valid points, tags with names of their own,
    the same tags on all rows of a series. *)
Record typed_ok (batch : ResolvedTypedBatch) (points : list ResolvedPoint) : Prop := {
  ty_points : Forall point_ok points;
  ty_names : NoDup (tc_Name <$> tb_Tags batch);
  ty_series p q : p ∈ points -> q ∈ points -> rp_SeriesID p = rp_SeriesID q -> rp_Tags p = rp_Tags q;
  ty_schema : Forall schema_ok (map typedSchema (tb_Fields batch));
  ty_rows_fit : fits (len points);
  ty_fields_fit : fits (len (tb_Fields batch));
}.
Section roundtrip.
  Context `{GoRuntimeLaws} (batch : ResolvedTypedBatch) (rows : list Z) (points : list ResolvedPoint).
  Context (Hpoints : resolvedPointsFromTypedBatch batch rows = Ok points) (Hty : typed_ok batch points).

Lemma stands_identity visited row p q : Forall2 (stands batch) visited points -> stands batch row p -> p ∈ points -> q ∈ points ->
  idx (tb_SeriesIDs batch) row = Ok (rp_SeriesID q) -> newBatchIdentity p = newBatchIdentity q.
Proof.
  intros HF Hp Hpin Hqin Hsid. destruct (stands_meta _ _ _ Hp) as (Hps & _). rewrite Hps in Hsid. injection Hsid as Hsid.
  apply list_elem_of_lookup in Hqin as [i Hq]. destruct (Forall2_lookup_r _ _ _ _ _ HF Hq) as (row' & _ & Hq').
  apply list_elem_of_lookup_2 in Hq. destruct (stands_tags _ _ _ Hp) as (_ & E1 & E2 & E3), (stands_tags _ _ _ Hq') as (_ & F1 & F2 & F3).
  unfold newBatchIdentity. rewrite E1, E2, E3, F1, F2, F3. f_equal. by eapply ty_series.
Qed.
Lemma identity_points visited irs : Forall2 (stands batch) visited points -> irs ⊆ visited ->
  exists ps, Forall2 (stands batch) irs ps /\ ps ⊆ points.
Proof.
  intros HF. induction irs as [|row irs IH]; intros Hsub; [exists []; split; [constructor|set_solver]|].
  destruct IH as (ps & Hps & Hin); [set_solver|]. assert (row ∈ visited) as Hr by set_solver.
  apply list_elem_of_lookup in Hr as [i Hi]. destruct (Forall2_lookup_l _ _ _ _ _ HF Hi) as (p & Hp & Hst).
  apply list_elem_of_lookup_2 in Hp. exists (p :: ps). split; [by constructor|set_solver].
Qed.
Lemma typed_rows_length n : forall position visited, typedRows rows n position = Ok visited -> length visited = n.
Proof.
  induction n as [|n IH]; intros position visited Hv; cbn [typedRows] in Hv; [by injection Hv as <-|].
  inv_bind Hv. injection Hv as <-. simpl. f_equal. by eapply IH.
Qed.

Lemma encodeColumnarTypedInto_decode : exists bs, encodeColumnarTypedInto batch rows = Ok bs /\ decodeBatch bs = Ok points.
Proof.
  destruct (visited_points _ _ _ _ _ Hpoints) as (visited & Hvis & HF). change (visitedRows batch rows = Ok visited) in Hvis.
  pose proof (Forall2_length _ _ _ HF) as Hl. pose proof (typed_rows_length _ _ _ Hvis) as Hcount.
  assert (typedRowCount batch rows = len points) as Erc.
  { pose proof (typedBatchRowCount_nonneg batch rows). change (typedBatchRowCount batch rows) with (typedRowCount batch rows) in *. unfold len. lia. }
  assert (forall {A} (get : ResolvedTypedBatch -> list A) (val : ResolvedPoint -> A),
    (forall row p, stands batch row p -> idx (get batch) row = Ok (val p)) -> mapM (idx (get batch)) visited = Ok (map val points)) as Hmeta.
  { intros A get val Hg. apply mapM_Forall2, Forall2_fmap_r. eapply Forall2_impl; [exact HF|]. apply Hg. }
  destruct (typedIdentitiesLoop_spec batch visited (newRefIndex (map rp_SeriesID points)) []) as (irs & refs & Eids & Hsub & Hle & Hrefs).
  { intros sid ref. by rewrite newRefIndex_empty. }
  { apply Forall_forall. intros row (i & Hi)%list_elem_of_lookup. destruct (Forall2_lookup_l _ _ _ _ _ HF Hi) as (p & _ & Hp).
    destruct (stands_meta _ _ _ Hp) as (Hs & _). by eexists. }
  simpl in Eids, Hrefs. destruct (identity_points visited irs HF Hsub) as (ps & Hps & Hpsin).
  destruct (fields_encoded batch visited points HF (ty_points _ _ Hty)) as (encs & Eencs & Henc & Hcols).
  unfold encodeColumnarTypedInto, typedBatchIdentities. rewrite Hvis. simpl.
  rewrite (Hmeta _ tb_SeriesIDs rp_SeriesID), (Hmeta _ tb_Timestamps rp_Timestamp), (Hmeta _ tb_WriteSeqs rp_WriteSeq)
    by (intros row p Hp; by destruct (stands_meta _ _ _ Hp) as (? & ? & ?)).
  simpl. rewrite Eids. simpl.
  rewrite (mapM_Forall2 _ irs (map appendIdentity (map newBatchIdentity ps))).
  2: { apply Forall2_fmap_r, Forall2_fmap_r. eapply Forall2_impl; [exact Hps|]. intros row p Hp.
       apply appendTypedIdentity_spec; [done|apply Hty]. }
  simpl. rewrite Eencs. simpl. eexists. split; [done|].
  pose proof (Forall2_length _ _ _ Hps) as Hpl. pose proof (Forall2_length _ _ _ Hrefs) as Hrl.
  rewrite Erc. replace (len irs) with (len (map newBatchIdentity ps)) by (unfold len; rewrite length_map; lia).
  replace (len points) with (len refs) by (unfold len; lia). rewrite (app_assoc (appendUvarint _)). fold (appendColumnarIdentities (map newBatchIdentity ps)).
  destruct Hty as [Hok Hnames Hser Hsch Hfr Hff].
  apply (decodeBatch_layout (map newBatchIdentity ps) (map typedSchema (tb_Fields batch)) refs (map rp_SeriesID points)
    (map rp_Timestamp points) (map rp_WriteSeq points) (typedColumns batch points) encs points (length points));
    rewrite ?length_map; try done; try lia; try (unfold len in *; rewrite ?length_map in *; alloc_lia).
  - apply Forall_fmap, Forall_forall. intros p Hp. apply (proj1 (Forall_forall _ _) Hok p). by apply Hpsin.
  - eapply Forall2_Forall_r; [exact Hrefs|]. apply Forall_forall. intros row _ ref (H0' & first & Hf%lookup_lt_Some & _).
    unfold len. rewrite length_map. lia.
  - apply Forall_fmap. eapply Forall_impl; [exact Hok|]. by intros p (_ & ? & _).
  - apply Forall_fmap. eapply Forall_impl; [exact Hok|]. by intros p (_ & _ & ? & _).
  - apply Forall_fmap. eapply Forall_impl; [exact Hok|]. by intros p (_ & _ & _ & ? & _).
  - intros i p Hp. destruct (Forall2_lookup_r _ _ _ _ _ HF Hp) as (row & Hrow & Hst).
    destruct (Forall2_lookup_l _ _ _ _ _ Hrefs Hrow) as (ref & Href & _ & first & Hfirst & Esid).
    destruct (Forall2_lookup_l _ _ _ _ _ Hps Hfirst) as (q & Hq & Hqst).
    assert (newBatchIdentity q = newBatchIdentity p) as Eid.
    { apply (stands_identity visited first); try done; [apply Hpsin; by eapply list_elem_of_lookup_2|by eapply list_elem_of_lookup_2|].
      rewrite Esid. by destruct (stands_meta _ _ _ Hst) as (? & _). }
    assert (map newBatchIdentity ps !! Z.to_nat ref = Some (newBatchIdentity q)) as Emap by (rewrite list_lookup_fmap; by rewrite Hq).
    unfold rowOf. rewrite Href. simpl. rewrite Emap. simpl. rewrite !list_lookup_fmap, Hp. simpl.
    rewrite (rowFields_spec batch visited points HF i p Hp). unfold newBatchIdentity in Eid. injection Eid as -> -> -> ->. by destruct p.
Qed.
Lemma encodeTypedBatchInto_decode : validateResolvedTypedBatch batch rows = Ok tt ->
  exists bs, encodeTypedBatchInto batch rows = Ok bs /\ decodeBatch bs = Ok points.
Proof. intros Hv. unfold encodeTypedBatchInto. rewrite Hv. apply encodeColumnarTypedInto_decode. Qed.
End roundtrip.

(** C12: the record of a typed batch is written whenever the batch passes its validation,
    and decoding it returns exactly the points the chosen rows stand for. *)
Theorem typed_wal_roundtrip `{GoRuntimeLaws} (batch : ResolvedTypedBatch) (rows : list Z) (points : list ResolvedPoint)
  (Hpoints : resolvedPointsFromTypedBatch batch rows = Ok points) (Hty : typed_ok batch points)
  (Hv : validateResolvedTypedBatch batch rows = Ok tt) :
  exists bs, encodeTypedBatchInto batch rows = Ok bs /\ decodeBatch bs = Ok points.
Proof. exact (encodeTypedBatchInto_decode batch rows points Hpoints Hty Hv). Qed.

(** Three rows of two series, chosen out of order; two tags, named out of order. *)
#[local] Existing Instances refRuntime refRuntimeLaws.
Definition ex_typed_rows : ResolvedTypedBatch :=
  mkTypedBatch (str "db") (str "rp") (str "m")
    [mkTagColumn (str "zone") [str "x"; str "y"; str "x"]; mkTagColumn (str "host") [str "a"; str "b"; str "a"]]
    [30; 20; 25] [7; 8; 7] [5; 6; 7]
    [mkTypedField 2 (str "g") FieldBool [] [] [] [true; false; true]; mkTypedField 1 (str "f") FieldInt64 [] [300; 200; 250] [] []].
Definition ex_typed_point (sid ts seq : Z) (host zone : string) (g : bool) (f : Z) : ResolvedPoint :=
  mkResolvedPoint (str "db") (str "rp") (str "m") (<[str "host" := str host]> {[ str "zone" := str zone ]}) sid ts seq
    [mkResolvedField 2 (str "g") FieldBool (BoolValue g); mkResolvedField 1 (str "f") FieldInt64 (Int64Value f)].
Definition ex_typed_points : list ResolvedPoint :=
  [ex_typed_point 7 25 7 "a" "x" true 250; ex_typed_point 8 20 6 "b" "y" false 200; ex_typed_point 7 30 5 "a" "x" true 300].
Lemma ex_typed_fields_ok g f : is_i64 f -> Forall field_ok
  [mkResolvedField 2 (str "g") FieldBool (BoolValue g); mkResolvedField 1 (str "f") FieldInt64 (Int64Value f)].
Proof.
  intros Hf. apply Forall_cons_2; [|apply Forall_cons_2; [|apply Forall_nil_2]].
  - split; [by_decide|]. split; [by_decide|]. split; [constructor|reflexivity].
  - split; [by_decide|]. split; [by_decide|]. split; [by constructor|reflexivity].
Qed.
Lemma ex_typed_point_ok sid ts seq host zone g f : is_u64 sid -> is_i64 ts -> 0 <= seq < 2 ^ 64 - 1 -> is_i64 f ->
  string_ok (str host) /\ str host <> [] -> string_ok (str zone) /\ str zone <> [] -> point_ok (ex_typed_point sid ts seq host zone g f).
Proof.
  intros Hsid Hts Hseq Hf [Hh Hhn] [Hz Hzn]. split; [|exact (conj Hsid (conj Hts (conj Hseq (ex_typed_fields_ok g f Hf))))].
  split; [by_decide|]. split; [by_decide|]. split; [by_decide|]. simpl bi_tags. split.
  - apply map_Forall_insert_2; [split; [by_decide|exact (conj Hh Hhn)]|]. apply map_Forall_singleton.
    split; [by_decide|exact (conj Hz Hzn)].
  - rewrite map_size_insert_None by (rewrite lookup_singleton_ne; done). rewrite map_size_singleton. by_decide.
Qed.
Lemma ex_typed_ok : typed_ok ex_typed_rows ex_typed_points.
Proof.
  split.
  - repeat (apply Forall_cons_2; [apply ex_typed_point_ok; by_decide|]). apply Forall_nil_2.
  - by_decide.
  - unfold ex_typed_points. intros p q Hp Hq. rewrite !elem_of_cons in Hp, Hq.
    destruct Hp as [->|[->|[->|Hp%elem_of_nil]]], Hq as [->|[->|[->|Hq%elem_of_nil]]]; intros E; first [reflexivity|discriminate E|done].
  - repeat (apply Forall_cons_2; [split_and!; by_decide|]). apply Forall_nil_2.
  - by_decide.
  - by_decide.
Qed.
Lemma typed_wal_roundtrip_witness : length ex_typed_points = 3%nat /\
  exists bs, encodeTypedBatchInto ex_typed_rows [2; 1; 0] = Ok bs /\ decodeBatch bs = Ok ex_typed_points.
Proof.
  split; [reflexivity|]. apply (typed_wal_roundtrip ex_typed_rows [2; 1; 0]);
    [vm_compute; reflexivity|exact ex_typed_ok|vm_compute; reflexivity].
Defined.
