(* ===== verification/ShardInv.v ===== *)
(** * What holds of a shard between its operations

    The names of parts, rules for the steps of a shard, and its invariant: two
    views of the data, what queries show [now] and what a reopened shard would
    show ([kept]), each a list of writes and a list of deletions. *)
From S2P Require Import Prelude Model WalRoundtrip WalLog SstValues Runtime Versions MemColumn MemCompact StoreSpec MemTable MemTheorems EngineMerge Tombstones QueryMerge SstMeta MemoryBudget EngineOptions Planner SstPack Ports Shard.
From stdpp Require Import prelude strings list sorting gmap.
From Stdlib Require Import ZArith Lia.
#[local] Open Scope Z_scope.

(** ** Names of parts *)
Lemma digitsLoop_decimal fuel : forall n acc v, 0 <= n < 10 ^ Z.of_nat fuel ->
  foldl (fun v b => v * 10 + (b - 48)) v (digitsLoop fuel n acc) =
  foldl (fun v b => v * 10 + (b - 48)) (v * 10 ^ (Z.of_nat (length (digitsLoop fuel n acc)) - Z.of_nat (length acc)) + n) acc.
Proof.
  induction fuel as [|fuel IH]; intros n acc v Hn; cbn [digitsLoop].
  { replace (_ - _) with 0 by lia. simpl in Hn. rewrite Z.pow_0_r. f_equal. lia. }
  destruct (n <? 10) eqn:E; [apply Z.ltb_lt in E|apply Z.ltb_ge in E].
  - simpl length. replace (_ - _) with 1 by lia. cbn [foldl]. f_equal. rewrite (Z.mod_small n 10) by lia. lia.
  - rewrite Nat2Z.inj_succ, Z.pow_succ_r in Hn by lia.
    rewrite IH by (split; [apply Z.div_pos; lia|apply Z.div_lt_upper_bound; lia]). cbn [foldl].
    set (l := Z.of_nat (length (digitsLoop fuel (n / 10) ((48 + n mod 10) :: acc)))). simpl length.
    assert (Z.of_nat (S (length acc)) <= l) as Hl.
    { unfold l. clear. generalize (n / 10) (48 + n mod 10) acc. clear. intros n d acc.
      assert (forall fuel n acc, (length acc <= length (digitsLoop fuel n acc))%nat) as Hge.
      { induction fuel0 as [|f IH]; intros m a; cbn [digitsLoop]; [done|]. destruct (m <? 10); [simpl; lia|].
        specialize (IH (m / 10) ((48 + m mod 10) :: a)). simpl in IH. lia. }
      specialize (Hge fuel n (d :: acc)). simpl in Hge. lia. }
    f_equal. replace (l - Z.of_nat (length acc)) with ((l - Z.of_nat (S (length acc))) + 1) by lia.
    rewrite Z.pow_add_r by lia. pose proof (Z.div_mod n 10 ltac:(lia)). lia.
Qed.
Lemma digitsLoop_digits fuel : forall n acc, Forall (fun b => isDigit b = true) acc ->
  Forall (fun b => isDigit b = true) (digitsLoop fuel n acc).
Proof.
  induction fuel as [|fuel IH]; intros n acc Ha; cbn [digitsLoop]; [done|].
  assert (Forall (fun b => isDigit b = true) ((48 + n mod 10) :: acc)) as Ha'.
  { constructor; [|done]. unfold isDigit. pose proof (Z.mod_pos_bound n 10 ltac:(lia)). rewrite andb_true_iff, !Z.leb_le. lia. }
  destruct (n <? 10); [done|]. by apply IH.
Qed.
Lemma digitsLoop_length fuel : forall n acc k, 0 <= n < 10 ^ Z.of_nat (S k) ->
  (length (digitsLoop fuel n acc) <= S k + length acc)%nat.
Proof.
  induction fuel as [|fuel IH]; intros n acc k Hn; cbn [digitsLoop]; [lia|].
  destruct (n <? 10) eqn:E; [simpl; lia|]. apply Z.ltb_ge in E. destruct k as [|k]; [simpl in Hn; lia|].
  assert (0 <= n / 10 < 10 ^ Z.of_nat (S k)) as Hd.
  { rewrite Nat2Z.inj_succ, Z.pow_succ_r in Hn by lia. split; [apply Z.div_pos; lia|apply Z.div_lt_upper_bound; lia]. }
  specialize (IH (n / 10) ((48 + n mod 10) :: acc) k Hd). simpl in *. lia.
Qed.

Lemma decimal_zeros k ds : decimal (replicate k 48 ++ ds) = decimal ds.
Proof. unfold decimal. rewrite foldl_app. f_equal. induction k as [|k IH]; [done|]. simpl. exact IH. Qed.
Lemma digits_fuel n : 0 <= n -> n < 10 ^ Z.of_nat (S (Z.to_nat (Z.log2 n))).
Proof.
  intros Hn. rewrite Nat2Z.inj_succ, Z2Nat.id by apply Z.log2_nonneg. pose proof (Z.log2_nonneg n).
  destruct (decide (n = 0)) as [->|]; [done|]. pose proof (Z.log2_spec n ltac:(lia)).
  pose proof (Z.pow_le_mono_l 2 10 (Z.succ (Z.log2 n)) ltac:(lia)). lia.
Qed.
Lemma decimal_digits n : 0 <= n -> decimal (digits n) = n.
Proof. intros Hn. unfold decimal, digits. rewrite digitsLoop_decimal by (split; [done|by apply digits_fuel]). simpl. lia. Qed.
Lemma decimal_padded n : 0 <= n -> decimal (padded n) = n.
Proof. intros Hn. unfold padded. rewrite decimal_zeros. by apply decimal_digits. Qed.
Lemma padded_digits n : Forall (fun b => isDigit b = true) (padded n).
Proof.
  unfold padded. apply Forall_app. split; [by apply Forall_replicate|]. by apply digitsLoop_digits.
Qed.
(** A part id holds no path separator. *)
Lemma partID_plain n : 47 ∉ partID n.
Proof.
  unfold partID. intros [Hs|Hd]%elem_of_app.
  - by repeat (apply elem_of_cons in Hs as [Hs|Hs]; [discriminate|]); apply elem_of_nil in Hs.
  - by apply (proj1 (Forall_forall _ _) (padded_digits n)) in Hd.
Qed.
Lemma partID_inj n m : 0 <= n -> 0 <= m -> partID n = partID m -> n = m.
Proof.
  intros Hn Hm E. unfold partID in E. apply app_inv_head in E. rewrite <- (decimal_padded n), <- (decimal_padded m) by done.
  by rewrite E.
Qed.
Lemma takeDigits_all ds : Forall (fun b => isDigit b = true) ds -> takeDigits (length ds) ds = ds.
Proof. induction 1 as [|b ds Hb HF IH]; simpl; [done|]. by rewrite Hb, IH. Qed.
Lemma partNumber_partID n : 0 <= n < 10 ^ 6 -> partNumber (partID n) = n.
Proof.
  intros Hn. pose proof (padded_digits n) as Hd.
  assert (length (padded n) = 6%nat) as Hl.
  { pose proof (digitsLoop_length (S (Z.to_nat (Z.log2 n))) n [] 5 ltac:(simpl; lia)) as Hle. unfold padded. rewrite length_app, length_replicate.
    unfold digits. cbn [length] in Hle. lia. }
  pose proof (decimal_padded n ltac:(lia)) as Hdec. pose proof (takeDigits_all _ Hd) as Htake. rewrite Hl in Htake.
  unfold partNumber, stripPrefix, partID. rewrite take_app_length, bool_decide_true, drop_app_length by done.
  destruct (padded n) as [|b ds]; [done|]. apply Forall_cons in Hd as [Hb Hd]. unfold isDigit in Hb.
  rewrite andb_true_iff, !Z.leb_le in Hb.
  assert (skipSpaces (b :: ds) = b :: ds) as ->.
  { cbn [skipSpaces]. destruct b as [|p|p]; [lia| |lia]. repeat (destruct p as [p|p|]; try lia; try done). }
  assert (match b :: ds with 45 :: r => (-1, 5%nat, r) | 43 :: r => (1, 5%nat, r) | _ => (1, 6%nat, b :: ds) end
          = (1, 6%nat, b :: ds)) as ->.
  { destruct b as [|p|p]; [lia| |lia]. repeat (destruct p as [p|p|]; try lia; try done). }
  rewrite Htake, Hdec. lia.
Qed.

(** ** Rules for the steps of a shard *)
Section rules.
  Context {W D P X B : Type} `{WalStore W} `{PartStore D P X B}.
  Abbreviation Shard := (Shard W D P).

Lemma ends_gets {A} (Q : A -> Shard -> Prop) E (f : Shard -> A) s : Q (f s) s -> ends Q E (gets f s).
Proof. done. Qed.
Lemma ends_modify (Q : unit -> Shard -> Prop) E f s : Q tt (f s) -> ends Q E (modify f s).
Proof. done. Qed.
Lemma ends_on_disk {A} (Q : A -> D -> Prop) E (Q' : A -> Shard -> Prop) E' (m : step D A) s :
  ends Q E (m (sh_disk s)) -> (forall a d, Q a d -> Q' a (set_disk d s)) -> (forall e d, E e d -> E' e (set_disk d s)) ->
  ends Q' E' (on_disk m s).
Proof. unfold on_disk. destruct (m (sh_disk s)) as [[| |] d]; simpl; auto. Qed.
Lemma ends_on_wal {A} (Q : A -> W -> Prop) E (Q' : A -> Shard -> Prop) E' (m : step W A) s :
  sh_walOpen s = true -> ends Q E (m (sh_wal s)) ->
  (forall a w, Q a w -> Q' a (set_wal w true s)) -> (forall e w, E e w -> E' e (set_wal w true s)) ->
  ends Q' E' (on_wal m s).
Proof. unfold on_wal. intros ->. destruct (m (sh_wal s)) as [[| |] w]; simpl; auto. Qed.
Lemma ends_orCleanup {A} (Q : A -> Shard -> Prop) E (m : step Shard A) c s :
  ends Q (fun e s' => ends (fun _ => E e) E (c s')) (m s) -> ends Q E (orCleanup m c s).
Proof.
  intros Hm. unfold orCleanup. apply ends_bind, ends_try. eapply ends_weaken; [exact Hm|..]; simpl; [done|].
  intros e s' Hc. apply ends_bind. eapply ends_weaken; [exact Hc|..]; simpl; auto.
Qed.
Lemma ends_errOf {A} (Q : option goerr -> Shard -> Prop) E (m : step Shard A) s :
  ends (fun _ => Q None) (fun e => Q (Some e)) (m s) -> ends Q E (errOf m s).
Proof.
  intros Hm. unfold errOf. apply ends_bind, ends_try. eapply ends_weaken; [exact Hm|..]; simpl; auto.
Qed.
Lemma ends_failIf (Q : unit -> Shard -> Prop) E e s : Q tt s -> (forall e', E e' s) -> ends Q E (failIf e s).
Proof. destruct e; simpl; auto. Qed.

(** Steps that keep a property of the shard, whether or not they fail. *)
Definition stable (I : Shard -> Prop) {A} (m : step Shard A) : Prop := forall s, I s -> ends (fun _ => I) (fun _ => I) (m s).
Lemma stable_bind I {A A'} (m : step Shard A) (k : A -> step Shard A') :
  stable I m -> (forall a, stable I (k a)) -> stable I (m ≫= k).
Proof. intros Hm Hk s Hs. apply ends_bind. eapply ends_weaken; [by apply Hm|..]; simpl; [intros a s' Hs'; by apply Hk|done]. Qed.
Lemma stable_ret I {A} (a : A) : stable I (mret a).
Proof. by intros s Hs. Qed.
Lemma stable_fail I {A} e : stable I (fail_step (A := A) e).
Proof. by intros s Hs. Qed.
Lemma stable_failIf I e : stable I (failIf e).
Proof. intros s Hs. by apply ends_failIf. Qed.
Lemma stable_gets I {A} (f : Shard -> A) : stable I (gets f).
Proof. by intros s Hs. Qed.
Lemma stable_try I {A} (m : step Shard A) : stable I m -> stable I (try_step m).
Proof. intros Hm s Hs. apply ends_try. eapply ends_weaken; [by apply Hm|..]; done. Qed.
Lemma stable_wrap I {A} msg (m : step Shard A) : stable I m -> stable I (wrap_step msg m).
Proof. intros Hm s Hs. eapply ends_wrap; [by apply Hm|done]. Qed.
Lemma stable_errOf I {A} (m : step Shard A) : stable I m -> stable I (errOf m).
Proof. intros Hm s Hs. apply ends_errOf. eapply ends_weaken; [by apply Hm|..]; done. Qed.
Lemma stable_orCleanup I {A} (m : step Shard A) c : stable I m -> stable I c -> stable I (orCleanup m c).
Proof.
  intros Hm Hc s Hs. apply ends_orCleanup. eapply ends_weaken; [by apply Hm|done|]. intros e s' Hs'.
  eapply ends_weaken; [by apply Hc|..]; done.
Qed.
Lemma stable_modify I f : (forall s, I s -> I (f s)) -> stable I (modify f).
Proof. intros Hf s Hs. by apply Hf. Qed.
(** Steps that also never fail. *)
Definition surely (I : Shard -> Prop) {A} (m : step Shard A) : Prop := forall s, I s -> ends (fun _ => I) (fun _ _ => False) (m s).
Lemma surely_stable I {A} (m : step Shard A) : surely I m -> stable I m.
Proof. intros Hm s Hs. by eapply ends_weaken; [apply Hm| |]. Qed.
Lemma surely_bind I {A A'} (m : step Shard A) (k : A -> step Shard A') : surely I m -> (forall a, surely I (k a)) -> surely I (m ≫= k).
Proof. intros Hm Hk s Hs. apply ends_bind. eapply ends_weaken; [by apply Hm|..]; simpl; [intros a s' Hs'; by apply Hk|done]. Qed.
Lemma surely_ret I {A} (a : A) : surely I (mret a).
Proof. by intros s Hs. Qed.
Lemma surely_errOf I {A} (m : step Shard A) : stable I m -> surely I (errOf m).
Proof. intros Hm s Hs. apply ends_errOf. eapply ends_weaken; [by apply Hm|..]; done. Qed.
Lemma surely_try I {A} (m : step Shard A) : stable I m -> surely I (try_step m).
Proof. intros Hm s Hs. apply ends_try. eapply ends_weaken; [by apply Hm|..]; done. Qed.
Lemma surely_modify I f : (forall s, I s -> I (f s)) -> surely I (modify f).
Proof. intros Hf s Hs. by apply Hf. Qed.
Lemma stable_ends I {A} (m : step Shard A) (Q : A -> Shard -> Prop) E s :
  stable I m -> I s -> (forall a s', I s' -> Q a s') -> (forall e s', I s' -> E e s') -> ends Q E (m s).
Proof. intros Hm Hs HQ HE. eapply ends_weaken; [by apply Hm|..]; auto. Qed.
End rules.

(** ** Frames

    [framed alive here s s']: the step from [s] to [s'] touched neither the
    memtable nor what the manifest, the parts, the log and the tombstones are;
    the directory kept the handles [alive] and the parts at the paths [here]. *)
Section frames.
  Context {W D P X B : Type} `{PartView D P X B}.
  Abbreviation Shard := (Shard W D P).

Definition core (s : Shard) : ShardOptions * W * bool * list P * Manifest * list Tombstone :=
  (sh_opts s, sh_wal s, sh_walOpen s, sh_parts s, sh_manifest s, sh_tombstones s).
Record framed (alive : P -> Prop) (here : bytes -> Prop) (s s' : Shard) : Prop := {
  fr_core : core s' = core s;
  fr_mem : sh_mem s' = sh_mem s;
  fr_pool : sh_pool s' = sh_pool s;
  fr_next : sh_nextPart s <= sh_nextPart s';
  fr_disk : keeps alive here (sh_disk s) (sh_disk s');
  fr_manifest : pd_manifest (sh_disk s') = pd_manifest (sh_disk s);
}.
Lemma keeps_refl alive here (d : D) : keeps alive here d d.
Proof. split; auto. Qed.
Lemma keeps_trans alive here (d1 d2 d3 : D) : keeps alive here d1 d2 -> keeps alive here d2 d3 -> keeps alive here d1 d3.
Proof.
  intros [h1 p1 o1 w1 r1] [h2 p2 o2 w2 r2]. split; [by eauto|..]; intros; [apply p2, p1|apply o2, o1|apply w2, w1|apply r2, r1]; done.
Qed.
Lemma keeps_weaken (alive alive' : P -> Prop) (here here' : bytes -> Prop) (d d' : D) :
  (forall p, alive' p -> alive p) -> (forall path, here' path -> here path) -> keeps alive here d d' -> keeps alive' here' d d'.
Proof. intros Ha Hh [h p o w r]. split; auto. Qed.
Lemma framed_refl alive here s : framed alive here s s.
Proof. split; [done..|lia|apply keeps_refl|done]. Qed.
Lemma framed_trans alive here s1 s2 s3 : framed alive here s1 s2 -> framed alive here s2 s3 -> framed alive here s1 s3.
Proof.
  intros [c1 m1 p1 n1 k1 f1] [c2 m2 p2 n2 k2 f2]. split; [congruence..|lia|by eapply keeps_trans|congruence].
Qed.
Lemma framed_weaken (alive alive' : P -> Prop) (here here' : bytes -> Prop) s s' :
  (forall p, alive' p -> alive p) -> (forall path, here' path -> here path) ->
  framed alive here s s' -> framed alive' here' s s'.
Proof. intros Ha Hh [c m p n k f]. split; try done. by eapply keeps_weaken. Qed.
Lemma framed_disk alive here s d : keeps alive here (sh_disk s) d -> pd_manifest d = pd_manifest (sh_disk s) ->
  framed alive here s (set_disk d s).
Proof. by split. Qed.
Lemma framed_unchanged alive here s d : unchanged (sh_disk s) d -> framed alive here s (set_disk d s).
Proof. intros [Hk Hm]. apply framed_disk; [|done]. eapply keeps_weaken; [..|exact Hk]; done. Qed.

Lemma framed_report alive here s r : framed alive here s (set_report r s).
Proof. split; simpl; [done..|apply keeps_refl|done]. Qed.
Lemma framed_memory alive here s l : framed alive here s (set_memory l s).
Proof. split; simpl; [done..|apply keeps_refl|done]. Qed.
Lemma framed_scheduler alive here s c : framed alive here s (set_scheduler c s).
Proof. split; simpl; [done..|apply keeps_refl|done]. Qed.
Lemma framed_refs alive here s n : framed alive here s (set_readRefs n s).
Proof. split; simpl; [done..|apply keeps_refl|done]. Qed.
End frames.
#[export] Hint Resolve framed_refl framed_unchanged framed_report framed_memory framed_scheduler framed_refs : shard.
#[export] Hint Extern 2 (framed _ _ _ _) => eapply framed_trans; [eassumption|] : shard.

(** Steps that stay within a frame of [base]. *)
Section framed_steps.
  Context {W D P X B : Type} `{WalStore W} (schema : Z * Z -> Z) `{PartLaws schema D P X B}.
  Abbreviation Shard := (Shard W D P).
  Context (alive : P -> Prop) (here : bytes -> Prop) (base : Shard).
  Abbreviation near := (framed alive here base).

Lemma surely_recordIssue issue : surely near (recordRecoveryIssue issue).
Proof. apply surely_modify. intros s Hs. eauto with shard. Qed.
Lemma surely_releaseMemory r : surely near (releaseMemory r).
Proof. apply surely_modify. intros s Hs. eauto with shard. Qed.
Lemma stable_reserveMemory kind n : stable near (reserveMemory kind n).
Proof.
  intros s Hs. unfold reserveMemory. destruct (sh_memory s) as [l|] eqn:El; [|done].
  unfold Reserve. repeat case_match; simplify_eq; simpl; eauto with shard.
Qed.
(** A call of the directory that stays within the frame. *)
Definition keeping {A} (m : step D A) : Prop := forall d,
  ends (fun _ d' => keeps alive here d d' /\ pd_manifest d' = pd_manifest d)
       (fun _ d' => keeps alive here d d' /\ pd_manifest d' = pd_manifest d) (m d).
Lemma stable_on_disk {A} (m : step D A) : keeping m -> stable near (on_disk m).
Proof.
  intros Hm s Hs. eapply ends_on_disk; [apply Hm|..]; intros ? d [Hk Hd]; (eapply framed_trans; [exact Hs|]); by apply framed_disk.
Qed.
Lemma keeping_unchanged {A} (m : step D A) :
  (forall d, ends (fun _ d' => unchanged d d') (fun _ d' => unchanged d d') (m d)) -> keeping m.
Proof.
  intros Hm d. eapply ends_weaken; [apply Hm|..]; intros ? d' [Hk Hd]; (split; [|done]); by eapply keeps_weaken; [..|exact Hk].
Qed.
Lemma keeping_close p : (forall p', alive p' -> pm_ID (pr_Meta p') <> pm_ID (pr_Meta p)) -> keeping (pr_Close p).
Proof.
  intros Ha d. eapply ends_weaken; [apply (pr_Close_spec (schema := schema))|..]; intros ? d' [Hk Hd]; (split; [|done]);
    (eapply keeps_weaken; [..|exact Hk]; [exact Ha|done]).
Qed.
Lemma keeping_remove path : (forall p', alive p' -> baseName (pm_Path (pr_Meta p')) <> baseName path) ->
  (forall path', here path' -> baseName path' <> baseName path) -> keeping (fs_RemoveAll path).
Proof.
  intros Ha Hh d. eapply ends_weaken; [apply (fs_RemoveAll_spec (schema := schema))|..]; intros ? d' [Hk Hd]; (split; [|done]);
    (eapply keeps_weaken; [..|exact Hk]; [exact Ha|exact Hh]).
Qed.
Lemma surely_closeParts parts : (forall p p', p ∈ parts -> alive p' -> pm_ID (pr_Meta p') <> pm_ID (pr_Meta p)) ->
  surely near (closeParts parts).
Proof.
  induction parts as [|p parts IH]; intros Ha; cbn [closeParts]; [apply surely_ret|].
  apply surely_bind; [apply surely_errOf, stable_on_disk, keeping_close; intros p' Hp'; apply Ha; [left|done]|].
  intros e. apply surely_bind; [apply IH; intros q q' Hq; apply Ha; by right|]. intros r. apply surely_ret.
Qed.
Lemma surely_abortPartWriter (writer : option X) : surely near (abortPartWriter writer).
Proof.
  destruct writer as [x|]; [|apply surely_ret]. apply surely_errOf, stable_on_disk, keeping_unchanged. intros d.
  apply (pw_Abort_spec (schema := schema)).
Qed.
Lemma stable_removeUnreferenced path message : (forall p', alive p' -> baseName (pm_Path (pr_Meta p')) <> baseName path) ->
  (forall path', here path' -> baseName path' <> baseName path) -> stable near (removeUnreferencedPart path message).
Proof.
  intros Ha Hh. unfold removeUnreferencedPart. case_bool_decide; [apply stable_ret|].
  apply stable_bind; [by apply stable_try, stable_on_disk, keeping_remove|]. intros [e|[]]; [|apply stable_ret].
  apply stable_bind; [apply surely_stable, surely_recordIssue|]. intros. apply stable_fail.
Qed.
Lemma surely_cleanupUncommitted meta part :
  (forall p', alive p' -> baseName (pm_Path (pr_Meta p')) <> baseName (pm_Path meta)) ->
  (forall path', here path' -> baseName path' <> baseName (pm_Path meta)) ->
  (forall p p', part = Some p -> alive p' -> pm_ID (pr_Meta p') <> pm_ID (pr_Meta p)) ->
  surely near (cleanupUncommittedPart meta part).
Proof.
  intros Ha Hh Hp. unfold cleanupUncommittedPart. apply surely_bind.
  - destruct part as [p|]; [|apply surely_ret]. apply surely_errOf, stable_on_disk, keeping_close. intros p'. by apply Hp.
  - intros e. apply surely_bind; [|intros; apply surely_ret]. by apply surely_errOf, stable_removeUnreferenced.
Qed.
End framed_steps.

(** ** The two views of the data *)
Record view := mkView { vw_writes : list (columnKey * VersionedSample); vw_deletions : list Tombstone }.
Definition visible (v : view) : contents := survivors (vw_deletions v) (written (vw_writes v)).
Definition add_writes (ws : list (columnKey * VersionedSample)) (v : view) : view :=
  mkView (vw_writes v ++ ws) (vw_deletions v).
Definition add_deletion (t : Tombstone) (v : view) : view := mkView (vw_writes v) (vw_deletions v ++ [t]).

Definition cols (stored : list (list ColumnData)) : contents := fun k => of_column k (concat stored).
Definition within (V U : contents) : Prop := forall k x, x ∈ V k -> x ∈ U k.

Lemma written_app ws ws' k : written (ws ++ ws') k = written ws k ++ written ws' k.
Proof. unfold written, of_key. by rewrite filter_app, fmap_app. Qed.
Lemma visible_within v U : within (written (vw_writes v)) U -> within (visible v) U.
Proof. intros Hw k x. unfold visible. rewrite elem_of_survivors. intros [Hx _]. by apply Hw. Qed.
Lemma survivors_within ts V U : within V U -> within (survivors ts V) U.
Proof. intros Hw k x. rewrite elem_of_survivors. intros [Hx _]. by apply Hw. Qed.
Lemma both_within V V' U : within V U -> within V' U -> within (both V V') U.
Proof. intros H1 H2 k x. unfold both. rewrite elem_of_app. intros [?|?]; auto. Qed.
Lemma within_versioned V U : within V U -> all_versioned U -> all_versioned V.
Proof. intros Hw Hv k x y Hx Hy. apply (Hv k); by apply Hw. Qed.

(** Writes that none of the deletions hides show up in the view. *)
Definition unhidden (ts : list Tombstone) (ws : list (columnKey * VersionedSample)) : Prop :=
  forall k x t, x ∈ written ws k -> t ∈ ts -> ~ hides t k x.
Lemma survivors_write ts V V' ws : unhidden ts ws -> agrees V' (survivors ts V) ->
  agrees (both V' (written ws)) (survivors ts (both V (written ws))).
Proof.
  intros Hf Hag. etrans; [|symmetry; apply survivors_plus]. intros k. unfold both. apply agree_app; [apply Hag|].
  symmetry. apply (survivors_fresh ts (written ws)). intros j s t. apply Hf.
Qed.
Lemma visible_write v ws : unhidden (vw_deletions v) ws -> agrees (visible (add_writes ws v)) (both (visible v) (written ws)).
Proof.
  intros Hf. symmetry. etrans; [by apply (survivors_write (vw_deletions v) (written (vw_writes v)))|].
  apply agrees_same. intros k x. unfold visible, add_writes. simpl. rewrite !elem_of_survivors. unfold both.
  by rewrite written_app.
Qed.
Lemma visible_delete t v : agrees (visible (add_deletion t v)) (survivors [t] (visible v)).
Proof. apply survivors_app. Qed.

(** ** The invariant *)
Section invariant.
  Context {W D P X B : Type} `{GoRuntime} `{WalLaws W} (schema : Z * Z -> Z) `{PartView D P X B, PartStore D P X B}.
  Abbreviation Shard := (Shard W D P).
  (** The options of the shard and all versions that are ever written to it. *)
  Context (opts : ShardOptions) (U : contents).
  (** Whether the stores are healthy. *)
  Context (sound : Prop).

(** The data: [stored] in the parts, [mw] in the memtable, [wp] and [wt] in
    the log, [tombs] the tombstones in memory. *)
Record data_inv (stored : list (list ColumnData)) (mw : list (columnKey * VersionedSample)) (tombs : list Tombstone)
    (wp : list ResolvedPoint) (wt : list Tombstone) (now kept : view) : Prop := {
  dv_stored : within (cols stored) U;
  dv_wp : within (written (batch_writes wp)) U;
  dv_typed : Forall (point_typed schema) wp;
  dv_mw : within (written mw) (written (batch_writes wp));
  dv_tombs : tombs ⊆ wt;
  dv_wt : wt ⊆ vw_deletions kept;
  dv_cascade : cp_Enabled (so_Compaction opts) = true -> wt = [];
  dv_now : within (written (vw_writes now)) U;
  dv_kept : within (written (vw_writes kept)) U;
  dv_shows : agrees (visible now) (survivors tombs (both (cols stored) (written mw)));
  dv_recovers : agrees (visible kept) (survivors wt (both (cols stored) (written (batch_writes wp))));
}.
(** The directory holds what the manifest lists. *)
Definition part_id (next : Z) (meta : PartMeta) : Prop :=
  exists n, 0 < n < Z.max 1 next /\ pm_ID meta = partID n.
Record parts_inv (d : D) (metas : list PartMeta) (next : Z) (stored : list (list ColumnData)) : Prop := {
  di_parts : Forall2 (fun meta columns => pd_part d (pm_Path meta) meta columns) metas stored;
  di_paths : Forall (fun meta => pm_Path meta = pd_path (pm_ID meta)) metas;
  di_nodup : NoDup (pm_ID <$> metas);
  di_ids : Forall (part_id next) metas;
  di_next : 0 <= next;
}.
Record disk_inv (d : D) (metas : list PartMeta) (next : Z) (stored : list (list ColumnData)) : Prop := {
  di_holds :> parts_inv d metas next stored;
  di_manifest : mf_Parts (pd_manifest d) ≡ₚ metas;
}.
Record mem_holds (s : Shard) (mw : list (columnKey * VersionedSample)) : Prop := {
  mh_mem : mem_inv schema (sh_mem s) (written mw);
  mh_pool : pool_ok (sh_pool s);
}.
Record serves (s : Shard) (stored : list (list ColumnData)) (wp : list ResolvedPoint) (wt : list Tombstone) : Prop := {
  sv_opts : sh_opts s = opts;
  sv_open : sh_walOpen s = true;
  sv_wal : wal_holds (sh_wal s) wp wt;
  sv_disk : disk_inv (sh_disk s) (mf_Parts (sh_manifest s)) (sh_nextPart s) stored;
  sv_metas : pr_Meta <$> sh_parts s = mf_Parts (sh_manifest s);
  sv_handles : Forall2 (pd_open (sh_disk s)) (sh_parts s) stored;
  sv_sound : sound -> pd_healthy (sh_disk s) /\ wal_healthy (sh_wal s);
}.
(** An open shard. *)
Definition shard_inv (s : Shard) (now kept : view) : Prop := exists stored mw wp wt,
  serves s stored wp wt /\ mem_holds s mw /\ data_inv stored mw (sh_tombstones s) wp wt now kept.
(** A closed shard, or one that could not be opened: its directories. *)
Definition closed_inv (s : Shard) (kept : view) : Prop := exists metas stored wp wt next,
  wal_holds (sh_wal s) wp wt /\ disk_inv (sh_disk s) metas next stored /\ next <= 10 ^ 6 /\
  (sound -> pd_healthy (sh_disk s) /\ wal_healthy (sh_wal s)) /\
  pool_ok (sh_pool s) /\ data_inv stored (batch_writes wp) wt wp wt kept kept.

Lemma part_id_mono next next' meta : next <= next' -> part_id next meta -> part_id next' meta.
Proof. intros Hle (n & Hn & E). exists n. split; [lia|done]. Qed.
Lemma parts_inv_mono (alive : P -> Prop) (here : bytes -> Prop) (d d' : D) metas next next' stored :
  (forall meta, meta ∈ metas -> here (pm_Path meta)) -> keeps alive here d d' ->
  next <= next' -> parts_inv d metas next stored -> parts_inv d' metas next' stored.
Proof.
  intros Hh Hk Hle [Hp Hpa Hnd Hid Hn]. split; try done; [| |lia].
  - apply Forall2_same_length_lookup_2; [by eapply Forall2_length|]. intros i meta c Hi Hc.
    eapply (kp_part _ _ _ _ Hk); [apply Hh; by eapply list_elem_of_lookup_2|]. by eapply (Forall2_lookup_lr _ _ _ _ _ _ Hp).
  - eapply Forall_impl; [exact Hid|]. intros meta. by apply part_id_mono.
Qed.
Lemma parts_inv_app (d : D) metas metas' next stored stored' : parts_inv d metas next stored -> parts_inv d metas' next stored' ->
  (forall meta meta', meta ∈ metas -> meta' ∈ metas' -> pm_ID meta <> pm_ID meta') ->
  parts_inv d (metas ++ metas') next (stored ++ stored').
Proof.
  intros [Hp Hpa Hnd Hid Hn] [Hp' Hpa' Hnd' Hid' _] Hne. split; [by apply Forall2_app|by apply Forall_app| |by apply Forall_app|done].
  rewrite fmap_app. apply NoDup_app. split_and!; [done| |done]. intros id Hi Hi'.
  apply list_elem_of_fmap in Hi as (m & -> & Hm), Hi' as (m' & E & Hm'). by eapply Hne.
Qed.
Lemma disk_inv_mono (alive : P -> Prop) (here : bytes -> Prop) (d d' : D) metas next next' stored :
  (forall meta, meta ∈ metas -> here (pm_Path meta)) -> keeps alive here d d' -> pd_manifest d' = pd_manifest d ->
  next <= next' -> disk_inv d metas next stored -> disk_inv d' metas next' stored.
Proof. intros Hh Hk Hm Hle [Hp Hmf]. split; [by eapply parts_inv_mono|by rewrite Hm]. Qed.
Lemma handles_mono (alive : P -> Prop) (here : bytes -> Prop) (d d' : D) parts stored : (forall p, p ∈ parts -> alive p) ->
  keeps alive here d d' -> Forall2 (pd_open d) parts stored -> Forall2 (pd_open d') parts stored.
Proof.
  intros Ha Hk Hp. apply Forall2_same_length_lookup_2; [by eapply Forall2_length|]. intros i p c Hi Hc.
  eapply (kp_open _ _ _ _ Hk); [apply Ha; by eapply list_elem_of_lookup_2|]. by eapply (Forall2_lookup_lr _ _ _ _ _ _ Hp).
Qed.

Lemma serves_framed alive here s s' stored wp wt : (forall p, p ∈ sh_parts s -> alive p) ->
  (forall meta, meta ∈ mf_Parts (sh_manifest s) -> here (pm_Path meta)) ->
  framed alive here s s' -> serves s stored wp wt -> serves s' stored wp wt.
Proof.
  intros Ha Hh [Hc Hm Hp Hn Hk Hmf] [Ho Hop Hw Hd Hme Hha Hso]. unfold core in Hc. injection Hc as E1 E2 E3 E4 E5 E6.
  split; rewrite ?E1, ?E2, ?E3, ?E4, ?E5; try done; [by eapply disk_inv_mono|by eapply handles_mono|].
  intros [Hd1 Hw1]%Hso. split; [|done]. by apply (kp_healthy _ _ _ _ Hk).
Qed.
Lemma mem_holds_framed alive here s s' mw : framed alive here s s' -> mem_holds s mw -> mem_holds s' mw.
Proof. intros [Hc Hm Hp _ _ _] [Hi Hpo]. split; by rewrite ?Hm, ?Hp. Qed.
Lemma shard_inv_framed alive here s s' now kept : (forall p, p ∈ sh_parts s -> alive p) ->
  (forall meta, meta ∈ mf_Parts (sh_manifest s) -> here (pm_Path meta)) ->
  framed alive here s s' -> shard_inv s now kept -> shard_inv s' now kept.
Proof.
  intros Ha Hh Hf (stored & mw & wp & wt & Hs & Hm & Hd). exists stored, mw, wp, wt. split_and!;
    [by eapply serves_framed|by eapply mem_holds_framed|]. pose proof (fr_core _ _ _ _ Hf) as Hc. unfold core in Hc.
  injection Hc as _ _ _ _ _ E. by rewrite E.
Qed.
End invariant.
