(* ===== verification/ShardOps.v ===== *)
(** * Queries, writes and deletions of a shard

    On a shard that satisfies the invariant, a query answers from the view
    [now]; a write and a deletion change both views. *)
From S2P Require Import Prelude Model WalRoundtrip WalLog SstValues Runtime Versions MemColumn MemCompact StoreSpec MemTable MemTheorems EngineMerge Tombstones QueryMerge SstMeta MemoryBudget EngineOptions Planner SstPack Ports Shard ShardScan ShardInv.
From stdpp Require Import prelude strings list sorting gmap.
From Stdlib Require Import ZArith Lia.
#[local] Open Scope Z_scope.

(** The versions that are ever written: told apart by their sequence numbers,
    inside the window of the shard, of the type of their column. *)
Record universe (schema : Z * Z -> Z) (opts : ShardOptions) (U : contents) : Prop := {
  un_versioned : all_versioned U;
  un_window k x : x ∈ U k -> in_range (so_Start opts) (so_End opts) x = true;
  un_typed k x : x ∈ U k -> stored (schema k) x = x;
  un_schema k : schema k <> 0;
}.

Section ops.
  Context {W D P X B : Type} `{GoRuntimeLaws} `{WalLaws W} (schema : Z * Z -> Z) `{PartLaws schema D P X B}.
  Context (opts : ShardOptions) (U : contents) (HU : universe schema opts U) (sound : Prop).
  Abbreviation Shard := (Shard W D P).
  Abbreviation shard_inv := (shard_inv schema opts U sound).
  Abbreviation data_inv := (data_inv schema opts U).

Lemma held_within C : within C U -> forall k, held schema C k = C k.
Proof.
  intros Hw k. unfold held. assert (forall x, x ∈ C k -> stored (schema k) x = x) as Hx by (intros x Hx; by eapply un_typed, Hw).
  induction (C k) as [|x xs IH]; [done|]. rewrite fmap_cons, Hx, IH; [done| |left]. intros y Hy. apply Hx. by right.
Qed.
Lemma data_mw_within stored mw tombs wp wt now kept : data_inv stored mw tombs wp wt now kept -> within (written mw) U.
Proof. intros Hd k x Hx. by eapply dv_wp, dv_mw. Qed.

(** ** Queries *)
Lemma reads_framed {A} (Q : A -> D -> Prop) (m : step D A) (base s : Shard) :
  framed all all base s -> reads Q (sh_disk s) (m (sh_disk s)) ->
  ends (fun a s' => framed all all base s' /\ Q a (sh_disk s') /\ exists d, s' = set_disk d s /\ unchanged (sh_disk s) d)
       (fun _ s' => framed all all base s' /\ ~ pd_healthy (sh_disk base)) (on_disk m s).
Proof.
  intros Hf Hr. eapply ends_on_disk; [exact Hr|..]; simpl.
  - intros a d [Hu HQ]. split_and!; [eauto with shard|done|by eauto].
  - intros e d [Hu Hn]. split; [eauto with shard|]. intros Hh. apply Hn. by apply (kp_healthy _ _ _ _ (fr_disk _ _ _ _ Hf)).
Qed.

Lemma openPartStreams_spec query (base : Shard) : pd_query query -> forall parts stored (s : Shard), framed all all base s ->
  Forall2 (pd_open (sh_disk s)) parts stored ->
  ends (fun streams s' => framed all all base s' /\ Forall2 (answering schema query) ((fun c k => of_column k c) <$> stored) streams)
       (fun _ s' => framed all all base s' /\ ~ pd_healthy (sh_disk base)) (openPartStreams parts query s).
Proof.
  intros Hq. induction parts as [|p parts IH]; intros stored s Hf Hp; cbn [openPartStreams].
  { apply Forall2_nil_inv_l in Hp as ->. by split; [|constructor]. }
  apply Forall2_cons_inv_l in Hp as (c & stored' & Hc & Hp & ->).
  apply ends_bind. eapply ends_weaken; [by apply reads_framed; [|apply pr_ScanColumns_spec]| |done]. simpl.
  intros stream s1 (Hf1 & [He Ha] & d & -> & Hu). apply ends_bind.
  eapply ends_weaken; [apply (IH stored' (set_disk d s)); [done|]| |done].
  { eapply (handles_mono all all); [done|exact (proj1 Hu)|done]. }
  intros streams s2 [Hf2 HF]. apply ends_ret. split; [done|]. constructor; [by split|done].
Qed.

Lemma elem_of_union_cols stored V k x :
  x ∈ union_contents (V :: ((fun c k => of_column k c) <$> stored)) k <-> x ∈ both (cols stored) V k.
Proof.
  unfold union_contents, both, cols. rewrite fmap_cons. cbn [concat].
  assert (concat ((fun W : contents => W k) <$> ((fun c k => of_column k c) <$> stored)) = of_column k (concat stored)) as ->.
  { rewrite of_column_concat. f_equal. by rewrite <- list_fmap_compose. }
  rewrite !elem_of_app. tauto.
Qed.
Lemma cols_union stored V : agrees (union_contents (V :: ((fun c k => of_column k c) <$> stored))) (both (cols stored) V).
Proof. apply agrees_same. intros k x. apply elem_of_union_cols. Qed.

Lemma ShardQuery_spec s now kept query : shard_inv s now kept -> pd_query query ->
  ~ (0 < qb_MaxParts (sq_Budget query) < len (sh_parts s)) ->
  ends (fun out s' => framed all all s s' /\ answers schema query (visible now) out)
       (fun _ s' => framed all all s s' /\ ~ pd_healthy (sh_disk s)) (ShardQuery query s).
Proof.
  intros (stored & mw & wp & wt & Hs & Hm & Hd) Hq Hb. unfold ShardQuery, ScanColumns.
  pose proof (data_mw_within _ _ _ _ _ _ _ Hd) as Hmw. apply ends_bind, ends_bind. unfold openColumnStreamsLocked.
  apply ends_bind, ends_gets. match goal with |- context [if ?b then _ else _] => destruct b eqn:Eb end.
  { exfalso. apply Hb. rewrite andb_true_iff, !Z.ltb_lt in Eb. lia. }
  apply ends_bind, ends_gets, ends_bind.
  destruct (columnsFromData_answers schema _ _ query (mi_table _ _ _ (mh_mem _ _ _ Hm))) as (mout & Emem & Hmem).
  eapply ends_pure; [unfold memScanColumns, MemQuery; by rewrite Emem|]. apply ends_bind.
  eapply ends_weaken; [eapply (openPartStreams_spec query s Hq _ stored); [apply framed_refl|apply Hs]| |done].
  intros streams s1 [Hf1 HF]. apply ends_ret, ends_bind, ends_gets, ends_bind. unfold acquireReadLocked. apply ends_modify, ends_ret.
  destruct (scan_answers schema query (held schema (written mw) :: ((fun c k => of_column k c) <$> stored))
              (mkStream mout None :: streams) (sh_tombstones s1)) as (out & Eout & Hans); [by constructor|].
  unfold collectShardStream. rewrite Eout. apply ends_bind. unfold releaseRead. apply ends_modify.
  apply ends_bind, ends_ret, ends_ret. split.
  { eapply framed_trans; [exact Hf1|]. eapply framed_trans; [apply framed_refs|]. case_match; eauto with shard. }
  assert (sh_tombstones s1 = sh_tombstones s) as Et.
  { pose proof (fr_core _ _ _ _ Hf1) as Hc. unfold core in Hc. by injection Hc. }
  rewrite Et in Hans. eapply (agrees_answers _ _ (survivors (sh_tombstones s) (both (cols stored) (written mw)))); [| |].
  - apply within_versioned with U; [|apply HU]. apply both_within;
      [apply survivors_within, both_within; [apply Hd|done]|apply visible_within, Hd].
  - symmetry. apply Hd.
  - eapply agrees_answers; [| |exact Hans].
    + apply within_versioned with U; [|apply HU]. apply both_within; [|apply survivors_within, both_within; [apply Hd|done]].
      apply survivors_within. intros k x Hx. apply (proj1 (elem_of_union_cols _ _ _ _)) in Hx.
      unfold both in Hx. rewrite held_within in Hx by done. apply elem_of_app in Hx as [?|?]; [by apply (dv_stored _ _ _ _ _ _ _ _ _ _ Hd)|by apply Hmw].
    + apply survivors_agrees. etrans; [apply cols_union|]. intros k. unfold both. rewrite (held_within _ Hmw). reflexivity.
Qed.

(** ** Writes and deletions *)
(** A batch that the shard can take: of the types of its columns, within the
    universe and not hidden by an earlier deletion. *)
Record batch_ok (now kept : view) (points : list ResolvedPoint) : Prop := {
  bo_typed : Forall (point_typed schema) points;
  bo_within : within (written (batch_writes points)) U;
  bo_now : unhidden (vw_deletions now) (batch_writes points);
  bo_kept : unhidden (vw_deletions kept) (batch_writes points);
}.
Lemma batch_writes_app ps qs : batch_writes (ps ++ qs) = batch_writes ps ++ batch_writes qs.
Proof. apply bind_app. Qed.
Lemma written_both ws ws' : agrees (written (ws ++ ws')) (both (written ws) (written ws')).
Proof. intros k. unfold both. by rewrite written_app. Qed.
Lemma within_app ws ws' V : within (written ws) V -> within (written ws') V -> within (written (ws ++ ws')) V.
Proof. intros H1' H2' k x. rewrite written_app, elem_of_app. intros [?|?]; auto. Qed.
(** More of the writes that are in the log already. *)
Lemma shows_write ts V ws ws' : unhidden ts ws' ->
  agrees (survivors ts (both V (written (ws ++ ws')))) (both (survivors ts (both V (written ws))) (written ws')).
Proof.
  intros Hf. etrans; [|symmetry; by apply survivors_write; [exact Hf|reflexivity]]. apply survivors_agrees.
  etrans; [apply plus_agrees; [reflexivity|apply written_both]|]. symmetry. apply plus_assoc.
Qed.
Lemma unhidden_sub ts ts' ws : ts ⊆ ts' -> unhidden ts' ws -> unhidden ts ws.
Proof. intros Hs Hf k x t Hx Ht. apply Hf; [done|by apply Hs]. Qed.

Lemma data_logged stored mw tombs wp wt now kept points : data_inv stored mw tombs wp wt now kept ->
  batch_ok now kept points -> data_inv stored mw tombs (wp ++ points) wt now (add_writes (batch_writes points) kept).
Proof.
  intros [] []. split; simpl; try done; rewrite ?batch_writes_app.
  - by apply within_app.
  - by apply Forall_app.
  - intros k x Hx. rewrite written_app. apply elem_of_app. left. by apply dv_mw.
  - by apply within_app.
  - etrans; [by apply visible_write|]. etrans; [|symmetry; apply shows_write; by eapply unhidden_sub].
    apply plus_agrees; [done|reflexivity].
Qed.
Lemma data_write stored mw tombs wp wt now kept points : data_inv stored mw tombs wp wt now kept ->
  batch_ok now kept points ->
  data_inv stored (mw ++ batch_writes points) tombs (wp ++ points) wt
    (add_writes (batch_writes points) now) (add_writes (batch_writes points) kept).
Proof.
  intros Hd Hb. pose proof (data_logged _ _ _ _ _ _ _ _ Hd Hb) as Hl. destruct Hd, Hb, Hl. split; simpl; try done.
  - apply within_app.
    + intros k x Hx. rewrite batch_writes_app, written_app. apply elem_of_app. left. by apply dv_mw.
    + intros k x Hx. rewrite batch_writes_app, written_app. apply elem_of_app. by right.
  - by apply within_app.
  - etrans; [by apply visible_write|]. etrans; [|symmetry; apply shows_write; eapply unhidden_sub; [|exact bo_kept0]; set_solver].
    apply plus_agrees; [done|reflexivity].
Qed.

Lemma serves_wal s stored wp wt w wp' wt' : serves opts sound s stored wp wt -> wal_holds w wp' wt' ->
  (wal_healthy (sh_wal s) -> wal_healthy w) -> serves opts sound (set_wal w true s) stored wp' wt'.
Proof.
  intros [] Hw Hh. split; try done. intros Hs. destruct (sv_sound Hs). split; [done|]. by apply Hh.
Qed.

(** A log record of the batch, then its application to the memtable. *)
Lemma logged_write (walStep : step W unit) (f : columnPool -> MemTable -> outcome (MemTable * columnPool)) message
    points s now kept : shard_inv s now kept -> batch_ok now kept points ->
  (forall pool m, f pool m = ApplyBatch pool m points) ->
  (forall wp wt w, wal_holds w wp wt ->
     ends (fun _ w' => wal_holds w' (wp ++ points) wt /\ (wal_healthy w -> wal_healthy w'))
          (fun _ w' => (wal_holds w' wp wt \/ wal_holds w' (wp ++ points) wt) /\ (wal_healthy w -> wal_healthy w')) (walStep w)) ->
  ends (fun _ s' => shard_inv s' (add_writes (batch_writes points) now) (add_writes (batch_writes points) kept))
       (fun _ s' => shard_inv s' now kept \/ shard_inv s' now (add_writes (batch_writes points) kept))
       ((_ ← on_wal walStep; applyRetrying (on_mem f) message) s).
Proof.
  intros (stored & mw & wp & wt & Hs & Hm & Hd) Hb Hf Hwal. apply ends_bind.
  eapply ends_on_wal; [apply Hs|by apply Hwal, Hs|..]; simpl.
  - intros _ w [Hw Hh].
    destruct (ApplyBatch_inv schema (un_schema _ _ _ HU) (sh_pool s) (sh_mem s) (written mw) points) as (m' & pool' & Ea & Hp' & Hm');
      [apply Hm|apply Hm|apply Hb|].
    assert (on_mem f (set_wal w true s) = (Ok tt, set_mem m' pool' (set_wal w true s))) as Eon.
    { unfold on_mem. simpl. by rewrite Hf, Ea. }
    unfold applyRetrying, try_step. apply ends_bind. rewrite Eon. simpl.
    exists stored, (mw ++ batch_writes points), (wp ++ points), wt. split_and!.
    + eapply (serves_wal s _ _ _ w) in Hs; [|exact Hw|done]. by destruct Hs.
    + split; [|done]. eapply mem_inv_ext; [|exact Hm']. intros k. unfold extend. by rewrite written_app.
    + by apply data_write.
  - intros e w [[Hw|Hw] Hh].
    + left. exists stored, mw, wp, wt. split_and!; [by eapply serves_wal|by destruct Hm|done].
    + right. exists stored, mw, (wp ++ points), wt. split_and!; [by eapply serves_wal|by destruct Hm|by apply data_logged].
Qed.

Lemma data_delete_logged stored mw tombs wp wt now kept t : data_inv stored mw tombs wp wt now kept ->
  cp_Enabled (so_Compaction opts) = false -> data_inv stored mw tombs wp (wt ++ [t]) now (add_deletion t kept).
Proof.
  intros [] He. split; simpl; try done.
  - set_solver.
  - set_solver.
  - by rewrite He.
  - etrans; [apply visible_delete|]. etrans; [|symmetry; apply survivors_app]. by apply survivors_agrees.
Qed.
Lemma data_delete stored mw tombs wp wt now kept t : data_inv stored mw tombs wp wt now kept ->
  cp_Enabled (so_Compaction opts) = false ->
  data_inv stored mw (tombs ++ [t]) wp (wt ++ [t]) (add_deletion t now) (add_deletion t kept).
Proof.
  intros Hd He. pose proof (data_delete_logged _ _ _ _ _ _ _ t Hd He) as Hl. destruct Hd, Hl. split; simpl; try done.
  - set_solver.
  - etrans; [apply visible_delete|]. etrans; [|symmetry; apply survivors_app]. by apply survivors_agrees.
Qed.

(** An interval that ends before it starts deletes nothing. *)
Lemma empty_deletion t v : ts_EndTime t < ts_StartTime t -> agrees (visible (add_deletion t v)) (visible v).
Proof.
  intros Ht. etrans; [apply visible_delete|]. apply survivors_fresh. intros k s t' _ ->%list_elem_of_singleton [Hs _ _ _]. lia.
Qed.
Lemma data_empty_deletion stored mw tombs wp wt now kept t : data_inv stored mw tombs wp wt now kept ->
  ts_EndTime t < ts_StartTime t -> data_inv stored mw tombs wp wt (add_deletion t now) (add_deletion t kept).
Proof.
  intros [] Ht. split; simpl; try done; [set_solver|..]; (etrans; [by apply empty_deletion|done]).
Qed.

Lemma DeleteRange_spec s now kept t sync : shard_inv s now kept -> wal_accepts_tombstone t ->
  cp_Enabled (so_Compaction opts) = false ->
  ends (fun _ s' => shard_inv s' (add_deletion t now) (add_deletion t kept))
       (fun _ s' => shard_inv s' now kept \/ shard_inv s' now (add_deletion t kept)) (DeleteRange t sync s).
Proof.
  intros (stored & mw & wp & wt & Hs & Hm & Hd) Ht He. unfold DeleteRange. zcase (ts_EndTime t <? ts_StartTime t).
  { apply ends_ret. exists stored, mw, wp, wt. split_and!; [done..|]. by apply data_empty_deletion. }
  apply ends_bind. eapply ends_on_wal; [apply Hs|by apply wal_AppendTombstones_spec, Ht; apply Hs|..]; simpl.
  - intros _ w [Hw Hh]. exists stored, mw, wp, (wt ++ [t]). split_and!; [|by destruct Hm|by apply data_delete].
    eapply (serves_wal s _ _ _ w) in Hs; [|exact Hw|done]. by destruct Hs.
  - intros e w [[Hw|Hw] Hh].
    + left. exists stored, mw, wp, wt. split_and!; [by eapply serves_wal|by destruct Hm|done].
    + right. exists stored, mw, wp, (wt ++ [t]). split_and!; [by eapply serves_wal|by destruct Hm|by apply data_delete_logged].
Qed.
End ops.
