(* ===== verification/ShardFlush.v ===== *)
(** * Flushing a shard

    A flush writes the memtable into a new part; whether it succeeds or fails
    at any call, queries answer as before. *)
From S2P Require Import Prelude Model WalRoundtrip WalLog SstValues Runtime Versions MemColumn MemCompact StoreSpec MemTable MemTheorems EngineMerge Tombstones QueryMerge SstMeta MemoryBudget EngineOptions Planner SstPack Ports Shard ShardCompact ShardScan ShardInv ShardOps.
From stdpp Require Import prelude strings list sorting gmap.
From Stdlib Require Import ZArith Lia.
#[local] Open Scope Z_scope.

(** ** Groups of columns that a part can hold

    One group per series, in the order of their ids, with the columns of the
    series in the order of their fields and samples of the universe. *)
Definition series_group (id : Z) (g : list ColumnData) : Prop :=
  g <> [] /\ Forall (fun c => cd_SeriesID c = id) g /\ StronglySorted column_lt g.
Definition proper_column (schema : Z * Z -> Z) (U : contents) (c : ColumnData) : Prop :=
  cd_FieldType c = schema (keyOf c) /\ cd_Samples c <> [] /\ StronglySorted ts_lt (cd_Samples c) /\
  Forall (fun x => x ∈ U (keyOf c)) (cd_Samples c).
Record drawn (schema : Z * Z -> Z) (U : contents) (gs : list (list ColumnData)) : Prop := {
  dr_series : exists ids, StronglySorted Z.lt ids /\ Forall2 series_group ids gs;
  dr_columns : Forall (Forall (proper_column schema U)) gs;
}.

(** The compressions that a shard writes parts with. *)
Definition shard_writes (opts : ShardOptions) (wopts : WriteOptions) : Prop :=
  wo_Compression wopts = defaultLevelCompression 0 (so_Compression opts) \/
  exists level, let output := outputOptionsForLevel (so_Compaction opts) level in
    wo_Compression wopts = (if negb (compressionConfigured (oo_compression output)) then so_Compression opts
                            else oo_compression output).

(** The part that a shard writes next. *)
Definition next_id (n : Z) : Z := if n =? 0 then 1 else n.

Section flush.
  Context {W D P X B : Type} `{GoRuntimeLaws} `{WalLaws W} (schema : Z * Z -> Z) `{PartLaws schema D P X B}.
  Context (opts : ShardOptions) (U : contents) (HU : universe schema opts U) (sound : Prop).
  Context (Hstorable : forall wopts gs, shard_writes opts wopts -> drawn schema U gs -> gs <> [] -> pd_storable wopts gs).
  Abbreviation Shard := (Shard W D P).
  Abbreviation shard_inv := (shard_inv schema opts U sound).
  Abbreviation data_inv := (data_inv schema opts U).

(** ** Writing the groups of a snapshot *)
Definition so_far (base : Shard) (written_ : list (list ColumnData)) (st : snapshotWrite W D P X) : Prop :=
  framed all all base (sw_shard st) /\ sh_opts base = opts /\
  match sw_err st, sw_writer st with
  | Some _, _ => True
  | None, None => written_ = [] /\ sw_wrote st = false /\ sh_nextPart (sw_shard st) = sh_nextPart base
  | None, Some x => written_ <> [] /\ sw_wrote st = true /\ exists wopts, shard_writes opts wopts /\
      sh_nextPart (sw_shard st) = next_id (sh_nextPart base) + 1 /\
      pd_writing (sh_disk (sw_shard st)) x 0 (partID (next_id (sh_nextPart base))) wopts written_
  end.

Lemma framed_next (alive : P -> Prop) (here : bytes -> Prop) (s : Shard) : framed alive here s (set_nextPart (next_id (sh_nextPart s) + 1) s).
Proof. split; simpl; [done..| |apply keeps_refl|done]. unfold next_id. zcase (sh_nextPart s =? 0); lia. Qed.
Lemma framed_opts (alive : P -> Prop) (here : bytes -> Prop) (s s' : Shard) : framed alive here s s' -> sh_opts s' = sh_opts s.
Proof. intros Hf. pose proof (fr_core _ _ _ _ Hf) as Hc. unfold core in Hc. by injection Hc. Qed.

Lemma newWriter_spec base st : so_far base [] st -> sw_err st = None -> sw_writer st = None ->
  ends (fun x s' => framed all all base s' /\ sh_nextPart s' = next_id (sh_nextPart base) + 1 /\
          exists wopts, shard_writes opts wopts /\ pd_writing (sh_disk s') x 0 (partID (next_id (sh_nextPart base))) wopts [])
       (fun _ s' => framed all all base s')
       ((id ← nextPartID; opts ← gets flushWriteOptions; on_disk (pt_NewWriter 0 id opts)) (sw_shard st)).
Proof.
  intros (Hf & Ho & Hw) Ee Ew. rewrite Ee, Ew in Hw. destruct Hw as (_ & _ & En).
  set (s1 := set_nextPart (next_id (sh_nextPart base) + 1) (sw_shard st)).
  assert (framed all all base s1) as Hf1.
  { eapply framed_trans; [exact Hf|]. unfold s1. rewrite <- En. apply framed_next. }
  change (ends _ _ _) with (ends (fun x s' => framed all all base s' /\ sh_nextPart s' = next_id (sh_nextPart base) + 1 /\
    exists wopts, shard_writes opts wopts /\ pd_writing (sh_disk s') x 0 (partID (next_id (sh_nextPart base))) wopts [])
    (fun _ s' => framed all all base s')
    ((opts ← gets flushWriteOptions; on_disk (pt_NewWriter 0 (partID (if sh_nextPart (sw_shard st) =? 0 then 1 else sh_nextPart (sw_shard st))) opts))
       (set_nextPart ((if sh_nextPart (sw_shard st) =? 0 then 1 else sh_nextPart (sw_shard st)) + 1) (sw_shard st)))).
  rewrite En. change (set_nextPart _ (sw_shard st)) with s1. apply ends_bind, ends_gets.
  eapply ends_on_disk; [apply (pt_NewWriter_spec (schema := schema))|..]; simpl.
  - intros x d [Hu Hx]. split_and!; [eauto with shard|done|]. eexists. split; [|exact Hx]. left. simpl.
    by rewrite (framed_opts _ _ _ _ Hf), Ho.
  - intros e d Hu. eauto with shard.
Qed.

Lemma addSeries_so_far base done_ g x s wrote wopts : framed all all base s -> sh_opts base = opts -> shard_writes opts wopts ->
  sh_nextPart s = next_id (sh_nextPart base) + 1 ->
  pd_writing (sh_disk s) x 0 (partID (next_id (sh_nextPart base))) wopts done_ ->
  exists st', match on_disk (pw_AddSeries x g) s with
    | (Ok x', s') => Ok (mkSnapshotWrite None (Some x') true s')
    | (Err e, s') => Ok (mkSnapshotWrite (Some e) (Some x) wrote s')
    | (Panic p, _) => Panic p
    end = Ok st' /\ so_far base (done_ ++ [g]) st'.
Proof.
  intros Hf Ho Hw En Hx. pose proof (pw_AddSeries_spec (schema := schema) _ _ _ _ _ _ g Hx) as Hs. unfold on_disk.
  destruct (pw_AddSeries x g (sh_disk s)) as [[x'|e|p] d]; simpl in Hs; [| |done]; eexists; (split; [done|]).
  - destruct Hs as [Hu Hx']. split_and!; [simpl; eauto with shard|done|]. simpl. split_and!; [by destruct done_|done|by exists wopts].
  - split_and!; [simpl; eauto with shard|done|done].
Qed.

Lemma writeSnapshotSeries_so_far base done_ g st : so_far base done_ st -> g <> [] ->
  exists st', writeSnapshotSeries g st = Ok st' /\ so_far base (done_ ++ [g]) st'.
Proof.
  intros Hst Hg. unfold writeSnapshotSeries. destruct (sw_err st) as [e|] eqn:Ee.
  { exists st. split; [done|]. destruct Hst as (Hf & Ho & _). split_and!; [done..|]. by rewrite Ee. }
  assert (len g =? 0 = false) as -> by (destruct g; [done|]; apply Z.eqb_neq; unfold len; simpl; lia).
  destruct (sw_writer st) as [x|] eqn:Ew.
  - destruct Hst as (Hf & Ho & Hw). rewrite Ee, Ew in Hw. destruct Hw as (_ & _ & wopts & H1' & H2' & H3').
    by eapply addSeries_so_far.
  - assert (done_ = []) as -> by (destruct Hst as (_ & _ & Hw); rewrite Ee, Ew in Hw; apply Hw).
    pose proof (newWriter_spec base st Hst Ee Ew) as Hn. destruct Hst as (_ & Ho & _).
    match type of Hn with ends _ _ ?r => destruct r as [[x|e|p] s'] end; simpl in Hn; [| |done].
    + destruct Hn as (Hf & En & wopts & Hwo & Hx). by eapply (addSeries_so_far base []).
    + eexists. split; [done|]. by split_and!.
Qed.
Lemma run_groups_so_far base groups : Forall group_ok groups -> forall done_ st, so_far base done_ st ->
  exists st', run_groups (fun _ columns => writeSnapshotSeries columns) groups st = Ok st' /\ so_far base (done_ ++ groups.*2) st'.
Proof.
  induction 1 as [|[id g] groups [Hg _] HF IH]; intros done_ st Hst; cbn [run_groups].
  { exists st. by rewrite app_nil_r. }
  destruct (writeSnapshotSeries_so_far base done_ g st Hst Hg) as (st1 & -> & Hst1). simpl.
  destruct (IH _ st1 Hst1) as (st2 & -> & Hst2). exists st2. split; [done|]. by rewrite <- (assoc_L (++)) in Hst2.
Qed.

(** ** The part of a snapshot *)
Definition away (id : bytes) (path : bytes) : Prop := path <> pd_path id.
Record fresh_part (base s : Shard) (meta : PartMeta) (columns : list ColumnData) : Prop := {
  fp_framed : framed all (away (partID (next_id (sh_nextPart base)))) base s;
  fp_next : sh_nextPart s = next_id (sh_nextPart base) + 1;
  fp_id : pm_ID meta = partID (next_id (sh_nextPart base));
  fp_path : pm_Path meta = pd_path (pm_ID meta);
  fp_part : pd_part (sh_disk s) (pm_Path meta) meta columns;
}.

Lemma writeSnapshotPart_spec snapshot C base : sh_opts base = opts -> table_inv schema (sn_data snapshot) C -> within C U ->
  exists gs, answers schema (rangeQuery ∅ ∅ (so_Start opts) (so_End opts)) C (concat gs) /\ drawn schema U gs /\
    ends (fun r s' => match r with
                      | Some meta => fresh_part base s' meta (concat gs)
                      | None => gs = [] /\ framed all all base s'
                      end)
         (fun _ s' => framed all (away (partID (next_id (sh_nextPart base)))) base s') (writeSnapshotPart snapshot base).
Proof.
  intros Ho HT HC. set (query := rangeQuery ∅ ∅ (so_Start opts) (so_End opts)).
  destruct (ForEachSeries_groups schema (un_schema _ _ _ HU) snapshot C query (fun _ => None) HT (fun _ => eq_refl)) as (groups & Ha & Hok & Hsort & Hrun).
  assert (answers schema query C (concat groups.*2)) as Ha'.
  { eapply answers_ext; [|exact Ha]. intros k s _ _. by rewrite (held_within schema opts U HU). }
  assert (drawn schema U groups.*2) as Hdr.
  { split.
    - exists groups.*1. split; [done|]. apply Forall2_fmap_2, Forall_Forall2_diag, Forall_forall. intros g Hg.
      rewrite Forall_forall in Hok. destruct (Hok g Hg) as [Hne Hid]. split_and!; [done..|].
      pose proof (an_sorted _ _ _ _ Ha') as Hss. apply list_elem_of_split in Hg as (l1 & l2 & ->).
      rewrite fmap_app, fmap_cons, concat_app in Hss. simpl in Hss. apply StronglySorted_app_1_r in Hss.
      by apply StronglySorted_app_1_l in Hss.
    - apply Forall_forall. intros g Hg. apply Forall_forall. intros c Hc.
      assert (c ∈ concat groups.*2) as Hin by (apply elem_of_concat; by exists g).
      destruct (an_column _ _ _ _ Ha' c Hin) as (_ & Hft & Hne & Hr). split_and!; [done..|apply Hr|].
      apply Forall_forall. intros x Hx. apply (rs_sound _ _ Hr) in Hx. apply list_elem_of_filter in Hx as [_ Hx]. by apply HC. }
  exists groups.*2. split_and!; [done..|]. unfold writeSnapshotPart. rewrite Ho. fold query.
  destruct (run_groups_so_far base groups Hok [] (mkSnapshotWrite None None false base)) as (st & Erun & Hst).
  { by split_and!. }
  rewrite (Hrun _ (fun _ columns => writeSnapshotSeries columns)), Erun. simpl in Hst.
  destruct st as [[e|] writer wrote s]; destruct Hst as (Hf & _ & Hw);
    cbn [sw_err sw_writer sw_wrote sw_shard] in *.
  - apply ends_bind. eapply (stable_ends (framed all (away (partID (next_id (sh_nextPart base)))) base)).
    + by apply surely_stable, (surely_abortPartWriter schema).
    + by eapply framed_weaken; [..|exact Hf].
    + done.
    + done.
  - destruct writer as [x|]; [|destruct Hw as (-> & _ & _); by split].
    destruct Hw as (Hne & -> & wopts & Hwo & En & Hx). apply ends_bind, ends_orCleanup.
    eapply ends_on_disk; [apply (pw_Close_spec (schema := schema) _ _ _ _ _ _ Hx); by apply Hstorable|..]; cbn beta.
    + intros meta d (Hk & Hmf & Eid & _ & Ep & Hpd).
      assert (framed all (away (partID (next_id (sh_nextPart base)))) base (set_disk d s)) as Hf'.
      { eapply framed_trans; [by eapply framed_weaken; [..|exact Hf]|]. by apply framed_disk. }
      split; simpl; [done|done|done|by rewrite Ep, Eid|by rewrite Ep].
    + intros e d (Hk & Hmf).
      assert (framed all (away (partID (next_id (sh_nextPart base)))) base (set_disk d s)) as Hf'.
      { eapply framed_trans; [by eapply framed_weaken; [..|exact Hf]|]. by apply framed_disk. }
      eapply stable_ends; [|exact Hf'|done|done].
      apply stable_bind; [by apply surely_stable, (surely_abortPartWriter schema)|intros; apply stable_ret].
Qed.

(** ** Other parts than the one being written *)
Definition other (id : bytes) (p : P) : Prop := pm_ID (pr_Meta p) <> id /\ baseName (pm_Path (pr_Meta p)) <> id.
Definition other_path (id : bytes) (path : bytes) : Prop := baseName path <> id.
Lemma part_path_base n : baseName (pd_path (partID n)) = partID n.
Proof. apply (pd_path_base (schema := schema)), partID_plain. Qed.
Lemma away_other n path : other_path (partID n) path -> away (partID n) path.
Proof. intros Hp ->. apply Hp, part_path_base. Qed.

Lemma old_part_id d metas next stored meta n : disk_inv d metas next stored -> meta ∈ metas -> next_id next <= n ->
  pm_ID meta <> partID n /\ baseName (pm_Path meta) = pm_ID meta.
Proof.
  intros Hd Hm Hn. split.
  - destruct (proj1 (Forall_forall _ _) (di_ids _ _ _ _ (di_holds _ _ _ _ Hd)) meta Hm) as (m & Hm1 & ->). intros E.
    unfold next_id in Hn. destruct (next =? 0) eqn:E0; [apply Z.eqb_eq in E0; lia|].
    apply partID_inj in E; lia.
  - rewrite (proj1 (Forall_forall _ _) (di_paths _ _ _ _ (di_holds _ _ _ _ Hd)) meta Hm).
    destruct (proj1 (Forall_forall _ _) (di_ids _ _ _ _ (di_holds _ _ _ _ Hd)) meta Hm) as (m & _ & ->). apply part_path_base.
Qed.
Lemma serves_others s stored wp wt n : serves opts sound s stored wp wt -> next_id (sh_nextPart s) <= n ->
  (forall p, p ∈ sh_parts s -> other (partID n) p) /\
  (forall meta, meta ∈ mf_Parts (sh_manifest s) -> other_path (partID n) (pm_Path meta)).
Proof.
  intros Hs Hn. assert (forall meta, meta ∈ mf_Parts (sh_manifest s) -> pm_ID meta <> partID n /\ baseName (pm_Path meta) <> partID n) as Hid.
  { intros meta Hm. destruct (old_part_id _ _ _ _ meta n (sv_disk _ _ _ _ _ _ Hs) Hm Hn) as [? ->]. done. }
  split.
  - intros p Hp. apply (Hid (pr_Meta p)). rewrite <- (sv_metas _ _ _ _ _ _ Hs). by apply list_elem_of_fmap_2.
  - intros meta Hm. by apply Hid.
Qed.

(** ** The data of a flushed memtable *)
Lemma rangeQuery_selects start end_ k : selects (rangeQuery ∅ ∅ start end_) k = true.
Proof. done. Qed.
Lemma window_all (V : contents) start end_ k : (forall x, x ∈ V k -> in_range start end_ x = true) ->
  filter (in_window (rangeQuery ∅ ∅ start end_)) (V k) = V k.
Proof.
  induction (V k) as [|x xs IH]; intros Hw; [done|]. rewrite filter_cons_True by (apply Is_true_true, (Hw x); left).
  f_equal. apply IH. intros y Hy. apply Hw. by right.
Qed.
Lemma flushed_agrees V columns : within V U ->
  answers schema (rangeQuery ∅ ∅ (so_Start opts) (so_End opts)) V columns -> agrees (fun k => of_column k columns) V.
Proof.
  intros HV Ha k. pose proof (answers_agree _ _ _ _ k Ha (rangeQuery_selects _ _ _)) as Hag.
  rewrite window_all in Hag; [done|]. intros x Hx. by eapply un_window, HV.
Qed.
Lemma cols_snoc stored columns : agrees (cols (stored ++ [columns])) (both (cols stored) (fun k => of_column k columns)).
Proof. intros k. unfold cols, both. rewrite concat_app, of_column_app. simpl. by rewrite app_nil_r. Qed.
Lemma answer_within V V' query columns : answers schema query V columns -> within V V' -> within (fun k => of_column k columns) V'.
Proof.
  intros Ha HV k x Hx. unfold of_column in Hx. apply elem_of_concat in Hx as (l & Hx & Hl).
  apply list_elem_of_fmap in Hl as (c & -> & Hc). apply list_elem_of_filter in Hc as [<- Hc].
  destruct (an_column _ _ _ _ Ha c Hc) as (_ & _ & _ & Hr). apply (rs_sound _ _ Hr) in Hx.
  apply list_elem_of_filter in Hx as [_ Hx]. by apply HV.
Qed.
Lemma data_flush stored mw tombs wp wt now kept columns : data_inv stored mw tombs wp wt now kept ->
  answers schema (rangeQuery ∅ ∅ (so_Start opts) (so_End opts)) (written mw) columns ->
  data_inv (stored ++ [columns]) [] tombs wp wt now kept.
Proof.
  intros Hd Ha. assert (within (written mw) U) as Hmw by by eapply data_mw_within.
  pose proof (flushed_agrees _ _ Hmw Ha) as Hag. pose proof (answer_within _ _ _ _ Ha Hmw) as HcU.
  pose proof (answer_within _ _ _ _ Ha (dv_mw _ _ _ _ _ _ _ _ _ _ Hd)) as Hcw. destruct Hd. split; try done.
  - intros k x Hx. unfold cols in Hx. rewrite concat_app, of_column_app in Hx. simpl in Hx. rewrite app_nil_r in Hx.
    apply elem_of_app in Hx as [Hx|Hx]; [by apply dv_stored|by apply HcU].
  - intros k x Hx. by apply elem_of_nil in Hx.
  - etrans; [exact dv_shows|]. apply survivors_agrees. symmetry. etrans; [apply plus_empty|]. etrans; [apply cols_snoc|].
    by apply plus_agrees.
  - etrans; [exact dv_recovers|]. apply survivors_agrees. apply agrees_same. intros k x. unfold both, cols.
    rewrite concat_app, of_column_app, !elem_of_app. simpl. rewrite app_nil_r. split; [tauto|]. intros [[?|?]|?]; [tauto| |tauto].
    right. by apply Hcw.
Qed.
Lemma data_checkpoint stored wp wt now kept : data_inv stored [] [] wp wt now kept -> data_inv stored [] [] [] [] now now.
Proof.
  intros []. split; try done; try by apply list_subseteq_nil.
  all: intros k x Hx; by apply elem_of_nil in Hx.
Qed.

(** ** One flush *)
(** What every outcome of a maintenance step leaves: the same view [now], and
    a shard that reopens to its old view or to what it shows now. *)
Definition maintained (now kept : view) (s : Shard) : Prop :=
  exists kept', (kept' = kept \/ kept' = now) /\ shard_inv s now kept'.
Lemma maintained_refl now kept s : shard_inv s now kept -> maintained now kept s.
Proof. intros Hs. exists kept. auto. Qed.
#[local] Hint Resolve maintained_refl : core.

Section one_flush.
  Context (snapshot : Snapshot) (stored : list (list ColumnData)) (mw : list (columnKey * VersionedSample)).
  Context (wp : list ResolvedPoint) (wt : list Tombstone) (now kept : view).
  Context (Hsnap : table_inv schema (sn_data snapshot) (written mw)).
  Context (Hcount : sn_sampleCount snapshot = sumColumns cb_count (sn_data snapshot)).

(** The memtable has been taken away; the rest of the shard is as before. *)
Record taken (s : Shard) : Prop := {
  tk_serves : serves opts sound s stored wp wt;
  tk_mem : mem_holds schema s [];
  tk_data : data_inv stored mw (sh_tombstones s) wp wt now kept;
}.
Lemma taken_framed alive here s s' : taken s -> framed alive here s s' -> (forall p, p ∈ sh_parts s -> alive p) ->
  (forall meta, meta ∈ mf_Parts (sh_manifest s) -> here (pm_Path meta)) -> taken s'.
Proof.
  intros [Hs Hm Hd] Hf Ha Hh. split; [by eapply serves_framed|by eapply mem_holds_framed|].
  pose proof (fr_core _ _ _ _ Hf) as Hc. unfold core in Hc. injection Hc as _ _ _ _ _ E. by rewrite E.
Qed.
(** The memtable has been put back. *)
Definition back (s : Shard) : Prop :=
  serves opts sound s stored wp wt /\ mem_holds schema s mw /\ data_inv stored mw (sh_tombstones s) wp wt now kept.
Lemma back_inv s : back s -> shard_inv s now kept.
Proof. intros Hb. by exists stored, mw, wp, wt. Qed.
Lemma restore_taken s : taken s -> ends (fun _ => back) (fun _ _ => False) (restoreSnapshot snapshot s).
Proof.
  intros [Hs Hm Hd]. unfold restoreSnapshot, on_mem.
  destruct (Restore_inv schema (un_schema _ _ _ HU) (sh_pool s) (sh_mem s) (written []) snapshot (written mw)) as (m & pool & -> & Hp & Hi);
    [apply Hm|apply Hm|done|done|].
  simpl. split_and!; [by destruct Hs|by split|done].
Qed.
Lemma undo_taken r s : taken s ->
  ends (fun _ => back) (fun _ _ => False) ((_ ← releaseMemory r; restoreSnapshot snapshot) s).
Proof.
  intros Ht. apply ends_bind. unfold releaseMemory. apply ends_modify, restore_taken.
  eapply (taken_framed all all); [exact Ht|apply framed_memory|done|done].
Qed.
(** Cleaning up after a failure, then undoing. *)
Lemma cleanup_undo {A} (c : step Shard A) r (id : bytes) s s' : taken s -> framed (other id) (other_path id) s s' ->
  (forall p, p ∈ sh_parts s -> other id p) -> (forall meta, meta ∈ mf_Parts (sh_manifest s) -> other_path id (pm_Path meta)) ->
  surely (framed (other id) (other_path id) s) c ->
  ends (fun _ => back) (fun _ _ => False) ((_ ← c; _ ← releaseMemory r; restoreSnapshot snapshot) s').
Proof.
  intros Ht Hf Ha Hh Hc. apply ends_bind. eapply ends_weaken; [by apply Hc| |done].
  intros a s1 Hf1. apply undo_taken. eapply (taken_framed _ _ s); [exact Ht|exact Hf1|exact Ha|exact Hh].
Qed.

(** The manifest lists the new part. *)
Lemma serves_commit s s1 p meta columns d next : serves opts sound s stored wp wt -> fresh_part s s1 meta columns ->
  pr_Meta p = meta -> pd_open (sh_disk s1) p columns ->
  keeps all all (sh_disk s1) d -> pd_manifest d = next -> mf_Parts next = mf_Parts (sh_manifest s) ++ [meta] ->
  serves opts sound (set_parts (sh_parts s1 ++ [p]) next (set_disk d s1)) (stored ++ [columns]) wp wt.
Proof.
  intros Hs [Hf En Eid Ep Hpd] Emeta Hopen Hk Hmf Hnext.
  destruct (serves_others _ _ _ _ _ Hs (Z.le_refl _)) as [Ha Hh].
  assert (serves opts sound s1 stored wp wt) as Hs1.
  { eapply serves_framed; [..|exact Hf|exact Hs]; [done|]. intros m Hm. by apply away_other, Hh. }
  assert (mf_Parts (sh_manifest s1) = mf_Parts (sh_manifest s) /\ sh_parts s1 = sh_parts s) as [Em Epa].
  { pose proof (fr_core _ _ _ _ Hf) as Hc. unfold core in Hc. by injection Hc as _ _ _ -> -> _. }
  pose proof (di_next _ _ _ _ (di_holds _ _ _ _ (sv_disk _ _ _ _ _ _ Hs))) as Hnn.
  destruct Hs1 as [Ho Hop Hw Hd Hme Hha Hso]. split; simpl; try done; rewrite ?Hnext.
  - split; [|by rewrite Hmf, Hnext]. apply parts_inv_app.
    + rewrite <- Em. eapply (parts_inv_mono all all); [done|exact Hk|done|apply Hd].
    + split.
      * constructor; [|constructor]. by apply (kp_part _ _ _ _ Hk).
      * by constructor; [|constructor].
      * apply NoDup_singleton.
      * constructor; [|constructor]. exists (next_id (sh_nextPart s)). split; [|done]. rewrite En. unfold next_id.
        zcase (sh_nextPart s =? 0); lia.
      * rewrite En. unfold next_id. zcase (sh_nextPart s =? 0); lia.
    + intros m m' Hm ->%list_elem_of_singleton. rewrite Eid.
      destruct (old_part_id _ _ _ _ m _ (sv_disk _ _ _ _ _ _ Hs) Hm (Z.le_refl _)) as [? _]. done.
  - rewrite fmap_app, Hme, Em. simpl. by rewrite Emeta.
  - apply Forall2_app; [by eapply (handles_mono all all)|]. constructor; [|constructor]. by apply (kp_open _ _ _ _ Hk).
  - intros Hsd. destruct (Hso Hsd) as [Hhd Hhw]. split; [|done]. by apply (kp_healthy _ _ _ _ Hk).
Qed.
End one_flush.

(** A shard whose memtable is empty. *)
Definition drained (s : Shard) (now kept : view) : Prop := exists stored wp wt,
  serves opts sound s stored wp wt /\ mem_holds schema s [] /\ data_inv stored [] (sh_tombstones s) wp wt now kept.
Lemma drained_inv s now kept : drained s now kept -> shard_inv s now kept.
Proof. intros (stored & wp & wt & Hs & Hm & Hd). by exists stored, [], wp, wt. Qed.
Lemma data_ext stored mw mw' tombs wp wt now kept : (forall k, written mw k = written mw' k) ->
  data_inv stored mw tombs wp wt now kept -> data_inv stored mw' tombs wp wt now kept.
Proof.
  intros E []. split; try done.
  - intros k x. rewrite <- E. apply dv_mw.
  - etrans; [exact dv_shows|]. apply survivors_agrees. intros k. unfold both. by rewrite E.
Qed.
Definition flushed (now kept : view) (s : Shard) : Prop := exists kept', (kept' = kept \/ kept' = now) /\ drained s now kept'.
Lemma flushed_maintained now kept s : flushed now kept s -> maintained now kept s.
Proof. intros (kept' & Hk & Hd). exists kept'. split; [done|by apply drained_inv]. Qed.

Lemma drained_framed alive here s s' now kept : drained s now kept -> framed alive here s s' ->
  (forall p, p ∈ sh_parts s -> alive p) -> (forall meta, meta ∈ mf_Parts (sh_manifest s) -> here (pm_Path meta)) ->
  drained s' now kept.
Proof.
  intros (stored & wp & wt & Hs & Hm & Hd) Hf Ha Hh. exists stored, wp, wt. split_and!;
    [by eapply serves_framed|by eapply mem_holds_framed|]. pose proof (fr_core _ _ _ _ Hf) as Hc. unfold core in Hc.
  injection Hc as _ _ _ _ _ E. by rewrite E.
Qed.
Lemma flushed_framed s s' now kept : flushed now kept s -> framed all all s s' -> flushed now kept s'.
Proof. intros (kept' & Hk & Hd) Hf. exists kept'. split; [done|]. by eapply drained_framed. Qed.

(** Cutting the log of a shard that has neither a memtable nor tombstones. *)
Lemma checkpoint_spec s now kept : drained s now kept -> sh_tombstones s = [] ->
  ends (fun _ s' => flushed now kept s' /\ sh_pool s' = sh_pool s) (fun _ s' => flushed now kept s' /\ sh_pool s' = sh_pool s)
    (on_wal wal_Checkpoint s).
Proof.
  intros (stored & wp & wt & Hs & Hm & Hd) Et. rewrite Et in Hd.
  assert (forall w wp' wt' kept', wal_holds w wp' wt' -> (wal_healthy (sh_wal s) -> wal_healthy w) ->
    data_inv stored [] [] wp' wt' now kept' -> drained (set_wal w true s) now kept') as Hset.
  { intros w wp' wt' kept' Hw Hh Hd'. exists stored, wp', wt'. split_and!; [by eapply serves_wal|by destruct Hm|].
    simpl. by rewrite Et. }
  eapply ends_on_wal; [apply Hs|apply wal_Checkpoint_spec, Hs|..]; cbn beta.
  - intros _ w [Hw Hh]. split; [|done]. exists now. split; [by right|]. eapply Hset; [done..|by eapply data_checkpoint].
  - intros e w [[Hw|Hw] Hh]; (split; [|done]).
    + exists kept. split; [by left|]. by eapply Hset.
    + exists now. split; [by right|]. eapply Hset; [done..|by eapply data_checkpoint].
Qed.

Lemma completeCommittedFlush_spec snapshot release mw s now kept : drained s now kept ->
  table_inv schema (sn_data snapshot) (written mw) ->
  ends (fun _ s' => flushed now kept s') (fun _ s' => flushed now kept s') (completeCommittedFlush snapshot release s).
Proof.
  intros Hd Hsn. unfold completeCommittedFlush. apply ends_bind, ends_gets, ends_bind.
  assert (forall s', flushed now kept s' -> sh_pool s' = sh_pool s ->
    flushed now kept (set_mem (sh_mem s') (Release (sh_pool s') snapshot) s')) as Hrel.
  { intros s' (kept' & Hk & stored & wp & wt & Hs & Hm & Hda) Ep. exists kept'. split; [done|]. exists stored, wp, wt.
    split_and!; [by destruct Hs| |done]. split; [apply Hm|]. simpl. eapply Release_ok; [|exact Hsn]. apply Hm. }
  assert (forall r s', flushed now kept s' /\ sh_pool s' = sh_pool s ->
    ends (fun _ s' => flushed now kept s') (fun _ s' => flushed now kept s')
      ((_ ← modify (fun s => set_mem (sh_mem s) (Release (sh_pool s) snapshot) s); _ ← releaseMemory release;
        match r with
        | None => mret tt
        | Some e =>
            _ ← recordRecoveryIssue (mkIssue RecoveryIssueWALCheckpointFailed [] "manifest committed but wal checkpoint failed"
                                       (Some e) false);
            fail_step e
        end) s')) as Hrest.
  { intros r s' [Hf Ep]. apply ends_bind, ends_modify, ends_bind. unfold releaseMemory. apply ends_modify.
    assert (flushed now kept (set_memory (ReleaseBytes release <$> sh_memory s') (set_mem (sh_mem s') (Release (sh_pool s') snapshot) s')))
      as Hf'. { eapply flushed_framed; [by apply Hrel|apply framed_memory]. }
    destruct r as [e|]; [|by apply ends_ret]. apply ends_bind. unfold recordRecoveryIssue. apply ends_modify, ends_fail.
    eapply flushed_framed; [exact Hf'|apply framed_report]. }
  zcase (len (sh_tombstones s) =? 0).
  - apply ends_errOf. assert (sh_tombstones s = []) as Et by (destruct (sh_tombstones s); [done|unfold len in *; simpl in *; lia]).
    eapply ends_weaken; [by apply checkpoint_spec|..].
    + intros a s' Hs'. exact (Hrest None s' Hs').
    + intros e s' Hs'. exact (Hrest (Some e) s' Hs').
  - apply ends_ret, (Hrest None s). split; [|done]. exists kept. auto.
Qed.

Section committed_flush.
  Context (snapshot : Snapshot) (stored : list (list ColumnData)) (mw : list (columnKey * VersionedSample)).
  Context (wp : list ResolvedPoint) (wt : list Tombstone) (now kept : view).
  Context (Hsnap : table_inv schema (sn_data snapshot) (written mw)).
  Context (Hcount : sn_sampleCount snapshot = sumColumns cb_count (sn_data snapshot)).
  Abbreviation taken := (taken stored mw wp wt now kept).
  Abbreviation back := (back stored mw wp wt now kept).

(** The part is on disk: open it, commit it to the manifest, cut the log. *)
Lemma commit_spec release s s1 meta columns : taken s -> fresh_part s s1 meta columns ->
  answers schema (rangeQuery ∅ ∅ (so_Start opts) (so_End opts)) (written mw) columns ->
  let undo := _ ← releaseMemory release; restoreSnapshot snapshot in
  ends (fun _ => flushed now kept) (fun _ => maintained now kept)
    ((part ← orCleanup (on_disk (pt_OpenPartTrusted (pm_Path meta))) (_ ← cleanupUncommittedPart meta None; undo);
      next ← gets (fun s => nextManifest s (mf_Parts (sh_manifest s) ++ [meta]));
      _ ← orCleanup (on_disk (pt_WriteManifest next)) (_ ← cleanupUncommittedPart meta (Some part); undo);
      _ ← modify (fun s => set_parts (sh_parts s ++ [part]) next s);
      completeCommittedFlush snapshot release) s1).
Proof.
  intros Ht Hfp Ha undo. destruct (serves_others _ _ _ _ _ (tk_serves _ _ _ _ _ _ _ Ht) (Z.le_refl _)) as [Hoth Hothp].
  set (id := partID (next_id (sh_nextPart s))) in *. pose proof Hfp as [Hf En Eid Ep Hpd]. fold id in Hf, Eid.
  assert (baseName (pm_Path meta) = id) as Ebase by (rewrite Ep, Eid; apply part_path_base).
  assert (framed (other id) (other_path id) s s1) as Hf1 by (eapply framed_weaken; [..|exact Hf]; [done|apply away_other]).
  assert (forall (c : option P) s', (forall p, c = Some p -> pr_Meta p = meta) -> framed (other id) (other_path id) s s' ->
    ends (fun _ s'' => maintained now kept s'') (fun _ s'' => maintained now kept s'')
      ((_ ← cleanupUncommittedPart meta c; undo) s')) as Hclean.
  { intros c s' Hc Hf'. eapply ends_weaken; [apply (cleanup_undo snapshot stored mw wp wt now kept Hsnap Hcount _ _ id s); try done| |done].
    - apply (surely_cleanupUncommitted schema).
      + intros p' [_ Hp']. by rewrite Ebase.
      + intros path Hp. by rewrite Ebase.
      + intros p p' Hp [Hp' _]. by rewrite (Hc p Hp), Eid.
    - intros ? s'' Hb. by apply maintained_refl, (back_inv stored mw wp wt). }
  apply ends_bind, ends_orCleanup. eapply ends_on_disk; [by apply (pt_OpenPartTrusted_spec (schema := schema))|..]; cbn beta.
  2: { intros e d [Hu _]. apply (Hclean None); [done|eauto with shard]. }
  intros p d (Hu & Hopen & Emeta). set (s2 := set_disk d s1).
  assert (fresh_part s s2 meta columns) as Hfp2.
  { split; try done; [eapply framed_trans; [exact Hf|by apply framed_unchanged]|]. apply (kp_part _ _ _ _ (proj1 Hu)); done. }
  apply ends_bind, ends_gets, ends_bind, ends_orCleanup.
  eapply ends_on_disk; [apply (pt_WriteManifest_spec (schema := schema))|..]; cbn beta.
  2: { intros e d' Hu'. apply (Hclean (Some p)); [by intros q [= <-]|].
       eapply framed_trans; [exact Hf1|]. eapply (framed_trans _ _ _ s2); by apply framed_unchanged. }
  intros [] d' [Hk Hmf]. apply ends_bind, ends_modify.
  assert (mf_Parts (sh_manifest s1) = mf_Parts (sh_manifest s) /\ sh_tombstones s1 = sh_tombstones s) as [Em Etb].
  { pose proof (fr_core _ _ _ _ Hf) as Hc. unfold core in Hc. by injection Hc as _ _ _ _ -> ->. }
  eapply ends_weaken; [apply (completeCommittedFlush_spec snapshot release mw _ now kept); [|exact Hsnap]|done|intros; by apply flushed_maintained].
  exists (stored ++ [columns]), wp, wt. split_and!.
  - apply (serves_commit stored wp wt s s2 p meta columns d'); [apply Ht|done|done|done|done|done|]. simpl. by rewrite Em.
  - destruct (mem_holds_framed schema _ _ _ _ [] Hf (tk_mem _ _ _ _ _ _ _ Ht)). by split.
  - simpl. rewrite Etb. eapply data_flush; [apply Ht|done].
Qed.


Lemma flush_taken release s : taken s ->
  let undo := _ ← releaseMemory release; restoreSnapshot snapshot in
  ends (fun _ => flushed now kept) (fun _ => maintained now kept)
    ((written ← try_step (writeSnapshotPart snapshot);
      match written with
      | inl e => _ ← undo; fail_step e
      | inr None => undo
      | inr (Some meta) =>
          part ← orCleanup (on_disk (pt_OpenPartTrusted (pm_Path meta))) (_ ← cleanupUncommittedPart meta None; undo);
          next ← gets (fun s => nextManifest s (mf_Parts (sh_manifest s) ++ [meta]));
          _ ← orCleanup (on_disk (pt_WriteManifest next)) (_ ← cleanupUncommittedPart meta (Some part); undo);
          _ ← modify (fun s => set_parts (sh_parts s ++ [part]) next s);
          completeCommittedFlush snapshot release
      end) s).
Proof.
  intros Ht undo. pose proof (data_mw_within schema opts U _ _ _ _ _ _ _ (tk_data _ _ _ _ _ _ _ Ht)) as Hmw.
  destruct (serves_others _ _ _ _ _ (tk_serves _ _ _ _ _ _ _ Ht) (Z.le_refl _)) as [Hoth Hothp].
  destruct (writeSnapshotPart_spec snapshot (written mw) s (sv_opts _ _ _ _ _ _ (tk_serves _ _ _ _ _ _ _ Ht)) Hsnap Hmw)
    as (gs & Ha & Hdr & Hw).
  apply ends_bind, ends_try. eapply ends_weaken; [exact Hw|..].
  - intros [meta|] s1; [intros Hfp; by apply (commit_spec release s s1 meta (concat gs))|]. intros [-> Hf].
    assert (taken s1) as Ht1 by by eapply (taken_framed stored mw wp wt now kept all all s).
    eapply ends_weaken; [by apply (undo_taken snapshot stored mw wp wt now kept Hsnap Hcount)| |done].
    intros _ s2 (Hs & Hm & Hd). exists kept. split; [by left|]. exists stored, wp, wt.
    assert (forall k, written mw k = []) as Hnil.
    { intros k. destruct (written mw k) as [|x xs] eqn:Ek; [done|].
      destruct (an_complete _ _ _ _ Ha k x) as (c & Hc & _); [done| |by apply elem_of_nil in Hc].
      apply list_elem_of_filter. rewrite Ek. split; [|left]. apply Is_true_true. apply (un_window _ _ _ HU k). apply Hmw. rewrite Ek. left. }
    split_and!; [done| |]; [|by eapply data_ext; [|exact Hd]].
    destruct Hm as [Hi Hp]. split; [|done]. by eapply mem_inv_ext; [|exact Hi].
  - intros e s1 Hf. apply ends_bind.
    assert (taken s1) as Ht1.
    { eapply (taken_framed stored mw wp wt now kept); [exact Ht|exact Hf|done|]. intros meta Hm. by apply away_other, Hothp. }
    eapply ends_weaken; [by apply (undo_taken snapshot stored mw wp wt now kept Hsnap Hcount)| |done].
    intros ? s2 Hb. apply ends_fail, maintained_refl. by apply (back_inv stored mw wp wt).
Qed.
End committed_flush.

Lemma flushLocked_spec s now kept : shard_inv s now kept ->
  ends (fun _ => flushed now kept) (fun _ => maintained now kept) (flushLocked s).
Proof.
  intros (stored & mw & wp & wt & Hs & Hm & Hd). unfold flushLocked. apply ends_bind, ends_gets.
  zcase (mt_sampleCount (sh_mem s) =? 0).
  { apply ends_ret. exists kept. split; [by left|]. exists stored, wp, wt.
    assert (forall k, written mw k = []) as Hnil.
    { apply (table_inv_restore_count schema (mt_data (sh_mem s))); [apply Hm|]. rewrite <- (mi_count _ _ _ (mh_mem _ _ _ Hm)). done. }
    split_and!; [done| |by eapply data_ext; [|exact Hd]]. destruct Hm as [Hi Hp]. split; [|done]. by eapply mem_inv_ext; [|exact Hi]. }
  destruct (SnapshotAndReset (sh_mem s)) as [snapshot m] eqn:Esn.
  assert (snapshot = (SnapshotAndReset (sh_mem s)).1 /\ m = (SnapshotAndReset (sh_mem s)).2) as [Es Emm] by by rewrite Esn.
  assert (table_inv schema (sn_data snapshot) (written mw)) as Hsn by (rewrite Es; apply (mi_table _ _ _ (mh_mem _ _ _ Hm))).
  assert (sn_sampleCount snapshot = sumColumns cb_count (sn_data snapshot)) as Hcn
    by (rewrite Es; apply (mi_count _ _ _ (mh_mem _ _ _ Hm))).
  apply ends_bind, ends_modify. set (s0 := set_mem m (sh_pool s) s).
  assert (taken stored mw wp wt now kept s0) as Ht.
  { split; [by destruct Hs| |done]. split; [change (sh_mem s0) with m; rewrite Emm; apply (reset_inv schema)|apply Hm]. }
  assert (forall s1, framed all all s0 s1 -> taken stored mw wp wt now kept s1) as Htk by (intros s1 Hf1; by apply (taken_framed _ _ _ _ _ _ _ _ _ _ Ht Hf1)).
  apply ends_bind, ends_orCleanup.
  eapply ends_weaken; [apply (stable_reserveMemory all all s0 storageMemoryFlush (sn_approxBytes snapshot) s0 (framed_refl _ _ _))|..].
  - intros r s1 Hf1. eapply flush_taken; [exact Hsn|exact Hcn|by apply Htk].
  - intros e s1 Hf1. eapply ends_weaken; [eapply (restore_taken snapshot stored mw wp wt now kept Hsn Hcn); by apply Htk| |done].
    intros ? s2 Hb. by apply maintained_refl, (back_inv stored mw wp wt).
Qed.
End flush.
