(* ===== verification/ShardMerge.v ===== *)
(** * Compacting a shard

    A compaction replaces parts by parts that hold what the tombstones left of
    them; whether it succeeds or fails at any call, queries answer as before. *)
From S2P Require Import Prelude Model WalRoundtrip WalLog SstValues Runtime Versions MemColumn MemCompact StoreSpec MemTable MemTheorems EngineMerge Tombstones QueryMerge SstMeta MemoryBudget EngineOptions Planner SstPack Ports Shard ShardCompact ShardScan ShardInv ShardOps ShardFlush.
From stdpp Require Import prelude strings list sorting gmap.
From Stdlib Require Import ZArith Lia.
#[local] Open Scope Z_scope.

(** ** Series ids without duplicates *)
Lemma lookup_take_last (l : list Z) n x : (0 < n)%nat -> l !! (n - 1)%nat = Some x ->
  take n l = take (n - 1) l ++ [x].
Proof. intros Hn Hx. replace n with (S (n - 1)) at 1 by lia. by apply take_S_r. Qed.

(** What the loop has to do: the prefix is strictly sorted, the part to read is
    sorted and not below the prefix. *)
Lemma compactIDsLoop_spec n : forall read write ids, (0 < write <= read)%nat -> (length ids = read + n)%nat ->
  StronglySorted Z.lt (take write ids) -> StronglySorted Z.le (drop read ids) ->
  (forall x y, x ∈ take write ids -> y ∈ drop read ids -> x <= y) ->
  let out := compactIDsLoop n read write ids in
  StronglySorted Z.lt out /\ (forall x, x ∈ out <-> x ∈ take write ids \/ x ∈ drop read ids).
Proof.
  induction n as [|n IH]; intros read write ids Hw Hlen Hs Hr Hle; cbn [compactIDsLoop].
  { split; [done|]. intros x. rewrite (drop_ge ids read) by lia. split; [auto|]. intros [?|?%elem_of_nil]; done. }
  destruct (lookup_lt_is_Some_2 ids read ltac:(lia)) as [x Hx].
  destruct (lookup_lt_is_Some_2 ids (write - 1) ltac:(lia)) as [last Hlast]. rewrite Hx, Hlast.
  rewrite (drop_S _ _ _ Hx) in Hr, Hle |- *. apply StronglySorted_inv in Hr as [Hr Hxr].
  pose proof (lookup_take_last ids write last ltac:(lia) Hlast) as Et.
  zcase (x =? last).
  - destruct (IH (S read) write ids ltac:(lia) ltac:(lia) Hs Hr) as [Hso Hel].
    { intros y z Hy Hz. apply Hle; [done|]. by right. }
    split; [done|]. intros y. rewrite Hel, elem_of_cons. split; [tauto|]. intros [?|[->|?]]; [tauto| |tauto].
    left. rewrite Et, elem_of_app. right. rewrite E. left.
  - set (ids' := <[write := x]> ids).
    assert (take (S write) ids' = take write ids ++ [x]) as Et'.
    { unfold ids'. rewrite (take_S_r _ _ x) by (apply list_lookup_insert_eq; lia). by rewrite take_insert_ge. }
    assert (drop (S read) ids' = drop (S read) ids) as Ed'.
    { unfold ids'. by rewrite drop_insert_lt by lia. }
    assert (forall y, y ∈ take write ids -> y < x) as Hlt.
    { intros y Hy. assert (last < x).
      { assert (last <= x); [|lia]. apply Hle; [rewrite Et, elem_of_app; right; left|left]. }
      rewrite Et in Hy, Hs. apply elem_of_app in Hy as [Hy|Hy%list_elem_of_singleton]; [|lia].
      apply StronglySorted_app in Hs as (Hall & _). specialize (Hall y last Hy ltac:(left)). lia. }
    destruct (IH (S read) (S write) ids') as [Hso Hel].
    + lia.
    + unfold ids'. rewrite length_insert. lia.
    + rewrite Et'. apply StronglySorted_app_2; [|done|repeat constructor]. intros y z Hy ->%list_elem_of_singleton. by apply Hlt.
    + by rewrite Ed'.
    + rewrite Et', Ed'. intros y z [Hy|Hy%list_elem_of_singleton]%elem_of_app Hz.
      * apply Hle; [done|by right].
      * subst y. by apply (proj1 (Forall_forall _ _) Hxr).
    + split; [done|]. intros y. rewrite Hel, Et', Ed', elem_of_app, list_elem_of_singleton, elem_of_cons. tauto.
Qed.

Section ids.
  Context `{GoRuntimeLaws}.
Lemma sorted_ids ids : StronglySorted Z.le (sort_Slice Z.ltb ids).
Proof.
  pose proof (sort_Slice_sorted Z.ltb ids (weak_order_key (fun x => x))) as Hs. 
  eapply StronglySorted_impl_in; [|exact Hs]. intros x y _ _ Hxy. by apply Z.ltb_ge in Hxy.
Qed.
(** The ids a compaction goes through: those of its inputs, each once, sorted. *)
Lemma compactSortedSeriesIDs_spec ids : let out := compactSortedSeriesIDs (sort_Slice Z.ltb ids) in
  StronglySorted Z.lt out /\ (forall x, x ∈ out <-> x ∈ ids).
Proof.
  pose proof (sorted_ids ids) as Hs. pose proof (sort_Slice_perm Z.ltb ids) as Hp. set (l := sort_Slice Z.ltb ids) in *.
  assert (forall x, x ∈ l <-> x ∈ ids) as Hel by (intros x; by rewrite Hp).
  unfold compactSortedSeriesIDs. zcase (len l <=? 1).
  - split; [|done]. destruct l as [|x [|y l']]; [constructor|repeat constructor|unfold len in *; simpl in *; lia].
  - destruct l as [|x l']; [done|]. destruct (compactIDsLoop_spec (length l') 1 1 (x :: l')) as [Hso He].
    + lia.
    + done.
    + repeat constructor.
    + simpl. apply StronglySorted_inv in Hs as [Hs _]. by rewrite drop_0.
    + simpl. rewrite drop_0. intros y z Hy%list_elem_of_singleton Hz. subst y.
      apply StronglySorted_inv in Hs as [_ HF]. by apply (proj1 (Forall_forall _ _) HF).
    + simpl length in *. replace (S (length l') - 1)%nat with (length l') by lia. split; [done|]. intros y. rewrite He, <- Hel.
      simpl. rewrite drop_0. set_solver.
Qed.
End ids.

(** ** Splitting the parts *)
Lemma split_parts {A C} (R : A -> C -> Prop) (Q : A -> Prop) `{!forall a, Decision (Q a)} parts stored : Forall2 R parts stored ->
  exists sel kpt, Forall2 R (filter Q parts) sel /\ Forall2 R (filter (fun a => ~ Q a) parts) kpt /\ stored ≡ₚ sel ++ kpt.
Proof.
  induction 1 as [|a c parts stored Hac HF (sel & kpt & IH1 & IH2 & IH3)]; [by exists [], []|].
  destruct (decide (Q a)) as [Ha|Ha].
  - exists (c :: sel), kpt. rewrite filter_cons_True, filter_cons_False by (by auto).
    split_and!; [by constructor|done|by rewrite IH3].
  - exists sel, (c :: kpt). rewrite filter_cons_False, filter_cons_True by done.
    split_and!; [done|by constructor|]. rewrite IH3. apply Permutation_middle.
Qed.
Lemma elem_of_cols stored k x : x ∈ cols stored k <-> exists c, c ∈ concat stored /\ keyOf c = k /\ x ∈ cd_Samples c.
Proof.
  unfold cols, of_column. rewrite elem_of_concat. split.
  - intros (l & Hx & Hl). apply list_elem_of_fmap in Hl as (c & -> & Hc). apply list_elem_of_filter in Hc as [Hk Hc]. by exists c.
  - intros (c & Hc & Hk & Hx). exists (cd_Samples c). split; [done|]. apply list_elem_of_fmap. exists c. split; [done|].
    by apply list_elem_of_filter.
Qed.
Lemma cols_perm stored stored' : stored ≡ₚ stored' -> forall k x, x ∈ cols stored k <-> x ∈ cols stored' k.
Proof. intros E k x. rewrite !elem_of_cols. setoid_rewrite elem_of_concat. by setoid_rewrite E. Qed.
Lemma cols_app stored stored' k x : x ∈ cols (stored ++ stored') k <-> x ∈ cols stored k \/ x ∈ cols stored' k.
Proof. unfold cols. by rewrite concat_app, of_column_app, elem_of_app. Qed.

(** ** Reading the inputs *)
Section reading.
  Context {D P X B : Type} (schema : Z * Z -> Z) `{GoRuntimeLaws} `{PartLaws schema D P X B}.
  Context (start end_ : Z) (Hq : pd_query (rangeQuery ∅ ∅ start end_)).
  Abbreviation query := (rangeQuery ∅ ∅ start end_).

Lemma reads_bind {A A'} (Q : A -> D -> Prop) (Q' : A' -> D -> Prop) (m : step D A) (k : A -> step D A') d :
  reads Q d (m d) -> (forall a d', unchanged d d' -> Q a d' -> reads Q' d' (k a d')) -> reads Q' d ((m ≫= k) d).
Proof.
  intros Hm Hk. apply ends_bind. eapply ends_weaken; [exact Hm| |done]. intros a d' [Hu HQ].
  eapply ends_weaken; [by apply Hk|..]; simpl.
  - intros a' d'' [Hu' HQ']. split; [by eapply unchanged_trans|done].
  - intros e d'' [Hu' Hn]. split; [by eapply unchanged_trans|]. intros Hh. apply Hn. by apply (kp_healthy _ _ _ _ (proj1 Hu)).
Qed.
Lemma reads_ret {A} (Q : A -> D -> Prop) a d : Q a d -> reads Q d (mret (M := step D) a d).
Proof. intros HQ. split; [apply unchanged_refl|done]. Qed.
Lemma reads_weaken {A} (Q Q' : A -> D -> Prop) d r : reads Q d r -> (forall a d', unchanged d d' -> Q a d' -> Q' a d') -> reads Q' d r.
Proof. intros Hr HQ. eapply ends_weaken; [exact Hr| |done]. intros a d' [Hu Ha]. split; [done|by apply HQ]. Qed.

Record input_ok (d : D) (input : compactionInput (P := P) (B := B)) (columns : list ColumnData) : Prop := {
  io_query : ci_query input = query;
  io_open : pd_open d (ci_part input) columns;
  io_reader b : ci_reader input = Some b -> pd_reader d b start end_ columns;
}.
Lemma input_ok_unchanged d d' input columns : unchanged d d' -> input_ok d input columns -> input_ok d' input columns.
Proof.
  intros [Hk _] [Hi Ho Hr]. split; [done|by apply (kp_open _ _ _ _ Hk)|]. intros b Hb. by apply (kp_reader _ _ _ _ Hk), Hr.
Qed.
Lemma inputs_unchanged d d' inputs stored : unchanged d d' -> Forall2 (input_ok d) inputs stored -> Forall2 (input_ok d') inputs stored.
Proof. intros Hu HF. eapply Forall2_impl; [exact HF|]. intros input columns. by apply input_ok_unchanged. Qed.
Lemma handles_unchanged (d d' : D) (parts : list P) stored : unchanged d d' -> Forall2 (pd_open d) parts stored -> Forall2 (pd_open d') parts stored.
Proof. intros [Hk _]. by apply (handles_mono all all). Qed.

Lemma newInputs_spec cache parts stored : forall d, Forall2 (pd_open d) parts stored ->
  reads (fun inputs d' => Forall2 (input_ok d') inputs stored /\ ci_part <$> inputs = parts) d (newInputs cache parts query d).
Proof.
  revert stored. induction parts as [|p parts IH]; intros stored d HF; cbn [newInputs].
  { apply Forall2_nil_inv_l in HF as ->. by apply reads_ret. }
  apply Forall2_cons_inv_l in HF as (c & stored' & Hc & HF & ->).
  apply (reads_bind (fun reader d' => forall b, reader = Some b -> pd_reader d' b start end_ c)).
  - destruct cache; [|by apply reads_ret].
    eapply reads_bind; [by apply pt_NewSeriesBatchReader_spec|]. intros b d' Hu Hb. apply reads_ret. by intros b' [= <-].
  - intros reader d1 Hu1 Hr. eapply reads_bind; [apply IH; by eapply handles_unchanged|]. intros inputs d2 Hu2 [Hin <-].
    apply reads_ret. split; [|done]. constructor; [|done]. eapply input_ok_unchanged; [exact Hu2|]. split; simpl; [done| |done].
    by apply (kp_open _ _ _ _ (proj1 Hu1)).
Qed.

Lemma collectSeriesIDs_spec inputs stored : forall d ids, Forall2 (input_ok d) inputs stored ->
  reads (fun out _ => forall c x, (cd_SeriesID c ∈ ids \/ (c ∈ concat stored /\ x ∈ cd_Samples c /\ in_range start end_ x = true)) ->
           cd_SeriesID c ∈ out) d (collectSeriesIDs inputs ids d).
Proof.
  revert stored. induction inputs as [|input inputs IH]; intros stored d ids HF; cbn [collectSeriesIDs].
  { apply Forall2_nil_inv_l in HF as ->. apply reads_ret. intros c x [?|(Hc & _)]; [done|by apply elem_of_nil in Hc]. }
  apply Forall2_cons_inv_l in HF as (cs & stored' & [Eq Ho Hr] & HF & ->).
  apply (reads_bind (fun out _ => exists own, out = ids ++ own /\ covers_series cs start end_ own)).
  - destruct (ci_reader input) as [b|].
    + destruct (br_AppendSeriesIDs_spec (schema := schema) d b cs start end_ ids (Hr b eq_refl)) as (own & -> & Hown).
      apply reads_ret. by exists own.
    + rewrite Eq. eapply reads_bind; [by apply pr_SeriesIDs_spec|]. intros own d' _ Hown. apply reads_ret. by exists own.
  - intros out d1 Hu (own & -> & Hown). eapply reads_weaken; [apply IH; by eapply inputs_unchanged|]. intros out d2 _ Hout c x [Hc|(Hc & Hx & Hw)].
    + apply (Hout c x). left. apply elem_of_app. by left.
    + simpl in Hc. apply elem_of_app in Hc as [Hc|Hc]; [|apply (Hout c x); by right].
      apply (Hout c x). left. apply elem_of_app. right. by eapply Hown.
Qed.

Lemma queryInputs_spec inputs stored id : forall d, Forall2 (input_ok d) inputs stored ->
  reads (fun out _ => exists colss, out = concat colss /\
           Forall2 (answers schema (windowed_by start end_ id)) ((fun c k => of_column k c) <$> stored) colss) d (queryInputs inputs id d).
Proof.
  revert stored. induction inputs as [|input inputs IH]; intros stored d HF; cbn [queryInputs].
  { apply Forall2_nil_inv_l in HF as ->. apply reads_ret. by exists []. }
  apply Forall2_cons_inv_l in HF as (cs & stored' & [Eq Ho Hr] & HF & ->).
  apply (reads_bind (fun got _ => answers schema (windowed_by start end_ id) (fun k => of_column k cs) got)).
  - destruct (ci_reader input) as [b|]; [by apply br_QuerySeriesID_spec, Hr|]. rewrite Eq. by apply pr_QuerySeriesIDs_spec.
  - intros got d1 Hu Hgot. eapply reads_bind; [apply IH; by eapply inputs_unchanged|]. intros rest d2 _ (colss & -> & Hcs).
    apply reads_ret. exists (got :: colss). split; [done|]. by constructor.
Qed.
End reading.

(** The options of the parts a compaction writes to a level. *)
Definition output_for (opts : ShardOptions) (level : Z) : compactionOutputOptions :=
  let output := outputOptionsForLevel (so_Compaction opts) level in
  mkOutputOptions
    (if oo_maxOutputPartBytes output <=? 0 then cp_MaxOutputPartBytes (so_Compaction opts) else oo_maxOutputPartBytes output)
    (if negb (compressionConfigured (oo_compression output)) then so_Compression opts else oo_compression output).
(** No series is so large that it would be cut into several groups. *)
Definition unsplit (schema : Z * Z -> Z) (opts : ShardOptions) (U : contents) : Prop := forall level id columns,
  series_group id columns -> Forall (proper_column schema U) columns ->
  concat (map (fun group => splitSeriesSampleWindows group maxCompactionSeriesSamples)
            (splitLargeSeriesColumns columns (oo_maxOutputPartBytes (output_for opts level)))) = [columns].

Lemma Forall2_app_inv_drawn schema U a b c : drawn schema U (a ++ b ++ c) -> drawn schema U b.
Proof.
  intros [(ids & Hs & HF) Hc]. apply Forall2_app_inv_r in HF as (i1 & i2 & H1 & HF & ->).
  apply Forall2_app_inv_r in HF as (i3 & i4 & H3 & H4 & ->). apply Forall_app in Hc as [_ Hc]. apply Forall_app in Hc as [Hc _].
  split; [|done]. exists i3. split; [|done]. apply StronglySorted_app_1_r in Hs. by apply StronglySorted_app_1_l in Hs.
Qed.
Lemma drawn_snoc schema U gs id g : drawn schema U gs -> series_group id g -> Forall (proper_column schema U) g ->
  (forall c, c ∈ concat gs -> cd_SeriesID c < id) -> drawn schema U (gs ++ [g]).
Proof.
  intros [(ids & Hs & HF) Hc] Hg Hp Hlt. split; [|by apply Forall_app; split; [|constructor]].
  exists (ids ++ [id]). split; [|by apply Forall2_app; [|constructor]].
  apply StronglySorted_app_2; [|done|repeat constructor]. intros i j Hi ->%list_elem_of_singleton.
  apply list_elem_of_lookup in Hi as [n Hn]. destruct (Forall2_lookup_l _ _ _ _ _ HF Hn) as (g' & Hg' & Hne & Hid & _).
  destruct g' as [|c g']; [done|]. apply Forall_cons in Hid as [<- _]. apply Hlt. apply elem_of_concat. exists (c :: g').
  split; [left|by eapply list_elem_of_lookup_2].
Qed.
Lemma drawn_nil schema U : drawn schema U [].
Proof. split; [|constructor]. exists []. split; constructor. Qed.

Section merging.
  Context {W D P X B : Type} `{GoRuntimeLaws} `{WalLaws W} (schema : Z * Z -> Z) `{PartLaws schema D P X B}.
  Context (opts : ShardOptions) (U : contents) (HU : universe schema opts U) (sound : Prop).
  Context (Hstorable : forall wopts gs, shard_writes opts wopts -> drawn schema U gs -> gs <> [] -> pd_storable wopts gs).
  Context (Hunsplit : unsplit schema opts U) (Hquery : pd_query (rangeQuery ∅ ∅ (so_Start opts) (so_End opts))).
  Abbreviation Shard := (Shard W D P).
  Abbreviation outState := (outState (W := W) (D := D) (P := P) (X := X)).
  Abbreviation data_inv := (data_inv schema opts U).
  Abbreviation drained := (drained schema opts U sound).
  Abbreviation flushed := (flushed schema opts U sound).

(** ** What a compaction leaves alone: everything older than its own parts *)
Definition older (base : Shard) (p : P) : Prop := forall n, next_id (sh_nextPart base) <= n -> other (partID n) p.
Definition older_path (base : Shard) (path : bytes) : Prop := forall n, next_id (sh_nextPart base) <= n -> other_path (partID n) path.
Abbreviation beside base := (framed (older base) (older_path base) base).
Definition own_meta (base s : Shard) (meta : PartMeta) : Prop :=
  exists n, next_id (sh_nextPart base) <= n < sh_nextPart s /\ pm_ID meta = partID n /\ pm_Path meta = pd_path (pm_ID meta).

Lemma serves_older base stored wp wt : serves opts sound base stored wp wt ->
  (forall p, p ∈ sh_parts base -> older base p) /\
  (forall meta, meta ∈ mf_Parts (sh_manifest base) -> older_path base (pm_Path meta)).
Proof.
  intros Hs. split.
  - intros p Hp n Hn. by eapply (serves_others schema opts sound).
  - intros meta Hm n Hn. by eapply (serves_others schema opts sound).
Qed.
Lemma own_meta_base base s meta : own_meta base s meta -> baseName (pm_Path meta) = pm_ID meta.
Proof. intros (n & _ & Eid & ->). rewrite Eid. apply (part_path_base schema). Qed.
Lemma older_own base s meta p : own_meta base s meta -> older base p ->
  pm_ID (pr_Meta p) <> pm_ID meta /\ baseName (pm_Path (pr_Meta p)) <> baseName (pm_Path meta).
Proof.
  intros Hm Hp. rewrite (own_meta_base base s meta Hm). destruct Hm as (n & Hn & -> & _). destruct (Hp n ltac:(lia)). done.
Qed.
Lemma older_path_own base s meta path : own_meta base s meta -> older_path base path -> baseName path <> baseName (pm_Path meta).
Proof. intros Hm Hp. rewrite (own_meta_base base s meta Hm). destruct Hm as (n & Hn & -> & _). by apply Hp; lia. Qed.

(** ** The state of the output *)
Record output_base (base : Shard) (level : Z) (st : outState) (outs : list (list (list ColumnData))) : Prop := {
  ou_beside : beside base st.1;
  ou_opts : sh_opts base = opts;
  ou_base : 0 <= sh_nextPart base;
  ou_level : out_opts st.2 = output_for opts level;
  ou_metas : Forall (own_meta base st.1) (out_metas st.2);
  ou_parts : pr_Meta <$> out_parts st.2 = out_metas st.2;
  ou_stored : parts_inv (sh_disk st.1) (out_metas st.2) (sh_nextPart st.1) (concat (A := ColumnData) <$> outs);
  ou_handles : Forall2 (pd_open (sh_disk st.1)) (out_parts st.2) (concat (A := ColumnData) <$> outs);
}.
Record output_inv (base : Shard) (level : Z) (st : outState) (outs : list (list (list ColumnData))) (cur : list (list ColumnData)) : Prop := {
  ou_output :> output_base base level st outs;
  ou_drawn : drawn schema U (concat outs ++ cur);
  ou_writer : match out_writer st.2 with
              | None => cur = []
              | Some x => exists n wopts, cur <> [] /\ next_id (sh_nextPart base) <= n < sh_nextPart st.1 /\
                  (forall meta, meta ∈ out_metas st.2 -> pm_ID meta <> partID n) /\ shard_writes opts wopts /\
                  pd_writing (sh_disk st.1) x (out_level st.2) (partID n) wopts cur
              end;
}.
(** After a failure only the cleanup matters. *)
Record output_failed (base : Shard) (st : outState) : Prop := {
  of_beside : beside base st.1;
  of_metas : Forall (own_meta base st.1) (out_metas st.2);
  of_parts : pr_Meta <$> out_parts st.2 = out_metas st.2;
}.
Lemma output_base_failed base level st outs : output_base base level st outs -> output_failed base st.
Proof. intros []. by split. Qed.
Lemma output_inv_failed base level st outs cur : output_inv base level st outs cur -> output_failed base st.
Proof. intros [Ho _ _]. by eapply output_base_failed. Qed.
Lemma own_meta_mono base s s' meta : sh_nextPart s <= sh_nextPart s' -> own_meta base s meta -> own_meta base s' meta.
Proof. intros Hle (n & Hn & Hid). exists n. split; [lia|done]. Qed.
Lemma failed_framed base s s' o : output_failed base (s, o) -> framed (older base) (older_path base) s s' -> output_failed base (s', o).
Proof.
  intros [Hb Hm Hp] Hf. split; simpl in *; [by eapply framed_trans| |done]. eapply Forall_impl; [exact Hm|].
  intros meta. apply own_meta_mono. apply Hf.
Qed.
Lemma output_base_framed base level s s' o outs : output_base base level (s, o) outs ->
  framed all all s s' -> output_base base level (s', o) outs.
Proof.
  intros [Hb Ho H0b Hl Hm Hp Hst Hha] Hf. pose proof (fr_next _ _ _ _ Hf) as Hn.
  split; simpl in *; try done.
  - eapply framed_trans; [exact Hb|]. by eapply framed_weaken; [..|exact Hf].
  - eapply Forall_impl; [exact Hm|]. intros meta. by apply own_meta_mono.
  - eapply (parts_inv_mono all all); [done|apply Hf|done|done].
  - eapply (handles_mono all all); [done|apply Hf|done].
Qed.
Lemma output_base_writer base level s o outs x bytes : output_base base level (s, o) outs ->
  output_base base level (s, mkOutput (out_level o) (out_opts o) x bytes (out_parts o) (out_metas o)) outs.
Proof. by intros []. Qed.

Lemma ends_on_shard {A} (Q : A -> Shard -> Prop) E (Q' : A -> outState -> Prop) E' (m : step Shard A) st :
  ends Q E (m st.1) -> (forall a s, Q a s -> Q' a (s, st.2)) -> (forall e s, E e s -> E' e (s, st.2)) -> ends Q' E' (on_shard m st).
Proof. unfold on_shard. destruct (m st.1) as [[| |] s]; simpl; auto. Qed.

Lemma own_away base s meta m : own_meta base s meta -> pm_ID meta <> partID m -> away (partID m) (pm_Path meta).
Proof.
  intros (n & _ & Eid & ->) Hne E. apply Hne. rewrite Eid in *. rewrite <- (part_path_base schema n), <- (part_path_base schema m).
  by rewrite E.
Qed.
Lemma beside_away base s s' n : next_id (sh_nextPart base) <= n -> beside base s -> framed all (away (partID n)) s s' -> beside base s'.
Proof.
  intros Hn Hb Hf. eapply framed_trans; [exact Hb|]. eapply framed_weaken; [..|exact Hf]; [done|].
  intros path Hp. by apply (away_other schema), Hp.
Qed.

(** ** Closing the current part *)
Lemma closeCurrent_spec base level st outs cur : output_inv base level st outs cur ->
  ends (fun _ st' => exists outs', output_inv base level st' outs' [] /\ concat outs' = concat outs ++ cur)
       (fun _ => output_failed base) (closeCurrent st).
Proof.
  intros Hi. unfold closeCurrent. apply ends_bind.
  change (ends ?Q ?E (out_gets out_writer st)) with (Q (out_writer st.2) st). cbv beta.
  pose proof (ou_writer _ _ _ _ _ Hi) as Hw. destruct (out_writer st.2) as [x|] eqn:Ew.
  2: { subst cur. apply ends_ret. exists outs. by rewrite app_nil_r. }
  destruct Hw as (n & wopts & Hne & Hn & Hids & Hwo & Hx). destruct st as [s o]. simpl in *.
  assert (drawn schema U cur) as Hdc.
  { apply (Forall2_app_inv_drawn schema U (concat outs) cur []). rewrite app_nil_r. apply Hi. }
  assert (forall d, keeps all (fun path => path <> pd_path (partID n)) (sh_disk s) d -> pd_manifest d = pd_manifest (sh_disk s) ->
    framed all (away (partID n)) s (set_disk d s)) as Hfr by (intros d Hk Hm; by apply framed_disk).
  assert (forall o' s', framed all (away (partID n)) s s' -> out_metas o' = out_metas o -> out_parts o' = out_parts o ->
    output_failed base (s', o')) as Hfail.
  { intros o' s' Hf Em Ep. split; simpl; rewrite ?Em, ?Ep; [by apply (beside_away base s s' n); [lia|apply Hi|]| |apply Hi].
    eapply Forall_impl; [apply Hi|]. intros meta. apply own_meta_mono. apply Hf. }
  apply ends_bind, ends_try. eapply ends_on_shard; simpl.
  { eapply (ends_on_disk _ _ (fun meta s' => framed all (away (partID n)) s s' /\ sh_nextPart s' = sh_nextPart s /\ pm_ID meta = partID n /\
      pm_Path meta = pd_path (partID n) /\ pd_part (sh_disk s') (pd_path (partID n)) meta (concat cur))
      (fun _ s' => framed all (away (partID n)) s s')); [by apply (pw_Close_spec (schema := schema) _ _ _ _ _ _ Hx), Hstorable|..]; cbn beta.
    - intros meta d (Hk & Hm & Eid & _ & Ep & Hpd). split_and!; try done; by apply Hfr.
    - intros e d (Hk & Hm). by apply Hfr. }
  2: { intros e s1 Hf. by apply Hfail. }
  intros meta s1 (Hf & En & Eid & Ep & Hpd). apply ends_bind. cbn [ends set_writer fst snd]. apply ends_bind. eapply ends_on_shard; simpl.
  { eapply (ends_on_disk _ _ (fun p s' => (exists d, s' = set_disk d s1 /\ unchanged (sh_disk s1) d) /\ pd_open (sh_disk s') p (concat cur) /\ pr_Meta p = meta)
      (fun _ s' => exists d, s' = set_disk d s1 /\ unchanged (sh_disk s1) d)).
    - apply (pt_OpenPartTrusted_spec (schema := schema)). rewrite Ep. exact Hpd.
    - intros p d (Hu & Ho & Em). split_and!; [by eauto|done|done].
    - intros e d (Hu & _). by eauto. }
  2: { intros e s2 (d & -> & Hu). apply Hfail; [|done|done]. eapply framed_trans; [exact Hf|by apply framed_unchanged]. }
  intros p s2 ((d & -> & Hu) & Hopen & Emeta). simpl in Hopen.
  assert (framed all (away (partID n)) s (set_disk d s1)) as Hf2 by (eapply framed_trans; [exact Hf|by apply framed_unchanged]).
  destruct (Hfail (mkOutput (out_level o) (out_opts o) None 0 (out_parts o) (out_metas o)) (set_disk d s1) Hf2 eq_refl eq_refl) as [Hb' Hm' Hp'].
  destruct Hi as [[Hb Ho H0b Hl Hm Hp Hst Hha] Hdr _]. simpl in *. exists (outs ++ [cur]). split; [|rewrite concat_app; simpl; by rewrite app_nil_r].
  assert (own_meta base (set_disk d s1) meta) as Hown.
  { exists n. change (sh_nextPart (set_disk d s1)) with (sh_nextPart s1). rewrite En. split; [lia|]. by rewrite Eid. }
  split; [split; simpl; try done| |done].
  - by apply Forall_app; split; [|constructor].
  - rewrite fmap_app. simpl. by rewrite Hp, Emeta.
  - rewrite fmap_app. apply parts_inv_app.
    + eapply parts_inv_mono; [|exact (fr_disk _ _ _ _ Hf2)| |exact Hst]; [|by rewrite <- En]. intros m Hin.
      eapply own_away; [by apply (proj1 (Forall_forall _ _) Hm)|by apply Hids].
    + split; simpl.
      * constructor; [|constructor]. rewrite Ep. by apply (kp_part _ _ _ _ (proj1 Hu)).
      * constructor; [|constructor]. by rewrite Ep, Eid.
      * apply NoDup_singleton.
      * constructor; [|constructor]. exists n. rewrite En. split; [|done].
        unfold next_id in Hn. destruct (sh_nextPart base =? 0) eqn:E0; [lia|]. apply Z.eqb_neq in E0. lia.
      * rewrite En. apply Hst.
    + intros m m' Hin ->%list_elem_of_singleton. rewrite Eid. by apply Hids.
  - rewrite fmap_app. apply Forall2_app; [|by constructor]. eapply (handles_mono all); [done|exact (fr_disk _ _ _ _ Hf2)|done].
  - rewrite concat_app. simpl. by rewrite !app_nil_r.
Qed.

(** ** Adding a series *)
Definition grown (base : Shard) (level : Z) (done_ : list (list ColumnData)) (st : outState) : Prop :=
  exists outs cur, output_inv base level st outs cur /\ concat outs ++ cur = done_.
Lemma next_id_mono a b : a <= b -> 0 <= b -> next_id a <= next_id b.
Proof. unfold next_id. intros Hab Hb. zcase (a =? 0); zcase (b =? 0); lia. Qed.
Lemma grown_framed base level gs s s' o : grown base level gs (s, o) -> framed all all s s' -> grown base level gs (s', o).
Proof.
  intros (outs & cur & [Hb Hdr Hw] & E) Hf. exists outs, cur. split; [|done].
  split; [by eapply output_base_framed|done|]. simpl in *. destruct (out_writer o) as [x|]; [|done].
  destruct Hw as (n & wopts & H1' & H2' & H3' & H4' & H5'). exists n, wopts. pose proof (fr_next _ _ _ _ Hf).
  split_and!; [done|lia|lia|done|done|]. by apply (kp_writing _ _ _ _ (fr_disk _ _ _ _ Hf)).
Qed.
Lemma grown_failed base level done_ st : grown base level done_ st -> output_failed base st.
Proof. intros (outs & cur & Hi & _). by eapply output_inv_failed. Qed.

(** The group goes to a writer that has the groups [cur]. *)
Lemma addToWriter base level s o outs cur x n wopts g bytes : output_base base level (s, o) outs ->
  next_id (sh_nextPart base) <= n < sh_nextPart s -> (forall meta, meta ∈ out_metas o -> pm_ID meta <> partID n) ->
  shard_writes opts wopts -> pd_writing (sh_disk s) x (out_level o) (partID n) wopts cur ->
  drawn schema U (concat outs ++ cur ++ [g]) ->
  ends (fun _ => grown base level (concat outs ++ cur ++ [g])) (fun _ => output_failed base)
    ((x ← on_shard (on_disk (pw_AddSeries x g)); set_writer (Some x) bytes) (s, o)).
Proof.
  intros Hi Hn Hids Hwo Hx Hdr. apply ends_bind. eapply ends_on_shard; simpl.
  { eapply (ends_on_disk _ _ (fun x' s' => (exists d, s' = set_disk d s /\ unchanged (sh_disk s) d) /\
        pd_writing (sh_disk s') x' (out_level o) (partID n) wopts (cur ++ [g]))
      (fun _ s' => exists d, s' = set_disk d s /\ unchanged (sh_disk s) d)); [by apply pw_AddSeries_spec|..].
    - intros x' d [Hu Hx']. split; [by eauto|done].
    - intros e d Hu. by eauto. }
  - intros x' s' [(d & -> & Hu) Hx']. exists outs, (cur ++ [g]). split; [|done].
    assert (framed all all s (set_disk d s)) as Hf by by apply framed_unchanged.
    split; [by apply output_base_writer, (output_base_framed base level s)|done|].
    simpl. exists n, wopts. split_and!; try done; try lia. by destruct cur.
  - intros e s' (d & -> & Hu). eapply failed_framed; [by eapply output_base_failed|by apply framed_unchanged].
Qed.

Lemma writeGroup_spec base level st done_ id g bytes : grown base level done_ st -> series_group id g ->
  Forall (proper_column schema U) g -> (forall c, c ∈ concat done_ -> cd_SeriesID c < id) ->
  ends (fun _ => grown base level (done_ ++ [g])) (fun _ => output_failed base) (writeGroup g bytes st).
Proof.
  intros Hgr Hg Hp Hlt. unfold writeGroup. apply ends_bind.
  change (ends ?Q ?E (out_gets ?f st)) with (Q (f st.2) st). cbv beta. apply ends_bind.
  assert (ends (fun _ => grown base level done_) (fun _ => output_failed base)
    ((if shouldRoll st.2 bytes : bool then closeCurrent else mret tt) st)) as Hroll.
  { destruct (shouldRoll st.2 bytes); [|by apply ends_ret]. destruct Hgr as (outs & cur & Hi & <-).
    eapply ends_weaken; [by apply closeCurrent_spec| |done]. intros ? st' (outs' & Hi' & E). exists outs', [].
    split; [done|]. by rewrite app_nil_r. }
  eapply ends_weaken; [exact Hroll| |done]. clear Hroll Hgr st. intros _ [s o] (outs & cur & Hi & <-).
  apply ends_bind. change (ends ?Q ?E (out_gets ?f (s, o))) with (Q (f o) (s, o)). cbv beta.
  pose proof (ou_drawn _ _ _ _ _ Hi) as Hdr. pose proof (drawn_snoc _ _ _ _ _ Hdr Hg Hp Hlt) as Hdr'.
  rewrite <- (assoc_L (++)) in Hdr' |- *. apply ends_bind.
  pose proof (ou_writer _ _ _ _ _ Hi) as Hw. simpl in Hw. destruct (out_writer o) as [x|] eqn:Ew.
  - apply ends_ret. destruct Hw as (n & wopts & _ & Hn & Hids & Hwo & Hx). eapply addToWriter; [apply Hi|done..].
  - subst cur. set (n := next_id (sh_nextPart s)). set (s1 := set_nextPart (n + 1) s).
    assert (framed all all s s1) as Hf1 by apply framed_next.
    pose proof (output_base_framed _ _ _ _ _ _ (ou_output _ _ _ _ _ Hi) Hf1) as Hi1.
    pose proof (di_next _ _ _ _ (ou_stored _ _ _ _ Hi)) as Hnn. simpl in Hnn.
    apply ends_bind. change (ends ?Q ?E (on_shard nextPartID (s, o))) with (Q (partID n) (s1, o)). cbv beta.
    apply ends_bind. change (ends ?Q ?E (on_shard (gets ?f) (s1, o))) with (Q (f s1) (s1, o)). cbv beta.
    apply ends_bind. eapply ends_on_shard; simpl.
    { eapply (ends_on_disk _ _ (fun x s' => (exists d, s' = set_disk d s1 /\ unchanged (sh_disk s1) d) /\
          pd_writing (sh_disk s') x (out_level o) (partID n) (compactWriteOptions (out_opts o) s1) [])
        (fun _ s' => exists d, s' = set_disk d s1 /\ unchanged (sh_disk s1) d)); [by apply pt_NewWriter_spec|..].
      - intros x d [Hu Hx]. split; [by eauto|done].
      - intros e d Hu. by eauto. }
    2: { intros e s' (d & -> & Hu). eapply failed_framed; [by eapply output_base_failed|by apply framed_unchanged]. }
    intros x s' [(d & -> & Hu) Hx]. apply (addToWriter base level (set_disk d s1) _ outs [] x n (compactWriteOptions (out_opts o) s1)); simpl.
    + by apply output_base_writer, (output_base_framed base level s1), framed_unchanged.
    + split; [|lia]. apply next_id_mono; [|done]. apply (fr_next _ _ _ _ (ou_beside _ _ _ _ Hi)).
    + intros meta Hm. pose proof (proj1 (Forall_forall _ _) (ou_metas _ _ _ _ Hi) meta Hm) as (m & Hmn & -> & _).
      pose proof (ou_base _ _ _ _ Hi). simpl in Hmn. intros E. apply partID_inj in E; unfold n, next_id in *; repeat case_match; lia.
    + right. exists level. pose proof (ou_level _ _ _ _ Hi) as El. simpl in El. by rewrite El.
    + done.
    + done.
Qed.

Lemma addSeriesGroup_spec base level st done_ id g : grown base level done_ st -> series_group id g ->
  Forall (proper_column schema U) g -> (forall c, c ∈ concat done_ -> cd_SeriesID c < id) ->
  ends (fun _ => grown base level (done_ ++ [g])) (fun _ => output_failed base) (addSeriesGroup g st).
Proof.
  intros Hgr Hg Hp Hlt. destruct st as [s o]. unfold addSeriesGroup. apply ends_bind.
  eapply ends_on_shard; [apply (stable_reserveMemory all all s storageMemoryCompaction _ s (framed_refl _ _ _))|..]; simpl.
  - intros r s1 Hf1. apply ends_bind, ends_try.
    eapply ends_weaken; [eapply writeGroup_spec; [by eapply grown_framed|done..]|..]; simpl.
    + intros ? [s2 o2] Hg2. apply grown_framed with s2; [done|]. apply framed_memory.
    + intros e [s2 o2] Hf2. eapply failed_framed; [exact Hf2|]. apply framed_memory.
  - intros e s1 Hf1. eapply failed_framed; [by eapply grown_failed|]. by eapply framed_weaken; [..|exact Hf1].
Qed.
Lemma addSeries_spec base level st done_ id columns : grown base level done_ st -> columns = [] \/ series_group id columns ->
  Forall (proper_column schema U) columns -> (forall c, c ∈ concat done_ -> cd_SeriesID c < id) ->
  ends (fun _ => grown base level (done_ ++ (if decide (columns = []) then [] else [columns]))) (fun _ => output_failed base) (addSeries columns st).
Proof.
  intros Hgr Hg Hp Hlt. unfold addSeries. destruct (decide (columns = [])) as [->|Hne].
  { apply ends_ret. by rewrite app_nil_r. }
  destruct Hg as [?|Hg]; [done|].
  assert (len columns =? 0 = false) as -> by (destruct columns; [done|]; apply Z.eqb_neq; unfold len; simpl; lia).
  apply ends_bind. change (ends ?Q ?E (out_gets out_opts st)) with (Q (out_opts st.2) st). cbv beta.
  destruct Hgr as (outs & cur & Hi & E). rewrite (ou_level _ _ _ _ Hi), (Hunsplit level id columns Hg Hp).
  cbn [addGroups]. apply ends_bind. eapply ends_weaken; [eapply (addSeriesGroup_spec base level st done_ id); [by exists outs, cur|done..]| |done].
  intros ? st' Hgr'. by apply ends_ret.
Qed.

(** ** One series *)
Lemma windowed_selects id k : selects (windowed_by (so_Start opts) (so_End opts) id) k = true <-> k.1 = id.
Proof.
  unfold selects, windowed_by, containsSeries, containsField. simpl. rewrite (bool_decide_false ({[id]} = ∅)) by set_solver.
  rewrite (bool_decide_true (∅ = ∅)) by done. rewrite andb_true_r, bool_decide_eq_true. set_solver.
Qed.
Lemma series_answer V id columns : within V U -> answers schema (windowed_by (so_Start opts) (so_End opts) id) V columns ->
  (columns = [] \/ series_group id columns) /\ Forall (proper_column schema U) columns /\
  (forall c, c ∈ columns -> cd_SeriesID c = id) /\
  (forall k, k.1 = id -> agree (of_column k columns) (V k)) /\ within (fun k => of_column k columns) V.
Proof.
  intros HV Ha. assert (forall c, c ∈ columns -> cd_SeriesID c = id) as Hid.
  { intros c Hc. destruct (an_column _ _ _ _ Ha c Hc) as (Hsel & _). by apply windowed_selects in Hsel. }
  split_and!.
  - destruct columns as [|c cs] eqn:E; [by left|]. right. split_and!; [done|apply Forall_forall; exact Hid|apply Ha].
  - apply Forall_forall. intros c Hc. destruct (an_column _ _ _ _ Ha c Hc) as (_ & Hft & Hne & Hr). split_and!; [done..|apply Hr|].
    apply Forall_forall. intros x Hx. apply (rs_sound _ _ Hr) in Hx. apply list_elem_of_filter in Hx as [_ Hx]. by apply HV.
  - done.
  - intros k Hk. pose proof (answers_agree _ _ _ _ k Ha (proj2 (windowed_selects id k) Hk)) as Hag.
    change (in_window (windowed_by (so_Start opts) (so_End opts) id)) with (in_window (rangeQuery ∅ ∅ (so_Start opts) (so_End opts))) in Hag.
    rewrite window_all in Hag; [done|]. intros x Hx. by eapply un_window, HV.
  - eapply answer_within; [exact Ha|]. by intros k x.
Qed.

Section loop.
  Context (base : Shard) (level : Z) (inputs : list (compactionInput (P := P) (B := B))) (stored : list (list ColumnData)).
  Context (Hinputs : Forall2 (input_ok (so_Start opts) (so_End opts) (sh_disk base)) inputs stored).
  Context (Holder : forall input, input ∈ inputs -> older base (ci_part input)).
  Context (HcolsU : within (cols stored) U).
  Abbreviation V := (survivors (sh_tombstones base) (cols stored)).

Lemma inputs_beside s : beside base s -> Forall2 (input_ok (so_Start opts) (so_End opts) (sh_disk s)) inputs stored.
Proof.
  intros Hb. apply Forall2_same_length_lookup_2; [by eapply Forall2_length|]. intros i input c Hi Hc.
  destruct (Forall2_lookup_lr _ _ _ _ _ _ Hinputs Hi Hc) as [Hq Ho Hr]. split; [done| |].
  - apply (kp_open _ _ _ _ (fr_disk _ _ _ _ Hb)); [|done]. apply Holder. by eapply list_elem_of_lookup_2.
  - intros b Eb. by apply (kp_reader _ _ _ _ (fr_disk _ _ _ _ Hb)), Hr.
Qed.
Lemma queryCompactionSeries_spec s id : beside base s ->
  ends (fun columns s' => framed all all s s' /\ answers schema (windowed_by (so_Start opts) (so_End opts) id) V columns)
       (fun _ s' => framed all all s s') (queryCompactionSeries inputs id s).
Proof.
  intros Hb. unfold queryCompactionSeries. apply ends_bind.
  eapply ends_on_disk; [apply (queryInputs_spec schema _ _ Hquery inputs stored id), inputs_beside, Hb|..]; cbn beta.
  2: { intros e d [Hu _]. by apply framed_unchanged. }
  intros columns d [Hu (colss & -> & HF)]. apply ends_bind.
  destruct (merge_delete_answers schema _ _ _ (sh_tombstones base) HF) as (out & Em & Ha).
  eapply ends_pure; [exact Em|]. apply ends_bind, ends_gets, ends_ret. split; [by apply framed_unchanged|].
  assert (sh_tombstones (set_disk d s) = sh_tombstones base) as ->.
  { pose proof (fr_core _ _ _ _ Hb) as Hc. unfold core in Hc. by injection Hc. }
  eapply answers_ext; [|exact Ha]. intros k x _ _. rewrite !elem_of_survivors.
  assert (union_contents ((fun c k => of_column k c) <$> stored) k = cols stored k) as ->; [|done].
  unfold union_contents, cols. rewrite of_column_concat. f_equal. by rewrite <- list_fmap_compose.
Qed.

(** The groups that a walk over [ids] adds. *)
Record gathered (ids : list Z) (gs : list (list ColumnData)) : Prop := {
  ga_series c : c ∈ concat gs -> cd_SeriesID c ∈ ids;
  ga_agree k : k.1 ∈ ids -> agree (of_column k (concat gs)) (V k);
  ga_within : within (fun k => of_column k (concat gs)) V;
}.
Lemma gathered_cons id ids columns gs : Forall (Z.lt id) ids -> gathered ids gs ->
  (forall c, c ∈ columns -> cd_SeriesID c = id) -> (forall k, k.1 = id -> agree (of_column k columns) (V k)) ->
  within (fun k => of_column k columns) V ->
  gathered (id :: ids) ((if decide (columns = []) then [] else [columns]) ++ gs).
Proof.
  intros Hlt [Hs Ha Hw] Hid Hag Hwi.
  assert (concat ((if decide (columns = []) then [] else [columns]) ++ gs) = columns ++ concat gs) as E.
  { case_decide; [by subst|done]. }
  rewrite Forall_forall in Hlt. split; rewrite E.
  - intros c [Hc|Hc]%elem_of_app; [rewrite (Hid c Hc); by left|right; by apply Hs].
  - intros k Hk. rewrite of_column_app. apply elem_of_cons in Hk as [Hk|Hk].
    + rewrite (of_column_none k (concat gs)), app_nil_r; [by apply Hag|]. intros c Hc <-. apply Hs in Hc. simpl in Hk.
      rewrite Hk in Hc. specialize (Hlt _ Hc). lia.
    + rewrite (of_column_none k columns); [by apply Ha|]. intros c Hc <-. simpl in Hk. rewrite (Hid c Hc) in Hk.
      specialize (Hlt _ Hk). lia.
  - intros k x. rewrite of_column_app, elem_of_app. intros [?|?]; [by apply Hwi|by apply Hw].
Qed.

Lemma compactSeriesLoop_spec ids : StronglySorted Z.lt ids -> forall st done_, grown base level done_ st ->
  (forall c id, c ∈ concat done_ -> id ∈ ids -> cd_SeriesID c < id) ->
  ends (fun _ st' => exists gs, grown base level (done_ ++ gs) st' /\ gathered ids gs) (fun _ => output_failed base)
    (compactSeriesLoop inputs ids st).
Proof.
  induction 1 as [|id ids Hs IH Hlt]; intros [s o] done_ Hgr Hless; cbn [compactSeriesLoop].
  { apply ends_ret. exists []. rewrite app_nil_r. split; [done|]. split.
    - by intros c ?%elem_of_nil.
    - by intros k ?%elem_of_nil.
    - by intros k x ?%elem_of_nil. }
  assert (beside base s) as Hb by (destruct Hgr as (outs & cur & Hi & _); apply (ou_beside _ _ _ _ Hi)).
  apply ends_bind. eapply ends_on_shard; [by apply queryCompactionSeries_spec|..]; cbn beta.
  2: { intros e s1 Hf. eapply failed_framed; [by eapply grown_failed|]. by eapply framed_weaken; [..|exact Hf]. }
  intros columns s1 [Hf Ha]. destruct (series_answer V id columns) as (Hg & Hp & Hid & Hag & Hwi); [by apply survivors_within|done|].
  apply ends_bind. eapply ends_weaken; [eapply (addSeries_spec base level (s1, o) done_ id columns)| |done].
  - eapply grown_framed; [exact Hgr|done].
  - done.
  - done.
  - intros c Hc. apply (Hless c id Hc). left.
  - intros ? st2 Hgr2. eapply ends_weaken; [apply (IH st2 _ Hgr2)| |done].
    + intros c id' Hc Hid'. rewrite concat_app in Hc. apply elem_of_app in Hc as [Hc|Hc]; [apply (Hless c id' Hc); by right|].
      rewrite Forall_forall in Hlt. specialize (Hlt id' Hid'). case_decide; [by apply elem_of_nil in Hc|]. simpl in Hc. rewrite app_nil_r in Hc.
      rewrite (Hid c Hc). done.
    + intros ? st3 (gs & Hgr3 & Hga). exists ((if decide (columns = []) then [] else [columns]) ++ gs).
      split; [by rewrite (assoc_L (++))|]. by apply gathered_cons.
Qed.
End loop.

(** ** Cleaning up *)
Lemma surely_removeAll base metas : (forall p meta, meta ∈ metas -> older base p -> baseName (pm_Path (pr_Meta p)) <> baseName (pm_Path meta)) ->
  (forall path meta, meta ∈ metas -> older_path base path -> baseName path <> baseName (pm_Path meta)) ->
  surely (beside base) (removeAll metas).
Proof.
  induction metas as [|meta metas IH]; intros Ha Hh; cbn [removeAll]; [apply surely_ret|]. apply surely_bind.
  - apply surely_errOf, stable_on_disk, (keeping_remove schema).
    + intros p. apply Ha. left.
    + intros path. apply Hh. left.
  - intros ?. apply IH; intros ? m Hm; [apply Ha|apply Hh]; by right.
Qed.
Lemma surely_cleanupMetas base metas : (forall p meta, meta ∈ metas -> older base p -> baseName (pm_Path (pr_Meta p)) <> baseName (pm_Path meta)) ->
  (forall path meta, meta ∈ metas -> older_path base path -> baseName path <> baseName (pm_Path meta)) ->
  surely (beside base) (cleanupOutputMetas metas).
Proof.
  induction metas as [|meta metas IH]; intros Ha Hh; cbn [cleanupOutputMetas]; [apply surely_ret|]. apply surely_bind.
  - apply surely_errOf, (stable_removeUnreferenced schema).
    + intros p. apply Ha. left.
    + intros path. apply Hh. left.
  - intros ?. apply IH; intros ? m Hm; [apply Ha|apply Hh]; by right.
Qed.
Lemma own_parts base s metas (parts : list P) : Forall (own_meta base s) metas -> pr_Meta <$> parts = metas ->
  (forall p p', p ∈ parts -> older base p' -> pm_ID (pr_Meta p') <> pm_ID (pr_Meta p)) /\
  (forall p meta, meta ∈ metas -> older base p -> baseName (pm_Path (pr_Meta p)) <> baseName (pm_Path meta)) /\
  (forall path meta, meta ∈ metas -> older_path base path -> baseName path <> baseName (pm_Path meta)).
Proof.
  intros Hm Hp. rewrite Forall_forall in Hm. split_and!.
  - intros p p' Hin Ho. eapply older_own; [|exact Ho]. apply Hm. rewrite <- Hp. by apply list_elem_of_fmap_2.
  - intros p meta Hin Ho. by eapply older_own; [apply Hm|].
  - intros path meta Hin Ho. by eapply older_path_own; [apply Hm|].
Qed.
Lemma abortOutput_spec base st : output_failed base st ->
  ends (fun _ st' => beside base st'.1) (fun _ _ => False) (abortOutput st).
Proof.
  intros [Hb Hm Hp]. destruct (own_parts _ _ _ _ Hm Hp) as (H1' & H2' & H3'). destruct st as [s o]. simpl in *.
  unfold abortOutput. apply ends_bind. change (ends ?Q ?E (out_gets ?f (s, o))) with (Q (f o) (s, o)). cbv beta.
  apply ends_bind. eapply ends_on_shard; [by apply (surely_abortPartWriter schema (older base) (older_path base) base)| |done].
  intros ? s1 Hb1. apply ends_bind. eapply ends_on_shard; [by apply (surely_closeParts schema (older base) (older_path base) base)| |done].
  intros ? s2 Hb2. eapply ends_on_shard; [by apply (surely_removeAll base)| |done]. by intros ? s3 Hb3.
Qed.

(** ** Writing the outputs *)
Record rewritten (base s : Shard) (sel : list (list ColumnData)) (parts : list P) (metas : list PartMeta) (outs : list (list ColumnData)) : Prop := {
  rw_beside : beside base s;
  rw_metas : Forall (own_meta base s) metas;
  rw_parts : pr_Meta <$> parts = metas;
  rw_stored : parts_inv (sh_disk s) metas (sh_nextPart s) outs;
  rw_handles : Forall2 (pd_open (sh_disk s)) parts outs;
  rw_agrees : agrees (cols outs) (survivors (sh_tombstones base) (cols sel));
  rw_within : within (cols outs) (survivors (sh_tombstones base) (cols sel));
}.
Lemma concat_concat {A} (l : list (list (list A))) : concat (concat (A := A) <$> l) = concat (concat l).
Proof. induction l as [|x l IH]; [done|]. rewrite fmap_cons. simpl. by rewrite IH, concat_app. Qed.

Lemma writeOutputs_spec base level outLevel inputs sel ids : sh_opts base = opts -> 0 <= sh_nextPart base ->
  Forall2 (input_ok (so_Start opts) (so_End opts) (sh_disk base)) inputs sel ->
  (forall input, input ∈ inputs -> older base (ci_part input)) -> within (cols sel) U ->
  StronglySorted Z.lt ids -> (forall k x, x ∈ cols sel k -> k.1 ∈ ids) ->
  ends (fun r st' => exists outs, rewritten base st'.1 sel r.1 r.2 outs) (fun _ st' => beside base st'.1)
    (writeOutputs inputs ids (base, newCompactionOutput outLevel (output_for opts level))).
Proof.
  intros Ho Hnn Hin Hold HU' Hids Hcov. unfold writeOutputs. apply ends_bind, ends_try, ends_bind.
  assert (grown base level [] (base, newCompactionOutput (X := X) outLevel (output_for opts level))) as Hgr.
  { exists [], []. split; [|done]. split; [|apply drawn_nil|done]. split; simpl; try done.
    split; [constructor|constructor|constructor|constructor|done]. }
  eapply ends_weaken; [apply (compactSeriesLoop_spec base level inputs sel Hin Hold HU' ids Hids _ [] Hgr); by intros c id ?%elem_of_nil|..].
  2: { intros e st Hf. apply ends_bind. eapply ends_weaken; [exact (abortOutput_spec base st Hf)| |done]. by intros ? st' Hb. }
  intros ? st (gs & (outs & cur & Hi & E) & Hga). simpl in E.
  eapply ends_weaken; [by apply closeCurrent_spec|..].
  2: { intros e st' Hf. apply ends_bind. eapply ends_weaken; [exact (abortOutput_spec base st' Hf)| |done]. by intros ? st'' Hb. }
  intros ? st' (outs' & [[]] & E'). change (ends ?Q ?E (out_gets ?f st')) with (Q (f st'.2) st'). cbv beta. simpl.
  exists (concat (A := ColumnData) <$> outs').
  assert (forall k, cols (concat (A := ColumnData) <$> outs') k = of_column k (concat gs)) as Ecols.
  { intros k. unfold cols. by rewrite concat_concat, E', E. }
  split; try done.
  - intros k. rewrite Ecols. destruct (decide (k.1 ∈ ids)) as [Hk|Hk]; [by apply (ga_agree _ _ _ _ Hga)|].
    rewrite of_column_none; [|intros c Hc <-; by apply (ga_series _ _ _ _ Hga) in Hc].
    assert (survivors (sh_tombstones base) (cols sel) k = []) as ->; [|reflexivity].
    destruct (survivors (sh_tombstones base) (cols sel) k) as [|x xs] eqn:Es; [done|]. exfalso. apply Hk.
    assert (x ∈ survivors (sh_tombstones base) (cols sel) k) as Hx by (rewrite Es; left).
    apply elem_of_survivors in Hx as [Hx _]. by apply (Hcov k x).
  - intros k x. rewrite Ecols. apply (ga_within _ _ _ _ Hga).
Qed.

Lemma writeStreaming_spec s outLevel level candidates sel stored wp wt : serves opts sound s stored wp wt ->
  (forall p, p ∈ candidates -> p ∈ sh_parts s) -> Forall2 (pd_open (sh_disk s)) candidates sel -> within (cols sel) U ->
  ends (fun r s' => exists outs, rewritten s s' sel r.1 r.2 outs) (fun _ s' => beside s s')
    (writeStreamingCompactionOutputsLocked outLevel (output_for opts level) candidates s).
Proof.
  intros Hs Hsub Hopen HU'. destruct (serves_older _ _ _ _ Hs) as [Hold _].
  unfold writeStreamingCompactionOutputsLocked. apply ends_bind, ends_gets. rewrite (sv_opts _ _ _ _ _ _ Hs).
  apply ends_bind. eapply ends_on_disk; [apply (newInputs_spec schema _ _ Hquery), Hopen|..]; cbn beta.
  2: { intros e d [Hu _]. by apply framed_unchanged. }
  intros inputs d [Hu [Hin <-]]. apply ends_bind.
  assert (forall input, input ∈ inputs -> older s (ci_part input)) as Holder.
  { intros input Hi. apply Hold, Hsub. by apply list_elem_of_fmap_2. }
  unfold compactionSeriesIDs. eapply ends_on_disk.
  { apply (reads_bind (fun out _ => forall c x, (cd_SeriesID c ∈ [] \/ (c ∈ concat sel /\ x ∈ cd_Samples c /\ in_range (so_Start opts) (so_End opts) x = true)) ->
       cd_SeriesID c ∈ out) (fun out _ => StronglySorted Z.lt out /\ forall k x, x ∈ cols sel k -> k.1 ∈ out)).
    - apply (collectSeriesIDs_spec schema _ _ Hquery), Hin.
    - intros ids d' _ Hids. apply reads_ret. destruct (compactSortedSeriesIDs_spec ids) as [Hso Hel]. split; [done|].
      intros k x Hx. pose proof (HU' k x Hx) as Hw. apply elem_of_cols in Hx as (c & Hc & <- & Hx). apply Hel, (Hids c x). right.
      split_and!; [done|done|]. by eapply un_window. }
  2: { intros e d' [Hu' _]. eapply framed_trans; by apply framed_unchanged. }
  cbn beta. intros ids d' [Hu' [Hso Hcov]]. change (set_disk d' (set_disk d s)) with (set_disk d' s).
  assert (framed (older s) (older_path s) s (set_disk d' s)) as Hfs.
  { apply framed_unchanged. by eapply unchanged_trans. }
  pose proof (di_next _ _ _ _ (di_holds _ _ _ _ (sv_disk _ _ _ _ _ _ Hs))) as Hnn.
  zcase (len ids =? 0).
  - apply ends_ret. exists []. assert (ids = []) as -> by (destruct ids; [done|unfold len in *; simpl in *; lia]).
    assert (forall k, cols sel k = []) as Hnil.
    { intros k. destruct (cols sel k) as [|x xs] eqn:E0; [done|]. exfalso. assert (k.1 ∈ []) as Hk; [|by apply elem_of_nil in Hk].
      apply (Hcov k x). rewrite E0. left. }
    split; simpl; try done; [split; [constructor|constructor|constructor|constructor|done]|..].
    + intros k. unfold survivors. rewrite Hnil. reflexivity.
    + by intros k x ?%elem_of_nil.
  - pose proof (writeOutputs_spec (set_disk d' s) level outLevel inputs sel ids (sv_opts _ _ _ _ _ _ Hs) Hnn
      (inputs_unchanged _ _ _ _ _ _ Hu' Hin) Holder HU' Hso Hcov) as Hw.
    destruct (writeOutputs inputs ids _) as [r [s' o]]. destruct r as [a|e|p]; simpl in *; [|by eapply framed_trans|done].
    destruct Hw as (outs & []). exists outs. split; try done. by eapply framed_trans.
Qed.

(** ** The data of a compaction *)
Lemma survivors_twice ts ts' V : ts ⊆ ts' -> agrees (survivors ts' (survivors ts V)) (survivors ts' V).
Proof. intros Hs k. apply agree_same. intros x. rewrite !elem_of_survivors. split; [tauto|]. intros [Hx Hh]. split_and!; [done| |done]. auto. Qed.
Lemma data_compact stored sel kpt outs mw tombs wp wt now kept : data_inv stored mw tombs wp wt now kept ->
  stored ≡ₚ sel ++ kpt -> agrees (cols outs) (survivors tombs (cols sel)) -> within (cols outs) (survivors tombs (cols sel)) ->
  data_inv (kpt ++ outs) mw tombs wp wt now kept.
Proof.
  intros [] Hp Ha Hw. assert (forall k x, x ∈ cols stored k <-> x ∈ cols sel k \/ x ∈ cols kpt k) as Hel.
  { intros k x. by rewrite (cols_perm _ _ Hp), cols_app. }
  assert (forall ts V, tombs ⊆ ts -> agrees (survivors ts (both (cols stored) V)) (survivors ts (both (cols (kpt ++ outs)) V))) as Hag.
  { intros ts V Hts.
    assert (agrees (cols stored) (both (cols sel) (cols kpt))) as ->.
    { apply agrees_same. intros k x. rewrite Hel. unfold both. by rewrite elem_of_app. }
    assert (agrees (cols (kpt ++ outs)) (both (cols kpt) (survivors tombs (cols sel)))) as ->.
    { etrans; [|apply plus_agrees; [reflexivity|exact Ha]]. apply agrees_same. intros k x. rewrite cols_app. unfold both. by rewrite elem_of_app. }
    rewrite !survivors_plus, survivors_twice by done. apply plus_agrees; [|reflexivity]. apply agrees_same. intros k x.
    unfold both. rewrite !elem_of_app. tauto. }
  split; try done.
  - intros k x [Hx|Hx]%cols_app; apply dv_stored, Hel; [by right|left]. apply Hw, elem_of_survivors in Hx. tauto.
  - etrans; [exact dv_shows|]. by apply Hag.
  - etrans; [exact dv_recovers|]. by apply Hag.
Qed.
(** Nothing that is left is hidden by the tombstones: they can be forgotten. *)
Lemma data_forget stored tombs wp wt now kept : data_inv stored [] tombs wp wt now kept ->
  (forall k x t, x ∈ cols stored k -> t ∈ tombs -> ~ hides t k x) -> data_inv stored [] [] wp wt now kept.
Proof.
  intros [] Hf. split; try done; [by apply list_subseteq_nil|]. etrans; [exact dv_shows|]. symmetry. etrans; [apply survivors_nil|].
  symmetry. apply survivors_fresh. intros k s t [Hx|Hx]%elem_of_app; [by apply Hf|]. by apply elem_of_nil in Hx.
Qed.

(** ** Committing a compaction *)
Section commit.
  Context (candidates : list PartMeta).
  Abbreviation S := (partIDSet candidates).
Lemma elem_of_partIDSet id : id ∈ S <-> exists meta, meta ∈ candidates /\ pm_ID meta = id.
Proof.
  unfold partIDSet. rewrite elem_of_list_to_set. split.
  - intros (meta & <- & Hm)%list_elem_of_In%in_map_iff. exists meta. split; [by apply list_elem_of_In|done].
  - intros (meta & Hm & <-). apply list_elem_of_In, in_map, list_elem_of_In, Hm.
Qed.
Definition spared (p : P) : Prop := pm_ID (pr_Meta p) ∉ S /\ baseName (pm_Path (pr_Meta p)) ∉ S.
Definition spared_path (path : bytes) : Prop := baseName path ∉ S.
Lemma keptMetas_fmap (parts : list P) : keptMetas candidates (pr_Meta <$> parts) = pr_Meta <$> keptParts candidates parts.
Proof.
  unfold keptMetas, keptParts. induction parts as [|p parts IH]; [done|]. rewrite fmap_cons, !filter_cons.
  case_decide; by rewrite IH.
Qed.

Lemma parts_inv_sub (d : D) metas next stored (metas' : list PartMeta) stored' : parts_inv d metas next stored -> metas' `sublist_of` metas ->
  Forall2 (fun meta columns => pd_part d (pm_Path meta) meta columns) metas' stored' -> parts_inv d metas' next stored'.
Proof.
  intros [Hp Hpa Hnd Hid Hn] Hsub HF. assert (forall meta, meta ∈ metas' -> meta ∈ metas) as Hin by (intros m; by apply sublist_subseteq).
  rewrite Forall_forall in Hpa, Hid. split; try done.
  - apply Forall_forall. auto.
  - eapply sublist_NoDup; [exact Hnd|]. by apply fmap_sublist.
  - apply Forall_forall. auto.
Qed.

(** The shard after the manifest was replaced. *)
Lemma serves_compacted s s1 stored wp wt sel kpt newParts newMetas outs d next : serves opts sound s stored wp wt ->
  Forall2 (fun p c => pd_open (sh_disk s) p c /\ pd_part (sh_disk s) (pm_Path (pr_Meta p)) (pr_Meta p) c)
    (keptParts candidates (sh_parts s)) kpt ->
  rewritten s s1 sel newParts newMetas outs -> keeps all all (sh_disk s1) d -> pd_manifest d = next ->
  mf_Parts next = keptMetas candidates (mf_Parts (sh_manifest s)) ++ newMetas ->
  serves opts sound (set_parts (keptParts candidates (sh_parts s) ++ newParts) next (set_disk d s1)) (kpt ++ outs) wp wt.
Proof.
  intros Hs Hkpt [Hb Hm Hp Hst Hha _ _] Hk Hmf Hnext. destruct (serves_older _ _ _ _ Hs) as [Hold Holdp].
  pose proof (serves_framed _ _ _ _ _ _ _ _ _ Hold Holdp Hb Hs) as Hs1.
  assert (forall p, p ∈ keptParts candidates (sh_parts s) -> p ∈ sh_parts s) as Hsub.
  { intros p Hp'. unfold keptParts in Hp'. by apply list_elem_of_filter in Hp' as [_ ?]. }
  assert (keptMetas candidates (mf_Parts (sh_manifest s)) = pr_Meta <$> keptParts candidates (sh_parts s)) as Ekm.
  { by rewrite <- (sv_metas _ _ _ _ _ _ Hs), keptMetas_fmap. }
  assert (Forall2 (fun p c => pd_open (sh_disk s1) p c /\ pd_part (sh_disk s1) (pm_Path (pr_Meta p)) (pr_Meta p) c)
    (keptParts candidates (sh_parts s)) kpt) as Hkpt1.
  { apply Forall2_same_length_lookup_2; [by eapply Forall2_length|]. intros i p c Hi Hc.
    destruct (Forall2_lookup_lr _ _ _ _ _ _ Hkpt Hi Hc) as [Ho Hpd].
    assert (p ∈ sh_parts s) as Hin by (apply Hsub; by eapply list_elem_of_lookup_2).
    split; [by apply (kp_open _ _ _ _ (fr_disk _ _ _ _ Hb)); [apply Hold|]|].
    apply (kp_part _ _ _ _ (fr_disk _ _ _ _ Hb)); [|done]. apply Holdp. rewrite <- (sv_metas _ _ _ _ _ _ Hs). by apply list_elem_of_fmap_2. }
  destruct Hs1 as [Ho Hop Hw Hd Hme Hha1 Hso].
  assert (mf_Parts (sh_manifest s1) = mf_Parts (sh_manifest s)) as Emf.
  { pose proof (fr_core _ _ _ _ Hb) as Hc. unfold core in Hc. by injection Hc as _ _ _ _ -> _. }
  split; simpl; try done; rewrite ?Hnext, ?Ekm.
  - split; [|by rewrite Hmf, Hnext, Ekm]. eapply (parts_inv_mono all all (sh_disk s1)); [done|done|reflexivity|]. apply parts_inv_app; [|done|].
    + eapply parts_inv_sub; [apply Hd|..].
      * rewrite Emf, <- (sv_metas _ _ _ _ _ _ Hs). apply fmap_sublist, sublist_filter.
      * apply Forall2_fmap_l. eapply Forall2_impl; [exact Hkpt1|]. by intros p c [_ ?].
    + intros meta meta' Hin Hin'. apply list_elem_of_fmap in Hin as (p & -> & Hp').
      eapply older_own; [by apply (proj1 (Forall_forall _ _) Hm)|]. by apply Hold, Hsub.
  - by rewrite fmap_app, Hp.
  - eapply (handles_mono all all (sh_disk s1)); [done|done|]. apply Forall2_app; [|done].
    eapply Forall2_impl; [exact Hkpt1|]. by intros p c [? _].
  - intros Hsd. destruct (Hso Hsd). split; [|done]. by apply (kp_healthy _ _ _ _ Hk).
Qed.

Lemma surely_removeOld (base : Shard) metas : (forall meta, meta ∈ metas -> baseName (pm_Path meta) ∈ S) ->
  surely (framed spared spared_path base) (removeOldParts metas).
Proof.
  induction metas as [|meta metas IH]; intros Hm; cbn [removeOldParts]; [apply surely_ret|].
  assert (baseName (pm_Path meta) ∈ S) as Hin by (apply Hm; left). apply surely_bind.
  - apply surely_try, stable_on_disk, (keeping_remove schema).
    + intros p [_ Hp] E. apply Hp. by rewrite E.
    + intros path Hp E. apply Hp. by rewrite E.
  - intros r. apply surely_bind; [|intros; apply IH; intros m ?; apply Hm; by right].
    destruct r; [apply surely_recordIssue|apply surely_ret].
Qed.

(** After the manifest was replaced: the inputs are closed and removed, and
    tombstones that hide nothing any more are forgotten. *)
Lemma retire_spec s now kept stored wp wt selected had : serves opts sound s stored wp wt -> mem_holds schema s [] ->
  data_inv stored [] (sh_tombstones s) wp wt now kept ->
  (forall p, p ∈ sh_parts s -> spared p) -> (forall meta, meta ∈ mf_Parts (sh_manifest s) -> spared_path (pm_Path meta)) ->
  (forall p, p ∈ selected -> pm_ID (pr_Meta p) ∈ S) -> (forall meta, meta ∈ candidates -> baseName (pm_Path meta) ∈ S) ->
  (had = true -> forall k x t, x ∈ cols stored k -> t ∈ sh_tombstones s -> ~ hides t k x) ->
  ends (fun _ => flushed now kept) (fun _ => flushed now kept)
    ((closeErr ← closeParts selected;
      _ ← failIf closeErr;
      _ ← removeOldParts candidates;
      if had : bool then _ ← modify (set_tombstones []); on_wal wal_Checkpoint else mret tt) s).
Proof.
  intros Hs Hm Hd Hsp Hspp Hsel Hcand Hhad.
  assert (forall s', framed spared spared_path s s' -> flushed now kept s') as Hfl.
  { intros s' Hf. exists kept. split; [by left|]. eapply drained_framed; [by exists stored, wp, wt|exact Hf|done|done]. }
  apply ends_bind. eapply ends_weaken; [apply (surely_closeParts schema spared spared_path s)| |done].
  - intros p p' Hp [Hp' _] E. apply Hp'. rewrite E. by apply Hsel.
  - apply framed_refl.
  - intros e s1 Hf1. apply ends_bind, ends_failIf; [|by intros; apply Hfl]. apply ends_bind.
    eapply ends_weaken; [exact (surely_removeOld s candidates Hcand s1 Hf1)| |done]. intros ? s2 Hf2.
    destruct had; [|by apply ends_ret, Hfl]. specialize (Hhad eq_refl). apply ends_bind, ends_modify.
    eapply ends_weaken; [apply (checkpoint_spec schema opts U sound (set_tombstones [] s2) now kept)|..]; [|done|by intros ? ? [? _]..].
    exists stored, wp, wt. split_and!; [|by eapply mem_holds_framed in Hm; [|exact Hf2]; destruct Hm|by eapply data_forget].
    eapply serves_framed in Hs; [|exact Hsp|exact Hspp|exact Hf2]. by destruct Hs.
Qed.

Lemma resolveOptions_for (s : Shard) plan level : sh_opts s = opts -> pl_output plan = outputOptionsForLevel (so_Compaction opts) level ->
  resolveCompactionOutputOptions s (pl_output plan) = output_for opts level.
Proof. intros Ho ->. unfold resolveCompactionOutputOptions, output_for. by rewrite Ho. Qed.

Lemma preflight_spec plan (s : Shard) : ends (fun _ s' => framed all all s s') (fun _ s' => framed all all s s') (preflightCompactionDiskSpace plan s).
Proof.
  assert (stable (framed all all s) (preflightCompactionDiskSpace plan)) as Hp; [|apply Hp, framed_refl].
  unfold preflightCompactionDiskSpace. apply stable_bind; [apply stable_gets|]. intros copts. case_match; [apply stable_ret|].
  apply stable_bind; [|intros; case_match; [apply stable_ret|apply stable_fail]].
  apply stable_wrap, stable_on_disk, keeping_unchanged. intros d. apply (fs_AvailableBytes_spec (schema := schema)).
Qed.
End commit.

(** A plan that a shard may carry out: over parts of its manifest, over all of
    them when there are tombstones. *)
Record plan_ok (s : Shard) (plan : compactionPlan) : Prop := {
  po_candidates meta : meta ∈ pl_candidates plan -> meta ∈ mf_Parts (sh_manifest s);
  po_output : exists level, pl_output plan = outputOptionsForLevel (so_Compaction opts) level;
  po_all : sh_tombstones s <> [] -> forall meta, meta ∈ mf_Parts (sh_manifest s) -> meta ∈ pl_candidates plan;
}.

Lemma serves_stored s stored wp wt : serves opts sound s stored wp wt ->
  Forall2 (fun p c => pd_open (sh_disk s) p c /\ pd_part (sh_disk s) (pm_Path (pr_Meta p)) (pr_Meta p) c) (sh_parts s) stored.
Proof.
  intros Hs. apply Forall2_same_length_lookup_2; [eapply Forall2_length, Hs|]. intros i p c Hi Hc. split.
  - by eapply (Forall2_lookup_lr _ _ _ _ _ _ (sv_handles _ _ _ _ _ _ Hs)).
  - eapply (Forall2_lookup_lr _ _ _ _ _ _ (di_parts _ _ _ _ (di_holds _ _ _ _ (sv_disk _ _ _ _ _ _ Hs)))); [|done].
    rewrite <- (sv_metas _ _ _ _ _ _ Hs), list_lookup_fmap, Hi. done.
Qed.
Lemma serves_base s stored wp wt meta : serves opts sound s stored wp wt -> meta ∈ mf_Parts (sh_manifest s) ->
  baseName (pm_Path meta) = pm_ID meta.
Proof. intros Hs Hm. by eapply (old_part_id schema _ _ _ _ meta), (Z.le_refl (next_id (sh_nextPart s))); [apply (sv_disk _ _ _ _ _ _ Hs)|]. Qed.

(** The parts after a compaction are not among its inputs. *)
Lemma compacted_spared s s1 stored wp wt sel plan newParts newMetas outs p : serves opts sound s stored wp wt -> plan_ok s plan ->
  rewritten s s1 sel newParts newMetas outs -> p ∈ keptParts (pl_candidates plan) (sh_parts s) ++ newParts ->
  spared (pl_candidates plan) p.
Proof.
  intros Hs [Hcand _ _] Hrw [Hp|Hp]%elem_of_app.
  - unfold keptParts in Hp. apply list_elem_of_filter in Hp as [Hn Hp]. split; [done|].
    rewrite (serves_base s stored wp wt); [done|done|]. rewrite <- (sv_metas _ _ _ _ _ _ Hs). by apply list_elem_of_fmap_2.
  - assert (own_meta s s1 (pr_Meta p)) as Hown.
    { apply (proj1 (Forall_forall _ _) (rw_metas _ _ _ _ _ _ Hrw)). rewrite <- (rw_parts _ _ _ _ _ _ Hrw). by apply list_elem_of_fmap_2. }
    unfold spared. rewrite (own_meta_base _ _ _ Hown). destruct Hown as (n & Hn & -> & _).
    assert (partID n ∉ partIDSet (pl_candidates plan)); [|done]. intros (meta & Hm & E)%elem_of_partIDSet.
    destruct (old_part_id schema _ _ _ _ meta n (sv_disk _ _ _ _ _ _ Hs) (Hcand meta Hm)) as [? _]; [lia|done].
Qed.

(** The outputs are on disk. *)
Lemma install_spec s now kept plan stored wp wt sel kpt s1 newParts newMetas outs : serves opts sound s stored wp wt ->
  mem_holds schema s [] -> data_inv stored [] (sh_tombstones s) wp wt now kept -> plan_ok s plan ->
  Forall2 (fun p c => pd_open (sh_disk s) p c /\ pd_part (sh_disk s) (pm_Path (pr_Meta p)) (pr_Meta p) c)
    (keptParts (pl_candidates plan) (sh_parts s)) kpt ->
  stored ≡ₚ sel ++ kpt -> rewritten s s1 sel newParts newMetas outs ->
  let selected := selectedParts (pl_candidates plan) (sh_parts s) in
  ends (fun _ => flushed now kept) (fun _ => flushed now kept)
    ((kept ← gets (fun s => (keptParts (pl_candidates plan) (sh_parts s), keptMetas (pl_candidates plan) (mf_Parts (sh_manifest s))));
      next ← gets (fun s => nextManifest s (kept.2 ++ newMetas));
      _ ← orCleanup (on_disk (pt_WriteManifest next)) (cleanupCompactionOutputs newParts newMetas);
      oldParts ← gets sh_parts;
      _ ← modify (set_parts (kept.1 ++ newParts) next);
      closeErr ← closeParts (selectedParts (pl_candidates plan) oldParts);
      _ ← failIf closeErr;
      _ ← removeOldParts (pl_candidates plan);
      if 0 <? len (sh_tombstones s) then _ ← modify (set_tombstones []); on_wal wal_Checkpoint else mret tt) s1).
Proof.
  intros Hs Hm Hd Hpo Hkpt Hperm Hrw selected. destruct (serves_older _ _ _ _ Hs) as [Hold Holdp].
  pose proof (rw_beside _ _ _ _ _ _ Hrw) as Hb.
  assert (forall s', beside s s' -> flushed now kept s') as Hfl.
  { intros s' Hf. exists kept. split; [by left|]. eapply drained_framed; [by exists stored, wp, wt|exact Hf|done|done]. }
  assert (sh_parts s1 = sh_parts s /\ sh_manifest s1 = sh_manifest s /\ sh_tombstones s1 = sh_tombstones s) as (Ep & Em & Et).
  { pose proof (fr_core _ _ _ _ Hb) as Hc. unfold core in Hc. by injection Hc as _ _ _ -> -> ->. }
  apply ends_bind, ends_gets, ends_bind, ends_gets. rewrite Ep, Em. cbn [fst snd]. apply ends_bind, ends_orCleanup.
  eapply ends_on_disk; [apply (pt_WriteManifest_spec (schema := schema))|..]; cbn beta.
  2: { intros e d Hu. destruct (own_parts _ _ _ _ (rw_metas _ _ _ _ _ _ Hrw) (rw_parts _ _ _ _ _ _ Hrw)) as (H1' & H2' & H3').
       assert (surely (beside s) (cleanupCompactionOutputs newParts newMetas)) as Hc.
       { apply surely_bind; [by apply (surely_closeParts schema)|]. intros ?. by apply surely_cleanupMetas. }
       eapply ends_weaken; [apply Hc|by intros ? s' ?; apply Hfl|done]. eapply framed_trans; [exact Hb|by apply framed_unchanged]. }
  intros [] d [Hk Hmf]. apply ends_bind, ends_gets, ends_bind, ends_modify.
  pose proof (serves_compacted (pl_candidates plan) s s1 stored wp wt sel kpt newParts newMetas outs d _ Hs Hkpt Hrw Hk Hmf ltac:(by rewrite <- Em)) as Hs3.
  set (s3 := set_parts _ _ _) in *. change (sh_parts (set_disk d s1)) with (sh_parts s1). rewrite Ep. fold selected.
  apply (retire_spec (pl_candidates plan) s3 now kept (kpt ++ outs) wp wt).
  - done.
  - destruct (mem_holds_framed schema _ _ _ _ [] Hb Hm). by split.
  - change (sh_tombstones s3) with (sh_tombstones s1). rewrite Et. eapply data_compact; [exact Hd|exact Hperm|apply Hrw|apply Hrw].
  - intros p Hp. exact (compacted_spared _ _ _ _ _ _ _ _ _ _ p Hs Hpo Hrw Hp).
  - intros meta Hmeta. rewrite <- (sv_metas _ _ _ _ _ _ Hs3) in Hmeta. apply list_elem_of_fmap in Hmeta as (p & -> & Hp).
    by destruct (compacted_spared _ _ _ _ _ _ _ _ _ _ p Hs Hpo Hrw Hp).
  - intros p Hp. unfold selected, selectedParts in Hp. by apply list_elem_of_filter in Hp as [? _].
  - intros meta Hin. rewrite (serves_base s stored wp wt); [|done|by apply (po_candidates _ _ Hpo)]. apply elem_of_partIDSet. by exists meta.
  - intros Hhad k x t Hx Ht. apply Z.ltb_lt in Hhad. change (sh_tombstones s3) with (sh_tombstones s1) in Ht. rewrite Et in Ht.
    assert (keptParts (pl_candidates plan) (sh_parts s) = []) as Ek.
    { unfold keptParts. destruct (filter _ (sh_parts s)) as [|p ps] eqn:Ef; [done|]. exfalso.
      assert (p ∈ p :: ps) as Hp by left. rewrite <- Ef in Hp. apply list_elem_of_filter in Hp as [Hn Hp].
      assert (pr_Meta p ∈ mf_Parts (sh_manifest s)) as Hin.
      { rewrite <- (sv_metas _ _ _ _ _ _ Hs). by apply list_elem_of_fmap_2. }
      apply Hn, elem_of_partIDSet. exists (pr_Meta p). split; [|done]. apply (po_all _ _ Hpo); [|done].
      intros E. rewrite E in Hhad. done. }
    rewrite Ek in Hkpt. apply Forall2_nil_inv_l in Hkpt as ->. apply (rw_within _ _ _ _ _ _ Hrw), elem_of_survivors in Hx as [_ Hx]. by apply Hx.
Qed.

Lemma compactPartsLocked_spec s now kept plan : drained s now kept -> plan_ok s plan ->
  ends (fun _ => flushed now kept) (fun _ => flushed now kept) (compactPartsLocked plan s).
Proof.
  intros (stored & wp & wt & Hs & Hm & Hd) Hpo. destruct (po_output _ _ Hpo) as (level & Hout).
  pose proof (sv_opts _ _ _ _ _ _ Hs) as Ho.
  assert (flushed now kept s) as Hfl by (exists kept; split; [by left|by exists stored, wp, wt]).
  unfold compactPartsLocked. apply ends_bind, ends_gets, ends_bind, ends_gets, ends_bind, ends_gets.
  case_match; [by apply ends_ret|]. apply ends_bind.
  eapply ends_weaken; [apply preflight_spec| |intros e s' Hf; by eapply flushed_framed]. intros ? s1 Hf1.
  assert (sh_parts s1 = sh_parts s /\ sh_manifest s1 = sh_manifest s /\ sh_tombstones s1 = sh_tombstones s) as (Ep & Em & Et).
  { pose proof (fr_core _ _ _ _ Hf1) as Hc. unfold core in Hc. by injection Hc as _ _ _ -> -> ->. }
  rewrite (resolveOptions_for s plan level Ho Hout).
  assert (serves opts sound s1 stored wp wt) as Hs1 by by eapply serves_framed; [..|exact Hf1|].
  assert (mem_holds schema s1 []) as Hm1 by exact (mem_holds_framed schema _ _ _ _ [] Hf1 Hm).
  assert (data_inv stored [] (sh_tombstones s1) wp wt now kept) as Hd1 by by rewrite Et.
  assert (plan_ok s1 plan) as Hpo1 by (destruct Hpo; split; by rewrite ?Em, ?Et).
  rewrite <- Ep, <- Et. clear Hs Hm Hd Hfl Ho Hpo. 
  destruct (split_parts _ (fun p => pm_ID (pr_Meta p) ∈ partIDSet (pl_candidates plan)) _ _ (serves_stored _ _ _ _ Hs1))
    as (sel & kpt & Hsel & Hkpt & Hperm).
  assert (within (cols sel) U) as HselU.
  { intros k x Hx. apply (dv_stored _ _ _ _ _ _ _ _ _ _ Hd1), (cols_perm _ _ Hperm), cols_app. by left. }
  apply ends_bind. eapply ends_weaken; [eapply (writeStreaming_spec s1 _ level _ sel stored wp wt Hs1)|..].
  - intros p Hp. unfold selectedParts in Hp. by apply list_elem_of_filter in Hp as [_ ?].
  - eapply Forall2_impl; [exact Hsel|]. by intros p c [? _].
  - done.
  - intros [newParts newMetas] s2 (outs & Hrw). by eapply install_spec.
  - intros e s2 Hb. destruct (serves_older _ _ _ _ Hs1) as [Hold Holdp]. exists kept. split; [by left|].
    eapply drained_framed; [by exists stored, wp, wt|exact Hb|done|done].
Qed.
End merging.
