(* ===== verification/ShardCycle.v ===== *)
(** * The public operations of a shard

    Flushes with the compactions they start, full compactions and writes keep
    the invariant of the shard, whatever fails on the way. *)
From S2P Require Import Prelude Model WalRoundtrip WalLog SstValues Runtime Versions MemColumn MemCompact StoreSpec MemTable MemTheorems EngineMerge Tombstones QueryMerge SstMeta MemoryBudget EngineOptions Planner SstPack Ports Shard ShardCompact ShardScan ShardInv ShardOps ShardFlush ShardMerge.
From stdpp Require Import prelude strings list sorting gmap.
From Stdlib Require Import ZArith Lia.
#[local] Open Scope Z_scope.

Section cycle.
  Context {W D P X B : Type} `{GoRuntimeLaws} `{WalLaws W} (schema : Z * Z -> Z) `{PartLaws schema D P X B}.
  Context (opts : ShardOptions) (U : contents) (HU : universe schema opts U) (sound : Prop).
  Context (Hstorable : forall wopts gs, shard_writes opts wopts -> drawn schema U gs -> gs <> [] -> pd_storable wopts gs).
  Context (Hunsplit : unsplit schema opts U) (Hquery : pd_query (rangeQuery ∅ ∅ (so_Start opts) (so_End opts))).
  Abbreviation Shard := (Shard W D P).
  Abbreviation shard_inv := (shard_inv schema opts U sound).
  Abbreviation drained := (drained schema opts U sound).
  Abbreviation flushed := (flushed schema opts U sound).
  Abbreviation maintained := (maintained schema opts U sound).
  Abbreviation batch_ok := (batch_ok schema U).

Lemma flushed_trans now kept kept' s : kept' = kept \/ kept' = now -> flushed now kept' s -> flushed now kept s.
Proof. intros [->| ->] (k & [->| ->] & Hd); eexists; (split; [|exact Hd]); auto. Qed.
Lemma drained_calm s now kept : drained s now kept -> cp_Enabled (so_Compaction opts) = true -> sh_tombstones s = [].
Proof.
  intros (stored & wp & wt & _ & _ & []) He. specialize (dv_cascade He). subst wt. destruct (sh_tombstones s) as [|t ts]; [done|].
  exfalso. assert (t ∈ []) as Ht; [apply dv_tombs; left|by apply elem_of_nil in Ht].
Qed.
Lemma drained_opts s now kept : drained s now kept -> sh_opts s = opts.
Proof. intros (stored & wp & wt & Hs & _). apply Hs. Qed.

(** ** Compactions that a flush starts *)
Lemma cascadeLoop_spec steps : cp_Enabled (so_Compaction opts) = true -> forall s now kept, flushed now kept s ->
  ends (fun _ => flushed now kept) (fun _ => flushed now kept) (cascadeLoop steps s).
Proof.
  intros He. induction steps as [|steps IH]; intros s now kept Hfl; cbn [cascadeLoop]; [by apply ends_ret|].
  apply ends_bind. pose proof Hfl as (kept' & Hk & Hd). pose proof (drained_opts _ _ _ Hd) as Ho.
  destruct (nextCompactionPlan _ _ _ _) as [[plan|]|e|p] eqn:Ep; simpl; [|done|done|].
  2: { exfalso. by eapply (nextCompactionPlan_total (fs_directorySize (sh_disk s))); [|exact Ep]; apply (fs_directorySize_spec (schema := schema)). }
  assert (plan_ok opts s plan) as Hpo.
  { apply nextCompactionPlan_ok in Ep as (level & Hpf). split.
    - intros meta Hm. rewrite (pf_candidates _ _ _ _ Hpf) in Hm. by apply list_elem_of_filter in Hm as [_ ?].
    - exists (level + 1). by rewrite (pf_options _ _ _ _ Hpf), Ho.
    - rewrite (drained_calm s now kept' Hd He). done. }
  apply ends_bind.
  assert (ends (fun _ s' => framed all all s s') (fun _ _ => False) (startCompactionPlan (pl_candidateSignature plan) s)) as Hst.
  { unfold startCompactionPlan. destruct (sh_scheduler s) as [c|]; [|apply framed_refl]. destruct (sched_start _ c). apply framed_scheduler. }
  eapply ends_weaken; [exact Hst| |done]. intros started s1 Hf1.
  assert (flushed now kept s1) as Hfl0 by exact (flushed_framed schema opts U sound s s1 now kept Hfl Hf1).
  destruct started; cbn [negb]; [|exact Hfl0].
  assert (flushed now kept' s1) as Hfl1 by (eapply flushed_framed; [|exact Hf1]; exists kept'; auto).
  assert (drained s1 now kept') as Hd1 by (eapply drained_framed; [exact Hd|exact Hf1|done|done]).
  assert (plan_ok opts s1 plan) as Hpo1.
  { pose proof (fr_core _ _ _ _ Hf1) as Hc. unfold core in Hc. injection Hc as _ _ _ _ E5 E6. destruct Hpo. split; by rewrite ?E5, ?E6. }
  apply ends_bind, ends_orCleanup.
  eapply ends_weaken; [by eapply (compactPartsLocked_spec schema opts U HU sound Hstorable Hunsplit Hquery)|..].
  - intros ? s2 Hfl2. apply ends_bind. unfold finishCompactionPlan. apply ends_modify, IH.
    eapply flushed_trans; [exact Hk|]. eapply flushed_framed; [exact Hfl2|apply framed_scheduler].
  - intros e s2 Hfl2. unfold finishCompactionPlan. apply ends_modify. eapply flushed_trans; [exact Hk|].
    eapply flushed_framed; [exact Hfl2|apply framed_scheduler].
Qed.
Lemma runCascade_spec s now kept : cp_Enabled (so_Compaction opts) = true -> flushed now kept s ->
  ends (fun _ => flushed now kept) (fun _ => flushed now kept) (runCompactionCascadeLocked s).
Proof. intros He Hfl. unfold runCompactionCascadeLocked. apply ends_bind, ends_gets. by apply cascadeLoop_spec. Qed.

Lemma Flush_spec s now kept : shard_inv s now kept ->
  ends (fun _ => flushed now kept) (fun _ => maintained now kept) (Flush s).
Proof.
  intros Hs. unfold Flush. apply ends_bind. eapply ends_weaken; [by apply flushLocked_spec| |done].
  intros ? s1 Hfl. unfold maybeCompactLocked. apply ends_bind, ends_gets, ends_bind, ends_gets.
  pose proof Hfl as (kept' & Hk & Hd). pose proof (drained_opts _ _ _ Hd) as Ho. rewrite Ho.
  destruct (cp_Enabled (so_Compaction opts)) eqn:He; simpl; [|by apply ends_ret]. destruct (hasActiveReadersLocked s1); [by apply ends_ret|].
  eapply ends_weaken; [exact (runCascade_spec s1 now kept He Hfl)|done|]. intros e s2 Hf. by apply flushed_maintained.
Qed.

(** ** A full compaction *)
Lemma Compact_spec s now kept : shard_inv s now kept ->
  ends (fun _ => flushed now kept) (fun _ => maintained now kept) (Compact s).
Proof.
  intros Hs. unfold Compact. apply ends_bind. eapply ends_weaken; [by apply flushLocked_spec| |done].
  intros ? s1 Hfl. apply ends_bind, ends_gets. case_match; [by apply ends_ret|]. apply ends_bind, ends_gets, ends_bind.
  assert (sh_opts s1 = opts) as -> by (destruct Hfl as (kept' & Hk & Hd); by eapply drained_opts).
  assert (forall s2, flushed now kept s2 -> ends (fun _ => flushed now kept) (fun _ => maintained now kept)
    ((plan ← gets (fun s => fullCompactionPlan (mf_Parts (sh_manifest s)) (sh_tombstones s) (so_Compaction (sh_opts s)));
      match plan with None => mret tt | Some plan => compactPartsLocked plan end) s2)) as Hfull.
  { intros s2 (kept' & Hk & Hd). apply ends_bind, ends_gets. destruct (fullCompactionPlan _ _ _) as [plan|] eqn:Ep.
    2: { apply ends_ret. exists kept'. auto. }
    pose proof (drained_opts _ _ _ Hd) as Ho. unfold fullCompactionPlan in Ep. case_match; [done|]. injection Ep as <-.
    eapply ends_weaken; [eapply (compactPartsLocked_spec schema opts U HU sound Hstorable Hunsplit Hquery); [exact Hd|]|..].
    - split; simpl; [done| |done]. rewrite Ho. by eexists.
    - intros ? s3 Hf. by eapply flushed_trans.
    - intros ? s3 Hf. apply flushed_maintained. by eapply flushed_trans. }
  destruct (cp_Enabled (so_Compaction opts)) eqn:He.
  - eapply ends_weaken; [exact (runCascade_spec s1 now kept He Hfl)|intros ? s2 Hf; by apply Hfull|]. intros e s2 Hf. by apply flushed_maintained.
  - by apply ends_ret, Hfull.
Qed.

(** ** Writes *)
Lemma finishWrite_spec release s now kept : shard_inv s now kept ->
  ends (fun _ => maintained now kept) (fun _ => maintained now kept) (finishWrite release s).
Proof.
  intros Hs. unfold finishWrite. apply ends_bind, ends_gets, ends_bind. unfold releaseMemory. apply ends_modify.
  assert (shard_inv (set_memory (ReleaseBytes release <$> sh_memory s) s) now kept) as Hs1.
  { eapply (shard_inv_framed schema opts U sound all all); [done|done|apply framed_memory|done]. }
  destruct (shouldFlushMemTable s).
  - eapply ends_weaken; [by apply Flush_spec|intros; by apply flushed_maintained|done].
  - apply ends_ret. by apply maintained_refl.
Qed.

(** What a failed write may leave behind: nothing, a record in the log only,
    or the whole write. *)
Definition half_written (now kept : view) (ws : list (columnKey * VersionedSample)) (s : Shard) : Prop :=
  shard_inv s now kept \/ shard_inv s now (add_writes ws kept) \/ maintained (add_writes ws now) (add_writes ws kept) s.

Lemma write_spec (walStep : step W unit) f message (reserve : step Shard reservation) points s now kept :
  shard_inv s now kept -> batch_ok now kept points ->
  (forall pool m, f pool m = ApplyBatch pool m points) ->
  (forall wp wt w, wal_holds w wp wt ->
     ends (fun _ w' => wal_holds w' (wp ++ points) wt /\ (wal_healthy w -> wal_healthy w'))
          (fun _ w' => (wal_holds w' wp wt \/ wal_holds w' (wp ++ points) wt) /\ (wal_healthy w -> wal_healthy w')) (walStep w)) ->
  ends (fun _ s' => framed all all s s') (fun _ s' => framed all all s s') (reserve s) ->
  ends (fun _ => maintained (add_writes (batch_writes points) now) (add_writes (batch_writes points) kept))
       (fun _ => half_written now kept (batch_writes points))
    ((release ← reserve;
      _ ← orCleanup (_ ← on_wal walStep; applyRetrying (on_mem f) message) (releaseMemory release);
      finishWrite release) s).
Proof.
  intros Hs Hb Hf Hwal Hres. apply ends_bind.
  assert (forall s s' now kept, shard_inv s now kept -> framed all all s s' -> shard_inv s' now kept) as Hfr.
  { intros s1 s2 n k Hi Hfm. by eapply (shard_inv_framed schema opts U sound all all). }
  eapply ends_weaken; [exact Hres| |intros e s' Hf1; left; by eapply Hfr]. intros release s1 Hf1. apply ends_bind, ends_orCleanup.
  eapply ends_weaken; [eapply (logged_write schema opts U HU sound walStep f message points s1 now kept); [by eapply Hfr|done|done|done]|..].
  - intros ? s2 Hs2. eapply ends_weaken; [exact (finishWrite_spec release s2 _ _ Hs2)|done|]. intros e s3 Hm. by right; right.
  - intros e s2 Hs2. unfold releaseMemory. apply ends_modify.
    destruct Hs2 as [Hs2|Hs2]; [left|right; left]; (eapply Hfr; [exact Hs2|apply framed_memory]).
Qed.
Lemma add_nothing v : add_writes [] v = v.
Proof. destruct v as [ws ds]. unfold add_writes. simpl. by rewrite app_nil_r. Qed.
Lemma WriteBatch_spec points sync s now kept : shard_inv s now kept -> batch_ok now kept points -> wal_accepts points ->
  ends (fun _ => maintained (add_writes (batch_writes points) now) (add_writes (batch_writes points) kept))
       (fun _ => half_written now kept (batch_writes points)) (WriteBatch points sync s).
Proof.
  intros Hs Hb Hacc. unfold WriteBatch. zcase (len points =? 0).
  { apply ends_ret. destruct points; [|unfold len in *; simpl in *; lia]. simpl. rewrite !add_nothing. by apply maintained_refl. }
  apply (write_spec (wal_Append points sync) (fun pool m => ApplyBatch pool m points)); try done.
  - intros wp wt w Hw. by apply wal_Append_spec.
  - apply stable_reserveMemory, framed_refl.
Qed.
Lemma WriteTypedBatch_spec batch rows sync points s now kept : shard_inv s now kept ->
  resolvedPointsFromTypedBatch batch rows = Ok points -> batch_ok now kept points -> wal_accepts_typed batch rows ->
  (exists n, estimateTypedWALFrameBytes batch rows = Ok n) ->
  ends (fun _ => maintained (add_writes (batch_writes points) now) (add_writes (batch_writes points) kept))
       (fun _ => half_written now kept (batch_writes points)) (WriteTypedBatch batch rows sync s).
Proof.
  intros Hs Hp Hb Hacc [n Hn]. unfold WriteTypedBatch. zcase (typedBatchRowCount batch rows =? 0).
  { apply ends_ret. unfold resolvedPointsFromTypedBatch in Hp. rewrite E in Hp. injection Hp as <-. simpl. rewrite !add_nothing.
    by apply maintained_refl. }
  apply (write_spec (wal_AppendTyped batch rows sync) (fun pool m => ApplyTypedBatch pool m batch rows)); try done.
  - intros pool m. by apply typed_batch_points.
  - intros wp wt w Hw. eapply wal_AppendTyped_spec; [done|exact Hp|done].
  - unfold reserveTypedWriteMemory. apply ends_bind, ends_gets. case_match; [apply ends_ret, framed_refl|].
    apply ends_bind. eapply ends_pure; [exact Hn|]. apply stable_reserveMemory, framed_refl.
Qed.
End cycle.

(** * Closing and opening a shard

    Closing leaves directories from which [OpenShard] rebuilds the view [kept]:
    the parts of the manifest, and the memtable and tombstones of the log.  When
    opening fails, the store was not healthy and the directories still hold it. *)
(** ** What replayed points write *)
Lemma replayed_as_writes p p' : replayed_as p p' -> writes_of p ≡ₚ writes_of p'.
Proof. intros (-> & Hp). unfold writes_of. simpl. by rewrite Hp. Qed.
Lemma replayed_writes ps ps' : Forall2 replayed_as ps ps' -> batch_writes ps ≡ₚ batch_writes ps'.
Proof.
  induction 1 as [|p p' ps ps' Hp HF IH]; [done|]. unfold batch_writes in *. rewrite !bind_cons.
  by apply Permutation_app; [apply replayed_as_writes|].
Qed.
Lemma written_perm ws ws' k x : ws ≡ₚ ws' -> x ∈ written ws k <-> x ∈ written ws' k.
Proof. intros Hp. unfold written, of_key. by rewrite Hp. Qed.
Lemma replayed_typed schema ps ps' : Forall2 replayed_as ps ps' -> Forall (point_typed schema) ps -> Forall (point_typed schema) ps'.
Proof.
  induction 1 as [|p p' ps ps' Hp HF IH]; intros Ht; [done|]. apply Forall_cons in Ht as [Hpt Ht]. constructor; [|by apply IH].
  destruct Hp as (-> & Hp). unfold point_typed in *. simpl. apply Forall_forall. intros f Hf. rewrite Hp in Hf.
  by apply (proj1 (Forall_forall _ _) Hpt).
Qed.

(** ** Names of the entries that cleaning up removes *)
Lemma cleanup_keeps_parts entry metas meta : isCleanupCandidate entry
    (list_to_set (map (fun meta => baseName (pm_Path meta)) metas ++ map pm_ID metas)) = true ->
  meta ∈ metas -> baseName (pm_Path meta) = pm_ID meta -> (exists n, pm_ID meta = partID n) ->
  pm_ID meta <> entry.1.
Proof.
  destruct entry as [name isDir]. unfold isCleanupCandidate. intros Hc Hm Hb [n Hn] E. simpl in E.
  destruct (isDir && isPartDirName name) eqn:Ed.
  - rewrite negb_true_iff, bool_decide_eq_false in Hc. apply Hc. rewrite elem_of_list_to_set, elem_of_app. right.
    apply list_elem_of_fmap. by exists meta.
  - rewrite andb_true_iff, bool_decide_eq_true in Hc. destruct Hc as [_ Ht]. rewrite <- E, Hn in Ht. discriminate Ht.
Qed.

Section recover.
  Context {W D P X B : Type} `{GoRuntimeLaws} `{WalLaws W} (schema : Z * Z -> Z) `{PartLaws schema D P X B}.
  Context (opts : ShardOptions) (U : contents) (HU : universe schema opts U) (sound : Prop).
  Abbreviation Shard := (Shard W D P).
  Abbreviation shard_inv := (shard_inv schema opts U sound).
  Abbreviation closed_inv := (closed_inv schema opts U sound).
  Abbreviation data_inv := (data_inv schema opts U).

(** ** Closing *)
Lemma data_closed stored mw tombs wp wt now kept : data_inv stored mw tombs wp wt now kept ->
  data_inv stored (batch_writes wp) wt wp wt kept kept.
Proof. intros []. split; try done. by intros k x. Qed.
Lemma closed_of_open s now kept : shard_inv s now kept -> sh_nextPart s <= 10 ^ 6 -> closed_inv s kept.
Proof.
  intros (stored & mw & wp & wt & Hs & Hm & Hd) Hn. exists (mf_Parts (sh_manifest s)), stored, wp, wt, (sh_nextPart s).
  split_and!; [apply Hs|apply Hs|done|apply Hs|apply Hm|by eapply data_closed].
Qed.
Definition nothing (_ : P) : Prop := False.
Lemma closed_framed s s' kept : framed nothing all s s' -> closed_inv s kept -> closed_inv s' kept.
Proof.
  intros [Hc Hm Hp Hn Hk Hmf] (metas & stored & wp & wt & next & Hw & Hd & Hle & Hso & Hpo & Hda).
  unfold core in Hc. injection Hc as E1 E2 E3 E4 E5 E6. exists metas, stored, wp, wt, next. rewrite E2, Hp. split_and!; try done.
  - by eapply (disk_inv_mono nothing all).
  - intros [Hd1 Hw1]%Hso. split; [|done]. by apply (kp_healthy _ _ _ _ Hk).
Qed.
Lemma closed_wal s w b kept : (forall wp wt, wal_holds (sh_wal s) wp wt -> wal_holds w wp wt) ->
  (wal_healthy (sh_wal s) -> wal_healthy w) -> closed_inv s kept -> closed_inv (set_wal w b s) kept.
Proof.
  intros Hw Hh (metas & stored & wp & wt & next & Hwal & Hd & Hle & Hso & Hpo & Hda).
  exists metas, stored, wp, wt, next. split_and!; try done; [by apply Hw|]. intros [? ?]%Hso. split; [done|by apply Hh].
Qed.
Lemma surely_closeAll (base : Shard) parts : surely (framed nothing all base) (closeParts parts).
Proof. by apply (surely_closeParts schema). Qed.
Lemma closeLocked_spec (s : Shard) kept : closed_inv s kept ->
  ends (fun _ s' => closed_inv s' kept) (fun _ s' => closed_inv s' kept) (closeLocked s).
Proof.
  intros Hc. unfold closeLocked. apply ends_bind, ends_gets, ends_bind.
  eapply ends_weaken; [apply (surely_closeAll s), framed_refl| |done].
  intros partErr s1 Hf1. assert (closed_inv s1 kept) as Hc1 by exact (closed_framed _ _ _ Hf1 Hc).
  apply ends_bind, ends_gets. destruct (sh_walOpen s1) eqn:Eo; simpl; [|by apply ends_failIf].
  apply ends_bind, ends_errOf.
  assert (forall e s2, closed_inv s2 kept -> ends (fun _ s' => closed_inv s' kept) (fun _ s' => closed_inv s' kept)
    ((_ ← modify (fun s => set_wal (sh_wal s) false s); failIf (joinErr partErr e)) s2)) as Hrest.
  { intros e s2 Hc2. apply ends_bind, ends_modify. assert (closed_inv (set_wal (sh_wal s2) false s2) kept) by by apply closed_wal.
    by apply ends_failIf. }
  pose proof Hc1 as (metas & stored & wp & wt & next & Hwal & Hd & Hle & Hso & Hpo & Hda).
  assert (forall w, wal_holds w wp wt -> (wal_healthy (sh_wal s1) -> wal_healthy w) -> closed_inv (set_wal w true s1) kept) as Hset.
  { intros w Hw Hh. exists metas, stored, wp, wt, next. split_and!; try done. intros [? ?]%Hso. split; [done|by apply Hh]. }
  eapply ends_on_wal; [done|by apply wal_Close_spec|..]; intros ? w [Hw Hh]; apply Hrest; by apply Hset.
Qed.

(** ** Opening the parts *)
Lemma fatal_reported report issue : ri_Fatal issue = true -> exists e, FatalError (report ++ [issue]) = Some e.
Proof.
  intros Hf. unfold FatalError, joinIssues. rewrite foldl_app. simpl. rewrite Hf. simpl. destruct (foldl _ _ _); simpl; by eexists.
Qed.
Lemma partOpenIssue_fatal meta e : ri_Fatal (partOpenRecoveryIssue meta e) = true.
Proof. unfold partOpenRecoveryIssue. by destruct (isNotExist e). Qed.
Lemma no_mismatch meta : partMetadataMismatchIssue meta meta = None.
Proof. unfold partMetadataMismatchIssue, partMetaMismatches. by rewrite bool_decide_true, !Z.eqb_refl. Qed.

Section opening.
  Context (metas : list PartMeta) (stored : list (list ColumnData)) (wp : list ResolvedPoint) (wt : list Tombstone).
  Context (next : Z) (kept : view) (Hnext : next <= 10 ^ 6).
  Context (Hdata : data_inv stored (batch_writes wp) wt wp wt kept kept).

(** A shard that is being opened and has opened the first of its parts. *)
Record opening (isOpen : bool) (opened : list PartMeta) (held : list (list ColumnData)) (s : Shard) : Prop := {
  og_opts : sh_opts s = opts;
  og_open : sh_walOpen s = isOpen;
  og_wal : wal_holds (sh_wal s) wp wt;
  og_manifest : mf_Parts (sh_manifest s) = metas;
  og_disk : disk_inv (sh_disk s) metas next stored;
  og_metas : pr_Meta <$> sh_parts s = opened;
  og_handles : Forall2 (pd_open (sh_disk s)) (sh_parts s) held;
  og_ids : Forall (part_id (sh_nextPart s)) opened;
  og_next : 0 <= sh_nextPart s;
  og_sound : sound -> pd_healthy (sh_disk s) /\ wal_healthy (sh_wal s);
  og_mem : sh_mem s = New;
  og_pool : pool_ok (sh_pool s);
  og_tombstones : sh_tombstones s = [];
}.
Lemma opening_closed isOpen opened held s : opening isOpen opened held s -> closed_inv s kept.
Proof. intros []. by exists metas, stored, wp, wt, next. Qed.
Lemma opening_framed (alive : P -> Prop) isOpen opened held s s' : (forall p, p ∈ sh_parts s -> alive p) ->
  forall (here : bytes -> Prop), (forall meta, meta ∈ metas -> here (pm_Path meta)) -> framed alive here s s' ->
  opening isOpen opened held s -> opening isOpen opened held s'.
Proof.
  intros Ha here Hh [Hc Hm Hp Hn Hk Hmf] []. unfold core in Hc. injection Hc as E1 E2 E3 E4 E5 E6.
  split; rewrite ?E1, ?E2, ?E3, ?E4, ?E5, ?E6, ?Hm, ?Hp; try done.
  - by eapply disk_inv_mono.
  - by eapply handles_mono.
  - eapply Forall_impl; [done|]. intros meta. by apply part_id_mono.
  - lia.
  - intros [Hd1 Hw1]%og_sound0. split; [|done]. by apply (kp_healthy _ _ _ _ Hk).
Qed.

Lemma opening_part opened held s meta columns p : opening false opened held s ->
  part_id next meta -> pr_Meta p = meta -> pd_open (sh_disk s) p columns ->
  let s1 := set_parts (sh_parts s ++ [p]) (sh_manifest s) s in
  opening false (opened ++ [meta]) (held ++ [columns])
    (if sh_nextPart s1 <=? partNumber (pm_ID meta) then set_nextPart (partNumber (pm_ID meta) + 1) s1 else s1).
Proof.
  intros [] (n & Hn & Eid) Em Hp s1. rewrite Eid, (partNumber_partID n) by lia. simpl.
  assert (pr_Meta <$> (sh_parts s ++ [p]) = opened ++ [meta]) as Hms by (rewrite fmap_app, og_metas0; simpl; by rewrite Em).
  assert (Forall2 (pd_open (sh_disk s)) (sh_parts s ++ [p]) (held ++ [columns])) as Hhs
    by (apply Forall2_app; [done|by constructor]).
  zcase (sh_nextPart s <=? n); split; simpl; try done; try lia; apply Forall_app; split.
  - eapply Forall_impl; [done|]. intros m. apply part_id_mono. lia.
  - constructor; [|constructor]. exists n. split; [lia|done].
  - done.
  - constructor; [|constructor]. exists n. split; [lia|done].
Qed.

Lemma openPartsLoop_spec rest : forall opened held todo s maxSeq, opening false opened held s ->
  metas = opened ++ rest -> stored = held ++ todo -> length rest = length todo ->
  ends (fun _ s' => opening false metas stored s')
       (fun _ s' => closed_inv s' kept /\ ~ sound) (openPartsLoop rest maxSeq s).
Proof.
  induction rest as [|meta rest IH]; intros opened held todo s maxSeq Ho Em Es Hl; cbn [openPartsLoop].
  { apply ends_ret. destruct todo; [|done]. rewrite app_nil_r in Em, Es. by subst. }
  destruct todo as [|columns todo]; [done|]. pose proof (di_holds _ _ _ _ (og_disk _ _ _ _ Ho)) as [Hp Hpa Hnd Hid Hnn].
  assert (length opened = length held) as Hlo.
  { pose proof (Forall2_length _ _ _ (og_handles _ _ _ _ Ho)). rewrite <- (og_metas _ _ _ _ Ho), length_fmap. done. }
  assert (pd_part (sh_disk s) (pm_Path meta) meta columns) as Hpart.
  { rewrite Em, Es in Hp. apply Forall2_app_inv in Hp as [_ Hp]; [|done]. by apply Forall2_cons in Hp as [? _]. }
  assert (part_id next meta) as Hpid by (rewrite Em in Hid; apply Forall_app in Hid as [_ Hid]; by apply Forall_cons in Hid as [? _]).
  apply ends_bind, ends_try. eapply ends_on_disk; [by apply (pt_OpenPart_spec (schema := schema))|..]; cbn beta.
  - intros p d (Hu & Hopen & Emeta). rewrite Emeta, no_mismatch. apply ends_bind, ends_modify, ends_bind, ends_modify.
    apply (IH (opened ++ [meta]) (held ++ [columns]) todo); [|by rewrite <- app_assoc..|simpl in Hl; lia].
    eapply opening_part; [|done|done|done]. exact (opening_framed all false opened held s _ (fun _ _ => I) all (fun _ _ => I) (framed_unchanged _ _ _ _ Hu) Ho).
  - intros e d [Hu Hn]. apply ends_bind. unfold recordRecoveryIssue. apply ends_modify, ends_bind, ends_gets, ends_bind. simpl.
    destruct (fatal_reported (sh_report s) (partOpenRecoveryIssue meta e) (partOpenIssue_fatal _ _)) as [e' ->]. apply ends_fail.
    split; [|intros Hs; by apply Hn, (og_sound _ _ _ _ Ho)].
    eapply (closed_framed (set_disk d s)); [apply framed_report|]. eapply opening_closed.
    exact (opening_framed all false opened held s _ (fun _ _ => I) all (fun _ _ => I) (framed_unchanged _ _ _ _ Hu) Ho).
Qed.

(** ** Removing what the manifest does not list *)
Definition listed (path : bytes) : Prop := exists meta, meta ∈ metas /\ baseName path = baseName (pm_Path meta).
Lemma cleanupLoop_spec entries base : opening false metas stored base -> Forall (fun e => baseName e.1 = e.1) entries ->
  forall s, framed (fun p => listed (pm_Path (pr_Meta p))) listed base s ->
  ends (fun _ s' => framed (fun p => listed (pm_Path (pr_Meta p))) listed base s') (fun _ _ => False)
    (cleanupLoop entries (list_to_set (map (fun meta => baseName (pm_Path meta)) metas ++ map pm_ID metas)) s).
Proof.
  intros Ho. induction 1 as [|[name isDir] entries Hb HF IH]; intros s Hf; cbn [cleanupLoop]; [by apply ends_ret|].
  destruct (isCleanupCandidate _ _) eqn:Ec; simpl; [|by apply IH].
  pose proof (di_holds _ _ _ _ (og_disk _ _ _ _ Ho)) as [_ Hpa _ Hid _].
  assert (forall path, listed path -> baseName path <> baseName name) as Hne.
  { intros path (meta & Hm & ->). simpl in Hb. rewrite Hb.
    assert (baseName (pm_Path meta) = pm_ID meta) as Ebase.
    { rewrite (proj1 (Forall_forall _ _) Hpa meta Hm). destruct (proj1 (Forall_forall _ _) Hid meta Hm) as (n & _ & ->).
      apply (part_path_base schema). }
    rewrite Ebase. apply (cleanup_keeps_parts (name, isDir) metas meta Ec Hm Ebase).
    destruct (proj1 (Forall_forall _ _) Hid meta Hm) as (n & _ & ?). by exists n. }
  apply ends_bind. unfold removeCleanupCandidate. apply ends_bind.
  eapply ends_weaken; [apply (surely_try (framed (fun p => listed (pm_Path (pr_Meta p))) listed base)); [|exact Hf]| |done].
  { apply stable_on_disk, (keeping_remove schema); auto. }
  intros r s1 Hf1. apply ends_ret, ends_bind. eapply ends_weaken; [by apply IH| |done]. intros issues s2 Hf2. by apply ends_ret.
Qed.
Lemma opening_listed isOpen s s' : opening isOpen metas stored s ->
  framed (fun p => listed (pm_Path (pr_Meta p))) listed s s' -> opening isOpen metas stored s'.
Proof.
  intros Ho Hf. eapply opening_framed; [..|exact Hf|exact Ho].
  - intros p Hp. exists (pr_Meta p). split; [|done]. rewrite <- (og_metas _ _ _ _ Ho). apply list_elem_of_fmap. by exists p.
  - intros meta Hm. by exists meta.
Qed.
Lemma cleanupOrphanParts_spec s : opening false metas stored s ->
  ends (fun _ s' => opening false metas stored s') (fun _ _ => False) (cleanupOrphanParts s).
Proof.
  intros Ho. unfold cleanupOrphanParts. apply ends_bind, ends_gets. rewrite (og_manifest _ _ _ _ Ho). apply ends_bind, ends_try.
  eapply ends_on_disk; [apply (fs_ReadDir_spec (schema := schema))|..]; cbn beta.
  - intros entries d [Hu HF]. eapply ends_weaken; [apply (cleanupLoop_spec entries s Ho HF); by apply framed_unchanged| |done].
    intros issues s' Hf. by apply (opening_listed false s).
  - intros e d Hu. apply ends_ret, (opening_listed false s); [done|]. by apply framed_unchanged.
Qed.

(** ** Replaying the log *)
(** A shard that has replayed the writes [mw] and the tombstones [tombs]. *)
Record replaying (mw : list (columnKey * VersionedSample)) (tombs : list Tombstone) (s : Shard) : Prop := {
  rg_serves : serves opts sound s stored wp wt;
  rg_mem : mem_holds schema s mw;
  rg_tombs : sh_tombstones s = tombs;
}.
Lemma replaying_start s : opening true metas stored s -> replaying [] [] s.
Proof.
  intros []. split; [split; try done| |done].
  - destruct og_disk0 as [[] ?]. split; [split|]; by rewrite ?og_manifest0.
  - by rewrite og_manifest0.
  - split; [|done]. rewrite og_mem0. eapply mem_inv_ext; [|apply New_inv]. done.
Qed.
Lemma replayPoints_spec points : Forall (point_typed schema) points -> forall mw tombs s maxSeq, replaying mw tombs s ->
  ends (fun _ s' => replaying (mw ++ batch_writes points) tombs s') (fun _ _ => False) (replayPoints points maxSeq s).
Proof.
  induction 1 as [|p points Hp HF IH]; intros mw tombs s maxSeq [Hs Hm Ht]; cbn [replayPoints].
  { apply ends_ret. by rewrite app_nil_r. }
  destruct (applyPoints_inv schema (un_schema _ _ _ HU) [p] (Forall_cons_2 _ _ _ Hp (Forall_nil_2 _)) (sh_pool s) (sh_mem s) (written mw))
    as (m' & pool' & Ea & Hp' & Hm'); [apply Hm|apply Hm|].
  assert (Apply (sh_pool s) (sh_mem s) p = Ok (m', pool')) as Eap.
  { cbn [applyPoints] in Ea. unfold Apply. by destruct (applyPointLocked _ _ p) as [[? ?]| |]; simplify_eq/=. }
  assert (on_mem (fun pool m => Apply pool m p) s = (Ok tt, set_mem m' pool' s)) as Eon by (unfold on_mem; by rewrite Eap).
  apply ends_bind, ends_orCleanup. rewrite Eon. cbn [ends].
  assert (mw ++ batch_writes (p :: points) = (mw ++ batch_writes [p]) ++ batch_writes points) as ->.
  { rewrite <- app_assoc. f_equal. by rewrite <- batch_writes_app. }
  apply IH. split; [by destruct Hs| |done]. split; [|done]. eapply mem_inv_ext; [|exact Hm']. intros k. unfold extend. by rewrite written_app.
Qed.
Lemma replayTombstones_spec ts : forall mw tombs s maxSeq, replaying mw tombs s ->
  ends (fun _ s' => replaying mw (tombs ++ ts) s') (fun _ _ => False) (replayTombstones ts maxSeq s).
Proof.
  induction ts as [|t ts IH]; intros mw tombs s maxSeq [Hs Hm Ht]; cbn [replayTombstones].
  { apply ends_ret. by rewrite app_nil_r. }
  apply ends_bind, ends_modify. replace (tombs ++ t :: ts) with ((tombs ++ [t]) ++ ts) by by rewrite <- app_assoc.
  apply IH. split; [by destruct Hs|by destruct Hm|]. simpl. by rewrite Ht.
Qed.
Lemma replayAll_spec records : Forall (fun r => Forall (point_typed schema) (rec_Points r)) records ->
  forall mw tombs s maxSeq, replaying mw tombs s ->
  ends (fun _ s' => replaying (mw ++ batch_writes (concat (rec_Points <$> records))) (tombs ++ concat (rec_Tombstones <$> records)) s')
       (fun _ _ => False) (replayAll records maxSeq s).
Proof.
  induction 1 as [|r records Hr HF IH]; intros mw tombs s maxSeq Hre; cbn [replayAll].
  { apply ends_ret. simpl. by rewrite !app_nil_r. }
  apply ends_bind. eapply ends_weaken; [by apply (replayPoints_spec _ Hr mw tombs)| |done]. intros m1 s1 H1'.
  apply ends_bind. eapply ends_weaken; [by apply (replayTombstones_spec _ _ _ _ _ H1')| |done]. intros m2 s2 H2'.
  eapply ends_weaken; [by apply (IH _ _ _ _ H2')| |done]. intros m3 s3 H3'. rewrite !fmap_cons. cbn [concat].
  by rewrite batch_writes_app, !app_assoc.
Qed.

Lemma data_replayed points : Forall2 replayed_as wp points -> data_inv stored (batch_writes points) wt wp wt kept kept.
Proof.
  intros Hp. apply replayed_writes in Hp. destruct Hdata. split; try done.
  - intros k x Hx. apply (written_perm _ _ _ _ Hp). done.
  - etrans; [exact dv_shows|]. apply survivors_agrees, plus_agrees; [reflexivity|]. apply agrees_same. intros k x. by apply written_perm.
Qed.
Lemma replay_spec s maxSeq : opening true metas stored s ->
  ends (fun _ s' => shard_inv s' kept kept) (fun _ s' => closed_inv s' kept /\ ~ sound)
    ((records ← orCleanup (on_wal wal_ReplayRecords) closeLocked; replayAll records maxSeq) s).
Proof.
  intros Ho. apply ends_bind, ends_orCleanup.
  assert (forall w, wal_holds w wp wt -> (wal_healthy (sh_wal s) -> wal_healthy w) -> opening true metas stored (set_wal w true s)) as Hset.
  { intros w Hw Hh. destruct Ho. split; try done. intros [? ?]%og_sound0. split; [done|by apply Hh]. }
  eapply ends_on_wal; [apply Ho|by apply wal_ReplayRecords_spec, Ho|..]; cbn beta.
  - intros records w (Hw & Hh & Hpts & Hts).
    assert (Forall (fun r => Forall (point_typed schema) (rec_Points r)) records) as Hty.
    { apply replayed_typed with (schema := schema) in Hpts; [|apply Hdata]. apply Forall_concat in Hpts. exact (proj1 (Forall_fmap _ _ _) Hpts). }
    eapply ends_weaken; [apply (replayAll_spec records Hty), replaying_start; by apply Hset| |done].
    intros m s' [Hs Hm Ht]. simpl in Hm, Ht. exists stored, (batch_writes (concat (rec_Points <$> records))), wp, wt.
    split_and!; [done|done|]. rewrite Ht, <- Hts. by apply data_replayed.
  - intros e w [Hw Hn]. assert (~ sound) as Hns by (intros Hs; by apply Hn, (og_sound _ _ _ _ Ho)).
    eapply ends_weaken; [apply (closeLocked_spec _ kept)|done|done].
    destruct Ho. exists metas, stored, wp, wt, next. split_and!; done.
Qed.
Lemma wal_opening_spec s maxSeq : opening false metas stored s ->
  ends (fun _ s' => shard_inv s' kept kept) (fun _ s' => closed_inv s' kept /\ ~ sound)
    ((_ ← orCleanup (fun s => let '(r, w) := wal_Open (sh_wal s) in (r, set_wal w true s))
            (parts ← gets sh_parts; _ ← closeParts parts; modify (fun s => set_wal (sh_wal s) false s));
      records ← orCleanup (on_wal wal_ReplayRecords) closeLocked;
      replayAll records maxSeq) s).
Proof.
  intros Ho. apply ends_bind, ends_orCleanup. pose proof (wal_Open_spec _ _ _ (og_wal _ _ _ _ Ho)) as Hop.
  destruct (wal_Open (sh_wal s)) as [[[]|e|p] w]; simpl in *; [| |done].
  - destruct Hop as [Hw Hh]. apply replay_spec. destruct Ho. split; try done. intros [? ?]%og_sound0. split; [done|by apply Hh].
  - destruct Hop as [Hw Hn]. assert (~ sound) as Hns by (intros Hs; by apply Hn, (og_sound _ _ _ _ Ho)).
    apply ends_bind, ends_gets, ends_bind.
    assert (closed_inv (set_wal w true s) kept) as Hc by (destruct Ho; exists metas, stored, wp, wt, next; split_and!; done).
    eapply ends_weaken; [apply (surely_closeAll (set_wal w true s)), framed_refl| |done].
    intros ? s1 Hf. apply ends_modify. split; [|done]. apply closed_wal; [done|done|]. exact (closed_framed _ _ _ Hf Hc).
Qed.
End opening.

Lemma parts_inv_perm d metas metas' next stored : metas ≡ₚ metas' -> parts_inv d metas next stored ->
  exists stored', stored ≡ₚ stored' /\ parts_inv d metas' next stored'.
Proof.
  intros Hp [Hpt Hpa Hnd Hid Hn].
  destruct (Permutation_Forall2 Hp Hpt) as (stored' & Hst & HF).
  exists stored'. split; [done|]. split; try done; by rewrite <- Hp.
Qed.
Lemma data_perm stored stored' mw tombs wp wt now kept : stored ≡ₚ stored' ->
  data_inv stored mw tombs wp wt now kept -> data_inv stored' mw tombs wp wt now kept.
Proof.
  intros Hp []. pose proof (cols_perm _ _ Hp) as Hc.
  assert (agrees (cols stored) (cols stored')) as Ha by by apply agrees_same.
  split; try done; [intros k x Hx; apply dv_stored; by apply Hc|..];
    (etrans; [eassumption|]; apply survivors_agrees, plus_agrees; [exact Ha|reflexivity]).
Qed.

(** Opening the shard again shows what was kept; when it fails, the store was
    not healthy and nothing is lost. *)
Lemma OpenShard_spec (s : Shard) kept : closed_inv s kept ->
  ends (fun _ s' => shard_inv s' kept kept) (fun _ s' => closed_inv s' kept /\ ~ sound) (OpenShard opts s).
Proof.
  intros (metas0 & stored0 & wp & wt & next & Hw & [Hpi Hmf] & Hle & Hso & Hpo & Hda). unfold OpenShard.
  apply ends_bind, ends_modify, ends_bind. eapply ends_on_disk; [apply (pt_LoadManifest_spec (schema := schema))|..]; cbn beta.
  2: { intros e d [Hu Hn]. split; [|intros Hs; by apply Hn, Hso]. exists metas0, stored0, wp, wt, next. split_and!; try done.
       - split; [|simpl; by rewrite (proj2 Hu)]. by eapply (parts_inv_mono all all); [|apply Hu| |].
       - intros Hs. split; [|by apply Hso]. by apply (kp_healthy _ _ _ _ (proj1 Hu)), Hso. }
  intros manifest d (Hu & _ & Hparts). simpl in Hparts. set (metas := mf_Parts manifest) in *.
  destruct (parts_inv_perm (sh_disk s) metas0 metas next stored0) as (stored & Hst & Hpi'); [by rewrite <- Hmf, Hparts|done|].
  apply ends_bind, ends_modify. set (s1 := set_parts [] manifest _).
  pose proof (data_perm _ _ _ _ _ _ _ _ Hst Hda) as Hda'.
  assert (opening metas stored wp wt next false [] [] s1) as Ho.
  { split; try done; simpl.
    - split; [by eapply (parts_inv_mono all all); [|apply Hu| |]|]. simpl. by rewrite (proj2 Hu), <- Hparts.
    - intros Hs. split; [|by apply Hso]. by apply (kp_healthy _ _ _ _ (proj1 Hu)), Hso. }
  apply ends_bind, ends_orCleanup. unfold openParts. apply ends_bind, ends_gets.
  eapply ends_weaken; [eapply (openPartsLoop_spec metas stored wp wt next kept Hle Hda' metas [] [] stored s1); try done|..].
  { by eapply Forall2_length, Hpi'. }
  - intros maxSeq s2 Ho2. apply ends_bind. eapply ends_weaken; [by apply (cleanupOrphanParts_spec metas stored wp wt next)| |done].
    intros issues s3 Ho3. apply ends_bind, ends_modify. apply (wal_opening_spec metas stored wp wt next kept Hle Hda').
    exact (opening_framed metas stored wp wt next all false metas stored s3 _ (fun _ _ => I) all (fun _ _ => I) (framed_report _ _ _ _) Ho3).
  - intros e s2 [Hc Hns]. apply ends_bind, ends_gets, ends_bind.
    eapply ends_weaken; [apply (surely_closeAll s2), framed_refl| |done]. intros ? s3 Hf. apply ends_ret. split; [exact (closed_framed _ _ _ Hf Hc)|done].
Qed.
End recover.
