(* ===== verification/RefParts.v ===== *)
(** * A reference part store

    The smallest store that keeps the contract of [Ports]: a map from names to
    the columns of parts.  It shows that the contract can be kept, and examples
    of shards run on it. *)
From S2P Require Import Prelude Model Codec WalEncoding WalRoundtrip WalSafety WalLog WalReplay WalDurability Runtime Versions MemCompact StoreSpec MemTable MemTheorems EngineMerge Tombstones QueryMerge SstMeta SstPack Ports WalTyped ShardInv.
From stdpp Require Import prelude strings list sorting gmap.
From Stdlib Require Import ZArith Lia.
#[local] Open Scope Z_scope.

Definition refPart : Type := PartMeta * list ColumnData.
Record refDir := mkRefDir { rd_manifest : Manifest; rd_parts : gmap bytes refPart }.
Definition emptyDir : refDir := mkRefDir (mkManifest 0 []) ∅.
Definition refWriter : Type := Z * bytes * WriteOptions * list (list ColumnData).
Definition refBatch : Type := Z * Z * list ColumnData.

Definition windowOf (query : StorageQuery) (c : ColumnData) : ColumnData := withSamples c (filter (in_window query) (cd_Samples c)).
Definition selectColumns (query : StorageQuery) (columns : list ColumnData) : list ColumnData :=
  filter (fun c => cd_Samples c <> []) (windowOf query <$> filter (fun c => selects query (keyOf c)) columns).
Definition closeWriter (x : refWriter) : step refDir PartMeta := fun d =>
  let '(level, id, _, groups) := x in
  let meta := mkPartMeta id level 0 0 0 0 0 0 0 0 id in
  (Ok meta, mkRefDir (rd_manifest d) (<[id := (meta, concat groups)]> (rd_parts d))).
Definition openRefPart (path : bytes) : step refDir refPart := fun d =>
  (match rd_parts d !! path with Some part => Ok part | None => Err (Errorf "no such part") end, d).

#[local] Instance refStore : PartStore refDir refPart refWriter refBatch := {|
  pt_LoadManifest d := (Ok (rd_manifest d), d);
  pt_WriteManifest m d := (Ok tt, mkRefDir m (rd_parts d));
  pt_OpenPart := openRefPart;
  pt_OpenPartTrusted := openRefPart;
  pt_NewWriter level id opts d := (Ok (level, id, opts, []), d);
  pw_AddSeries x g d := (Ok (x.1, x.2 ++ [g]), d);
  pw_Close := closeWriter;
  pw_Abort _ d := (Ok tt, d);
  pr_Meta p := p.1;
  pr_Close _ d := (Ok tt, d);
  pr_ScanColumns p query d := (Ok (mkStream (selectColumns query p.2) None), d);
  pr_SeriesIDs p _ d := (Ok (cd_SeriesID <$> p.2), d);
  pr_QuerySeriesIDs p query ids d :=
    (Ok (selectColumns (rangeQuery (list_to_set ids) ∅ (sq_Start query) (sq_End query)) p.2), d);
  pt_NewSeriesBatchReader p query d := (Ok (sq_Start query, sq_End query, p.2), d);
  br_SeriesCount b := len b.2;
  br_AppendSeriesIDs b ids := ids ++ (cd_SeriesID <$> b.2);
  br_QuerySeriesID b id d := (Ok (selectColumns (windowed_by b.1.1 b.1.2 id) b.2), d);
  fs_RemoveAll path d := (Ok tt, mkRefDir (rd_manifest d) (filter (fun kv => baseName kv.1 <> baseName path) (rd_parts d)));
  fs_AvailableBytes d := (Ok maxInt, d);
  fs_directorySize _ _ := Ok 0;
  fs_ReadDir d := (Ok [], d);
|}.

Section reference.
  Context (schema : Z * Z -> Z).

Record servable (columns : list ColumnData) : Prop := {
  se_sorted : StronglySorted column_lt columns;
  se_columns : Forall (fun c => cd_FieldType c = schema (keyOf c) /\ StronglySorted ts_lt (cd_Samples c)) columns;
}.
#[local] Instance refView : PartView refDir refPart refWriter refBatch := {|
  pd_manifest := rd_manifest;
  pd_part d path meta columns := rd_parts d !! path = Some (meta, columns) /\ servable columns;
  pd_open _ p columns := p.2 = columns /\ servable columns;
  pd_writing _ x level id opts groups := x = (level, id, opts, groups);
  pd_reader _ b start end_ columns := b = (start, end_, columns) /\ servable columns;
  pd_healthy _ := True;
  pd_storable _ groups := servable (concat groups);
  pd_query _ := True;
  pd_path id := id;
|}.

Lemma keyOf_windowOf query c : keyOf (windowOf query c) = keyOf c.
Proof. done. Qed.
Lemma elem_of_selected query columns c : c ∈ selectColumns query columns <->
  exists b, b ∈ columns /\ selects query (keyOf b) = true /\ c = windowOf query b /\ cd_Samples c <> [].
Proof.
  unfold selectColumns. rewrite list_elem_of_filter, list_elem_of_fmap. split.
  - intros (Hne & b & -> & Hb). apply list_elem_of_filter in Hb as [Hs Hb]. exists b. split_and!; [done|by apply Is_true_true|done|done].
  - intros (b & Hb & Hs & -> & Hne). split; [done|]. exists b. split; [done|]. apply list_elem_of_filter. split; [by apply Is_true_true|done].
Qed.
Lemma filter_sorted {A} (R : relation A) (Q : A -> Prop) `{!forall a, Decision (Q a)} l : StronglySorted R l -> StronglySorted R (filter Q l).
Proof.
  induction 1 as [|x l Hs IH Hx]; [constructor|]. rewrite filter_cons. case_decide; [|done]. constructor; [done|].
  apply Forall_forall. intros y [_ Hy]%list_elem_of_filter. by apply (proj1 (Forall_forall _ _) Hx).
Qed.
Lemma windows_sorted query columns : StronglySorted column_lt columns -> StronglySorted column_lt (windowOf query <$> columns).
Proof.
  induction 1 as [|c columns Hs IH Hc]; [constructor|]. rewrite fmap_cons. constructor; [done|]. apply Forall_fmap.
  eapply Forall_impl; [exact Hc|]. done.
Qed.
Lemma servable_column columns c : servable columns -> c ∈ columns -> of_column (keyOf c) columns = cd_Samples c.
Proof. intros [Hs _] (l1 & l2 & ->)%list_elem_of_split. by apply of_column_unique. Qed.
Lemma of_column_elem columns k x : x ∈ of_column k columns -> exists c, c ∈ columns /\ keyOf c = k.
Proof.
  unfold of_column. rewrite elem_of_concat. intros (l & _ & Hl). apply list_elem_of_fmap in Hl as (c & _ & Hc).
  apply list_elem_of_filter in Hc as [Hk Hc]. by exists c.
Qed.
Lemma select_answers query columns : servable columns -> answers schema query (fun k => of_column k columns) (selectColumns query columns).
Proof.
  intros Hse. split.
  - apply filter_sorted, windows_sorted, filter_sorted, Hse.
  - intros c (b & Hb & Hs & -> & Hne)%elem_of_selected. rewrite keyOf_windowOf, (servable_column _ _ Hse Hb).
    destruct (proj1 (Forall_forall _ _) (se_columns _ Hse) b Hb) as [Ht Hts]. split_and!; [done|done|done|].
    by apply resolves_self, filter_sorted.
  - intros k x Hs Hx. apply list_elem_of_filter in Hx as [Hw Hx]. destruct (of_column_elem _ _ _ Hx) as (b & Hb & <-).
    rewrite (servable_column _ _ Hse Hb) in Hx. exists (windowOf query b). split; [|done]. apply elem_of_selected. exists b.
    split_and!; [done|done|done|]. simpl. intros E. assert (x ∈ filter (in_window query) (cd_Samples b)) as Hin by by apply list_elem_of_filter.
    rewrite E in Hin. by apply elem_of_nil in Hin.
Qed.
Lemma series_covered start end_ columns : covers_series columns start end_ (cd_SeriesID <$> columns).
Proof. intros c s Hc _ _. apply list_elem_of_fmap. by exists c. Qed.

Lemma baseName_plain id : 47 ∉ id -> baseName id = id.
Proof.
  intros Hid. unfold baseName.
  assert (forall l acc, 47 ∉ l -> foldl (fun base b => if b =? 47 then [] else base ++ [b]) acc l = acc ++ l) as Hg; [|by rewrite Hg].
  induction l as [|b l IH]; intros acc Hl; simpl; [by rewrite app_nil_r|]. apply not_elem_of_cons in Hl as [Hb Hl].
  rewrite (proj2 (Z.eqb_neq b 47)), IH by done. by rewrite <- app_assoc.
Qed.
Lemma keeps_put (alive : refPart -> Prop) (here : bytes -> Prop) (d d' : refDir) :
  (forall path part, here path -> rd_parts d !! path = Some part -> rd_parts d' !! path = Some part) -> keeps alive here d d'.
Proof. intros Hk. split; try done. intros path meta cols Hh [Hp Hs]. split; [by apply Hk|done]. Qed.
Lemma openRefPart_reads (d : refDir) path meta cols : pd_part d path meta cols ->
  reads (fun p d' => pd_open d' p cols /\ pr_Meta p = meta) d (openRefPart path d).
Proof.
  intros [Hp Hs]. assert (rd_parts d !! path = Some ((meta, cols) : refPart)) as E by exact Hp. unfold openRefPart. rewrite E.
  split; [apply unchanged_refl|done].
Qed.
#[local] Instance refLaws : PartLaws schema refDir refPart refWriter refBatch.
Proof.
  split.
  - apply baseName_plain.
  - intros d. split; [apply unchanged_refl|done].
  - intros d m. split; [by apply keeps_put|done].
  - by apply openRefPart_reads.
  - by apply openRefPart_reads.
  - intros d level id opts. split; [apply unchanged_refl|done].
  - intros d x level id opts gs g ->. split; [apply unchanged_refl|done].
  - intros d x level id opts gs -> Hs. simpl. split_and!; try done; [|by rewrite lookup_insert_eq].
    apply keeps_put. intros path part Hne Hp. simpl. by rewrite lookup_insert_ne.
  - intros d x. apply unchanged_refl.
  - intros d p. split; [by apply keeps_put|done].
  - intros d p cols query [<- Hs] _. split; [apply unchanged_refl|]. split; [done|]. by apply select_answers.
  - intros d p cols start end_ [<- Hs] _. split; [apply unchanged_refl|]. apply series_covered.
  - intros d p cols start end_ id [<- Hs] _. split; [apply unchanged_refl|]. simpl. rewrite union_empty_r_L. by apply select_answers.
  - intros d p cols start end_ [<- Hs] _. split; [apply unchanged_refl|done].
  - intros d b cols start end_ ids [-> Hs]. exists (cd_SeriesID <$> cols). split; [done|apply series_covered].
  - intros d b cols start end_ id [-> Hs]. split; [apply unchanged_refl|]. by apply select_answers.
  - intros d path. split; [|done]. apply keeps_put. intros path' part Hne Hp. simpl. by apply map_lookup_filter_Some_2.
  - intros d. apply unchanged_refl.
  - intros d. split; [apply unchanged_refl|constructor].
  - done.
Qed.
End reference.

(** * The write-ahead log behind the shard

    The log of internal/wal keeps the contract that a shard asks of its log
    ([WalLaws] of [Ports]): whatever it appended since the last checkpoint is
    what replay returns, across closing and opening. *)
(** A method that returns only an error, as a step on the log. *)
Definition logStep (m : Log -> outcome Log) : step Log unit := fun l =>
  match m l with Ok l' => (Ok tt, l') | Err e => (Err e, l) | Panic p => (Panic p, l) end.

#[export] Instance logStore `{GoRuntime} : WalStore Log := {|
  wal_Open l := (Ok tt, Open (lg_dir l) (lg_opts l));
  wal_Append points sync := logStep (fun l => Append l points sync);
  wal_AppendTyped batch rows sync := logStep (fun l => AppendTyped l batch rows sync);
  wal_AppendTombstones ts sync := logStep (fun l => AppendTombstones l ts sync);
  wal_ReplayRecords l :=
    match ReplayRecords l with Ok (records, l') => (Ok records, l') | Err e => (Err e, l) | Panic p => (Panic p, l) end;
  wal_Checkpoint l := (Ok tt, Checkpoint l);
  wal_Close l := (Ok tt, WalLog.Close l);
|}.

(** ** What a log holds, open or closed *)
Definition opened (l : Log) : Log :=
  mkLog (lg_opts l) (lg_dir l) (lg_synced l) true (lg_segment l) (lg_size l) (lg_pendingRecords l) (lg_pendingBytes l).
Definition replays_as (r r' : WalRecord) : Prop :=
  Forall2 replayed_as (rec_Points r) (rec_Points r') /\ rec_Tombstones r = rec_Tombstones r'.
Definition log_keeps (l : Log) (points : list ResolvedPoint) (ts : list Tombstone) : Prop :=
  exists recs spec, log_holds (opened l) recs /\ Forall2 replays_as spec recs /\
    points = concat (rec_Points <$> spec) /\ ts = concat (rec_Tombstones <$> spec).

Lemma opened_id l : lg_open l = true -> opened l = l.
Proof. intros Ho. destruct l. simpl in *. by subst. Qed.
Lemma log_holds_open l recs : log_holds l recs -> log_holds (opened l) recs.
Proof. intros Hl. pose proof Hl as (old & oldRecs & cur & curRecs & H & _). rewrite opened_id; [done|apply H]. Qed.
Lemma same_point_replayed p p' : same_point p p' -> replayed_as p p'.
Proof. by intros (? & ? & _). Qed.
Lemma replayed_as_refl p : replayed_as p p.
Proof. split; [by destruct p|done]. Qed.

(** Appending to a closed log fails. *)
Lemma appendFrame_closed l t payload sync : lg_open l = false -> exists e, appendFrameLocked l t payload sync = Err e.
Proof.
  intros Ho. unfold appendFrameLocked, rollIfNeeded. destruct (_ || _); simpl; unfold writeFrame; rewrite Ho; simpl; by eexists.
Qed.
(** Appending the frame of a record that stands for [spec]. *)
Lemma append_keeps l points ts rec spec t payload sync : log_keeps l points ts ->
  5 + len payload < 2 ^ 32 -> decodeFramePayload t payload = Ok rec -> replays_as spec rec ->
  ends (fun _ l' => log_keeps l' (points ++ rec_Points spec) (ts ++ rec_Tombstones spec))
       (fun _ l' => log_keeps l' points ts) (logStep (fun l => appendFrameLocked l t payload sync) l).
Proof.
  intros Hl Hlen Hd Hs. destruct (lg_open l) eqn:Ho.
  - destruct Hl as (recs & specs & Hh & HF & -> & ->). rewrite opened_id in Hh by done.
    destruct (appendFrameLocked_holds l recs rec t payload sync Hh Hlen Hd) as (l' & E & Hl'). unfold logStep. rewrite E. simpl.
    exists (recs ++ [rec]), (specs ++ [spec]). split_and!; [by apply log_holds_open|by apply Forall2_app; [|constructor]|..];
      rewrite fmap_app, concat_app; simpl; by rewrite app_nil_r.
  - destruct (appendFrame_closed l t payload sync Ho) as [e E]. unfold logStep. by rewrite E.
Qed.

(** Opening the directory of a log. *)
Lemma Open_holds l recs : log_holds (opened l) recs -> log_holds (Open (lg_dir l) (lg_opts l)) recs.
Proof.
  intros (old & oldRecs & cur & curRecs & H & ->). exists old, oldRecs, cur, curRecs. split; [|done].
  pose proof (shape_all_sorted _ _ _ _ _ H) as Hsorted. pose proof H as [Hd Hs Hl Ho Hc Hz _]. simpl in *.
  assert (last (listSegments (lg_dir l)) = Some (lg_segment l)) as Elast.
  { rewrite Hd, listSegments_sorted by done. rewrite fmap_app. simpl. by rewrite last_snoc. }
  assert (lg_dir l !! lg_segment l = Some cur) as Ecur.
  { pose proof (shape_insert _ _ _ _ _ H) as Ei. simpl in Ei. by rewrite Ei, lookup_insert_eq. }
  assert ((len cur =? 0) = false) as Ene.
  { apply Z.eqb_neq. destruct Hc as (frames & _ & ->). pose proof appendSegmentHeader_len. unfold len, walSegmentHeaderLen in *. rewrite length_app. lia. }
  assert (forall o, openLastSegment (mkLog o (lg_dir l) ∅ false 1 0 0 0) =
    mkLog o (<[lg_segment l := cur]> (lg_dir l)) ∅ true (lg_segment l) (len cur) 0 0) as Eopen.
  { intros o. unfold openLastSegment. simpl. rewrite Elast. unfold openSegment. simpl. rewrite Ecur. simpl. by rewrite Ene. }
  unfold Open. rewrite Eopen. rewrite insert_id by done. by split.
Qed.
Lemma Checkpoint_keeps l points ts : log_keeps l points ts -> log_keeps (Checkpoint l) [] [].
Proof.
  intros (recs & specs & Hh & _). exists [], []. split_and!; [|constructor|done|done]. apply log_holds_open.
  assert (log_holds (opened (syncPendingLocked l)) recs) as Hs.
  { unfold syncPendingLocked. case_match; [done|]. destruct Hh as (old & oldRecs & cur & curRecs & Hsh & ->).
    exists old, oldRecs, cur, curRecs. split; [|done]. exact (shape_sync _ _ _ _ _ Hsh). }
  destruct (next_segment_only _ _ Hs) as (Hd & Hz & Ho). by apply shape_fresh_log.
Qed.
Lemma setDir_opened l d : opened (setDir l d) = setDir (opened l) d.
Proof. done. Qed.
Lemma Replay_keeps l recs : log_holds (opened l) recs -> ReplayRecords l = Ok (recs, l).
Proof.
  intros Hh. pose proof (ReplayRecords_holds _ _ Hh) as E. unfold ReplayRecords in *. simpl in *.
  destruct (replaySegments _ _ _) as [[records dir]| |]; simpl in *; [|done|done]. injection E as -> ->. by rewrite setDir_id.
Qed.

(** ** The contract *)
Section laws.
  Context `{GoRuntimeLaws}.

(** Payloads that the decoder accepts and whose length fits the frame header. *)
Record log_accepts (points : list ResolvedPoint) : Prop := {
  la_points : Forall point_ok points;
  la_sorted : Forall fields_sorted points;
  la_fits : batch_fits points;
  la_length payload : encodeBatchInto points = Ok payload -> 5 + len payload < 2 ^ 32;
}.
Record log_accepts_typed (batch : ResolvedTypedBatch) (rows : list Z) : Prop := {
  lt_ok points : resolvedPointsFromTypedBatch batch rows = Ok points -> typed_ok batch points;
  lt_valid : validateResolvedTypedBatch batch rows = Ok tt;
  lt_length payload : encodeTypedBatchInto batch rows = Ok payload -> 5 + len payload < 2 ^ 32;
}.
Record log_accepts_tombstone (t : Tombstone) : Prop := {
  lb_ok : tombstone_ok t;
  lb_length : 5 + len (encodeTombstones [t]) < 2 ^ 32;
}.

Lemma Append_keeps l points ts batch sync : log_keeps l points ts -> log_accepts batch ->
  ends (fun _ l' => log_keeps l' (points ++ batch) ts) (fun _ l' => log_keeps l' points ts)
    (logStep (fun l => Append l batch sync) l).
Proof.
  intros Hl [Hp Hs Hb Hlen]. unfold Append. pose proof (encodeBatchInto_no_panic batch) as Hnp.
  destruct (encodeBatchInto batch) as [payload|e|p] eqn:He; [|done|by destruct (Hnp p Hp)].
  destruct (encodeBatchInto_roundtrip _ _ Hp Hs Hb He) as (points' & Hd & HF).
  eapply ends_weaken; [apply (append_keeps l points ts (mkRecord points' []) (mkRecord batch []) recordWriteBatch payload sync Hl)| |done].
  - by apply Hlen.
  - unfold decodeFramePayload. simpl. by rewrite Hd.
  - split; [|done]. eapply Forall2_impl; [exact HF|]. apply same_point_replayed.
  - simpl. intros _ l' Hl'. by rewrite app_nil_r in Hl'.
Qed.
Lemma AppendTyped_keeps l points ts batch rows rowPoints sync : log_keeps l points ts ->
  resolvedPointsFromTypedBatch batch rows = Ok rowPoints -> log_accepts_typed batch rows ->
  ends (fun _ l' => log_keeps l' (points ++ rowPoints) ts) (fun _ l' => log_keeps l' points ts)
    (logStep (fun l => AppendTyped l batch rows sync) l).
Proof.
  intros Hl Hp [Hok Hv Hlen]. destruct (encodeTypedBatchInto_decode batch rows rowPoints Hp (Hok _ Hp) Hv) as (payload & He & Hd).
  unfold AppendTyped. rewrite He. cbn [wrapErr mbind outcome_bind].
  eapply ends_weaken; [apply (append_keeps l points ts (mkRecord rowPoints []) (mkRecord rowPoints []) recordWriteBatch payload sync Hl)| |done].
  - by apply Hlen.
  - unfold decodeFramePayload. simpl. by rewrite Hd.
  - split; [|done]. apply Forall_Forall2_diag, Forall_forall. intros p _. apply replayed_as_refl.
  - simpl. intros _ l' Hl'. by rewrite app_nil_r in Hl'.
Qed.
Lemma AppendTombstone_keeps l points ts t sync : log_keeps l points ts -> log_accepts_tombstone t ->
  ends (fun _ l' => log_keeps l' points (ts ++ [t])) (fun _ l' => log_keeps l' points ts)
    (logStep (fun l => AppendTombstones l [t] sync) l).
Proof.
  intros Hl [Hok Hlen]. unfold AppendTombstones.
  eapply ends_weaken; [apply (append_keeps l points ts (mkRecord [] [t]) (mkRecord [] [t]) recordTombstone (encodeTombstones [t]) sync Hl)| |done].
  - done.
  - unfold decodeFramePayload. simpl. rewrite decodeTombstones_encode; [done|by constructor|by_decide].
  - by split.
  - simpl. intros _ l' Hl'. by rewrite app_nil_r in Hl'.
Qed.
Lemma replayed_concat specs recs : Forall2 replays_as specs recs ->
  Forall2 replayed_as (concat (rec_Points <$> specs)) (concat (rec_Points <$> recs)) /\
  concat (rec_Tombstones <$> specs) = concat (rec_Tombstones <$> recs).
Proof.
  induction 1 as [|spec rec specs recs [Hp Ht] HF [IH1 IH2]]; [by split|]. rewrite !fmap_cons. simpl. split; [by apply Forall2_app|].
  by rewrite Ht, IH2.
Qed.

#[export] Instance logLaws : WalLaws Log.
Proof.
  refine {| wal_holds := log_keeps; wal_accepts := log_accepts; wal_accepts_typed := log_accepts_typed;
            wal_accepts_tombstone := log_accepts_tombstone; wal_healthy := fun _ => True |}.
  - intros l points ts (recs & specs & Hh & HF & E1 & E2). split; [|done]. exists recs, specs. split_and!; try done.
    by apply log_holds_open, Open_holds.
  - intros l points ts batch sync Hl Hb. eapply ends_weaken; [by apply Append_keeps|..]; simpl; auto.
  - intros l points ts batch rows rowPoints sync Hl Hp Hb. eapply ends_weaken; [by eapply AppendTyped_keeps|..]; simpl; auto.
  - intros l points ts t sync Hl Ht. eapply ends_weaken; [by apply AppendTombstone_keeps|..]; simpl; auto.
  - intros l points ts Hl. pose proof Hl as (recs & specs & Hh & HF & -> & ->). simpl. rewrite (Replay_keeps l recs Hh). simpl.
    split_and!; [done|done|by apply replayed_concat..].
  - intros l points ts Hl. split; [by eapply Checkpoint_keeps|done].
  - intros l points ts Hl. split; [exact Hl|done].
Defined.
End laws.
