(* ===== verification/ShardTheorems.v ===== *)
(** * The shard refines two lists of writes and deletions

    A client of a shard sees the view [now]; a reopened shard shows the view
    [kept].  Every history of writes, typed writes, deletions, flushes,
    compactions, queries and reopenings, whatever calls of the directory or of
    the log fail on the way, is a history of the two views. *)
From S2P Require Import Prelude Model WalEncoding WalRoundtrip WalLog WalDurability SstValues Runtime Versions MemColumn MemCompact StoreSpec MemTable MemTheorems EngineMerge Tombstones QueryMerge SstMeta MemoryBudget EngineOptions Planner SstPack Ports Shard ShardCompact WalTyped ShardInv ShardOps ShardFlush ShardMerge ShardCycle RefParts.
From stdpp Require Import prelude strings list sorting gmap.
From Stdlib Require Import ZArith Lia.
#[local] Open Scope Z_scope.

Inductive shard_op :=
  | ShWrite (points : list ResolvedPoint) (sync : bool)
  | ShTyped (batch : ResolvedTypedBatch) (rows : list Z) (sync : bool)
  | ShDelete (t : Tombstone) (sync : bool)
  | ShFlush
  | ShCompact
  | ShQuery (query : StorageQuery)
  | ShReopen.

(** ** Running operations *)
Section run.
  Context {W D P X B : Type} `{GoRuntime} `{WalStore W} `{PartStore D P X B}.
  Context (opts : ShardOptions).

(** A client holds a shard only when opening it succeeded. *)
Record client := mkClient { cl_open : bool; cl_shard : Shard W D P }.
Definition ErrNotOpen : goerr := Errorf "shard is not open".
Definition noAnswer {A} (m : step (Shard W D P) A) : step (Shard W D P) (list ColumnData) := _ ← m; mret [].
Definition on_shard_of {A} (m : step (Shard W D P) A) (c : client) : outcome A * client :=
  if cl_open c then let '(r, s) := m (cl_shard c) in (r, mkClient true s) else (Err ErrNotOpen, c).
Definition reopen (c : client) : outcome (list ColumnData) * client :=
  match (_ ← try_step closeLocked; OpenShard opts) (cl_shard c) with
  | (Ok _, s) => (Ok [], mkClient true s)
  | (Err e, s) => (Err e, mkClient false s)
  | (Panic p, s) => (Panic p, mkClient false s)
  end.
Definition run_op (op : shard_op) (c : client) : outcome (list ColumnData) * client :=
  match op with
  | ShWrite points sync => on_shard_of (noAnswer (WriteBatch points sync)) c
  | ShTyped batch rows sync => on_shard_of (noAnswer (WriteTypedBatch batch rows sync)) c
  | ShDelete t sync => on_shard_of (noAnswer (DeleteRange t sync)) c
  | ShFlush => on_shard_of (noAnswer Flush) c
  | ShCompact => on_shard_of (noAnswer Compact) c
  | ShQuery query => on_shard_of (ShardQuery query) c
  | ShReopen => reopen c
  end.
Fixpoint run_ops (ops : list shard_op) (c : client) : list (outcome (list ColumnData)) * client :=
  match ops with
  | [] => ([], c)
  | op :: ops' => let '(r, c) := run_op op c in let '(rs, c) := run_ops ops' c in (r :: rs, c)
  end.
(** No reopening comes after a million numbered parts: [partNumber] reads six
    digits. *)
Fixpoint numbered (ops : list shard_op) (c : client) : Prop :=
  match ops with
  | [] => True
  | op :: ops' => (op = ShReopen -> sh_nextPart (cl_shard c) <= 10 ^ 6) /\ numbered ops' (run_op op c).2
  end.
End run.
Arguments client : clear implicits.

(** ** The two views *)
Record spec := mkSpec { sp_open : bool; sp_now : view; sp_kept : view }.
Definition op_points (op : shard_op) : list ResolvedPoint :=
  match op with
  | ShWrite points _ => points
  | ShTyped batch rows _ => match resolvedPointsFromTypedBatch batch rows with Ok points => points | _ => [] end
  | _ => []
  end.
Definition op_writes (op : shard_op) : list (columnKey * VersionedSample) := batch_writes (op_points op).
Definition is_write (op : shard_op) : bool := match op with ShWrite _ _ | ShTyped _ _ _ => true | _ => false end.
Definition op_deletions (op : shard_op) : list Tombstone := match op with ShDelete t _ => [t] | _ => [] end.

(** The reopened view may catch up with the current one whenever the log is cut. *)
Definition catches_up (now kept kept' : view) : Prop := kept' = kept \/ kept' = now.

(** [permits schema sound sp op r sp']: the operation may end with [r] and
    take the views from [sp] to [sp'].  A failed write or deletion may or may not
    have taken effect, in the log alone or in both views; a flush or a compaction
    changes nothing a query sees, also when it fails; queries and reopenings fail
    only when the store is not sound. *)
Section permits.
  Context (schema : Z * Z -> Z) (sound : Prop).
Inductive permits : spec -> shard_op -> outcome (list ColumnData) -> spec -> Prop :=
  | pm_write op now kept kept' : is_write op = true ->
      catches_up (add_writes (op_writes op) now) (add_writes (op_writes op) kept) kept' ->
      permits (mkSpec true now kept) op (Ok []) (mkSpec true (add_writes (op_writes op) now) kept')
  | pm_write_refused op now kept e : is_write op = true ->
      permits (mkSpec true now kept) op (Err e) (mkSpec true now kept)
  | pm_write_logged op now kept e : is_write op = true ->
      permits (mkSpec true now kept) op (Err e) (mkSpec true now (add_writes (op_writes op) kept))
  | pm_write_late op now kept kept' e : is_write op = true ->
      catches_up (add_writes (op_writes op) now) (add_writes (op_writes op) kept) kept' ->
      permits (mkSpec true now kept) op (Err e) (mkSpec true (add_writes (op_writes op) now) kept')
  | pm_delete t sync now kept :
      permits (mkSpec true now kept) (ShDelete t sync) (Ok []) (mkSpec true (add_deletion t now) (add_deletion t kept))
  | pm_delete_failed t sync now kept kept' e : kept' = kept \/ kept' = add_deletion t kept ->
      permits (mkSpec true now kept) (ShDelete t sync) (Err e) (mkSpec true now kept')
  | pm_maintain op r now kept kept' : op = ShFlush \/ op = ShCompact -> r = Ok [] \/ (exists e, r = Err e) ->
      catches_up now kept kept' -> permits (mkSpec true now kept) op r (mkSpec true now kept')
  | pm_query query out now kept : answers schema query (visible now) out ->
      permits (mkSpec true now kept) (ShQuery query) (Ok out) (mkSpec true now kept)
  | pm_query_failed query e now kept : ~ sound ->
      permits (mkSpec true now kept) (ShQuery query) (Err e) (mkSpec true now kept)
  | pm_reopen b now kept : permits (mkSpec b now kept) ShReopen (Ok []) (mkSpec true kept kept)
  | pm_reopen_failed b now kept e : ~ sound -> permits (mkSpec b now kept) ShReopen (Err e) (mkSpec false kept kept)
  | pm_not_open op now kept : op <> ShReopen -> permits (mkSpec false now kept) op (Err ErrNotOpen) (mkSpec false now kept).
Inductive permitted : spec -> list shard_op -> list (outcome (list ColumnData)) -> spec -> Prop :=
  | pd_nil sp : permitted sp [] [] sp
  | pd_cons sp op r sp1 ops rs sp2 : permits sp op r sp1 -> permitted sp1 ops rs sp2 -> permitted sp (op :: ops) (r :: rs) sp2.
End permits.

(** Deletions of the views are deletions of the history. *)
Definition deleted_by (ts : list Tombstone) (sp : spec) : Prop :=
  vw_deletions (sp_now sp) ⊆ ts /\ vw_deletions (sp_kept sp) ⊆ ts.
Lemma permits_deletions schema sound sp op r sp' ts : permits schema sound sp op r sp' -> deleted_by ts sp ->
  deleted_by (ts ++ op_deletions op) sp'.
Proof.
  intros Hp [Hn Hk]. unfold catches_up, deleted_by in *.
  destruct Hp; unfold catches_up in *; simpl in *; destruct_or?; subst; simpl; set_solver.
Qed.

(** ** Every history of the shard is a history of the views *)
Section history.
  Context {W D P X B : Type} `{GoRuntimeLaws} `{WalLaws W} (schema : Z * Z -> Z) `{PartLaws schema D P X B}.
  Context (opts : ShardOptions) (U : contents) (HU : universe schema opts U) (sound : Prop).
  Context (Hstorable : forall wopts gs, shard_writes opts wopts -> drawn schema U gs -> gs <> [] -> pd_storable wopts gs).
  Context (Hunsplit : unsplit schema opts U) (Hquery : pd_query (rangeQuery ∅ ∅ (so_Start opts) (so_End opts))).
  Abbreviation client := (client W D P).

(** What the engine may ask of the shard: batches of typed points of the
    universe that the log takes; deletions only without automatic compaction;
    queries without a limit on the parts. *)
Definition op_ok (op : shard_op) : Prop :=
  match op with
  | ShWrite points _ => wal_accepts points
  | ShTyped batch rows _ => wal_accepts_typed batch rows /\ is_ok (resolvedPointsFromTypedBatch batch rows) /\
                            is_ok (estimateTypedWALFrameBytes batch rows)
  | ShDelete t _ => wal_accepts_tombstone t /\ cp_Enabled (so_Compaction opts) = false
  | ShQuery query => pd_query query /\ qb_MaxParts (sq_Budget query) <= 0
  | ShFlush | ShCompact | ShReopen => True
  end.
Definition points_ok (ts : list Tombstone) (points : list ResolvedPoint) : Prop :=
  Forall (point_typed schema) points /\ within (written (batch_writes points)) U /\ unhidden ts (batch_writes points).
(** Writes are newer than the deletions [ts] issued before them. *)
Fixpoint history_ok (ts : list Tombstone) (ops : list shard_op) : Prop :=
  match ops with
  | [] => True
  | op :: ops' => op_ok op /\ points_ok ts (op_points op) /\ history_ok (ts ++ op_deletions op) ops'
  end.

Definition related (c : client) (sp : spec) : Prop :=
  cl_open c = sp_open sp /\
  if sp_open sp then shard_inv schema opts U sound (cl_shard c) (sp_now sp) (sp_kept sp)
  else closed_inv schema opts U sound (cl_shard c) (sp_kept sp).

Lemma points_batch_ok ts points now kept : points_ok ts points -> vw_deletions now ⊆ ts -> vw_deletions kept ⊆ ts ->
  batch_ok schema U now kept points.
Proof. intros (Ht & Hw & Hu) Hn Hk. split; try done; by eapply unhidden_sub. Qed.

(** A step on an open shard. *)
Lemma run_open {A} (m : step (Shard W D P) A) sp op (c : client) Q E :
  cl_open c = true -> ends Q E (m (cl_shard c)) ->
  (forall a s, Q a s -> exists sp', permits schema sound sp op (Ok []) sp' /\ related (mkClient true s) sp') ->
  (forall e s, E e s -> exists sp', permits schema sound sp op (Err e) sp' /\ related (mkClient true s) sp') ->
  exists sp', permits schema sound sp op (on_shard_of (noAnswer m) c).1 sp' /\
    related (on_shard_of (noAnswer m) c).2 sp'.
Proof.
  intros Ho Hm HQ HE. unfold on_shard_of, noAnswer. rewrite Ho. unfold mbind, step_bind.
  destruct (m (cl_shard c)) as [[a|e|p] s]; simpl in *; [by eapply HQ|by eapply HE|done].
Qed.

Lemma maintained_related now kept s : maintained schema opts U sound now kept s ->
  exists kept', catches_up now kept kept' /\ related (mkClient true s) (mkSpec true now kept').
Proof. intros (kept' & Hk & Hs). exists kept'. by split. Qed.
Lemma write_permits {A} (m : step (Shard W D P) A) op now kept (c : client) : cl_open c = true -> is_write op = true ->
  ends (fun _ => maintained schema opts U sound (add_writes (op_writes op) now) (add_writes (op_writes op) kept))
       (fun _ => half_written schema opts U sound now kept (op_writes op)) (m (cl_shard c)) ->
  exists sp', permits schema sound (mkSpec true now kept) op (on_shard_of (noAnswer m) c).1 sp' /\
    related (on_shard_of (noAnswer m) c).2 sp'.
Proof.
  intros Ho Hw Hm. eapply (run_open m); [done|exact Hm|..].
  - intros a s (kept' & Hk & Hr)%maintained_related. eexists. split; [by eapply pm_write|exact Hr].
  - intros e s [Hs|[Hs|(kept' & Hk & Hr)%maintained_related]].
    + eexists. split; [by apply pm_write_refused|by split].
    + eexists. split; [by apply pm_write_logged|by split].
    + eexists. split; [by eapply pm_write_late|exact Hr].
Qed.
Lemma maintain_permits {A} (m : step (Shard W D P) A) op now kept (c : client) : cl_open c = true -> op = ShFlush \/ op = ShCompact ->
  ends (fun _ => flushed schema opts U sound now kept) (fun _ => maintained schema opts U sound now kept) (m (cl_shard c)) ->
  exists sp', permits schema sound (mkSpec true now kept) op (on_shard_of (noAnswer m) c).1 sp' /\
    related (on_shard_of (noAnswer m) c).2 sp'.
Proof.
  intros Ho Hop Hm. eapply (run_open m); [done|exact Hm|..].
  - intros a s Hf. apply flushed_maintained, maintained_related in Hf as (kept' & Hk & Hr). eexists. split; [|exact Hr].
    apply pm_maintain; auto.
  - intros e s (kept' & Hk & Hr)%maintained_related. eexists. split; [|exact Hr]. apply pm_maintain; eauto.
Qed.
Lemma query_permits query now kept (c : client) : cl_open c = true ->
  shard_inv schema opts U sound (cl_shard c) now kept -> pd_query query -> qb_MaxParts (sq_Budget query) <= 0 ->
  exists sp', permits schema sound (mkSpec true now kept) (ShQuery query) (on_shard_of (ShardQuery query) c).1 sp' /\
    related (on_shard_of (ShardQuery query) c).2 sp'.
Proof.
  intros Ho Hs Hq Hb. pose proof (ShardQuery_spec schema opts U HU sound _ now kept query Hs Hq ltac:(lia)) as Hspec.
  unfold on_shard_of. rewrite Ho. exists (mkSpec true now kept).
  assert (forall s', framed all all (cl_shard c) s' -> related (mkClient true s') (mkSpec true now kept)) as Hrel.
  { intros s' Hf. split; [done|]. by eapply (shard_inv_framed schema opts U sound all all). }
  destruct (ShardQuery query (cl_shard c)) as [[out|e|p] s]; simpl in *; [| |done]; destruct Hspec as [Hf Ha]; (split; [|by apply Hrel]).
  - by apply pm_query.
  - apply pm_query_failed. intros Hsd. apply Ha. destruct Hs as (stored & mw & wp & wt & Hsv & _). by apply (sv_sound _ _ _ _ _ _ Hsv).
Qed.
Lemma reopen_permits (c : client) sp : related c sp -> sh_nextPart (cl_shard c) <= 10 ^ 6 ->
  exists sp', permits schema sound sp ShReopen (reopen opts c).1 sp' /\ related (reopen opts c).2 sp'.
Proof.
  intros [Ho Hr] Hn. destruct sp as [b now kept]. simpl in *.
  assert (closed_inv schema opts U sound (cl_shard c) kept) as Hc by (destruct b; [by eapply closed_of_open|done]).
  assert (ends (fun _ s' => shard_inv schema opts U sound s' kept kept) (fun _ s' => closed_inv schema opts U sound s' kept /\ ~ sound)
    ((_ ← try_step closeLocked; OpenShard opts) (cl_shard c))) as He.
  { apply ends_bind, ends_try. eapply ends_weaken; [by apply (closeLocked_spec schema opts U sound)|..]; intros ? s Hs;
      by apply (OpenShard_spec schema opts U HU sound). }
  unfold reopen. destruct ((_ ← try_step closeLocked; OpenShard opts) (cl_shard c)) as [[a|e|p] s]; simpl in *; [| |done].
  - eexists. split; [apply pm_reopen|by split].
  - destruct He as [Hcl Hns]. eexists. split; [by apply pm_reopen_failed|by split].
Qed.

Lemma run_op_permits op (c : client) sp ts : related c sp -> deleted_by ts sp -> op_ok op -> points_ok ts (op_points op) ->
  (op = ShReopen -> sh_nextPart (cl_shard c) <= 10 ^ 6) ->
  exists sp', permits schema sound sp op (run_op opts op c).1 sp' /\ related (run_op opts op c).2 sp'.
Proof.
  intros Hr [Hdn Hdk] Hop Hpts Hn.
  assert (op = ShReopen \/ op <> ShReopen) as [->|Hne] by (destruct op; auto).
  { by apply reopen_permits; [|apply Hn]. }
  pose proof Hr as [Ho Hi]. destruct sp as [[] now kept]; simpl in *.
  2: { exists (mkSpec false now kept). assert (run_op opts op c = (Err ErrNotOpen, c)) as ->;
         [destruct op; simpl; unfold on_shard_of; by rewrite ?Ho|]. split; [by apply pm_not_open|done]. }
  pose proof (points_batch_ok ts _ now kept Hpts Hdn Hdk) as Hb.
  destruct op as [points sync|batch rows sync|t sync| | |query|]; simpl in *; [| | | | | |done].
  - apply write_permits; [done|done|]. by apply (WriteBatch_spec schema opts U HU sound Hstorable Hunsplit Hquery).
  - destruct Hop as (Hacc & [points Hp] & Hest). apply write_permits; [done|done|]. unfold op_writes. simpl. rewrite Hp in *.
    by apply (WriteTypedBatch_spec schema opts U HU sound Hstorable Hunsplit Hquery).
  - destruct Hop as [Hacc Hoff]. eapply (run_open (DeleteRange t sync)); [done|exact (DeleteRange_spec schema opts U HU sound _ now kept t sync Hi Hacc Hoff)|..].
    + intros a s Hs. eexists. split; [apply pm_delete|by split].
    + intros e s [Hs|Hs]; [exists (mkSpec true now kept)|exists (mkSpec true now (add_deletion t kept))];
        (split; [apply pm_delete_failed; auto|by split]).
  - apply maintain_permits; [done|by left|]. by apply (Flush_spec schema opts U HU sound Hstorable Hunsplit Hquery).
  - apply maintain_permits; [done|by right|]. by apply (Compact_spec schema opts U HU sound Hstorable Hunsplit Hquery).
  - destruct Hop as [Hq Hb']. by apply query_permits.
Qed.

Lemma run_ops_permitted ops : forall ts (c : client) sp, related c sp -> deleted_by ts sp -> history_ok ts ops -> numbered opts ops c ->
  exists sp', permitted schema sound sp ops (run_ops opts ops c).1 sp' /\ related (run_ops opts ops c).2 sp'.
Proof.
  induction ops as [|op ops IH]; intros ts c sp Hr Hd Hok Hn; [by exists sp; split; [constructor|]|].
  destruct Hok as (Hop & Hpts & Hok), Hn as [Hn Hns]. cbn [run_ops].
  destruct (run_op_permits op c sp ts Hr Hd Hop Hpts Hn) as (sp1 & Hp & Hr1). destruct (run_op opts op c) as [r c1] eqn:E1. simpl in *.
  destruct (IH (ts ++ op_deletions op) c1 sp1 Hr1) as (sp2 & Hps & Hr2); [by eapply permits_deletions|done|done|].
  destruct (run_ops opts ops c1) as [rs c2] eqn:E2. simpl in *. exists sp2. split; [by econstructor|done].
Qed.

(** A shard that does not exist yet: an empty log and an empty directory. *)
Definition empty_store (s : Shard W D P) : Prop :=
  wal_holds (sh_wal s) [] [] /\ mf_Parts (pd_manifest (sh_disk s)) = [] /\ pool_ok (sh_pool s).
Definition no_view : view := mkView [] [].
Lemma empty_closed s : empty_store s -> (sound -> pd_healthy (sh_disk s) /\ wal_healthy (sh_wal s)) ->
  closed_inv schema opts U sound s no_view.
Proof.
  intros (Hw & Hm & Hp) Hs. exists [], [], [], [], 0. split_and!; try done.
  - split; [|by rewrite Hm]. split; try done; constructor.
  - split; try done; try (by intros k x Hx%elem_of_nil).
Qed.
End history.


(** ** A history on the log of internal/wal and the reference part store *)
#[local] Existing Instances refRuntime refRuntimeLaws refStore.
Definition int_schema (_ : Z * Z) : Z := FieldInt64.
#[local] Instance ex_view : PartView refDir refPart refWriter refBatch := refView int_schema.
#[local] Instance ex_laws : PartLaws int_schema refDir refPart refWriter refBatch := refLaws int_schema.
Definition ex_shardOptions : ShardOptions :=
  mkShardOptions 0 1000 false 0 0 0 (mkCompactionOptions false 0 0 0 1 [] 1 0 0 0 0 0) zeroCompression.
Definition ex_write (ts seq v : Z) : ResolvedPoint := examplePoint 1 ts seq [exampleField 1 "f" v].
Definition ex_deletion : Tombstone := mkTombstone [] [] 150 250 4.
Definition ex_typed_write : ResolvedTypedBatch :=
  mkTypedBatch (str "metrics") (str "autogen") (str "cpu") [mkTagColumn (str "host") [str "a"]] [200] [1] [5]
    [mkTypedField 1 (str "f") FieldInt64 [] [21] [] []].
Definition ex_window : StorageQuery := rangeQuery ∅ ∅ 0 1000.
Definition ex_shardOps : list shard_op :=
  [ShReopen; ShWrite [ex_write 100 1 10; ex_write 200 2 20] true; ShFlush; ShWrite [ex_write 100 3 11] false;
   ShDelete ex_deletion true; ShQuery ex_window; ShCompact; ShTyped ex_typed_write [] true; ShReopen; ShQuery ex_window].
Definition ex_shard : Shard Log refDir refPart :=
  mkShard ex_shardOptions (Open ∅ WalDurability.exampleOptions) false New [] [] (mkManifest 0 []) [] 0 0 [] None None emptyDir.
Definition ex_sample (ts seq v : Z) : VersionedSample := mkSample ts seq (Int64Value v).
Definition ex_answer (samples : list VersionedSample) : outcome (list ColumnData) := Ok [mkColumnData 1 1 FieldInt64 samples].
Definition ex_results : list (outcome (list ColumnData)) :=
  [Ok []; Ok []; Ok []; Ok []; Ok []; ex_answer [ex_sample 100 3 11]; Ok []; Ok []; Ok [];
   ex_answer [ex_sample 100 3 11; ex_sample 200 5 21]].
Lemma ex_run : (run_ops ex_shardOptions ex_shardOps (mkClient false ex_shard)).1 = ex_results.
Proof. vm_compute. reflexivity. Qed.
Definition ex_writes : list (columnKey * VersionedSample) :=
  (fun x => ((1, 1), x)) <$> [ex_sample 100 1 10; ex_sample 200 2 20; ex_sample 100 3 11; ex_sample 200 5 21].
Definition ex_universe : contents := written ex_writes.

Lemma elem_of_written ws k x : x ∈ written ws k <-> (k, x) ∈ ws.
Proof.
  unfold written, of_key. rewrite list_elem_of_fmap. split.
  - intros ([k' x'] & -> & Hin). apply list_elem_of_filter in Hin as [Hk Hin]. simpl in Hk. by subst.
  - intros Hin. exists (k, x). split; [done|]. by apply list_elem_of_filter.
Qed.
Lemma ex_universe_elem k x : x ∈ ex_universe k ->
  k = (1, 1) /\ x ∈ [ex_sample 100 1 10; ex_sample 200 2 20; ex_sample 100 3 11; ex_sample 200 5 21].
Proof.
  unfold ex_universe. rewrite elem_of_written. unfold ex_writes. intros (y & Hy & Hin)%list_elem_of_fmap. by injection Hy as -> ->.
Qed.
Ltac sample_cases H :=
  repeat (apply elem_of_cons in H as [->|H]); [| | | |by apply elem_of_nil in H].
Lemma ex_universe_ok : universe int_schema ex_shardOptions ex_universe.
Proof.
  split.
  - intros k x y [_ Hx]%ex_universe_elem [_ Hy]%ex_universe_elem. sample_cases Hx; sample_cases Hy; simpl; intros; first [done|lia].
  - intros k x [_ Hx]%ex_universe_elem. by sample_cases Hx.
  - intros k x [_ Hx]%ex_universe_elem. by sample_cases Hx.
  - done.
Qed.

(** Groups of columns in the order of their series are sorted columns. *)
Lemma groups_sorted ids gs : StronglySorted Z.lt ids -> Forall2 series_group ids gs -> StronglySorted column_lt (concat gs).
Proof.
  intros Hs HF. induction HF as [|id g ids gs (Hne & Hid & Hg) HF IH]; [constructor|].
  apply StronglySorted_inv in Hs as [Hs Hlt]. simpl. apply StronglySorted_app_2; [|done|by apply IH].
  intros c d Hc Hd. left. apply elem_of_concat in Hd as (g' & Hd & Hg').
  apply list_elem_of_lookup in Hg' as [i Hi]. destruct (Forall2_lookup_r _ _ _ _ _ HF Hi) as (id' & Hid' & _ & Hs' & _).
  simpl. rewrite (proj1 (Forall_forall _ _) Hid _ Hc), (proj1 (Forall_forall _ _) Hs' _ Hd).
  apply (proj1 (Forall_forall _ _) Hlt). by eapply list_elem_of_lookup_2.
Qed.
Lemma drawn_servable schema U gs : drawn schema U gs -> servable schema (concat gs).
Proof.
  intros [(ids & Hs & HF) Hc]. split; [by eapply groups_sorted|]. apply Forall_concat. eapply Forall_impl; [exact Hc|].
  intros g Hg. eapply Forall_impl; [exact Hg|]. by intros c (? & _ & ? & _).
Qed.
Lemma longest_bound columns n : 0 <= n -> Forall (fun c => len (cd_Samples c) <= n) columns -> longestColumn columns <= n.
Proof.
  intros Hn HF. unfold longestColumn.
  assert (forall m, m <= n -> Forall (fun c => len (cd_Samples c) <= n) columns ->
    foldl (fun count column => if count <? len (cd_Samples column) then len (cd_Samples column) else count) m columns <= n) as Hg.
  { clear Hn HF. induction columns as [|c columns IH]; intros m Hm HF; [done|]. apply Forall_cons in HF as [Hc HF]. simpl.
    apply IH; [|done]. by case_match. }
  by apply Hg.
Qed.
Lemma ex_unsplit : unsplit int_schema ex_shardOptions ex_universe.
Proof.
  intros level id columns _ HF. unfold output_for, outputOptionsForLevel, compactionLevelOptions. simpl. rewrite app_nil_r.
  unfold splitSeriesSampleWindows. destruct (_ || _); [done|].
  assert (longestColumn columns <= 4) as Hl.
  { apply longest_bound; [done|]. eapply Forall_impl; [exact HF|]. intros c (_ & _ & Hs & Hin).
    assert (cd_Samples c ⊆ [ex_sample 100 1 10; ex_sample 200 2 20; ex_sample 100 3 11; ex_sample 200 5 21]) as Hsub.
    { intros x Hx. rewrite Forall_forall in Hin. by destruct (ex_universe_elem _ _ (Hin x Hx)). }
    pose proof (submseteq_length _ _ (NoDup_submseteq _ _ (ts_sorted_NoDup _ Hs) Hsub)) as Hlen. unfold len. simpl in Hlen. lia. }
  assert ((longestColumn columns <=? maxCompactionSeriesSamples) = true) as ->; [|done]. apply Z.leb_le. unfold maxCompactionSeriesSamples. lia.
Qed.
Lemma ex_within ws : ws ⊆ ex_writes -> within (written ws) ex_universe.
Proof. intros Hs k x. unfold ex_universe. rewrite !elem_of_written. apply Hs. Qed.
Lemma ex_points_ok ts points : Forall (point_typed int_schema) points -> batch_writes points ⊆ ex_writes ->
  Forall (fun w => Forall (fun t => ~ hides t w.1 w.2) ts) (batch_writes points) ->
  points_ok int_schema ex_universe ts points.
Proof.
  intros Ht Hs Hh. split_and!; [done|by apply ex_within|]. intros k x t Hx%elem_of_written Hin. rewrite Forall_forall in Hh.
  specialize (Hh _ Hx). rewrite Forall_forall in Hh. by apply Hh.
Qed.
Lemma ex_accepts points payload : Forall (fun p => exists ts seq v, p = ex_write ts seq v /\ is_i64 ts /\ 0 <= seq < 2 ^ 64 - 1 /\ is_i64 v) points ->
  batch_fits points -> encodeBatchInto points = Ok payload -> 5 + len payload < 2 ^ 32 -> log_accepts points.
Proof.
  intros HF Hb He Hl. split; [| |done|].
  - eapply Forall_impl; [exact HF|]. intros p (ts & seq & v & -> & Hts & Hseq & Hv). apply examplePoint_ok; [by_decide|done|done|].
    apply Forall_cons_2; [|apply Forall_nil_2]. apply exampleField_ok; [by_decide|done|by_decide].
  - eapply Forall_impl; [exact HF|]. intros p (ts & seq & v & -> & _). repeat constructor.
  - intros payload' E. congruence.
Qed.
Lemma ex_typed_resolved : resolvedPointsFromTypedBatch ex_typed_write [] = Ok [ex_write 200 5 21].
Proof. vm_compute. reflexivity. Qed.
Lemma ex_typed_accepted : log_accepts_typed ex_typed_write [].
Proof.
  split.
  - intros points. rewrite ex_typed_resolved. intros [= <-]. split.
    + apply Forall_cons_2; [|apply Forall_nil_2]. apply examplePoint_ok; [by_decide|by_decide|by_decide|].
      apply Forall_cons_2; [|apply Forall_nil_2]. apply exampleField_ok; by_decide.
    + by_decide.
    + intros p q ->%list_elem_of_singleton ->%list_elem_of_singleton. done.
    + apply Forall_cons_2; [|apply Forall_nil_2]. split_and!; by_decide.
    + by_decide.
    + by_decide.
  - vm_compute. reflexivity.
  - intros payload E. vm_compute in E. injection E as <-. by_decide.
Qed.
Lemma ex_history_ok :
  history_ok (W := Log) (D := refDir) (P := refPart) (X := refWriter) (B := refBatch) int_schema ex_shardOptions ex_universe [] ex_shardOps.
Proof.
  assert (forall ts, points_ok int_schema ex_universe ts []) as Hnil.
  { intros ts. apply ex_points_ok; [constructor| |constructor]. intros x Hx. by apply elem_of_nil in Hx. }
  unfold ex_shardOps. cbn [history_ok op_ok op_points op_deletions app].
  split; [done|]. split; [apply Hnil|].
  split; [eapply ex_accepts; [|split; by_decide|vm_compute; reflexivity|by_decide];
          repeat (apply Forall_cons_2; [by do 3 eexists|]); apply Forall_nil_2|].
  split; [apply ex_points_ok; [repeat constructor|by_decide|repeat constructor]|].
  split; [done|]. split; [apply Hnil|].
  split; [eapply ex_accepts; [|split; by_decide|vm_compute; reflexivity|by_decide];
          repeat (apply Forall_cons_2; [by do 3 eexists|]); apply Forall_nil_2|].
  split; [apply ex_points_ok; [repeat constructor|by_decide|repeat constructor]|].
  split; [split; [split; by_decide|done]|]. split; [apply Hnil|].
  split; [done|]. split; [apply Hnil|].
  split; [done|]. split; [apply Hnil|].
  split; [split; [apply ex_typed_accepted|split; [rewrite ex_typed_resolved; by eexists|vm_compute; by eexists]]|].
  split; [rewrite ex_typed_resolved; apply ex_points_ok; [repeat constructor|by_decide|]|].
  { repeat constructor. intros [_ Hseq _ _]. simpl in Hseq. by apply Hseq. }
  split; [done|]. split; [apply Hnil|]. split; [done|]. split; [apply Hnil|done].
Qed.
Lemma ex_numbered : numbered ex_shardOptions ex_shardOps (mkClient false ex_shard).
Proof.
  unfold ex_shardOps. cbn [numbered].
  repeat (split; [intros Hop; first [discriminate Hop|vm_compute; discriminate]|]). exact I.
Qed.
Lemma ex_empty : empty_store ex_shard.
Proof.
  split_and!; [|done|constructor]. exists [], []. split_and!; [|constructor|done|done]. apply log_holds_open, Open_empty_holds.
Qed.

(** ** A deletion that a compaction forgets

    Automatic compaction: the tombstone hides the first sample, which an
    earlier compaction has moved to level 1; the next flush starts a compaction of
    level 0 alone, which drops the tombstone. *)
Definition ex_cascadeOptions : ShardOptions :=
  mkShardOptions 0 1000 false 0 0 0
    (mkCompactionOptions true 1 0 0 1 [mkLevelOptions 0 1 0 0 zeroCompression; mkLevelOptions 1 8 0 0 zeroCompression] 8 0 0 0 0 0)
    zeroCompression.
Definition ex_forgottenOps : list shard_op :=
  [ShReopen; ShWrite [ex_write 100 1 10] true; ShFlush; ShWrite [ex_write 200 2 20] true; ShFlush;
   ShDelete (mkTombstone [] [] 0 150 3) true; ShQuery ex_window; ShWrite [ex_write 300 4 30] true; ShFlush; ShQuery ex_window].

