(* ===== verification/GoStrings.v ===== *)
(** * Text and map helpers of the metadata components

    [strings.TrimSpace] on UTF-8 text, and internal/collections: the sorted
    keys of a map and the copies of maps and slices.  Go strings are byte
    sequences; a string of the code's [Role] and [Permission] types is one
    too. *)
From S2P Require Import Prelude.
From stdpp Require Import prelude strings list sorting gmap.
From Stdlib Require Import ZArith Lia.
#[local] Open Scope Z_scope.

(** ** strings.TrimSpace

    The UTF-8 encodings of the code points [unicode.IsSpace] accepts.  A byte
    sequence that is not valid UTF-8 decodes to U+FFFD, which is no space, so
    trimming a side is removing encodings of spaces as long as one is there. *)
Definition spaces : list bytes :=
  [[9]; [10]; [11]; [12]; [13]; [32]; [0xc2; 0x85]; [0xc2; 0xa0]; [0xe1; 0x9a; 0x80];
   [0xe2; 0x80; 0x80]; [0xe2; 0x80; 0x81]; [0xe2; 0x80; 0x82]; [0xe2; 0x80; 0x83]; [0xe2; 0x80; 0x84];
   [0xe2; 0x80; 0x85]; [0xe2; 0x80; 0x86]; [0xe2; 0x80; 0x87]; [0xe2; 0x80; 0x88]; [0xe2; 0x80; 0x89];
   [0xe2; 0x80; 0x8a]; [0xe2; 0x80; 0xa8]; [0xe2; 0x80; 0xa9]; [0xe2; 0x80; 0xaf]; [0xe2; 0x81; 0x9f];
   [0xe3; 0x80; 0x80]].

(** The rest of [s] behind the first of [codes] it starts with. *)
Fixpoint strip_one (codes : list bytes) (s : bytes) : option bytes :=
  match codes with
  | [] => None
  | c :: codes' =>
      if bool_decide (take (length c) s = c) then Some (drop (length c) s) else strip_one codes' s
  end.
Fixpoint strip_all (fuel : nat) (codes : list bytes) (s : bytes) : bytes :=
  match fuel with
  | O => s
  | S fuel' => match strip_one codes s with Some s' => strip_all fuel' codes s' | None => s end
  end.
Definition TrimLeft (s : bytes) : bytes := strip_all (length s) spaces s.
Definition TrimRight (s : bytes) : bytes := rev (strip_all (length s) (map (@rev Z) spaces) (rev s)).
Definition TrimSpace (s : bytes) : bytes := TrimRight (TrimLeft s).

Example TrimSpace_ex : TrimSpace ([32; 9; 0xe2; 0x80; 0xa8] ++ str "a b" ++ [0xc2; 0xa0; 13; 10]) = str "a b".
Proof. vm_compute. reflexivity. Qed.
Example TrimSpace_invalid : TrimSpace [0xa0; 32] = [0xa0].
Proof. vm_compute. reflexivity. Qed.

(** ** internal/collections *)
Section collections.
  Context {V : Type}.
(** A nil map and an empty one have the same entries; both are the empty map. *)
Definition CloneMap (values : gmap bytes V) : gmap bytes V :=
  list_to_map (map_to_list values).
(** [slices.Sort] on strings: equal strings cannot be told apart, so the result
    does not depend on the order [range] visits the map in. *)
Definition SortedKeys (values : gmap bytes V) : list bytes :=
  merge_sort bytes_le (map_to_list values).*1.

Lemma CloneMap_id values : CloneMap values = values.
Proof. apply list_to_map_to_list. Qed.
End collections.

(** ** What trimming leaves

    [trimmed s]: [s] neither starts nor ends with a space. *)
Definition trimmed (s : bytes) : Prop :=
  strip_one spaces s = None /\ strip_one (map (@rev Z) spaces) (rev s) = None.
#[export] Instance trimmed_dec s : Decision (trimmed s).
Proof. unfold trimmed. apply _. Defined.

Lemma strip_one_spec codes s s' : strip_one codes s = Some s' -> exists c, c ∈ codes /\ s = c ++ s'.
Proof.
  induction codes as [|c codes IH]; simpl; [done|]. case_bool_decide as E.
  - intros [= <-]. exists c. split; [by left|]. rewrite <- E at 1. by rewrite take_drop.
  - intros H. destruct (IH H) as (c' & ? & ?). exists c'. split; [by right|done].
Qed.
Lemma strip_one_prefix codes c s : c ∈ codes -> strip_one codes (c ++ s) <> None.
Proof.
  induction codes as [|c' codes IH]; [by rewrite elem_of_nil|]. simpl. case_bool_decide; [done|].
  rewrite elem_of_cons. intros [<-|Hc]; [|by apply IH]. by rewrite take_app_length in *.
Qed.
Lemma strip_all_stuck codes s : [] ∉ codes -> forall fuel, (length s <= fuel)%nat ->
  strip_one codes (strip_all fuel codes s) = None.
Proof.
  intros Hne fuel. revert s. induction fuel as [|fuel IH]; intros s Hs; simpl.
  - destruct s; [|simpl in *; lia]. destruct (strip_one codes []) as [s'|] eqn:E; [|done].
    apply strip_one_spec in E as (c & Hc & E). destruct c; [done|]. discriminate E.
  - destruct (strip_one codes s) as [s'|] eqn:E; [|done]. apply IH.
    apply strip_one_spec in E as (c & Hc & ->). destruct c; [done|]. rewrite length_app in Hs.
    cbn [length] in Hs. lia.
Qed.
Lemma strip_all_suffix codes fuel : forall s, exists p, s = p ++ strip_all fuel codes s.
Proof.
  induction fuel as [|fuel IH]; intros s; simpl; [by exists []|].
  destruct (strip_one codes s) as [s'|] eqn:E; [|by exists []].
  apply strip_one_spec in E as (c & _ & ->). destruct (IH s') as [p Hp]. exists (c ++ p).
  rewrite <- (assoc_L (++)). by f_equal.
Qed.
Lemma strip_all_id codes fuel s : strip_one codes s = None -> strip_all fuel codes s = s.
Proof. destruct fuel; [done|]. simpl. by intros ->. Qed.

Lemma spaces_nonempty : [] ∉ spaces /\ [] ∉ map (@rev Z) spaces.
Proof. split; by_decide. Qed.
Lemma strip_one_app_l codes a b : strip_one codes (a ++ b) = None -> strip_one codes a = None.
Proof.
  intros H. destruct (strip_one codes a) as [s'|] eqn:E; [|done].
  apply strip_one_spec in E as (c & Hc & ->). rewrite <- (assoc_L (++)) in H.
  by apply strip_one_prefix in H.
Qed.

Lemma TrimSpace_trimmed s : trimmed (TrimSpace s).
Proof.
  unfold TrimSpace, TrimRight. destruct spaces_nonempty as [H1 H2]. set (l := TrimLeft s). split.
  - destruct (strip_all_suffix (map (@rev Z) spaces) (length l) (rev l)) as [p Hp].
    apply (strip_one_app_l _ _ (rev p)). rewrite <- rev_app_distr, <- Hp, rev_involutive.
    by apply strip_all_stuck.
  - rewrite rev_involutive. apply strip_all_stuck; [done|]. by rewrite length_rev.
Qed.
Lemma TrimSpace_id s : trimmed s -> TrimSpace s = s.
Proof.
  intros [H1 H2]. unfold TrimSpace, TrimLeft. rewrite (strip_all_id _ _ s H1).
  unfold TrimRight. rewrite strip_all_id by done. apply rev_involutive.
Qed.
Lemma TrimSpace_infix s : exists a b, s = a ++ TrimSpace s ++ b.
Proof.
  unfold TrimSpace, TrimRight. destruct (strip_all_suffix spaces (length s) s) as [p Hp]. fold (TrimLeft s) in Hp.
  destruct (strip_all_suffix (map (@rev Z) spaces) (length (TrimLeft s)) (rev (TrimLeft s))) as [q Hq].
  exists p, (rev q). rewrite <- rev_app_distr, <- Hq, rev_involutive. done.
Qed.
Lemma TrimSpace_bytes s : bytes_ok s -> bytes_ok (TrimSpace s).
Proof.
  intros Hs. destruct (TrimSpace_infix s) as (a & b & E). rewrite E in Hs. unfold bytes_ok in *.
  rewrite !Forall_app in Hs. naive_solver.
Qed.
Lemma TrimSpace_len s : len (TrimSpace s) <= len s.
Proof. destruct (TrimSpace_infix s) as (a & b & E). rewrite E at 2. rewrite !len_app. pose proof (len_nonneg a). pose proof (len_nonneg b). lia. Qed.

(** ** Sorted keys *)
Lemma SortedKeys_perm {V} (m : gmap bytes V) : SortedKeys m ≡ₚ (map_to_list m).*1.
Proof. apply merge_sort_Permutation. Qed.
Lemma elem_of_SortedKeys {V} (m : gmap bytes V) k : k ∈ SortedKeys m <-> is_Some (m !! k).
Proof.
  rewrite SortedKeys_perm, list_elem_of_fmap. split.
  - intros ([k' v] & -> & Hv). apply elem_of_map_to_list in Hv. by exists v.
  - intros [v Hv]. exists (k, v). by rewrite elem_of_map_to_list.
Qed.
Lemma NoDup_SortedKeys {V} (m : gmap bytes V) : NoDup (SortedKeys m).
Proof. rewrite SortedKeys_perm. apply NoDup_fst_map_to_list. Qed.
Lemma StronglySorted_SortedKeys {V} (m : gmap bytes V) : StronglySorted bytes_le (SortedKeys m).
Proof. apply (StronglySorted_merge_sort bytes_le). Qed.
Lemma length_SortedKeys {V} (m : gmap bytes V) : length (SortedKeys m) = size m.
Proof. rewrite SortedKeys_perm, length_fmap. by rewrite length_map_to_list. Qed.
(** The strict order of the sorted keys. *)
Lemma sorted_nodup_lt l : StronglySorted bytes_le l -> NoDup l -> StronglySorted bytes_lt l.
Proof.
  induction 1 as [|x l Hs IH Hx]; intros Hn; [constructor|]. apply NoDup_cons in Hn as [Hxl Hn].
  constructor; [by apply IH|]. apply Forall_forall. intros y Hy. rewrite Forall_forall in Hx.
  specialize (Hx y Hy). unfold bytes_lt, bytes_le in *. destruct (bytes_ltb x y) eqn:E; [done|].
  by rewrite (bytes_ltb_tricho _ _ E Hx) in Hxl.
Qed.
Lemma SortedKeys_lt {V} (m : gmap bytes V) : StronglySorted bytes_lt (SortedKeys m).
Proof. apply sorted_nodup_lt; [apply StronglySorted_SortedKeys|apply NoDup_SortedKeys]. Qed.
Lemma sorted_lookup {A} (R : relation A) l i j x y : StronglySorted R l ->
  l !! i = Some x -> l !! j = Some y -> (i < j)%nat -> R x y.
Proof.
  intros Hs. revert i j. induction Hs as [|a l Hs IH Ha]; intros i j Hi Hj Hij; [done|].
  destruct j as [|j]; [lia|]. destruct i as [|i]; simpl in *; [|apply (IH i j); [done..|lia]].
  injection Hi as ->. rewrite Forall_forall in Ha. apply Ha. by eapply list_elem_of_lookup_2.
Qed.

(** ** Maps written entry by entry

    [for range count { key, value := ...; m[key] = value }] *)
Fixpoint readMapLoop {V} (entry : reader (bytes * V)) (n : nat) (values : gmap bytes V) : reader (gmap bytes V) :=
  match n with
  | O => mret values
  | S n' => '(key, value) ← entry; readMapLoop entry n' (<[key := value]> values)
  end.

Definition insertKey {V} (m : gmap bytes V) (acc : gmap bytes V) (key : bytes) : gmap bytes V :=
  match m !! key with Some v => <[key := v]> acc | None => acc end.
Lemma lookup_insertKeys {V} (m : gmap bytes V) ks : forall acc k,
  foldl (insertKey m) acc ks !! k = if bool_decide (k ∈ ks /\ is_Some (m !! k)) then m !! k else acc !! k.
Proof.
  induction ks as [|k0 ks IH]; intros acc k; cbn [foldl].
  { rewrite bool_decide_false; [done|]. rewrite elem_of_nil. naive_solver. }
  rewrite IH. destruct (m !! k) as [v|] eqn:E.
  2: { rewrite !bool_decide_false by (intros [_ [? ?]]; done). unfold insertKey. destruct (m !! k0) eqn:E0; [|done].
       rewrite lookup_insert_ne; [done|]. intros ->. congruence. }
  destruct (decide (k ∈ ks)) as [Hk|Hk].
  { rewrite !bool_decide_true; [done|split; [by right|by eexists]|split; [done|by eexists]]. }
  rewrite (bool_decide_false (k ∈ ks /\ _)) by (by intros [? _]). unfold insertKey.
  destruct (decide (k = k0)) as [->|Hne].
  - rewrite bool_decide_true by (split; [by left|by eexists]). by rewrite E, lookup_insert_eq.
  - rewrite bool_decide_false; [destruct (m !! k0); [by rewrite lookup_insert_ne|done]|].
    rewrite elem_of_cons. naive_solver.
Qed.
Lemma insertKeys_all {V} (m : gmap bytes V) : foldl (insertKey m) ∅ (SortedKeys m) = m.
Proof.
  apply map_eq. intros k. rewrite lookup_insertKeys. case_bool_decide as E; [done|].
  rewrite elem_of_SortedKeys in E. rewrite lookup_empty. destruct (m !! k) eqn:Ek; [|done].
  exfalso. apply E. split; by eexists.
Qed.

Lemma reads_back_mapLoop {V} (entry : reader (bytes * V)) (enc : bytes -> V -> bytes) (d : V) m ks : forall acc,
  (forall k, k ∈ ks -> exists v, m !! k = Some v /\ reads_back entry (enc k v) (k, v)) ->
  reads_back (readMapLoop entry (length ks) acc) (concat (map (fun k => enc k (default d (m !! k))) ks))
    (foldl (insertKey m) acc ks).
Proof.
  induction ks as [|k ks IH]; intros acc Hks; simpl; [apply reads_back_ret|].
  destruct (Hks k (list_elem_of_here _ _)) as (v & Ev & Hv). unfold insertKey at 2. rewrite Ev. simpl.
  eapply reads_back_bind; [exact Hv|]. simpl. apply IH. intros k' Hk'. apply Hks. by right.
Qed.
Lemma concat_map_len {A} (f : A -> bytes) (l : list A) :
  (forall x, 0 < len (f x)) -> len l <= len (concat (map f l)).
Proof.
  intros Hf. induction l as [|x l IH]; simpl; [done|]. rewrite len_app. specialize (Hf x).
  unfold len in *. simpl. lia.
Qed.
Lemma size_len {V} (m : gmap bytes V) : len (SortedKeys m) = Z.of_nat (size m).
Proof. unfold len. by rewrite length_SortedKeys. Qed.

Lemma insertKeys_covering {V W : Type} (m : gmap bytes V) (u : gmap bytes W) :
  (forall k, is_Some (m !! k) -> is_Some (u !! k)) -> foldl (insertKey m) ∅ (SortedKeys u) = m.
Proof.
  intros Hk. apply map_eq. intros k. rewrite lookup_insertKeys. case_bool_decide as E; [done|].
  rewrite elem_of_SortedKeys in E. rewrite lookup_empty. destruct (m !! k) eqn:Ek; [|done].
  exfalso. apply E. split; [|by eexists]. apply Hk. by eexists.
Qed.
