(* ===== verification/StorageFS.v ===== *)
(** * internal/storagefs: files, faults and atomic replacement

    The calls of the package that the metadata stores rest on.  A disk maps the
    path of a file to its content.  Every call of the fault controller and of
    the operating system takes its result from a script of faults, so the
    theorems cover a failure at every point; with the script used up all calls
    succeed.  Paths are clean already, as [filepath.Join] leaves them.  The
    error of a second call that [errors.Join] adds (closing or removing after a
    failure) is dropped from the error value. *)
From S2P Require Import Prelude Runtime.
From stdpp Require Import prelude strings list gmap.
From Stdlib Require Import ZArith Lia.
#[local] Open Scope Z_scope.

Definition OpCreate : string := "create".
Definition OpWrite : string := "write".
Definition OpSync : string := "sync".
Definition OpRename : string := "rename".
Definition OpRemove : string := "remove".
Definition OpStat : string := "stat".
Definition OpWalk : string := "walk".
Definition ErrShortWrite : goerr := Errorf "short write".
Definition ErrNotExist : goerr := Errorf "file does not exist".
Definition ErrExist : goerr := Errorf "file already exists".

(** What one call does: the error it returns, if any, and for a write the
    number of bytes that reached the file. *)
Record Fault := mkFault { ft_err : option goerr; ft_written : Z }.
Record Disk := mkDisk { dk_files : gmap bytes bytes; dk_faults : list (option Fault) }.
Definition setFiles (files : gmap bytes bytes) (d : Disk) : Disk := mkDisk files (dk_faults d).

(** An [*OpError] is [ErrWrap] of its operation; [errors.As] finds one at any
    depth. *)
Definition opNames : list string := [OpCreate; OpWrite; OpSync; OpRename; OpRemove; OpStat; OpWalk].
Fixpoint isOpError (e : goerr) : bool :=
  match e with
  | ErrWrap msg e' => bool_decide (msg ∈ opNames) || isOpError e'
  | _ => false
  end.
Definition wrapOp (operation : string) (err : goerr) : goerr :=
  if isOpError err then err else ErrWrap operation err.

(** The next entry of the script. *)
Definition draw : step Disk (option Fault) := fun d =>
  match dk_faults d with
  | [] => (Ok None, d)
  | f :: fs => (Ok f, mkDisk (dk_files d) fs)
  end.
Definition check (f : option Fault) : step Disk unit :=
  match f with
  | Some f => match ft_err f with Some e => fail_step e | None => mret tt end
  | None => mret tt
  end.
(** A call of the operating system that changes no file. *)
Definition os_call : step Disk unit := f ← draw; check f.
Definition before (operation : string) : step Disk unit := f ← draw; check f.
(** [if err := m; err != nil { return wrapOp(op, path, err) }] *)
Definition wrapped {A} (operation : string) (m : step Disk A) : step Disk A :=
  r ← try_step m;
  match r with inl err => fail_step (wrapOp operation err) | inr a => mret a end.

Definition MkdirAll (path : bytes) : step Disk unit :=
  wrapped OpCreate (before OpCreate);;
  wrapped OpCreate os_call;;
  wrapped OpCreate os_call.

(** [filepath.Dir] of a clean path with a separator in it. *)
Fixpoint after_slash (rev_path : bytes) : bytes :=
  match rev_path with [] => [] | c :: r => if c =? 47 then r else after_slash r end.
Definition filepath_Dir (path : bytes) : bytes := rev (after_slash (rev path)).
Definition filepath_Join (dir name : bytes) : bytes := dir ++ [47] ++ name.

(** [os.CreateTemp(dir, ".tmp-*")] picks a random suffix; it fails when every
    name it tries is taken. *)
Definition tempName (dir suffix : bytes) : bytes := filepath_Join dir (str ".tmp-" ++ suffix).
Section storagefs.
  Context (suffixes : gmap bytes bytes -> bytes).

Definition os_CreateTemp (dir : bytes) : step Disk bytes :=
  os_call;;
  d ← get_step;
  let name := tempName dir (suffixes (dk_files d)) in
  if bool_decide (is_Some (dk_files d !! name)) then fail_step ErrExist
  else put_step (setFiles (<[name := []]> (dk_files d)) d);; mret name.
Definition CreateTemp (dir : bytes) : step Disk bytes :=
  wrapped OpCreate (before OpCreate);;
  wrapped OpCreate (os_CreateTemp dir).

(** Writing appends to the file behind the handle; the bytes that reached the
    file stay there when the call fails. *)
Definition appendFile (path data : bytes) : step Disk unit := fun d =>
  (Ok tt, setFiles (<[path := default [] (dk_files d !! path) ++ data]> (dk_files d)) d).
Definition clampWritten (written : Z) (data : bytes) : Z := Z.max 0 (Z.min written (len data)).
Definition os_Write (file data : bytes) : step Disk (Z * option goerr) :=
  f ← draw;
  match f with
  | None => appendFile file data;; mret (len data, None)
  | Some f =>
      let written := clampWritten (ft_written f) data in
      appendFile file (take (Z.to_nat written) data);;
      mret (written, ft_err f)
  end.
Definition Write (file data : bytes) : step Disk (Z * option goerr) :=
  r ← try_step (before OpWrite);
  match r with
  | inl err => mret (0, Some (wrapOp OpWrite err))
  | inr _ =>
      '(written, err) ← os_Write file data;
      mret (written, wrapOp OpWrite <$> err)
  end.
Definition writeFullError (written expected : Z) (err : goerr) : goerr :=
  if written =? expected then err else ErrWrap OpWrite err.
Definition WriteFull (file data : bytes) : step Disk unit :=
  if len data =? 0 then mret tt
  else
    '(written, err) ← Write file data;
    match err with
    | Some err => fail_step (writeFullError written (len data) err)
    | None =>
        if negb (written =? len data) then fail_step (wrapOp OpWrite ErrShortWrite)
        else mret tt
    end.
Definition Sync (file : bytes) : step Disk unit :=
  wrapped OpSync (before OpSync);;
  wrapped OpSync os_call.
Definition fsOpen (path : bytes) : step Disk unit :=
  wrapped OpStat (before OpStat);;
  wrapped OpStat os_call.
Definition os_Rename (oldPath newPath : bytes) : step Disk unit :=
  os_call;;
  d ← get_step;
  match dk_files d !! oldPath with
  | None => fail_step ErrNotExist
  | Some data => put_step (setFiles (<[newPath := data]> (delete oldPath (dk_files d))) d)
  end.
Definition Rename (oldPath newPath : bytes) : step Disk unit :=
  wrapped OpRename (before OpRename);;
  wrapped OpRename (os_Rename oldPath newPath).
Definition os_Remove (path : bytes) : step Disk unit :=
  os_call;;
  d ← get_step;
  match dk_files d !! path with
  | None => fail_step ErrNotExist
  | Some _ => put_step (setFiles (delete path (dk_files d)) d)
  end.
Definition Remove (path : bytes) : step Disk unit :=
  wrapped OpRemove (before OpRemove);;
  wrapped OpRemove (os_Remove path).
Definition os_ReadFile (path : bytes) : step Disk bytes :=
  os_call;;
  d ← get_step;
  match dk_files d !! path with None => fail_step ErrNotExist | Some data => mret data end.
Definition ReadFile (path : bytes) : step Disk bytes :=
  wrapped OpStat (before OpStat);;
  wrapped OpStat (os_ReadFile path).

Definition SyncDir (path : bytes) : step Disk unit :=
  wrap_step "open directory for sync" (fsOpen path);;
  r ← try_step (Sync path);
  match r with
  | inl err => try_step os_call;; fail_step (ErrWrap "sync directory" err)
  | inr _ => wrap_step "close directory" os_call
  end.

Definition writeAndClose (file data : bytes) : step Disk unit :=
  r ← try_step (WriteFull file data);
  match r with
  | inl err => try_step os_call;; fail_step (ErrWrap "write temp file" err)
  | inr _ =>
      r ← try_step (Sync file);
      match r with
      | inl err => try_step os_call;; fail_step (ErrWrap "sync temp file" err)
      | inr _ => wrap_step "close temp file" os_call
      end
  end.

(** [if err := m; err != nil { _ = Remove(tmpName); return err }] *)
Definition orRemove (tmpName : bytes) (m : step Disk unit) : step Disk unit :=
  r ← try_step m;
  match r with
  | inl err => try_step (Remove tmpName);; fail_step err
  | inr _ => mret tt
  end.
Definition WriteFileAtomic (path data : bytes) : step Disk unit :=
  let dir := filepath_Dir path in
  MkdirAll dir;;
  tmpName ← wrap_step "create temp file" (CreateTemp dir);
  orRemove tmpName (writeAndClose tmpName data);;
  orRemove tmpName (wrap_step "set temp file permissions" os_call);;
  orRemove tmpName (wrap_step "rename temp file" (Rename tmpName path));;
  SyncDir dir.
End storagefs.

Lemma after_slash_app a b : 47 ∉ a -> after_slash (a ++ 47 :: b) = b.
Proof.
  induction a as [|c a IH]; intros Ha; simpl; [done|]. rewrite not_elem_of_cons in Ha. destruct Ha as [Hc Ha].
  zcase (c =? 47); [congruence|by apply IH].
Qed.
Lemma Dir_Join dir name : 47 ∉ name -> filepath_Dir (filepath_Join dir name) = dir.
Proof.
  intros Hn. unfold filepath_Dir, filepath_Join. rewrite !rev_app_distr. simpl. rewrite <- app_assoc. simpl.
  rewrite after_slash_app; [apply rev_involutive|]. by rewrite list_elem_of_In, <- in_rev, <- list_elem_of_In.
Qed.
(** A file whose name is not that of a temporary one. *)
Definition named (name : bytes) : bool := negb (bool_decide (47 ∈ name)) && negb (bool_decide (head name = Some 46)).
Lemma temp_not_named dir name other suffix : named name = true -> named other = true ->
  tempName (filepath_Dir (filepath_Join dir name)) suffix <> filepath_Join dir other.
Proof.
  unfold named. rewrite !andb_true_iff, !negb_true_iff, !bool_decide_eq_false. intros [Hn _] [_ Hd].
  rewrite Dir_Join by done. unfold tempName, filepath_Join. intros E. apply app_inv_head in E. injection E as E. subst other.
  by destruct Hd.
Qed.

(** ** What a call may do to the files, whatever faults occur

    [does F m Q E]: run on the files [F] with any script of faults, [m] does not
    panic; on success its value and the files satisfy [Q], on failure the files
    satisfy [E]. *)
Definition does {A : Type} (F : gmap bytes bytes) (m : step Disk A) (Q : A -> gmap bytes bytes -> Prop)
    (E : gmap bytes bytes -> Prop) : Prop :=
  forall faults, ends (fun a d => Q a (dk_files d)) (fun _ d => E (dk_files d)) (m (mkDisk F faults)).

Implicit Types (e : goerr) (F : gmap bytes bytes) (file dir data path : bytes) (E : gmap bytes bytes -> Prop).

Lemma does_bind {A B : Type} F (m : step Disk A) (k : A -> step Disk B) Q Q' E :
  does F m Q E -> (forall a F', Q a F' -> does F' (k a) Q' E) -> does F (m ≫= k) Q' E.
Proof.
  intros Hm Hk faults. apply ends_bind. eapply ends_weaken; [apply (Hm faults)| |done].
  intros a [F' fs] Ha. exact (Hk a F' Ha fs).
Qed.
Lemma does_weaken {A : Type} F (m : step Disk A) (Q Q' : A -> gmap bytes bytes -> Prop) (E E' : gmap bytes bytes -> Prop) :
  does F m Q E -> (forall a F', Q a F' -> Q' a F') -> (forall F', E F' -> E' F') -> does F m Q' E'.
Proof. intros Hm HQ HE faults. eapply ends_weaken; [apply Hm|eauto..]. Qed.
Lemma does_ret {A : Type} F (a : A) (Q : A -> gmap bytes bytes -> Prop) E : Q a F -> does F (mret a) Q E.
Proof. by intros HQ faults. Qed.
Lemma does_fail {A : Type} F e (Q : A -> gmap bytes bytes -> Prop) (E : gmap bytes bytes -> Prop) :
  E F -> does F (fail_step e) Q E.
Proof. by intros HE faults. Qed.
Lemma does_try {A : Type} F (m : step Disk A) (Q : goerr + A -> gmap bytes bytes -> Prop) E :
  does F m (fun a => Q (inr a)) (fun F' => forall e, Q (inl e) F') -> does F (try_step m) Q E.
Proof.
  intros Hm faults. apply ends_try. eapply ends_weaken; [apply Hm|done|]. intros e d He. apply He.
Qed.
Lemma does_wrap {A : Type} F (msg : string) (m : step Disk A) Q E : does F m Q E -> does F (wrap_step msg m) Q E.
Proof. intros Hm faults. eapply ends_wrap; [apply Hm|done]. Qed.
Lemma does_wrapped {A : Type} F (op : string) (m : step Disk A) Q E : does F m Q E -> does F (wrapped op m) Q E.
Proof.
  intros Hm. unfold wrapped. eapply (does_bind _ _ _ (fun r F' => match r with inr a => Q a F' | inl _ => E F' end)).
  - apply does_try. eapply does_weaken; [apply Hm|done|done].
  - intros [e|a] F'; [apply does_fail|apply does_ret].
Qed.
(** Calls that leave every file alone, whether they succeed or fail. *)
Lemma does_os_call F E : E F -> does F os_call (fun _ F' => F' = F) E.
Proof. intros HE [|[[[e|] w]|] fs]; done. Qed.
Lemma does_before F (op : string) E : E F -> does F (before op) (fun _ F' => F' = F) E.
Proof. apply does_os_call. Qed.
Lemma does_get {B : Type} F (k : Disk -> step Disk B) Q E :
  (forall faults, does F (k (mkDisk F faults)) Q E) -> does F (get_step ≫= k) Q E.
Proof. intros Hk faults. apply (Hk faults). Qed.
Lemma does_put F (d' : Disk) (Q : unit -> gmap bytes bytes -> Prop) E : Q tt (dk_files d') -> does F (put_step d') Q E.
Proof. by intros HQ faults. Qed.

Create HintDb disk.
#[export] Hint Resolve does_ret does_fail does_wrap does_wrapped does_os_call does_before : disk.
(** [quietly] steps through a sequence of calls that change no file. *)
Ltac quietly := eapply does_bind; [by eauto with disk|]; intros [] ? ->.

Lemma does_MkdirAll F dir (E : gmap bytes bytes -> Prop) : E F -> does F (MkdirAll dir) (fun _ F' => F' = F) E.
Proof. intros HE. unfold MkdirAll. do 2 quietly. eauto with disk. Qed.
Lemma does_Sync F file (E : gmap bytes bytes -> Prop) : E F -> does F (Sync file) (fun _ F' => F' = F) E.
Proof. intros HE. unfold Sync. quietly. eauto with disk. Qed.
Lemma does_Open F file (E : gmap bytes bytes -> Prop) : E F -> does F (fsOpen file) (fun _ F' => F' = F) E.
Proof. intros HE. unfold fsOpen. quietly. eauto with disk. Qed.
#[export] Hint Resolve does_MkdirAll does_Sync does_Open : disk.
(** Whatever a call returns is dropped. *)
Lemma does_try_then {A B : Type} F F' (m : step Disk A) (k : step Disk B) Q E :
  does F m (fun _ F1 => F1 = F') (eq F') -> does F' k Q E -> does F (try_step m ≫= fun _ => k) Q E.
Proof.
  intros Hm Hk. eapply (does_bind _ _ _ (fun _ F1 => F1 = F')); [|by intros ? ? ->].
  apply does_try. eapply does_weaken; [apply Hm|done|]. by intros ? <-.
Qed.
Lemma does_SyncDir F dir (E : gmap bytes bytes -> Prop) : E F -> does F (SyncDir dir) (fun _ F' => F' = F) E.
Proof.
  intros HE. unfold SyncDir. quietly. eapply (does_bind _ _ _ (fun _ F1 => F1 = F)).
  - apply does_try. apply does_Sync. done.
  - intros [e|[]] ? ->; [|by eauto with disk].
    eapply does_try_then; [by apply does_os_call|by apply does_fail].
Qed.

Lemma does_WriteFull F file data : F !! file = Some [] ->
  does F (WriteFull file data) (fun _ F' => F' = <[file := data]> F)
    (fun F' => exists part, F' = <[file := part]> F).
Proof.
  intros HF. unfold WriteFull. zcase (len data =? 0).
  { apply does_ret. destruct data; [|unfold len in *; simpl in *; lia]. by rewrite insert_id. }
  assert (E0 : exists part, F = <[file := part]> F) by (exists []; by rewrite insert_id).
  intros [|f0 fs].
  { unfold Write, before, draw, check, try_step, os_Write, appendFile, mbind, step_bind, mret, step_ret; simpl.
    rewrite HF. simpl. by rewrite Z.eqb_refl. }
  unfold Write, before, draw, check, try_step, mbind, step_bind, mret, step_ret. cbn [dk_faults].
  destruct f0 as [[[e|] w0]|]; cbn [ft_err fail_step pure_step dk_files]; [exact E0|..];
    (unfold os_Write, draw, appendFile, mbind, step_bind, mret, step_ret; cbn [dk_faults dk_files];
     destruct fs as [|[[err w]|] fs]; cbn [dk_files setFiles fmap option_fmap option_map];
     rewrite HF; cbn [default ft_err ft_written app]; [by rewrite Z.eqb_refl| |by rewrite Z.eqb_refl];
     destruct err as [err|]; cbn [option_map]; [by eexists|];
     unfold clampWritten; zcase (Z.max 0 (Z.min w (len data)) =? len data); cbn [negb]; [|by eexists];
     cbn; by rewrite E1, count_nat, firstn_all).
Qed.

Lemma does_writeAndClose F file data : F !! file = Some [] ->
  does F (writeAndClose file data) (fun _ F' => F' = <[file := data]> F)
    (fun F' => exists part, F' = <[file := part]> F).
Proof.
  intros HF. unfold writeAndClose. eapply (does_bind _ _ _
    (fun r F' => match r with inr _ => F' = <[file := data]> F | inl _ => exists part, F' = <[file := part]> F end)).
  { apply does_try. eapply does_weaken; [by apply does_WriteFull|done|done]. }
  intros [e|[]] F'.
  - intros HF'. eapply does_try_then; [by apply does_os_call|by apply does_fail].
  - intros ->. eapply (does_bind _ _ _ (fun _ F1 => F1 = <[file := data]> F)); [by apply does_try, does_Sync|].
    intros [e|[]] ? ->.
    + eapply does_try_then; [by apply does_os_call|]. apply does_fail. by eexists.
    + apply does_wrap, does_os_call. by eexists.
Qed.

Lemma does_Remove F file : does F (Remove file) (fun _ F' => F' = delete file F) (eq F).
Proof.
  unfold Remove. quietly. apply does_wrapped. unfold os_Remove. quietly.
  apply does_get. intros fs. simpl. destruct (F !! file); [by apply does_put|by apply does_fail].
Qed.
Lemma does_Rename F (oldPath newPath : bytes) data : F !! oldPath = Some data ->
  does F (Rename oldPath newPath) (fun _ F' => F' = <[newPath := data]> (delete oldPath F)) (eq F).
Proof.
  intros HF. unfold Rename. quietly. apply does_wrapped. unfold os_Rename. quietly.
  apply does_get. intros fs. simpl. rewrite HF. by apply does_put.
Qed.
Lemma does_CreateTemp (suffixes : gmap bytes bytes -> bytes) F dir :
  does F (CreateTemp suffixes dir)
    (fun name F' => name = tempName dir (suffixes F) /\ F !! name = None /\ F' = <[name := []]> F) (eq F).
Proof.
  unfold CreateTemp. quietly. apply does_wrapped. unfold os_CreateTemp. quietly.
  apply does_get. intros fs. simpl. case_bool_decide as E; [by apply does_fail|].
  eapply does_bind; [by apply (does_put _ _ (fun _ F' => F' = <[tempName dir (suffixes F) := []]> F))|].
  intros [] ? ->. apply does_ret. by rewrite <- eq_None_not_Some in E.
Qed.

(** A failed attempt: the file holds what it held before or all of the new
    content, never a part of it, and no file is touched but the temporary one
    that was created for the attempt. *)
Definition attempted (F : gmap bytes bytes) (tmp path data : bytes) (F' : gmap bytes bytes) : Prop :=
  (F' !! path = F !! path \/ F' !! path = Some data) /\
  forall file, file <> path -> file <> tmp -> F' !! file = F !! file.

Lemma does_orRemove F (G : gmap bytes bytes) (Ok' : gmap bytes bytes -> Prop) (tmp : bytes) path data (m : step Disk unit) : tmp <> path ->
  does G m (fun _ => Ok') (fun F' => exists part, F' = <[tmp := part]> F) ->
  does G (orRemove tmp m) (fun _ => Ok') (attempted F tmp path data).
Proof.
  intros Hne Hm. unfold orRemove.
  eapply (does_bind _ _ _ (fun r F' => match r with inr _ => Ok' F' | inl _ => exists part, F' = <[tmp := part]> F end)).
  { apply does_try. eapply does_weaken; [apply Hm|done|done]. }
  intros [e|[]] F'; [|intros HF'; apply does_ret; exact HF']. intros [part ->].
  eapply (does_bind _ _ _ (fun _ F1 => F1 = <[tmp := part]> F \/ F1 = delete tmp (<[tmp := part]> F))).
  { apply does_try. eapply does_weaken; [apply does_Remove|auto|]. intros ? <-. auto. }
  intros _ F1 HF1. apply does_fail. unfold attempted. split.
  - left. destruct HF1 as [-> | ->]; [|rewrite lookup_delete_ne by done]; by rewrite lookup_insert_ne by done.
  - intros file _ Hf. destruct HF1 as [-> | ->]; [|rewrite lookup_delete_ne by done]; by rewrite lookup_insert_ne by done.
Qed.

Lemma does_WriteFileAtomic (suffixes : gmap bytes bytes -> bytes) F path data :
  let tmp := tempName (filepath_Dir path) (suffixes F) in tmp <> path ->
  does F (WriteFileAtomic suffixes path data) (fun _ F' => F' = <[path := data]> F) (attempted F tmp path data).
Proof.
  intros tmp Hne. assert (H0 : attempted F tmp path data F) by (split; auto).
  unfold WriteFileAtomic. eapply does_bind; [by apply does_MkdirAll|]. intros [] ? ->.
  eapply does_bind; [apply does_wrap; eapply does_weaken; [apply does_CreateTemp|done|by intros ? <-]|].
  intros name ? (-> & Hfresh & ->). fold tmp in Hfresh |- *.
  eapply does_bind.
  { apply (does_orRemove F _ (fun F' => F' = <[tmp := data]> F)); [done|].
    eapply does_weaken; [apply does_writeAndClose; apply lookup_insert_eq|..].
    - simpl. intros _ F' ->. apply insert_insert_eq.
    - simpl. intros F' [part ->]. exists part. apply insert_insert_eq. }
  intros [] ? ->. eapply does_bind.
  { apply (does_orRemove F _ (fun F' => F' = <[tmp := data]> F)); [done|].
    apply does_wrap, does_os_call. by eauto. }
  intros [] ? ->. eapply does_bind.
  { apply (does_orRemove F _ (fun F' => F' = <[path := data]> F)); [done|]. apply does_wrap.
    eapply does_weaken; [apply does_Rename; apply lookup_insert_eq|..].
    - simpl. intros _ F' ->. by rewrite delete_insert_id.
    - intros F' <-. by eauto. }
  intros [] ? ->. apply does_SyncDir. split; [right; apply lookup_insert_eq|].
  intros file Hf _. by rewrite lookup_insert_ne.
Qed.

Lemma WriteFileAtomic_atomic' suffixes path data d :
  tempName (filepath_Dir path) (suffixes (dk_files d)) <> path ->
  match WriteFileAtomic suffixes path data d with
  | (Ok _, d') => dk_files d' = <[path := data]> (dk_files d)
  | (Err _, d') =>
      (dk_files d' !! path = dk_files d !! path \/ dk_files d' !! path = Some data) /\
      forall file, file <> path -> file <> tempName (filepath_Dir path) (suffixes (dk_files d)) ->
        dk_files d' !! file = dk_files d !! file
  | (Panic _, _) => False
  end.
Proof.
  intros Hne. destruct d as [F faults]. pose proof (does_WriteFileAtomic suffixes F path data Hne faults) as H.
  destruct (WriteFileAtomic suffixes path data (mkDisk F faults)) as [[| |] d']; exact H.
Qed.

(** C37: whatever calls fail while a file is replaced, the file holds afterwards what it
    held before or all of the new content, the new content when the replacement
    succeeded, and no file is touched but the temporary one. *)
Theorem WriteFileAtomic_atomic suffixes path data d :
  tempName (filepath_Dir path) (suffixes (dk_files d)) <> path ->
  match WriteFileAtomic suffixes path data d with
  | (Ok _, d') => dk_files d' = <[path := data]> (dk_files d)
  | (Err _, d') =>
      (dk_files d' !! path = dk_files d !! path \/ dk_files d' !! path = Some data) /\
      forall file, file <> path -> file <> tempName (filepath_Dir path) (suffixes (dk_files d)) ->
        dk_files d' !! file = dk_files d !! file
  | (Panic _, _) => False
  end.
Proof. apply WriteFileAtomic_atomic'. Qed.
Definition ex_path : bytes := str "/data/users.bin".
Definition ex_disk : Disk := mkDisk {[ ex_path := str "old" ]} (replicate 9 None ++ [Some (mkFault (Some (Errorf "EIO")) 2)]).
(** A rename that fails leaves the old content; the temporary file is removed. *)
Lemma WriteFileAtomic_atomic_witness :
  exists e d', WriteFileAtomic (fun _ => str "1") ex_path (str "new") ex_disk = (Err e, d') /\
    dk_files d' = {[ ex_path := str "old" ]} /\
    (dk_files d' !! ex_path = dk_files ex_disk !! ex_path \/ dk_files d' !! ex_path = Some (str "new")).
Proof.
  assert (H : tempName (filepath_Dir ex_path) (str "1") <> ex_path) by by_decide.
  pose proof (WriteFileAtomic_atomic (fun _ => str "1") ex_path (str "new") ex_disk H) as W.
  assert (E : exists e d', WriteFileAtomic (fun _ => str "1") ex_path (str "new") ex_disk = (Err e, d') /\
    dk_files d' = {[ ex_path := str "old" ]}) by (vm_compute; eauto).
  destruct E as (e & d' & E & E'). exists e, d'. split; [exact E|]. split; [exact E'|].
  rewrite E in W. exact (proj1 W).
Defined.
