(* ===== verification/User.v ===== *)
(** * internal/user: users, grants, passwords and tokens

    The local user manager: the four maps of its state, their encoding in
    users.bin, and every operation of [Manager].  What an operation takes from
    outside is an argument: the results of [ctx.Err()] in the order they are
    asked for, the random bytes, the clock, the temporary file names and the
    faults of the disk.  The key derivation and the digest are [Crypto].

    The state that an operation works on is a copy of the one the manager
    holds, so that no map is shared between the two; the copies are values
    here. *)
From S2P Require Import Prelude GoBinary Model Codec Readers Runtime MemCompact GoStrings StorageFS.
From stdpp Require Import prelude strings list sorting gmap.
From Stdlib Require Import ZArith Lia.
#[local] Open Scope Z_scope.

(** ** types.go *)
Definition ErrInvalidUser : goerr := Errorf "invalid user".
Definition ErrInvalidPageLimit : goerr := Errorf "invalid page limit".
Definition ErrUserNotFound : goerr := Errorf "user not found".
Definition ErrUserAlreadyExists : goerr := Errorf "user already exists".
Definition ErrInvalidPermission : goerr := Errorf "invalid permission".
Definition ErrPermissionDenied : goerr := Errorf "permission denied".
Definition ErrInvalidCredentials : goerr := Errorf "invalid credentials".
Definition ErrAuthenticationDisabled : goerr := Errorf "authentication disabled".
Definition ErrUnsupportedEndpoint : goerr := Errorf "unsupported user endpoint".

Definition MaxGrantPageLimit : Z := 200.
Definition EndpointLocal : bytes := Eval cbv in str "local".
Definition RoleUser : bytes := Eval cbv in str "user".
Definition RoleAdmin : bytes := Eval cbv in str "admin".
Definition PermissionRead : bytes := Eval cbv in str "read".
Definition PermissionWrite : bytes := Eval cbv in str "write".
Definition PermissionAdmin : bytes := Eval cbv in str "admin".

Record UserOptions := mkUserOptions { Endpoint : bytes; PasswordAuthDisabled : bool }.
Definition DefaultOptions : UserOptions := mkUserOptions EndpointLocal false.
Record User := mkUser {
  u_Name : bytes;
  u_DisplayName : bytes;
  u_Role : bytes;
  u_Disabled : bool;
  u_Metadata : gmap bytes bytes;
}.
Definition zeroUser : User := mkUser [] [] [] false ∅.
Record Grant := mkGrant { g_Database : bytes; g_Permission : bytes }.
Record UserGrantBundle := mkBundle { ub_User : User; ub_Grants : list Grant }.
Record UserGrantPage := mkPage { up_Items : list UserGrantBundle; up_TotalUsers : Z; up_NextCursor : bytes }.
Record Credentials := mkCredentials { cr_UserName : bytes; cr_Password : bytes }.
(** A [time.Time] is its nanoseconds since the epoch. *)
Record AuthToken := mkAuthToken { at_Token : bytes; at_UserName : bytes; at_Role : bytes; at_ExpiresAt : Z }.
Record Principal := mkPrincipal { pr_UserName : bytes; pr_Role : bytes; pr_ExpiresAt : Z }.
Record passwordRecord := mkPasswordRecord { pw_Salt : bytes; pw_Hash : bytes; pw_Iterations : Z }.
Definition zeroPassword : passwordRecord := mkPasswordRecord [] [] 0.
Record tokenRecord := mkTokenRecord { tk_UserName : bytes; tk_ExpiresAtUnixNano : Z }.
Definition zeroToken : tokenRecord := mkTokenRecord [] 0.

#[export] Instance User_eq_dec : EqDecision User.
Proof. solve_decision. Defined.
#[export] Instance Grant_eq_dec : EqDecision Grant.
Proof. solve_decision. Defined.
#[export] Instance passwordRecord_eq_dec : EqDecision passwordRecord.
Proof. solve_decision. Defined.
#[export] Instance tokenRecord_eq_dec : EqDecision tokenRecord.
Proof. solve_decision. Defined.

Definition passwordSaltBytes : Z := 16.
Definition passwordHashBytes : Z := 32.
Definition passwordIterations : Z := 210000.
Definition tokenBytes : Z := 32.

(** ** The state: the four maps the code passes along together *)
Abbreviation permissionSet := (gset bytes).
Abbreviation userGrants := (gmap bytes permissionSet).
Record UserState := mkUserState {
  us_users : gmap bytes User;
  us_grants : gmap bytes userGrants;
  us_passwords : gmap bytes passwordRecord;
  us_tokens : gmap bytes tokenRecord;
}.
#[export] Instance UserState_eq_dec : EqDecision UserState.
Proof. solve_decision. Defined.
Definition emptyLocalState : UserState := mkUserState ∅ ∅ ∅ ∅.

(** ** local_user_helpers.go *)
Definition orderedPermissions : list bytes := [PermissionRead; PermissionWrite; PermissionAdmin].
Definition sortedGrantDatabases (grants : userGrants) : list bytes := SortedKeys grants.
Definition sortedStringMapKeys (values : gmap bytes bytes) : list bytes := SortedKeys values.
Definition sortedUserNames (users : gmap bytes User) : list bytes := SortedKeys users.
Definition sortedTokenDigests (tokens : gmap bytes tokenRecord) : list bytes := SortedKeys tokens.
Definition cloneStringMap (values : gmap bytes bytes) : gmap bytes bytes := CloneMap values.
Definition cloneUser (user : User) : User :=
  mkUser (u_Name user) (u_DisplayName user) (u_Role user) (u_Disabled user) (cloneStringMap (u_Metadata user)).
Definition cloneUsers (users : gmap bytes User) : gmap bytes User := cloneUser <$> users.
Definition clonePermissionSet (permissions : permissionSet) : permissionSet := list_to_set (elements permissions).
Definition cloneUserGrants (grants : userGrants) : userGrants := clonePermissionSet <$> grants.
Definition cloneGrants (grants : gmap bytes userGrants) : gmap bytes userGrants := cloneUserGrants <$> grants.
Definition clonePasswordRecord (record : passwordRecord) : passwordRecord :=
  mkPasswordRecord ([] ++ pw_Salt record) ([] ++ pw_Hash record) (pw_Iterations record).
Definition clonePasswordRecords (records : gmap bytes passwordRecord) : gmap bytes passwordRecord :=
  clonePasswordRecord <$> records.
Definition cloneTokenRecords (records : gmap bytes tokenRecord) : gmap bytes tokenRecord := CloneMap records.
Definition removeUserTokens (tokens : gmap bytes tokenRecord) (userName : bytes) : gmap bytes tokenRecord :=
  filter (fun kv => tk_UserName kv.2 <> userName) (cloneTokenRecords tokens).
Definition cloned (st : UserState) : UserState :=
  mkUserState (cloneUsers (us_users st)) (cloneGrants (us_grants st)) (clonePasswordRecords (us_passwords st))
    (cloneTokenRecords (us_tokens st)).

(** ** local_user_encoding.go: writing *)
Definition userMetadataMagic : bytes := Eval cbv in str "MTSUSR3".
Definition permissionBit (permission : bytes) : Z :=
  if bool_decide (permission = PermissionRead) then 1
  else if bool_decide (permission = PermissionWrite) then 2
  else if bool_decide (permission = PermissionAdmin) then 4
  else 0.
Definition permissionMask (permissions : permissionSet) : Z :=
  foldr (fun permission mask => Z.lor mask (permissionBit permission)) 0 (elements permissions).
Definition appendBytes (values : bytes) : bytes := appendUvarint (len values) ++ values.
Definition appendStringMap (values : gmap bytes bytes) : bytes :=
  let keys := sortedStringMapKeys values in
  appendUvarint (len keys) ++
  concat (map (fun key => AppendString key ++ AppendString (default [] (values !! key))) keys).
Definition appendUser (user : User) : bytes :=
  AppendString (u_Name user) ++ AppendString (u_DisplayName user) ++ AppendString (u_Role user) ++
  [if u_Disabled user then 1 else 0] ++ appendStringMap (u_Metadata user).
Definition appendUserGrants (grants : userGrants) : bytes :=
  let databases := sortedGrantDatabases grants in
  appendUvarint (len databases) ++
  concat (map (fun database => AppendString database ++ [permissionMask (default ∅ (grants !! database))]) databases).
Definition noPassword (record : passwordRecord) : bool :=
  (len (pw_Salt record) =? 0) || (len (pw_Hash record) =? 0) || (pw_Iterations record <=? 0).
Definition appendPasswordRecord (record : passwordRecord) : bytes :=
  if noPassword record then [0]
  else [1] ++ appendBytes (pw_Salt record) ++ appendBytes (pw_Hash record) ++
       appendUvarint (u64 (pw_Iterations record)).
Definition appendToken (digest : bytes) (token : tokenRecord) : bytes :=
  AppendString digest ++ AppendString (tk_UserName token) ++ le_put_u64 (u64 (tk_ExpiresAtUnixNano token)).
Definition appendTokenRecords (tokens : gmap bytes tokenRecord) : bytes :=
  let digests := sortedTokenDigests tokens in
  appendUvarint (len digests) ++
  concat (map (fun digest => appendToken digest (default zeroToken (tokens !! digest))) digests).
Definition appendUserEntry (st : UserState) (name : bytes) : bytes :=
  appendUser (default zeroUser (us_users st !! name)) ++
  appendPasswordRecord (default zeroPassword (us_passwords st !! name)) ++
  appendUserGrants (default ∅ (us_grants st !! name)).
Definition userMetadataPayload (st : UserState) : bytes :=
  appendUvarint (len (sortedUserNames (us_users st))) ++
  concat (map (appendUserEntry st) (sortedUserNames (us_users st))) ++
  appendTokenRecords (us_tokens st).
Definition encodeUserMetadata (st : UserState) : bytes :=
  MarshalEnvelope userMetadataMagic 0 (userMetadataPayload st).

(** ** Names, roles and options *)
Definition normalizeRole (role : bytes) : bytes :=
  let role := TrimSpace role in if bool_decide (role = []) then RoleUser else role.
Definition validRole (role : bytes) : bool := bool_decide (role = RoleUser) || bool_decide (role = RoleAdmin).
Definition normalizeUser (user : User) : outcome User :=
  let name := TrimSpace (u_Name user) in
  if bool_decide (name = []) then Err ErrInvalidUser
  else
    let role := normalizeRole (u_Role user) in
    if negb (validRole role) then Err ErrInvalidUser
    else Ok (mkUser name (TrimSpace (u_DisplayName user)) role (u_Disabled user) (cloneStringMap (u_Metadata user))).
Definition normalizeOptions (opts : UserOptions) : UserOptions :=
  if bool_decide (TrimSpace (Endpoint opts) = []) then mkUserOptions EndpointLocal (PasswordAuthDisabled opts)
  else mkUserOptions (TrimSpace (Endpoint opts)) (PasswordAuthDisabled opts).

(** ** local_user_encoding.go: reading *)
Module UserReader.
Definition msg (name what : string) : goerr := Errorf ("decode user metadata " +:+ name +:+ what).
Definition string (name : String.string) : reader bytes := rd_string ("decode user metadata " +:+ name).
(** The conversion to [int] wraps. *)
Definition uvarint (name : String.string) : reader Z :=
  count ← rd_uvarint (msg name ": invalid count"); mret (i64 count).
Definition count (name : String.string) : reader Z :=
  count ← uvarint name;
  (fun rest => if len rest <? count then Err (msg name ": count too large") else Ok (count, rest)) : reader Z.
(** [r.rest[:count]] of a negative count panics. *)
Definition bytes (name : String.string) : reader bytes :=
  count ← count name;
  (fun rest =>
    if len rest <? count then Err (msg name ": truncated bytes")
    else if count <? 0 then Panic IndexOutOfRange
    else Ok ([] ++ take (Z.to_nat count) rest, drop (Z.to_nat count) rest)) : reader Prelude.bytes.
Definition int64 (name : String.string) : reader Z :=
  value ← rd_u64 (msg name ": truncated int64"); mret (i64 value).
Definition byte (name : String.string) : reader Z := rd_byte (msg name ": truncated byte").
Definition bool (name : String.string) : reader Datatypes.bool :=
  value ← byte name;
  if value =? 0 then mret false else if value =? 1 then mret true else rfail (msg name ": invalid bool").

Definition stringEntry (name : String.string) : reader (Prelude.bytes * Prelude.bytes) :=
  key ← string (name +:+ " key");
  value ← string (name +:+ " value");
  mret (key, value).
Definition stringMap (name : String.string) : reader (gmap Prelude.bytes Prelude.bytes) :=
  count ← count (name +:+ " count");
  readMapLoop (stringEntry name) (Z.to_nat count) ∅.
Definition user : reader User :=
  name ← string "user name";
  displayName ← string "display name";
  roleText ← string "role";
  disabled ← bool "disabled";
  metadata ← stringMap "metadata";
  let role := normalizeRole roleText in
  if negb (validRole role) then rfail (msg "role" ": invalid role")
  else mret (mkUser name displayName role disabled metadata).
Definition permissionsFromMask (mask : Z) : outcome permissionSet :=
  if negb (Z.land mask (255 - 7) =? 0) then Err (msg "permission mask" ": invalid bits")
  else
    Ok ((if negb (Z.land mask 1 =? 0) then {[PermissionRead]} else ∅) ∪
        (if negb (Z.land mask 2 =? 0) then {[PermissionWrite]} else ∅) ∪
        (if negb (Z.land mask 4 =? 0) then {[PermissionAdmin]} else ∅)).
Definition grantEntry : reader (Prelude.bytes * permissionSet) :=
  database ← string "grant database";
  mask ← byte "grant permission mask";
  permissions ← lift (permissionsFromMask mask);
  mret (database, permissions).
Definition grants : reader userGrants :=
  count ← count "grant database count";
  readMapLoop grantEntry (Z.to_nat count) ∅.
Definition password : reader passwordRecord :=
  exists_ ← bool "password exists";
  if negb exists_ then mret zeroPassword
  else
    salt ← bytes "password salt";
    hash ← bytes "password hash";
    iterations ← uvarint "password iterations";
    mret (mkPasswordRecord salt hash iterations).
Definition tokenEntry : reader (Prelude.bytes * tokenRecord) :=
  digest ← string "token digest";
  userName ← string "token user";
  expiresAt ← int64 "token expires at";
  mret (digest, mkTokenRecord userName expiresAt).
Definition tokenRecords : reader (gmap Prelude.bytes tokenRecord) :=
  count ← count "token count";
  readMapLoop tokenEntry (Z.to_nat count) ∅.
(** One round of the loop over the users. *)
Definition userEntry (st : UserState) : reader UserState :=
  user ← user;
  password ← password;
  got ← grants;
  let name := u_Name user in
  mret (mkUserState (<[name := user]> (us_users st))
    (if 0 <? Z.of_nat (size got) then <[name := got]> (us_grants st) else us_grants st)
    (if (0 <? len (pw_Salt password)) && (0 <? len (pw_Hash password))
     then <[name := password]> (us_passwords st) else us_passwords st)
    (us_tokens st)).
Fixpoint userLoop (n : nat) (st : UserState) : reader UserState :=
  match n with
  | O => mret st
  | S n' => st' ← userEntry st; userLoop n' st'
  end.
Definition read : reader UserState :=
  count ← count "user count";
  st ← userLoop (Z.to_nat count) emptyLocalState;
  tokens ← tokenRecords;
  mret (mkUserState (us_users st) (us_grants st) (us_passwords st) tokens).
End UserReader.

Definition decodeUserMetadata (data : bytes) : outcome UserState :=
  env ← UnmarshalEnvelope data userMetadataMagic;
  '(st, rest) ← UserReader.read (env_Payload env);
  if negb (len rest =? 0) then Err (Errorf "decode user metadata: trailing bytes") else Ok st.

(** ** role_policy.go *)
Definition isAdmin (user : User) : bool := bool_decide (u_Role user = RoleAdmin) && negb (u_Disabled user).
Definition CanManageUser (actor target : User) : bool := isAdmin actor && negb (isAdmin target).
Definition CanSetPassword (actor target : User) : bool := CanManageUser actor target.
Definition CanGrantDatabase (actor target : User) : bool := CanManageUser actor target.
Definition CanChangeOwnPassword (actor : User) (targetName : bytes) : bool :=
  negb (bool_decide (u_Name actor = [])) && bool_decide (u_Name actor = targetName) && negb (u_Disabled actor).

(** ** local_user_permissions.go: helpers *)
Definition validPermission (permission : bytes) : bool :=
  bool_decide (permission = PermissionRead) || bool_decide (permission = PermissionWrite) ||
  bool_decide (permission = PermissionAdmin).
Definition validateGrantInput (userName database permission : bytes) : outcome (bytes * bytes) :=
  let userName := TrimSpace userName in
  let database := TrimSpace database in
  if bool_decide (userName = []) || bool_decide (database = []) || negb (validPermission permission)
  then Err ErrInvalidPermission
  else Ok (userName, database).
Definition checkPermission (user : User) (grants : userGrants) (database permission : bytes) : outcome unit :=
  if bool_decide (u_Name user = []) || u_Disabled user then Err ErrPermissionDenied
  else
    let permissions := default ∅ (grants !! database) in
    if bool_decide (permission ∈ permissions) then Ok tt
    else if bool_decide (PermissionAdmin ∈ permissions) then Ok tt
    else Err ErrPermissionDenied.
(** The set of the returned reference after the caller adds to it. *)
Definition ensureGrantSet (grants : gmap bytes userGrants) (userName database : bytes)
    (update : permissionSet -> permissionSet) : gmap bytes userGrants :=
  let databases := default ∅ (grants !! userName) in
  <[userName := <[database := update (default ∅ (databases !! database))]> databases]> grants.
Definition removeGrant (grants : gmap bytes userGrants) (userName database permission : bytes) : gmap bytes userGrants :=
  match grants !! userName with
  | None => grants (* every map involved is nil: nothing to delete *)
  | Some databases =>
      let permissions := default ∅ (databases !! database) ∖ {[permission]} in
      let databases :=
        if bool_decide (permissions = ∅) then delete database databases else <[database := permissions]> databases in
      if bool_decide (databases = ∅) then delete userName grants else <[userName := databases]> grants
  end.
Definition sortedGrants (grants : userGrants) : list Grant :=
  concat (map (fun database =>
    concat (map (fun permission =>
      if bool_decide (permission ∈ default ∅ (grants !! database)) then [mkGrant database permission] else [])
      orderedPermissions)) (sortedGrantDatabases grants)).
