(* ===== verification/UserManager.v ===== *)
(** * internal/user: the manager's operations

    [Manager] and [localStateStore] of internal/user, one definition per
    method.  A method runs under the manager's lock; [Authenticate] takes the
    lock twice (to verify the password and to store the token) and
    [VerifyToken] gives it up before it revokes an expired token, so their
    parts are definitions of their own that other calls may run between. *)
From S2P Require Import Prelude GoBinary Model Codec Readers Runtime MemCompact GoStrings StorageFS User.
From stdpp Require Import prelude strings list sorting gmap.
From Stdlib Require Import ZArith Lia.
#[local] Open Scope Z_scope.

(** The primitives of crypto/pbkdf2 (over SHA-256) and crypto/sha256. *)
Class Crypto := {
  pbkdf2_Key : forall (password salt : bytes) (iterations keyLength : Z), outcome bytes;
  sha256_Sum256 : bytes -> bytes;
}.

Record Manager := mkManager { m_path : bytes; m_store : UserState; m_opts : UserOptions }.
Record World := mkWorld { w_manager : Manager; w_disk : Disk }.

Definition onDisk {A} (m : step Disk A) : step World A := fun w =>
  let '(r, d) := m (w_disk w) in (r, mkWorld (w_manager w) d).
Definition getStore : step World UserState := w ← get_step; mret (m_store (w_manager w)).
Definition setStore (st : UserState) : step World unit := fun w =>
  let m := w_manager w in (Ok tt, mkWorld (mkManager (m_path m) st (m_opts m)) (w_disk w)).
(** [if err := ctx.Err(); err != nil { return err }] *)
Definition ctxErr (ctx : option goerr) : step World unit :=
  match ctx with Some e => fail_step e | None => mret tt end.
Definition authEnabled : step World unit :=
  w ← get_step;
  if PasswordAuthDisabled (m_opts (w_manager w)) then fail_step ErrAuthenticationDisabled else mret tt.

Definition hexDigit (n : Z) : Z := if n <? 10 then 48 + n else 87 + n.
Definition hexEncode (bs : bytes) : bytes := concat (map (fun b => [hexDigit (b / 16); hexDigit (b mod 16)]) bs).
Definition base64Digit (n : Z) : Z :=
  if n <? 26 then 65 + n else if n <? 52 then 71 + n else if n <? 62 then n - 4 else if n =? 62 then 45 else 95.
(** [base64.RawURLEncoding]: no padding. *)
Fixpoint base64Encode (bs : bytes) : bytes :=
  match bs with
  | a :: b :: c :: rest =>
      [base64Digit (a / 4); base64Digit (a mod 4 * 16 + b / 16); base64Digit (b mod 16 * 4 + c / 64);
       base64Digit (c mod 64)] ++ base64Encode rest
  | [a; b] => [base64Digit (a / 4); base64Digit (a mod 4 * 16 + b / 16); base64Digit (b mod 16 * 4)]
  | [a] => [base64Digit (a / 4); base64Digit (a mod 4 * 16)]
  | [] => []
  end.
Example base64Encode_ex : base64Encode (str "light w>?") = str "bGlnaHQgdz4_".
Proof. vm_compute. reflexivity. Qed.

Section manager.
  Context `{Crypto} (suffixes : gmap bytes bytes -> bytes).
  (** [rand.Read] into a buffer of the given size. *)
  Implicit Types (rand : Z -> outcome bytes) (ctx : option goerr).

(** ** local_state_store.go *)
Definition userMetadataFile : bytes := Eval cbv in str "users.bin".
(** The payload is built with [append], which panics past the address space. *)
Definition replace (st : UserState) : step World unit :=
  w ← get_step;
  let data := encodeUserMetadata st in
  if maxAlloc <? len data then pure_step (Panic MakesliceLen)
  else
    onDisk (WriteFileAtomic suffixes (m_path (w_manager w)) data);;
    setStore st.
Fixpoint errNotExist (e : goerr) : bool :=
  match e with ErrWrap _ e' => errNotExist e' | _ => bool_decide (e = ErrNotExist) end.
Definition load (path : bytes) : step Disk UserState :=
  r ← try_step (ReadFile path);
  match r with
  | inl err => if errNotExist err then mret emptyLocalState else fail_step err
  | inr data => wrap_step "decode user metadata" (pure_step (decodeUserMetadata data))
  end.

(** ** local_user_manager.go *)
Definition OpenWithOptions (dir : bytes) (opts : UserOptions) : step Disk Manager :=
  let opts := normalizeOptions opts in
  if negb (bool_decide (Endpoint opts = EndpointLocal)) then fail_step ErrUnsupportedEndpoint
  else
    MkdirAll dir;;
    let path := filepath_Join dir userMetadataFile in
    st ← load path;
    mret (mkManager path st opts).
Definition OpenManager (dir : bytes) : step Disk Manager := OpenWithOptions dir DefaultOptions.

Definition CreateUser ctx (user : User) : step World unit :=
  ctxErr ctx;;
  user ← pure_step (normalizeUser user);
  st ← getStore;
  if bool_decide (is_Some (us_users st !! u_Name user)) then fail_step ErrUserAlreadyExists
  else
    let c := cloned st in
    replace (mkUserState (<[u_Name user := cloneUser user]> (us_users c)) (us_grants c) (us_passwords c) (us_tokens c)).
Definition UpdateUser ctx (user : User) : step World unit :=
  ctxErr ctx;;
  user ← pure_step (normalizeUser user);
  st ← getStore;
  match us_users st !! u_Name user with
  | None => fail_step ErrUserNotFound
  | Some existing =>
      let c := cloned st in
      let tokens := if u_Disabled user && negb (u_Disabled existing)
                    then removeUserTokens (us_tokens c) (u_Name user) else us_tokens c in
      replace (mkUserState (<[u_Name user := cloneUser user]> (us_users c)) (us_grants c) (us_passwords c) tokens)
  end.
Definition GetUser ctx (name : bytes) : step World (option User) :=
  ctxErr ctx;;
  st ← getStore;
  mret (cloneUser <$> us_users st !! TrimSpace name).
Definition ListUsers ctx : step World (list User) :=
  ctxErr ctx;;
  st ← getStore;
  mret (map (fun name => cloneUser (default zeroUser (us_users st !! name))) (sortedUserNames (us_users st))).
Definition DeleteUser ctx (name : bytes) : step World unit :=
  ctxErr ctx;;
  let name := TrimSpace name in
  st ← getStore;
  if negb (bool_decide (is_Some (us_users st !! name))) then fail_step ErrUserNotFound
  else
    let c := cloned st in
    replace (mkUserState (delete name (us_users c)) (delete name (us_grants c)) (delete name (us_passwords c))
      (removeUserTokens (us_tokens c) name)).

(** ** local_user_permissions.go *)
Definition GrantPermission ctx (userName database permission : bytes) : step World unit :=
  ctxErr ctx;;
  '(userName, database) ← pure_step (validateGrantInput userName database permission);
  st ← getStore;
  if negb (bool_decide (is_Some (us_users st !! userName))) then fail_step ErrUserNotFound
  else
    let c := cloned st in
    replace (mkUserState (us_users c)
      (ensureGrantSet (us_grants c) userName database (fun permissions => permissions ∪ {[permission]}))
      (us_passwords c) (us_tokens c)).
Definition RevokePermission ctx (userName database permission : bytes) : step World unit :=
  ctxErr ctx;;
  '(userName, database) ← pure_step (validateGrantInput userName database permission);
  st ← getStore;
  if negb (bool_decide (is_Some (us_users st !! userName))) then fail_step ErrUserNotFound
  else
    let c := cloned st in
    replace (mkUserState (us_users c) (removeGrant (us_grants c) userName database permission)
      (us_passwords c) (us_tokens c)).
Definition ListPermissions ctx (userName : bytes) : step World (list Grant) :=
  ctxErr ctx;;
  let userName := TrimSpace userName in
  st ← getStore;
  if negb (bool_decide (is_Some (us_users st !! userName))) then fail_step ErrUserNotFound
  else mret (sortedGrants (default ∅ (us_grants st !! userName))).
Definition CheckPermission ctx (userName database permission : bytes) : step World unit :=
  ctxErr ctx;;
  '(userName, database) ← pure_step (validateGrantInput userName database permission);
  st ← getStore;
  pure_step (checkPermission (default zeroUser (us_users st !! userName)) (default ∅ (us_grants st !! userName))
    database permission).

(** ** local_user_grant_page.go *)
Definition grantBundle (st : UserState) (name : bytes) : UserGrantBundle :=
  mkBundle (cloneUser (default zeroUser (us_users st !! name))) (sortedGrants (default ∅ (us_grants st !! name))).
Definition ListUserGrantPage ctx ctx2 (cursor : bytes) (limit : Z) : step World UserGrantPage :=
  ctxErr ctx;;
  if (limit <? 1) || (MaxGrantPageLimit <? limit) then fail_step ErrInvalidPageLimit
  else
    ctxErr ctx2;;
    st ← getStore;
    let names := sortedUserNames (us_users st) in
    pure_step (
      start ← sort_Search (len names) (fun index => name ← idx names index; mret (bytes_ltb cursor name));
      let end_ := Z.min (start + limit) (len names) in
      let items := map (grantBundle st) (slice start end_ names) in
      next ← (if end_ <? len names then idx names (end_ - 1) else mret []);
      Ok (mkPage items (len names) next)).

(** ** local_user_auth.go *)
Definition tokenDigest (token : bytes) : bytes := hexEncode (sha256_Sum256 token).
Definition newPasswordRecord rand (password : bytes) : outcome passwordRecord :=
  salt ← rand passwordSaltBytes;
  hash ← pbkdf2_Key password salt passwordIterations passwordHashBytes;
  Ok (mkPasswordRecord salt hash passwordIterations).
Definition verifyPasswordRecord (record : passwordRecord) (password : bytes) : bool :=
  if noPassword record then false
  else
    match pbkdf2_Key password (pw_Salt record) (pw_Iterations record) (len (pw_Hash record)) with
    | Ok hash => bool_decide (hash = pw_Hash record)
    | _ => false
    end.
(** The locked part that SetPassword and ChangePassword share. *)
Definition storePassword (st : UserState) (userName : bytes) (record : passwordRecord) : step World unit :=
  let c := cloned st in
  replace (mkUserState (us_users c) (us_grants c) (<[userName := record]> (us_passwords c))
    (removeUserTokens (us_tokens c) userName)).
Definition SetPassword ctx rand (userName password : bytes) : step World unit :=
  ctxErr ctx;;
  authEnabled;;
  let userName := TrimSpace userName in
  if bool_decide (userName = []) || bool_decide (TrimSpace password = []) then fail_step ErrInvalidCredentials
  else
    record ← pure_step (newPasswordRecord rand password);
    st ← getStore;
    if negb (bool_decide (is_Some (us_users st !! userName))) then fail_step ErrUserNotFound
    else storePassword st userName record.
(** [user, ok := users[name]; if !ok || user.Disabled] *)
Definition enabledUser (st : UserState) (userName : bytes) : step World User :=
  match us_users st !! userName with
  | Some user => if u_Disabled user then fail_step ErrInvalidCredentials else mret user
  | None => fail_step ErrInvalidCredentials
  end.
Definition ChangePassword ctx rand (userName oldPassword newPassword : bytes) : step World unit :=
  ctxErr ctx;;
  authEnabled;;
  let userName := TrimSpace userName in
  if bool_decide (TrimSpace newPassword = []) then fail_step ErrInvalidCredentials
  else
    st ← getStore;
    enabledUser st userName;;
    if negb (verifyPasswordRecord (default zeroPassword (us_passwords st !! userName)) oldPassword)
    then fail_step ErrInvalidCredentials
    else
      record ← pure_step (newPasswordRecord rand newPassword);
      storePassword st userName record.
Definition VerifyPassword ctx (userName password : bytes) : step World unit :=
  ctxErr ctx;;
  authEnabled;;
  let userName := TrimSpace userName in
  st ← getStore;
  enabledUser st userName;;
  if negb (verifyPasswordRecord (default zeroPassword (us_passwords st !! userName)) password)
  then fail_step ErrInvalidCredentials
  else mret tt.
(** A token that is drawn but not stored yet: its text, its user and the time
    it expires. *)
Record pendingToken := mkPending { pt_token : bytes; pt_userName : bytes; pt_expiresAt : Z }.
Definition authenticateStart ctx ctx2 rand (now : Z) (credentials : Credentials) (ttl : Z) : step World pendingToken :=
  ctxErr ctx;;
  authEnabled;;
  if ttl <=? 0 then fail_step ErrInvalidCredentials
  else
    VerifyPassword ctx2 (cr_UserName credentials) (cr_Password credentials);;
    raw ← pure_step (rand tokenBytes);
    mret (mkPending (base64Encode raw) (TrimSpace (cr_UserName credentials)) (now + ttl)).
(** [expiresAt.UnixNano()] wraps at 64 bits. *)
Definition authenticateFinish (p : pendingToken) : step World AuthToken :=
  st ← getStore;
  user ← enabledUser st (pt_userName p);
  let c := cloned st in
  replace (mkUserState (us_users c) (us_grants c) (us_passwords c)
    (<[tokenDigest (pt_token p) := mkTokenRecord (pt_userName p) (i64 (pt_expiresAt p))]> (us_tokens c)));;
  mret (mkAuthToken (pt_token p) (pt_userName p) (u_Role user) (pt_expiresAt p)).
Definition Authenticate ctx ctx2 rand (now : Z) (credentials : Credentials) (ttl : Z) : step World AuthToken :=
  p ← authenticateStart ctx ctx2 rand now credentials ttl;
  authenticateFinish p.
Definition RevokeToken ctx (token : bytes) : step World unit :=
  ctxErr ctx;;
  authEnabled;;
  let token := TrimSpace token in
  if bool_decide (token = []) then fail_step ErrInvalidCredentials
  else
    st ← getStore;
    let c := cloned st in
    replace (mkUserState (us_users c) (us_grants c) (us_passwords c) (delete (tokenDigest token) (us_tokens c))).
(** What VerifyToken finds under the read lock: the record and its user. *)
Definition lookupToken (st : UserState) (token : bytes) : option tokenRecord * User :=
  let record := us_tokens st !! tokenDigest token in
  (record, default zeroUser (us_users st !! tk_UserName (default zeroToken record))).
Definition VerifyToken ctx ctx2 (now : Z) (token : bytes) : step World Principal :=
  ctxErr ctx;;
  authEnabled;;
  let token := TrimSpace token in
  if bool_decide (token = []) then fail_step ErrInvalidCredentials
  else
    st ← getStore;
    let '(found, user) := lookupToken st token in
    let record := default zeroToken found in
    let ok := bool_decide (is_Some found) in
    if negb ok || (tk_ExpiresAtUnixNano record <=? now) || bool_decide (u_Name user = []) || u_Disabled user then
      (if ok && (tk_ExpiresAtUnixNano record <=? now) then try_step (RevokeToken ctx2 token) else mret (inr tt));;
      fail_step ErrInvalidCredentials
    else mret (mkPrincipal (tk_UserName record) (u_Role user) (tk_ExpiresAtUnixNano record)).
End manager.
