(* ===== verification/UserCodec.v ===== *)
(** * users.bin reads back

    The well-formed states of the user manager, and that the encoding of such a
    state decodes to it. *)
From S2P Require Import Prelude GoBinary Model Codec Readers GoStrings StorageFS User.
From stdpp Require Import prelude strings list sorting gmap.
From Stdlib Require Import ZArith Lia.
#[local] Open Scope Z_scope.

(** ** Well-formed states *)
Definition permissions_ok (permissions : permissionSet) : Prop :=
  permissions <> ∅ /\ forall p, p ∈ permissions -> validPermission p = true.
Record user_ok (name : bytes) (user : User) : Prop := {
  uo_name : u_Name user = name;
  uo_nonempty : name <> [];
  uo_trimmed : trimmed name;
  uo_string : string_ok name;
  uo_display : string_ok (u_DisplayName user);
  uo_role : validRole (u_Role user) = true;
  uo_metadata : map_Forall (fun key value => string_ok key /\ string_ok value) (u_Metadata user);
}.
Definition grants_ok (grants : userGrants) : Prop :=
  grants <> ∅ /\ map_Forall (fun database permissions => string_ok database /\ permissions_ok permissions) grants.
Definition password_ok (record : passwordRecord) : Prop :=
  string_ok (pw_Salt record) /\ pw_Salt record <> [] /\ string_ok (pw_Hash record) /\ pw_Hash record <> [] /\
  0 < pw_Iterations record <= maxInt.
Definition token_ok (digest : bytes) (token : tokenRecord) : Prop :=
  string_ok digest /\ string_ok (tk_UserName token) /\ is_i64 (tk_ExpiresAtUnixNano token).
(** Every grant, password and token belongs to a user of the state. *)
Record state_ok (st : UserState) : Prop := {
  so_users : map_Forall user_ok (us_users st);
  so_grants : map_Forall (fun name grants => is_Some (us_users st !! name) /\ grants_ok grants) (us_grants st);
  so_passwords : map_Forall (fun name record => is_Some (us_users st !! name) /\ password_ok record) (us_passwords st);
  so_tokens : map_Forall (fun digest token => is_Some (us_users st !! tk_UserName token) /\ token_ok digest token)
    (us_tokens st);
}.

(** ** Counts and maps *)
Lemma count_then {B} name (k : Z -> reader B) c bs b : 0 <= c <= maxInt -> c <= len bs ->
  reads_back (k c) bs b -> reads_back (UserReader.count name ≫= k) (appendUvarint c ++ bs) b.
Proof.
  intros Hc Hl Hk rest. unfold UserReader.count, UserReader.uvarint, mbind, reader_bind.
  rewrite <- (assoc_L (++)), (rd_uvarint_append _ c) by wrap_lia. unfold mret, reader_ret.
  rewrite i64_id by (unfold maxInt in Hc; unfold is_i64; lia).
  assert ((len (bs ++ rest) <? c) = false) as -> by (rewrite len_app; pose proof (len_nonneg rest); apply Z.ltb_ge; lia).
  apply Hk.
Qed.

(** A map written as the count and the entries of its sorted keys. *)
Lemma reads_back_map {V} name (entry : reader (bytes * V)) (enc : bytes -> V -> bytes) (d : V) m :
  (forall k v, 0 < len (enc k v)) -> len (concat (map (fun k => enc k (default d (m !! k))) (SortedKeys m))) <= maxInt ->
  map_Forall (fun k v => reads_back entry (enc k v) (k, v)) m ->
  reads_back (c ← UserReader.count name; readMapLoop entry (Z.to_nat c) ∅)
    (appendUvarint (len (SortedKeys m)) ++ concat (map (fun k => enc k (default d (m !! k))) (SortedKeys m))) m.
Proof.
  intros Hpos Hmax Hm.
  pose proof (concat_map_len (fun k => enc k (default d (m !! k))) (SortedKeys m) (fun k => Hpos _ _)) as Hl.
  apply count_then; [unfold len in *; lia|done|]. rewrite count_nat.
  pose proof (reads_back_mapLoop entry enc d m (SortedKeys m) ∅) as R. rewrite insertKeys_all in R.
  apply R. intros k Hk. apply elem_of_SortedKeys in Hk as [v Hv]. exists v. split; [done|].
  by apply (Hm k v).
Qed.

(** ** The parts of an entry *)
Lemma AppendString_pos s : 0 < len (AppendString s).
Proof. unfold AppendString. rewrite len_app. pose proof (appendUvarint_pos (len s)). pose proof (len_nonneg s). lia. Qed.
Lemma reads_back_string name s : string_ok s -> reads_back (UserReader.string name) (AppendString s) s.
Proof. apply rd_string_append. Qed.
Lemma reads_back_bool name (b : bool) : reads_back (UserReader.bool name) [if b then 1 else 0] b.
Proof. by destruct b. Qed.
Lemma reads_back_bytes name bs : len bs <= maxInt -> reads_back (UserReader.bytes name) (appendBytes bs) bs.
Proof.
  intros Hl. unfold UserReader.bytes, appendBytes. pose proof (len_nonneg bs).
  apply count_then; [lia|done|]. intros rest.
  assert ((len (bs ++ rest) <? len bs) = false) as -> by (rewrite len_app; pose proof (len_nonneg rest); apply Z.ltb_ge; lia).
  assert ((len bs <? 0) = false) as -> by (apply Z.ltb_ge; lia).
  rewrite count_nat. by rewrite take_app_length, drop_app_length.
Qed.
Lemma reads_back_uvarint name x : 0 <= x <= maxInt -> reads_back (UserReader.uvarint name) (appendUvarint (u64 x)) x.
Proof.
  intros Hx. rewrite u64_id by (unfold is_u64, maxInt in *; lia).
  eapply reads_back_bind_nil; [apply rd_uvarint_append; unfold is_u64, maxInt in *; lia|].
  rewrite i64_id by (unfold is_i64, maxInt in *; lia). apply reads_back_ret.
Qed.
Lemma reads_back_int64 name x : is_i64 x -> reads_back (UserReader.int64 name) (le_put_u64 (u64 x)) x.
Proof.
  intros Hx. eapply reads_back_bind_nil; [apply rd_u64_append, u64_range|].
  rewrite i64_u64_id by done. apply reads_back_ret.
Qed.
#[export] Hint Resolve reads_back_string reads_back_bool reads_back_bytes reads_back_uvarint reads_back_int64 : reads.

Lemma appendStringMap_reads name m : len (appendStringMap m) <= maxInt ->
  map_Forall (fun key value => string_ok key /\ string_ok value) m ->
  reads_back (UserReader.stringMap name) (appendStringMap m) m.
Proof.
  intros Hl Hm. unfold appendStringMap, sortedStringMapKeys in *. rewrite len_app in Hl.
  pose proof (appendUvarint_pos (len (SortedKeys m))).
  apply (reads_back_map _ _ (fun k v => AppendString k ++ AppendString v)); [|lia|].
  - intros k v. rewrite len_app. pose proof (AppendString_pos k). pose proof (AppendString_pos v). lia.
  - intros k v Hkv. destruct (Hm k v Hkv) as [Hk Hv]. unfold UserReader.stringEntry.
    eapply reads_back_bind; [by apply reads_back_string|]. eapply reads_back_bind_nil; [by apply reads_back_string|].
    apply reads_back_ret.
Qed.

(** *** Permission masks *)
Lemma validPermission_cases p : validPermission p = true <-> p ∈ orderedPermissions.
Proof.
  unfold validPermission, orderedPermissions. rewrite !orb_true_iff, !bool_decide_eq_true.
  rewrite !elem_of_cons, elem_of_nil. tauto.
Qed.
Lemma mask_testbit l k : 0 <= k ->
  Z.testbit (foldr (fun permission mask => Z.lor mask (permissionBit permission)) 0 l) k
  = existsb (fun p => Z.testbit (permissionBit p) k) l.
Proof.
  intros Hk. induction l as [|p l IH]; simpl; [apply Z.testbit_0_l|]. rewrite Z.lor_spec, IH. apply orb_comm.
Qed.
Lemma permissionBit_testbit p k : 0 <= k -> Z.testbit (permissionBit p) k =
  (bool_decide (p = PermissionRead) && (k =? 0)) || (bool_decide (p = PermissionWrite) && (k =? 1)) ||
  (bool_decide (p = PermissionAdmin) && (k =? 2)).
Proof.
  intros Hk. assert (T : forall n, 0 <= n -> Z.testbit (2 ^ n) k = (k =? n)).
  { intros n Hn. rewrite Z.pow2_bits_eqb by done. apply Z.eqb_sym. }
  unfold permissionBit. repeat case_bool_decide; simplify_eq; simpl;
    rewrite ?orb_false_r; [apply (T 0)|apply (T 1)|apply (T 2)|apply Z.testbit_0_l]; lia.
Qed.
Lemma permissionMask_testbit permissions k : 0 <= k -> Z.testbit (permissionMask permissions) k =
  (bool_decide (PermissionRead ∈ permissions) && (k =? 0)) || (bool_decide (PermissionWrite ∈ permissions) && (k =? 1)) ||
  (bool_decide (PermissionAdmin ∈ permissions) && (k =? 2)).
Proof.
  intros Hk. unfold permissionMask. rewrite mask_testbit by done. apply eq_true_iff_eq.
  rewrite existsb_exists. setoid_rewrite permissionBit_testbit; [|done].
  rewrite !orb_true_iff, !andb_true_iff, !bool_decide_eq_true. setoid_rewrite orb_true_iff.
  setoid_rewrite orb_true_iff. setoid_rewrite andb_true_iff. setoid_rewrite bool_decide_eq_true.
  setoid_rewrite <- list_elem_of_In. setoid_rewrite elem_of_elements. naive_solver.
Qed.
Lemma land_pow2 mask k : 0 <= k -> negb (Z.land mask (2 ^ k) =? 0) = Z.testbit mask k.
Proof.
  intros Hk. destruct (Z.testbit mask k) eqn:T.
  - apply negb_true_iff, Z.eqb_neq. intros E0. apply (f_equal (fun z => Z.testbit z k)) in E0.
    rewrite Z.land_spec, T, Z.pow2_bits_true, Z.testbit_0_l in E0 by done. done.
  - apply negb_false_iff, Z.eqb_eq. apply Z.bits_inj'. intros n Hn.
    rewrite Z.land_spec, Z.pow2_bits_eqb, Z.testbit_0_l by done. zcase (k =? n); [subst; by rewrite T|apply andb_false_r].
Qed.
Lemma permissionMask_high permissions : Z.land (permissionMask permissions) (255 - 7) = 0.
Proof.
  apply Z.bits_inj'. intros n Hn. rewrite Z.land_spec, permissionMask_testbit, Z.testbit_0_l by done.
  zcase (n =? 0); [subst; by rewrite andb_false_r|]. zcase (n =? 1); [subst; by rewrite andb_false_r|].
  zcase (n =? 2); [subst; by rewrite andb_false_r|]. by rewrite !andb_false_r.
Qed.
Lemma permissionsFromMask_mask permissions : (forall p, p ∈ permissions -> validPermission p = true) ->
  UserReader.permissionsFromMask (permissionMask permissions) = Ok permissions.
Proof.
  intros Hp. unfold UserReader.permissionsFromMask. rewrite permissionMask_high. simpl. f_equal.
  rewrite (land_pow2 _ 0), (land_pow2 _ 1), (land_pow2 _ 2) by done.
  rewrite !permissionMask_testbit by done. simpl. rewrite !andb_true_r, !andb_false_r, !orb_false_r, !orb_false_l.
  apply set_eq. intros p. rewrite !elem_of_union. split.
  - intros [[H|H]|H]; revert H; case_bool_decide; rewrite ?elem_of_singleton, ?elem_of_empty; intros ?; by subst.
  - intros H. pose proof (Hp p H) as V. apply validPermission_cases in V. unfold orderedPermissions in V.
    rewrite !elem_of_cons, elem_of_nil in V.
    destruct V as [-> |[-> |[-> |[]]]]; [left; left|left; right|right]; rewrite bool_decide_true by done; set_solver.
Qed.
Lemma appendUserGrants_reads grants : len (appendUserGrants grants) <= maxInt ->
  map_Forall (fun database permissions => string_ok database /\ permissions_ok permissions) grants ->
  reads_back UserReader.grants (appendUserGrants grants) grants.
Proof.
  intros Hl Hm. unfold appendUserGrants, sortedGrantDatabases in *. rewrite len_app in Hl.
  pose proof (appendUvarint_pos (len (SortedKeys grants))).
  apply (reads_back_map _ _ (fun k v => AppendString k ++ [permissionMask v])); [|lia|].
  - intros k v. rewrite len_app. pose proof (AppendString_pos k). unfold len at 2. simpl. lia.
  - intros k v Hkv. destruct (Hm k v Hkv) as [Hk [_ Hv]]. unfold UserReader.grantEntry.
    eapply reads_back_bind; [by apply reads_back_string|].
    eapply reads_back_bind_nil; [apply rd_byte_append|].
    rewrite <- (app_nil_l []). eapply reads_back_bind; [|apply reads_back_ret].
    rewrite permissionsFromMask_mask by done. apply lift_ok.
Qed.
Lemma appendPasswordRecord_reads record : password_ok record ->
  reads_back UserReader.password (appendPasswordRecord record) record.
Proof.
  intros ([_ Hs] & Hs0 & [_ Hh] & Hh0 & Hi). unfold appendPasswordRecord, noPassword.
  assert (Hne : forall bs : bytes, bs <> [] -> (len bs =? 0) = false) by (intros [|??]; [done|intros _; apply Z.eqb_neq; unfold len; simpl; lia]).
  rewrite !Hne by done. assert ((pw_Iterations record <=? 0) = false) as -> by (apply Z.leb_gt; lia). cbn [orb].
  unfold UserReader.password. eapply reads_back_bind; [apply (reads_back_bool _ true)|]. cbn [negb].
  eapply reads_back_bind; [by apply reads_back_bytes|]. eapply reads_back_bind; [by apply reads_back_bytes|].
  eapply reads_back_bind_nil; [apply reads_back_uvarint; lia|]. destruct record. apply reads_back_ret.
Qed.
Lemma no_password_reads : reads_back UserReader.password (appendPasswordRecord zeroPassword) zeroPassword.
Proof. by intros rest. Qed.
Lemma appendUser_reads name user : user_ok name user -> len (appendUser user) <= maxInt ->
  reads_back UserReader.user (appendUser user) user.
Proof.
  intros [Hn Hne Ht Hs Hd Hr Hm] Hl. unfold appendUser in *. rewrite <- Hn in Hs.
  unfold UserReader.user. eapply reads_back_bind; [by apply reads_back_string|].
  assert (string_ok (u_Role user) /\ normalizeRole (u_Role user) = u_Role user) as [Hro Hno].
  { unfold validRole in Hr. apply orb_true_iff in Hr as [E|E]; apply bool_decide_eq_true in E; rewrite E;
      (split; [by_decide|vm_compute; reflexivity]). }
  eapply reads_back_bind; [by apply reads_back_string|]. eapply reads_back_bind; [by apply reads_back_string|].
  eapply reads_back_bind; [apply reads_back_bool|]. rewrite !len_app in Hl.
  pose proof (len_nonneg (AppendString (u_Name user))). pose proof (len_nonneg (AppendString (u_DisplayName user))).
  pose proof (len_nonneg (AppendString (u_Role user))). pose proof (len_nonneg [if u_Disabled user then 1 else 0]).
  eapply reads_back_bind_nil; [apply appendStringMap_reads; [lia|done]|].
  rewrite Hno, Hr. cbn [negb]. destruct user. apply reads_back_ret.
Qed.
Lemma appendTokenRecords_reads tokens : len (appendTokenRecords tokens) <= maxInt ->
  map_Forall token_ok tokens -> reads_back UserReader.tokenRecords (appendTokenRecords tokens) tokens.
Proof.
  intros Hl Hm. unfold appendTokenRecords, sortedTokenDigests in *. rewrite len_app in Hl.
  pose proof (appendUvarint_pos (len (SortedKeys tokens))).
  apply (reads_back_map _ _ appendToken); [|lia|].
  - intros k v. unfold appendToken. rewrite len_app. pose proof (AppendString_pos k).
    match goal with |- _ < _ + len ?x => pose proof (len_nonneg x) end. lia.
  - intros k v Hkv. destruct (Hm k v Hkv) as (Hk & Hu & He). unfold UserReader.tokenEntry, appendToken.
    eapply reads_back_bind; [by apply reads_back_string|]. eapply reads_back_bind; [by apply reads_back_string|].
    eapply reads_back_bind_nil; [by apply reads_back_int64|]. destruct v. apply reads_back_ret.
Qed.

(** ** The loop over the users *)
Definition insertEntry (st acc : UserState) (name : bytes) : UserState :=
  mkUserState (insertKey (us_users st) (us_users acc) name) (insertKey (us_grants st) (us_grants acc) name)
    (insertKey (us_passwords st) (us_passwords acc) name) (us_tokens acc).

Lemma appendUserEntry_reads st acc name : state_ok st -> is_Some (us_users st !! name) ->
  len (appendUserEntry st name) <= maxInt ->
  reads_back (UserReader.userEntry acc) (appendUserEntry st name) (insertEntry st acc name).
Proof.
  intros [Hu Hg Hp _] [u Eu] Hl. unfold appendUserEntry, insertEntry, insertKey in *. rewrite Eu in *. simpl in *.
  rewrite !len_app in Hl. pose proof (len_nonneg (appendUser u)).
  pose proof (len_nonneg (appendPasswordRecord (default zeroPassword (us_passwords st !! name)))).
  pose proof (len_nonneg (appendUserGrants (default ∅ (us_grants st !! name)))).
  destruct (Hu _ _ Eu) as [Hname Hrest]. unfold UserReader.userEntry.
  eapply reads_back_bind; [apply (appendUser_reads name); [by apply (Hu _ _ Eu)|lia]|].
  eapply (reads_back_bind _ _ _ _ (default zeroPassword (us_passwords st !! name))).
  { destruct (us_passwords st !! name) as [r|] eqn:Er; [|apply no_password_reads].
    apply appendPasswordRecord_reads. by apply (Hp _ _ Er). }
  eapply (reads_back_bind_nil _ _ _ (default ∅ (us_grants st !! name))).
  { apply appendUserGrants_reads; [lia|]. destruct (us_grants st !! name) as [g|] eqn:Er; [|apply map_Forall_empty].
    by apply (Hg _ _ Er). }
  rewrite Hname. eapply reads_back_eq; [|done]. intros rest. cbn zeta. unfold mret, reader_ret. do 3 f_equal.
  - destruct (us_grants st !! name) as [g|] eqn:Er; [|done]. simpl. destruct (Hg _ _ Er) as [_ [Hne _]].
    assert ((0 <? Z.of_nat (size g)) = true) as ->; [|done].
    apply Z.ltb_lt. destruct (decide (size g = 0%nat)) as [E|E]; [|lia].
    by apply map_size_empty_inv in E.
  - destruct (us_passwords st !! name) as [r|] eqn:Er; [|done]. simpl.
    destruct (Hp _ _ Er) as (_ & _ & Hs & _ & Hh & _).
    assert (Hpos : forall bs : bytes, bs <> [] -> (0 <? len bs) = true)
      by (intros [|??]; [done|intros _; apply Z.ltb_lt; unfold len; simpl; lia]).
    by rewrite !Hpos.
Qed.

Lemma userLoop_reads st ks : forall acc, state_ok st -> (forall k, k ∈ ks -> is_Some (us_users st !! k)) ->
  len (concat (map (appendUserEntry st) ks)) <= maxInt ->
  reads_back (UserReader.userLoop (length ks) acc) (concat (map (appendUserEntry st) ks)) (foldl (insertEntry st) acc ks).
Proof.
  induction ks as [|k ks IH]; intros acc Hst Hks Hl; [apply reads_back_ret|].
  cbn [map concat length UserReader.userLoop foldl]. cbn [map concat] in Hl. rewrite len_app in Hl.
  pose proof (len_nonneg (appendUserEntry st k)). pose proof (len_nonneg (concat (map (appendUserEntry st) ks))).
  eapply reads_back_bind; [apply appendUserEntry_reads; [done|apply Hks; by left|lia]|].
  apply IH; [done| |lia]. intros k' Hk'. apply Hks. by right.
Qed.
Lemma insertEntries st ks : forall acc, foldl (insertEntry st) acc ks =
  mkUserState (foldl (insertKey (us_users st)) (us_users acc) ks) (foldl (insertKey (us_grants st)) (us_grants acc) ks)
    (foldl (insertKey (us_passwords st)) (us_passwords acc) ks) (us_tokens acc).
Proof. induction ks as [|k ks IH]; intros acc; [by destruct acc|]. simpl. by rewrite IH. Qed.

Lemma appendUserEntry_pos st name : 0 < len (appendUserEntry st name).
Proof.
  unfold appendUserEntry, appendUser. rewrite !len_app.
  pose proof (AppendString_pos (u_Name (default zeroUser (us_users st !! name)))).
  repeat match goal with |- context [len ?x] => lazymatch goal with
    | _ : 0 <= len x |- _ => fail | _ : 0 < len x |- _ => fail | _ => pose proof (len_nonneg x) end end. lia.
Qed.
Lemma userMetadataPayload_reads st : state_ok st -> len (userMetadataPayload st) <= maxInt ->
  reads_back UserReader.read (userMetadataPayload st) st.
Proof.
  intros Hst Hl. unfold userMetadataPayload, sortedUserNames in *. set (ks := SortedKeys (us_users st)) in *.
  rewrite !len_app in Hl. pose proof (concat_map_len (appendUserEntry st) ks (appendUserEntry_pos st)) as Hks.
  pose proof (appendUvarint_pos (len ks)). pose proof (len_nonneg (appendTokenRecords (us_tokens st))).
  pose proof (len_nonneg ks). unfold UserReader.read.
  apply count_then; [lia|rewrite len_app; lia|]. rewrite count_nat. eapply reads_back_bind.
  { apply (userLoop_reads st); [done| |lia]. intros k Hk. by apply elem_of_SortedKeys. }
  eapply reads_back_bind_nil.
  { apply appendTokenRecords_reads; [lia|]. intros d t Ht. by apply (so_tokens _ Hst d t). }
  rewrite insertEntries. simpl. unfold ks. rewrite insertKeys_all, !insertKeys_covering.
  - destruct st. apply reads_back_ret.
  - intros k [r Hr]. by apply (so_passwords _ Hst k r).
  - intros k [g Hg]. by apply (so_grants _ Hst k g).
Qed.
Lemma payload_bound st : len (userMetadataPayload st) <= len (encodeUserMetadata st).
Proof.
  unfold encodeUserMetadata, MarshalEnvelope. cbn zeta. rewrite !len_app.
  repeat match goal with |- context [len ?x] => lazymatch goal with
    | _ : 0 <= len x |- _ => fail | _ => pose proof (len_nonneg x) end end. lia.
Qed.
Lemma userMetadata_decodes st : state_ok st -> len (encodeUserMetadata st) <= maxInt ->
  decodeUserMetadata (encodeUserMetadata st) = Ok st.
Proof.
  intros Hst Hl. pose proof (payload_bound st). unfold decodeUserMetadata, encodeUserMetadata.
  rewrite UnmarshalEnvelope_marshal by (done || lia). unfold mbind, outcome_bind. simpl.
  rewrite (reads_back_run _ _ _ (userMetadataPayload_reads st Hst ltac:(lia))). done.
Qed.
