(* ===== verification/UserSystem.v ===== *)
(** * What the operations of the user manager do to its state

    Every operation reads, checks, and then proposes one new state that is
    written to the file and swapped in ([proposes]).  Replacing the state is
    all or nothing in memory, and leaves a file that decodes.  The second half
    is the manager as a system of interleaved calls. *)
From S2P Require Import Prelude GoBinary Model Codec Readers Runtime MemCompact GoStrings StorageFS User UserManager UserCodec.
From stdpp Require Import prelude strings list sorting gmap.
From Stdlib Require Import ZArith Lia.
#[local] Open Scope Z_scope.

(** ** Copies are equal *)
Lemma cloneUser_id user : cloneUser user = user.
Proof. destruct user. unfold cloneUser, cloneStringMap. simpl. by rewrite CloneMap_id. Qed.
Lemma fmap_id_map {V} (f : V -> V) (m : gmap bytes V) : (forall v, f v = v) -> f <$> m = m.
Proof. intros Hf. apply map_eq. intros k. rewrite lookup_fmap. destruct (m !! k); simpl; by rewrite ?Hf. Qed.
Lemma cloned_id st : cloned st = st.
Proof.
  destruct st. unfold cloned. simpl. f_equal.
  - apply fmap_id_map, cloneUser_id.
  - apply fmap_id_map. intros g. apply fmap_id_map. intros p. apply list_to_set_elements_L.
  - apply fmap_id_map. by intros [].
  - apply CloneMap_id.
Qed.
Lemma lookup_removeUserTokens tokens name digest t :
  removeUserTokens tokens name !! digest = Some t <-> tokens !! digest = Some t /\ tk_UserName t <> name.
Proof. unfold removeUserTokens, cloneTokenRecords. rewrite CloneMap_id. apply map_lookup_filter_Some. Qed.

Definition okb {A} (r : outcome A) : bool := match r with Ok _ => true | _ => false end.
Lemma okb_true {A} (r : outcome A) : okb r = true <-> is_ok r.
Proof. split; [destruct r; [by eexists|done..]|]. by intros [a ->]. Qed.

(** ** The file and the state it stands for *)
Definition userPath (dir : bytes) : bytes := filepath_Join dir userMetadataFile.
(** The state a reopened manager finds. *)
Definition on_disk (path : bytes) (d : Disk) (st : UserState) : Prop :=
  state_ok st /\
  match dk_files d !! path with
  | None => st = emptyLocalState
  | Some data => data = encodeUserMetadata st /\ len data <= maxAlloc
  end.

Lemma temp_not_users dir suffix : tempName (filepath_Dir (userPath dir)) suffix <> userPath dir.
Proof. by apply temp_not_named. Qed.

Section world.
  Context `{Crypto} (suffixes : gmap bytes bytes -> bytes).

(** *** Replacing the state *)
Record replaced (st : UserState) (w : World) (r : outcome unit * World) : Prop := {
  rp_opts : m_opts (w_manager r.2) = m_opts (w_manager w);
  rp_path : m_path (w_manager r.2) = m_path (w_manager w);
  rp_store : m_store (w_manager r.2) = if okb r.1 then st else m_store (w_manager w);
  rp_disk : forall old, state_ok st -> on_disk (m_path (w_manager w)) (w_disk w) old ->
    if okb r.1 then on_disk (m_path (w_manager w)) (w_disk r.2) st
    else on_disk (m_path (w_manager w)) (w_disk r.2) old \/ on_disk (m_path (w_manager w)) (w_disk r.2) st;
}.
Lemma replace_spec dir st w : m_path (w_manager w) = userPath dir -> replaced st w (replace suffixes st w).
Proof.
  intros Hp. unfold replace, mbind, step_bind, get_step. simpl. zcase (maxAlloc <? len (encodeUserMetadata st)).
  { split; simpl; [done..|]. intros old _ Ho. by left. }
  unfold onDisk. rewrite Hp.
  pose proof (WriteFileAtomic_atomic' suffixes (userPath dir) (encodeUserMetadata st) (w_disk w) (temp_not_users _ _)) as W.
  destruct (WriteFileAtomic suffixes (userPath dir) (encodeUserMetadata st) (w_disk w)) as [[[]| |] d'] eqn:EW; [..|done].
  - unfold setStore. split; simpl; [done|done|done|]. intros old Hst _. rewrite Hp. split; [done|]. rewrite W, lookup_insert_eq.
    done.
  - split; simpl; [done..|]. rewrite Hp. intros old Hst [Hold Ho]. destruct W as [[W|W] _]; unfold on_disk; rewrite W.
    + by left.
    + by right.
Qed.

(** *** Operations propose one state *)
Definition proposes {A} (w : World) (P : UserState -> Prop) (m : step World A) : Prop :=
  (okb (m w).1 = false /\ (m w).2 = w) \/
  exists st, P st /\ (m w).2 = (replace suffixes st w).2 /\
    (okb (m w).1 = true -> okb (replace suffixes st w).1 = true).
(** Steps that only read. *)
Definition reads_only {A} (m : step World A) : Prop := forall w, (m w).2 = w.

Lemma proposes_read {A B} w P (g : step World A) (k : A -> step World B) : reads_only g ->
  (forall a, (g w).1 = Ok a -> proposes w P (k a)) -> proposes w P (g ≫= k).
Proof.
  intros Hg Hk. unfold proposes, mbind, step_bind. specialize (Hg w). destruct (g w) as [[a|e|p] w'] eqn:E; simpl in Hg; subst w'.
  - by apply Hk.
  - by left.
  - by left.
Qed.
Lemma proposes_store {B} w P (k : UserState -> step World B) :
  proposes w P (k (m_store (w_manager w))) -> proposes w P (getStore ≫= k).
Proof. done. Qed.
Lemma proposes_fail {A} w P e : proposes w P (fail_step (A := A) e).
Proof. by left. Qed.
Lemma proposes_replace w (P : UserState -> Prop) st : P st -> proposes w P (replace suffixes st).
Proof. intros HP. right. by exists st. Qed.
Lemma proposes_then {A B} w P (m : step World A) (f : A -> B) : proposes w P m -> proposes w P (a ← m; mret (f a)).
Proof.
  unfold proposes, mbind, step_bind, mret, step_ret. intros [[Hb Hw]|(st & HP & Hw & Hb)].
  - left. destruct (m w) as [[| |] w']; done.
  - right. exists st. split; [done|]. destruct (m w) as [[| |] w']; done.
Qed.
Lemma proposes_weaken {A} w (P Q : UserState -> Prop) (m : step World A) :
  proposes w P m -> (forall st, P st -> Q st) -> proposes w Q m.
Proof. intros [Hl|(st & HP & Hw)] HPQ; [by left|right]. exists st. auto. Qed.

Lemma reads_only_ctx ctx : reads_only (ctxErr ctx).
Proof. intros w. by destruct ctx. Qed.
Lemma reads_only_auth : reads_only authEnabled.
Proof. intros w. unfold authEnabled, mbind, step_bind, get_step. by case_match. Qed.
Lemma reads_only_pure {A} (m : outcome A) : reads_only (pure_step m).
Proof. by intros w. Qed.
Lemma reads_only_enabled st name : reads_only (enabledUser st name).
Proof. intros w. unfold enabledUser. repeat case_match; done. Qed.
Lemma enabledUser_ok st name w user : (enabledUser st name w).1 = Ok user ->
  us_users st !! name = Some user /\ u_Disabled user = false.
Proof. unfold enabledUser. repeat case_match; simpl; try done. by intros [= <-]. Qed.
End world.

Create HintDb users.
#[export] Hint Resolve reads_only_ctx reads_only_auth reads_only_pure reads_only_enabled : users.
(** [checked] steps over a check or a read of the operation at hand. *)
Ltac checked := apply proposes_read; [by auto with users|]; intros ? ?.

(** * The user manager as a concurrent system

    Calls of the manager's methods, interleaved at the points where they give
    up the lock, on a disk that may fail at every call, with reopenings in
    between.  [run_action] runs one such step and logs it; the theorems speak of
    the log. *)
(** What is relied on of the cryptographic primitives: the lengths of their
    results. *)
Class CryptoLaws `{Crypto} : Prop := {
  pbkdf2_Key_len password salt iterations n h :
    pbkdf2_Key password salt iterations n = Ok h -> bytes_ok h /\ len h = n;
  sha256_len bs : bytes_ok (sha256_Sum256 bs) /\ len (sha256_Sum256 bs) = 32;
}.

Inductive action :=
  | ACreate (ctx : option goerr) (user : User)
  | AUpdate (ctx : option goerr) (user : User)
  | ADelete (ctx : option goerr) (name : bytes)
  | AGrant (ctx : option goerr) (userName database permission : bytes)
  | ARevoke (ctx : option goerr) (userName database permission : bytes)
  | ASetPassword (ctx : option goerr) (rand : Z -> outcome bytes) (userName password : bytes)
  | AChangePassword (ctx : option goerr) (rand : Z -> outcome bytes) (userName oldPassword newPassword : bytes)
  | AAuthStart (ctx ctx2 : option goerr) (rand : Z -> outcome bytes) (now : Z) (credentials : Credentials) (ttl : Z)
  | AAuthFinish (p : pendingToken)
  | ARevokeToken (ctx : option goerr) (token : bytes)
  | AVerifyToken (ctx ctx2 : option goerr) (now : Z) (token : bytes)
  | AReopen (opts : UserOptions).

(** ** What an action may add and what it removes *)
Section effects.
  Context `{Crypto}.
Definition adds_token (a : action) (digest : bytes) (t : tokenRecord) : Prop :=
  match a with
  | AAuthFinish p => digest = tokenDigest (pt_token p) /\ t = mkTokenRecord (pt_userName p) (i64 (pt_expiresAt p))
  | _ => False
  end.
(** Deleting or disabling the user, setting its password, revoking the token. *)
Definition kills_token (a : action) (userName digest : bytes) : Prop :=
  match a with
  | AUpdate _ user => u_Disabled user = true /\ TrimSpace (u_Name user) = userName
  | ADelete _ name => TrimSpace name = userName
  | ASetPassword _ _ name _ | AChangePassword _ _ name _ _ => TrimSpace name = userName
  | ARevokeToken _ token => tokenDigest (TrimSpace token) = digest
  | _ => False
  end.
Definition adds_grant (a : action) (userName database permission : bytes) : Prop :=
  match a with
  | AGrant _ u d p => TrimSpace u = userName /\ TrimSpace d = database /\ p = permission
  | _ => False
  end.
Definition kills_grant (a : action) (userName database permission : bytes) : Prop :=
  match a with
  | ARevoke _ u d p => TrimSpace u = userName /\ TrimSpace d = database /\ p = permission
  | ADelete _ name => TrimSpace name = userName
  | _ => False
  end.
(** The arguments are Go strings; the random source fills the buffer. *)
Definition rand_ok (rand : Z -> outcome bytes) : Prop := forall n bs, rand n = Ok bs -> bytes_ok bs /\ len bs = n.
Definition user_arg (user : User) : Prop :=
  string_ok (u_Name user) /\ string_ok (u_DisplayName user) /\
  map_Forall (fun key value => string_ok key /\ string_ok value) (u_Metadata user).
Definition action_ok (a : action) : Prop :=
  match a with
  | ACreate _ user | AUpdate _ user => user_arg user
  | AGrant _ u d p | ARevoke _ u d p => string_ok d
  | ASetPassword _ rand _ _ | AChangePassword _ rand _ _ _ => rand_ok rand
  | _ => True
  end.
End effects.

Definition has_grant (st : UserState) (userName database permission : bytes) : Prop :=
  permission ∈ default ∅ (default ∅ (us_grants st !! userName) !! database).
(** No token of a disabled user is kept. *)
Definition tokens_enabled (st : UserState) : Prop :=
  map_Forall (fun _ t => forall user, us_users st !! tk_UserName t = Some user -> u_Disabled user = false) (us_tokens st).
Definition good (st : UserState) : Prop := state_ok st /\ tokens_enabled st.

Record evolves `{Crypto} (a : action) (st0 st : UserState) : Prop := {
  ev_good : good st;
  ev_tokens digest t : us_tokens st !! digest = Some t ->
    ~ kills_token a (tk_UserName t) digest /\ (us_tokens st0 !! digest = Some t \/ adds_token a digest t);
  ev_grants u d p : has_grant st u d p ->
    ~ kills_grant a u d p /\ (has_grant st0 u d p \/ adds_grant a u d p);
}.

(** ** Well-formedness of what the operations build *)
Lemma string_ok_trim s : string_ok s -> string_ok (TrimSpace s).
Proof. intros [Hb Hl]. split; [by apply TrimSpace_bytes|]. pose proof (TrimSpace_len s). lia. Qed.
Lemma normalizeUser_spec user u : normalizeUser user = Ok u ->
  u_Name u = TrimSpace (u_Name user) /\ u_Disabled u = u_Disabled user /\ (user_arg user -> user_ok (u_Name u) u).
Proof.
  unfold normalizeUser. case_bool_decide as Hn; [done|]. destruct (validRole _) eqn:Hr; simpl; [|done].
  intros [= <-]. simpl. split; [done|]. split; [done|]. intros (Hs & Hd & Hm).
  split; simpl; [done|done|apply TrimSpace_trimmed|by apply string_ok_trim|by apply string_ok_trim|done|].
  unfold cloneStringMap. by rewrite CloneMap_id.
Qed.
Lemma hexEncode_ok bs : bytes_ok bs -> bytes_ok (hexEncode bs) /\ len (hexEncode bs) = 2 * len bs.
Proof.
  induction 1 as [|b bs Hb Hbs [IH1 IH2]]; [by split; [constructor|]|]. unfold hexEncode in *. cbn [map concat]. split.
  - unfold bytes_ok. rewrite Forall_app. split; [|done]. unfold is_byte in Hb.
    assert (forall n, 0 <= n < 16 -> is_byte (hexDigit n)) as Hd
      by (intros n Hn; unfold hexDigit, is_byte; zcase (n <? 10); lia).
    repeat constructor; apply Hd; Z.div_mod_to_equations; lia.
  - rewrite len_app, IH2. unfold len. simpl. lia.
Qed.
Lemma tokenDigest_ok `{CryptoLaws} token : string_ok (tokenDigest token).
Proof.
  unfold tokenDigest. destruct (sha256_len token) as [Hb Hl]. destruct (hexEncode_ok _ Hb) as [H1 H2].
  split; [done|]. rewrite H2, Hl. unfold maxInt. lia.
Qed.
Lemma newPasswordRecord_ok `{CryptoLaws} rand password r : rand_ok rand ->
  newPasswordRecord rand password = Ok r -> password_ok r.
Proof.
  intros Hr. unfold newPasswordRecord, mbind, outcome_bind. destruct (rand _) as [salt| |] eqn:Es; [|done..].
  destruct (pbkdf2_Key _ _ _ _) as [h| |] eqn:Eh; [|done..]. intros [= <-].
  apply Hr in Es as [Hs1 Hs2]. apply pbkdf2_Key_len in Eh as [Hh1 Hh2].
  unfold passwordSaltBytes, passwordHashBytes in *. unfold password_ok, string_ok, maxInt. simpl.
  unfold passwordIterations. split_and!; try done; try lia; intros ->; discriminate.
Qed.

(** ** The new states are good, and gain and lose what they should *)
Section evolves.
  Context `{CryptoLaws}.
  Implicit Types (st : UserState) (ctx : option goerr).

(** A profile is stored under its name: its tokens stay only if it is enabled. *)
Lemma good_setUser st u tokens : good st -> user_ok (u_Name u) u ->
  (forall digest t, tokens !! digest = Some t ->
     us_tokens st !! digest = Some t /\ (tk_UserName t = u_Name u -> u_Disabled u = false)) ->
  good (mkUserState (<[u_Name u := u]> (us_users st)) (us_grants st) (us_passwords st) tokens).
Proof.
  intros [[Hu Hg Hp Ht] He] Huo Htok.
  assert (Hin : forall k, is_Some (us_users st !! k) -> is_Some (<[u_Name u := u]> (us_users st) !! k))
    by (intros k Hk; rewrite lookup_insert_is_Some'; auto).
  split; [split|]; simpl.
  - by apply map_Forall_insert_2.
  - intros n g Hn. destruct (Hg n g Hn). auto.
  - intros n r Hn. destruct (Hp n r Hn). auto.
  - intros dg t Hdg. apply Htok in Hdg as [Hdg _]. destruct (Ht dg t Hdg). auto.
  - intros dg t Hdg user. apply Htok in Hdg as [Hdg Hd]. simpl. destruct (decide (tk_UserName t = u_Name u)) as [E|E].
    + rewrite E, lookup_insert_eq. intros [= <-]. auto.
    + rewrite lookup_insert_ne by done. by apply (He dg t Hdg).
Qed.
Lemma good_tokens st tokens : good st ->
  (forall digest t, tokens !! digest = Some t -> us_tokens st !! digest = Some t) ->
  good (mkUserState (us_users st) (us_grants st) (us_passwords st) tokens).
Proof.
  intros [[Hu Hg Hp Ht] He] Htok. split; [split|]; simpl; [done..| |]; intros dg t Hdg; apply Htok in Hdg.
  - by apply (Ht dg t).
  - by apply (He dg t).
Qed.
Lemma good_grants st grants : good st ->
  map_Forall (fun name g => is_Some (us_users st !! name) /\ grants_ok g) grants ->
  good (mkUserState (us_users st) grants (us_passwords st) (us_tokens st)).
Proof. intros [[Hu Hg Hp Ht] He] Hgr. by split; [split|]. Qed.
Lemma good_password st name r : good st -> is_Some (us_users st !! name) -> password_ok r ->
  good (mkUserState (us_users st) (us_grants st) (<[name := r]> (us_passwords st)) (us_tokens st)).
Proof. intros [[Hu Hg Hp Ht] He] Hn Hr. split; [split|]; simpl; [done|done| |done|done]. by apply map_Forall_insert_2. Qed.

Lemma create_evolves ctx user u st : good st -> user_arg user -> normalizeUser user = Ok u ->
  us_users st !! u_Name u = None ->
  evolves (ACreate ctx user) st
    (mkUserState (<[u_Name u := u]> (us_users st)) (us_grants st) (us_passwords st) (us_tokens st)).
Proof.
  intros Hg Ha Hn Hnone. apply normalizeUser_spec in Hn as (_ & _ & Huo). split; simpl.
  - apply good_setUser; [done|auto|]. intros dg t Hdg. split; [done|]. intros E.
    destruct Hg as [[_ _ _ Ht] _]. destruct (Ht dg t Hdg) as [[? Hs] _]. rewrite E in Hs. congruence.
  - intros dg t Hdg. split; [tauto|by left].
  - intros n d p Hgr. split; [tauto|by left].
Qed.
Lemma update_evolves ctx user u old st : good st -> user_arg user -> normalizeUser user = Ok u ->
  us_users st !! u_Name u = Some old ->
  evolves (AUpdate ctx user) st
    (mkUserState (<[u_Name u := u]> (us_users st)) (us_grants st) (us_passwords st)
      (if u_Disabled u && negb (u_Disabled old) then removeUserTokens (us_tokens st) (u_Name u) else us_tokens st)).
Proof.
  intros Hg Ha Hn Hold. pose proof Hg as [_ He]. apply normalizeUser_spec in Hn as (Hname & Hdis & Huo).
  set (tokens := if u_Disabled u && negb (u_Disabled old) then removeUserTokens (us_tokens st) (u_Name u) else us_tokens st).
  assert (Htok : forall dg t, tokens !! dg = Some t ->
     us_tokens st !! dg = Some t /\ (tk_UserName t = u_Name u -> u_Disabled u = false)).
  { intros dg t. unfold tokens. destruct (u_Disabled u) eqn:Eu; [|auto]. destruct (u_Disabled old) eqn:Eo; simpl.
    - intros Hdg. split; [done|]. intros E. specialize (He dg t Hdg old). simpl in He. rewrite E in He. specialize (He Hold). congruence.
    - rewrite lookup_removeUserTokens. intros [Hdg Hne]. done. }
  split; simpl.
  - by apply good_setUser; auto.
  - intros dg t Hdg. apply Htok in Hdg as [Hdg Hd]. split; [|by left]. intros [E1 E2].
    rewrite <- Hname in E2. specialize (Hd (eq_sym E2)). congruence.
  - intros n d p Hgr. split; [tauto|by left].
Qed.
Lemma delete_evolves ctx name st : good st ->
  evolves (ADelete ctx name) st
    (mkUserState (delete (TrimSpace name) (us_users st)) (delete (TrimSpace name) (us_grants st))
      (delete (TrimSpace name) (us_passwords st)) (removeUserTokens (us_tokens st) (TrimSpace name))).
Proof.
  intros [[Hu Hg Hp Ht] He]. set (n := TrimSpace name). split; [split; [split|]| |]; simpl.
  - by apply map_Forall_delete.
  - intros k g Hk. apply lookup_delete_Some in Hk as [Hne Hk]. rewrite lookup_delete_ne by done. by apply (Hg k g).
  - intros k r Hk. apply lookup_delete_Some in Hk as [Hne Hk]. rewrite lookup_delete_ne by done. by apply (Hp k r).
  - intros dg t Hdg. apply lookup_removeUserTokens in Hdg as [Hdg Hne]. rewrite lookup_delete_ne by done. by apply (Ht dg t).
  - intros dg t Hdg user. simpl. apply lookup_removeUserTokens in Hdg as [Hdg Hne]. rewrite lookup_delete_ne by done.
    by apply (He dg t).
  - intros dg t Hdg. apply lookup_removeUserTokens in Hdg as [Hdg Hne]. split; [intros E; by apply Hne|by left].
  - intros k d p. unfold has_grant. simpl. fold n. destruct (decide (n = k)) as [<-|Hne].
    + rewrite lookup_delete_eq. simpl. rewrite lookup_empty. simpl. set_solver.
    + rewrite lookup_delete_ne by done. auto.
Qed.
Lemma password_evolves a name r st : good st -> is_Some (us_users st !! TrimSpace name) -> password_ok r ->
  (forall u dg, kills_token a u dg <-> TrimSpace name = u) -> (forall u d p, ~ kills_grant a u d p) ->
  evolves a st
    (mkUserState (us_users st) (us_grants st) (<[TrimSpace name := r]> (us_passwords st))
      (removeUserTokens (us_tokens st) (TrimSpace name))).
Proof.
  intros Hg Hn Hr Hk Hkg. split; simpl.
  - apply (good_tokens (mkUserState _ _ _ (us_tokens st))); [by apply good_password|].
    intros dg t. rewrite lookup_removeUserTokens. by intros [? _].
  - intros dg t. rewrite lookup_removeUserTokens, Hk. intros [? Hne]. split; [intros E; by apply Hne|by left].
  - intros u d p Hgr. split; [apply Hkg|by left].
Qed.
Lemma revokeToken_evolves a token st : good st ->
  (forall u dg, kills_token a u dg -> tokenDigest token = dg) -> (forall u d p, ~ kills_grant a u d p) ->
  evolves a st
    (mkUserState (us_users st) (us_grants st) (us_passwords st) (delete (tokenDigest token) (us_tokens st))).
Proof.
  intros Hg Hk Hkg. split; simpl.
  - apply good_tokens; [done|]. intros dg t Ht. by apply lookup_delete_Some in Ht as [_ ?].
  - intros dg t Ht. apply lookup_delete_Some in Ht as [Hne Ht]. split; [|by left]. intros E. by apply Hk in E.
  - intros u d p Hgr. split; [apply Hkg|by left].
Qed.
Lemma finish_evolves p user st : good st -> us_users st !! pt_userName p = Some user -> u_Disabled user = false ->
  evolves (AAuthFinish p) st
    (mkUserState (us_users st) (us_grants st) (us_passwords st)
      (<[tokenDigest (pt_token p) := mkTokenRecord (pt_userName p) (i64 (pt_expiresAt p))]> (us_tokens st))).
Proof.
  intros [[Hu Hg Hp Ht] He] Huser Hen. split; [split; [split|]| |]; simpl; [done..| | | |].
  - apply map_Forall_insert_2; [|done]. simpl. split; [by eexists|]. split; [apply tokenDigest_ok|]. simpl.
    split; [|apply i64_range]. by apply (Hu _ _ Huser).
  - apply map_Forall_insert_2; [|done]. simpl. intros user' E. rewrite Huser in E. by injection E as <-.
  - intros dg t E. split; [tauto|]. destruct (decide (dg = tokenDigest (pt_token p))) as [-> |Hne].
    + rewrite lookup_insert_eq in E. injection E as <-. auto.
    + rewrite lookup_insert_ne in E by done. auto.
  - intros u d q Hgr. split; [tauto|by left].
Qed.

(** *** Grants *)
Definition permissionsOf (grants : gmap bytes userGrants) (u d : bytes) : permissionSet :=
  default ∅ (default ∅ (grants !! u) !! d).
Lemma permissionsOf_ensure grants u d f u' d' :
  permissionsOf (ensureGrantSet grants u d f) u' d' =
  if bool_decide (u' = u /\ d' = d) then f (permissionsOf grants u d) else permissionsOf grants u' d'.
Proof.
  unfold permissionsOf, ensureGrantSet. destruct (decide (u' = u)) as [-> |Hu].
  2: { rewrite bool_decide_false by (by intros [? _]). by rewrite lookup_insert_ne. }
  rewrite lookup_insert_eq. simpl. destruct (decide (d' = d)) as [-> |Hd].
  - rewrite bool_decide_true by done. by rewrite lookup_insert_eq.
  - rewrite bool_decide_false by (by intros [_ ?]). by rewrite lookup_insert_ne.
Qed.
Lemma permissionsOf_remove grants u d p u' d' :
  permissionsOf (removeGrant grants u d p) u' d' =
  if bool_decide (u' = u /\ d' = d) then permissionsOf grants u d ∖ {[p]} else permissionsOf grants u' d'.
Proof.
  unfold permissionsOf, removeGrant. destruct (grants !! u) as [g|] eqn:Eg; simpl.
  2: { case_bool_decide as E; [destruct E as [-> ->]|done]. rewrite Eg. simpl. rewrite lookup_empty. simpl. set_solver. }
  set (ps := default ∅ (g !! d) ∖ {[p]}).
  set (g' := if bool_decide (ps = ∅) then delete d g else <[d := ps]> g).
  assert (Hg' : forall k, default ∅ (g' !! k) = if bool_decide (k = d) then ps else default ∅ (g !! k)).
  { intros k. unfold g'. destruct (decide (k = d)) as [-> |Hk].
    - rewrite (bool_decide_true (d = d)) by done. case_bool_decide as Eps; [by rewrite lookup_delete_eq|by rewrite lookup_insert_eq].
    - rewrite (bool_decide_false (k = d)) by done. case_bool_decide; [by rewrite lookup_delete_ne|by rewrite lookup_insert_ne]. }
  destruct (decide (u' = u)) as [-> |Hu].
  2: { rewrite (bool_decide_false (u' = u /\ _)) by (by intros [? _]).
       case_bool_decide; [by rewrite lookup_delete_ne|by rewrite lookup_insert_ne]. }
  transitivity (default ∅ (g' !! d')).
  { case_bool_decide as Eg'; [rewrite lookup_delete_eq, Eg'; simpl; by rewrite lookup_empty|by rewrite lookup_insert_eq]. }
  rewrite Hg', Eg. simpl. destruct (decide (d' = d)) as [-> |Hd].
  - by rewrite !bool_decide_true.
  - rewrite !bool_decide_false; [done|by intros [_ ?]|done].
Qed.

Lemma grant_evolves ctx u d p st : good st -> is_Some (us_users st !! TrimSpace u) -> string_ok d ->
  validPermission p = true ->
  evolves (AGrant ctx u d p) st
    (mkUserState (us_users st)
      (ensureGrantSet (us_grants st) (TrimSpace u) (TrimSpace d) (fun permissions => permissions ∪ {[p]}))
      (us_passwords st) (us_tokens st)).
Proof.
  intros Hgood Hu Hd Hp. pose proof Hgood as [[_ Hg _ _] _]. split; simpl.
  - apply good_grants; [done|]. unfold ensureGrantSet. apply map_Forall_insert_2; [|done].
    split; [done|]. split; [apply insert_non_empty|]. apply map_Forall_insert_2.
    + split; [by apply string_ok_trim|]. split; [set_solver|]. intros q. rewrite elem_of_union, elem_of_singleton.
      intros [Hq| ->]; [|done]. destruct (us_grants st !! TrimSpace u) as [g|] eqn:Eg; simpl in Hq;
        [|rewrite lookup_empty in Hq; simpl in Hq; set_solver].
      destruct (Hg _ _ Eg) as (_ & _ & Hgo). destruct (g !! TrimSpace d) as [ps|] eqn:Ed; simpl in Hq; [|set_solver].
      destruct (Hgo _ _ Ed) as [_ [_ Hv]]. by apply Hv.
    + destruct (us_grants st !! TrimSpace u) as [g|] eqn:Eg; simpl; [|apply map_Forall_empty]. by apply (Hg _ _ Eg).
  - intros dg t Ht. split; [tauto|by left].
  - intros u' d' p' Hgr. split; [tauto|]. unfold has_grant in Hgr. fold (permissionsOf (us_grants st) u' d').
    change (p' ∈ permissionsOf (ensureGrantSet (us_grants st) (TrimSpace u) (TrimSpace d) (fun permissions => permissions ∪ {[p]})) u' d') in Hgr.
    rewrite permissionsOf_ensure in Hgr. case_bool_decide as E; [|by left]. destruct E as [-> ->].
    rewrite elem_of_union, elem_of_singleton in Hgr. destruct Hgr as [Hgr| ->]; [by left|by right].
Qed.
Lemma revoke_evolves ctx u d p st : good st ->
  evolves (ARevoke ctx u d p) st
    (mkUserState (us_users st) (removeGrant (us_grants st) (TrimSpace u) (TrimSpace d) p)
      (us_passwords st) (us_tokens st)).
Proof.
  intros Hgood. pose proof Hgood as [[_ Hg _ _] _]. split; simpl.
  - apply good_grants; [done|]. unfold removeGrant. destruct (us_grants st !! TrimSpace u) as [g|] eqn:Eg; [|done].
    destruct (Hg _ _ Eg) as (Hu & Hne & Hgo). set (ps := default ∅ (g !! TrimSpace d) ∖ {[p]}).
    case_bool_decide as E; [by apply map_Forall_delete|]. apply map_Forall_insert_2; [|done]. split; [done|]. split; [done|].
    case_bool_decide as Eps; [by apply map_Forall_delete|]. apply map_Forall_insert_2; [|done].
    destruct (g !! TrimSpace d) as [ps0|] eqn:Ed; simpl in *; [|set_solver]. destruct (Hgo _ _ Ed) as [Hs [_ Hv]].
    split; [done|]. split; [done|]. intros q Hq. apply Hv. unfold ps in Hq. set_solver.
  - intros dg t Ht. split; [tauto|by left].
  - intros u' d' p' Hgr.
    change (p' ∈ permissionsOf (removeGrant (us_grants st) (TrimSpace u) (TrimSpace d) p) u' d') in Hgr.
    rewrite permissionsOf_remove in Hgr. case_bool_decide as E.
    + destruct E as [-> ->]. apply elem_of_difference in Hgr as [Hin Hne]. split; [|by left].
      intros (_ & _ & <-). set_solver.
    + split; [|by left]. intros (<- & <- & _). by apply E.
Qed.
End evolves.

(** ** Runs and their log *)
#[export] Instance pendingToken_eq_dec : EqDecision pendingToken.
Proof. solve_decision. Defined.
Record Sys := mkSys { sys_world : World; sys_pending : list pendingToken }.
Record entry := mkEntry { en_action : action; en_before : UserState; en_ok : bool }.

Section system.
  Context `{Crypto} (suffixes : gmap bytes bytes -> bytes) (dir : bytes).

Definition run_step {A} (m : step World A) (s : Sys) : bool * Sys :=
  let '(r, w) := m (sys_world s) in (okb r, mkSys w (sys_pending s)).
Definition run_action (a : action) (s : Sys) : bool * Sys :=
  match a with
  | ACreate ctx user => run_step (CreateUser suffixes ctx user) s
  | AUpdate ctx user => run_step (UpdateUser suffixes ctx user) s
  | ADelete ctx name => run_step (DeleteUser suffixes ctx name) s
  | AGrant ctx u d p => run_step (GrantPermission suffixes ctx u d p) s
  | ARevoke ctx u d p => run_step (RevokePermission suffixes ctx u d p) s
  | ASetPassword ctx rand name password => run_step (SetPassword suffixes ctx rand name password) s
  | AChangePassword ctx rand name old new => run_step (ChangePassword suffixes ctx rand name old new) s
  | AAuthStart ctx ctx2 rand now credentials ttl =>
      match authenticateStart ctx ctx2 rand now credentials ttl (sys_world s) with
      | (Ok p, w) => (true, mkSys w (p :: sys_pending s))
      | (_, w) => (false, mkSys w (sys_pending s))
      end
  | AAuthFinish p =>
      if bool_decide (p ∈ sys_pending s) then
        let '(r, w) := authenticateFinish suffixes p (sys_world s) in
        (okb r, mkSys w (filter (fun q => q <> p) (sys_pending s)))
      else (false, s)
  | ARevokeToken ctx token => run_step (RevokeToken suffixes ctx token) s
  | AVerifyToken ctx ctx2 now token => run_step (VerifyToken suffixes ctx ctx2 now token) s
  | AReopen opts =>
      match OpenWithOptions dir opts (w_disk (sys_world s)) with
      | (Ok m, d) => (true, mkSys (mkWorld m d) [])
      | (_, d) => (false, mkSys (mkWorld (w_manager (sys_world s)) d) (sys_pending s))
      end
  end.
Definition sys_store (s : Sys) : UserState := m_store (w_manager (sys_world s)).
Fixpoint run_actions (actions : list action) (s : Sys) : list entry * Sys :=
  match actions with
  | [] => ([], s)
  | a :: actions' =>
      let '(ok, s') := run_action a s in
      let '(log, s'') := run_actions actions' s' in
      (mkEntry a (sys_store s) ok :: log, s'')
  end.
(** A manager that was just opened in a directory without a user file. *)
Definition fresh_sys (opts : UserOptions) (files : gmap bytes bytes) (faults : list (option Fault)) : Sys :=
  mkSys (mkWorld (mkManager (userPath dir) emptyLocalState opts) (mkDisk files faults)) [].

(** ** What the log has to show *)
(** The password of the user was right, and the user enabled, when the token
    was drawn. *)
Definition verified (e : entry) (p : pendingToken) : Prop :=
  en_ok e = true /\
  exists ctx ctx2 rand now credentials ttl raw user record,
    en_action e = AAuthStart ctx ctx2 rand now credentials ttl /\ 0 < ttl /\ rand tokenBytes = Ok raw /\
    p = mkPending (base64Encode raw) (TrimSpace (cr_UserName credentials)) (now + ttl) /\
    us_users (en_before e) !! pt_userName p = Some user /\ u_Disabled user = false /\
    us_passwords (en_before e) !! pt_userName p = Some record /\
    verifyPasswordRecord record (cr_Password credentials) = true.
Definition token_cause (log : list entry) (digest : bytes) (t : tokenRecord) : Prop :=
  exists p l1 e1 l2 e2 l3,
    log = l1 ++ e1 :: l2 ++ e2 :: l3 /\ verified e1 p /\ en_action e2 = AAuthFinish p /\
    digest = tokenDigest (pt_token p) /\ t = mkTokenRecord (pt_userName p) (i64 (pt_expiresAt p)) /\
    Forall (fun e => en_ok e = true -> ~ kills_token (en_action e) (tk_UserName t) digest) l3.
Definition grant_cause (log : list entry) (u d p : bytes) : Prop :=
  exists l1 e l2, log = l1 ++ e :: l2 /\ adds_grant (en_action e) u d p /\
    Forall (fun e => en_ok e = true -> ~ kills_grant (en_action e) u d p) l2.
Record justified (log : list entry) (st : UserState) : Prop := {
  ju_tokens digest t : us_tokens st !! digest = Some t -> token_cause log digest t;
  ju_grants u d p : has_grant st u d p -> grant_cause log u d p;
}.
Record Inv (log : list entry) (s : Sys) : Prop := {
  iv_path : m_path (w_manager (sys_world s)) = userPath dir;
  iv_good : good (sys_store s);
  iv_justified : justified log (sys_store s);
  iv_disk : exists st, on_disk (userPath dir) (w_disk (sys_world s)) st /\ tokens_enabled st /\ justified log st;
  iv_pending p : p ∈ sys_pending s -> exists e, e ∈ log /\ verified e p;
}.

Lemma token_cause_snoc log digest t e : token_cause log digest t ->
  (en_ok e = true -> ~ kills_token (en_action e) (tk_UserName t) digest) -> token_cause (log ++ [e]) digest t.
Proof.
  intros (p & l1 & e1 & l2 & e2 & l3 & -> & Hv & Ha & Hd & Ht & Hl) He.
  exists p, l1, e1, l2, e2, (l3 ++ [e]). split; [by rewrite <- !app_assoc, <- !app_comm_cons, <- app_assoc|].
  split_and!; try done. apply Forall_app. split; [done|]. by constructor.
Qed.
Lemma grant_cause_snoc log u d p e : grant_cause log u d p ->
  (en_ok e = true -> ~ kills_grant (en_action e) u d p) -> grant_cause (log ++ [e]) u d p.
Proof.
  intros (l1 & e1 & l2 & -> & Ha & Hl) He. exists l1, e1, (l2 ++ [e]). split; [by rewrite <- app_assoc|].
  split; [done|]. apply Forall_app. split; [done|]. by constructor.
Qed.
Lemma justified_keep log st e : justified log st ->
  (en_ok e = true -> (forall u dg, ~ kills_token (en_action e) u dg) /\ (forall u d p, ~ kills_grant (en_action e) u d p)) ->
  justified (log ++ [e]) st.
Proof.
  intros [Ht Hg] He. split.
  - intros dg t Hdg. apply token_cause_snoc; [by apply Ht|]. intros Hok. by apply He.
  - intros u d p Hgr. apply grant_cause_snoc; [by apply Hg|]. intros Hok. by apply He.
Qed.
Lemma justified_evolves log st0 st e : justified log st0 -> evolves (en_action e) st0 st ->
  (forall p, en_action e = AAuthFinish p -> exists e', e' ∈ log /\ verified e' p) -> justified (log ++ [e]) st.
Proof.
  intros [Ht Hg] [_ Et Eg] Hp. split.
  - intros dg t Hdg. destruct (Et dg t Hdg) as [Hk [Hold|Hnew]]; [apply token_cause_snoc; [by apply Ht|done]|].
    unfold adds_token in Hnew. destruct (en_action e) as [| | | | | | | |p| | |] eqn:Ea; try done. destruct Hnew as [-> ->].
    destruct (Hp p eq_refl) as (e' & He' & Hv). apply list_elem_of_split in He' as (l1 & l2 & ->).
    exists p, l1, e', l2, e, []. by rewrite <- app_assoc.
  - intros u d p Hgr. destruct (Eg u d p Hgr) as [Hk [Hold|Hnew]]; [apply grant_cause_snoc; [by apply Hg|done]|].
    by exists log, e, [].
Qed.

(** One proposed state, written and swapped in: the invariant goes on. *)
Lemma Inv_proposes {A} log s a (m : step World A) pending : Inv log s ->
  proposes suffixes (sys_world s) (evolves a (sys_store s)) m ->
  (forall p, a = AAuthFinish p -> p ∈ sys_pending s) -> (forall p, p ∈ pending -> p ∈ sys_pending s) ->
  Inv (log ++ [mkEntry a (sys_store s) (okb (m (sys_world s)).1)]) (mkSys (m (sys_world s)).2 pending).
Proof.
  intros [Hpath Hgood Hj (st1 & Hd & Hte & Hj1) Hpend] Hprop Hfin Hsub. set (e := mkEntry _ _ _).
  assert (Hpend' : forall p, p ∈ pending -> exists e', e' ∈ log ++ [e] /\ verified e' p).
  { intros p Hp. destruct (Hpend p (Hsub p Hp)) as (e' & He' & Hv). exists e'. rewrite elem_of_app. auto. }
  destruct Hprop as [[Hok Hw]|(st & Hev & Hw & Hok)].
  - assert (Hkeep : forall st', justified log st' -> justified (log ++ [e]) st').
    { intros st' Hj'. apply justified_keep; [done|]. simpl. rewrite Hok. done. }
    split; rewrite ?Hw; unfold sys_store in *; simpl; rewrite ?Hw; eauto 10.
  - destruct (replace_spec suffixes dir st (sys_world s) Hpath) as [Ho Hp Hs Hdisk].
    destruct (ev_good _ _ _ Hev) as [Hst Hste]. rewrite Hpath in *. specialize (Hdisk st1 Hst Hd).
    assert (Hnew : justified (log ++ [e]) st) by (apply (justified_evolves log (sys_store s) st e Hj Hev); intros p Ep; apply Hpend; auto).
    destruct (okb (replace suffixes st (sys_world s)).1) eqn:Er.
    + split; unfold sys_store; simpl; rewrite ?Hw, ?Hs; try done. by exists st.
    + assert (Hkeep : forall st', justified log st' -> justified (log ++ [e]) st').
      { intros st' Hj'. apply justified_keep; [done|]. simpl. intros E. apply Hok in E. done. }
      split; unfold sys_store in *; simpl; rewrite ?Hw, ?Hs; try done; [auto|].
      destruct Hdisk as [Hdisk|Hdisk]; eauto.
Qed.
End system.
