(* ===== verification/UserTheorems.v ===== *)
(** * Correctness of the user manager

    Every operation keeps the invariant of the concurrent system; access is
    granted only to whom the log of successful operations says; the file always
    decodes to the state in memory; paging visits every user once. *)
From S2P Require Import Prelude GoBinary Model Codec Readers Runtime MemCompact GoStrings StorageFS User UserManager UserCodec UserSystem.
From stdpp Require Import prelude strings list sorting gmap.
From Stdlib Require Import ZArith Lia.
#[local] Open Scope Z_scope.

Section operations.
  Context `{CryptoLaws} (suffixes : gmap bytes bytes -> bytes) (dir : bytes).
  Implicit Types (w : World) (ctx : option goerr).
  Abbreviation store w := (m_store (w_manager w)).

Lemma pure_ok {A} (m : outcome A) w a : ((pure_step m : step World A) w).1 = Ok a -> m = Ok a.
Proof. done. Qed.
Lemma is_Some_negb {A} (x : option A) (b : bool) : negb (bool_decide (is_Some x)) = b -> b = false -> is_Some x.
Proof. intros <-. rewrite negb_false_iff. apply bool_decide_eq_true. Qed.

Lemma CreateUser_proposes w ctx user : good (store w) -> user_arg user ->
  proposes suffixes w (evolves (ACreate ctx user) (store w)) (CreateUser suffixes ctx user).
Proof.
  intros Hg Ha. unfold CreateUser. checked. checked. apply proposes_store. case_bool_decide as E; [apply proposes_fail|].
  rewrite cloned_id, cloneUser_id. apply proposes_replace. apply create_evolves; [done..|].
  by apply eq_None_not_Some.
Qed.
Lemma UpdateUser_proposes w ctx user : good (store w) -> user_arg user ->
  proposes suffixes w (evolves (AUpdate ctx user) (store w)) (UpdateUser suffixes ctx user).
Proof.
  intros Hg Ha. unfold UpdateUser. checked. checked. apply proposes_store.
  destruct (us_users (store w) !! u_Name a0) eqn:E; [|apply proposes_fail].
  rewrite cloned_id, cloneUser_id. apply proposes_replace. by apply update_evolves.
Qed.
Lemma DeleteUser_proposes w ctx name : good (store w) ->
  proposes suffixes w (evolves (ADelete ctx name) (store w)) (DeleteUser suffixes ctx name).
Proof.
  intros Hg. unfold DeleteUser. checked. apply proposes_store. case_match; [apply proposes_fail|].
  rewrite cloned_id. apply proposes_replace. by apply delete_evolves.
Qed.
Lemma validateGrantInput_ok u d p r : validateGrantInput u d p = Ok r ->
  r = (TrimSpace u, TrimSpace d) /\ validPermission p = true /\ TrimSpace u <> [] /\ TrimSpace d <> [].
Proof.
  unfold validateGrantInput. case_bool_decide; [done|]. case_bool_decide; [done|]. simpl.
  destruct (validPermission p); simpl; [|done]. by intros [= <-].
Qed.
Lemma GrantPermission_proposes w ctx u d p : good (store w) -> string_ok d ->
  proposes suffixes w (evolves (AGrant ctx u d p) (store w)) (GrantPermission suffixes ctx u d p).
Proof.
  intros Hg Hd. unfold GrantPermission. checked. checked. apply pure_ok, validateGrantInput_ok in H2 as (-> & Hp & _).
  apply proposes_store. case_match eqn:E; [apply proposes_fail|].
  rewrite cloned_id. apply proposes_replace. apply grant_evolves; [done| |done..]. by eapply is_Some_negb.
Qed.
Lemma RevokePermission_proposes w ctx u d p : good (store w) ->
  proposes suffixes w (evolves (ARevoke ctx u d p) (store w)) (RevokePermission suffixes ctx u d p).
Proof.
  intros Hg. unfold RevokePermission. checked. checked. apply pure_ok, validateGrantInput_ok in H2 as (-> & Hp & _).
  apply proposes_store. case_match eqn:E; [apply proposes_fail|].
  rewrite cloned_id. apply proposes_replace. by apply revoke_evolves.
Qed.
Lemma storePassword_proposes w a name r : good (store w) -> is_Some (us_users (store w) !! TrimSpace name) ->
  password_ok r -> (forall u dg, kills_token a u dg <-> TrimSpace name = u) -> (forall u d p, ~ kills_grant a u d p) ->
  proposes suffixes w (evolves a (store w)) (storePassword suffixes (store w) (TrimSpace name) r).
Proof.
  intros Hg Hn Hr Hk Hkg. unfold storePassword. rewrite cloned_id. apply proposes_replace. by apply password_evolves.
Qed.
Lemma SetPassword_proposes w ctx rand name password : good (store w) -> rand_ok rand ->
  proposes suffixes w (evolves (ASetPassword ctx rand name password) (store w)) (SetPassword suffixes ctx rand name password).
Proof.
  intros Hg Hr. unfold SetPassword. checked. checked. case_match; [apply proposes_fail|]. checked.
  apply proposes_store. case_match eqn:E; [apply proposes_fail|].
  apply storePassword_proposes; [done|by eapply is_Some_negb|match goal with Hn : (pure_step _ _).1 = Ok _ |- _ => exact (newPasswordRecord_ok _ _ _ Hr Hn) end|intros ? ?; apply iff_refl|intros ? ? ? []].
Qed.
Lemma ChangePassword_proposes w ctx rand name old new : good (store w) -> rand_ok rand ->
  proposes suffixes w (evolves (AChangePassword ctx rand name old new) (store w))
    (ChangePassword suffixes ctx rand name old new).
Proof.
  intros Hg Hr. unfold ChangePassword. checked. checked. case_match; [apply proposes_fail|]. apply proposes_store.
  checked. apply enabledUser_ok in H4 as [Hu _]. case_match; [apply proposes_fail|]. checked.
  apply storePassword_proposes; [done|by eexists|match goal with Hn : (pure_step _ _).1 = Ok _ |- _ => exact (newPasswordRecord_ok _ _ _ Hr Hn) end|intros ? ?; apply iff_refl|intros ? ? ? []].
Qed.
Lemma authenticateFinish_proposes w p : good (store w) ->
  proposes suffixes w (evolves (AAuthFinish p) (store w)) (authenticateFinish suffixes p).
Proof.
  intros Hg. unfold authenticateFinish. apply proposes_store. checked. apply enabledUser_ok in H1 as [Hu Hd].
  apply (proposes_then suffixes w _ _ (fun _ => _)). rewrite cloned_id. apply proposes_replace. by eapply finish_evolves.
Qed.
Lemma RevokeToken_proposes w ctx a token : good (store w) ->
  (forall u dg, kills_token a u dg -> tokenDigest (TrimSpace token) = dg) -> (forall u d p, ~ kills_grant a u d p) ->
  proposes suffixes w (evolves a (store w)) (RevokeToken suffixes ctx token).
Proof.
  intros Hg Hk Hkg. unfold RevokeToken. checked. checked. case_match; [apply proposes_fail|]. apply proposes_store.
  rewrite cloned_id. apply proposes_replace. by apply revokeToken_evolves.
Qed.
(** VerifyToken leaves the state alone unless it revokes an expired token. *)
Lemma VerifyToken_world w ctx ctx2 now token :
  (VerifyToken suffixes ctx ctx2 now token w).2 = w \/
  okb (VerifyToken suffixes ctx ctx2 now token w).1 = false /\
  (VerifyToken suffixes ctx ctx2 now token w).2 = (RevokeToken suffixes ctx2 (TrimSpace token) w).2.
Proof.
  unfold VerifyToken. destruct ctx; [by left|]. unfold authEnabled, mbind, step_bind, get_step, ctxErr, mret, step_ret.
  destruct (PasswordAuthDisabled _); [by left|]. case_match; [by left|]. unfold getStore, mbind, step_bind, get_step, mret, step_ret.
  destruct (lookupToken _ _) as [found user]. destruct (_ || u_Disabled _); [|by left].
  destruct (bool_decide (is_Some found) && _); [|by left].
  unfold try_step. destruct (RevokeToken suffixes ctx2 (TrimSpace token) w) as [[| |] w'] eqn:E; by right.
Qed.
End operations.

(** ** Reopening *)
Lemma does_ReadFile (F : gmap bytes bytes) path :
  does F (ReadFile path) (fun data F' => F' = F /\ F !! path = Some data) (eq F).
Proof.
  unfold ReadFile. quietly. apply does_wrapped. unfold os_ReadFile. quietly.
  apply does_get. intros fs. simpl. destruct (F !! path) eqn:E; [by apply does_ret|by apply does_fail].
Qed.
Lemma does_load (F : gmap bytes bytes) path st : on_disk path (mkDisk F []) st ->
  does F (load path) (fun st' F' => F' = F /\ (st' = st \/ st' = emptyLocalState)) (eq F).
Proof.
  intros [Hst Hd]. unfold load. simpl in Hd.
  eapply (does_bind _ _ _ (fun r F' => F' = F /\ match r with inr data => F !! path = Some data | inl _ => True end)).
  { apply does_try. eapply does_weaken; [apply does_ReadFile|auto|]. intros F' <-. done. }
  intros [e|data] F' [-> Hr].
  - destruct (errNotExist e); [apply does_ret; auto|by apply does_fail].
  - rewrite Hr in Hd. destruct Hd as [-> Hl]. apply does_wrap. intros faults.
    rewrite userMetadata_decodes; [|done|unfold maxAlloc, maxInt in *; lia]. split; [done|by left].
Qed.
Lemma does_Open_manager (F : gmap bytes bytes) dir opts st : on_disk (userPath dir) (mkDisk F []) st ->
  does F (OpenWithOptions dir opts)
    (fun m F' => F' = F /\ m_path m = userPath dir /\ (m_store m = st \/ m_store m = emptyLocalState)) (eq F).
Proof.
  intros Hd. unfold OpenWithOptions. case_match; [by apply does_fail|].
  eapply does_bind; [by apply does_MkdirAll|]. intros [] ? ->.
  eapply does_bind; [apply (does_load _ _ st Hd)|]. intros st' F' [-> Hs]. by apply does_ret.
Qed.

(** ** The invariant of the system *)
Section system.
  Context `{CryptoLaws} (suffixes : gmap bytes bytes -> bytes) (dir : bytes).

Lemma state_ok_empty : state_ok emptyLocalState.
Proof. split; apply map_Forall_empty. Qed.
Lemma empty_justified log : justified log emptyLocalState.
Proof.
  split.
  - intros dg t. simpl. by rewrite lookup_empty.
  - intros u d p. unfold has_grant. simpl. rewrite lookup_empty. simpl. rewrite lookup_empty. simpl. set_solver.
Qed.
Lemma empty_good : good emptyLocalState.
Proof. split; [apply state_ok_empty|apply map_Forall_empty]. Qed.
Lemma Inv_fresh opts files faults : files !! userPath dir = None -> Inv dir [] (fresh_sys dir opts files faults).
Proof.
  intros Hf. split; simpl; [done|apply empty_good|apply empty_justified| |by intros p Hp%elem_of_nil].
  exists emptyLocalState. split; [|split; [apply map_Forall_empty|apply empty_justified]].
  split; [apply state_ok_empty|]. simpl. by rewrite Hf.
Qed.
(** An action that kills nothing and changes neither the state nor the files. *)
Lemma Inv_keep log s s' e : Inv dir log s -> w_manager (sys_world s') = w_manager (sys_world s) ->
  dk_files (w_disk (sys_world s')) = dk_files (w_disk (sys_world s)) ->
  (en_ok e = true -> (forall u dg, ~ kills_token (en_action e) u dg) /\ (forall u d p, ~ kills_grant (en_action e) u d p)) ->
  (forall p, p ∈ sys_pending s' -> p ∈ sys_pending s \/ verified e p) -> Inv dir (log ++ [e]) s'.
Proof.
  intros [Hpath Hgood Hj (st1 & Hd & Hte & Hj1) Hpend] Hm Hf Hk Hp. unfold sys_store in *.
  split; unfold sys_store; rewrite ?Hm; [done|done|by apply justified_keep| |].
  - exists st1. split; [|split; [done|by apply justified_keep]]. unfold on_disk in *. by rewrite Hf.
  - intros p [Hin|Hv]%Hp.
    + destruct (Hpend p Hin) as (e' & He' & Hv). exists e'. rewrite elem_of_app. auto.
    + exists e. rewrite elem_of_app. split; [right; by left|done].
Qed.
Lemma Inv_run_step {A} log s a (m : step World A) : Inv dir log s ->
  proposes suffixes (sys_world s) (evolves a (sys_store s)) m -> (forall p, a <> AAuthFinish p) ->
  Inv dir (log ++ [mkEntry a (sys_store s) (run_step m s).1]) (run_step m s).2.
Proof.
  intros Hi Hp Ha. pose proof (Inv_proposes suffixes dir log s a m (sys_pending s) Hi Hp) as HI.
  unfold run_step. destruct (m (sys_world s)) as [r w]. apply HI; [intros p Ep; by destruct (Ha p)|done].
Qed.

Lemma authenticateStart_spec s ctx ctx2 rand now credentials ttl r w :
  authenticateStart ctx ctx2 rand now credentials ttl (sys_world s) = (r, w) -> w = sys_world s /\
  forall p, r = Ok p -> verified (mkEntry (AAuthStart ctx ctx2 rand now credentials ttl) (sys_store s) true) p.
Proof.
  unfold authenticateStart, VerifyPassword, ctxErr, authEnabled, mbind, step_bind, get_step, getStore, mret, step_ret.
  destruct ctx; [by intros [= <- <-]|]. destruct (PasswordAuthDisabled _) eqn:Ea; [by intros [= <- <-]|].
  zcase (ttl <=? 0); [by intros [= <- <-]|]. destruct ctx2; [by intros [= <- <-]|]. rewrite Ea. simpl.
  unfold enabledUser. destruct (us_users _ !! _) as [user|] eqn:Eu; [|by intros [= <- <-]].
  destruct (u_Disabled user) eqn:Ed; [by intros [= <- <-]|]. simpl.
  destruct (verifyPasswordRecord _ _) eqn:Ev; simpl; [|by intros [= <- <-]]. unfold pure_step.
  destruct (rand tokenBytes) as [raw| |] eqn:Er; intros [= <- <-]; (split; [done|]); [|done..].
  intros p [= <-]. split; [done|]. unfold sys_store.
  destruct (us_passwords (m_store (w_manager (sys_world s))) !! TrimSpace (cr_UserName credentials)) as [record|] eqn:Ep; [|by vm_compute in Ev].
  exists None, None, rand, now, credentials, ttl, raw, user, record. split_and!; try done.
Qed.

Lemma Inv_step log s a : Inv dir log s -> action_ok a ->
  Inv dir (log ++ [mkEntry a (sys_store s) (run_action suffixes dir a s).1]) (run_action suffixes dir a s).2.
Proof.
  intros Hi Ha. pose proof (iv_good _ _ _ Hi) as Hg. destruct a; simpl in Ha |- *;
    lazymatch goal with |- context [VerifyToken] => idtac | _ => try (apply Inv_run_step; [done| |done]) end.
  - by apply CreateUser_proposes.
  - by apply UpdateUser_proposes.
  - by apply DeleteUser_proposes.
  - by apply GrantPermission_proposes.
  - by apply RevokePermission_proposes.
  - by apply SetPassword_proposes.
  - by apply ChangePassword_proposes.
  - destruct (authenticateStart _ _ _ _ _ _ _) as [r w] eqn:E. apply authenticateStart_spec in E as [-> Hv].
    destruct r as [p| |]; apply Inv_keep with (s := s); simpl; auto.
    intros q Hq. apply elem_of_cons in Hq as [-> |Hq]; [right; by apply Hv|by left].
  - case_bool_decide as Hp; [|apply Inv_keep with (s := s); simpl; auto].
    pose proof (Inv_proposes suffixes dir log s (AAuthFinish p) (authenticateFinish suffixes p)
      (filter (fun q => q <> p) (sys_pending s)) Hi (authenticateFinish_proposes suffixes _ _ Hg)) as HI.
    destruct (authenticateFinish suffixes p (sys_world s)) as [r w]. apply HI; [by intros ? [= <-]|].
    intros q Hq. by apply list_elem_of_filter in Hq as [_ ?].
  - apply RevokeToken_proposes; [done|done|intros ? ? ? []].
  - destruct (VerifyToken_world suffixes (sys_world s) ctx ctx2 now token) as [Hw|[Hok Hw]].
    + unfold run_step. destruct (VerifyToken _ _ _ _ _ _) as [r w]. simpl in Hw. subst w.
      apply Inv_keep with (s := s); simpl; auto.
    + apply Inv_run_step; [done| |done].
      destruct (RevokeToken_proposes suffixes (sys_world s) ctx2 (AVerifyToken ctx ctx2 now token) (TrimSpace token) Hg)
        as [[_ Hr]|(st & Hev & Hr & _)]; [done|intros ? ? ? []|..].
      * left. by rewrite Hw, Hr.
      * right. exists st. split; [done|]. rewrite Hw, Hok. done.
  - pose proof Hi as [Hpath Hgood Hj (st1 & Hd & Hte & Hj1) Hpend].
    destruct (sys_world s) as [m0 [F faults]] eqn:Ew. simpl in *.
    pose proof (does_Open_manager F dir opts st1 Hd faults) as Ho.
    destruct (OpenWithOptions dir opts (mkDisk F faults)) as [[m|e|p] d]; simpl in Ho; [| |done].
    + destruct Ho as (HF & Hp & Hs).
      assert (Hk : forall st, justified log st -> justified (log ++ [mkEntry (AReopen opts) (sys_store s) true]) st)
        by (intros st ?; apply justified_keep; [done|]; simpl; auto).
      split; unfold sys_store; simpl; [done| | | |by intros q Hq%elem_of_nil].
      * destruct Hs as [-> | ->]; [split; [by apply Hd|done]|apply empty_good].
      * destruct Hs as [-> | ->]; [by apply Hk|apply empty_justified].
      * exists st1. split; [|split; [done|by apply Hk]]. unfold on_disk in *. simpl in *. by rewrite HF.
    + apply Inv_keep with (s := s); simpl; rewrite ?Ew; auto.
Qed.

Lemma Inv_run actions : forall log s, Inv dir log s -> Forall action_ok actions ->
  Inv dir (log ++ (run_actions suffixes dir actions s).1) (run_actions suffixes dir actions s).2.
Proof.
  induction actions as [|a actions IH]; intros log s Hi Ha; simpl; [by rewrite app_nil_r|].
  inversion Ha as [|? ? Ha1 Ha2]; subst. pose proof (Inv_step log s a Hi Ha1) as Hs.
  destruct (run_action suffixes dir a s) as [ok s']. specialize (IH _ s' Hs Ha2).
  destruct (run_actions suffixes dir actions s') as [l s'']. simpl in *. by rewrite <- app_assoc in IH.
Qed.
End system.

(** ** Access is only given where the log shows it *)
Section access.
  Context `{CryptoLaws} (suffixes : gmap bytes bytes -> bytes) (dir : bytes).

Lemma VerifyToken_ok w ctx ctx2 now token pr w' : VerifyToken suffixes ctx ctx2 now token w = (Ok pr, w') ->
  exists t user, us_tokens (m_store (w_manager w)) !! tokenDigest (TrimSpace token) = Some t /\
    us_users (m_store (w_manager w)) !! tk_UserName t = Some user /\ u_Disabled user = false /\
    now < tk_ExpiresAtUnixNano t /\ pr = mkPrincipal (tk_UserName t) (u_Role user) (tk_ExpiresAtUnixNano t).
Proof.
  unfold VerifyToken. destruct ctx; [done|]. unfold authEnabled, mbind, step_bind, get_step, ctxErr, mret, step_ret.
  destruct (PasswordAuthDisabled _); [done|]. case_match; [done|]. unfold getStore, mbind, step_bind, get_step, mret, step_ret.
  unfold lookupToken. destruct (us_tokens _ !! _) as [t|] eqn:Et; simpl.
  2: { done. }
  zcase (tk_ExpiresAtUnixNano t <=? now); simpl.
  { unfold try_step. by destruct (RevokeToken suffixes ctx2 (TrimSpace token) w) as [[| |] ?]. }
  destruct (us_users _ !! _) as [user|] eqn:Eu; [|by vm_compute]. simpl.
  destruct (bool_decide (u_Name user = [])); simpl; [done|]. destruct (u_Disabled user) eqn:Ed; [done|].
  intros [= <- <-]. exists t, user. split_and!; try done; lia.
Qed.
Lemma CheckPermission_ok w ctx u d p w' : CheckPermission ctx u d p w = (Ok tt, w') ->
  exists user q, us_users (m_store (w_manager w)) !! TrimSpace u = Some user /\ u_Disabled user = false /\
    (q = p \/ q = PermissionAdmin) /\ has_grant (m_store (w_manager w)) (TrimSpace u) (TrimSpace d) q.
Proof.
  unfold CheckPermission. destruct ctx; [done|]. unfold mbind, step_bind, ctxErr, mret, step_ret, pure_step.
  destruct (validateGrantInput u d p) as [r| |] eqn:Ev; [|done..]. apply validateGrantInput_ok in Ev as (-> & _).
  unfold getStore, mbind, step_bind, get_step, mret, step_ret, checkPermission.
  destruct (us_users _ !! _) as [user|] eqn:Eu; [|by vm_compute]. simpl.
  case_bool_decide; simpl; [done|]. destruct (u_Disabled user) eqn:Ed; [done|].
  case_bool_decide as Hp; [intros _; exists user, p; by auto|].
  case_bool_decide as Hq; [intros _; exists user, PermissionAdmin; by auto|done].
Qed.

Lemma access_justified opts files faults actions log s : files !! userPath dir = None -> Forall action_ok actions ->
  run_actions suffixes dir actions (fresh_sys dir opts files faults) = (log, s) -> Inv dir log s.
Proof.
  intros Hf Ha Hr. pose proof (Inv_run suffixes dir actions [] _ (Inv_fresh dir opts files faults Hf) Ha) as Hi.
  by rewrite Hr in Hi.
Qed.
End access.

(** C3: whatever calls of the user manager ran, interleaved between the two locked parts
    of a login, with a fault possible at every call of the file system and with
    reopenings in between, a token verifies only if the password of its user was
    verified when it was drawn, the user is enabled now, the token has not expired and
    no later successful call deleted or disabled the user, set its password or revoked
    the token; a permission check succeeds only for an enabled user to whom the
    permission or the admin permission was granted and not revoked since. *)
Theorem access_safety `{CryptoLaws} suffixes dir opts files faults actions log s :
  files !! userPath dir = None -> Forall action_ok actions ->
  run_actions suffixes dir actions (fresh_sys dir opts files faults) = (log, s) ->
  (forall ctx ctx2 now token pr w, VerifyToken suffixes ctx ctx2 now token (sys_world s) = (Ok pr, w) ->
     exists p l1 e1 l2 e2 l3 user, log = l1 ++ e1 :: l2 ++ e2 :: l3 /\
       verified e1 p /\ en_action e2 = AAuthFinish p /\ tokenDigest (pt_token p) = tokenDigest (TrimSpace token) /\
       us_users (sys_store s) !! pt_userName p = Some user /\ u_Disabled user = false /\
       pr = mkPrincipal (pt_userName p) (u_Role user) (i64 (pt_expiresAt p)) /\ now < i64 (pt_expiresAt p) /\
       forall e, e ∈ l3 -> en_ok e = true -> ~ kills_token (en_action e) (pt_userName p) (tokenDigest (pt_token p))) /\
  (forall ctx u d p w, CheckPermission ctx u d p (sys_world s) = (Ok tt, w) ->
     exists user q l1 e l2, us_users (sys_store s) !! TrimSpace u = Some user /\ u_Disabled user = false /\
       (q = p \/ q = PermissionAdmin) /\ log = l1 ++ e :: l2 /\
       adds_grant (en_action e) (TrimSpace u) (TrimSpace d) q /\
       forall e', e' ∈ l2 -> en_ok e' = true -> ~ kills_grant (en_action e') (TrimSpace u) (TrimSpace d) q).
Proof.
  intros Hf Ha Hr. pose proof (access_justified suffixes dir opts files faults actions log s Hf Ha Hr) as Hi.
  destruct (iv_justified _ _ _ Hi) as [Hjt Hjg]. split.
  - intros ctx ctx2 now token pr w Hv. apply VerifyToken_ok in Hv as (t & user & Ht & Hu & Hd & Hn & ->).
    destruct (Hjt _ _ Ht) as (p & l1 & e1 & l2 & e2 & l3 & -> & Hve & Hfin & Hdg & -> & Hk).
    exists p, l1, e1, l2, e2, l3, user. simpl in *. split_and!; try done.
    intros e He Hok. rewrite Forall_forall in Hk. rewrite <- Hdg. by apply Hk.
  - intros ctx u d p w Hc. apply CheckPermission_ok in Hc as (user & q & Hu & Hd & Hq & Hg).
    destruct (Hjg _ _ _ Hg) as (l1 & e & l2 & -> & Hadd & Hk). exists user, q, l1, e, l2. split_and!; try done.
    intros e' He' Hok. rewrite Forall_forall in Hk. by apply Hk.
Qed.

(** ** What was acknowledged is there after a restart *)
Definition writes (a : action) : bool :=
  match a with AAuthStart _ _ _ _ _ _ | AVerifyToken _ _ _ _ | AReopen _ => false | _ => true end.

Section persistence.
  Context `{CryptoLaws} (suffixes : gmap bytes bytes -> bytes) (dir : bytes).

Lemma acked {A} log s a (m : step World A) : Inv dir log s ->
  proposes suffixes (sys_world s) (evolves a (sys_store s)) m -> okb (m (sys_world s)).1 = true ->
  on_disk (userPath dir) (w_disk (m (sys_world s)).2) (m_store (w_manager (m (sys_world s)).2)).
Proof.
  intros [Hpath _ _ (st1 & Hd & _) _] [[Hok _]|(st & Hev & Hw & Hok)] Hm; [congruence|].
  destruct (replace_spec suffixes dir st (sys_world s) Hpath) as [_ _ Hs Hdisk].
  rewrite Hpath in Hdisk. specialize (Hdisk st1 (proj1 (ev_good _ _ _ Hev)) Hd). rewrite (Hok Hm) in Hs, Hdisk.
  by rewrite Hw, Hs.
Qed.
Lemma run_action_acked log s a s' : Inv dir log s -> action_ok a -> writes a = true ->
  run_action suffixes dir a s = (true, s') ->
  on_disk (userPath dir) (w_disk (sys_world s')) (sys_store s').
Proof.
  intros Hi Ha Hw Hr. pose proof (iv_good _ _ _ Hi) as Hg.
  assert (Hstep : forall A (m : step World A), proposes suffixes (sys_world s) (evolves a (sys_store s)) m ->
    run_step m s = (true, s') -> on_disk (userPath dir) (w_disk (sys_world s')) (sys_store s')).
  { intros A m Hp. unfold run_step. pose proof (acked log s a m Hi Hp) as Hk.
    destruct (m (sys_world s)) as [r w]. intros [= Hok <-]. by apply Hk. }
  destruct a; simpl in Ha, Hr; try discriminate Hw; try (eapply Hstep; [|exact Hr]).
  - by apply CreateUser_proposes.
  - by apply UpdateUser_proposes.
  - by apply DeleteUser_proposes.
  - by apply GrantPermission_proposes.
  - by apply RevokePermission_proposes.
  - by apply SetPassword_proposes.
  - by apply ChangePassword_proposes.
  - case_bool_decide as Hp; [|done].
    pose proof (acked log s _ _ Hi (authenticateFinish_proposes suffixes _ p Hg)) as Hk.
    destruct (authenticateFinish suffixes p (sys_world s)) as [r w]. injection Hr as Hok <-. by apply Hk.
  - apply RevokeToken_proposes; [done|done|intros ? ? ? []].
Qed.
Lemma Open_no_faults (F : gmap bytes bytes) opts st : on_disk (userPath dir) (mkDisk F []) st ->
  Endpoint (normalizeOptions opts) = EndpointLocal ->
  OpenWithOptions dir opts (mkDisk F []) = (Ok (mkManager (userPath dir) st (normalizeOptions opts)), mkDisk F []).
Proof.
  intros [Hst Hd] He. unfold OpenWithOptions. rewrite bool_decide_true by done. simpl in Hd. fold (userPath dir).
  unfold load, ReadFile, MkdirAll, wrapped, os_ReadFile, before, os_call, draw, check, get_step, try_step, mbind,
    step_bind, mret, step_ret, fail_step, pure_step. simpl.
  destruct (F !! userPath dir) as [data|].
  - destruct Hd as [-> Hl]. simpl. rewrite userMetadata_decodes; [done..|unfold maxAlloc, maxInt in *; lia].
  - subst st. done.
Qed.
End persistence.

(** C4: after any run of the user manager, whatever file system calls failed, a manager
    reopened behind a write that was acknowledged finds exactly the users, grants,
    passwords and tokens of that write. *)
Theorem user_persistence `{CryptoLaws} suffixes dir opts opts' files faults actions log s a s' :
  files !! userPath dir = None -> Forall action_ok (actions ++ [a]) ->
  run_actions suffixes dir actions (fresh_sys dir opts files faults) = (log, s) ->
  writes a = true -> run_action suffixes dir a s = (true, s') -> Endpoint (normalizeOptions opts') = EndpointLocal ->
  OpenWithOptions dir opts' (mkDisk (dk_files (w_disk (sys_world s'))) []) =
    (Ok (mkManager (userPath dir) (sys_store s') (normalizeOptions opts')),
     mkDisk (dk_files (w_disk (sys_world s'))) []).
Proof.
  intros Hf Ha Hr Hw Hrun He. apply Forall_app in Ha as [Ha Ha']. rewrite Forall_singleton in Ha'.
  pose proof (access_justified suffixes dir opts files faults actions log s Hf Ha Hr) as Hi.
  apply Open_no_faults; [|done]. exact (run_action_acked suffixes dir log s a s' Hi Ha' Hw Hrun).
Qed.

(** ** Paging *)
(** A client that asks for pages until there is no next cursor. *)
Fixpoint collectPages (fuel : nat) (limit : Z) (cursor : bytes) : step World (list UserGrantPage) :=
  match fuel with
  | O => mret []
  | S fuel' =>
      page ← ListUserGrantPage None None cursor limit;
      if bool_decide (up_NextCursor page = []) then mret [page]
      else rest ← collectPages fuel' limit (up_NextCursor page); mret (page :: rest)
  end.

Section paging.
  Variables (names : list bytes).
  Hypothesis names_sorted : StronglySorted bytes_lt names.
  Hypothesis names_nonempty : [] ∉ names.

(** The cursor that stands behind the first [k] names. *)
Definition cursor_at (k : nat) (cursor : bytes) : Prop :=
  match k with O => cursor = [] | S k' => names !! k' = Some cursor end.

Lemma names_lt i j x y : names !! i = Some x -> names !! j = Some y -> bytes_ltb x y = bool_decide (i < j)%nat.
Proof.
  intros Hi Hj. destruct (decide (i < j)%nat) as [Hlt|Hge].
  - rewrite bool_decide_true by done. by apply (sorted_lookup bytes_lt names i j).
  - rewrite bool_decide_false by done. destruct (decide (i = j)) as [-> |Hne].
    + rewrite Hi in Hj. injection Hj as ->. apply bytes_ltb_irrefl.
    + apply bytes_ltb_asym. apply (sorted_lookup bytes_lt names j i); [done|done|done|lia].
Qed.
Lemma cursor_search k cursor : cursor_at k cursor -> (k <= length names)%nat ->
  sort_Search (len names) (fun index => name ← idx names index; mret (bytes_ltb cursor name)) = Ok (Z.of_nat k).
Proof.
  intros Hc Hk.
  assert (HP : forall h, 0 <= h < len names -> (name ← idx names h; mret (bytes_ltb cursor name)) = Ok (Z.of_nat k <=? h)).
  { intros h Hh. destruct (lookup_lt_is_Some_2 names (Z.to_nat h)) as [x Hx]; [unfold len in Hh; lia|].
    rewrite (idx_Z _ _ _ (proj1 Hh) Hx). unfold mbind, outcome_bind, mret, outcome_ret. f_equal.
    destruct k as [|k]; simpl in Hc.
    - subst cursor. destruct x as [|b x]; [by apply list_elem_of_lookup_2 in Hx|]. simpl. symmetry. apply Z.leb_le. lia.
    - rewrite (names_lt _ _ _ _ Hc Hx). zcase (Z.of_nat (S k) <=? h);
        [rewrite bool_decide_true by lia|rewrite bool_decide_false by lia]; done. }
  destruct (sort_Search_spec _ (fun h => Z.of_nat k <=? h) (len names) (len_nonneg _) HP) as (r & -> & Hr & Hlo & Hhi).
  { intros i j Hi Hj Hij. rewrite !Z.leb_le. lia. }
  f_equal. destruct (Z.lt_trichotomy r (Z.of_nat k)) as [Hlt|[->|Hgt]]; [|done|].
  - specialize (Hhi r). rewrite Z.leb_le in Hhi. unfold len in *. lia.
  - specialize (Hlo (Z.of_nat k)). rewrite Z.leb_gt in Hlo. lia.
Qed.
End paging.
Lemma names_of_good st : good st ->
  StronglySorted bytes_lt (sortedUserNames (us_users st)) /\ [] ∉ sortedUserNames (us_users st).
Proof.
  intros [[Hu _ _ _] _]. split; [apply SortedKeys_lt|]. unfold sortedUserNames. rewrite elem_of_SortedKeys.
  intros [u Hn]. by destruct (Hu _ _ Hn).
Qed.
Definition pageCount (n limit : Z) : Z := Z.max 1 ((n + limit - 1) / limit).

Section pages.
  Variables (w : World) (limit : Z).
  Hypothesis state_good : good (m_store (w_manager w)).
  Hypothesis limit_ok : 1 <= limit <= MaxGrantPageLimit.
Let st := m_store (w_manager w).
Let names := sortedUserNames (us_users st).
Let step_size := Z.to_nat limit.

Lemma page_at k cursor : cursor_at names k cursor -> (k <= length names)%nat ->
  exists next,
    ListUserGrantPage None None cursor limit w =
      (Ok (mkPage (map (grantBundle st) (take step_size (drop k names))) (len names) next), w) /\
    if decide (k + step_size < length names)%nat then next <> [] /\ cursor_at names (k + step_size) next else next = [].
Proof.
  intros Hc Hk. destruct (names_of_good st state_good) as [Hs Hne]. fold names in Hs, Hne.
  unfold ListUserGrantPage, ctxErr, mbind, step_bind, getStore, get_step, mret, step_ret. simpl.
  assert ((limit <? 1) || (MaxGrantPageLimit <? limit) = false) as -> by (apply orb_false_iff; split; apply Z.ltb_ge; lia).
  pose proof (cursor_search names Hs Hne k cursor Hc Hk) as Hsearch. unfold mbind, step_bind, mret in *. fold st names.
  rewrite Hsearch. unfold pure_step, mbind, outcome_bind.
  assert (Hslice : slice (Z.of_nat k) (Z.min (Z.of_nat k + limit) (len names)) names = take step_size (drop k names)).
  { unfold slice, step_size. rewrite Nat2Z.id. apply Z.min_case_strong; intros Hm.
    - f_equal. lia.
    - unfold len in *. rewrite !take_ge by (rewrite length_drop; lia). done. }
  rewrite Hslice. destruct (decide (k + step_size < length names)%nat) as [Hlt|Hge].
  - assert (Z.min (Z.of_nat k + limit) (len names) = Z.of_nat (k + step_size)) as -> by (unfold len, step_size in *; lia).
    assert ((Z.of_nat (k + step_size) <? len names) = true) as -> by (apply Z.ltb_lt; unfold len; lia).
    destruct (lookup_lt_is_Some_2 names (k + step_size - 1)) as [x Hx]; [lia|].
    replace (Z.of_nat (k + step_size) - 1) with (Z.of_nat (k + step_size - 1)) by (unfold step_size in *; lia).
    rewrite (idx_lookup _ _ _ Hx). exists x. split; [done|]. split; [intros ->; by apply list_elem_of_lookup_2 in Hx|].
    destruct (k + step_size)%nat as [|m] eqn:E; [unfold step_size in *; lia|]. simpl in *. by rewrite Nat.sub_0_r in Hx.
  - assert (Z.min (Z.of_nat k + limit) (len names) = len names) as -> by (unfold len, step_size in *; lia).
    rewrite Z.ltb_irrefl. by exists [].
Qed.

Lemma collectPages_from fuel : forall k cursor, cursor_at names k cursor -> (k <= length names)%nat ->
  (length names - k < fuel)%nat ->
  exists pages, collectPages fuel limit cursor w = (Ok pages, w) /\
    concat (map up_Items pages) = map (grantBundle st) (drop k names) /\
    Forall (fun page => up_TotalUsers page = len names) pages /\
    len pages = pageCount (len names - Z.of_nat k) limit.
Proof.
  induction fuel as [|fuel IH]; intros k cursor Hc Hk Hf; [lia|]. cbn [collectPages].
  destruct (page_at k cursor Hc Hk) as (next & Hp & Hnext). unfold mbind, step_bind. rewrite Hp. cbn [up_NextCursor].
  destruct (decide (k + step_size < length names)%nat) as [Hlt|Hge].
  - destruct Hnext as [Hne Hc']. rewrite bool_decide_false by done.
    destruct (IH (k + step_size)%nat next Hc') as (pages & Hr & Hitems & Htot & Hcount);
      [unfold step_size in *; lia..|]. unfold mbind, step_bind. rewrite Hr.
    eexists. split; [done|]. cbn [map concat up_Items]. rewrite Hitems. split; [|split].
    + rewrite <- map_app. f_equal. rewrite <- (take_drop step_size (drop k names)) at 2. by rewrite drop_drop.
    + by constructor.
    + unfold len in *. cbn [length]. rewrite Nat2Z.inj_succ, Hcount. unfold pageCount, step_size in *.
      set (n := Z.of_nat (length names)) in *. rewrite Nat2Z.inj_add, Z2Nat.id by lia.
      replace (n - Z.of_nat k + limit - 1) with ((n - (Z.of_nat k + limit) + limit - 1) + 1 * limit) by lia.
      rewrite Z.div_add by lia.
      assert (1 <= (n - (Z.of_nat k + limit) + limit - 1) / limit) by (apply Z.div_le_lower_bound; lia). lia.
  - subst next. rewrite bool_decide_true by done. eexists. split; [done|]. cbn [map concat up_Items]. rewrite app_nil_r.
    split; [f_equal; apply take_ge; rewrite length_drop; unfold step_size in *; lia|].
    split; [by repeat constructor|]. unfold len, pageCount. cbn [length].
    assert ((Z.of_nat (length names) - Z.of_nat k + limit - 1) / limit < 2)
      by (apply Z.div_lt_upper_bound; unfold step_size in *; lia). lia.
Qed.
End pages.

(** C39: a client that follows the next cursor from the empty one reaches the last page
    after as many pages as the limit makes of the users, and the pages list every user
    once, in the order of the names, with the sorted grants and the total number of
    users. *)
Theorem grant_pages_complete w limit : good (m_store (w_manager w)) -> 1 <= limit <= MaxGrantPageLimit ->
  exists pages,
    collectPages (S (size (us_users (m_store (w_manager w))))) limit [] w = (Ok pages, w) /\
    concat (map up_Items pages) =
      map (grantBundle (m_store (w_manager w))) (sortedUserNames (us_users (m_store (w_manager w)))) /\
    Forall (fun page => up_TotalUsers page = Z.of_nat (size (us_users (m_store (w_manager w))))) pages /\
    len pages = pageCount (Z.of_nat (size (us_users (m_store (w_manager w))))) limit.
Proof.
  intros Hg Hl. rewrite <- (size_len (us_users _)).
  pose proof (length_SortedKeys (us_users (m_store (w_manager w)))) as Hs.
  destruct (collectPages_from w limit Hg Hl (S (size (us_users (m_store (w_manager w))))) 0 [] eq_refl) as (pages & H);
    [lia|unfold sortedUserNames; lia|]. exists pages. by rewrite Z.sub_0_r in H.
Qed.

(** ** Examples *)
Module UserExample.
(** Stand-ins of the right length for the primitives. *)
Definition pad (n : Z) (bs : bytes) : bytes :=
  take (Z.to_nat n) (map (fun b => b mod 256) bs ++ replicate (Z.to_nat n) 0).
#[local] Instance exCrypto : Crypto := {|
  pbkdf2_Key password salt iterations n := if n <=? 0 then Err (Errorf "invalid key length") else Ok (pad n password);
  sha256_Sum256 bs := pad 32 bs;
|}.
Lemma pad_ok n bs : 0 <= n -> bytes_ok (pad n bs) /\ len (pad n bs) = n.
Proof.
  intros Hn. unfold pad, len, bytes_ok. rewrite length_take, length_app, length_replicate. split; [|lia].
  apply Forall_take, Forall_app. split; [|by apply Forall_replicate].
  apply Forall_fmap, Forall_true. intros b. unfold is_byte. simpl. pose proof (Z.mod_pos_bound b 256). lia.
Qed.
#[local] Instance exLaws : CryptoLaws.
Proof.
  split.
  - intros password salt iterations n h. simpl. zcase (n <=? 0); [done|]. intros [= <-]. apply pad_ok. lia.
  - intros bs. by apply pad_ok.
Qed.
Definition rand (n : Z) : outcome bytes :=
  if n <? 0 then Err (Errorf "negative size") else Ok (replicate (Z.to_nat n) 7).
Definition dir : bytes := str "/data".
Definition alice : User := mkUser (str " alice ") (str "Alice") [] false ∅.
Definition login (password : string) : action :=
  AAuthStart None None rand 1000 (mkCredentials (str "alice") (str password)) 500.
Definition drawn : pendingToken := mkPending (base64Encode (replicate 32 7)) (str "alice") 1500.
Definition names (files : gmap bytes bytes) : bytes := str "0".
Definition start : Sys := fresh_sys dir DefaultOptions ∅ [].
Definition setup : list action := [ACreate None alice; ASetPassword None rand (str "alice") (str "old")].
Definition session : list action :=
  setup ++ [AGrant None (str "alice") (str "db") PermissionWrite; login "old"; AAuthFinish drawn].
Lemma rand_good : rand_ok rand.
Proof.
  intros n bs. unfold rand. zcase (n <? 0); [done|]. intros [= <-]. split; [by apply Forall_replicate|].
  unfold len. rewrite length_replicate. lia.
Qed.
Lemma session_ok : Forall action_ok session.
Proof.
  assert (user_arg alice) by (split; [by_decide|split; [by_decide|apply map_Forall_empty]]).
  assert (string_ok (str "db")) by by_decide. pose proof rand_good.
  unfold session, setup. cbn [app]. rewrite !Forall_cons, Forall_nil.
  by refine (conj _ (conj _ (conj _ (conj I (conj I I))))).

Qed.
Lemma session_verifies :
  okb (VerifyToken names None None 1400 (pt_token drawn) (sys_world (run_actions names dir session start).2)).1 = true.
Proof. vm_compute. reflexivity. Qed.
Lemma session_permits :
  okb (CheckPermission None (str "alice") (str "db") PermissionWrite
    (sys_world (run_actions names dir session start).2)).1 = true.
Proof. vm_compute. reflexivity. Qed.
Definition named (name : string) : User := mkUser (str name) [] [] false ∅.
Definition crowd : list action := [ACreate None (named "carol"); ACreate None (named "bob"); ACreate None (named "alice")].
Lemma crowd_ok : Forall action_ok crowd.
Proof.
  assert (Hn : forall name, string_ok (str name) -> user_arg (named name))
    by (intros name Hs; split; [done|split; [by_decide|apply map_Forall_empty]]).
  unfold crowd. rewrite !Forall_cons, Forall_nil. by refine (conj (Hn _ _) (conj (Hn _ _) (conj (Hn _ _) I))); by_decide.
Qed.
(** A record of a user whose salt has the length 2^63. *)
Definition crafted : bytes :=
  appendUvarint 1 ++ AppendString (str "a") ++ AppendString [] ++ AppendString RoleUser ++ [0] ++ appendUvarint 0 ++
  [1] ++ appendUvarint (2 ^ 63).
Lemma session_deletes :
  (run_action names dir (ADelete None (str "alice")) (run_actions names dir session start).2).1 = true.
Proof. vm_compute. reflexivity. Qed.
Lemma crowd_size : size (us_users (sys_store (run_actions names dir crowd start).2)) = 3%nat.
Proof. vm_compute. reflexivity. Qed.
Lemma crowd_pages :
  match (collectPages 4 2 [] (sys_world (run_actions names dir crowd start).2)).1 with
  | Ok pages => map (map (fun b => u_Name (ub_User b))) (map up_Items pages) = [[str "alice"; str "bob"]; [str "carol"]]
  | _ => False
  end.
Proof. vm_compute. reflexivity. Qed.
(** The password is changed between the two locked parts of a login. *)
Definition raced : list entry * Sys :=
  run_actions names dir
    (setup ++ [login "old"; AChangePassword None rand (str "alice") (str "old") (str "new"); AAuthFinish drawn]) start.
End UserExample.

Section witness.
  Import UserExample.
  #[local] Existing Instances exCrypto exLaws.
(** A session in which the token verifies and the permission is there, and
    what the log then shows. *)
Lemma access_safety_witness :
  exists log s pr w w', run_actions names dir session start = (log, s) /\
    VerifyToken names None None 1400 (pt_token drawn) (sys_world s) = (Ok pr, w) /\
    CheckPermission None (str "alice") (str "db") PermissionWrite (sys_world s) = (Ok tt, w') /\
    (exists p e, e ∈ log /\ verified e p) /\
    exists q e, e ∈ log /\ adds_grant (en_action e) (TrimSpace (str "alice")) (TrimSpace (str "db")) q.
Proof.
  destruct (run_actions names dir session start) as [log s] eqn:E.
  destruct (access_safety names dir DefaultOptions ∅ [] session log s (lookup_empty _) session_ok E) as [Ht Hp].
  pose proof session_verifies as Hv. pose proof session_permits as Hc. rewrite E in Hv, Hc.
  change ((log, s).2) with s in Hv, Hc.
  destruct (VerifyToken names None None 1400 (pt_token drawn) (sys_world s)) as [[pr| |] w] eqn:Ev; [|discriminate Hv..].
  destruct (CheckPermission None (str "alice") (str "db") PermissionWrite (sys_world s)) as [[[]| |] w'] eqn:Ec; [|discriminate Hc..].
  clear Hv Hc. rename Ev into Hv, Ec into Hc. exists log, s, pr, w, w'. split; [reflexivity|]. split; [exact Hv|].
  split; [exact Hc|]. split.
  - destruct (Ht _ _ _ _ _ _ Hv) as (p & l1 & e1 & l2 & e2 & l3 & user & -> & Hve & _). exists p, e1.
    split; [|exact Hve]. apply elem_of_app. right. by left.
  - destruct (Hp _ _ _ _ _ Hc) as (user & q & l1 & e & l2 & _ & _ & _ & -> & Ha & _). exists q, e.
    split; [|exact Ha]. apply elem_of_app. right. by left.
Defined.


(** What was acknowledged last is what a restart finds. *)
Lemma user_persistence_witness :
  exists log s s', run_actions names dir session start = (log, s) /\
    run_action names dir (ADelete None (str "alice")) s = (true, s') /\
    OpenWithOptions dir DefaultOptions (mkDisk (dk_files (w_disk (sys_world s'))) []) =
      (Ok (mkManager (userPath dir) (sys_store s') (normalizeOptions DefaultOptions)),
       mkDisk (dk_files (w_disk (sys_world s'))) []).
Proof.
  destruct (run_actions names dir session start) as [log s] eqn:E.
  destruct (run_action names dir (ADelete None (str "alice")) s) as [ok s'] eqn:E'.
  assert (Hok : ok = true).
  { pose proof session_deletes as Hd. rewrite E in Hd. change ((log, s).2) with s in Hd. by rewrite E' in Hd. }
  subst ok. exists log, s, s'. split; [reflexivity|]. split; [exact E'|].
  apply (user_persistence names dir DefaultOptions DefaultOptions ∅ [] session log s (ADelete None (str "alice")) s');
    [apply lookup_empty| |exact E|reflexivity|exact E'|vm_compute; reflexivity].
  apply Forall_app. split; [exact session_ok|]. by apply Forall_singleton.
Defined.
Lemma grant_pages_complete_witness :
  exists pages, collectPages 4 2 [] (sys_world (run_actions names dir crowd start).2) =
      (Ok pages, sys_world (run_actions names dir crowd start).2) /\
    map (map (fun b => u_Name (ub_User b))) (map up_Items pages) = [[str "alice"; str "bob"]; [str "carol"]] /\
    len pages = pageCount 3 2.
Proof.
  destruct (run_actions names dir crowd start) as [log s] eqn:E. change ((log, s).2) with s.
  pose proof (iv_good _ _ _ (access_justified names dir DefaultOptions ∅ [] crowd log s (lookup_empty _) crowd_ok E)) as Hg.
  assert (Hn : size (us_users (sys_store s)) = 3%nat).
  { pose proof crowd_size as Hc. rewrite E in Hc. exact Hc. }
  destruct (grant_pages_complete (sys_world s) 2 Hg) as (pages & Hp & Hi & _ & Hl); [unfold MaxGrantPageLimit; lia|].
  fold (sys_store s) in Hp, Hl. rewrite Hn in Hp, Hl. exists pages. split; [exact Hp|]. split; [|exact Hl].
  pose proof crowd_pages as Hc. rewrite E in Hc. change ((log, s).2) with s in Hc. rewrite Hp in Hc. exact Hc.
Defined.

(** A file with a valid checksum whose salt length does not fit an [int] panics
    instead of being refused. *)
Theorem decodeUserMetadata_panics :
  decodeUserMetadata (MarshalEnvelope userMetadataMagic 0 crafted) = Panic IndexOutOfRange.
Proof. vm_compute. reflexivity. Qed.
End witness.
