(* ===== verification/Catalog.v ===== *)
(** * internal/catalog: identifiers of series and fields

    The catalog gives every series (a measurement and its tags) and every field
    of a measurement an identifier, keeps them in memory with the indexes that
    find them, logs each new one to catalog.wal and writes all of them to
    snapshot.bin from time to time; databases and retention policies are in
    metadata.bin.  The disk is the one of [StorageFS], so every call may fail.

    Scratch buffers and the arena that the fields of a batch are cut from only
    save allocations and are left out.  Downsampling policies and how far each
    got are in downsample.bin. *)
From S2P Require Import Prelude GoBinary Model Codec Readers Runtime MemCompact GoStrings StorageFS.
From stdpp Require Import prelude strings list sorting gmap.
From Stdlib Require Import ZArith Lia.
#[local] Open Scope Z_scope.

Definition ErrEmptyMeasurement : goerr := Errorf "measurement is empty".
Definition ErrEmptyFields : goerr := Errorf "fields are empty".
Definition ErrFieldTypeConflict : goerr := Errorf "field type conflict".
Definition ErrCardinalityLimit : goerr := Errorf "catalog cardinality limit exceeded".

(** ** Data *)
Record Limits := mkLimits { MaxSeries : Z; MaxFields : Z; MaxTagValuesPerKey : Z }.
Record Series := mkSeries { se_ID : Z; se_Measurement : bytes; se_Tags : gmap bytes bytes }.
Record Field := mkField { fd_ID : Z; fd_Measurement : bytes; fd_Name : bytes; fd_Type : Z }.
Record RetentionPolicy := mkRetentionPolicy { rt_Name : bytes; rt_Duration : Z }.
Record Point := mkPoint {
  po_Database : bytes;
  po_RetentionPolicy : bytes;
  po_Measurement : bytes;
  po_Tags : gmap bytes bytes;
  po_Timestamp : Z;
  po_Fields : gmap bytes FieldValue;
}.
Record TypedFieldColumn := mkTypedFieldColumn {
  fc_Name : bytes;
  fc_Type : Z;
  fc_Float64Values : list Z;
  fc_Int64Values : list Z;
  fc_StringValues : list bytes;
  fc_BoolValues : list bool;
}.
Record TypedBatch := mkTypedBatchArg {
  ba_Database : bytes;
  ba_RetentionPolicy : bytes;
  ba_Measurement : bytes;
  ba_Tags : list TagColumn;
  ba_Timestamps : list Z;
  ba_Fields : list TypedFieldColumn;
}.
Record DownsampleFunction := mkDownsampleFunction { df_Function : bytes; df_Field : bytes; df_As : bytes }.
Record DownsamplePolicy := mkDownsamplePolicy {
  dp_Name : bytes;
  dp_SourceDatabase : bytes;
  dp_SourceRetention : bytes;
  dp_SourceMeasurement : bytes;
  dp_TargetDatabase : bytes;
  dp_TargetRetention : bytes;
  dp_TargetMeasurement : bytes;
  dp_Interval : Z;
  dp_Functions : list DownsampleFunction;
  dp_GroupByTags : list bytes;
  dp_Delay : Z;
  dp_RefreshInterval : Z;
  dp_Lookback : Z;
  dp_InitialStartTime : Z;
  dp_RunTimeout : Z;
  dp_BatchSize : Z;
  dp_CheckpointInterval : Z;
  dp_PolicyTagName : bytes;
  dp_Enabled : bool;
}.
Record DownsampleWatermark := mkDownsampleWatermark {
  dw_PolicyName : bytes;
  dw_CompletedUntilUnix : Z;
  dw_LastRunUnix : Z;
  dw_LastSuccessUnix : Z;
  dw_LastError : bytes;
  dw_AllowPolicyReplace : bool;
}.
Record Downsampling := mkDownsampling {
  dn_policies : gmap bytes DownsamplePolicy;
  dn_watermarks : gmap bytes DownsampleWatermark;
}.
Definition zeroSeries : Series := mkSeries 0 [] ∅.
Definition zeroField : Field := mkField 0 [] [] 0.
#[export] Instance Series_eq_dec : EqDecision Series.
Proof. solve_decision. Defined.
#[export] Instance Field_eq_dec : EqDecision Field.
Proof. solve_decision. Defined.
#[export] Instance RetentionPolicy_eq_dec : EqDecision RetentionPolicy.
Proof. solve_decision. Defined.

(** The part of the catalog that a record of the log changes. *)
Record Index := mkIndex {
  ix_nextSeriesID : Z;
  ix_nextFieldID : Z;
  ix_seriesByKey : gmap bytes Z;
  ix_seriesByTag : gmap bytes (gmap bytes (gmap bytes Z));
  ix_tagValues : gmap bytes (gmap bytes (gset bytes));
  ix_series : gmap Z Series;
  ix_fieldsByKey : gmap bytes Z;
  ix_fields : gmap Z Field;
  ix_fieldSchemas : gmap bytes (list Field);
}.
Record Catalog := mkCatalog {
  ct_dir : bytes;
  ct_wal : bool;
  ct_limits : Limits;
  ct_index : Index;
  ct_databases : gset bytes;
  ct_policies : gmap bytes (gmap bytes RetentionPolicy);
  ct_downsampling : Downsampling;
  ct_snapshotDirtyRecords : Z;
  ct_cardinalityRejected : Z;
}.
Definition emptyIndex : Index := mkIndex 1 1 ∅ ∅ ∅ ∅ ∅ ∅ ∅.
Definition newCatalog (dir : bytes) (limits : Limits) : Catalog :=
  mkCatalog dir false limits emptyIndex ∅ ∅ (mkDownsampling ∅ ∅) 0 0.

(** ** key.go *)
Definition seriesKey (measurement : bytes) (tags : gmap bytes bytes) : bytes :=
  measurement ++
  concat (map (fun key => [0xff] ++ key ++ [61] ++ default [] (tags !! key)) (SortedKeys tags)).
Definition fieldKey (measurement name : bytes) : bytes := measurement ++ [0xff] ++ name.
Definition cloneTags (tags : gmap bytes bytes) : gmap bytes bytes := CloneMap tags.
(** A key that a series lacks reads as the empty string. *)
Definition tagsMatch (seriesTags filter : gmap bytes bytes) : bool :=
  forallb (fun kv => bool_decide (default [] (seriesTags !! kv.1) = kv.2)) (map_to_list filter).

(** ** Applying records to the index (resolve.go, cardinality.go) *)
Definition single (tags : gmap bytes bytes) : option (bytes * bytes) :=
  match map_to_list tags with [kv] => Some kv | _ => None end.
Definition upsertSingleTagSeries (s : Series) (byTag : gmap bytes (gmap bytes (gmap bytes Z)))
    : gmap bytes (gmap bytes (gmap bytes Z)) :=
  match single (se_Tags s) with
  | Some (key, value) =>
      let byKey := default ∅ (byTag !! se_Measurement s) in
      <[se_Measurement s := <[key := <[value := se_ID s]> (default ∅ (byKey !! key))]> byKey]> byTag
  | None => byTag
  end.
Definition recordTagValues (measurement : bytes) (tags : gmap bytes bytes)
    (tagValues : gmap bytes (gmap bytes (gset bytes))) : gmap bytes (gmap bytes (gset bytes)) :=
  if bool_decide (tags = ∅) then tagValues
  else
    let valuesByKey := default ∅ (tagValues !! measurement) in
    <[measurement := foldr (fun kv acc => <[kv.1 := default ∅ (acc !! kv.1) ∪ {[kv.2]}]> acc) valuesByKey (map_to_list tags)]>
      tagValues.
Definition applySeries (s : Series) (ix : Index) : Index :=
  let s := mkSeries (se_ID s) (se_Measurement s) (cloneTags (se_Tags s)) in
  mkIndex (if ix_nextSeriesID ix <=? se_ID s then u64 (se_ID s + 1) else ix_nextSeriesID ix) (ix_nextFieldID ix)
    (<[seriesKey (se_Measurement s) (se_Tags s) := se_ID s]> (ix_seriesByKey ix))
    (upsertSingleTagSeries s (ix_seriesByTag ix))
    (recordTagValues (se_Measurement s) (se_Tags s) (ix_tagValues ix))
    (<[se_ID s := s]> (ix_series ix)) (ix_fieldsByKey ix) (ix_fields ix) (ix_fieldSchemas ix).
(** The schema of a measurement is kept in the order of the names. *)
Fixpoint upsertLoop (field : Field) (schema : list Field) : list Field :=
  match schema with
  | [] => [field]
  | existing :: rest =>
      if bool_decide (fd_Name existing = fd_Name field) then field :: rest
      else if bytes_ltb (fd_Name field) (fd_Name existing) then field :: existing :: rest
      else existing :: upsertLoop field rest
  end.
Definition upsertFieldSchema (field : Field) (schemas : gmap bytes (list Field)) : gmap bytes (list Field) :=
  <[fd_Measurement field := upsertLoop field (default [] (schemas !! fd_Measurement field))]> schemas.
Definition catApplyField (f : Field) (ix : Index) : Index :=
  mkIndex (ix_nextSeriesID ix) (if ix_nextFieldID ix <=? fd_ID f then u32 (fd_ID f + 1) else ix_nextFieldID ix)
    (ix_seriesByKey ix) (ix_seriesByTag ix) (ix_tagValues ix) (ix_series ix)
    (<[fieldKey (fd_Measurement f) (fd_Name f) := fd_ID f]> (ix_fieldsByKey ix))
    (<[fd_ID f := f]> (ix_fields ix)) (upsertFieldSchema f (ix_fieldSchemas ix)).

(** A record of the log; the code keeps a tag string and two pointers, of which
    one is set. *)
Inductive walEntry := SeriesEntry (s : Series) | FieldEntry (f : Field).
Definition applyEntry (entry : walEntry) (ix : Index) : Index :=
  match entry with SeriesEntry s => applySeries s ix | FieldEntry f => catApplyField f ix end.

(** ** persist.go: encoding *)
Definition catalogRecordSeries : Z := 1.
Definition catalogRecordField : Z := 2.
Definition maxSnapshotCheckpointRecords : Z := 65536.
Definition snapshotCheckpointRecords : Z := 4096.
Definition catalogMagic : bytes := Eval cbv in str "MTSCAT2".
Record snapshot := mkSnapshot {
  sn_NextSeriesID : Z;
  sn_NextFieldID : Z;
  sn_Series : list Series;
  sn_Fields : list Field;
}.
Definition validFieldType (t : Z) : bool :=
  (t =? FieldFloat64) || (t =? FieldInt64) || (t =? FieldString) || (t =? FieldBool).
Definition catAppendTags (tags : gmap bytes bytes) : bytes :=
  let keys := SortedKeys tags in
  appendUvarint (len keys) ++
  concat (map (fun key => AppendString key ++ AppendString (default [] (tags !! key))) keys).
Definition appendSeries (s : Series) : bytes :=
  appendUvarint (se_ID s) ++ AppendString (se_Measurement s) ++ catAppendTags (se_Tags s).
Definition appendField (f : Field) : bytes :=
  appendUvarint (fd_ID f) ++ AppendString (fd_Measurement f) ++ AppendString (fd_Name f) ++ [u8 (fd_Type f)].
Definition encodeWALEntry (entry : walEntry) : bytes :=
  match entry with
  | SeriesEntry s => [catalogRecordSeries] ++ appendSeries s
  | FieldEntry f => [catalogRecordField] ++ appendField f
  end.
Definition walFrame (entry : walEntry) : bytes :=
  let frame := MarshalEnvelope catalogMagic 0 (encodeWALEntry entry) in
  appendUvarint (len frame) ++ frame.
Definition encodeSnapshot (snap : snapshot) : bytes :=
  MarshalEnvelope catalogMagic 0
    (appendUvarint (sn_NextSeriesID snap) ++ appendUvarint (sn_NextFieldID snap) ++
     appendUvarint (len (sn_Series snap)) ++ concat (map appendSeries (sn_Series snap)) ++
     appendUvarint (len (sn_Fields snap)) ++ concat (map appendField (sn_Fields snap))).

Module PayloadReader.
Definition uvarint (name : string) : reader Z := rd_uvarint (Errorf ("decode catalog " +:+ name +:+ ": invalid uvarint")).
Definition varint (name : string) : reader Z := rd_varint (Errorf ("decode catalog " +:+ name +:+ ": invalid varint")).
Definition intCount (name : string) : reader Z :=
  rd_intCount (Errorf ("decode catalog " +:+ name +:+ ": invalid uvarint"))
    (Errorf ("decode catalog " +:+ name +:+ ": count overflows int")).
Definition string (name : String.string) : reader bytes := rd_string ("decode catalog " +:+ name).
Definition byte (name : String.string) : reader Z := rd_byte (Errorf ("decode catalog " +:+ name +:+ ": missing byte")).
Definition done (name : String.string) : reader unit := rd_done (Errorf ("decode " +:+ name +:+ ": trailing bytes")).
Definition uint32Value (name : String.string) (value : Z) : outcome Z :=
  if 2 ^ 32 - 1 <? value then Err (Errorf ("decode catalog " +:+ name +:+ ": value overflows uint32")) else Ok (u32 value).
End PayloadReader.

Definition catReadTagPair : reader (bytes * bytes) :=
  key ← PayloadReader.string "tag key";
  value ← PayloadReader.string "tag value";
  mret (key, value).
Definition catReadTags : reader (gmap bytes bytes) :=
  count ← PayloadReader.intCount "tag count";
  readMapLoop catReadTagPair (Z.to_nat count) ∅.
Definition readSeries : reader Series :=
  id ← PayloadReader.uvarint "series id";
  measurement ← PayloadReader.string "series measurement";
  tags ← catReadTags;
  mret (mkSeries id measurement tags).
Definition readFieldNames : reader (bytes * bytes) :=
  measurement ← PayloadReader.string "field measurement";
  name ← PayloadReader.string "field name";
  mret (measurement, name).
Definition readField : reader Field :=
  id ← PayloadReader.uvarint "field id";
  fieldID ← lift (PayloadReader.uint32Value "field id" id);
  '(measurement, name) ← readFieldNames;
  fieldType ← PayloadReader.byte "field type";
  if negb (validFieldType fieldType) then rfail (Errorf "decode catalog field: unsupported type")
  else mret (mkField fieldID measurement name fieldType).
Definition readSeriesList : reader (list Series) :=
  count ← PayloadReader.intCount "series count";
  _ ← rmake 32 count;
  read_n (Z.to_nat count) readSeries.
Definition readFieldList : reader (list Field) :=
  count ← PayloadReader.intCount "field count";
  _ ← rmake 48 count;
  read_n (Z.to_nat count) readField.
Definition readSnapshotPayload : reader snapshot :=
  nextSeriesID ← PayloadReader.uvarint "next series id";
  nextFieldID ← PayloadReader.uvarint "next field id";
  nextField ← lift (PayloadReader.uint32Value "next field id" nextFieldID);
  series ← readSeriesList;
  fields ← readFieldList;
  mret (mkSnapshot nextSeriesID nextField series fields).
Definition decodeSnapshot (data : bytes) : outcome snapshot :=
  env ← UnmarshalEnvelope data catalogMagic;
  '(snap, _) ← (snap ← readSnapshotPayload; _ ← PayloadReader.done "catalog snapshot"; mret snap) (env_Payload env);
  Ok snap.
Definition readWALEntry : reader walEntry :=
  recordType ← PayloadReader.byte "record type";
  if recordType =? catalogRecordSeries then s ← readSeries; mret (SeriesEntry s)
  else if recordType =? catalogRecordField then f ← readField; mret (FieldEntry f)
  else rfail (Errorf "decode catalog wal record: unsupported type").
Definition decodeWALFrame (frame : bytes) : outcome walEntry :=
  env ← wrapErr "decode catalog wal frame" (UnmarshalEnvelope frame catalogMagic);
  '(entry, _) ← (entry ← readWALEntry; _ ← PayloadReader.done "catalog wal record"; mret entry) (env_Payload env);
  Ok entry.
Definition decodeWALRecord (data : bytes) : outcome (walEntry * bytes) :=
  let '(length, size) := Uvarint data in
  if size <=? 0 then Err (Errorf "decode catalog wal record: invalid length")
  else
    let start := size in
    if len data - start <? length then Err (Errorf "decode catalog wal record: truncated frame")
    else
      let end_ := start + length in
      entry ← decodeWALFrame (slice start end_ data);
      Ok (entry, drop (Z.to_nat end_) data).
(** The loop over the log, with the number of bytes left as its fuel. *)
Fixpoint replayRecords (fuel : nat) (data : bytes) (ix : Index) (replayed : Z) : outcome (Index * Z) :=
  match fuel with
  | O => Ok (ix, replayed)
  | S fuel' =>
      if len data =? 0 then Ok (ix, replayed)
      else
        '(entry, rest) ← decodeWALRecord data;
        replayRecords fuel' rest (applyEntry entry ix) (replayed + 1)
  end.

(** ** The catalog and its directory *)
Record CatWorld := mkCatWorld { cw_cat : Catalog; cw_disk : Disk }.
Definition withIndex (ix : Index) (c : Catalog) : Catalog :=
  mkCatalog (ct_dir c) (ct_wal c) (ct_limits c) ix (ct_databases c) (ct_policies c) (ct_downsampling c) (ct_snapshotDirtyRecords c)
    (ct_cardinalityRejected c).
Definition withDirty (records : Z) (c : Catalog) : Catalog :=
  mkCatalog (ct_dir c) (ct_wal c) (ct_limits c) (ct_index c) (ct_databases c) (ct_policies c) (ct_downsampling c) records
    (ct_cardinalityRejected c).
Definition withMetadata (databases : gset bytes) (policies : gmap bytes (gmap bytes RetentionPolicy)) (c : Catalog) : Catalog :=
  mkCatalog (ct_dir c) (ct_wal c) (ct_limits c) (ct_index c) databases policies (ct_downsampling c) (ct_snapshotDirtyRecords c)
    (ct_cardinalityRejected c).
Definition withWal (wal : bool) (c : Catalog) : Catalog :=
  mkCatalog (ct_dir c) wal (ct_limits c) (ct_index c) (ct_databases c) (ct_policies c) (ct_downsampling c)
    (ct_snapshotDirtyRecords c) (ct_cardinalityRejected c).
Definition withDownsampling (downsampling : Downsampling) (c : Catalog) : Catalog :=
  mkCatalog (ct_dir c) (ct_wal c) (ct_limits c) (ct_index c) (ct_databases c) (ct_policies c) downsampling
    (ct_snapshotDirtyRecords c) (ct_cardinalityRejected c).
Definition catModify (f : Catalog -> Catalog) : step CatWorld unit := fun w =>
  (Ok tt, mkCatWorld (f (cw_cat w)) (cw_disk w)).
Definition catGet {A} (f : Catalog -> A) : step CatWorld A := fun w => (Ok (f (cw_cat w)), w).
Definition catDisk {A} (m : step Disk A) : step CatWorld A := fun w =>
  let '(r, d) := m (cw_disk w) in (r, mkCatWorld (cw_cat w) d).
(** Slices built with [append] panic past the address space. *)
Definition allocated (data : bytes) : step CatWorld unit :=
  if maxAlloc <? len data then pure_step (Panic MakesliceLen) else mret tt.

Definition snapshotPath (c : Catalog) : bytes := filepath_Join (ct_dir c) (str "snapshot.bin").
Definition walPath (c : Catalog) : bytes := filepath_Join (ct_dir c) (str "catalog.wal").
Definition metadataPath (c : Catalog) : bytes := filepath_Join (ct_dir c) (str "metadata.bin").
Definition downsamplePath (c : Catalog) : bytes := filepath_Join (ct_dir c) (str "downsample.bin").

Section catalog.
  Context (suffixes : gmap bytes bytes -> bytes).

(** ** persist.go: the log and the snapshot *)
Definition appendEntryLocked (entry : walEntry) : step CatWorld unit :=
  c ← catGet id;
  let encoded := walFrame entry in
  allocated encoded;;
  (if ct_wal c then wrap_step "write catalog wal" (catDisk (WriteFull (walPath c) encoded))
   else fail_step (ErrWrap "write catalog wal" (wrapOp OpWrite (Errorf "invalid argument"))));;
  wrap_step "sync catalog wal" (catDisk (Sync (walPath c))).
Definition idLess {A} (f : A -> Z) (x y : A) : Prop := f x <= f y.
#[export] Instance idLess_dec {A} (f : A -> Z) : RelDecision (idLess f).
Proof. intros x y. unfold idLess. apply _. Defined.
(** Identifiers differ, so the order does not depend on the map's. *)
Definition snapshotLocked (ix : Index) : snapshot :=
  mkSnapshot (ix_nextSeriesID ix) (ix_nextFieldID ix)
    (merge_sort (idLess se_ID) (map_to_list (ix_series ix)).*2)
    (merge_sort (idLess fd_ID) (map_to_list (ix_fields ix)).*2).
Definition saveSnapshotLocked : step CatWorld unit :=
  c ← catGet id;
  let data := encodeSnapshot (snapshotLocked (ct_index c)) in
  allocated data;;
  wrap_step "write catalog snapshot" (catDisk (WriteFileAtomic suffixes (snapshotPath c) data)).
Definition snapshotCheckpointThresholdLocked (c : Catalog) : Z :=
  let scaled := Z.of_nat (size (ix_series (ct_index c)) + size (ix_fields (ct_index c))) / 2 in
  Z.min maxSnapshotCheckpointRecords (Z.max snapshotCheckpointRecords scaled).
Definition os_Truncate (path : bytes) : step Disk unit :=
  os_call;;
  d ← get_step;
  put_step (setFiles (<[path := []]> (dk_files d)) d).
Definition checkpointSnapshotLocked (force : bool) : step CatWorld unit :=
  c ← catGet id;
  if ct_snapshotDirtyRecords c =? 0 then mret tt
  else if negb force && (ct_snapshotDirtyRecords c <? snapshotCheckpointThresholdLocked c) then mret tt
  else
    saveSnapshotLocked;;
    if negb (ct_wal c) then catModify (withDirty 0)
    else
      wrap_step "truncate catalog wal after snapshot" (catDisk (os_Truncate (walPath c)));;
      wrap_step "seek catalog wal after snapshot" (catDisk os_call);;
      wrap_step "sync truncated catalog wal" (catDisk (Sync (walPath c)));;
      catModify (withDirty 0).

(** ** cardinality.go *)
Definition rejected : step CatWorld unit := catModify (fun c =>
  mkCatalog (ct_dir c) (ct_wal c) (ct_limits c) (ct_index c) (ct_databases c) (ct_policies c) (ct_downsampling c)
    (ct_snapshotDirtyRecords c) (u64 (ct_cardinalityRejected c + 1))).
(** A tag whose key already has as many values as allowed, none of them its own. *)
Definition tagRejected (c : Catalog) (measurement : bytes) (kv : bytes * bytes) : bool :=
  match ix_tagValues (ct_index c) !! measurement with
  | None => false
  | Some values =>
      match values !! kv.1 with
      | None => false
      | Some keyValues =>
          negb (bool_decide (kv.2 ∈ keyValues)) && (MaxTagValuesPerKey (ct_limits c) <=? Z.of_nat (size keyValues))
      end
  end.
Definition ensureSeriesCardinalityLocked (measurement : bytes) (tags : gmap bytes bytes) : step CatWorld unit :=
  c ← catGet id;
  let limits := ct_limits c in
  if (0 <? MaxSeries limits) && (MaxSeries limits <=? Z.of_nat (size (ix_series (ct_index c))))
  then rejected;; fail_step ErrCardinalityLimit
  else if MaxTagValuesPerKey limits <=? 0 then mret tt
  else if existsb (tagRejected c measurement) (map_to_list tags) then rejected;; fail_step ErrCardinalityLimit
  else mret tt.
Definition ensureFieldCardinalityLocked : step CatWorld unit :=
  c ← catGet id;
  let limits := ct_limits c in
  if (0 <? MaxFields limits) && (MaxFields limits <=? Z.of_nat (size (ix_fields (ct_index c))))
  then rejected;; fail_step ErrCardinalityLimit
  else mret tt.

(** ** resolve.go: series *)
Definition lookupSeriesID (ix : Index) (measurement : bytes) (tags : gmap bytes bytes) : option Z :=
  if bool_decide (tags = ∅) then ix_seriesByKey ix !! measurement
  else
    match single tags with
    | Some (key, value) =>
        byKey ← ix_seriesByTag ix !! measurement;
        values ← byKey !! key;
        values !! value
    | None => None
    end.
(** The identifier is advanced when the record is applied and once more. *)
Definition createSeriesNoSnapshotLocked (measurement : bytes) (tags : gmap bytes bytes) : step CatWorld (Series * bool) :=
  ensureSeriesCardinalityLocked measurement tags;;
  c ← catGet id;
  let s := mkSeries (ix_nextSeriesID (ct_index c)) measurement (cloneTags tags) in
  appendEntryLocked (SeriesEntry s);;
  catModify (fun c =>
    let ix := applySeries s (ct_index c) in
    let ix := mkIndex (u64 (ix_nextSeriesID ix + 1)) (ix_nextFieldID ix) (ix_seriesByKey ix) (ix_seriesByTag ix)
      (ix_tagValues ix) (ix_series ix) (ix_fieldsByKey ix) (ix_fields ix) (ix_fieldSchemas ix) in
    withDirty (ct_snapshotDirtyRecords c + 1) (withIndex ix c));;
  mret (s, true).
Definition seriesAt (ix : Index) (id : Z) : Series := default zeroSeries (ix_series ix !! id).
Definition multiTag (tags : gmap bytes bytes) : bool := bool_decide (1 < size tags)%nat.
(** The cache of a batch, used for series of two tags and more. *)
Definition resolveSeriesNoSnapshotCachedLocked (measurement : bytes) (tags : gmap bytes bytes)
    (cache : option (gmap bytes Series)) : step CatWorld (Series * bool * option (gmap bytes Series)) :=
  ix ← catGet ct_index;
  let key := seriesKey measurement tags in
  match cache with
  | Some cached =>
      if multiTag tags then
        match cached !! key with
        | Some s => mret (s, false, cache)
        | None =>
            match ix_seriesByKey ix !! key with
            | Some id => let s := seriesAt ix id in mret (s, false, Some (<[key := s]> cached))
            | None =>
                '(s, changed) ← createSeriesNoSnapshotLocked measurement tags;
                mret (s, changed, Some (<[key := s]> cached))
            end
        end
      else
        match lookupSeriesID ix measurement tags with
        | Some id => mret (seriesAt ix id, false, cache)
        | None =>
            match ix_seriesByKey ix !! key with
            | Some id => mret (seriesAt ix id, false, cache)
            | None => '(s, changed) ← createSeriesNoSnapshotLocked measurement tags; mret (s, changed, cache)
            end
        end
  | None =>
      match lookupSeriesID ix measurement tags with
      | Some id => mret (seriesAt ix id, false, None)
      | None =>
          match ix_seriesByKey ix !! key with
          | Some id => mret (seriesAt ix id, false, None)
          | None => '(s, changed) ← createSeriesNoSnapshotLocked measurement tags; mret (s, changed, None)
          end
      end
  end.
Definition resolveSeriesLocked (measurement : bytes) (tags : gmap bytes bytes) : step CatWorld Series :=
  '(s, changed, _) ← resolveSeriesNoSnapshotCachedLocked measurement tags None;
  (if changed : bool then checkpointSnapshotLocked false else mret tt);;
  mret s.

(** ** resolve.go: fields *)
Definition schemaField (ix : Index) (measurement name : bytes) : outcome (option Field) :=
  let schema := default [] (ix_fieldSchemas ix !! measurement) in
  index ← sort_Search (len schema) (fun index => f ← idx schema index; mret (negb (bytes_ltb (fd_Name f) name)));
  if len schema <=? index then Ok None
  else
    f ← idx schema index;
    if negb (bool_decide (fd_Name f = name)) then Ok None else Ok (Some f).
Definition checkType (f : Field) (fieldType : Z) : step CatWorld (Field * bool) :=
  if negb (fd_Type f =? fieldType) then fail_step ErrFieldTypeConflict else mret (f, false).
Definition resolveFieldNoSnapshotLocked (measurement name : bytes) (fieldType : Z) : step CatWorld (Field * bool) :=
  c ← catGet id;
  found ← pure_step (schemaField (ct_index c) measurement name);
  match found with
  | Some f => checkType f fieldType
  | None =>
      match ix_fieldsByKey (ct_index c) !! fieldKey measurement name with
      | Some id => checkType (default zeroField (ix_fields (ct_index c) !! id)) fieldType
      | None =>
          ensureFieldCardinalityLocked;;
          let f := mkField (ix_nextFieldID (ct_index c)) measurement name fieldType in
          appendEntryLocked (FieldEntry f);;
          catModify (fun c =>
            let ix := catApplyField f (ct_index c) in
            let ix := mkIndex (ix_nextSeriesID ix) (u32 (ix_nextFieldID ix + 1)) (ix_seriesByKey ix) (ix_seriesByTag ix)
              (ix_tagValues ix) (ix_series ix) (ix_fieldsByKey ix) (ix_fields ix) (ix_fieldSchemas ix) in
            withDirty (ct_snapshotDirtyRecords c + 1) (withIndex ix c));;
          mret (f, true)
      end
  end.
(** The check of a schema or a template against the values: [None] when a name
    is missing. *)
Fixpoint schemaMatches (schema : list (bytes * Z)) (values : gmap bytes FieldValue) : outcome bool :=
  match schema with
  | [] => Ok true
  | (name, fieldType) :: rest =>
      match values !! name with
      | None => Ok false
      | Some value => if negb (fieldType =? fv_Type value) then Err ErrFieldTypeConflict else schemaMatches rest values
      end
  end.
Definition resolveFieldsFromSchema (ix : Index) (measurement : bytes) (values : gmap bytes FieldValue)
    : outcome (option (list ResolvedField)) :=
  let schema := default [] (ix_fieldSchemas ix !! measurement) in
  if (len schema =? 0) || negb (len schema =? Z.of_nat (size values)) then Ok None
  else
    matches ← schemaMatches (map (fun f => (fd_Name f, fd_Type f)) schema) values;
    if negb matches then Ok None
    else Ok (Some (map (fun f => mkResolvedField (fd_ID f) (fd_Name f) (fd_Type f)
                                  (default zeroFieldValue (values !! fd_Name f))) schema)).
Fixpoint resolveNames (measurement : bytes) (values : gmap bytes FieldValue) (names : list bytes)
    : step CatWorld (list ResolvedField * bool) :=
  match names with
  | [] => mret ([], false)
  | name :: rest =>
      let value := default zeroFieldValue (values !! name) in
      '(f, fieldChanged) ← resolveFieldNoSnapshotLocked measurement name (fv_Type value);
      '(fields, changed) ← resolveNames measurement values rest;
      mret (mkResolvedField (fd_ID f) (fd_Name f) (fd_Type f) value :: fields, fieldChanged || changed)
  end.
Definition resolveFieldsNoSnapshotLocked (measurement : bytes) (values : gmap bytes FieldValue)
    : step CatWorld (list ResolvedField * bool) :=
  ix ← catGet ct_index;
  found ← pure_step (resolveFieldsFromSchema ix measurement values);
  match found with
  | Some fields => mret (fields, false)
  | None => resolveNames measurement values (SortedKeys values)
  end.
Definition resolveFieldsLocked (measurement : bytes) (values : gmap bytes FieldValue) : step CatWorld (list ResolvedField) :=
  '(fields, changed) ← resolveFieldsNoSnapshotLocked measurement values;
  (if changed : bool then checkpointSnapshotLocked false else mret tt);;
  mret fields.
(** The fields of the last point of the batch that was resolved in full, reused
    while the names and types stay the same. *)
Definition applyFieldTemplateLocked (values : gmap bytes FieldValue) (template : list ResolvedField)
    : outcome (option (list ResolvedField)) :=
  if (len template =? 0) || negb (len template =? Z.of_nat (size values)) then Ok None
  else
    matches ← schemaMatches (map (fun f => (rf_FieldName f, rf_Type f)) template) values;
    if negb matches then Ok None
    else Ok (Some (map (fun f => mkResolvedField (rf_FieldID f) (rf_FieldName f) (rf_Type f)
                                  (default zeroFieldValue (values !! rf_FieldName f))) template)).
Definition cloneFieldTemplate (fields : list ResolvedField) : list ResolvedField :=
  map (fun f => mkResolvedField (rf_FieldID f) (rf_FieldName f) (rf_Type f) zeroFieldValue) fields.

(** ** metadata.go *)
Definition metadataMagic : bytes := Eval cbv in str "MTSMETA".
Definition sortedDatabaseNames (databases : gset bytes) : list bytes := merge_sort bytes_le (elements databases).
Definition sortedPolicyNames (policies : gmap bytes RetentionPolicy) : list bytes := SortedKeys policies.
Definition zeroPolicy : RetentionPolicy := mkRetentionPolicy [] 0.
Definition appendPolicies (policies : gmap bytes RetentionPolicy) : bytes :=
  let names := sortedPolicyNames policies in
  appendUvarint (len names) ++
  concat (map (fun name => let policy := default zeroPolicy (policies !! name) in
                           AppendString (rt_Name policy) ++ appendVarint (rt_Duration policy)) names).
Definition catEncodeMetadata (databases : gset bytes) (policies : gmap bytes (gmap bytes RetentionPolicy)) : bytes :=
  let names := sortedDatabaseNames databases in
  MarshalEnvelope metadataMagic 0
    (appendUvarint (len names) ++
     concat (map (fun name => AppendString name ++ appendPolicies (default ∅ (policies !! name))) names)).
Definition readPolicy : reader (bytes * RetentionPolicy) :=
  name ← PayloadReader.string "retention policy name";
  duration ← PayloadReader.varint "retention policy duration";
  mret (name, mkRetentionPolicy name duration).
Definition readPolicies : reader (gmap bytes RetentionPolicy) :=
  count ← PayloadReader.intCount "retention policy count";
  readMapLoop readPolicy (Z.to_nat count) ∅.
Definition readDatabase : reader (bytes * gmap bytes RetentionPolicy) :=
  name ← PayloadReader.string "database name";
  got ← readPolicies;
  mret (name, got).
(** The set of databases and the map of policies have the same keys here. *)
Definition readMetadataPayload : reader (gset bytes * gmap bytes (gmap bytes RetentionPolicy)) :=
  count ← PayloadReader.intCount "database count";
  policies ← readMapLoop readDatabase (Z.to_nat count) ∅;
  mret (dom policies, policies).
Definition catDecodeMetadata (data : bytes) : outcome (gset bytes * gmap bytes (gmap bytes RetentionPolicy)) :=
  env ← UnmarshalEnvelope data metadataMagic;
  '(got, _) ← (got ← readMetadataPayload; _ ← PayloadReader.done "catalog metadata"; mret got) (env_Payload env);
  Ok got.
Definition saveMetadataLocked : step CatWorld unit :=
  c ← catGet id;
  let data := catEncodeMetadata (ct_databases c) (ct_policies c) in
  allocated data;;
  wrap_step "write catalog metadata" (catDisk (WriteFileAtomic suffixes (metadataPath c) data)).

(** ** catalog.go: points *)
Definition validatePoint (point : Point) : outcome unit :=
  if bool_decide (TrimSpace (po_Measurement point) = []) then Err ErrEmptyMeasurement
  else if bool_decide (po_Fields point = ∅) then Err ErrEmptyFields
  else Ok tt.
Definition ensureMetadataLocked (database policy : bytes) : step CatWorld bool :=
  if bool_decide (TrimSpace database = []) then mret false
  else
    c ← catGet id;
    let changed := negb (bool_decide (database ∈ ct_databases c)) in
    let databases := ct_databases c ∪ {[database]} in
    if bool_decide (TrimSpace policy = []) then
      catModify (withMetadata databases (ct_policies c));; mret changed
    else
      let known := default ∅ (ct_policies c !! database) in
      if bool_decide (is_Some (known !! policy)) then
        catModify (withMetadata databases (<[database := known]> (ct_policies c)));; mret changed
      else
        catModify (withMetadata databases (<[database := <[policy := mkRetentionPolicy policy 0]> known]> (ct_policies c)));;
        mret true.
Definition resolvedPointFrom (point : Point) (seriesID : Z) (fields : list ResolvedField) : ResolvedPoint :=
  mkResolvedPoint (po_Database point) (po_RetentionPolicy point) (po_Measurement point) (cloneTags (po_Tags point))
    seriesID (po_Timestamp point) 0 fields.
Definition resolvePointLocked (point : Point) : step CatWorld ResolvedPoint :=
  metadataChanged ← ensureMetadataLocked (po_Database point) (po_RetentionPolicy point);
  s ← resolveSeriesLocked (po_Measurement point) (po_Tags point);
  fields ← resolveFieldsLocked (po_Measurement point) (po_Fields point);
  (if metadataChanged : bool then saveMetadataLocked else mret tt);;
  mret (resolvedPointFrom point (se_ID s) fields).
Definition ResolvePoint (point : Point) : step CatWorld ResolvedPoint :=
  pure_step (validatePoint point);;
  resolvePointLocked point.

(** What the loop over a batch carries from point to point. *)
Record batchState := mkBatchState {
  bs_cache : gmap bytes Series;
  bs_template : option (list ResolvedField * bytes * Z);
  bs_metadataKey : option (bytes * bytes);
  bs_changed : bool;
  bs_metadataChanged : bool;
}.
Definition newTemplate (fields : list ResolvedField) (point : Point) : option (list ResolvedField * bytes * Z) :=
  if len fields =? 0 then None
  else Some (cloneFieldTemplate fields, po_Measurement point, Z.of_nat (size (po_Fields point))).
(** The fields of one point and the template left behind. *)
Definition resolveBatchFields (st : batchState) (point : Point)
    : step CatWorld (list ResolvedField * bool * option (list ResolvedField * bytes * Z)) :=
  let full := '(fields, changed) ← resolveFieldsNoSnapshotLocked (po_Measurement point) (po_Fields point);
              mret (fields, changed, newTemplate fields point) in
  match bs_template st with
  | Some (template, measurement, count) =>
      if bool_decide (po_Measurement point = measurement) && (Z.of_nat (size (po_Fields point)) =? count) then
        found ← pure_step (applyFieldTemplateLocked (po_Fields point) template);
        match found with
        | Some fields => mret (fields, false, bs_template st)
        | None => full
        end
      else full
  | None => full
  end.
Definition resolveBatchPoint (st : batchState) (point : Point) : step CatWorld (ResolvedPoint * batchState) :=
  let key := (po_Database point, po_RetentionPolicy point) in
  metadataChanged ← (if bool_decide (bs_metadataKey st = Some key) then mret false
                     else ensureMetadataLocked (po_Database point) (po_RetentionPolicy point));
  '(s, seriesChanged, cache) ←
    resolveSeriesNoSnapshotCachedLocked (po_Measurement point) (po_Tags point) (Some (bs_cache st));
  '(fields, fieldsChanged, template) ← resolveBatchFields st point;
  mret (resolvedPointFrom point (se_ID s) fields,
        mkBatchState (default ∅ cache) template (Some key) (bs_changed st || seriesChanged || fieldsChanged)
          (metadataChanged || bs_metadataChanged st)).
Fixpoint resolveBatchLoop (st : batchState) (points : list Point) : step CatWorld (list ResolvedPoint * batchState) :=
  match points with
  | [] => mret ([], st)
  | point :: rest =>
      '(resolved, st) ← resolveBatchPoint st point;
      '(out, st) ← resolveBatchLoop st rest;
      mret (resolved :: out, st)
  end.
Definition ResolvePoints (points : list Point) : step CatWorld (list ResolvedPoint) :=
  step_list (fun point => pure_step (validatePoint point)) points;;
  '(resolved, st) ← resolveBatchLoop (mkBatchState ∅ None None false false) points;
  (if bs_changed st then checkpointSnapshotLocked false else mret tt);;
  (if bs_metadataChanged st then saveMetadataLocked else mret tt);;
  mret resolved.

(** ** typed_batch.go *)
Definition typedFieldColumnLen (field : TypedFieldColumn) : Z :=
  if fc_Type field =? FieldFloat64 then len (fc_Float64Values field)
  else if fc_Type field =? FieldInt64 then len (fc_Int64Values field)
  else if fc_Type field =? FieldString then len (fc_StringValues field)
  else if fc_Type field =? FieldBool then len (fc_BoolValues field)
  else -1.
Fixpoint validateTypedTags (tags : list TagColumn) (rows : Z) (seen : gset bytes) : outcome unit :=
  match tags with
  | [] => Ok tt
  | tag :: rest =>
      if bool_decide (TrimSpace (tc_Name tag) = []) then Err (Errorf "tag name is empty")
      else if bool_decide (tc_Name tag ∈ seen) then Err (Errorf "duplicate tag column")
      else if negb (len (tc_Values tag) =? rows) then Err (Errorf "tag column length")
      else validateTypedTags rest rows (seen ∪ {[tc_Name tag]})
  end.
Fixpoint validateTypedFields (fields : list TypedFieldColumn) (rows : Z) (seen : gset bytes) : outcome unit :=
  match fields with
  | [] => Ok tt
  | field :: rest =>
      if bool_decide (TrimSpace (fc_Name field) = []) then Err (Errorf "field name is empty")
      else if bool_decide (fc_Name field ∈ seen) then Err (Errorf "duplicate field column")
      else if typedFieldColumnLen field <? 0 then Err (Errorf "unsupported typed field")
      else if negb (typedFieldColumnLen field =? rows) then Err (Errorf "field column length")
      else validateTypedFields rest rows (seen ∪ {[fc_Name field]})
  end.
Definition validateTypedBatch (batch : TypedBatch) (rows : Z) : outcome unit :=
  if bool_decide (TrimSpace (ba_Measurement batch) = []) then Err ErrEmptyMeasurement
  else if len (ba_Fields batch) =? 0 then Err ErrEmptyFields
  else _ ← validateTypedTags (ba_Tags batch) rows ∅; validateTypedFields (ba_Fields batch) rows ∅.
Fixpoint resolveTypedFieldDefinitionsLocked (measurement : bytes) (columns : list TypedFieldColumn)
    : step CatWorld (list Field * bool) :=
  match columns with
  | [] => mret ([], false)
  | column :: rest =>
      '(f, fieldChanged) ← resolveFieldNoSnapshotLocked measurement (fc_Name column) (fc_Type column);
      '(fields, changed) ← resolveTypedFieldDefinitionsLocked measurement rest;
      mret (f :: fields, fieldChanged || changed)
  end.
(** The columns in the order of their names, which differ. *)
Definition nameLess (x y : TagColumn) : Prop := bytes_le (tc_Name x) (tc_Name y).
#[export] Instance nameLess_dec : RelDecision nameLess.
Proof. intros x y. unfold nameLess. apply _. Defined.
Definition sortedTagColumnOrder (tags : list TagColumn) : list TagColumn := merge_sort nameLess tags.
Definition tagValueAt (tag : TagColumn) (row : nat) : outcome bytes := idx (tc_Values tag) (Z.of_nat row).
Definition keyPart (tag : TagColumn) (row : nat) : outcome bytes :=
  value ← tagValueAt tag row;
  Ok ([0xff] ++ tc_Name tag ++ [61] ++ value).
Definition seriesKeyFromTagColumns (measurement : bytes) (order : list TagColumn) (row : nat) : outcome bytes :=
  parts ← mapM (fun tag => keyPart tag row) order;
  Ok (measurement ++ concat parts).
Fixpoint tagMapFromColumns (tags : list TagColumn) (row : nat) (out : gmap bytes bytes) : outcome (gmap bytes bytes) :=
  match tags with
  | [] => Ok out
  | tag :: rest => value ← tagValueAt tag row; tagMapFromColumns rest row (<[tc_Name tag := value]> out)
  end.
Definition resolveSingleTagSeriesLocked (measurement : bytes) (tag : TagColumn) (row : nat) : step CatWorld (Series * bool) :=
  ix ← catGet ct_index;
  value ← pure_step (tagValueAt tag row);
  match (byKey ← ix_seriesByTag ix !! measurement; values ← byKey !! tc_Name tag; values !! value) with
  | Some id => mret (seriesAt ix id, false)
  | None => createSeriesNoSnapshotLocked measurement {[tc_Name tag := value]}
  end.
Definition resolveSeriesFromTypedTagsLocked (measurement : bytes) (tags order : list TagColumn) (row : nat)
    : step CatWorld (Series * bool) :=
  match tags with
  | [] => '(s, changed, _) ← resolveSeriesNoSnapshotCachedLocked measurement ∅ None; mret (s, changed)
  | [tag] => resolveSingleTagSeriesLocked measurement tag row
  | _ =>
      ix ← catGet ct_index;
      key ← pure_step (seriesKeyFromTagColumns measurement order row);
      match ix_seriesByKey ix !! key with
      | Some id => mret (seriesAt ix id, false)
      | None =>
          tags ← pure_step (tagMapFromColumns tags row ∅);
          createSeriesNoSnapshotLocked measurement tags
      end
  end.
Fixpoint typedSeriesLoop (measurement : bytes) (tags order : list TagColumn) (rows : list nat)
    : step CatWorld (list Z * bool) :=
  match rows with
  | [] => mret ([], false)
  | row :: rest =>
      '(s, changed) ← resolveSeriesFromTypedTagsLocked measurement tags order row;
      '(ids, changed') ← typedSeriesLoop measurement tags order rest;
      mret (se_ID s :: ids, changed || changed')
  end.
Definition resolveTypedSeriesIDsLocked (batch : TypedBatch) (rows : nat) : step CatWorld (list Z * bool) :=
  typedSeriesLoop (ba_Measurement batch) (ba_Tags batch) (sortedTagColumnOrder (ba_Tags batch)) (seq 0 rows).
Definition resolvedTypedFieldColumns (defs : list Field) (columns : list TypedFieldColumn) : list ResolvedTypedFieldColumn :=
  zip_with (fun f column => mkTypedField (fd_ID f) (fd_Name f) (fd_Type f) (fc_Float64Values column)
    (fc_Int64Values column) (fc_StringValues column) (fc_BoolValues column)) defs columns.
Definition ResolveTypedBatchColumns (batch : TypedBatch) : step CatWorld ResolvedTypedBatch :=
  let rows := length (ba_Timestamps batch) in
  if bool_decide (rows = O) then mret (mkTypedBatch [] [] [] [] [] [] [] [])
  else
    pure_step (validateTypedBatch batch (Z.of_nat rows));;
    metadataChanged ← ensureMetadataLocked (ba_Database batch) (ba_RetentionPolicy batch);
    '(fieldDefs, fieldsChanged) ← resolveTypedFieldDefinitionsLocked (ba_Measurement batch) (ba_Fields batch);
    '(seriesIDs, seriesChanged) ← resolveTypedSeriesIDsLocked batch rows;
    (if fieldsChanged || seriesChanged then checkpointSnapshotLocked false else mret tt);;
    (if metadataChanged : bool then saveMetadataLocked else mret tt);;
    mret (mkTypedBatch (ba_Database batch) (ba_RetentionPolicy batch) (ba_Measurement batch) (ba_Tags batch)
      (ba_Timestamps batch) seriesIDs [] (resolvedTypedFieldColumns fieldDefs (ba_Fields batch))).

(** ** management.go *)
Definition CreateDatabase (name : bytes) : step CatWorld unit :=
  if bool_decide (TrimSpace name = []) then fail_step (Errorf "database name is empty")
  else catModify (fun c => withMetadata (ct_databases c ∪ {[name]}) (ct_policies c) c);; saveMetadataLocked.
Definition DropDatabase (name : bytes) : step CatWorld unit :=
  catModify (fun c => withMetadata (ct_databases c ∖ {[name]}) (delete name (ct_policies c)) c);; saveMetadataLocked.
Definition ListDatabases (c : Catalog) : list bytes := sortedDatabaseNames (ct_databases c).
Definition CreateRetentionPolicy (database : bytes) (policy : RetentionPolicy) : step CatWorld unit :=
  if bool_decide (TrimSpace database = []) || bool_decide (TrimSpace (rt_Name policy) = [])
  then fail_step (Errorf "database and retention policy names are required")
  else
    catModify (fun c => withMetadata (ct_databases c ∪ {[database]})
      (<[database := <[rt_Name policy := policy]> (default ∅ (ct_policies c !! database))]> (ct_policies c)) c);;
    saveMetadataLocked.
Definition ListRetentionPolicies (c : Catalog) (database : bytes) : list RetentionPolicy :=
  if negb (bool_decide (database ∈ ct_databases c)) then []
  else
    let policies := default ∅ (ct_policies c !! database) in
    map (fun name => default zeroPolicy (policies !! name)) (sortedPolicyNames policies).
Definition ListMeasurements (c : Catalog) (database : bytes) : list bytes :=
  if negb (bool_decide (database ∈ ct_databases c)) then [] else SortedKeys (ix_fieldSchemas (ct_index c)).
(** The schemas are in the order of the names already. *)
Definition ListFields (c : Catalog) (database measurement : bytes) : list (bytes * bytes * Z) :=
  if negb (bool_decide (database ∈ ct_databases c)) then []
  else map (fun f => (fd_Measurement f, fd_Name f, fd_Type f)) (default [] (ix_fieldSchemas (ct_index c) !! measurement)).
Definition matchingSeries (ix : Index) (measurement : bytes) (tags : gmap bytes bytes) : list Series :=
  filter (fun s => se_Measurement s = measurement /\ tagsMatch (se_Tags s) tags = true)
    (merge_sort (idLess se_ID) (map_to_list (ix_series ix)).*2).
Definition ListSeries (c : Catalog) (database measurement : bytes) (tags : gmap bytes bytes) : list Series :=
  if negb (bool_decide (database ∈ ct_databases c)) then [] else matchingSeries (ct_index c) measurement tags.
Definition MatchSeries (c : Catalog) (measurement : bytes) (tags : gmap bytes bytes) : list Z :=
  map se_ID (matchingSeries (ct_index c) measurement tags).
Definition FieldIDs (c : Catalog) (measurement : bytes) (names : list bytes) : gset Z :=
  if bool_decide (names = []) then
    list_to_set (map fd_ID (filter (fun f => fd_Measurement f = measurement) (map_to_list (ix_fields (ct_index c))).*2))
  else list_to_set (omap (fun name => ix_fieldsByKey (ct_index c) !! fieldKey measurement name) names).

Definition SeriesByID (c : Catalog) (id : Z) : Series * bool :=
  match ix_series (ct_index c) !! id with
  | None => (zeroSeries, false)
  | Some s => (mkSeries (se_ID s) (se_Measurement s) (cloneTags (se_Tags s)), true)
  end.
Definition FieldByID (c : Catalog) (id : Z) : Field * bool :=
  match ix_fields (ct_index c) !! id with None => (zeroField, false) | Some f => (f, true) end.
Definition CatalogSnapshot (c : Catalog) : gmap Z Series * gmap Z Field :=
  ((fun s => mkSeries (se_ID s) (se_Measurement s) (cloneTags (se_Tags s))) <$> ix_series (ct_index c), ix_fields (ct_index c)).

(** ** typed_batch.go: rows as points *)
Definition resolvedTypedFieldValueAt (column : ResolvedTypedFieldColumn) (row : nat) : outcome FieldValue :=
  if tf_Type column =? FieldFloat64 then v ← idx (tf_Float64Values column) (Z.of_nat row); Ok (Float64Value v)
  else if tf_Type column =? FieldInt64 then v ← idx (tf_Int64Values column) (Z.of_nat row); Ok (Int64Value v)
  else if tf_Type column =? FieldString then v ← idx (tf_StringValues column) (Z.of_nat row); Ok (StringValue v)
  else if tf_Type column =? FieldBool then v ← idx (tf_BoolValues column) (Z.of_nat row); Ok (BoolValue v)
  else Ok (mkFieldValue (tf_Type column) 0 0 [] false).
Definition resolvedFieldAt (row : nat) (column : ResolvedTypedFieldColumn) : outcome ResolvedField :=
  value ← resolvedTypedFieldValueAt column row;
  Ok (mkResolvedField (tf_FieldID column) (tf_Name column) (tf_Type column) value).
Definition resolvedPointAt (batch : ResolvedTypedBatch) (row : nat) (fields : list ResolvedField) : outcome ResolvedPoint :=
  tags ← tagMapFromColumns (tb_Tags batch) row ∅;
  seriesID ← idx (tb_SeriesIDs batch) (Z.of_nat row);
  timestamp ← idx (tb_Timestamps batch) (Z.of_nat row);
  Ok (mkResolvedPoint (tb_Database batch) (tb_RetentionPolicy batch) (tb_Measurement batch) tags seriesID timestamp 0 fields).
Definition resolvedPointsFromTypedColumns (batch : ResolvedTypedBatch) : outcome (list ResolvedPoint) :=
  mapM (fun row => fields ← mapM (resolvedFieldAt row) (tb_Fields batch); resolvedPointAt batch row fields)
    (seq 0 (length (tb_Timestamps batch))).
Definition ResolveTypedBatch (batch : TypedBatch) : step CatWorld (list ResolvedPoint) :=
  resolved ← ResolveTypedBatchColumns batch;
  pure_step (resolvedPointsFromTypedColumns resolved).

(** ** downsample.go *)
Definition downsampleMagic : bytes := Eval cbv in str "MTSDSP1".
Definition zeroDownsamplePolicy : DownsamplePolicy :=
  mkDownsamplePolicy [] [] [] [] [] [] [] 0 [] [] 0 0 0 0 0 0 0 [] false.
Definition zeroDownsampleWatermark : DownsampleWatermark := mkDownsampleWatermark [] 0 0 0 [] false.
Definition sortedDownsamplePolicyNames (policies : gmap bytes DownsamplePolicy) : list bytes := SortedKeys policies.
Definition sortedDownsampleWatermarkNames (watermarks : gmap bytes DownsampleWatermark) : list bytes := SortedKeys watermarks.
(** The copies of the two slices hold the same values. *)
Definition cloneDownsamplePolicy (policy : DownsamplePolicy) : DownsamplePolicy := policy.
Definition appendDownsampleFunctions (functions : list DownsampleFunction) : bytes :=
  appendUvarint (len functions) ++
  concat (map (fun f => AppendString (df_Function f) ++ AppendString (df_Field f) ++ AppendString (df_As f)) functions).
Definition appendStringList (values : list bytes) : bytes := appendUvarint (len values) ++ concat (map AppendString values).
Definition appendFlag (flag : bool) : bytes := [if flag then 1 else 0].
Definition appendDownsamplePolicy (policy : DownsamplePolicy) : bytes :=
  AppendString (dp_Name policy) ++ AppendString (dp_SourceDatabase policy) ++ AppendString (dp_SourceRetention policy) ++
  AppendString (dp_SourceMeasurement policy) ++ AppendString (dp_TargetDatabase policy) ++
  AppendString (dp_TargetRetention policy) ++ AppendString (dp_TargetMeasurement policy) ++
  appendVarint (dp_Interval policy) ++ appendDownsampleFunctions (dp_Functions policy) ++
  appendStringList (dp_GroupByTags policy) ++ appendVarint (dp_Delay policy) ++ appendVarint (dp_RefreshInterval policy) ++
  appendVarint (dp_Lookback policy) ++ appendVarint (dp_InitialStartTime policy) ++ appendVarint (dp_RunTimeout policy) ++
  appendVarint (dp_BatchSize policy) ++ appendVarint (dp_CheckpointInterval policy) ++
  AppendString (dp_PolicyTagName policy) ++ appendFlag (dp_Enabled policy).
Definition appendDownsampleWatermark (watermark : DownsampleWatermark) : bytes :=
  AppendString (dw_PolicyName watermark) ++ appendVarint (dw_CompletedUntilUnix watermark) ++
  appendVarint (dw_LastRunUnix watermark) ++ appendVarint (dw_LastSuccessUnix watermark) ++
  AppendString (dw_LastError watermark) ++ appendFlag (dw_AllowPolicyReplace watermark).
Definition encodeDownsampleMetadata (d : Downsampling) : bytes :=
  MarshalEnvelope downsampleMagic 0
    (appendUvarint (Z.of_nat (size (dn_policies d))) ++
     concat (map (fun name => appendDownsamplePolicy (default zeroDownsamplePolicy (dn_policies d !! name)))
       (sortedDownsamplePolicyNames (dn_policies d))) ++
     appendUvarint (Z.of_nat (size (dn_watermarks d))) ++
     concat (map (fun name => appendDownsampleWatermark (default zeroDownsampleWatermark (dn_watermarks d !! name)))
       (sortedDownsampleWatermarkNames (dn_watermarks d)))).
Definition readDownsampleFunction : reader DownsampleFunction :=
  function ← PayloadReader.string "downsample function";
  field ← PayloadReader.string "downsample function field";
  as_ ← PayloadReader.string "downsample function as";
  mret (mkDownsampleFunction function field as_).
Definition readDownsampleFunctions : reader (list DownsampleFunction) :=
  count ← PayloadReader.intCount "downsample function count";
  _ ← rmake 48 count;
  read_n (Z.to_nat count) readDownsampleFunction.
Definition readStringList (name : string) : reader (list bytes) :=
  count ← PayloadReader.intCount (name +:+ " count");
  _ ← rmake 16 count;
  read_n (Z.to_nat count) (PayloadReader.string name).
Definition readFlag (name : string) : reader bool :=
  flag ← PayloadReader.byte name;
  mret (negb (flag =? 0)).
Definition readDownsamplePolicy : reader (bytes * DownsamplePolicy) :=
  name ← PayloadReader.string "downsample policy name";
  sourceDatabase ← PayloadReader.string "downsample source database";
  sourceRetention ← PayloadReader.string "downsample source retention";
  sourceMeasurement ← PayloadReader.string "downsample source measurement";
  targetDatabase ← PayloadReader.string "downsample target database";
  targetRetention ← PayloadReader.string "downsample target retention";
  targetMeasurement ← PayloadReader.string "downsample target measurement";
  interval ← PayloadReader.varint "downsample interval";
  functions ← readDownsampleFunctions;
  groupByTags ← readStringList "downsample group tag";
  delay ← PayloadReader.varint "downsample delay";
  refresh ← PayloadReader.varint "downsample refresh interval";
  lookback ← PayloadReader.varint "downsample lookback";
  initialStart ← PayloadReader.varint "downsample initial start time";
  runTimeout ← PayloadReader.varint "downsample run timeout";
  batchSize ← PayloadReader.varint "downsample batch size";
  checkpointInterval ← PayloadReader.varint "downsample checkpoint interval";
  policyTagName ← PayloadReader.string "downsample policy tag name";
  enabled ← readFlag "downsample enabled";
  mret (name, mkDownsamplePolicy name sourceDatabase sourceRetention sourceMeasurement targetDatabase targetRetention
    targetMeasurement interval functions groupByTags delay refresh lookback initialStart runTimeout batchSize
    checkpointInterval policyTagName enabled).
Definition readDownsampleWatermark : reader (bytes * DownsampleWatermark) :=
  name ← PayloadReader.string "downsample watermark policy";
  completed ← PayloadReader.varint "downsample watermark completed";
  lastRun ← PayloadReader.varint "downsample watermark last run";
  lastSuccess ← PayloadReader.varint "downsample watermark last success";
  lastError ← PayloadReader.string "downsample watermark last error";
  allowReplace ← readFlag "downsample watermark allow replace";
  mret (name, mkDownsampleWatermark name completed lastRun lastSuccess lastError allowReplace).
Definition readDownsamplePayload : reader Downsampling :=
  policyCount ← PayloadReader.intCount "downsample policy count";
  policies ← readMapLoop readDownsamplePolicy (Z.to_nat policyCount) ∅;
  watermarkCount ← PayloadReader.intCount "downsample watermark count";
  watermarks ← readMapLoop readDownsampleWatermark (Z.to_nat watermarkCount) ∅;
  mret (mkDownsampling policies watermarks).
Definition decodeDownsampleMetadata (data : bytes) : outcome Downsampling :=
  env ← UnmarshalEnvelope data downsampleMagic;
  '(got, _) ← (got ← readDownsamplePayload; _ ← PayloadReader.done "downsample metadata"; mret got) (env_Payload env);
  Ok got.
Definition saveDownsampleMetadataLocked : step CatWorld unit :=
  c ← catGet id;
  let data := encodeDownsampleMetadata (ct_downsampling c) in
  allocated data;;
  wrap_step "write downsample metadata" (catDisk (WriteFileAtomic suffixes (downsamplePath c) data)).
(** The error of the second attempt is joined to the first and dropped here. *)
Definition restoreDownsampleMetadataAfterErrorLocked (writeErr : goerr) : step CatWorld unit :=
  c ← catGet id;
  let data := encodeDownsampleMetadata (ct_downsampling c) in
  allocated data;;
  r ← try_step (wrap_step "restore downsample metadata" (catDisk (WriteFileAtomic suffixes (downsamplePath c) data)));
  fail_step writeErr.
Definition setPolicies (policies : gmap bytes DownsamplePolicy) : step CatWorld unit :=
  catModify (fun c => withDownsampling (mkDownsampling policies (dn_watermarks (ct_downsampling c))) c).
Definition setWatermarks (watermarks : gmap bytes DownsampleWatermark) : step CatWorld unit :=
  catModify (fun c => withDownsampling (mkDownsampling (dn_policies (ct_downsampling c)) watermarks) c).
(** Puts back what a map held under a key. *)
Definition putBack {V} (name : bytes) (previous : option V) (m : gmap bytes V) : gmap bytes V :=
  match previous with Some v => <[name := v]> m | None => delete name m end.
Definition UpsertDownsamplePolicy (policy : DownsamplePolicy) : step CatWorld unit :=
  d ← catGet ct_downsampling;
  let name := dp_Name policy in
  let previous := dn_policies d !! name in
  setPolicies (<[name := cloneDownsamplePolicy policy]> (dn_policies d));;
  r ← try_step saveDownsampleMetadataLocked;
  match r with
  | inr _ => mret tt
  | inl err =>
      d ← catGet ct_downsampling;
      setPolicies (putBack name previous (dn_policies d));;
      restoreDownsampleMetadataAfterErrorLocked err
  end.
Definition DropDownsamplePolicy (name : bytes) : step CatWorld unit :=
  d ← catGet ct_downsampling;
  let policy := dn_policies d !! name in
  let watermark := dn_watermarks d !! name in
  setPolicies (delete name (dn_policies d));;
  setWatermarks (delete name (dn_watermarks d));;
  r ← try_step saveDownsampleMetadataLocked;
  match r with
  | inr _ => mret tt
  | inl err =>
      d ← catGet ct_downsampling;
      (match policy with Some p => setPolicies (<[name := p]> (dn_policies d)) | None => mret tt end);;
      (match watermark with Some wm => setWatermarks (<[name := wm]> (dn_watermarks d)) | None => mret tt end);;
      restoreDownsampleMetadataAfterErrorLocked err
  end.
Definition UpdateDownsampleWatermark (watermark : DownsampleWatermark) : step CatWorld unit :=
  d ← catGet ct_downsampling;
  let name := dw_PolicyName watermark in
  let previous := dn_watermarks d !! name in
  setWatermarks (<[name := watermark]> (dn_watermarks d));;
  r ← try_step saveDownsampleMetadataLocked;
  match r with
  | inr _ => mret tt
  | inl err =>
      d ← catGet ct_downsampling;
      setWatermarks (putBack name previous (dn_watermarks d));;
      restoreDownsampleMetadataAfterErrorLocked err
  end.
Definition ListDownsamplePolicies (c : Catalog) : list DownsamplePolicy :=
  map (fun name => cloneDownsamplePolicy (default zeroDownsamplePolicy (dn_policies (ct_downsampling c) !! name)))
    (sortedDownsamplePolicyNames (dn_policies (ct_downsampling c))).
Definition watermarkOf (c : Catalog) (name : bytes) : DownsampleWatermark * bool :=
  match dn_watermarks (ct_downsampling c) !! name with None => (zeroDownsampleWatermark, false) | Some wm => (wm, true) end.

(** ** Opening and closing *)
Fixpoint catNotExist (e : goerr) : bool :=
  match e with ErrWrap _ e' => catNotExist e' | _ => bool_decide (e = ErrNotExist) end.
(** A file that may be missing. *)
Definition readOptional (what : string) (path : bytes) : step Disk (option bytes) :=
  r ← try_step (ReadFile path);
  match r with
  | inl err => if catNotExist err then mret None else fail_step (ErrWrap what err)
  | inr data => mret (Some data)
  end.
Definition loadSnapshot (path : bytes) : step Disk Index :=
  data ← readOptional "read catalog snapshot" path;
  match data with
  | None => mret emptyIndex
  | Some data =>
      snap ← wrap_step "decode catalog snapshot" (pure_step (decodeSnapshot data));
      let ix := mkIndex (Z.max (sn_NextSeriesID snap) 1) (Z.max (sn_NextFieldID snap) 1) ∅ ∅ ∅ ∅ ∅ ∅ ∅ in
      let ix := foldl (fun ix s => applySeries s ix) ix (sn_Series snap) in
      mret (foldl (fun ix f => catApplyField f ix) ix (sn_Fields snap))
  end.
Definition replayWAL (path : bytes) (ix : Index) : step Disk (Index * Z) :=
  data ← readOptional "read catalog wal for replay" path;
  match data with
  | None => mret (ix, 0)
  | Some data => pure_step (replayRecords (S (length data)) data ix 0)
  end.
Definition loadMetadata (path : bytes) : step Disk (gset bytes * gmap bytes (gmap bytes RetentionPolicy)) :=
  data ← readOptional "read catalog metadata" path;
  match data with
  | None => mret (∅, ∅)
  | Some data => wrap_step "decode catalog metadata" (pure_step (catDecodeMetadata data))
  end.
Definition loadDownsampleMetadata (path : bytes) : step Disk Downsampling :=
  data ← readOptional "read downsample metadata" path;
  match data with
  | None => mret (mkDownsampling ∅ ∅)
  | Some data => wrap_step "decode downsample metadata" (pure_step (decodeDownsampleMetadata data))
  end.
(** [os.OpenFile] with O_CREATE and O_APPEND. *)
Definition os_OpenAppend (path : bytes) : step Disk unit :=
  os_call;;
  d ← get_step;
  put_step (setFiles (<[path := default [] (dk_files d !! path)]> (dk_files d)) d).
Definition OpenCatalog (dir : bytes) (limits : Limits) : step Disk Catalog :=
  MkdirAll dir;;
  let cat := newCatalog dir limits in
  ix ← loadSnapshot (snapshotPath cat);
  '(ix, replayed) ← replayWAL (walPath cat) ix;
  '(databases, policies) ← loadMetadata (metadataPath cat);
  downsampling ← loadDownsampleMetadata (downsamplePath cat);
  wrap_step "open catalog wal" (wrapped OpCreate (before OpCreate);; wrapped OpCreate (os_OpenAppend (walPath cat)));;
  mret (mkCatalog dir true limits ix databases policies downsampling replayed 0).
Definition CloseCatalog : step CatWorld unit :=
  c ← catGet id;
  if negb (ct_wal c) then mret tt
  else
    checkpointSnapshotLocked true;;
    wrap_step "close catalog wal" (catDisk os_call);;
    catModify (withWal false).
End catalog.
