(* ===== verification/CatalogProofs.v ===== *)
(** * The catalog's keys, indexes and files

    The key of a series tells it apart from every other one as long as the
    separators do not occur in its names; applying records keeps the indexes in
    step; the snapshot and the log read back. *)
From S2P Require Import Prelude GoBinary Model Codec Readers Runtime MemCompact GoStrings StorageFS Catalog.
From stdpp Require Import prelude strings list sorting gmap.
From Stdlib Require Import ZArith Lia.
#[local] Open Scope Z_scope.

(** ** Keys *)
Definition starts (c : Z) (r : bytes) : Prop := r = [] \/ exists r', r = c :: r'.
Lemma sep_split c a1 : forall a2 r1 r2, c ∉ a1 -> c ∉ a2 -> starts c r1 -> starts c r2 ->
  a1 ++ r1 = a2 ++ r2 -> a1 = a2 /\ r1 = r2.
Proof.
  induction a1 as [|x a1 IH]; intros [|y a2] r1 r2 H1 H2 S1 S2 E; simpl in E.
  - done.
  - destruct S1 as [-> |[r' ->]]; [done|]. injection E as -> E. rewrite not_elem_of_cons in H2. naive_solver.
  - destruct S2 as [-> |[r' ->]]; [done|]. injection E as -> E. rewrite not_elem_of_cons in H1. naive_solver.
  - injection E as -> E. rewrite not_elem_of_cons in H1, H2.
    destruct (IH a2 r1 r2) as [-> ->]; naive_solver.
Qed.
Definition tails (es : list bytes) : bytes := concat (map (fun e => 0xff :: e) es).
Lemma tails_starts es : starts 0xff (tails es).
Proof. destruct es as [|e es]; [by left|]. right. by eexists. Qed.
Lemma tails_inj es1 : forall es2, Forall (fun e => 0xff ∉ e) es1 -> Forall (fun e => 0xff ∉ e) es2 ->
  tails es1 = tails es2 -> es1 = es2.
Proof.
  induction es1 as [|e1 es1 IH]; intros [|e2 es2] H1 H2 E; try done.
  inversion H1 as [|? ? Ha Hb]; inversion H2 as [|? ? Hc Hd]; subst. unfold tails in E. simpl in E. injection E as E.
  destruct (sep_split 0xff e1 e2 (tails es1) (tails es2)) as [-> E']; [done|done|apply tails_starts|apply tails_starts|done|].
  f_equal. by apply IH.
Qed.

(** Text without the bytes that the keys use as separators. *)
Definition tag_clean (key value : bytes) : Prop := 0xff ∉ key /\ 61 ∉ key /\ 0xff ∉ value.
Definition identity_clean (measurement : bytes) (tags : gmap bytes bytes) : Prop :=
  0xff ∉ measurement /\ map_Forall tag_clean tags.
#[export] Instance tag_clean_dec key value : Decision (tag_clean key value).
Proof. unfold tag_clean. apply _. Defined.
#[export] Instance identity_clean_dec measurement tags : Decision (identity_clean measurement tags).
Proof. unfold identity_clean. apply _. Defined.

Definition tagText (tags : gmap bytes bytes) (key : bytes) : bytes := key ++ [61] ++ default [] (tags !! key).
Lemma seriesKey_tails measurement tags : seriesKey measurement tags = measurement ++ tails (map (tagText tags) (SortedKeys tags)).
Proof. unfold seriesKey, tails. rewrite map_map. done. Qed.
Lemma tagText_clean measurement tags : identity_clean measurement tags ->
  Forall (fun e => 0xff ∉ e) (map (tagText tags) (SortedKeys tags)).
Proof.
  intros [_ Ht]. apply Forall_fmap, Forall_forall. intros k Hk. apply elem_of_SortedKeys in Hk as [v Hv].
  unfold tagText. simpl. rewrite Hv. simpl. destruct (Ht k v Hv) as (H1 & H2 & H3).
  rewrite elem_of_app, elem_of_cons. naive_solver.
Qed.
Lemma tagText_inj t1 t2 ks1 : forall ks2, (forall k, k ∈ ks1 -> 61 ∉ k) -> (forall k, k ∈ ks2 -> 61 ∉ k) ->
  map (tagText t1) ks1 = map (tagText t2) ks2 ->
  ks1 = ks2 /\ forall k, k ∈ ks1 -> default [] (t1 !! k) = default [] (t2 !! k).
Proof.
  induction ks1 as [|k1 ks1 IH]; intros [|k2 ks2] H1 H2 E; try done.
  { split; [done|]. intros k Hk. by apply elem_of_nil in Hk. }
  simpl in E. injection E as E E'. unfold tagText in E.
  destruct (sep_split 61 k1 k2 ([61] ++ default [] (t1 !! k1)) ([61] ++ default [] (t2 !! k2))) as [<- Ev];
    [apply H1; by left|apply H2; by left|right; by eexists|right; by eexists|done|].
  destruct (IH ks2) as [<- Hv]; [intros k Hk; apply H1; by right|intros k Hk; apply H2; by right|done|].
  split; [done|]. intros k Hk. apply elem_of_cons in Hk as [-> |Hk]; [by injection Ev|by apply Hv].
Qed.
Lemma seriesKey_inj m1 t1 m2 t2 : identity_clean m1 t1 -> identity_clean m2 t2 ->
  seriesKey m1 t1 = seriesKey m2 t2 -> m1 = m2 /\ t1 = t2.
Proof.
  intros C1 C2 E. rewrite !seriesKey_tails in E.
  destruct (sep_split 0xff m1 m2 _ _ (proj1 C1) (proj1 C2) (tails_starts _) (tails_starts _) E) as [-> E'].
  split; [done|]. apply tails_inj in E'; [|by eapply tagText_clean..].
  assert (Hk : forall m t, identity_clean m t -> forall k, k ∈ SortedKeys t -> 61 ∉ k).
  { intros m t [_ Ht] k [v Hv]%elem_of_SortedKeys. by destruct (Ht k v Hv) as (_ & ? & _). }
  destruct (tagText_inj t1 t2 _ _ (Hk _ _ C1) (Hk _ _ C2) E') as [Ek Ev].
  apply map_eq. intros k. destruct (decide (k ∈ SortedKeys t1)) as [Hin|Hout].
  - specialize (Ev k Hin). pose proof Hin as Hin2. rewrite Ek in Hin2.
    apply elem_of_SortedKeys in Hin as [v1 E1], Hin2 as [v2 E2]. rewrite E1, E2 in *. simpl in Ev. by subst.
  - pose proof Hout as Hout2. rewrite Ek in Hout2. rewrite elem_of_SortedKeys in Hout, Hout2.
    by rewrite <- eq_None_not_Some in Hout, Hout2; rewrite Hout, Hout2.
Qed.
Lemma fieldKey_inj m1 n1 m2 n2 : 0xff ∉ m1 -> 0xff ∉ m2 -> fieldKey m1 n1 = fieldKey m2 n2 -> m1 = m2 /\ n1 = n2.
Proof.
  intros H1 H2 E. destruct (sep_split 0xff m1 m2 ([0xff] ++ n1) ([0xff] ++ n2)) as [-> E']; [done|done|right; by eexists..|done|].
  split; [done|]. by injection E'.
Qed.

(** ** The indexes *)
Definition byTagLookup (ix : Index) (m k v : bytes) : option Z :=
  byKey ← ix_seriesByTag ix !! m; values ← byKey !! k; values !! v.
Record index_ok (ix : Index) : Prop := {
  io_series id s : ix_series ix !! id = Some s ->
    se_ID s = id /\ 0 < id < ix_nextSeriesID ix /\ identity_clean (se_Measurement s) (se_Tags s);
  io_byKey k id : ix_seriesByKey ix !! k = Some id <->
    exists s, ix_series ix !! id = Some s /\ seriesKey (se_Measurement s) (se_Tags s) = k;
  io_byTag m k v id : byTagLookup ix m k v = Some id <->
    exists s, ix_series ix !! id = Some s /\ se_Measurement s = m /\ se_Tags s = {[k := v]};
  io_fields id f : ix_fields ix !! id = Some f ->
    fd_ID f = id /\ 0 < id < ix_nextFieldID ix /\ 0xff ∉ fd_Measurement f;
  io_byName k id : ix_fieldsByKey ix !! k = Some id <->
    exists f, ix_fields ix !! id = Some f /\ fieldKey (fd_Measurement f) (fd_Name f) = k;
  io_schemas m f : f ∈ default [] (ix_fieldSchemas ix !! m) <->
    ix_fields ix !! fd_ID f = Some f /\ fd_Measurement f = m;
  io_sorted m : StronglySorted bytes_lt (fd_Name <$> default [] (ix_fieldSchemas ix !! m));
}.
Lemma index_ok_empty n k : 0 < n -> 0 < k -> index_ok (mkIndex n k ∅ ∅ ∅ ∅ ∅ ∅ ∅).
Proof.
  intros Hn Hk. split; simpl.
  - intros id s. by rewrite lookup_empty.
  - intros key id. rewrite lookup_empty. split; [done|]. intros (s & Hs & _). by rewrite lookup_empty in Hs.
  - intros m key v id. unfold byTagLookup. simpl. rewrite lookup_empty. split; [done|]. intros (s & Hs & _). by rewrite lookup_empty in Hs.
  - intros id f. by rewrite lookup_empty.
  - intros key id. rewrite lookup_empty. split; [done|]. intros (s & Hs & _). by rewrite lookup_empty in Hs.
  - intros m f. rewrite !lookup_empty. simpl. rewrite elem_of_nil. split; [done|]. by intros [? _].
  - intros m. rewrite lookup_empty. constructor.
Qed.
(** Series and fields with the same identity are the same. *)
Lemma series_unique ix id1 id2 s1 s2 : index_ok ix -> ix_series ix !! id1 = Some s1 -> ix_series ix !! id2 = Some s2 ->
  se_Measurement s1 = se_Measurement s2 -> se_Tags s1 = se_Tags s2 -> id1 = id2.
Proof.
  intros Hix H1 H2 Em Et. pose proof (io_byKey _ Hix) as K.
  pose proof (proj2 (K (seriesKey (se_Measurement s1) (se_Tags s1)) id1) (ex_intro _ s1 (conj H1 eq_refl))) as K1.
  pose proof (proj2 (K (seriesKey (se_Measurement s2) (se_Tags s2)) id2) (ex_intro _ s2 (conj H2 eq_refl))) as K2.
  rewrite Em, Et in K1. rewrite K1 in K2. by injection K2.
Qed.
Lemma field_unique ix id1 id2 f1 f2 : index_ok ix -> ix_fields ix !! id1 = Some f1 -> ix_fields ix !! id2 = Some f2 ->
  fd_Measurement f1 = fd_Measurement f2 -> fd_Name f1 = fd_Name f2 -> id1 = id2.
Proof.
  intros Hix H1 H2 Em Et. pose proof (io_byName _ Hix) as K.
  pose proof (proj2 (K (fieldKey (fd_Measurement f1) (fd_Name f1)) id1) (ex_intro _ f1 (conj H1 eq_refl))) as K1.
  pose proof (proj2 (K (fieldKey (fd_Measurement f2) (fd_Name f2)) id2) (ex_intro _ f2 (conj H2 eq_refl))) as K2.
  rewrite Em, Et in K1. rewrite K1 in K2. by injection K2.
Qed.

Lemma single_spec tags k v : single tags = Some (k, v) <-> tags = {[k := v]}.
Proof.
  unfold single. split.
  - destruct (map_to_list tags) as [|kv [|??]] eqn:E; [done| |done]. intros [= ->].
    rewrite <- (list_to_map_to_list tags), E. simpl. by rewrite insert_empty.
  - intros ->. by rewrite map_to_list_singleton.
Qed.
Lemma byTag_upsert s byTag m k v :
  (byKey ← upsertSingleTagSeries s byTag !! m; values ← byKey !! k; values !! v) =
  if bool_decide (se_Measurement s = m /\ se_Tags s = {[k := v]}) then Some (se_ID s)
  else (byKey ← byTag !! m; values ← byKey !! k; values !! v).
Proof.
  unfold upsertSingleTagSeries. destruct (single (se_Tags s)) as [[k0 v0]|] eqn:E.
  2: { rewrite bool_decide_false; [done|]. intros [_ E']. apply single_spec in E'. congruence. }
  apply single_spec in E. rewrite E. destruct (decide (se_Measurement s = m)) as [<-|Hm].
  2: { rewrite lookup_insert_ne by done. rewrite bool_decide_false; [done|]. by intros [? _]. }
  rewrite lookup_insert_eq. simpl. destruct (decide (k0 = k)) as [<-|Hk].
  2: { rewrite lookup_insert_ne by done. rewrite bool_decide_false.
       - by destruct (byTag !! se_Measurement s); simpl; rewrite ?lookup_empty.
       - intros [_ E']. apply Hk. symmetry in E'. by apply map_singleton_inj in E' as [-> _]. }
  rewrite lookup_insert_eq. simpl. destruct (decide (v0 = v)) as [<-|Hv].
  - rewrite bool_decide_true by done. by rewrite lookup_insert_eq.
  - rewrite lookup_insert_ne by done. rewrite bool_decide_false.
    + destruct (byTag !! se_Measurement s) as [byKey|]; simpl; [|by rewrite lookup_empty; simpl; rewrite lookup_empty].
      destruct (byKey !! k0); simpl; by rewrite ?lookup_empty.
    + intros [_ E']. apply Hv. by apply map_singleton_inj in E' as [_ ->].
Qed.

Lemma applySeries_ok ix s : index_ok ix -> identity_clean (se_Measurement s) (se_Tags s) ->
  0 < se_ID s -> se_ID s + 1 < 2 ^ 64 -> ix_series ix !! se_ID s = None \/ ix_series ix !! se_ID s = Some s ->
  (forall id' s', ix_series ix !! id' = Some s' -> se_Measurement s' = se_Measurement s -> se_Tags s' = se_Tags s ->
     id' = se_ID s) ->
  index_ok (applySeries s ix) /\ ix_series (applySeries s ix) = <[se_ID s := s]> (ix_series ix) /\
  ix_nextSeriesID (applySeries s ix) = Z.max (ix_nextSeriesID ix) (se_ID s + 1).
Proof.
  intros [Hs Hk Ht Hf Hn Hsch Hso] Hc Hpos Hmax Hfresh Huniq.
  assert (Hnext : (if ix_nextSeriesID ix <=? se_ID s then u64 (se_ID s + 1) else ix_nextSeriesID ix)
    = Z.max (ix_nextSeriesID ix) (se_ID s + 1)).
  { rewrite u64_id by (unfold is_u64; lia). zcase (ix_nextSeriesID ix <=? se_ID s); lia. }
  unfold applySeries, cloneTags. rewrite CloneMap_id. destruct s as [id m tags]. simpl in *. split; [|done]. split; simpl; [| | |done..].
  - intros id' s'. rewrite Hnext. destruct (decide (id = id')) as [<-|Hne].
    + rewrite lookup_insert_eq. intros [= <-]. simpl. split; [done|]. split; [lia|done].
    + rewrite lookup_insert_ne by done. intros H'. destruct (Hs _ _ H') as (? & ? & ?). split_and!; try done; lia.
  - intros key id'. destruct (decide (key = seriesKey m tags)) as [-> |Hkey].
    + rewrite lookup_insert_eq. split.
      * intros [= <-]. eexists. rewrite lookup_insert_eq. done.
      * intros (s' & H' & E). destruct (decide (id = id')) as [<-|Hne]; [done|]. rewrite lookup_insert_ne in H' by done.
        destruct (Hs _ _ H') as (_ & _ & Hc'). apply seriesKey_inj in E as [Em Et]; [|done|done].
        by rewrite (Huniq _ _ H' Em Et).
    + rewrite lookup_insert_ne by done. rewrite Hk. split; intros (s' & H' & E).
      * exists s'. split; [|done]. rewrite lookup_insert_ne; [done|]. intros <-.
        destruct Hfresh as [Hfr|Hfr]; rewrite Hfr in H'; [done|]. injection H' as <-. simpl in E. congruence.
      * destruct (decide (id = id')) as [<-|Hne].
        -- rewrite lookup_insert_eq in H'. injection H' as <-. simpl in E. congruence.
        -- rewrite lookup_insert_ne in H' by done. by exists s'.
  - intros m' key v id'. unfold byTagLookup in *. simpl. rewrite byTag_upsert. simpl. case_bool_decide as E.
    + destruct E as [<- ->]. split.
      * intros [= <-]. eexists. rewrite lookup_insert_eq. done.
      * intros (s' & H' & Em & Et). destruct (decide (id = id')) as [<-|Hne]; [done|]. rewrite lookup_insert_ne in H' by done.
        by rewrite (Huniq _ _ H' Em Et).
    + rewrite Ht. split; intros (s' & H' & Em & Et).
      * exists s'. split; [|done]. rewrite lookup_insert_ne; [done|]. intros <-.
        destruct Hfresh as [Hfr|Hfr]; rewrite Hfr in H'; [done|]. injection H' as <-. simpl in *. by destruct E.
      * destruct (decide (id = id')) as [<-|Hne].
        -- rewrite lookup_insert_eq in H'. injection H' as <-. simpl in *. by destruct E.
        -- rewrite lookup_insert_ne in H' by done. by exists s'.
Qed.

(** *** Schemas *)
Lemma upsertLoop_elem f l g : StronglySorted bytes_lt (fd_Name <$> l) ->
  g ∈ upsertLoop f l <-> g = f \/ (g ∈ l /\ fd_Name g <> fd_Name f).
Proof.
  induction l as [|x l IH]; intros Hs; simpl.
  { rewrite list_elem_of_singleton, elem_of_nil. naive_solver. }
  inversion Hs as [|? ? Hs' Hx]; subst. case_bool_decide as E.
  - rewrite !elem_of_cons. split; [|naive_solver]. intros [-> |Hg]; [by left|]. right. split; [by right|].
    rewrite <- E. intros En. rewrite Forall_fmap, Forall_forall in Hx. specialize (Hx g Hg). simpl in Hx.
    unfold bytes_lt in Hx. by rewrite En, bytes_ltb_irrefl in Hx.
  - destruct (bytes_ltb (fd_Name f) (fd_Name x)) eqn:Elt.
    + rewrite !elem_of_cons. split; [|naive_solver]. intros [-> |[-> |Hg]]; [by left|right; auto|]. right. split; [by right|].
      intros En. rewrite Forall_fmap, Forall_forall in Hx. specialize (Hx g Hg). simpl in Hx. unfold bytes_lt in Hx.
      rewrite En in Hx. by rewrite (bytes_ltb_asym _ _ Elt) in Hx.
    + rewrite !elem_of_cons, IH by done. naive_solver.
Qed.
Lemma upsertLoop_sorted f l : StronglySorted bytes_lt (fd_Name <$> l) -> StronglySorted bytes_lt (fd_Name <$> upsertLoop f l).
Proof.
  induction l as [|x l IH]; intros Hs; simpl; [by repeat constructor|].
  inversion Hs as [|? ? Hs' Hx]; subst. case_bool_decide as E.
  - rewrite fmap_cons, <- E. done.
  - destruct (bytes_ltb (fd_Name f) (fd_Name x)) eqn:Elt.
    + rewrite !fmap_cons. constructor; [done|]. constructor; [done|]. eapply Forall_impl; [exact Hx|].
      intros y Hy. by eapply bytes_lt_trans.
    + rewrite fmap_cons. constructor; [by apply IH|]. rewrite Forall_fmap, Forall_forall. intros g Hg. simpl.
      apply upsertLoop_elem in Hg; [|done]. destruct Hg as [-> |[Hg _]].
      * unfold bytes_lt. destruct (bytes_ltb (fd_Name x) (fd_Name f)) eqn:E2; [done|].
        by destruct E; apply bytes_ltb_tricho.
      * rewrite Forall_fmap, Forall_forall in Hx. by apply Hx.
Qed.
Lemma applyField_ok ix f : index_ok ix -> 0xff ∉ fd_Measurement f ->
  0 < fd_ID f -> fd_ID f + 1 < 2 ^ 32 -> ix_fields ix !! fd_ID f = None \/ ix_fields ix !! fd_ID f = Some f ->
  (forall id' f', ix_fields ix !! id' = Some f' -> fd_Measurement f' = fd_Measurement f -> fd_Name f' = fd_Name f ->
     id' = fd_ID f) ->
  index_ok (catApplyField f ix) /\ ix_fields (catApplyField f ix) = <[fd_ID f := f]> (ix_fields ix) /\
  ix_nextFieldID (catApplyField f ix) = Z.max (ix_nextFieldID ix) (fd_ID f + 1).
Proof.
  intros [Hs Hk Ht Hf Hn Hsch Hso] Hc Hpos Hmax Hfresh Huniq.
  assert (Hnext : (if ix_nextFieldID ix <=? fd_ID f then u32 (fd_ID f + 1) else ix_nextFieldID ix)
    = Z.max (ix_nextFieldID ix) (fd_ID f + 1)).
  { rewrite u32_id by (unfold is_u32; lia). zcase (ix_nextFieldID ix <=? fd_ID f); lia. }
  unfold catApplyField. split; [|done]. split; simpl; [done..| | | |].
  - intros id' f'. rewrite Hnext. destruct (decide (fd_ID f = id')) as [<-|Hne].
    + rewrite lookup_insert_eq. intros [= <-]. split; [done|]. split; [lia|done].
    + rewrite lookup_insert_ne by done. intros H'. destruct (Hf _ _ H') as (? & ? & ?). split_and!; try done; lia.
  - intros key id'. destruct (decide (key = fieldKey (fd_Measurement f) (fd_Name f))) as [-> |Hkey].
    + rewrite lookup_insert_eq. split.
      * intros [= <-]. exists f. by rewrite lookup_insert_eq.
      * intros (f' & H' & E). destruct (decide (fd_ID f = id')) as [<-|Hne]; [done|]. rewrite lookup_insert_ne in H' by done.
        destruct (Hf _ _ H') as (_ & _ & Hc'). apply fieldKey_inj in E as [Em Et]; [|done|done].
        by rewrite (Huniq _ _ H' Em Et).
    + rewrite lookup_insert_ne by done. rewrite Hn. split; intros (f' & H' & E).
      * exists f'. split; [|done]. rewrite lookup_insert_ne; [done|]. intros <-.
        destruct Hfresh as [Hfr|Hfr]; rewrite Hfr in H'; [done|]. injection H' as <-. congruence.
      * destruct (decide (fd_ID f = id')) as [<-|Hne].
        -- rewrite lookup_insert_eq in H'. injection H' as <-. congruence.
        -- rewrite lookup_insert_ne in H' by done. by exists f'.
  - intros m g. unfold upsertFieldSchema. destruct (decide (fd_Measurement f = m)) as [<-|Hm].
    + rewrite lookup_insert_eq. simpl. rewrite upsertLoop_elem by apply Hso. rewrite Hsch. split.
      * intros [-> |[[Hg Hgm] Hgn]]; [by rewrite lookup_insert_eq|]. split; [|done].
        rewrite lookup_insert_ne; [done|]. intros E. rewrite <- E in Hg.
        destruct Hfresh as [Hfr|Hfr]; rewrite Hfr in Hg; [done|]. by injection Hg as <-.
      * intros [Hg Hgm]. destruct (decide (fd_ID f = fd_ID g)) as [E|E].
        -- rewrite E, lookup_insert_eq in Hg. injection Hg as ->. by left.
        -- rewrite lookup_insert_ne in Hg by done. right. split; [done|]. intros En. by rewrite (Huniq _ _ Hg Hgm En) in E.
    + rewrite lookup_insert_ne by done. rewrite Hsch. split; intros [Hg Hgm]; (split; [|done]).
      * rewrite lookup_insert_ne; [done|]. intros E. rewrite <- E in Hg.
        destruct Hfresh as [Hfr|Hfr]; rewrite Hfr in Hg; [done|]. injection Hg as <-. by destruct Hm.
      * destruct (decide (fd_ID f = fd_ID g)) as [E|E]; [|by rewrite lookup_insert_ne in Hg].
        rewrite E, lookup_insert_eq in Hg. injection Hg as ->. by destruct Hm.
  - intros m. unfold upsertFieldSchema. destruct (decide (fd_Measurement f = m)) as [<-|Hm].
    + rewrite lookup_insert_eq. simpl. by apply upsertLoop_sorted.
    + by rewrite lookup_insert_ne.
Qed.

(** ** The files read back *)
Definition series_ok (s : Series) : Prop :=
  is_u64 (se_ID s) /\ string_ok (se_Measurement s) /\
  map_Forall (fun key value => string_ok key /\ string_ok value) (se_Tags s).
Definition field_ok (f : Field) : Prop :=
  is_u32 (fd_ID f) /\ string_ok (fd_Measurement f) /\ string_ok (fd_Name f) /\ validFieldType (fd_Type f) = true.
Definition entry_ok (entry : walEntry) : Prop :=
  match entry with SeriesEntry s => series_ok s | FieldEntry f => field_ok f end.

Lemma AppendString_nonempty s : 0 < len (AppendString s).
Proof. unfold AppendString. rewrite len_app. pose proof (appendUvarint_pos (len s)). pose proof (len_nonneg s). lia. Qed.
Lemma catReadTags_append tags : len (catAppendTags tags) <= maxInt ->
  map_Forall (fun key value => string_ok key /\ string_ok value) tags ->
  reads_back catReadTags (catAppendTags tags) tags.
Proof.
  intros Hl Ht. unfold catReadTags, catAppendTags in *. rewrite len_app in Hl.
  set (enc := fun k v => AppendString k ++ AppendString v).
  assert (Hcount : len (SortedKeys tags) <= len (concat (map (fun key => enc key (default [] (tags !! key))) (SortedKeys tags)))).
  { apply concat_map_len. intros k. unfold enc. rewrite len_app. pose proof (AppendString_nonempty k).
    pose proof (len_nonneg (AppendString (default [] (tags !! k)))). lia. }
  pose proof (appendUvarint_pos (len (SortedKeys tags))). pose proof (len_nonneg (SortedKeys tags)).
  eapply reads_back_bind; [apply rd_intCount_append; unfold enc in *; lia|]. rewrite count_nat.
  pose proof (reads_back_mapLoop catReadTagPair enc [] tags (SortedKeys tags) ∅) as R. rewrite insertKeys_all in R. apply R.
  intros k Hk. apply elem_of_SortedKeys in Hk as [v Hv]. exists v. split; [done|]. destruct (Ht k v Hv) as [Hks Hvs].
  unfold catReadTagPair, enc. eapply reads_back_bind; [by apply rd_string_append|].
  eapply reads_back_bind_nil; [by apply rd_string_append|]. apply reads_back_ret.
Qed.
Lemma readSeries_append s : series_ok s -> len (appendSeries s) <= maxInt -> reads_back readSeries (appendSeries s) s.
Proof.
  intros (Hid & Hm & Ht) Hl. unfold readSeries, appendSeries in *. rewrite !len_app in Hl.
  pose proof (len_nonneg (appendUvarint (se_ID s))). pose proof (len_nonneg (AppendString (se_Measurement s))).
  eapply reads_back_bind; [by apply rd_uvarint_append|]. eapply reads_back_bind; [by apply rd_string_append|].
  eapply reads_back_bind_nil; [apply catReadTags_append; [lia|done]|]. destruct s. apply reads_back_ret.
Qed.
Lemma validFieldType_byte t : validFieldType t = true -> u8 t = t.
Proof.
  unfold validFieldType, FieldFloat64, FieldInt64, FieldString, FieldBool. rewrite !orb_true_iff, !Z.eqb_eq.
  intros [[[-> | ->] | ->] | ->]; done.
Qed.
Lemma uint32Value_ok name x : is_u32 x -> PayloadReader.uint32Value name x = Ok x.
Proof.
  intros Hx. unfold PayloadReader.uint32Value. assert ((2 ^ 32 - 1 <? x) = false) as -> by (unfold is_u32 in Hx; apply Z.ltb_ge; lia).
  by rewrite u32_id.
Qed.
Lemma readField_append f : field_ok f -> reads_back readField (appendField f) f.
Proof.
  intros (Hid & Hm & Hn & Ht). unfold readField, appendField.
  eapply reads_back_bind; [apply rd_uvarint_append; unfold is_u32, is_u64 in *; lia|].
  rewrite <- (app_nil_l (AppendString (fd_Measurement f) ++ _)).
  eapply reads_back_bind; [rewrite uint32Value_ok by done; apply lift_ok|].
  rewrite (assoc_L (++)). eapply reads_back_bind.
  { unfold readFieldNames. eapply reads_back_bind; [by apply rd_string_append|].
    eapply reads_back_bind_nil; [by apply rd_string_append|]. apply reads_back_ret. }
  simpl. eapply reads_back_bind_nil; [apply rd_byte_append|]. rewrite validFieldType_byte, Ht by done. simpl.
  destruct f. apply reads_back_ret.
Qed.
Lemma readWALEntry_append entry : entry_ok entry -> len (encodeWALEntry entry) <= maxInt ->
  reads_back readWALEntry (encodeWALEntry entry) entry.
Proof.
  intros He Hl. unfold readWALEntry. destruct entry as [s|f]; simpl in He; cbn [encodeWALEntry] in *; rewrite len_app in Hl.
  - eapply reads_back_bind; [apply rd_byte_append|]. simpl.
    eapply reads_back_bind_nil; [apply readSeries_append; [done|unfold len in *; simpl in *; lia]|]. apply reads_back_ret.
  - eapply reads_back_bind; [apply rd_byte_append|]. simpl.
    eapply reads_back_bind_nil; [by apply readField_append|]. apply reads_back_ret.
Qed.
(** Payloads with nothing behind them. *)
Lemma run_then_done {A} (m : reader A) name bs a : reads_back m bs a ->
  (x ← m; _ ← PayloadReader.done name; mret x) bs = Ok (a, []).
Proof. intros Hm. apply (run_bind_nil _ _ _ _ _ Hm). done. Qed.
Lemma payload_len m f p : len p <= len (MarshalEnvelope m f p).
Proof.
  unfold MarshalEnvelope. cbn zeta. rewrite !len_app.
  repeat match goal with |- context [len ?x] => lazymatch goal with
    | _ : 0 <= len x |- _ => fail | _ => pose proof (len_nonneg x) end end. lia.
Qed.
Lemma decodeWALRecord_frame entry rest : entry_ok entry -> len (walFrame entry) <= maxInt ->
  decodeWALRecord (walFrame entry ++ rest) = Ok (entry, rest).
Proof.
  intros He Hl. unfold decodeWALRecord, walFrame in *. cbn zeta in *. rewrite len_app in Hl.
  set (frame := MarshalEnvelope catalogMagic 0 (encodeWALEntry entry)) in *.
  pose proof (appendUvarint_pos (len frame)) as Hpos. pose proof (len_nonneg frame).
  pose proof (payload_len catalogMagic 0 (encodeWALEntry entry)) as Hp. fold frame in Hp.
  rewrite <- (assoc_L (++)), Uvarint_append by (unfold is_u64, maxInt in *; lia).
  assert ((len (appendUvarint (len frame)) <=? 0) = false) as -> by (apply Z.leb_gt; lia).
  set (h := appendUvarint (len frame)) in *.
  assert ((len (h ++ frame ++ rest) - len h <? len frame) = false) as ->
    by (apply Z.ltb_ge; rewrite !len_app; pose proof (len_nonneg rest); lia).
  assert (slice (len h) (len h + len frame) (h ++ frame ++ rest) = frame) as ->.
  { unfold slice. replace (len h + len frame - len h) with (len frame) by lia.
    by rewrite !count_nat, drop_app_length, take_app_length. }
  assert (Hd : drop (Z.to_nat (len h + len frame)) (h ++ frame ++ rest) = rest)
    by (rewrite <- len_app, count_nat, (assoc_L (++)); apply drop_app_length).
  assert (Hf : decodeWALFrame frame = Ok entry).
  { unfold decodeWALFrame, frame. rewrite UnmarshalEnvelope_marshal by (done || lia). simpl.
    by rewrite (run_then_done _ _ _ _ (readWALEntry_append entry He ltac:(lia))). }
  rewrite Hf. unfold mbind, outcome_bind. by rewrite Hd.
Qed.
Lemma walFrame_pos entry : 0 < len (walFrame entry).
Proof.
  unfold walFrame. cbn zeta. rewrite len_app.
  match goal with |- 0 < len (appendUvarint ?x) + len ?y => pose proof (appendUvarint_pos x); pose proof (len_nonneg y) end. lia.
Qed.
Lemma replayRecords_frames entries : forall fuel ix n, Forall (fun e => entry_ok e /\ len (walFrame e) <= maxInt) entries ->
  (length (concat (map walFrame entries)) < fuel)%nat ->
  replayRecords fuel (concat (map walFrame entries)) ix n
  = Ok (foldl (fun ix e => applyEntry e ix) ix entries, n + len entries).
Proof.
  induction entries as [|e entries IH]; intros fuel ix n He Hf.
  { destruct fuel; [simpl in Hf; lia|]. simpl. f_equal. f_equal. unfold len. simpl. lia. }
  inversion He as [|? ? [He1 He2] He3]; subst. destruct fuel as [|fuel]; [lia|]. cbn [map concat] in *. simpl replayRecords.
  pose proof (walFrame_pos e). rewrite length_app in Hf.
  assert ((len (walFrame e ++ concat (map walFrame entries)) =? 0) = false) as ->
    by (apply Z.eqb_neq; rewrite len_app; pose proof (len_nonneg (concat (map walFrame entries))); lia).
  rewrite decodeWALRecord_frame by done. unfold mbind, outcome_bind. rewrite IH; [|done|unfold len in *; lia].
  f_equal. f_equal. unfold len. simpl. lia.
Qed.

Definition snapshot_ok (snap : snapshot) : Prop :=
  is_u64 (sn_NextSeriesID snap) /\ is_u32 (sn_NextFieldID snap) /\ Forall series_ok (sn_Series snap) /\
  Forall field_ok (sn_Fields snap) /\ 32 * len (sn_Series snap) <= maxAlloc /\ 48 * len (sn_Fields snap) <= maxAlloc.
Lemma part_le {A} (enc : A -> bytes) (l : list A) x : x ∈ l -> len (enc x) <= len (concat (map enc l)).
Proof.
  induction l as [|y l IH]; [by rewrite elem_of_nil|]. rewrite elem_of_cons. simpl. rewrite len_app.
  pose proof (len_nonneg (enc y)). pose proof (len_nonneg (concat (map enc l))). intros [-> |Hx]; [lia|]. specialize (IH Hx). lia.
Qed.
Lemma decodeSnapshot_encode snap : snapshot_ok snap -> len (encodeSnapshot snap) <= maxInt ->
  decodeSnapshot (encodeSnapshot snap) = Ok snap.
Proof.
  intros (H1 & H2 & Hs & Hf & Ha & Hb) Hl. unfold decodeSnapshot, encodeSnapshot in *.
  match goal with |- context [MarshalEnvelope catalogMagic 0 ?p] => set (payload := p) in * end.
  pose proof (payload_len catalogMagic 0 payload) as Hp.
  rewrite UnmarshalEnvelope_marshal by (done || lia). unfold mbind at 1, outcome_bind. cbn [env_Payload].
  assert (Hr : reads_back readSnapshotPayload payload snap); [|by rewrite (run_then_done _ _ _ _ Hr)].
  assert (Hpl : len payload <= maxInt) by lia. unfold payload in *. rewrite !len_app in Hpl.
  repeat match type of Hpl with context [len (appendUvarint ?x)] => lazymatch goal with
    | _ : 0 < len (appendUvarint x) |- _ => fail | _ => pose proof (appendUvarint_pos x) end end.
  pose proof (len_nonneg (concat (map appendSeries (sn_Series snap)))).
  pose proof (len_nonneg (concat (map appendField (sn_Fields snap)))).
  pose proof (len_nonneg (sn_Series snap)). pose proof (len_nonneg (sn_Fields snap)).
  unfold readSnapshotPayload. eapply reads_back_bind; [by apply rd_uvarint_append|].
  eapply reads_back_bind; [apply rd_uvarint_append; unfold is_u32, is_u64 in *; lia|].
  rewrite <- (app_nil_l (appendUvarint (len (sn_Series snap)) ++ _)).
  eapply reads_back_bind; [rewrite uint32Value_ok by done; apply lift_ok|].
  rewrite (assoc_L (++)). eapply reads_back_bind.
  { unfold readSeriesList. eapply reads_back_bind; [apply rd_intCount_append; unfold maxAlloc, maxInt in *; lia|].
    apply reads_back_make; [lia|lia|]. rewrite count_nat. apply reads_back_read_n. apply Forall_forall. intros s Hin.
    apply readSeries_append; [by eapply Forall_forall in Hs|]. pose proof (part_le appendSeries _ _ Hin). lia. }
  enough (Hfields : reads_back readFieldList (appendUvarint (len (sn_Fields snap)) ++ concat (map appendField (sn_Fields snap)))
                      (sn_Fields snap)).
  { eapply reads_back_bind_nil; [apply Hfields|]. destruct snap. apply reads_back_ret. }
  unfold readFieldList. eapply reads_back_bind; [apply rd_intCount_append; unfold maxAlloc, maxInt in *; lia|].
  apply reads_back_make; [lia|lia|]. rewrite count_nat. apply reads_back_read_n. apply Forall_forall. intros f Hin.
  apply readField_append. by eapply Forall_forall in Hf.
Qed.

(** *** Databases and retention policies *)
Definition policies_ok (policies : gmap bytes RetentionPolicy) : Prop :=
  map_Forall (fun name policy => string_ok name /\ rt_Name policy = name /\ is_i64 (rt_Duration policy)) policies.
Definition metadata_ok (databases : gset bytes) (policies : gmap bytes (gmap bytes RetentionPolicy)) : Prop :=
  set_Forall string_ok databases /\ map_Forall (fun _ => policies_ok) policies.
(** What the file keeps: the databases with their policies. *)
Definition kept (databases : gset bytes) (policies : gmap bytes (gmap bytes RetentionPolicy))
    : gmap bytes (gmap bytes RetentionPolicy) :=
  set_to_map (fun name => (name, default ∅ (policies !! name))) databases.
Lemma lookup_kept databases policies name ps :
  kept databases policies !! name = Some ps <-> name ∈ databases /\ default ∅ (policies !! name) = ps.
Proof.
  unfold kept. rewrite lookup_set_to_map by done. split.
  - intros (y & Hy & [= -> <-]). done.
  - intros [Hn <-]. by exists name.
Qed.
Lemma dom_kept databases policies : dom (kept databases policies) = databases.
Proof.
  apply set_eq. intros name. rewrite elem_of_dom. split.
  - intros [ps Hps]. by apply lookup_kept in Hps as [? _].
  - intros Hn. eexists. by apply lookup_kept.
Qed.
Lemma readPolicies_append policies : policies_ok policies -> len (appendPolicies policies) <= maxInt ->
  reads_back readPolicies (appendPolicies policies) policies.
Proof.
  intros Hp Hl. unfold readPolicies, appendPolicies, sortedPolicyNames in *. cbn zeta in *. rewrite len_app in Hl.
  set (enc := fun (_ : bytes) (policy : RetentionPolicy) => AppendString (rt_Name policy) ++ appendVarint (rt_Duration policy)).
  assert (Hc : len (SortedKeys policies) <= len (concat (map (fun k => enc k (default zeroPolicy (policies !! k))) (SortedKeys policies)))).
  { apply concat_map_len. intros k. unfold enc. rewrite len_app.
    pose proof (AppendString_nonempty (rt_Name (default zeroPolicy (policies !! k)))).
    pose proof (len_nonneg (appendVarint (rt_Duration (default zeroPolicy (policies !! k))))). lia. }
  pose proof (appendUvarint_pos (len (SortedKeys policies))). pose proof (len_nonneg (SortedKeys policies)).
  eapply reads_back_bind; [apply rd_intCount_append; unfold enc in *; lia|]. rewrite count_nat.
  pose proof (reads_back_mapLoop readPolicy enc zeroPolicy policies (SortedKeys policies) ∅) as R. rewrite insertKeys_all in R.
  apply R. intros k Hk. apply elem_of_SortedKeys in Hk as [p Ep]. exists p. split; [done|].
  destruct (Hp k p Ep) as (Hk & Hn & Hd). destruct p as [name duration]. simpl in Hn, Hd. subst name. unfold readPolicy, enc. simpl.
  eapply reads_back_bind; [by apply rd_string_append|].
  eapply reads_back_bind_nil; [by apply rd_varint_append|]. apply reads_back_ret.
Qed.
Lemma elem_of_databases databases name : name ∈ sortedDatabaseNames databases <-> name ∈ databases.
Proof. unfold sortedDatabaseNames. by rewrite merge_sort_Permutation, elem_of_elements. Qed.
Lemma decodeMetadata_encode databases policies : metadata_ok databases policies ->
  len (catEncodeMetadata databases policies) <= maxInt ->
  catDecodeMetadata (catEncodeMetadata databases policies) = Ok (databases, kept databases policies).
Proof.
  intros [Hd Hp] Hl. unfold catDecodeMetadata, catEncodeMetadata in *. cbn zeta in *.
  match goal with |- context [MarshalEnvelope metadataMagic 0 ?p] => set (payload := p) in * end.
  pose proof (payload_len metadataMagic 0 payload) as Hpl.
  rewrite UnmarshalEnvelope_marshal by (done || lia). unfold mbind at 1, outcome_bind. cbn [env_Payload].
  assert (Hr : reads_back readMetadataPayload payload (databases, kept databases policies)); [|by rewrite (run_then_done _ _ _ _ Hr)].
  assert (Hl' : len payload <= maxInt) by lia. unfold payload in *. clear Hl Hpl. rewrite len_app in Hl'.
  set (names := sortedDatabaseNames databases) in *.
  set (enc := fun name ps => AppendString name ++ appendPolicies ps).
  assert (Henc : concat (map (fun name => AppendString name ++ appendPolicies (default ∅ (policies !! name))) names)
    = concat (map (fun name => enc name (default ∅ (kept databases policies !! name))) names)).
  { f_equal. apply map_ext_in. intros name Hn. apply list_elem_of_In, elem_of_databases in Hn.
    unfold enc. by rewrite (proj2 (lookup_kept databases policies name _) (conj Hn eq_refl)). }
  rewrite Henc in *. clear Henc.
  assert (Hc : len names <= len (concat (map (fun name => enc name (default ∅ (kept databases policies !! name))) names))).
  { apply concat_map_len. intros k. unfold enc. rewrite len_app. pose proof (AppendString_nonempty k).
    pose proof (len_nonneg (appendPolicies (default ∅ (kept databases policies !! k)))). lia. }
  pose proof (appendUvarint_pos (len names)). pose proof (len_nonneg names).
  unfold readMetadataPayload. eapply reads_back_bind; [apply rd_intCount_append; lia|]. rewrite count_nat.
  pose proof (reads_back_mapLoop readDatabase enc ∅ (kept databases policies) names ∅) as R.
  assert (Hfold : foldl (insertKey (kept databases policies)) ∅ names = kept databases policies).
  { apply map_eq. intros name. rewrite lookup_insertKeys. case_bool_decide as E; [done|]. rewrite lookup_empty.
    destruct (kept databases policies !! name) as [ps|] eqn:Ek; [|done]. destruct E.
    split; [|by eexists]. apply lookup_kept in Ek as [? _]. by apply elem_of_databases. }
  rewrite Hfold in R. eapply reads_back_bind_nil; [apply R|by rewrite dom_kept; apply reads_back_ret].
  intros name Hn. pose proof (proj1 (elem_of_databases _ _) Hn) as Hn'.
  pose proof (proj2 (lookup_kept databases policies name _) (conj Hn' eq_refl)) as Ek.
  eexists. split; [exact Ek|]. unfold readDatabase, enc. eapply reads_back_bind; [apply rd_string_append; by apply Hd|].
  eapply reads_back_bind_nil; [|apply reads_back_ret]. apply readPolicies_append.
  - destruct (policies !! name) eqn:E; [by eapply Hp|]. simpl. intros k p Hk. by rewrite lookup_empty in Hk.
  - pose proof (part_le (fun name => enc name (default ∅ (kept databases policies !! name))) names name Hn) as Hle.
    cbv beta in Hle. rewrite Ek in Hle. unfold enc in Hle at 1. cbn [default] in Hle. rewrite len_app in Hle.
    pose proof (len_nonneg (AppendString name)). simpl in Hle. lia.
Qed.

(** ** Appending to the log *)
Lemma does_WriteFull_append (F : gmap bytes bytes) file data : data <> [] ->
  does F (WriteFull file data) (fun _ F' => F' = <[file := default [] (F !! file) ++ data]> F) (fun _ => True).
Proof.
  intros Hd. unfold WriteFull. zcase (len data =? 0); [destruct data; [done|unfold len in *; simpl in *; lia]|].
  intros [|f0 fs].
  { unfold Write, before, draw, check, try_step, os_Write, appendFile, mbind, step_bind, mret, step_ret; simpl.
    by rewrite Z.eqb_refl. }
  unfold Write, before, draw, check, try_step, mbind, step_bind, mret, step_ret. cbn [dk_faults].
  destruct f0 as [[[e|] w0]|]; cbn [ft_err fail_step pure_step dk_files]; [done|..];
    (unfold os_Write, draw, appendFile, mbind, step_bind, mret, step_ret; cbn [dk_faults dk_files];
     destruct fs as [|[[err w]|] fs]; cbn [dk_files setFiles fmap option_fmap option_map]; cbn [ft_err ft_written];
     [by rewrite Z.eqb_refl| |by rewrite Z.eqb_refl];
     destruct err as [err|]; cbn [option_map]; [done|];
     unfold clampWritten; zcase (Z.max 0 (Z.min w (len data)) =? len data); cbn [negb]; [|done];
     cbn; by rewrite E0, count_nat, firstn_all).
Qed.

(** *** Downsampling *)
Definition functions_ok (functions : list DownsampleFunction) : Prop :=
  Forall (fun f => string_ok (df_Function f) /\ string_ok (df_Field f) /\ string_ok (df_As f)) functions /\
  48 * len functions <= maxAlloc.
Definition strings_ok (values : list bytes) : Prop := Forall string_ok values /\ 16 * len values <= maxAlloc.
Record downsample_policy_ok (p : DownsamplePolicy) : Prop := {
  dk_names : Forall string_ok [dp_Name p; dp_SourceDatabase p; dp_SourceRetention p; dp_SourceMeasurement p;
    dp_TargetDatabase p; dp_TargetRetention p; dp_TargetMeasurement p; dp_PolicyTagName p];
  dk_times : Forall is_i64 [dp_Interval p; dp_Delay p; dp_RefreshInterval p; dp_Lookback p; dp_InitialStartTime p;
    dp_RunTimeout p; dp_BatchSize p; dp_CheckpointInterval p];
  dk_functions : functions_ok (dp_Functions p);
  dk_tags : strings_ok (dp_GroupByTags p);
}.
Definition watermark_ok (wm : DownsampleWatermark) : Prop :=
  Forall string_ok [dw_PolicyName wm; dw_LastError wm] /\
  Forall is_i64 [dw_CompletedUntilUnix wm; dw_LastRunUnix wm; dw_LastSuccessUnix wm].
Definition downsampling_ok (d : Downsampling) : Prop :=
  map_Forall (fun name p => dp_Name p = name /\ downsample_policy_ok p) (dn_policies d) /\
  map_Forall (fun name wm => dw_PolicyName wm = name /\ watermark_ok wm) (dn_watermarks d).
#[export] Instance downsample_policy_ok_dec p : Decision (downsample_policy_ok p).
Proof.
  refine (cast_if (decide (Forall string_ok [dp_Name p; dp_SourceDatabase p; dp_SourceRetention p; dp_SourceMeasurement p;
    dp_TargetDatabase p; dp_TargetRetention p; dp_TargetMeasurement p; dp_PolicyTagName p] /\
    Forall is_i64 [dp_Interval p; dp_Delay p; dp_RefreshInterval p; dp_Lookback p; dp_InitialStartTime p;
    dp_RunTimeout p; dp_BatchSize p; dp_CheckpointInterval p] /\ functions_ok (dp_Functions p) /\ strings_ok (dp_GroupByTags p))));
    [by destruct_and!; split|by intros [? ? ? ?]; match goal with H : ~ _ |- _ => destruct H end].
Defined.

Lemma readFlag_append name flag : reads_back (readFlag name) (appendFlag flag) flag.
Proof. eapply reads_back_bind_nil; [apply rd_byte_append|]. destruct flag; apply reads_back_ret. Qed.
Lemma readDownsampleFunctions_append functions : functions_ok functions ->
  reads_back readDownsampleFunctions (appendDownsampleFunctions functions) functions.
Proof.
  intros [Hf Hl]. pose proof (len_nonneg functions). unfold readDownsampleFunctions, appendDownsampleFunctions.
  eapply reads_back_bind; [apply rd_intCount_append; unfold maxAlloc, maxInt in *; lia|].
  apply reads_back_make; [lia|lia|]. rewrite count_nat. apply reads_back_read_n. eapply Forall_impl; [exact Hf|].
  intros f (H1 & H2 & H3). unfold readDownsampleFunction. eapply reads_back_bind; [by apply rd_string_append|].
  eapply reads_back_bind; [by apply rd_string_append|]. eapply reads_back_bind_nil; [by apply rd_string_append|].
  destruct f. apply reads_back_ret.
Qed.
Lemma readStringList_append name values : strings_ok values -> reads_back (readStringList name) (appendStringList values) values.
Proof.
  intros [Hf Hl]. pose proof (len_nonneg values). unfold readStringList, appendStringList.
  eapply reads_back_bind; [apply rd_intCount_append; unfold maxAlloc, maxInt in *; lia|].
  apply reads_back_make; [lia|lia|]. rewrite count_nat. apply reads_back_read_n. eapply Forall_impl; [exact Hf|].
  intros s Hs. by apply rd_string_append.
Qed.
(** Reads the next field of a record back. *)
Ltac field_back := eapply reads_back_bind;
  [first [by apply rd_string_append | by apply rd_varint_append | by apply readDownsampleFunctions_append
         | by apply readStringList_append]|].
Lemma readDownsamplePolicy_append p : downsample_policy_ok p ->
  reads_back readDownsamplePolicy (appendDownsamplePolicy p) (dp_Name p, p).
Proof.
  intros [Hn Ht Hf Hg]. rewrite !Forall_cons in Hn. rewrite !Forall_cons in Ht. destruct_and!. unfold readDownsamplePolicy, appendDownsamplePolicy.
  do 18 field_back. eapply reads_back_bind_nil; [apply readFlag_append|]. destruct p. apply reads_back_ret.
Qed.
Lemma readDownsampleWatermark_append wm : watermark_ok wm ->
  reads_back readDownsampleWatermark (appendDownsampleWatermark wm) (dw_PolicyName wm, wm).
Proof.
  intros [Hn Ht]. rewrite !Forall_cons in Hn. rewrite !Forall_cons in Ht. destruct_and!. unfold readDownsampleWatermark, appendDownsampleWatermark.
  do 5 field_back. eapply reads_back_bind_nil; [apply readFlag_append|]. destruct wm. apply reads_back_ret.
Qed.
Lemma reads_back_assoc {A B C} (m : reader A) (f : A -> reader B) (g : B -> reader C) bs c :
  reads_back ((m ≫= f) ≫= g) bs c -> reads_back (m ≫= fun a => f a ≫= g) bs c.
Proof.
  intros H rest. rewrite <- (H rest). unfold mbind, reader_bind. by destruct (m (bs ++ rest)) as [[? ?]| |].
Qed.
(** A map written in the order of its keys, each entry with its own key. *)
Lemma map_entries_back {V} (entry : reader (bytes * V)) (enc : V -> bytes) (zero : V) (nameOf : V -> bytes) (m : gmap bytes V)
    e1 e2 : map_Forall (fun name v => nameOf v = name /\ reads_back entry (enc v) (name, v)) m -> (forall v, 0 < len (enc v)) ->
  len (concat (map (fun name => enc (default zero (m !! name))) (SortedKeys m))) <= maxInt ->
  reads_back (count ← rd_intCount e1 e2; readMapLoop entry (Z.to_nat count) ∅)
    (appendUvarint (Z.of_nat (size m)) ++ concat (map (fun name => enc (default zero (m !! name))) (SortedKeys m))) m.
Proof.
  intros Hm Hpos Hl. assert (Hsize : Z.of_nat (size m) = len (SortedKeys m)) by (symmetry; apply size_len).
  pose proof (concat_map_len (fun name => enc (default zero (m !! name))) (SortedKeys m) (fun name => Hpos _)) as Hc.
  pose proof (len_nonneg (SortedKeys m)). rewrite Hsize. eapply reads_back_bind; [apply rd_intCount_append; lia|]. rewrite count_nat.
  pose proof (reads_back_mapLoop entry (fun _ => enc) zero m (SortedKeys m) ∅) as R. rewrite insertKeys_all in R. apply R.
  intros k Hk. apply elem_of_SortedKeys in Hk as [v Hv]. exists v. split; [done|]. by apply Hm.
Qed.
Lemma policy_nonempty p : 0 < len (appendDownsamplePolicy p).
Proof. unfold appendDownsamplePolicy. rewrite len_app. pose proof (AppendString_nonempty (dp_Name p)).
  match goal with |- 0 < _ + len ?x => pose proof (len_nonneg x) end. lia. Qed.
Lemma watermark_nonempty wm : 0 < len (appendDownsampleWatermark wm).
Proof. unfold appendDownsampleWatermark. rewrite len_app. pose proof (AppendString_nonempty (dw_PolicyName wm)).
  match goal with |- 0 < _ + len ?x => pose proof (len_nonneg x) end. lia. Qed.
Lemma decodeDownsample_encode d : downsampling_ok d -> len (encodeDownsampleMetadata d) <= maxInt ->
  decodeDownsampleMetadata (encodeDownsampleMetadata d) = Ok d.
Proof.
  intros [Hp Hw] Hl. unfold decodeDownsampleMetadata, encodeDownsampleMetadata in *.
  match goal with |- context [MarshalEnvelope downsampleMagic 0 ?p] => set (payload := p) in * end.
  pose proof (payload_len downsampleMagic 0 payload) as Hpl.
  rewrite UnmarshalEnvelope_marshal by (done || lia). unfold mbind at 1, outcome_bind. cbn [env_Payload].
  assert (Hr : reads_back readDownsamplePayload payload d); [|by rewrite (run_then_done _ _ _ _ Hr)].
  assert (Hl' : len payload <= maxInt) by lia. unfold payload in *. clear Hl Hpl. rewrite !len_app in Hl'.
  repeat match type of Hl' with context [len ?x] => lazymatch goal with
    | _ : 0 <= len x |- _ => fail | _ => pose proof (len_nonneg x) end end.
  unfold sortedDownsamplePolicyNames, sortedDownsampleWatermarkNames in *.
  assert (R1 : forall e1 e2, reads_back (count ← rd_intCount e1 e2; readMapLoop readDownsamplePolicy (Z.to_nat count) ∅)
    (appendUvarint (Z.of_nat (size (dn_policies d))) ++
     concat (map (fun name => appendDownsamplePolicy (default zeroDownsamplePolicy (dn_policies d !! name))) (SortedKeys (dn_policies d))))
    (dn_policies d)).
  { intros e1 e2. apply (map_entries_back _ _ _ dp_Name); [|apply policy_nonempty|lia].
    eapply map_Forall_impl; [exact Hp|]. intros name p [<- Hok]. split; [done|]. by apply readDownsamplePolicy_append. }
  assert (R2 : forall e1 e2, reads_back (count ← rd_intCount e1 e2; readMapLoop readDownsampleWatermark (Z.to_nat count) ∅)
    (appendUvarint (Z.of_nat (size (dn_watermarks d))) ++
     concat (map (fun name => appendDownsampleWatermark (default zeroDownsampleWatermark (dn_watermarks d !! name))) (SortedKeys (dn_watermarks d))))
    (dn_watermarks d)).
  { intros e1 e2. apply (map_entries_back _ _ _ dw_PolicyName); [|apply watermark_nonempty|lia].
    eapply map_Forall_impl; [exact Hw|]. intros name p [<- Hok]. split; [done|]. by apply readDownsampleWatermark_append. }
  unfold readDownsamplePayload. apply reads_back_assoc. unfold payload. rewrite (assoc_L (++)).
  eapply reads_back_bind; [apply R1|]. apply reads_back_assoc. eapply reads_back_bind_nil; [apply R2|]. destruct d. apply reads_back_ret.
Qed.
