(* ===== verification/CatalogTheorems.v ===== *)
(** * Correctness of the catalog

    Identifiers stay what they were over calls, failures and restarts, as long
    as no append to the log fails; what happens when one does, and which points
    the catalog cannot keep. *)
From S2P Require Import Prelude GoBinary Model Codec Readers Runtime MemCompact GoStrings StorageFS Catalog CatalogProofs.
From stdpp Require Import prelude strings list sorting gmap.
From Stdlib Require Import ZArith Lia.
#[local] Open Scope Z_scope.

(** ** Indexes built by the catalog *)
Abbreviation count m := (Z.of_nat (size m)) (only parsing).
Definition maxSeries : Z := 2 ^ 39.
Definition maxFields : Z := 2 ^ 30.
Record good (ix : Index) : Prop := {
  g_ok : index_ok ix;
  g_series : map_Forall (fun _ => series_ok) (ix_series ix);
  g_fields : map_Forall (fun _ => field_ok) (ix_fields ix);
  g_nextSeries : 0 < ix_nextSeriesID ix <= 1 + 2 * count (ix_series ix);
  g_nextField : 0 < ix_nextFieldID ix <= 1 + 2 * count (ix_fields ix);
  g_small : count (ix_series ix) <= maxSeries /\ count (ix_fields ix) <= maxFields;
}.
(** An entry of the log or the snapshot and the index that holds it. *)
Definition entry_in (S : gmap Z Series) (P : gmap Z Field) (entry : walEntry) : Prop :=
  match entry with SeriesEntry s => S !! se_ID s = Some s | FieldEntry f => P !! fd_ID f = Some f end.
Abbreviation held ix := (entry_in (ix_series ix) (ix_fields ix)).
(** A part of the index [T], reached while it is loaded. *)
Record within (T ix : Index) : Prop := {
  wi_ok : index_ok ix;
  wi_series : ix_series ix ⊆ ix_series T;
  wi_fields : ix_fields ix ⊆ ix_fields T;
  wi_nextSeries : 0 < ix_nextSeriesID ix <= 1 + 2 * count (ix_series T);
  wi_nextField : 0 < ix_nextFieldID ix <= 1 + 2 * count (ix_fields T);
}.
Lemma known_id {A} (m T : gmap Z A) id x : m ⊆ T -> T !! id = Some x -> m !! id = None \/ m !! id = Some x.
Proof. intros Hs HT. destruct (m !! id) as [y|] eqn:E; [|by left]. right. pose proof (lookup_weaken _ _ _ _ E Hs). congruence. Qed.
Lemma applyEntry_within T ix entry : good T -> within T ix -> held T entry ->
  within T (applyEntry entry ix) /\ forall e, held ix e \/ e = entry -> held (applyEntry entry ix) e.
Proof.
  intros [HT _ _ Hn1 Hn2 Hsm] [Hok Hs Hf Hm1 Hm2] He. unfold maxSeries, maxFields in Hsm. destruct entry as [s|f]; cbn [applyEntry entry_in] in He |- *.
  - destruct (io_series _ HT _ _ He) as (_ & Hid & Hclean).
    pose proof (known_id _ _ _ _ Hs He) as Hfresh.
    destruct (applySeries_ok ix s Hok Hclean) as (Hok' & Es & En); [lia|lia|done| |].
    { intros id' s' H' Em Et. eapply (series_unique T); [done|by eapply lookup_weaken|exact He|done|done]. }
    split.
    + split; [done|rewrite Es; by apply insert_subseteq_l|done|rewrite En; lia|done].
    + intros e [H'| ->]; [|cbn [entry_in]; by rewrite Es, lookup_insert_eq]. destruct e as [s'|f']; cbn [entry_in] in *; [|done].
      rewrite Es. destruct (decide (se_ID s = se_ID s')) as [E|E]; [|by rewrite lookup_insert_ne].
      rewrite <- E in *. rewrite lookup_insert_eq. destruct Hfresh; congruence.
  - destruct (io_fields _ HT _ _ He) as (_ & Hid & Hclean).
    pose proof (known_id _ _ _ _ Hf He) as Hfresh.
    destruct (applyField_ok ix f Hok Hclean) as (Hok' & Es & En); [lia|lia|done| |].
    { intros id' f' H' Em Et. eapply (field_unique T); [done|by eapply lookup_weaken|exact He|done|done]. }
    split.
    + split; [done|done|rewrite Es; by apply insert_subseteq_l|done|rewrite En; lia].
    + intros e [H'| ->]; [|cbn [entry_in]; by rewrite Es, lookup_insert_eq]. destruct e as [s'|f']; cbn [entry_in] in *; [done|].
      rewrite Es. destruct (decide (fd_ID f = fd_ID f')) as [E|E]; [|by rewrite lookup_insert_ne].
      rewrite <- E in *. rewrite lookup_insert_eq. destruct Hfresh; congruence.
Qed.
Lemma applyEntries_within T entries : good T -> Forall (held T) entries -> forall ix, within T ix ->
  within T (foldl (fun ix e => applyEntry e ix) ix entries) /\
  forall e, held ix e \/ e ∈ entries -> held (foldl (fun ix e => applyEntry e ix) ix entries) e.
Proof.
  intros HT. induction 1 as [|entry entries He Hes IH]; intros ix Hix; simpl.
  { split; [done|]. intros e [?|Hin]; [done|by apply elem_of_nil in Hin]. }
  destruct (applyEntry_within T ix entry HT Hix He) as [H1 H2]. destruct (IH _ H1) as [H3 H4].
  split; [done|]. intros e He'. rewrite elem_of_cons in He'. apply H4. destruct He' as [?|[-> |?]]; auto.
Qed.
(** Loading every entry of an index gives its series and fields back. *)
Lemma reload_good T entries n k : good T -> (forall e, held T e <-> e ∈ entries) ->
  0 < n <= 1 + 2 * count (ix_series T) -> 0 < k <= 1 + 2 * count (ix_fields T) ->
  let R := foldl (fun ix e => applyEntry e ix) (mkIndex n k ∅ ∅ ∅ ∅ ∅ ∅ ∅) entries in
  good R /\ ix_series R = ix_series T /\ ix_fields R = ix_fields T.
Proof.
  intros HT Hall Hn Hk R.
  assert (H0 : within T (mkIndex n k ∅ ∅ ∅ ∅ ∅ ∅ ∅)).
  { split; simpl; [apply index_ok_empty; lia|apply map_empty_subseteq|apply map_empty_subseteq|lia|lia]. }
  destruct (applyEntries_within T entries HT) with (ix := mkIndex n k ∅ ∅ ∅ ∅ ∅ ∅ ∅) as [Hw Hin];
    [apply Forall_forall; intros e; apply Hall|done|]. fold R in Hw, Hin.
  assert (Es : ix_series R = ix_series T).
  { apply (anti_symm (⊆)); [apply Hw|]. apply map_subseteq_spec. intros id s Hs.
    pose proof (proj1 (io_series _ (g_ok _ HT) _ _ Hs)) as E. subst id. apply (Hin (SeriesEntry s)). right. by apply Hall. }
  assert (Ef : ix_fields R = ix_fields T).
  { apply (anti_symm (⊆)); [apply Hw|]. apply map_subseteq_spec. intros id f Hf.
    pose proof (proj1 (io_fields _ (g_ok _ HT) _ _ Hf)) as E. subst id. apply (Hin (FieldEntry f)). right. by apply Hall. }
  split; [|done]. destruct Hw, HT. split; try rewrite Es; try rewrite Ef; done.
Qed.

(** ** The files of a catalog *)
Section catalog.
  Context (suffixes : gmap bytes bytes -> bytes) (dir : bytes).
  Implicit Types (F : gmap bytes bytes) (S : gmap Z Series) (P : gmap Z Field) (w : CatWorld).

Definition snapshotFile : bytes := filepath_Join dir (str "snapshot.bin").
Definition walFile : bytes := filepath_Join dir (str "catalog.wal").
Definition metadataFile : bytes := filepath_Join dir (str "metadata.bin").
Definition downsampleFile : bytes := filepath_Join dir (str "downsample.bin").
(** The names of the files differ. *)
Ltac files_ne := solve [unfold snapshotFile, walFile, metadataFile, downsampleFile, filepath_Join;
  let E := fresh in intros E; apply app_inv_head in E; discriminate E].

Definition allEntries (snap : snapshot) (logged : list walEntry) : list walEntry :=
  map SeriesEntry (sn_Series snap) ++ map FieldEntry (sn_Fields snap) ++ logged.
(** The snapshot and the log hold exactly the series and fields of the catalog;
    an entry may be in both. *)
Definition snapshot_file F (snap : snapshot) : Prop :=
  match F !! snapshotFile with
  | None => snap = mkSnapshot 0 0 [] []
  | Some data => data = encodeSnapshot snap /\ snapshot_ok snap /\ len data <= maxInt
  end.
Definition log_file F (logged : list walEntry) : Prop :=
  default [] (F !! walFile) = concat (map walFrame logged) /\
  Forall (fun e => entry_ok e /\ len (walFrame e) <= maxInt) logged.
Definition metadata_file F : Prop :=
  match F !! metadataFile with None => True | Some data => exists got, catDecodeMetadata data = Ok got /\ metadata_ok got.1 got.2 end /\
  match F !! downsampleFile with None => True | Some data => exists d, decodeDownsampleMetadata data = Ok d /\ downsampling_ok d end.
Definition files_ok F S P : Prop := exists snap logged,
  snapshot_file F snap /\ log_file F logged /\ metadata_file F /\
  (forall e, entry_in S P e <-> e ∈ allEntries snap logged) /\
  sn_NextSeriesID snap <= 1 + 2 * count S /\ sn_NextFieldID snap <= 1 + 2 * count P.
Lemma files_ok_same F F' S P : files_ok F S P ->
  F' !! snapshotFile = F !! snapshotFile -> F' !! walFile = F !! walFile -> F' !! metadataFile = F !! metadataFile ->
  F' !! downsampleFile = F !! downsampleFile -> files_ok F' S P.
Proof.
  intros (snap & logged & H1 & H2 & H3 & H4) E1 E2 E3 E4. exists snap, logged.
  unfold snapshot_file, log_file, metadata_file. by rewrite E1, E2, E3, E4.
Qed.

(** *** The snapshot of an index *)
Lemma elem_of_sorted {A} (f : A -> Z) (m : gmap Z A) x : (forall id y, m !! id = Some y -> f y = id) ->
  x ∈ merge_sort (idLess f) (map_to_list m).*2 <-> m !! f x = Some x.
Proof.
  intros Hf. rewrite merge_sort_Permutation, list_elem_of_fmap. split.
  - intros ([id y] & -> & Hy). apply elem_of_map_to_list in Hy. simpl. by rewrite (Hf _ _ Hy).
  - intros Hx. exists (f x, x). by rewrite elem_of_map_to_list.
Qed.
Lemma len_sorted {A} (f : A -> Z) (m : gmap Z A) : len (merge_sort (idLess f) (map_to_list m).*2) = count m.
Proof. unfold len. by rewrite merge_sort_Permutation, length_fmap, length_map_to_list. Qed.
Lemma snapshotLocked_holds ix e : good ix -> held ix e <-> e ∈ allEntries (snapshotLocked ix) [].
Proof.
  intros Hg. unfold allEntries, snapshotLocked. cbn [sn_Series sn_Fields]. rewrite !elem_of_app, elem_of_nil, !list_elem_of_fmap.
  assert (Hs : forall id s, ix_series ix !! id = Some s -> se_ID s = id) by (intros; by eapply (io_series _ (g_ok _ Hg))).
  assert (Hf : forall id f, ix_fields ix !! id = Some f -> fd_ID f = id) by (intros; by eapply (io_fields _ (g_ok _ Hg))).
  destruct e as [s|f]; cbn [entry_in]; split.
  - intros H. left. exists s. by rewrite elem_of_sorted.
  - intros [(s' & [= <-] & H)|[(f' & ? & _)|[]]]; [|done]. by rewrite elem_of_sorted in H.
  - intros H. right. left. exists f. by rewrite elem_of_sorted.
  - intros [(s' & ? & _)|[(f' & [= <-] & H)|[]]]; [done|]. by rewrite elem_of_sorted in H.
Qed.
Lemma snapshotLocked_ok ix : good ix -> snapshot_ok (snapshotLocked ix).
Proof.
  intros Hg. pose proof Hg as [Hok Hs Hf Hn Hk [Hsm1 Hsm2]]. unfold maxSeries, maxFields in *.
  unfold snapshot_ok, snapshotLocked. cbn [sn_NextSeriesID sn_NextFieldID sn_Series sn_Fields]. rewrite !len_sorted.
  unfold is_u64, is_u32, maxAlloc. split_and!; try lia.
  - apply Forall_forall. intros s H. apply elem_of_sorted in H; [by eapply Hs|]. intros. by eapply (io_series _ Hok).
  - apply Forall_forall. intros f H. apply elem_of_sorted in H; [by eapply Hf|]. intros. by eapply (io_fields _ Hok).
Qed.

(** ** The invariant *)
Abbreviation index w := (ct_index (cw_cat w)).
Abbreviation files w := (dk_files (cw_disk w)).
Record cat_inv w : Prop := {
  ci_dir : ct_dir (cw_cat w) = dir;
  ci_index : good (index w);
  ci_files : files_ok (files w) (ix_series (index w)) (ix_fields (index w));
  ci_metadata : metadata_ok (ct_databases (cw_cat w)) (ct_policies (cw_cat w)) /\ downsampling_ok (ct_downsampling (cw_cat w));
}.
Definition big w : Prop := maxSeries < count (ix_series (index w)) \/ maxFields < count (ix_fields (index w)).
(** Series and fields are never forgotten or changed. *)
Definition grows w w' : Prop :=
  ix_series (index w) ⊆ ix_series (index w') /\ ix_fields (index w) ⊆ ix_fields (index w').
#[export] Instance grows_preorder : PreOrder grows.
Proof. split; [done|]. intros w1 w2 w3 [? ?] [? ?]. split; by etrans. Qed.
(** The errors of [appendEntryLocked]. *)
Definition isWalError (e : goerr) : bool :=
  match e with ErrWrap msg _ => bool_decide (msg = "write catalog wal" \/ msg = "sync catalog wal")%string | _ => false end.

(** [run w m Q]: from a catalog that satisfies the invariant [m] leads to one
    that does, unless the catalog got too big or an append to the log failed. *)
Definition run {A} w (m : step CatWorld A) (Q : A -> CatWorld -> Prop) : Prop :=
  cat_inv w -> let '(r, w') := m w in big w' \/
    match r with
    | Ok a => cat_inv w' /\ grows w w' /\ Q a w'
    | Err e => isWalError e = true \/ (cat_inv w' /\ grows w w')
    | Panic _ => cat_inv w' /\ grows w w'
    end.
(** The number of series and of fields never falls. *)
Definition grower {A} (m : step CatWorld A) : Prop := forall w,
  count (ix_series (index w)) <= count (ix_series (index (m w).2)) /\
  count (ix_fields (index w)) <= count (ix_fields (index (m w).2)).
Lemma grower_big {A} (m : step CatWorld A) w : grower m -> big w -> big (m w).2.
Proof. intros Hm Hb. destruct (Hm w). unfold big in *. lia. Qed.
Lemma grower_bind {A B} (m : step CatWorld A) (k : A -> step CatWorld B) : grower m -> (forall a, grower (k a)) -> grower (m ≫= k).
Proof.
  intros Hm Hk w. specialize (Hm w). unfold mbind, step_bind. destruct (m w) as [[a| |] w1]; simpl in *; [|done..].
  specialize (Hk a w1). lia.
Qed.
Lemma grower_pure {A} (m : outcome A) : grower (pure_step m).
Proof. done. Qed.
Lemma grower_fail {A} e : grower (fail_step (A := A) e).
Proof. done. Qed.
Lemma grower_ret {A} (a : A) : grower (mret a).
Proof. done. Qed.
Lemma grower_get {A} (f : Catalog -> A) : grower (catGet f).
Proof. done. Qed.
Lemma grower_disk {A} (m : step Disk A) : grower (catDisk m).
Proof. intros w. unfold catDisk. by destruct (m (cw_disk w)). Qed.
Lemma grower_wrap {A} msg (m : step CatWorld A) : grower m -> grower (wrap_step msg m).
Proof. intros Hm w. specialize (Hm w). unfold wrap_step. by destruct (m w). Qed.
Lemma grower_modify f : (forall c, count (ix_series (ct_index c)) <= count (ix_series (ct_index (f c))) /\
  count (ix_fields (ct_index c)) <= count (ix_fields (ct_index (f c)))) -> grower (catModify f).
Proof. intros Hf w. apply Hf. Qed.
Lemma grower_quiet f : (forall c, ct_index (f c) = ct_index c) -> grower (catModify f).
Proof. intros Hf. apply grower_modify. intros c. by rewrite Hf. Qed.

Lemma run_then {A B} w (m : step CatWorld A) (k : A -> step CatWorld B) Q1 Q2 : run w m Q1 -> (forall a, grower (k a)) ->
  (forall a w1, cat_inv w1 -> grows w w1 -> Q1 a w1 -> run w1 (k a) Q2) -> run w (m ≫= k) Q2.
Proof.
  intros Hm Hg Hk Hi. specialize (Hm Hi). unfold mbind, step_bind. destruct (m w) as [[a| |] w1]; [|done..].
  destruct Hm as [Hb|(Hi1 & Hgr & HQ)].
  { pose proof (grower_big (k a) w1 (Hg a) Hb). destruct (k a w1). by left. }
  specialize (Hk a w1 Hi1 Hgr HQ Hi1). destruct (k a w1) as [[b| |] w2]; destruct Hk as [Hb|Hk]; try (by left); right.
  - destruct Hk as (? & ? & ?). split_and!; [done|by etrans|done].
  - destruct Hk as [?|[? ?]]; [by left|right]. split; [done|by etrans].
  - destruct Hk as [? ?]. split; [done|by etrans].
Qed.
Lemma run_ret {A} w (a : A) (Q : A -> CatWorld -> Prop) : (cat_inv w -> Q a w) -> run w (mret a) Q.
Proof. intros HQ Hi. right. split_and!; [done|done|auto]. Qed.
Lemma run_pure {A} w (m : outcome A) (Q : A -> CatWorld -> Prop) : (forall a, m = Ok a -> Q a w) -> run w (pure_step m) Q.
Proof. intros HQ Hi. right. destruct m; [by split_and!; [| |apply HQ]|by right|by split]. Qed.
Lemma run_fail {A} w e (Q : A -> CatWorld -> Prop) : run w (fail_step e) Q.
Proof. by apply run_pure. Qed.
Lemma run_get {A} w (f : Catalog -> A) : run w (catGet f) (fun a w' => w' = w /\ a = f (cw_cat w)).
Proof. intros Hi. right. done. Qed.
Lemma run_weaken {A} w (m : step CatWorld A) (Q Q' : A -> CatWorld -> Prop) :
  run w m Q -> (forall a w', cat_inv w' -> grows w w' -> Q a w' -> Q' a w') -> run w m Q'.
Proof.
  intros Hm HQ Hi. specialize (Hm Hi). destruct (m w) as [[a| |] w']; [|done..].
  destruct Hm as [?|(? & ? & ?)]; [by left|right]. auto.
Qed.
Lemma run_if {A} w (b : bool) (m1 m2 : step CatWorld A) Q : (b = true -> run w m1 Q) -> (b = false -> run w m2 Q) ->
  run w (if b then m1 else m2) Q.
Proof. destruct b; auto. Qed.
(** Changes that do not concern the index. *)
Lemma run_modify w f : (forall c, ct_index (f c) = ct_index c /\ ct_dir (f c) = ct_dir c) ->
  (cat_inv w -> metadata_ok (ct_databases (f (cw_cat w))) (ct_policies (f (cw_cat w))) /\ downsampling_ok (ct_downsampling (f (cw_cat w)))) ->
  run w (catModify f) (fun _ w' => index w' = index w /\ files w' = files w).
Proof.
  intros Hf Hmd Hi. destruct (Hf (cw_cat w)) as [Ei Ed]. right. unfold grows. simpl. rewrite Ei.
  split; [|done]. destruct Hi. split; simpl; rewrite ?Ei, ?Ed; auto. apply Hmd. by split.
Qed.
(** A call on the disk after which the files still hold the catalog. *)
Lemma run_disk {A : Type} w (msg : string) (m : step Disk A) (Q : A -> gmap bytes bytes -> Prop) (E : gmap bytes bytes -> Prop) :
  does (files w) m Q E ->
  (cat_inv w -> forall F', (E F' \/ exists a, Q a F') -> files_ok F' (ix_series (index w)) (ix_fields (index w))) ->
  run w (wrap_step msg (catDisk m)) (fun a w' => cw_cat w' = cw_cat w /\ Q a (files w')).
Proof.
  intros Hm HF Hi. specialize (HF Hi). unfold wrap_step, catDisk. destruct (cw_disk w) as [F fs] eqn:Ed.
  specialize (Hm fs). cbn [dk_files] in Hm. destruct (m (mkDisk F fs)) as [[a|e|p] d']; simpl in *; [| |done].
  - right. split_and!; try done. destruct Hi. split; try done. apply HF. right. by exists a.
  - right. right. split; [|done]. destruct Hi. split; try done. apply HF. by left.
Qed.
(** ** The log and the snapshot *)
Lemma walFrame_nonempty entry : walFrame entry <> [].
Proof. intros E. pose proof (walFrame_pos entry) as H. by rewrite E in H. Qed.
(** A record that was appended to the log. *)
Definition appended w entry w' : Prop :=
  cw_cat w' = cw_cat w /\ len (walFrame entry) <= maxInt /\
  files w' = <[walFile := default [] (files w !! walFile) ++ walFrame entry]> (files w).
Lemma run_append {B} w entry (k : step CatWorld B) Q : ct_dir (cw_cat w) = dir ->
  (forall w1, appended w entry w1 -> (cat_inv w -> let '(r, w') := k w1 in big w' \/
    match r with Ok a => cat_inv w' /\ grows w w' /\ Q a w' | Err e => isWalError e = true \/ (cat_inv w' /\ grows w w')
    | Panic _ => cat_inv w' /\ grows w w' end)) ->
  run w (appendEntryLocked entry ;; k) Q.
Proof.
  intros Hdir Hk Hi. unfold appendEntryLocked, catGet, allocated, mbind, step_bind, mret, step_ret.
  destruct (Z.ltb_spec maxAlloc (len (walFrame entry))) as [?|Hl]; [by right|].
  destruct (ct_wal (id (cw_cat w))); [|right; left; reflexivity].
  destruct w as [c [F fs]]. cbn [cw_cat cw_disk] in *. unfold wrap_step at 1, catDisk at 1. cbn [cw_cat cw_disk].
  pose proof (does_WriteFull_append F walFile (walFrame entry) (walFrame_nonempty entry) fs) as HW.
  unfold walPath. cbn [id]. rewrite Hdir. fold walFile.
  destruct (WriteFull walFile (walFrame entry) (mkDisk F fs)) as [[[]|e|p] [F1 fs1]]; cbn [wrapErr]; [|by right; left|done].
  simpl in HW. subst F1. unfold wrap_step, catDisk. cbn [cw_cat cw_disk].
  pose proof (does_Sync (<[walFile := default [] (F !! walFile) ++ walFrame entry]> F) walFile (fun _ => True) I fs1) as HS.
  destruct (Sync walFile _) as [[[]|e|p] [F2 fs2]]; cbn [wrapErr]; [|by right; left|done]. simpl in HS. subst F2.
  apply Hk; [|done]. split_and!; [done|unfold maxAlloc, maxInt in *; lia|done].
Qed.
(** The new entry is the only one that the files gain. *)
Lemma files_ok_append F S P S' P' entry : files_ok F S P -> entry_ok entry -> len (walFrame entry) <= maxInt ->
  (forall e, entry_in S' P' e <-> entry_in S P e \/ e = entry) -> count S <= count S' -> count P <= count P' ->
  files_ok (<[walFile := default [] (F !! walFile) ++ walFrame entry]> F) S' P'.
Proof.
  intros (snap & logged & H1 & [H2 H3] & H4 & H5 & H6 & H7) He Hl Hin Hs Hp.
  exists snap, (logged ++ [entry]).
  unfold snapshot_file, log_file, metadata_file in *. rewrite lookup_insert_eq, !lookup_insert_ne by files_ne. split_and!; try apply H4; try done; try lia.
  - cbn [default]. rewrite H2, map_app, concat_app. cbn [map concat]. by rewrite app_nil_r.
  - apply Forall_app. split; [done|]. by apply Forall_singleton.
  - intros e. rewrite Hin, H5. unfold allEntries. rewrite !elem_of_app, list_elem_of_singleton. tauto.
Qed.

(** Replacing a file of the catalog leaves the other two alone. *)
Definition catalog_file path : Prop := path = snapshotFile \/ path = walFile \/ path = metadataFile \/ path = downsampleFile.
Definition replaced F path data F' : Prop :=
  (F' !! path = F !! path \/ F' !! path = Some data) /\
  forall file, catalog_file file -> file <> path -> F' !! file = F !! file.
Lemma temp_other file path suffix : catalog_file file -> catalog_file path -> file <> tempName (filepath_Dir path) suffix.
Proof.
  intros Hf Hp E. symmetry in E. revert E.
  destruct Hf as [-> |[-> |[-> | ->]]]; destruct Hp as [-> |[-> |[-> | ->]]]; by apply temp_not_named.
Qed.
Lemma does_replace F path data : catalog_file path ->
  does F (WriteFileAtomic suffixes path data) (fun _ F' => F' !! path = Some data /\ replaced F path data F')
    (replaced F path data).
Proof.
  intros Hp. eapply does_weaken; [apply does_WriteFileAtomic; intros E; by eapply (temp_other path path)|..].
  - intros _ F' ->. rewrite lookup_insert_eq. split; [done|]. split; [right; apply lookup_insert_eq|].
    intros file _ Hf. by rewrite lookup_insert_ne.
  - intros F' [H1 H2]. split; [done|]. intros file Hf Hne. apply H2; [done|]. by apply temp_other.
Qed.
Lemma grower_allocated data : grower (allocated data).
Proof. unfold allocated. case_match; [apply grower_pure|apply grower_ret]. Qed.
Lemma run_allocated w data : run w (allocated data) (fun _ w' => w' = w /\ len data <= maxInt).
Proof.
  unfold allocated. destruct (Z.ltb_spec maxAlloc (len data)).
  - apply run_pure. done.
  - apply run_ret. intros _. split; [done|]. unfold maxAlloc, maxInt in *. lia.
Qed.
Lemma files_ok_snapshot F F' ix : good ix -> files_ok F (ix_series ix) (ix_fields ix) ->
  len (encodeSnapshot (snapshotLocked ix)) <= maxInt ->
  replaced F snapshotFile (encodeSnapshot (snapshotLocked ix)) F' -> files_ok F' (ix_series ix) (ix_fields ix).
Proof.
  intros Hg Hf Hl [Hs Ho].
  assert (Ew : F' !! walFile = F !! walFile) by (apply Ho; [unfold catalog_file; auto|files_ne]).
  assert (Em : F' !! metadataFile = F !! metadataFile) by (apply Ho; [unfold catalog_file; auto|files_ne]).
  assert (Ed : F' !! downsampleFile = F !! downsampleFile) by (apply Ho; [unfold catalog_file; auto|files_ne]).
  destruct Hs as [Es|Es]; [by eapply files_ok_same|]. destruct Hf as (snap & logged & H1 & H2 & H3 & H4 & H5 & H6).
  exists (snapshotLocked ix), logged. unfold snapshot_file, log_file, metadata_file in *. rewrite Es, Ew, Em, Ed.
  split; [split; [done|split; [by apply snapshotLocked_ok|done]]|]. do 2 (split; [done|]).
  split; [|split; [apply (g_nextSeries _ Hg)|apply (g_nextField _ Hg)]]. intros e. rewrite (snapshotLocked_holds ix) by done. split.
  - unfold allEntries. rewrite app_nil_r, !elem_of_app. tauto.
  - intros He. rewrite <- (snapshotLocked_holds ix) by done. unfold allEntries in He. rewrite !elem_of_app in He.
    destruct He as [He|[He|He]].
    + apply snapshotLocked_holds; [done|]. unfold allEntries. rewrite !elem_of_app. tauto.
    + apply snapshotLocked_holds; [done|]. unfold allEntries. rewrite !elem_of_app. tauto.
    + apply H4. unfold allEntries. rewrite !elem_of_app. tauto.
Qed.

Lemma run_get_bind {A B} w (f : Catalog -> A) (k : A -> step CatWorld B) Q : run w (k (f (cw_cat w))) Q -> run w (catGet f ≫= k) Q.
Proof. done. Qed.
#[local] Hint Resolve grower_pure grower_fail grower_ret grower_get grower_disk grower_allocated : core.
Lemma count_insert_le {A} (m : gmap Z A) id x : count m <= count (<[id := x]> m).
Proof. rewrite map_size_insert. destruct (m !! id); simpl; lia. Qed.
(** Proves that a step never removes a series or a field. *)
Ltac grow := repeat (intros; first
  [ solve [auto] | apply grower_bind | apply grower_wrap | apply grower_quiet; reflexivity
  | apply grower_modify; intros; cbn; split; solve [reflexivity | apply count_insert_le] | progress case_match ]).
Lemma grower_save : grower (saveSnapshotLocked suffixes).
Proof. unfold saveSnapshotLocked. grow. Qed.
Lemma grower_saveMetadata : grower (saveMetadataLocked suffixes).
Proof. unfold saveMetadataLocked. grow. Qed.
#[local] Hint Resolve grower_save grower_saveMetadata : core.
Lemma grower_checkpoint force : grower (checkpointSnapshotLocked suffixes force).
Proof. unfold checkpointSnapshotLocked. grow. Qed.
Lemma grower_ensureMetadata database policy : grower (ensureMetadataLocked database policy).
Proof. unfold ensureMetadataLocked. grow. Qed.
#[local] Hint Resolve grower_checkpoint grower_ensureMetadata : core.

Lemma run_save w : run w (saveSnapshotLocked suffixes)
  (fun _ w' => cw_cat w' = cw_cat w /\ len (encodeSnapshot (snapshotLocked (index w))) <= maxInt /\
    files w' !! snapshotFile = Some (encodeSnapshot (snapshotLocked (index w)))).
Proof.
  unfold saveSnapshotLocked. apply run_get_bind. eapply run_then; [apply run_allocated|grow|]. intros [] w1 Hi _ [-> Hl].
  unfold snapshotPath. cbn [id] in *. rewrite (ci_dir _ Hi). fold snapshotFile.
  eapply run_weaken; [eapply run_disk; [apply does_replace; by left|]|].
  - intros _ F' H. eapply files_ok_snapshot; [apply Hi|apply Hi|done|]. by destruct H as [H|(a & _ & H)].
  - intros [] w' _ _ (E & H & _). done.
Qed.
(** Truncating the log after the snapshot was written. *)
Lemma does_Truncate F path : does F (os_Truncate path) (fun _ F' => F' = <[path := []]> F) (eq F).
Proof.
  unfold os_Truncate. quietly. apply does_get. intros fs. by apply does_put.
Qed.
Lemma files_ok_truncated F ix : good ix -> files_ok F (ix_series ix) (ix_fields ix) ->
  len (encodeSnapshot (snapshotLocked ix)) <= maxInt -> F !! snapshotFile = Some (encodeSnapshot (snapshotLocked ix)) ->
  files_ok (<[walFile := []]> F) (ix_series ix) (ix_fields ix).
Proof.
  intros Hg (snap & logged & H1 & H2 & H3 & _) Hl Es.
  exists (snapshotLocked ix), []. unfold snapshot_file, log_file, metadata_file in *.
  rewrite lookup_insert_eq, !lookup_insert_ne, Es by files_ne.
  split; [split; [done|split; [by apply snapshotLocked_ok|done]]|]. do 2 (split; [done|]).
  split; [|split; [apply (g_nextSeries _ Hg)|apply (g_nextField _ Hg)]]. intros e. by apply snapshotLocked_holds.
Qed.
Lemma run_quiet w msg (m : step Disk unit) : does (files w) m (fun _ F' => F' = files w) (eq (files w)) ->
  run w (wrap_step msg (catDisk m)) (fun _ w' => cw_cat w' = cw_cat w /\ files w' = files w).
Proof.
  intros Hm. apply (run_disk w msg m (fun _ F' => F' = files w) _ Hm). intros Hi F' [<-|(? & ->)]; apply Hi.
Qed.
Lemma run_withDirty w n : run w (catModify (withDirty n)) (fun _ w' => True).
Proof. eapply run_weaken; [apply run_modify; [done|apply ci_metadata]|done]. Qed.
Lemma run_checkpoint w force : run w (checkpointSnapshotLocked suffixes force) (fun _ _ => True).
Proof.
  unfold checkpointSnapshotLocked. apply run_get_bind. cbn [id]. do 2 (apply run_if; intros _; [by apply run_ret|]).
  eapply run_then; [apply run_save|grow|]. intros [] w1 Hi _ (E & Hl & Hs).
  apply run_if; intros _; [apply run_withDirty|]. unfold walPath. rewrite <- E, (ci_dir _ Hi). fold walFile. rewrite <- E in Hl, Hs.
  eapply run_then; [eapply run_disk; [apply does_Truncate|]|grow|].
  { intros _ F' [<-|(? & ->)]; [apply Hi|]. apply files_ok_truncated; [apply Hi|apply Hi|done|done]. }
  intros [] w2 Hi2 _ _. eapply run_then; [apply run_quiet; by apply does_os_call|grow|]. intros [] w3 Hi3 _ _.
  eapply run_then; [apply run_quiet; by apply does_Sync|grow|]. intros [] w4 Hi4 _ _. apply run_withDirty.
Qed.

(** ** Metadata *)
Lemma files_ok_metadata F F' S P data got : files_ok F S P -> catDecodeMetadata data = Ok got -> metadata_ok got.1 got.2 ->
  replaced F metadataFile data F' -> files_ok F' S P.
Proof.
  intros Hf Hd Hok [Hm Ho].
  assert (Es : F' !! snapshotFile = F !! snapshotFile) by (apply Ho; [unfold catalog_file; auto|files_ne]).
  assert (Ew : F' !! walFile = F !! walFile) by (apply Ho; [unfold catalog_file; auto|files_ne]).
  assert (Ed : F' !! downsampleFile = F !! downsampleFile) by (apply Ho; [unfold catalog_file; auto|files_ne]).
  destruct Hm as [Em|Em]; [by eapply files_ok_same|]. destruct Hf as (snap & logged & H1 & H2 & H3 & H4).
  exists snap, logged. unfold snapshot_file, log_file, metadata_file in *. rewrite Es, Ew, Em, Ed. do 2 (split; [done|]). split; [split; [by exists got|apply H3]|done].
Qed.
Lemma kept_ok databases policies : metadata_ok databases policies -> metadata_ok databases (kept databases policies).
Proof.
  intros [Hd Hp]. split; [done|]. intros name ps Hk. apply lookup_kept in Hk as [_ <-].
  destruct (policies !! name) as [ps|] eqn:E; [by eapply Hp|]. intros k p Hk. simpl in Hk. by rewrite lookup_empty in Hk.
Qed.
Lemma run_saveMetadata w : run w (saveMetadataLocked suffixes) (fun _ w' => cw_cat w' = cw_cat w).
Proof.
  unfold saveMetadataLocked. apply run_get_bind. eapply run_then; [apply run_allocated|grow|]. intros [] w1 Hi _ [-> Hl].
  unfold metadataPath. cbn [id] in *. rewrite (ci_dir _ Hi). fold metadataFile.
  eapply run_weaken; [eapply run_disk; [apply does_replace; unfold catalog_file; auto|]|].
  - intros _ F' H. eapply files_ok_metadata; [apply Hi|apply decodeMetadata_encode; [apply (ci_metadata _ Hi)|done]|apply kept_ok, (ci_metadata _ Hi)|].
    by destruct H as [H|(a & _ & H)].
  - intros [] w' _ _ (E & _). done.
Qed.
Lemma metadata_ok_database databases policies database : metadata_ok databases policies -> string_ok database ->
  metadata_ok (databases ∪ {[database]}) policies.
Proof.
  intros [Hd Hp] Hs. split; [|done]. intros name Hn. apply elem_of_union in Hn as [Hn|Hn%elem_of_singleton]; [by apply Hd|by subst].
Qed.
Lemma metadata_ok_policies databases policies database ps : metadata_ok databases policies -> policies_ok ps ->
  metadata_ok databases (<[database := ps]> policies).
Proof. intros [Hd Hp] Hs. split; [done|]. by apply map_Forall_insert_2. Qed.
Lemma policies_ok_default databases policies database : metadata_ok databases policies ->
  policies_ok (default ∅ (policies !! database)).
Proof.
  intros [_ Hp]. destruct (policies !! database) eqn:E; [by eapply Hp|]. intros k p Hk. simpl in Hk. by rewrite lookup_empty in Hk.
Qed.
Lemma run_ensureMetadata w database policy : string_ok database -> string_ok policy ->
  run w (ensureMetadataLocked database policy) (fun _ w' => index w' = index w).
Proof.
  intros Hd Hp. unfold ensureMetadataLocked. case_bool_decide; [by apply run_ret|]. apply run_get_bind. cbn [id].
  assert (Hmod : forall pols (b : bool), (cat_inv w -> metadata_ok (ct_databases (cw_cat w) ∪ {[database]}) pols) ->
    run w (catModify (withMetadata (ct_databases (cw_cat w) ∪ {[database]}) pols) ;; mret b) (fun _ w' => index w' = index w)).
  { intros pols b Hok. eapply run_then; [apply run_modify; [done|intros Hi; split; [by apply Hok|apply (ci_metadata _ Hi)]]|grow|]. intros [] w1 _ _ [E _]. by apply run_ret. }
  case_bool_decide; [apply Hmod; intros [_ _ _ [Hmd _]]; by apply metadata_ok_database|].
  case_bool_decide; apply Hmod; intros [_ _ _ [Hmd _]]; apply metadata_ok_policies;
    try (by apply metadata_ok_database); [by eapply policies_ok_default|].
  apply map_Forall_insert_2; [done|]. by eapply policies_ok_default.
Qed.

(** ** New series and fields *)
Definition series_at w (s : Series) (m : bytes) (tags : gmap bytes bytes) : Prop :=
  s = mkSeries (se_ID s) m tags /\ ix_series (index w) !! se_ID s = Some s.
Definition field_at w (f : Field) (m name : bytes) (t : Z) : Prop :=
  f = mkField (fd_ID f) m name t /\ ix_fields (index w) !! fd_ID f = Some f.
Lemma series_at_grows w w' s m tags : grows w w' -> series_at w s m tags -> series_at w' s m tags.
Proof. intros [Hg _] [? ?]. split; [done|]. by eapply lookup_weaken. Qed.
Lemma field_at_grows w w' f m name t : grows w w' -> field_at w f m name t -> field_at w' f m name t.
Proof. intros [_ Hg] [? ?]. split; [done|]. by eapply lookup_weaken. Qed.

Definition advanceSeries (ix : Index) : Index :=
  mkIndex (u64 (ix_nextSeriesID ix + 1)) (ix_nextFieldID ix) (ix_seriesByKey ix) (ix_seriesByTag ix)
    (ix_tagValues ix) (ix_series ix) (ix_fieldsByKey ix) (ix_fields ix) (ix_fieldSchemas ix).
Definition advanceField (ix : Index) : Index :=
  mkIndex (ix_nextSeriesID ix) (u32 (ix_nextFieldID ix + 1)) (ix_seriesByKey ix) (ix_seriesByTag ix)
    (ix_tagValues ix) (ix_series ix) (ix_fieldsByKey ix) (ix_fields ix) (ix_fieldSchemas ix).
Lemma advanceSeries_ok ix : index_ok ix -> 0 < ix_nextSeriesID ix < 2 ^ 64 - 1 -> index_ok (advanceSeries ix).
Proof.
  intros [Hs ? ? ? ? ? ?] Hn. split; try done. intros id s H. destruct (Hs _ _ H) as (? & ? & ?). split_and!; try done; [lia|].
  simpl. rewrite u64_id by (unfold is_u64; lia). lia.
Qed.
Lemma advanceField_ok ix : index_ok ix -> 0 < ix_nextFieldID ix < 2 ^ 32 - 1 -> index_ok (advanceField ix).
Proof.
  intros [? ? ? Hs ? ? ?] Hn. split; try done. intros id s H. destruct (Hs _ _ H) as (? & ? & ?). split_and!; try done; [lia|].
  simpl. rewrite u32_id by (unfold is_u32; lia). lia.
Qed.
Lemma count_insert_fresh {A} (m : gmap Z A) id x : m !! id = None -> count (<[id := x]> m) = count m + 1.
Proof. intros H. rewrite map_size_insert_None by done. lia. Qed.
(** The next identifier is not taken. *)
Lemma next_fresh ix : index_ok ix -> ix_series ix !! ix_nextSeriesID ix = None /\ ix_fields ix !! ix_nextFieldID ix = None.
Proof.
  intros Hok. split.
  - destruct (ix_series ix !! ix_nextSeriesID ix) eqn:E; [|done]. destruct (io_series _ Hok _ _ E) as (_ & ? & _). lia.
  - destruct (ix_fields ix !! ix_nextFieldID ix) eqn:E; [|done]. destruct (io_fields _ Hok _ _ E) as (_ & ? & _). lia.
Qed.
Definition unknown_series (ix : Index) (m : bytes) (tags : gmap bytes bytes) : Prop :=
  forall id s, ix_series ix !! id = Some s -> se_Measurement s = m -> se_Tags s = tags -> False.
Definition unknown_field (ix : Index) (m name : bytes) : Prop :=
  forall id f, ix_fields ix !! id = Some f -> fd_Measurement f = m -> fd_Name f = name -> False.
Lemma newSeries_good ix m tags : good ix -> identity_clean m tags -> string_ok m ->
  map_Forall (fun key value => string_ok key /\ string_ok value) tags -> unknown_series ix m tags ->
  let s := mkSeries (ix_nextSeriesID ix) m tags in let ix' := advanceSeries (applySeries s ix) in
  ix_series ix' = <[se_ID s := s]> (ix_series ix) /\ ix_fields ix' = ix_fields ix /\
  (count (ix_series ix') <= maxSeries -> good ix').
Proof.
  intros [Hok Hs Hf [Hn1 Hn2] Hk [Hsm1 Hsm2]] Hc Hm Ht Hu s ix'. unfold maxSeries, maxFields in *.
  destruct (next_fresh _ Hok) as [Hfresh _].
  destruct (applySeries_ok ix s) as (Hok' & Es & En); [done|done|simpl; lia|simpl; lia|by left| |].
  { intros id' s' H' Em Et. by destruct (Hu _ _ H' Em Et). }
  cbn [s se_ID] in En, Es. rewrite Z.max_r in En by lia. split; [exact Es|]. split; [done|].
  unfold ix'. cbn [advanceSeries ix_series]. rewrite Es. intros Hbig. rewrite count_insert_fresh in Hbig by done. split.
  - apply advanceSeries_ok; [done|]. rewrite En. lia.
  - cbn [advanceSeries ix_series]. rewrite Es. apply map_Forall_insert_2; [|done]. split_and!; [simpl; unfold is_u64; lia|done|done].
  - exact Hf.
  - cbn [advanceSeries ix_series ix_nextSeriesID]. rewrite Es, En, u64_id, count_insert_fresh by (done || (unfold is_u64; lia)). lia.
  - exact Hk.
  - cbn [advanceSeries ix_series]. rewrite Es, count_insert_fresh by done. unfold maxSeries, maxFields. done.
Qed.
Lemma newField_good ix m name t : good ix -> 0xff ∉ m -> string_ok m -> string_ok name -> validFieldType t = true ->
  unknown_field ix m name ->
  let f := mkField (ix_nextFieldID ix) m name t in let ix' := advanceField (catApplyField f ix) in
  ix_fields ix' = <[fd_ID f := f]> (ix_fields ix) /\ ix_series ix' = ix_series ix /\
  (count (ix_fields ix') <= maxFields -> good ix').
Proof.
  intros [Hok Hs Hf Hn [Hk1 Hk2] [Hsm1 Hsm2]] Hc Hm Ht Hv Hu f ix'. unfold maxSeries, maxFields in *.
  destruct (next_fresh _ Hok) as [_ Hfresh].
  destruct (applyField_ok ix f) as (Hok' & Es & En); [done|done|simpl; lia|simpl; lia|by left| |].
  { intros id' f' H' Em Et. by destruct (Hu _ _ H' Em Et). }
  cbn [f fd_ID] in En, Es. rewrite Z.max_r in En by lia. split; [exact Es|]. split; [done|].
  unfold ix'. cbn [advanceField ix_fields]. rewrite Es. intros Hbig. rewrite count_insert_fresh in Hbig by done. split.
  - apply advanceField_ok; [done|]. rewrite En. lia.
  - exact Hs.
  - cbn [advanceField ix_fields]. rewrite Es. apply map_Forall_insert_2; [|done]. split_and!; [simpl; unfold is_u32; lia|done|done|done].
  - exact Hn.
  - cbn [advanceField ix_fields ix_nextFieldID]. rewrite Es, En, u32_id, count_insert_fresh by (done || (unfold is_u32; lia)). lia.
  - cbn [advanceField ix_fields]. rewrite Es, count_insert_fresh by done. unfold maxSeries, maxFields. done.
Qed.

Lemma grower_append entry : grower (appendEntryLocked entry).
Proof. unfold appendEntryLocked. grow. Qed.
Lemma grower_rejected : grower rejected.
Proof. by apply grower_quiet. Qed.
#[local] Hint Resolve grower_append grower_rejected : core.
Lemma grower_ensureSeries m tags : grower (ensureSeriesCardinalityLocked m tags).
Proof. unfold ensureSeriesCardinalityLocked. grow. Qed.
Lemma grower_ensureField : grower ensureFieldCardinalityLocked.
Proof. unfold ensureFieldCardinalityLocked. grow. Qed.
#[local] Hint Resolve grower_ensureSeries grower_ensureField : core.
Lemma grower_createSeries m tags : grower (createSeriesNoSnapshotLocked m tags).
Proof. unfold createSeriesNoSnapshotLocked. grow. Qed.
Lemma grower_checkType f t : grower (checkType f t).
Proof. unfold checkType. grow. Qed.
#[local] Hint Resolve grower_createSeries grower_checkType : core.
Lemma grower_resolveField m name t : grower (resolveFieldNoSnapshotLocked m name t).
Proof. unfold resolveFieldNoSnapshotLocked. grow. Qed.
#[local] Hint Resolve grower_resolveField : core.
Lemma run_rejected {A} w e (Q : A -> CatWorld -> Prop) : run w (rejected ;; fail_step e) Q.
Proof. eapply run_then; [apply run_modify; [done|apply ci_metadata]|grow|]. intros [] w1 _ _ _. apply run_fail. Qed.
Lemma run_ensureSeries w m tags : run w (ensureSeriesCardinalityLocked m tags) (fun _ w' => w' = w).
Proof.
  unfold ensureSeriesCardinalityLocked. apply run_get_bind. cbn zeta.
  apply run_if; intros _; [apply run_rejected|]. apply run_if; intros _; [by apply run_ret|].
  apply run_if; intros _; [apply run_rejected|by apply run_ret].
Qed.
Lemma run_ensureField w : run w ensureFieldCardinalityLocked (fun _ w' => w' = w).
Proof.
  unfold ensureFieldCardinalityLocked. apply run_get_bind. cbn zeta.
  apply run_if; intros _; [apply run_rejected|by apply run_ret].
Qed.
Definition identity_ok (m : bytes) (tags : gmap bytes bytes) : Prop :=
  identity_clean m tags /\ string_ok m /\ map_Forall (fun key value => string_ok key /\ string_ok value) tags.
Lemma run_createSeries w m tags : identity_ok m tags -> unknown_series (index w) m tags ->
  run w (createSeriesNoSnapshotLocked m tags) (fun r w' => series_at w' r.1 m tags).
Proof.
  intros (Hc & Hm & Ht) Hu. unfold createSeriesNoSnapshotLocked. eapply run_then; [apply run_ensureSeries|grow|].
  intros [] w1 Hi _ ->. apply run_get_bind. unfold cloneTags. rewrite CloneMap_id. cbn [id].
  apply run_append; [apply Hi|]. intros w1 (Ec & Hl & Ef) Hi'. unfold catModify, mbind, step_bind, mret, step_ret.
  destruct (newSeries_good (index w) m tags (ci_index _ Hi) Hc Hm Ht Hu) as (Es & Ep & Hg).
  fold (advanceSeries (applySeries (mkSeries (ix_nextSeriesID (index w)) m tags) (ct_index (cw_cat w1)))). rewrite Ec.
  set (s := mkSeries (ix_nextSeriesID (index w)) m tags) in *. set (ix := advanceSeries (applySeries s (index w))) in *.
  destruct (next_fresh _ (g_ok _ (ci_index _ Hi))) as [Hfresh _].
  destruct (Z.ltb_spec maxSeries (count (ix_series ix))) as [Hb|Hb]; [left; by left|]. right. split_and!.
  - split; cbn [cw_cat withDirty withIndex ct_dir ct_index ct_databases ct_policies cw_disk]; [apply Hi|by apply Hg| |apply Hi].
    rewrite Ef. eapply files_ok_append; [apply Hi|exact (proj1 (map_Forall_lookup _ _) (g_series _ (Hg Hb)) _ s ltac:(rewrite Es; apply lookup_insert_eq))|exact Hl| | |].
    + intros e. rewrite Es, Ep. destruct e as [s'|f']; cbn [entry_in]; [|naive_solver].
      destruct (decide (se_ID s = se_ID s')) as [E|E].
      * rewrite <- E, lookup_insert_eq. cbn [s se_ID] in *. rewrite Hfresh. split; [intros [= ->]; auto|intros [?|[= ->]]; done].
      * rewrite lookup_insert_ne by done. split; [auto|]. intros [?|[= ->]]; done.
    + rewrite Es. apply count_insert_le.
    + by rewrite Ep.
  - unfold grows. cbn [cw_cat withDirty withIndex ct_index]. rewrite Es, Ep. split; [by apply insert_subseteq|done].
  - split; [done|]. cbn [cw_cat withDirty withIndex ct_index fst]. rewrite Es. apply lookup_insert_eq.
Qed.

(** ** Resolving series *)
Lemma known_series w id s m tags : cat_inv w -> identity_clean m tags -> ix_series (index w) !! id = Some s ->
  seriesKey (se_Measurement s) (se_Tags s) = seriesKey m tags -> series_at w (seriesAt (index w) id) m tags.
Proof.
  intros Hi Hc Hs E. destruct (io_series _ (g_ok _ (ci_index _ Hi)) _ _ Hs) as (Hid & _ & Hcs).
  destruct (seriesKey_inj _ _ _ _ Hcs Hc E) as [Em Et]. unfold seriesAt, series_at. rewrite Hs. simpl. rewrite Hid.
  split; [|done]. destruct s. simpl in *. by subst.
Qed.
Lemma known_by_key w id m tags : cat_inv w -> identity_clean m tags ->
  ix_seriesByKey (index w) !! seriesKey m tags = Some id -> series_at w (seriesAt (index w) id) m tags.
Proof.
  intros Hi Hc H. apply (io_byKey _ (g_ok _ (ci_index _ Hi))) in H as (s & Hs & E). by eapply known_series.
Qed.
Lemma known_by_tag w id m k v : cat_inv w -> byTagLookup (index w) m k v = Some id ->
  series_at w (seriesAt (index w) id) m {[k := v]}.
Proof.
  intros Hi H. apply (io_byTag _ (g_ok _ (ci_index _ Hi))) in H as (s & Hs & Em & Et).
  destruct (io_series _ (g_ok _ (ci_index _ Hi)) _ _ Hs) as (Hid & _). unfold seriesAt, series_at. rewrite Hs. simpl. rewrite Hid.
  split; [|done]. destruct s. simpl in *. by subst.
Qed.
Lemma seriesKey_empty m : seriesKey m ∅ = m.
Proof. unfold seriesKey, SortedKeys. rewrite map_to_list_empty. simpl. apply app_nil_r. Qed.
Lemma known_by_lookup w id m tags : cat_inv w -> identity_clean m tags ->
  lookupSeriesID (index w) m tags = Some id -> series_at w (seriesAt (index w) id) m tags.
Proof.
  intros Hi Hc. unfold lookupSeriesID. case_bool_decide as E.
  - subst. rewrite <- (seriesKey_empty m) at 1. by apply known_by_key.
  - destruct (single tags) as [[k v]|] eqn:E1; [|done]. apply single_spec in E1 as ->. by apply known_by_tag.
Qed.
Lemma unknown_by_key w m tags : cat_inv w -> ix_seriesByKey (index w) !! seriesKey m tags = None ->
  unknown_series (index w) m tags.
Proof.
  intros Hi H id s Hs Em Et. assert (K : ix_seriesByKey (index w) !! seriesKey m tags = Some id); [|congruence].
  apply (io_byKey _ (g_ok _ (ci_index _ Hi))). exists s. by rewrite Em, Et.
Qed.
Lemma unknown_by_tag w m k v : cat_inv w -> byTagLookup (index w) m k v = None -> unknown_series (index w) m {[k := v]}.
Proof.
  intros Hi H id s Hs Em Et. assert (K : byTagLookup (index w) m k v = Some id); [|congruence].
  apply (io_byTag _ (g_ok _ (ci_index _ Hi))). by exists s.
Qed.
Definition cache_ok w (cache : gmap bytes Series) : Prop := forall key s, cache !! key = Some s ->
  seriesKey (se_Measurement s) (se_Tags s) = key /\ ix_series (index w) !! se_ID s = Some s.
Lemma cache_ok_empty w : cache_ok w ∅.
Proof. intros key s H. by rewrite lookup_empty in H. Qed.
Lemma cache_ok_grows w w' cache : grows w w' -> cache_ok w cache -> cache_ok w' cache.
Proof. intros [Hg _] Hc key s H. destruct (Hc _ _ H). split; [done|]. by eapply lookup_weaken. Qed.
Lemma cache_ok_insert w cache s m tags : cache_ok w cache -> series_at w s m tags -> cache_ok w (<[seriesKey m tags := s]> cache).
Proof.
  intros Hc [Es Hs] key s'. destruct (decide (seriesKey m tags = key)) as [<-|Hne].
  - rewrite lookup_insert_eq. intros [= <-]. split; [by rewrite Es|done].
  - rewrite lookup_insert_ne by done. apply Hc.
Qed.
Lemma grower_resolveSeries m tags cache : grower (resolveSeriesNoSnapshotCachedLocked m tags cache).
Proof. unfold resolveSeriesNoSnapshotCachedLocked. grow. Qed.
#[local] Hint Resolve grower_resolveSeries : core.
Definition resolved_series (m : bytes) (tags : gmap bytes bytes) (r : Series * bool * option (gmap bytes Series)) w : Prop :=
  series_at w r.1.1 m tags /\ cache_ok w (default ∅ r.2).
Lemma run_createCached w (m : bytes) (tags : gmap bytes bytes) (cache : option (gmap bytes Series)) (store : bool) : identity_ok m tags ->
  unknown_series (index w) m tags -> cache_ok w (default ∅ cache) ->
  run w ('(s, changed) ← createSeriesNoSnapshotLocked m tags;
         mret (s, changed, if store then (fun c => <[seriesKey m tags := s]> c) <$> cache else cache)) (resolved_series m tags).
Proof.
  intros Ho Hu Hc. eapply run_then; [by apply run_createSeries|grow|]. intros [s changed] w1 Hi Hg Hs. apply run_ret.
  intros _. split; [done|]. simpl in *. pose proof (cache_ok_grows _ _ _ Hg Hc) as Hc'. destruct store; [|done].
  destruct cache; simpl in *; [by apply cache_ok_insert|]. apply cache_ok_empty.
Qed.
Lemma run_resolveSeries w m tags cache : identity_ok m tags -> cache_ok w (default ∅ cache) ->
  run w (resolveSeriesNoSnapshotCachedLocked m tags cache) (resolved_series m tags).
Proof.
  intros Ho Hc Hi. pose proof Ho as (Hcl & _ & _). revert Hi. unfold resolveSeriesNoSnapshotCachedLocked. apply run_get_bind. cbn zeta.
  assert (Hrest : cat_inv w -> run w
    (match lookupSeriesID (index w) m tags with
     | Some id => mret (seriesAt (index w) id, false, cache)
     | None => match ix_seriesByKey (index w) !! seriesKey m tags with
       | Some id => mret (seriesAt (index w) id, false, cache)
       | None => '(s, changed) ← createSeriesNoSnapshotLocked m tags; mret (s, changed, cache)
       end
     end) (resolved_series m tags)).
  { intros Hi. destruct (lookupSeriesID (index w) m tags) as [id|] eqn:E1.
    { apply run_ret. intros _. split; [by apply known_by_lookup|done]. }
    destruct (ix_seriesByKey (index w) !! seriesKey m tags) as [id|] eqn:E2.
    { apply run_ret. intros _. split; [by apply known_by_key|done]. }
    apply (run_createCached w m tags cache false Ho (unknown_by_key _ _ _ Hi E2) Hc). }
  intros Hi. destruct cache as [cached|]; [|by apply (Hrest Hi)]. destruct (multiTag tags); [|by apply (Hrest Hi)].
  revert Hi. destruct (cached !! seriesKey m tags) as [s|] eqn:E1.
  { apply run_ret. intros Hi. split; [|done]. destruct (Hc _ _ E1) as [Ek Hs]. simpl.
    pose proof (known_series w _ _ _ _ Hi Hcl Hs Ek) as K. unfold seriesAt in K. by rewrite Hs in K. }
  destruct (ix_seriesByKey (index w) !! seriesKey m tags) as [id|] eqn:E2.
  - apply run_ret. intros Hi. pose proof (known_by_key _ _ _ _ Hi Hcl E2). split; [done|]. by apply cache_ok_insert.
  - intros Hi. by apply (run_createCached w m tags (Some cached) true Ho (unknown_by_key _ _ _ Hi E2) Hc).
Qed.

(** ** Resolving fields *)
Lemma schemaField_found w m name f : cat_inv w -> schemaField (index w) m name = Ok (Some f) ->
  fd_Measurement f = m /\ fd_Name f = name /\ ix_fields (index w) !! fd_ID f = Some f.
Proof.
  intros Hi. unfold schemaField. destruct (sort_Search _ _) as [i| |]; [|done..]. unfold mbind, outcome_bind.
  case_match; [done|]. destruct (idx _ i) as [g| |] eqn:E; [|done..]. case_bool_decide as En; simpl; [|done]. intros [= <-].
  unfold idx in E. case_bool_decide; [|done]. destruct (_ !! _) eqn:E' in E; [|done]. injection E as ->. apply list_elem_of_lookup_2 in E'.
  apply (io_schemas _ (g_ok _ (ci_index _ Hi))) in E' as [? ?]. done.
Qed.
Lemma run_checkType w f t m name : (cat_inv w -> fd_Measurement f = m /\ fd_Name f = name /\ ix_fields (index w) !! fd_ID f = Some f) ->
  run w (checkType f t) (fun r w' => field_at w' r.1 m name t).
Proof.
  intros Hf. unfold checkType. destruct (Z.eqb_spec (fd_Type f) t) as [E|E]; simpl; [|apply run_fail].
  apply run_ret. intros Hi. destruct (Hf Hi) as (<- & <- & ?). split; [|done]. simpl. destruct f; simpl in *; by subst.
Qed.
Lemma known_by_name w id m name : cat_inv w -> 0xff ∉ m -> ix_fieldsByKey (index w) !! fieldKey m name = Some id ->
  let f := default zeroField (ix_fields (index w) !! id) in
  fd_Measurement f = m /\ fd_Name f = name /\ ix_fields (index w) !! fd_ID f = Some f.
Proof.
  intros Hi Hm H. apply (io_byName _ (g_ok _ (ci_index _ Hi))) in H as (f & Hf & E). rewrite Hf. simpl.
  destruct (io_fields _ (g_ok _ (ci_index _ Hi)) _ _ Hf) as (Hid & _ & Hc). rewrite Hid.
  apply fieldKey_inj in E as [? ?]; done.
Qed.
Lemma unknown_by_name w m name : cat_inv w -> ix_fieldsByKey (index w) !! fieldKey m name = None -> unknown_field (index w) m name.
Proof.
  intros Hi H id f Hf Em En. assert (K : ix_fieldsByKey (index w) !! fieldKey m name = Some id); [|congruence].
  apply (io_byName _ (g_ok _ (ci_index _ Hi))). exists f. by rewrite Em, En.
Qed.
Lemma run_createField w m name t : 0xff ∉ m -> string_ok m -> string_ok name -> validFieldType t = true ->
  unknown_field (index w) m name ->
  let f := mkField (ix_nextFieldID (index w)) m name t in
  run w (appendEntryLocked (FieldEntry f) ;;
         catModify (fun c => withDirty (ct_snapshotDirtyRecords c + 1) (withIndex (advanceField (catApplyField f (ct_index c))) c)) ;;
         mret (f, true)) (fun r w' => field_at w' r.1 m name t).
Proof.
  intros Hm Hms Hn Ht Hu f Hi. revert Hi. intros Hi0. pose proof Hi0 as Hi. revert Hi0.
  apply run_append; [apply Hi|]. intros w1 (Ec & Hl & Ef) _. unfold catModify, mbind, step_bind, mret, step_ret. rewrite Ec.
  destruct (newField_good (index w) m name t (ci_index _ Hi) Hm Hms Hn Ht Hu) as (Es & Ep & Hg).
  fold f in Es, Ep, Hg. set (ix := advanceField (catApplyField f (index w))) in *.
  destruct (next_fresh _ (g_ok _ (ci_index _ Hi))) as [_ Hfresh].
  destruct (Z.ltb_spec maxFields (count (ix_fields ix))) as [Hb|Hb]; [left; by right|]. right. split_and!.
  - split; cbn [cw_cat withDirty withIndex ct_dir ct_index ct_databases ct_policies cw_disk]; [apply Hi|by apply Hg| |apply Hi].
    rewrite Ef. eapply files_ok_append; [apply Hi|exact (proj1 (map_Forall_lookup _ _) (g_fields _ (Hg Hb)) _ f ltac:(rewrite Es; apply lookup_insert_eq))|exact Hl| | |].
    + intros e. rewrite Es, Ep. destruct e as [s'|f']; cbn [entry_in]; [naive_solver|].
      destruct (decide (fd_ID f = fd_ID f')) as [E|E].
      * rewrite <- E, lookup_insert_eq. cbn [f fd_ID] in *. rewrite Hfresh. split; [intros [= ->]; auto|intros [?|[= ->]]; done].
      * rewrite lookup_insert_ne by done. split; [auto|]. intros [?|[= ->]]; done.
    + by rewrite Ep.
    + rewrite Es. apply count_insert_le.
  - unfold grows. cbn [cw_cat withDirty withIndex ct_index]. rewrite Es, Ep. split; [done|by apply insert_subseteq].
  - split; [done|]. cbn [cw_cat withDirty withIndex ct_index fst]. rewrite Es. apply lookup_insert_eq.
Qed.
Lemma run_resolveField w m name t : 0xff ∉ m -> string_ok m -> string_ok name -> validFieldType t = true ->
  run w (resolveFieldNoSnapshotLocked m name t) (fun r w' => field_at w' r.1 m name t).
Proof.
  intros Hm Hms Hn Ht. unfold resolveFieldNoSnapshotLocked. apply run_get_bind. cbn [id].
  eapply run_then; [apply (run_pure w _ (fun r w' => w' = w /\ schemaField (index w) m name = Ok r)); auto|grow|].
  intros [f|] w1 Hi _ [-> E]; [apply run_checkType; intros _; by apply schemaField_found|].
  destruct (ix_fieldsByKey (index w) !! fieldKey m name) as [id|] eqn:Ek; [apply run_checkType; intros _; by apply known_by_name|].
  eapply run_then; [apply run_ensureField|grow|].
  intros [] w1 Hi1 _ ->. apply (run_createField w m name t Hm Hms Hn Ht). by apply unknown_by_name.
Qed.

(** The fields of a point in the order of their names, each with its value. *)
Definition field_for w (m : bytes) (values : gmap bytes FieldValue) (r : ResolvedField) : Prop :=
  values !! rf_FieldName r = Some (rf_Value r) /\ rf_Type r = fv_Type (rf_Value r) /\
  ix_fields (index w) !! rf_FieldID r = Some (mkField (rf_FieldID r) m (rf_FieldName r) (rf_Type r)).
Definition fields_for w (m : bytes) (values : gmap bytes FieldValue) (fields : list ResolvedField) : Prop :=
  map rf_FieldName fields = SortedKeys values /\ Forall (field_for w m values) fields.
Lemma field_for_grows w w' m values r : grows w w' -> field_for w m values r -> field_for w' m values r.
Proof. intros [_ Hg] (? & ? & ?). split_and!; [done|done|]. by eapply lookup_weaken. Qed.
Lemma fields_for_grows w w' m values fields : grows w w' -> fields_for w m values fields -> fields_for w' m values fields.
Proof. intros Hg [? Hf]. split; [done|]. eapply Forall_impl; [exact Hf|]. intros r. by apply field_for_grows. Qed.
Definition values_ok (values : gmap bytes FieldValue) : Prop :=
  map_Forall (fun name value => string_ok name /\ validFieldType (fv_Type value) = true) values.

Lemma bytes_lt_NoDup l : StronglySorted bytes_lt l -> NoDup l.
Proof.
  induction 1 as [|x l Hs IH Hx]; constructor; [|done]. intros Hin. rewrite Forall_forall in Hx.
  specialize (Hx _ Hin). unfold bytes_lt in Hx. by rewrite bytes_ltb_irrefl in Hx.
Qed.
Lemma sorted_covers {V} (values : gmap bytes V) l : StronglySorted bytes_lt l -> (forall k, k ∈ l -> is_Some (values !! k)) ->
  len l = count values -> l = SortedKeys values.
Proof.
  intros Hs Hin Hl. apply (StronglySorted_unique_strong bytes_lt).
  - intros x y _ _ H1 H2. unfold bytes_lt in *. by rewrite (bytes_ltb_asym _ _ H1) in H2.
  - done.
  - apply SortedKeys_lt.
  - apply submseteq_length_Permutation.
    + apply NoDup_submseteq; [by apply bytes_lt_NoDup|intros k Hk; apply elem_of_SortedKeys; auto].
    + rewrite SortedKeys_perm, length_fmap, length_map_to_list. unfold len in Hl. lia.
Qed.
Lemma schemaMatches_true schema values : schemaMatches schema values = Ok true ->
  Forall (fun nt => exists v, values !! nt.1 = Some v /\ fv_Type v = nt.2) schema.
Proof.
  induction schema as [|[name t] schema IH]; simpl; intros H; constructor.
  - simpl. destruct (values !! name) as [v|]; [|done]. destruct (Z.eqb_spec t (fv_Type v)); [|done]. by exists v.
  - destruct (values !! name) as [v|]; [|done]. destruct (t =? fv_Type v); [|done]. by apply IH.
Qed.
Definition fill (values : gmap bytes FieldValue) (f : Field) : ResolvedField :=
  mkResolvedField (fd_ID f) (fd_Name f) (fd_Type f) (default zeroFieldValue (values !! fd_Name f)).
Lemma fields_from w (m : bytes) (values : gmap bytes FieldValue) (schema : list Field) :
  Forall (fun f => fd_Measurement f = m /\ ix_fields (index w) !! fd_ID f = Some f) schema ->
  StronglySorted bytes_lt (fd_Name <$> schema) -> len schema = count values ->
  schemaMatches (map (fun f => (fd_Name f, fd_Type f)) schema) values = Ok true ->
  fields_for w m values (map (fill values) schema).
Proof.
  intros Hf Hs Hl Hmt%schemaMatches_true.
  assert (Hm : forall f, f ∈ schema -> exists v, values !! fd_Name f = Some v /\ fv_Type v = fd_Type f).
  { intros f Hin. rewrite Forall_forall in Hmt. apply (Hmt (fd_Name f, fd_Type f)). apply list_elem_of_fmap. by exists f. }
  clear Hmt. split.
  - rewrite map_map. cbn [fill rf_FieldName]. apply sorted_covers; [done| |unfold len in *; by rewrite length_map].
    intros k Hk. apply list_elem_of_fmap in Hk as (f & -> & Hin).
    destruct (Hm f Hin) as (v & Hv & _). by exists v.
  - apply Forall_fmap, Forall_forall. intros f Hin. rewrite Forall_forall in Hf.
    destruct (Hm f Hin) as (v & Hv & Ht), (Hf f Hin) as [Em Hix].
    unfold field_for, fill. simpl. rewrite Hv. simpl. split_and!; [done|done|]. rewrite Hix. destruct f; simpl in *; by subst.
Qed.
Definition measurement_ok (m : bytes) : Prop := 0xff ∉ m /\ string_ok m.
Lemma grower_resolveNames m values names : grower (resolveNames m values names).
Proof. induction names; simpl; grow. Qed.
#[local] Hint Resolve grower_resolveNames : core.
Lemma run_resolveNames w (m : bytes) (values : gmap bytes FieldValue) names : measurement_ok m -> values_ok values ->
  (forall name, name ∈ names -> is_Some (values !! name)) ->
  run w (resolveNames m values names) (fun r w' => map rf_FieldName r.1 = names /\ Forall (field_for w' m values) r.1).
Proof.
  intros [Hm Hms] Hv. revert w. induction names as [|name names IH]; intros w Hin; simpl; [by apply run_ret|].
  destruct (Hin name) as [v Ev]; [by left|]. rewrite Ev. cbn [default]. destruct (Hv _ _ Ev) as [Hns Ht].
  eapply run_then; [by apply run_resolveField|grow|]. intros [f b] w1 Hi _ [Ef Hf]. simpl in Ef, Hf.
  eapply run_then; [apply IH; intros n Hn; apply Hin; by right|grow|]. intros [fields b'] w2 Hi2 Hg [En HF]. simpl in En, HF.
  apply run_ret. intros _. rewrite Ef. simpl. split; [by f_equal|]. constructor; [|done]. split_and!; [done|done|].
  simpl. destruct Hg as [_ Hg]. rewrite (lookup_weaken _ _ _ _ Hf Hg). by rewrite Ef.
Qed.
Lemma resolveFieldsFromSchema_ok w m values fields : cat_inv w ->
  resolveFieldsFromSchema (index w) m values = Ok (Some fields) -> fields_for w m values fields.
Proof.
  intros Hi. unfold resolveFieldsFromSchema. destruct (_ || _) eqn:E; [done|].
  apply orb_false_iff in E as [_ E]. apply negb_false_iff, Z.eqb_eq in E.
  destruct (schemaMatches _ values) as [[]| |] eqn:Em; simpl; [|done..]. intros [= <-].
  apply fields_from; [|apply (io_sorted _ (g_ok _ (ci_index _ Hi)))|done|done].
  apply Forall_forall. intros f Hf. apply (io_schemas _ (g_ok _ (ci_index _ Hi))) in Hf as [? ?]. done.
Qed.
Lemma grower_resolveFields m values : grower (resolveFieldsNoSnapshotLocked m values).
Proof. unfold resolveFieldsNoSnapshotLocked. grow. Qed.
#[local] Hint Resolve grower_resolveFields : core.
Lemma run_resolveFields w (m : bytes) (values : gmap bytes FieldValue) : measurement_ok m -> values_ok values ->
  run w (resolveFieldsNoSnapshotLocked m values) (fun r w' => fields_for w' m values r.1).
Proof.
  intros Hm Hv. unfold resolveFieldsNoSnapshotLocked. apply run_get_bind.
  eapply run_then; [apply (run_pure w _ (fun r w' => w' = w /\ resolveFieldsFromSchema (index w) m values = Ok r)); auto|grow|].
  intros [fields|] w1 Hi _ [-> E].
  - apply run_ret. intros _. by apply resolveFieldsFromSchema_ok.
  - apply run_resolveNames; [done|done|]. intros name. apply elem_of_SortedKeys.
Qed.

(** ** Points *)
Record point_ok (p : Point) : Prop := {
  pk_database : string_ok (po_Database p);
  pk_policy : string_ok (po_RetentionPolicy p);
  pk_identity : identity_ok (po_Measurement p) (po_Tags p);
  pk_values : values_ok (po_Fields p);
}.
Lemma point_measurement p : point_ok p -> measurement_ok (po_Measurement p).
Proof. intros [_ _ ([? _] & ? & _) _]. done. Qed.
(** A resolved point is its point with the identifiers of its series and fields. *)
Definition point_for w (p : Point) (r : ResolvedPoint) : Prop :=
  r = resolvedPointFrom p (rp_SeriesID r) (rp_Fields r) /\
  ix_series (index w) !! rp_SeriesID r = Some (mkSeries (rp_SeriesID r) (po_Measurement p) (po_Tags p)) /\
  fields_for w (po_Measurement p) (po_Fields p) (rp_Fields r).
Lemma point_for_grows w w' p r : grows w w' -> point_for w p r -> point_for w' p r.
Proof.
  intros Hg (? & ? & ?). split_and!; [done| |by eapply fields_for_grows]. destruct Hg. by eapply lookup_weaken.
Qed.
Lemma point_for_intro w p s fields : series_at w s (po_Measurement p) (po_Tags p) ->
  fields_for w (po_Measurement p) (po_Fields p) fields -> point_for w p (resolvedPointFrom p (se_ID s) fields).
Proof. intros [Es Hs] Hf. split_and!; [done| |done]. simpl. rewrite Hs. by rewrite Es at 1. Qed.
Lemma run_changed w (b : bool) m : run w m (fun _ _ => True) -> run w (if b then m else mret tt) (fun _ _ => True).
Proof. intros Hm. apply run_if; intros _; [done|by apply run_ret]. Qed.
Lemma run_maybe_checkpoint w (b : bool) : run w (if b then checkpointSnapshotLocked suffixes false else mret tt) (fun _ _ => True).
Proof. apply run_changed, run_checkpoint. Qed.
Lemma run_maybe_saveMetadata w (b : bool) : run w (if b then saveMetadataLocked suffixes else mret tt) (fun _ _ => True).
Proof. apply run_changed. eapply run_weaken; [apply run_saveMetadata|done]. Qed.
Lemma run_ResolvePoint w p : point_ok p -> run w (ResolvePoint suffixes p) (fun r w' => point_for w' p r).
Proof.
  intros Hp. unfold ResolvePoint. eapply run_then; [by apply (run_pure w _ (fun _ w' => w' = w))| |].
  { unfold resolvePointLocked, resolveSeriesLocked, resolveFieldsLocked. grow. }
  intros [] w0 _ _ ->. unfold resolvePointLocked.
  eapply run_then; [apply run_ensureMetadata; apply Hp|unfold resolveSeriesLocked, resolveFieldsLocked; grow|].
  intros mc w1 Hi1 _ _. unfold resolveSeriesLocked.
  eapply (run_then _ _ _ (fun s w' => series_at w' s (po_Measurement p) (po_Tags p))); [|unfold resolveFieldsLocked; grow|].
  { eapply run_then; [apply run_resolveSeries; [apply Hp|by apply cache_ok_empty]|grow|].
    intros [[s changed] cache] w2 _ _ [Hs _]. eapply run_then; [apply run_maybe_checkpoint|grow|].
    intros [] w3 _ Hg _. apply run_ret. intros _. by eapply series_at_grows. }
  intros s w2 Hi2 _ Hs.
  eapply (run_then _ _ _ (fun fields w' => fields_for w' (po_Measurement p) (po_Fields p) fields)); [|grow|].
  { unfold resolveFieldsLocked. eapply run_then; [apply run_resolveFields; [by apply point_measurement|apply Hp]|grow|].
    intros [fields changed] w3 _ _ Hf. eapply run_then; [apply run_maybe_checkpoint|grow|].
    intros [] w4 _ Hg _. apply run_ret. intros _. by eapply fields_for_grows. }
  intros fields w3 Hi3 Hg3 Hf. eapply run_then; [apply run_maybe_saveMetadata|grow|].
  intros [] w4 _ Hg4 _. apply run_ret. intros _. apply (point_for_grows _ _ _ _ Hg4), point_for_intro; [|done].
  by eapply series_at_grows.
Qed.

(** ** Batches of points *)
Definition template_ok w (template : option (list ResolvedField * bytes * Z)) : Prop :=
  match template with
  | None => True
  | Some (fields, m, _) =>
      Forall (fun r => ix_fields (index w) !! rf_FieldID r = Some (mkField (rf_FieldID r) m (rf_FieldName r) (rf_Type r))) fields /\
      StronglySorted bytes_lt (rf_FieldName <$> fields)
  end.
Lemma template_ok_grows w w' template : grows w w' -> template_ok w template -> template_ok w' template.
Proof.
  intros [_ Hg]. destruct template as [[[fields m] n]|]; [|done]. intros [Hf Hs]. split; [|done].
  eapply Forall_impl; [exact Hf|]. intros r Hr. exact (lookup_weaken _ _ _ _ Hr Hg).
Qed.
Lemma newTemplate_ok w p fields : fields_for w (po_Measurement p) (po_Fields p) fields -> template_ok w (newTemplate fields p).
Proof.
  intros [En Hf]. unfold newTemplate, cloneFieldTemplate. destruct (len fields =? 0); [done|]. split.
  - apply Forall_fmap. eapply Forall_impl; [exact Hf|]. cbn. intros r (_ & _ & H'). exact H'.
  - rewrite <- list_fmap_compose.
    assert (E : rf_FieldName ∘ (fun f => mkResolvedField (rf_FieldID f) (rf_FieldName f) (rf_Type f) zeroFieldValue) <$> fields
      = map rf_FieldName fields) by done. rewrite E, En. apply SortedKeys_lt.
Qed.
Lemma applyTemplate_ok w (m : bytes) (values : gmap bytes FieldValue) template n fields : template_ok w (Some (template, m, n)) ->
  applyFieldTemplateLocked values template = Ok (Some fields) -> fields_for w m values fields.
Proof.
  intros [Ht Hs]. unfold applyFieldTemplateLocked. destruct (_ || _) eqn:E; [done|].
  apply orb_false_iff in E as [_ E]. apply negb_false_iff, Z.eqb_eq in E.
  destruct (schemaMatches _ values) as [[]| |] eqn:Em; simpl; [|done..]. intros [= <-].
  pose proof (fields_from w m values (map (fun r => mkField (rf_FieldID r) m (rf_FieldName r) (rf_Type r)) template)) as K.
  rewrite !map_map in K. apply K; clear K.
  - apply Forall_fmap. eapply Forall_impl; [exact Ht|]. done.
  - exact Hs.
  - unfold len in *. by rewrite length_map.
  - done.
Qed.
Lemma grower_batchFields st p : grower (resolveBatchFields st p).
Proof. unfold resolveBatchFields. grow. Qed.
#[local] Hint Resolve grower_batchFields : core.
Lemma run_batchFields w st p : point_ok p -> template_ok w (bs_template st) ->
  run w (resolveBatchFields st p)
    (fun r w' => fields_for w' (po_Measurement p) (po_Fields p) r.1.1 /\ template_ok w' r.2).
Proof.
  intros Hp Ht. unfold resolveBatchFields. cbn zeta.
  match goal with |- context [match _ with Some _ => _ | None => ?k end] => set (full := k) end.
  assert (Hfull : forall w', run w' full (fun r w' => fields_for w' (po_Measurement p) (po_Fields p) r.1.1 /\ template_ok w' r.2)).
  { intros w'. unfold full. eapply run_then; [apply run_resolveFields; [by apply point_measurement|apply Hp]|grow|].
    intros [fields changed] w1 _ _ Hf. apply run_ret. intros _. split; [done|]. by apply newTemplate_ok. }
  destruct (bs_template st) as [[[template m] n]|] eqn:Et; [|apply Hfull].
  apply run_if; intros E; [|apply Hfull]. apply andb_true_iff in E as [E%bool_decide_eq_true _]. subst m.
  eapply run_then; [apply (run_pure w _ (fun r w' => w' = w /\ applyFieldTemplateLocked (po_Fields p) template = Ok r)); auto|unfold full; grow|].
  intros [fields|] w1 Hi _ [-> E]; [|apply Hfull]. apply run_ret. intros _. split; [|done]. by eapply applyTemplate_ok.
Qed.
Definition batch_ok w (st : batchState) : Prop := cache_ok w (bs_cache st) /\ template_ok w (bs_template st).
Lemma grower_batchPoint st p : grower (resolveBatchPoint st p).
Proof. unfold resolveBatchPoint. grow. Qed.
#[local] Hint Resolve grower_batchPoint : core.
Lemma run_batchPoint w st p : point_ok p -> batch_ok w st ->
  run w (resolveBatchPoint st p) (fun r w' => point_for w' p r.1 /\ batch_ok w' r.2).
Proof.
  intros Hp [Hc Ht]. unfold resolveBatchPoint. cbn zeta. eapply (run_then _ _ _ (fun _ _ => True)); [|grow|].
  { apply run_if; intros _; [by apply run_ret|]. eapply run_weaken; [apply run_ensureMetadata; apply Hp|done]. }
  intros mc w1 _ Hg1 _. eapply run_then; [apply run_resolveSeries; [apply Hp|by eapply cache_ok_grows]|grow|].
  intros [[s sc] cache] w2 _ Hg2 [Hs Hc2]. simpl in Hs, Hc2. pose proof (transitivity Hg1 Hg2) as Hg12.
  eapply run_then; [apply run_batchFields; [done|by eapply template_ok_grows]|grow|].
  intros [[fields fc] template] w3 _ Hg3 [Hf Ht3]. simpl in Hf, Ht3. apply run_ret. intros _. simpl. split.
  - apply point_for_intro; [|done]. by eapply series_at_grows.
  - split; simpl; [by eapply cache_ok_grows|done].
Qed.
Lemma grower_batchLoop points : forall st, grower (resolveBatchLoop st points).
Proof. induction points; simpl; grow. Qed.
#[local] Hint Resolve grower_batchLoop : core.
Lemma run_batchLoop points : forall w st, Forall point_ok points -> batch_ok w st ->
  run w (resolveBatchLoop st points) (fun r w' => Forall2 (point_for w') points r.1).
Proof.
  induction points as [|p points IH]; intros w st Hp Hst; simpl; [by apply run_ret|].
  inversion Hp as [|? ? Hp1 Hp2]; subst.
  eapply run_then; [by apply run_batchPoint|grow|]. intros [r st1] w1 _ _ [Hr Hst1].
  eapply run_then; [by apply IH|grow|]. intros [out st2] w2 _ Hg Hout. simpl in *. apply run_ret. intros _. constructor; [|done].
  by eapply point_for_grows.
Qed.
Lemma grower_validate points : grower (step_list (fun point => pure_step (validatePoint point)) points).
Proof. induction points; simpl; grow. Qed.
#[local] Hint Resolve grower_validate : core.
Lemma run_validate w points : run w (step_list (fun point => pure_step (validatePoint point)) points) (fun _ w' => w' = w).
Proof.
  induction points as [|p points IH]; simpl; [by apply run_ret|].
  eapply run_then; [by apply (run_pure w _ (fun _ w' => w' = w))|grow|]. intros [] w1 _ _ ->.
  eapply run_then; [exact IH|grow|]. intros l w1 _ _ ->. by apply run_ret.
Qed.
Lemma run_ResolvePoints w points : Forall point_ok points ->
  run w (ResolvePoints suffixes points) (fun r w' => Forall2 (point_for w') points r).
Proof.
  intros Hp. unfold ResolvePoints. eapply run_then; [apply run_validate|grow|]. intros l w0 _ _ ->.
  eapply run_then; [apply run_batchLoop; [done|by split; [apply cache_ok_empty|]]|grow|]. intros [out st] w1 _ _ Hout. simpl in Hout.
  eapply run_then; [apply run_maybe_checkpoint|grow|]. intros [] w2 _ Hg2 _.
  eapply run_then; [apply run_maybe_saveMetadata|grow|]. intros [] w3 _ Hg3 _. apply run_ret. intros _.
  eapply Forall2_impl; [exact Hout|]. intros p r Hr. eapply point_for_grows; [|exact Hr]. by etrans.
Qed.

(** ** Typed batches *)
Lemma sorted_exact {V} (values : gmap bytes V) l : StronglySorted bytes_lt l -> (forall k, k ∈ l <-> is_Some (values !! k)) ->
  l = SortedKeys values.
Proof.
  intros Hs Hin. apply sorted_covers; [done|apply Hin|]. rewrite <- length_map_to_list. unfold len.
  rewrite <- (length_fmap fst (map_to_list values)), <- (SortedKeys_perm values). f_equal. apply Permutation_length.
  apply NoDup_Permutation; [by apply bytes_lt_NoDup|apply NoDup_SortedKeys|]. intros k. by rewrite elem_of_SortedKeys.
Qed.
Lemma mapM_outcome {A B} (f : A -> outcome B) l : forall ys, mapM f l = Ok ys -> Forall2 (fun x y => f x = Ok y) l ys.
Proof.
  induction l as [|x l IH]; intros ys; simpl; [by intros [= <-]|]. unfold mbind, outcome_bind, mret, outcome_ret.
  destruct (f x) eqn:E; [|done..]. destruct (mapM f l); [|done..]. intros [= <-]. constructor; auto.
Qed.
Record tags_ok (tags : list TagColumn) : Prop := {
  tk_names : Forall (fun tag => string_ok (tc_Name tag) /\ 0xff ∉ tc_Name tag /\ 61 ∉ tc_Name tag) tags;
  tk_values : Forall (fun tag => Forall (fun v => string_ok v /\ 0xff ∉ v) (tc_Values tag)) tags;
}.
Lemma valueAt_in tag row v : tagValueAt tag row = Ok v -> v ∈ tc_Values tag.
Proof.
  unfold tagValueAt, idx. case_bool_decide; [|done]. destruct (_ !! _) eqn:E; [|done]. intros [= <-]. by eapply list_elem_of_lookup_2.
Qed.
Lemma tagMap_lookup tags row : forall out t, tagMapFromColumns tags row out = Ok t -> NoDup (tc_Name <$> tags) ->
  (forall tag, tag ∈ tags -> exists v, tagValueAt tag row = Ok v /\ t !! tc_Name tag = Some v) /\
  (forall k, k ∉ tc_Name <$> tags -> t !! k = out !! k).
Proof.
  induction tags as [|tag tags IH]; intros out t E Hnd; simpl in E.
  { injection E as <-. split; [|done]. intros tag Hin. by apply elem_of_nil in Hin. }
  destruct (tagValueAt tag row) as [v| |] eqn:Ev; [|done..]. simpl in E. rewrite fmap_cons in Hnd. apply NoDup_cons in Hnd as [Hn Hnd].
  destruct (IH _ _ E Hnd) as [H1 H2]. split.
  - intros tag' Hin. apply elem_of_cons in Hin as [-> |Hin]; [|by apply H1]. exists v. split; [done|].
    rewrite H2 by done. apply lookup_insert_eq.
  - intros k Hk. rewrite fmap_cons, not_elem_of_cons in Hk. rewrite H2 by naive_solver. rewrite lookup_insert_ne; naive_solver.
Qed.
Lemma tagMap_total tags row : Forall (fun tag => exists v, tagValueAt tag row = Ok v) tags ->
  forall out, exists t, tagMapFromColumns tags row out = Ok t.
Proof.
  induction 1 as [|tag tags [v Ev] _ IH]; intros out; simpl; [by eexists|]. rewrite Ev. simpl. apply IH.
Qed.
Lemma tagMap_identity m tags row t : measurement_ok m -> tags_ok tags -> NoDup (tc_Name <$> tags) ->
  tagMapFromColumns tags row ∅ = Ok t -> identity_ok m t.
Proof.
  intros [Hm Hms] [Hn Hv] Hnd E. destruct (tagMap_lookup _ _ _ _ E Hnd) as [H1 H2].
  assert (K : map_Forall (fun k v => (string_ok k /\ string_ok v) /\ tag_clean k v) t).
  { intros k v Hk. destruct (decide (k ∈ tc_Name <$> tags)) as [Hin|Hout]; [|rewrite H2, lookup_empty in Hk by done; done].
    apply list_elem_of_fmap in Hin as (tag & -> & Hin). destruct (H1 _ Hin) as (v' & Ev & Et). rewrite Et in Hk. injection Hk as ->.
    rewrite Forall_forall in Hn, Hv. destruct (Hn _ Hin) as (? & ? & ?). specialize (Hv _ Hin). rewrite Forall_forall in Hv.
    destruct (Hv _ (valueAt_in _ _ _ Ev)). done. }
  split_and!; [split; [done|]| |]; [eapply map_Forall_impl; [exact K|by intros ? ? [_ ?]]|done|].
  eapply map_Forall_impl; [exact K|by intros ? ? [? _]].
Qed.
#[export] Instance nameLess_total : Total nameLess.
Proof. intros x y. unfold nameLess. apply (total bytes_le). Qed.
#[export] Instance nameLess_trans : Transitive nameLess.
Proof. intros x y z. unfold nameLess. apply transitivity. Qed.
(** The key written from the columns is the key of the row's tags. *)
Lemma keyFromColumns m tags row key : NoDup (tc_Name <$> tags) ->
  seriesKeyFromTagColumns m (sortedTagColumnOrder tags) row = Ok key ->
  exists t, tagMapFromColumns tags row ∅ = Ok t /\ key = seriesKey m t.
Proof.
  intros Hnd. unfold seriesKeyFromTagColumns. destruct (mapM _ _) as [parts| |] eqn:E; [|done..]. simpl. intros [= <-].
  apply mapM_outcome in E. pose proof (merge_sort_Permutation nameLess tags) as Hperm. fold (sortedTagColumnOrder tags) in Hperm.
  destruct (tagMap_total tags row) with (out := (∅ : gmap bytes bytes)) as [t Et].
  { rewrite <- Hperm. clear -E. induction E as [|tag part order parts Hk _ IH]; constructor; [|done].
    unfold keyPart in Hk. destruct (tagValueAt tag row); [by eexists|done..]. }
  exists t. split; [done|]. destruct (tagMap_lookup _ _ _ _ Et Hnd) as [H1 H2].
  assert (Hkeys : tc_Name <$> sortedTagColumnOrder tags = SortedKeys t).
  { apply sorted_exact.
    - apply sorted_nodup_lt; [|by rewrite Hperm]. pose proof (StronglySorted_merge_sort nameLess tags) as Hs.
      fold (sortedTagColumnOrder tags) in Hs. clear -Hs. induction Hs as [|x l _ IH Hx]; [constructor|].
      rewrite fmap_cons. constructor; [done|]. by apply Forall_fmap.
    - intros k. rewrite Hperm. split.
      + intros Hin. apply list_elem_of_fmap in Hin as (tag & -> & Hin). destruct (H1 _ Hin) as (v & _ & ?). by eexists.
      + intros [v Hv]. destruct (decide (k ∈ tc_Name <$> tags)); [done|]. by rewrite H2, lookup_empty in Hv. }
  unfold seriesKey. rewrite <- Hkeys. f_equal. f_equal.
  assert (Hord : forall tag, tag ∈ sortedTagColumnOrder tags -> exists v, tagValueAt tag row = Ok v /\ t !! tc_Name tag = Some v).
  { intros tag Hin. apply H1. by rewrite <- Hperm. }
  clear -E Hord. induction E as [|tag part order parts Hk _ IH]; simpl; [done|].
  destruct (Hord tag) as (v & Ev & Ht); [by left|]. unfold keyPart in Hk. rewrite Ev in Hk. simpl in Hk. injection Hk as <-.
  rewrite Ht. simpl. f_equal. apply IH. intros tag' Hin. apply Hord. by right.
Qed.
Lemma run_typedSeries w m tags row : measurement_ok m -> tags_ok tags -> NoDup (tc_Name <$> tags) ->
  run w (resolveSeriesFromTypedTagsLocked m tags (sortedTagColumnOrder tags) row)
    (fun r w' => exists t, tagMapFromColumns tags row ∅ = Ok t /\ series_at w' r.1 m t).
Proof.
  intros Hm Ht Hnd. pose proof (tagMap_identity m tags row) as Hid. unfold resolveSeriesFromTypedTagsLocked.
  destruct tags as [|tag [|tag2 tags]].
  - eapply run_then; [apply run_resolveSeries; [by apply (Hid ∅)|by apply cache_ok_empty]|grow|].
    intros [[s changed] cache] w1 _ _ [Hs _]. apply run_ret. intros _. by exists ∅.
  - unfold resolveSingleTagSeriesLocked. apply run_get_bind.
    eapply run_then; [apply (run_pure w _ (fun v w' => w' = w /\ tagValueAt tag row = Ok v)); auto|grow|].
    intros v w1 Hi _ [-> Ev].
    assert (Em : tagMapFromColumns [tag] row ∅ = Ok {[tc_Name tag := v]}) by (simpl; rewrite Ev; simpl; by rewrite insert_empty).
    fold (byTagLookup (index w) m (tc_Name tag) v). destruct (byTagLookup (index w) m (tc_Name tag) v) as [id|] eqn:E.
    + apply run_ret. intros _. eexists. split; [exact Em|]. by apply known_by_tag.
    + eapply run_weaken; [apply run_createSeries; [by apply Hid|by apply unknown_by_tag]|]. intros r w' _ _ Hr. by eexists.
  - apply run_get_bind. eapply run_then; [apply (run_pure w _ (fun key w' => w' = w /\
      seriesKeyFromTagColumns m (sortedTagColumnOrder (tag :: tag2 :: tags)) row = Ok key)); auto|grow|].
    intros key w1 Hi _ [-> Ek]. destruct (keyFromColumns _ _ _ _ Hnd Ek) as (t & Et & ->).
    assert (Hc : identity_clean m t) by (by apply Hid).
    destruct (ix_seriesByKey (index w) !! seriesKey m t) as [id|] eqn:E.
    + apply run_ret. intros _. exists t. split; [done|]. by apply known_by_key.
    + rewrite Et. eapply run_then; [by apply (run_pure w (Ok t) (fun t' w' => w' = w /\ t' = t)); intros ? [= <-]|grow|].
      intros t' w1 _ _ [-> ->]. eapply run_weaken; [apply run_createSeries; [by apply Hid|by apply unknown_by_key]|].
      intros r w' _ _ Hr. by exists t.
Qed.
Lemma grower_typedSeries m tags order row : grower (resolveSeriesFromTypedTagsLocked m tags order row).
Proof. unfold resolveSeriesFromTypedTagsLocked, resolveSingleTagSeriesLocked. grow. Qed.
#[local] Hint Resolve grower_typedSeries : core.
Lemma grower_typedLoop m tags order rows : grower (typedSeriesLoop m tags order rows).
Proof. induction rows; simpl; grow. Qed.
#[local] Hint Resolve grower_typedLoop : core.
Definition row_for w m (tags : list TagColumn) (row : nat) (id : Z) : Prop :=
  exists t, tagMapFromColumns tags row ∅ = Ok t /\ ix_series (index w) !! id = Some (mkSeries id m t).
Lemma row_for_grows w w' m tags row id : grows w w' -> row_for w m tags row id -> row_for w' m tags row id.
Proof. intros [Hg _] (t & ? & ?). exists t. split; [done|]. by eapply lookup_weaken. Qed.
Lemma run_typedLoop m tags rows : measurement_ok m -> tags_ok tags -> NoDup (tc_Name <$> tags) -> forall w,
  run w (typedSeriesLoop m tags (sortedTagColumnOrder tags) rows) (fun r w' => Forall2 (row_for w' m tags) rows r.1).
Proof.
  intros Hm Ht Hnd. induction rows as [|row rows IH]; intros w; simpl; [by apply run_ret|].
  eapply run_then; [by apply run_typedSeries|grow|]. intros [s changed] w1 _ _ (t & Et & Es & Hs).
  eapply run_then; [apply IH|grow|]. intros [ids changed'] w2 _ Hg HF. apply run_ret. intros _. constructor; [|done].
  apply (row_for_grows _ _ _ _ _ _ Hg). exists t. simpl in *. split; [done|]. rewrite Hs. by rewrite Es at 1.
Qed.
Definition column_for w m (column : TypedFieldColumn) (f : Field) : Prop := field_at w f m (fc_Name column) (fc_Type column).
Lemma grower_typedFields m columns : grower (resolveTypedFieldDefinitionsLocked m columns).
Proof. induction columns; simpl; grow. Qed.
#[local] Hint Resolve grower_typedFields : core.
Lemma run_typedFields m columns : measurement_ok m ->
  Forall (fun c => string_ok (fc_Name c) /\ validFieldType (fc_Type c) = true) columns -> forall w,
  run w (resolveTypedFieldDefinitionsLocked m columns) (fun r w' => Forall2 (column_for w' m) columns r.1).
Proof.
  intros [Hm Hms]. induction 1 as [|c columns [Hn Ht] _ IH]; intros w; simpl; [by apply run_ret|].
  eapply run_then; [by apply run_resolveField|grow|]. intros [f b] w1 _ _ Hf. eapply run_then; [apply IH|grow|].
  intros [fields b'] w2 _ Hg HF. apply run_ret. intros _. constructor; [|done]. by eapply field_at_grows.
Qed.

Lemma validateTypedTags_distinct rows tags : forall seen, validateTypedTags tags rows seen = Ok tt ->
  NoDup (tc_Name <$> tags) /\ forall name, name ∈ tc_Name <$> tags -> name ∉ seen.
Proof.
  induction tags as [|tag tags IH]; intros seen E; simpl in E.
  { split; [constructor|]. intros name Hn. by apply elem_of_nil in Hn. }
  case_bool_decide; [done|]. case_bool_decide as Hs; [done|]. destruct (negb _); [done|]. destruct (IH _ E) as [H1 H2].
  rewrite fmap_cons. split.
  - constructor; [|done]. intros Hin. apply (H2 _ Hin). set_solver.
  - intros name [-> |Hin]%elem_of_cons; [done|]. specialize (H2 _ Hin). set_solver.
Qed.
Lemma validateTypedFields_types rows fields : forall seen, validateTypedFields fields rows seen = Ok tt ->
  Forall (fun c => validFieldType (fc_Type c) = true) fields.
Proof.
  induction fields as [|c fields IH]; intros seen E; simpl in E; constructor.
  - case_bool_decide; [done|]. case_bool_decide; [done|]. unfold typedFieldColumnLen, validFieldType in *.
    repeat (destruct (fc_Type c =? _); simpl in *; [done|]). done.
  - do 2 (case_bool_decide; [done|]). do 2 (destruct (_ : bool) in E; [done|]). by eapply IH.
Qed.
Record typed_ok (b : TypedBatch) : Prop := {
  yk_database : string_ok (ba_Database b);
  yk_policy : string_ok (ba_RetentionPolicy b);
  yk_measurement : measurement_ok (ba_Measurement b);
  yk_tags : tags_ok (ba_Tags b);
  yk_fields : Forall (fun c => string_ok (fc_Name c)) (ba_Fields b);
}.
(** Each row has the identifier of the series of its tags, each column the one
    of its field. *)
Definition typed_for w (b : TypedBatch) (r : ResolvedTypedBatch) : Prop :=
  Forall2 (row_for w (ba_Measurement b) (ba_Tags b)) (seq 0 (length (ba_Timestamps b))) (tb_SeriesIDs r) /\
  exists defs, Forall2 (column_for w (ba_Measurement b)) (ba_Fields b) defs /\
    tb_Fields r = resolvedTypedFieldColumns defs (ba_Fields b).
Lemma run_ResolveTyped w b : typed_ok b -> ba_Timestamps b <> [] ->
  run w (ResolveTypedBatchColumns suffixes b) (fun r w' => typed_for w' b r).
Proof.
  intros Hb Hne. unfold ResolveTypedBatchColumns. cbn zeta. rewrite bool_decide_false by (by destruct (ba_Timestamps b)).
  set (rows := length (ba_Timestamps b)) in *.
  eapply run_then; [apply (run_pure w _ (fun _ w' => w' = w /\ validateTypedBatch b (Z.of_nat rows) = Ok tt)); by intros []|unfold resolveTypedSeriesIDsLocked; grow|].
  intros [] w0 _ _ [-> Hval]. unfold validateTypedBatch in Hval. case_bool_decide; [done|]. destruct (len (ba_Fields b) =? 0); [done|].
  destruct (validateTypedTags _ _ _) as [[]| |] eqn:Et; [|done..]. simpl in Hval.
  apply validateTypedTags_distinct in Et as [Hnd _]. apply validateTypedFields_types in Hval.
  eapply run_then; [apply run_ensureMetadata; apply Hb|unfold resolveTypedSeriesIDsLocked; grow|]. intros mc w1 _ _ _.
  eapply run_then; [apply run_typedFields; [apply Hb|apply Forall_and; split; [apply Hb|done]]|unfold resolveTypedSeriesIDsLocked; grow|].
  intros [defs fc] w2 _ _ Hf. simpl in Hf. unfold resolveTypedSeriesIDsLocked.
  eapply run_then; [apply run_typedLoop; [apply Hb|apply Hb|done]|grow|]. intros [ids sc] w3 _ Hg3 Hs. simpl in Hs.
  eapply run_then; [apply run_maybe_checkpoint|grow|]. intros [] w4 _ Hg4 _.
  eapply run_then; [apply run_maybe_saveMetadata|grow|]. intros [] w5 _ Hg5 _. apply run_ret. intros _.
  pose proof (transitivity Hg4 Hg5) as Hg45. pose proof (transitivity Hg3 Hg45) as Hg. split; simpl.
  - eapply Forall2_impl; [exact Hs|]. intros row id. by apply row_for_grows.
  - exists defs. split; [|done]. eapply Forall2_impl; [exact Hf|]. intros c f. by apply field_at_grows.
Qed.

(** ** Management and closing *)
Lemma run_CreateDatabase w name : string_ok name -> run w (CreateDatabase suffixes name) (fun _ _ => True).
Proof.
  intros Hn. unfold CreateDatabase. case_bool_decide; [apply run_fail|].
  eapply run_then; [apply run_modify; [done|intros Hi; split; [apply metadata_ok_database; [apply (ci_metadata _ Hi)|done]|apply (ci_metadata _ Hi)]]|grow|]. intros [] w1 _ _ _.
  eapply run_weaken; [apply run_saveMetadata|done].
Qed.
Lemma run_DropDatabase w name : run w (DropDatabase suffixes name) (fun _ _ => True).
Proof.
  unfold DropDatabase. eapply run_then; [apply run_modify; [done|]|grow|].
  { intros Hi. destruct (ci_metadata _ Hi) as [[Hd Hp] Hds]. split; [|done]. split; simpl.
    - intros d Hin. apply Hd. set_solver.
    - by apply map_Forall_delete. }
  intros [] w1 _ _ _. eapply run_weaken; [apply run_saveMetadata|done].
Qed.
Lemma run_CreateRetentionPolicy w database policy : string_ok database -> string_ok (rt_Name policy) -> is_i64 (rt_Duration policy) ->
  run w (CreateRetentionPolicy suffixes database policy) (fun _ _ => True).
Proof.
  intros Hd Hn Hi64. unfold CreateRetentionPolicy. apply run_if; intros _; [apply run_fail|].
  eapply run_then; [apply run_modify; [done|]|grow|].
  { intros Hi. destruct (ci_metadata _ Hi) as [Hmd Hds]. split; [|done]. apply metadata_ok_policies; [by apply metadata_ok_database|].
    apply map_Forall_insert_2; [done|]. by eapply policies_ok_default. }
  intros [] w1 _ _ _. eapply run_weaken; [apply run_saveMetadata|done].
Qed.
Lemma run_CloseCatalog w : run w (CloseCatalog suffixes) (fun _ _ => True).
Proof.
  unfold CloseCatalog. apply run_get_bind. apply run_if; intros _; [by apply run_ret|].
  eapply run_then; [apply run_checkpoint|grow|]. intros [] w1 _ _ _.
  eapply run_then; [apply run_quiet; by apply does_os_call|grow|]. intros [] w2 _ _ _.
  eapply run_weaken; [apply run_modify; [done|apply ci_metadata]|done].
Qed.

(** ** Downsampling *)
Inductive dsCall :=
  | DUpsert (policy : DownsamplePolicy)
  | DDrop (name : bytes)
  | DWatermark (watermark : DownsampleWatermark).
Definition dsExec (call : dsCall) : step CatWorld unit :=
  match call with
  | DUpsert policy => UpsertDownsamplePolicy suffixes policy
  | DDrop name => DropDownsamplePolicy suffixes name
  | DWatermark watermark => UpdateDownsampleWatermark suffixes watermark
  end.
Definition dsNext (call : dsCall) (d : Downsampling) : Downsampling :=
  match call with
  | DUpsert policy => mkDownsampling (<[dp_Name policy := policy]> (dn_policies d)) (dn_watermarks d)
  | DDrop name => mkDownsampling (delete name (dn_policies d)) (delete name (dn_watermarks d))
  | DWatermark watermark => mkDownsampling (dn_policies d) (<[dw_PolicyName watermark := watermark]> (dn_watermarks d))
  end.
Definition ds_ok (call : dsCall) : Prop :=
  match call with DUpsert policy => downsample_policy_ok policy | DDrop _ => True | DWatermark wm => watermark_ok wm end.
Lemma dsNext_ok call d : ds_ok call -> downsampling_ok d -> downsampling_ok (dsNext call d).
Proof.
  intros Hc [Hp Hw]. destruct call; simpl in *; split; simpl; try done; try (by apply map_Forall_delete); by apply map_Forall_insert_2.
Qed.
(** The files after an attempt to write the downsampling file. *)
Abbreviation withDs d w := (mkCatWorld (withDownsampling d (cw_cat w)) (cw_disk w)).
Definition sameBut F d F' : Prop := replaced F downsampleFile (encodeDownsampleMetadata d) F'.
Lemma replace_ds w (msg : string) : ct_dir (cw_cat w) = dir ->
  let d := ct_downsampling (cw_cat w) in
  match wrap_step msg (catDisk (WriteFileAtomic suffixes (downsamplePath (cw_cat w)) (encodeDownsampleMetadata d))) w with
  | (Ok _, w') => cw_cat w' = cw_cat w /\ files w' !! downsampleFile = Some (encodeDownsampleMetadata d) /\ sameBut (files w) d (files w')
  | (Err _, w') => cw_cat w' = cw_cat w /\ sameBut (files w) d (files w')
  | (Panic _, _) => False
  end.
Proof.
  intros Hdir d. unfold downsamplePath. rewrite Hdir. fold downsampleFile. unfold wrap_step, catDisk. destruct w as [c [F fs]]. simpl.
  pose proof (does_replace F downsampleFile (encodeDownsampleMetadata d) ltac:(unfold catalog_file; auto) fs) as H.
  destruct (WriteFileAtomic _ _ _ _) as [[?|?|?] d']; simpl in *; [|done..]. destruct H. done.
Qed.
Lemma same_world w c d' : cw_cat w = c -> cw_disk w = d' -> w = mkCatWorld c d'.
Proof. destruct w. simpl. by intros -> ->. Qed.
(** What a call leaves: on success the new state in memory and on disk, on
    failure the old one in memory. *)
Definition ds_outcome call w (r : outcome unit * CatWorld) : Prop :=
  let d := ct_downsampling (cw_cat w) in let d' := dsNext call d in
  match r with
  | (Ok _, w') => cw_cat w' = withDownsampling d' (cw_cat w) /\ sameBut (files w) d' (files w') /\
      files w' !! downsampleFile = Some (encodeDownsampleMetadata d') /\ len (encodeDownsampleMetadata d') <= maxInt
  | (Err _, w') => cw_cat w' = cw_cat w /\ len (encodeDownsampleMetadata d') <= maxInt /\ len (encodeDownsampleMetadata d) <= maxInt /\
      exists F1, sameBut (files w) d' F1 /\ sameBut F1 d (files w')
  | (Panic _, w') => (maxAlloc < len (encodeDownsampleMetadata d') /\ files w' = files w /\ cw_cat w' = withDownsampling d' (cw_cat w)) \/
      (maxAlloc < len (encodeDownsampleMetadata d) /\ cw_cat w' = cw_cat w /\ len (encodeDownsampleMetadata d') <= maxInt /\
       sameBut (files w) d' (files w'))
  end.
(** The shape that the three operations share. *)
Definition commit (d' d : Downsampling) : step CatWorld unit :=
  catModify (withDownsampling d') ;;
  r ← try_step (saveDownsampleMetadataLocked suffixes);
  match r with
  | inr _ => mret tt
  | inl err => catModify (withDownsampling d) ;; restoreDownsampleMetadataAfterErrorLocked suffixes err
  end.
Lemma save_keeps w : cw_cat (saveDownsampleMetadataLocked suffixes w).2 = cw_cat w.
Proof.
  unfold saveDownsampleMetadataLocked, catGet, allocated, mbind, step_bind. destruct (_ <? _); [done|].
  unfold wrap_step, catDisk, mret, step_ret. by destruct (WriteFileAtomic _ _ _ _).
Qed.
Lemma putBack_insert {V} (m : gmap bytes V) name x : putBack name (m !! name) (<[name := x]> m) = m.
Proof.
  unfold putBack. destruct (m !! name) eqn:E; [by rewrite insert_insert_eq, insert_id|by apply delete_insert_id].
Qed.
Lemma dsExec_commit call w : dsExec call w = commit (dsNext call (ct_downsampling (cw_cat w))) (ct_downsampling (cw_cat w)) w.
Proof.
  unfold commit, mbind, step_bind, catModify, try_step. set (d := ct_downsampling (cw_cat w)).
  pose proof (save_keeps (withDs (dsNext call d) w)) as Hcat.
  destruct call as [policy|name|watermark]; cbn [dsExec];
    unfold UpsertDownsamplePolicy, DropDownsamplePolicy, UpdateDownsampleWatermark, setPolicies, setWatermarks, catGet, catModify,
      try_step, mbind, step_bind, cloneDownsamplePolicy; cbn [cw_cat cw_disk ct_downsampling withDownsampling]; fold d;
    cbn [dsNext dn_policies dn_watermarks] in Hcat |- *.
  - destruct (saveDownsampleMetadataLocked suffixes _) as [[[]|e|p] w1]; [done| |done]. simpl in Hcat. rewrite Hcat. simpl.
    rewrite putBack_insert. by destruct d.
  - destruct (saveDownsampleMetadataLocked suffixes _) as [[[]|e|p] w1]; [done| |done]. simpl in Hcat. rewrite Hcat. simpl.
    destruct (dn_policies d !! name) as [p|] eqn:Ep; destruct (dn_watermarks d !! name) as [wm|] eqn:Ew;
      cbn [cw_cat cw_disk withDownsampling ct_downsampling dn_policies dn_watermarks mret step_ret]; rewrite ?Hcat; simpl;
      rewrite ?(insert_delete_id _ _ _ Ep), ?(insert_delete_id _ _ _ Ew), ?(delete_id _ _ Ep), ?(delete_id _ _ Ew);
      first [by destruct d|destruct w1; simpl in *; subst; rewrite ?(delete_id _ _ Ep), ?(delete_id _ _ Ew); by destruct d].
  - destruct (saveDownsampleMetadataLocked suffixes _) as [[[]|e|p] w1]; [done| |done]. simpl in Hcat. rewrite Hcat. simpl.
    rewrite putBack_insert. by destruct d.
Qed.
Lemma withDownsampling_id c d' : withDownsampling (ct_downsampling c) (withDownsampling d' c) = c.
Proof. by destruct c. Qed.
Lemma dsExec_outcome call w : ct_dir (cw_cat w) = dir -> ds_outcome call w (dsExec call w).
Proof.
  intros Hdir. rewrite dsExec_commit. unfold ds_outcome. cbn zeta. set (d := ct_downsampling (cw_cat w)). set (d' := dsNext call d).
  unfold commit, mbind, step_bind, catModify, try_step at 1, saveDownsampleMetadataLocked, catGet, allocated, mbind, step_bind.
  cbn [id cw_cat cw_disk withDownsampling ct_downsampling].
  destruct (Z.ltb_spec maxAlloc (len (encodeDownsampleMetadata d'))) as [Hb|Hb]; [by left|].
  pose proof (replace_ds (withDs d' w) "write downsample metadata" Hdir) as H1. cbn zeta in H1. cbn [cw_cat withDownsampling ct_downsampling cw_disk] in H1.
  unfold mret at 1, step_ret at 1.
  assert (Hl : len (encodeDownsampleMetadata d') <= maxInt) by (unfold maxAlloc, maxInt in *; lia).
  destruct (wrap_step "write downsample metadata" _ (withDs d' w)) as [[[]|e|p] w2]; [|destruct H1 as [Hc2 Hs2]|done].
  { destruct H1 as (? & ? & ?). done. }
  assert (Ew3 : cw_cat (withDs d w2) = cw_cat w) by (simpl; rewrite Hc2; apply withDownsampling_id).
  unfold restoreDownsampleMetadataAfterErrorLocked, catGet, allocated, try_step, mbind, step_bind. cbn [id]. rewrite Ew3. fold d.
  destruct (Z.ltb_spec maxAlloc (len (encodeDownsampleMetadata d))) as [Hb3|Hb3]; [by right|].
  assert (Hl3 : len (encodeDownsampleMetadata d) <= maxInt) by (unfold maxAlloc, maxInt in *; lia).
  pose proof (replace_ds (withDs d w2) "restore downsample metadata" ltac:(by rewrite Ew3)) as H3. cbn zeta in H3. rewrite Ew3 in H3. fold d in H3.
  unfold mret at 1, step_ret at 1.
  destruct (wrap_step "restore downsample metadata" _ (withDs d w2)) as [[[]|e'|p] w4]; [destruct H3 as (Hc4 & _ & Hs4)|destruct H3 as [Hc4 Hs4]|done];
    (split; [done|]; split; [done|]; split; [done|]; by exists (files w2)).
Qed.
Lemma files_ok_downsample F F' S P d : files_ok F S P -> downsampling_ok d -> len (encodeDownsampleMetadata d) <= maxInt ->
  sameBut F d F' -> files_ok F' S P.
Proof.
  intros Hf Hd Hl [Hm Ho].
  assert (Es : F' !! snapshotFile = F !! snapshotFile) by (apply Ho; [unfold catalog_file; auto|files_ne]).
  assert (Ew : F' !! walFile = F !! walFile) by (apply Ho; [unfold catalog_file; auto|files_ne]).
  assert (Em : F' !! metadataFile = F !! metadataFile) by (apply Ho; [unfold catalog_file; auto|files_ne]).
  destruct Hm as [Ed|Ed]; [by eapply files_ok_same|]. destruct Hf as (snap & logged & H1 & H2 & H3 & H4).
  exists snap, logged. unfold snapshot_file, log_file, metadata_file in *. rewrite Es, Ew, Em, Ed. do 2 (split; [done|]).
  split; [split; [apply H3|]|done]. exists d. split; [|done]. by apply decodeDownsample_encode.
Qed.
Lemma run_ds w call : ds_ok call -> run w (dsExec call) (fun _ _ => True).
Proof.
  intros Hc Hi. pose proof (dsExec_outcome call w (ci_dir _ Hi)) as H. pose proof Hi as [Hdir Hg Hf [Hmd Hds]].
  pose proof (dsNext_ok call _ Hc Hds) as Hds'. unfold ds_outcome in H. cbn zeta in H.
  destruct (dsExec call w) as [[[]|e|p] w']; right.
  - destruct H as (E & Hs & _ & Hl). unfold grows. rewrite E. split; [|done]. split; rewrite ?E; try done. by eapply files_ok_downsample.
  - destruct H as (E & Hl' & Hl & F1 & Hs1 & Hs2). right. unfold grows. rewrite E. split; [|done]. split; rewrite ?E; try done.
    eapply files_ok_downsample; [eapply files_ok_downsample; [exact Hf|exact Hds'|exact Hl'|exact Hs1]|exact Hds|exact Hl|exact Hs2].
  - destruct H as [(_ & Ef & E)|(_ & E & Hl & Hs)]; unfold grows; rewrite E; (split; [|done]); split; rewrite ?E, ?Ef; try done.
    by eapply files_ok_downsample.
Qed.
(** ** Opening *)
Lemma readOptional_clear what path F : readOptional what path (mkDisk F []) = (Ok (F !! path), mkDisk F []).
Proof.
  unfold readOptional, ReadFile, wrapped, before, os_ReadFile, os_call, draw, check, try_step, get_step, mbind, step_bind, mret, step_ret.
  simpl. by destruct (F !! path).
Qed.
Lemma foldl_applied (snap : snapshot) ix :
  foldl (fun ix f => catApplyField f ix) (foldl (fun ix s => applySeries s ix) ix (sn_Series snap)) (sn_Fields snap)
  = foldl (fun ix e => applyEntry e ix) ix (map SeriesEntry (sn_Series snap) ++ map FieldEntry (sn_Fields snap)).
Proof.
  rewrite foldl_app. revert ix. induction (sn_Series snap) as [|s l IH]; intros ix; simpl; [|apply IH].
  revert ix. induction (sn_Fields snap) as [|f l IH]; intros ix; simpl; [done|apply IH].
Qed.
Lemma loadSnapshot_clear F snap : snapshot_file F snap ->
  loadSnapshot snapshotFile (mkDisk F []) =
  (Ok (foldl (fun ix e => applyEntry e ix)
        (mkIndex (Z.max (sn_NextSeriesID snap) 1) (Z.max (sn_NextFieldID snap) 1) ∅ ∅ ∅ ∅ ∅ ∅ ∅)
        (map SeriesEntry (sn_Series snap) ++ map FieldEntry (sn_Fields snap))), mkDisk F []).
Proof.
  intros Hs. unfold loadSnapshot, mbind, step_bind. rewrite readOptional_clear. unfold snapshot_file in Hs.
  destruct (F !! snapshotFile) as [data|]; [|by subst]. destruct Hs as (-> & Hok & Hl).
  unfold wrap_step, pure_step. rewrite decodeSnapshot_encode by done. cbn [wrapErr]. unfold mret, step_ret. by rewrite foldl_applied.
Qed.
Lemma replayWAL_clear F logged ix : log_file F logged ->
  replayWAL walFile ix (mkDisk F []) = (Ok (foldl (fun ix e => applyEntry e ix) ix logged, len logged), mkDisk F []).
Proof.
  intros [Hd Hok]. unfold replayWAL, mbind, step_bind. rewrite readOptional_clear. destruct (F !! walFile) as [data|]; cbn [default] in Hd.
  - simpl in Hd. subst data. unfold pure_step. rewrite replayRecords_frames by (done || lia). done.
  - destruct logged as [|e logged]; [done|]. cbn [map concat] in Hd. simpl default in Hd.
    destruct (walFrame e) eqn:E; [by apply walFrame_nonempty in E|done].
Qed.
Lemma loadMetadata_clear F : metadata_file F ->
  exists databases policies, loadMetadata metadataFile (mkDisk F []) = (Ok (databases, policies), mkDisk F []) /\
    metadata_ok databases policies.
Proof.
  intros [Hm _]. unfold loadMetadata, mbind, step_bind. rewrite readOptional_clear.
  destruct (F !! metadataFile) as [data|].
  - destruct Hm as ([databases policies] & Hd & Hok). exists databases, policies. split; [|done].
    unfold wrap_step, pure_step. by rewrite Hd.
  - exists ∅, ∅. split; [done|]. split; [intros d Hd; set_solver|]. intros k p Hk. by rewrite lookup_empty in Hk.
Qed.
Lemma loadDownsample_clear F : metadata_file F ->
  exists d, loadDownsampleMetadata downsampleFile (mkDisk F []) = (Ok d, mkDisk F []) /\ downsampling_ok d /\
    forall data, F !! downsampleFile = Some data -> decodeDownsampleMetadata data = Ok d.
Proof.
  intros [_ Hm]. unfold loadDownsampleMetadata, mbind, step_bind. rewrite readOptional_clear.
  destruct (F !! downsampleFile) as [data|].
  - destruct Hm as (d & Hd & Hok). exists d. split; [|split; [done|by intros ? [= <-]]]. unfold wrap_step, pure_step. by rewrite Hd.
  - exists (mkDownsampling ∅ ∅). split; [done|]. split; [|done]. split; simpl; intros k p Hk; by rewrite lookup_empty in Hk.
Qed.
(** Opening a directory that holds a catalog succeeds and gives its series and
    fields back. *)
Lemma OpenCatalog_clear F T limits : good T -> files_ok F (ix_series T) (ix_fields T) ->
  exists c F', OpenCatalog dir limits (mkDisk F []) = (Ok c, mkDisk F' []) /\
    ix_series (ct_index c) = ix_series T /\ ix_fields (ct_index c) = ix_fields T /\
    (forall data, F !! downsampleFile = Some data -> decodeDownsampleMetadata data = Ok (ct_downsampling c)) /\
    forall faults, cat_inv (mkCatWorld c (mkDisk F' faults)).
Proof.
  intros HT Hf. pose proof Hf as (snap & logged & H1 & H2 & H3 & H4 & H5 & H6).
  destruct (loadMetadata_clear F H3) as (databases & policies & Em & Hmd). destruct (loadDownsample_clear F H3) as (d & Ed & Hds & Hdf).
  pose proof (reload_good T (allEntries snap logged) (Z.max (sn_NextSeriesID snap) 1) (Z.max (sn_NextFieldID snap) 1)) as R.
  destruct R as (Hg & Es & Ep); [done|exact H4|lia|lia|]. unfold allEntries in Hg, Es, Ep. rewrite app_assoc, foldl_app in Hg, Es, Ep.
  eexists _, (<[walFile := default [] (F !! walFile)]> F). split.
  { unfold OpenCatalog, mbind, step_bind. change (MkdirAll dir (mkDisk F [])) with (Ok tt, mkDisk F []). cbv iota beta zeta.
    change (snapshotPath (newCatalog dir limits)) with snapshotFile. change (walPath (newCatalog dir limits)) with walFile.
    change (metadataPath (newCatalog dir limits)) with metadataFile. change (downsamplePath (newCatalog dir limits)) with downsampleFile.
    rewrite (loadSnapshot_clear F snap H1). cbv iota beta. rewrite (replayWAL_clear F logged _ H2). cbv iota beta. rewrite Em. cbv iota beta.
    rewrite Ed. cbv iota beta. reflexivity. }
  cbn [ct_index ct_downsampling]. split; [exact Es|]. split; [exact Ep|]. split; [done|]. intros faults.
  split; cbn [cw_cat cw_disk ct_dir ct_index ct_databases ct_policies dk_files]; [done|exact Hg| |done].
  rewrite Es, Ep. exists snap, logged.
  unfold snapshot_file, log_file, metadata_file in *. rewrite lookup_insert_eq, !lookup_insert_ne by files_ne.
  split; [done|]. split; [exact H2|]. split; [done|]. done.
Qed.

(** ** Histories *)
(** What an answer tells a client. *)
Inductive assigned :=
  | SeriesHasID (measurement : bytes) (tags : gmap bytes bytes) (id : Z)
  | FieldHasID (measurement name : bytes) (type id : Z).
Inductive catCall :=
  | CResolve (p : Point)
  | CResolveBatch (points : list Point)
  | CResolveTyped (b : TypedBatch)
  | CCreateDatabase (name : bytes)
  | CDropDatabase (name : bytes)
  | CCreatePolicy (database : bytes) (policy : RetentionPolicy)
  | CDownsample (call : dsCall)
  | CClose.
Definition call_ok (call : catCall) : Prop :=
  match call with
  | CResolve p => point_ok p
  | CResolveBatch points => Forall point_ok points
  | CResolveTyped b => typed_ok b
  | CCreateDatabase name => string_ok name
  | CCreatePolicy database policy => string_ok database /\ string_ok (rt_Name policy) /\ is_i64 (rt_Duration policy)
  | CDownsample call => ds_ok call
  | CDropDatabase _ | CClose => True
  end.
Definition pointAnswers (p : Point) (r : ResolvedPoint) : list assigned :=
  SeriesHasID (po_Measurement p) (po_Tags p) (rp_SeriesID r) ::
  map (fun f => FieldHasID (po_Measurement p) (rf_FieldName f) (rf_Type f) (rf_FieldID f)) (rp_Fields r).
Definition rowAnswer (b : TypedBatch) (row : nat) (id : Z) : list assigned :=
  match tagMapFromColumns (ba_Tags b) row ∅ with Ok t => [SeriesHasID (ba_Measurement b) t id] | _ => [] end.
Definition typedAnswers (b : TypedBatch) (r : ResolvedTypedBatch) : list assigned :=
  concat (zip_with (rowAnswer b) (seq 0 (length (ba_Timestamps b))) (tb_SeriesIDs r)) ++
  zip_with (fun c f => FieldHasID (ba_Measurement b) (fc_Name c) (fc_Type c) (tf_FieldID f)) (ba_Fields b) (tb_Fields r).
Definition exec (call : catCall) : step CatWorld (list assigned) :=
  match call with
  | CResolve p => r ← ResolvePoint suffixes p; mret (pointAnswers p r)
  | CResolveBatch points => out ← ResolvePoints suffixes points; mret (concat (zip_with pointAnswers points out))
  | CResolveTyped b => r ← ResolveTypedBatchColumns suffixes b; mret (typedAnswers b r)
  | CCreateDatabase name => CreateDatabase suffixes name ;; mret []
  | CDropDatabase name => DropDatabase suffixes name ;; mret []
  | CCreatePolicy database policy => CreateRetentionPolicy suffixes database policy ;; mret []
  | CDownsample call => dsExec call ;; mret []
  | CClose => CloseCatalog suffixes ;; mret []
  end.
Definition answers (r : outcome (list assigned)) : list assigned := match r with Ok l => l | _ => [] end.
(** Histories of a catalog in a directory that held none: calls with any faults
    of the disk, the process stopping between calls, and restarts.  No call
    reported that an append to the log failed. *)
Inductive history : list assigned -> CatWorld -> Prop :=
  | HistoryNew limits F faults c d :
      F !! snapshotFile = None -> F !! walFile = None -> F !! metadataFile = None -> F !! downsampleFile = None ->
      OpenCatalog dir limits (mkDisk F []) = (Ok c, d) -> history [] (mkCatWorld c (mkDisk (dk_files d) faults))
  | HistoryCall log w call r w' :
      history log w -> call_ok call -> exec call w = (r, w') -> (forall e, r = Err e -> isWalError e = false) -> ~ big w' ->
      history (answers r ++ log) w'
  | HistoryRestart log w limits faults c d :
      history log w -> OpenCatalog dir limits (mkDisk (files w) []) = (Ok c, d) ->
      history log (mkCatWorld c (mkDisk (dk_files d) faults)).

Definition known w (a : assigned) : Prop :=
  match a with
  | SeriesHasID m tags id => ix_series (index w) !! id = Some (mkSeries id m tags)
  | FieldHasID m name t id => ix_fields (index w) !! id = Some (mkField id m name t)
  end.
Lemma known_grows w w' a : grows w w' -> known w a -> known w' a.
Proof. intros [? ?]. destruct a; simpl; intros; by eapply lookup_weaken. Qed.
Lemma known_point w p r : point_for w p r -> Forall (known w) (pointAnswers p r).
Proof.
  intros (_ & Hs & _ & Hf). constructor; [done|]. apply Forall_fmap. eapply Forall_impl; [exact Hf|]. by intros f (_ & _ & ?).
Qed.
Lemma known_points w points out : Forall2 (point_for w) points out ->
  Forall (known w) (concat (zip_with pointAnswers points out)).
Proof. induction 1; cbn [zip_with concat]; [constructor|]. apply Forall_app. split; [by apply known_point|done]. Qed.
Lemma known_typed w b r : typed_for w b r -> Forall (known w) (typedAnswers b r).
Proof.
  intros [Hr (defs & Hf & E)]. unfold typedAnswers. rewrite E. apply Forall_app. split.
  - revert Hr. generalize (tb_SeriesIDs r). generalize (seq 0 (length (ba_Timestamps b))). induction 1 as [|row id rows ids Hrow _ IH]; cbn [zip_with concat]; [constructor|].
    apply Forall_app. split; [|done]. destruct Hrow as (t & Et & Hs). unfold rowAnswer. rewrite Et. by constructor.
  - clear E. unfold resolvedTypedFieldColumns. revert Hf. generalize (ba_Fields b). induction 1 as [|c f columns fs [Ec Hf] _ IH]; simpl; [constructor|].
    constructor; [|done]. simpl. rewrite Hf. by rewrite Ec at 1.
Qed.
Lemma run_exec w call : call_ok call -> run w (exec call) (fun l w' => Forall (known w') l).
Proof.
  destruct call as [p|points|b|name|name|database policy|call|]; simpl; intros Hc.
  - eapply run_then; [by apply run_ResolvePoint|grow|]. intros r w1 _ _ Hr. apply run_ret. intros _. by apply known_point.
  - eapply run_then; [by apply run_ResolvePoints|grow|]. intros out w1 _ _ Hr. apply run_ret. intros _. by apply known_points.
  - destruct (decide (ba_Timestamps b = [])) as [E|E].
    { unfold ResolveTypedBatchColumns. rewrite E. cbn zeta. rewrite bool_decide_true by done. apply run_ret. intros _.
      unfold typedAnswers. rewrite E. simpl. by destruct (ba_Fields b). }
    eapply run_then; [by apply run_ResolveTyped|grow|]. intros r w1 _ _ Hr. apply run_ret. intros _. by apply known_typed.
  - eapply run_then; [by apply run_CreateDatabase|grow|]. intros [] w1 _ _ _. by apply run_ret.
  - eapply run_then; [by apply run_DropDatabase|grow|]. intros [] w1 _ _ _. by apply run_ret.
  - destruct Hc as (? & ? & ?). eapply run_then; [by apply run_CreateRetentionPolicy|grow|]. intros [] w1 _ _ _. by apply run_ret.
  - eapply run_then; [by apply run_ds|grow|]. intros [] w1 _ _ _. by apply run_ret.
  - eapply run_then; [by apply run_CloseCatalog|grow|]. intros [] w1 _ _ _. by apply run_ret.
Qed.
Lemma good_empty : good emptyIndex.
Proof.
  split; unfold emptyIndex, maxSeries, maxFields; simpl; rewrite ?map_size_empty; try (split; lia).
  - by apply index_ok_empty.
  - intros k s Hk. by rewrite lookup_empty in Hk.
  - intros k s Hk. by rewrite lookup_empty in Hk.
Qed.
Lemma files_ok_empty F : F !! snapshotFile = None -> F !! walFile = None -> F !! metadataFile = None ->
  F !! downsampleFile = None -> files_ok F ∅ ∅.
Proof.
  intros E1 E2 E3 E4. exists (mkSnapshot 0 0 [] []), []. unfold snapshot_file, log_file, metadata_file. rewrite E1, E2, E3, E4.
  split; [done|]. split; [by split|]. split; [done|]. split; [|simpl; rewrite !map_size_empty; lia].
  intros e. simpl. rewrite elem_of_nil. split; [|done]. destruct e; simpl; by rewrite lookup_empty.
Qed.
Lemma history_inv log w : history log w -> cat_inv w /\ Forall (known w) log.
Proof.
  induction 1 as [limits F faults c d E1 E2 E3 E4 Ho|log w call r w' _ [Hi Hk] Hc He Hr Hb|log w limits faults c d _ [Hi Hk] Ho].
  - destruct (OpenCatalog_clear F emptyIndex limits good_empty) as (c' & F' & Ho' & _ & _ & _ & Hi); [by apply files_ok_empty|].
    rewrite Ho in Ho'. injection Ho' as -> ->. split; [apply Hi|constructor].
  - pose proof (run_exec w call Hc Hi) as H. rewrite He in H. destruct H as [?|H]; [done|].
    destruct r as [l|e|p]; simpl.
    + destruct H as (Hi' & Hg & Hl). split; [done|]. apply Forall_app. split; [done|].
      eapply Forall_impl; [exact Hk|]. intros a. by apply known_grows.
    + specialize (Hr e eq_refl). destruct H as [H|[Hi' Hg]]; [congruence|]. split; [done|].
      eapply Forall_impl; [exact Hk|]. intros a. by apply known_grows.
    + destruct H as [Hi' Hg]. split; [done|]. eapply Forall_impl; [exact Hk|]. intros a. by apply known_grows.
  - destruct (OpenCatalog_clear (files w) (index w) limits) as (c' & F' & Ho' & Es & Ep & _ & Hi'); [apply Hi|apply Hi|].
    rewrite Ho in Ho'. injection Ho' as -> ->. split; [apply Hi'|]. eapply Forall_impl; [exact Hk|].
    intros a. destruct a; simpl; by rewrite ?Es, ?Ep.
Qed.
Lemma ids_stable log w : history log w ->
  (forall m t id m' t' id', SeriesHasID m t id ∈ log -> SeriesHasID m' t' id' ∈ log -> (id = id' <-> m = m' /\ t = t')) /\
  (forall m n t id m' n' t' id', FieldHasID m n t id ∈ log -> FieldHasID m' n' t' id' ∈ log ->
     (id = id' <-> m = m' /\ n = n') /\ (id = id' -> t = t')).
Proof.
  intros H. apply history_inv in H as [Hi Hk]. rewrite Forall_forall in Hk. split.
  - intros m t id m' t' id' H1%Hk H2%Hk. simpl in H1, H2. split; [intros <-; rewrite H1 in H2; by injection H2|].
    intros [-> ->]. eapply (series_unique (index w)); [apply Hi|exact H1|exact H2|done|done].
  - intros m n t id m' n' t' id' H1%Hk H2%Hk. simpl in H1, H2. split; [|intros <-; rewrite H1 in H2; by injection H2].
    split; [intros <-; rewrite H1 in H2; by injection H2|].
    intros [-> ->]. eapply (field_unique (index w)); [apply Hi|exact H1|exact H2|done|done].
Qed.
End catalog.

(** ** Theorems *)
(** C6: over every history of resolved points, batches, typed batches, management calls,
    faults of the disk, restarts and stops without closing in which no append to the
    log failed, two answers of the catalog carry the same series identifier exactly
    when they are about the same measurement and tags, the same field identifier
    exactly when they are about the same field, and a field keeps its type; names
    contain no separator byte. *)
Theorem catalog_ids_stable suffixes dir log w : history suffixes dir log w ->
  (forall m t id m' t' id', SeriesHasID m t id ∈ log -> SeriesHasID m' t' id' ∈ log -> (id = id' <-> m = m' /\ t = t')) /\
  (forall m n t id m' n' t' id', FieldHasID m n t id ∈ log -> FieldHasID m' n' t' id' ∈ log ->
     (id = id' <-> m = m' /\ n = n') /\ (id = id' -> t = t')).
Proof. apply ids_stable. Qed.



(** C38: changing a downsampling policy or a watermark is all or nothing for whatever
    calls of the file system fail: on success the new state is in memory and a restart
    finds it; on failure the catalog is as before, and the file holds what it held,
    the old state or the new one, nothing else. *)
Theorem downsample_update_atomic suffixes dir log w call : history suffixes dir log w -> ds_ok call ->
  let d := ct_downsampling (cw_cat w) in
  let d' := dsNext call d in
  let file := fun w => dk_files (cw_disk w) !! downsampleFile dir in
  match dsExec suffixes call w with
  | (Ok _, w') => ct_downsampling (cw_cat w') = d' /\ forall limits, exists c disk,
      OpenCatalog dir limits (mkDisk (dk_files (cw_disk w')) []) = (Ok c, disk) /\ ct_downsampling c = d'
  | (Err _, w') => cw_cat w' = cw_cat w /\
      (file w' = file w \/ file w' = Some (encodeDownsampleMetadata d) \/ file w' = Some (encodeDownsampleMetadata d'))
  | (Panic _, _) => maxAlloc < len (encodeDownsampleMetadata d') \/ maxAlloc < len (encodeDownsampleMetadata d)
  end.
Proof.
  intros H Hc d d' file. apply history_inv in H as [Hi _].
  pose proof (dsExec_outcome suffixes dir call w (ci_dir _ _ Hi)) as Ho. pose proof (run_ds suffixes dir w call Hc Hi) as R.
  unfold ds_outcome in Ho. cbn zeta in Ho. fold d d' in Ho. destruct (dsExec suffixes call w) as [[[]|e|p] w'].
  - destruct Ho as (Ec & _ & Ef & Hl). rewrite Ec. split; [done|]. intros limits.
    destruct R as [Hb|(Hi' & _)]; [exfalso; unfold big in Hb; rewrite Ec in Hb; destruct (g_small _ (ci_index _ _ Hi)); simpl in Hb; lia|].
    destruct (OpenCatalog_clear dir _ (ct_index (cw_cat w')) limits (ci_index _ _ Hi') (ci_files _ _ Hi')) as (c & F' & Eo & _ & _ & Hd & _).
    exists c, (mkDisk F' []). split; [done|]. specialize (Hd _ Ef).
    rewrite decodeDownsample_encode in Hd; [by injection Hd|apply dsNext_ok; [done|apply (ci_metadata _ _ Hi)]|done].
  - destruct Ho as (Ec & _ & _ & F1 & [H1 _] & [H2 _]). split; [done|]. unfold file. fold d d' in H1, H2.
    destruct H2 as [E2|E2]; [|by right; left]. destruct H1 as [E1|E1]; [left; congruence|right; right; congruence].
  - destruct Ho as [[? _]|[? _]]; auto.
Qed.

(** ** A concrete catalog *)
Definition ex_catdir : bytes := str "/data/catalog".
Definition ex_suffixes (_ : gmap bytes bytes) : bytes := str "1".
Definition ex_point (tags : gmap bytes bytes) (value : FieldValue) : Point :=
  mkPoint (str "db") (str "rp") (str "cpu") tags 7 {[ str "v" := value ]}.
Definition ex_tags1 : gmap bytes bytes := {[ str "host" := str "a" ]}.
Definition ex_tags2 : gmap bytes bytes := {[ str "host" := str "a"; str "zone" := str "z" ]}.
Definition ex_p1 : Point := ex_point ex_tags1 (Float64Value 0).
Definition ex_p2 : Point := ex_point ex_tags2 (Float64Value 1).
Definition noLimits : Limits := mkLimits 0 0 0.
Definition got {A} (d : A) (r : outcome A) : A := match r with Ok a => a | _ => d end.
Definition succeeded {A} (r : outcome A) : bool := match r with Ok _ => true | _ => false end.
Lemma got_pair {A S} (d : A) (r : outcome A * S) : succeeded r.1 = true -> r = (Ok (got d r.1), r.2).
Proof. destruct r as [[| |] ?]; done. Qed.
(** A catalog opened on files, and what a call leaves. *)
Definition openedWith (limits : Limits) (F : gmap bytes bytes) (faults : list (option Fault)) : CatWorld :=
  let r := OpenCatalog ex_catdir limits (mkDisk F []) in
  mkCatWorld (got (newCatalog [] limits) r.1) (mkDisk (dk_files r.2) faults).
Definition opened : gmap bytes bytes -> list (option Fault) -> CatWorld := openedWith noLimits.
Definition resolved (p : Point) (w : CatWorld) : outcome ResolvedPoint * CatWorld := ResolvePoint ex_suffixes p w.
Definition ran (call : catCall) (w : CatWorld) : CatWorld := (exec ex_suffixes call w).2.
Definition small w : bool :=
  (Z.of_nat (size (ix_series (ct_index (cw_cat w)))) <=? maxSeries) && (Z.of_nat (size (ix_fields (ct_index (cw_cat w)))) <=? maxFields).
Lemma small_spec w : small w = true -> ~ big w.
Proof. unfold small, big. rewrite andb_true_iff, !Z.leb_le. lia. Qed.
Lemma ex_history_new faults : history ex_suffixes ex_catdir [] (opened ∅ faults).
Proof.
  apply (HistoryNew _ _ noLimits ∅); [done..|]. apply got_pair. vm_compute. reflexivity.
Qed.
Lemma ex_history_call log w call : history ex_suffixes ex_catdir log w -> call_ok call ->
  succeeded (exec ex_suffixes call w).1 = true -> small (ran call w) = true ->
  history ex_suffixes ex_catdir (answers (exec ex_suffixes call w).1 ++ log) (ran call w).
Proof.
  intros H Hc Hs Hb. eapply (HistoryCall _ _ log w call); [done|done|apply surjective_pairing| |by apply small_spec].
  intros e E. by rewrite E in Hs.
Qed.
Lemma ex_history_restart log w faults : history ex_suffixes ex_catdir log w ->
  succeeded (OpenCatalog ex_catdir noLimits (mkDisk (dk_files (cw_disk w)) [])).1 = true ->
  history ex_suffixes ex_catdir log (opened (dk_files (cw_disk w)) faults).
Proof. intros H Hs. eapply (HistoryRestart _ _ log w noLimits); [done|]. by apply got_pair. Qed.

Lemma ex_catpoints_ok : point_ok ex_p1 /\ point_ok ex_p2.
Proof. split; split; by_decide. Qed.
(** A batch, a restart without closing, and one of the points again. *)
Definition ex_w1 : CatWorld := ran (CResolveBatch [ex_p1; ex_p2]) (opened ∅ []).
Definition ex_w2 : CatWorld := opened (dk_files (cw_disk ex_w1)) [].
Definition ex_w3 : CatWorld := ran (CResolve ex_p2) ex_w2.
Definition ex_log1 : list assigned := answers (exec ex_suffixes (CResolveBatch [ex_p1; ex_p2]) (opened ∅ [])).1.
Definition ex_log3 : list assigned := answers (exec ex_suffixes (CResolve ex_p2) ex_w2).1 ++ ex_log1.
Lemma ex_history1 : history ex_suffixes ex_catdir ex_log1 ex_w1.
Proof.
  unfold ex_log1. rewrite <- (app_nil_r (answers _)). apply ex_history_call; [apply ex_history_new| |by vm_compute|by vm_compute].
  simpl. destruct ex_catpoints_ok. repeat (constructor; [done|]). constructor.
Qed.
Lemma ex_history3 : history ex_suffixes ex_catdir ex_log3 ex_w3.
Proof.
  unfold ex_log3. apply ex_history_call; [|apply ex_catpoints_ok|by vm_compute|by vm_compute].
  apply ex_history_restart; [apply ex_history1|by vm_compute].
Qed.
#[local] Instance assigned_eq_dec : EqDecision assigned.
Proof. solve_decision. Defined.
(** The second point gets its identifier back after the restart. *)
Lemma catalog_ids_stable_witness :
  SeriesHasID (str "cpu") ex_tags1 1 ∈ ex_log3 /\ SeriesHasID (str "cpu") ex_tags2 3 ∈ ex_log3 /\
  (1 = 3 <-> str "cpu" = str "cpu" /\ ex_tags1 = ex_tags2).
Proof.
  assert (H1 : SeriesHasID (str "cpu") ex_tags1 1 ∈ ex_log3) by by_decide.
  assert (H2 : SeriesHasID (str "cpu") ex_tags2 3 ∈ ex_log3) by by_decide.
  split; [exact H1|]. split; [exact H2|].
  exact (proj1 (catalog_ids_stable ex_suffixes ex_catdir ex_log3 ex_w3 ex_history3) _ _ _ _ _ _ H1 H2).
Defined.

(** A policy that cannot be written: the rename fails, and so does the attempt to
    write the old state back. *)
Definition ex_policy : DownsamplePolicy :=
  mkDownsamplePolicy (str "hourly") (str "db") (str "rp") (str "cpu") (str "db") (str "year") (str "cpu_1h") 3600
    [mkDownsampleFunction (str "mean") (str "v") (str "v")] [str "host"] 60 300 0 0 30 1000 10 (str "policy") true.
Definition ex_stuck : CatWorld :=
  mkCatWorld (cw_cat ex_w3) (mkDisk (dk_files (cw_disk ex_w3))
    (replicate 9 None ++ [Some (mkFault (Some (Errorf "input/output error")) 0); None; None; Some (mkFault (Some (Errorf "input/output error")) 0)])).
Lemma ex_stuck_history : history ex_suffixes ex_catdir ex_log3 ex_stuck.
Proof.
  assert (H : history ex_suffixes ex_catdir ex_log3 (opened (dk_files (cw_disk ex_w3)) (dk_faults (cw_disk ex_stuck))))
    by (apply ex_history_restart; [apply ex_history3|by vm_compute]).
  assert (E : opened (dk_files (cw_disk ex_w3)) (dk_faults (cw_disk ex_stuck)) = ex_stuck); [|by rewrite <- E].
  vm_compute. reflexivity.
Qed.
Lemma downsample_update_atomic_witness :
  (exists e w', dsExec ex_suffixes (DUpsert ex_policy) ex_stuck = (Err e, w') /\ cw_cat w' = cw_cat ex_stuck) /\
  match dsExec ex_suffixes (DUpsert ex_policy) ex_w3 with
  | (Ok _, w') => ct_downsampling (cw_cat w') = dsNext (DUpsert ex_policy) (ct_downsampling (cw_cat ex_w3))
  | _ => False
  end.
Proof.
  assert (Hc : ds_ok (DUpsert ex_policy)) by by_decide.
  assert (H1 : match (dsExec ex_suffixes (DUpsert ex_policy) ex_stuck).1 with Err _ => true | _ => false end = true)
    by (vm_compute; reflexivity).
  assert (H2 : succeeded (dsExec ex_suffixes (DUpsert ex_policy) ex_w3).1 = true) by (vm_compute; reflexivity).
  split.
  { pose proof (downsample_update_atomic ex_suffixes ex_catdir ex_log3 ex_stuck (DUpsert ex_policy) ex_stuck_history Hc) as H. cbv zeta in H.
    destruct (dsExec ex_suffixes (DUpsert ex_policy) ex_stuck) as [[?|e|?] w'] eqn:E; [discriminate H1| |discriminate H1].
    exists e, w'. split; [reflexivity|exact (proj1 H)]. }
  pose proof (downsample_update_atomic ex_suffixes ex_catdir ex_log3 ex_w3 (DUpsert ex_policy) ex_history3 Hc) as H. cbv zeta in H.
  destruct (dsExec ex_suffixes (DUpsert ex_policy) ex_w3) as [[[]|e|p] w'] eqn:E; [exact (proj1 H)|discriminate H2..].
Defined.

(** ** What the catalog cannot keep *)
Definition seriesIDOf (r : outcome ResolvedPoint * CatWorld) : option Z := rp_SeriesID <$> match r.1 with Ok p => Some p | _ => None end.
Definition reopening (w : CatWorld) : outcome Catalog := (OpenCatalog ex_catdir noLimits (mkDisk (dk_files (cw_disk w)) [])).1.

Definition eq_tags1 : gmap bytes bytes := {[ str "a=b" := str "c" ]}.
Definition eq_tags2 : gmap bytes bytes := {[ str "a" := str "b=c" ]}.
Definition eq_typed (name value : bytes) : TypedBatch :=
  mkTypedBatchArg (str "db") (str "rp") (str "cpu") [mkTagColumn name [value]] [7]
    [mkTypedFieldColumn (str "v") FieldFloat64 [0] [] [] []].
(** The key of a series does not tell a separator from text: two different tag sets
    whose keys are written alike get one identifier when points are resolved,
    and two when the same rows come as a typed batch. *)
Theorem series_key_collision :
  eq_tags1 <> eq_tags2 /\
  (let w1 := resolved (ex_point eq_tags1 (Float64Value 0)) (opened ∅ []) in
   let w2 := resolved (ex_point eq_tags2 (Float64Value 0)) w1.2 in
   seriesIDOf w1 = Some 1 /\ seriesIDOf w2 = Some 1) /\
  (let w1 := ResolveTypedBatchColumns ex_suffixes (eq_typed (str "a=b") (str "c")) (opened ∅ []) in
   let w2 := ResolveTypedBatchColumns ex_suffixes (eq_typed (str "a") (str "b=c")) w1.2 in
   (tb_SeriesIDs <$> match w1.1 with Ok b => Some b | _ => None end) = Some [1] /\
   (tb_SeriesIDs <$> match w2.1 with Ok b => Some b | _ => None end) = Some [3]).
Proof. split; [by_decide|]. split; vm_compute; done. Qed.

(** A point with a field value of no known type is accepted and logged; afterwards
    the catalog cannot be opened any more, whether it is closed first or not. *)
Theorem untyped_value_blocks_open :
  let w1 := resolved (ex_point ex_tags1 zeroFieldValue) (opened ∅ []) in
  let w2 := CloseCatalog ex_suffixes w1.2 in
  seriesIDOf w1 = Some 1 /\ succeeded w2.1 = true /\
  succeeded (reopening w1.2) = false /\ succeeded (reopening w2.2) = false.
Proof. vm_compute. done. Qed.

Definition ex_tags3 : gmap bytes bytes := {[ str "host" := str "b" ]}.
Definition ex_p3 : Point := ex_point ex_tags3 (Float64Value 2).
Definition torn : list (option Fault) := [None; Some (mkFault (Some (Errorf "no space left on device")) 5)].
Definition unsynced : list (option Fault) := [None; None; Some (mkFault (Some (Errorf "input/output error")) 0)].
Definition with_faults (faults : list (option Fault)) (w : CatWorld) : CatWorld :=
  mkCatWorld (cw_cat w) (mkDisk (dk_files (cw_disk w)) faults).

Definition full : CatWorld := (resolved ex_p1 (openedWith (mkLimits 1 0 0) ∅ [])).2.
Definition in_database (db : bytes) (p : Point) : Point :=
  mkPoint db (po_RetentionPolicy p) (po_Measurement p) (po_Tags p) (po_Timestamp p) (po_Fields p).
(** A database that a point names is recorded in memory even when the point is then
    refused, and as it is known from then on it is never written to the file. *)
Theorem refused_point_database_lost :
  let w1 := resolved (in_database (str "new") ex_p2) full in
  let w2 := resolved (in_database (str "new") ex_p1) w1.2 in
  let w3 := opened (dk_files (cw_disk (CloseCatalog ex_suffixes w2.2).2)) [] in
  seriesIDOf w1 = None /\ seriesIDOf w2 = Some 1 /\ ListDatabases (cw_cat w2.2) = [str "db"; str "new"] /\
  ListDatabases (cw_cat w3) = [str "db"].
Proof. vm_compute. done. Qed.
