(* ===== verification/QueryModel.v ===== *)
(** * Queries: their data, normalization and predicates

    [Query], [QueryExpr], [Row] and [ColumnSeries] of internal/model/types.go;
    the normalization of a query and the pushdown of its predicates
    (internal/engine/paths.go, query_predicates.go, query_boundary.go); the
    comparison of values and the evaluation of predicates and expressions on
    rows (internal/queryexec/filter.go, expression_filter.go).  A nil tag map
    and an empty one read the same. *)
From S2P Require Import Prelude Model Float64.
From stdpp Require Import prelude strings list gmap.
From Stdlib Require Import ZArith Lia.
#[local] Open Scope Z_scope.

(** ** Data *)

(** [type QueryExprKind uint8] *)
Definition QueryExprNone : Z := 0.
Definition QueryExprPredicate : Z := 1.
Definition QueryExprAnd : Z := 2.
Definition QueryExprOr : Z := 3.
Definition QueryExprNot : Z := 4.

Inductive QueryExpr := mkExpr {
  ex_Kind : Z;
  ex_Predicate : QueryPredicate;
  ex_Children : list QueryExpr;
}.
Definition zeroPredicate : QueryPredicate := mkPredicate 0 [] [] zeroFieldValue 0 0.
Definition zeroExpr : QueryExpr := mkExpr QueryExprNone zeroPredicate [].

Record QueryGroup := mkGroup { gr_Tags : list bytes; gr_Window : Z }.
(** [QueryOrderBy], [QuerySortDirection] *)
Definition QueryOrderByNone : Z := 0.
Definition QueryOrderByTime : Z := 1.
Definition QuerySortAsc : Z := 1.
Definition QuerySortDesc : Z := 2.
Record QueryOrder := mkOrder { or_By : Z; or_Direction : Z }.
Record AggregateSpec := mkAggregate { ag_Field : bytes; ag_Function : bytes }.

Record Query := mkQuery {
  qu_Database : bytes;
  qu_RetentionPolicy : bytes;
  qu_Measurement : bytes;
  qu_Tags : gmap bytes bytes;
  qu_Fields : list bytes;
  qu_StartTime : Z;
  qu_EndTime : Z;
  qu_Predicates : list QueryPredicate;
  qu_Expr : QueryExpr;
  qu_Aggregates : list AggregateSpec;
  qu_Window : Z;
  qu_Group : QueryGroup;
  qu_Order : QueryOrder;
  qu_Limit : Z;
  qu_Offset : Z;
  qu_Cursor : bytes;
  qu_Budget : QueryBudget;
}.

Record ColumnSeries := mkColumnSeries {
  cl_SeriesID : Z;
  cl_Measurement : bytes;
  cl_Tags : gmap bytes bytes;
  cl_FieldID : Z;
  cl_FieldName : bytes;
  cl_FieldType : Z;
  cl_Timestamps : list Z;
  cl_Values : list FieldValue;
}.
Definition zeroColumnSeries : ColumnSeries := mkColumnSeries 0 [] ∅ 0 [] 0 [] [].
Definition columnWith (column : ColumnSeries) (timestamps : list Z) (values : list FieldValue) : ColumnSeries :=
  mkColumnSeries (cl_SeriesID column) (cl_Measurement column) (cl_Tags column) (cl_FieldID column)
    (cl_FieldName column) (cl_FieldType column) timestamps values.

Record Row := mkRow {
  rw_SeriesID : Z;
  rw_Measurement : bytes;
  rw_Tags : gmap bytes bytes;
  rw_Timestamp : Z;
  rw_Fields : gmap bytes FieldValue;
}.
Definition zeroRow : Row := mkRow 0 [] ∅ 0 ∅.
Definition rowWith (row : Row) (fields : gmap bytes FieldValue) : Row :=
  mkRow (rw_SeriesID row) (rw_Measurement row) (rw_Tags row) (rw_Timestamp row) fields.

#[export] Instance QueryPredicate_eq_dec : EqDecision QueryPredicate.
Proof. solve_decision. Defined.
#[export] Instance ColumnSeries_eq_dec : EqDecision ColumnSeries.
Proof. solve_decision. Defined.
#[export] Instance Row_eq_dec : EqDecision Row.
Proof. solve_decision. Defined.

(** ** internal/engine/paths.go: defaults *)
Record QueryOptions := mkQueryOptions {
  qo_DefaultDatabase : bytes;
  qo_DefaultRetentionPolicy : bytes;
  qo_DefaultMaxSamples : Z;
  qo_DefaultLimit : Z;
  qo_QueryBytesLimit : Z;
}.
Definition defaultQueryEndTime : Z := maxInt.

Definition applyQueryProtection (opts : QueryOptions) (query : Query) : Query :=
  let '(mkQuery db rp m tags fields start end_ preds expr aggs window group order limit offset cursor budget) := query in
  let budget :=
    if (qb_MaxSamples budget <=? 0) && (0 <? qo_DefaultMaxSamples opts)
    then mkBudget (qb_MaxShards budget) (qb_MaxParts budget) (qo_DefaultMaxSamples opts) else budget in
  let limit := if (limit <=? 0) && (0 <? qo_DefaultLimit opts) then qo_DefaultLimit opts else limit in
  mkQuery db rp m tags fields start end_ preds expr aggs window group order limit offset cursor budget.
Definition normalizeQuery (opts : QueryOptions) (query : Query) : Query :=
  let '(mkQuery db rp m tags fields start end_ preds expr aggs window group order limit offset cursor budget) := query in
  let db := if bool_decide (db = []) then qo_DefaultDatabase opts else db in
  let rp := if bool_decide (rp = []) then qo_DefaultRetentionPolicy opts else rp in
  let end_ := if end_ =? 0 then defaultQueryEndTime else end_ in
  applyQueryProtection opts
    (mkQuery db rp m tags fields start end_ preds expr aggs window group order limit offset cursor budget).

(** ** internal/engine/query_predicates.go *)

(** An expression of conjunctions only. *)
Fixpoint queryExprAllowsFlatPredicates (expr : QueryExpr) : bool :=
  let '(mkExpr kind _ children) := expr in
  if (kind =? QueryExprNone) || (kind =? QueryExprPredicate) then true
  else if kind =? QueryExprAnd then forallb queryExprAllowsFlatPredicates children
  else false.

Definition withRange (query : Query) (start end_ : Z) : Query :=
  let '(mkQuery db rp m tags fields _ _ preds expr aggs window group order limit offset cursor budget) := query in
  mkQuery db rp m tags fields start end_ preds expr aggs window group order limit offset cursor budget.
Definition withTags (query : Query) (tags : gmap bytes bytes) : Query :=
  let '(mkQuery db rp m _ fields start end_ preds expr aggs window group order limit offset cursor budget) := query in
  mkQuery db rp m tags fields start end_ preds expr aggs window group order limit offset cursor budget.
Definition withFields (query : Query) (fields : list bytes) : Query :=
  let '(mkQuery db rp m tags _ start end_ preds expr aggs window group order limit offset cursor budget) := query in
  mkQuery db rp m tags fields start end_ preds expr aggs window group order limit offset cursor budget.

Definition normalizePredicate (query : Query) (predicate : QueryPredicate) : Query :=
  if qp_Kind predicate =? QueryPredicateTimeRange then withRange query (qp_Start predicate) (qp_End predicate)
  else if qp_Kind predicate =? QueryPredicateTagEq then
    match qp_StringValues predicate with
    | [] => query
    | value :: _ => withTags query (<[qp_Name predicate := value]> (qu_Tags query))
    end
  else query.
Definition structuredExpr (expr : QueryExpr) : bool :=
  negb (ex_Kind expr =? QueryExprNone) && negb (queryExprAllowsFlatPredicates expr).
Definition normalizeStructuredQuery (query : Query) : Query :=
  if structuredExpr (qu_Expr query) then query else foldl normalizePredicate query (qu_Predicates query).

Definition isFieldPredicate (kind : Z) : bool :=
  (kind =? QueryPredicateFieldEq) || (kind =? QueryPredicateFieldNe) || (kind =? QueryPredicateFieldGT) ||
  (kind =? QueryPredicateFieldGTE) || (kind =? QueryPredicateFieldLT) || (kind =? QueryPredicateFieldLTE).
Definition isTagOrTimePredicate (kind : Z) : bool :=
  (kind =? QueryPredicateTimeRange) || (kind =? QueryPredicateTagEq) || (kind =? QueryPredicateTagNe) ||
  (kind =? QueryPredicateTagExists) || (kind =? QueryPredicateTagIn).
Definition fieldPredicates (predicates : list QueryPredicate) : list QueryPredicate :=
  filter (fun p => isFieldPredicate (qp_Kind p) = true) predicates.
Definition storageFieldPredicates (query : Query) (predicates : list QueryPredicate) : list QueryPredicate :=
  if structuredExpr (qu_Expr query) then [] else predicates.
Definition predicateExpr (predicate : QueryPredicate) : QueryExpr := mkExpr QueryExprPredicate predicate [].
Definition andExprFromPredicates (predicates : list QueryPredicate) : QueryExpr :=
  match predicates with
  | [] => zeroExpr
  | [p] => predicateExpr p
  | _ => mkExpr QueryExprAnd zeroPredicate (map predicateExpr predicates)
  end.

(** [seen] holds the names of [out]. *)
Definition appendUniqueField (out : list bytes) (field : bytes) : list bytes :=
  if bool_decide (field = []) || bool_decide (field ∈ out) then out else out ++ [field].
Definition scanFields (fields : list bytes) (aggregates : list AggregateSpec) (predicates : list QueryPredicate) : list bytes :=
  foldl appendUniqueField
    (foldl appendUniqueField (foldl appendUniqueField [] fields) (map ag_Field aggregates))
    (map qp_Name predicates).

Definition stringIn (value : bytes) (candidates : list bytes) : bool :=
  existsb (fun c => bool_decide (value = c)) candidates.
Definition tagPredicateMatches (tags : gmap bytes bytes) (predicate : QueryPredicate) : bool :=
  let value := tags !! qp_Name predicate in
  if qp_Kind predicate =? QueryPredicateTagEq then
    match value, qp_StringValues predicate with Some v, s :: _ => bool_decide (v = s) | _, _ => false end
  else if qp_Kind predicate =? QueryPredicateTagNe then
    match value, qp_StringValues predicate with Some v, s :: _ => negb (bool_decide (v = s)) | _, _ => true end
  else if qp_Kind predicate =? QueryPredicateTagExists then bool_decide (is_Some value)
  else if qp_Kind predicate =? QueryPredicateTagIn then
    match value with Some v => stringIn v (qp_StringValues predicate) | None => false end
  else true.
Definition seriesMatchesTagPredicates (tags : gmap bytes bytes) (predicates : list QueryPredicate) : bool :=
  forallb (tagPredicateMatches tags) predicates.
Fixpoint seriesMatchesTagExpr (tags : gmap bytes bytes) (expr : QueryExpr) : bool :=
  let '(mkExpr kind predicate children) := expr in
  if kind =? QueryExprNone then true
  else if kind =? QueryExprPredicate then tagPredicateMatches tags predicate
  else if kind =? QueryExprAnd then forallb (seriesMatchesTagExpr tags) children
  else if kind =? QueryExprOr then existsb (seriesMatchesTagExpr tags) children
  else if kind =? QueryExprNot then
    match children with [] => true | child :: _ => negb (seriesMatchesTagExpr tags child) end
  else false.
Fixpoint tagOnlyExpr (expr : QueryExpr) : bool :=
  let '(mkExpr kind predicate children) := expr in
  if kind =? QueryExprNone then true
  else if kind =? QueryExprPredicate then isTagOrTimePredicate (qp_Kind predicate)
  else if (kind =? QueryExprAnd) || (kind =? QueryExprOr) || (kind =? QueryExprNot) then forallb tagOnlyExpr children
  else false.
Definition hasNonExactTagPredicate (predicates : list QueryPredicate) : bool :=
  existsb (fun p => (qp_Kind p =? QueryPredicateTagNe) || (qp_Kind p =? QueryPredicateTagExists) ||
                    (qp_Kind p =? QueryPredicateTagIn)) predicates.

(** The tags of the series of a catalog snapshot; a series that is missing from
    it has the nil map. *)
Definition filterSeriesIDsByTagExpr (ids : list Z) (series : gmap Z (gmap bytes bytes)) (expr : QueryExpr) : list Z :=
  filter (fun id => match series !! id with Some tags => seriesMatchesTagExpr tags expr | None => false end = true) ids.
Definition filterSeriesIDs (ids : list Z) (series : gmap Z (gmap bytes bytes)) (predicates : list QueryPredicate) : list Z :=
  filter (fun id => seriesMatchesTagPredicates (default ∅ (series !! id)) predicates = true) ids.
(** The second component tells whether a filter was applied. *)
Definition filterSeriesIDsByPredicates (ids : list Z) (series : gmap Z (gmap bytes bytes)) (expr : QueryExpr)
    (predicates : list QueryPredicate) : list Z * bool :=
  if structuredExpr expr then
    if negb (tagOnlyExpr expr) then (ids, false) else (filterSeriesIDsByTagExpr ids series expr, true)
  else if negb (hasNonExactTagPredicate predicates) then (ids, false)
  else (filterSeriesIDs ids series predicates, true).

(** ** internal/engine/query_boundary.go

    [strings.ToLower] maps the letters of a function name; names with letters
    outside ASCII match none of the names the code compares with. *)
Definition toLowerByte (c : Z) : Z := if (65 <=? c) && (c <=? 90) then c + 32 else c.
Definition ToLower (s : bytes) : bytes := map toLowerByte s.
Definition mergeBoundaryMode (left right : Z) : Z :=
  if left =? QueryBoundaryNone then right else if left =? right then left else QueryBoundaryBoth.
Fixpoint boundaryLoop (mode : Z) (aggregates : list AggregateSpec) : Z :=
  match aggregates with
  | [] => mode
  | spec :: aggregates' =>
      let fn := ToLower (ag_Function spec) in
      if bool_decide (fn = str "first") then boundaryLoop (mergeBoundaryMode mode QueryBoundaryFirst) aggregates'
      else if bool_decide (fn = str "last") then boundaryLoop (mergeBoundaryMode mode QueryBoundaryLast) aggregates'
      else QueryBoundaryNone
  end.
Definition queryBoundaryMode (query : Query) : Z :=
  if (0 <? qu_Window query) || bool_decide (qu_Aggregates query = []) then QueryBoundaryNone
  else boundaryLoop QueryBoundaryNone (qu_Aggregates query).

(** ** internal/queryexec/filter.go: comparing values *)
Definition isNumericFieldValue (value : FieldValue) : bool :=
  (fv_Type value =? FieldFloat64) || (fv_Type value =? FieldInt64).
Definition fieldValueAsFloat (value : FieldValue) : Z :=
  if fv_Type value =? FieldFloat64 then fv_Float64 value else f_of_int (fv_Int64 value).
Definition compareFloat (left right : Z) : Z :=
  if f_ltb left right then -1 else if f_ltb right left then 1 else 0.
Definition compareString (left right : bytes) : Z :=
  if bytes_ltb left right then -1 else if bytes_ltb right left then 1 else 0.
Definition compareBool (left right : bool) : Z :=
  if Bool.eqb left right then 0 else if negb left && right then -1 else 1.
Definition fieldValuesCompare (left right : FieldValue) : Z :=
  if isNumericFieldValue left && isNumericFieldValue right then
    compareFloat (fieldValueAsFloat left) (fieldValueAsFloat right)
  else if negb (fv_Type left =? fv_Type right) then -1
  else if fv_Type left =? FieldString then compareString (fv_String left) (fv_String right)
  else if fv_Type left =? FieldBool then compareBool (fv_Bool left) (fv_Bool right)
  else -1.
Definition valueMatchesPredicate (value : FieldValue) (predicate : QueryPredicate) : bool :=
  let kind := qp_Kind predicate in
  let c := fieldValuesCompare value (qp_Value predicate) in
  if kind =? QueryPredicateFieldEq then c =? 0
  else if kind =? QueryPredicateFieldNe then negb (c =? 0)
  else if kind =? QueryPredicateFieldGT then 0 <? c
  else if kind =? QueryPredicateFieldGTE then 0 <=? c
  else if kind =? QueryPredicateFieldLT then c <? 0
  else if kind =? QueryPredicateFieldLTE then c <=? 0
  else true.
Definition valueMatchesPredicates (value : FieldValue) (predicates : list QueryPredicate) : bool :=
  forallb (valueMatchesPredicate value) predicates.
Definition rowMatchesPredicates (row : Row) (predicates : list QueryPredicate) : bool :=
  forallb (fun p => match rw_Fields row !! qp_Name p with
                    | Some value => valueMatchesPredicate value p
                    | None => false
                    end) predicates.
Definition fieldPredicatesFor (name : bytes) (predicates : list QueryPredicate) : list QueryPredicate :=
  filter (fun p => qp_Name p = name) predicates.
(** The timestamp of a value that is kept is read at its index. *)
Fixpoint filterValues (relevant : list QueryPredicate) (timestamps : list Z) (values : list FieldValue)
    : outcome (list Z * list FieldValue) :=
  match values with
  | [] => Ok ([], [])
  | value :: values' =>
      if valueMatchesPredicates value relevant then
        match timestamps with
        | [] => Panic IndexOutOfRange
        | t :: timestamps' => '(ts, vs) ← filterValues relevant timestamps' values'; Ok (t :: ts, value :: vs)
        end
      else filterValues relevant (tail timestamps) values'
  end.
Definition filterColumnByPredicates (column : ColumnSeries) (predicates : list QueryPredicate) : outcome ColumnSeries :=
  let relevant := fieldPredicatesFor (cl_FieldName column) predicates in
  if bool_decide (relevant = []) then Ok column
  else '(ts, vs) ← filterValues relevant (cl_Timestamps column) (cl_Values column); Ok (columnWith column ts vs).

(** ** internal/queryexec/expression_filter.go *)
Definition rowMatchesExprPredicate (row : Row) (predicate : QueryPredicate) : bool :=
  let kind := qp_Kind predicate in
  let value := rw_Tags row !! qp_Name predicate in
  if kind =? QueryPredicateTimeRange then
    (qp_Start predicate <=? rw_Timestamp row) && (rw_Timestamp row <=? qp_End predicate)
  else if kind =? QueryPredicateTagEq then
    match value, qp_StringValues predicate with Some v, s :: _ => bool_decide (v = s) | _, _ => false end
  else if kind =? QueryPredicateTagNe then
    match value, qp_StringValues predicate with Some v, s :: _ => negb (bool_decide (v = s)) | _, _ => true end
  else if kind =? QueryPredicateTagExists then bool_decide (is_Some value)
  else if kind =? QueryPredicateTagIn then
    match value with Some v => stringIn v (qp_StringValues predicate) | None => false end
  else match rw_Fields row !! qp_Name predicate with
       | Some v => valueMatchesPredicate v predicate
       | None => false
       end.
Fixpoint rowMatchesExpr (row : Row) (expr : QueryExpr) : bool :=
  let '(mkExpr kind predicate children) := expr in
  if kind =? QueryExprNone then true
  else if kind =? QueryExprPredicate then rowMatchesExprPredicate row predicate
  else if kind =? QueryExprAnd then forallb (rowMatchesExpr row) children
  else if kind =? QueryExprOr then existsb (rowMatchesExpr row) children
  else if kind =? QueryExprNot then
    match children with [] => true | child :: _ => negb (rowMatchesExpr row child) end
  else false.
