(* ===== verification/QueryStream.v ===== *)
(** * Streams of the query executor and its operators on rows and columns

    internal/queryexec: the [RowStream] and [ColumnStream] interfaces (types.go)
    and the operators that wrap one stream in another.  An operator is a record
    with the fields of its struct and the methods of the interface on it, given
    the methods of its source; [Stream] is a value of the interface type.  A nil
    source answers as an empty stream does.  Columns have as many timestamps as
    values (the decorator builds them so), which keeps every slice expression in
    range.  [bound] is no method: it bounds how many elements are to come, and
    the loops of an operator over its source take it as their fuel. *)
From S2P Require Import Prelude Model Runtime QueryMerge QueryModel.
From stdpp Require Import prelude strings list sorting gmap.
From Stdlib Require Import ZArith Lia.
#[local] Open Scope Z_scope.

Class StreamOps (S A : Type) := {
  next : S -> bool * S;
  value : S -> A;
  serr : S -> option goerr;
  sclose : S -> option goerr * S;
  bound : S -> nat;
}.
#[global] Hint Mode StreamOps ! - : typeclass_instances.

Record Stream (A : Type) := mkAnyStream { st_type : Type; st_ops : StreamOps st_type A; st_state : st_type }.
Arguments mkAnyStream {A} st_type st_ops st_state.
Arguments st_type {A} _.
Arguments st_ops {A} _.
Arguments st_state {A} _.

(** Reading a stream to its end, as QueryRows and QueryColumns
    (internal/engine/query.go) do. *)
Fixpoint drainLoop {S A} `{StreamOps S A} (fuel : nat) (s : S) : list A * option goerr :=
  match fuel with
  | O => ([], serr s)
  | Datatypes.S fuel' =>
      let '(more, s) := next s in
      if more : bool then let '(xs, err) := drainLoop fuel' s in (value s :: xs, err) else ([], serr s)
  end.
Definition drain {S A} `{StreamOps S A} (s : S) : list A * option goerr := drainLoop (Datatypes.S (bound s)) s.
Definition drainStream {A} (s : Stream A) : list A * option goerr :=
  @drain _ _ (st_ops s) (st_state s).

(** ** The loop [for s.source.Next() { ... }]

    [body] sees an element and the state of the loop; it returns or goes on. *)
Fixpoint seekLoop {S A T R} `{StreamOps S A} (body : A -> T -> option R * T) (fuel : nat) (src : S) (t : T) : option R * S * T :=
  match fuel with
  | O => (None, src, t)
  | Datatypes.S fuel' =>
      let '(more, src) := next src in
      if more : bool then
        match body (value src) t with
        | (Some r, t) => (Some r, src, t)
        | (None, t) => seekLoop body fuel' src t
        end
      else (None, src, t)
  end.
Definition seek {S A T R} `{StreamOps S A} (body : A -> T -> option R * T) (src : S) (t : T) : option R * S * T :=
  seekLoop body (Datatypes.S (bound src)) src t.

(** ** Slices (executor.go) *)
Record sliceStream (A : Type) := mkSlice { sl_current : A; sl_rest : list A; sl_closed : bool }.
Arguments mkSlice {A} _ _ _.
Arguments sl_current {A} _.
Arguments sl_rest {A} _.
Arguments sl_closed {A} _.
#[export] Instance sliceOps {A} : StreamOps (sliceStream A) A := {|
  next s := if sl_closed s then (false, s) else
    match sl_rest s with [] => (false, s) | x :: rest => (true, mkSlice x rest false) end;
  value := sl_current;
  serr _ := None;
  sclose s := (None, mkSlice (sl_current s) [] true);
  bound s := length (sl_rest s);
|}.
Definition NewSliceColumnSeriesStream (columns : list ColumnSeries) : Stream ColumnSeries :=
  mkAnyStream _ _ (mkSlice zeroColumnSeries columns false).

(** ** The merging stream of the shards as a source *)
Definition mergeLeft (s : mergeColumnDataStream) : nat :=
  length (concat (map (fun src => ms_column src :: cs_items (ms_stream src)) (mm_sources s))).
#[export] Instance mergeOps `{GoRuntime} : StreamOps mergeColumnDataStream ColumnData := {|
  next := QueryMerge.Next;
  value := mm_current;
  serr := mm_err;
  sclose s := (None, mkMergeStream (mm_sources s) (mm_current s) (mm_err s) (mm_initialized s) true);
  bound := mergeLeft;
|}.

(** ** Operators that test or change one element at a time

    filter.go, expression_filter.go, project.go, cursor.go and the projection
    of rows in internal/engine/query.go: the elements [fl_step] maps to [Some]
    pass.  [fl_marks] tells whether Close sets [closed]. *)
Record filterStream (S A B : Type) := mkFilter {
  fl_source : S;
  fl_step : A -> option B;
  fl_current : B;
  fl_closed : bool;
  fl_marks : bool;
}.
Arguments mkFilter {S A B} _ _ _ _ _.
Arguments fl_source {S A B} _.
Arguments fl_step {S A B} _ _.
Arguments fl_current {S A B} _.
Arguments fl_closed {S A B} _.
Arguments fl_marks {S A B} _.
Definition filterNext {S A B} `{StreamOps S A} (s : filterStream S A B) : bool * filterStream S A B :=
  if fl_closed s then (false, s)
  else match seek (fun x _ => (fl_step s x, tt)) (fl_source s) tt with
  | (Some y, src, _) => (true, mkFilter src (fl_step s) y (fl_closed s) (fl_marks s))
  | (None, src, _) => (false, mkFilter src (fl_step s) (fl_current s) (fl_closed s) (fl_marks s))
  end.
Definition filterClose {S A B} `{StreamOps S A} (s : filterStream S A B) : option goerr * filterStream S A B :=
  let '(err, src) := sclose (fl_source s) in
  (err, mkFilter src (fl_step s) (fl_current s) (fl_closed s || fl_marks s) (fl_marks s)).
#[export] Instance filterOps {S A B} `{StreamOps S A} : StreamOps (filterStream S A B) B := {|
  next := filterNext;
  value := fl_current;
  serr s := serr (fl_source s);
  sclose := filterClose;
  bound s := bound (fl_source s);
|}.
Definition filtered {A B} (step : A -> option B) (zero : B) (marks : bool) (source : Stream A) : Stream B :=
  let '(mkAnyStream C ops st) := source in
  mkAnyStream (filterStream C A B) (@filterOps C A B ops) (mkFilter st step zero false marks).

Definition keepIf {A} (test : A -> bool) (x : A) : option A := if test x then Some x else None.
Definition NewFilteredRowStream (source : Stream Row) (predicates : list QueryPredicate) : Stream Row :=
  if bool_decide (predicates = []) then source
  else filtered (keepIf (fun row => rowMatchesPredicates row predicates)) zeroRow true source.
Definition NewExprFilteredRowStream (source : Stream Row) (expr : QueryExpr) : Stream Row :=
  if ex_Kind expr =? QueryExprNone then source
  else filtered (keepIf (fun row => rowMatchesExpr row expr)) zeroRow true source.

(** internal/engine/query.go *)
Definition fieldsMatchProjection (fields : gmap bytes FieldValue) (projection : gset bytes) : bool :=
  bool_decide (size fields = size projection) && bool_decide (dom fields ⊆ projection).
Definition projectRow (projection : gset bytes) (row : Row) : Row :=
  if fieldsMatchProjection (rw_Fields row) projection then row
  else rowWith row (filter (fun entry => entry.1 ∈ projection) (rw_Fields row)).
Definition newProjectedRowStream (source : Stream Row) (fields : list bytes) : Stream Row :=
  if bool_decide (fields = []) then source
  else filtered (fun row => Some (projectRow (list_to_set fields) row)) zeroRow false source.
Definition NewProjectedColumnStream (source : Stream ColumnSeries) (fields : list bytes) : Stream ColumnSeries :=
  if bool_decide (fields = []) then source
  else filtered (keepIf (fun column => bool_decide (cl_FieldName column ∈ (list_to_set fields : gset bytes)))) zeroColumnSeries true source.

(** cursor.go *)
Record CursorPosition := mkCursor { cu_SeriesID : Z; cu_Timestamp : Z; cu_Direction : Z }.
Definition rowAfterCursor (seriesID timestamp : Z) (position : CursorPosition) : bool :=
  if cu_Direction position =? QuerySortDesc then
    if negb (timestamp =? cu_Timestamp position) then timestamp <? cu_Timestamp position
    else cu_SeriesID position <? seriesID
  else if negb (timestamp =? cu_Timestamp position) then cu_Timestamp position <? timestamp
  else cu_SeriesID position <? seriesID.
Definition filterColumnAfterCursor (column : ColumnSeries) (position : CursorPosition) : ColumnSeries :=
  let kept := filter (fun sample => rowAfterCursor (cl_SeriesID column) sample.1 position = true)
                (zip (cl_Timestamps column) (cl_Values column)) in
  columnWith column kept.*1 kept.*2.
Definition nonEmptyColumn (column : ColumnSeries) : option ColumnSeries :=
  if bool_decide (cl_Values column = []) then None else Some column.
Definition NewCursorRowStream (source : Stream Row) (position : CursorPosition) : Stream Row :=
  filtered (keepIf (fun row => rowAfterCursor (rw_SeriesID row) (rw_Timestamp row) position)) zeroRow false source.
Definition NewCursorColumnStream (source : Stream ColumnSeries) (position : CursorPosition) : Stream ColumnSeries :=
  filtered (fun column => nonEmptyColumn (filterColumnAfterCursor column position)) zeroColumnSeries false source.
Definition cursorDirection (order : QueryOrder) : Z :=
  if (or_By order =? QueryOrderByTime) && (or_Direction order =? QuerySortDesc) then QuerySortDesc else QuerySortAsc.
Definition CursorFromRow (row : Row) (order : QueryOrder) : CursorPosition :=
  mkCursor (rw_SeriesID row) (rw_Timestamp row) (cursorDirection order).

(** executor.go: the decorator of the engine; a column of an unknown series or
    field is delivered as the zero column.  order.go: a column in descending
    order is reversed when it is read. *)
Definition NewDecoratedColumnStream (raw : Stream ColumnData) (decorator : ColumnData -> option ColumnSeries) : Stream ColumnSeries :=
  filtered (fun column => Some (default zeroColumnSeries (decorator column))) zeroColumnSeries false raw.
Definition reverseColumnSeriesByTime (column : ColumnSeries) : ColumnSeries :=
  columnWith column (rev (cl_Timestamps column)) (rev (cl_Values column)).
Definition descByTime (order : QueryOrder) : bool :=
  (or_By order =? QueryOrderByTime) && (or_Direction order =? QuerySortDesc).
Definition NewOrderedColumnStream (source : Stream ColumnSeries) (order : QueryOrder) : Stream ColumnSeries :=
  if negb (descByTime order) then source
  else filtered (fun column => Some (reverseColumnSeriesByTime column)) zeroColumnSeries false source.

(** ** budget.go *)
Record budgetStream (S A : Type) := mkBudgetStream {
  bg_source : S;
  bg_current : A;
  bg_err : option goerr;
  bg_count : Z;
  bg_limit : Z;
  bg_closed : bool;
}.
Arguments mkBudgetStream {S A} _ _ _ _ _ _.
Arguments bg_source {S A} _.
Arguments bg_current {S A} _.
Arguments bg_err {S A} _.
Arguments bg_count {S A} _.
Arguments bg_limit {S A} _.
Arguments bg_closed {S A} _.
Definition ErrReadBudgetExceeded : goerr := Errorf "read budget exceeded".
Definition NewReadBudgetError (metric : string) (actual limit : Z) : goerr := ErrWrap metric ErrReadBudgetExceeded.
Definition budgetClose {S A} `{StreamOps S A} (s : budgetStream S A) : option goerr * budgetStream S A :=
  let '(err, src) := sclose (bg_source s) in
  (err, mkBudgetStream src (bg_current s) (bg_err s) (bg_count s) (bg_limit s) true).
(** [weight] counts rows or samples; the row stream closes itself when the budget
    is exceeded. *)
Definition budgetNext {S A} `{StreamOps S A} (metric : string) (weight : A -> Z) (closes : bool) (s : budgetStream S A)
    : bool * budgetStream S A :=
  if bg_closed s || bool_decide (is_Some (bg_err s)) then (false, s)
  else
    let '(more, src) := next (bg_source s) in
    if negb more then (false, mkBudgetStream src (bg_current s) (serr src) (bg_count s) (bg_limit s) (bg_closed s))
    else
      let count := i64 (bg_count s + weight (value src)) in
      if (0 <? bg_limit s) && (bg_limit s <? count) then
        let s := mkBudgetStream src (bg_current s) (Some (NewReadBudgetError metric count (bg_limit s))) count (bg_limit s) (bg_closed s) in
        (false, if closes then (budgetClose s).2 else s)
      else (true, mkBudgetStream src (value src) (bg_err s) count (bg_limit s) (bg_closed s)).
Definition budgetOps {S A} `{StreamOps S A} (metric : string) (weight : A -> Z) (closes : bool) : StreamOps (budgetStream S A) A := {|
  next := budgetNext metric weight closes;
  value := bg_current;
  serr := bg_err;
  sclose := budgetClose;
  bound s := bound (bg_source s);
|}.
Definition budgeted {A} (metric : string) (weight : A -> Z) (closes : bool) (zero : A) (source : Stream A) (budget : QueryBudget) : Stream A :=
  let '(mkAnyStream C ops st) := source in
  mkAnyStream (budgetStream C A) (@budgetOps C A ops metric weight closes) (mkBudgetStream st zero None 0 (qb_MaxSamples budget) false).
Definition NewBudgetRowStream (source : Stream Row) (budget : QueryBudget) : Stream Row :=
  budgeted "rows" (fun _ => 1) true zeroRow source budget.
Definition NewBudgetColumnStream (source : Stream ColumnSeries) (budget : QueryBudget) : Stream ColumnSeries :=
  budgeted "samples" (fun column => len (cl_Values column)) false zeroColumnSeries source budget.

(** ** pagination.go *)
Record paginatedStream (S A : Type) := mkPaginated {
  pg_source : S;
  pg_current : A;
  pg_limit : Z;
  pg_offset : Z;
  pg_returned : Z;
  pg_skipped : Z;
  pg_closed : bool;
  pg_exhausted : bool;
}.
Arguments mkPaginated {S A} _ _ _ _ _ _ _ _.
Arguments pg_source {S A} _.
Arguments pg_current {S A} _.
Arguments pg_limit {S A} _.
Arguments pg_offset {S A} _.
Arguments pg_returned {S A} _.
Arguments pg_skipped {S A} _.
Arguments pg_closed {S A} _.
Arguments pg_exhausted {S A} _.
Definition limitSet {S A} (s : paginatedStream S A) : bool := 0 <? pg_limit s.
Definition paginatedClose {S A} `{StreamOps S A} (s : paginatedStream S A) : option goerr * paginatedStream S A :=
  let '(err, src) := sclose (pg_source s) in
  (err, mkPaginated src (pg_current s) (pg_limit s) (pg_offset s) (pg_returned s) (pg_skipped s) true (pg_exhausted s)).

(** The loop of the row stream: rows up to the offset are skipped, the next one
    ends the loop; [None] inside [Some] is the row beyond the limit. *)
Definition pageRow (limit offset returned : Z) (row : Row) (skipped : Z) : option (option Row) * Z :=
  if skipped <? offset then (None, skipped + 1)
  else if (0 <? limit) && (limit <=? returned) then (Some None, skipped)
  else (Some (Some row), skipped).
Definition paginatedRowNext {S} `{StreamOps S Row} (s : paginatedStream S Row) : bool * paginatedStream S Row :=
  if pg_closed s || pg_exhausted s then (false, s)
  else match seek (pageRow (pg_limit s) (pg_offset s) (pg_returned s)) (pg_source s) (pg_skipped s) with
  | (None, src, skipped) =>
      (false, mkPaginated src (pg_current s) (pg_limit s) (pg_offset s) (pg_returned s) skipped (pg_closed s) false)
  | (Some None, src, skipped) =>
      (false, mkPaginated (sclose src).2 (pg_current s) (pg_limit s) (pg_offset s) (pg_returned s) skipped (pg_closed s) true)
  | (Some (Some row), src, skipped) =>
      let returned := pg_returned s + 1 in
      let exhausted := limitSet s && (pg_limit s <=? returned) in
      (true, mkPaginated (if exhausted then (sclose src).2 else src) row (pg_limit s) (pg_offset s) returned skipped (pg_closed s) exhausted)
  end.
#[export] Instance paginatedRowOps {S} `{StreamOps S Row} : StreamOps (paginatedStream S Row) Row := {|
  next := paginatedRowNext;
  value := pg_current;
  serr s := serr (pg_source s);
  sclose := paginatedClose;
  bound s := bound (pg_source s);
|}.
Definition NewPaginatedRowStream (source : Stream Row) (limit offset : Z) : Stream Row :=
  let '(mkAnyStream C ops st) := source in
  mkAnyStream (paginatedStream C Row) (@paginatedRowOps C ops) (mkPaginated st zeroRow limit offset 0 0 false false).

(** [pageColumn] on the counters [(returned, skipped, exhausted)]. *)
Definition pageColumn (limit offset : Z) (column : ColumnSeries) (counters : Z * Z * bool) : ColumnSeries * (Z * Z * bool) :=
  let '(returned, skipped, exhausted) := counters in
  let start := Z.max 0 (Z.min (len (cl_Values column)) (offset - skipped)) in
  let skipped := skipped + start in
  let end_ := len (cl_Values column) in
  let remaining := limit - returned in
  if (0 <? limit) && (remaining <=? 0) then (zeroColumnSeries, (returned, skipped, true))
  else
    let '(end_, exhausted) :=
      if (0 <? limit) && (start + remaining <? end_) then (start + remaining, true) else (end_, exhausted) in
    let cut {A} (l : list A) := take (Z.to_nat (end_ - start)) (drop (Z.to_nat start) l) in
    (columnWith column (cut (cl_Timestamps column)) (cut (cl_Values column)), (returned + (end_ - start), skipped, exhausted)).
Definition pageColumnStep (limit offset : Z) (column : ColumnSeries) (counters : Z * Z * bool) : option ColumnSeries * (Z * Z * bool) :=
  let '(page, counters) := pageColumn limit offset column counters in (nonEmptyColumn page, counters).
Definition paginatedColumnNext {S} `{StreamOps S ColumnSeries} (s : paginatedStream S ColumnSeries) : bool * paginatedStream S ColumnSeries :=
  if pg_closed s || pg_exhausted s then (false, s)
  else
    let '(found, src, (returned, skipped, exhausted)) :=
      seek (pageColumnStep (pg_limit s) (pg_offset s)) (pg_source s) (pg_returned s, pg_skipped s, pg_exhausted s) in
    (bool_decide (is_Some found),
     mkPaginated src (default (pg_current s) found) (pg_limit s) (pg_offset s) returned skipped (pg_closed s) exhausted).
#[export] Instance paginatedColumnOps {S} `{StreamOps S ColumnSeries} : StreamOps (paginatedStream S ColumnSeries) ColumnSeries := {|
  next := paginatedColumnNext;
  value := pg_current;
  serr s := serr (pg_source s);
  sclose := paginatedClose;
  bound s := bound (pg_source s);
|}.
Definition NewPaginatedColumnStream (source : Stream ColumnSeries) (limit offset : Z) : Stream ColumnSeries :=
  let '(mkAnyStream C ops st) := source in
  mkAnyStream (paginatedStream C ColumnSeries) (@paginatedColumnOps C ops)
    (mkPaginated st zeroColumnSeries limit offset 0 0 false false).

(** ** order.go: rows in descending order

    [or_left] are the rows from [index] on. *)
Record orderedRowStream (S : Type) := mkOrdered {
  od_source : S;
  od_limit : Z;
  od_offset : Z;
  od_current : Row;
  od_left : list Row;
  od_loaded : bool;
  od_err : option goerr;
  od_closed : bool;
  od_sourceClose : bool;
}.
Arguments mkOrdered {S} _ _ _ _ _ _ _ _ _.
Arguments od_source {S} _.
Arguments od_limit {S} _.
Arguments od_offset {S} _.
Arguments od_current {S} _.
Arguments od_left {S} _.
Arguments od_loaded {S} _.
Arguments od_err {S} _.
Arguments od_closed {S} _.
Arguments od_sourceClose {S} _.
Definition rowAfterTimeDesc (left right : Row) : bool :=
  if negb (rw_Timestamp left =? rw_Timestamp right) then rw_Timestamp right <? rw_Timestamp left
  else rw_SeriesID left <? rw_SeriesID right.
Definition rowBeforeTimeDesc (left right : Row) : bool :=
  if negb (rw_Timestamp left =? rw_Timestamp right) then rw_Timestamp left <? rw_Timestamp right
  else rw_SeriesID right <? rw_SeriesID left.
(** [sort.SliceStable] is deterministic: the stable merge sort. *)
Definition sortRowsDesc (rows : list Row) : list Row := mergeSort rowAfterTimeDesc rows.
(** The loop of [loadBounded] over one row. *)
Definition boundRow (capacity : Z) (rows : list Row) (row : Row) : list Row :=
  if len rows <? capacity then heap_Push rowBeforeTimeDesc rows row
  else match rows with
  | [] => rows
  | least :: rest => if rowAfterTimeDesc row least then heap_Fix rowBeforeTimeDesc (row :: rest) 0 else rows
  end.
Definition orderedCloseSource {S A} `{StreamOps S A} (done : bool) (src : S) : option goerr * S * bool :=
  if done then (None, src, done) else let '(err, src) := sclose src in (err, src, true).
Fixpoint drainTo {S A} `{StreamOps S A} (fuel : nat) (s : S) : list A * S :=
  match fuel with
  | O => ([], s)
  | Datatypes.S fuel' =>
      let '(more, s) := next s in
      if more : bool then let '(xs, s') := drainTo fuel' s in (value s :: xs, s') else ([], s)
  end.
(** [load] and [loadBounded]: with a capacity that overflows they call each
    other until the stack is exhausted, and [make] panics when the heap of rows of
    48 bytes is too large. *)
Definition loadCrashes (limit offset : Z) : bool :=
  let capacity := i64 (limit + offset) in
  (0 <? limit) && ((capacity <=? 0) || (maxAlloc <? 48 * capacity)).
(** [None] stands for the crash. *)
Definition orderedLoad {S} `{StreamOps S Row} (s : orderedRowStream S) : option (orderedRowStream S) :=
  let capacity := i64 (od_limit s + od_offset s) in
  if loadCrashes (od_limit s) (od_offset s) then None
  else
    let '(rows, src) := drainTo (Datatypes.S (bound (od_source s))) (od_source s) in
    let rows := if 0 <? od_limit s then foldl (boundRow capacity) (heap_Init rowBeforeTimeDesc []) rows else rows in
    match serr src with
    | Some err =>
        Some (mkOrdered src (od_limit s) (od_offset s) (od_current s) (if 0 <? od_limit s then od_left s else rows)
                true (Some err) (od_closed s) (od_sourceClose s))
    | None =>
        let '(err, src, done) := orderedCloseSource (od_sourceClose s) src in
        Some (mkOrdered src (od_limit s) (od_offset s) (od_current s) (sortRowsDesc rows) true err (od_closed s) done)
    end.
Definition orderedPop {S} (s : orderedRowStream S) : bool * orderedRowStream S :=
  if bool_decide (is_Some (od_err s)) then (false, s)
  else match od_left s with
  | [] => (false, s)
  | row :: rest =>
      (true, mkOrdered (od_source s) (od_limit s) (od_offset s) row rest (od_loaded s) (od_err s) (od_closed s) (od_sourceClose s))
  end.
(** A load that crashes is a [Next] that crashes; [next] has no such case, so
    [NewOrderedRowStream] below is given [None] for it. *)
Definition orderedRowNext {S} `{StreamOps S Row} (s : orderedRowStream S) : bool * orderedRowStream S :=
  if od_closed s || bool_decide (is_Some (od_err s)) then (false, s)
  else orderedPop (if od_loaded s then s else default s (orderedLoad s)).
Definition orderedRowClose {S} `{StreamOps S Row} (s : orderedRowStream S) : option goerr * orderedRowStream S :=
  let '(err, src, done) := orderedCloseSource (od_sourceClose s) (od_source s) in
  (err, mkOrdered src (od_limit s) (od_offset s) (od_current s) [] (od_loaded s) (od_err s) true done).
#[export] Instance orderedRowOps {S} `{StreamOps S Row} : StreamOps (orderedRowStream S) Row := {|
  next := orderedRowNext;
  value := od_current;
  serr := od_err;
  sclose := orderedRowClose;
  bound s := length (od_left s) + (if od_loaded s then 0 else length (drain (od_source s)).1);
|}%nat.
(** [None]: the first Next of the stream crashes. *)
Definition NewOrderedRowStream (source : Stream Row) (order : QueryOrder) (limit offset : Z) : option (Stream Row) :=
  if negb (descByTime order) then Some source
  else if loadCrashes limit offset then None
  else
    let '(mkAnyStream C ops st) := source in
    Some (mkAnyStream (orderedRowStream C) (@orderedRowOps C ops)
            (mkOrdered st limit offset zeroRow [] false None false false)).

(** ** Columns of one series (row_merge.go, expression_column_filter.go)

    Both streams read the columns of a series with one column of lookahead. *)
Record seriesReader (S : Type) := mkSeriesReader {
  sr_source : S;
  sr_lookahead : option ColumnSeries;
  sr_err : option goerr;
}.
Arguments mkSeriesReader {S} _ _ _.
Arguments sr_source {S} _.
Arguments sr_lookahead {S} _.
Arguments sr_err {S} _.
Definition nextColumn {S} `{StreamOps S ColumnSeries} (r : seriesReader S) : option ColumnSeries * seriesReader S :=
  match sr_lookahead r with
  | Some column => (Some column, mkSeriesReader (sr_source r) None (sr_err r))
  | None =>
      let '(more, src) := next (sr_source r) in
      if more : bool then (Some (value src), mkSeriesReader src None (sr_err r))
      else (None, mkSeriesReader src None (serr src))
  end.
Fixpoint moreColumns {S} `{StreamOps S ColumnSeries} (fuel : nat) (series : Z) (columns : list ColumnSeries) (r : seriesReader S)
    : option (list ColumnSeries) * seriesReader S :=
  match fuel with
  | O => (None, r)
  | Datatypes.S fuel' =>
      let '(column, r) := nextColumn r in
      match column with
      | None => (if bool_decide (sr_err r = None) then Some columns else None, r)
      | Some column =>
          if negb (cl_SeriesID column =? series) then (Some columns, mkSeriesReader (sr_source r) (Some column) (sr_err r))
          else moreColumns fuel' series (columns ++ [column]) r
      end
  end.
Definition readSeriesColumns {S} `{StreamOps S ColumnSeries} (r : seriesReader S) : option (list ColumnSeries) * seriesReader S :=
  let '(first, r) := nextColumn r in
  match first with
  | None => (None, r)
  | Some first => moreColumns (Datatypes.S (bound (sr_source r))) (cl_SeriesID first) [first] r
  end.
Definition readerBound {S} `{StreamOps S ColumnSeries} (r : seriesReader S) : nat :=
  (length (option_list (sr_lookahead r)) + bound (sr_source r))%nat.
(** The columns that are to come. *)
Definition readerLeft {S} `{StreamOps S ColumnSeries} (r : seriesReader S) : list ColumnSeries :=
  option_list (sr_lookahead r) ++ (drain (sr_source r)).1.

(** ** row_merge.go *)
Definition validateColumnLengths (columns : list ColumnSeries) : outcome unit :=
  if forallb (fun c => len (cl_Timestamps c) =? len (cl_Values c)) columns then Ok tt
  else Err (Errorf "column has a different number of timestamps and values").
Definition alignedSeriesColumns (columns : list ColumnSeries) : bool :=
  match columns with
  | [] => true
  | first :: columns' => forallb (fun c => bool_decide (cl_Timestamps c = cl_Timestamps first)) columns'
  end.
Definition valueAt (column : ColumnSeries) (index : nat) : FieldValue := default zeroFieldValue (cl_Values column !! index).
Definition alignedRowsFromSeriesColumns (columns : list ColumnSeries) : list Row :=
  match columns with
  | [] => []
  | first :: _ =>
      imap (fun index timestamp =>
        mkRow (cl_SeriesID first) (cl_Measurement first) (cl_Tags first) timestamp
          (foldl (fun fields c => <[cl_FieldName c := valueAt c index]> fields) ∅ columns))
        (cl_Timestamps first)
  end.
Definition newRowFromColumn (column : ColumnSeries) (timestamp : Z) : Row :=
  mkRow (cl_SeriesID column) (cl_Measurement column) (cl_Tags column) timestamp ∅.
(** The rows and the index of each timestamp among them. *)
Definition appendSample (column : ColumnSeries) (st : list Row * gmap Z nat) (sample : Z * FieldValue) : list Row * gmap Z nat :=
  let '(rows, indexByTimestamp) := st in
  let '(timestamp, v) := sample in
  let '(rows, indexByTimestamp, rowIndex) :=
    match indexByTimestamp !! timestamp with
    | Some rowIndex => (rows, indexByTimestamp, rowIndex)
    | None =>
        let rows := rows ++ [newRowFromColumn column timestamp] in
        let rowIndex := (length rows - 1)%nat in
        (rows, <[timestamp := rowIndex]> indexByTimestamp, rowIndex)
    end in
  (alter (fun row => rowWith row (<[cl_FieldName column := v]> (rw_Fields row))) rowIndex rows, indexByTimestamp).
Definition appendColumnRows (st : list Row * gmap Z nat) (column : ColumnSeries) : list Row * gmap Z nat :=
  foldl (appendSample column) st (zip (cl_Timestamps column) (cl_Values column)).
Definition mappedRowsFromSeriesColumns `{GoRuntime} (columns : list ColumnSeries) : list Row :=
  sort_Slice (fun l r => rw_Timestamp l <? rw_Timestamp r) (foldl appendColumnRows ([], ∅) columns).1.
Definition rowsFromSeriesColumns `{GoRuntime} (columns : list ColumnSeries) : outcome (list Row) :=
  if bool_decide (columns = []) then Ok []
  else
    validateColumnLengths columns;;
    if alignedSeriesColumns columns then Ok (alignedRowsFromSeriesColumns columns)
    else Ok (mappedRowsFromSeriesColumns columns).

Record rowMergeStream (S : Type) := mkRowMerge {
  rm_reader : seriesReader S;
  rm_limit : Z;
  rm_offset : Z;
  rm_pending : list Row;
  rm_current : Row;
  rm_skipped : Z;
  rm_returned : Z;
  rm_closed : bool;
  rm_sourceClosed : bool;
  rm_exhausted : bool;
}.
Arguments mkRowMerge {S} _ _ _ _ _ _ _ _ _ _.
Arguments rm_reader {S} _.
Arguments rm_limit {S} _.
Arguments rm_offset {S} _.
Arguments rm_pending {S} _.
Arguments rm_current {S} _.
Arguments rm_skipped {S} _.
Arguments rm_returned {S} _.
Arguments rm_closed {S} _.
Arguments rm_sourceClosed {S} _.
Arguments rm_exhausted {S} _.
Definition closeReader {S} `{StreamOps S ColumnSeries} (done : bool) (r : seriesReader S) : option goerr * seriesReader S * bool :=
  let '(err, src, done) := orderedCloseSource done (sr_source r) in
  (err, mkSeriesReader src (sr_lookahead r) (sr_err r), done).
Definition rowLimitReached (limit returned : Z) : bool := (0 <? limit) && (limit <=? returned).
(** [Some true]: a row; [Some false]: the limit; [None]: no pending row left. *)
Fixpoint nextPendingRow {S} `{StreamOps S ColumnSeries} (pending : list Row) (s : rowMergeStream S) : option bool * rowMergeStream S :=
  match pending with
  | [] => (None, mkRowMerge (rm_reader s) (rm_limit s) (rm_offset s) [] (rm_current s) (rm_skipped s) (rm_returned s)
                   (rm_closed s) (rm_sourceClosed s) (rm_exhausted s))
  | row :: pending' =>
      if rm_skipped s <? rm_offset s then
        nextPendingRow pending' (mkRowMerge (rm_reader s) (rm_limit s) (rm_offset s) pending' (rm_current s) (rm_skipped s + 1)
          (rm_returned s) (rm_closed s) (rm_sourceClosed s) (rm_exhausted s))
      else if rowLimitReached (rm_limit s) (rm_returned s) then
        let '(_, r, done) := closeReader (rm_sourceClosed s) (rm_reader s) in
        (Some false, mkRowMerge r (rm_limit s) (rm_offset s) pending' (rm_current s) (rm_skipped s) (rm_returned s) (rm_closed s) done true)
      else
        let returned := rm_returned s + 1 in
        let '(r, done, exhausted) :=
          if rowLimitReached (rm_limit s) returned
          then let '(_, r, done) := closeReader (rm_sourceClosed s) (rm_reader s) in (r, done, true)
          else (rm_reader s, rm_sourceClosed s, rm_exhausted s) in
        (Some true, mkRowMerge r (rm_limit s) (rm_offset s) pending' row (rm_skipped s) returned (rm_closed s) done exhausted)
  end.
Definition loadNextSeriesRows {S} `{GoRuntime} `{StreamOps S ColumnSeries} (s : rowMergeStream S) : bool * rowMergeStream S :=
  let with_reader r pending := mkRowMerge r (rm_limit s) (rm_offset s) pending (rm_current s) (rm_skipped s) (rm_returned s)
                                 (rm_closed s) (rm_sourceClosed s) (rm_exhausted s) in
  let '(columns, r) := readSeriesColumns (rm_reader s) in
  match columns with
  | None => (false, with_reader r (rm_pending s))
  | Some columns =>
      match rowsFromSeriesColumns columns with
      | Ok rows => (true, with_reader r rows)
      | Err err => (false, with_reader (mkSeriesReader (sr_source r) (sr_lookahead r) (Some err)) (rm_pending s))
      | Panic _ => (false, with_reader r (rm_pending s))
      end
  end.
Fixpoint rowMergeLoop {S} `{GoRuntime} `{StreamOps S ColumnSeries} (fuel : nat) (s : rowMergeStream S) : bool * rowMergeStream S :=
  match fuel with
  | O => (false, s)
  | Datatypes.S fuel' =>
      match nextPendingRow (rm_pending s) s with
      | (Some true, s) => (true, s)
      | (_, s) =>
          let '(loaded, s) := loadNextSeriesRows s in
          if loaded : bool then rowMergeLoop fuel' s else (false, s)
      end
  end.
Definition rowMergeNext {S} `{GoRuntime} `{StreamOps S ColumnSeries} (s : rowMergeStream S) : bool * rowMergeStream S :=
  if rm_closed s || bool_decide (is_Some (sr_err (rm_reader s))) || rm_exhausted s then (false, s)
  else rowMergeLoop (Datatypes.S (Datatypes.S (readerBound (rm_reader s)))) s.
Definition rowMergeClose {S} `{StreamOps S ColumnSeries} (s : rowMergeStream S) : option goerr * rowMergeStream S :=
  if rm_closed s then (None, s)
  else
    let '(err, r, done) := closeReader (rm_sourceClosed s) (rm_reader s) in
    (err, mkRowMerge r (rm_limit s) (rm_offset s) [] (rm_current s) (rm_skipped s) (rm_returned s) true done (rm_exhausted s)).
#[export] Instance rowMergeOps {S} `{GoRuntime} `{StreamOps S ColumnSeries} : StreamOps (rowMergeStream S) Row := {|
  next := rowMergeNext;
  value := rm_current;
  serr s := sr_err (rm_reader s);
  sclose := rowMergeClose;
  bound s := length (rm_pending s) + length (concat (map cl_Timestamps (readerLeft (rm_reader s))));
|}%nat.
Definition NewRowMergeStream `{GoRuntime} (source : Stream ColumnSeries) (query : Query) : Stream Row :=
  let '(mkAnyStream C ops st) := source in
  mkAnyStream (rowMergeStream C) (@rowMergeOps C _ ops)
    (mkRowMerge (mkSeriesReader st None None) (qu_Limit query) (qu_Offset query) [] zeroRow 0 0 false false false).

(** ** expression_column_filter.go *)
Definition columnFromRows (rows : list Row) (template : ColumnSeries) : ColumnSeries :=
  let samples := omap (fun row => v ← rw_Fields row !! cl_FieldName template; Some (rw_Timestamp row, v)) rows in
  columnWith template samples.*1 samples.*2.
Definition columnsFromFilteredRows (templates : list ColumnSeries) (rows : list Row) : list ColumnSeries :=
  if bool_decide (rows = []) then []
  else filter (fun column => cl_Values column <> []) (map (columnFromRows rows) templates).
Definition filterSeriesColumnsByExpr `{GoRuntime} (columns : list ColumnSeries) (expr : QueryExpr) : outcome (list ColumnSeries) :=
  rows ← rowsFromSeriesColumns columns;
  Ok (columnsFromFilteredRows columns (filter (fun row => rowMatchesExpr row expr = true) rows)).

Record exprFilteredColumnStream (S : Type) := mkExprFiltered {
  xf_reader : seriesReader S;
  xf_expr : QueryExpr;
  xf_pending : list ColumnSeries;
  xf_current : ColumnSeries;
  xf_closed : bool;
}.
Arguments mkExprFiltered {S} _ _ _ _ _.
Arguments xf_reader {S} _.
Arguments xf_expr {S} _.
Arguments xf_pending {S} _.
Arguments xf_current {S} _.
Arguments xf_closed {S} _.
Definition loadNextSeries {S} `{GoRuntime} `{StreamOps S ColumnSeries} (s : exprFilteredColumnStream S) : bool * exprFilteredColumnStream S :=
  let '(columns, r) := readSeriesColumns (xf_reader s) in
  match columns with
  | None => (false, mkExprFiltered r (xf_expr s) (xf_pending s) (xf_current s) (xf_closed s))
  | Some columns =>
      match filterSeriesColumnsByExpr columns (xf_expr s) with
      | Ok pending => (true, mkExprFiltered r (xf_expr s) pending (xf_current s) (xf_closed s))
      | Err err => (false, mkExprFiltered (mkSeriesReader (sr_source r) (sr_lookahead r) (Some err)) (xf_expr s) [] (xf_current s) (xf_closed s))
      | Panic _ => (false, s)
      end
  end.
Fixpoint exprFilteredLoop {S} `{GoRuntime} `{StreamOps S ColumnSeries} (fuel : nat) (s : exprFilteredColumnStream S) : bool * exprFilteredColumnStream S :=
  match xf_pending s, fuel with
  | column :: pending, _ => (true, mkExprFiltered (xf_reader s) (xf_expr s) pending column (xf_closed s))
  | [], O => (false, s)
  | [], Datatypes.S fuel' =>
      let '(loaded, s) := loadNextSeries s in
      if loaded : bool then exprFilteredLoop fuel' s else (false, s)
  end.
Definition exprFilteredNext {S} `{GoRuntime} `{StreamOps S ColumnSeries} (s : exprFilteredColumnStream S) : bool * exprFilteredColumnStream S :=
  if xf_closed s || bool_decide (is_Some (sr_err (xf_reader s))) then (false, s)
  else exprFilteredLoop (Datatypes.S (Datatypes.S (readerBound (xf_reader s)))) s.
Definition exprFilteredClose {S} `{StreamOps S ColumnSeries} (s : exprFilteredColumnStream S) : option goerr * exprFilteredColumnStream S :=
  let '(err, src) := sclose (sr_source (xf_reader s)) in
  (err, mkExprFiltered (mkSeriesReader src (sr_lookahead (xf_reader s)) (sr_err (xf_reader s))) (xf_expr s) [] (xf_current s) true).
#[export] Instance exprFilteredOps {S} `{GoRuntime} `{StreamOps S ColumnSeries} : StreamOps (exprFilteredColumnStream S) ColumnSeries := {|
  next := exprFilteredNext;
  value := xf_current;
  serr s := sr_err (xf_reader s);
  sclose := exprFilteredClose;
  bound s := length (xf_pending s) + readerBound (xf_reader s);
|}%nat.
Definition NewExprFilteredColumnStream `{GoRuntime} (source : Stream ColumnSeries) (expr : QueryExpr) : Stream ColumnSeries :=
  if ex_Kind expr =? QueryExprNone then source
  else
    let '(mkAnyStream C ops st) := source in
    mkAnyStream (exprFilteredColumnStream C) (@exprFilteredOps C _ ops)
      (mkExprFiltered (mkSeriesReader st None None) expr [] zeroColumnSeries false).
