(* ===== verification/QueryStreamProofs.v ===== *)
(** * What the operators deliver

    [delivers s xs err]: the calls of Next on [s] yield [xs] and then end with
    the error [err].  Each operator is related to a function on lists; the
    lemmas compose to the specification of a query (QueryRows.v). *)
From S2P Require Import Prelude Model Runtime QueryMerge QueryModel QueryStream.
From stdpp Require Import prelude strings list sorting gmap.
From Stdlib Require Import ZArith Lia.
#[local] Open Scope Z_scope.

(** A stream that has ended stays so: calling Next again changes nothing that
    can be seen. *)
Definition ended {S A} `{StreamOps S A} (s : S) (err : option goerr) : Prop :=
  exists P : S -> Prop, P s /\ forall t, P t -> serr t = err /\ exists t', next t = (false, t') /\ P t'.
Inductive delivers {S A} `{StreamOps S A} : S -> list A -> option goerr -> Prop :=
  | dv_done s s' err : next s = (false, s') -> ended s' err -> delivers s [] err
  | dv_more s s' xs err : next s = (true, s') -> serr s' = None -> delivers s' xs err ->
      (Datatypes.S (length xs) <= bound s)%nat -> delivers s (value s' :: xs) err.
(** Closing never fails and keeps the error. *)
Definition quiet {S A : Type} (ops : StreamOps S A) : Prop :=
  forall s : S, (@sclose S A ops s).1 = None /\ @serr S A ops (@sclose S A ops s).2 = @serr S A ops s.
Definition yields {A} (s : Stream A) (xs : list A) (err : option goerr) : Prop :=
  quiet (st_ops s) /\ @delivers _ _ (st_ops s) (st_state s) xs err.

Section loops.
  Context {S A : Type} `{StreamOps S A}.
  Implicit Types (s src : S) (xs : list A).

Lemma ended_err s err : ended s err -> serr s = err.
Proof. intros (P & Hs & HP). by apply HP. Qed.
Lemma ended_next s err : ended s err -> exists s', next s = (false, s') /\ ended s' err.
Proof. intros (P & Hs & HP). destruct (HP s Hs) as (_ & s' & En & Hs'). exists s'. split; [done|]. by exists P. Qed.
Lemma ended_self s err : next s = (false, s) -> serr s = err -> ended s err.
Proof. intros En Ee. exists (eq s). split; [done|]. intros t <-. split; [done|]. by exists s. Qed.
(** A wrapper whose state steps along an ended source has ended. *)
Lemma ended_wrap {S' B} (ops' : StreamOps S' B) (R : S -> S' -> Prop) src (w : S') err : ended src err -> R src w ->
  (forall t u, serr t = err -> R t u -> serr u = err) ->
  (forall t t' u, serr t = err -> serr t' = err -> next t = (false, t') -> R t u -> exists u', next u = (false, u') /\ R t' u') ->
  ended w err.
Proof.
  intros (P & Hs & HP) HR He Hn. exists (fun u => exists t, P t /\ R t u). split; [by exists src|].
  intros u (t & Ht & Hu). destruct (HP t Ht) as (Ee & t' & En & Ht'). split; [by eapply He|].
  destruct (HP t' Ht') as (Ee' & _). destruct (Hn t t' u Ee Ee' En Hu) as (u' & Eu & Hu'). exists u'. split; [done|]. by exists t'.
Qed.
Lemma delivers_ended s err : ended s err -> delivers s [] err.
Proof. intros (s' & En & He)%ended_next. by eapply dv_done. Qed.
Lemma delivers_done s s' err : next s = (false, s') -> ended s' err -> delivers s [] err.
Proof. apply dv_done. Qed.
Lemma delivers_more s s' x xs err : next s = (true, s') -> value s' = x -> serr s' = None -> delivers s' xs err ->
  (Datatypes.S (length xs) <= bound s)%nat -> delivers s (x :: xs) err.
Proof. intros En <-. by apply dv_more. Qed.
Lemma delivers_bound s xs err : delivers s xs err -> (length xs <= bound s)%nat.
Proof. destruct 1; simpl; lia. Qed.
Lemma drainLoop_delivers s xs err : delivers s xs err -> forall fuel, (length xs < fuel)%nat -> drainLoop fuel s = (xs, err).
Proof.
  induction 1 as [s s' err En He|s s' xs err En Ee Hd IH Hb]; intros [|fuel] Hf; simpl in Hf; try lia; cbn [drainLoop]; rewrite En.
  { by rewrite (ended_err _ _ He). }
  by rewrite IH by lia.
Qed.
Lemma drain_delivers s xs err : delivers s xs err -> drain s = (xs, err).
Proof. intros Hd. apply drainLoop_delivers; [done|]. pose proof (delivers_bound _ _ _ Hd). lia. Qed.
Lemma drainTo_delivers s xs err : delivers s xs err -> forall fuel, (length xs < fuel)%nat ->
  exists s', drainTo fuel s = (xs, s') /\ ended s' err.
Proof.
  induction 1 as [s s' err En He|s s' xs err En Ee Hd IH Hb]; intros [|fuel] Hf; simpl in Hf; try lia; cbn [drainTo]; rewrite En; [by eexists|].
  destruct (IH fuel ltac:(lia)) as (s2 & -> & E). by eexists.
Qed.

(** The loop over a source, on the list of what it delivers. *)
Fixpoint seekList {T R} (body : A -> T -> option R * T) (xs : list A) (t : T) : option (R * list A) * T :=
  match xs with
  | [] => (None, t)
  | x :: xs' =>
      match body x t with
      | (Some r, t) => (Some (r, xs'), t)
      | (None, t) => seekList body xs' t
      end
  end.
Lemma seek_delivers {T R} (body : A -> T -> option R * T) src xs err : delivers src xs err -> forall t,
  match seekList body xs t with
  | (Some (r, xs'), t') => exists src', seek body src t = (Some r, src', t') /\ serr src' = None /\
      delivers src' xs' err /\ (length xs' < length xs)%nat
  | (None, t') => exists src', seek body src t = (None, src', t') /\ ended src' err
  end.
Proof.
  intros Hd. unfold seek. pose proof (delivers_bound _ _ _ Hd) as Hb. revert Hb. generalize (bound src) as n.
  induction Hd as [s s' err En He|s s' xs err En Ee Hd IH Hb']; intros n Hn t; cbn [seekLoop seekList]; rewrite En.
  { by eexists. }
  simpl in Hn. destruct (body (value s') t) as [[r|] t'] eqn:Eb.
  - exists s'. split_and!; [done..|simpl; lia].
  - destruct n as [|n]; [lia|]. specialize (IH n ltac:(lia) t').
    destruct (seekList body xs t') as [[[r xs']|] t2]; [|done].
    destruct IH as (src' & ? & ? & ? & ?). exists src'. split_and!; [done..|simpl; lia].
Qed.
End loops.

Lemma seek_ended {S A T R} `{StreamOps S A} (body : A -> T -> option R * T) (src src' : S) (t : T) :
  next src = (false, src') -> seek body src t = (None, src', t).
Proof. intros En. unfold seek. cbn [seekLoop]. by rewrite En. Qed.
Lemma delivers_slice {A} (x : A) xs : delivers (mkSlice x xs false) xs None.
Proof.
  revert x. induction xs as [|y xs IH]; intros x.
  - apply (delivers_done _ (mkSlice x [] false)); [done|]. by apply ended_self.
  - by apply (delivers_more _ (mkSlice y xs false)).
Qed.

(** ** Filters *)
Section filters.
  Context {S A B : Type} {ops : StreamOps S A}.
  Implicit Types (s src : S) (xs : list A).

Lemma quiet_filter : quiet ops -> quiet (@filterOps S A B ops).
Proof. intros Hq s. cbn. unfold filterClose. destruct (Hq (fl_source s)) as [H1 H2]. by destruct (sclose (fl_source s)). Qed.
Lemma omap_length (step : A -> option B) xs : (length (omap step xs) <= length xs)%nat.
Proof. induction xs as [|x xs IH]; cbn; [lia|]. change (list_omap _ _ step xs) with (omap step xs). destruct (step x); cbn; lia. Qed.
Lemma seekList_filter (step : A -> option B) xs :
  match seekList (fun x _ => (step x, tt)) xs tt with
  | (Some (y, xs'), _) => omap step xs = y :: omap step xs'
  | (None, _) => omap step xs = []
  end.
Proof.
  induction xs as [|x xs IH]; [done|]. cbn [seekList]. change (omap step (x :: xs)) with (match step x with Some y => y :: omap step xs | None => omap step xs end).
  by destruct (step x).
Qed.
Lemma delivers_filter (step : A -> option B) src xs err cur marks : delivers src xs err ->
  delivers (mkFilter src step cur false marks) (omap step xs) err.
Proof.
  remember (length xs) as n eqn:En. revert src xs cur En. induction n as [n IH] using (well_founded_induction lt_wf).
  intros src xs cur -> Hd. pose proof (seek_delivers (fun x _ => (step x, tt)) src xs err Hd tt) as Hs.
  pose proof (seekList_filter step xs) as Hl. destruct (seekList _ xs tt) as [[[y xs']|] []].
  - destruct Hs as (src' & Es & Ee & Hd' & Hlt). rewrite Hl.
    apply (delivers_more _ (mkFilter src' step y false marks)); [unfold next, filterOps, filterNext; cbn [fl_closed fl_source fl_step]; by rewrite Es|done|done|by eapply IH|].
    pose proof (delivers_bound _ _ _ Hd). pose proof (omap_length step xs'). cbn. lia.
  - destruct Hs as (src' & Es & Ee). rewrite Hl.
    apply (delivers_done _ (mkFilter src' step cur false marks)).
    { unfold next, filterOps, filterNext. cbn [fl_closed fl_source fl_step]. by rewrite Es. }
    apply (ended_wrap filterOps (fun t u => u = mkFilter t step cur false marks) src'); [done|done|by intros t u Et ->|].
    intros t t' u _ _ En ->. eexists. split; [|done]. unfold next at 1, filterOps, filterNext. cbn [fl_closed fl_source fl_step].
    by rewrite (seek_ended _ _ _ _ En).
Qed.
End filters.
Lemma yields_filtered {A B} (step : A -> option B) zero marks source (xs : list A) err : yields source xs err ->
  yields (filtered step zero marks source) (omap step xs) err.
Proof. destruct source as [C ops st]. intros [Hq Hd]. split; [by apply quiet_filter|by apply delivers_filter]. Qed.
Lemma omap_cons {A B} (f : A -> option B) x (xs : list A) :
  omap f (x :: xs) = match f x with Some y => y :: omap f xs | None => omap f xs end.
Proof. done. Qed.
Lemma omap_keepIf {A} (test : A -> bool) (xs : list A) : omap (keepIf test) xs = filter (fun x => test x = true) xs.
Proof.
  induction xs as [|x xs IH]; [done|]. rewrite filter_cons, omap_cons, IH. unfold keepIf. by destruct (test x).
Qed.
Lemma omap_Some {A B} (f : A -> B) (xs : list A) : omap (fun x => Some (f x)) xs = map f xs.
Proof. induction xs as [|x xs IH]; [done|]. rewrite omap_cons. cbn. by rewrite IH. Qed.
Lemma yields_keepIf {A} (test : A -> bool) zero marks source (xs : list A) err : yields source xs err ->
  yields (filtered (keepIf test) zero marks source) (filter (fun x => test x = true) xs) err.
Proof. intros Hy. rewrite <- omap_keepIf. by apply yields_filtered. Qed.
Lemma yields_map {A B} (f : A -> B) zero marks source (xs : list A) err : yields source xs err ->
  yields (filtered (fun x => Some (f x)) zero marks source) (map f xs) err.
Proof. intros Hy. rewrite <- omap_Some. by apply yields_filtered. Qed.

(** ** Budgets *)
Section budget.
  Context {S A : Type} {ops : StreamOps S A} (metric : string) (weight : A -> Z) (closes : bool).
  Implicit Types (s src : S) (xs : list A).
Local Instance bops : StreamOps (budgetStream S A) A := budgetOps metric weight closes.

Lemma quiet_budget : quiet ops -> quiet bops.
Proof. intros Hq s. cbn. unfold budgetClose. destruct (Hq (bg_source s)) as [H1 H2]. by destruct (sclose (bg_source s)). Qed.
(** What passes below the limit. *)
Fixpoint budgetList (limit count : Z) (xs : list A) (err : option goerr) : list A * option goerr :=
  match xs with
  | [] => ([], err)
  | x :: xs' =>
      let count := i64 (count + weight x) in
      if (0 <? limit) && (limit <? count) then ([], Some (NewReadBudgetError metric count limit))
      else let '(ys, e) := budgetList limit count xs' err in (x :: ys, e)
  end.
Lemma budgetList_length limit xs err : forall count, (length (budgetList limit count xs err).1 <= length xs)%nat.
Proof.
  induction xs as [|x xs IH]; intros count; simpl; [lia|]. destruct (_ && _); simpl; [lia|].
  specialize (IH (i64 (count + weight x))). destruct (budgetList _ _ xs err); simpl in *; lia.
Qed.
Lemma delivers_budget src xs err : delivers src xs err -> forall cur count limit,
  delivers (mkBudgetStream src cur None count limit false) (budgetList limit count xs err).1 (budgetList limit count xs err).2.
Proof.
  induction 1 as [s s' err En He|s s' xs err En Ee Hd IH Hb]; intros cur count limit; cbn [budgetList].
  - apply (delivers_done _ (mkBudgetStream s' cur err count limit false)).
    { cbn. unfold budgetNext. cbn. rewrite En. cbn [negb]. by rewrite (ended_err _ _ He). }
    destruct err as [e|].
    { apply ended_self; [|done]. cbn. unfold budgetNext. cbn. done. }
    apply (ended_wrap bops (fun t u => u = mkBudgetStream t cur None count limit false) s'); [done|done|by intros t u Et ->|].
    intros t t' u _ Et En' ->. eexists. split; [|done]. cbn. unfold budgetNext. cbn. rewrite En'. cbn [negb]. by rewrite Et.
  - destruct ((0 <? limit) && (limit <? i64 (count + weight (value s')))) eqn:El.
    + set (count' := i64 (count + weight (value s'))) in *.
      set (t := mkBudgetStream s' cur (Some (NewReadBudgetError metric count' limit)) count' limit false).
      assert (ended (if closes then (budgetClose t).2 else t) (Some (NewReadBudgetError metric count' limit))) as Et.
      { destruct closes; unfold budgetClose, t; cbn; [destruct (sclose s')|]; apply ended_self; done. }
      cbn [fst snd]. eapply delivers_done; [|exact Et]. cbn. unfold budgetNext. cbn. rewrite En. cbn [negb]. fold count'. by rewrite El.
    + specialize (IH (value s') (i64 (count + weight (value s'))) limit).
      pose proof (budgetList_length limit xs err (i64 (count + weight (value s')))).
      destruct (budgetList limit _ xs err) as [ys e]. cbn [fst snd] in *.
      apply (delivers_more _ (mkBudgetStream s' (value s') None (i64 (count + weight (value s'))) limit false)); [|done|done|done|].
      * cbn. unfold budgetNext. cbn. rewrite En. cbn [negb]. by rewrite El.
      * cbn. lia.
Qed.
End budget.
Lemma yields_budgeted {A} metric (weight : A -> Z) closes zero source budget xs err : yields source xs err ->
  let r := budgetList metric weight (qb_MaxSamples budget) 0 xs err in
  yields (budgeted metric weight closes zero source budget) r.1 r.2.
Proof. destruct source as [C ops st]. intros [Hq Hd] r. split; [by apply quiet_budget|by apply delivers_budget]. Qed.

(** ** Pages of rows *)
Section pages.
  Context {S : Type} {ops : StreamOps S Row}.
  Implicit Types (s src : S) (xs : list Row).

Definition pageRows {A} (limit offset : Z) (xs : list A) : list A :=
  let ys := drop (Z.to_nat offset) xs in if 0 <? limit then take (Z.to_nat limit) ys else ys.
(** The error of the source is not seen when the page is full. *)
Definition pageErr {A} (limit offset : Z) (xs : list A) (err : option goerr) : option goerr :=
  if (0 <? limit) && (limit <=? len (drop (Z.to_nat offset) xs)) then None else err.

Lemma quiet_paginated : quiet ops -> quiet (@paginatedRowOps S ops).
Proof. intros Hq s. cbn. unfold paginatedClose. destruct (Hq (pg_source s)) as [H1 H2]. by destruct (sclose (pg_source s)). Qed.
Lemma seekList_page limit offset returned xs : (0 < limit -> returned < limit) -> forall skipped,
  match drop (Z.to_nat (offset - skipped)) xs with
  | [] => exists t, seekList (pageRow limit offset returned) xs skipped = (None, t)
  | x :: xs' => seekList (pageRow limit offset returned) xs skipped = (Some (Some x, xs'), Z.max skipped offset)
  end.
Proof.
  intros Hr. induction xs as [|x xs IH]; intros skipped; [rewrite drop_nil; by eexists|]. cbn [seekList]. unfold pageRow at 1 3.
  destruct (skipped <? offset) eqn:E; [apply Z.ltb_lt in E|apply Z.ltb_ge in E].
  - replace (Z.to_nat (offset - skipped)) with (Datatypes.S (Z.to_nat (offset - (skipped + 1)))) by lia. cbn [drop].
    specialize (IH (skipped + 1)). destruct (drop _ xs); [done|]. rewrite IH. f_equal. lia.
  - replace (Z.to_nat (offset - skipped)) with 0%nat by lia. cbn [drop].
    destruct ((0 <? limit) && (limit <=? returned)) eqn:El; [lia|]. f_equal. lia.
Qed.
Lemma delivers_paginated src xs err limit offset : quiet ops -> delivers src xs err ->
  forall cur returned skipped, 0 <= returned -> (0 < limit -> returned < limit) ->
  let n := if 0 <? limit then limit - returned else limit in
  delivers (mkPaginated src cur limit offset returned skipped false false)
    (pageRows n (offset - skipped) xs) (pageErr n (offset - skipped) xs err).
Proof.
  intros Hq. remember (length xs) as k eqn:Ek. revert src xs Ek. induction k as [k IH] using (well_founded_induction lt_wf).
  intros src xs -> Hd cur returned skipped H0 Hr n.
  pose proof (seek_delivers (pageRow limit offset returned) src xs err Hd skipped) as Hs.
  pose proof (seekList_page limit offset returned xs Hr skipped) as Hl. unfold pageRows, pageErr.
  destruct (drop (Z.to_nat (offset - skipped)) xs) as [|x xs'] eqn:Ed.
  { destruct Hl as [t Hl]. rewrite Hl in Hs. destruct Hs as (src' & Es & Ee). rewrite take_nil.
    replace (if 0 <? n then [] else []) with (@nil Row) by by destruct (0 <? n).
    assert ((0 <? n) && (n <=? len (@nil Row)) = false) as -> by (change (len (@nil Row)) with 0; lia).
    apply (delivers_done _ (mkPaginated src' cur limit offset returned t false false)).
    { unfold next, paginatedRowOps, paginatedRowNext. cbn [pg_closed pg_exhausted orb pg_limit pg_offset pg_returned pg_source pg_skipped].
      by rewrite Es. }
    apply (ended_wrap paginatedRowOps (fun t' u => u = mkPaginated t' cur limit offset returned t false false) src'); [done|done|by intros ? ? Et ->|].
    intros t1 t2 u _ _ En ->. eexists. split; [|done].
    unfold next at 1, paginatedRowOps, paginatedRowNext. cbn [pg_closed pg_exhausted orb pg_limit pg_offset pg_returned pg_source pg_skipped].
    by rewrite (seek_ended _ _ _ _ En). }
  rewrite Hl in Hs. destruct Hs as (src' & Es & Ee & Hd' & Hlt).
  set (exhausted := (0 <? limit) && (limit <=? returned + 1)).
  assert (next (mkPaginated src cur limit offset returned skipped false false) =
    (true, mkPaginated (if exhausted then (sclose src').2 else src') x limit offset (returned + 1) (Z.max skipped offset) false exhausted)) as En.
  { unfold next, paginatedRowOps, paginatedRowNext. cbn [pg_closed pg_exhausted orb pg_limit pg_offset pg_returned pg_source pg_skipped].
    by rewrite Es. }
  pose proof (delivers_bound _ _ _ Hd) as Hb.
  assert (len (x :: xs') = 1 + len xs') as Hlen by (unfold len; simpl; lia). pose proof (len_nonneg xs') as Hpos.
  destruct exhausted eqn:Ex; unfold exhausted in Ex.
  - replace (0 <? n) with true by (unfold n; destruct (0 <? limit) eqn:?; lia).
    replace (Z.to_nat n) with 1%nat by (unfold n; destruct (0 <? limit) eqn:?; lia). change (take 1 (x :: xs')) with (x :: take 0 xs'). rewrite take_0.
    replace (n <=? len (x :: xs')) with true by (unfold n; destruct (0 <? limit) eqn:?; lia). cbn [andb].
    eapply delivers_more; [exact En|done|cbn; rewrite (proj2 (Hq _)); exact Ee| |cbn; lia].
    eapply (delivers_done _ (mkPaginated (sclose src').2 x limit offset (returned + 1) (Z.max skipped offset) false true)); [done|].
    apply ended_self; [done|]. cbn. rewrite (proj2 (Hq _)). exact Ee.
  - assert (length xs' < length xs)%nat by lia.
    specialize (IH (length xs') ltac:(lia) src' xs' eq_refl Hd' x (returned + 1) (Z.max skipped offset) ltac:(lia) ltac:(lia)).
    cbv zeta in IH. set (m := if 0 <? limit then limit - (returned + 1) else limit) in IH. unfold pageRows, pageErr in IH.
    replace (Z.to_nat (offset - Z.max skipped offset)) with 0%nat in IH by lia. cbn [drop] in IH.
    replace (0 <? n) with (0 <? limit) by (unfold n; destruct (0 <? limit) eqn:?; lia).
    replace (0 <? m) with (0 <? limit) in IH by (unfold m; destruct (0 <? limit) eqn:?; lia).
    replace (if 0 <? limit then take (Z.to_nat n) (x :: xs') else x :: xs') with
      (x :: if 0 <? limit then take (Z.to_nat m) xs' else xs').
    2: { destruct (0 <? limit) eqn:?; [|done]. unfold m, n. replace (Z.to_nat (limit - returned)) with (Datatypes.S (Z.to_nat (limit - (returned + 1)))) by lia. done. }
    replace (n <=? len (x :: xs')) with (m <=? len xs') by (unfold m, n; destruct (0 <? limit) eqn:?; lia).
    eapply delivers_more; [exact En|done|exact Ee|exact IH|].
    cbn. destruct (0 <? limit); [rewrite length_take|]; lia.
Qed.
End pages.
Lemma yields_paginated source limit offset xs err : yields source xs err ->
  yields (NewPaginatedRowStream source limit offset) (pageRows limit offset xs) (pageErr limit offset xs err).
Proof.
  destruct source as [C ops st]. intros [Hq Hd]. split; [by apply quiet_paginated|]. cbn.
  pose proof (delivers_paginated st xs err limit offset Hq Hd zeroRow 0 0 ltac:(lia) ltac:(lia)) as H. cbv zeta in H.
  rewrite !Z.sub_0_r in H. by destruct (0 <? limit).
Qed.

(** ** Descending order *)
Lemma rowAfter_weak : weak_order rowAfterTimeDesc.
Proof.
  apply (weak_order_ext _ (fun x y => if negb (- rw_Timestamp x =? - rw_Timestamp y) then - rw_Timestamp x <? - rw_Timestamp y
                                       else rw_SeriesID x <? rw_SeriesID y)); [|apply weak_order_lex].
  intros x y. unfold rowAfterTimeDesc.
  replace (- rw_Timestamp x =? - rw_Timestamp y) with (rw_Timestamp x =? rw_Timestamp y) by lia.
  by replace (- rw_Timestamp x <? - rw_Timestamp y) with (rw_Timestamp y <? rw_Timestamp x) by lia.
Qed.
Lemma rowBefore_after x y : rowBeforeTimeDesc x y = rowAfterTimeDesc y x.
Proof. unfold rowBeforeTimeDesc, rowAfterTimeDesc. by rewrite (Z.eqb_sym (rw_Timestamp y)). Qed.
Lemma rowBefore_weak : weak_order rowBeforeTimeDesc.
Proof.
  destruct rowAfter_weak as [H1 H2]. split; intros *; rewrite !rowBefore_after; [apply H1|].
  intros Ha Hb. by eapply H2.
Qed.
Definition rowKey (row : Row) : Z * Z := (rw_Timestamp row, rw_SeriesID row).
Lemma rowAfter_total x y : rowAfterTimeDesc x y = false -> rowAfterTimeDesc y x = false -> rowKey x = rowKey y.
Proof.
  unfold rowAfterTimeDesc. replace (rw_Timestamp y =? rw_Timestamp x) with (rw_Timestamp x =? rw_Timestamp y) by lia.
  destruct (rw_Timestamp x =? rw_Timestamp y) eqn:E; cbn [negb]; intros; unfold rowKey; f_equal; lia.
Qed.
Lemma sortRowsDesc_perm xs : sortRowsDesc xs ≡ₚ xs.
Proof. apply mergeSort_perm. Qed.
Lemma sortRowsDesc_sorted xs : StronglySorted (not_after rowAfterTimeDesc) (sortRowsDesc xs).
Proof. apply mergeSort_sorted, rowAfter_weak. Qed.
(** Rows of different series and times have one descending order. *)
Lemma sorted_desc_unique l1 l2 : StronglySorted (not_after rowAfterTimeDesc) l1 -> StronglySorted (not_after rowAfterTimeDesc) l2 ->
  l1 ≡ₚ l2 -> NoDup (map rowKey l1) -> l1 = l2.
Proof.
  intros H1 H2 Hp Hn.
  assert (forall l, StronglySorted (not_after rowAfterTimeDesc) l -> NoDup (map rowKey l) ->
    StronglySorted (fun x y => rowAfterTimeDesc x y = true) l) as Hstrict.
  { clear. induction 1 as [|x l Hs IH Hx]; intros Hn; [constructor|]. cbn [map] in Hn. apply NoDup_cons in Hn as [Hx' Hn].
    constructor; [by apply IH|]. rewrite Forall_forall in Hx |- *. intros y Hy. specialize (Hx y Hy). unfold not_after in Hx.
    destruct (rowAfterTimeDesc x y) eqn:E; [done|]. destruct Hx'. rewrite (rowAfter_total x y E Hx). by apply (list_elem_of_fmap_2 rowKey). }
  assert (Irreflexive (fun x y => rowAfterTimeDesc x y = true)).
  { intros x Hx. by rewrite (wo_asym _ rowAfter_weak _ _ Hx) in Hx. }
  assert (Transitive (fun x y => rowAfterTimeDesc x y = true)).
  { intros x y z Hxy Hyz. destruct (rowAfterTimeDesc x z) eqn:E; [done|].
    pose proof (wo_trans _ rowAfter_weak z x y E (wo_asym _ rowAfter_weak _ _ Hxy)) as Hf. simpl in *. congruence. }
  apply (sorted_perm_unique (fun x y => rowAfterTimeDesc x y = true)); [by apply Hstrict| |done].
  apply Hstrict; [done|]. by rewrite <- Hp.
Qed.

(** The bounded heap keeps the first [capacity] rows of the order. *)
Record keeps (capacity : Z) (seen rows rest : list Row) : Prop := {
  kp_heap : heap_ordered rowBeforeTimeDesc rows;
  kp_split : seen ≡ₚ rows ++ rest;
  kp_first x y : x ∈ rows -> y ∈ rest -> rowAfterTimeDesc y x = false;
  kp_full : rest = [] \/ len rows = capacity;
  kp_size : len rows <= capacity;
}.
Lemma boundRow_keeps capacity seen rows rest row : 0 < capacity -> keeps capacity seen rows rest ->
  exists rest', keeps capacity (row :: seen) (boundRow capacity rows row) rest'.
Proof.
  intros Hc [Hh Hp Hf Hfull Hsz]. unfold boundRow. destruct (len rows <? capacity) eqn:El; [apply Z.ltb_lt in El|apply Z.ltb_ge in El].
  - destruct Hfull as [->|]; [|lia]. exists []. rewrite app_nil_r in Hp. split.
    + by apply heap_Push_ordered; [apply rowBefore_weak|].
    + by rewrite heap_Push_perm, app_nil_r, Hp.
    + by intros x y _ ?%elem_of_nil.
    + by left.
    + assert (len (heap_Push rowBeforeTimeDesc rows row) = 1 + len rows) as ->; [|lia].
      unfold len. rewrite (Permutation_length (heap_Push_perm _ rows row)). simpl. lia.
  - destruct rows as [|least rows]; [unfold len in El; simpl in El; lia|].
    assert (forall y, y ∈ least :: rows -> rowAfterTimeDesc least y = false) as Hleast.
    { intros y Hy. rewrite <- rowBefore_after. by eapply heap_root_least; [apply rowBefore_weak|exact Hh|]. }
    assert (len (least :: rows) = capacity) as Hcap by lia.
    destruct (rowAfterTimeDesc row least) eqn:Er.
    + exists (least :: rest). split.
      * by eapply heap_Fix_root; [apply rowBefore_weak|exact Hh].
      * rewrite heap_Fix_perm, Hp. simpl. rewrite <- Permutation_middle. by constructor; constructor.
      * intros x y Hx Hy. rewrite heap_Fix_perm in Hx. apply elem_of_cons in Hx as [->|Hx], Hy as [->|Hy].
        -- by apply rowAfter_weak.
        -- destruct (rowAfterTimeDesc y row) eqn:Ey; [|done]. exfalso.
           pose proof (Hf least y ltac:(left) Hy) as H1.
           pose proof (wo_trans _ rowAfter_weak least y row H1 (wo_asym _ rowAfter_weak _ _ Ey)) as H2. congruence.
        -- apply Hleast. by right.
        -- apply Hf; [by right|done].
      * right. rewrite <- Hcap. unfold len. by rewrite (Permutation_length (heap_Fix_perm _ (row :: rows) 0)).
      * rewrite <- Hcap. unfold len. by rewrite (Permutation_length (heap_Fix_perm _ (row :: rows) 0)).
    + exists (row :: rest). split; [done|by rewrite Hp, Permutation_middle| |by right|done].
      intros x y Hx Hy. apply elem_of_cons in Hy as [->|Hy]; [|by apply Hf].
      exact (wo_trans _ rowAfter_weak x least row (Hleast x Hx) Er).
Qed.
Lemma bounded_keeps capacity xs : 0 < capacity -> forall seen rows rest, keeps capacity seen rows rest ->
  exists rest', keeps capacity (rev xs ++ seen) (foldl (boundRow capacity) rows xs) rest'.
Proof.
  intros Hc. induction xs as [|x xs IH]; intros seen rows rest Hk; [by exists rest|]. cbn [foldl rev].
  destruct (boundRow_keeps capacity seen rows rest x Hc Hk) as (rest' & Hk').
  destruct (IH _ _ _ Hk') as (rest2 & Hk2). exists rest2. by rewrite <- (assoc_L (++)).
Qed.
Lemma bounded_sorted capacity xs : 0 < capacity -> NoDup (map rowKey xs) ->
  sortRowsDesc (foldl (boundRow capacity) [] xs) = take (Z.to_nat capacity) (sortRowsDesc xs).
Proof.
  intros Hc Hn. destruct (bounded_keeps capacity xs Hc [] [] []) as (rest & [_ Hp Hf Hfull Hsz]).
  { split; [apply heap_ordered_nil|done|by intros ? ? ?%elem_of_nil|by left|unfold len; simpl; lia]. }
  rewrite app_nil_r in Hp. set (rows := foldl _ [] xs) in *.
  assert (sortRowsDesc xs = sortRowsDesc rows ++ sortRowsDesc rest) as ->.
  { apply sorted_desc_unique; [apply sortRowsDesc_sorted| | |by rewrite sortRowsDesc_perm].
    - apply StronglySorted_app_2; [|apply sortRowsDesc_sorted..]. intros x y Hx Hy. rewrite !sortRowsDesc_perm in *. by apply Hf.
    - rewrite !sortRowsDesc_perm, <- Hp. apply Permutation_rev. }
  assert (length (sortRowsDesc rows) = length rows) as El by apply Permutation_length, sortRowsDesc_perm.
  assert (length (sortRowsDesc rest) = length rest) as El' by apply Permutation_length, sortRowsDesc_perm.
  unfold len in *. destruct Hfull as [->|Hfull].
  - assert (sortRowsDesc [] = []) as -> by (by apply Permutation_nil_r, sortRowsDesc_perm). rewrite app_nil_r, take_ge by lia. done.
  - rewrite take_app_le by lia. by rewrite take_ge by lia.
Qed.

Section ordered.
  Context {S : Type} {ops : StreamOps S Row}.
  Implicit Types (s src : S) (xs : list Row).

Lemma quiet_ordered : quiet ops -> quiet (@orderedRowOps S ops).
Proof.
  intros Hq s. cbn. unfold orderedRowClose, orderedCloseSource. destruct (od_sourceClose s); [done|].
  destruct (Hq (od_source s)) as [H1 H2]. by destruct (sclose (od_source s)).
Qed.
Definition orderRows (limit offset : Z) (xs : list Row) : list Row :=
  if 0 <? limit then take (Z.to_nat (limit + offset)) (sortRowsDesc xs) else sortRowsDesc xs.
Lemma delivers_loaded src limit offset done closed rows : forall cur,
  delivers (mkOrdered src limit offset cur rows true None closed done) (if closed then [] else rows) None.
Proof.
  destruct closed.
  { intros cur. apply (delivers_done _ (mkOrdered src limit offset cur rows true None true done)); [done|]. by apply ended_self. }
  induction rows as [|row rows IH]; intros cur.
  - apply (delivers_done _ (mkOrdered src limit offset cur [] true None false done)); [done|]. by apply ended_self.
  - apply (delivers_more _ (mkOrdered src limit offset row rows true None false done)); [done..|apply IH|cbn; lia].
Qed.
Lemma orderRows_length limit offset xs : (length (orderRows limit offset xs) <= length xs)%nat.
Proof.
  unfold orderRows. pose proof (Permutation_length (sortRowsDesc_perm xs)). destruct (0 <? limit); [rewrite length_take|]; lia.
Qed.
Lemma delivers_ordered src xs err limit offset cur : quiet ops -> delivers src xs err -> NoDup (map rowKey xs) ->
  0 <= offset -> limit + offset < 2 ^ 63 -> loadCrashes limit offset = false ->
  delivers (mkOrdered src limit offset cur [] false None false false)
    (match err with None => orderRows limit offset xs | Some _ => [] end) err.
Proof.
  intros Hq Hd Hn Ho Hcap Ec. destruct (drainTo_delivers src xs err Hd (Datatypes.S (bound src))) as (src' & Edr & Ee%ended_err).
  { pose proof (delivers_bound _ _ _ Hd). lia. }
  set (s := mkOrdered src limit offset cur [] false None false false).
  assert (next s = orderedPop (default s (orderedLoad s))) as En by done.
  unfold orderedLoad, s in En. cbn [od_limit od_offset od_source od_left od_current od_closed od_sourceClose] in En.
  rewrite Ec, Edr, Ee in En. destruct err as [e|].
  - cbn [default] in En. unfold orderedPop in En. cbn [od_err] in En. rewrite bool_decide_true in En by done.
    eapply delivers_done; [exact En|]. by apply ended_self.
  - unfold orderedCloseSource in En. destruct (Hq src') as [Hc1 Hc2]. destruct (sclose src') as [ec src2]. simpl in Hc1. subst ec.
    cbn [default] in En.
    assert (sortRowsDesc (if 0 <? limit then foldl (boundRow (i64 (limit + offset))) (heap_Init rowBeforeTimeDesc []) xs else xs)
              = orderRows limit offset xs) as Es.
    { unfold orderRows. destruct (0 <? limit) eqn:El; [|done]. rewrite i64_id by (unfold is_i64; lia).
      by apply bounded_sorted; [lia|]. }
    rewrite Es in En. clear Es. pose proof (orderRows_length limit offset xs) as Hlen.
    destruct (orderRows limit offset xs) as [|row rows]; cbn in En.
    + eapply delivers_done; [exact En|]. by apply ended_self.
    + eapply delivers_more; [exact En|done|done|apply (delivers_loaded src2 limit offset true false rows)|].
      unfold bound at 1, orderedRowOps, s. cbn [od_left od_loaded od_source]. rewrite (drain_delivers _ _ _ Hd). cbn [fst].
      simpl in Hlen |- *. lia.
Qed.
End ordered.
Lemma yields_ordered source order limit offset xs err out : yields source xs err -> NoDup (map rowKey xs) ->
  0 <= offset -> limit + offset < 2 ^ 63 -> NewOrderedRowStream source order limit offset = Some out ->
  yields out (if descByTime order then match err with None => orderRows limit offset xs | Some _ => [] end else xs) err.
Proof.
  intros Hy Hn Ho Hc. unfold NewOrderedRowStream. destruct (descByTime order); cbn [negb]; [|by intros [= <-]].
  destruct (loadCrashes limit offset) eqn:Ec; [done|]. destruct source as [C ops st]. intros [= <-]. destruct Hy as [Hq Hd].
  split; [by apply quiet_ordered|by apply delivers_ordered].
Qed.
