(* ===== verification/QueryMergeRows.v ===== *)
(** * Rows out of columns

    The rows of a series are its timestamps in ascending order, each with the
    value of every field that has one there.  Both ways in which the code
    builds them (internal/queryexec/row_merge.go) are shown to give
    these rows, and the row stream to deliver them series by series. *)
From S2P Require Import Prelude Model Runtime QueryMerge QueryModel QueryStream QueryStreamProofs.
From stdpp Require Import prelude strings list sorting gmap.
From Stdlib Require Import ZArith Lia.
#[local] Open Scope Z_scope.

(** ** The rows of one series *)
Definition fieldSample : Type := bytes * Z * FieldValue.
Definition sampleTime (s : fieldSample) : Z := s.1.2.
Definition columnSamples (c : ColumnSeries) : list fieldSample :=
  map (fun sample => (cl_FieldName c, sample.1, sample.2)) (zip (cl_Timestamps c) (cl_Values c)).
Definition seriesSamples (columns : list ColumnSeries) : list fieldSample := concat (map columnSamples columns).
Definition setField (timestamp : Z) (fields : gmap bytes FieldValue) (s : fieldSample) : gmap bytes FieldValue :=
  if decide (s.1.2 = timestamp) then <[s.1.1 := s.2]> fields else fields.
Definition seriesFields (samples : list fieldSample) (timestamp : Z) : gmap bytes FieldValue :=
  foldl (setField timestamp) ∅ samples.
Definition times (samples : list fieldSample) : gset Z := list_to_set (map sampleTime samples).
Definition seriesRow (first : ColumnSeries) (samples : list fieldSample) (timestamp : Z) : Row :=
  mkRow (cl_SeriesID first) (cl_Measurement first) (cl_Tags first) timestamp (seriesFields samples timestamp).
Definition ascending (ts : gset Z) : list Z := merge_sort Z.le (elements ts).
Definition seriesRows (columns : list ColumnSeries) : list Row :=
  match columns with
  | [] => []
  | first :: _ => map (seriesRow first (seriesSamples columns)) (ascending (times (seriesSamples columns)))
  end.

Record column_ok (c : ColumnSeries) : Prop := {
  co_length : length (cl_Timestamps c) = length (cl_Values c);
  co_sorted : StronglySorted Z.lt (cl_Timestamps c);
}.
(** Columns of one series agree on what a row takes from its first column. *)
Definition same_series (c d : ColumnSeries) : Prop :=
  cl_SeriesID c = cl_SeriesID d /\ cl_Measurement c = cl_Measurement d /\ cl_Tags c = cl_Tags d.

Lemma ascending_sorted ts : StronglySorted Z.lt (ascending ts).
Proof.
  assert (NoDup (ascending ts)) as Hn by (unfold ascending; rewrite merge_sort_Permutation; apply NoDup_elements).
  assert (StronglySorted Z.le (ascending ts)) as Hs by (apply StronglySorted_merge_sort; apply _).
  induction Hs as [|x l Hs IH Hx]; constructor; apply NoDup_cons in Hn as [Hx' Hn]; [by apply IH|].
  rewrite Forall_forall in Hx |- *. intros y Hy. specialize (Hx y Hy). destruct (decide (x = y)); [by subst|lia].
Qed.
Lemma elem_of_ascending ts t : t ∈ ascending ts <-> t ∈ ts.
Proof. unfold ascending. by rewrite merge_sort_Permutation, elem_of_elements. Qed.
Lemma ascending_unique ts l : StronglySorted Z.lt l -> (forall t, t ∈ l <-> t ∈ ts) -> l = ascending ts.
Proof.
  intros Hs He. apply (sorted_perm_unique Z.lt); [done|apply ascending_sorted|].
  assert (forall l : list Z, StronglySorted Z.lt l -> NoDup l) as Hn.
  { clear. induction 1 as [|x l Hs IH Hx]; constructor; [|done]. rewrite Forall_forall in Hx. intros Hin. specialize (Hx x Hin). lia. }
  apply NoDup_Permutation; [by apply Hn|by apply Hn, ascending_sorted|]. intros t. by rewrite elem_of_ascending.
Qed.

(** ** Aligned columns *)
Lemma setField_columns columns timestamp : Forall column_ok columns -> forall index fields,
  Forall (fun c => cl_Timestamps c !! index = Some timestamp) columns ->
  foldl (setField timestamp) fields (seriesSamples columns) =
    foldl (fun fields c => <[cl_FieldName c := valueAt c index]> fields) fields columns.
Proof.
  induction 1 as [|c columns [Hl Hs] HF IH]; intros index fields Hi; [done|]. apply Forall_cons in Hi as [Hc Hi].
  unfold seriesSamples. cbn [map concat]. rewrite foldl_app. cbn [foldl]. rewrite <- (IH index) by done. unfold seriesSamples. f_equal.
  unfold columnSamples, valueAt. clear IH HF Hi. revert fields index Hc. revert Hl Hs.
  generalize (cl_Values c) as vs. induction (cl_Timestamps c) as [|t ts IH]; intros [|v vs] Hl Hs fields index Hc; try done.
  apply StronglySorted_inv in Hs as [Hs Ht]. rewrite Forall_forall in Ht. cbn [zip zip_with map foldl fst snd].
  destruct index as [|index].
  - simpl in Hc. injection Hc as ->. unfold setField at 2. cbn [fst snd]. rewrite decide_True by done. cbn [lookup list_lookup default].
    assert (forall l : list (Z * FieldValue), (forall s, s ∈ l -> timestamp < s.1) -> forall m,
      foldl (setField timestamp) m (map (fun s => (cl_FieldName c, s.1, s.2)) l) = m) as Hskip.
    { clear. induction l as [|s l IH]; intros Hl m; [done|]. cbn [map foldl]. unfold setField at 2. cbn [fst snd].
      rewrite decide_False by (specialize (Hl s ltac:(left)); lia). apply IH. intros s' Hs'. apply Hl. by right. }
    apply Hskip. intros [t v'] Hin%elem_of_zip_l. by apply Ht.
  - change (ts !! index = Some timestamp) in Hc. cbn [lookup list_lookup]. unfold setField at 2. cbn [fst snd].
    rewrite decide_False by (specialize (Ht timestamp (list_elem_of_lookup_2 _ _ _ Hc)); lia).
    apply IH; [simpl in Hl; lia|done|done].
Qed.

Lemma columnSamples_times c : column_ok c -> map sampleTime (columnSamples c) = cl_Timestamps c.
Proof.
  intros [Hl _]. unfold columnSamples. rewrite map_map. unfold sampleTime. cbn [fst snd].
  change (map (fun x : Z * FieldValue => x.1)) with (fmap (M := list) (fst (A := Z) (B := FieldValue))). by rewrite fst_zip by lia.
Qed.
Lemma elem_of_times columns t : Forall column_ok columns ->
  t ∈ times (seriesSamples columns) <-> exists c, c ∈ columns /\ t ∈ cl_Timestamps c.
Proof.
  intros HF. unfold times. rewrite elem_of_list_to_set. unfold seriesSamples. induction HF as [|c columns Hc HF IH]; cbn [map concat].
  - split; [intros []%elem_of_nil|]. intros (c & []%elem_of_nil & _).
  - rewrite map_app, elem_of_app, IH. rewrite (columnSamples_times c Hc). setoid_rewrite elem_of_cons. naive_solver.
Qed.
Lemma aligned_rows first columns : Forall column_ok (first :: columns) -> alignedSeriesColumns (first :: columns) = true ->
  alignedRowsFromSeriesColumns (first :: columns) = seriesRows (first :: columns).
Proof.
  intros HF Ha. assert (Forall (fun c => cl_Timestamps c = cl_Timestamps first) (first :: columns)) as Heq.
  { constructor; [done|]. cbn [alignedSeriesColumns] in Ha. rewrite forallb_forall in Ha. apply Forall_forall. intros c Hc.
    apply (bool_decide_eq_true_1 _ (Ha c (proj1 (list_elem_of_In _ _) Hc))). }
  unfold alignedRowsFromSeriesColumns, seriesRows. rewrite <- (ascending_unique _ (cl_Timestamps first)).
  - apply list_eq. intros i. rewrite list_lookup_imap, list_lookup_fmap. destruct (cl_Timestamps first !! i) as [t|] eqn:Et; [|done].
    cbn. unfold seriesRow, seriesFields. f_equal. f_equal. rewrite (setField_columns _ t HF i); [done|].
    eapply Forall_impl; [exact Heq|]. intros c Hc. cbn. by rewrite Hc.
  - apply Forall_cons in HF as [HF _]. apply HF.
  - intros t. rewrite elem_of_times by done. rewrite Forall_forall in Heq. split.
    + intros Ht. exists first. split; [left|done].
    + intros (c & Hc & Ht). by rewrite <- (Heq c Hc).
Qed.

(** ** Columns that are not aligned *)
Record indexed (first : ColumnSeries) (samples : list fieldSample) (st : list Row * gmap Z nat) : Prop := {
  xd_row i row : st.1 !! i = Some row -> st.2 !! rw_Timestamp row = Some i /\ row = seriesRow first samples (rw_Timestamp row);
  xd_index t i : st.2 !! t = Some i -> exists row, st.1 !! i = Some row /\ rw_Timestamp row = t;
  xd_times t : is_Some (st.2 !! t) <-> t ∈ times samples;
}.
Lemma seriesFields_snoc samples s t : seriesFields (samples ++ [s]) t = setField t (seriesFields samples t) s.
Proof. unfold seriesFields. by rewrite foldl_app. Qed.
Lemma times_snoc samples s : times (samples ++ [s]) = times samples ∪ {[ s.1.2 ]}.
Proof. unfold times. rewrite map_app, list_to_set_app_L. cbn. by rewrite (right_id_L ∅ (∪)). Qed.
Lemma fresh_fields samples t : t ∉ times samples -> seriesFields samples t = ∅.
Proof.
  unfold times, seriesFields. rewrite elem_of_list_to_set. generalize (∅ : gmap bytes FieldValue).
  induction samples as [|s samples IH]; intros m Hn; [done|]. cbn [map foldl] in *. apply not_elem_of_cons in Hn as [Hne Hn].
  unfold setField at 2. rewrite decide_False by (intros E; by apply Hne). by apply IH.
Qed.
Lemma appendSample_indexed first c samples st t v : same_series c first -> indexed first samples st ->
  indexed first (samples ++ [(cl_FieldName c, t, v)]) (appendSample c st (t, v)).
Proof.
  intros (E1 & E2 & E3) [Hrow Hidx Htimes]. destruct st as [rows index]. cbn [fst snd] in *. unfold appendSample.
  destruct (index !! t) as [i|] eqn:Ei.
  - destruct (Hidx t i Ei) as (row & Er & Et). split; cbn [fst snd].
    + intros j r Hj. destruct (decide (i = j)) as [<-|Hne].
      * rewrite list_lookup_alter_eq, Er in Hj. cbn in Hj. injection Hj as <-. cbn. destruct (Hrow i row Er) as [H1 H2]. split; [done|].
        rewrite H2 at 2. unfold rowWith, seriesRow. cbn. rewrite seriesFields_snoc. unfold setField. cbn [fst snd].
        rewrite decide_True by done. by rewrite H2.
      * rewrite list_lookup_alter_ne in Hj by done. destruct (Hrow j r Hj) as [H1 H2]. split; [done|].
        rewrite H2 at 1. unfold seriesRow. rewrite seriesFields_snoc. unfold setField. cbn [fst snd].
        rewrite decide_False; [done|]. intros ->. congruence.
    + intros t' j Hj. destruct (Hidx t' j Hj) as (r & Hr & Hrt). destruct (decide (i = j)) as [<-|Hne].
      * rewrite list_lookup_alter_eq, Hr. eexists. split; [done|]. done.
      * rewrite list_lookup_alter_ne by done. by exists r.
    + intros t'. rewrite Htimes, times_snoc. cbn [fst snd]. assert (t ∈ times samples) by (apply Htimes; by eexists).
      rewrite elem_of_union, elem_of_singleton. naive_solver.
  - assert (t ∉ times samples) as Hfresh by (rewrite <- Htimes, Ei; by intros []%is_Some_None).
    rewrite length_app. cbn [length]. replace (length rows + 1 - 1)%nat with (length rows) by lia.
    assert (forall j r, (alter (fun row => rowWith row (<[cl_FieldName c := v]> (rw_Fields row))) (length rows)
                (rows ++ [newRowFromColumn c t])) !! j = Some r ->
              (j = length rows /\ r = mkRow (cl_SeriesID c) (cl_Measurement c) (cl_Tags c) t {[cl_FieldName c := v]}) \/ rows !! j = Some r) as Hl.
    { intros j r Hj. destruct (decide (length rows = j)) as [<-|Hne].
      - rewrite list_lookup_alter_eq, list_lookup_middle in Hj by done. injection Hj as <-. by left.
      - rewrite list_lookup_alter_ne in Hj by done. right. apply lookup_snoc_Some in Hj as [[_ Hj]|[Hj _]]; done. }
    split; cbn [fst snd].
    + intros j r Hj. destruct (Hl j r Hj) as [[-> ->]|Hr].
      * cbn [rw_Timestamp]. rewrite lookup_insert_eq. split; [done|]. unfold seriesRow. rewrite seriesFields_snoc, fresh_fields by done.
        unfold setField. cbn [fst snd]. rewrite decide_True by done. by rewrite E1, E2, E3.
      * destruct (Hrow j r Hr) as [H1 H2]. assert (t <> rw_Timestamp r) by (intros ->; congruence).
        rewrite lookup_insert_ne by done. split; [done|]. rewrite H2 at 1. unfold seriesRow. rewrite seriesFields_snoc.
        unfold setField. cbn [fst snd]. by rewrite decide_False.
    + intros t' j. destruct (decide (t = t')) as [<-|Hne].
      * rewrite lookup_insert_eq. intros [= <-]. rewrite list_lookup_alter_eq, list_lookup_middle by done. by eexists.
      * rewrite lookup_insert_ne by done. intros Hj. destruct (Hidx t' j Hj) as (r & Hr & Hrt). exists r. split; [|done].
        pose proof (lookup_lt_Some _ _ _ Hr). rewrite list_lookup_alter_ne by lia. by rewrite lookup_app_l.
    + intros t'. rewrite times_snoc, elem_of_union, elem_of_singleton. cbn [fst snd]. destruct (decide (t = t')) as [<-|Hne].
      * rewrite lookup_insert_eq. split; [by right|done].
      * rewrite lookup_insert_ne by done. rewrite Htimes. unfold sampleTime. cbn [fst snd]. naive_solver.
Qed.
Lemma appendColumnRows_indexed first c samples st : same_series c first -> indexed first samples st ->
  indexed first (samples ++ columnSamples c) (appendColumnRows st c).
Proof.
  intros Hc. unfold appendColumnRows, columnSamples. revert samples st. induction (zip (cl_Timestamps c) (cl_Values c)) as [|[t v] l IH];
    intros samples st Hi; cbn [map foldl]; [by rewrite app_nil_r|].
  change (?x :: ?l) with ([x] ++ l). rewrite (assoc_L (++)). apply IH. by apply appendSample_indexed.
Qed.
Lemma columns_indexed first columns : Forall (fun c => same_series c first) columns -> forall samples st, indexed first samples st ->
  indexed first (samples ++ seriesSamples columns) (foldl appendColumnRows st columns).
Proof.
  induction 1 as [|c columns Hc HF IH]; intros samples st Hi; unfold seriesSamples; cbn [map concat foldl]; [by rewrite app_nil_r|].
  rewrite (assoc_L (++)). apply IH. by apply appendColumnRows_indexed.
Qed.

Section rows.
  Context `{GoRuntimeLaws}.

Lemma mapped_rows first columns : Forall (fun c => same_series c first) (first :: columns) ->
  mappedRowsFromSeriesColumns (first :: columns) = seriesRows (first :: columns).
Proof.
  intros HF. unfold mappedRowsFromSeriesColumns. set (less := fun l r : Row => _).
  destruct (columns_indexed first (first :: columns) HF [] ([], ∅)) as [Hrow Hidx Htimes].
  { split; cbn [fst snd]; [intros i row Hi; by rewrite lookup_nil in Hi|intros t i Hi; by rewrite lookup_empty in Hi|].
    intros t. rewrite lookup_empty. unfold times. cbn. rewrite elem_of_empty. split; [by intros []%is_Some_None|done]. }
  cbn [app] in *. set (st := foldl appendColumnRows ([], ∅) (first :: columns)) in *. set (samples := seriesSamples (first :: columns)) in *.
  pose proof (sort_Slice_perm less st.1) as Hp. pose proof (sort_Slice_sorted less st.1 (weak_order_key rw_Timestamp)) as Hs.
  set (rows := sort_Slice less st.1) in *.
  assert (Forall (fun r => r = seriesRow first samples (rw_Timestamp r)) rows) as Hform.
  { apply Forall_forall. intros r Hr. rewrite Hp in Hr. apply list_elem_of_lookup in Hr as [i Hi]. by apply (Hrow i). }
  assert (NoDup (map rw_Timestamp st.1)) as Hn.
  { apply NoDup_alt. intros i j t Hi Hj. rewrite list_lookup_fmap in Hi, Hj.
    destruct (st.1 !! i) as [r|] eqn:Er; [|done]. destruct (st.1 !! j) as [r'|] eqn:Er'; [|done]. cbn in Hi, Hj. injection Hi as <-. injection Hj as Ht.
    destruct (Hrow i r Er) as [H1 _]. destruct (Hrow j r' Er') as [H2 _]. rewrite Ht in H2. congruence. }
  assert (StronglySorted Z.lt (map rw_Timestamp rows)) as Hlt.
  { assert (NoDup (map rw_Timestamp rows)) as Hn' by by rewrite Hp. clear Hform Hp. clearbody rows.
    induction Hs as [|r rows Hs IH Hr]; constructor; cbn [map] in Hn'; apply NoDup_cons in Hn' as [Hr' Hn']; [by apply IH|].
    apply Forall_forall. intros t Ht. apply list_elem_of_fmap in Ht as (r' & -> & Hin). rewrite Forall_forall in Hr. specialize (Hr r' Hin).
    unfold not_after, less in Hr. apply Z.ltb_ge in Hr.
    destruct (decide (rw_Timestamp r = rw_Timestamp r')) as [E|]; [|lia]. destruct Hr'. rewrite E. by apply (list_elem_of_fmap_2 rw_Timestamp). }
  unfold seriesRows. fold samples. rewrite <- (ascending_unique (times samples) (map rw_Timestamp rows) Hlt).
  - rewrite map_map. clear -Hform. induction Hform as [|r rows Hr HF IH]; [done|]. cbn [map]. by rewrite <- Hr, <- IH.
  - intros t. rewrite <- Htimes. rewrite Hp. split.
    + intros Ht. apply list_elem_of_fmap in Ht as (r & -> & Hin). apply list_elem_of_lookup in Hin as [i Hi].
      destruct (Hrow i r Hi) as [E _]. by eexists.
    + intros [i Hi]. destruct (Hidx t i Hi) as (r & Hr & <-). apply (list_elem_of_fmap_2 rw_Timestamp). by eapply list_elem_of_lookup_2.
Qed.

(** The rows of well-formed columns of one series, whichever way is taken. *)
Lemma rowsFromSeriesColumns_spec columns : Forall column_ok columns ->
  (forall c d, c ∈ columns -> d ∈ columns -> same_series c d) -> rowsFromSeriesColumns columns = Ok (seriesRows columns).
Proof.
  intros HF Hsame. unfold rowsFromSeriesColumns. destruct columns as [|first columns]; [done|]. rewrite bool_decide_false by done.
  unfold validateColumnLengths. rewrite (proj2 (forallb_forall _ _)).
  2: { intros c Hc%list_elem_of_In. rewrite Forall_forall in HF. destruct (HF c Hc) as [Hl _]. unfold len. by rewrite Hl, Z.eqb_refl. }
  cbn [mbind outcome_bind]. destruct (alignedSeriesColumns (first :: columns)) eqn:Ea; f_equal; [by apply aligned_rows|].
  apply mapped_rows. apply Forall_forall. intros c Hc. apply Hsame; [done|left].
Qed.
End rows.

(** ** The row stream *)
Definition runStep (c : ColumnSeries) (runs : list (list ColumnSeries)) : list (list ColumnSeries) :=
  match runs with
  | (d :: run) :: runs' => if cl_SeriesID d =? cl_SeriesID c then (c :: d :: run) :: runs' else [c] :: runs
  | _ => [c] :: runs
  end.
(** Consecutive columns of one series. *)
Definition seriesRuns (columns : list ColumnSeries) : list (list ColumnSeries) := foldr runStep [] columns.
(** A run is complete when another follows or the source ended without error. *)
Definition completeRuns (err : option goerr) (runs : list (list ColumnSeries)) : list (list ColumnSeries) :=
  match err with None => runs | Some _ => removelast runs end.
Definition mergedRows (err : option goerr) (columns : list ColumnSeries) : list Row :=
  concat (map seriesRows (completeRuns err (seriesRuns columns))).

(** The columns of one series that come first, and the rest. *)
Fixpoint firstRun (series : Z) (columns : list ColumnSeries) : list ColumnSeries * list ColumnSeries :=
  match columns with
  | c :: columns' => if cl_SeriesID c =? series then let '(run, rest) := firstRun series columns' in (c :: run, rest) else ([], columns)
  | [] => ([], [])
  end.
Lemma firstRun_app series columns : (firstRun series columns).1 ++ (firstRun series columns).2 = columns.
Proof.
  induction columns as [|c columns IH]; [done|]. simpl. destruct (_ =? _); [|done]. destruct (firstRun series columns). simpl in *. by rewrite IH.
Qed.
Lemma seriesRuns_first c columns : seriesRuns (c :: columns) =
  (c :: (firstRun (cl_SeriesID c) columns).1) :: seriesRuns (firstRun (cl_SeriesID c) columns).2.
Proof.
  revert c. induction columns as [|d columns IH]; intros c; [done|]. change (seriesRuns (c :: d :: columns)) with (runStep c (seriesRuns (d :: columns))).
  rewrite IH. cbn [runStep firstRun]. destruct (cl_SeriesID d =? cl_SeriesID c) eqn:E.
  - apply Z.eqb_eq in E. rewrite E. by destruct (firstRun (cl_SeriesID c) columns).
  - cbn [fst snd]. by rewrite IH.
Qed.
Lemma firstRun_series series columns c : c ∈ (firstRun series columns).1 -> cl_SeriesID c = series.
Proof.
  induction columns as [|d columns IH]; simpl; [by intros ?%elem_of_nil|]. destruct (cl_SeriesID d =? series) eqn:E; simpl; [|by intros ?%elem_of_nil].
  destruct (firstRun series columns). simpl in *. intros [->|Hc]%elem_of_cons; [lia|by apply IH].
Qed.

Lemma StronglySorted_lt_NoDup (l : list Z) : StronglySorted Z.lt l -> NoDup l.
Proof. induction 1 as [|x l Hs IH Hx]; constructor; [|done]. rewrite Forall_forall in Hx. intros Hin. specialize (Hx x Hin). lia. Qed.
Lemma seriesRows_length run : (length (seriesRows run) <= length (concat (map cl_Timestamps run)))%nat.
Proof.
  destruct run as [|first run]; [done|]. unfold seriesRows. rewrite length_map. generalize (first :: run) as columns. intros columns.
  assert (ascending (times (seriesSamples columns)) ⊆+ map sampleTime (seriesSamples columns)) as Hsub.
  { apply NoDup_submseteq; [apply StronglySorted_lt_NoDup, ascending_sorted|]. intros t.
    rewrite elem_of_ascending. unfold times. by rewrite elem_of_list_to_set. }
  apply submseteq_length in Hsub. rewrite length_map in Hsub. etrans; [exact Hsub|]. clear. unfold seriesSamples.
  induction columns as [|c columns IH]; [done|]. cbn [map concat]. rewrite !length_app. unfold columnSamples at 1. rewrite length_map, length_zip_with. lia.
Qed.
Lemma seriesRuns_concat columns : concat (seriesRuns columns) = columns.
Proof.
  induction columns as [|c columns IH]; [done|]. change (seriesRuns (c :: columns)) with (runStep c (seriesRuns columns)).
  unfold runStep. destruct (seriesRuns columns) as [|[|d run] runs]; simpl in *; [by rewrite <- IH|by rewrite IH|].
  destruct (_ =? _); simpl; by rewrite IH.
Qed.
Lemma mergedRows_length err columns : (length (mergedRows err columns) <= length (concat (map cl_Timestamps columns)))%nat.
Proof.
  unfold mergedRows. rewrite <- (seriesRuns_concat columns) at 2. generalize (seriesRuns columns) as runs. intros runs.
  assert (length (concat (map seriesRows runs)) <= length (concat (map cl_Timestamps (concat runs))))%nat as Hall.
  { induction runs as [|run runs IH]; [done|]. cbn [map concat]. rewrite map_app, concat_app, !length_app.
    pose proof (seriesRows_length run). lia. }
  destruct err as [e|]; [|exact Hall]. etrans; [|exact Hall]. clear. cbn [completeRuns].
  induction runs as [|run runs IH]; [done|]. cbn [map concat removelast]. destruct runs; [simpl; lia|]. cbn [map concat] in *.
  rewrite !length_app in *. lia.
Qed.
(** What the columns of a query satisfy. *)
Record columns_ok (columns : list ColumnSeries) : Prop := {
  cs_ok : Forall column_ok columns;
  cs_same c d : c ∈ columns -> d ∈ columns -> cl_SeriesID c = cl_SeriesID d -> same_series c d;
}.
Lemma columns_ok_sub columns columns' : columns' ⊆ columns -> columns_ok columns -> columns_ok columns'.
Proof.
  intros Hs [H1 H2]. split; [|by auto]. rewrite Forall_forall in H1 |- *. auto.
Qed.

Section stream.
  Context `{GoRuntimeLaws} {S : Type} {ops : StreamOps S ColumnSeries}.
  Implicit Types (src : S) (r : seriesReader S).

(** What a reader has still to deliver. *)
Inductive reads r : list ColumnSeries -> option goerr -> Prop :=
  | rd_more xs err : sr_err r = None -> delivers (sr_source r) xs err -> reads r (option_list (sr_lookahead r) ++ xs) err.
Lemma reads_bound r cols err : reads r cols err -> (length cols <= readerBound r)%nat.
Proof. intros [xs err' _ Hd]. unfold readerBound. rewrite length_app. pose proof (delivers_bound _ _ _ Hd). lia. Qed.
Lemma reads_left r cols err : reads r cols err -> readerLeft r = cols.
Proof. intros [xs err' _ Hd]. unfold readerLeft. by rewrite (drain_delivers _ _ _ Hd). Qed.

Lemma nextColumn_spec r cols err : reads r cols err ->
  match cols with
  | [] => exists r', nextColumn r = (None, r') /\ sr_err r' = err /\ sr_lookahead r' = None /\ ended (sr_source r') err
  | c :: cols' => exists r', nextColumn r = (Some c, r') /\ reads r' cols' err /\ sr_lookahead r' = None
  end.
Proof.
  intros [xs err' He Hd]. unfold nextColumn. destruct (sr_lookahead r) as [c|] eqn:El; cbn [option_list app].
  - eexists. split; [done|]. split; [|done]. apply (rd_more (mkSeriesReader (sr_source r) None (sr_err r)) xs err'); done.
  - destruct Hd as [s s' e En Hend|s s' xs e En Ee Hd Hb]; rewrite En.
    + eexists. split; [done|]. by rewrite (ended_err _ _ Hend).
    + eexists. split; [done|]. split; [|done]. by apply (rd_more (mkSeriesReader s' None (sr_err r)) xs e).
Qed.
Lemma moreColumns_spec series cols err : forall fuel r acc, (length cols < fuel)%nat -> reads r cols err ->
  let '(run, rest) := firstRun series cols in
  match rest with
  | [] => exists r', moreColumns fuel series acc r = (if bool_decide (err = None) then Some (acc ++ run) else None, r') /\ sr_err r' = err /\
      (err = None -> reads r' [] None)
  | _ => exists r', moreColumns fuel series acc r = (Some (acc ++ run), r') /\ reads r' rest err
  end.
Proof.
  induction cols as [|c cols IH]; intros [|fuel] r acc Hf Hr; simpl in Hf; try lia; cbn [moreColumns firstRun];
    pose proof (nextColumn_spec _ _ _ Hr) as Hn; cbn beta iota in Hn.
  - destruct Hn as (r' & -> & He & Hla & Hend). rewrite app_nil_r. exists r'. rewrite He. split_and!; [done..|]. intros ->.
    pose proof (rd_more r' [] None He (delivers_ended _ _ Hend)) as Hr'. by rewrite Hla in Hr'.
  - destruct Hn as (r' & -> & Hr' & Hla). destruct (cl_SeriesID c =? series) eqn:E; cbn [negb].
    + specialize (IH fuel r' (acc ++ [c]) ltac:(lia) Hr'). destruct (firstRun series cols) as [run rest].
      rewrite <- (assoc_L (++)) in IH. cbn [app] in IH. destruct rest; exact IH.
    + rewrite app_nil_r. eexists. split; [done|]. destruct Hr' as [xs err' He Hd]. rewrite Hla. cbn [option_list app].
      by apply (rd_more (mkSeriesReader (sr_source r') (Some c) (sr_err r')) xs err').
Qed.

Lemma quiet_rowMerge : quiet ops -> quiet (@rowMergeOps S _ ops).
Proof.
  intros Hq s. cbn. unfold rowMergeClose, closeReader, orderedCloseSource. destruct (rm_closed s); [done|]. destruct (rm_sourceClosed s); [done|].
  destruct (Hq (sr_source (rm_reader s))) as [H1 H2]. by destruct (sclose (sr_source (rm_reader s))).
Qed.
Abbreviation merging r pending cur returned := (mkRowMerge r 0 0 pending cur 0 returned false false false).

Lemma readSeriesColumns_spec r cols err : reads r cols err ->
  match cols with
  | [] => exists r', readSeriesColumns r = (None, r') /\ sr_err r' = err /\ sr_lookahead r' = None /\ ended (sr_source r') err
  | c :: cols' =>
      let '(run, rest) := firstRun (cl_SeriesID c) cols' in
      (rest = [] /\ is_Some err /\ exists r', readSeriesColumns r = (None, r') /\ sr_err r' = err) \/
      (exists r', readSeriesColumns r = (Some (c :: run), r') /\ reads r' rest err /\ (rest <> [] \/ err = None))
  end.
Proof.
  intros Hr. pose proof (nextColumn_spec _ _ _ Hr) as Hn. unfold readSeriesColumns. destruct cols as [|c cols].
  { destruct Hn as (r' & -> & Hn). by exists r'. }
  destruct Hn as (r' & -> & Hr' & Hla).
  assert (length cols < Datatypes.S (bound (sr_source r')))%nat as Hf.
  { pose proof (reads_bound _ _ _ Hr') as Hb. unfold readerBound in Hb. rewrite Hla in Hb. simpl in Hb. lia. }
  pose proof (moreColumns_spec (cl_SeriesID c) cols err _ r' [c] Hf Hr') as Hm.
  destruct (firstRun (cl_SeriesID c) cols) as [run rest]. destruct rest as [|d rest].
  - destruct Hm as (r2 & -> & He & Hend). destruct err as [e|].
    + left. split_and!; [done|by eexists|]. rewrite bool_decide_false by done. by exists r2.
    + right. rewrite bool_decide_true by done. exists r2. split_and!; [done|by apply Hend|by right].
  - destruct Hm as (r2 & -> & Hr2). right. exists r2. split_and!; [done|done|by left].
Qed.
Lemma rowMerge_ended src cur returned : ended src None -> ended (merging (mkSeriesReader src None None) [] cur returned) None.
Proof.
  intros He. apply (ended_wrap rowMergeOps (fun t u => u = merging (mkSeriesReader t None None) [] cur returned) src); [done|done|by intros t u Et ->|].
  intros t t' u _ Et En ->. eexists. split; [|done]. unfold next at 1, rowMergeOps, rowMergeNext. cbn [rm_closed rm_reader sr_err rm_exhausted orb].
  rewrite bool_decide_false by by intros []%is_Some_None. cbn [orb rowMergeLoop rm_pending nextPendingRow]. unfold loadNextSeriesRows, readSeriesColumns, nextColumn.
  cbn [rm_reader sr_lookahead sr_source]. rewrite En. cbn. by rewrite Et.
Qed.
Lemma nextPendingRow_cons r row pending cur returned : nextPendingRow (row :: pending) (merging r (row :: pending) cur returned) =
  (Some true, merging r pending row (returned + 1)).
Proof. done. Qed.
Lemma rowMergeLoop_spec cols err : columns_ok cols -> forall fuel r pending cur returned, (Datatypes.S (length cols) < fuel)%nat -> reads r cols err ->
  match pending ++ mergedRows err cols with
  | [] => exists s', rowMergeLoop fuel (merging r pending cur returned) = (false, s') /\ ended s' err
  | row :: rows => exists r' pending' cols', rowMergeLoop fuel (merging r pending cur returned) = (true, merging r' pending' row (returned + 1)) /\
      sr_err r' = None /\ reads r' cols' err /\ columns_ok cols' /\ rows = pending' ++ mergedRows err cols'
  end.
Proof.
  remember (length cols) as n eqn:En. revert cols En. induction n as [n IH] using (well_founded_induction lt_wf).
  intros cols -> Hok [|fuel] r pending cur returned Hf Hr; [lia|]. cbn [rowMergeLoop rm_pending].
  destruct pending as [|row pending].
  2: { rewrite nextPendingRow_cons. exists r, pending, cols. split_and!; try done. by destruct Hr. }
  cbn [nextPendingRow app]. unfold loadNextSeriesRows. cbn [rm_reader rm_limit rm_offset rm_current rm_skipped rm_returned rm_closed rm_sourceClosed rm_exhausted rm_pending].
  pose proof (readSeriesColumns_spec _ _ _ Hr) as Hs. destruct cols as [|c cols].
  { destruct Hs as (r' & -> & He & Hla & Hend). cbn. assert (mergedRows err [] = []) as -> by by destruct err. eexists. split; [done|].
    destruct err as [e|]; [apply ended_self; [|done]|].
    - unfold next, rowMergeOps, rowMergeNext. cbn [rm_reader rm_closed]. by rewrite He.
    - destruct r' as [src la e]. cbn in *. subst. by apply rowMerge_ended. }
  unfold mergedRows. rewrite seriesRuns_first. pose proof (firstRun_app (cl_SeriesID c) cols) as Happ. pose proof (firstRun_series (cl_SeriesID c) cols) as Hids.
  destruct (firstRun (cl_SeriesID c) cols) as [run rest]. cbn [fst snd] in *. destruct Hs as [(-> & [e ->] & r' & -> & He)|(r' & -> & Hr' & Hmore)].
  - cbn. eexists. split; [done|]. apply ended_self; [|done]. unfold next, rowMergeOps, rowMergeNext. cbn [rm_reader rm_closed]. by rewrite He.
  - assert (c :: run ⊆ c :: cols) as Hsub by (rewrite <- Happ; intros x [->|Hx]%elem_of_cons; [left|right; apply elem_of_app; by left]).
    rewrite rowsFromSeriesColumns_spec.
    2: { by apply (columns_ok_sub _ _ Hsub). }
    2: { intros x y Hx Hy. apply (cs_same _ Hok); [by apply Hsub|by apply Hsub|].
         assert (forall z, z ∈ c :: run -> cl_SeriesID z = cl_SeriesID c) as Hid by (intros z [->|Hz]%elem_of_cons; [done|by apply Hids]).
         by rewrite (Hid x Hx), (Hid y Hy). }
    assert (columns_ok rest) as Hok'.
    { apply (columns_ok_sub (c :: cols)); [|done]. rewrite <- Happ. intros x Hx. right. apply elem_of_app. by right. }
    assert (length rest <= length cols)%nat as Hlen by (rewrite <- Happ, length_app; lia). simpl in Hf.
    specialize (IH (length rest) ltac:(simpl; lia) rest eq_refl Hok' fuel r' (seriesRows (c :: run)) cur returned ltac:(lia) Hr').
    assert (completeRuns err ((c :: run) :: seriesRuns rest) = (c :: run) :: completeRuns err (seriesRuns rest)) as E.
    { destruct err as [e|]; [|done]. destruct Hmore as [Hne|]; [|done]. destruct rest as [|d rest]; [done|]. by rewrite seriesRuns_first. }
    rewrite E. cbn [map concat]. exact IH.
Qed.
Lemma delivers_rowMerge rows err : forall cols r pending cur returned, reads r cols err -> columns_ok cols ->
  rows = pending ++ mergedRows err cols -> delivers (merging r pending cur returned) rows err.
Proof.
  induction rows as [|row rows IH]; intros cols r pending cur returned Hr Hok Hrows;
    pose proof (rowMergeLoop_spec cols err Hok (Datatypes.S (Datatypes.S (readerBound r))) r pending cur returned) as Hl; rewrite <- Hrows in Hl;
    (assert (sr_err r = None) as He by by destruct Hr);
    (assert (next (merging r pending cur returned) = rowMergeLoop (Datatypes.S (Datatypes.S (readerBound r))) (merging r pending cur returned)) as En
       by (unfold next, rowMergeOps, rowMergeNext; cbn [rm_closed rm_reader rm_exhausted]; by rewrite He));
    pose proof (reads_bound _ _ _ Hr).
  - destruct Hl as (s' & El & Hend); [lia|done|]. eapply dv_done; [by rewrite En|done].
  - destruct Hl as (r' & pending' & cols' & El & He' & Hr' & Hok' & Hrows'); [lia|done|].
    eapply delivers_more; [by rewrite En|done|exact He'|by eapply IH|].
    apply (f_equal length) in Hrows. rewrite length_app in Hrows. pose proof (mergedRows_length err cols).
    unfold bound, rowMergeOps. cbn [rm_pending rm_reader]. rewrite (reads_left _ _ _ Hr). simpl in Hrows. lia.
Qed.
End stream.
Lemma yields_rowMerge `{GoRuntimeLaws} source query cols err : qu_Limit query = 0 -> qu_Offset query = 0 -> columns_ok cols ->
  yields source cols err -> yields (NewRowMergeStream source query) (mergedRows err cols) err.
Proof.
  destruct source as [C ops st]. intros E1 E2 Hok [Hq Hd]. split; [by apply quiet_rowMerge|]. cbn. rewrite E1, E2.
  apply (delivers_rowMerge _ _ cols); [|done|done]. by apply (rd_more (mkSeriesReader st None None) cols err).
Qed.
