(* ===== verification/QueryAggregate.v ===== *)
(** * Aggregates

    internal/queryexec/aggregate.go, aggregate_numeric.go, aggregate_timeseries.go
    (whole columns and windows), group_aggregate.go and group_aggregate_state.go
    (groups of series by tags, accumulated value by value).  The key of a value
    in the count of a mode is a formatted string in the code; values have
    one key exactly when [fieldValueKey] agrees ([%g] prints the shortest decimal
    that reads back, and all NaN alike). *)
From S2P Require Import Prelude Model Float64 Runtime QueryMerge QueryModel QueryStream.
From stdpp Require Import prelude strings list sorting gmap.
From Stdlib Require Import ZArith Lia SpecFloat.
#[local] Open Scope Z_scope.

Definition f_zero : Z := 0.
Definition f_sqrt (b : Z) : Z := to_bits (SFsqrt f_prec f_emax (of_bits b)).
Definition second : Z := 1000000000.
Definition ErrUnsupportedAggregate : goerr := Errorf "unsupported aggregate".

(** ** aggregate_numeric.go; [values] is not empty *)
Definition valueZero (values : list FieldValue) : FieldValue := default zeroFieldValue (head values).
Definition aggregateSum (values : list FieldValue) : outcome FieldValue :=
  let t := fv_Type (valueZero values) in
  if t =? FieldFloat64 then Ok (Float64Value (foldl (fun sum v => f_add sum (fv_Float64 v)) f_zero values))
  else if t =? FieldInt64 then Ok (Int64Value (foldl (fun sum v => i64 (sum + fv_Int64 v)) 0 values))
  else Err (Errorf "sum does not support field type").
Definition aggregateAvg (values : list FieldValue) : outcome FieldValue :=
  sum ← aggregateSum values;
  if fv_Type sum =? FieldFloat64 then Ok (Float64Value (f_div (fv_Float64 sum) (f_of_int (len values))))
  else Ok (Float64Value (f_div (f_of_int (fv_Int64 sum)) (f_of_int (len values)))).
Definition aggregateFloatMinMax (values : list FieldValue) (min : bool) : FieldValue :=
  Float64Value (foldl (fun best v =>
    if (min && f_ltb (fv_Float64 v) best) || (negb min && f_ltb best (fv_Float64 v)) then fv_Float64 v else best)
    (fv_Float64 (valueZero values)) (tail values)).
Definition aggregateIntMinMax (values : list FieldValue) (min : bool) : FieldValue :=
  Int64Value (foldl (fun best v =>
    if (min && (fv_Int64 v <? best)) || (negb min && (best <? fv_Int64 v)) then fv_Int64 v else best)
    (fv_Int64 (valueZero values)) (tail values)).
Definition aggregateMinMax (values : list FieldValue) (min : bool) : outcome FieldValue :=
  let t := fv_Type (valueZero values) in
  if t =? FieldFloat64 then Ok (aggregateFloatMinMax values min)
  else if t =? FieldInt64 then Ok (aggregateIntMinMax values min)
  else Err (Errorf "min/max does not support field type").

(** ** aggregate_timeseries.go *)
Definition lastValue (values : list FieldValue) : FieldValue := default zeroFieldValue (last values).
Definition transformAggregate (fn : bytes) : bool := bool_decide (fn = str "difference") || bool_decide (fn = str "derivative").
Definition numericValues (values : list FieldValue) : bool := forallb isNumericFieldValue values.
Definition allIntValues (values : list FieldValue) : bool := forallb (fun v => fv_Type v =? FieldInt64) values.
Definition secondsBetween (first last : Z) : Z := f_div (f_of_int (i64 (last - first))) (f_of_int second).
(** [seconds <= 0] *)
Definition notPositive (seconds : Z) : bool := f_ltb seconds f_zero || f_eqb seconds f_zero.
(** The value, or none when the time does not advance. *)
Definition transformValue (previous current : FieldValue) (previousTime currentTime : Z) (fn : bytes) : outcome (option FieldValue) :=
  if negb (isNumericFieldValue previous) || negb (isNumericFieldValue current) then Err (Errorf "numeric values required")
  else
    let diff := f_sub (fieldValueAsFloat current) (fieldValueAsFloat previous) in
    if bool_decide (fn = str "difference") then
      if (fv_Type previous =? FieldInt64) && (fv_Type current =? FieldInt64)
      then Ok (Some (Int64Value (i64 (fv_Int64 current - fv_Int64 previous))))
      else Ok (Some (Float64Value diff))
    else
      let seconds := secondsBetween previousTime currentTime in
      if notPositive seconds then Ok None else Ok (Some (Float64Value (f_div diff seconds))).
Fixpoint transformLoop (fn : bytes) (timestamps : list Z) (values : list FieldValue) : outcome (list (Z * FieldValue)) :=
  match values with
  | previous :: (current :: _) as values' =>
      match timestamps with
      | previousTime :: (currentTime :: _) as timestamps' =>
          v ← transformValue previous current previousTime currentTime fn;
          rest ← transformLoop fn timestamps' values';
          Ok (match v with Some v => (currentTime, v) :: rest | None => rest end)
      | _ => Panic IndexOutOfRange
      end
  | _ => Ok []
  end.
Definition withType (column : ColumnSeries) (fieldType : Z) : ColumnSeries :=
  mkColumnSeries (cl_SeriesID column) (cl_Measurement column) (cl_Tags column) (cl_FieldID column) (cl_FieldName column)
    fieldType (cl_Timestamps column) (cl_Values column).
Definition aggregateTransformColumn (out column : ColumnSeries) (fn : bytes) : outcome ColumnSeries :=
  samples ← transformLoop fn (cl_Timestamps column) (cl_Values column);
  let fieldType := if bool_decide (fn = str "difference") && allIntValues (cl_Values column) then FieldInt64 else FieldFloat64 in
  Ok (columnWith (withType out fieldType) samples.*1 samples.*2).

Definition counterPairIncrease (previous current : FieldValue) : outcome Z :=
  if negb (isNumericFieldValue previous) || negb (isNumericFieldValue current) then Err (Errorf "rate requires numeric values")
  else
    let left := fieldValueAsFloat previous in
    let right := fieldValueAsFloat current in
    if f_ltb left right || f_eqb left right then Ok (f_sub right left) else Ok right.
Fixpoint counterLoop (total : Z) (values : list FieldValue) : outcome Z :=
  match values with
  | previous :: (current :: _) as values' =>
      increase ← counterPairIncrease previous current; counterLoop (f_add total increase) values'
  | _ => Ok total
  end.
Definition counterIncrease (values : list FieldValue) : outcome Z := counterLoop f_zero values.
Definition aggregateRate (values : list FieldValue) (timestamps : list Z) : outcome FieldValue :=
  if len values <? 2 then Err (Errorf "rate requires at least two values")
  else
    increase ← counterIncrease values;
    let seconds :=
      if len timestamps =? len values then secondsBetween (default 0 (head timestamps)) (default 0 (last timestamps))
      else f_of_int (len values - 1) in
    if notPositive seconds then Err (Errorf "rate requires increasing timestamps") else Ok (Float64Value (f_div increase seconds)).
Definition aggregateIRate (values : list FieldValue) (timestamps : list Z) : outcome FieldValue :=
  if len values <? 2 then Err (Errorf "irate requires at least two values")
  else
    let at_ {A} (l : list A) (d : A) (back : nat) := default d (l !! (length values - back)%nat) in
    increase ← counterPairIncrease (at_ values zeroFieldValue 2%nat) (at_ values zeroFieldValue 1%nat);
    let seconds :=
      if len timestamps =? len values then secondsBetween (at_ timestamps 0 2%nat) (at_ timestamps 0 1%nat) else f_of_int 1 in
    if notPositive seconds then Err (Errorf "irate requires increasing timestamps") else Ok (Float64Value (f_div increase seconds)).
Definition aggregateIncrease (values : list FieldValue) : outcome FieldValue :=
  if len values <? 2 then Err (Errorf "increase requires at least two values")
  else increase ← counterIncrease values; Ok (Float64Value increase).
Definition aggregateDelta (values : list FieldValue) : outcome FieldValue :=
  if len values <? 2 then Err (Errorf "delta requires at least two values")
  else
    let first := valueZero values in
    let last := lastValue values in
    if negb (isNumericFieldValue first) || negb (isNumericFieldValue last) then Err (Errorf "delta requires numeric values")
    else if (fv_Type first =? FieldInt64) && (fv_Type last =? FieldInt64) then Ok (Int64Value (i64 (fv_Int64 last - fv_Int64 first)))
    else Ok (Float64Value (f_sub (fieldValueAsFloat last) (fieldValueAsFloat first))).
Definition aggregateSpread (values : list FieldValue) : outcome FieldValue :=
  minValue ← aggregateMinMax values true;
  maxValue ← aggregateMinMax values false;
  if (fv_Type minValue =? FieldInt64) && (fv_Type maxValue =? FieldInt64) then Ok (Int64Value (i64 (fv_Int64 maxValue - fv_Int64 minValue)))
  else Ok (Float64Value (f_sub (fieldValueAsFloat maxValue) (fieldValueAsFloat minValue))).
(** [sort.Float64s] orders NaN first. *)
Definition floatLess (x y : Z) : bool := f_ltb x y || (f_is_nan x && negb (f_is_nan y)).
Definition aggregateMedian `{GoRuntime} (values : list FieldValue) : outcome FieldValue :=
  if negb (numericValues values) then Err (Errorf "median requires numeric values")
  else
    let sorted := sort_less floatLess (map fieldValueAsFloat values) in
    let mid := (length sorted / 2)%nat in
    if (length sorted mod 2 =? 1)%nat then Ok (Float64Value (default 0 (sorted !! mid)))
    else Ok (Float64Value (f_div (f_add (default 0 (sorted !! (mid - 1)%nat)) (default 0 (sorted !! mid))) (f_of_int 2))).
Definition fieldValueKey (value : FieldValue) : Z * Z * bytes :=
  if fv_Type value =? FieldFloat64 then (1, if f_is_nan (fv_Float64 value) then -1 else fv_Float64 value, [])
  else if fv_Type value =? FieldInt64 then (2, fv_Int64 value, [])
  else if fv_Type value =? FieldString then (3, 0, fv_String value)
  else if fv_Type value =? FieldBool then (4, if fv_Bool value then 1 else 0, [])
  else (0, 0, []).
(** One turn of the loop: the counts, the best value and its count. *)
Definition modeStep (st : gmap (Z * Z * bytes) Z * FieldValue * Z) (value : FieldValue) : gmap (Z * Z * bytes) Z * FieldValue * Z :=
  let '(counts, best, bestCount) := st in
  let count := default 0 (counts !! fieldValueKey value) + 1 in
  let counts := <[fieldValueKey value := count]> counts in
  if bestCount <? count then (counts, value, count) else (counts, best, bestCount).
Definition aggregateMode (values : list FieldValue) : FieldValue := (foldl modeStep (∅, valueZero values, 0) values).1.2.
Definition aggregateStd (values : list FieldValue) (sqrt : bool) : outcome FieldValue :=
  if negb (numericValues values) then Err (Errorf "stddev/stdvar requires numeric values")
  else
    mean ← aggregateAvg values;
    let variance := foldl (fun variance v => let delta := f_sub (fieldValueAsFloat v) (fv_Float64 mean) in f_add variance (f_mul delta delta)) f_zero values in
    let variance := f_div variance (f_of_int (len values)) in
    Ok (Float64Value (if sqrt then f_sqrt variance else variance)).

(** ** aggregate.go *)
Definition aggregateValues `{GoRuntime} (values : list FieldValue) (fn : bytes) : outcome FieldValue :=
  if bool_decide (values = []) then Err (Errorf "aggregate has no values")
  else if bool_decide (fn = str "count") then Ok (Int64Value (len values))
  else if bool_decide (fn = str "sum") then aggregateSum values
  else if bool_decide (fn = str "avg") then aggregateAvg values
  else if bool_decide (fn = str "min") then aggregateMinMax values true
  else if bool_decide (fn = str "max") then aggregateMinMax values false
  else if bool_decide (fn = str "first") then Ok (valueZero values)
  else if bool_decide (fn = str "last") then Ok (lastValue values)
  else if bool_decide (fn = str "rate") then aggregateRate values []
  else if bool_decide (fn = str "irate") then aggregateIRate values []
  else if bool_decide (fn = str "increase") then aggregateIncrease values
  else if bool_decide (fn = str "delta") then aggregateDelta values
  else if bool_decide (fn = str "spread") then aggregateSpread values
  else if bool_decide (fn = str "median") then aggregateMedian values
  else if bool_decide (fn = str "mode") then Ok (aggregateMode values)
  else if bool_decide (fn = str "stddev") then aggregateStd values true
  else if bool_decide (fn = str "stdvar") then aggregateStd values false
  else if bool_decide (fn = str "top") then aggregateMinMax values false
  else if bool_decide (fn = str "bottom") then aggregateMinMax values true
  else Err ErrUnsupportedAggregate.
Definition aggregateValuesByTime `{GoRuntime} (values : list FieldValue) (timestamps : list Z) (fn : bytes) : outcome FieldValue :=
  if bool_decide (fn = str "rate") then aggregateRate values timestamps
  else if bool_decide (fn = str "irate") then aggregateIRate values timestamps
  else if bool_decide (fn = str "increase") then aggregateIncrease values
  else if bool_decide (fn = str "delta") then aggregateDelta values
  else aggregateValues values fn.
Definition aggregateTimestamp (timestamps : list Z) (fn : bytes) : Z :=
  if bool_decide (fn = str "last") then default 0 (last timestamps) else default 0 (head timestamps).

(** A column in time order, the later one of values with one timestamp. *)
Fixpoint aggregateColumnOrdered (timestamps : list Z) : bool :=
  match timestamps with
  | t :: (u :: _) as timestamps' => if u <=? t then false else aggregateColumnOrdered timestamps'
  | _ => true
  end.
Definition aggregatePoint : Type := Z * FieldValue.
(** [sort.SliceStable] by timestamp *)
Definition sortPoints (points : list aggregatePoint) : list aggregatePoint := mergeSort (fun p q => p.1 <? q.1) points.
Fixpoint keepLatest (points : list aggregatePoint) : list aggregatePoint :=
  match points with
  | p :: (q :: _) as points' => if p.1 =? q.1 then keepLatest points' else p :: keepLatest points'
  | _ => points
  end.
Definition normalizeAggregateColumn (column : ColumnSeries) : outcome ColumnSeries :=
  if negb (len (cl_Timestamps column) =? len (cl_Values column)) then
    Err (Errorf "column has a different number of timestamps and values")
  else if aggregateColumnOrdered (cl_Timestamps column) then Ok column
  else
    let points := keepLatest (sortPoints (zip (cl_Timestamps column) (cl_Values column))) in
    Ok (columnWith column points.*1 points.*2).

Definition aggregateWholeColumn `{GoRuntime} (out column : ColumnSeries) (fn : bytes) : outcome ColumnSeries :=
  v ← aggregateValuesByTime (cl_Values column) (cl_Timestamps column) fn;
  Ok (columnWith (withType out (fv_Type v)) [aggregateTimestamp (cl_Timestamps column) fn] [v]).
(** Go's integer division truncates. *)
Definition windowOf (window timestamp : Z) : Z := i64 (Z.quot timestamp window * window).
(** The samples from the first one to the end of its window, and the rest. *)
Fixpoint takeWindow (end_ : Z) (points : list aggregatePoint) : list aggregatePoint * list aggregatePoint :=
  match points with
  | p :: points' => if p.1 <? end_ then let '(w, rest) := takeWindow end_ points' in (p :: w, rest) else ([], points)
  | [] => ([], [])
  end.
(** [fieldType] is the type of the last window's value. *)
Fixpoint windowLoop `{GoRuntime} (fuel : nat) (fn : bytes) (window fieldType : Z) (points : list aggregatePoint)
    : outcome (Z * list aggregatePoint) :=
  match points, fuel with
  | [], _ | _, O => Ok (fieldType, [])
  | p :: points', S fuel' =>
      let windowStart := windowOf window p.1 in
      let '(w, rest) := takeWindow (i64 (windowStart + window)) points' in
      v ← aggregateValuesByTime (p :: w).*2 (p :: w).*1 fn;
      '(fieldType, out) ← windowLoop fuel' fn window (fv_Type v) rest;
      Ok (fieldType, (windowStart, v) :: out)
  end.
Definition windowed `{GoRuntime} (out : ColumnSeries) (points : list aggregatePoint) (fn : bytes) (window : Z) : outcome ColumnSeries :=
  '(fieldType, samples) ← windowLoop (length points) fn window (cl_FieldType out) points;
  Ok (columnWith (withType out fieldType) samples.*1 samples.*2).
Definition aggregateWindowedColumn `{GoRuntime} (out column : ColumnSeries) (fn : bytes) (window : Z) : outcome ColumnSeries :=
  windowed out (zip (cl_Timestamps column) (cl_Values column)) fn window.
Definition aggregateName (fn field : bytes) : bytes := fn ++ str "(" ++ field ++ str ")".
Definition aggregateColumnBySpec `{GoRuntime} (column : ColumnSeries) (spec : AggregateSpec) (window : Z) : outcome ColumnSeries :=
  let fn := ToLower (ag_Function spec) in
  if bool_decide (fn = []) then Err (Errorf "aggregate function is empty")
  else
    let out := mkColumnSeries (cl_SeriesID column) (cl_Measurement column) (cl_Tags column) (cl_FieldID column)
                 (aggregateName fn (cl_FieldName column)) 0 [] [] in
    if window <=? 0 then
      if transformAggregate fn then aggregateTransformColumn out column fn else aggregateWholeColumn out column fn
    else aggregateWindowedColumn out column fn window.
Fixpoint specsLoop `{GoRuntime} (column : ColumnSeries) (specs : list AggregateSpec) (window : Z) : outcome (list ColumnSeries) :=
  match specs with
  | [] => Ok []
  | spec :: specs' =>
      if negb (bool_decide (ag_Field spec = [])) && negb (bool_decide (ag_Field spec = cl_FieldName column))
      then specsLoop column specs' window
      else
        aggregated ← aggregateColumnBySpec column spec window;
        rest ← specsLoop column specs' window;
        Ok (aggregated :: rest)
  end.
Definition aggregateColumn `{GoRuntime} (column : ColumnSeries) (specs : list AggregateSpec) (window : Z) : outcome (list ColumnSeries) :=
  normalized ← normalizeAggregateColumn column;
  specsLoop normalized specs window.

Record aggregateColumnStream (S : Type) := mkAggregateStream {
  as_source : S;
  as_specs : list AggregateSpec;
  as_window : Z;
  as_pending : list ColumnSeries;
  as_current : ColumnSeries;
  as_err : option goerr;
  as_closed : bool;
}.
Arguments mkAggregateStream {S} _ _ _ _ _ _ _.
Arguments as_source {S} _.
Arguments as_specs {S} _.
Arguments as_window {S} _.
Arguments as_pending {S} _.
Arguments as_current {S} _.
Arguments as_err {S} _.
Arguments as_closed {S} _.
Fixpoint aggregateLoop {S} `{GoRuntime} `{StreamOps S ColumnSeries} (fuel : nat) (s : aggregateColumnStream S) : bool * aggregateColumnStream S :=
  let '(mkAggregateStream src specs window pending current err closed) := s in
  match pending, fuel with
  | column :: pending', _ => (true, mkAggregateStream src specs window pending' column err closed)
  | [], O => (false, s)
  | [], Datatypes.S fuel' =>
      let '(more, src) := next src in
      if negb more then (false, mkAggregateStream src specs window [] current (serr src) closed)
      else match aggregateColumn (value src) specs window with
      | Ok pending => aggregateLoop fuel' (mkAggregateStream src specs window pending current err closed)
      | Err e => (false, mkAggregateStream src specs window [] current (Some e) closed)
      | Panic _ => (false, s)
      end
  end.
Definition aggregateNext {S} `{GoRuntime} `{StreamOps S ColumnSeries} (s : aggregateColumnStream S) : bool * aggregateColumnStream S :=
  if as_closed s || bool_decide (is_Some (as_err s)) then (false, s)
  else aggregateLoop (Datatypes.S (Datatypes.S (bound (as_source s)))) s.
Definition aggregateClose {S} `{StreamOps S ColumnSeries} (s : aggregateColumnStream S) : option goerr * aggregateColumnStream S :=
  let '(err, src) := sclose (as_source s) in
  (err, mkAggregateStream src (as_specs s) (as_window s) [] (as_current s) (as_err s) true).
#[export] Instance aggregateOps {S} `{GoRuntime} `{StreamOps S ColumnSeries} : StreamOps (aggregateColumnStream S) ColumnSeries := {|
  next := aggregateNext;
  value := as_current;
  serr := as_err;
  sclose := aggregateClose;
  bound s := length (as_pending s) + bound (as_source s) * length (as_specs s);
|}%nat.
Definition NewAggregateColumnStream `{GoRuntime} (source : Stream ColumnSeries) (specs : list AggregateSpec) (window : Z) : Stream ColumnSeries :=
  let '(mkAnyStream C ops st) := source in
  mkAnyStream (aggregateColumnStream C) (@aggregateOps C _ ops) (mkAggregateStream st specs window [] zeroColumnSeries None false).

(** ** group_aggregate_state.go: one value at a time *)
Record incrementalAggregateState := mkIncremental {
  in_fn : bytes;
  in_valueType : Z;
  in_count : Z;
  in_sumFloat : Z;
  in_sumInt : Z;
  in_mean : Z;
  in_m2 : Z;
  in_firstTimestamp : Z;
  in_lastTimestamp : Z;
  in_firstValue : FieldValue;
  in_lastValue : FieldValue;
  in_minValue : FieldValue;
  in_maxValue : FieldValue;
  in_mode : gmap (Z * Z * bytes) Z * FieldValue * Z;
}.
Definition newIncrementalAggregateState (fn : bytes) : incrementalAggregateState :=
  mkIncremental fn 0 0 f_zero 0 f_zero f_zero 0 0 zeroFieldValue zeroFieldValue zeroFieldValue zeroFieldValue (∅, zeroFieldValue, 0).
Definition streamableGroupAggregate (fn : bytes) : bool :=
  bool_decide (fn ∈ map str ["count"; "sum"; "avg"; "min"; "max"; "first"; "last"; "spread"; "mode"; "stddev"; "stdvar"; "top"; "bottom"]%string).
Definition requiresNumeric (fn : bytes) : bool :=
  bool_decide (fn ∈ map str ["sum"; "avg"; "min"; "max"; "spread"; "stddev"; "stdvar"; "top"; "bottom"]%string).

(** [count] has been increased. *)
Definition addNumeric (v : FieldValue) (s : incrementalAggregateState) : incrementalAggregateState :=
  let '(mkIncremental fn t count sumF sumI mean m2 ft lt fv lv mn mx md) := s in
  if negb (isNumericFieldValue v) then s
  else
    let number := fieldValueAsFloat v in
    let delta := f_sub number mean in
    let mean := f_add mean (f_div delta (f_of_int count)) in
    mkIncremental fn t count (f_add sumF number) (if fv_Type v =? FieldInt64 then i64 (sumI + fv_Int64 v) else sumI)
      mean (f_add m2 (f_mul delta (f_sub number mean))) ft lt fv lv mn mx md.
Definition addMinMax (v : FieldValue) (s : incrementalAggregateState) : incrementalAggregateState :=
  let '(mkIncremental fn t count sumF sumI mean m2 ft lt fv lv mn mx md) := s in
  mkIncremental fn t count sumF sumI mean m2 ft lt fv lv
    (if fieldValuesCompare v mn <? 0 then v else mn) (if 0 <? fieldValuesCompare v mx then v else mx) md.
Definition addFirstLast (timestamp : Z) (v : FieldValue) (s : incrementalAggregateState) : incrementalAggregateState :=
  let '(mkIncremental fn t count sumF sumI mean m2 ft lt fv lv mn mx md) := s in
  let '(ft, fv) := if timestamp <? ft then (timestamp, v) else (ft, fv) in
  let '(lt, lv) := if lt <=? timestamp then (timestamp, v) else (lt, lv) in
  mkIncremental fn t count sumF sumI mean m2 ft lt fv lv mn mx md.
Definition addMode (v : FieldValue) (s : incrementalAggregateState) : incrementalAggregateState :=
  let '(mkIncremental fn t count sumF sumI mean m2 ft lt fv lv mn mx md) := s in
  if negb (bool_decide (fn = str "mode")) then s
  else mkIncremental fn t count sumF sumI mean m2 ft lt fv lv mn mx (modeStep md v).
Definition setCount (t count : Z) (s : incrementalAggregateState) : incrementalAggregateState :=
  let '(mkIncremental fn _ _ sumF sumI mean m2 ft lt fv lv mn mx md) := s in
  mkIncremental fn t count sumF sumI mean m2 ft lt fv lv mn mx md.
Definition initializeState (timestamp : Z) (v : FieldValue) (s : incrementalAggregateState) : incrementalAggregateState :=
  let '(mkIncremental fn _ _ sumF sumI mean m2 _ _ _ _ _ _ md) := s in
  addMode v (addNumeric v (mkIncremental fn (fv_Type v) 1 sumF sumI mean m2 timestamp timestamp v v v v md)).
Definition addState (timestamp : Z) (v : FieldValue) (s : incrementalAggregateState) : outcome incrementalAggregateState :=
  if in_count s =? 0 then
    if requiresNumeric (in_fn s) && negb (isNumericFieldValue v) then Err (Errorf "aggregate requires numeric values")
    else Ok (initializeState timestamp v s)
  else if negb (fv_Type v =? in_valueType s) then Err (Errorf "aggregate received mixed field types")
  else if requiresNumeric (in_fn s) && negb (isNumericFieldValue v) then Err (Errorf "aggregate requires numeric values")
  else Ok (addMode v (addFirstLast timestamp v (addMinMax v (addNumeric v (setCount (in_valueType s) (i64 (in_count s + 1)) s))))).
Definition numericError (s : incrementalAggregateState) : outcome unit :=
  if isNumericFieldValue (in_minValue s) then Ok tt else Err (Errorf "aggregate does not support field type").
Definition spreadValue (s : incrementalAggregateState) : outcome FieldValue :=
  numericError s;;
  if in_valueType s =? FieldInt64 then Ok (Int64Value (i64 (fv_Int64 (in_maxValue s) - fv_Int64 (in_minValue s))))
  else Ok (Float64Value (f_sub (fv_Float64 (in_maxValue s)) (fv_Float64 (in_minValue s)))).
Definition stdValue (s : incrementalAggregateState) : FieldValue :=
  let variance := f_div (in_m2 s) (f_of_int (in_count s)) in
  Float64Value (if bool_decide (in_fn s = str "stddev") then f_sqrt variance else variance).
Definition aggregateValue (s : incrementalAggregateState) : outcome FieldValue :=
  let named name := bool_decide (in_fn s = str name) in
  if named "count"%string then Ok (Int64Value (in_count s))
  else if named "sum"%string then Ok (if in_valueType s =? FieldInt64 then Int64Value (in_sumInt s) else Float64Value (in_sumFloat s))
  else if named "avg"%string then Ok (Float64Value (f_div (in_sumFloat s) (f_of_int (in_count s))))
  else if named "min"%string || named "bottom"%string then numericError s;; Ok (in_minValue s)
  else if named "max"%string || named "top"%string then numericError s;; Ok (in_maxValue s)
  else if named "first"%string then Ok (in_firstValue s)
  else if named "last"%string then Ok (in_lastValue s)
  else if named "spread"%string then spreadValue s
  else if named "mode"%string then Ok (in_mode s).1.2
  else if named "stddev"%string || named "stdvar"%string then Ok (stdValue s)
  else Err ErrUnsupportedAggregate.
(** [value]: the value and its timestamp. *)
Definition stateValue (s : incrementalAggregateState) : outcome (FieldValue * Z) :=
  if in_count s =? 0 then Err (Errorf "aggregate has no values")
  else
    v ← aggregateValue s;
    Ok (v, if bool_decide (in_fn s = str "last") then in_lastTimestamp s else in_firstTimestamp s).

(** ** group_aggregate.go *)
Record groupAccumulator := mkAccumulator {
  ga_function : bytes;
  ga_measurement : bytes;
  ga_fieldName : bytes;
  ga_tags : gmap bytes bytes;
  ga_window : Z;
  ga_state : option incrementalAggregateState;
  ga_windows : gmap Z incrementalAggregateState;
  ga_points : list aggregatePoint;
}.
Definition newGroupAccumulator (fn : bytes) (column : ColumnSeries) (tags : gmap bytes bytes) (window : Z) : groupAccumulator :=
  mkAccumulator fn (cl_Measurement column) (cl_FieldName column) tags window
    (if streamableGroupAggregate fn then Some (newIncrementalAggregateState fn) else None) ∅ [].
Definition addPoint (a : groupAccumulator) (point : aggregatePoint) : outcome groupAccumulator :=
  let '(mkAccumulator fn m f tags window state windows points) := a in
  match state with
  | None => Ok (mkAccumulator fn m f tags window state windows (points ++ [point]))
  | Some s =>
      if window <=? 0 then
        s ← addState point.1 point.2 s; Ok (mkAccumulator fn m f tags window (Some s) windows points)
      else
        let start := windowOf window point.1 in
        let s0 := default (newIncrementalAggregateState fn) (windows !! start) in
        s' ← addState point.1 point.2 s0;
        Ok (mkAccumulator fn m f tags window state (<[start := s']> windows) points)
  end.
Fixpoint addPoints (a : groupAccumulator) (points : list aggregatePoint) : outcome groupAccumulator :=
  match points with
  | [] => Ok a
  | p :: points' => a ← addPoint a p; addPoints a points'
  end.
Definition accumulatorColumn (a : groupAccumulator) : ColumnSeries :=
  mkColumnSeries 0 (ga_measurement a) (ga_tags a) 0 (aggregateName (ga_function a) (ga_fieldName a)) 0 [] [].
(** The windows in ascending order. *)
Fixpoint materializeWindows (fieldType : Z) (windows : list (Z * incrementalAggregateState)) : outcome (Z * list aggregatePoint) :=
  match windows with
  | [] => Ok (fieldType, [])
  | (start, s) :: windows' =>
      '(v, _) ← stateValue s;
      '(fieldType, out) ← materializeWindows (fv_Type v) windows';
      Ok (fieldType, (start, v) :: out)
  end.
Definition sortedWindows (windows : gmap Z incrementalAggregateState) : list (Z * incrementalAggregateState) :=
  mergeSort (fun p q => p.1 <? q.1) (map_to_list windows).
Definition materializeGroupAccumulator `{GoRuntime} (a : groupAccumulator) (window : Z) : outcome ColumnSeries :=
  let out := accumulatorColumn a in
  match ga_state a with
  | Some s =>
      if ga_window a <=? 0 then
        '(v, timestamp) ← stateValue s; Ok (columnWith (withType out (fv_Type v)) [timestamp] [v])
      else
        '(fieldType, samples) ← materializeWindows 0 (sortedWindows (ga_windows a));
        Ok (columnWith (withType out fieldType) samples.*1 samples.*2)
  | None =>
      let points := sortPoints (ga_points a) in
      if window <=? 0 then
        v ← aggregateValuesByTime points.*2 points.*1 (ga_function a);
        Ok (columnWith (withType out (fv_Type v)) [aggregateTimestamp points.*1 (ga_function a)] [v])
      else windowed out points (ga_function a) window
  end.
Definition projectGroupTags (tags : gmap bytes bytes) (names : list bytes) : gmap bytes bytes :=
  list_to_map (map (fun name => (name, default [] (tags !! name))) names).
Definition groupAccumulatorKey (fn fieldName : bytes) (tagNames : list bytes) (tags : gmap bytes bytes) : bytes :=
  fn ++ [0] ++ fieldName ++ concat (map (fun name => [0] ++ name ++ str "=" ++ default [] (tags !! name)) tagNames).
Definition appendSpec (group : list bytes) (window : Z) (column : ColumnSeries) (accumulators : gmap bytes groupAccumulator) (spec : AggregateSpec)
    : outcome (gmap bytes groupAccumulator) :=
  if negb (bool_decide (ag_Field spec = [])) && negb (bool_decide (ag_Field spec = cl_FieldName column)) then Ok accumulators
  else
    let fn := ToLower (ag_Function spec) in
    let tags := projectGroupTags (cl_Tags column) group in
    let key := groupAccumulatorKey fn (cl_FieldName column) group tags in
    let a := default (newGroupAccumulator fn column tags window) (accumulators !! key) in
    a ← addPoints a (zip (cl_Timestamps column) (cl_Values column));
    Ok (<[key := a]> accumulators).
Fixpoint appendColumnSpecs (group : list bytes) (window : Z) (column : ColumnSeries) (accumulators : gmap bytes groupAccumulator)
    (specs : list AggregateSpec) : outcome (gmap bytes groupAccumulator) :=
  match specs with
  | [] => Ok accumulators
  | spec :: specs' => accumulators ← appendSpec group window column accumulators spec; appendColumnSpecs group window column accumulators specs'
  end.
Fixpoint materializeAll `{GoRuntime} (window : Z) (accumulators : list groupAccumulator) : outcome (list ColumnSeries) :=
  match accumulators with
  | [] => Ok []
  | a :: accumulators' =>
      column ← materializeGroupAccumulator a window;
      rest ← materializeAll window accumulators';
      Ok (column :: rest)
  end.
(** The accumulators in the order of their keys. *)
Definition materializeGroupAccumulators `{GoRuntime} (accumulators : gmap bytes groupAccumulator) (window : Z) : outcome (list ColumnSeries) :=
  materializeAll window (mergeSort (fun p q => bytes_ltb p.1 q.1) (map_to_list accumulators)).*2.
Fixpoint groupColumns (specs : list AggregateSpec) (group : list bytes) (window : Z) (accumulators : gmap bytes groupAccumulator)
    (columns : list ColumnSeries) : outcome (gmap bytes groupAccumulator) :=
  match columns with
  | [] => Ok accumulators
  | column :: columns' =>
      if negb (len (cl_Timestamps column) =? len (cl_Values column)) then
        Err (Errorf "column has a different number of timestamps and values")
      else
        accumulators ← appendColumnSpecs group window column accumulators specs;
        groupColumns specs group window accumulators columns'
  end.

Record groupAggregateColumnStream (S : Type) := mkGroupStream {
  gs_source : S;
  gs_specs : list AggregateSpec;
  gs_group : list bytes;
  gs_window : Z;
  gs_pending : list ColumnSeries;
  gs_current : ColumnSeries;
  gs_err : option goerr;
  gs_loaded : bool;
  gs_closed : bool;
}.
Arguments mkGroupStream {S} _ _ _ _ _ _ _ _ _.
Arguments gs_source {S} _.
Arguments gs_specs {S} _.
Arguments gs_group {S} _.
Arguments gs_window {S} _.
Arguments gs_pending {S} _.
Arguments gs_current {S} _.
Arguments gs_err {S} _.
Arguments gs_loaded {S} _.
Arguments gs_closed {S} _.
Definition groupResult `{GoRuntime} (specs : list AggregateSpec) (group : list bytes) (window : Z) (columns : list ColumnSeries) (err : option goerr)
    : outcome (list ColumnSeries) :=
  accumulators ← groupColumns specs group window ∅ columns;
  match err with Some e => Err e | None => materializeGroupAccumulators accumulators window end.
Definition groupLoad {S} `{GoRuntime} `{StreamOps S ColumnSeries} (s : groupAggregateColumnStream S) : groupAggregateColumnStream S :=
  let '(columns, src) := drainTo (Datatypes.S (bound (gs_source s))) (gs_source s) in
  let '(pending, err) :=
    match groupResult (gs_specs s) (gs_group s) (gs_window s) columns (serr src) with
    | Ok pending => (pending, None)
    | Err e => ([], Some e)
    | Panic _ => ([], None)
    end in
  mkGroupStream src (gs_specs s) (gs_group s) (gs_window s) pending (gs_current s) err true (gs_closed s).
Definition groupNext {S} `{GoRuntime} `{StreamOps S ColumnSeries} (s : groupAggregateColumnStream S) : bool * groupAggregateColumnStream S :=
  if gs_closed s || bool_decide (is_Some (gs_err s)) then (false, s)
  else
    let s := if gs_loaded s then s else groupLoad s in
    if bool_decide (is_Some (gs_err s)) then (false, s)
    else match gs_pending s with
    | [] => (false, s)
    | column :: pending =>
        (true, mkGroupStream (gs_source s) (gs_specs s) (gs_group s) (gs_window s) pending column (gs_err s) true (gs_closed s))
    end.
Definition groupClose {S} `{StreamOps S ColumnSeries} (s : groupAggregateColumnStream S) : option goerr * groupAggregateColumnStream S :=
  let '(err, src) := sclose (gs_source s) in
  (err, mkGroupStream src (gs_specs s) (gs_group s) (gs_window s) [] (gs_current s) (gs_err s) (gs_loaded s) true).
#[export] Instance groupOps {S} `{GoRuntime} `{StreamOps S ColumnSeries} : StreamOps (groupAggregateColumnStream S) ColumnSeries := {|
  next := groupNext;
  value := gs_current;
  serr := gs_err;
  sclose := groupClose;
  bound s := if gs_loaded s then length (gs_pending s) else length (gs_pending (groupLoad s));
|}%nat.
Definition NewGroupAggregateColumnStream `{GoRuntime} (source : Stream ColumnSeries) (specs : list AggregateSpec) (group : QueryGroup) (window : Z)
    : Stream ColumnSeries :=
  if bool_decide (gr_Tags group = []) then NewAggregateColumnStream source specs window
  else
    let window := if 0 <? gr_Window group then gr_Window group else window in
    let '(mkAnyStream C ops st) := source in
    mkAnyStream (groupAggregateColumnStream C) (@groupOps C _ ops)
      (mkGroupStream st specs (gr_Tags group) window [] zeroColumnSeries None false false).
