(* ===== verification/QueryCursor.v ===== *)
(** * Cursors of paged queries

    internal/queryexec/cursor.go: a cursor is the position of the last row of a
    page, 22 bytes in the unpadded URL alphabet of encoding/base64, which is
    part of the standard library and modelled as far as the code uses it:
    decoding skips carriage returns and line feeds, and ignores the bits that
    are left over. *)
From S2P Require Import Prelude GoBinary Model QueryMerge QueryModel QueryStream.
From stdpp Require Import prelude strings list.
From Stdlib Require Import ZArith Lia.
#[local] Open Scope Z_scope.

(** ** base64.RawURLEncoding *)
Definition encodeDigit (d : Z) : Z :=
  if d <? 26 then 65 + d else if d <? 52 then 97 + (d - 26) else if d <? 62 then 48 + (d - 52) else if d =? 62 then 45 else 95.
Definition decodeDigit (c : Z) : option Z :=
  if (65 <=? c) && (c <=? 90) then Some (c - 65)
  else if (97 <=? c) && (c <=? 122) then Some (c - 97 + 26)
  else if (48 <=? c) && (c <=? 57) then Some (c - 48 + 52)
  else if c =? 45 then Some 62 else if c =? 95 then Some 63 else None.
Fixpoint base64Encode (bs : bytes) : bytes :=
  match bs with
  | [] => []
  | [a] => map encodeDigit [a / 4; a mod 4 * 16]
  | [a; b] => map encodeDigit [a / 4; a mod 4 * 16 + b / 16; b mod 16 * 4]
  | a :: b :: c :: bs' => map encodeDigit [a / 4; a mod 4 * 16 + b / 16; b mod 16 * 4 + c / 64; c mod 64] ++ base64Encode bs'
  end.
(** The bytes that the digits hold. *)
Fixpoint digitsToBytes (ds : list Z) : option bytes :=
  match ds with
  | [] => Some []
  | [_] => None
  | [a; b] => Some [a * 4 + b / 16]
  | [a; b; c] => Some [a * 4 + b / 16; b mod 16 * 16 + c / 4]
  | a :: b :: c :: d :: ds' =>
      rest ← digitsToBytes ds';
      Some ([a * 4 + b / 16; b mod 16 * 16 + c / 4; c mod 4 * 64 + d] ++ rest)
  end.
Definition base64Decode (token : bytes) : option bytes :=
  ds ← mapM decodeDigit (filter (fun c => c <> 10 /\ c <> 13) token);
  digitsToBytes ds.

(** ** cursor.go *)
Definition cursorMagic : Z := 0x4d545343.
Definition cursorVersion : Z := 1.
Definition cursorSize : Z := 22.
Definition ErrInvalidCursor : goerr := Errorf "invalid query cursor".
Definition be_put_u64 (x : Z) : bytes := rev (le_bytes 8 x).
Definition validCursorDirection (direction : Z) : bool := (direction =? QuerySortAsc) || (direction =? QuerySortDesc).
Definition EncodeCursor (position : CursorPosition) : outcome bytes :=
  if negb (validCursorDirection (cu_Direction position)) then Err (ErrWrap "unsupported direction" ErrInvalidCursor)
  else
    Ok (base64Encode (be_put_u32 cursorMagic ++ [cursorVersion; u8 (cu_Direction position)] ++
                      be_put_u64 (cu_SeriesID position) ++ be_put_u64 (u64 (cu_Timestamp position)))).
Definition slice (raw : bytes) (first end_ : nat) : bytes := take (end_ - first) (drop first raw).
Definition DecodeCursor (token : bytes) : outcome CursorPosition :=
  match base64Decode token with
  | None => Err (ErrWrap "decode" ErrInvalidCursor)
  | Some raw =>
      if negb (len raw =? cursorSize) || negb (be_word (slice raw 0 4) =? cursorMagic) ||
         negb (default 0 (raw !! 4%nat) =? cursorVersion) then Err ErrInvalidCursor
      else
        let position := mkCursor (be_word (slice raw 6 14)) (i64 (be_word (slice raw 14 22))) (default 0 (raw !! 5%nat)) in
        if negb (validCursorDirection (cu_Direction position)) then Err (ErrWrap "unsupported direction" ErrInvalidCursor)
        else Ok position
  end.

(** ** Round trip *)
Lemma decode_encode_digit d : 0 <= d < 64 -> decodeDigit (encodeDigit d) = Some d /\ encodeDigit d <> 10 /\ encodeDigit d <> 13.
Proof.
  intros Hd. assert (forallb (fun d => bool_decide (decodeDigit (encodeDigit d) = Some d /\ encodeDigit d <> 10 /\ encodeDigit d <> 13))
    (map Z.of_nat (seq 0 64)) = true) as H by (vm_compute; reflexivity).
  rewrite forallb_forall in H. eapply bool_decide_eq_true_1, H.
  apply (proj2 (in_map_iff _ _ _)). exists (Z.to_nat d). split; [lia|]. apply (proj2 (in_seq _ _ _)). lia.
Qed.
Definition digits_ok (ds : list Z) : Prop := Forall (fun d => 0 <= d < 64) ds.
Lemma decode_digits ds : digits_ok ds -> base64Decode (map encodeDigit ds) = digitsToBytes ds.
Proof.
  intros Hds. unfold base64Decode.
  assert (filter (fun c => c <> 10 /\ c <> 13) (map encodeDigit ds) = map encodeDigit ds) as ->.
  { induction Hds as [|d ds Hd Hds IH]; [done|]. cbn [map]. rewrite filter_cons, decide_True by by apply decode_encode_digit. by rewrite IH. }
  assert (mapM decodeDigit (map encodeDigit ds) = Some ds) as ->; [|done].
  apply mapM_Some. induction Hds as [|d ds Hd Hds IH]; constructor; [|done]. by apply decode_encode_digit.
Qed.
Fixpoint byteDigits (bs : bytes) : list Z :=
  match bs with
  | [] => []
  | [a] => [a / 4; a mod 4 * 16]
  | [a; b] => [a / 4; a mod 4 * 16 + b / 16; b mod 16 * 4]
  | a :: b :: c :: bs' => [a / 4; a mod 4 * 16 + b / 16; b mod 16 * 4 + c / 64; c mod 64] ++ byteDigits bs'
  end.
Lemma bytes_ind3 (P : bytes -> Prop) : P [] -> (forall a, P [a]) -> (forall a b, P [a; b]) ->
  (forall a b c bs, P bs -> P (a :: b :: c :: bs)) -> forall bs, P bs.
Proof.
  intros H0 H1 H2 H3. fix IH 1. intros [|a [|b [|c bs]]]; [done|done|done|]. apply H3, IH.
Qed.
Lemma base64Encode_digits bs : base64Encode bs = map encodeDigit (byteDigits bs).
Proof. induction bs as [|a|a b|a b c bs IH] using bytes_ind3; [done|done|done|]. cbn [base64Encode byteDigits]. by rewrite map_app, IH. Qed.
Lemma byteDigits_ok bs : bytes_ok bs -> digits_ok (byteDigits bs).
Proof.
  unfold bytes_ok, digits_ok, is_byte. induction bs as [|a|a b|a b c bs IH] using bytes_ind3; intros Hb; [constructor|..];
    rewrite ?Forall_cons in Hb; cbn [byteDigits app]; rewrite ?Forall_cons; split_and?; try done; try apply Forall_nil_2; try (apply IH; tauto);
    destruct_and?; Z.to_euclidean_division_equations; lia.
Qed.
Lemma digitsToBytes_digits bs : bytes_ok bs -> digitsToBytes (byteDigits bs) = Some bs.
Proof.
  unfold bytes_ok, is_byte. induction bs as [|a|a b|a b c bs IH] using bytes_ind3; intros Hb; [done|..];
    rewrite ?Forall_cons in Hb; destruct_and?; cbn [byteDigits app digitsToBytes].
  - do 2 f_equal. Z.to_euclidean_division_equations; lia.
  - f_equal. f_equal; [|f_equal]; Z.to_euclidean_division_equations; lia.
  - rewrite IH by done. cbn. do 2 f_equal; [|do 2 f_equal; [|do 2 f_equal]]; Z.to_euclidean_division_equations; lia.
Qed.
Lemma base64_roundtrip bs : bytes_ok bs -> base64Decode (base64Encode bs) = Some bs.
Proof. intros Hb. rewrite base64Encode_digits, decode_digits by (by apply byteDigits_ok). by apply digitsToBytes_digits. Qed.

Lemma be_put_u64_length x : length (be_put_u64 x) = 8%nat.
Proof. unfold be_put_u64. by rewrite length_rev, le_bytes_length. Qed.
Lemma be_word_put_u64 x : is_u64 x -> be_word (be_put_u64 x) = x.
Proof. intros. unfold be_word, be_put_u64. rewrite rev_involutive. by apply le_word_bytes. Qed.
Lemma be_put_u64_ok x : bytes_ok (be_put_u64 x).
Proof. apply Forall_rev, le_bytes_ok. Qed.

(** A cursor that was handed out is accepted and names the same position. *)
Lemma cursor_roundtrip position : validCursorDirection (cu_Direction position) = true ->
  is_u64 (cu_SeriesID position) -> is_i64 (cu_Timestamp position) ->
  exists token, EncodeCursor position = Ok token /\ DecodeCursor token = Ok position.
Proof.
  intros Hd Hs Ht. unfold EncodeCursor. rewrite Hd. cbn [negb]. eexists. split; [done|].
  assert (u8 (cu_Direction position) = cu_Direction position) as Eu.
  { unfold validCursorDirection, QuerySortAsc, QuerySortDesc in Hd. unfold u8. rewrite Z.mod_small; [done|]. lia. }
  unfold DecodeCursor. rewrite base64_roundtrip.
  2: { unfold bytes_ok. rewrite !Forall_app. split; [apply be_put_u32_ok|]. split; [|by split; apply be_put_u64_ok].
       rewrite Eu. unfold validCursorDirection, QuerySortAsc, QuerySortDesc in Hd. repeat constructor; unfold is_byte, cursorVersion; lia. }
  set (m := be_put_u32 cursorMagic). set (s := be_put_u64 (cu_SeriesID position)). set (t := be_put_u64 (u64 (cu_Timestamp position))).
  assert (length m = 4%nat) as Lm by apply be_put_u32_length. assert (length s = 8%nat) as Ls by apply be_put_u64_length.
  assert (length t = 8%nat) as Lt by apply be_put_u64_length.
  set (h := [cursorVersion; u8 (cu_Direction position)]).
  assert ((len (m ++ h ++ s ++ t) =? cursorSize) = true) as ->.
  { unfold len, h. rewrite !length_app, Lm, Ls, Lt. done. }
  assert (slice (m ++ h ++ s ++ t) 0 4 = m) as ->.
  { unfold slice. rewrite drop_0, take_app_length' by lia. done. }
  assert (slice (m ++ h ++ s ++ t) 6 14 = s) as ->.
  { unfold slice. rewrite (assoc_L (++) m h), drop_app_length' by (rewrite length_app; unfold h; simpl; lia). by rewrite take_app_length' by lia. }
  assert (slice (m ++ h ++ s ++ t) 14 22 = t) as ->.
  { unfold slice. rewrite (assoc_L (++) m h), (assoc_L (++) (m ++ h) s), drop_app_length' by (rewrite !length_app; unfold h; simpl; lia).
    by rewrite take_ge by lia. }
  assert ((m ++ h ++ s ++ t) !! 4%nat = Some cursorVersion) as ->.
  { rewrite lookup_app_r by lia. by rewrite Lm. }
  assert ((m ++ h ++ s ++ t) !! 5%nat = Some (cu_Direction position)) as ->.
  { rewrite lookup_app_r by lia. rewrite Lm. unfold h. by rewrite Eu. }
  unfold m, s, t. rewrite be_word_put_u32 by done. rewrite !be_word_put_u64 by (done || apply u64_range).
  rewrite !Z.eqb_refl. cbv beta iota zeta delta [default negb orb]. cbn [cu_Direction]. unfold id. rewrite Hd, i64_u64_id by done. by destruct position.
Qed.
