(* ===== verification/QueryEngine.v ===== *)
(** * Queries of the engine (internal/engine/query.go, query_plan.go)

    [BuildQueryPlan] turns a query into the series, fields, predicates and
    shards it reads; the iterators stack the operators of [QueryStream] and
    [QueryAggregate] on the merged streams of the shards.  A shard is what a
    query sees of it, the [queryShard] interface, which Shard.v implements: its
    bounds and its scan.  The context is one that is never cancelled, and the
    explanation and the statistics of a query are left out. *)
From S2P Require Import Prelude Model Runtime QueryMerge MemoryBudget ShardCompact Catalog QueryModel QueryStream QueryAggregate QueryCursor.
From stdpp Require Import prelude strings list gmap.
From Stdlib Require Import ZArith Lia.
#[local] Open Scope Z_scope.

(** ** metadata_store.go *)
Record metadataSeries := mkMetadataSeries { mt_Measurement : bytes; mt_Tags : gmap bytes bytes }.
Record metadataField := mkMetadataField { mf_Measurement : bytes; mf_Name : bytes }.
Record metadataSnapshot := mkMetadata { md_Series : gmap Z metadataSeries; md_Fields : gmap Z metadataField }.
Definition metadataSnapshotFromCatalog (snapshot : gmap Z Series * gmap Z Field) : metadataSnapshot :=
  mkMetadata ((fun s => mkMetadataSeries (se_Measurement s) (cloneTags (se_Tags s))) <$> snapshot.1)
    ((fun f => mkMetadataField (fd_Measurement f) (fd_Name f)) <$> snapshot.2).

(** ** The engine as a query sees it *)
Record queryShard := mkQueryShard {
  qs_Database : bytes;
  qs_RetentionPolicy : bytes;
  qs_Start : Z;
  qs_End : Z;
  qs_ScanColumns : StorageQuery -> outcome ColumnStream;
}.
(** [en_memory] is the limiter as it stands when the query starts; what other
    calls reserve meanwhile is not seen. *)
Record Engine := mkEngine {
  en_opts : QueryOptions;
  en_metadata : Catalog;
  en_shards : gmap bytes queryShard;
  en_memory : option storageMemoryLimiter;
}.
Definition Snapshot (e : Engine) : metadataSnapshot := metadataSnapshotFromCatalog (CatalogSnapshot (en_metadata e)).
Definition shardMatches (shard : queryShard) (query : Query) : bool :=
  if negb (bool_decide (qs_Database shard = qu_Database query)) ||
     negb (bool_decide (qs_RetentionPolicy shard = qu_RetentionPolicy query)) then false
  else (qu_StartTime query <=? qs_End shard) && (qs_Start shard <=? qu_EndTime query).
(** The shards in the order in which [range] visits the map. *)
Definition queryShards `{GoRuntime} (e : Engine) (query : Query) : list queryShard :=
  filter (fun shard => shardMatches shard query = true) (map_range (en_shards e)).*2.

(** ** query_plan.go *)
Record QueryPlan := mkPlan {
  pl_Query : Query;
  pl_SeriesIDs : gset Z;
  pl_FieldIDs : gset Z;
  pl_FieldPredicates : gmap Z (list QueryPredicate);
  pl_Shards : list queryShard;
  pl_OutputFields : list bytes;
  pl_PostFilterPredicates : list QueryPredicate;
  pl_Empty : bool;
}.
Definition fieldIDsByName `{GoRuntime} (fields : gmap Z metadataField) (measurement : bytes) : gmap bytes Z :=
  foldl (fun ids entry => if bool_decide (mf_Measurement entry.2 = measurement) then <[mf_Name entry.2 := entry.1]> ids else ids)
    ∅ (map_range fields).
Definition fieldPredicatesByID `{GoRuntime} (e : Engine) (query : Query) (predicates : list QueryPredicate)
    : gmap Z (list QueryPredicate) :=
  if bool_decide (predicates = []) then ∅
  else
    let ids := fieldIDsByName (md_Fields (Snapshot e)) (qu_Measurement query) in
    foldl (fun out predicate =>
      match ids !! qp_Name predicate with
      | None => out
      | Some id => <[id := default [] (out !! id) ++ [predicate]]> out
      end) ∅ predicates.
Definition normalizedQuery (e : Engine) (query : Query) : Query := normalizeStructuredQuery (normalizeQuery (en_opts e) query).
Definition BuildQueryPlan `{GoRuntime} (e : Engine) (query : Query) : QueryPlan :=
  let query := normalizedQuery e query in
  let outputFields := qu_Fields query in
  let postFilters := fieldPredicates (qu_Predicates query) in
  let storageFilters := storageFieldPredicates query postFilters in
  let query := withFields query (scanFields (qu_Fields query) (qu_Aggregates query) postFilters) in
  let seriesIDs := MatchSeries (en_metadata e) (qu_Measurement query) (qu_Tags query) in
  let seriesIDs := (filterSeriesIDsByPredicates seriesIDs (mt_Tags <$> md_Series (Snapshot e)) (qu_Expr query) (qu_Predicates query)).1 in
  if bool_decide (seriesIDs = []) then mkPlan query ∅ ∅ ∅ [] outputFields [] true
  else
    let fieldIDs := FieldIDs (en_metadata e) (qu_Measurement query) (qu_Fields query) in
    let predicates := fieldPredicatesByID e query storageFilters in
    if negb (bool_decide (qu_Fields query = [])) && bool_decide (fieldIDs = ∅)
    then mkPlan query (list_to_set seriesIDs) ∅ predicates [] outputFields postFilters true
    else
      let shards := queryShards e query in
      mkPlan query (list_to_set seriesIDs) fieldIDs predicates shards outputFields postFilters (bool_decide (shards = [])).

(** ** query.go: columns *)
Definition decorateColumn (column : ColumnData) (measurement : bytes) (tags : gmap bytes bytes) (fieldName : bytes) : ColumnSeries :=
  mkColumnSeries (cd_SeriesID column) measurement tags (cd_FieldID column) fieldName (cd_FieldType column)
    (map vs_Timestamp (cd_Samples column)) (map vs_Value (cd_Samples column)).
Definition columnDecorator (snapshot : metadataSnapshot) (column : ColumnData) : option ColumnSeries :=
  match md_Series snapshot !! cd_SeriesID column, md_Fields snapshot !! cd_FieldID column with
  | Some series, Some field => Some (decorateColumn column (mt_Measurement series) (mt_Tags series) (mf_Name field))
  | _, _ => None
  end.

Record queryMemoryColumnDataStream (S : Type) := mkMemoryStream {
  qm_source : S;
  qm_memory : storageMemoryLimiter;
  qm_current : ColumnData;
  qm_release : option reservation;
  qm_err : option goerr;
}.
Arguments mkMemoryStream {S} _ _ _ _ _.
Arguments qm_source {S} _.
Arguments qm_memory {S} _.
Arguments qm_current {S} _.
Arguments qm_release {S} _.
Arguments qm_err {S} _.
Definition releaseCurrent {S} (s : queryMemoryColumnDataStream S) : queryMemoryColumnDataStream S :=
  match qm_release s with
  | None => s
  | Some r => mkMemoryStream (qm_source s) (ReleaseBytes r (qm_memory s)) zeroColumnData None (qm_err s)
  end.
Definition memoryNext {S} `{StreamOps S ColumnData} (s : queryMemoryColumnDataStream S) : bool * queryMemoryColumnDataStream S :=
  let s := releaseCurrent s in
  if bool_decide (is_Some (qm_err s)) then (false, s)
  else
    let '(more, src) := next (qm_source s) in
    if negb more then (false, mkMemoryStream src (qm_memory s) (qm_current s) (qm_release s) (qm_err s))
    else
      let column := value src in
      match Reserve storageMemoryQuery 0 (estimateColumnBytes column) (qm_memory s) with
      | (Ok r, memory) => (true, mkMemoryStream src memory column (Some r) (qm_err s))
      | (Err err, memory) => (false, mkMemoryStream src memory (qm_current s) (qm_release s) (Some err))
      | (Panic _, _) => (false, s)
      end.
Definition memoryErr {S} `{StreamOps S ColumnData} (s : queryMemoryColumnDataStream S) : option goerr :=
  match qm_err s with Some err => Some err | None => serr (qm_source s) end.
Definition memoryClose {S} `{StreamOps S ColumnData} (s : queryMemoryColumnDataStream S) : option goerr * queryMemoryColumnDataStream S :=
  let s := releaseCurrent s in
  let '(err, src) := sclose (qm_source s) in
  (err, mkMemoryStream src (qm_memory s) (qm_current s) (qm_release s) (qm_err s)).
#[export] Instance memoryOps {S} `{StreamOps S ColumnData} : StreamOps (queryMemoryColumnDataStream S) ColumnData := {|
  next := memoryNext;
  value := qm_current;
  serr := memoryErr;
  sclose := memoryClose;
  bound s := bound (qm_source s);
|}.
(** Without a limiter nothing is reserved. *)
Definition newQueryMemoryColumnDataStream (source : Stream ColumnData) (memory : option storageMemoryLimiter) : Stream ColumnData :=
  match memory with
  | None => source
  | Some memory =>
      let '(mkAnyStream C ops st) := source in
      mkAnyStream (queryMemoryColumnDataStream C) (@memoryOps C ops) (mkMemoryStream st memory zeroColumnData None None)
  end.

Definition storageQueryOf (plan : QueryPlan) : StorageQuery :=
  mkStorageQuery (qu_Budget (pl_Query plan)) (queryBoundaryMode (pl_Query plan)) (pl_SeriesIDs plan) (pl_FieldIDs plan)
    (pl_FieldPredicates plan) (qu_StartTime (pl_Query plan)) (qu_EndTime (pl_Query plan)).
Fixpoint scanShards (query : StorageQuery) (shards : list queryShard) : outcome (list ColumnStream) :=
  match shards with
  | [] => Ok []
  | shard :: shards' => stream ← qs_ScanColumns shard query; streams ← scanShards query shards'; Ok (stream :: streams)
  end.
Definition queryColumnDataStream `{GoRuntime} (plan : QueryPlan) : outcome (Stream ColumnData) :=
  let maxShards := qb_MaxShards (qu_Budget (pl_Query plan)) in
  if (0 <? maxShards) && (maxShards <? len (pl_Shards plan)) then Err (NewReadBudgetError "shards" (len (pl_Shards plan)) maxShards)
  else
    streams ← scanShards (storageQueryOf plan) (pl_Shards plan);
    Ok (mkAnyStream mergeColumnDataStream mergeOps (MergeColumnDataStreams streams)).

Definition cursorPositionForQuery (query : Query) : outcome CursorPosition :=
  position ← DecodeCursor (qu_Cursor query);
  if cu_Direction position =? cursorDirection (qu_Order query) then Ok position else Err ErrInvalidCursor.
Definition queryAggregateColumnStream `{GoRuntime} (stream : Stream ColumnSeries) (query : Query) : Stream ColumnSeries :=
  if bool_decide (gr_Tags (qu_Group query) = []) then NewAggregateColumnStream stream (qu_Aggregates query) (qu_Window query)
  else NewGroupAggregateColumnStream stream (qu_Aggregates query) (qu_Group query) (qu_Window query).
Definition queryColumnIteratorFromPlan `{GoRuntime} (e : Engine) (plan : QueryPlan) : outcome (Stream ColumnSeries) :=
  let query := pl_Query plan in
  if pl_Empty plan then Ok (NewSliceColumnSeriesStream [])
  else
    raw ← queryColumnDataStream plan;
    let raw := newQueryMemoryColumnDataStream raw (en_memory e) in
    let stream := NewDecoratedColumnStream raw (columnDecorator (Snapshot e)) in
    let stream :=
      if negb (ex_Kind (qu_Expr query) =? QueryExprNone) then NewExprFilteredColumnStream stream (qu_Expr query)
      else if negb (bool_decide (pl_PostFilterPredicates plan = []))
      then NewExprFilteredColumnStream stream (andExprFromPredicates (pl_PostFilterPredicates plan))
      else stream in
    let stream :=
      if negb (bool_decide (qu_Aggregates query = [])) then queryAggregateColumnStream stream query
      else NewProjectedColumnStream stream (pl_OutputFields plan) in
    let stream := if 0 <? qb_MaxSamples (qu_Budget query) then NewBudgetColumnStream stream (qu_Budget query) else stream in
    let stream := NewOrderedColumnStream stream (qu_Order query) in
    stream ←
      (if negb (bool_decide (qu_Cursor query = [])) then cursor ← cursorPositionForQuery query; Ok (NewCursorColumnStream stream cursor)
       else Ok stream);
    Ok (if (0 <? qu_Limit query) || (0 <? qu_Offset query)
        then NewPaginatedColumnStream stream (qu_Limit query) (qu_Offset query) else stream).
Definition QueryColumnIterator `{GoRuntime} (e : Engine) (query : Query) : outcome (Stream ColumnSeries) :=
  queryColumnIteratorFromPlan e (BuildQueryPlan e query).

(** ** query.go: rows *)
Definition columnQuery (query : Query) : Query :=
  let '(mkQuery db rp m tags fields start end_ preds _ aggs window group _ _ _ _ budget) := query in
  mkQuery db rp m tags fields start end_ preds zeroExpr aggs window group (mkOrder QueryOrderByNone 0) 0 0 [] budget.
Definition columnPlan (plan : QueryPlan) : QueryPlan :=
  mkPlan (columnQuery (pl_Query plan)) (pl_SeriesIDs plan) (pl_FieldIDs plan) (pl_FieldPredicates plan) (pl_Shards plan) [] [] (pl_Empty plan).
(** The stack of row operators; [None] is the crash of [NewOrderedRowStream].  The
    merge reads only the limit and the offset of the query it is given, which are
    0 in the code's [mergeQuery] as they are in [columnQuery]. *)
Definition rowOperators `{GoRuntime} (plan : QueryPlan) (columns : Stream ColumnSeries) (cursor : option CursorPosition)
    : option (Stream Row) :=
  let query := pl_Query plan in
  let stream := NewRowMergeStream columns (columnQuery query) in
  let stream :=
    if negb (ex_Kind (qu_Expr query) =? QueryExprNone) then NewExprFilteredRowStream stream (qu_Expr query)
    else if negb (bool_decide (pl_PostFilterPredicates plan = [])) then NewFilteredRowStream stream (pl_PostFilterPredicates plan)
    else stream in
  let stream := newProjectedRowStream stream (pl_OutputFields plan) in
  let stream := match cursor with Some cursor => NewCursorRowStream stream cursor | None => stream end in
  stream ← NewOrderedRowStream stream (qu_Order query) (qu_Limit query) (qu_Offset query);
  let stream := if (0 <? qu_Limit query) || (0 <? qu_Offset query)
                then NewPaginatedRowStream stream (qu_Limit query) (qu_Offset query) else stream in
  Some (if 0 <? qb_MaxSamples (qu_Budget query) then NewBudgetRowStream stream (qu_Budget query) else stream).
Definition queryCursor (query : Query) : outcome (option CursorPosition) :=
  if negb (bool_decide (qu_Cursor query = [])) then cursor ← cursorPositionForQuery query; Ok (Some cursor) else Ok None.
Definition QueryRowIterator `{GoRuntime} (e : Engine) (query : Query) : outcome (option (Stream Row)) :=
  let plan := BuildQueryPlan e query in
  columns ← queryColumnIteratorFromPlan e (columnPlan plan);
  cursor ← queryCursor (pl_Query plan);
  Ok (rowOperators plan columns cursor).
(** The rows and the error; [None] when the program crashes. *)
Definition QueryRows `{GoRuntime} (e : Engine) (query : Query) : option (list Row * option goerr) :=
  match QueryRowIterator e query with
  | Ok (Some stream) => Some (drainStream stream)
  | Ok None => None
  | Err err => Some ([], Some err)
  | Panic _ => None
  end.
