(* ===== verification/QueryRows.v ===== *)
(** * What a row query returns

    The rows of a query are a page of the ordered, projected and filtered table
    that the samples of the shards form: [table_of] states the table against the
    versions the shards hold and the catalog, [rowAnswer] the list functions
    behind it.  [settles] follows a list through the stack of operators when one
    of them stops early with an error. *)
From S2P Require Import Prelude Model Runtime Versions StoreSpec QueryMerge MemoryBudget ShardCompact ShardScan GoStrings Catalog CatalogProofs QueryModel QueryStream QueryStreamProofs QueryMergeRows QueryCursor QueryEngine.
From stdpp Require Import prelude strings list sorting gmap.
From Stdlib Require Import ZArith Lia.
#[local] Open Scope Z_scope.

(** ** Streams that stop early *)

(** [ys] are the first elements of [xs], all of them when there is no error. *)
Definition settles {A} (ys : list A) (err : option goerr) (xs : list A) : Prop :=
  ys `prefix_of` xs /\ (err = None -> ys = xs).
Lemma settles_refl {A} (xs : list A) err : settles xs err xs.
Proof. done. Qed.
Lemma settles_trans {A} (xs ys zs : list A) e1 e2 : settles ys e1 xs -> settles zs e2 ys -> (e2 = None -> e1 = None) -> settles zs e2 xs.
Proof. intros [H1 H2] [H3 H4] He. split; [by etrans|]. intros E. rewrite H4 by done. auto. Qed.
Lemma prefix_filter {A} (P : A -> Prop) `{forall x, Decision (P x)} (xs ys : list A) : ys `prefix_of` xs -> filter P ys `prefix_of` filter P xs.
Proof. intros [zs ->]. rewrite filter_app. by apply prefix_app_r. Qed.
Lemma settles_filter {A} (P : A -> Prop) `{forall x, Decision (P x)} (xs ys : list A) err : settles ys err xs -> settles (filter P ys) err (filter P xs).
Proof. intros [H1 H2]. split; [by apply prefix_filter|]. intros E. by rewrite H2. Qed.
Lemma settles_map {A B} (f : A -> B) (xs ys : list A) err : settles ys err xs -> settles (map f ys) err (map f xs).
Proof. intros [[zs ->] H2]. split; [rewrite map_app; by apply prefix_app_r|]. intros E. by rewrite <- H2. Qed.
Lemma settles_page {A} limit offset (xs ys : list A) err : settles ys err xs ->
  settles (pageRows limit offset ys) (pageErr limit offset ys err) (pageRows limit offset xs).
Proof.
  intros [[zs ->] H2]. unfold pageRows, pageErr. destruct (0 <? limit) eqn:El; cbn [andb].
  - rewrite drop_app. destruct (limit <=? len (drop (Z.to_nat offset) ys)) eqn:Ep.
    + rewrite take_app_le by (unfold len in Ep; lia). done.
    + split; [|intros E; specialize (H2 E); rewrite <- (app_nil_r ys) in H2 at 1; apply app_inv_head in H2 as <-; by rewrite drop_nil, app_nil_r].
      rewrite (take_ge (drop (Z.to_nat offset) ys)) by (unfold len in Ep; lia).
      rewrite take_app_ge by (unfold len in Ep; lia). by apply prefix_app_r.
  - rewrite drop_app. split; [by apply prefix_app_r|]. intros E. specialize (H2 E). rewrite <- (app_nil_r ys) in H2 at 1.
    apply app_inv_head in H2 as <-. by rewrite drop_nil, app_nil_r.
Qed.
Lemma settles_budget {A} metric (weight : A -> Z) limit err (xs : list A) : forall count,
  settles (budgetList metric weight limit count xs err).1 (budgetList metric weight limit count xs err).2 xs /\
  ((budgetList metric weight limit count xs err).2 = None -> err = None).
Proof.
  induction xs as [|x xs IH]; intros count; cbn [budgetList]; [done|]. destruct (_ && _); cbn [fst snd].
  - split; [|done]. split; [apply prefix_nil|done].
  - specialize (IH (i64 (count + weight x))). destruct (budgetList _ _ _ _ xs err) as [ys e]. cbn [fst snd] in *.
    destruct IH as [[H1 H2] H3]. split; [|done]. split; [by apply prefix_cons|]. intros E. by rewrite H2.
Qed.

(** ** Columns under the memory limit *)
Fixpoint memoryList (memory : storageMemoryLimiter) (xs : list ColumnData) (err : option goerr) : list ColumnData * option goerr :=
  match xs with
  | [] => ([], err)
  | x :: xs' =>
      match Reserve storageMemoryQuery 0 (estimateColumnBytes x) memory with
      | (Ok r, memory) => let '(ys, e) := memoryList (ReleaseBytes r memory) xs' err in (x :: ys, e)
      | (Err e, _) => ([], Some e)
      | (Panic _, _) => ([], None)
      end
  end.
Lemma Reserve_no_panic kind active bytes memory p l : Reserve kind active bytes memory <> (Panic p, l).
Proof. unfold Reserve. destruct (_ <=? _); [done|]. by destruct (checkLocked _ _ _ _). Qed.
Lemma memoryList_settles err xs : forall memory,
  settles (memoryList memory xs err).1 (memoryList memory xs err).2 xs /\ ((memoryList memory xs err).2 = None -> err = None).
Proof.
  induction xs as [|x xs IH]; intros memory; cbn [memoryList]; [done|].
  destruct (Reserve _ _ _ _) as [[r|e|p] l] eqn:Er; cbn [fst snd].
  - specialize (IH (ReleaseBytes r l)). destruct (memoryList _ xs err) as [ys e]. cbn [fst snd] in *.
    destruct IH as [[H1 H2] H3]. split; [|done]. split; [by apply prefix_cons|]. intros E. by rewrite H2.
  - split; [|done]. split; [apply prefix_nil|done].
  - by apply Reserve_no_panic in Er.
Qed.
Section memory.
  Context {S : Type} {ops : StreamOps S ColumnData}.
  Implicit Types (src : S).

Lemma quiet_memory : quiet ops -> quiet (@memoryOps S ops).
Proof.
  intros Hq s. cbn. unfold memoryClose, memoryErr. set (t := releaseCurrent s).
  assert (qm_source s = qm_source t /\ qm_err s = qm_err t) as [-> ->] by (unfold t, releaseCurrent; by destruct (qm_release s)).
  destruct (Hq (qm_source t)) as [H1 H2]. destruct (sclose (qm_source t)) as [e src]. simpl in *. split; [done|]. by rewrite H2.
Qed.
Lemma delivers_memory xs err src : delivers src xs err -> forall s, qm_source s = src -> qm_err s = None ->
  delivers s (memoryList (qm_memory (releaseCurrent s)) xs err).1 (memoryList (qm_memory (releaseCurrent s)) xs err).2.
Proof.
  induction 1 as [src src' err En He|src src' xs err En Ee Hd IH Hb]; intros s Es Em;
    (assert (qm_source (releaseCurrent s) = src /\ qm_err (releaseCurrent s) = None) as [Es' Em']
       by (unfold releaseCurrent; by destruct (qm_release s))); cbn [memoryList].
  - eapply delivers_done.
    { cbn. unfold memoryNext. rewrite Em', Es', En. by cbn. }
    apply (ended_wrap memoryOps (fun t u => qm_source u = t /\ qm_err u = None) src'); [done|done| |].
    { intros t u Et [<- Eu]. cbn. unfold memoryErr. by rewrite Eu. }
    intros t t' u _ _ Et [Eu1 Eu2]. assert (qm_source (releaseCurrent u) = t /\ qm_err (releaseCurrent u) = None) as [E1 E2]
      by (unfold releaseCurrent; by destruct (qm_release u)).
    exists (mkMemoryStream t' (qm_memory (releaseCurrent u)) (qm_current (releaseCurrent u)) (qm_release (releaseCurrent u)) (qm_err (releaseCurrent u))).
    split; [|done]. cbn. unfold memoryNext. by rewrite E2, E1, Et.
  - destruct (Reserve storageMemoryQuery 0 (estimateColumnBytes (value src')) (qm_memory (releaseCurrent s))) as [[r|e|p] l] eqn:Er.
    + set (t := mkMemoryStream src' l (value src') (Some r) None).
      specialize (IH t eq_refl eq_refl). pose proof (memoryList_settles err xs (ReleaseBytes r l)) as [[Hpre _] _].
      change (qm_memory (releaseCurrent t)) with (ReleaseBytes r l) in IH.
      destruct (memoryList (ReleaseBytes r l) xs err) as [ys e]. cbn [fst snd] in *.
      eapply (delivers_more _ t); [|done| |exact IH|].
      * cbn. unfold memoryNext. rewrite Em', Es', En. cbn [bool_decide negb]. rewrite bool_decide_false by by intros []%is_Some_None.
        cbn [negb]. by rewrite Er.
      * cbn. unfold memoryErr, t. cbn. done.
      * cbn. rewrite Es. apply prefix_length in Hpre. lia.
    + cbn [fst snd]. eapply delivers_done.
      { cbn. unfold memoryNext. rewrite Em', Es', En. rewrite bool_decide_false by by intros []%is_Some_None. cbn [negb]. by rewrite Er. }
      exists (fun u => qm_err u = Some e). split; [done|]. intros u Eu. split; [cbn; unfold memoryErr; by rewrite Eu|].
      exists (releaseCurrent u). assert (qm_err (releaseCurrent u) = Some e) as Eu' by (unfold releaseCurrent; by destruct (qm_release u)).
      split; [|done]. cbn. unfold memoryNext. by rewrite Eu', bool_decide_true by by eexists.
    + by apply Reserve_no_panic in Er.
Qed.
End memory.
Lemma yields_memory source memory xs err : yields source xs err -> exists ys e,
  yields (newQueryMemoryColumnDataStream source memory) ys e /\ settles ys e xs /\ (e = None -> err = None) /\ (memory = None -> e = err).
Proof.
  intros Hy. destruct memory as [memory|]; [|by exists xs, err]. destruct source as [C ops st]. destruct Hy as [Hq Hd].
  destruct (memoryList_settles err xs memory) as [H1 H2]. eexists _, _. split; [|split; [exact H1|by split]].
  split; [by apply quiet_memory|]. exact (delivers_memory xs err st Hd (mkMemoryStream st memory zeroColumnData None None) eq_refl eq_refl).
Qed.

(** ** Rows of the columns that were delivered *)
Lemma firstRun_prefix series ys zs : (firstRun series ys).2 <> [] ->
  firstRun series (ys ++ zs) = ((firstRun series ys).1, (firstRun series ys).2 ++ zs).
Proof.
  induction ys as [|y ys IH]; simpl; [done|]. destruct (_ =? _); [|done]. destruct (firstRun series ys) as [run rest]. cbn [fst snd] in *.
  intros Hne. by rewrite IH.
Qed.
Lemma removelast_runs ys : forall zs, removelast (seriesRuns ys) `prefix_of` seriesRuns (ys ++ zs).
Proof.
  remember (length ys) as n eqn:En. revert ys En. induction n as [n IH] using (well_founded_induction lt_wf).
  intros [|y ys] -> zs; [apply prefix_nil|]. cbn [app]. rewrite !seriesRuns_first.
  pose proof (firstRun_app (cl_SeriesID y) ys) as Happ. pose proof (firstRun_prefix (cl_SeriesID y) ys zs) as Hp.
  destruct (firstRun (cl_SeriesID y) ys) as [run rest]. cbn [fst snd] in *. destruct rest as [|r rest]; [apply prefix_nil|].
  rewrite Hp by done. cbn [fst snd].
  assert (removelast ((y :: run) :: seriesRuns (r :: rest)) = (y :: run) :: removelast (seriesRuns (r :: rest))) as -> by by rewrite (seriesRuns_first r rest).
  apply prefix_cons, (IH (length (r :: rest))); [|done]. rewrite <- Happ. simpl. rewrite length_app. simpl. lia.
Qed.
Lemma prefix_concat {A} (xss yss : list (list A)) : xss `prefix_of` yss -> concat xss `prefix_of` concat yss.
Proof. intros [zss ->]. rewrite concat_app. by apply prefix_app_r. Qed.
Lemma mergedRows_settles ys err cols : settles ys err cols -> settles (mergedRows err ys) err (mergedRows None cols).
Proof.
  intros [[zs ->] H]. split.
  - destruct err as [e|]; [|rewrite <- H by done; done]. apply prefix_concat. unfold completeRuns.
    destruct (removelast_runs ys zs) as [runs ->]. rewrite map_app. by apply prefix_app_r.
  - intros E. rewrite <- H by done. by rewrite E.
Qed.

(** Columns in the order of their series. *)
Definition by_series (c d : ColumnSeries) : Prop := cl_SeriesID c <= cl_SeriesID d.
Definition row_lt (x y : Row) : Prop :=
  rw_SeriesID x < rw_SeriesID y \/ (rw_SeriesID x = rw_SeriesID y /\ rw_Timestamp x < rw_Timestamp y).
Record run_ok (run : list ColumnSeries) (series : Z) : Prop := {
  ro_nonempty : run <> [];
  ro_series c : c ∈ run -> cl_SeriesID c = series;
}.
Lemma firstRun_sorted series cols : StronglySorted by_series cols -> Forall (fun c => series <= cl_SeriesID c) cols ->
  StronglySorted by_series (firstRun series cols).2 /\ Forall (fun c => series < cl_SeriesID c) (firstRun series cols).2.
Proof.
  induction 1 as [|c cols Hs IH Hc]; intros HF; simpl; [by repeat constructor|]. apply Forall_cons in HF as [H1 HF].
  destruct (cl_SeriesID c =? series) eqn:E.
  - specialize (IH HF). by destruct (firstRun series cols).
  - cbn [snd]. split; [by constructor|]. constructor; [lia|]. rewrite Forall_forall in Hc |- *. intros d Hd. specialize (Hc d Hd). unfold by_series in Hc. lia.
Qed.
Lemma seriesRuns_sorted cols : StronglySorted by_series cols ->
  exists ids, StronglySorted Z.lt ids /\ Forall2 run_ok (seriesRuns cols) ids /\ Forall (fun id => exists c, c ∈ cols /\ cl_SeriesID c = id) ids.
Proof.
  remember (length cols) as n eqn:En. revert cols En. induction n as [n IH] using (well_founded_induction lt_wf).
  intros [|c cols] -> Hs; [exists []; by repeat constructor|]. apply StronglySorted_inv in Hs as [Hs Hc].
  rewrite seriesRuns_first. pose proof (firstRun_app (cl_SeriesID c) cols) as Happ. pose proof (firstRun_series (cl_SeriesID c) cols) as Hids.
  destruct (firstRun_sorted (cl_SeriesID c) cols Hs Hc) as [Hs' Hlt]. destruct (firstRun (cl_SeriesID c) cols) as [run rest]. cbn [fst snd] in *.
  destruct (IH (length rest)) with (cols := rest) as (ids & H1 & H2 & H3); [rewrite <- Happ; simpl; rewrite length_app; lia|done|done|].
  assert (rest ⊆ c :: cols) as Hsub by (rewrite <- Happ; intros x Hx; right; apply elem_of_app; by right).
  exists (cl_SeriesID c :: ids). split_and!.
  - constructor; [done|]. rewrite Forall_forall in H3. rewrite Forall_forall in Hlt. rewrite Forall_forall. intros id Hid. destruct (H3 id Hid) as (d & Hd & <-). by apply Hlt.
  - constructor; [|done]. split; [done|]. intros d [->|Hd]%elem_of_cons; [done|by apply Hids].
  - constructor; [exists c; split; [left|done]|]. eapply Forall_impl; [exact H3|]. intros id (d & Hd & E). exists d. split; [by apply Hsub|done].
Qed.
Lemma elem_of_seriesRows run r : r ∈ seriesRows run <->
  exists first rest t, run = first :: rest /\ t ∈ times (seriesSamples run) /\ r = seriesRow first (seriesSamples run) t.
Proof.
  unfold seriesRows. destruct run as [|first rest]; [split; [by intros ?%elem_of_nil|by intros (? & ? & ? & ? & _)]|].
  rewrite list_elem_of_fmap. setoid_rewrite elem_of_ascending. split.
  - intros (t & -> & Ht). by exists first, rest, t.
  - intros (? & ? & t & [= <- <-] & Ht & ->). by exists t.
Qed.
Lemma seriesRows_series run series r : run_ok run series -> r ∈ seriesRows run -> rw_SeriesID r = series.
Proof. intros [_ Hs] (first & rest & t & -> & _ & ->)%elem_of_seriesRows. apply Hs. left. Qed.
Lemma mergedRows_sorted cols : StronglySorted by_series cols -> StronglySorted row_lt (mergedRows None cols).
Proof.
  intros (ids & Hs & HF & _)%seriesRuns_sorted. unfold mergedRows. cbn [completeRuns].
  induction HF as [|run id runs ids Hr HF IH]; [constructor|]. apply StronglySorted_inv in Hs as [Hs Hlt]. cbn [map concat].
  apply StronglySorted_app_2; [| |by apply IH].
  - intros x y Hx Hy. left. rewrite (seriesRows_series _ _ _ Hr Hx). apply elem_of_concat in Hy as (rows & Hy & Hrows).
    apply list_elem_of_fmap in Hrows as (run' & -> & Hin). apply list_elem_of_lookup in Hin as [i Hi].
    destruct (Forall2_lookup_l _ _ _ _ _ HF Hi) as (id' & Hid' & Hr'). rewrite (seriesRows_series _ _ _ Hr' Hy).
    rewrite Forall_forall in Hlt. apply Hlt. by eapply list_elem_of_lookup_2.
  - unfold seriesRows. destruct run as [|first rest]; [constructor|]. pose proof (ascending_sorted (times (seriesSamples (first :: rest)))) as Ha.
    induction Ha as [|t ts Ha IH' Ht]; cbn [map]; constructor; [done|]. apply Forall_fmap. eapply Forall_impl; [exact Ht|]. intros t' Hlt'. right. by split.
Qed.
Lemma row_lt_NoDup rows : StronglySorted row_lt rows -> NoDup (map rowKey rows).
Proof.
  induction 1 as [|r rows Hs IH Hr]; cbn [map]; constructor; [|done]. intros (r' & E & Hin)%list_elem_of_fmap.
  rewrite Forall_forall in Hr. specialize (Hr r' Hin). unfold rowKey in E. injection E as E1 E2. destruct Hr as [?|[_ ?]]; lia.
Qed.

(** ** The merged streams of the shards *)
Section merging.
  Context `{GoRuntimeLaws}.
Lemma merge_ended m m' : QueryMerge.Next m = (false, m') -> mm_err m' = None -> ended m' None.
Proof.
  unfold QueryMerge.Next. intros En He. destruct (mm_closed m || bool_decide (is_Some (mm_err m))) eqn:Ec.
  { injection En as <-. apply ended_self; [|done]. cbn. unfold QueryMerge.Next. by rewrite Ec. }
  apply orb_false_iff in Ec as [Ec _].
  destruct (if mm_initialized m then (mm_err m, mm_sources m) else initialize (mm_err m) (mm_sources m)) as [err sources] eqn:Ei.
  destruct (bool_decide (is_Some err)) eqn:Ee.
  { injection En as <-. simpl in He. subst err. by apply bool_decide_eq_true in Ee as []%is_Some_None. }
  destruct (minSource sources) as [c|] eqn:Em.
  - destruct (takeGroup (keyOf c) err sources) as [[group err'] sources'] eqn:Et.
    destruct (bool_decide (is_Some err')) eqn:Ee'; [|done]. injection En as <-. simpl in He. subst err'.
    by apply bool_decide_eq_true in Ee' as []%is_Some_None.
  - injection En as <-. simpl in He. subst err. apply ended_self; [|done]. unfold next, mergeOps, QueryMerge.Next.
    cbn [mm_closed mm_err mm_initialized mm_sources mm_current]. rewrite Ec. cbn [orb]. rewrite bool_decide_false by by intros []%is_Some_None. by rewrite Em.
Qed.
Lemma merge_more m m' : QueryMerge.Next m = (true, m') -> mm_err m' = None.
Proof.
  unfold QueryMerge.Next. destruct (_ || _); [done|]. destruct (if mm_initialized m then _ else _) as [err sources].
  destruct (bool_decide (is_Some err)); [done|]. destruct (minSource sources) as [c|]; [|done].
  destruct (takeGroup (keyOf c) err sources) as [[group err'] sources']. destruct (bool_decide (is_Some err')) eqn:E; [done|].
  intros [= <-]. cbn. apply bool_decide_eq_false in E. by apply eq_None_not_Some.
Qed.
Lemma merge_delivers m out : ShardScan.delivers m out -> delivers m out None.
Proof.
  induction 1 as [m m' En Ee|m m' out En Hd IH Hb].
  - eapply delivers_done; [exact En|by eapply merge_ended].
  - eapply delivers_more; [exact En|done|by eapply merge_more|exact IH|exact Hb].
Qed.
Lemma yields_merged schema query Vs streams : Forall2 (answering schema query) Vs streams -> exists out,
  yields (mkAnyStream mergeColumnDataStream mergeOps (MergeColumnDataStreams streams)) out None /\
  answers schema query (union_contents Vs) out.
Proof.
  intros [HF Hs]%answering_items. destruct (ShardScan.streams_deliver streams Hs) as (out & Hd & Hm). exists out.
  split; [split; [done|by apply merge_delivers]|by eapply answers_merge].
Qed.
End merging.

(** ** What the shards hold *)

(** A query without pushed down field predicates and boundary modes, and without
    a budget of parts. *)
Definition plainQuery (query : StorageQuery) : Prop :=
  sq_Boundary query = QueryBoundaryNone /\ sq_FieldPredicates query = ∅ /\ qb_MaxParts (sq_Budget query) <= 0.
Definition belongs (query : Query) (shard : queryShard) : bool :=
  bool_decide (qs_Database shard = qu_Database query) && bool_decide (qs_RetentionPolicy shard = qu_RetentionPolicy query).
(** The versions [V] of all shards of the database and policy of a query. *)
Definition storedIn (e : Engine) (V : bytes -> contents) (query : Query) : contents := fun k =>
  concat (map (fun entry => if belongs query entry.2 then V entry.1 k else []) (map_to_list (en_shards e))).
Lemma elem_of_storedIn e V query k x : x ∈ storedIn e V query k <->
  exists id shard, en_shards e !! id = Some shard /\ belongs query shard = true /\ x ∈ V id k.
Proof.
  unfold storedIn. rewrite elem_of_concat. split.
  - intros (xs & Hx & Hin). apply list_elem_of_fmap in Hin as ([id shard] & -> & Hin%elem_of_map_to_list). cbn [fst snd] in Hx.
    destruct (belongs query shard) eqn:Eb; [by exists id, shard|by apply elem_of_nil in Hx].
  - intros (id & shard & Hs & Eb & Hx). eexists. split; [|apply (list_elem_of_fmap_2 _ _ (id, shard)); by apply elem_of_map_to_list].
    cbn [fst snd]. by rewrite Eb.
Qed.

(** The shards answer scans with the versions [V], within their bounds, and hold
    nothing the catalog does not know. *)
Record served (schema : Z * Z -> Z) (e : Engine) (V : bytes -> contents) : Prop := {
  sv_index : index_ok (ct_index (en_metadata e));
  sv_scan id shard query : en_shards e !! id = Some shard -> plainQuery query ->
    exists stream, qs_ScanColumns shard query = Ok stream /\ answering schema query (V id) stream;
  sv_bounds id shard k x : en_shards e !! id = Some shard -> x ∈ V id k -> qs_Start shard <= vs_Timestamp x <= qs_End shard;
  sv_known id shard k x : en_shards e !! id = Some shard -> x ∈ V id k ->
    exists s f, ix_series (ct_index (en_metadata e)) !! k.1 = Some s /\ ix_fields (ct_index (en_metadata e)) !! k.2 = Some f /\
      se_Measurement s = fd_Measurement f;
  sv_versioned query : all_versioned (storedIn e V query);
}.

(** ** The table of a query *)
Section table.
  Context (e : Engine) (V : bytes -> contents) (query : Query).

Definition seriesPasses (tags : gmap bytes bytes) : bool :=
  if structuredExpr (qu_Expr query) then negb (tagOnlyExpr (qu_Expr query)) || seriesMatchesTagExpr tags (qu_Expr query)
  else negb (hasNonExactTagPredicate (qu_Predicates query)) || seriesMatchesTagPredicates tags (qu_Predicates query).
Definition seriesSelected (id : Z) (s : Series) : Prop :=
  ix_series (ct_index (en_metadata e)) !! id = Some s /\ se_Measurement s = qu_Measurement query /\
  tagsMatch (se_Tags s) (qu_Tags query) = true /\ seriesPasses (se_Tags s) = true.
(** The fields that are read, those that only a predicate names included. *)
Definition readFields : list bytes := scanFields (qu_Fields query) (qu_Aggregates query) (fieldPredicates (qu_Predicates query)).
Definition fieldSelected (id : Z) (f : Field) : Prop :=
  ix_fields (ct_index (en_metadata e)) !! id = Some f /\ fd_Measurement f = qu_Measurement query /\
  (readFields = [] \/ fd_Name f ∈ readFields).
(** The newest version of a series and field at an instant of the range. *)
Definition newest_at (k : Z * Z) (t : Z) (x : VersionedSample) : Prop :=
  x ∈ storedIn e V query k /\ vs_Timestamp x = t /\ qu_StartTime query <= t <= qu_EndTime query /\
  forall y, y ∈ storedIn e V query k -> vs_Timestamp y = t -> vs_WriteSeq y <= vs_WriteSeq x.

(** One row per series and instant at which a selected field has a version, in the
    order of the series and the time, with the newest value of every field that has
    one. *)
Record table_of (rows : list Row) : Prop := {
  tb_sorted : StronglySorted row_lt rows;
  tb_series r : r ∈ rows ->
    exists s, seriesSelected (rw_SeriesID r) s /\ rw_Measurement r = se_Measurement s /\ rw_Tags r = se_Tags s;
  tb_fields r name v : r ∈ rows -> rw_Fields r !! name = Some v <->
    exists id f x, fieldSelected id f /\ fd_Name f = name /\ newest_at (rw_SeriesID r, id) (rw_Timestamp r) x /\ vs_Value x = v;
  tb_rows series t : (exists r, r ∈ rows /\ rw_SeriesID r = series /\ rw_Timestamp r = t) <->
    exists s id f x, seriesSelected series s /\ fieldSelected id f /\ newest_at (series, id) t x;
}.

(** The rows of the answer, from the table. *)
Definition rowPasses (row : Row) : bool :=
  if negb (ex_Kind (qu_Expr query) =? QueryExprNone) then rowMatchesExpr row (qu_Expr query)
  else rowMatchesPredicates row (fieldPredicates (qu_Predicates query)).
Definition projected (row : Row) : Row :=
  if bool_decide (qu_Fields query = []) then row else projectRow (list_to_set (qu_Fields query)) row.
Definition behind (cursor : option CursorPosition) (rows : list Row) : list Row :=
  match cursor with
  | Some position => filter (fun row => rowAfterCursor (rw_SeriesID row) (rw_Timestamp row) position = true) rows
  | None => rows
  end.
Definition inOrder (rows : list Row) : list Row := if descByTime (qu_Order query) then sortRowsDesc rows else rows.
Definition rowAnswer (cursor : option CursorPosition) (table : list Row) : list Row :=
  pageRows (qu_Limit query) (qu_Offset query)
    (inOrder (behind cursor (map projected (filter (fun row => rowPasses row = true) table)))).
End table.
(** The table is determined. *)
Lemma table_of_unique e V query rows rows' : table_of e V query rows -> table_of e V query rows' -> rows = rows'.
Proof.
  intros H1 H2.
  assert (Irreflexive row_lt) by (intros x [?|[_ ?]]; lia).
  assert (Transitive row_lt) by (intros x y z; unfold row_lt; lia).
  apply (sorted_perm_unique row_lt); [apply H1|apply H2|].
  assert (forall l l', table_of e V query l -> table_of e V query l' -> forall r, r ∈ l -> r ∈ l') as Hsub.
  { clear. intros l l' H1 H2 r Hr.
    destruct (proj2 (tb_rows _ _ _ _ H2 (rw_SeriesID r) (rw_Timestamp r))) as (r' & Hr' & E1 & E2).
    { apply (tb_rows _ _ _ _ H1). by exists r. }
    assert (r = r') as ->; [|done]. destruct (tb_series _ _ _ _ H1 r Hr) as (s & (Hs & _) & M1 & T1).
    destruct (tb_series _ _ _ _ H2 r' Hr') as (s' & (Hs' & _) & M2 & T2). rewrite E1 in Hs'. assert (s' = s) as -> by congruence.
    assert (rw_Fields r = rw_Fields r') as EF.
    { apply map_eq. intros name. apply option_eq. intros v.
      rewrite (tb_fields _ _ _ _ H1 r name v Hr), (tb_fields _ _ _ _ H2 r' name v Hr'). by rewrite E1, E2. }
    destruct r, r'. cbn in *. congruence. }
  assert (forall l, StronglySorted row_lt l -> NoDup l) as Hnd.
  { clear. intros l Hl. apply (NoDup_fmap_1 rowKey). by apply row_lt_NoDup. }
  apply NoDup_Permutation; [apply Hnd, H1|apply Hnd, H2|]. intros r. split; by apply Hsub.
Qed.

(** ** The plan *)
Section plan.
  Context `{GoRuntime} (e : Engine).

Lemma snapshot_series id : md_Series (Snapshot e) !! id =
  (fun s => mkMetadataSeries (se_Measurement s) (se_Tags s)) <$> ix_series (ct_index (en_metadata e)) !! id.
Proof.
  unfold Snapshot, metadataSnapshotFromCatalog, CatalogSnapshot, cloneTags. cbn [md_Series fst]. rewrite !lookup_fmap.
  destruct (ix_series _ !! id) as [s|]; [|done]. cbn. by rewrite !CloneMap_id.
Qed.
Lemma snapshot_fields id : md_Fields (Snapshot e) !! id =
  (fun f => mkMetadataField (fd_Measurement f) (fd_Name f)) <$> ix_fields (ct_index (en_metadata e)) !! id.
Proof. unfold Snapshot, metadataSnapshotFromCatalog, CatalogSnapshot. cbn [md_Fields snd]. by rewrite lookup_fmap. Qed.
Lemma elem_of_MatchSeries id measurement tags : index_ok (ct_index (en_metadata e)) ->
  id ∈ MatchSeries (en_metadata e) measurement tags <->
  exists s, ix_series (ct_index (en_metadata e)) !! id = Some s /\ se_Measurement s = measurement /\ tagsMatch (se_Tags s) tags = true.
Proof.
  intros Hok. unfold MatchSeries, matchingSeries. rewrite list_elem_of_fmap. setoid_rewrite list_elem_of_filter.
  setoid_rewrite merge_sort_Permutation. setoid_rewrite list_elem_of_fmap. split.
  - intros (s & -> & (Hm & Ht) & [id' s'] & -> & Hin%elem_of_map_to_list). cbn [snd] in *. exists s'.
    destruct (io_series _ Hok _ _ Hin) as (-> & _). done.
  - intros (s & Hs & Hm & Ht). exists s. destruct (io_series _ Hok _ _ Hs) as (<- & _). split; [done|]. split; [done|].
    exists (se_ID s, s). split; [done|]. by apply elem_of_map_to_list.
Qed.
Lemma plan_series query id : index_ok (ct_index (en_metadata e)) ->
  id ∈ (filterSeriesIDsByPredicates (MatchSeries (en_metadata e) (qu_Measurement query) (qu_Tags query))
          (mt_Tags <$> md_Series (Snapshot e)) (qu_Expr query) (qu_Predicates query)).1 <->
  exists s, seriesSelected e query id s.
Proof.
  intros Hok. unfold seriesSelected, seriesPasses, filterSeriesIDsByPredicates, filterSeriesIDsByTagExpr, filterSeriesIDs.
  assert (forall s, ix_series (ct_index (en_metadata e)) !! id = Some s ->
    (mt_Tags <$> md_Series (Snapshot e)) !! id = Some (se_Tags s)) as Htags.
  { intros s Hs. by rewrite lookup_fmap, snapshot_series, Hs. }
  destruct (structuredExpr (qu_Expr query)); [destruct (tagOnlyExpr (qu_Expr query))|destruct (hasNonExactTagPredicate (qu_Predicates query))];
    cbn [negb fst orb]; rewrite ?list_elem_of_filter, elem_of_MatchSeries by done.
  - split.
    + intros (Hm & s & Hs & E1 & E2). exists s. by rewrite (Htags s Hs) in Hm.
    + intros (s & Hs & E1 & E2 & E3). split; [by rewrite (Htags s Hs)|by exists s].
  - naive_solver.
  - split.
    + intros (Hm & s & Hs & E1 & E2). exists s. by rewrite (Htags s Hs) in Hm.
    + intros (s & Hs & E1 & E2 & E3). split; [by rewrite (Htags s Hs)|by exists s].
  - naive_solver.
Qed.
Lemma elem_of_FieldIDs id measurement names : index_ok (ct_index (en_metadata e)) -> 0xff ∉ measurement ->
  id ∈ FieldIDs (en_metadata e) measurement names <->
  exists f, ix_fields (ct_index (en_metadata e)) !! id = Some f /\ fd_Measurement f = measurement /\ (names = [] \/ fd_Name f ∈ names).
Proof.
  intros Hok Hclean. unfold FieldIDs. case_bool_decide as E.
  - rewrite elem_of_list_to_set, list_elem_of_fmap. setoid_rewrite list_elem_of_filter. setoid_rewrite list_elem_of_fmap. split.
    + intros (f & -> & Hm & [id' f'] & -> & Hin%elem_of_map_to_list). cbn [snd] in *. exists f'.
      destruct (io_fields _ Hok _ _ Hin) as (-> & _). split_and!; [done|done|by left].
    + intros (f & Hf & Hm & _). exists f. destruct (io_fields _ Hok _ _ Hf) as (<- & _). split; [done|]. split; [done|].
      exists (fd_ID f, f). split; [done|]. by apply elem_of_map_to_list.
  - rewrite elem_of_list_to_set, list_elem_of_omap. split.
    + intros (name & Hn & Hid). apply (io_byName _ Hok) in Hid as (f & Hf & Hk). exists f.
      destruct (io_fields _ Hok _ _ Hf) as (_ & _ & Hc). destruct (fieldKey_inj _ _ _ _ Hc Hclean Hk) as [<- <-]. split_and!; [done|done|by right].
    + intros (f & Hf & <- & [?|Hn]); [done|]. exists (fd_Name f). split; [done|]. apply (io_byName _ Hok). by exists f.
Qed.
End plan.
