(* ===== verification/QueryAnswers.v ===== *)
(** * Row queries answer from the table

    The columns the shards answer with become the table of the query, and the
    operators above it deliver the page of the answer. *)
From S2P Require Import Prelude Model Runtime Versions MemCompact StoreSpec QueryMerge MemoryBudget GoStrings Catalog CatalogProofs QueryModel QueryStream QueryStreamProofs QueryMergeRows QueryCursor QueryEngine QueryRows.
From stdpp Require Import prelude strings list sorting gmap.
From Stdlib Require Import ZArith Lia.
#[local] Open Scope Z_scope.

(** ** Fields of a row *)
Lemma seriesFields_lookup samples t name v :
  (forall v1 v2, (name, t, v1) ∈ samples -> (name, t, v2) ∈ samples -> v1 = v2) ->
  seriesFields samples t !! name = Some v <-> (name, t, v) ∈ samples.
Proof.
  induction samples as [|s samples IH] using rev_ind; intros Hf.
  - unfold seriesFields. cbn. rewrite lookup_empty, elem_of_nil. done.
  - rewrite seriesFields_snoc, elem_of_app, list_elem_of_singleton. setoid_rewrite elem_of_app in Hf. setoid_rewrite list_elem_of_singleton in Hf.
    assert (seriesFields samples t !! name = Some v <-> (name, t, v) ∈ samples) as IH' by (apply IH; intros v1 v2 H1 H2; apply Hf; by left).
    destruct s as [[n t'] v']. unfold setField. cbn [fst snd]. case_decide as Et.
    + subst t'. destruct (decide (n = name)) as [->|Hn].
      * rewrite lookup_insert_eq. split; [intros [= ->]; by right|]. intros [Hin|[= ->]]; [|done]. f_equal. apply Hf; [by right|by left].
      * rewrite lookup_insert_ne by done. rewrite IH'. split; [by left|]. intros [?|[= ? ?]]; [done|congruence].
    + rewrite IH'. split; [by left|]. intros [?|[= ? ? ?]]; [done|congruence].
Qed.
Lemma elem_of_decorated c measurement tags name n t v :
  (n, t, v) ∈ columnSamples (decorateColumn c measurement tags name) <->
  n = name /\ exists x, x ∈ cd_Samples c /\ vs_Timestamp x = t /\ vs_Value x = v.
Proof.
  unfold columnSamples, decorateColumn. cbn [cl_Timestamps cl_Values cl_FieldName].
  assert (zip (map vs_Timestamp (cd_Samples c)) (map vs_Value (cd_Samples c)) = map (fun x => (vs_Timestamp x, vs_Value x)) (cd_Samples c)) as ->.
  { induction (cd_Samples c) as [|x xs IH]; [done|]. cbn. by f_equal. }
  rewrite map_map, list_elem_of_fmap. cbn [fst snd]. split.
  - intros (x & [= -> -> ->] & Hx). split; [done|]. by exists x.
  - intros (-> & x & Hx & <- & <-). by exists x.
Qed.
Lemma elem_of_seriesSamples columns s : s ∈ seriesSamples columns <-> exists c, c ∈ columns /\ s ∈ columnSamples c.
Proof.
  unfold seriesSamples. rewrite elem_of_concat. split.
  - intros (l & Hs & (c & -> & Hc)%list_elem_of_fmap). by exists c.
  - intros (c & Hc & Hs). exists (columnSamples c). split; [done|]. by apply list_elem_of_fmap_2.
Qed.

(** ** The table of the columns *)
Section columns.
  Context (schema : Z * Z -> Z) (e : Engine) (V : bytes -> contents) (query : Query) (sq : StorageQuery) (out : list ColumnData).
  Context (Hserved : served schema e V).
  Context (Hstart : sq_Start sq = qu_StartTime query) (Hend : sq_End sq = qu_EndTime query).
  Context (Hsel : forall k x, x ∈ storedIn e V query k ->
    selects sq k = true <-> (exists s, seriesSelected e query k.1 s) /\ (exists f, fieldSelected e query k.2 f)).
  Context (Hout : answers schema sq (storedIn e V query) out).

Definition decorated (c : ColumnData) : ColumnSeries := default zeroColumnSeries (columnDecorator (Snapshot e) c).
Lemma window_iff x : in_window sq x = true <-> qu_StartTime query <= vs_Timestamp x <= qu_EndTime query.
Proof using Hstart Hend. unfold in_window, in_range. rewrite Hstart, Hend. lia. Qed.
Lemma column_newest c x : c ∈ out -> x ∈ cd_Samples c <-> newest_at e V query (keyOf c) (vs_Timestamp x) x.
Proof using Hserved Hstart Hend Hout.
  intros Hc. destruct (an_column _ _ _ _ Hout c Hc) as (_ & _ & _ & [Hs Hsound Hnew]). split.
  - intros Hx. pose proof (Hsound x Hx) as [Hw Hin]%list_elem_of_filter. apply Is_true_true, window_iff in Hw. split_and!; try done.
    + apply Hw.
    + apply Hw.
    + intros y Hy Ey. destruct (Hnew y) as (z & Hz & Ez & Hle).
      { apply list_elem_of_filter. split; [|done]. apply Is_true_true, window_iff. by rewrite Ey. }
      assert (z = x) as ->; [|done]. eapply ts_sorted_inj; [exact Hs|done|done|congruence].
  - intros (Hx & _ & Hw & Hmax). destruct (Hnew x) as (z & Hz & Ez & Hle).
    { apply list_elem_of_filter. split; [|done]. by apply Is_true_true, window_iff. }
    pose proof (Hsound z Hz) as [_ Hzin]%list_elem_of_filter.
    assert (z = x) as <-; [|done]. apply (sv_versioned _ _ _ Hserved query (keyOf c)); [done|done|done|].
    pose proof (Hmax z Hzin Ez). lia.
Qed.
Lemma known_column c : c ∈ out -> exists s f, seriesSelected e query (cd_SeriesID c) s /\ fieldSelected e query (cd_FieldID c) f /\
  decorated c = decorateColumn c (se_Measurement s) (se_Tags s) (fd_Name f).
Proof using Hserved Hsel Hout.
  intros Hc. destruct (an_column _ _ _ _ Hout c Hc) as (Hs & _ & Hne & Hr). destruct (cd_Samples c) as [|x xs] eqn:Ex; [done|].
  assert (x ∈ storedIn e V query (keyOf c)) as Hx by (pose proof (rs_sound _ _ Hr x ltac:(left)) as [_ ?]%list_elem_of_filter; done).
  destruct (proj1 (Hsel _ _ Hx) Hs) as [[s Hss] [f Hff]]. cbn [keyOf fst snd] in Hss, Hff. exists s, f. split_and!; [done|done|].
  unfold decorated, columnDecorator. rewrite snapshot_series, snapshot_fields. destruct Hss as (-> & _), Hff as (-> & _). done.
Qed.
Lemma decorated_columns_ok : columns_ok (map decorated out) /\ StronglySorted by_series (map decorated out).
Proof using Hserved Hsel Hout.
  split; [split|].
  - apply Forall_fmap, Forall_forall. intros c Hc. destruct (known_column c Hc) as (s & f & _ & _ & E). unfold compose. rewrite E.
    destruct (an_column _ _ _ _ Hout c Hc) as (_ & _ & _ & [Hs _ _]). split; cbn [decorateColumn cl_Timestamps cl_Values]; [by rewrite !length_map|].
    clear E. induction Hs as [|x xs Hs IH Hx]; cbn [map]; constructor; [done|]. by apply Forall_fmap.
  - intros c d (c' & -> & Hc)%list_elem_of_fmap (d' & -> & Hd)%list_elem_of_fmap.
    destruct (known_column c' Hc) as (s & f & (Hs & _) & _ & ->), (known_column d' Hd) as (s' & f' & (Hs' & _) & _ & ->).
    cbn. intros E. rewrite E in Hs. assert (s = s') as -> by congruence. done.
  - assert (forall c, c ∈ out -> cl_SeriesID (decorated c) = cd_SeriesID c) as Hid.
    { intros c Hc. by destruct (known_column c Hc) as (s & f & _ & _ & ->). }
    pose proof (an_sorted _ _ _ _ Hout) as Hs. revert Hid. clear -Hs. induction Hs as [|c l Hs IH Hc]; intros Hid; cbn [map]; constructor.
    + apply IH. intros d Hd. apply Hid. by right.
    + apply Forall_fmap, Forall_forall. intros d Hd. unfold by_series, compose. rewrite !Hid by (by left || by right).
      rewrite Forall_forall in Hc. specialize (Hc d Hd). unfold column_lt, key_lt, keyOf in Hc. simpl in Hc. lia.
Qed.
(** The samples of one series. *)
Lemma run_samples run series name t v : run ∈ seriesRuns (map decorated out) -> run_ok run series ->
  (forall c, c ∈ out -> cd_SeriesID c = series -> decorated c ∈ run) ->
  (name, t, v) ∈ seriesSamples run <->
  exists id f x, fieldSelected e query id f /\ fd_Name f = name /\ (exists c, c ∈ out /\ keyOf c = (series, id)) /\
    newest_at e V query (series, id) t x /\ vs_Value x = v.
Proof using Hserved Hstart Hend Hsel Hout.
  intros Hrun Hok Hall. rewrite elem_of_seriesSamples. split.
  - intros (c' & Hc' & Hin). assert (c' ∈ map decorated out) as (c & -> & Hc)%list_elem_of_fmap.
    { rewrite <- (seriesRuns_concat (map decorated out)). apply elem_of_concat. by exists run. }
    pose proof (ro_series _ _ Hok _ Hc') as Eid. destruct (known_column c Hc) as (s & f & Hs & Hf & E). rewrite E in Hin, Eid.
    apply elem_of_decorated in Hin as (-> & x & Hx & <- & <-). cbn in Eid. subst series.
    exists (cd_FieldID c), f, x. split_and!; [done|done|by exists c| |done]. by apply (column_newest c x).
  - intros (id & f & x & Hf & <- & (c & Hc & Ek) & Hx & <-). exists (decorated c). pose proof Ek as Ek'. unfold keyOf in Ek'. injection Ek' as E1 E2.
    split; [by apply Hall|]. destruct (known_column c Hc) as (s & f' & _ & (Hf' & _) & ->). apply elem_of_decorated.
    destruct Hf as (Hf & _). rewrite E2 in Hf'. assert (f' = f) as -> by congruence. split; [done|]. exists x.
    rewrite <- Ek in Hx. assert (vs_Timestamp x = t) as Et by apply Hx. rewrite <- Et in Hx. split; [by apply (column_newest c x)|done].
Qed.

(** The run of every series, and what is in it. *)
Lemma runs_of : exists ids, Forall2 run_ok (seriesRuns (map decorated out)) ids /\
  (forall run series, (run, series) ∈ zip (seriesRuns (map decorated out)) ids ->
     run ∈ seriesRuns (map decorated out) /\ run_ok run series /\ forall c, c ∈ out -> cd_SeriesID c = series -> decorated c ∈ run) /\
  (forall c, c ∈ out -> exists run, (run, cd_SeriesID c) ∈ zip (seriesRuns (map decorated out)) ids).
Proof using Hserved Hsel Hout.
  destruct decorated_columns_ok as [_ Hs]. destruct (seriesRuns_sorted _ Hs) as (ids & Hids & HF & _). exists ids. split; [done|].
  assert (forall c, c ∈ out -> cl_SeriesID (decorated c) = cd_SeriesID c) as Hid.
  { intros c Hc. by destruct (known_column c Hc) as (s & f & _ & _ & ->). }
  assert (forall c, c ∈ out -> exists i run, seriesRuns (map decorated out) !! i = Some run /\ ids !! i = Some (cd_SeriesID c) /\ decorated c ∈ run) as Hin.
  { intros c Hc. assert (decorated c ∈ concat (seriesRuns (map decorated out))) as (run & Hc' & Hrun)%elem_of_concat.
    { rewrite seriesRuns_concat. by apply list_elem_of_fmap_2. }
    apply list_elem_of_lookup in Hrun as [i Hi]. destruct (Forall2_lookup_l _ _ _ _ _ HF Hi) as (id & Hi' & Hok).
    exists i, run. split_and!; [done| |done]. rewrite Hi'. f_equal. rewrite <- (Hid c Hc). symmetry. by apply (ro_series _ _ Hok). }
  split.
  - intros run series Hz. apply list_elem_of_lookup in Hz as [i Hi]. apply lookup_zip_with_Some in Hi as (run' & id' & [= <- <-] & Hi & Hi').
    split_and!; [by eapply list_elem_of_lookup_2|by eapply Forall2_lookup_lr|].
    intros c Hc Ec. destruct (Hin c Hc) as (j & run2 & Hj & Hj' & Hcin). rewrite Ec in Hj'.
    assert (j = i) as -> by (eapply NoDup_lookup; [by apply StronglySorted_lt_NoDup|done|done]). congruence.
  - intros c Hc. destruct (Hin c Hc) as (i & run & Hi & Hi' & _). exists run. apply (list_elem_of_lookup_2 _ i).
    apply lookup_zip_with_Some. by eexists _, _.
Qed.
Lemma elem_of_zip_run run ids : Forall2 run_ok (seriesRuns (map decorated out)) ids -> run ∈ seriesRuns (map decorated out) ->
  exists series, (run, series) ∈ zip (seriesRuns (map decorated out)) ids.
Proof.
  intros HF [i Hi]%list_elem_of_lookup. destruct (Forall2_lookup_l _ _ _ _ _ HF Hi) as (id & Hi' & _). exists id.
  apply (list_elem_of_lookup_2 _ i). apply lookup_zip_with_Some. by eexists _, _.
Qed.
(** A newest version is answered. *)
Lemma newest_column series id s f t x : seriesSelected e query series s -> fieldSelected e query id f ->
  newest_at e V query (series, id) t x -> exists c, c ∈ out /\ keyOf c = (series, id).
Proof using Hstart Hend Hsel Hout.
  intros Hs Hf (Hx & Et & Hw & _). eapply (an_complete _ _ _ _ Hout (series, id) x).
  - apply (Hsel _ _ Hx). split; [by exists s|by exists f].
  - apply list_elem_of_filter. split; [apply Is_true_true, window_iff; by rewrite Et|done].
Qed.
(** Two fields of one series have different names. *)
Lemma field_name_unique id id' f f' : fieldSelected e query id f -> fieldSelected e query id' f' -> fd_Name f = fd_Name f' -> id = id'.
Proof using Hserved.
  intros (H1 & E1 & _) (H2 & E2 & _) En. eapply (field_unique _ id id' f f'); [apply Hserved|done|done|congruence|done].
Qed.
Lemma mergedRows_table : table_of e V query (mergedRows None (map decorated out)).
Proof using Hserved Hstart Hend Hsel Hout.
  destruct runs_of as (ids & HF & Hrun & Hcov). destruct decorated_columns_ok as [_ Hsorted].
  assert (forall r, r ∈ mergedRows None (map decorated out) <-> exists run series, (run, series) ∈ zip (seriesRuns (map decorated out)) ids /\ r ∈ seriesRows run) as Hr.
  { intros r. unfold mergedRows. cbn [completeRuns]. rewrite elem_of_concat. split.
    - intros (rows & Hin & (run & -> & Hrun')%list_elem_of_fmap). destruct (elem_of_zip_run run ids HF Hrun') as [series Hz]. by exists run, series.
    - intros (run & series & Hz & Hin). exists (seriesRows run). split; [done|]. apply list_elem_of_fmap_2. by apply (Hrun run series). }
  split.
  - by apply mergedRows_sorted.
  - intros r (run & series & Hz & Hin)%Hr. destruct (Hrun _ _ Hz) as (Hmem & Hok & _).
    pose proof (seriesRows_series _ _ _ Hok Hin) as ->. apply elem_of_seriesRows in Hin as (first & rest & t & -> & Ht & ->).
    assert (first ∈ map decorated out) as (c & -> & Hc)%list_elem_of_fmap.
    { rewrite <- (seriesRuns_concat (map decorated out)). apply elem_of_concat. exists (first :: rest). split; [left|done]. }
    pose proof (ro_series _ _ Hok (decorated c) ltac:(left)) as E. destruct (known_column c Hc) as (s & f & Hs & _ & Ed).
    rewrite Ed in E |- *. cbn in E. subst series. exists s. done.
  - intros r name v (run & series & Hz & Hin)%Hr. destruct (Hrun _ _ Hz) as (Hmem & Hok & Hall).
    rewrite (seriesRows_series _ _ _ Hok Hin). apply elem_of_seriesRows in Hin as (first & rest & t & E & Ht & ->). cbn [seriesRow rw_Fields rw_Timestamp].
    rewrite seriesFields_lookup.
    + rewrite (run_samples run series) by done. split.
      * intros (id & f & x & Hf & En & _ & Hx). by exists id, f, x.
      * intros (id & f & x & Hf & En & Hx & Ev). exists id, f, x. split_and!; try done.
        assert (exists c, c ∈ out /\ cd_SeriesID c = series) as (c & Hc & Ec).
        { assert (default zeroColumnSeries (head run) ∈ run) as Hh by (rewrite E; left).
          assert (default zeroColumnSeries (head run) ∈ map decorated out) as (c & Eh & Hc)%list_elem_of_fmap.
          { rewrite <- (seriesRuns_concat (map decorated out)). apply elem_of_concat. by exists run. }
          exists c. split; [done|]. rewrite <- (ro_series _ _ Hok _ Hh), Eh. by destruct (known_column c Hc) as (? & ? & _ & _ & ->). }
        destruct (known_column c Hc) as (s & _ & Hs & _). rewrite Ec in Hs. by eapply newest_column.
    + intros v1 v2 H1 H2. apply (run_samples run series) in H1; [|done..]. apply (run_samples run series) in H2; [|done..].
      destruct H1 as (id & f & x & Hf & En & _ & (Hx & Et & _ & Hmax) & <-), H2 as (id' & f' & x' & Hf' & En' & _ & (Hx' & Et' & _ & Hmax') & <-).
      pose proof (field_name_unique id id' f f' Hf Hf' ltac:(congruence)) as <-.
      f_equal. apply (sv_versioned _ _ _ Hserved query (series, id)); [done|done|congruence|].
      pose proof (Hmax x' Hx' ltac:(congruence)). pose proof (Hmax' x Hx ltac:(congruence)). lia.
  - intros series t. split.
    + intros (r & (run & series' & Hz & Hin)%Hr & Es & Et). destruct (Hrun _ _ Hz) as (Hmem & Hok & Hall).
      pose proof (seriesRows_series _ _ _ Hok Hin) as Es'. rewrite Es in Es'. subst series'.
      apply elem_of_seriesRows in Hin as (first & rest & t' & E & Ht & ->). cbn in Et. subst t'.
      apply elem_of_list_to_set, list_elem_of_fmap in Ht as ([[n t'] v] & -> & Hin). cbn [sampleTime fst snd].
      apply (run_samples run series) in Hin; [|done..]. destruct Hin as (id & f & x & Hf & _ & (c & Hc & Ek) & Hx & _).
      destruct (known_column c Hc) as (s & _ & Hs & _). injection Ek as E1 _. rewrite E1 in Hs. by exists s, id, f, x.
    + intros (s & id & f & x & Hs & Hf & Hx). destruct (newest_column _ _ _ _ _ _ Hs Hf Hx) as (c & Hc & Ek).
      destruct (Hcov c Hc) as [run Hz]. injection Ek as E1 E2. rewrite E1 in Hz. destruct (Hrun _ _ Hz) as (Hmem & Hok & Hall).
      assert ((fd_Name f, t, vs_Value x) ∈ seriesSamples run) as Hin.
      { apply (run_samples run series); [done..|]. exists id, f, x. split_and!; try done. exists c. split; [done|]. unfold keyOf. by rewrite E1, E2. }
      destruct run as [|first rest]; [by apply elem_of_nil in Hin|]. exists (seriesRow first (seriesSamples (first :: rest)) t). split_and!; [|by apply (ro_series _ _ Hok); left|done].
      apply Hr. exists (first :: rest), series. split; [done|]. apply elem_of_seriesRows. exists first, rest, t. split_and!; [done| |done].
      unfold times. apply elem_of_list_to_set, list_elem_of_fmap. by exists (fd_Name f, t, vs_Value x).
Qed.
End columns.

(** ** The columns of the plan *)
Section plan.
  Context `{Laws : GoRuntimeLaws} (schema : Z * Z -> Z) (e : Engine) (V : bytes -> contents).
  Context (Hserved : served schema e V).

(** What the theorems ask of a query: no aggregates, no predicates that are
    pushed down into the parts, no budget of shards and parts, and a page for which
    the heap can be made. *)
Record plainRows (query : Query) : Prop := {
  pr_aggregates : qu_Aggregates query = [];
  pr_predicates : storageFieldPredicates query (fieldPredicates (qu_Predicates query)) = [];
  pr_shards : qb_MaxShards (qu_Budget query) <= 0;
  pr_parts : qb_MaxParts (qu_Budget query) <= 0;
  pr_offset : 0 <= qu_Offset query;
  pr_page : 48 * (qu_Limit query + qu_Offset query) <= maxAlloc;
}.

Lemma scanShards_answer query (entries : list (bytes * queryShard)) (test : queryShard -> bool) : plainQuery query ->
  Forall (fun entry => en_shards e !! entry.1 = Some entry.2) entries ->
  exists Vs streams, scanShards query (filter (fun shard => test shard = true) entries.*2) = Ok streams /\
    Forall2 (answering schema query) Vs streams /\
    forall k x, x ∈ union_contents Vs k <-> exists entry, entry ∈ entries /\ test entry.2 = true /\ x ∈ V entry.1 k.
Proof using Hserved.
  intros Hq. induction 1 as [|[id shard] entries He HF (Vs & streams & E & HF2 & Hu)].
  { exists [], []. split_and!; [done|constructor|]. intros k x. unfold union_contents. cbn. rewrite elem_of_nil. split; [done|]. by intros (? & ?%elem_of_nil & _). }
  rewrite fmap_cons. cbn [fst snd] in *. rewrite filter_cons. destruct (test shard) eqn:Et; [rewrite decide_True by done|rewrite decide_False by done].
  - destruct (sv_scan _ _ _ Hserved id shard query He Hq) as (stream & Es & Ha). exists (V id :: Vs), (stream :: streams).
    cbn [scanShards]. rewrite Es. cbn. rewrite E. cbn. split_and!; [done|by constructor|]. intros k x. unfold union_contents in *. cbn [fmap list_fmap concat].
    rewrite elem_of_app. change (list_fmap _ _ ?f Vs) with (f <$> Vs). rewrite Hu. setoid_rewrite elem_of_cons. split.
    + intros [Hx|(entry & Hin & Ht & Hx)]; [exists (id, shard); split_and!; [by left|done|done]|exists entry; split_and!; [by right|done|done]].
    + intros (entry & [->|Hin] & Ht & Hx); [by left|right; by exists entry].
  - exists Vs, streams. split_and!; [done|done|]. intros k x. rewrite Hu. setoid_rewrite elem_of_cons. split.
    + intros (entry & Hin & Ht & Hx). exists entry. split_and!; [by right|done|done].
    + intros (entry & [->|Hin] & Ht & Hx); [cbn in Ht; congruence|by exists entry].
Qed.
Lemma shardMatches_belongs query shard : shardMatches shard query = true <->
  belongs query shard = true /\ qu_StartTime query <= qs_End shard /\ qs_Start shard <= qu_EndTime query.
Proof. unfold shardMatches, belongs. repeat case_bool_decide; cbn; intuition (try lia; try done). Qed.
(** What the matching shards hold of the range is all there is. *)
Lemma matched_contents query k x : qu_StartTime query <= vs_Timestamp x <= qu_EndTime query ->
  x ∈ storedIn e V query k <-> exists entry, entry ∈ map_range (en_shards e) /\ shardMatches entry.2 query = true /\ x ∈ V entry.1 k.
Proof using Hserved Laws.
  intros Hw. rewrite elem_of_storedIn. setoid_rewrite map_range_perm. split.
  - intros (id & shard & Hs & Hb & Hx). exists (id, shard). split_and!; [by apply elem_of_map_to_list| |done].
    apply shardMatches_belongs. pose proof (sv_bounds _ _ _ Hserved _ _ _ _ Hs Hx). cbn. split; [done|lia].
  - intros ([id shard] & Hin%elem_of_map_to_list & Hm & Hx). apply shardMatches_belongs in Hm as [Hb _]. by exists id, shard.
Qed.
Lemma stored_known query k x : x ∈ storedIn e V query k -> exists s f,
  ix_series (ct_index (en_metadata e)) !! k.1 = Some s /\ ix_fields (ct_index (en_metadata e)) !! k.2 = Some f /\ se_Measurement s = fd_Measurement f.
Proof using Hserved. intros (id & shard & Hs & _ & Hx)%elem_of_storedIn. by eapply sv_known. Qed.
Lemma table_empty query : (forall series s id f t x, seriesSelected e query series s -> fieldSelected e query id f -> ~ newest_at e V query (series, id) t x) ->
  table_of e V query [].
Proof.
  intros Hno. split; [constructor|by intros ? ?%elem_of_nil|by intros ? ? ? ?%elem_of_nil|]. intros series t. split; [by intros (? & ?%elem_of_nil & _)|].
  intros (s & id & f & x & Hs & Hf & Hx). by destruct (Hno series s id f t x).
Qed.
Lemma contains_iff (ids : gset Z) id : ids <> ∅ -> (if bool_decide (ids = ∅) then true else bool_decide (id ∈ ids)) = true <-> id ∈ ids.
Proof. intros Hne. rewrite bool_decide_false by done. apply bool_decide_eq_true. Qed.

(** A query that reads something. *)
Record reads_plan (nq : Query) (plan : QueryPlan) : Prop := {
  rp_query : pl_Query plan = withFields nq (readFields nq);
  rp_series id : id ∈ pl_SeriesIDs plan <-> exists s, seriesSelected e nq id s;
  rp_someSeries : pl_SeriesIDs plan <> ∅;
  rp_fields id : id ∈ pl_FieldIDs plan <-> exists f, fieldSelected e nq id f;
  rp_someFields : readFields nq <> [] -> pl_FieldIDs plan <> ∅;
  rp_predicates : pl_FieldPredicates plan = ∅;
  rp_shards : pl_Shards plan = queryShards e nq;
  rp_nonempty : pl_Empty plan = false;
}.
Lemma reads_selects nq plan k x : reads_plan nq plan -> x ∈ storedIn e V nq k ->
  selects (storageQueryOf (columnPlan plan)) k = true <-> (exists s, seriesSelected e nq k.1 s) /\ (exists f, fieldSelected e nq k.2 f).
Proof using Hserved.
  intros Hr Hx. unfold selects, containsSeries, containsField, storageQueryOf. cbn [sq_SeriesIDs sq_FieldIDs columnPlan pl_SeriesIDs pl_FieldIDs].
  rewrite andb_true_iff, (contains_iff (pl_SeriesIDs plan)) by apply Hr. rewrite (rp_series _ _ Hr).
  destruct (decide (pl_FieldIDs plan = ∅)) as [E|Hne].
  - rewrite bool_decide_true by done. split; [|by intros [? _]]. intros [[s Hs] _]. split; [by exists s|].
    destruct (stored_known _ _ _ Hx) as (s' & f & Hs' & Hf & Em). exists f. destruct Hs as (Hs & Em' & _). assert (s' = s) as -> by congruence.
    split_and!; [done|congruence|]. left. destruct (decide (readFields nq = [])); [done|]. by destruct (rp_someFields _ _ Hr).
  - rewrite (contains_iff (pl_FieldIDs plan)) by done. by rewrite (rp_fields _ _ Hr).
Qed.
Lemma read_columns nq plan : plainRows nq -> reads_plan nq plan ->
  exists stream cols ys err, queryColumnIteratorFromPlan e (columnPlan plan) = Ok stream /\ yields stream ys err /\
    table_of e V nq (mergedRows None cols) /\ columns_ok cols /\ StronglySorted by_series cols /\ settles ys err cols /\
    (en_memory e = None -> qb_MaxSamples (qu_Budget nq) <= 0 -> err = None).
Proof using Hserved Laws.
  intros Hp Hr. set (sq := storageQueryOf (columnPlan plan)).
  assert (pl_Query (columnPlan plan) = columnQuery (withFields nq (readFields nq))) as Eq by (cbn; by rewrite (rp_query _ _ Hr)).
  assert (plainQuery sq) as Hplain.
  { unfold sq, storageQueryOf. rewrite Eq. split_and!; cbn [sq_Boundary sq_FieldPredicates sq_Budget].
    - unfold queryBoundaryMode. pose proof (pr_aggregates _ Hp) as Ea. destruct nq. cbn in *. subst. by rewrite orb_true_r.
    - apply Hr.
    - pose proof (pr_parts _ Hp). by destruct nq. }
  destruct (scanShards_answer sq (map_range (en_shards e)) (fun shard => shardMatches shard nq) Hplain) as (Vs & streams & Es & HF & Hu).
  { apply Forall_forall. intros [id shard] Hin. rewrite map_range_perm in Hin. by apply elem_of_map_to_list in Hin. }
  destruct (yields_merged schema sq Vs streams HF) as (out & Hy & Ha).
  assert (answers schema sq (storedIn e V nq) out) as Ha'.
  { eapply answers_ext; [|exact Ha]. intros k x _ Hw. rewrite Hu. symmetry. apply matched_contents.
    unfold in_window, in_range, sq, storageQueryOf in Hw. rewrite Eq in Hw. destruct nq. cbn in *. lia. }
  assert (sq_Start sq = qu_StartTime nq /\ sq_End sq = qu_EndTime nq) as [E1 E2] by (unfold sq, storageQueryOf; rewrite Eq; by destruct nq).
  assert (forall k x, x ∈ storedIn e V nq k -> selects sq k = true <-> (exists s, seriesSelected e nq k.1 s) /\ (exists f, fieldSelected e nq k.2 f)) as Hsel
    by (intros k x Hx; by apply (reads_selects nq plan k x)).
  pose proof (mergedRows_table schema e V nq sq out Hserved E1 E2 Hsel Ha') as Htab.
  destruct (decorated_columns_ok schema e V nq sq out Hserved Hsel Ha') as [Hok Hsorted].
  destruct (yields_memory _ (en_memory e) out None Hy) as (ys & err & Hy1 & Hset & _ & Hmem).
  pose proof (yields_map (decorated e) zeroColumnSeries false _ ys err Hy1) as Hy2.
  set (stream := filtered (fun x => Some (decorated e x)) zeroColumnSeries false _) in Hy2.
  assert (queryColumnIteratorFromPlan e (columnPlan plan) =
    Ok (if 0 <? qb_MaxSamples (qu_Budget nq) then NewBudgetColumnStream stream (qu_Budget nq) else stream)) as Eit.
  { unfold queryColumnIteratorFromPlan. rewrite Eq. cbn [columnPlan pl_Empty pl_PostFilterPredicates pl_OutputFields].
    rewrite (rp_nonempty _ _ Hr). unfold queryColumnDataStream. fold sq. rewrite Eq. cbn [columnPlan pl_Shards].
    rewrite (rp_shards _ _ Hr). unfold queryShards. rewrite Es.
    pose proof (pr_shards _ Hp) as Hms. pose proof (pr_aggregates _ Hp) as Hag. destruct nq. cbn in Hms, Hag |- *. subst.
    assert ((0 <? qb_MaxShards qu_Budget) = false) as -> by lia. cbn. done. }
  destruct (0 <? qb_MaxSamples (qu_Budget nq)) eqn:Eb.
  - pose proof (settles_budget "samples" (fun column : ColumnSeries => len (cl_Values column)) (qb_MaxSamples (qu_Budget nq)) err (map (decorated e) ys) 0) as [Hb1 Hb2].
    eexists _, (map (decorated e) out), _, _. split; [exact Eit|]. split; [by apply yields_budgeted|].
    split_and!; try done; [|lia]. eapply settles_trans; [|exact Hb1|done]. by apply settles_map.
  - exists stream, (map (decorated e) out), (map (decorated e) ys), err. split_and!; try done; [by apply settles_map|]. intros Em _. by apply Hmem.
Qed.

Lemma scan_nil (stream := NewSliceColumnSeriesStream []) : yields stream [] None.
Proof using. split; [done|]. apply (delivers_slice zeroColumnSeries []). Qed.
(** The columns a row query reads, and the table they make. *)
Lemma plan_columns query (nq := normalizedQuery e query) (plan := BuildQueryPlan e query) : plainRows nq ->
  (exists stream cols ys err, queryColumnIteratorFromPlan e (columnPlan plan) = Ok stream /\ yields stream ys err /\
    table_of e V nq (mergedRows None cols) /\ columns_ok cols /\ StronglySorted by_series cols /\ settles ys err cols /\
    (en_memory e = None -> qb_MaxSamples (qu_Budget nq) <= 0 -> err = None) /\
    (pl_PostFilterPredicates plan = fieldPredicates (qu_Predicates nq) \/ cols = [])) /\
  pl_Query plan = withFields nq (readFields nq) /\ pl_OutputFields plan = qu_Fields nq.
Proof using Hserved Laws.
  intros Hp. subst plan. unfold BuildQueryPlan. fold nq. pose proof (sv_index _ _ _ Hserved) as Hix.
  assert (forall fields, qu_Measurement (withFields nq fields) = qu_Measurement nq /\ qu_Tags (withFields nq fields) = qu_Tags nq /\
    qu_Expr (withFields nq fields) = qu_Expr nq /\ qu_Predicates (withFields nq fields) = qu_Predicates nq /\
    qu_Fields (withFields nq fields) = fields) as Hw by by destruct nq.
  fold (readFields nq). destruct (Hw (readFields nq)) as (-> & -> & -> & -> & ->).
  pose proof (plan_series e nq) as Hids. set (ids := (filterSeriesIDsByPredicates _ _ _ _).1) in *.
  assert (forall plan, pl_Empty plan = true -> table_of e V nq [] ->
    exists stream cols ys err, queryColumnIteratorFromPlan e (columnPlan plan) = Ok stream /\ yields stream ys err /\
      table_of e V nq (mergedRows None cols) /\ columns_ok cols /\ StronglySorted by_series cols /\ settles ys err cols /\
      (en_memory e = None -> qb_MaxSamples (qu_Budget nq) <= 0 -> err = None) /\
      (pl_PostFilterPredicates plan = fieldPredicates (qu_Predicates nq) \/ cols = [])) as Hempty.
  { intros plan Ee Ht. eexists _, [], [], None. split; [unfold queryColumnIteratorFromPlan; cbn [columnPlan pl_Empty]; by rewrite Ee|].
    split; [apply scan_nil|]. split_and!; [done| |constructor|done|done|by right]. split; [constructor|]. by intros c d ?%elem_of_nil. }
  destruct (bool_decide (ids = [])) eqn:Ei; [apply bool_decide_eq_true in Ei|apply bool_decide_eq_false in Ei].
  { split_and!; [|done|done]. apply Hempty; [done|]. apply table_empty. intros series s id f t x Hs. exfalso.
    assert (series ∈ ids) as Hin by (apply Hids; [done|by exists s]). rewrite Ei in Hin. by apply elem_of_nil in Hin. }
  assert (0xff ∉ qu_Measurement nq) as Hclean.
  { destruct ids as [|id ids'] eqn:E; [done|]. destruct (proj1 (Hids id Hix) ltac:(left)) as (s & Hs & Em & _).
    rewrite <- Em. destruct (io_series _ Hix _ _ Hs) as (_ & _ & Hc). apply Hc. }
  pose proof (fun id => elem_of_FieldIDs e id (qu_Measurement nq) (readFields nq) Hix Hclean) as Hfids.
  set (fids := FieldIDs _ _ _) in *.
  destruct (negb (bool_decide (readFields nq = [])) && bool_decide (fids = ∅)) eqn:Ef.
  { apply andb_true_iff in Ef as [_ Ef%bool_decide_eq_true]. split_and!; [|done|done]. apply Hempty; [done|]. apply table_empty.
    intros series s id f t x _ Hf. exfalso. assert (id ∈ fids) as Hin by (apply Hfids; by exists f). set_solver. }
  assert (fieldPredicatesByID e (withFields nq (readFields nq)) (storageFieldPredicates nq (fieldPredicates (qu_Predicates nq))) = ∅) as ->
    by (by rewrite (pr_predicates _ Hp)).
  assert (queryShards e (withFields nq (readFields nq)) = queryShards e nq) as -> by by destruct nq.
  split_and!; [|done|done]. destruct (bool_decide (queryShards e nq = [])) eqn:Es.
  - apply Hempty; [done|]. apply bool_decide_eq_true in Es. apply table_empty. intros series s id f t x _ _ (Hx & Et & Hwin & _). exfalso.
    apply matched_contents in Hx as (entry & Hin & Hm & _); [|by rewrite Et].
    assert (entry.2 ∈ queryShards e nq) as Hq by (unfold queryShards; apply list_elem_of_filter; split; [done|by apply list_elem_of_fmap_2]).
    rewrite Es in Hq. by apply elem_of_nil in Hq.
  - destruct (read_columns nq (mkPlan (withFields nq (readFields nq)) (list_to_set ids) fids ∅ (queryShards e nq) (qu_Fields nq) (fieldPredicates (qu_Predicates nq)) false))
      as (stream & cols & ys & err & Hrd); [done| |exists stream, cols, ys, err; repeat (split; [apply Hrd|]); by left].
    split; cbn [pl_Query pl_SeriesIDs pl_FieldIDs pl_FieldPredicates pl_Shards pl_Empty]; try done.
    + intros id. rewrite elem_of_list_to_set. by apply Hids.
    + destruct ids as [|id ids']; [done|]. set_solver.
    + intros Hne Hfe. rewrite bool_decide_false in Ef by done. rewrite bool_decide_true in Ef by done. done.
Qed.

(** ** The rows *)
Lemma projected_key query row : rowKey (projected query row) = rowKey row.
Proof using. unfold projected. case_bool_decide; [done|]. unfold projectRow. by destruct (fieldsMatchProjection _ _). Qed.
Lemma behind_keys query cursor rows : NoDup (map rowKey rows) ->
  NoDup (map rowKey (behind cursor (map (projected query) (filter (fun row => rowPasses query row = true) rows)))).
Proof using.
  intros Hn. set (kept := map (projected query) _).
  assert (NoDup (map rowKey kept)) as Hk.
  { unfold kept. rewrite map_map. rewrite (map_ext _ rowKey) by (intros; apply projected_key).
    eapply sublist_NoDup; [exact Hn|]. apply (fmap_sublist rowKey), sublist_filter. }
  destruct cursor; [|done]. eapply sublist_NoDup; [exact Hk|]. apply (fmap_sublist rowKey), sublist_filter.
Qed.
Lemma settles_order order limit offset xs ys err : settles ys err xs ->
  settles (if descByTime order then match err with None => orderRows limit offset ys | Some _ => [] end else ys) err
    (if descByTime order then orderRows limit offset xs else xs).
Proof using.
  intros [H1 H2]. destruct (descByTime order); [|done]. destruct err; [split; [apply prefix_nil|done]|]. by rewrite H2.
Qed.
Lemma page_ordered query xs : 0 <= qu_Offset query ->
  pageRows (qu_Limit query) (qu_Offset query) (if descByTime (qu_Order query) then orderRows (qu_Limit query) (qu_Offset query) xs else xs) =
  pageRows (qu_Limit query) (qu_Offset query) (inOrder query xs).
Proof using.
  intros Ho. unfold inOrder. destruct (descByTime _); [|done]. unfold orderRows, pageRows. destruct (0 <? qu_Limit query) eqn:El; [|done].
  rewrite skipn_firstn_comm || rewrite <- take_drop_commute. rewrite take_take. f_equal. lia.
Qed.

(** ** The stack of row operators, one at a time *)
Lemma yields_filter_step nq post source xs err : yields source xs err ->
  (post = fieldPredicates (qu_Predicates nq) \/ xs = []) ->
  yields (if negb (ex_Kind (qu_Expr nq) =? QueryExprNone) then NewExprFilteredRowStream source (qu_Expr nq)
          else if negb (bool_decide (post = [])) then NewFilteredRowStream source post else source)
    (filter (fun row => rowPasses nq row = true) xs) err.
Proof using.
  intros Hy Hpost. unfold rowPasses, NewExprFilteredRowStream, NewFilteredRowStream.
  destruct (ex_Kind (qu_Expr nq) =? QueryExprNone); cbn [negb]; [|by apply yields_keepIf].
  destruct Hpost as [->| ->].
  - case_bool_decide as E; cbn [negb].
    + rewrite E. assert (filter (fun row : Row => rowMatchesPredicates row [] = true) xs = xs) as ->; [|done].
      clear. induction xs as [|x xs IH]; [done|]. rewrite filter_cons, decide_True by done. by rewrite IH.
    + by apply yields_keepIf.
  - case_bool_decide; cbn [negb]; [done|]. by apply (yields_keepIf (fun row => rowMatchesPredicates row post) _ _ _ []).
Qed.
Lemma yields_project_step nq source xs err : yields source xs err -> yields (newProjectedRowStream source (qu_Fields nq)) (map (projected nq) xs) err.
Proof using.
  intros Hy. unfold newProjectedRowStream. case_bool_decide as E.
  - assert (map (projected nq) xs = xs) as ->; [|done]. rewrite <- (map_id xs) at 2. apply map_ext. intros row. unfold projected. by rewrite bool_decide_true.
  - rewrite (map_ext (projected nq) (projectRow (list_to_set (qu_Fields nq)))); [by apply yields_map|].
    intros row. unfold projected. by rewrite bool_decide_false.
Qed.
Lemma yields_cursor_step cursor source xs err : yields source xs err ->
  yields (match cursor with Some cursor => NewCursorRowStream source cursor | None => source end) (behind cursor xs) err.
Proof using. destruct cursor; [|done]. by apply yields_keepIf. Qed.
Lemma yields_page_step limit offset source xs err : 0 <= offset -> yields source xs err ->
  yields (if (0 <? limit) || (0 <? offset) then NewPaginatedRowStream source limit offset else source)
    (pageRows limit offset xs) (pageErr limit offset xs err).
Proof using.
  intros Ho Hy. destruct ((0 <? limit) || (0 <? offset)) eqn:E; [by apply yields_paginated|].
  apply orb_false_iff in E as [El Eo]. unfold pageRows, pageErr. rewrite El. by replace (Z.to_nat offset) with 0%nat by lia.
Qed.
Lemma order_step order limit offset source : 48 * (limit + offset) <= maxAlloc -> 0 <= offset ->
  exists stream, NewOrderedRowStream source order limit offset = Some stream.
Proof using.
  intros Hc Ho. unfold NewOrderedRowStream. destruct (descByTime order); cbn [negb]; [|by eexists].
  assert (loadCrashes limit offset = false) as ->; [|destruct source; by eexists].
  unfold loadCrashes, maxAlloc in *. destruct (0 <? limit) eqn:El; [|done]. rewrite i64_id by (unfold is_i64; lia). lia.
Qed.
Lemma row_operators nq plan columns cols ys err cursor : plainRows nq -> pl_Query plan = withFields nq (readFields nq) ->
  pl_OutputFields plan = qu_Fields nq -> yields columns ys err -> settles ys err cols -> columns_ok cols -> StronglySorted by_series cols ->
  (pl_PostFilterPredicates plan = fieldPredicates (qu_Predicates nq) \/ cols = []) ->
  exists stream rows fin, rowOperators plan columns cursor = Some stream /\ yields stream rows fin /\
    settles rows fin (rowAnswer nq cursor (mergedRows None cols)) /\ (err = None -> qb_MaxSamples (qu_Budget nq) <= 0 -> fin = None).
Proof using Hserved Laws.
  intros Hp Eq Eo Hy Hset Hok Hs Hpost. destruct Hset as [Hpre Hset].
  assert (columns_ok ys) as Hok' by (eapply columns_ok_sub; [|exact Hok]; destruct Hpre as [zs ->]; set_solver).
  assert (StronglySorted by_series ys) as Hs' by (destruct Hpre as [zs ->]; by apply StronglySorted_app in Hs as (_ & ? & _)).
  assert (NoDup (map rowKey (mergedRows err ys))) as Hn.
  { pose proof (row_lt_NoDup _ (mergedRows_sorted _ Hs')) as Hn. destruct err as [er|]; [|done].
    pose proof (mergedRows_settles ys (Some er) ys (conj (reflexivity _) (fun _ => eq_refl))) as [Hpre' _].
    eapply sublist_NoDup; [exact Hn|]. apply (fmap_sublist rowKey). destruct Hpre' as [zs ->]. by apply sublist_inserts_r. }
  pose proof (yields_rowMerge columns (columnQuery (pl_Query plan)) ys err) as H0. rewrite Eq in H0.
  specialize (H0 ltac:(by destruct nq) ltac:(by destruct nq) Hok' Hy).
  assert (pl_PostFilterPredicates plan = fieldPredicates (qu_Predicates nq) \/ mergedRows err ys = []) as Hpost'.
  { destruct Hpost as [?| ->]; [by left|right]. apply prefix_nil_inv in Hpre as ->. by destruct err. }
  pose proof (yields_filter_step nq _ _ _ _ H0 Hpost') as H1. pose proof (yields_project_step nq _ _ _ H1) as H2.
  pose proof (yields_cursor_step cursor _ _ _ H2) as H3.
  assert (exists s4, NewOrderedRowStream (match cursor with
      | Some cursor => NewCursorRowStream (newProjectedRowStream _ (qu_Fields nq)) cursor
      | None => newProjectedRowStream _ (qu_Fields nq) end) (qu_Order nq) (qu_Limit nq) (qu_Offset nq) = Some s4) as [s4 E4]
    by (match type of H3 with yields ?s _ _ => exact (order_step (qu_Order nq) _ _ s (pr_page _ Hp) (pr_offset _ Hp)) end).
  pose proof (pr_page _ Hp) as Hpg. pose proof (pr_offset _ Hp) as Hof.
  pose proof (yields_ordered _ (qu_Order nq) (qu_Limit nq) (qu_Offset nq) _ _ s4 H3 (behind_keys nq cursor _ Hn) Hof
    ltac:(unfold maxAlloc in Hpg; lia) E4) as H4.
  pose proof (yields_page_step (qu_Limit nq) (qu_Offset nq) _ _ _ Hof H4) as H5.
  pose proof (mergedRows_settles ys err cols (conj Hpre Hset)) as T0.
  pose proof (settles_filter (fun row => rowPasses nq row = true) _ _ _ T0) as T1. pose proof (settles_map (projected nq) _ _ _ T1) as T2.
  assert (settles (behind cursor (map (projected nq) (filter (fun row => rowPasses nq row = true) (mergedRows err ys)))) err
    (behind cursor (map (projected nq) (filter (fun row => rowPasses nq row = true) (mergedRows None cols))))) as T3
    by (destruct cursor; [by apply settles_filter|done]).
  pose proof (settles_page (qu_Limit nq) (qu_Offset nq) _ _ _ (settles_order (qu_Order nq) (qu_Limit nq) (qu_Offset nq) _ _ _ T3)) as T5.
  rewrite (page_ordered nq) in T5 by done. fold (rowAnswer nq cursor (mergedRows None cols)) in T5.
  assert (rowOperators plan columns cursor = Some (
    let stream := if (0 <? qu_Limit nq) || (0 <? qu_Offset nq) then NewPaginatedRowStream s4 (qu_Limit nq) (qu_Offset nq) else s4 in
    if 0 <? qb_MaxSamples (qu_Budget nq) then NewBudgetRowStream stream (qu_Budget nq) else stream)) as ->.
  { unfold rowOperators. rewrite Eq, Eo. clear -E4. destruct nq. cbn in E4 |- *. by rewrite E4. }
  cbv zeta. destruct (0 <? qb_MaxSamples (qu_Budget nq)) eqn:Eb.
  - match type of H5 with yields _ ?xs ?er => pose proof (settles_budget "rows" (fun _ : Row => 1) (qb_MaxSamples (qu_Budget nq)) er xs 0) as [B1 B2] end.
    eexists _, _, _. split; [done|]. split; [by apply yields_budgeted|]. split; [eapply settles_trans; [exact T5|exact B1|exact B2]|lia].
  - eexists _, _, _. split; [done|]. split; [exact H5|]. split; [exact T5|]. intros -> _. unfold pageErr. match goal with |- (if ?b then _ else _) = _ => by destruct b end.
Qed.

Lemma row_query_answers query cursor (nq := normalizedQuery e query) : plainRows nq -> queryCursor nq = Ok cursor ->
  exists table rows err, table_of e V nq table /\ QueryRows e query = Some (rows, err) /\ settles rows err (rowAnswer nq cursor table) /\
    (en_memory e = None -> qb_MaxSamples (qu_Budget nq) <= 0 -> err = None).
Proof using Hserved Laws.
  intros Hp Hc. destruct (plan_columns query Hp) as ((columns & cols & ys & err & Eit & Hy & Htab & Hok & Hs & Hset & Hmem & Hpost) & Eq & Eo).
  fold nq in Eq, Eo, Htab, Hmem, Hpost.
  destruct (row_operators nq (BuildQueryPlan e query) columns cols ys err cursor Hp Eq Eo Hy Hset Hok Hs Hpost)
    as (stream & rows & fin & Eop & Hyr & Hsr & Hfin).
  exists (mergedRows None cols), rows, fin. split; [done|]. split; [|split; [done|intros Em Eb; by apply Hfin, Eb; apply Hmem]].
  unfold QueryRows, QueryRowIterator. rewrite Eit. cbn.
  assert (queryCursor (pl_Query (BuildQueryPlan e query)) = Ok cursor) as -> by (rewrite Eq, <- Hc; by destruct nq).
  cbn. rewrite Eop. f_equal. unfold drainStream. destruct Hyr as [_ Hd]. by apply drain_delivers.
Qed.
End plan.
