(* ===== verification/QueryTheorems.v ===== *)
(** * Theorems about queries

    The answer of a row query, the pages a client reads with cursors, windows of
    aggregates, and three places where the code does not do what it means to. *)
From S2P Require Import Prelude GoBinary Model Runtime Versions MemCompact StoreSpec QueryMerge MemoryBudget EngineOptions Ports Shard ShardInv ShardOps RefParts GoStrings Catalog CatalogProofs QueryModel QueryStream QueryStreamProofs QueryMergeRows QueryAggregate QueryCursor QueryEngine QueryRows QueryAnswers.
From stdpp Require Import prelude strings list sorting gmap.
From Stdlib Require Import ZArith Lia.
#[local] Open Scope Z_scope.

(** ** A shard implements the interface of the engine *)
Section shard.
  Context {W D P X B : Type} `{GoRuntimeLaws} `{WalLaws W} (schema : Z * Z -> Z) `{PartLaws schema D P X B}.
  Context (opts : ShardOptions) (U : contents) (HU : universe schema opts U) (sound : Prop).

(** What a query sees of a shard: the columns its scan delivers. *)
Definition shardForQuery (database policy : bytes) (s : Shard W D P) : queryShard :=
  mkQueryShard database policy (so_Start opts) (so_End opts)
    (fun query => columns ← (ShardQuery query s).1; Ok (mkStream columns None)).
Lemma shard_scan_answers database policy s now kept query : shard_inv schema opts U sound s now kept -> pd_healthy (sh_disk s) ->
  (forall q, plainQuery q -> pd_query q) -> plainQuery query ->
  exists stream, qs_ScanColumns (shardForQuery database policy s) query = Ok stream /\ answering schema query (visible now) stream.
Proof.
  intros Hs Hh Hpd Hq. cbn. pose proof (ShardQuery_spec schema opts U HU sound s now kept query Hs (Hpd _ Hq)) as Hspec.
  destruct Hq as (_ & _ & Hparts). specialize (Hspec ltac:(lia)). unfold ends in Hspec.
  destruct (ShardQuery query s) as [[out|er|p] s']; cbn.
  - exists (mkStream out None). by destruct Hspec.
  - by destruct Hspec.
  - done.
Qed.
End shard.

(** ** Pages behind cursors *)
Definition withCursor (query : Query) (cursor : bytes) : Query :=
  let '(mkQuery db rp m tags fields start end_ preds expr aggs window group order limit offset _ budget) := query in
  mkQuery db rp m tags fields start end_ preds expr aggs window group order limit offset cursor budget.
(** A client that asks for the next page with the position of the last row until a
    page is empty. *)
Fixpoint readPages `{GoRuntime} (fuel : nat) (e : Engine) (query : Query) (token : bytes) : list (list Row) :=
  match fuel with
  | O => []
  | S fuel' =>
      match QueryRows e (withCursor query token) with
      | Some (rows, None) =>
          match last rows with
          | Some row =>
              match EncodeCursor (CursorFromRow row (qu_Order query)) with
              | Ok token => rows :: readPages fuel' e query token
              | _ => [rows]
              end
          | None => [rows]
          end
      | _ => []
      end
  end.

(** *** Positions in descending order *)
Definition descending (rows : list Row) : Prop := StronglySorted (fun x y => rowAfterTimeDesc x y = true) rows.
Lemma sortRowsDesc_descending rows : NoDup (map rowKey rows) -> descending (sortRowsDesc rows).
Proof.
  intros Hn. pose proof (sortRowsDesc_sorted rows) as Hs. assert (NoDup (map rowKey (sortRowsDesc rows))) as Hn' by by rewrite sortRowsDesc_perm.
  induction Hs as [|x l Hs IH Hx]; [constructor|]. cbn [map] in Hn'. apply NoDup_cons in Hn' as [Hx' Hn']. constructor; [by apply IH|].
  rewrite Forall_forall in Hx. apply Forall_forall. intros y Hy. specialize (Hx y Hy). unfold not_after in Hx.
  destruct (rowAfterTimeDesc x y) eqn:E; [done|]. destruct Hx'. rewrite (rowAfter_total x y E Hx). by apply (list_elem_of_fmap_2 rowKey).
Qed.
Lemma after_cursor row x : rowAfterCursor (rw_SeriesID x) (rw_Timestamp x) (mkCursor (rw_SeriesID row) (rw_Timestamp row) QuerySortDesc) =
  rowAfterTimeDesc row x.
Proof.
  unfold rowAfterCursor, rowAfterTimeDesc. cbn [cu_Direction cu_Timestamp cu_SeriesID]. rewrite Z.eqb_refl.
  replace (rw_Timestamp row =? rw_Timestamp x) with (rw_Timestamp x =? rw_Timestamp row) by lia. done.
Qed.
Lemma descending_behind l1 row l2 : descending (l1 ++ row :: l2) -> filter (fun x => rowAfterTimeDesc row x = true) (l1 ++ row :: l2) = l2.
Proof.
  intros Hs. assert (forall x, x ∈ l1 -> rowAfterTimeDesc x row = true) as H1.
  { intros x Hx. apply StronglySorted_app in Hs as (H & _ & _). apply H; [done|left]. }
  apply StronglySorted_app in Hs as (_ & _ & Hs). apply StronglySorted_inv in Hs as [Hs H2]. rewrite filter_app, filter_cons.
  assert (rowAfterTimeDesc row row = false) as Er.
  { destruct (rowAfterTimeDesc row row) eqn:E; [|done]. by rewrite (wo_asym _ rowAfter_weak _ _ E) in E. }
  rewrite decide_False by congruence.
  assert (filter (fun x => rowAfterTimeDesc row x = true) l1 = []) as ->.
  { clear Hs. induction l1 as [|x l1 IH]; [done|]. rewrite filter_cons, decide_False.
    - apply IH. intros y Hy. apply H1. by right.
    - intros E. pose proof (H1 x ltac:(left)) as E'. by rewrite (wo_asym _ rowAfter_weak _ _ E') in E. }
  cbn [app]. clear Hs. induction H2 as [|x l2 Hx H2 IH]; [done|]. rewrite filter_cons, decide_True by done. f_equal. apply IH.
Qed.
Lemma filter_sortRowsDesc (P : Row -> Prop) `{!forall x, Decision (P x)} rows : NoDup (map rowKey rows) ->
  sortRowsDesc (filter P rows) = filter P (sortRowsDesc rows).
Proof.
  intros Hn. apply sorted_desc_unique; [apply sortRowsDesc_sorted| | |].
  - apply filter_sorted, sortRowsDesc_sorted.
  - rewrite !sortRowsDesc_perm. done.
  - rewrite sortRowsDesc_perm. eapply sublist_NoDup; [exact Hn|]. apply (fmap_sublist rowKey), sublist_filter.
Qed.

(** *** One page *)
Section pages.
  Context `{Laws : GoRuntimeLaws} (schema : Z * Z -> Z) (e : Engine) (V : bytes -> contents) (query : Query).

(** A query whose pages are read in descending order, without a budget, over
    series and instants that fit into a cursor. *)
Record pagedQuery : Prop := {
  pd_served : served schema e V;
  pd_plain : plainRows (normalizedQuery e query);
  pd_desc : descByTime (qu_Order query) = true;
  pd_limit : 0 < qu_Limit (normalizedQuery e query);
  pd_offset : qu_Offset (normalizedQuery e query) = 0;
  pd_samples : qb_MaxSamples (qu_Budget (normalizedQuery e query)) <= 0;
  pd_memory : en_memory e = None;
  pd_words k x : x ∈ storedIn e V (normalizedQuery e query) k -> is_u64 k.1 /\ is_i64 (vs_Timestamp x);
}.
Context (Hq : pagedQuery).
#[local] Abbreviation nq := (normalizedQuery e query).
#[local] Abbreviation size_ := (Z.to_nat (qu_Limit nq)).

Lemma normalizePredicate_cursor q token p : normalizePredicate (withCursor q token) p = withCursor (normalizePredicate q p) token.
Proof using. destruct q. unfold normalizePredicate. by repeat (case_match; try done). Qed.
Lemma normalized_cursor token : normalizedQuery e (withCursor query token) = withCursor nq token.
Proof using.
  unfold normalizedQuery. assert (normalizeQuery (en_opts e) (withCursor query token) = withCursor (normalizeQuery (en_opts e) query) token) as ->.
  { destruct query. unfold normalizeQuery, applyQueryProtection. cbn. by repeat (case_match; try done). }
  generalize (normalizeQuery (en_opts e) query) as q. intros q. unfold normalizeStructuredQuery.
  replace (qu_Expr (withCursor q token)) with (qu_Expr q) by by destruct q. replace (qu_Predicates (withCursor q token)) with (qu_Predicates q) by by destruct q.
  destruct (structuredExpr (qu_Expr q)); [done|]. generalize (qu_Predicates q) as ps. intros ps. revert q.
  induction ps as [|p ps IH]; intros q; [done|]. cbn [foldl]. by rewrite normalizePredicate_cursor, IH.
Qed.
Lemma normalized_order : qu_Order nq = qu_Order query.
Proof using.
  unfold normalizedQuery. assert (qu_Order (normalizeQuery (en_opts e) query) = qu_Order query) as <-.
  { destruct query. unfold normalizeQuery, applyQueryProtection. cbn. by repeat (case_match; try done). }
  generalize (normalizeQuery (en_opts e) query) as q. intros q. unfold normalizeStructuredQuery. destruct (structuredExpr _); [done|].
  generalize (qu_Predicates q) as ps. intros ps. revert q. induction ps as [|p ps IH]; intros q; [done|]. cbn [foldl]. rewrite IH.
  destruct q. unfold normalizePredicate. by repeat (case_match; try done).
Qed.
(** The whole answer, newest first. *)
Definition wholeAnswer (table : list Row) : list Row := sortRowsDesc (map (projected nq) (filter (fun row => rowPasses nq row = true) table)).
Lemma query_page_at token cursor table : table_of e V nq table -> queryCursor (withCursor nq token) = Ok cursor ->
  QueryRows e (withCursor query token) =
    Some (take size_ (match cursor with
                      | Some position => filter (fun row => rowAfterCursor (rw_SeriesID row) (rw_Timestamp row) position = true) (wholeAnswer table)
                      | None => wholeAnswer table
                      end), None).
Proof using Hq Laws.
  intros Ht Hc. destruct Hq as [Hs Hp Hd Hl Ho Hb Hm _].
  destruct (row_query_answers schema e V Hs (withCursor query token) cursor) as (table' & rows & err & Ht' & -> & [_ Hrows] & Herr).
  { rewrite normalized_cursor. destruct Hp as [P1 P2 P3 P4 P5 P6]. by destruct nq. }
  { by rewrite normalized_cursor. }
  rewrite normalized_cursor in *. assert (table' = table) as ->.
  { eapply table_of_unique; [|exact Ht]. clear -Ht'. destruct nq. destruct Ht' as [T1 T2 T3 T4]. split; assumption. }
  rewrite (Herr Hm) in * by by destruct nq. rewrite Hrows by done. clear Hrows Herr Ht' Hc. f_equal. f_equal.
  rewrite <- normalized_order in Hd. assert (NoDup (map rowKey (map (projected nq) (filter (fun row => rowPasses nq row = true) table)))) as Hn.
  { apply (behind_keys nq None). apply row_lt_NoDup, Ht. }
  assert (rowAnswer (withCursor nq token) cursor table = pageRows (qu_Limit nq) (qu_Offset nq)
    (inOrder nq (behind cursor (map (projected nq) (filter (fun row => rowPasses nq row = true) table))))) as -> by by destruct nq.
  unfold pageRows, inOrder. rewrite Hd, Ho. destruct (0 <? qu_Limit nq) eqn:El; [|lia]. rewrite drop_0. f_equal. unfold wholeAnswer.
  destruct cursor as [position|]; [|done]. by apply filter_sortRowsDesc.
Qed.
Lemma projected_words table row : table_of e V nq table -> row ∈ wholeAnswer table -> is_u64 (rw_SeriesID row) /\ is_i64 (rw_Timestamp row).
Proof using Hq.
  intros Ht Hr. unfold wholeAnswer in Hr. rewrite sortRowsDesc_perm in Hr. apply list_elem_of_fmap in Hr as (r & -> & [_ Hr]%list_elem_of_filter).
  pose proof (projected_key nq r) as Hk. unfold rowKey in Hk. injection Hk as -> ->.
  destruct (proj1 (tb_rows _ _ _ _ Ht (rw_SeriesID r) (rw_Timestamp r))) as (s & id & f & x & _ & _ & Hx & Et & _); [by exists r|].
  rewrite <- Et. exact (pd_words Hq _ _ Hx).
Qed.

Lemma cursor_decodes row : is_u64 (rw_SeriesID row) -> is_i64 (rw_Timestamp row) -> exists token,
  EncodeCursor (CursorFromRow row (qu_Order query)) = Ok token /\
  queryCursor (withCursor nq token) = Ok (Some (mkCursor (rw_SeriesID row) (rw_Timestamp row) QuerySortDesc)).
Proof using Hq.
  intros Hu Hi. pose proof (pd_desc Hq) as Hd. assert (cursorDirection (qu_Order query) = QuerySortDesc) as Edir.
  { unfold cursorDirection. unfold descByTime in Hd. by rewrite Hd. }
  destruct (cursor_roundtrip (CursorFromRow row (qu_Order query))) as (token & Ee & Ed); [cbn; by rewrite Edir|done|done|].
  exists token. split; [done|]. unfold queryCursor, cursorPositionForQuery.
  assert (qu_Cursor (withCursor nq token) = token /\ qu_Order (withCursor nq token) = qu_Order query) as [-> ->].
  { rewrite <- normalized_order. by destruct nq. }
  rewrite bool_decide_false; [|by intros ->]. cbn [negb]. rewrite Ed. unfold CursorFromRow. rewrite Edir. cbn [cu_Direction mbind outcome_bind]. by rewrite Z.eqb_refl.
Qed.
Lemma readPages_suffix table fuel : table_of e V nq table -> forall before after token, wholeAnswer table = before ++ after ->
  (length after < fuel)%nat -> QueryRows e (withCursor query token) = Some (take size_ after, None) ->
  exists pages, readPages fuel e query token = pages ++ [[]] /\ concat pages = after /\
    Forall (fun page => page <> [] /\ len page <= qu_Limit nq) pages.
Proof using Hq Laws.
  intros Ht. induction fuel as [|fuel IH]; intros before after token Hsplit Hf Hrows; [lia|]. cbn [readPages]. rewrite Hrows.
  pose proof (pd_limit Hq) as Hl. destruct (last (take size_ after)) as [row|] eqn:El.
  2: { apply last_None in El. destruct after as [|x after]; [exists []; by rewrite take_nil|]. destruct size_ eqn:Es; [lia|done]. }
  apply last_Some in El as [l El]. assert (after = take size_ after ++ drop size_ after) as Hafter by by rewrite take_drop.
  set (rest := drop size_ after) in *. rewrite El, <- (assoc_L (++)) in Hafter. cbn [app] in Hafter.
  assert (wholeAnswer table = (before ++ l) ++ row :: rest) as Hwhole by by rewrite Hsplit, Hafter, (assoc_L (++)).
  destruct (projected_words table row Ht) as [Hu Hi]; [rewrite Hwhole; apply elem_of_app; right; left|].
  destruct (cursor_decodes row Hu Hi) as (token' & -> & Hc).
  assert (QueryRows e (withCursor query token') = Some (take size_ rest, None)) as Hnext.
  { rewrite (query_page_at token' _ table Ht Hc). f_equal. f_equal. f_equal.
    rewrite (list_filter_iff _ (fun x => rowAfterTimeDesc row x = true)) by (intros x; by rewrite after_cursor).
    rewrite Hwhole. apply descending_behind. rewrite <- Hwhole. apply sortRowsDesc_descending.
    apply (behind_keys nq None). apply row_lt_NoDup, Ht. }
  destruct (IH (before ++ l ++ [row]) rest token') as (pages & -> & Hpages & Hall).
  { rewrite Hwhole. by rewrite <- !(assoc_L (++)). }
  { rewrite Hafter in Hf. rewrite length_app in Hf. simpl in Hf. lia. }
  { done. }
  exists ((l ++ [row]) :: pages). rewrite El. cbn [app concat]. split; [done|]. split; [by rewrite Hpages, <- (assoc_L (++))|].
  constructor; [|done]. split; [by destruct l|]. rewrite <- El. unfold len. rewrite length_take. lia.
Qed.
Lemma readPages_complete table : table_of e V nq table -> exists pages,
  readPages (S (length table)) e query [] = pages ++ [[]] /\ concat pages = wholeAnswer table /\
  Forall (fun page => page <> [] /\ len page <= qu_Limit nq) pages.
Proof using Hq Laws.
  intros Ht. apply (readPages_suffix table _ Ht []); [done| |].
  - unfold wholeAnswer. rewrite (Permutation_length (sortRowsDesc_perm _)), length_map. pose proof (length_filter (fun row => rowPasses nq row = true) table). lia.
  - rewrite (query_page_at [] None table Ht); [done|]. unfold queryCursor. by replace (qu_Cursor (withCursor nq [])) with (@nil Z) by by destruct nq.
Qed.
End pages.

(** ** Windows of aggregates *)
Section windows.
  Context `{GoRuntime} (fn : bytes) (window : Z).
(** The windows that hold a sample, and the samples of one. *)
Definition windowsOf (points : list aggregatePoint) : list Z := ascending (list_to_set (map (fun p => windowOf window p.1) points)).
Definition windowPoints (w : Z) (points : list aggregatePoint) : list aggregatePoint := filter (fun p => windowOf window p.1 = w) points.
(** One value per window; the type is that of the last value. *)
Fixpoint windowValues (fieldType : Z) (ws : list Z) (points : list aggregatePoint) : outcome (Z * list aggregatePoint) :=
  match ws with
  | [] => Ok (fieldType, [])
  | w :: ws' =>
      v ← aggregateValuesByTime (windowPoints w points).*2 (windowPoints w points).*1 fn;
      '(fieldType, out) ← windowValues (fv_Type v) ws' points;
      Ok (fieldType, (w, v) :: out)
  end.
Definition timed (points : list aggregatePoint) : Prop := StronglySorted (fun p q => p.1 < q.1) points.

Lemma windowValues_ext ws points points' : (forall w, w ∈ ws -> windowPoints w points = windowPoints w points') ->
  forall fieldType, windowValues fieldType ws points = windowValues fieldType ws points'.
Proof.
  induction ws as [|w ws IH]; intros Hw fieldType; [done|]. cbn [windowValues]. rewrite (Hw w) by left.
  destruct (aggregateValuesByTime _ _ _) as [v|err|p]; [|done|done]. cbn. rewrite (IH (fun w' Hin => Hw w' (list_elem_of_further _ _ _ Hin))). done.
Qed.
Lemma windowPoints_cons w p points : windowPoints w (p :: points) = if decide (windowOf window p.1 = w) then p :: windowPoints w points else windowPoints w points.
Proof. unfold windowPoints. by rewrite filter_cons. Qed.
Lemma windowPoints_app w points points' : windowPoints w (points ++ points') = windowPoints w points ++ windowPoints w points'.
Proof. apply filter_app. Qed.
Lemma windowPoints_all w points : Forall (fun p => windowOf window p.1 = w) points -> windowPoints w points = points.
Proof. induction 1 as [|p points Hp HF IH]; [done|]. by rewrite windowPoints_cons, decide_True, IH. Qed.
Lemma windowPoints_none w points : Forall (fun p => windowOf window p.1 <> w) points -> windowPoints w points = [].
Proof. induction 1 as [|p points Hp HF IH]; [done|]. by rewrite windowPoints_cons, decide_False. Qed.
Lemma takeWindow_spec end_ points : timed points -> (takeWindow end_ points).1 ++ (takeWindow end_ points).2 = points /\
  Forall (fun p => p.1 < end_) (takeWindow end_ points).1 /\ Forall (fun p => end_ <= p.1) (takeWindow end_ points).2.
Proof.
  induction 1 as [|p points Hs IH Hp]; [done|]. cbn [takeWindow]. destruct (p.1 <? end_) eqn:E.
  - destruct (takeWindow end_ points) as [w rest]. cbn [fst snd app] in *. destruct IH as (<- & H1 & H2). split_and!; [done| |done].
    constructor; [lia|done].
  - cbn [fst snd app]. split_and!; [done|constructor|]. constructor; [lia|]. eapply Forall_impl; [exact Hp|]. intros q Hq. cbn beta in Hq. apply Z.ltb_ge in E. lia.
Qed.
Context (Hwindow : 0 < window).
Definition placed (p : aggregatePoint) : Prop := 0 <= p.1 /\ p.1 + window < 2 ^ 63.
Lemma windowOf_placed t : 0 <= t -> t + window < 2 ^ 63 -> windowOf window t = t / window * window.
Proof using Hwindow.
  intros H1 H2. unfold windowOf. rewrite Z.quot_div_nonneg by lia. apply i64_id. unfold is_i64.
  pose proof (Z.mul_div_le t window Hwindow). pose proof (Z.div_pos t window H1 Hwindow). nia.
Qed.
Lemma windowOf_range t : 0 <= t -> t + window < 2 ^ 63 -> windowOf window t <= t < windowOf window t + window /\ 0 <= windowOf window t.
Proof using Hwindow.
  intros H1 H2. rewrite windowOf_placed by done. pose proof (Z.div_mod t window ltac:(lia)). pose proof (Z.mod_pos_bound t window Hwindow).
  pose proof (Z.div_pos t window H1 Hwindow). nia.
Qed.
Lemma windowOf_same t u : 0 <= t -> u + window < 2 ^ 63 -> t <= u < windowOf window t + window -> windowOf window u = windowOf window t.
Proof using Hwindow.
  intros H1 H2 H3. pose proof (windowOf_range t H1 ltac:(lia)). rewrite (windowOf_placed t), (windowOf_placed u) in * by lia. f_equal.
  symmetry. apply (Z.div_unique u window (t / window) (u - t / window * window)); lia.
Qed.
Lemma windowOf_later t u : 0 <= t -> 0 <= u -> t + window < 2 ^ 63 -> u + window < 2 ^ 63 -> windowOf window t + window <= u -> windowOf window t < windowOf window u.
Proof using Hwindow.
  intros H1 H2 H3 H4 H5. pose proof (windowOf_range u H2 H4). pose proof (windowOf_range t H1 H3). lia.
Qed.
(** The windows of a nonempty column: the first one and those of the rest. *)
Lemma windows_step p points : timed (p :: points) -> Forall placed (p :: points) ->
  let w := takeWindow (i64 (windowOf window p.1 + window)) points in
  windowsOf (p :: points) = windowOf window p.1 :: windowsOf w.2 /\
  windowPoints (windowOf window p.1) (p :: points) = p :: w.1 /\
  forall v, v ∈ windowsOf w.2 -> windowPoints v (p :: points) = windowPoints v w.2.
Proof using Hwindow.
  intros Hs HF. apply StronglySorted_inv in Hs as [Hs Hp]. apply Forall_cons in HF as [[P1 P2] HF].
  pose proof (windowOf_range p.1 P1 P2) as Hr. rewrite i64_id by (unfold is_i64; lia).
  destruct (takeWindow_spec (windowOf window p.1 + window) points Hs) as (Happ & H1 & H2).
  destruct (takeWindow _ points) as [w rest]. cbn [fst snd] in *. subst points.
  apply Forall_app in Hp as [Hp1 Hp2]. apply Forall_app in HF as [HF1 HF2].
  assert (Forall (fun q => windowOf window q.1 = windowOf window p.1) w) as Hw.
  { rewrite Forall_forall in Hp1, H1, HF1 |- *. intros q Hq. specialize (Hp1 q Hq). specialize (H1 q Hq). destruct (HF1 q Hq). apply windowOf_same; lia. }
  assert (Forall (fun q => windowOf window p.1 < windowOf window q.1) rest) as Hlt.
  { rewrite Forall_forall in H2, HF2 |- *. intros q Hq. specialize (H2 q Hq). destruct (HF2 q Hq). apply windowOf_later; lia. }
  assert (forall v, v ∈ windowsOf rest -> windowOf window p.1 < v) as Hgt.
  { intros v Hv. unfold windowsOf in Hv. apply elem_of_ascending, elem_of_list_to_set, list_elem_of_fmap in Hv as (q & -> & Hq).
    rewrite Forall_forall in Hlt. by apply Hlt. }
  assert (forall v, v <> windowOf window p.1 -> windowPoints v w = []) as Hnone.
  { intros v Hv. apply windowPoints_none. eapply Forall_impl; [exact Hw|]. cbn beta. congruence. }
  split_and!.
  - symmetry. apply ascending_unique.
    + constructor; [apply ascending_sorted|]. apply Forall_forall. exact Hgt.
    + intros v. rewrite elem_of_cons. unfold windowsOf. rewrite elem_of_ascending, !elem_of_list_to_set. cbn [map]. rewrite map_app, elem_of_cons, elem_of_app.
      split; [tauto|]. intros [->|[Hv|Hv]]; [by left| |by right]. left. apply list_elem_of_fmap in Hv as (q & -> & Hq).
      rewrite Forall_forall in Hw. by apply Hw.
  - rewrite windowPoints_cons, decide_True, windowPoints_app by done. rewrite (windowPoints_none _ rest), app_nil_r.
    + f_equal. by apply windowPoints_all.
    + eapply Forall_impl; [exact Hlt|]. cbn beta. lia.
  - intros v Hv. specialize (Hgt v Hv). rewrite windowPoints_cons, decide_False by lia. by rewrite windowPoints_app, (Hnone v) by lia.
Qed.
Lemma windowLoop_values fuel : forall fieldType points, timed points -> Forall placed points -> (length points <= fuel)%nat ->
  windowLoop fuel fn window fieldType points = windowValues fieldType (windowsOf points) points.
Proof using Hwindow.
  induction fuel as [|fuel IH]; intros fieldType [|p points] Hs HF Hf; simpl in Hf; try lia; [done..|]. cbn [windowLoop].
  destruct (windows_step p points Hs HF) as (-> & Ep & Erest). cbn [windowValues]. rewrite Ep.
  apply StronglySorted_inv in Hs as [Hs _]. apply Forall_cons in HF as [_ HF].
  destruct (takeWindow_spec (i64 (windowOf window p.1 + window)) points Hs) as (Happ & _ & _).
  destruct (takeWindow _ points) as [w rest]. cbn [fst snd] in *. destruct (aggregateValuesByTime _ _ _) as [v|err|pn]; [|done|done].
  cbn [mbind outcome_bind]. rewrite (windowValues_ext _ (p :: points) rest) by done. rewrite <- IH; [done|..].
  - unfold timed in *. rewrite <- Happ in Hs. by apply StronglySorted_app in Hs as (_ & _ & ?).
  - rewrite <- Happ in HF. by apply Forall_app in HF as [_ ?].
  - rewrite <- Happ, length_app in Hf. lia.
Qed.
End windows.

(** ** Theorems *)
Section theorems.
  Context `{GoRuntimeLaws}.



(** C29: aggregating a column in time order into windows gives one value per window that
    holds a sample, computed from exactly the samples of that window, in the order of
    the windows, or the error of the first window that has one; the times are not
    negative and leave room for a window below 2^63. *)
Theorem windowed_values fn window out points : 0 < window -> timed points -> Forall (placed window) points ->
  windowed out points fn window =
    ('(fieldType, samples) ← windowValues fn window (cl_FieldType out) (windowsOf window points) points;
     Ok (columnWith (withType out fieldType) samples.*1 samples.*2)).
Proof. intros Hw Ht HF. unfold windowed. by rewrite (windowLoop_values fn window Hw). Qed.
End theorems.

(** ** An engine with two series *)
#[local] Existing Instances refRuntime refRuntimeLaws.
Definition ex_series (id : Z) (host : string) : Series := mkSeries id (str "cpu") {[str "host" := str host]}.
Definition ex_field : Field := mkField 1 (str "cpu") (str "load") FieldInt64.
Definition ex_index : Index :=
  catApplyField ex_field (applySeries (ex_series 2 "b") (applySeries (ex_series 1 "a") emptyIndex)).
Definition ex_at (t seq v : Z) : VersionedSample := mkSample t seq (Int64Value v).
Definition ex_columns : list ColumnData :=
  [mkColumnData 1 1 FieldInt64 [ex_at 10 1 5; ex_at 30 3 7]; mkColumnData 2 1 FieldInt64 [ex_at 20 2 6; ex_at 40 4 8]].
Definition ex_queryShard : queryShard :=
  mkQueryShard (str "db") (str "rp") 0 99 (fun query => Ok (mkStream (selectColumns query ex_columns) None)).
Definition ex_engine : Engine :=
  mkEngine (mkQueryOptions (str "db") (str "rp") 0 0 0)
    (mkCatalog [] false (mkLimits 0 0 0) ex_index ∅ ∅ (mkDownsampling ∅ ∅) 0 0)
    {[str "db/rp/0" := ex_queryShard]} None.
Definition ex_query (direction limit : Z) : Query :=
  mkQuery [] [] (str "cpu") ∅ [] 0 99 [] zeroExpr [] 0 (mkGroup [] 0) (mkOrder QueryOrderByTime direction) limit 0 [] (mkBudget 0 0 0).

Definition ex_V : bytes -> contents := fun id k => if decide (id = str "db/rp/0") then of_column k ex_columns else [].
Lemma ex_contents k x : x ∈ of_column k ex_columns ->
  (k = (1, 1) /\ x ∈ [ex_at 10 1 5; ex_at 30 3 7]) \/ (k = (2, 1) /\ x ∈ [ex_at 20 2 6; ex_at 40 4 8]).
Proof.
  unfold of_column. rewrite elem_of_concat. intros (l & Hx & (c & -> & [Hk Hc]%list_elem_of_filter)%list_elem_of_fmap).
  unfold ex_columns in Hc. apply elem_of_cons in Hc as [->|Hc%list_elem_of_singleton]; [left|right; subst c]; done.
Qed.
Lemma ex_no_series id s : ix_series emptyIndex !! id = Some s -> False.
Proof. change (ix_series emptyIndex) with (∅ : gmap Z Series). by rewrite lookup_empty. Qed.
Lemma ex_no_fields id f : ix_fields emptyIndex !! id = Some f -> False.
Proof. change (ix_fields emptyIndex) with (∅ : gmap Z Field). by rewrite lookup_empty. Qed.
Lemma ex_index_ok : index_ok ex_index.
Proof.
  destruct (applySeries_ok emptyIndex (ex_series 1 "a")) as (H1 & E1 & _); cbn [ex_series se_ID se_Measurement se_Tags];
    [by apply index_ok_empty|by_decide|lia|lia|by left|intros id s Hs; by apply ex_no_series in Hs|].
  cbn [ex_series se_ID] in E1. set (ix := applySeries (ex_series 1 "a") emptyIndex) in *.
  destruct (applySeries_ok ix (ex_series 2 "b")) as (H2 & E2 & _); cbn [ex_series se_ID se_Measurement se_Tags];
    [exact H1|by_decide|lia|lia|left; by rewrite E1| |].
  { clearbody ix. clear H1. intros id s Hs _ Et. rewrite E1, lookup_insert_Some in Hs. destruct Hs as [[_ Es]|[_ Hs]].
    - subst s. apply (f_equal (fun m : gmap bytes bytes => m !! str "host")) in Et. by vm_compute in Et.
    - exfalso. exact (ex_no_series id s Hs). }
  apply applyField_ok; cbn [ex_field fd_ID fd_Measurement fd_Name]; [exact H2|by_decide|lia|lia| |].
  - left. vm_compute. reflexivity.
  - intros id f Hf. unfold ix, applySeries in Hf. cbn [ix_fields] in Hf. destruct (ex_no_fields id f Hf).
Qed.
Lemma ex_servable : servable (fun _ => FieldInt64) ex_columns.
Proof. split; [by repeat constructor; right || left|by repeat constructor]. Qed.
Lemma ex_shard_at id shard : en_shards ex_engine !! id = Some shard -> id = str "db/rp/0" /\ shard = ex_queryShard.
Proof. cbn. intros Hs. by apply lookup_singleton_Some in Hs as [<- <-]. Qed.
Lemma ex_served : served (fun _ => FieldInt64) ex_engine ex_V.
Proof.
  split.
  - exact ex_index_ok.
  - intros id shard query [-> ->]%ex_shard_at _. eexists. split; [done|]. split; [|done]. exact (select_answers _ query ex_columns ex_servable).
  - intros id shard k x [-> ->]%ex_shard_at Hx. unfold ex_V in Hx. rewrite decide_True in Hx by done.
    apply ex_contents in Hx as [[_ Hx]|[_ Hx]]; repeat (apply elem_of_cons in Hx as [->|Hx]; [cbn; lia|]); by apply elem_of_nil in Hx.
  - intros id shard k x [-> ->]%ex_shard_at Hx. unfold ex_V in Hx. rewrite decide_True in Hx by done.
    apply ex_contents in Hx as [[-> _]|[-> _]]; eexists _, _; split_and!; vm_compute; reflexivity.
  - intros query k x y Hx Hy Et _. apply elem_of_storedIn in Hx as (id & shard & [-> ->]%ex_shard_at & _ & Hx).
    apply elem_of_storedIn in Hy as (id' & shard' & [-> ->]%ex_shard_at & _ & Hy). unfold ex_V in Hx, Hy. rewrite decide_True in Hx, Hy by done.
    apply ex_contents in Hx as [[-> Hx]|[-> Hx]]; apply ex_contents in Hy as [[? Hy]|[? Hy]]; try done;
      repeat (apply elem_of_cons in Hx as [->|Hx]); repeat (apply elem_of_cons in Hy as [->|Hy]); by apply elem_of_nil in Hx || by apply elem_of_nil in Hy || done.
Qed.
Example ex_rows : (fun r => (map rowKey r.1, r.2)) <$> QueryRows ex_engine (ex_query QuerySortDesc 3) = Some ([(40, 2); (30, 1); (20, 2)], None).
Proof. vm_compute. reflexivity. Qed.
Lemma ex_plainRows direction limit : 0 <= limit <= 10 -> plainRows (normalizedQuery ex_engine (ex_query direction limit)).
Proof.
  intros Hl. assert (normalizedQuery ex_engine (ex_query direction limit) =
    mkQuery (str "db") (str "rp") (str "cpu") ∅ [] 0 99 [] zeroExpr [] 0 (mkGroup [] 0) (mkOrder QueryOrderByTime direction) limit 0 [] (mkBudget 0 0 0)) as ->.
  { unfold normalizedQuery, normalizeQuery, applyQueryProtection, ex_query. cbn. by rewrite andb_false_r. }
  split; cbn; unfold maxAlloc; lia || done.
Qed.
Lemma ex_cursor direction limit : queryCursor (normalizedQuery ex_engine (ex_query direction limit)) = Ok None.
Proof. unfold normalizedQuery, normalizeQuery, applyQueryProtection, ex_query. done. Qed.
Lemma ex_stored query k x : x ∈ storedIn ex_engine ex_V query k -> is_u64 k.1 /\ is_i64 (vs_Timestamp x).
Proof.
  intros (id & shard & [-> ->]%ex_shard_at & _ & Hx)%elem_of_storedIn. unfold ex_V in Hx. rewrite decide_True in Hx by done.
  apply ex_contents in Hx as [[-> Hx]|[-> Hx]]; (split; [by_decide|]);
    repeat (apply elem_of_cons in Hx as [->|Hx]; [by_decide|]); by apply elem_of_nil in Hx.
Qed.
Definition ex_points : list aggregatePoint := [(3, Int64Value 1); (8, Int64Value 2); (25, Int64Value 4)].
Lemma windowed_values_witness :
  windowed zeroColumnSeries ex_points (str "sum") 10 = Ok (columnWith (withType zeroColumnSeries FieldInt64) [0; 20] [Int64Value 3; Int64Value 4]) /\
  windowed zeroColumnSeries ex_points (str "sum") 10 =
    ('(fieldType, samples) ← windowValues (str "sum") 10 0 (windowsOf 10 ex_points) ex_points;
     Ok (columnWith (withType zeroColumnSeries fieldType) samples.*1 samples.*2)).
Proof.
  split; [vm_compute; reflexivity|]. apply (windowed_values (str "sum") 10 zeroColumnSeries ex_points).
  - reflexivity.
  - repeat constructor.
  - repeat (apply Forall_cons_2; [split; vm_compute; congruence|]). apply Forall_nil_2.
Defined.

(** ** Where the code does not do what it means to *)

(** In ascending order the rows come series by series, while the cursor is a
    position in the order of time: the pages of the example leave out the row of the
    second series at 20. *)
Theorem asc_pages_lose_rows :
  option_map (fun r => map rowKey r.1) (QueryRows ex_engine (ex_query QuerySortAsc 10)) = Some [(10, 1); (30, 1); (20, 2); (40, 2)] /\
  map (map rowKey) (readPages 9 ex_engine (ex_query QuerySortAsc 2) []) = [[(10, 1); (30, 1)]; [(40, 2)]; []].
Proof. split; vm_compute; reflexivity. Qed.
(** A descending query with the largest limit, which means no limit elsewhere,
    crashes when it sets up its heap. *)
Theorem desc_limit_crashes : QueryRows ex_engine (ex_query QuerySortDesc maxInt) = None.
Proof. vm_compute. reflexivity. Qed.
(** Below zero the division truncates: a sample at -5 lies in the window of 0 on its
    own and in the window of -10 behind a sample at -15. *)
Theorem negative_windows_depend_on_neighbours :
  windowOf 10 (-5) = 0 /\
  windowed zeroColumnSeries [(-5, Int64Value 1)] (str "count") 10 =
    Ok (columnWith (withType zeroColumnSeries FieldInt64) [0] [Int64Value 1]) /\
  windowed zeroColumnSeries [(-15, Int64Value 1); (-5, Int64Value 1)] (str "count") 10 =
    Ok (columnWith (withType zeroColumnSeries FieldInt64) [-10] [Int64Value 2]).
Proof. split_and!; vm_compute; reflexivity. Qed.
(** The difference of two values is offered with windows by the analyzer and
    refused by the executor. *)
Theorem windowed_difference_refused :
  windowed zeroColumnSeries ex_points (str "difference") 10 = Err ErrUnsupportedAggregate.
Proof. vm_compute. reflexivity. Qed.
